(* ===== verification/_CoqProject ===== *)
-Q . S2P
Nidhugg.v
Prelude.v
StdMap.v
VecSet.v
VClock.v
VClockMap.v
CPid.v
SymAddr.v
ByteOps.v
SymEv.v
ReplayMem.v
WakeupTree.v
TSOState.v
TSOOps.v
TSOHandlers.v
TSOInv.v
TSOMem.v
TSOSync.v
TSOSched.v
TSOClocks.v
TSORaces.v
TSOKeeps.v
TSOAbs.v
TSORun.v
TSOSafety.v
TSOSpec.v
TSOLive.v
TSOHb.v
TSOVclocks.v
TSOTraceOk.v
TSOTidy.v
TSOTidyRun.v
TSOLockOrder.v
TSOClockSpec.v
TSOExplore.v
TSORounds.v
SatGraph.v
SatWf.v
SatLoop.v
SatRun.v
SatClosed.v
SatReverse.v
SatSound.v
SatBuild.v
SatAdd.v
SatSpec.v
GenMap.v
GenMapTree.v
GenMapNodes.v
GenMapMut.v
GenMapRead.v
GenMapWorld.v
GenMapCopies.v
GenMapSpec.v
Prefix.v
PrefixPlace.v
PrefixSpec.v
Unfold.v
UnfoldSpec.v
Sched.v
SchedLaws.v
SchedSteal.v
SchedSpec.v
Decision.v
Rfsc.v
RfscAnalysis.v
RfscExplore.v
RfscPast.v
RfscFormula.v
RfscGraph.v
RfscSat.v
RfscTrace.v
RfscInv.v
RfscRun.v
RfscOps.v
RfscExec.v
RfscReplay.v
SExpr.v
Smtlib.v
RfscSpec.v
