(* ===== verification/Nidhugg.v ===== *)
(** * Nidhugg: a verified model of the stateless model checker

    Nidhugg explores the executions of a concurrent program, one scheduling at a
    time. An interpreter of LLVM code runs the program; at every instruction it
    asks a _trace builder_ which thread goes next ([schedule]) and tells it what
    the instruction does ([store], [load], [mutex_lock], ...). The trace builder
    records the execution, finds the races between its events, and plans the
    executions that reverse them in a tree ([reset]), until nothing is left to
    explore. This development models the trace builder for total store order,
    the default, the one of the reads-from exploration for sequential consistency,
    and the data structures they are made of.

    ** Conventions

    A C++ operation with a precondition (an [assert], an index, the back of a
    vector) is a function to [option]: [None] stands for undefined behaviour or
    an aborted run, and theorems of the form "the result is [Some]" say that it
    does not happen. Methods of the trace builder are computations in the state
    monad [M] over the record of its fields (TSOState). Machine integers are
    [Z] with the wrap-around written out where a width matters; [std::vector] is
    [list], [std::map] an association list sorted by its key (StdMap). What the
    code leaves to its surroundings is a parameter: the byte order of the host,
    the order in which [std::partition] leaves its elements, that in which the
    hash map of [SaturatedGraph] is iterated ([SaturatedGraph] is modelled over
    finite maps and sequences), the hash of a key, the estimate of
    the number of traces (a [long double]). Loops without a structural measure
    have fuel; each definition says how much and why it suffices.

    ** Parts and files

    Data structures (src/src):
    - Prelude, StdMap: notation, generic lemmas, ordered maps;
    - VecSet: vecset.h, vecset.tcc, sets as sorted vectors;
    - VClock, VClockMap: VClock.h, VClock.cpp and VClock.tcc, vector clocks over
      process indices and over an ordered domain;
    - CPid: CPid.h, CPid.cpp, IID.h, process and event identifiers;
    - SymAddr: SymAddr.h, SymAddr.cpp, symbolic addresses and ranges;
    - ByteOps: AwaitCond.cpp, RMWAction.cpp, integer operations on bytes;
    - SymEv: SymEv.h, SymEv.cpp, symbolic events, and the conflict relation of
      TSOTraceBuilder.cpp;
    - WakeupTree: WakeupTrees.h, WakeupTrees.tcc, the tree of executions to
      explore with the stack of events of the current one.

    The trace builder (TSOTraceBuilder.h, TSOTraceBuilder.cpp):
    - TSOState: fields and basic steps; TSOOps: races, edges, waking, recording;
      TSOHandlers: one definition per method an instruction calls; TSOSched:
      [schedule], [refuse_schedule], the preparation of the next execution;
    - ReplayMem: what memory holds, recomputed from the recorded events;
    - TSOClocks: [compute_vclocks]; TSORaces: [do_race_detect], [reset] and
      [check_for_cycles].

    - GenMap: GenMap.h, GenHash.h, the persistent hash map; GenMapTree,
      GenMapNodes, GenMapMut, GenMapRead: its tree and what each operation does to
      the cells; GenMapWorld, GenMapCopies:
      all maps together; GenMapSpec: the properties for callers.

    The reads-from exploration:
    - SatGraph: SaturatedGraph.h, SaturatedGraph.cpp, the incremental graph that
      decides whether a choice of reads-from can be a sequentially consistent
      execution; SatWf, SatLoop, SatRun, SatClosed, SatReverse,
      SatSound, SatBuild, SatAdd: its invariant and what each operation does;
      SatSpec: the properties for callers;
    - Prefix: PrefixHeuristic.cpp, which completes a saturated graph to an
      execution; PrefixPlace: its topological order and its guesses;
      PrefixSpec: the properties for callers;
    - Decision: RFSCDecisionTree.h, RFSCDecisionTree.cpp, leaves and decision
      nodes, and the shape of every tree the calls build;
    - Rfsc: RFSCTraceBuilder.h, RFSCTraceBuilder.cpp, the state, [schedule], one
      definition per method, [reset]; RfscAnalysis: vector clocks, [causal_past],
      [output_formula], leaves, outcomes of compare-exchanges; RfscExplore:
      [compute_unfolding], [try_sat], the closures of [compute_prefixes];
      RfscPast, RfscFormula, RfscGraph, RfscSat: the past, the formula and its
      models, the graph as calls of the interface of SatGraph; RfscTrace: what a
      trace is, and what follows from it; RfscInv, RfscRun, RfscOps, RfscExec: the
      invariant of a run, kept by every call; RfscReplay: leaves and changes of
      outcome, and back; RfscSpec: the properties;
    - SExpr: SExpr.h, SExpr.cpp, reading and writing s-expressions; Smtlib:
      SmtlibSatSolver.h, SmtlibSatSolver.cpp, the formula as SMT-LIB text to the
      solver behind a pipe, and its answers;
    - Unfold: RFSCUnfoldingTree.h, RFSCUnfoldingTree.cpp, the tree that gives every
      program event one node, with its weak pointers; UnfoldSpec: its properties;
    - Sched: RFSCDecisionTree.h, RFSCDecisionTree.cpp, the two schedulers of decision
      nodes behind the interface [Scheduler], in steps between two actions on a
      lock or condition variable, and [run_rfsc_parallel] of DPORDriver.cpp as
      their client; SchedLaws: the contract [SchedulerLaws] and the priority
      queue; SchedSteal: work stealing; SchedSpec: the parallel exploration.

    In the theorems about executions an event is one call of [schedule], then possibly a
    [fence] (as creating and joining a thread and unknown external functions
    make), then at most one other call ([perform], TSOKeeps); TSOSafety makes this
    a step relation, [step], with the obligations the interpreter meets, and
    [reachable] states. The blocks that the interpreter runs as one event with
    several calls (functions declared atomic) are not such steps; for TSORounds
    an execution is any sequence of calls.

    ** What is proved

    - The data structures implement their mathematical counterparts (sets,
      joins and orders, byte ranges, integer arithmetic, trees as stacks), stay
      in bounds, and keep their invariants.
    - Conflict: what the code declares independent commutes in memory; the
      backward scans of ReplayMem agree with running the events forwards.
    - TSOInv, TSOMem, TSOSync, TSORun: a weakest-precondition calculus and the
      invariant of the trace builder, kept by every method; TSOSpec: every
      reachable state satisfies it, an execution never fails an assertion, and
      what each method does; TSOLive: with an unbounded search depth, store
      buffers drain before other threads run; TSOAbs: executions simulate an abstract TSO machine with a queue of
      stores per thread.
    - TSOHb, TSOVclocks, TSOTraceOk: on a well-formed trace
      [compute_vclocks] succeeds, its clocks decide happens-before, and the
      races it leaves are minimal. TSOTidy, TSOTidyRun, TSOLockOrder: executions
      leave such traces; TSOClockSpec: the theorems for executions.

    - TSOExplore: [reset] enters the deepest unexplored alternative; TSORounds:
      executions, whatever methods they call, add nothing to the plan, race
      detection only adds, each [reset] uses up one planned event, so the
      exploration ends unless races are found.
    - GenMapSpec: maps that share cells are independent finite maps under the
      copying discipline of GenMap.h, for every hash function that spreads keys
      (13 levels of nodes make 64 bits, the fuel [levels]; a chain of leaves is
      no longer than the heap); in every world the operations reach, the cells
      are exactly those that live maps reach.
    - SatSpec: saturation of an acyclic graph ends (fuel [saturate_fuel n] =
      [(n * n + 1) * (n + 1)] rounds for [n] events, since every round shortens
      the queue of at most [n] events or raises one of [n] clocks with room for
      [n] steps each), never discards an execution, and on success the clocks
      are exactly reachability and the graph is closed under the rules; a
      cyclic graph can make it fail an assertion.
    - PrefixSpec: a prefix completed from a saturated graph is an execution of
      its events under sequential consistency, and the topological sort (fuel
      one more than the number of events, since every call marks one) is right.

    - RfscSpec: a run without errors, from the start or from a leaf, records an
      execution under sequential consistency, well-formed for what follows;
      [causal_past] (fuel one more than the number of events, since every call
      marks one) keeps exactly what a decision depends on; the models of the
      formula are exactly the executions of the kept events, and [try_sat] finds
      one when there is one; a leaf is unpacked into the events it was made of;
      changes of outcome are undone; the walks up the decision tree (fuel: the
      depth, which falls at every step) end and answer for the path to the root.
    - SExpr, Smtlib: the reader of s-expressions is total (fuel [read_fuel], twice
      the length of the text and a little: every call but the last of a list takes
      a character) and inverts the writer; with integers, the text of a formula
      means the formula, so a solver process that keeps to SMT-LIB gives [try_sat]
      an execution or rightly none, provided [std::vector] does not check
      subscripts ([get_model] writes beyond the size of one); with bit vectors, the widths are right but for
      one variable more than a power of sixteen.
    - UnfoldSpec: in every tree that clients can build, holding and releasing
      nodes in any order, a live node is one event and no event has two nodes
      (the scan drops or passes an element in every round, so one round more than
      the list has elements is enough fuel).
    - SchedSpec: under both schedulers, with any number of threads and all
      interleavings, the parallel exploration runs every node it enqueues exactly
      once and is never stuck before it is over; no two threads use one work
      queue at a time. A node found pruned breaks this: the threads sleep for ever.

    ** Assumptions

    Executions start in the initial state and do not replay a prefix. The
    theorems about methods take the configuration without the self checks of
    debug builds ([check_conflicts = false]). A trace has fewer than 2^31 events.
    Awaits are modelled ([load_await], [xchg_await] and their failures) but are
    not among the calls of [step]. The clock theorems ask that a successful-lock
    race is the only race that orders its event ([lone_locks]); TSOClockSpec shows
    why. The conflict test is sound but for two NANDs and, in the bytes they write,
    two stores nobody observes; [awaitcond_satisfied_by] needs the stores to the
    awaited range to lie inside it; [recompute_observed] can miss an observed store
    that a full memory conflict follows.

    The atomic variables of the schedulers and the driver, and the accesses
    between two actions on a lock, are steps of one interleaving: sequential
    consistency, where the code asks for acquire and release order or less.

    In runs of the reads-from exploration no address is used both for data and for
    a mutex, accesses are to valid ranges, and an event that is being replayed is
    not refused. The order in which the hash map of the graph is iterated, the
    answer of the solver to a formula and the switch of the heuristic are
    parameters; the solver is asked only to be right ([solver_ok], which the
    exhaustive [search] of RfscSpec satisfies). The process behind the pipe is a
    parameter as well, asked to answer the scripts it gets as SMT-LIB says
    ([smtlib_process], which [demo_process] satisfies on a formula); there the
    formula has at least two variables and fewer than 2^31, which the reader can
    represent.

    ** Not modelled

    The interpreter and the passes (their values are LLVM classes), the other
    trace builders (partial store order, POWER and ARM), the rest of the driver,
    printing and debug output, the process of the SMT solver. Of the reads-from
    exploration, the methods of condition variables and nondeterministic events are
    the error they report: the code behind it is never run. *)
