(* ===== verification/Prelude.v ===== *)
(** * Prelude: notation, tactics and generic lemmas *)

From Stdlib Require Export ZArith Lia.
From stdpp Require Export sorting strings gmap.
From stdpp Require Export list numbers.
Export stdpp.list_basics.list stdpp.list_relations.list stdpp.list_monad.list
  stdpp.list_misc.list.

(** ** Undefined behaviour and assertions

    C++ operations that may be undefined (an index out of range, the back of an
    empty vector, a failed [assert]) return [option]: [None] is "the C++ program
    has no defined behaviour here (or aborts)". The theorems establish [Some]. *)

#[global] Arguments Nat.div : simpl never.
#[global] Arguments Nat.modulo : simpl never.

Definition cassert (b : bool) : option unit := if b then Some tt else None.

(** [v\[i\] = x] on a [std::vector]: writing out of range is undefined. *)
Definition vset {A} (v : list A) (i : nat) (x : A) : option (list A) :=
  if decide (i < length v) then Some (<[i := x]> v) else None.

(** [v.back()]. *)
Definition vback {A} (v : list A) : option A := last v.

(** [v.pop_back()]. *)
Definition vpop {A} (v : list A) : option (list A) :=
  match v with [] => None | _ => Some (take (length v - 1) v) end.

(** Reading and writing at an [int] index. *)
Definition zget {A} (v : list A) (i : Z) : option A :=
  if decide (0 <= i)%Z then v !! Z.to_nat i else None.

Definition zset {A} (v : list A) (i : Z) (x : A) : option (list A) :=
  if decide (0 <= i)%Z then vset v (Z.to_nat i) x else None.

(** ** Machine integers

    A value of a [w]-bit type is a [Z]; conversions and arithmetic that may
    leave the range are wrapped explicitly. *)

Definition wrapu (w x : Z) : Z := (x mod 2 ^ w)%Z.
Definition wraps (w x : Z) : Z := ((x + 2 ^ (w - 1)) mod 2 ^ w - 2 ^ (w - 1))%Z.

Lemma wrapu_range w x : (0 <= w -> 0 <= wrapu w x < 2 ^ w)%Z.
Proof. intros. apply Z.mod_pos_bound. lia. Qed.
Lemma wrapu_id w x : (0 <= x < 2 ^ w -> wrapu w x = x)%Z.
Proof. intros. by apply Z.mod_small. Qed.
Lemma wraps_id w x : (0 < w -> - 2 ^ (w - 1) <= x < 2 ^ (w - 1) -> wraps w x = x)%Z.
Proof.
  intros Hw Hx. unfold wraps. rewrite Z.mod_small; [lia|].
  replace (2 ^ w)%Z with (2 * 2 ^ (w - 1))%Z; [lia|].
  rewrite <-Z.pow_succ_r by lia. f_equal. lia.
Qed.

(** ** Comparison operators

    [LtB T] is the type's [operator<] (or its [Compare] functor); [LtOrder T]
    states that it is a strict total order, which is what the containers that
    take a comparator rely on. *)

Class LtB (T : Type) := ltb : T -> T -> bool.
#[global] Hint Mode LtB ! : typeclass_instances.

Class LtOrder (T : Type) `{LtB T} : Prop := {
  ltb_irrefl (x : T) : ltb x x = false;
  ltb_trans (x y z : T) : ltb x y = true -> ltb y z = true -> ltb x z = true;
  ltb_total (x y : T) : ltb x y = false -> ltb y x = false -> x = y;
}.
#[global] Hint Mode LtOrder ! - : typeclass_instances.

Declare Scope nidhugg_scope.
Delimit Scope nidhugg_scope with nidhugg.
Notation "x <? y" := (ltb x y) (at level 70, no associativity) : nidhugg_scope.
Notation "x ⊏ y" := (ltb x y = true) (at level 70, no associativity) : nidhugg_scope.
Notation "x ⋢ y" := (ltb x y = false) (at level 70, no associativity) : nidhugg_scope.

Create HintDb nidhugg.

Section lt_order.
  Context {T : Type} `{LtOrder T}.
  Local Open Scope nidhugg_scope.

Lemma ltb_asym (x y : T) : x ⊏ y -> y ⋢ x.
Proof.
  intros Hxy. destruct (y <? x)%nidhugg eqn:E; [|done].
  by rewrite <-(ltb_irrefl x), (ltb_trans x y x).
Qed.

Lemma ltb_ge_trans (x y z : T) : x ⊏ y -> z ⋢ y -> x ⊏ z.
Proof.
  intros Hxy Hzy. destruct (y <? z)%nidhugg eqn:E; [by eapply ltb_trans|].
  by rewrite <-(ltb_total y z).
Qed.

Lemma ltb_ge_trans' (x y z : T) : y ⋢ x -> y ⊏ z -> x ⊏ z.
Proof.
  intros Hxy Hzy. destruct (x <? y)%nidhugg eqn:E; [by eapply ltb_trans|].
  by rewrite (ltb_total x y).
Qed.

Lemma ltb_neq (x y : T) : x ⊏ y -> x <> y.
Proof. intros Hlt ->. by rewrite ltb_irrefl in Hlt. Qed.
End lt_order.

#[global] Instance Z_ltb : LtB Z := Z.ltb.
#[global] Instance Z_lt_order : LtOrder Z.
Proof. split; unfold ltb, Z_ltb; intros; lia. Qed.

#[global] Instance nat_ltb : LtB nat := Nat.ltb.
#[global] Instance nat_lt_order : LtOrder nat.
Proof. split; unfold ltb, nat_ltb; intros; rewrite ?Nat.ltb_lt, ?Nat.ltb_ge in *; lia. Qed.

(** The comparison of [std::pair]. *)
#[global] Instance prod_ltb {A B} `{LtB A, LtB B} : LtB (A * B) := fun p q =>
  ltb p.1 q.1 || (negb (ltb q.1 p.1) && ltb p.2 q.2).

#[global] Instance prod_lt_order {A B} `{LtOrder A, LtOrder B} : LtOrder (A * B).
Proof.
  split; unfold ltb, prod_ltb.
  - intros [a b]; simpl. by rewrite !ltb_irrefl.
  - intros [a1 b1] [a2 b2] [a3 b3]; simpl.
    rewrite !orb_true_iff, !andb_true_iff, !negb_true_iff.
    intros [H12|[H12 Hb12]] [H23|[H23 Hb23]].
    + left. by eapply ltb_trans.
    + left. by eapply ltb_ge_trans.
    + left. by eapply ltb_ge_trans'.
    + destruct (ltb a1 a2) eqn:E12; [left; by eapply ltb_ge_trans|].
      rewrite (ltb_total a1 a2) by done. right. split; [done|]. by eapply ltb_trans.
  - intros [a1 b1] [a2 b2]; simpl.
    rewrite !orb_false_iff, !andb_false_iff, !negb_false_iff.
    intros [Ha Hb] [Ha' Hb']. destruct Hb, Hb'; try congruence.
    f_equal; by apply ltb_total.
Qed.

(** ** Lists as vectors *)

Section vectors.
  Context {A : Type}.
  Implicit Types (v : list A) (i j : nat) (x y : A).

Lemma vset_Some v i x : i < length v -> vset v i x = Some (<[i := x]> v).
Proof. intros. unfold vset. by rewrite decide_True. Qed.

Lemma zget_nat v i : zget v (Z.of_nat i) = v !! i.
Proof. unfold zget. rewrite decide_True by lia. by rewrite Nat2Z.id. Qed.

Lemma zset_nat v i x : zset v (Z.of_nat i) x = vset v i x.
Proof. unfold zset. rewrite decide_True by lia. by rewrite Nat2Z.id. Qed.

Lemma insert_app_mid v w x y : <[length v := x]> (v ++ y :: w) = v ++ x :: w.
Proof. induction v; simpl; [done|by f_equal]. Qed.

Lemma lookup_mid v w x : (v ++ x :: w) !! length v = Some x.
Proof. by apply list_lookup_middle. Qed.

Lemma vset_mid v w x y : vset (v ++ x :: w) (length v) y = Some (v ++ y :: w).
Proof. unfold vset. rewrite decide_True by (rewrite length_app; simpl; lia). by rewrite insert_app_mid. Qed.

Lemma vback_snoc v x : vback (v ++ [x]) = Some x.
Proof. apply last_snoc. Qed.

Lemma vback_snoc_inv v x : vback v = Some x -> exists w, v = w ++ [x].
Proof.
  destruct v as [|y w _] using rev_ind; [done|].
  rewrite vback_snoc. intros [= ->]. by eexists.
Qed.

Lemma take_snoc v i x : v !! i = Some x -> take (S i) v = take i v ++ [x].
Proof. by apply take_S_r. Qed.

Lemma lookup_lt_exists v i : i < length v -> exists x, v !! i = Some x.
Proof. intros [x Hx]%lookup_lt_is_Some_2. by exists x. Qed.

Lemma drop_cons v i x : v !! i = Some x -> drop i v = x :: drop (S i) v.
Proof. intros. by apply drop_S. Qed.
End vectors.

(** [len] discharges the bounds of vector accesses. *)
Create Rewrite HintDb vec_len.
#[global] Hint Rewrite @length_app @length_insert @length_take @length_drop @length_replicate
  @length_resize @length_fmap @length_reverse : vec_len.
Ltac simpl_len := autorewrite with vec_len in *; cbn [length] in *.
Ltac len := simpl_len; lia.

(** [decide_len] resolves the tests on sizes and indices that [len] settles. *)
Ltac decide_len :=
  repeat match goal with
  | |- context [decide ?P] =>
    first [ rewrite (decide_True (P := P)) by len | rewrite (decide_False (P := P)) by len ]
  end.
Tactic Notation "decide_len" "in" hyp(H) :=
  repeat match type of H with
  | context [decide ?P] =>
    first [ rewrite (decide_True (P := P)) in H by len
          | rewrite (decide_False (P := P)) in H by len ]
  end.

(** ** Counting loops

    [for_range n i body st] is [for(k = i; k < i+n; ++k) st = body(k, st);],
    [for_ret] the same with bodies that may [return] a value ([inl]). *)

Fixpoint for_range {St} (n i : nat) (body : nat -> St -> option St) (st : St) : option St :=
  match n with
  | 0 => Some st
  | S n => st ← body i st; for_range n (S i) body st
  end.

Fixpoint for_ret {R St} (n i : nat) (body : nat -> St -> option (R + St)) (st : St)
    : option (R + St) :=
  match n with
  | 0 => Some (inr st)
  | S n => r ← body i st;
           match r with inl x => Some (inl x) | inr st => for_ret n (S i) body st end
  end.

(** [for(x : l) st = body(x, st);] *)
Fixpoint for_each {A St} (l : list A) (body : A -> St -> option St) (st : St) : option St :=
  match l with
  | [] => Some st
  | x :: l => st ← body x st; for_each l body st
  end.

Lemma for_each_ext {A St} (f g : A -> St -> option St) (l : list A) (st : St) :
  (forall x st, x ∈ l -> f x st = g x st) -> for_each l f st = for_each l g st.
Proof.
  revert st. induction l as [|x l IH]; intros st Heq; [done|]. cbn [for_each]. rewrite Heq by by left.
  destruct (g x st) as [st'|]; [|done]. cbn [mbind option_bind]. apply IH. intros y st2 Hy. apply Heq. by right.
Qed.

(** The value of a loop that ends in [return dflt] when no iteration returned. *)
Definition returning {R St} (o : option (R + St)) (fin : St -> R) : option R :=
  r ← o; Some (match r with inl x => x | inr st => fin st end).

(** A loop that writes position [off + k] in iteration [k], and whose body may
    read the positions it has not written yet. *)
Lemma for_range_write_at {A} (f : nat -> A -> A) (body : nat -> list A -> option (list A)) off n :
  forall i v0, off + i + n <= length v0 ->
  (forall k v x, i <= k < i + n -> length v = length v0 -> v0 !! (off + k) = Some x ->
     (forall j, ~ (off + i <= j < off + k) -> v !! j = v0 !! j) ->
     body k v = Some (<[off + k := f k x]> v)) ->
  exists r, for_range n i body v0 = Some r /\ length r = length v0 /\
    forall j, r !! j = if decide (off + i <= j < off + i + n)
                       then f (j - off) <$> v0 !! j else v0 !! j.
Proof.
  induction n as [|n IH]; intros i v0 Hn Hbody; simpl.
  { exists v0. split_and!; [done|done|]. intros j. by rewrite decide_False by lia. }
  destruct (lookup_lt_exists v0 (off + i)) as [x Hx]; [lia|].
  rewrite (Hbody i v0 x) by (done || lia). simpl.
  destruct (IH (S i) (<[off + i := f i x]> v0)) as (r & Hr & Hl & Hj);
    [rewrite length_insert; lia| |].
  { intros k w y Hk Hw Hy Hsame. rewrite length_insert in Hw.
    rewrite list_lookup_insert_ne in Hy by lia. apply Hbody; [lia|done|done|].
    intros j Hj. rewrite Hsame by lia. by rewrite list_lookup_insert_ne by lia. }
  rewrite length_insert in Hl.
  exists r. split_and!; [done|done|]. intros j. rewrite Hj.
  destruct (decide (j = off + i)) as [->|Hne].
  - rewrite decide_False, decide_True, Hx by lia. rewrite list_lookup_insert_eq by lia.
    by replace (off + i - off) with i by lia.
  - rewrite list_lookup_insert_ne by done. by repeat case_decide; try lia.
Qed.

(** A loop that writes position [k] in iteration [k]. *)
Lemma for_range_write {A} (f : nat -> A -> A) (body : nat -> list A -> option (list A)) m n :
  forall i v, length v = m -> i + n <= m ->
  (forall k v x, i <= k < i + n -> length v = m -> v !! k = Some x ->
     body k v = Some (<[k := f k x]> v)) ->
  exists r, for_range n i body v = Some r /\ length r = m /\
    forall j, r !! j = if decide (i <= j < i + n) then f j <$> v !! j else v !! j.
Proof.
  intros i v <- Hn Hbody.
  destruct (for_range_write_at f body 0 n i v) as (r & Hr & Hl & Hj); [done| |].
  { intros k w x Hk Hw Hx Hsame. apply Hbody; [done|done|]. by rewrite Hsame by (simpl; lia). }
  exists r. split_and!; [done|done|]. intros j. by rewrite Hj, Nat.sub_0_r.
Qed.

(** A loop that returns [x] at the first index where [p] holds. *)
Lemma for_ret_search {R} (x : R) (p : nat -> bool) (body : nat -> unit -> option (R + unit)) n :
  forall i, (forall k, i <= k < i + n -> body k tt = Some (if p k then inl x else inr tt)) ->
  for_ret n i body tt = Some (if existsb p (seq i n) then inl x else inr tt).
Proof.
  induction n as [|n IH]; intros i Hb; simpl; [done|].
  rewrite Hb by lia. simpl. destruct (p i); simpl; [done|].
  apply IH. intros k Hk. apply Hb. lia.
Qed.

Lemma existsb_seq p i n : existsb p (seq i n) = true <-> exists k, i <= k < i + n /\ p k = true.
Proof.
  rewrite existsb_exists. split; intros (k & Hk & Hp); exists k;
    (split; [|done]); apply in_seq; done || apply in_seq in Hk; done.
Qed.

(** Case analysis on the head of an option bind hypothesis. *)
Ltac bind_inv H :=
  match type of H with
  | mbind _ ?m = Some _ => let E := fresh "E" in destruct m eqn:E; [|discriminate H]; simpl in H
  end.

#[export] Hint Extern 4 (_ < length _) => len : nidhugg.
#[export] Hint Extern 4 (_ <= length _) => len : nidhugg.
