(* ===== verification/StdMap.v ===== *)
(** * StdMap: ordered maps ([std::map], [boost::container::flat_map])

    An association list sorted by the key's [operator<], so that iteration has
    the order of the C++ container. The lookup lemmas hold of any list; only
    the iteration order needs [map_sorted]. *)

From S2P Require Import Prelude.

Section stdmap.
Context {K V : Type} `{EqDecision K} `{LtB K}.
Implicit Types (m : list (K * V)) (k : K) (v : V).

Fixpoint map_lookup m k : option V :=
  match m with
  | [] => None
  | (k', v) :: m => if decide (k = k') then Some v else map_lookup m k
  end.

Fixpoint map_insert m k v : list (K * V) :=
  match m with
  | [] => [(k, v)]
  | (k', v') :: m' =>
    if decide (k = k') then (k, v) :: m'
    else if ltb k k' then (k, v) :: m
    else (k', v') :: map_insert m' k v
  end.

Definition map_erase m k : list (K * V) := filter (fun p => p.1 <> k) m.
Definition map_count m k : bool := bool_decide (is_Some (map_lookup m k)).

(** [m\[k\]] used as a value: a missing key is bound to a default one. *)
Definition map_index (dflt : V) m k : V * list (K * V) :=
  match map_lookup m k with Some v => (v, m) | None => (dflt, map_insert m k dflt) end.

Lemma map_lookup_insert_eq m k v : map_lookup (map_insert m k v) k = Some v.
Proof.
  induction m as [|[k' v'] m IH]; simpl; [by rewrite decide_True|].
  destruct (decide (k = k')) as [->|Hne]; simpl; [by rewrite decide_True|].
  destruct (ltb k k'); simpl; [by rewrite decide_True|]. by rewrite decide_False.
Qed.

Lemma map_lookup_insert_ne m k k' v : k <> k' -> map_lookup (map_insert m k v) k' = map_lookup m k'.
Proof.
  intros Hne. induction m as [|[x v'] m IH]; simpl; [by rewrite decide_False|].
  destruct (decide (k = x)) as [->|Hx]; simpl.
  - by rewrite !decide_False by done.
  - destruct (ltb k x); simpl; [by rewrite (decide_False (P := k' = k))|].
    by destruct (decide (k' = x)).
Qed.

Lemma map_lookup_insert m k k' v :
  map_lookup (map_insert m k v) k' = if decide (k = k') then Some v else map_lookup m k'.
Proof. case_decide as Hk; [subst; apply map_lookup_insert_eq|by apply map_lookup_insert_ne]. Qed.

Lemma map_lookup_erase m k k' :
  map_lookup (map_erase m k) k' = if decide (k = k') then None else map_lookup m k'.
Proof.
  induction m as [|[x v] m IH]; [by case_decide|].
  unfold map_erase in *. rewrite filter_cons. cbn [fst]. destruct (decide (x <> k)) as [Hx|Hx].
  - cbn [map_lookup]. rewrite IH. destruct (decide (k' = x)) as [->|]; [|done]. by rewrite decide_False.
  - rewrite IH. cbn [map_lookup]. destruct (decide (k = k')) as [->|Hk]; [done|].
    rewrite (decide_False (P := k' = x)); [done|]. intros ->. apply Hx. by intros ->.
Qed.

Lemma map_index_lookup dflt m k v m' : map_index dflt m k = (v, m') ->
  v = default dflt (map_lookup m k) /\
  forall k', map_lookup m' k' = if decide (k = k') then Some v else map_lookup m k'.
Proof.
  unfold map_index. destruct (map_lookup m k) eqn:E; intros [= <- <-]; (split; [done|]); intros k'.
  - case_decide; by subst.
  - apply map_lookup_insert.
Qed.

Lemma map_lookup_elem m k v : map_lookup m k = Some v -> (k, v) ∈ m.
Proof.
  induction m as [|[k' v'] m IH]; simpl; [done|]. case_decide as Hk; [intros [= <-]; subst; by left|].
  intros ?. right. by apply IH.
Qed.

(** Iteration visits the keys in increasing order. *)
Definition map_sorted m : Prop := StronglySorted (fun p q => ltb p.1 q.1 = true) m.

Lemma elem_map_insert m k v p : p ∈ map_insert m k v -> p = (k, v) \/ p ∈ m.
Proof.
  induction m as [|[k' v'] m IH]; cbn [map_insert].
  - intros ?%list_elem_of_singleton. by left.
  - destruct (decide (k = k')); [|destruct (ltb k k')]; rewrite !elem_of_cons; tauto.
Qed.

Lemma map_insert_distinct m k v : NoDup (map snd m) -> v ∉ map snd m -> NoDup (map snd (map_insert m k v)).
Proof.
  induction m as [|[k' v'] m IH]; cbn [map_insert map snd]; [by repeat constructor|].
  intros [Hv' Hnd]%NoDup_cons [Hne Hv]%not_elem_of_cons.
  destruct (decide (k = k')); [by constructor|destruct (ltb k k')]; cbn [map snd].
  - constructor; [by apply not_elem_of_cons|by constructor].
  - constructor; [|by apply IH]. change (v' ∉ snd <$> map_insert m k v). intros ([x y] & -> & Hin)%list_elem_of_fmap.
    apply elem_map_insert in Hin as [[= -> ->]|Hin]; [done|]. apply Hv'.
    change (y ∈ snd <$> m). by apply (list_elem_of_fmap_2 snd) in Hin.
Qed.

Lemma map_insert_sorted `{!LtOrder K} m k v : map_sorted m -> map_sorted (map_insert m k v).
Proof.
  unfold map_sorted. induction 1 as [|[k' v'] m Hm IH Hk]; cbn [map_insert]; [by repeat constructor|].
  destruct (decide (k = k')) as [->|Hne]; [by constructor|].
  destruct (ltb k k') eqn:E.
  - constructor; [by constructor|]. constructor; [done|]. eapply Forall_impl; [exact Hk|].
    intros p Hp. simpl in *. by eapply ltb_trans.
  - constructor; [done|]. apply Forall_forall. intros p [->|Hp]%elem_map_insert; simpl.
    + destruct (ltb k' k) eqn:E'; [done|]. by destruct (Hne (ltb_total _ _ E E')).
    + rewrite Forall_forall in Hk. by apply Hk.
Qed.

Lemma map_erase_sorted m k : map_sorted m -> map_sorted (map_erase m k).
Proof.
  unfold map_sorted, map_erase. induction 1 as [|p m Hm IH Hp]; [by constructor|].
  rewrite filter_cons. case_decide; [|done]. constructor; [done|].
  apply Forall_forall. intros q [_ Hq]%list_elem_of_filter. rewrite Forall_forall in Hp. by apply Hp.
Qed.
End stdmap.
