(* ===== verification/VecSet.v ===== *)
(** * VecSet: sets as sorted vectors (src/src/vecset.h, src/src/vecset.tcc)

    The class keeps its elements in a [std::vector] that is sorted and free of
    duplicates. The operations below are the index loops of the source over
    that vector; reading or writing out of range is [None]. The theorems show
    that no operation leaves the vector's bounds, that the invariant is kept,
    and that each operation is the set operation its comment promises. *)

From S2P Require Import Prelude.

Section vecset.
Context {T : Type} `{EqDecision T} `{LtB T}.
Implicit Types (v s vec : list T) (t x y : T) (i j a b c fuel : nat).

(** ** The operations *)

(** [check_invariant]: every element is less than its successor. *)
Fixpoint check_invariant (vec : list T) : bool :=
  match vec with
  | x :: ((y :: _) as rest) => if negb (ltb x y) then false else check_invariant rest
  | _ => true
  end.

(** [find_geq]: binary search for the least element that is not below [t]. *)
Fixpoint find_geq_loop (fuel : nat) (vec : list T) (t : T) (a b : nat) : option nat :=
  match fuel with
  | 0 => None
  | S fuel =>
    if decide (a < b) then
      let c := (a + b) / 2 in
      x ← vec !! c;
      if ltb x t then find_geq_loop fuel vec t (c + 1) b
      else if negb (ltb t x) then Some c
      else find_geq_loop fuel vec t a c
    else Some a
  end.

Definition find_geq (vec : list T) (t : T) : option nat :=
  find_geq_loop (S (length vec)) vec t 0 (length vec).

Definition find (vec : list T) (t : T) : option Z :=
  i ← find_geq vec t;
  if decide (i = length vec) then Some (-1)%Z
  else x ← vec !! i; Some (if decide (x = t) then Z.of_nat i else (-1)%Z).

Definition count (vec : list T) (t : T) : option Z :=
  i ← find vec t; Some (if decide (0 <= i)%Z then 1%Z else 0%Z).

(** The loop [for(j = vec.size()-2; j > i; j--) vec\[j\] = vec\[j-1\];]. *)
Fixpoint shift_up (vec : list T) (i j : nat) : option (list T) :=
  match j with
  | 0 => Some vec
  | S j' =>
    if decide (i < j) then
      x ← vec !! j'; vec' ← vset vec j x; shift_up vec' i j'
    else Some vec
  end.

Definition insert (vec : list T) (t : T) : option (list T * (nat * bool)) :=
  i ← find_geq vec t;
  present ← (if decide (i < length vec) then x ← vec !! i; Some (negb (ltb t x))
             else Some false);
  if present : bool then
    x ← vec !! i; _ ← cassert (negb (ltb x t)); Some (vec, (i, false))
  else if decide (length vec = 0) then Some (vec ++ [t], (i, true))
  else
    bk ← vback vec;
    vec ← shift_up (vec ++ [bk]) i (length (vec ++ [bk]) - 2);
    vec ← vset vec i t;
    Some (vec, (i, true)).

Definition insert_geq (vec : list T) (t : T) : option (list T * (nat * bool)) :=
  let i := length vec in
  if decide (i = 0) then Some (vec ++ [t], (i, true))
  else
    bk ← vback vec;
    _ ← cassert (negb (ltb t bk));
    if decide (bk = t) then Some (vec, (i - 1, false))
    else Some (vec ++ [t], (i, true)).

Definition insert_gt (vec : list T) (t : T) : option (list T) :=
  if decide (length vec = 0) then Some (vec ++ [t])
  else bk ← vback vec; _ ← cassert (ltb bk t); Some (vec ++ [t]).

(** [insert(const VecSet &s)], first pass: count the elements of [s] that are
    not in this set. *)
Fixpoint insert_set_count (fuel : nat) (vec s : list T) (a b cnt : nat)
    : option (nat * nat * nat) :=
  match fuel with
  | 0 => None
  | S fuel =>
    if decide (a < length vec /\ b < length s) then
      x ← vec !! a; y ← s !! b;
      if ltb x y then insert_set_count fuel vec s (a + 1) b cnt
      else if negb (ltb y x) then insert_set_count fuel vec s (a + 1) (b + 1) cnt
      else insert_set_count fuel vec s a (b + 1) (cnt + 1)
    else Some (a, b, cnt)
  end.

(** [insert(const VecSet &s)], second pass: write the largest remaining
    element of the union at [i], for [i] from the back. [n] is [i + 1]. *)
Fixpoint insert_set_merge (n : nat) (vec s : list T) (a b : Z)
    : option (list T * Z * Z) :=
  match n with
  | 0 => Some (vec, a, b)
  | S i =>
    _ ← cassert (bool_decide (a <= Z.of_nat i)%Z);
    from_s ← (if decide (a < 0)%Z then Some true
              else if decide (0 <= b)%Z then
                x ← zget vec a; y ← zget s b; Some (ltb x y)
              else Some false);
    if from_s : bool then
      y ← zget s b; vec ← vset vec i y; insert_set_merge i vec s a (b - 1)
    else
      both ← (if decide (0 <= a /\ 0 <= b)%Z then
                x ← zget vec a; y ← zget s b; Some (negb (ltb y x))
              else Some false);
      if both : bool then
        x ← zget vec a; vec ← vset vec i x; insert_set_merge i vec s (a - 1) (b - 1)
      else
        _ ← cassert (bool_decide (0 <= a)%Z);
        x ← zget vec a; vec ← vset vec i x; insert_set_merge i vec s (a - 1) b
  end.

Definition insert_set (vec s : list T) : option (list T * nat) :=
  if decide (length s = 0) then Some (vec, 0)
  else if decide (length s = 1) then
    x ← s !! 0; r ← insert vec x;
    Some (r.1, if r.2.2 : bool then 1 else 0)
  else
    r ← insert_set_count (S (length vec + length s)) vec s 0 0 0;
    let '(a, b, cnt) := r in
    cnt ← (if decide (b < length s) then
             _ ← cassert (bool_decide (a = length vec)); Some (cnt + (length s - b))
           else Some cnt);
    if decide (0 < cnt) then
      s0 ← s !! 0;
      let vec1 := resize (length vec + cnt) s0 vec in
      r ← insert_set_merge (length vec1) vec1 s (Z.of_nat (length vec) - 1)
            (Z.of_nat (length s) - 1);
      let '(vec', a', b') := r in
      _ ← cassert (bool_decide (a' = -1 /\ b' = -1)%Z);
      Some (vec', cnt)
    else Some (vec, cnt).

(** [erase_at]: [for(j = p; j < vec.size()-1; ++j) vec\[j\] = vec\[j+1\];],
    then drop the last element. [n] bounds the number of remaining steps. *)
Fixpoint shift_down (n : nat) (vec : list T) (j : nat) : option (list T) :=
  match n with
  | 0 => Some vec
  | S n =>
    if decide (j < length vec - 1) then
      x ← vec !! (j + 1); vec' ← vset vec j x; shift_down n vec' (j + 1)
    else Some vec
  end.

Definition erase_at (vec : list T) (p : nat) : option (list T) :=
  vec ← shift_down (length vec) vec p;
  x ← vec !! 0;
  Some (resize (length vec - 1) x vec).

Definition erase (vec : list T) (t : T) : option (list T * nat) :=
  i ← find_geq vec t;
  if decide (length vec <= i) then Some (vec, 0)
  else
    x ← vec !! i;
    if ltb t x then Some (vec, 0)
    else vec ← erase_at vec i; Some (vec, 1).

(** [erase(const VecSet &S)]: the merge loop, which moves the kept elements
    down to position [ains]. *)
Fixpoint erase_set_loop (fuel : nat) (vec s : list T) (a b ains ec : nat)
    : option (list T * (nat * nat * nat)) :=
  match fuel with
  | 0 => None
  | S fuel =>
    if decide (a < length vec /\ b < length s) then
      x ← vec !! a; y ← s !! b;
      if ltb x y then
        vec ← (if decide (ains = a) then Some vec else vset vec ains x);
        erase_set_loop fuel vec s (a + 1) b (ains + 1) ec
      else if ltb y x then erase_set_loop fuel vec s a (b + 1) ains ec
      else erase_set_loop fuel vec s (a + 1) (b + 1) ains (ec + 1)
    else Some (vec, (a, ains, ec))
  end.

(** [while(a < size()){ vec\[ains\] = vec\[a\]; ++a; ++ains; }] *)
Fixpoint erase_set_tail (n : nat) (vec : list T) (a ains : nat)
    : option (list T * nat) :=
  match n with
  | 0 => Some (vec, ains)
  | S n =>
    if decide (a < length vec) then
      x ← vec !! a; vec ← vset vec ains x; erase_set_tail n vec (a + 1) (ains + 1)
    else Some (vec, ains)
  end.

Definition erase_set (vec s : list T) : option (list T * nat) :=
  if decide (vec = []) then Some (vec, 0)
  else if decide (s = []) then Some (vec, 0)
  else
    r ← erase_set_loop (S (length vec + length s)) vec s 0 0 0 0;
    let '(vec, (a, ains, ec)) := r in
    if decide (ains = a) then Some (vec, ec)
    else
      r ← erase_set_tail (length vec) vec a ains;
      let '(vec, ains) := r in
      x ← vec !! 0;
      Some (resize ains x vec, ec).

Fixpoint subset_of_loop (fuel : nat) (vec s : list T) (a b : nat) : option bool :=
  match fuel with
  | 0 => None
  | S fuel =>
    if decide (a < length vec) then
      if decide (Z.of_nat (length vec) - Z.of_nat a
                 > Z.of_nat (length s) - Z.of_nat b)%Z then Some false
      else
        x ← vec !! a; y ← s !! b;
        if ltb x y then Some false
        else if negb (ltb y x) then subset_of_loop fuel vec s (a + 1) (b + 1)
        else subset_of_loop fuel vec s a (b + 1)
    else Some true
  end.

Definition subset_of (vec s : list T) : option bool :=
  if decide (length s < length vec) then Some false
  else subset_of_loop (S (length vec + length s)) vec s 0 0.

Fixpoint intersects_loop (fuel : nat) (vec s : list T) (a b : nat) : option bool :=
  match fuel with
  | 0 => None
  | S fuel =>
    if decide (a < length vec /\ b < length s) then
      x ← vec !! a; y ← s !! b;
      if ltb x y then intersects_loop fuel vec s (a + 1) b
      else if negb (ltb y x) then Some true
      else intersects_loop fuel vec s a (b + 1)
    else Some false
  end.

Definition intersects (vec s : list T) : option bool :=
  intersects_loop (S (length vec + length s)) vec s 0 0.

(** The range constructor: [push_back] in order, [insert] otherwise. *)
Fixpoint of_range_loop (vec : list T) (l : list T) : option (list T) :=
  match l with
  | [] => Some vec
  | x :: l =>
    in_order ← (if decide (length vec = 0) then Some false
                else bk ← vback vec; Some (ltb bk x));
    if in_order : bool then of_range_loop (vec ++ [x]) l
    else r ← insert vec x; of_range_loop r.1 l
  end.

Definition of_range (l : list T) : option (list T) := of_range_loop [] l.

Definition singleton (t : T) : list T := [] ++ [t].

(** [std::lexicographical_compare] with the set's comparator. *)
Fixpoint seq_lt (a b : list T) : bool :=
  match a, b with
  | _, [] => false
  | [], _ :: _ => true
  | x :: a, y :: b => if ltb x y then true else if ltb y x then false else seq_lt a b
  end.

Fixpoint seq_eq_loop (a b : list T) : bool :=
  match a, b with
  | x :: a, y :: b => if ltb x y || ltb y x then false else seq_eq_loop a b
  | _, _ => true
  end.

Definition seq_eq (a b : list T) : bool :=
  if negb (length a =? length b) then false else seq_eq_loop a b.

(** [to_string_one_line(f)] *)
Fixpoint to_string_loop (f : T -> string) (first : bool) (vec : list T) : string :=
  match vec with
  | [] => ""
  | x :: vec => (if first then "" else ", ") +:+ f x +:+ to_string_loop f false vec
  end.

Definition to_string_one_line (f : T -> string) (vec : list T) : string :=
  "{" +:+ to_string_loop f true vec +:+ "}".

End vecset.

(** ** Sorted lists and the set they stand for *)

Section sorted.
Context {T : Type} `{EqDecision T} `{LtOrder T}.
Implicit Types (v s l k : list T) (t x y z : T).
Local Open Scope nidhugg_scope.

Definition sorted : list T -> Prop := StronglySorted (fun x y => x ⊏ y).

Lemma check_invariant_sorted v : check_invariant v = true <-> sorted v.
Proof.
  split.
  - intros Hc. apply Sorted_StronglySorted; [intros ???; apply ltb_trans|].
    induction v as [|x v IH]; [constructor|].
    destruct v as [|y v]; [repeat constructor|].
    simpl in Hc. destruct (x <? y) eqn:E; [|done].
    constructor; [by apply IH|by constructor].
  - induction 1 as [|x v Hs IH Hx]; [done|].
    destruct v as [|y v]; [done|]. apply Forall_cons in Hx as [Hxy _].
    simpl in *. by rewrite Hxy.
Qed.

Lemma sorted_cons x v : sorted (x :: v) <-> sorted v /\ forall y, y ∈ v -> x ⊏ y.
Proof. unfold sorted. rewrite StronglySorted_cons, Forall_forall. tauto. Qed.

Lemma sorted_app v s :
  sorted (v ++ s) <-> sorted v /\ sorted s /\ forall x y, x ∈ v -> y ∈ s -> x ⊏ y.
Proof. unfold sorted. rewrite StronglySorted_app. naive_solver. Qed.

Lemma sorted_snoc v x : sorted (v ++ [x]) <-> sorted v /\ forall y, y ∈ v -> y ⊏ x.
Proof.
  rewrite sorted_app. split.
  - intros (Hv & _ & Hx). split; [done|]. intros y Hy. apply Hx; [done|].
    by apply list_elem_of_singleton.
  - intros [Hv Hx]. split_and!; [done|by repeat constructor|].
    intros y z Hy ->%list_elem_of_singleton. by apply Hx.
Qed.

Lemma sorted_nil : sorted [].
Proof. constructor. Qed.

Lemma sorted_NoDup v : sorted v -> NoDup v.
Proof.
  induction v as [|x v IH]; [by constructor|]. rewrite sorted_cons.
  intros [Hs Hx]. constructor; [|by apply IH].
  intros Hin. by apply (ltb_neq _ _ (Hx _ Hin)).
Qed.

(** Two sorted vectors with the same elements are the same vector. *)
Lemma sorted_ext v s : sorted v -> sorted s -> (forall x, x ∈ v <-> x ∈ s) -> v = s.
Proof.
  intros Hv Hs Heq. eapply (StronglySorted_unique_strong (fun x y => x ⊏ y)); try done.
  - intros x y _ _ Hxy Hyx. by rewrite (ltb_asym x y) in Hyx.
  - apply NoDup_Permutation; auto using sorted_NoDup.
Qed.

Lemma sorted_lookup v i j x y :
  sorted v -> v !! i = Some x -> v !! j = Some y -> i < j -> x ⊏ y.
Proof.
  intros Hs Hi Hj Hij. rewrite <-(take_drop_middle v i x Hi) in Hs.
  apply sorted_app in Hs as (_ & [_ Hs]%sorted_cons & _). apply Hs.
  apply list_elem_of_lookup. exists (j - S i). rewrite lookup_drop.
  by replace (S i + (j - S i)) with j by lia.
Qed.

Lemma sorted_subset_length v s : sorted v -> (forall x, x ∈ v -> x ∈ s) -> length v <= length s.
Proof.
  intros Hv Hsub. apply submseteq_length, NoDup_submseteq; auto using sorted_NoDup.
Qed.

(** The pure union used as the reference for [insert_set]. *)
Fixpoint lunion (v s : list T) : list T :=
  match v with
  | [] => s
  | x :: v' =>
    (fix go s := match s with
                 | [] => x :: v'
                 | y :: s' => if x <? y then x :: lunion v' (y :: s')
                              else if negb (y <? x) then x :: lunion v' s'
                              else y :: go s'
                 end) s
  end.

Lemma lunion_nil_r v : lunion v [] = v.
Proof. by destruct v. Qed.

Lemma lunion_cons x v y s :
  lunion (x :: v) (y :: s) =
    if x <? y then x :: lunion v (y :: s)
    else if negb (y <? x) then x :: lunion v s
    else y :: lunion (x :: v) s.
Proof. done. Qed.

Lemma elem_of_lunion v s x : x ∈ lunion v s <-> x ∈ v \/ x ∈ s.
Proof.
  revert s. induction v as [|z v IHv]; intros s; [set_solver|].
  induction s as [|y s IHs]; [rewrite lunion_nil_r; set_solver|].
  rewrite lunion_cons. destruct (z <? y) eqn:E1; [|destruct (y <? z) eqn:E2]; cbn [negb].
  - rewrite elem_of_cons, IHv. set_solver.
  - rewrite elem_of_cons, IHs. set_solver.
  - rewrite (ltb_total z y) by done. rewrite elem_of_cons, IHv. set_solver.
Qed.

Lemma sorted_lunion v s : sorted v -> sorted s -> sorted (lunion v s).
Proof.
  revert s. induction v as [|z v IHv]; intros s Hv Hs; [done|].
  induction s as [|y s IHs]; [by rewrite lunion_nil_r|].
  pose proof Hv as [Hv' Hz]%sorted_cons. pose proof Hs as [Hs' Hy]%sorted_cons.
  rewrite lunion_cons. destruct (z <? y) eqn:E1; [|destruct (y <? z) eqn:E2]; cbn [negb];
    apply sorted_cons;
    (split; [first [by apply IHv | by apply IHs]|]); intros w; rewrite elem_of_lunion.
  - intros [Hw|[->|Hw]%elem_of_cons]; eauto using ltb_trans.
  - intros [[->|Hw]%elem_of_cons|Hw]; eauto using ltb_trans.
  - assert (z = y) as <- by (by apply ltb_total). intros [Hw|Hw]; auto.
Qed.

Lemma lunion_snoc_r v s y :
  sorted v -> sorted (s ++ [y]) -> (forall x, x ∈ v -> x ⊏ y) ->
  lunion v (s ++ [y]) = lunion v s ++ [y].
Proof.
  intros Hv Hs Hy. pose proof Hs as [Hs' Hs'']%sorted_snoc.
  apply sorted_ext; [by apply sorted_lunion| |].
  - apply sorted_snoc. split; [by apply sorted_lunion|].
    intros x. rewrite elem_of_lunion. intros [?|?]; auto.
  - intros x. rewrite elem_of_lunion, !elem_of_app, elem_of_lunion. tauto.
Qed.

Lemma lunion_snoc_l v s x :
  sorted (v ++ [x]) -> sorted s -> (forall y, y ∈ s -> y ⊏ x) ->
  lunion (v ++ [x]) s = lunion v s ++ [x].
Proof.
  intros Hv Hs Hy. pose proof Hv as [Hv' Hv'']%sorted_snoc.
  apply sorted_ext; [by apply sorted_lunion| |].
  - apply sorted_snoc. split; [by apply sorted_lunion|].
    intros z. rewrite elem_of_lunion. intros [?|?]; auto.
  - intros z. rewrite elem_of_lunion, !elem_of_app, elem_of_lunion. tauto.
Qed.

Lemma lunion_snoc_both v s x :
  sorted (v ++ [x]) -> sorted (s ++ [x]) ->
  lunion (v ++ [x]) (s ++ [x]) = lunion v s ++ [x].
Proof.
  intros Hv Hs. pose proof Hv as [Hv' Hv'']%sorted_snoc.
  pose proof Hs as [Hs' Hs'']%sorted_snoc.
  apply sorted_ext; [by apply sorted_lunion| |].
  - apply sorted_snoc. split; [by apply sorted_lunion|].
    intros z. rewrite elem_of_lunion. intros [?|?]; auto.
  - intros z. rewrite elem_of_lunion, !elem_of_app, elem_of_lunion. tauto.
Qed.

Lemma lunion_length_l v s : sorted v -> length v <= length (lunion v s).
Proof. intros. apply sorted_subset_length; [done|]. intros. rewrite elem_of_lunion. by left. Qed.

(** ** The loops meet their reference definitions *)

(** [ltb_cases x y] splits on the three outcomes of the source's two tests. *)
Ltac ltb_cases x y :=
  let E1 := fresh "Elt" in let E2 := fresh "Egt" in
  destruct (ltb x y) eqn:E1;
  [|destruct (ltb y x) eqn:E2; [|assert (x = y) by (by apply ltb_total); subst]];
  cbn [negb].

Lemma find_geq_loop_spec vec t :
  sorted vec -> forall fuel a b,
  a <= b <= length vec -> b - a < fuel ->
  (forall j x, j < a -> vec !! j = Some x -> x ⊏ t) ->
  (forall j x, b <= j -> vec !! j = Some x -> x ⋢ t) ->
  exists i, find_geq_loop fuel vec t a b = Some i /\ i <= length vec /\
    (forall j x, j < i -> vec !! j = Some x -> x ⊏ t) /\
    (forall j x, i <= j -> vec !! j = Some x -> x ⋢ t).
Proof.
  intros Hs. induction fuel as [|fuel IH]; intros a b Hab Hf Hlow Hhigh; [lia|].
  simpl. destruct (decide (a < b)) as [Hlt|Hge].
  2:{ exists a. replace b with a in * by lia. split_and!; auto; lia. }
  assert (Hc : a <= (a + b) / 2 < b).
  { split; [apply Nat.div_le_lower_bound; lia|apply Nat.Div0.div_lt_upper_bound; lia]. }
  set (c := (a + b) / 2) in *.
  destruct (lookup_lt_exists vec c) as [x Hx]; [lia|]. rewrite Hx. simpl.
  ltb_cases x t.
  - apply IH; [lia|lia| |done]. intros j y Hj Hy.
    destruct (decide (j = c)) as [->|]; [by simplify_eq|].
    apply (ltb_trans _ x); [|done]. eapply (sorted_lookup vec j c); eauto. lia.
  - apply IH; [lia|lia|done|]. intros j y Hj Hy.
    destruct (decide (j = c)) as [->|]; [by simplify_eq|].
    apply ltb_asym, (ltb_trans _ x); [done|].
    eapply (sorted_lookup vec c j); eauto. lia.
  - exists c. split_and!; [done|lia| |].
    + intros j y Hj Hy. by eapply (sorted_lookup vec j c).
    + intros j y Hj Hy. destruct (decide (j = c)) as [->|]; [simplify_eq; apply ltb_irrefl|].
      apply ltb_asym. eapply (sorted_lookup vec c j); eauto. lia.
Qed.

Lemma find_geq_spec vec t :
  sorted vec ->
  exists i, find_geq vec t = Some i /\ i <= length vec /\
    (forall j x, j < i -> vec !! j = Some x -> x ⊏ t) /\
    (forall j x, i <= j -> vec !! j = Some x -> x ⋢ t).
Proof.
  intros Hs. apply find_geq_loop_spec; [done|lia|lia|intros; lia|].
  intros j x Hj Hx%lookup_lt_Some. lia.
Qed.

(** The position found splits the vector at [t]. *)
Lemma find_geq_split vec t :
  sorted vec ->
  exists k l, vec = k ++ l /\ find_geq vec t = Some (length k) /\
    (forall x, x ∈ k -> x ⊏ t) /\ (forall x, x ∈ l -> x ⋢ t) /\
    (t ∈ vec <-> exists l', l = t :: l').
Proof.
  intros Hs. destruct (find_geq_spec vec t Hs) as (i & Hf & Hi & Hlow & Hhigh).
  exists (take i vec), (drop i vec). rewrite take_drop, length_take_le by done.
  assert (Hl : forall x, x ∈ take i vec -> x ⊏ t).
  { intros x [j [Hj Hlt]%lookup_take_Some]%list_elem_of_lookup. by eapply Hlow. }
  assert (Hh : forall x, x ∈ drop i vec -> x ⋢ t).
  { intros x [j Hj]%list_elem_of_lookup. rewrite lookup_drop in Hj.
    eapply Hhigh, Hj. lia. }
  split_and!; try done. split.
  - intros Ht. rewrite <-(take_drop i vec), elem_of_app in Ht.
    destruct Ht as [Ht|Ht]; [by apply Hl, ltb_neq in Ht|].
    destruct (drop i vec) as [|y l] eqn:El; [by apply elem_of_nil in Ht|].
    exists l. f_equal. apply elem_of_cons in Ht as [<-|Ht]; [done|].
    rewrite <-(take_drop i vec), El in Hs. apply sorted_app in Hs as (_ & Hs & _).
    apply sorted_cons in Hs as [_ Hs].
    pose proof (Hh y (list_elem_of_here _ _)) as Hy. by rewrite Hs in Hy.
  - intros [l Hl']. rewrite <-(take_drop i vec), Hl'. set_solver.
Qed.

Lemma shift_up_spec (k m r : list T) z :
  exists w, shift_up (k ++ m ++ z :: r) (length k) (length k + length m)
            = Some (k ++ w :: m ++ r).
Proof.
  revert z r. induction m as [|x m IH] using rev_ind; intros z r; simpl.
  - exists z. destruct k as [|y k]; simpl; [done|].
    decide_len. done.
  - rewrite length_app, Nat.add_assoc, Nat.add_1_r. simpl.
    decide_len.
    rewrite <-(app_assoc m [x]), (app_assoc k m), <-length_app. simpl.
    rewrite lookup_mid. simpl.
    replace (S (length (k ++ m))) with (length ((k ++ m) ++ [x])) by len.
    rewrite (cons_middle x (k ++ m)), (app_assoc (k ++ m)), vset_mid. simpl.
    destruct (IH x (x :: r)) as [w Hw]. exists w.
    rewrite <-!app_assoc, length_app. simpl. by rewrite Hw.
Qed.

Lemma insert_spec vec t :
  sorted vec ->
  exists vec' i, insert vec t = Some (vec', (i, bool_decide (t ∉ vec))) /\
    vec' !! i = Some t /\ sorted vec' /\
    (forall x, x ∈ vec' <-> x = t \/ x ∈ vec) /\
    length vec' = length vec + (if bool_decide (t ∈ vec) then 0 else 1).
Proof.
  intros Hs. destruct (find_geq_split vec t Hs) as (k & l & -> & Hf & Hk & Hl & Hin).
  unfold insert. rewrite Hf. simpl. destruct l as [|x l].
  - decide_len. simpl.
    assert (Hnin : t ∉ k ++ []) by (rewrite Hin; by intros [? ?]).
    rewrite app_nil_r in *. rewrite (bool_decide_eq_true_2 _ Hnin), (bool_decide_eq_false_2 _ Hnin).
    exists (k ++ [t]), (length k). split_and!.
    + destruct k as [|y k _] using rev_ind; [done|].
      decide_len. rewrite vback_snoc. simpl.
      replace (length _ - 2) with (length k) by len.
      destruct (shift_up ((k ++ [y]) ++ [y]) (length (k ++ [y])) (length k)) as [v|] eqn:E.
      2:{ destruct k; simpl in E; [done|]. decide_len in E. done. }
      assert (v = (k ++ [y]) ++ [y]) as ->.
      { destruct k; simpl in E; [by simplify_eq|]. decide_len in E. by simplify_eq. }
      simpl. by rewrite vset_mid.
    + apply lookup_mid.
    + by apply sorted_snoc.
    + intros x. rewrite elem_of_app, list_elem_of_singleton. tauto.
    + len.
  - decide_len. rewrite lookup_mid. simpl.
    destruct (ltb t x) eqn:Etx; simpl.
    + assert (Hnin : t ∉ k ++ x :: l).
      { rewrite Hin. intros [l' [= <- _]]. by rewrite ltb_irrefl in Etx. }
      rewrite (bool_decide_eq_true_2 _ Hnin), (bool_decide_eq_false_2 _ Hnin).
      decide_len.
      destruct (exists_last (l := x :: l)) as (m & z & Hm); [done|].
      rewrite Hm, app_assoc, vback_snoc. simpl.
      replace (length _ - 2) with (length k + length m) by len.
      destruct (shift_up_spec k m [z] z) as [w Hw].
      rewrite <-!app_assoc. simpl. rewrite Hw. simpl. rewrite vset_mid. simpl.
      rewrite <-Hm. exists (k ++ t :: x :: l), (length k).
      split_and!; [done|apply lookup_mid| | |len].
      * apply sorted_app in Hs as (Hsk & Hsl & Hkl).
        apply sorted_app. split_and!; [done| |].
        -- apply sorted_cons. split; [done|]. intros y [->|Hy]%elem_of_cons; [done|].
           apply sorted_cons in Hsl as [_ Hsl]. by eapply ltb_trans, Hsl.
        -- intros y y' Hy [->|Hy']%elem_of_cons; auto.
      * intros y. rewrite !elem_of_app, !elem_of_cons. tauto.
    + assert (x = t) as ->. { apply ltb_total; [|done]. apply Hl. set_solver. }
      rewrite ltb_irrefl. simpl.
      assert (Hin' : t ∈ k ++ t :: l) by set_solver.
      rewrite (bool_decide_eq_true_2 _ Hin'), bool_decide_eq_false_2 by naive_solver.
      exists (k ++ t :: l), (length k). split_and!; [done|apply lookup_mid|done|set_solver|len].
Qed.


(** *** Insertion of a whole set *)

Lemma vset_last_of (k m r : list T) x :
  m <> [] -> exists m', vset (k ++ m ++ r) (length k + length m - 1) x = Some (k ++ m' ++ x :: r)
                        /\ length m = S (length m').
Proof.
  intros (m' & z & ->)%exists_last. exists m'. split; [|len].
  rewrite <-app_assoc, app_assoc.
  replace (length k + length (m' ++ [z]) - 1) with (length (k ++ m')) by len. simpl.
  by rewrite vset_mid, <-app_assoc.
Qed.

Lemma zget_snoc (v s : list T) x : zget ((v ++ [x]) ++ s) (Z.of_nat (length (v ++ [x])) - 1) = Some x.
Proof.
  replace (Z.of_nat (length (v ++ [x])) - 1)%Z with (Z.of_nat (length v)) by len.
  rewrite zget_nat, <-app_assoc. apply lookup_mid.
Qed.

Lemma insert_set_merge_spec n : forall (A J R B S' : list T),
  sorted A -> sorted B -> n = length A + length J -> n = length (lunion A B) ->
  insert_set_merge n (A ++ J ++ R) (B ++ S') (Z.of_nat (length A) - 1) (Z.of_nat (length B) - 1)
  = Some (lunion A B ++ R, -1, -1)%Z.
Proof.
  induction n as [|i IH]; intros A J R B S' HA HB Hn Hlen.
  { assert (A = []) as -> by (apply length_zero_iff_nil; lia).
    assert (J = []) as -> by (apply length_zero_iff_nil; lia).
    assert (B = []) as -> by (apply length_zero_iff_nil; simpl in Hlen; lia). done. }
  pose proof (lunion_length_l A B HA) as HlA.
  assert (Hsnoc : forall (l : list T), l = [] \/ exists l' x, l = l' ++ [x]).
  { intros l. destruct l as [|x l _] using rev_ind; eauto. }
  simpl. rewrite (bool_decide_true (_ <= Z.of_nat i)%Z) by lia. simpl.
  destruct (Hsnoc A) as [->|(A0 & x & ->)].
  - destruct (Hsnoc B) as [->|(B0 & y & ->)]; [done|]. decide_len.
    rewrite zget_snoc. simpl.
    destruct (vset_last_of [] J R y) as (J' & Hset & HJ'); [destruct J; [done|done]|].
    simpl in Hset. replace (length J - 1) with i in Hset by len. rewrite Hset. simpl.
    apply sorted_snoc in HB as [HB _]. rewrite <-app_assoc.
    replace (_ - 1 - 1)%Z with (Z.of_nat (length B0) - 1)%Z by len.
    rewrite (IH [] J' (y :: R) B0 _) by (simpl in *; (done || len)). simpl.
    by rewrite <-app_assoc.
  - decide_len. pose proof HA as [HA0 HAx]%sorted_snoc.
    assert (Hstep : forall m, m <> [] -> length A0 + length m = S i -> exists J',
        vset (A0 ++ m ++ R) i x = Some (A0 ++ J' ++ x :: R) /\ i = length A0 + length J').
    { intros m Hm Hlm. destruct (vset_last_of A0 m R x Hm) as (J' & Hset & HJ').
      exists J'. split; [|lia]. rewrite <-Hset. f_equal. lia. }
    destruct (Hstep ([x] ++ J)) as (J' & Hset & HJ'); [done|len|].
    destruct (Hsnoc B) as [->|(B0 & y & ->)].
    + decide_len. simpl. rewrite zget_snoc. simpl.
      rewrite <-(app_assoc A0), (app_assoc [x]), Hset. simpl.
      rewrite lunion_nil_r in *.
      replace (_ - 1 - 1)%Z with (Z.of_nat (length A0) - 1)%Z by len.
      rewrite bool_decide_true by len. cbn [cassert mbind option_bind].
      pose proof (IH A0 J' (x :: R) [] S' HA0 HB) as IH'. rewrite lunion_nil_r in IH'.
      simpl in IH'. rewrite IH' by len. by rewrite <-app_assoc.
    + decide_len. rewrite !zget_snoc. simpl. pose proof HB as [HB0 HBy]%sorted_snoc.
      ltb_cases x y.
      * assert (Hlast : lunion (A0 ++ [x]) (B0 ++ [y]) = lunion (A0 ++ [x]) B0 ++ [y]).
        { apply lunion_snoc_r; try done.
          intros z [Hz| ->%list_elem_of_singleton]%elem_of_app; [|done].
          eapply ltb_trans; [by apply HAx|done]. }
        rewrite Hlast in *. pose proof (lunion_length_l (A0 ++ [x]) B0 HA).
        destruct (vset_last_of (A0 ++ [x]) J R y) as (J1 & Hset1 & HJ1);
          [intros ->; len|].
        replace (_ + _ - 1) with i in Hset1 by len. rewrite Hset1. simpl.
        rewrite <-(app_assoc B0).
        replace (Z.of_nat (length (B0 ++ [y])) - 1 - 1)%Z with (Z.of_nat (length B0) - 1)%Z by len.
        rewrite (IH (A0 ++ [x]) J1 (y :: R) B0 _) by (done || len).
        by rewrite <-app_assoc.
      * assert (Hlast : lunion (A0 ++ [x]) (B0 ++ [y]) = lunion A0 (B0 ++ [y]) ++ [x]).
        { apply lunion_snoc_l; try done.
          intros z [Hz| ->%list_elem_of_singleton]%elem_of_app; [|done].
          eapply ltb_trans; [by apply HBy|done]. }
        rewrite Hlast in *. rewrite <-(app_assoc A0), (app_assoc [x]), Hset.
        rewrite bool_decide_true by len. simpl.
        replace (Z.of_nat (length (A0 ++ [x])) - 1 - 1)%Z with (Z.of_nat (length A0) - 1)%Z by len.
        rewrite (IH A0 J' (x :: R) (B0 ++ [y]) _) by (done || len).
        by rewrite <-app_assoc.
      * pose proof (lunion_snoc_both A0 B0 y HA HB) as Hlast.
        rewrite Hlast in *. rewrite <-(app_assoc A0), (app_assoc [y]), Hset. simpl.
        rewrite <-(app_assoc B0).
        replace (Z.of_nat (length (A0 ++ [y])) - 1 - 1)%Z with (Z.of_nat (length A0) - 1)%Z by len.
        replace (Z.of_nat (length (B0 ++ [y])) - 1 - 1)%Z with (Z.of_nat (length B0) - 1)%Z by len.
        rewrite (IH A0 J' (y :: R) B0 _) by (done || len).
        by rewrite <-app_assoc.
Qed.

Lemma insert_set_count_spec vec s : forall fuel a b c,
  a <= length vec -> b <= length s -> (length vec - a) + (length s - b) < fuel ->
  exists a' b' c', insert_set_count fuel vec s a b c = Some (a', b', c') /\
    b' <= length s /\ (a' = length vec \/ b' = length s) /\ a' <= length vec /\
    c' + (length s - b') + length (drop a vec) = c + length (lunion (drop a vec) (drop b s)).
Proof.
  induction fuel as [|fuel IH]; intros a b c Ha Hb Hf; [lia|].
  simpl. destruct (decide (a < length vec /\ b < length s)) as [[Ha' Hb']|Hge].
  - destruct (lookup_lt_exists vec a Ha') as [x Hx].
    destruct (lookup_lt_exists s b Hb') as [y Hy].
    rewrite Hx, Hy. cbn [mbind option_bind].
    rewrite (drop_cons vec a x), (drop_cons s b y), lunion_cons by done.
    ltb_cases x y.
    + destruct (IH (a + 1) b c) as (a' & b' & c' & E & ? & ? & ? & Heq); [lia..|].
      exists a', b', c'. split_and!; try done. rewrite Nat.add_1_r in Heq.
      cbn [length]. rewrite (drop_cons s b y) in Heq by done. lia.
    + destruct (IH a (b + 1) (c + 1)) as (a' & b' & c' & E & ? & ? & ? & Heq); [lia..|].
      exists a', b', c'. split_and!; try done. rewrite !(Nat.add_1_r b) in Heq.
      rewrite (drop_cons vec a x) in Heq by done. cbn [length] in *. lia.
    + destruct (IH (a + 1) (b + 1) c) as (a' & b' & c' & E & ? & ? & ? & Heq); [lia..|].
      exists a', b', c'. split_and!; try done. rewrite !Nat.add_1_r in Heq.
      cbn [length]. lia.
  - exists a, b, c. split_and!; [done|done|lia|done|].
    destruct (decide (a = length vec)) as [->|].
    + rewrite drop_all. cbn [length lunion]. rewrite length_drop. lia.
    + assert (b = length s) as -> by lia. rewrite (drop_all s), lunion_nil_r. lia.
Qed.

Lemma lunion_length_eq v s : sorted v -> sorted s -> length (lunion v s) = length v -> lunion v s = v.
Proof.
  intros Hv Hs Hlen. apply sorted_ext; [by apply sorted_lunion|done|].
  assert (Hp : v ≡ₚ lunion v s).
  { apply submseteq_length_Permutation; [|lia].
    apply NoDup_submseteq; [by apply sorted_NoDup|]. intros x. rewrite elem_of_lunion. auto. }
  intros x. symmetry. by apply elem_of_Permutation_proper.
Qed.

Lemma insert_set_spec vec s :
  sorted vec -> sorted s ->
  insert_set vec s = Some (lunion vec s, length (lunion vec s) - length vec).
Proof.
  intros Hv Hs. unfold insert_set. pose proof (lunion_length_l vec s Hv) as Hlv.
  destruct s as [|x [|y s]].
  - decide_len. by rewrite lunion_nil_r, Nat.sub_diag.
  - decide_len. simpl. destruct (insert_spec vec x Hv) as (v' & i & E & _ & Hv' & Hel & Hlen).
    rewrite E. simpl. assert (v' = lunion vec [x]) as ->.
    { apply sorted_ext; [done|by apply sorted_lunion|].
      intros z. rewrite Hel, elem_of_lunion, list_elem_of_singleton. tauto. }
    do 2 f_equal. rewrite Hlen. repeat case_bool_decide; (lia || done).
  - set (S := x :: y :: s) in *. decide_len.
    destruct (insert_set_count_spec vec S (Datatypes.S (length vec + length S)) 0 0 0)
      as (a & b & c & E & Hb & Hab & Ha & Hc); [lia..|].
    rewrite E. cbn [mbind option_bind]. rewrite !drop_0 in Hc.
    assert (Hc' : (if decide (b < length S)
                   then _ ← cassert (bool_decide (a = length vec)); Some (c + (length S - b))
                   else Some c) = Some (length (lunion vec S) - length vec)).
    { destruct (decide (b < length S)).
      - rewrite bool_decide_true by lia. cbn [cassert mbind option_bind]. f_equal. lia.
      - f_equal. lia. }
    rewrite Hc'. cbn [mbind option_bind].
    destruct (decide (0 < length (lunion vec S) - length vec)) as [Hpos|Hz].
    + change (S !! 0) with (Some x). cbn [mbind option_bind].
      rewrite resize_ge by lia.
      pose proof (insert_set_merge_spec (length (lunion vec S)) vec
        (replicate (length (lunion vec S) - length vec) x) [] S []) as Hm.
      rewrite !app_nil_r in Hm.
      replace (length vec + _ - length vec) with (length (lunion vec S) - length vec) by lia.
      replace (length (vec ++ _)) with (length (lunion vec S)) by len.
      rewrite Hm by (done || len). cbn [mbind option_bind]. done.
    + rewrite lunion_length_eq by (done || lia). by rewrite Nat.sub_diag.
Qed.


(** *** Erasing *)

Lemma shift_down_spec (k d : list T) z : forall n, length d <= n -> exists w,
  shift_down n (k ++ z :: d) (length k) = Some (k ++ d ++ [w]).
Proof.
  revert k z. induction d as [|x d IH]; intros k z n Hn.
  - exists z. destruct n; [done|]. simpl. by decide_len.
  - destruct n; [simpl in Hn; lia|]. simpl. decide_len.
    rewrite (cons_middle z k), app_assoc.
    replace (length k + 1) with (length (k ++ [z])) by len.
    rewrite lookup_mid, <-app_assoc. simpl. rewrite vset_mid. simpl.
    replace (length (k ++ [z])) with (length (k ++ [x])) by len.
    destruct (IH (k ++ [x]) x n) as [w Hw]; [simpl in Hn; lia|].
    exists w. rewrite <-!app_assoc in Hw. exact Hw.
Qed.

Lemma erase_at_spec (k d : list T) z : erase_at (k ++ z :: d) (length k) = Some (k ++ d).
Proof.
  unfold erase_at. destruct (shift_down_spec k d z (length (k ++ z :: d))) as [w Hw]; [len|].
  rewrite Hw. simpl.
  destruct (lookup_lt_exists (k ++ d ++ [w]) 0) as [x Hx]; [len|]. rewrite Hx. simpl.
  rewrite app_assoc, resize_le by len. f_equal. apply take_app_length'. len.
Qed.

Lemma sorted_app_remove k d z : sorted (k ++ z :: d) -> sorted (k ++ d) /\ z ∉ k ++ d.
Proof.
  intros Hs. pose proof (sorted_NoDup _ Hs) as Hnd%NoDup_app.
  destruct Hnd as (_ & Hk & [Hd _]%NoDup_cons). split.
  - apply sorted_app in Hs as (Hsk & [Hsd _]%sorted_cons & Hkd).
    apply sorted_app. split_and!; [done..|]. intros x y Hx Hy. apply Hkd; [done|].
    by apply elem_of_cons; right.
  - intros [Hz|Hz]%elem_of_app; [|done]. by apply (Hk z Hz), list_elem_of_here.
Qed.

Lemma erase_spec vec t :
  sorted vec ->
  exists vec', erase vec t = Some (vec', if bool_decide (t ∈ vec) then 1 else 0) /\
    sorted vec' /\ (forall x, x ∈ vec' <-> x ∈ vec /\ x <> t).
Proof.
  intros Hs. destruct (find_geq_split vec t Hs) as (k & l & -> & Hf & Hk & Hl & Hin).
  unfold erase. rewrite Hf. simpl. destruct l as [|x l].
  - decide_len. rewrite bool_decide_false by (rewrite Hin; naive_solver).
    exists (k ++ []). split_and!; [done|done|]. intros x. split; [|naive_solver].
    intros Hx. split; [done|]. intros ->. by apply Hin in Hx as [? ?].
  - decide_len. rewrite lookup_mid. simpl. destruct (ltb t x) eqn:Etx.
    + assert (Hnin : t ∉ k ++ x :: l).
      { rewrite Hin. intros [l' [= <- _]]. by rewrite ltb_irrefl in Etx. }
      rewrite bool_decide_false by done. exists (k ++ x :: l). split_and!; [done|done|].
      intros y. split; [|naive_solver]. intros Hy. split; [done|]. by intros ->.
    + assert (x = t) as ->. { apply ltb_total; [|done]. apply Hl, list_elem_of_here. }
      rewrite erase_at_spec, bool_decide_true by (apply Hin; eauto). simpl.
      destruct (sorted_app_remove k l t Hs) as [Hs' Ht].
      exists (k ++ l). split_and!; [done|done|]. intros y.
      rewrite !elem_of_app, elem_of_cons. rewrite elem_of_app in Ht.
      split; [|naive_solver]. intros Hy. split; [naive_solver|]. intros ->. tauto.
Qed.

(** The elements of [v] that are not in [s]. *)
Definition ldiff v s : list T := filter (fun x => x ∉ s) v.

Lemma elem_of_ldiff v s x : x ∈ ldiff v s <-> x ∈ v /\ x ∉ s.
Proof. unfold ldiff. rewrite list_elem_of_filter. tauto. Qed.

Lemma sorted_filter (P : T -> Prop) `{forall x, Decision (P x)} v : sorted v -> sorted (filter P v).
Proof.
  induction v as [|x v IH]; [done|]. rewrite sorted_cons. intros [Hs Hx].
  rewrite filter_cons. destruct (decide (P x)); [|by apply IH].
  apply sorted_cons. split; [by apply IH|].
  intros y [_ Hy]%list_elem_of_filter. by apply Hx.
Qed.

Lemma ldiff_cons_in v s x : x ∈ s -> ldiff (x :: v) s = ldiff v s.
Proof. intros. unfold ldiff. rewrite filter_cons, decide_False; [done|]. naive_solver. Qed.
Lemma ldiff_cons_out v s x : x ∉ s -> ldiff (x :: v) s = x :: ldiff v s.
Proof. intros. unfold ldiff. by rewrite filter_cons, decide_True. Qed.

Lemma ldiff_skip v s y :
  (forall x, x ∈ v -> x <> y) -> ldiff v (y :: s) = ldiff v s.
Proof.
  intros Hv. unfold ldiff. induction v as [|x v IH]; [done|]. rewrite !filter_cons.
  rewrite IH by (intros; apply Hv; by apply elem_of_cons; right).
  pose proof (Hv x (list_elem_of_here _ _)).
  destruct (decide (x ∉ s)); [rewrite decide_True|rewrite decide_False]; try done;
    rewrite not_elem_of_cons; tauto.
Qed.

Lemma ldiff_nil_r v : ldiff v [] = v.
Proof.
  unfold ldiff. induction v as [|x v IH]; [done|].
  rewrite filter_cons, decide_True by apply not_elem_of_nil. by rewrite IH.
Qed.

(** Where the erase loops stand: [k] is kept, [g] is the gap, [d] is to do. *)
Lemma erase_set_loop_spec fuel : forall (k g d s0 s : list T) ec,
  sorted d -> sorted s -> (length d + length s < fuel) ->
  exists k' g' d',
    erase_set_loop fuel (k ++ g ++ d) (s0 ++ s) (length k + length g) (length s0) (length k) ec
    = Some (k' ++ g' ++ d', (length k' + length g', length k', ec + (length d - length (ldiff d s)))) /\
    k ++ ldiff d s = k' ++ d' /\ length k <= length k'.
Proof.
  induction fuel as [|fuel IH]; intros k g d s0 s ec Hd Hs Hf; [lia|]. simpl.
  destruct d as [|x d].
  { decide_len. exists k, g, []. split_and!; [|done|done]. do 3 f_equal. simpl. lia. }
  destruct s as [|y s].
  { decide_len. exists k, g, (x :: d). rewrite ldiff_nil_r.
    split_and!; [|done|done]. do 3 f_equal. lia. }
  decide_len. rewrite app_assoc, <-length_app, !lookup_mid. simpl.
  pose proof Hd as [Hd' Hxd]%sorted_cons. pose proof Hs as [Hs' Hys]%sorted_cons.
  ltb_cases x y.
  - assert (Hx : x ∉ y :: s).
    { intros [->|Hx]%elem_of_cons; [by rewrite ltb_irrefl in Elt|].
      apply Hys in Hx. by rewrite ltb_asym in Elt. }
    rewrite ldiff_cons_out by done.
    assert (Hg : exists g', (if decide (length k = length (k ++ g)) then Some ((k ++ g) ++ x :: d)
              else vset ((k ++ g) ++ x :: d) (length k) x) = Some ((k ++ [x]) ++ g' ++ d)
              /\ length g' = length g).
    { destruct g as [|z g]; decide_len.
      - exists []. by rewrite app_nil_r, <-app_assoc.
      - exists (g ++ [x]). split; [|len]. rewrite <-app_assoc. simpl. rewrite vset_mid.
        by rewrite <-!app_assoc. }
    destruct Hg as (g' & Hg & Hlg). rewrite Hg. simpl.
    destruct (IH (k ++ [x]) g' d s0 (y :: s) ec) as (k' & g'' & d' & E & Hk & Hl); [done..|len|].
    exists k', g'', d'. split_and!; [|by rewrite <-Hk, <-app_assoc|len].
    simpl in E |- *. rewrite <-E. f_equal; len.
  - assert (Hsk : ldiff (x :: d) (y :: s) = ldiff (x :: d) s).
    { apply ldiff_skip. intros z [->|Hz]%elem_of_cons ->; [by rewrite ltb_irrefl in Egt|].
      apply Hxd in Hz. by rewrite ltb_asym in Egt. }
    rewrite Hsk, <-app_assoc, (cons_middle y s0), (app_assoc s0).
    destruct (IH k g (x :: d) (s0 ++ [y]) s ec) as (k' & g' & d' & E & Hk & Hl); [done..|len|].
    exists k', g', d'. split_and!; [|done|done].
    simpl in E |- *. rewrite <-E. f_equal; len.
  - rewrite ldiff_cons_in by apply list_elem_of_here.
    assert (Hsk : ldiff d (y :: s) = ldiff d s).
    { apply ldiff_skip. intros z Hz ->. by apply Hxd, ltb_neq in Hz. }
    rewrite Hsk, <-app_assoc, (cons_middle y s0), (cons_middle y g), (app_assoc s0), (app_assoc g).
    destruct (IH k (g ++ [y]) d (s0 ++ [y]) s (ec + 1)) as (k' & g' & d' & E & Hk & Hl); [done..|len|].
    exists k', g', d'. split_and!; [|done|done].
    rewrite length_app in E. rewrite <-Nat.add_assoc in E. simpl in E |- *.
    pose proof (length_filter (fun x => x ∉ s) d). fold (ldiff d s) in *.
    replace (length (k ++ g) + 1) with (length k + (length g + 1)) by len.
    replace (length s0 + 1) with (length (s0 ++ [y])) by len. rewrite E. do 3 f_equal. lia.
Qed.

Lemma erase_set_tail_spec (d k : list T) : forall n g,
  length d <= n -> exists r,
  erase_set_tail n (k ++ g ++ d) (length k + length g) (length k) = Some ((k ++ d) ++ r, length (k ++ d))
  /\ length r = length g.
Proof.
  revert k. induction d as [|x d IH]; intros k n g Hn.
  - exists g. split; [|done]. rewrite !app_nil_r. destruct n; [done|]. simpl. by decide_len.
  - destruct n; [simpl in Hn; lia|]. simpl. decide_len.
    rewrite app_assoc, <-length_app, lookup_mid. simpl.
    assert (exists g', vset ((k ++ g) ++ x :: d) (length k) x = Some ((k ++ [x]) ++ g' ++ d)
              /\ length g' = length g) as (g' & Hg & Hlg).
    { destruct g as [|z g].
      - exists []. by rewrite app_nil_r, vset_mid, <-app_assoc.
      - exists (g ++ [x]). split; [|len]. rewrite <-app_assoc. simpl. rewrite vset_mid.
        by rewrite <-!app_assoc. }
    rewrite Hg. simpl.
    destruct (IH (k ++ [x]) n g') as (r & E & Hr); [simpl in Hn; lia|].
    exists r. split; [|congruence].
    rewrite (cons_middle x k d), (app_assoc k [x]), <-E. f_equal; len.
Qed.

Lemma erase_set_spec vec s :
  sorted vec -> sorted s ->
  erase_set vec s = Some (ldiff vec s, length vec - length (ldiff vec s)).
Proof.
  intros Hv Hs. unfold erase_set. destruct (decide (vec = [])) as [->|Hne]; [done|].
  destruct (decide (s = [])) as [->|Hns].
  { by rewrite ldiff_nil_r, Nat.sub_diag. }
  destruct (erase_set_loop_spec (S (length vec + length s)) [] [] vec [] s 0)
    as (k & g & d & E & Hk & _); [done|done|lia|].
  cbn [app length Nat.add] in E, Hk. rewrite E. cbn [mbind option_bind]. rewrite Hk.
  destruct (decide (length k = length k + length g)) as [Hg|Hg].
  { destruct g; [done|simpl in Hg; lia]. }
  destruct (erase_set_tail_spec d k (length (k ++ g ++ d)) g) as (r & Ht & Hr); [len|].
  rewrite Ht. cbn [mbind option_bind].
  destruct (lookup_lt_exists ((k ++ d) ++ r) 0) as [x Hx].
  { len. }
  rewrite Hx. simpl. rewrite resize_le by len. do 2 f_equal. apply take_app_length'. len.
Qed.

(** *** Inclusion and intersection tests *)

Lemma subset_of_loop_spec fuel : forall (k d s0 s : list T),
  sorted d -> sorted s -> length d + length s < fuel ->
  subset_of_loop fuel (k ++ d) (s0 ++ s) (length k) (length s0)
  = Some (bool_decide (d ⊆ s)).
Proof.
  induction fuel as [|fuel IH]; intros k d s0 s Hd Hs Hf; [lia|]. simpl.
  destruct d as [|x d].
  { decide_len. rewrite bool_decide_true; [done|]. by intros ? ?%elem_of_nil. }
  rewrite decide_True by len.
  destruct (decide (length s < length (x :: d))) as [Hlt|Hge].
  { rewrite decide_True by len. rewrite bool_decide_false; [done|].
    intros Hsub%sorted_subset_length; [lia|done]. }
  rewrite decide_False by len. destruct s as [|y s]; [simpl in Hge; lia|].
  rewrite !lookup_mid. simpl.
  pose proof Hd as [Hd' Hxd]%sorted_cons. pose proof Hs as [Hs' Hys]%sorted_cons.
  ltb_cases x y.
  - rewrite bool_decide_false; [done|]. intros Hsub.
    pose proof (Hsub x (list_elem_of_here _ _)) as [->|Hx]%elem_of_cons;
      [by rewrite ltb_irrefl in Elt|].
    apply Hys in Hx. by rewrite ltb_asym in Elt.
  - rewrite (cons_middle y s0), (app_assoc s0).
    replace (length s0 + 1) with (length (s0 ++ [y])) by len.
    rewrite IH by (done || len). f_equal. apply bool_decide_ext. split.
    + intros Hsub z Hz. apply elem_of_cons. right. by apply Hsub.
    + intros Hsub z Hz. pose proof (Hsub z Hz) as [->|]%elem_of_cons; [|done].
      apply elem_of_cons in Hz as [->|Hz]; [by rewrite ltb_irrefl in Egt|].
      apply Hxd in Hz. by rewrite ltb_asym in Egt.
  - rewrite (cons_middle y s0), (app_assoc s0), (cons_middle y k), (app_assoc k).
    replace (length s0 + 1) with (length (s0 ++ [y])) by len.
    replace (length k + 1) with (length (k ++ [y])) by len.
    rewrite IH by (done || len). f_equal. apply bool_decide_ext. split.
    + intros Hsub z [->|Hz]%elem_of_cons; apply elem_of_cons; auto.
    + intros Hsub z Hz. pose proof (Hsub z (list_elem_of_further _ _ _ Hz)) as [->|]%elem_of_cons; [|done].
      by apply Hxd, ltb_neq in Hz.
Qed.

Lemma subset_of_spec vec s :
  sorted vec -> sorted s -> subset_of vec s = Some (bool_decide (vec ⊆ s)).
Proof.
  intros Hv Hs. unfold subset_of. destruct (decide (length s < length vec)).
  - rewrite bool_decide_false; [done|]. intros Hsub%sorted_subset_length; [lia|done].
  - by apply (subset_of_loop_spec _ [] vec [] s); [..|lia].
Qed.

Lemma intersects_loop_spec fuel : forall (k d s0 s : list T),
  sorted d -> sorted s -> length d + length s < fuel ->
  exists r, intersects_loop fuel (k ++ d) (s0 ++ s) (length k) (length s0) = Some r /\
    (r = true <-> exists x, x ∈ d /\ x ∈ s).
Proof.
  induction fuel as [|fuel IH]; intros k d s0 s Hd Hs Hf; [lia|]. simpl.
  destruct d as [|x d].
  { decide_len. exists false. split; [done|]. split; [done|]. by intros (? & ?%elem_of_nil & _). }
  destruct s as [|y s].
  { decide_len. exists false. split; [done|]. split; [done|]. by intros (? & _ & ?%elem_of_nil). }
  decide_len. rewrite !lookup_mid. simpl.
  pose proof Hd as [Hd' Hxd]%sorted_cons. pose proof Hs as [Hs' Hys]%sorted_cons.
  ltb_cases x y.
  - rewrite (cons_middle x k), (app_assoc k).
    replace (length k + 1) with (length (k ++ [x])) by len.
    destruct (IH (k ++ [x]) d s0 (y :: s)) as (r & E & Hr); [done..|len|].
    exists r. split; [done|]. rewrite Hr. split; intros (z & Hz & Hz').
    + exists z. split; [by apply elem_of_cons; right|done].
    + exists z. split; [|done]. apply elem_of_cons in Hz as [->|]; [|done].
      apply elem_of_cons in Hz' as [->|Hx]; [by rewrite ltb_irrefl in Elt|].
      apply Hys in Hx. by rewrite ltb_asym in Elt.
  - rewrite (cons_middle y s0), (app_assoc s0).
    replace (length s0 + 1) with (length (s0 ++ [y])) by len.
    destruct (IH k (x :: d) (s0 ++ [y]) s) as (r & E & Hr); [done..|len|].
    exists r. split; [done|]. rewrite Hr. split; intros (z & Hz & Hz').
    + exists z. split; [done|]. by apply elem_of_cons; right.
    + exists z. split; [done|]. apply elem_of_cons in Hz' as [->|]; [|done].
      apply elem_of_cons in Hz as [->|Hx]; [by rewrite ltb_irrefl in Egt|].
      apply Hxd in Hx. by rewrite ltb_asym in Egt.
  - exists true. split; [done|]. split; [|done]. intros _. exists y. split; constructor.
Qed.

Lemma intersects_spec vec s :
  sorted vec -> sorted s ->
  exists r, intersects vec s = Some r /\ (r = true <-> exists x, x ∈ vec /\ x ∈ s).
Proof. intros Hv Hs. by apply (intersects_loop_spec _ [] vec [] s); [..|lia]. Qed.

(** *** Lookup, the range constructor and the order on sets *)

Lemma find_spec vec t :
  sorted vec -> exists i, find vec t = Some i /\
    (t ∈ vec -> vec !! Z.to_nat i = Some t /\ (0 <= i)%Z) /\ (t ∉ vec -> i = -1)%Z.
Proof.
  intros Hs. destruct (find_geq_split vec t Hs) as (k & l & -> & Hf & Hk & Hl & Hin).
  unfold find. rewrite Hf. simpl. destruct l as [|x l].
  - rewrite decide_True by len. exists (-1)%Z. split_and!; [done| |done].
    intros [? [=]]%Hin.
  - rewrite decide_False by len. rewrite lookup_mid. simpl.
    eexists. split; [done|]. destruct (decide (x = t)) as [->|Hx].
    + rewrite Nat2Z.id, lookup_mid. split; [by split; [|lia]|]. intros []. by eapply Hin, ex_intro.
    + split; [|done]. intros [l' [= ->]]%Hin. done.
Qed.

Lemma count_spec vec t :
  sorted vec -> count vec t = Some (if bool_decide (t ∈ vec) then 1 else 0)%Z.
Proof.
  intros Hs. unfold count. destruct (find_spec vec t Hs) as (i & -> & Hi & Hn). simpl.
  case_bool_decide as Ht.
  - by rewrite decide_True by (by apply Hi).
  - rewrite Hn by done. done.
Qed.

Lemma of_range_loop_spec (l : list T) : forall vec,
  sorted vec -> exists v, of_range_loop vec l = Some v /\ sorted v /\
    (forall x, x ∈ v <-> x ∈ vec \/ x ∈ l).
Proof.
  induction l as [|y l IH]; intros vec Hs; simpl.
  { exists vec. split_and!; [done|done|]. intros. rewrite elem_of_nil. tauto. }
  assert (Hins : exists v, (r ← insert vec y; of_range_loop r.1 l) = Some v /\ sorted v /\
    (forall x, x ∈ v <-> x ∈ vec \/ x ∈ y :: l)).
  { destruct (insert_spec vec y Hs) as (v' & i & E & _ & Hv' & Hel & _). rewrite E. simpl.
    destruct (IH v' Hv') as (v & Ev & Hv & Hel'). exists v. split_and!; [done|done|].
    intros x. rewrite Hel', Hel, elem_of_cons. tauto. }
  destruct vec as [|z vec _] using rev_ind; [decide_len; done|].
  decide_len. rewrite vback_snoc. simpl. destruct (z <? y)%nidhugg eqn:Ezy; [|done].
  destruct (IH ((vec ++ [z]) ++ [y])) as (v & Ev & Hv & Hel).
  { apply sorted_snoc. split; [done|]. apply sorted_snoc in Hs as [_ Hz].
    intros x [Hx| ->%list_elem_of_singleton]%elem_of_app; [|done].
    by eapply ltb_trans, Ezy; apply Hz. }
  exists v. split_and!; [done|done|]. intros x.
  rewrite Hel, elem_of_app, list_elem_of_singleton, elem_of_cons. tauto.
Qed.

(** *** The lexicographic order makes sets of sets possible *)

#[export] Instance seq_ltb : LtB (list T) := seq_lt.

#[export] Instance seq_lt_order : LtOrder (list T).
Proof.
  split; unfold ltb, seq_ltb.
  - intros v. induction v as [|x v IH]; [done|]. simpl. by rewrite ltb_irrefl.
  - intros v. induction v as [|x v IH]; intros [|y s] [|z k]; try done. simpl.
    ltb_cases x y; [|done|].
    + intros _. ltb_cases y z; [|done|by rewrite Elt].
      intros _. by rewrite (ltb_trans x y z).
    + ltb_cases y z; [done|done|]. apply IH.
  - intros v. induction v as [|x v IH]; intros [|y s]; try done. simpl.
    ltb_cases x y; [done|done|]. intros ??. f_equal. by apply IH.
Qed.

End sorted.

(** ** What the class promises *)

Section vecset_theorems.
Context {T : Type} `{EqDecision T} `{LtOrder T}.
Implicit Types (vec s : list T) (t x : T).

(** [insert(t)] on a valid set never leaves the vector's bounds and never
    fails its assertion; it returns the position of [t] and whether [t] was
    new; the result is a valid set with exactly the old elements and [t], and
    one element longer if [t] was new. *)
Theorem insert_correct vec t :
  check_invariant vec = true ->
  exists vec' i, insert vec t = Some (vec', (i, bool_decide (t ∉ vec))) /\
    check_invariant vec' = true /\ vec' !! i = Some t /\
    (forall x, x ∈ vec' <-> x = t \/ x ∈ vec) /\
    length vec' = length vec + (if bool_decide (t ∈ vec) then 0 else 1).
Proof.
  rewrite check_invariant_sorted. intros (vec' & i & ? & ? & ? & ?)%(insert_spec vec t).
  exists vec', i. by rewrite check_invariant_sorted.
Qed.

(** [insert(const VecSet &)]: on two valid sets the in-place backwards
    merge stays in bounds, ends with both cursors at -1 as the source asserts,
    and yields the valid set that is their union; the returned count is the
    number of new elements. *)
Theorem insert_set_correct vec s :
  check_invariant vec = true -> check_invariant s = true ->
  exists vec', insert_set vec s = Some (vec', length vec' - length vec) /\
    check_invariant vec' = true /\ length vec <= length vec' /\
    (forall x, x ∈ vec' <-> x ∈ vec \/ x ∈ s).
Proof.
  rewrite !check_invariant_sorted. intros Hv Hs. exists (lunion vec s).
  rewrite insert_set_spec, check_invariant_sorted by done.
  split_and!; auto using sorted_lunion, lunion_length_l. apply elem_of_lunion.
Qed.

(** Erasing: [erase(t)] removes exactly [t] and returns 1 iff it was there;
    [erase(const VecSet &)] computes the set difference in place and returns the
    number of erased elements. Both stay in bounds and keep the invariant. *)
Theorem erase_correct vec s t :
  check_invariant vec = true -> check_invariant s = true ->
  (exists vec', erase vec t = Some (vec', if bool_decide (t ∈ vec) then 1 else 0) /\
    check_invariant vec' = true /\ (forall x, x ∈ vec' <-> x ∈ vec /\ x <> t)) /\
  (exists vec', erase_set vec s = Some (vec', length vec - length vec') /\
    check_invariant vec' = true /\ (forall x, x ∈ vec' <-> x ∈ vec /\ x ∉ s)).
Proof.
  rewrite !check_invariant_sorted. intros Hv Hs. split.
  - destruct (erase_spec vec t Hv) as (vec' & ? & ? & ?). exists vec'.
    by rewrite check_invariant_sorted.
  - exists (ldiff vec s). rewrite erase_set_spec, check_invariant_sorted by done.
    split_and!; [done|by apply sorted_filter|apply elem_of_ldiff].
Qed.

(** The queries on valid sets terminate in bounds and decide what they are
    named for: membership, inclusion and non-empty intersection. *)
Theorem queries_correct vec s t :
  check_invariant vec = true -> check_invariant s = true ->
  count vec t = Some (if bool_decide (t ∈ vec) then 1 else 0)%Z /\
  subset_of vec s = Some (bool_decide (vec ⊆ s)) /\
  exists r, intersects vec s = Some r /\ (r = true <-> exists x, x ∈ vec /\ x ∈ s).
Proof.
  rewrite !check_invariant_sorted. intros Hv Hs.
  split_and!; [by apply count_spec|by apply subset_of_spec|by apply intersects_spec].
Qed.

(** The range constructor builds a valid set from any sequence. *)
Lemma of_range_correct (l : list T) :
  exists v, of_range l = Some v /\ check_invariant v = true /\ (forall x, x ∈ v <-> x ∈ l).
Proof.
  destruct (of_range_loop_spec l [] sorted_nil) as (v & ? & ? & Hel). exists v.
  rewrite check_invariant_sorted. split_and!; [done|done|]. intros x. rewrite Hel, elem_of_nil. tauto.
Qed.

(** [insert_gt] and [insert_geq] agree with [insert] under their precondition. *)
Lemma insert_gt_spec vec t :
  sorted vec -> (forall x, x ∈ vec -> ltb x t = true) ->
  insert_gt vec t = Some (vec ++ [t]) /\ sorted (vec ++ [t]).
Proof.
  intros Hs Ht. split; [|by apply sorted_snoc]. unfold insert_gt.
  destruct vec as [|x vec _] using rev_ind; [done|]. rewrite decide_False by len.
  rewrite vback_snoc. simpl. by rewrite Ht by (apply elem_of_app; right; constructor).
Qed.

Lemma insert_geq_spec vec t :
  sorted vec -> (forall x, x ∈ vec -> ltb t x = false) ->
  exists vec' i, insert_geq vec t = Some (vec', (i, bool_decide (t ∉ vec))) /\
    sorted vec' /\ vec' !! i = Some t /\ (forall x, x ∈ vec' <-> x = t \/ x ∈ vec).
Proof.
  intros Hs Ht. unfold insert_geq. destruct vec as [|x vec _] using rev_ind.
  { exists [t], 0. rewrite bool_decide_true by apply not_elem_of_nil.
    split_and!; [done|by repeat constructor|done|]. intros y.
    rewrite list_elem_of_singleton, elem_of_nil. tauto. }
  rewrite decide_False by len. rewrite vback_snoc. simpl.
  rewrite Ht by (apply elem_of_app; right; constructor). simpl.
  pose proof Hs as [Hs' Hx]%sorted_snoc. destruct (decide (x = t)) as [->|Hne].
  - exists (vec ++ [t]), (length vec).
    rewrite bool_decide_false by (intros []; apply elem_of_app; right; constructor).
    split_and!; [do 3 f_equal; len|done|apply lookup_mid|].
    intros y. rewrite elem_of_app, list_elem_of_singleton. tauto.
  - assert (Hlt : forall y, y ∈ vec ++ [x] -> ltb y t = true).
    { assert (Hxt : ltb x t = true).
      { destruct (ltb x t) eqn:E; [done|]. destruct Hne. apply ltb_total; [done|].
        apply Ht, elem_of_app. right. constructor. }
      intros y [Hy| ->%list_elem_of_singleton]%elem_of_app; [|done].
      by eapply ltb_trans, Hxt; apply Hx. }
    exists ((vec ++ [x]) ++ [t]), (length (vec ++ [x])).
    rewrite bool_decide_true.
    2:{ intros Hin. by apply Hlt, ltb_neq in Hin. }
    split_and!; [done|by apply sorted_snoc|apply lookup_mid|].
    intros y. rewrite elem_of_app, list_elem_of_singleton. tauto.
Qed.

End vecset_theorems.

(** ** Concrete runs *)

Lemma insert_correct_witness :
  exists vec' i, insert [1; 3; 5]%Z 4%Z = Some (vec', (i, bool_decide (4 ∉ [1; 3; 5])%Z)) /\
    check_invariant vec' = true /\ vec' !! i = Some 4%Z /\
    (forall x, x ∈ vec' <-> x = 4%Z \/ x ∈ [1; 3; 5]%Z) /\
    length vec' = 3 + (if bool_decide (4 ∈ [1; 3; 5])%Z then 0 else 1).
Proof. apply (insert_correct [1; 3; 5]%Z 4%Z). reflexivity. Defined.

Lemma insert_set_correct_witness :
  exists vec', insert_set [1; 3; 5]%Z [0; 3; 7]%Z = Some (vec', length vec' - 3) /\
    check_invariant vec' = true /\ 3 <= length vec' /\
    (forall x, x ∈ vec' <-> x ∈ [1; 3; 5]%Z \/ x ∈ [0; 3; 7]%Z).
Proof. apply (insert_set_correct [1; 3; 5]%Z [0; 3; 7]%Z); reflexivity. Defined.

Lemma erase_correct_witness :
  (exists vec', erase [1; 3; 5]%Z 3%Z = Some (vec', if bool_decide (3 ∈ [1; 3; 5])%Z then 1 else 0) /\
    check_invariant vec' = true /\ (forall x, x ∈ vec' <-> x ∈ [1; 3; 5]%Z /\ x <> 3%Z)) /\
  (exists vec', erase_set [1; 3; 5]%Z [1; 4]%Z = Some (vec', 3 - length vec') /\
    check_invariant vec' = true /\ (forall x, x ∈ vec' <-> x ∈ [1; 3; 5]%Z /\ x ∉ [1; 4]%Z)).
Proof. apply (erase_correct [1; 3; 5]%Z [1; 4]%Z 3%Z); reflexivity. Defined.

Lemma queries_correct_witness :
  count [1; 3]%Z 3%Z = Some (if bool_decide (3 ∈ [1; 3])%Z then 1 else 0)%Z /\
  subset_of [1; 3]%Z [1; 2; 3]%Z = Some (bool_decide ([1; 3] ⊆ [1; 2; 3])%Z) /\
  exists r, intersects [1; 3]%Z [1; 2; 3]%Z = Some r /\
    (r = true <-> exists x, x ∈ [1; 3]%Z /\ x ∈ [1; 2; 3]%Z).
Proof. apply (queries_correct [1; 3]%Z [1; 2; 3]%Z 3%Z); reflexivity. Defined.

Example insert_run : insert [1; 3; 5]%Z 4%Z = Some ([1; 3; 4; 5]%Z, (2, true)).
Proof. vm_compute. reflexivity. Qed.
Example insert_set_run : insert_set [1; 3; 5]%Z [0; 3; 7]%Z = Some ([0; 1; 3; 5; 7]%Z, 2).
Proof. vm_compute. reflexivity. Qed.
Example erase_set_run : erase_set [1; 3; 5; 7]%Z [3; 4; 7]%Z = Some ([1; 5]%Z, 2).
Proof. vm_compute. reflexivity. Qed.
