(* ===== verification/VClock.v ===== *)
(** * VClock: vector clocks over process indices (src/src/VClock.h, VClock.cpp)

    [VClock<int>] is a [std::vector<int>]; clocks beyond its end are 0, so
    vectors that differ in trailing zeros are the same clock. [VClockVec] keeps
    many clocks of one width in a single flat vector and hands out references
    into it. The theorems relate the index loops to the pointwise view
    [clk v i]: the join is the least upper bound, the comparisons decide the
    pointwise orders, and [operator<] is a strict total order on clocks. *)

From stdpp Require Import pretty.
From S2P Require Import Prelude.

(** An index of a C++ loop used as an [int]. *)
Local Coercion Z.of_nat : nat >-> Z.

(** ** VClock<int>: operations *)

Abbreviation vclock := (list Z).

(** The constructors from a vector or an initializer list assert that every
    clock is non-negative. *)
Definition vc_of_vector (v : list Z) : option vclock :=
  _ ← for_range (length v) 0 (fun i _ => x ← v !! i; cassert (bool_decide (0 <= x)%Z)) tt;
  Some v.

Fixpoint vc_size_loop (v : vclock) (s : nat) : option nat :=
  match s with
  | 0 => Some 0
  | S s' => x ← v !! s'; if decide (x = 0%Z) then vc_size_loop v s' else Some s
  end.
Definition vc_size (v : vclock) : option nat := vc_size_loop v (length v).

(** [operator\[\] const] and the reference-returning [operator\[\]], which
    grows the vector. *)
Definition vc_get (v : vclock) (i : Z) : option Z :=
  _ ← cassert (bool_decide (0 <= i)%Z);
  if decide (i < Z.of_nat (length v))%Z then zget v i else Some 0%Z.
Definition vc_ref (v : vclock) (i : Z) : option vclock :=
  _ ← cassert (bool_decide (0 <= i)%Z);
  Some (if decide (i >= Z.of_nat (length v))%Z then resize (Z.to_nat i + 1) 0%Z v else v).
Definition vc_set (v : vclock) (i x : Z) : option vclock := v ← vc_ref v i; zset v i x.

Definition vc_plus (a b : vclock) : option vclock :=
  let m := Nat.max (length a) (length b) in
  for_range m 0 (fun i v => x ← vc_get a i; y ← vc_get b i; vset v i (Z.max x y))
    (replicate m 0%Z).

Definition vc_plus_assign (a b : vclock) : option vclock :=
  let a := if decide (length a < length b) then resize (length b) 0%Z a else a in
  for_range (length b) 0
    (fun i v => x ← b !! i; y ← v !! i; if decide (x > y)%Z then vset v i x else Some v) a.

Definition vc_minus (a b : vclock) : option vclock :=
  let m := Nat.max (length a) (length b) in
  for_range m 0 (fun i v => x ← vc_get a i; y ← vc_get b i; vset v i (Z.min x y))
    (replicate m 0%Z).

Definition vc_minus_assign (a b : vclock) : option vclock :=
  let a := if decide (length a < length b) then resize (length b) 0%Z a else a in
  for_range (length b) 0
    (fun i v => x ← b !! i; y ← v !! i; if decide (x < y)%Z then vset v i x else Some v) a.

Definition vc_eq (a b : vclock) : option bool :=
  returning (for_ret (Nat.max (length a) (length b)) 0 (fun i _ =>
    x ← vc_get a i; y ← vc_get b i; Some (if decide (x <> y) then inl false else inr tt)) tt)
    (fun _ => true).
Definition vc_neq (a b : vclock) : option bool := r ← vc_eq a b; Some (negb r).

(** [operator<] and its companions: lexicographic. *)
Definition vc_less (a b : vclock) : option bool :=
  returning (for_ret (Nat.max (length a) (length b)) 0 (fun i _ =>
    x ← vc_get a i; y ← vc_get b i;
    Some (if decide (x < y)%Z then inl true
          else if decide (x > y)%Z then inl false else inr tt)) tt)
    (fun _ => false).
Definition vc_less_eq (a b : vclock) : option bool := r ← vc_less b a; Some (negb r).
Definition vc_greater (a b : vclock) : option bool := vc_less b a.
Definition vc_greater_eq (a b : vclock) : option bool := r ← vc_less a b; Some (negb r).

(** The partial order. *)
Definition vc_lt (a b : vclock) : option bool :=
  returning (for_ret (Nat.max (length a) (length b)) 0 (fun i less =>
    x ← vc_get a i; y ← vc_get b i;
    Some (if decide (x > y)%Z then inl false else inr (less || bool_decide (x < y)%Z))) false)
    (fun less => less).

Definition vc_leq (a b : vclock) : option bool :=
  let m := Nat.min (length a) (length b) in
  r ← for_ret m 0 (fun i _ =>
        y ← b !! i; x ← a !! i; Some (if decide (y < x)%Z then inl false else inr tt)) tt;
  match r with
  | inl r => Some r
  | inr _ => returning (for_ret (length a - m) m (fun i _ =>
      x ← a !! i; Some (if decide (x = 0%Z) then inr tt else inl false)) tt) (fun _ => true)
  end.

Definition vc_geq (a b : vclock) : option bool :=
  returning (for_ret (Nat.max (length a) (length b)) 0 (fun i _ =>
    x ← vc_get a i; y ← vc_get b i; Some (if decide (x < y)%Z then inl false else inr tt)) tt)
    (fun _ => true).

Definition vc_gt (a b : vclock) : option bool :=
  returning (for_ret (Nat.max (length a) (length b)) 0 (fun i greater =>
    x ← vc_get a i; y ← vc_get b i;
    Some (if decide (x < y)%Z then inl false else inr (greater || bool_decide (x > y)%Z))) false)
    (fun greater => greater).

Definition vc_intersects_below (a b : vclock) : option bool :=
  returning (for_ret (length b) 0 (fun i _ =>
    x ← vc_get a i; y ← vc_get b i; Some (if decide (x >= y)%Z then inl true else inr tt)) tt)
    (fun _ => false).

(** [includes(iid)]: [iid.get_index() <= (\*this)\[iid.get_pid()\]]. *)
Definition vc_includes (v : vclock) (pid idx : Z) : option bool :=
  x ← vc_get v pid; Some (bool_decide (idx <= x)%Z).

Definition vc_to_string (v : vclock) : option string :=
  m ← vc_size v;
  s ← for_range m 0 (fun i s =>
        x ← v !! i; Some (s +:+ (if decide (i = 0) then "" else ", ") +:+ pretty x)) "[";
  Some (s +:+ "]").

(** ** VClockVec: operations

    The state is the flat vector and the width of a clock; a [Ref] is the
    offset of its first component. *)

Record vclockvec := VClockVec { vcv_vec : list Z; vcv_clock_size : nat }.

Definition vcv_create (clock_size size : nat) : vclockvec :=
  VClockVec (replicate (clock_size * size) 0%Z) clock_size.

Definition vcv_at (s : vclockvec) (d : Z) : option nat :=
  _ ← cassert (bool_decide (0 <= d /\ (d + 1) * Z.of_nat (vcv_clock_size s)
                                      <= Z.of_nat (length (vcv_vec s)))%Z);
  Some (Z.to_nat d * vcv_clock_size s).

(** [Ref::operator\[\]] on the reference with base [base] and size [sz]. *)
Definition ref_get (v : list Z) (base sz : nat) (d : Z) : option Z :=
  _ ← cassert (bool_decide (0 <= d < Z.of_nat sz)%Z); v !! (base + Z.to_nat d).
Definition ref_set (v : list Z) (base sz : nat) (d x : Z) : option (list Z) :=
  _ ← cassert (bool_decide (0 <= d < Z.of_nat sz)%Z); vset v (base + Z.to_nat d) x.

(** [Ref::operator=(const VClock<int>)]. *)
Definition ref_assign (v : list Z) (base sz : nat) (vc : vclock) : option (list Z) :=
  for_range sz 0 (fun i v => x ← vc_get vc i; vset v (base + i) x) v.

(** [Ref::operator-=(const Ref)]; both references point into the same vector. *)
Definition ref_minus_assign (v : list Z) (base base' sz sz' : nat) : option (list Z) :=
  _ ← cassert (bool_decide (sz' = sz));
  for_range sz 0 (fun i v =>
    x ← v !! (base' + i); y ← v !! (base + i);
    if decide (x < y)%Z then vset v (base + i) x else Some v) v.

Definition ref_lt (v : list Z) (base base' sz sz' : nat) : option bool :=
  _ ← cassert (bool_decide (sz = sz'));
  returning (for_ret sz 0 (fun i less =>
    x ← ref_get v base sz i; y ← ref_get v base' sz' i;
    Some (if decide (x > y)%Z then inl false else inr (less || bool_decide (x < y)%Z))) false)
    (fun less => less).

Definition vcv_assign (s : vclockvec) (clock_size count : nat) (init : vclock)
    : option vclockvec :=
  sz ← vc_size init;
  _ ← cassert (bool_decide (sz <= clock_size));
  s ← for_range count 0 (fun i s =>
        base ← vcv_at s i;
        v ← for_range clock_size 0 (fun j v =>
              x ← vc_get init j; ref_set v base clock_size j x) (vcv_vec s);
        Some (VClockVec v clock_size))
      (VClockVec (resize (count * clock_size) 0%Z (vcv_vec s)) clock_size);
  Some s.

(** ** The pointwise view *)

Definition clk (v : vclock) (i : nat) : Z := default 0%Z (v !! i).

Definition vc_wf (v : vclock) : Prop := forall i, (0 <= clk v i)%Z.

(** Clocks are compared by their components: trailing zeros do not matter. *)
Definition vc_equiv : relation vclock := fun a b => forall i, clk a i = clk b i.
Infix "≈" := vc_equiv (at level 70, no associativity).
#[export] Instance vc_equivalence : Equivalence vc_equiv.
Proof. split; unfold vc_equiv; [intros ??|intros ????|intros ??????]; congruence. Qed.
#[export] Instance clk_proper : Proper (vc_equiv ==> eq ==> eq) clk.
Proof. intros a b Hab i _ <-. apply Hab. Qed.
#[export] Instance vc_wf_proper : Proper (vc_equiv ==> iff) vc_wf.
Proof. intros a b Hab. unfold vc_wf. by setoid_rewrite Hab. Qed.

Lemma clk_ge v i : length v <= i -> clk v i = 0%Z.
Proof. intros. unfold clk. by rewrite lookup_ge_None_2. Qed.

Lemma clk_lookup v i x : v !! i = Some x -> clk v i = x.
Proof. unfold clk. by intros ->. Qed.

Lemma lookup_clk v i : i < length v -> v !! i = Some (clk v i).
Proof. intros [x Hx]%lookup_lt_is_Some_2. by rewrite (clk_lookup _ _ _ Hx). Qed.

Lemma vc_get_spec v (i : nat) : vc_get v i = Some (clk v i).
Proof.
  unfold vc_get. rewrite bool_decide_true by lia. simpl. rewrite zget_nat.
  case_decide; [apply lookup_clk; lia|rewrite clk_ge by lia; done].
Qed.

Lemma vc_wf_Forall v : Forall (fun x => 0 <= x)%Z v <-> vc_wf v.
Proof.
  split.
  - intros Hv i. destruct (decide (i < length v)) as [Hi|]; [|rewrite clk_ge; lia].
    eapply Forall_lookup_1; [done|by apply lookup_clk].
  - intros Hv. apply Forall_lookup_2. intros i x <-%clk_lookup. apply Hv.
Qed.

Lemma clk_resize v n i : length v <= n -> clk (resize n 0%Z v) i = clk v i.
Proof.
  intros Hn. rewrite resize_ge by done. unfold clk.
  destruct (decide (i < length v)); [by rewrite lookup_app_l|].
  rewrite lookup_app_r, (lookup_ge_None_2 v) by lia.
  destruct (decide (i - length v < n - length v)).
  - by rewrite lookup_replicate_2 by done.
  - by rewrite lookup_ge_None_2 by len.
Qed.

(** The growing [operator\[\]] does not change the clock. *)
Lemma vc_ref_spec v (i : nat) :
  exists v', vc_ref v i = Some v' /\ v' ≈ v /\ i < length v'.
Proof.
  unfold vc_ref. rewrite bool_decide_true by lia. cbn [cassert mbind option_bind].
  eexists; split; [done|]. case_decide; [|split; [done|lia]].
  rewrite Nat2Z.id, length_resize. split; [|lia]. intros j. apply clk_resize. lia.
Qed.

Lemma vc_set_spec v (i : nat) x :
  exists v', vc_set v i x = Some v' /\
    forall j, clk v' j = if decide (j = i) then x else clk v j.
Proof.
  unfold vc_set. destruct (vc_ref_spec v i) as (v' & -> & Hv & Hi). simpl.
  rewrite zset_nat, vset_Some by done. eexists; split; [done|].
  intros j. unfold clk. case_decide as Hj.
  - subst. by rewrite list_lookup_insert_eq.
  - rewrite list_lookup_insert_ne by done. apply Hv.
Qed.

Lemma vc_size_spec v :
  exists s, vc_size v = Some s /\ (forall i, s <= i -> clk v i = 0%Z) /\
    (0 < s -> clk v (s - 1) <> 0%Z).
Proof.
  unfold vc_size. assert (Hs : forall n, n <= length v -> (forall i, n <= i -> clk v i = 0%Z) ->
    exists s, vc_size_loop v n = Some s /\ (forall i, s <= i -> clk v i = 0%Z) /\
    (0 < s -> clk v (s - 1) <> 0%Z)).
  { induction n as [|n IH]; intros Hn Hz; simpl; [exists 0; split_and!; [done|done|lia]|].
    rewrite lookup_clk by lia. simpl. case_decide as E.
    - apply IH; [lia|]. intros i Hi. destruct (decide (i = n)) as [->|]; [done|]. apply Hz. lia.
    - exists (S n). rewrite Nat.sub_succ, Nat.sub_0_r. done. }
  apply Hs; [lia|]. apply clk_ge.
Qed.

(** ** Joins and meets *)

Lemma clk_of_lookup (r : list Z) m (f : nat -> Z) :
  length r = m -> (forall j, j < m -> r !! j = Some (f j)) -> (forall j, m <= j -> f j = 0%Z) ->
  forall j, clk r j = f j.
Proof.
  intros Hl Hr Hf j. destruct (decide (j < m)); [by apply clk_lookup, Hr|].
  rewrite clk_ge, Hf by lia. done.
Qed.

(** The loops of [operator+] and [operator-]. *)
Lemma vc_zip_loop (f : Z -> Z -> Z) a b :
  (f 0 0 = 0)%Z ->
  let m := Nat.max (length a) (length b) in
  exists r, for_range m 0 (fun i v => x ← vc_get a i; y ← vc_get b i; vset v i (f x y))
              (replicate m 0%Z) = Some r /\
    length r = m /\ forall j, clk r j = f (clk a j) (clk b j).
Proof.
  intros Hf m. destruct (for_range_write (fun i _ => f (clk a i) (clk b i))
    (fun i v => x ← vc_get a i; y ← vc_get b i; vset v i (f x y)) m m 0 (replicate m 0%Z))
    as (r & Hr & Hl & Hj); [by rewrite length_replicate|lia| |].
  { intros k v x Hk Hv Hx. rewrite !vc_get_spec. simpl. apply vset_Some. lia. }
  exists r. split_and!; [done|done|]. apply (clk_of_lookup _ m); [done| |].
  - intros j Hjm. by rewrite Hj, decide_True, lookup_replicate_2 by lia.
  - intros j Hjm. rewrite !clk_ge by lia. done.
Qed.

(** The loops of [operator+=] and [operator-=]. *)
Lemma vc_assign_loop (f : Z -> Z -> Z) (c : Z -> Z -> Prop) `{forall x y, Decision (c x y)} a b :
  (forall x y, f x y = if decide (c y x) then y else x) ->
  exists r, for_range (length b) 0
      (fun i v => x ← b !! i; y ← v !! i; if decide (c x y) then vset v i x else Some v)
      (if decide (length a < length b) then resize (length b) 0%Z a else a) = Some r /\
    length r = Nat.max (length a) (length b) /\
    forall j, clk r j = if decide (j < length b) then f (clk a j) (clk b j) else clk a j.
Proof.
  intros Hf. set (a' := if decide _ then _ else _).
  assert (Ha' : length a' = Nat.max (length a) (length b) /\ forall j, clk a' j = clk a j).
  { unfold a'. case_decide; [|split; [lia|done]]. rewrite length_resize. split; [lia|].
    intros j. apply clk_resize. lia. }
  destruct Ha' as [Hla Ha'].
  destruct (for_range_write (fun i y => f y (clk b i))
    (fun i v => x ← b !! i; y ← v !! i; if decide (c x y) then vset v i x else Some v)
    (length a') (length b) 0 a') as (r & Hr & Hl & Hj); [done|lia| |].
  { intros k v x Hk Hv Hx. rewrite (lookup_clk b), Hx by lia. simpl. rewrite Hf.
    case_decide; [apply vset_Some; lia|]. by rewrite list_insert_id. }
  exists r. split_and!; [done|lia|]. intros j.
  destruct (decide (j < length a')) as [Hja|Hja].
  - apply clk_lookup. rewrite Hj, (lookup_clk a'), Ha' by done.
    repeat case_decide; (done || lia).
  - rewrite decide_False, !clk_ge by lia. done.
Qed.

Lemma vc_plus_spec a b :
  exists r, vc_plus a b = Some r /\ forall i, clk r i = Z.max (clk a i) (clk b i).
Proof. destruct (vc_zip_loop Z.max a b) as (r & ? & _ & ?); eauto. Qed.

Lemma vc_minus_spec a b :
  exists r, vc_minus a b = Some r /\ forall i, clk r i = Z.min (clk a i) (clk b i).
Proof. destruct (vc_zip_loop Z.min a b) as (r & ? & _ & ?); eauto. Qed.

Lemma vc_plus_assign_spec a b :
  vc_wf a ->
  exists r, vc_plus_assign a b = Some r /\ forall i, clk r i = Z.max (clk a i) (clk b i).
Proof.
  intros Ha. destruct (vc_assign_loop Z.max Z.gt a b) as (r & Hr & _ & Hj).
  { intros x y. case_decide; lia. }
  exists r. split; [done|]. intros i. rewrite Hj. destruct (decide (i < length b)); [done|].
  rewrite (clk_ge b) by lia. specialize (Ha i). lia.
Qed.

Lemma vc_minus_assign_spec a b :
  exists r, vc_minus_assign a b = Some r /\
    forall i, clk r i = if decide (i < length b) then Z.min (clk a i) (clk b i) else clk a i.
Proof.
  destruct (vc_assign_loop Z.min Z.lt a b) as (r & Hr & _ & Hj).
  { intros x y. case_decide; lia. }
  by exists r.
Qed.

(** ** Comparisons *)

Definition clk_le (a b : vclock) : Prop := forall i, (clk a i <= clk b i)%Z.
Definition clk_lt (a b : vclock) : Prop := clk_le a b /\ exists i, (clk a i < clk b i)%Z.

#[export] Instance clk_le_proper : Proper (vc_equiv ==> vc_equiv ==> iff) clk_le.
Proof. intros a a' Ha b b' Hb. unfold clk_le. setoid_rewrite Ha. by setoid_rewrite Hb. Qed.
#[export] Instance clk_le_preorder : PreOrder clk_le.
Proof. split; [intros a i; lia|]. intros a b c Hab Hbc i. specialize (Hab i). specialize (Hbc i). lia. Qed.

(** A condition on the components holds everywhere if it does below [m]. *)
Lemma clk_forall_below a b m (p : Z -> Z -> Prop) :
  length a <= m -> length b <= m -> p 0%Z 0%Z ->
  (forall i, p (clk a i) (clk b i)) <-> (forall i, i < m -> p (clk a i) (clk b i)).
Proof.
  intros Ha Hb Hp. split; [auto|]. intros Hm i. destruct (decide (i < m)); [auto|].
  rewrite !clk_ge by lia. done.
Qed.

(** A loop that returns [false] at the first index where [p] holds and [true] at the end. *)
Lemma returning_search (p : nat -> bool) (d : bool) (body : nat -> unit -> option (bool + unit)) n i :
  (forall k, i <= k < i + n -> body k tt = Some (if p k then inl (negb d) else inr tt)) ->
  returning (for_ret n i body tt) (fun _ => d)
  = Some (if existsb p (seq i n) then negb d else d).
Proof.
  intros Hb. unfold returning. rewrite (for_ret_search (negb d) p) by done. simpl.
  by destruct existsb.
Qed.

Lemma vc_all_loop (p : Z -> Z -> Prop) `{forall x y, Decision (p x y)} a b n i
    (body : nat -> unit -> option (bool + unit)) :
  (forall k, i <= k < i + n ->
     body k tt = Some (if bool_decide (p (clk a k) (clk b k)) then inr tt else inl false)) ->
  exists r, for_ret n i body tt = Some (if r : bool then inr tt else inl false) /\
    (r = true <-> forall k, i <= k < i + n -> p (clk a k) (clk b k)).
Proof.
  intros Hb. set (q := fun i => negb (bool_decide (p (clk a i) (clk b i)))).
  rewrite (for_ret_search false q).
  2:{ intros k Hk. rewrite Hb by done. unfold q. by case_bool_decide. }
  exists (negb (existsb q (seq i n))).
  split; [by destruct existsb|]. destruct (existsb q (seq i n)) eqn:E; simpl.
  - split; [done|]. intros Hall. apply existsb_seq in E as (k & Hk & Hn).
    apply negb_true_iff, bool_decide_eq_false in Hn. by destruct Hn; apply Hall.
  - split; [intros _ k Hk|done]. destruct (decide (p (clk a k) (clk b k))) as [|Hn]; [done|].
    assert (existsb q (seq i n) = true); [|congruence].
    apply existsb_seq. exists k. split; [done|]. unfold q. by rewrite bool_decide_false.
Qed.

Lemma vc_all_spec (p : Z -> Z -> Prop) `{forall x y, Decision (p x y)} a b
    (body : nat -> unit -> option (bool + unit)) :
  p 0%Z 0%Z ->
  (forall k,
     body k tt = Some (if bool_decide (p (clk a k) (clk b k)) then inr tt else inl false)) ->
  exists r, returning (for_ret (Nat.max (length a) (length b)) 0 body tt) (fun _ => true) = Some r /\
    (r = true <-> forall k, p (clk a k) (clk b k)).
Proof.
  intros Hp Hb. destruct (vc_all_loop p a b (Nat.max (length a) (length b)) 0 body) as (r & E & Hr).
  { intros k _. apply Hb. }
  exists r. unfold returning. rewrite E. split; [by destruct r|]. rewrite Hr.
  pose proof (clk_forall_below a b (Nat.max (length a) (length b)) p) as Hall.
  rewrite Hall by (done || lia). split; intros Hk k ?; apply Hk; lia.
Qed.

Lemma vc_eq_spec a b : exists r, vc_eq a b = Some r /\ (r = true <-> a ≈ b).
Proof.
  apply (vc_all_spec eq); [done|]. intros k. rewrite !vc_get_spec. simpl. f_equal.
  repeat case_decide; case_bool_decide; congruence.
Qed.

Lemma vc_geq_spec a b : exists r, vc_geq a b = Some r /\ (r = true <-> clk_le b a).
Proof.
  destruct (vc_all_spec Z.ge a b (fun i _ => x ← vc_get a i; y ← vc_get b i;
    Some (if decide (x < y)%Z then inl false else inr tt))) as (r & Hr & Hr'); [done| |].
  { intros k. rewrite !vc_get_spec. simpl. f_equal. case_decide; case_bool_decide; (done || lia). }
  exists r. split; [done|]. rewrite Hr'. unfold clk_le. split; intros Hk k; specialize (Hk k); lia.
Qed.

Lemma vc_leq_spec a b :
  vc_wf a -> vc_wf b -> exists r, vc_leq a b = Some r /\ (r = true <-> clk_le a b).
Proof.
  intros Ha Hb. unfold vc_leq, clk_le. set (m := Nat.min _ _).
  match goal with |- context [for_ret m 0 ?body] =>
    destruct (vc_all_loop Z.le a b m 0 body) as (r1 & E1 & Hr1) end.
  { intros k Hk. rewrite !lookup_clk by lia. simpl. f_equal.
    case_decide; case_bool_decide; (done || lia). }
  rewrite E1. destruct r1; simpl.
  2:{ exists false. split; [done|]. split; [done|]. intros Hle. apply Hr1. auto. }
  match goal with |- context [for_ret (length a - m) m ?body] =>
    destruct (vc_all_loop Z.le a b (length a - m) m body) as (r2 & E2 & Hr2) end.
  { intros k Hk. rewrite lookup_clk by lia. simpl. f_equal. specialize (Ha k).
    rewrite (clk_ge b) by lia. case_decide; case_bool_decide; (done || lia). }
  exists r2. unfold returning. rewrite E2. split; [by destruct r2|]. rewrite Hr2.
  apply proj1 in Hr1. specialize (Hr1 eq_refl). split; [|auto].
  intros Hz k. destruct (decide (k < m)); [apply Hr1; lia|].
  destruct (decide (k < length a)); [apply Hz; lia|].
  rewrite (clk_ge a) by lia. apply Hb.
Qed.

(** The loops that track strictness. *)
Lemma vc_strict_loop (gt lt : Z -> Z -> Prop) `{forall x y, Decision (gt x y)}
    `{forall x y, Decision (lt x y)} a b n (body : nat -> bool -> option (bool + bool)) : forall i st,
  (forall k st, i <= k < i + n ->
     body k st = Some (if decide (gt (clk a k) (clk b k)) then inl false
                       else inr (st || bool_decide (lt (clk a k) (clk b k))))) ->
  exists r, returning (for_ret n i body st) (fun st => st) = Some r /\
    (r = true <-> (forall k, i <= k < i + n -> ~ gt (clk a k) (clk b k)) /\
       (st = true \/ exists k, i <= k < i + n /\ lt (clk a k) (clk b k))).
Proof.
  unfold returning. induction n as [|n IH]; intros i st Hb; simpl.
  - exists st. split; [done|]. split; [intros ->; split; [lia|by left]|].
    intros [_ [?|(k & Hk & _)]]; [done|lia].
  - rewrite Hb by lia. simpl. case_decide as Hg; simpl.
    + exists false. split; [done|]. split; [done|]. intros [Hall _].
      by destruct (Hall i); [lia|].
    + destruct (IH (S i) (st || bool_decide (lt (clk a i) (clk b i)))) as (r & E & Hr).
      { intros. apply Hb. lia. }
      exists r. split; [done|]. rewrite Hr, orb_true_iff, bool_decide_eq_true.
      clear E Hr IH Hb. split; intros [Hall Hex]; split.
      * intros k Hk. destruct (decide (k = i)) as [->|]; [done|apply Hall; lia].
      * destruct Hex as [[?|?]|(k & Hk & ?)]; [by left| |]; right; [exists i|exists k]; auto with lia.
      * intros k Hk. apply Hall. lia.
      * destruct Hex as [?|(k & Hk & ?)]; [auto|].
        destruct (decide (k = i)) as [->|]; [auto|]. right. exists k. split; [lia|done].
Qed.

Lemma vc_lt_spec a b : exists r, vc_lt a b = Some r /\ (r = true <-> clk_lt a b).
Proof.
  unfold vc_lt, clk_lt, clk_le. set (m := Nat.max _ _).
  match goal with |- context [for_ret m 0 ?body false] =>
    destruct (vc_strict_loop Z.gt Z.lt a b m body 0 false) as (r & E & Hr) end.
  { intros k st _. by rewrite !vc_get_spec. }
  exists r. split; [done|]. rewrite Hr. clear E Hr. split; intros [Hall Hex]; split.
  - intros i. destruct (decide (i < m)); [specialize (Hall i); lia|]. rewrite !clk_ge; lia.
  - destruct Hex as [?|(k & _ & ?)]; [done|eauto].
  - intros k _. specialize (Hall k). lia.
  - right. destruct Hex as [k Hk]. exists k. split; [|done].
    destruct (decide (k < m)); [lia|]. rewrite !clk_ge in Hk; lia.
Qed.

Lemma vc_gt_spec a b : exists r, vc_gt a b = Some r /\ (r = true <-> clk_lt b a).
Proof.
  unfold vc_gt, clk_lt, clk_le. set (m := Nat.max _ _).
  match goal with |- context [for_ret m 0 ?body false] =>
    destruct (vc_strict_loop Z.lt Z.gt a b m body 0 false) as (r & E & Hr) end.
  { intros k st _. by rewrite !vc_get_spec. }
  exists r. split; [done|]. rewrite Hr. clear E Hr. split; intros [Hall Hex]; split.
  - intros i. destruct (decide (i < m)); [specialize (Hall i); lia|]. rewrite !clk_ge; lia.
  - destruct Hex as [?|(k & _ & ?)]; [done|]. exists k. lia.
  - intros k _. specialize (Hall k). lia.
  - right. destruct Hex as [k Hk]. exists k. split; [|lia].
    destruct (decide (k < m)); [lia|]. rewrite !clk_ge in Hk; lia.
Qed.

Lemma vc_intersects_below_spec a b :
  exists r, vc_intersects_below a b = Some r /\
    (r = true <-> exists i, i < length b /\ (clk b i <= clk a i)%Z).
Proof.
  unfold vc_intersects_below.
  rewrite (returning_search (fun i => bool_decide (clk a i >= clk b i)%Z) false).
  2:{ intros k _. rewrite !vc_get_spec. simpl. by do 2 case_decide || case_bool_decide. }
  eexists; split; [done|]. destruct existsb eqn:E; simpl.
  - split; [|done]. intros _. apply existsb_seq in E as (k & Hk & Hn%bool_decide_eq_true).
    exists k. lia.
  - split; [done|]. intros (k & Hk & Hle). rewrite <-E. apply existsb_seq. exists k.
    rewrite bool_decide_eq_true. lia.
Qed.


(** [operator<]: the first index where the clocks differ decides. *)
Definition clk_lex (a b : vclock) : Prop :=
  exists i, (clk a i < clk b i)%Z /\ forall j, j < i -> clk a j = clk b j.

Lemma vc_less_loop a b n : forall i,
  (forall j, j < i -> clk a j = clk b j) -> (forall j, i + n <= j -> clk a j = clk b j) ->
  exists r, returning (for_ret n i (fun i _ =>
    x ← vc_get a i; y ← vc_get b i;
    Some (if decide (x < y)%Z then inl true
          else if decide (x > y)%Z then inl false else inr tt)) tt)
    (fun _ => false) = Some r /\ (r = true <-> clk_lex a b).
Proof.
  induction n as [|n IH]; intros i Hlow Hhigh; unfold returning in *; simpl.
  - exists false. split; [done|]. split; [done|]. intros (k & Hk & _).
    destruct (decide (k < i)); [rewrite Hlow in Hk|rewrite Hhigh in Hk]; lia.
  - rewrite !vc_get_spec. simpl. case_decide as H1; simpl.
    { exists true. split; [done|]. split; [|done]. intros _. by exists i. }
    case_decide as H2; simpl.
    + exists false. split; [done|]. split; [done|]. intros (k & Hk & Heq).
      destruct (Nat.lt_trichotomy k i) as [Hki|[->|Hki]]; [|lia|].
      * rewrite Hlow in Hk; lia.
      * rewrite (Heq i) in H2; lia.
    + apply IH; intros j Hj; [|apply Hhigh; lia].
      destruct (decide (j = i)) as [->|]; [lia|apply Hlow; lia].
Qed.

Lemma vc_less_spec a b : exists r, vc_less a b = Some r /\ (r = true <-> clk_lex a b).
Proof. apply vc_less_loop; [lia|]. intros j Hj. rewrite !clk_ge by lia. done. Qed.

Lemma clk_lex_irrefl a b : a ≈ b -> ~ clk_lex a b.
Proof. intros Hab (i & Hi & _). rewrite (Hab i) in Hi. lia. Qed.

Lemma clk_lex_trans a b c : clk_lex a b -> clk_lex b c -> clk_lex a c.
Proof.
  intros (i & Hi & Hi') (j & Hj & Hj'). exists (Nat.min i j). split.
  - destruct (Nat.lt_trichotomy i j) as [Hij|[->|Hij]].
    + rewrite Nat.min_l, <-Hj' by lia. done.
    + rewrite Nat.min_id. lia.
    + rewrite Nat.min_r, Hi' by lia. done.
  - intros k Hk. rewrite Hi', Hj' by lia. done.
Qed.

Lemma clk_lex_total a b : ~ clk_lex a b -> ~ clk_lex b a -> a ≈ b.
Proof.
  intros Hab Hba i. induction i as [i IH] using lt_wf_ind.
  destruct (Z.lt_trichotomy (clk a i) (clk b i)) as [Hlt|[Heq|Hgt]]; [|done|].
  - destruct Hab. by exists i.
  - destruct Hba. exists i. split; [done|]. intros j Hj. symmetry. by apply IH.
Qed.

(** ** Rows of a [VClockVec] *)

Definition vcv_wf (s : vclockvec) (count : nat) : Prop :=
  length (vcv_vec s) = count * vcv_clock_size s.

Lemma vcv_at_spec s count (d : nat) :
  vcv_wf s count -> d < count ->
  vcv_at s d = Some (d * vcv_clock_size s) /\
  d * vcv_clock_size s + vcv_clock_size s <= length (vcv_vec s).
Proof.
  unfold vcv_wf, vcv_at. intros -> Hd.
  assert (d * vcv_clock_size s + vcv_clock_size s <= count * vcv_clock_size s) by nia.
  rewrite bool_decide_true by lia. simpl. by rewrite Nat2Z.id.
Qed.

(** Different rows do not overlap. *)
Lemma vcv_rows_disjoint sz d e i j : d <> e -> i < sz -> j < sz -> d * sz + i <> e * sz + j.
Proof. intros Hde Hi Hj Heq. destruct (Nat.lt_total d e) as [|[|]]; nia. Qed.

Lemma ref_assign_spec v base sz vc :
  base + sz <= length v ->
  exists r, ref_assign v base sz vc = Some r /\ length r = length v /\
    forall j, r !! j = if decide (base <= j < base + sz) then Some (clk vc (j - base)) else v !! j.
Proof.
  intros Hb. unfold ref_assign.
  match goal with |- context [for_range sz 0 ?body v] =>
    destruct (for_range_write_at (fun i _ => clk vc i) body base sz 0 v) as (r & -> & Hl & Hj) end;
    [lia| |].
  - intros k w x Hk Hw _ _. rewrite vc_get_spec. simpl. apply vset_Some. lia.
  - exists r. split_and!; [done|done|]. intros j. rewrite Hj, Nat.add_0_r. case_decide; [|done].
    by rewrite lookup_clk by lia.
Qed.

Lemma ref_minus_assign_spec v base base' sz :
  base + sz <= length v -> base' + sz <= length v ->
  (base = base' \/ base + sz <= base' \/ base' + sz <= base) ->
  exists r, ref_minus_assign v base base' sz sz = Some r /\ length r = length v /\
    forall j, r !! j = if decide (base <= j < base + sz)
                       then Some (Z.min (clk v j) (clk v (base' + (j - base)))) else v !! j.
Proof.
  intros Hb Hb' Hdis. unfold ref_minus_assign. rewrite bool_decide_true by done. simpl.
  match goal with |- context [for_range sz 0 ?body v] =>
    destruct (for_range_write_at (fun i x => Z.min x (clk v (base' + i))) body base sz 0 v)
      as (r & -> & Hl & Hj) end; [lia| |].
  - intros k w x Hk Hw Hx Hsame. rewrite !Hsame, Hx, (lookup_clk v) by lia. simpl.
    case_decide as Hlt; [rewrite vset_Some by lia; do 2 f_equal; lia|].
    rewrite list_insert_id; [done|]. rewrite Hsame, Hx by lia. f_equal. lia.
  - exists r. split_and!; [done|done|]. intros j. rewrite Hj, Nat.add_0_r. case_decide; [|done].
    by rewrite lookup_clk by lia.
Qed.

Lemma ref_lt_spec v base base' sz :
  base + sz <= length v -> base' + sz <= length v ->
  exists r, ref_lt v base base' sz sz = Some r /\
    (r = true <-> (forall k, k < sz -> (clk v (base + k) <= clk v (base' + k))%Z) /\
                  exists k, k < sz /\ (clk v (base + k) < clk v (base' + k))%Z).
Proof.
  intros Hb Hb'. unfold ref_lt. rewrite bool_decide_true by done. simpl.
  assert (Hdrop : forall b k, clk (drop b v) k = clk v (b + k)).
  { intros b k. unfold clk. by rewrite lookup_drop. }
  match goal with |- context [for_ret sz 0 ?body false] =>
    destruct (vc_strict_loop Z.gt Z.lt (drop base v) (drop base' v) sz body 0 false)
      as (r & -> & Hr) end.
  - intros k st Hk. unfold ref_get. rewrite !bool_decide_true by lia. simpl.
    rewrite !Nat2Z.id, !lookup_clk, !Hdrop by lia. done.
  - exists r. split; [done|]. rewrite Hr. setoid_rewrite Hdrop.
    split; intros [Hall Hex]; split.
    + intros k Hk. specialize (Hall k). lia.
    + destruct Hex as [?|(k & ? & ?)]; [done|]. exists k. auto with lia.
    + intros k Hk. specialize (Hall k). lia.
    + right. destruct Hex as (k & ? & ?). exists k. auto with lia.
Qed.

Lemma vcv_assign_loop cs init n : forall i v,
  length v = (i + n) * cs ->
  (forall d k, d < i -> k < cs -> v !! (d * cs + k) = Some (clk init k)) ->
  exists v', for_range n i (fun i s =>
        base ← vcv_at s i;
        v ← for_range cs 0 (fun j v => x ← vc_get init j; ref_set v base cs j x) (vcv_vec s);
        Some (VClockVec v cs)) (VClockVec v cs) = Some (VClockVec v' cs) /\
    length v' = (i + n) * cs /\
    (forall d k, d < i + n -> k < cs -> v' !! (d * cs + k) = Some (clk init k)).
Proof.
  induction n as [|n IH]; intros i v Hv Hrows; simpl.
  { exists v. rewrite Nat.add_0_r in *. done. }
  destruct (vcv_at_spec (VClockVec v cs) (i + S n) i) as [Hat Hle]; [done|lia|].
  simpl in Hat, Hle. rewrite Hat. simpl.
  match goal with |- context [for_range cs 0 ?body v] =>
    destruct (for_range_write_at (fun j _ => clk init j) body (i * cs) cs 0 v)
      as (w & -> & Hl & Hj) end; [lia| |].
  { intros k w x Hk Hw _ _. rewrite vc_get_spec. unfold ref_set.
    rewrite bool_decide_true by lia. simpl. rewrite Nat2Z.id. apply vset_Some. lia. }
  simpl. rewrite <-Nat.add_succ_comm in *. apply IH; [lia|].
  intros d k Hd Hk. rewrite Hj. destruct (decide (d = i)) as [->|].
  - rewrite decide_True, lookup_clk by nia. simpl. do 2 f_equal. lia.
  - rewrite decide_False by nia. apply Hrows; lia.
Qed.

Lemma vcv_assign_spec s cs count init :
  (forall i, cs <= i -> clk init i = 0%Z) ->
  exists v, vcv_assign s cs count init = Some (VClockVec v cs) /\
    vcv_wf (VClockVec v cs) count /\
    (forall d k, d < count -> k < cs -> v !! (d * cs + k) = Some (clk init k)).
Proof.
  intros Hinit. unfold vcv_assign. destruct (vc_size_spec init) as (sz & -> & Hsz & Hsz'). simpl.
  rewrite bool_decide_true.
  2:{ destruct (decide (sz <= cs)); [done|]. exfalso. apply Hsz'; [lia|]. apply Hinit. lia. }
  simpl. destruct (vcv_assign_loop cs init count 0 (resize (count * cs) 0%Z (vcv_vec s)))
    as (v & E & Hl & Hrows); [by rewrite length_resize|lia|].
  rewrite E. simpl. by exists v.
Qed.

(** ** What the classes promise *)

(** The join: on well-formed clocks [operator+] and [operator+=] are total
    and give the same clock, which is the least upper bound of the operands in
    the pointwise order. *)
Theorem join_is_lub a b :
  vc_wf a -> vc_wf b ->
  exists r r', vc_plus a b = Some r /\ vc_plus_assign a b = Some r' /\ r ≈ r' /\ vc_wf r /\
    clk_le a r /\ clk_le b r /\ (forall c, clk_le a c -> clk_le b c -> clk_le r c).
Proof.
  intros Ha Hb. destruct (vc_plus_spec a b) as (r & Er & Hr).
  destruct (vc_plus_assign_spec a b Ha) as (r' & Er' & Hr').
  exists r, r'. split_and!; [done|done| | | | |].
  - intros i. by rewrite Hr, Hr'.
  - intros i. rewrite Hr. specialize (Ha i). lia.
  - intros i. rewrite Hr. lia.
  - intros i. rewrite Hr. lia.
  - intros c Hac Hbc i. rewrite Hr. specialize (Hac i). specialize (Hbc i). lia.
Qed.

(** The comparisons: on well-formed clocks [==], [leq], [geq], [lt] and [gt]
    never fail and decide the pointwise equality and orders, whatever the
    lengths of the two vectors. *)
Theorem comparisons_correct a b :
  vc_wf a -> vc_wf b ->
  exists req rleq rgeq rlt rgt,
    vc_eq a b = Some req /\ (req = true <-> forall i, clk a i = clk b i) /\
    vc_leq a b = Some rleq /\ (rleq = true <-> clk_le a b) /\
    vc_geq a b = Some rgeq /\ (rgeq = true <-> clk_le b a) /\
    vc_lt a b = Some rlt /\ (rlt = true <-> clk_lt a b) /\
    vc_gt a b = Some rgt /\ (rgt = true <-> clk_lt b a).
Proof.
  intros Ha Hb. destruct (vc_eq_spec a b) as (req & ? & ?).
  destruct (vc_leq_spec a b Ha Hb) as (rleq & ? & ?). destruct (vc_geq_spec a b) as (rgeq & ? & ?).
  destruct (vc_lt_spec a b) as (rlt & ? & ?). destruct (vc_gt_spec a b) as (rgt & ? & ?).
  by exists req, rleq, rgeq, rlt, rgt.
Qed.

(** [operator<] on clocks of any lengths is a strict total order up to
    trailing zeros: exactly one of [a < b], [a == b], [b < a] holds, [<] is
    transitive and it respects [==]. *)
Theorem less_total_order a b c :
  exists ab ba bc ac e, vc_less a b = Some ab /\ vc_less b a = Some ba /\ vc_less b c = Some bc /\
    vc_less a c = Some ac /\ vc_eq a b = Some e /\
    (ab = true \/ ba = true \/ e = true) /\ ab && ba = false /\ ab && e = false /\ ba && e = false /\
    (ab = true -> bc = true -> ac = true) /\ (e = true -> bc = ac).
Proof.
  destruct (vc_less_spec a b) as (ab & Eab & Hab). destruct (vc_less_spec b a) as (ba & Eba & Hba).
  destruct (vc_less_spec b c) as (bc & Ebc & Hbc). destruct (vc_less_spec a c) as (ac & Eac & Hac).
  destruct (vc_eq_spec a b) as (e & Ee & He).
  exists ab, ba, bc, ac, e.
  assert (Hirr : forall x, ~ clk_lex x x) by (intros x; by apply clk_lex_irrefl).
  split_and!; try done.
  - destruct ab; [auto|]. destruct ba; [auto|]. right; right.
    apply He, clk_lex_total; [by intros ?%Hab|by intros ?%Hba].
  - apply not_true_iff_false. rewrite andb_true_iff, Hab, Hba.
    intros [??]. by eapply (Hirr a), clk_lex_trans.
  - apply not_true_iff_false. rewrite andb_true_iff, Hab, He. intros [??]. by eapply clk_lex_irrefl.
  - apply not_true_iff_false. rewrite andb_true_iff, Hba, He. intros [??].
    by eapply (clk_lex_irrefl b a).
  - rewrite Hab, Hbc, Hac. apply clk_lex_trans.
  - intros Heq%He. apply eq_true_iff_eq. rewrite Hbc, Hac. unfold clk_lex.
    split; intros (i & Hi & Hj); exists i; (split; [by rewrite ?Heq in *; rewrite <-?Heq in *|]);
      intros j Hlt; specialize (Hj j Hlt); rewrite ?(Heq j) in *; done.
Qed.

(** The meets: [operator-] is the pointwise minimum. [operator-=], documented
    as assigning [this - vc], keeps the components beyond the end of [vc]: it
    gives the same clock exactly when those components are already 0. *)
Theorem minus_assign_divergence a b :
  vc_wf a -> vc_wf b ->
  exists r r', vc_minus a b = Some r /\ vc_minus_assign a b = Some r' /\
    (forall i, clk r i = Z.min (clk a i) (clk b i)) /\
    (r' ≈ r <-> forall i, length b <= i -> clk a i = 0%Z).
Proof.
  intros Ha Hb. destruct (vc_minus_spec a b) as (r & Er & Hr).
  destruct (vc_minus_assign_spec a b) as (r' & Er' & Hr').
  exists r, r'. split_and!; [done..|]. unfold vc_equiv. setoid_rewrite Hr. setoid_rewrite Hr'.
  split; intros Heq i.
  - intros Hi. specialize (Heq i). rewrite decide_False, (clk_ge b) in Heq by lia.
    specialize (Ha i). lia.
  - case_decide; [done|]. rewrite (clk_ge b), Heq by lia. done.
Qed.

(** A [VClockVec] after [assign] holds [count] copies of [init], and
    [(\*this)\[d\] -= (\*this)\[e\]] takes the pointwise minimum into row [d]
    in bounds and leaves every other row as it was. *)
Theorem vclockvec_rows s0 cs count init d e :
  (forall i, cs <= i -> clk init i = 0%Z) -> d < count -> e < count ->
  exists s, vcv_assign s0 cs count init = Some s /\
    (forall d k, d < count -> k < cs -> clk (vcv_vec s) (d * cs + k) = clk init k) /\
    forall v, length v = count * cs -> let s := VClockVec v cs in
    exists bd be r, vcv_at s d = Some bd /\ vcv_at s e = Some be /\
      ref_minus_assign v bd be cs cs = Some r /\ vcv_wf (VClockVec r cs) count /\
      (forall k, k < cs -> clk r (d * cs + k) = Z.min (clk v (d * cs + k)) (clk v (e * cs + k))) /\
      (forall f k, f <> d -> k < cs -> clk r (f * cs + k) = clk v (f * cs + k)).
Proof.
  intros Hinit Hd He. destruct (vcv_assign_spec s0 cs count init Hinit) as (v0 & E0 & _ & Hrows).
  exists (VClockVec v0 cs). split_and!; [done|intros; by apply clk_lookup, Hrows|].
  intros v Hv s. destruct (vcv_at_spec s count d) as [Ed Hbd]; [done..|].
  destruct (vcv_at_spec s count e) as [Ee Hbe]; [done..|]. simpl in *.
  destruct (ref_minus_assign_spec v (d * cs) (e * cs) cs) as (r & Er & Hl & Hr); [done|done| |].
  { destruct (Nat.lt_total d e) as [|[->|]]; [right; left; nia|by left|right; right; nia]. }
  exists (d * cs), (e * cs), r. split_and!; [done..|by unfold vcv_wf; simpl; lia| |].
  - intros k Hk. apply clk_lookup. rewrite Hr, decide_True by lia. do 3 f_equal. lia.
  - intros f k Hf Hk. unfold clk. rewrite Hr, decide_False; [done|]. nia.
Qed.

(** ** Concrete runs *)

Lemma join_is_lub_witness :
  exists r r', vc_plus [1; 2]%Z [0; 3; 1]%Z = Some r /\ vc_plus_assign [1; 2]%Z [0; 3; 1]%Z = Some r' /\
    r ≈ r' /\ vc_wf r /\ clk_le [1; 2]%Z r /\ clk_le [0; 3; 1]%Z r /\
    (forall c, clk_le [1; 2]%Z c -> clk_le [0; 3; 1]%Z c -> clk_le r c).
Proof. apply (join_is_lub [1; 2]%Z [0; 3; 1]%Z); apply vc_wf_Forall; repeat constructor; lia. Defined.

Lemma comparisons_correct_witness :
  exists req rleq rgeq rlt rgt,
    vc_eq [1; 0]%Z [1]%Z = Some req /\ (req = true <-> forall i, clk [1; 0]%Z i = clk [1]%Z i) /\
    vc_leq [1; 0]%Z [1]%Z = Some rleq /\ (rleq = true <-> clk_le [1; 0]%Z [1]%Z) /\
    vc_geq [1; 0]%Z [1]%Z = Some rgeq /\ (rgeq = true <-> clk_le [1]%Z [1; 0]%Z) /\
    vc_lt [1; 0]%Z [1]%Z = Some rlt /\ (rlt = true <-> clk_lt [1; 0]%Z [1]%Z) /\
    vc_gt [1; 0]%Z [1]%Z = Some rgt /\ (rgt = true <-> clk_lt [1]%Z [1; 0]%Z).
Proof. apply (comparisons_correct [1; 0]%Z [1]%Z); apply vc_wf_Forall; repeat constructor; lia. Defined.

Lemma minus_assign_divergence_witness :
  exists r r', vc_minus [5; 7]%Z [3]%Z = Some r /\ vc_minus_assign [5; 7]%Z [3]%Z = Some r' /\
    (forall i, clk r i = Z.min (clk [5; 7]%Z i) (clk [3]%Z i)) /\
    (r' ≈ r <-> forall i, 1 <= i -> clk [5; 7]%Z i = 0%Z).
Proof. apply (minus_assign_divergence [5; 7]%Z [3]%Z); apply vc_wf_Forall; repeat constructor; lia. Defined.

Lemma vclockvec_rows_witness :
  exists s, vcv_assign (VClockVec [] 0) 2 3 [4]%Z = Some s /\
    (forall d k, d < 3 -> k < 2 -> clk (vcv_vec s) (d * 2 + k) = clk [4]%Z k) /\
    forall v, length v = 3 * 2 -> let s := VClockVec v 2 in
    exists bd be r, vcv_at s 0%nat = Some bd /\ vcv_at s 2%nat = Some be /\
      ref_minus_assign v bd be 2 2 = Some r /\ vcv_wf (VClockVec r 2) 3 /\
      (forall k, k < 2 -> clk r (0 * 2 + k) = Z.min (clk v (0 * 2 + k)) (clk v (2 * 2 + k))) /\
      (forall f k, f <> 0 -> k < 2 -> clk r (f * 2 + k) = clk v (f * 2 + k)).
Proof.
  apply (vclockvec_rows (VClockVec [] 0) 2 3 [4]%Z 0 2); [|lia..].
  intros i Hi. apply clk_ge. simpl. lia.
Defined.

Example minus_run : vc_minus [5; 7]%Z [3]%Z = Some [3; 0]%Z /\ vc_minus_assign [5; 7]%Z [3]%Z = Some [3; 7]%Z.
Proof. by vm_compute. Qed.
Example to_string_run : vc_to_string [1; 0; 12; 0]%Z = Some "[1, 0, 12]".
Proof. by vm_compute. Qed.
Example vcv_run : vcv_assign (VClockVec [9; 9; 9]%Z 3) 2 2 [4]%Z = Some (VClockVec [4; 0; 4; 0]%Z 2).
Proof. by vm_compute. Qed.
