(* ===== verification/VClockMap.v ===== *)
(** * VClock<DOM>: vector clocks over an ordered domain (src/src/VClock.tcc)

    The generic clock is a [std::map<DOM,int>], here its iteration sequence: a
    list of bindings with increasing keys. The comparison operators walk two
    such sequences in step, each with its own treatment of bindings to 0. The
    theorems relate the walks to the pointwise view [mclk m d]. *)

From stdpp Require Import pretty.
From S2P Require Import Prelude VecSet VClock.

Local Coercion Z.of_nat : nat >-> Z.

Section mclock.
Context {DOM : Type} `{EqDecision DOM} `{LtB DOM}.
Abbreviation mclock := (list (DOM * Z)).
Implicit Types (a b m : mclock) (d : DOM).

(** ** [std::map] *)

Fixpoint map_find m d : option Z :=
  match m with
  | [] => None
  | (k, x) :: m => if decide (k = d) then Some x else map_find m d
  end.

(** [m\[d\] = x] *)
Fixpoint map_put m d (x : Z) : mclock :=
  match m with
  | [] => [(d, x)]
  | (k, y) :: m =>
    if ltb d k then (d, x) :: (k, y) :: m
    else if decide (k = d) then (d, x) :: m else (k, y) :: map_put m d x
  end.

(** ** Operations *)

Definition mc_of_map m : option mclock :=
  if forallb (fun p => bool_decide (0 <= p.2)%Z) m then Some m else None.

Fixpoint mc_of_list_loop (il : list (DOM * Z)) m : option mclock :=
  match il with
  | [] => Some m
  | (d, x) :: il =>
    _ ← cassert (bool_decide (0 <= x)%Z);
    mc_of_list_loop il (if decide (x <> 0%Z) then map_put m d x else m)
  end.
Definition mc_of_list il := mc_of_list_loop il [].

(** [VClock(const VClock<int> &vc, const std::vector<DOM> &t)]: translation. *)
Definition mc_translate (vc : list Z) (t : list DOM) : option mclock :=
  for_range (length t) 0 (fun i m =>
    x ← vc_get vc i; _ ← cassert (bool_decide (0 <= x)%Z);
    if decide (x <> 0%Z) then d ← t !! i; Some (map_put m d x) else Some m) [].

Definition mc_get_nonzero_count m : nat :=
  foldl (fun c p => if decide (p.2 > 0)%Z then S c else c) 0 m.

Definition mc_get m d : Z := match map_find m d with None => 0%Z | Some x => x end.
Definition mc_ref m d : mclock := match map_find m d with None => map_put m d 0%Z | Some _ => m end.

Definition mc_plus a b : mclock :=
  foldl (fun vc2 p => let vc2 := mc_ref vc2 p.1 in
                      map_put vc2 p.1 (Z.max (mc_get vc2 p.1) p.2)) a b.
Definition mc_plus_assign a b : mclock := mc_plus a b.

(** The walk over two sequences: [l]/[r] are what is done when only the left
    (right) iterator stands at the least key, [s] when both do. [None] means
    "go on". *)
Fixpoint mc_eq_loop (fuel : nat) a b : option bool :=
  match fuel with
  | 0 => None
  | S fuel =>
    match a, b with
    | [], [] => Some true
    | [], (kb, xb) :: b' => if decide (xb <> 0%Z) then Some false else mc_eq_loop fuel a b'
    | (ka, xa) :: a', [] => if decide (xa <> 0%Z) then Some false else mc_eq_loop fuel a' b
    | (ka, xa) :: a', (kb, xb) :: b' =>
      if ltb kb ka then if decide (xb <> 0%Z) then Some false else mc_eq_loop fuel a b'
      else if ltb ka kb then if decide (xa <> 0%Z) then Some false else mc_eq_loop fuel a' b
      else
        _ ← cassert (bool_decide (ka = kb));
        if decide (xa <> xb) then Some false else mc_eq_loop fuel a' b'
    end
  end.
Definition mc_eq a b : option bool := mc_eq_loop (S (length a + length b)) a b.

(** [while(it != end() && it->second == 0) ++it;] *)
Fixpoint skip_zeros m : mclock :=
  match m with (_, x) :: m' => if decide (x = 0%Z) then skip_zeros m' else m | [] => [] end.

(** The loop of [operator<] and [operator<=]; [dflt] is the result when both
    sequences are exhausted together. *)
Fixpoint mc_lex_loop (fuel : nat) (dflt : bool) a b : option bool :=
  match fuel with
  | 0 => None
  | S fuel =>
    match a, b with
    | [], [] => Some dflt
    | _, _ =>
      match skip_zeros a, skip_zeros b with
      | [], [] => Some dflt
      | [], _ :: _ => Some true
      | _ :: _, [] => Some false
      | (ka, xa) :: a', (kb, xb) :: b' =>
        if ltb ka kb then Some true
        else if ltb kb ka then Some false
        else if decide (xa < xb)%Z then Some true
        else if decide (xa > xb)%Z then Some false
        else mc_lex_loop fuel dflt a' b'
      end
    end
  end.
Definition mc_less a b : option bool := mc_lex_loop (S (length a + length b)) false a b.
Definition mc_less_eq a b : option bool := mc_lex_loop (S (length a + length b)) true a b.

Fixpoint mc_lt_loop (fuel : nat) (strict : bool) a b : option bool :=
  match fuel with
  | 0 => None
  | S fuel =>
    match a, b with
    | [], [] => Some strict
    | [], (kb, xb) :: b' => mc_lt_loop fuel (if decide (xb > 0)%Z then true else strict) a b'
    | (ka, xa) :: a', [] => if decide (xa > 0)%Z then Some false else mc_lt_loop fuel strict a' b
    | (ka, xa) :: a', (kb, xb) :: b' =>
      if ltb kb ka then mc_lt_loop fuel (if decide (xb > 0)%Z then true else strict) a b'
      else if ltb ka kb then if decide (xa > 0)%Z then Some false else mc_lt_loop fuel strict a' b
      else
        _ ← cassert (bool_decide (ka = kb));
        if decide (xa > xb)%Z then Some false
        else mc_lt_loop fuel (if decide (xa < xb)%Z then true else strict) a' b'
    end
  end.
Definition mc_lt a b : option bool := mc_lt_loop (S (length a + length b)) false a b.

Fixpoint mc_leq_loop (fuel : nat) a b : option bool :=
  match fuel with
  | 0 => None
  | S fuel =>
    match a, b with
    | [], [] => Some true
    | [], (kb, xb) :: b' => mc_leq_loop fuel a b'
    | (ka, xa) :: a', [] => if decide (xa > 0)%Z then Some false else mc_leq_loop fuel a' b
    | (ka, xa) :: a', (kb, xb) :: b' =>
      if ltb kb ka then mc_leq_loop fuel a b'
      else if ltb ka kb then if decide (xa > 0)%Z then Some false else mc_leq_loop fuel a' b
      else
        _ ← cassert (bool_decide (ka = kb));
        if decide (xa > xb)%Z then Some false else mc_leq_loop fuel a' b'
    end
  end.
Definition mc_leq a b : option bool := mc_leq_loop (S (length a + length b)) a b.
Definition mc_gt a b : option bool := mc_lt b a.
Definition mc_geq a b : option bool := mc_leq b a.

Fixpoint mc_to_string_loop (show : DOM -> string) (first : bool) m : string :=
  match m with
  | [] => ""
  | (d, x) :: m =>
    if decide (x <> 0%Z) then
      (if first then "" else ", ") +:+ show d +:+ ":" +:+ pretty x +:+ mc_to_string_loop show false m
    else mc_to_string_loop show first m
  end.
Definition mc_to_string (show : DOM -> string) m : string :=
  "[" +:+ mc_to_string_loop show true m +:+ "]".

End mclock.

(** ** The pointwise view *)

Section mclock_lemmas.
Context {DOM : Type} `{EqDecision DOM} `{LtOrder DOM}.
Implicit Types (a b m : list (DOM * Z)) (d k : DOM).
Local Open Scope nidhugg_scope.

Fixpoint mc_sorted m : Prop :=
  match m with
  | [] => True
  | (k, _) :: m => (forall d, d ∈ m.*1 -> k ⊏ d) /\ mc_sorted m
  end.

Definition mc_wf m : Prop := mc_sorted m /\ forall d, (0 <= mc_get m d)%Z.

Lemma mc_get_cons k x m d : mc_get ((k, x) :: m) d = if decide (k = d) then x else mc_get m d.
Proof. unfold mc_get. simpl. by case_decide. Qed.

Lemma mc_get_below m d : (forall k, k ∈ m.*1 -> d ⊏ k) -> mc_get m d = 0%Z.
Proof.
  induction m as [|[k x] m IH]; intros Hd; [done|].
  pose proof (ltb_neq d k (Hd k (list_elem_of_here _ _))).
  rewrite mc_get_cons, decide_False by congruence. apply IH. intros k' Hk'. apply Hd. by constructor.
Qed.

Lemma mc_get_put m d x d' : mc_sorted m -> mc_get (map_put m d x) d' = if decide (d = d') then x else mc_get m d'.
Proof.
  induction m as [|[k y] m IH]; simpl; [by rewrite mc_get_cons|]. intros [Hk Hs].
  destruct (ltb d k) eqn:Edk; [by rewrite mc_get_cons|].
  destruct (decide (k = d)) as [->|Hne].
  - rewrite !mc_get_cons. by case_decide.
  - rewrite !mc_get_cons, IH by done. repeat case_decide; congruence.
Qed.

Lemma map_put_keys m d x k : k ∈ (map_put m d x).*1 <-> k = d \/ k ∈ m.*1.
Proof.
  induction m as [|[k' y] m IH]; simpl; [by rewrite list_elem_of_singleton, elem_of_nil; naive_solver|].
  destruct (ltb d k'); simpl; [by rewrite !elem_of_cons|].
  destruct (decide (k' = d)) as [->|]; simpl; rewrite !elem_of_cons; [naive_solver|].
  rewrite IH. naive_solver.
Qed.

Lemma map_put_sorted m d x : mc_sorted m -> mc_sorted (map_put m d x).
Proof.
  induction m as [|[k y] m IH]; simpl.
  - intros _. split; [|done]. by intros ? ?%elem_of_nil.
  - intros [Hk Hs]. destruct (ltb d k) eqn:Edk; simpl.
    + split_and!; [|done|done]. intros z [->|Hz]%elem_of_cons; [done|].
      eapply ltb_trans; [done|by apply Hk].
    + destruct (decide (k = d)) as [->|Hne]; simpl; [done|]. split; [|by apply IH].
      intros z [->|Hz]%map_put_keys; [|by apply Hk].
      destruct (ltb k d) eqn:Ekd; [done|]. by rewrite (ltb_total k d) in Hne.
Qed.

Lemma mc_ref_sorted m d : mc_sorted m -> mc_sorted (mc_ref m d).
Proof. unfold mc_ref. destruct (map_find m d); [done|]. apply map_put_sorted. Qed.

Lemma mc_get_ref m d d' : mc_sorted m -> mc_get (mc_ref m d) d' = mc_get m d'.
Proof.
  intros Hm. unfold mc_ref. destruct (map_find m d) eqn:E; [done|].
  rewrite mc_get_put by done. case_decide; [|done]. subst. unfold mc_get. by rewrite E.
Qed.

Lemma mc_plus_spec a b :
  mc_sorted a -> mc_sorted b -> (forall d, (0 <= mc_get a d)%Z) ->
  mc_sorted (mc_plus a b) /\ forall d, mc_get (mc_plus a b) d = Z.max (mc_get a d) (mc_get b d).
Proof.
  unfold mc_plus. revert a. induction b as [|[k x] b IH]; intros a Ha Hb Hpos; simpl.
  - split; [done|]. intros d. specialize (Hpos d). unfold mc_get at 3. simpl. lia.
  - destruct Hb as [Hk Hb].
    assert (Hget : forall d, mc_get (map_put (mc_ref a k) k (Z.max (mc_get (mc_ref a k) k) x)) d
                     = if decide (k = d) then Z.max (mc_get a k) x else mc_get a d).
    { intros d. rewrite mc_get_put, !mc_get_ref by auto using mc_ref_sorted. done. }
    destruct (IH (map_put (mc_ref a k) k (Z.max (mc_get (mc_ref a k) k) x))) as [Hs Hd];
      [by apply map_put_sorted, mc_ref_sorted|done| |].
    { intros d. rewrite Hget. case_decide; [pose proof (Hpos k); lia|done]. }
    split; [done|]. intros d. rewrite Hd, Hget, mc_get_cons. case_decide; [|done]. subst.
    rewrite (mc_get_below b d) by done. pose proof (Hpos d). lia.
Qed.

(** ** Walking two sequences in step *)

Definition below d m : Prop := forall k, k ∈ m.*1 -> d ⊏ k.

Lemma walk_ind (P : list (DOM * Z) -> list (DOM * Z) -> Prop) :
  P [] [] ->
  (forall k x a b, below k a -> below k b -> mc_sorted a -> mc_sorted b -> P a b -> P a ((k, x) :: b)) ->
  (forall k x a b, below k a -> below k b -> mc_sorted a -> mc_sorted b -> P a b -> P ((k, x) :: a) b) ->
  (forall k x y a b, below k a -> below k b -> mc_sorted a -> mc_sorted b -> P a b ->
     P ((k, x) :: a) ((k, y) :: b)) ->
  forall a b, mc_sorted a -> mc_sorted b -> P a b.
Proof.
  intros Hnil Hr Hl Hboth a. induction a as [|[ka xa] a IHa]; intros b Ha Hb.
  - induction b as [|[kb xb] b IHb]; [done|]. destruct Hb as [Hkb Hb].
    apply Hr; auto. by intros ? ?%elem_of_nil.
  - pose proof Ha as [Hka Ha']. induction b as [|[kb xb] b IHb].
    + apply Hl; auto. by intros ? ?%elem_of_nil.
    + pose proof Hb as [Hkb Hb']. destruct (ltb kb ka) eqn:E1; [|destruct (ltb ka kb) eqn:E2].
      * apply Hr; auto. intros k [->|Hk]%elem_of_cons; [done|]. by eapply ltb_trans, Hka.
      * apply Hl; auto. intros k [->|Hk]%elem_of_cons; [done|]. by eapply ltb_trans, Hkb.
      * assert (ka = kb) as <- by (by apply ltb_total). apply Hboth; auto.
Qed.

Section pointwise.
  Context (Q : Z -> Z -> Prop) (k : DOM) (a b : list (DOM * Z)).
  Context (Ha : below k a) (Hb : below k b).

Lemma forall_get_r x :
  Q 0 0 -> (forall d, Q (mc_get a d) (mc_get ((k, x) :: b) d)) <->
           Q 0 x /\ forall d, Q (mc_get a d) (mc_get b d).
Proof.
  intros H00. setoid_rewrite mc_get_cons. split.
  - intros Hall. split; [specialize (Hall k); by rewrite decide_True, (mc_get_below a) in Hall|].
    intros d. specialize (Hall d). case_decide; [|done]. subst. by rewrite !mc_get_below.
  - intros [Hx Hall] d. case_decide; [|done]. subst. by rewrite (mc_get_below a).
Qed.
Lemma forall_get_l x :
  Q 0 0 -> (forall d, Q (mc_get ((k, x) :: a) d) (mc_get b d)) <->
           Q x 0 /\ forall d, Q (mc_get a d) (mc_get b d).
Proof.
  intros H00. setoid_rewrite mc_get_cons. split.
  - intros Hall. split; [specialize (Hall k); by rewrite decide_True, (mc_get_below b) in Hall|].
    intros d. specialize (Hall d). case_decide; [|done]. subst. by rewrite !mc_get_below.
  - intros [Hx Hall] d. case_decide; [|done]. subst. by rewrite (mc_get_below b).
Qed.
Lemma forall_get_both x y :
  Q 0 0 -> (forall d, Q (mc_get ((k, x) :: a) d) (mc_get ((k, y) :: b) d)) <->
           Q x y /\ forall d, Q (mc_get a d) (mc_get b d).
Proof.
  intros H00. setoid_rewrite mc_get_cons. split.
  - intros Hall. split; [specialize (Hall k); by rewrite !decide_True in Hall|].
    intros d. specialize (Hall d). case_decide; [|done]. subst. by rewrite !mc_get_below.
  - intros [Hx Hall] d. by case_decide.
Qed.
End pointwise.

(** [walk_step a Ha] unfolds one iteration of a walk whose head lies below the
    other sequence [a]. *)
Ltac walk_step a Ha :=
  destruct a as [|[? ?] ?]; cbn [mc_eq_loop mc_leq_loop mc_lt_loop];
  [done|pose proof (Ha _ (list_elem_of_here _ _)) as Hhd; cbn [fst] in Hhd;
        rewrite ?Hhd, ?(ltb_asym _ _ Hhd); done].

(** [walk_done r Hr Hiff]: the result [r] of the rest of the walk meets the
    specification rewritten by [Hiff], if this iteration did not return. *)
Ltac walk_done r Hr Hiff :=
  case_decide; [exists false|exists r]; (split; [done|]); rewrite Hiff, <-?Hr;
  try (split; [done|]; intros [? ?]; exfalso; (done || lia));
  try (split; [|by intros []]; intros; split; (done || lia)).

Lemma mc_eq_loop_spec a b : mc_sorted a -> mc_sorted b ->
  forall fuel, length a + length b < fuel -> exists r, mc_eq_loop fuel a b = Some r /\
    (r = true <-> forall d, mc_get a d = mc_get b d).
Proof.
  revert a b. refine (walk_ind _ _ _ _ _).
  - intros [|fuel] Hf; [simpl in Hf; lia|]. by exists true.
  - intros k x a b Ha Hb Hsa Hsb IH [|fuel] Hf; [lia|].
    destruct (IH fuel) as (r & E & Hr); [len|]. clear IH.
    assert (mc_eq_loop (S fuel) a ((k, x) :: b)
            = if decide (x <> 0%Z) then Some false else mc_eq_loop fuel a b) as ->.
    { clear E Hr Hf Hsa. walk_step a Ha. }
    pose proof (forall_get_r eq k a b Ha Hb x eq_refl) as Hiff. walk_done r Hr Hiff.
  - intros k x a b Ha Hb Hsa Hsb IH [|fuel] Hf; [lia|].
    destruct (IH fuel) as (r & E & Hr); [len|]. clear IH.
    assert (mc_eq_loop (S fuel) ((k, x) :: a) b
            = if decide (x <> 0%Z) then Some false else mc_eq_loop fuel a b) as ->.
    { clear E Hr Hf Hsb. walk_step b Hb. }
    pose proof (forall_get_l eq k a b Ha Hb x eq_refl) as Hiff. walk_done r Hr Hiff.
  - intros k x y a b Ha Hb Hsa Hsb IH [|fuel] Hf; [lia|].
    destruct (IH fuel) as (r & E & Hr); [len|]. cbn [mc_eq_loop].
    rewrite ltb_irrefl, bool_decide_true by done. cbn [cassert mbind option_bind].
    pose proof (forall_get_both eq k a b Ha Hb x y eq_refl) as Hiff. walk_done r Hr Hiff.
Qed.

Lemma mc_leq_loop_spec a b : mc_sorted a -> mc_sorted b -> (forall d, (0 <= mc_get b d)%Z) ->
  forall fuel, length a + length b < fuel -> exists r, mc_leq_loop fuel a b = Some r /\
    (r = true <-> forall d, (mc_get a d <= mc_get b d)%Z).
Proof.
  revert a b. refine (walk_ind _ _ _ _ _).
  - intros Hp [|fuel] Hf; [simpl in Hf; lia|]. by exists true.
  - intros k x a b Ha Hb Hsa Hsb IH Hp [|fuel] Hf; [lia|].
    apply (forall_get_r Z.le k [] b) in Hp as [Hx Hp]; [|by intros ? ?%elem_of_nil|done|done].
    destruct (IH Hp fuel) as (r & E & Hr); [len|]. clear IH.
    assert (mc_leq_loop (S fuel) a ((k, x) :: b) = mc_leq_loop fuel a b) as ->.
    { clear E Hr Hf Hsa. walk_step a Ha. }
    exists r. split; [done|]. rewrite Hr.
    rewrite (forall_get_r Z.le k a b Ha Hb x) by done. tauto.
  - intros k x a b Ha Hb Hsa Hsb IH Hp [|fuel] Hf; [lia|].
    destruct (IH Hp fuel) as (r & E & Hr); [len|]. clear IH.
    assert (mc_leq_loop (S fuel) ((k, x) :: a) b
            = if decide (x > 0)%Z then Some false else mc_leq_loop fuel a b) as ->.
    { clear E Hr Hf Hsb. walk_step b Hb. }
    pose proof (forall_get_l Z.le k a b Ha Hb x ltac:(done)) as Hiff. walk_done r Hr Hiff.
  - intros k x y a b Ha Hb Hsa Hsb IH Hp [|fuel] Hf; [lia|].
    apply (forall_get_r Z.le k [] b) in Hp as [Hx Hp]; [|by intros ? ?%elem_of_nil|done|done].
    destruct (IH Hp fuel) as (r & E & Hr); [len|]. cbn [mc_leq_loop].
    rewrite ltb_irrefl, bool_decide_true by done. cbn [cassert mbind option_bind].
    pose proof (forall_get_both Z.le k a b Ha Hb x y ltac:(done)) as Hiff. walk_done r Hr Hiff.
Qed.

(** The partial order on clocks is [lt]'s first half; the second is a strict
    inequality somewhere, which the walk finds at the head or later. *)
Definition mclk_some_lt a b : Prop := exists d, (mc_get a d < mc_get b d)%Z.

Lemma some_lt_r k x a b : below k a -> below k b ->
  mclk_some_lt a ((k, x) :: b) <-> (0 < x)%Z \/ mclk_some_lt a b.
Proof.
  intros Ha Hb. unfold mclk_some_lt. setoid_rewrite mc_get_cons. split.
  - intros (d & Hd). case_decide; [subst; rewrite mc_get_below in Hd by done; auto|eauto].
  - intros [Hx|(d & Hd)]; [exists k|exists d].
    + by rewrite decide_True, mc_get_below by done.
    + case_decide; [|done]. subst. rewrite !mc_get_below in Hd by done. lia.
Qed.
Lemma some_lt_l k x a b : below k a -> below k b -> (0 <= x)%Z ->
  mclk_some_lt ((k, x) :: a) b <-> mclk_some_lt a b.
Proof.
  intros Ha Hb Hx. unfold mclk_some_lt. setoid_rewrite mc_get_cons. split; intros (d & Hd); exists d.
  - case_decide; [|done]. subst. rewrite (mc_get_below b) in Hd by done. lia.
  - case_decide; [|done]. subst. rewrite !mc_get_below in Hd by done. lia.
Qed.
Lemma some_lt_both k x y a b : below k a -> below k b ->
  mclk_some_lt ((k, x) :: a) ((k, y) :: b) <-> (x < y)%Z \/ mclk_some_lt a b.
Proof.
  intros Ha Hb. unfold mclk_some_lt. setoid_rewrite mc_get_cons. split.
  - intros (d & Hd). case_decide; eauto.
  - intros [Hx|(d & Hd)]; [exists k; by rewrite !decide_True|exists d].
    case_decide; [|done]. subst. rewrite !mc_get_below in Hd by done. lia.
Qed.

Lemma mc_lt_loop_spec a b : mc_sorted a -> mc_sorted b ->
  (forall d, (0 <= mc_get a d)%Z) -> (forall d, (0 <= mc_get b d)%Z) ->
  forall fuel st, length a + length b < fuel -> exists r, mc_lt_loop fuel st a b = Some r /\
    (r = true <-> (forall d, (mc_get a d <= mc_get b d)%Z) /\ (st = true \/ mclk_some_lt a b)).
Proof.
  assert (Hnil : forall k, below k []) by (by intros k ? ?%elem_of_nil).
  revert a b. refine (walk_ind _ _ _ _ _).
  - intros _ _ [|fuel] st Hf; [simpl in Hf; lia|]. exists st. split; [done|].
    split; [intros ->; split; [done|by left]|]. intros [_ [?|(d & Hd)]]; [done|]. by apply Z.lt_irrefl in Hd.
  - intros k x a b Ha Hb Hsa Hsb IH Hpa Hp [|fuel] st Hf; [lia|].
    apply (forall_get_r Z.le k [] b) in Hp as [Hx Hp]; [|done..].
    destruct (IH Hpa Hp fuel (if decide (x > 0)%Z then true else st)) as (r & E & Hr); [len|]. clear IH.
    assert (mc_lt_loop (S fuel) st a ((k, x) :: b)
            = mc_lt_loop fuel (if decide (x > 0)%Z then true else st) a b) as ->.
    { clear E Hr Hf Hsa. walk_step a Ha. }
    exists r. split; [done|].
    rewrite Hr, (forall_get_r Z.le k a b Ha Hb x), some_lt_r by done. clear -Hx.
    destruct (decide (x > 0)%Z); [naive_solver lia|]. assert (~ 0 < x)%Z by lia. tauto.
  - intros k x a b Ha Hb Hsa Hsb IH Hpa Hp [|fuel] st Hf; [lia|].
    apply (forall_get_l (fun x y => y <= x)%Z k a []) in Hpa as [Hx Hpa]; [|done..].
    destruct (IH Hpa Hp fuel st) as (r & E & Hr); [len|]. clear IH.
    assert (mc_lt_loop (S fuel) st ((k, x) :: a) b
            = if decide (x > 0)%Z then Some false else mc_lt_loop fuel st a b) as ->.
    { clear E Hr Hf Hsb. walk_step b Hb. }
    pose proof (forall_get_l Z.le k a b Ha Hb x ltac:(done)) as Hiff.
    case_decide; [exists false|exists r]; (split; [done|]); rewrite ?Hr, Hiff, some_lt_l by done.
    + split; [done|]. intros [[? ?] ?]. lia.
    + assert (x <= 0)%Z by lia. tauto.
  - intros k x y a b Ha Hb Hsa Hsb IH Hpa Hp [|fuel] st Hf; [lia|].
    apply (forall_get_l (fun x y => y <= x)%Z k a []) in Hpa as [Hx Hpa]; [|done..].
    apply (forall_get_r Z.le k [] b) in Hp as [Hy Hp]; [|done..].
    destruct (IH Hpa Hp fuel (if decide (x < y)%Z then true else st)) as (r & E & Hr); [len|].
    cbn [mc_lt_loop]. rewrite ltb_irrefl, bool_decide_true by done. cbn [cassert mbind option_bind].
    pose proof (forall_get_both Z.le k a b Ha Hb x y ltac:(done)) as Hiff.
    destruct (decide (x > y)%Z); [exists false|exists r]; (split; [done|]);
      rewrite ?Hr, Hiff, some_lt_both by done.
    + split; [done|]. intros [[? ?] ?]. lia.
    + assert (x <= y)%Z by lia. destruct (decide (x < y)%Z); tauto.
Qed.

(** ** The total order *)

(** The bindings that count: those not to 0. *)
Definition mc_strip m : list (DOM * Z) := filter (fun p => p.2 <> 0%Z) m.

Lemma skip_zeros_strip m :
  match skip_zeros m with
  | [] => mc_strip m = []
  | (k, x) :: m' => mc_strip m = (k, x) :: mc_strip m' /\ length m' < length m
  end.
Proof.
  unfold mc_strip. induction m as [|[k x] m IH]; simpl; [done|].
  rewrite filter_cons. destruct (decide (x = 0%Z)) as [->|Hx].
  - rewrite decide_False by (simpl; lia). destruct (skip_zeros m) as [|[k' x'] m']; [done|].
    destruct IH. split; [done|lia].
  - rewrite decide_True by done. split; [done|lia].
Qed.

Lemma mc_lex_loop_spec dflt : forall fuel a b, length a + length b < fuel ->
  exists r, mc_lex_loop fuel dflt a b = Some r /\
    (r = true <-> seq_lt (mc_strip a) (mc_strip b) = true \/ (dflt = true /\ mc_strip a = mc_strip b)).
Proof.
  induction fuel as [|fuel IH]; intros a b Hf; [lia|].
  assert (mc_lex_loop (S fuel) dflt a b =
    match skip_zeros a, skip_zeros b with
    | [], [] => Some dflt | [], _ :: _ => Some true | _ :: _, [] => Some false
    | (ka, xa) :: a', (kb, xb) :: b' =>
      if ltb ka kb then Some true
      else if ltb kb ka then Some false
      else if decide (xa < xb)%Z then Some true
      else if decide (xa > xb)%Z then Some false
      else mc_lex_loop fuel dflt a' b'
    end) as -> by (by destruct a as [|[? ?] ?], b as [|[? ?] ?]).
  pose proof (skip_zeros_strip a) as Ha. pose proof (skip_zeros_strip b) as Hb.
  destruct (skip_zeros a) as [|[ka xa] a'], (skip_zeros b) as [|[kb xb] b'].
  - exists dflt. rewrite Ha, Hb. split; [done|]. simpl. naive_solver.
  - exists true. destruct Hb as [-> _]. rewrite Ha. simpl. naive_solver.
  - exists false. destruct Ha as [-> _]. rewrite Hb. simpl. naive_solver.
  - destruct Ha as [-> Hla], Hb as [-> Hlb]. simpl. unfold ltb at 3 4, prod_ltb. simpl.
    destruct (ltb ka kb) eqn:E1; simpl; [exists true; naive_solver|].
    destruct (ltb kb ka) eqn:E2; simpl.
    { exists false. split; [done|]. split; [done|]. intros [?|[_ [= ? ? ?]]]; [done|].
      subst. by rewrite ltb_irrefl in E2. }
    assert (ka = kb) as <- by (by apply ltb_total). unfold ltb, Z_ltb.
    destruct (decide (xa < xb)%Z) as [Hlt|Hge].
    { exists true. rewrite (proj2 (Z.ltb_lt _ _) Hlt). naive_solver. }
    rewrite (proj2 (Z.ltb_ge xa xb)) by lia.
    destruct (decide (xa > xb)%Z) as [Hgt|Hle].
    { exists false. rewrite (proj2 (Z.ltb_lt xb xa)) by lia. split; [done|]. split; [done|].
      intros [?|[_ [= ? ?]]]; [done|lia]. }
    assert (xa = xb) as <- by lia. rewrite Z.ltb_irrefl.
    destruct (IH a' b') as (r & E & Hr); [lia|]. exists r. split; [done|]. rewrite Hr.
    split; (intros [?|[? Heq]]; [by left|right; split; [done|]]); congruence.
Qed.

Lemma mc_strip_get m d : mc_sorted m -> mc_get (mc_strip m) d = mc_get m d.
Proof.
  unfold mc_strip. induction m as [|[k x] m IH]; [done|]. intros [Hk Hm].
  rewrite filter_cons, mc_get_cons. case_decide as Hx; simpl in Hx.
  - by rewrite mc_get_cons, IH.
  - rewrite IH by done. case_decide; [|done]. subst. rewrite mc_get_below by done. lia.
Qed.

Lemma mc_strip_sorted m : mc_sorted m -> mc_sorted (mc_strip m).
Proof.
  unfold mc_strip. induction m as [|[k x] m IH]; [done|]. intros [Hk Hm].
  rewrite filter_cons. case_decide; [|by apply IH]. split; [|by apply IH].
  intros d ([? ?] & -> & [_ Hd]%list_elem_of_filter)%list_elem_of_fmap. apply Hk.
  by apply (list_elem_of_fmap_2 fst) in Hd.
Qed.

Lemma mc_strip_ext a b : mc_sorted a -> mc_sorted b ->
  mc_strip a = mc_strip b <-> forall d, mc_get a d = mc_get b d.
Proof.
  intros Ha Hb. split.
  - intros Heq d. by rewrite <-mc_strip_get, Heq, mc_strip_get.
  - revert a b Ha Hb. refine (walk_ind _ _ _ _ _); [done|..].
    + intros k x a b Hka Hkb Hsa Hsb IH Hd%forall_get_r; [|done..]. destruct Hd as [<- Hd].
      rewrite IH by done. unfold mc_strip. by rewrite filter_cons, decide_False by (by intros []).
    + intros k x a b Hka Hkb Hsa Hsb IH Hd%forall_get_l; [|done..]. destruct Hd as [-> Hd].
      rewrite <-IH by done. unfold mc_strip. by rewrite filter_cons, decide_False by (by intros []).
    + intros k x y a b Hka Hkb Hsa Hsb IH Hd%forall_get_both; [|done..]. destruct Hd as [-> Hd].
      specialize (IH Hd). unfold mc_strip in *. rewrite !filter_cons. simpl. by rewrite IH.
Qed.

(** ** What the class promises *)

(** On well-formed clocks over an ordered domain, [operator+] is the
    pointwise maximum (so the least upper bound), and the two-iterator walks of
    [==], [leq] and [lt] terminate, never fail their assertions and decide the
    pointwise equality and orders, whatever keys are bound to 0. *)
Theorem generic_clock_correct a b :
  mc_wf a -> mc_wf b ->
  mc_wf (mc_plus a b) /\ (forall d, mc_get (mc_plus a b) d = Z.max (mc_get a d) (mc_get b d)) /\
  exists req rleq rlt,
    mc_eq a b = Some req /\ (req = true <-> forall d, mc_get a d = mc_get b d) /\
    mc_leq a b = Some rleq /\ (rleq = true <-> forall d, (mc_get a d <= mc_get b d)%Z) /\
    mc_lt a b = Some rlt /\ (rlt = true <-> (forall d, (mc_get a d <= mc_get b d)%Z) /\
                                            exists d, (mc_get a d < mc_get b d)%Z).
Proof.
  intros [Ha Hpa] [Hb Hpb]. destruct (mc_plus_spec a b Ha Hb Hpa) as [Hs Hd].
  split_and!; [split; [done|]|done|].
  { intros d. rewrite Hd. specialize (Hpa d). lia. }
  destruct (mc_eq_loop_spec a b Ha Hb (S (length a + length b))) as (req & ? & ?); [lia|].
  destruct (mc_leq_loop_spec a b Ha Hb Hpb (S (length a + length b))) as (rleq & ? & ?); [lia|].
  destruct (mc_lt_loop_spec a b Ha Hb Hpa Hpb (S (length a + length b)) false)
    as (rlt & ? & Hlt); [lia|].
  exists req, rleq, rlt. split_and!; try done. rewrite Hlt. unfold mclk_some_lt. naive_solver.
Qed.

(** [operator<] and [operator<=] on generic clocks are a strict total order
    and its reflexive closure, up to bindings to 0. *)
Theorem generic_less_total_order a b c :
  mc_sorted a -> mc_sorted b -> mc_sorted c ->
  exists ab ba bc ac le, mc_less a b = Some ab /\ mc_less b a = Some ba /\ mc_less b c = Some bc /\
    mc_less a c = Some ac /\ mc_less_eq a b = Some le /\
    ab && ba = false /\ (ab = true -> bc = true -> ac = true) /\ le = negb ba /\
    (ab = false -> ba = false -> forall d, mc_get a d = mc_get b d) /\
    ((forall d, mc_get a d = mc_get b d) -> ab = false /\ ba = false).
Proof.
  intros Ha Hb Hc.
  assert (Hspec : forall dflt x y, exists r, mc_lex_loop (S (length x + length y)) dflt x y = Some r /\
    (r = true <-> ltb (mc_strip x) (mc_strip y) = true \/ (dflt = true /\ mc_strip x = mc_strip y)))
    by (intros dflt x y; apply mc_lex_loop_spec; lia).
  destruct (Hspec false a b) as (ab & Eab & Hab). destruct (Hspec false b a) as (ba & Eba & Hba).
  destruct (Hspec false b c) as (bc & Ebc & Hbc). destruct (Hspec false a c) as (ac & Eac & Hac).
  destruct (Hspec true a b) as (le & Ele & Hle). clear Hspec.
  exists ab, ba, bc, ac, le. do 5 (split; [done|]). rewrite <-(mc_strip_ext a b Ha Hb).
  set (sa := mc_strip a) in *. set (sb := mc_strip b) in *. set (sc := mc_strip c) in *.
  assert (Hand : forall p q, p \/ (false = true /\ q) <-> p) by (intros; naive_solver).
  rewrite Hand in Hab, Hba, Hbc, Hac. apply eq_true_iff_eq in Hab, Hba, Hbc, Hac. subst.
  split_and!.
  - destruct (ltb sa sb) eqn:E; [|done]. by rewrite ltb_asym.
  - apply ltb_trans.
  - apply eq_true_iff_eq. rewrite Hle, negb_true_iff. split.
    + intros [?|[_ ->]]; [by apply ltb_asym|apply ltb_irrefl].
    + intros ?. destruct (ltb sa sb) eqn:E; [auto|]. right. split; [done|]. by apply ltb_total.
  - apply ltb_total.
  - intros ->. by rewrite ltb_irrefl.
Qed.

End mclock_lemmas.

(** ** Concrete runs *)

Lemma mc_wf_of_map (m : list (Z * Z)) : mc_sorted m -> Forall (fun p => 0 <= p.2)%Z m -> mc_wf m.
Proof.
  intros Hs Hp. split; [done|]. intros d. induction Hp as [|[k x] m Hx Hp IH]; [done|].
  rewrite mc_get_cons. case_decide; [done|]. apply IH, Hs.
Qed.

Lemma generic_clock_correct_witness :
  let a := [(1, 2); (3, 0)]%Z in let b := [(1, 1); (2, 5)]%Z in
  mc_wf (mc_plus a b) /\ (forall d, mc_get (mc_plus a b) d = Z.max (mc_get a d) (mc_get b d)) /\
  exists req rleq rlt,
    mc_eq a b = Some req /\ (req = true <-> forall d, mc_get a d = mc_get b d) /\
    mc_leq a b = Some rleq /\ (rleq = true <-> forall d, (mc_get a d <= mc_get b d)%Z) /\
    mc_lt a b = Some rlt /\ (rlt = true <-> (forall d, (mc_get a d <= mc_get b d)%Z) /\
                                            exists d, (mc_get a d < mc_get b d)%Z).
Proof.
  apply (generic_clock_correct [(1, 2); (3, 0)]%Z [(1, 1); (2, 5)]%Z);
    (apply mc_wf_of_map; [|repeat constructor; simpl; lia]); simpl; split_and!; try done;
    intros d Hd; repeat (apply elem_of_cons in Hd as [->|Hd]; [done|]); by apply elem_of_nil in Hd.
Defined.

Lemma generic_less_total_order_witness :
  exists ab ba bc ac le, mc_less [(1, 0)]%Z [(2, 1)]%Z = Some ab /\ mc_less [(2, 1)]%Z [(1, 0)]%Z = Some ba /\
    mc_less [(2, 1)]%Z [(2, 2)]%Z = Some bc /\ mc_less [(1, 0)]%Z [(2, 2)]%Z = Some ac /\
    mc_less_eq [(1, 0)]%Z [(2, 1)]%Z = Some le /\
    ab && ba = false /\ (ab = true -> bc = true -> ac = true) /\ le = negb ba /\
    (ab = false -> ba = false -> forall d, mc_get [(1, 0)]%Z d = mc_get [(2, 1)]%Z d) /\
    ((forall d, mc_get [(1, 0)]%Z d = mc_get [(2, 1)]%Z d) -> ab = false /\ ba = false).
Proof.
  apply (generic_less_total_order [(1, 0)]%Z [(2, 1)]%Z [(2, 2)]%Z);
    (split; [by intros d ?%elem_of_nil|done]).
Defined.

Example mc_less_run : mc_less [(1, 0)]%Z [(2, 1)]%Z = Some true.
Proof. by vm_compute. Qed.
Example mc_to_string_run : mc_to_string pretty [(1, 0); (2, 5); (4, 7)]%Z = "[2:5, 4:7]".
Proof. by vm_compute. Qed.
