(* ===== verification/CPid.v ===== *)
(** * CPid: complex process identifiers (src/src/CPid.h, CPid.cpp, IID.h)

    A [CPid] is the path of spawns that leads to a process, with an optional
    auxiliary index (a store buffer); a [CPidSystem] hands out fresh ones; an
    [IID] is a process and the index of one of its events. The theorems: the
    comparison is a strict total order, a system never hands out an identifier
    twice and records the parent of each, and the packed comparison of
    [IID<int>] is the lexicographic order it replaces. *)

From stdpp Require Import pretty.
From S2P Require Import Prelude.

Local Open Scope Z_scope.

(** ** CPid *)

Record CPid := MkCPid { proc_seq : list Z; aux_idx : Z }.
#[export] Instance CPid_eq_dec : EqDecision CPid.
Proof. solve_decision. Defined.
#[export] Instance CPid_countable : Countable CPid.
Proof.
  apply (inj_countable' (fun c => (proc_seq c, aux_idx c)) (fun p => MkCPid p.1 p.2)).
  by intros [].
Defined.

Definition CPid_root : CPid := MkCPid [] (-1).
Definition CPid_of_vector (pvec : list Z) : option CPid :=
  _ ← cassert (bool_decide (pvec <> []));
  p0 ← pvec !! 0%nat; _ ← cassert (bool_decide (p0 = 0));
  Some (MkCPid (drop 1 pvec) (-1)).
Definition CPid_of_vector_aux (pvec : list Z) (i : Z) : option CPid :=
  _ ← cassert (bool_decide (pvec <> []));
  p0 ← pvec !! 0%nat; _ ← cassert (bool_decide (p0 = 0)); _ ← cassert (bool_decide (i >= 0));
  Some (MkCPid (drop 1 pvec) i).

Definition is_auxiliary (c : CPid) : bool := bool_decide (aux_idx c >= 0).

Definition cpid_spawn (c : CPid) (pn1 : Z) : option CPid :=
  _ ← cassert (negb (is_auxiliary c)); _ ← cassert (bool_decide (0 <= pn1));
  Some (MkCPid (proc_seq c ++ [pn1]) (aux_idx c)).
Definition cpid_aux (c : CPid) (i : Z) : option CPid :=
  _ ← cassert (negb (is_auxiliary c)); _ ← cassert (bool_decide (0 <= i));
  Some (MkCPid (proc_seq c) i).

Definition has_parent (c : CPid) : bool := bool_decide (proc_seq c <> []) || is_auxiliary c.
Definition cpid_parent (c : CPid) : option CPid :=
  _ ← cassert (has_parent c);
  if is_auxiliary c then Some (MkCPid (proc_seq c) (-1))
  else s ← vpop (proc_seq c); Some (MkCPid s (aux_idx c)).
Definition get_aux_index (c : CPid) : option Z := _ ← cassert (is_auxiliary c); Some (aux_idx c).

Fixpoint seq_to_string (s : list Z) : string :=
  match s with [] => "" | p :: s => "." +:+ pretty p +:+ seq_to_string s end.
Definition cpid_to_string (c : CPid) : string :=
  "<0" +:+ seq_to_string (proc_seq c)
  +:+ (if is_auxiliary c then "/" +:+ pretty (aux_idx c) else "") +:+ ">".

(** The loop of [compare]: [inl r] is its early return, [inr] what is left of
    the two sequences. *)
Fixpoint compare_loop (a b : list Z) : Z + (list Z * list Z) :=
  match a, b with
  | x :: a', y :: b' =>
    if decide (x < y) then inl (-1) else if decide (x > y) then inl 1 else compare_loop a' b'
  | _, _ => inr (a, b)
  end.

Definition cpid_compare (a c : CPid) : Z :=
  match compare_loop (proc_seq a) (proc_seq c) with
  | inl r => r
  | inr (ra, rc) =>
    if decide (rc <> []) then -1
    else if decide (ra <> []) then 1
    else if decide (aux_idx a = aux_idx c \/ is_auxiliary a = false /\ is_auxiliary c = false) then 0
    else if decide (aux_idx a < aux_idx c) then -1 else 1
  end.
#[export] Instance cpid_lt : LtB CPid := fun a c => bool_decide (cpid_compare a c < 0).

(** ** CPidSystem *)

Record CPidSystem := MkCPidSystem {
  real_children : list (list Z);
  aux_children : list (list Z);
  cps_parent : list Z;
  cpids : list CPid;
  identifiers : gmap CPid Z;
}.

Definition cps_init : CPidSystem :=
  MkCPidSystem [[]] [[]] [-1] [CPid_root] {[ CPid_root := 0 ]}.

(** [identifiers\[c\]] of a [std::map]: binds a missing key to 0. *)
Definition ids_index (ids : gmap CPid Z) (c : CPid) : Z * gmap CPid Z :=
  match ids !! c with Some i => (i, ids) | None => (0, <[c := 0]> ids) end.

Definition cps_spawn (s : CPidSystem) (c : CPid) : option (CPid * CPidSystem) :=
  let '(c_id, ids) := ids_index (identifiers s) c in
  kids ← zget (real_children s) c_id;
  c2 ← cpid_spawn c (Z.of_nat (length kids));
  let c2_id := Z.of_nat (length (cpids s)) in
  rc ← zset (real_children s) c_id (kids ++ [c2_id]);
  Some (c2, MkCPidSystem (rc ++ [[]]) (aux_children s ++ [[]]) (cps_parent s ++ [c_id])
              (cpids s ++ [c2]) (<[c2 := c2_id]> ids)).

Definition cps_new_aux (s : CPidSystem) (c : CPid) : option (CPid * CPidSystem) :=
  let '(c_id, ids) := ids_index (identifiers s) c in
  kids ← zget (aux_children s) c_id;
  c2 ← cpid_aux c (Z.of_nat (length kids));
  let c2_id := Z.of_nat (length (cpids s)) in
  ac ← zset (aux_children s) c_id (kids ++ [c2_id]);
  Some (c2, MkCPidSystem (real_children s ++ [[]]) (ac ++ [[]]) (cps_parent s ++ [c_id])
              (cpids s ++ [c2]) (<[c2 := c2_id]> ids)).

(** ** IID<int> *)

Record IID := MkIID { iid_pid : Z; iid_index : Z }.
#[export] Instance IID_eq_dec : EqDecision IID.
Proof. solve_decision. Defined.

Definition iid_null : IID := MkIID 0 0.
Definition iid_make (pid i : Z) : option IID :=
  _ ← cassert (bool_decide (i >= 0)); Some (MkIID pid (wrapu 32 i)).
Definition iid_valid (a : IID) : bool := bool_decide (iid_index a > 0).
Definition iid_is_null (a : IID) : bool := bool_decide (iid_index a = 0).
Definition iid_incr (a : IID) : IID := MkIID (iid_pid a) (wrapu 32 (iid_index a + 1)).
Definition iid_decr (a : IID) : option IID :=
  _ ← cassert (bool_decide (iid_index a > 0)); Some (MkIID (iid_pid a) (iid_index a - 1)).
Definition iid_add (a : IID) (d : Z) : option IID :=
  iid_make (iid_pid a) (wraps 32 (wrapu 32 (iid_index a + d))).
Definition iid_sub (a : IID) (d : Z) : option IID :=
  iid_make (iid_pid a) (wraps 32 (wrapu 32 (iid_index a - d))).

Definition comp_value (a : IID) : Z :=
  Z.lor (iid_index a) (Z.shiftl (wrapu 32 (iid_pid a)) 32).
Definition iid_eq (a b : IID) : bool := comp_value a =? comp_value b.
#[export] Instance iid_lt : LtB IID := fun a b => comp_value a <? comp_value b.
Definition iid_le (a b : IID) : bool := comp_value a <=? comp_value b.

Definition iid_to_string (a : IID) : string :=
  if iid_is_null a then "null" else "(" +:+ pretty (iid_pid a) +:+ "," +:+ pretty (iid_index a) +:+ ")".

(** ** The order on identifiers *)

Definition cpid_wf (c : CPid) : Prop := -1 <= aux_idx c.

(** The comparison is the lexicographic one on the path extended by the
    auxiliary index, below every spawn number. *)
Fixpoint lex (a b : list Z) : Z :=
  match a, b with
  | [], [] => 0
  | [], _ :: _ => -1
  | _ :: _, [] => 1
  | x :: a', y :: b' => if decide (x < y) then -1 else if decide (x > y) then 1 else lex a' b'
  end.

Lemma lex_refl a : lex a a = 0.
Proof. induction a as [|x a IH]; simpl; [done|]. by rewrite !decide_False by lia. Qed.
Lemma lex_eq a b : lex a b = 0 -> a = b.
Proof.
  revert b. induction a as [|x a IH]; intros [|y b]; simpl; try done.
  repeat case_decide; try done. intros ?. f_equal; [lia|by apply IH].
Qed.
Lemma lex_flip a b : lex b a = - lex a b.
Proof.
  revert b. induction a as [|x a IH]; intros [|y b]; simpl; try done.
  repeat case_decide; try lia. apply IH.
Qed.
Lemma lex_trans a b c : lex a b < 0 -> lex b c < 0 -> lex a c < 0.
Proof.
  revert b c. induction a as [|x a IH]; intros [|y b] [|z c]; simpl; try lia.
  repeat case_decide; try lia. apply IH.
Qed.

Lemma compare_lex a c : cpid_wf a -> cpid_wf c ->
  cpid_compare a c = if decide (lex (proc_seq a) (proc_seq c) = 0)
                     then lex [aux_idx a] [aux_idx c] else lex (proc_seq a) (proc_seq c).
Proof.
  unfold cpid_wf, cpid_compare, is_auxiliary. destruct a as [pa aa], c as [pc ac]. simpl. intros Ha Hc.
  revert pc. induction pa as [|x pa IH]; intros [|y pc]; simpl; try done.
  - repeat case_decide; repeat case_bool_decide; try lia; naive_solver lia.
  - destruct (decide (x < y)); [done|]. destruct (decide (x > y)); [done|]. apply IH.
Qed.

Lemma cpid_compare_total a b : cpid_wf a -> cpid_wf b ->
  (cpid_compare a b = 0 <-> a = b) /\ cpid_compare b a = - cpid_compare a b.
Proof.
  intros Ha Hb. rewrite !compare_lex, (lex_flip (proc_seq a)) by done. split.
  - case_decide as Hl.
    + apply lex_eq in Hl. destruct a as [pa aa], b as [pb ab]. simpl in *. subst.
      repeat case_decide; split; try done; try (intros [= ->]; lia).
      intros _. f_equal. lia.
    + split; [done|]. intros ->. by rewrite lex_refl in Hl.
  - rewrite (lex_flip [aux_idx a]). repeat case_decide; lia.
Qed.

Lemma cpid_compare_trans a b c : cpid_wf a -> cpid_wf b -> cpid_wf c ->
  cpid_compare a b < 0 -> cpid_compare b c < 0 -> cpid_compare a c < 0.
Proof.
  intros Ha Hb Hc. rewrite !compare_lex by done. intros Hab Hbc.
  destruct (decide (lex (proc_seq a) (proc_seq b) = 0)) as [E1|E1].
  - apply lex_eq in E1. rewrite E1. case_decide; [|done]. eapply lex_trans; done.
  - destruct (decide (lex (proc_seq b) (proc_seq c) = 0)) as [E2|E2].
    + apply lex_eq in E2. rewrite <-E2. by rewrite decide_False.
    + assert (lex (proc_seq a) (proc_seq c) < 0) by (eapply lex_trans; done).
      by rewrite decide_False by lia.
Qed.

(** ** What a system keeps *)

Record cps_inv (s : CPidSystem) : Prop := {
  inv_real : length (real_children s) = length (cpids s);
  inv_aux : length (aux_children s) = length (cpids s);
  inv_parents : length (cps_parent s) = length (cpids s);
  inv_wf : forall c, c ∈ cpids s -> cpid_wf c;
  inv_ids : forall c i, identifiers s !! c = Some i <-> 0 <= i /\ cpids s !! Z.to_nat i = Some c;
  inv_closed : forall c p, c ∈ cpids s -> cpid_parent c = Some p -> p ∈ cpids s;
  inv_kids : forall i c kids k, cpids s !! i = Some c -> is_auxiliary c = false ->
    real_children s !! i = Some kids -> 0 <= k ->
    (MkCPid (proc_seq c ++ [k]) (-1) ∈ cpids s <-> k < Z.of_nat (length kids));
  inv_auxs : forall i c kids k, cpids s !! i = Some c -> is_auxiliary c = false ->
    aux_children s !! i = Some kids -> 0 <= k ->
    (MkCPid (proc_seq c) k ∈ cpids s <-> k < Z.of_nat (length kids));
}.

Lemma real_cpid c : cpid_wf c -> is_auxiliary c = false -> c = MkCPid (proc_seq c) (-1).
Proof.
  unfold cpid_wf, is_auxiliary. destruct c as [p a]. simpl. intros Hw Ha.
  case_bool_decide; [done|]. f_equal. lia.
Qed.

Lemma parent_of_spawn p k : cpid_parent (MkCPid (p ++ [k]) (-1)) = Some (MkCPid p (-1)).
Proof.
  unfold cpid_parent, has_parent. simpl. rewrite bool_decide_true by (by destruct p). simpl.
  unfold vpop. destruct (p ++ [k]) eqn:E; [by destruct p|]. rewrite <-E. simpl.
  rewrite take_app_length'; [done|]. rewrite length_app. simpl. lia.
Qed.

Lemma parent_of_aux p k : 0 <= k -> cpid_parent (MkCPid p k) = Some (MkCPid p (-1)).
Proof.
  intros. unfold cpid_parent, has_parent, is_auxiliary. simpl.
  rewrite (bool_decide_true (k >= 0)) by lia. rewrite orb_true_r. done.
Qed.

Lemma cps_init_inv : cps_inv cps_init.
Proof.
  split; simpl; try done.
  - intros c ->%list_elem_of_singleton. unfold cpid_wf. simpl. lia.
  - intros c i. rewrite lookup_singleton_Some. split.
    + by intros [<- <-].
    + intros [Hi Hc]. destruct (Z.to_nat i) eqn:E; [|done]. simplify_eq/=. split; [done|lia].
  - intros c p ->%list_elem_of_singleton. done.
  - intros [|i] c kids k [=] _ [=] Hk. subst. rewrite list_elem_of_singleton.
    split; [intros [= Heq]|simpl; lia].
  - intros [|i] c kids k [=] _ [=] Hk. subst. rewrite list_elem_of_singleton.
    split; [intros [= Heq]|simpl]; lia.
Qed.

Lemma cps_extend s c2 c rc ac pid :
  cps_inv s -> c ∈ cpids s -> c2 ∉ cpids s -> cpid_wf c2 -> cpid_parent c2 = Some c ->
  length rc = length (cpids s) -> length ac = length (cpids s) ->
  (forall j c' kids k, cpids s !! j = Some c' -> is_auxiliary c' = false -> rc !! j = Some kids ->
     0 <= k -> (MkCPid (proc_seq c' ++ [k]) (-1) ∈ cpids s ++ [c2] <-> k < Z.of_nat (length kids))) ->
  (forall j c' kids k, cpids s !! j = Some c' -> is_auxiliary c' = false -> ac !! j = Some kids ->
     0 <= k -> (MkCPid (proc_seq c') k ∈ cpids s ++ [c2] <-> k < Z.of_nat (length kids))) ->
  cps_inv (MkCPidSystem (rc ++ [[]]) (ac ++ [[]]) (cps_parent s ++ [pid]) (cpids s ++ [c2])
             (<[c2 := Z.of_nat (length (cpids s))]> (identifiers s))).
Proof.
  intros Hinv Hc Hc2 Hwf Hp Hrc Hac Hr Ha.
  assert (Hnew : forall x, x ∈ cpids s ++ [c2] -> cpid_parent x <> Some c2).
  { intros x [Hx| ->%list_elem_of_singleton]%elem_of_app Hpar.
    - by eapply Hc2, (inv_closed s Hinv).
    - rewrite Hp in Hpar. by simplify_eq. }
  split; simpl.
  - rewrite !length_app, Hrc. done.
  - rewrite !length_app, Hac. done.
  - rewrite !length_app, (inv_parents s Hinv). done.
  - intros x [Hx| ->%list_elem_of_singleton]%elem_of_app; [by apply (inv_wf s Hinv)|done].
  - intros x i. rewrite lookup_insert_Some. split.
    + intros [[<- <-]|[Hne Hi]].
      * split; [lia|]. by rewrite Nat2Z.id, lookup_mid.
      * apply (inv_ids s Hinv) in Hi as [? Hi]. split; [done|]. by apply lookup_app_l_Some.
    + intros [Hi [Hx|[Hlen Hx]]%lookup_app_Some].
      * right. split; [|by apply (inv_ids s Hinv)]. intros <-. by eapply Hc2, list_elem_of_lookup_2.
      * apply list_lookup_singleton_Some in Hx as [? <-]. left. split; [done|lia].
  - intros x p [Hx| ->%list_elem_of_singleton]%elem_of_app Hpar; apply elem_of_app; left.
    + by eapply (inv_closed s Hinv).
    + congruence.
  - intros j x kids k [Hx|[Hlen Hx]]%lookup_app_Some Hax Hk Hk0.
    + rewrite lookup_app_l in Hk by (apply lookup_lt_Some in Hx; lia). by eapply Hr.
    + apply list_lookup_singleton_Some in Hx as [Hj <-].
      rewrite lookup_app_r in Hk by lia. apply list_lookup_singleton_Some in Hk as [_ <-]. simpl.
      split; [|lia]. intros Hin. exfalso. apply (Hnew _ Hin). rewrite parent_of_spawn.
      by rewrite <-real_cpid.
  - intros j x kids k [Hx|[Hlen Hx]]%lookup_app_Some Hax Hk Hk0.
    + rewrite lookup_app_l in Hk by (apply lookup_lt_Some in Hx; lia). by eapply Ha.
    + apply list_lookup_singleton_Some in Hx as [Hj <-].
      rewrite lookup_app_r in Hk by lia. apply list_lookup_singleton_Some in Hk as [_ <-]. simpl.
      split; [|lia]. intros Hin. exfalso. apply (Hnew _ Hin). rewrite parent_of_aux by done.
      by rewrite <-real_cpid.
Qed.

Lemma elem_of_snoc {A} (l : list A) x y : x ∈ l ++ [y] <-> x ∈ l \/ x = y.
Proof. by rewrite elem_of_app, list_elem_of_singleton. Qed.

(** The lookup of a member and its children. *)
Lemma cps_find s c : cps_inv s -> c ∈ cpids s -> exists i rk ak,
  ids_index (identifiers s) c = (Z.of_nat i, identifiers s) /\ cpids s !! i = Some c /\
  real_children s !! i = Some rk /\ aux_children s !! i = Some ak.
Proof.
  intros Hinv [i Hi]%list_elem_of_lookup. pose proof (lookup_lt_Some _ _ _ Hi) as Hlt.
  destruct (lookup_lt_exists (real_children s) i) as [rk Hrk]; [rewrite inv_real; done|].
  destruct (lookup_lt_exists (aux_children s) i) as [ak Hak]; [rewrite inv_aux; done|].
  exists i, rk, ak. split_and!; [|done..]. unfold ids_index.
  by rewrite (proj2 (inv_ids s Hinv c (Z.of_nat i))) by (split; [lia|by rewrite Nat2Z.id]).
Qed.

Lemma cps_NoDup s i j c : cps_inv s -> cpids s !! i = Some c -> cpids s !! j = Some c -> i = j.
Proof.
  intros Hinv Hi Hj.
  assert (H1 : identifiers s !! c = Some (Z.of_nat i)) by (apply inv_ids; [done|]; rewrite Nat2Z.id; auto with lia).
  assert (H2 : identifiers s !! c = Some (Z.of_nat j)) by (apply inv_ids; [done|]; rewrite Nat2Z.id; auto with lia).
  rewrite H1 in H2. simplify_eq. lia.
Qed.

Lemma cps_spawn_spec s c : cps_inv s -> c ∈ cpids s -> is_auxiliary c = false ->
  exists c2 s', cps_spawn s c = Some (c2, s') /\ c2 ∉ cpids s /\ is_auxiliary c2 = false /\
    cpid_parent c2 = Some c /\ cpids s' = (cpids s ++ [c2]) /\ cps_inv s'.
Proof.
  intros Hinv Hc Haux. destruct (cps_find s c Hinv Hc) as (i & rk & ak & Hid & Hi & Hrk & Hak).
  pose proof (real_cpid c (inv_wf s Hinv c Hc) Haux) as Hreal.
  unfold cps_spawn. rewrite Hid, zget_nat, Hrk. cbn [mbind option_bind].
  unfold cpid_spawn. rewrite Haux, bool_decide_true by lia. cbn [negb cassert mbind option_bind].
  rewrite zset_nat, vset_Some by (rewrite inv_real by done; by eapply lookup_lt_Some).
  cbn [mbind option_bind].
  set (c2 := MkCPid (proc_seq c ++ [Z.of_nat (length rk)]) (aux_idx c)).
  assert (Hc2 : c2 = MkCPid (proc_seq c ++ [Z.of_nat (length rk)]) (-1)).
  { unfold c2. f_equal. by rewrite Hreal. }
  assert (Hfresh : c2 ∉ cpids s).
  { rewrite Hc2. intros Hin. apply (inv_kids s Hinv i c rk) in Hin; [lia|done..|lia]. }
  assert (Hpar : cpid_parent c2 = Some c) by (rewrite Hc2, parent_of_spawn; by rewrite <-Hreal).
  eexists c2, _. split; [done|]. split_and!; [done| |done|done|].
  { rewrite Hc2. done. }
  apply (cps_extend s c2 c); try done.
  - rewrite Hc2. unfold cpid_wf. simpl. lia.
  - rewrite length_insert. by apply inv_real.
  - by apply inv_aux.
  - intros j c' kids k Hj Hax Hkids Hk0. rewrite elem_of_snoc. destruct (decide (i = j)) as [<-|Hne].
    + rewrite list_lookup_insert_eq in Hkids by (rewrite inv_real by done; by eapply lookup_lt_Some).
      simplify_eq. rewrite (inv_kids s Hinv i c rk), length_app by done. simpl.
      rewrite Hc2. split; [intros [?|[= ?%app_inj_tail]]; [lia|naive_solver lia]|].
      intros ?. destruct (decide (k = Z.of_nat (length rk))) as [->|]; [by right|left; lia].
    + rewrite list_lookup_insert_ne in Hkids by done. rewrite (inv_kids s Hinv j c' kids) by done.
      split; [|auto]. intros [?|Heq]; [done|]. rewrite Hc2 in Heq. simplify_eq.
      apply app_inj_tail in Heq as [Heq _]. exfalso. apply Hne. eapply cps_NoDup; [done..|].
      rewrite Hj. f_equal. rewrite (real_cpid c'), Hreal, Heq; [done| |done].
      apply (inv_wf s Hinv). by eapply list_elem_of_lookup_2.
  - intros j c' kids k Hj Hax Hkids Hk0. rewrite elem_of_snoc, (inv_auxs s Hinv j c' kids) by done.
    split; [|auto]. intros [?|Heq]; [done|]. rewrite Hc2 in Heq. simplify_eq. lia.
Qed.

Lemma cps_new_aux_spec s c : cps_inv s -> c ∈ cpids s -> is_auxiliary c = false ->
  exists c2 s', cps_new_aux s c = Some (c2, s') /\ c2 ∉ cpids s /\ is_auxiliary c2 = true /\
    cpid_parent c2 = Some c /\ cpids s' = (cpids s ++ [c2]) /\ cps_inv s'.
Proof.
  intros Hinv Hc Haux. destruct (cps_find s c Hinv Hc) as (i & rk & ak & Hid & Hi & Hrk & Hak).
  pose proof (real_cpid c (inv_wf s Hinv c Hc) Haux) as Hreal.
  unfold cps_new_aux. rewrite Hid, zget_nat, Hak. cbn [mbind option_bind].
  unfold cpid_aux. rewrite Haux, bool_decide_true by lia. cbn [negb cassert mbind option_bind].
  rewrite zset_nat, vset_Some by (rewrite inv_aux by done; by eapply lookup_lt_Some).
  cbn [mbind option_bind]. set (c2 := MkCPid (proc_seq c) (Z.of_nat (length ak))).
  assert (Hfresh : c2 ∉ cpids s).
  { intros Hin. apply (inv_auxs s Hinv i c ak) in Hin; [lia|done..|lia]. }
  assert (Hpar : cpid_parent c2 = Some c) by (unfold c2; rewrite parent_of_aux by lia; by rewrite <-Hreal).
  eexists c2, _. split; [done|]. split_and!; [done| |done|done|].
  { unfold is_auxiliary, c2. simpl. apply bool_decide_true. lia. }
  apply (cps_extend s c2 c); try done.
  - unfold cpid_wf, c2. simpl. lia.
  - by apply inv_real.
  - rewrite length_insert. by apply inv_aux.
  - intros j c' kids k Hj Hax Hkids Hk0. rewrite elem_of_snoc, (inv_kids s Hinv j c' kids) by done.
    split; [|auto]. intros [?|Heq]; [done|]. unfold c2 in Heq. simplify_eq. lia.
  - intros j c' kids k Hj Hax Hkids Hk0. rewrite elem_of_snoc. destruct (decide (i = j)) as [<-|Hne].
    + rewrite list_lookup_insert_eq in Hkids by (rewrite inv_aux by done; by eapply lookup_lt_Some).
      simplify_eq. rewrite (inv_auxs s Hinv i c ak), length_app by done. simpl.
      unfold c2. split; [intros [?|[= ->]]; lia|].
      intros ?. destruct (decide (k = Z.of_nat (length ak))) as [->|]; [by right|left; lia].
    + rewrite list_lookup_insert_ne in Hkids by done. rewrite (inv_auxs s Hinv j c' kids) by done.
      split; [|auto]. intros [?|Heq]; [done|]. unfold c2 in Heq. simplify_eq.
      exfalso. apply Hne. eapply cps_NoDup; [done..|].
      rewrite Hj. f_equal. rewrite (real_cpid c'), Hreal; [by f_equal| |done].
      apply (inv_wf s Hinv). by eapply list_elem_of_lookup_2.
Qed.

(** ** What the classes promise *)

(** A [CPidSystem] never hands out an identifier twice: from the initial
    system, every [spawn] and [new_aux] of a real member succeeds, returns a
    process that was not in the set and whose parent is the argument, and keeps
    the tables consistent (every identifier maps to its index, children counts
    match the set, the set is closed under parents). *)
Theorem cps_fresh :
  cps_inv cps_init /\
  forall s c, cps_inv s -> c ∈ cpids s -> is_auxiliary c = false ->
    (exists c2 s', cps_spawn s c = Some (c2, s') /\ c2 ∉ cpids s /\ is_auxiliary c2 = false /\
       cpid_parent c2 = Some c /\ cpids s' = (cpids s ++ [c2]) /\ cps_inv s') /\
    (exists c2 s', cps_new_aux s c = Some (c2, s') /\ c2 ∉ cpids s /\ is_auxiliary c2 = true /\
       cpid_parent c2 = Some c /\ cpids s' = (cpids s ++ [c2]) /\ cps_inv s').
Proof.
  split; [apply cps_init_inv|]. intros s c Hi Hc Ha.
  split; [by apply cps_spawn_spec|by apply cps_new_aux_spec].
Qed.

(** [CPid::compare] is a total order on process identifiers (0 exactly on
    equal ones, antisymmetric, transitive), and the 64-bit [comp_value] compares
    [IID<int>]s of non-negative processes as the pair (process, index). *)
Theorem identifier_orders a b c x y :
  cpid_wf a -> cpid_wf b -> cpid_wf c ->
  0 <= iid_pid x < 2 ^ 31 -> 0 <= iid_pid y < 2 ^ 31 ->
  0 <= iid_index x < 2 ^ 32 -> 0 <= iid_index y < 2 ^ 32 ->
  (cpid_compare a b = 0 <-> a = b) /\ cpid_compare b a = - cpid_compare a b /\
  (cpid_compare a b < 0 -> cpid_compare b c < 0 -> cpid_compare a c < 0) /\
  (iid_eq x y = true <-> x = y) /\
  (ltb x y = true <-> iid_pid x < iid_pid y \/ (iid_pid x = iid_pid y /\ iid_index x < iid_index y)).
Proof.
  intros Ha Hb Hc Hx Hy Hxi Hyi. destruct (cpid_compare_total a b Ha Hb) as [H1 H2].
  assert (Hv : forall z, 0 <= iid_pid z < 2 ^ 31 -> 0 <= iid_index z < 2 ^ 32 ->
    comp_value z = iid_index z + iid_pid z * 2 ^ 32).
  { intros z Hp Hi. unfold comp_value. rewrite wrapu_id by lia.
    rewrite Z.shiftl_mul_pow2 by lia. symmetry. rewrite <-Z.lxor_lor; [apply Z.add_nocarry_lxor|];
      apply Z.bits_inj'; intros i Hi0; rewrite Z.land_spec, Z.bits_0, Z.mul_pow2_bits by lia;
      (destruct (decide (i < 32));
        [by rewrite (Z.testbit_neg_r (iid_pid z)), andb_false_r by lia|];
       rewrite <-(Z.mod_small (iid_index z) (2 ^ 32)), Z.mod_pow2_bits_high by lia; done). }
  split_and!; [done|done|by apply cpid_compare_trans| |].
  - unfold iid_eq. rewrite !Hv, Z.eqb_eq by done. destruct x as [xp xi], y as [yp yi]. simpl in *.
    split; [|by intros [= -> ->]]. intros Heq. assert (xp = yp) by nia. subst. f_equal. lia.
  - unfold ltb, iid_lt. rewrite !Hv, Z.ltb_lt by done. nia.
Qed.

(** ** Concrete runs *)

Lemma identifier_orders_witness :
  let a := CPid_root in let b := MkCPid [0] (-1) in let c := MkCPid [0] 0 in
  let x := MkIID 1 7 in let y := MkIID 2 1 in
  (cpid_compare a b = 0 <-> a = b) /\ cpid_compare b a = - cpid_compare a b /\
  (cpid_compare a b < 0 -> cpid_compare b c < 0 -> cpid_compare a c < 0) /\
  (iid_eq x y = true <-> x = y) /\
  (ltb x y = true <-> iid_pid x < iid_pid y \/ (iid_pid x = iid_pid y /\ iid_index x < iid_index y)).
Proof.
  apply (identifier_orders CPid_root (MkCPid [0] (-1)) (MkCPid [0] 0) (MkIID 1 7) (MkIID 2 1));
    unfold cpid_wf; simpl; lia.
Defined.

Lemma cps_fresh_witness :
  exists c2 s', cps_spawn cps_init CPid_root = Some (c2, s') /\ c2 ∉ cpids cps_init /\
    is_auxiliary c2 = false /\ cpid_parent c2 = Some CPid_root /\ cpids s' = (cpids cps_init ++ [c2]) /\ cps_inv s'.
Proof.
  apply (proj2 cps_fresh cps_init CPid_root); [apply (proj1 cps_fresh)|by constructor|done].
Defined.

Example cpid_string : cpid_to_string (MkCPid [0; 2] 1) = "<0.0.2/1>".
Proof. by vm_compute. Qed.
