(* ===== verification/SymAddr.v ===== *)
(** * SymAddr: symbolic addresses (src/src/SymAddr.h, SymAddr.cpp)

    A memory block is named by a process and an allocation number packed into
    16-bit fields, an address is a block and a 32-bit offset, and a
    [SymAddrSize] a range of bytes. All arithmetic is at the width of the
    source. The theorems show that the packing is injective, that the order is
    a strict total order, that [overlaps] and [subsetof] are the byte-wise
    relations their comments state, and where [includes] parts from them. *)

From stdpp Require Import pretty.
From S2P Require Import Prelude.

Local Open Scope Z_scope.

Definition UINT16_MAX : Z := 65535.
Definition INT16_MAX : Z := 32767.
Definition INT16_MIN : Z := -32768.
Definition UINT32_MAX : Z := 4294967295.

(** ** SymMBlock *)

Record SymMBlock := MkSymMBlock { mb_pid : Z; mb_alloc : Z }.
#[export] Instance SymMBlock_eq_dec : EqDecision SymMBlock.
Proof. solve_decision. Defined.

(** The private constructor, with its assertions and its narrowing stores. *)
Definition SymMBlock_make (pid alloc : Z) : option SymMBlock :=
  _ ← cassert (bool_decide (0 <= pid <= UINT16_MAX));
  _ ← cassert (bool_decide (INT16_MIN <= alloc <= INT16_MAX));
  Some (MkSymMBlock (wrapu 16 pid) (wraps 16 alloc)).

Definition SymMBlock_Null : SymMBlock := MkSymMBlock UINT16_MAX (-1).
Definition SymMBlock_Global (no : Z) : option SymMBlock :=
  _ ← cassert (bool_decide (no <= INT16_MAX)); SymMBlock_make UINT16_MAX no.
(** [-1-no] is unsigned and is converted back to [int]. *)
Definition SymMBlock_Stack (pid no : Z) : option SymMBlock :=
  _ ← cassert (bool_decide (no <= INT16_MAX)); SymMBlock_make pid (wraps 32 (wrapu 32 (-1 - no))).
Definition SymMBlock_Heap (pid no : Z) : option SymMBlock :=
  _ ← cassert (bool_decide (no <= INT16_MAX)); SymMBlock_make pid no.

Definition mb_eq (a o : SymMBlock) : bool :=
  bool_decide (mb_pid a = mb_pid o) && bool_decide (mb_alloc a = mb_alloc o).
Definition mb_le (a o : SymMBlock) : bool :=
  (mb_pid a <? mb_pid o) || ((mb_pid a =? mb_pid o) && (mb_alloc a <=? mb_alloc o)).
#[export] Instance mb_lt : LtB SymMBlock := fun a o => mb_le a o && negb (mb_eq a o).

Definition mb_is_null (a : SymMBlock) : bool :=
  bool_decide (mb_pid a = UINT16_MAX) && bool_decide (mb_alloc a = -1).
Definition mb_is_global (a : SymMBlock) : bool := bool_decide (mb_pid a = UINT16_MAX).
Definition mb_is_stack (a : SymMBlock) : bool := negb (mb_is_global a) && bool_decide (mb_alloc a < 0).
Definition mb_is_heap (a : SymMBlock) : bool := negb (mb_is_global a) && bool_decide (mb_alloc a >= 0).
Definition mb_get_no (a : SymMBlock) : Z := if decide (mb_alloc a < 0) then -1 - mb_alloc a else mb_alloc a.

Definition mb_to_string (pid_str : Z -> string) (a : SymMBlock) : option string :=
  if mb_is_null a then Some "Null()"
  else
    ret ← (if mb_is_global a then Some "Global("
           else
             ret ← (if mb_is_stack a then Some "Stack("
                    else _ ← cassert (mb_is_heap a); Some "Heap(");
             Some (ret +:+ pid_str (mb_pid a) +:+ ","));
    Some (ret +:+ pretty (mb_get_no a) +:+ ")").

(** ** SymAddr *)

Record SymAddr := MkSymAddr { sa_block : SymMBlock; sa_offset : Z }.
#[export] Instance SymAddr_eq_dec : EqDecision SymAddr.
Proof. solve_decision. Defined.

Definition SymAddr_null : SymAddr := MkSymAddr SymMBlock_Null 0.
Definition SymAddr_make (block : SymMBlock) (offset : Z) : option SymAddr :=
  _ ← cassert (negb (mb_is_null block));
  _ ← cassert (bool_decide (offset <= UINT32_MAX));
  Some (MkSymAddr block (wrapu 32 offset)).

Definition sa_eq (a o : SymAddr) : bool :=
  mb_eq (sa_block a) (sa_block o) && (sa_offset a =? sa_offset o).
Definition sa_le (a o : SymAddr) : bool :=
  ltb (sa_block a) (sa_block o)
  || (mb_eq (sa_block a) (sa_block o) && (sa_offset a <=? sa_offset o)).
#[export] Instance sa_lt : LtB SymAddr := fun a o => sa_le a o && negb (sa_eq a o).

Definition sa_incr (a : SymAddr) : SymAddr := MkSymAddr (sa_block a) (wrapu 32 (sa_offset a + 1)).
Definition sa_decr (a : SymAddr) : SymAddr := MkSymAddr (sa_block a) (wrapu 32 (sa_offset a - 1)).
Definition sa_add (a : SymAddr) (addend : Z) : SymAddr :=
  MkSymAddr (sa_block a) (wrapu 32 (sa_offset a + addend)).
Definition sa_sub (a : SymAddr) (addend : Z) : SymAddr :=
  MkSymAddr (sa_block a) (wrapu 32 (sa_offset a - addend)).
(** The difference is computed in [uint32_t] and widened to [intptr_t]. *)
Definition sa_diff (a other : SymAddr) : option Z :=
  _ ← cassert (mb_eq (sa_block a) (sa_block other));
  Some (wrapu 32 (sa_offset a - sa_offset other)).

Definition sa_to_string (pid_str : Z -> string) (a : SymAddr) : option string :=
  s ← mb_to_string pid_str (sa_block a);
  Some (if decide (sa_offset a = 0) then s else "(" +:+ s +:+ "+" +:+ pretty (sa_offset a) +:+ ")").

(** [std::hash<SymAddr>]. *)
Definition sa_hash (a : SymAddr) : Z :=
  Z.lor (Z.lor (mb_pid (sa_block a)) (Z.shiftl (wrapu 16 (mb_alloc (sa_block a))) 16))
        (Z.shiftl (sa_offset a) 32).

(** ** SymAddrSize *)

Record SymAddrSize := MkSymAddrSize { sas_addr : SymAddr; sas_size : Z }.
#[export] Instance SymAddrSize_eq_dec : EqDecision SymAddrSize.
Proof. solve_decision. Defined.

Definition SymAddrSize_make (addr : SymAddr) (size : Z) : option SymAddrSize :=
  _ ← cassert (bool_decide (size <= UINT16_MAX)); Some (MkSymAddrSize addr (wrapu 16 size)).

(** [subsetof] and [overlaps] compute in [uintptr_t]. *)
Definition sas_subsetof (a other : SymAddrSize) : bool :=
  if negb (mb_eq (sa_block (sas_addr a)) (sa_block (sas_addr other))) then false
  else
    let this_low := sa_offset (sas_addr a) in
    let this_high := wrapu 64 (this_low + sas_size a) in
    let other_low := sa_offset (sas_addr other) in
    let other_high := wrapu 64 (other_low + sas_size other) in
    (other_low <=? this_low) && (this_high <=? other_high).

Definition sas_overlaps (a other : SymAddrSize) : bool :=
  if negb (mb_eq (sa_block (sas_addr a)) (sa_block (sas_addr other))) then false
  else
    let this_low := sa_offset (sas_addr a) in
    let this_high := wrapu 64 (this_low + sas_size a) in
    let other_low := sa_offset (sas_addr other) in
    let other_high := wrapu 64 (other_low + sas_size other) in
    (other_low <? this_high) && (this_low <? other_high).

(** [includes] computes [addr.offset + size] in [uint32_t]. *)
Definition sas_includes (a : SymAddrSize) (sa : SymAddr) : bool :=
  mb_eq (sa_block (sas_addr a)) (sa_block sa) && (sa_offset (sas_addr a) <=? sa_offset sa)
  && (sa_offset sa <? wrapu 32 (sa_offset (sas_addr a) + sas_size a)).

Definition sas_eq (a o : SymAddrSize) : bool :=
  sa_eq (sas_addr a) (sas_addr o) && (sas_size a =? sas_size o).
#[export] Instance sas_lt : LtB SymAddrSize := fun a o =>
  ltb (sas_addr a) (sas_addr o) || (sa_eq (sas_addr a) (sas_addr o) && (sas_size a <? sas_size o)).

Definition sas_begin (a : SymAddrSize) : SymAddr := sas_addr a.
Definition sas_end (a : SymAddrSize) : SymAddr := sa_add (sas_addr a) (sas_size a).

(** [for(SymAddr b : ml)], with [fuel] iterations at most. *)
Fixpoint sas_iterate (fuel : nat) (it fin : SymAddr) : option (list SymAddr) :=
  match fuel with
  | O => None
  | S fuel =>
    if sa_eq it fin then Some []
    else rest ← sas_iterate fuel (sa_incr it) fin; Some (it :: rest)
  end.
Definition sas_bytes (a : SymAddrSize) : option (list SymAddr) :=
  sas_iterate (S (Z.to_nat (sas_size a))) (sas_begin a) (sas_end a).

Definition sas_to_string (pid_str : Z -> string) (a : SymAddrSize) : option string :=
  s ← sa_to_string pid_str (sas_addr a); Some (s +:+ "(" +:+ pretty (sas_size a) +:+ ")").

(** ** SymData: a byte range with a chunk of memory for it *)

Record SymData := MkSymData { sd_ref : SymAddrSize; sd_block : list Z }.

Definition sd_get (d : SymData) (addr : SymAddr) : option Z :=
  _ ← cassert (sas_includes (sd_ref d) addr);
  i ← sa_diff addr (sas_addr (sd_ref d)); zget (sd_block d) i.
Definition sd_set (d : SymData) (addr : SymAddr) (x : Z) : option SymData :=
  _ ← cassert (sas_includes (sd_ref d) addr);
  i ← sa_diff addr (sas_addr (sd_ref d));
  b ← zset (sd_block d) i x; Some (MkSymData (sd_ref d) b).

(** ** Well-formed values: the fields fit their types *)

Definition mb_wf (a : SymMBlock) : Prop :=
  0 <= mb_pid a <= UINT16_MAX /\ INT16_MIN <= mb_alloc a <= INT16_MAX.
Definition sa_wf (a : SymAddr) : Prop := mb_wf (sa_block a) /\ 0 <= sa_offset a <= UINT32_MAX.
Definition sas_wf (a : SymAddrSize) : Prop := sa_wf (sas_addr a) /\ 0 <= sas_size a <= UINT16_MAX.

(** The bytes a range stands for. *)
Definition byte_in (a : SymAddrSize) (x : SymAddr) : Prop :=
  sa_block x = sa_block (sas_addr a) /\
  sa_offset (sas_addr a) <= sa_offset x < sa_offset (sas_addr a) + sas_size a.

Ltac unfold_consts := unfold sas_wf, sa_wf, mb_wf, UINT16_MAX, INT16_MAX, INT16_MIN, UINT32_MAX in *.

Lemma mb_eq_spec a b : mb_eq a b = true <-> a = b.
Proof.
  unfold mb_eq. rewrite andb_true_iff, !bool_decide_eq_true. destruct a, b; simpl.
  split; [by intros [-> ->]|by intros [= -> ->]].
Qed.
Lemma sa_eq_spec a b : sa_eq a b = true <-> a = b.
Proof.
  unfold sa_eq. rewrite andb_true_iff, mb_eq_spec, Z.eqb_eq. destruct a, b; simpl.
  split; [by intros [-> ->]|by intros [= -> ->]].
Qed.
Lemma sas_eq_spec a b : sas_eq a b = true <-> a = b.
Proof.
  unfold sas_eq. rewrite andb_true_iff, sa_eq_spec, Z.eqb_eq. destruct a, b; simpl.
  split; [by intros [-> ->]|by intros [= -> ->]].
Qed.

(** The comparisons are lexicographic, which transports [LtOrder]. *)
Lemma ltb_order_via {A B} `{LtOrder B} `{LtB A} (f : A -> B) :
  (forall x y, f x = f y -> x = y) -> (forall x y : A, ltb x y = ltb (f x) (f y)) -> LtOrder A.
Proof.
  intros Hinj Hf. split; intros *; rewrite !Hf.
  - apply ltb_irrefl.
  - apply ltb_trans.
  - intros ??. by apply Hinj, ltb_total.
Qed.

Lemma mb_lt_pair a b : ltb a b = ltb (mb_pid a, mb_alloc a) (mb_pid b, mb_alloc b).
Proof.
  apply eq_true_iff_eq. unfold ltb, mb_lt, mb_le, mb_eq, prod_ltb, ltb, Z_ltb. simpl.
  repeat case_bool_decide; simpl; rewrite ?andb_true_r, ?andb_false_r; lia.
Qed.
#[export] Instance mb_lt_order : LtOrder SymMBlock.
Proof. refine (ltb_order_via (fun a => (mb_pid a, mb_alloc a)) _ mb_lt_pair). by intros [] [] [= -> ->]. Qed.

Lemma sa_lt_pair a b : ltb a b = ltb (sa_block a, sa_offset a) (sa_block b, sa_offset b).
Proof.
  apply eq_true_iff_eq. unfold ltb at 1, sa_lt, sa_le, sa_eq, ltb at 2, prod_ltb. simpl.
  destruct (mb_eq _ _) eqn:E.
  - apply mb_eq_spec in E as ->. rewrite ltb_irrefl. unfold ltb, Z_ltb. lia.
  - destruct (ltb (sa_block b) (sa_block a)) eqn:E1; simpl.
    + by rewrite (ltb_asym _ _ E1).
    + destruct (ltb (sa_block a) (sa_block b)) eqn:E2; [done|].
      by rewrite (ltb_total _ _ E2 E1), (proj2 (mb_eq_spec _ _) eq_refl) in E.
Qed.
#[export] Instance sa_lt_order : LtOrder SymAddr.
Proof. refine (ltb_order_via (fun a => (sa_block a, sa_offset a)) _ sa_lt_pair). by intros [] [] [= -> ->]. Qed.

Lemma sas_lt_pair a b : ltb a b = ltb (sas_addr a, sas_size a) (sas_addr b, sas_size b).
Proof.
  unfold ltb at 1, sas_lt, ltb at 2, prod_ltb. simpl.
  destruct (sa_eq _ _) eqn:E.
  - apply sa_eq_spec in E as ->. by rewrite ltb_irrefl.
  - simpl. destruct (ltb (sas_addr b) (sas_addr a)) eqn:E1; [done|].
    destruct (ltb (sas_addr a) (sas_addr b)) eqn:E2; [done|].
    by rewrite (ltb_total _ _ E2 E1), (proj2 (sa_eq_spec _ _) eq_refl) in E.
Qed.
#[export] Instance sas_lt_order : LtOrder SymAddrSize.
Proof. refine (ltb_order_via (fun a => (sas_addr a, sas_size a)) _ sas_lt_pair). by intros [] [] [= -> ->]. Qed.

(** ** Packing *)

Lemma mb_constructors_spec pid no :
  0 <= pid < UINT16_MAX -> 0 <= no <= INT16_MAX ->
  exists g s h, SymMBlock_Global no = Some g /\ SymMBlock_Stack pid no = Some s /\
    SymMBlock_Heap pid no = Some h /\ mb_wf g /\ mb_wf s /\ mb_wf h /\
    mb_is_global g = true /\ mb_is_stack s = true /\ mb_is_heap h = true /\
    mb_is_null g = false /\ mb_is_null s = false /\ mb_is_null h = false /\
    mb_get_no g = no /\ mb_get_no s = no /\ mb_get_no h = no /\
    mb_pid s = pid /\ mb_pid h = pid.
Proof.
  intros Hp Hn. exists (MkSymMBlock UINT16_MAX no), (MkSymMBlock pid (-1 - no)), (MkSymMBlock pid no).
  unfold SymMBlock_Global, SymMBlock_Stack, SymMBlock_Heap, SymMBlock_make. unfold_consts.
  assert (Hs : wraps 32 (wrapu 32 (-1 - no)) = -1 - no).
  { unfold wraps, wrapu. rewrite Zplus_mod_idemp_l. rewrite Z.mod_small; [lia|].
    change (2 ^ 32) with 4294967296. change (2 ^ (32 - 1)) with 2147483648. lia. }
  rewrite Hs. rewrite !bool_decide_true by lia. simpl.
  rewrite !wrapu_id by (change (2 ^ 16) with 65536; lia).
  rewrite !wraps_id by (change (2 ^ (16 - 1)) with 32768; lia).
  unfold mb_is_global, mb_is_stack, mb_is_heap, mb_is_null, mb_get_no, mb_is_global, UINT16_MAX. simpl.
  split_and!; try done; try lia;
    repeat (case_bool_decide || case_decide); simpl; (done || lia).
Qed.

Lemma testbit_high x n i : 0 <= x < 2 ^ n -> n <= i -> Z.testbit x i = false.
Proof.
  intros Hx Hi. destruct (decide (x = 0)) as [->|]; [apply Z.bits_0|].
  apply Z.bits_above_log2; [lia|]. enough (Z.log2 x < n) by lia.
  apply Z.log2_lt_pow2; lia.
Qed.

(** Three fields packed at shifts 0, [n] and [m] can be read back. *)
Lemma pack_fields n m x y z :
  0 <= n <= m -> 0 <= x < 2 ^ n -> 0 <= y < 2 ^ (m - n) -> 0 <= z ->
  let p := Z.lor (Z.lor x (Z.shiftl y n)) (Z.shiftl z m) in
  Z.land p (Z.ones n) = x /\ Z.land (Z.shiftr p n) (Z.ones (m - n)) = y /\ Z.shiftr p m = z.
Proof.
  intros Hnm Hx Hy Hz p.
  assert (Hb : forall i, 0 <= i -> Z.testbit p i =
    if i <? n then Z.testbit x i else if i <? m then Z.testbit y (i - n) else Z.testbit z (i - m)).
  { intros i Hi. unfold p. rewrite !Z.lor_spec, !Z.shiftl_spec by done.
    destruct (Z.ltb_spec i n).
    - by rewrite (Z.testbit_neg_r y), (Z.testbit_neg_r z), !orb_false_r by lia.
    - rewrite (testbit_high x n) by lia. simpl. destruct (Z.ltb_spec i m).
      + by rewrite (Z.testbit_neg_r z), orb_false_r by lia.
      + by rewrite (testbit_high y (m - n)) by lia. }
  split_and!; apply Z.bits_inj'; intros i Hi.
  - rewrite Z.land_spec, Z.testbit_ones_nonneg, Hb by lia. destruct (Z.ltb_spec i n).
    + apply andb_true_r.
    + by rewrite andb_false_r, (testbit_high x n) by lia.
  - rewrite Z.land_spec, Z.testbit_ones_nonneg, Z.shiftr_spec, Hb by lia.
    destruct (Z.ltb_spec (i + n) n); [lia|]. destruct (Z.ltb_spec i (m - n)).
    + destruct (Z.ltb_spec (i + n) m); [|lia]. rewrite andb_true_r. f_equal. lia.
    + by rewrite andb_false_r, (testbit_high y (m - n)) by lia.
  - rewrite Z.shiftr_spec, Hb by lia. destruct (Z.ltb_spec (i + m) n); [lia|].
    destruct (Z.ltb_spec (i + m) m); [lia|]. f_equal. lia.
Qed.

Lemma wrapu16_inj x y :
  INT16_MIN <= x <= INT16_MAX -> INT16_MIN <= y <= INT16_MAX -> wrapu 16 x = wrapu 16 y -> x = y.
Proof.
  unfold_consts. unfold wrapu. change (2 ^ 16) with 65536. intros Hx Hy Heq.
  pose proof (Z.div_mod x 65536). pose proof (Z.div_mod y 65536).
  assert (x / 65536 = 0 \/ x / 65536 = -1) by (pose proof (Z.mod_pos_bound x 65536); lia).
  assert (y / 65536 = 0 \/ y / 65536 = -1) by (pose proof (Z.mod_pos_bound y 65536); lia).
  lia.
Qed.

(** ** What the classes promise *)

(** The 64-bit hash of an address is injective: it packs the process, the
    allocation number and the offset without overlap, for every well-formed
    address (negative allocation numbers included), and it fits 64 bits. *)
Theorem sa_hash_injective a b :
  sa_wf a -> sa_wf b -> (sa_hash a = sa_hash b -> a = b) /\ 0 <= sa_hash a < 2 ^ 64.
Proof.
  assert (Hpack : forall a, sa_wf a ->
    Z.land (sa_hash a) (Z.ones 16) = mb_pid (sa_block a) /\
    Z.land (Z.shiftr (sa_hash a) 16) (Z.ones (32 - 16)) = wrapu 16 (mb_alloc (sa_block a)) /\
    Z.shiftr (sa_hash a) 32 = sa_offset a).
  { intros [[pid al] off] [[Hp Ha] Ho]. simpl in *. unfold_consts.
    apply (pack_fields 16 32); [lia|lia| |lia]. apply wrapu_range. lia. }
  intros Ha Hb. destruct (Hpack a Ha) as (Hp1 & Hal1 & Ho1), (Hpack b Hb) as (Hp2 & Hal2 & Ho2).
  split.
  - intros Heq. rewrite Heq in Hp1, Hal1, Ho1. destruct a as [[p1 al1] o1], b as [[p2 al2] o2].
    simpl in *. destruct Ha as [[_ Ha] _], Hb as [[_ Hb] _]. simpl in *.
    assert (al1 = al2) as -> by (apply wrapu16_inj; congruence). congruence.
  - destruct Ha as [[Hp _] Ho]. unfold_consts.
    assert (0 <= sa_hash a).
    { unfold sa_hash. rewrite !Z.lor_nonneg, !Z.shiftl_nonneg.
      pose proof (wrapu_range 16 (mb_alloc (sa_block a))). lia. }
    split; [done|]. rewrite Z.shiftr_div_pow2 in Ho1 by lia.
    assert (sa_hash a / 2 ^ 32 < 2 ^ 32) as Hlt by (rewrite Ho1; change (2 ^ 32) with 4294967296; lia).
    change (2 ^ 64) with (2 ^ 32 * 2 ^ 32).
    pose proof (Z.mul_succ_div_gt (sa_hash a) (2 ^ 32)). nia.
Qed.

Lemma wrapu64_sum a : sas_wf a ->
  wrapu 64 (sa_offset (sas_addr a) + sas_size a) = sa_offset (sas_addr a) + sas_size a.
Proof.
  intros Ha. unfold_consts. apply wrapu_id. change (2 ^ 64) with 18446744073709551616. lia.
Qed.

Lemma sas_overlaps_spec a b : sas_wf a -> sas_wf b -> 0 < sas_size a -> 0 < sas_size b ->
  sas_overlaps a b = true <-> exists x, byte_in a x /\ byte_in b x.
Proof.
  intros Ha Hb Hsa Hsb. unfold sas_overlaps. rewrite !wrapu64_sum by done.
  destruct (mb_eq _ _) eqn:E; simpl.
  - apply mb_eq_spec in E. split.
    + intros [H1 H2]%andb_true_iff. unfold byte_in.
      exists (MkSymAddr (sa_block (sas_addr a)) (Z.max (sa_offset (sas_addr a)) (sa_offset (sas_addr b)))).
      simpl. split; split; (done || lia).
    + intros (x & [_ H1] & [_ H2]). lia.
  - split; [done|]. intros (x & [H1 _] & [H2 _]).
    rewrite <-H1, <-H2, (proj2 (mb_eq_spec _ _) eq_refl) in E. done.
Qed.

Lemma sas_overlaps_sym a b : sas_overlaps a b = sas_overlaps b a.
Proof.
  unfold sas_overlaps. assert (mb_eq (sa_block (sas_addr a)) (sa_block (sas_addr b))
    = mb_eq (sa_block (sas_addr b)) (sa_block (sas_addr a))) as ->.
  { apply eq_true_iff_eq. rewrite !mb_eq_spec. by split. }
  destruct mb_eq; [|done]. simpl. apply andb_comm.
Qed.

(** On non-empty well-formed ranges, [overlaps] holds iff the ranges share a
    byte, [subsetof] iff every byte of one is in the other (even at the top of
    the offset range), and both agree with each other: a subset overlaps. *)
Theorem byte_ranges_correct a b :
  sas_wf a -> sas_wf b -> 0 < sas_size a -> 0 < sas_size b ->
  (sas_overlaps a b = true <-> exists x, byte_in a x /\ byte_in b x) /\
  (sas_subsetof a b = true <-> forall x, byte_in a x -> byte_in b x) /\
  sas_overlaps a b = sas_overlaps b a /\
  (sas_subsetof a b = true -> sas_overlaps a b = true).
Proof.
  intros Ha Hb Hsa Hsb.
  assert (Hsub : sas_subsetof a b = true <-> forall x, byte_in a x -> byte_in b x).
  { unfold sas_subsetof. rewrite !wrapu64_sum by done. destruct (mb_eq _ _) eqn:E; simpl.
    - apply mb_eq_spec in E. split.
      + intros [H1 H2]%andb_true_iff x [Hx Ho]. split; [congruence|lia].
      + intros Hall.
        destruct (Hall (sas_addr a)) as [_ H1]; [split; [done|lia]|].
        destruct (Hall (MkSymAddr (sa_block (sas_addr a)) (sa_offset (sas_addr a) + sas_size a - 1)))
          as [_ H2]; [split; simpl; (done || lia)|]. simpl in H2. lia.
    - split; [done|]. intros Hall. destruct (Hall (sas_addr a)) as [H1 _]; [split; [done|lia]|].
      rewrite H1, (proj2 (mb_eq_spec _ _) eq_refl) in E. done. }
  split_and!; [by apply sas_overlaps_spec|done|apply sas_overlaps_sym|].
  rewrite Hsub, sas_overlaps_spec by done. intros Hall. exists (sas_addr a).
  assert (byte_in a (sas_addr a)) by (split; [done|lia]). auto.
Qed.

Lemma byte_ranges_correct_witness :
  let m := MkSymMBlock 1 3 in
  let a := MkSymAddrSize (MkSymAddr m 8) 4 in let b := MkSymAddrSize (MkSymAddr m 4) 8 in
  (sas_overlaps a b = true <-> exists x, byte_in a x /\ byte_in b x) /\
  (sas_subsetof a b = true <-> forall x, byte_in a x -> byte_in b x) /\
  sas_overlaps a b = sas_overlaps b a /\
  (sas_subsetof a b = true -> sas_overlaps a b = true).
Proof.
  apply (byte_ranges_correct (MkSymAddrSize (MkSymAddr (MkSymMBlock 1 3) 8) 4)
           (MkSymAddrSize (MkSymAddr (MkSymMBlock 1 3) 4) 8)); unfold_consts; simpl; lia.
Defined.

(** C39. Reading a byte through [includes] and [SymData::operator\[\]]: as long
    as the range does not reach offset 2^32, [includes] is byte membership and
    every byte of the range is within the data block; a range that ends exactly
    at 2^32 is accepted by the constructor, but [includes] wraps and holds for
    none of its bytes, although [subsetof] and [overlaps] still see them. *)
Theorem includes_wraps a x :
  sas_wf a -> sa_wf x ->
  (sa_offset (sas_addr a) + sas_size a < 2 ^ 32 ->
     (sas_includes a x = true <-> byte_in a x) /\
     (forall block, byte_in a x -> Z.of_nat (length block) = sas_size a ->
        exists v, sd_get (MkSymData a block) x = Some v /\
                  zget block (sa_offset x - sa_offset (sas_addr a)) = Some v)) /\
  (sa_offset (sas_addr a) + sas_size a = 2 ^ 32 -> sas_includes a x = false).
Proof.
  intros Ha Hx.
  assert (Hin : sa_offset (sas_addr a) + sas_size a < 2 ^ 32 -> sas_includes a x = true <-> byte_in a x).
  { intros Hlt. unfold sas_includes, byte_in. unfold_consts. rewrite wrapu_id by lia.
    rewrite !andb_true_iff, mb_eq_spec. split; [intros [[-> ?] ?]; split; [done|lia]|].
    intros [-> ?]. split; [split; [done|]|]; lia. }
  split.
  - intros Hlt. split; [auto|]. intros block Hbyte Hlen. unfold sd_get. simpl.
    rewrite (proj2 (Hin Hlt) Hbyte). simpl. destruct Hbyte as [Hb Ho]. unfold sa_diff.
    rewrite Hb, (proj2 (mb_eq_spec _ _) eq_refl). simpl.
    unfold_consts. change (2 ^ 32) with 4294967296 in *.
    rewrite wrapu_id by (change (2 ^ 32) with 4294967296; lia).
    unfold zget. rewrite decide_True by lia.
    destruct (lookup_lt_exists block (Z.to_nat (sa_offset x - sa_offset (sas_addr a)))) as [v Hv]; [lia|].
    by exists v.
  - intros Heq. unfold sas_includes. rewrite Heq. unfold wrapu. rewrite Z.mod_same by done.
    destruct Hx as [_ Hx]. apply andb_false_iff. right. lia.
Qed.

Lemma sa_hash_injective_witness :
  let a := MkSymAddr (MkSymMBlock 1 (-2)) 8 in
  (sa_hash a = sa_hash a -> a = a) /\ 0 <= sa_hash a < 2 ^ 64.
Proof.
  apply (sa_hash_injective (MkSymAddr (MkSymMBlock 1 (-2)) 8) (MkSymAddr (MkSymMBlock 1 (-2)) 8));
    unfold_consts; simpl; lia.
Defined.

Lemma includes_wraps_witness :
  let a := MkSymAddrSize (MkSymAddr (MkSymMBlock 1 3) 4294967292) 4 in
  let x := MkSymAddr (MkSymMBlock 1 3) 4294967293 in
  (sa_offset (sas_addr a) + sas_size a < 2 ^ 32 ->
     (sas_includes a x = true <-> byte_in a x) /\
     (forall block, byte_in a x -> Z.of_nat (length block) = sas_size a ->
        exists v, sd_get (MkSymData a block) x = Some v /\
                  zget block (sa_offset x - sa_offset (sas_addr a)) = Some v)) /\
  (sa_offset (sas_addr a) + sas_size a = 2 ^ 32 -> sas_includes a x = false).
Proof.
  apply (includes_wraps (MkSymAddrSize (MkSymAddr (MkSymMBlock 1 3) 4294967292) 4)
           (MkSymAddr (MkSymMBlock 1 3) 4294967293)); unfold_consts; simpl; lia.
Defined.

(** The byte loop visits every byte of a range once, in order. *)
Lemma sas_iterate_spec n : forall it fin,
  sa_wf it -> sa_block fin = sa_block it -> sa_offset fin = wrapu 32 (sa_offset it + Z.of_nat n) ->
  Z.of_nat n < 2 ^ 32 ->
  sas_iterate (S n) it fin = Some (map (fun i => sa_add it (Z.of_nat i)) (seq 0 n)).
Proof.
  induction n as [|n IH]; intros it fin Hit Hb Ho Hn.
  - simpl. assert (fin = it) as ->.
    { destruct fin, it; simpl in *. rewrite Ho, Z.add_0_r, wrapu_id; [congruence|].
      destruct Hit as [_ Hit]. unfold_consts. simpl in *. lia. }
    by rewrite (proj2 (sa_eq_spec _ _) eq_refl).
  - change (sas_iterate (S (S n)) it fin) with (if sa_eq it fin then Some [] else
      rest ← sas_iterate (S n) (sa_incr it) fin; Some (it :: rest)).
    destruct (sa_eq it fin) eqn:E.
    { apply sa_eq_spec in E. subst. exfalso. destruct Hit as [_ Hit]. unfold_consts.
      unfold wrapu in Ho. change (2 ^ 32) with 4294967296 in *.
      pose proof (Z.div_mod (sa_offset fin + Z.of_nat (S n)) 4294967296).
      assert ((sa_offset fin + Z.of_nat (S n)) / 4294967296 < 2) by (apply Z.div_lt_upper_bound; lia).
      assert (0 <= (sa_offset fin + Z.of_nat (S n)) / 4294967296) by (apply Z.div_pos; lia).
      assert ((sa_offset fin + Z.of_nat (S n)) / 4294967296 = 0 \/
              (sa_offset fin + Z.of_nat (S n)) / 4294967296 = 1) as [H'|H'] by lia;
        rewrite H' in *; lia. }
    rewrite IH.
    + cbn [mbind option_bind seq map]. f_equal. f_equal.
      * unfold sa_add. rewrite Z.add_0_r. destruct it; simpl. f_equal.
        symmetry. apply wrapu_id. destruct Hit as [_ Hit]. unfold_consts. simpl in *. lia.
      * rewrite <-seq_shift, map_map. apply map_ext. intros i.
        unfold sa_add, sa_incr. simpl. f_equal. unfold wrapu.
        rewrite Zplus_mod_idemp_l. f_equal. lia.
    + destruct Hit as [? Hit]. split; [done|]. unfold_consts. simpl.
      pose proof (wrapu_range 32 (sa_offset it + 1)). change (2 ^ 32) with 4294967296 in *. lia.
    + done.
    + simpl. rewrite Ho. unfold wrapu. rewrite Zplus_mod_idemp_l. f_equal. lia.
    + lia.
Qed.

Lemma sas_bytes_spec a : sas_wf a ->
  sas_bytes a = Some (map (fun i => sa_add (sas_addr a) (Z.of_nat i)) (seq 0 (Z.to_nat (sas_size a)))).
Proof.
  intros [Ha Hs]. unfold_consts. apply sas_iterate_spec; [done|done| |lia].
  simpl. f_equal. lia.
Qed.
