(* ===== verification/ByteOps.v ===== *)
(** * Byte-level integer operations (src/src/AwaitCond.cpp, RMWAction.cpp)

    Await conditions and read-modify-write actions work on raw memory: they
    compare and combine integers of any size byte by byte, in the byte order of
    the host. The loops are modelled as written; the theorems show that they
    are the comparison, addition, subtraction, bitwise operations, maxima and
    minima of the integers the bytes encode ([val]). *)

From S2P Require Import Prelude.

Local Open Scope Z_scope.

(** [llvm::sys::IsBigEndianHost] is a constant of LLVM. *)
Section byte_ops.
Context (IsBigEndianHost : bool).

(** ** Operations *)

(** [std::memcmp]: the sign of the first difference. *)
Fixpoint memcmp_loop (n i : nat) (lhs rhs : list Z) : option Z :=
  match n with
  | O => Some 0
  | S n =>
    x ← lhs !! i; y ← rhs !! i;
    if decide (x > y) then Some 1 else if decide (x < y) then Some (-1)
    else memcmp_loop n (S i) lhs rhs
  end.
Definition memcmp (lhs rhs : list Z) (count : nat) : option Z := memcmp_loop count 0 lhs rhs.

(** [while(count--) ...] *)
Fixpoint apcmp_loop (count : nat) (lhs rhs : list Z) : option Z :=
  match count with
  | O => Some 0
  | S count =>
    x ← lhs !! count; y ← rhs !! count;
    if decide (x > y) then Some 1 else if decide (x < y) then Some (-1)
    else apcmp_loop count lhs rhs
  end.

Definition apcmp (lhs rhs : list Z) (count : nat) : option Z :=
  if IsBigEndianHost then memcmp lhs rhs count else apcmp_loop count lhs rhs.

(** The sign test of [sapcmp]: a [char] shifted right by [CHAR_BIT-1], as a [bool]. *)
Definition sign_of_char (x : Z) : bool := negb (Z.shiftr (wraps 8 x) 7 =? 0).

Definition sapcmp (lhs rhs : list Z) (count : nat) : option Z :=
  if decide (count = 0%nat) then Some 0
  else
    let big_byte_index := if IsBigEndianHost then 0%nat else (count - 1)%nat in
    x ← lhs !! big_byte_index; y ← rhs !! big_byte_index;
    let lsign := sign_of_char x in
    let rsign := sign_of_char y in
    if negb (eqb lsign rsign) then Some (if lsign then -1 else 1)
    else apcmp lhs rhs count.

(** *** AwaitCond *)

Inductive AwaitOp := UGT | EQ | UGE | ULT | NE | ULE | SGT | SGE | SLT | SLE.
#[local] Instance AwaitOp_eq_dec : EqDecision AwaitOp.
Proof. solve_decision. Defined.

(** The bit fields of the enumerators. *)
Definition op_code (op : AwaitOp) : Z :=
  match op with
  | UGT => 1 | EQ => 2 | UGE => 3 | ULT => 4 | NE => 5 | ULE => 6
  | SGT => 9 | SGE => 11 | SLT => 12 | SLE => 14
  end.

Definition satisfied_by (op : AwaitOp) (operand data : list Z) (size : nat) : option bool :=
  cmp ← (if Z.land (Z.shiftr (op_code op) 3) 1 =? 1 then sapcmp data operand size
         else apcmp data operand size);
  let shift := if decide (cmp < 0) then 2 else if decide (cmp = 0) then 1 else 0 in
  Some (Z.land (Z.shiftr (op_code op) shift) 1 =? 1).

Definition await_names : list (option string) :=
  [None; Some "UGT"; Some "EQ"; Some "UGE"; Some "ULT"; Some "NE"; Some "ULE"; None;
   None; Some "SGT"; None; Some "SGE"; Some "SLT"; None; Some "SLE"].
Definition await_name (op : AwaitOp) : option (option string) := await_names !! Z.to_nat (op_code op).

(** *** RmwAction *)

Inductive RmwKind := XCHG | ADD | SUB | AND | NAND | OR | XOR | MAX | MIN | UMAX | UMIN.
#[export] Instance RmwKind_eq_dec : EqDecision RmwKind.
Proof. solve_decision. Defined.

Definition kind_code (k : RmwKind) : nat :=
  match k with
  | XCHG => 1 | ADD => 2 | SUB => 3 | AND => 4 | NAND => 5 | OR => 6 | XOR => 7 | MAX => 8
  | MIN => 9 | UMAX => 10 | UMIN => 11
  end.
Definition rmw_names : list (option string) :=
  [None; Some "XCHG"; Some "ADD"; Some "SUB"; Some "AND"; Some "NAND"; Some "OR"; Some "XOR";
   Some "MAX"; Some "MIN"; Some "UMAX"; Some "UMIN"].
Definition rmw_name (k : RmwKind) : option (option string) := rmw_names !! kind_code k.

(** The position [i*multiplier] relative to [shift]. *)
Definition byte_index (size i : nat) : nat :=
  if IsBigEndianHost then (size - 1 - i)%nat else i.

(** The loop of [ADD] and [SUB]; [carry] is an [int8_t]. *)
Definition addsub_body (add : bool) (size : nat) (inp argp : list Z) (i : nat)
    (st : list Z * Z) : option (list Z * Z) :=
  let '(outp, carry) := st in
  x ← inp !! byte_index size i; y ← argp !! byte_index size i;
  let sum := wrapu 16 ((if add then x + y else x - y) + carry) in
  outp ← vset outp (byte_index size i) (wrapu 8 sum);
  Some (outp, wraps 8 (Z.shiftr sum 8)).

Definition bitwise_byte (kind : RmwKind) (lhs rhs : Z) : option Z :=
  match kind with
  | AND => Some (wrapu 8 (Z.land lhs rhs))
  | NAND => Some (wrapu 8 (Z.lnot (Z.land lhs rhs)))
  | OR => Some (wrapu 8 (Z.lor lhs rhs))
  | XOR => Some (wrapu 8 (Z.lxor lhs rhs))
  | _ => None
  end.

(** [memcpy(outp, res, size)]. *)
Definition memcpy (outp res : list Z) (size : nat) : option (list Z) :=
  for_range size 0 (fun i outp => x ← res !! i; vset outp i x) outp.

Definition apply_to (kind : RmwKind) (operand : list Z) (dst : list Z) (size : nat) (data : list Z)
    : option (list Z) :=
  match kind with
  | ADD | SUB =>
    st ← for_range size 0 (addsub_body (bool_decide (kind = ADD)) size data operand) (dst, 0);
    Some st.1
  | AND | NAND | OR | XOR =>
    for_range size 0 (fun i outp =>
      lhs ← data !! i; rhs ← operand !! i;
      res ← bitwise_byte kind lhs rhs; vset outp i res) dst
  | MAX | MIN | UMAX | UMIN =>
    let is_signed := match kind with MAX | MIN => true | _ => false end in
    out ← (if is_signed then sapcmp else apcmp) data operand size;
    let take_rhs := bool_decide (out > 0) in
    let take_rhs := match kind with MAX | UMAX => negb take_rhs | _ => take_rhs end in
    memcpy dst (if take_rhs then operand else data) size
  | XCHG => memcpy dst operand size
  end.

(** ** The integers bytes encode *)

Definition bytes (l : list Z) : Prop := Forall (fun b => 0 <= b < 256) l.

Fixpoint lval (l : list Z) : Z :=
  match l with [] => 0 | b :: l => b + 256 * lval l end.
Definition val (l : list Z) : Z := lval (if IsBigEndianHost then reverse l else l).
(** Two's complement. *)
Definition sval (l : list Z) : Z :=
  let n := Z.of_nat (length l) in
  if decide (val l < 2 ^ (8 * n - 1)) then val l else val l - 2 ^ (8 * n).

(** ** Reference semantics on integers *)

Definition await_holds (op : AwaitOp) (data operand : list Z) : Prop :=
  match op with
  | UGT => val data > val operand | UGE => val data >= val operand
  | ULT => val data < val operand | ULE => val data <= val operand
  | SGT => sval data > sval operand | SGE => sval data >= sval operand
  | SLT => sval data < sval operand | SLE => sval data <= sval operand
  | EQ => val data = val operand | NE => val data <> val operand
  end.

(** Signed reading of an [n]-byte integer. *)
Definition to_signed (n : nat) (x : Z) : Z :=
  if decide (x < 2 ^ (8 * Z.of_nat n - 1)) then x else x - 2 ^ (8 * Z.of_nat n).

Definition rmw_result (kind : RmwKind) (n : nat) (x a : Z) : Z :=
  let m := 256 ^ Z.of_nat n in
  match kind with
  | XCHG => a
  | ADD => (x + a) mod m
  | SUB => (x - a) mod m
  | AND => Z.land x a
  | NAND => m - 1 - Z.land x a
  | OR => Z.lor x a
  | XOR => Z.lxor x a
  | UMAX => Z.max x a
  | UMIN => Z.min x a
  | MAX => if decide (to_signed n x > to_signed n a) then x else a
  | MIN => if decide (to_signed n x > to_signed n a) then a else x
  end.

(** ** Facts on encodings *)

Lemma lval_app l k : lval (l ++ k) = lval l + 256 ^ Z.of_nat (length l) * lval k.
Proof.
  induction l as [|b l IH]; [simpl; lia|]. cbn [app lval length]. rewrite IH.
  rewrite Nat2Z.inj_succ, Z.pow_succ_r by lia. lia.
Qed.

Lemma lval_range l : bytes l -> 0 <= lval l < 256 ^ Z.of_nat (length l).
Proof.
  induction 1 as [|b l Hb Hl IH]; [simpl; lia|]. cbn [lval length].
  rewrite Nat2Z.inj_succ, Z.pow_succ_r by lia. lia.
Qed.

Lemma lval_inj l k : bytes l -> bytes k -> length l = length k -> lval l = lval k -> l = k.
Proof.
  intros Hl. revert k. induction Hl as [|b l Hb Hl IH]; intros [|c k] Hk Hlen; try done.
  simpl in *. apply Forall_cons in Hk as [Hc Hk]. intros Heq.
  assert (b = c) as -> by lia. f_equal. apply IH; [done|lia|lia].
Qed.

Lemma bytes_reverse l : bytes l -> bytes (reverse l).
Proof. apply Forall_reverse. Qed.

Lemma bytes_take n l : bytes l -> bytes (take n l).
Proof. apply Forall_take. Qed.

Lemma bytes_lookup l i x : bytes l -> l !! i = Some x -> 0 <= x < 256.
Proof. intros Hl. by apply (Forall_lookup_1 _ _ _ _ Hl). Qed.

Lemma val_range l : bytes l -> 0 <= val l < 256 ^ Z.of_nat (length l).
Proof.
  intros Hl. unfold val. destruct IsBigEndianHost; [|by apply lval_range].
  rewrite <-(length_reverse l). by apply lval_range, bytes_reverse.
Qed.

Lemma val_inj l k : bytes l -> bytes k -> length l = length k -> val l = val k -> l = k.
Proof.
  intros Hl Hk Hlen. unfold val. destruct IsBigEndianHost; [|by apply lval_inj].
  intros Heq. apply (inj reverse). apply lval_inj; auto using bytes_reverse.
  by rewrite !length_reverse.
Qed.

Lemma pow256 n : 256 ^ Z.of_nat n = 2 ^ (8 * Z.of_nat n).
Proof. change 256 with (2 ^ 8). rewrite <-Z.pow_mul_r by lia. f_equal. Qed.

Lemma sval_to_signed l : sval l = to_signed (length l) (val l).
Proof. done. Qed.

Lemma half_range n : (0 < n)%nat -> 2 ^ (8 * Z.of_nat n) = 2 * 2 ^ (8 * Z.of_nat n - 1).
Proof. intros. rewrite <-Z.pow_succ_r by lia. f_equal. lia. Qed.

(** ** The comparison loops *)

(** The most significant differing digit decides. *)
Lemma sgn_digit p a b x y :
  0 <= a < p -> 0 <= b < p ->
  Z.sgn (a + p * x - (b + p * y)) =
    if decide (x > y) then 1 else if decide (x < y) then -1 else Z.sgn (a - b).
Proof.
  intros Ha Hb. destruct (decide (x > y)); [|destruct (decide (x < y))].
  - apply Z.sgn_pos. nia.
  - apply Z.sgn_neg. nia.
  - assert (x = y) as -> by lia. f_equal. lia.
Qed.

Lemma apcmp_loop_spec l r c : bytes l -> bytes r -> (c <= length l)%nat -> length l = length r ->
  apcmp_loop c l r = Some (Z.sgn (lval (take c l) - lval (take c r))).
Proof.
  intros Hl Hr Hc Hlen. induction c as [|c IH]; [done|]. simpl.
  destruct (lookup_lt_exists l c) as [x Hx]; [lia|].
  destruct (lookup_lt_exists r c) as [y Hy]; [lia|].
  rewrite Hx, Hy, (take_snoc l c x), (take_snoc r c y), !lval_app by done. simpl.
  pose proof (lval_range _ (bytes_take c l Hl)). pose proof (lval_range _ (bytes_take c r Hr)).
  rewrite !length_take_le in * by lia. rewrite !Z.mul_0_r, !Z.add_0_r, sgn_digit by done.
  repeat case_decide; (done || (apply IH; lia)).
Qed.

Lemma memcmp_loop_spec l r n : forall i, bytes l -> bytes r -> length l = (i + n)%nat ->
  length l = length r ->
  memcmp_loop n i l r = Some (Z.sgn (lval (reverse (drop i l)) - lval (reverse (drop i r)))).
Proof.
  induction n as [|n IH]; intros i Hl Hr Hn Hlen.
  { rewrite !drop_ge by lia. done. }
  simpl. destruct (lookup_lt_exists l i) as [x Hx]; [lia|].
  destruct (lookup_lt_exists r i) as [y Hy]; [lia|].
  rewrite Hx, Hy, (drop_cons l i x), (drop_cons r i y), !reverse_cons, !lval_app by done. simpl.
  pose proof (lval_range _ (bytes_reverse _ (Forall_drop _ (S i) l Hl))).
  pose proof (lval_range _ (bytes_reverse _ (Forall_drop _ (S i) r Hr))).
  rewrite !length_reverse, !length_drop, <-Hlen in *.
  rewrite !Z.mul_0_r, !Z.add_0_r, sgn_digit by done.
  repeat case_decide; (done || (apply IH; (done || lia))).
Qed.

Lemma apcmp_spec l r : bytes l -> bytes r -> length l = length r ->
  apcmp l r (length l) = Some (Z.sgn (val l - val r)).
Proof.
  intros Hl Hr Hlen. unfold apcmp, val. destruct IsBigEndianHost.
  - unfold memcmp. by rewrite memcmp_loop_spec.
  - rewrite apcmp_loop_spec by done. by rewrite take_ge, Hlen, take_ge.
Qed.

(** The byte that carries the sign is the most significant one. *)
Lemma val_top l : l <> [] -> bytes l ->
  exists x lo, l !! (if IsBigEndianHost then 0%nat else (length l - 1)%nat) = Some x /\
    0 <= x < 256 /\ 0 <= lo < 256 ^ Z.of_nat (length l - 1) /\
    val l = lo + 256 ^ Z.of_nat (length l - 1) * x.
Proof.
  intros Hne Hl. unfold val. destruct IsBigEndianHost.
  - destruct l as [|x l]; [done|]. apply Forall_cons in Hl as [Hx Hl].
    exists x, (lval (reverse l)). rewrite reverse_cons, lval_app. simpl.
    pose proof (lval_range _ (bytes_reverse _ Hl)). rewrite length_reverse in *.
    rewrite Nat.sub_0_r. split_and!; (done || lia).
  - destruct l as [|x l _] using rev_ind; [done|]. apply Forall_app in Hl as [Hl Hx].
    apply Forall_cons in Hx as [Hx _]. exists x, (lval l). rewrite lval_app. simpl.
    pose proof (lval_range _ Hl).
    replace (length (l ++ [x]) - 1)%nat with (length l) by (rewrite length_app; simpl; lia).
    rewrite lookup_mid. split_and!; (done || lia).
Qed.

Lemma sign_of_char_spec x : 0 <= x < 256 -> sign_of_char x = bool_decide (128 <= x).
Proof.
  intros Hx. unfold sign_of_char, wraps. rewrite Z.shiftr_div_pow2 by lia.
  change (2 ^ 7) with 128. change (2 ^ 8) with 256. change (2 ^ (8 - 1)) with 128.
  case_bool_decide.
  - replace ((x + 128) mod 256) with (x - 128) by (apply Z.mod_unique_pos with 1; lia).
    replace ((x - 128 - 128) / 128) with (-1) by (apply Z.div_unique_pos with (x - 128); lia). done.
  - rewrite Z.mod_small by lia. rewrite Z.div_small by lia. done.
Qed.

Lemma sapcmp_spec l r : bytes l -> bytes r -> length l = length r ->
  sapcmp l r (length l) = Some (Z.sgn (sval l - sval r)).
Proof.
  intros Hl Hr Hlen. unfold sapcmp. case_decide as Hz.
  { destruct l, r; try done. by rewrite Z.sub_diag. }
  destruct (val_top l) as (x & lo & Hx & Hxr & Hlo & Hval); [by intros ->|done|].
  destruct (val_top r) as (y & lo' & Hy & Hyr & Hlo' & Hval'); [intros ->; simpl in *; lia|done|].
  rewrite <-Hlen in Hy, Hlo', Hval'. rewrite Hx, Hy. cbn [mbind option_bind].
  rewrite apcmp_spec by done. rewrite !sign_of_char_spec by done.
  pose proof (val_range l Hl). pose proof (val_range r Hr). rewrite <-Hlen in *.
  unfold sval. rewrite <-Hlen, <-!pow256.
  assert (Hp : 256 ^ Z.of_nat (length l) = 256 * 256 ^ Z.of_nat (length l - 1)).
  { rewrite <-Z.pow_succ_r by lia. f_equal. lia. }
  assert (Hh : 2 ^ (8 * Z.of_nat (length l) - 1) = 128 * 256 ^ Z.of_nat (length l - 1)).
  { pose proof (half_range (length l)). rewrite <-pow256 in *. lia. }
  rewrite Hh, Hp. set (p := 256 ^ Z.of_nat (length l - 1)) in *.
  assert (val l < 128 * p <-> x < 128) by nia. assert (val r < 128 * p <-> y < 128) by nia.
  repeat case_bool_decide; repeat case_decide; try lia; simpl; f_equal; symmetry.
  - f_equal. lia.
  - apply Z.sgn_neg. lia.
  - apply Z.sgn_pos. lia.
Qed.

Lemma satisfied_by_spec op operand data : bytes operand -> bytes data ->
  length operand = length data ->
  exists r, satisfied_by op operand data (length data) = Some r /\
    (r = true <-> await_holds op data operand).
Proof.
  intros Ho Hd Hlen. unfold satisfied_by.
  rewrite sapcmp_spec, apcmp_spec by done.
  assert (Hsgn : forall z, Z.sgn z = 0 /\ z = 0 \/ Z.sgn z = 1 /\ z > 0 \/ Z.sgn z = -1 /\ z < 0)
    by (intros [| |]; simpl; lia).
  destruct (Hsgn (sval data - sval operand)) as [[E1 ?]|[[E1 ?]|[E1 ?]]], (Hsgn (val data - val operand)) as [[E2 ?]|[[E2 ?]|[E2 ?]]];
    destruct op; cbn -[sval val]; rewrite ?E1, ?E2; eexists; (split; [reflexivity|]); simpl;
    (split; [|intros]; try done; lia).
Qed.

(** ** The read-modify-write loops *)

Lemma memcpy_spec outp res size : length outp = size -> length res = size ->
  memcpy outp res size = Some res.
Proof.
  intros Ho Hr. unfold memcpy.
  match goal with |- context [for_range size 0 ?body outp] =>
    destruct (for_range_write (fun i _ => default 0 (res !! i)) body size size 0 outp)
      as (r & -> & Hl & Hj) end; [done|done| |].
  { intros k v x Hk Hv Hx. destruct (lookup_lt_exists res k) as [y Hy]; [lia|].
    rewrite Hy. simpl. apply vset_Some. lia. }
  f_equal. apply list_eq. intros i. rewrite Hj. case_decide as Hi.
  - destruct (lookup_lt_exists outp i) as [x ->]; [lia|].
    destruct (lookup_lt_exists res i) as [y Hy]; [lia|]. by rewrite Hy.
  - by rewrite !lookup_ge_None_2 by lia.
Qed.

(** The bytes in order of significance. *)
Definition digits (l : list Z) : list Z := if IsBigEndianHost then reverse l else l.

Lemma length_digits l : length (digits l) = length l.
Proof. unfold digits. destruct IsBigEndianHost; [apply length_reverse|done]. Qed.

Lemma bytes_digits l : bytes (digits l) <-> bytes l.
Proof.
  unfold digits. destruct IsBigEndianHost; [|done]. split; [|apply bytes_reverse].
  intros H%bytes_reverse. by rewrite reverse_involutive in H.
Qed.

Lemma digits_lookup l i : (i < length l)%nat -> l !! byte_index (length l) i = digits l !! i.
Proof.
  intros Hi. unfold digits, byte_index. destruct IsBigEndianHost; [|done].
  rewrite reverse_lookup by done. f_equal. lia.
Qed.

Lemma byte_index_lt size i : (i < size)%nat -> (byte_index size i < size)%nat.
Proof. unfold byte_index. destruct IsBigEndianHost; lia. Qed.

Lemma digits_insert l i x : (i < length l)%nat ->
  digits (<[byte_index (length l) i := x]> l) = <[i := x]> (digits l).
Proof.
  intros Hi. apply list_eq. intros j. destruct (decide (j < length l)%nat).
  - rewrite <-digits_lookup by (rewrite length_insert; done). rewrite length_insert.
    destruct (decide (i = j)) as [->|].
    + rewrite !list_lookup_insert_eq; [done|by rewrite length_digits|by apply byte_index_lt].
    + rewrite !list_lookup_insert_ne, digits_lookup; [done|done|done|].
      unfold byte_index. destruct IsBigEndianHost; lia.
  - rewrite !lookup_ge_None_2; [done| |]; rewrite ?length_insert, ?length_digits, ?length_insert; lia.
Qed.

Lemma carry_step s : -256 <= s < 512 ->
  wrapu 8 (wrapu 16 s) = s mod 256 /\ wraps 8 (Z.shiftr (wrapu 16 s) 8) = s / 256.
Proof.
  intros Hs. unfold wrapu, wraps. rewrite Z.shiftr_div_pow2 by lia.
  change (2 ^ 16) with 65536. change (2 ^ 8) with 256. change (2 ^ (8 - 1)) with 128.
  destruct (decide (s < 0)).
  - replace (s mod 65536) with (s + 65536) by (apply Z.mod_unique_pos with (-1); lia).
    replace ((s + 65536) / 256) with 255 by (apply Z.div_unique_pos with (s + 256); lia).
    replace (s / 256) with (-1) by (apply Z.div_unique_pos with (s + 256); lia).
    split; [|done]. replace (s + 65536) with (s + 256 * 256) by lia. by rewrite Z.mod_add.
  - rewrite (Z.mod_small s 65536) by lia. split; [done|].
    destruct (decide (s < 256)).
    + rewrite Z.div_small by lia. done.
    + replace (s / 256) with 1 by (apply Z.div_unique_pos with (s - 256); lia). done.
Qed.

Lemma addsub_loop add size inp argp : bytes inp -> bytes argp ->
  length inp = size -> length argp = size ->
  let op x y := if add : bool then x + y else x - y in
  forall n i outp carry, (i + n = size)%nat -> length outp = size ->
  bytes (take i (digits outp)) -> (if add then 0 <= carry <= 1 else -1 <= carry <= 0) ->
  lval (take i (digits outp)) + 256 ^ Z.of_nat i * carry
    = op (lval (take i (digits inp))) (lval (take i (digits argp))) ->
  exists out c, for_range n i (addsub_body add size inp argp) (outp, carry) = Some (out, c) /\
    length out = size /\ bytes out /\ val out + 256 ^ Z.of_nat size * c = op (val inp) (val argp).
Proof.
  intros Hin Harg Hli Hla op. induction n as [|n IH]; intros i outp carry Hn Hlo Hb Hc Hinv; simpl.
  - exists outp, carry. rewrite Nat.add_0_r in Hn. subst i.
    rewrite !take_ge in * by (rewrite length_digits; lia).
    split_and!; [done|done|by apply bytes_digits|done].
  - destruct (lookup_lt_exists (digits inp) i) as [x Hx]; [rewrite length_digits; lia|].
    destruct (lookup_lt_exists (digits argp) i) as [y Hy]; [rewrite length_digits; lia|].
    assert (Hx' : inp !! byte_index size i = Some x) by (rewrite <-Hli, digits_lookup; (done || lia)).
    assert (Hy' : argp !! byte_index size i = Some y) by (rewrite <-Hla, digits_lookup; (done || lia)).
    rewrite Hx', Hy'. cbn [mbind option_bind].
    rewrite vset_Some by (rewrite Hlo; apply byte_index_lt; lia). cbn [mbind option_bind].
    pose proof (bytes_lookup _ _ _ (proj2 (bytes_digits inp) Hin) Hx).
    pose proof (bytes_lookup _ _ _ (proj2 (bytes_digits argp) Harg) Hy).
    destruct (carry_step ((if add then x + y else x - y) + carry)) as [Ed Ec].
    { destruct add; lia. }
    rewrite Ed, Ec.
    set (s := (if add then x + y else x - y) + carry) in *.
    pose proof (Z.mod_pos_bound s 256). pose proof (Z.div_mod s 256).
    assert (Htake : take (S i) (digits (<[byte_index size i := s mod 256]> outp))
              = take i (digits outp) ++ [s mod 256]).
    { rewrite <-Hlo, digits_insert by lia.
      rewrite (take_snoc _ _ (s mod 256)); [|apply list_lookup_insert_eq; rewrite length_digits; lia].
      by rewrite take_insert_ge. }
    apply IH; [lia|by rewrite length_insert| | |]; rewrite ?Htake.
    + apply Forall_app. split; [done|]. apply Forall_singleton. lia.
    + assert (s / 256 < (if add then 2 else 1)) by (apply Z.div_lt_upper_bound; destruct add; lia).
      assert ((if add then 0 else -1) <= s / 256) by (apply Z.div_le_lower_bound; destruct add; lia).
      destruct add; lia.
    + rewrite (take_snoc _ _ _ Hx), (take_snoc _ _ _ Hy), !lval_app.
      rewrite !length_take_le by (rewrite length_digits; lia). simpl.
      rewrite Nat2Z.inj_succ, Z.pow_succ_r by lia. set (p := 256 ^ Z.of_nat i) in *.
      unfold op in *. destruct add; nia.
Qed.

Lemma mod_of_carry m v c t : 0 <= v < m -> v + m * c = t -> v = t mod m.
Proof. intros Hv Heq. apply Z.mod_unique_pos with c; lia. Qed.

(** Bitwise operations act digit by digit. *)
Lemma bit_digit x a i : 0 <= x < 256 -> 0 <= i ->
  Z.testbit (x + 256 * a) i = if i <? 8 then Z.testbit x i else Z.testbit a (i - 8).
Proof.
  intros Hx Hi. change 256 with (2 ^ 8) in *. rewrite <-(Z.mod_small x (2 ^ 8)) at 1 by done.
  rewrite (Z.mul_comm (2 ^ 8)), <-Z.shiftl_mul_pow2 by lia.
  rewrite <-Z.land_ones by lia.
  rewrite Z.add_nocarry_lxor.
  - rewrite Z.lxor_spec, Z.land_spec, Z.shiftl_spec, Z.testbit_ones_nonneg by lia.
    destruct (Z.ltb_spec i 8).
    + by rewrite (Z.testbit_neg_r a), andb_true_r, xorb_false_r by lia.
    + by rewrite andb_false_r, xorb_false_l.
  - apply Z.bits_inj'. intros j Hj.
    rewrite Z.land_spec, Z.land_spec, Z.shiftl_spec, Z.testbit_ones_nonneg, Z.bits_0 by lia.
    destruct (Z.ltb_spec j 8).
    + by rewrite (Z.testbit_neg_r a), andb_false_r by lia.
    + by rewrite andb_false_r.
Qed.

Lemma bitwise_lval (f : bool -> bool -> bool) (op : Z -> Z -> Z) l k :
  (forall x y i, 0 <= i -> Z.testbit (op x y) i = f (Z.testbit x i) (Z.testbit y i)) ->
  op 0 0 = 0 -> (forall x y, 0 <= x < 256 -> 0 <= y < 256 -> 0 <= op x y < 256) ->
  bytes l -> bytes k -> length l = length k ->
  lval (zip_with op l k) = op (lval l) (lval k).
Proof.
  intros Hop H0 Hrng Hl. revert k. induction Hl as [|x l Hx Hl IH]; intros [|y k] Hk Hlen; try done.
  apply Forall_cons in Hk as [Hy Hk]. cbn [zip_with lval].
  rewrite IH; [|done|simpl in Hlen; lia].
  apply Z.bits_inj'. intros i Hi. rewrite Hop, !bit_digit by auto.
  destruct (i <? 8) eqn:E; rewrite Hop; (done || lia).
Qed.

Lemma bits_lt n z : 0 <= n -> (forall i, n <= i -> Z.testbit z i = false) -> 0 <= z < 2 ^ n.
Proof.
  intros Hn Hb. assert (z = z mod 2 ^ n) as ->; [|apply Z.mod_pos_bound; lia].
  rewrite <-Z.land_ones by done. apply Z.bits_inj'. intros i Hi.
  rewrite Z.land_spec, Z.testbit_ones_nonneg by done. destruct (Z.ltb_spec i n).
  - by rewrite andb_true_r.
  - by rewrite andb_false_r, Hb.
Qed.

Lemma bit_high x i : 0 <= x < 256 -> 8 <= i -> Z.testbit x i = false.
Proof.
  intros Hx Hi. rewrite <-(Z.mod_small x (2 ^ 8)) by done. apply Z.mod_pow2_bits_high. lia.
Qed.

(** The loop of [AND], [NAND], [OR] and [XOR] computes digit by digit. *)
Lemma bitwise_loop (g : Z -> Z -> Z) kind dst data operand :
  (forall x y, 0 <= x < 256 -> 0 <= y < 256 -> bitwise_byte kind x y = Some (g x y)) ->
  bytes data -> bytes operand -> length operand = length data -> length dst = length data ->
  exists out, for_range (length data) 0 (fun i outp =>
      lhs ← data !! i; rhs ← operand !! i; res ← bitwise_byte kind lhs rhs; vset outp i res) dst
      = Some out /\ length out = length data /\
    digits out = zip_with g (digits data) (digits operand).
Proof.
  intros Hg Hd Ho Hlo Hld.
  match goal with |- context [for_range _ 0 ?body dst] =>
    destruct (for_range_write (fun i _ => g (default 0 (data !! i)) (default 0 (operand !! i)))
                body (length data) (length data) 0 dst) as (r & -> & Hl & Hj) end; [done|done| |].
  { intros k v x Hk Hv Hx. destruct (lookup_lt_exists data k) as [y Hy]; [lia|].
    destruct (lookup_lt_exists operand k) as [z Hz]; [lia|]. rewrite Hy, Hz. simpl.
    rewrite Hg by eauto using bytes_lookup. simpl. apply vset_Some. lia. }
  exists r. split_and!; [done|done|]. apply list_eq. intros i.
  destruct (decide (i < length data)%nat) as [Hi|Hi].
  - rewrite lookup_zip_with, <-!digits_lookup, Hl, Hlo by lia.
    pose proof (byte_index_lt (length data) i Hi).
    rewrite Hj, decide_True by lia.
    destruct (lookup_lt_exists dst (byte_index (length data) i)) as [x ->]; [lia|].
    destruct (lookup_lt_exists data (byte_index (length data) i)) as [y ->]; [lia|].
    by destruct (lookup_lt_exists operand (byte_index (length data) i)) as [z ->]; [lia|].
  - rewrite !lookup_ge_None_2; [done| |]; rewrite ?length_zip_with, ?length_digits; lia.
Qed.

Lemma val_digits l : val l = lval (digits l).
Proof. done. Qed.

Lemma lval_complement l : lval (map (fun b => 255 - b) l) = 256 ^ Z.of_nat (length l) - 1 - lval l.
Proof.
  induction l as [|b l IH]; [done|]. cbn [map lval length].
  rewrite IH, Nat2Z.inj_succ, Z.pow_succ_r by lia. lia.
Qed.

Lemma bytes_zip (g : Z -> Z -> Z) l k : bytes l -> bytes k ->
  (forall x y, 0 <= x < 256 -> 0 <= y < 256 -> 0 <= g x y < 256) -> bytes (zip_with g l k).
Proof.
  intros Hl. revert k. induction Hl as [|x l Hx Hl IH]; intros k Hk Hg; [constructor|].
  destruct Hk as [|y k Hy Hk]; simpl; constructor; auto. by apply IH.
Qed.

Lemma zip_with_map_255 l k :
  zip_with (fun x y => 255 - Z.land x y) l k = map (fun b => 255 - b) (zip_with Z.land l k).
Proof. revert k. induction l as [|x l IH]; intros [|y k]; simpl; [done..|]. by rewrite IH. Qed.

Lemma byte_op_range op (f : bool -> bool -> bool) :
  (forall x y i, 0 <= i -> Z.testbit (op x y) i = f (Z.testbit x i) (Z.testbit y i)) ->
  f false false = false ->
  forall x y, 0 <= x < 256 -> 0 <= y < 256 -> 0 <= op x y < 256.
Proof.
  intros Hop Hf x y Hx Hy. apply (bits_lt 8); [lia|]. intros i Hi.
  by rewrite Hop, !bit_high by lia.
Qed.

Lemma apply_to_spec kind operand dst data :
  bytes data -> bytes operand -> length operand = length data -> length dst = length data ->
  exists out, apply_to kind operand dst (length data) data = Some out /\
    length out = length data /\ bytes out /\
    val out = rmw_result kind (length data) (val data) (val operand).
Proof.
  intros Hd Ho Hlo Hld. pose proof (val_range data Hd) as Hrd. pose proof (val_range operand Ho) as Hro.
  assert (Hdd : bytes (digits data)) by (by apply bytes_digits).
  assert (Hdo : bytes (digits operand)) by (by apply bytes_digits).
  assert (Hldig : length (digits data) = length (digits operand)) by (rewrite !length_digits; lia).
  assert (Hcopy : forall r : list Z, length r = length data -> memcpy dst r (length data) = Some r)
    by (intros; by apply memcpy_spec).
  assert (Haddsub : forall kind (add : bool), add = bool_decide (kind = ADD) -> exists out c,
    for_range (length data) 0 (addsub_body (bool_decide (kind = ADD)) (length data) data operand) (dst, 0)
      = Some (out, c) /\ length out = length data /\ bytes out /\
    val out = (if add then val data + val operand else val data - val operand) mod 256 ^ Z.of_nat (length data)).
  { intros k add <-.
    destruct (addsub_loop add (length data) data operand Hd Ho eq_refl Hlo (length data) 0 dst 0)
      as (out & c & E & Hl & Hb & Hv); [done|done|constructor|by destruct add|by destruct add|].
    exists out, c. split_and!; try done. eapply mod_of_carry; [|done].
    rewrite <-Hl. by apply val_range. }
  assert (Hbitwise : forall op f, (forall x y, 0 <= x < 256 -> 0 <= y < 256 ->
        bitwise_byte kind x y = Some (wrapu 8 (op x y))) ->
      (forall x y i, 0 <= i -> Z.testbit (op x y) i = f (Z.testbit x i) (Z.testbit y i)) ->
      f false false = false -> exists out, for_range (length data) 0 (fun i outp =>
        lhs ← data !! i; rhs ← operand !! i; res ← bitwise_byte kind lhs rhs; vset outp i res) dst
      = Some out /\ length out = length data /\ bytes out /\ val out = op (val data) (val operand)).
  { intros op f Hb Hop Hf. pose proof (byte_op_range op f Hop Hf) as Hrng.
    destruct (bitwise_loop op kind dst data operand) as (out & E & Hl & Hz); [|done..|].
    { intros x y Hx Hy. rewrite Hb by done. f_equal. apply wrapu_id. by apply Hrng. }
    exists out. split_and!; [done|done| |].
    - apply bytes_digits. rewrite Hz. by apply bytes_zip.
    - rewrite !val_digits, Hz. apply (bitwise_lval f); try done.
      apply Z.bits_inj'. intros i Hi. by rewrite Hop, Z.bits_0. }
  assert (Hmax : forall (signed : bool), (if signed then sapcmp else apcmp) data operand (length data)
    = Some (Z.sgn (if signed then sval data - sval operand else val data - val operand))).
  { intros []; [by apply sapcmp_spec|by apply apcmp_spec]. }
  assert (Hsgn : forall z, Z.sgn z > 0 <-> z > 0) by (intros []; simpl; lia).
  destruct kind; cbn [apply_to rmw_result].
  - rewrite Hcopy by done. eauto.
  - destruct (Haddsub ADD true eq_refl) as (out & c & -> & ? & ? & ?). by exists out.
  - destruct (Haddsub SUB false eq_refl) as (out & c & -> & ? & ? & ?). by exists out.
  - apply (Hbitwise Z.land andb); [done|intros; apply Z.land_spec|done].
  - clear Hbitwise. destruct (bitwise_loop (fun x y => 255 - Z.land x y) NAND dst data operand)
      as (out & E & Hl & Hz); [|done..|].
    { intros x y Hx Hy. cbn [bitwise_byte]. f_equal. unfold Z.lnot.
      pose proof (byte_op_range Z.land andb ltac:(intros; apply Z.land_spec) eq_refl x y Hx Hy).
      unfold wrapu. symmetry. apply Z.mod_unique_pos with (-1); change (2 ^ 8) with 256; lia. }
    exists out. split_and!; [done|done| |].
    + apply bytes_digits. rewrite Hz. apply bytes_zip; [done..|]. intros x y Hx Hy.
      pose proof (byte_op_range Z.land andb ltac:(intros; apply Z.land_spec) eq_refl x y Hx Hy). lia.
    + rewrite !val_digits, Hz, zip_with_map_255, lval_complement, length_zip_with, !length_digits.
      rewrite (bitwise_lval andb); try done; [|intros; apply Z.land_spec|].
      * by rewrite Hlo, Nat.min_id.
      * apply (byte_op_range Z.land andb); [intros; apply Z.land_spec|done].
  - apply (Hbitwise Z.lor orb); [done|intros; apply Z.lor_spec|done].
  - apply (Hbitwise Z.lxor xorb); [done|intros; apply Z.lxor_spec|done].
  - rewrite (Hmax true). cbn [mbind option_bind]. rewrite sval_to_signed, sval_to_signed, Hlo.
    rewrite (bool_decide_ext _ _ (Hsgn _)).
    case_bool_decide; case_decide; cbn [negb]; rewrite Hcopy by done; eauto; lia.
  - rewrite (Hmax true). cbn [mbind option_bind]. rewrite sval_to_signed, sval_to_signed, Hlo.
    rewrite (bool_decide_ext _ _ (Hsgn _)).
    case_bool_decide; case_decide; cbn [negb]; rewrite Hcopy by done; eauto; lia.
  - rewrite (Hmax false). cbn [mbind option_bind]. rewrite (bool_decide_ext _ _ (Hsgn _)).
    case_bool_decide; cbn [negb]; rewrite Hcopy by done; eexists; split_and!; eauto; lia.
  - rewrite (Hmax false). cbn [mbind option_bind]. rewrite (bool_decide_ext _ _ (Hsgn _)).
    case_bool_decide; cbn [negb]; rewrite Hcopy by done; eexists; split_and!; eauto; lia.
Qed.

(** ** What the operations promise *)

(** An await condition holds iff the integer comparison its name denotes
    holds between the value in memory and the operand: unsigned for [U..],
    two's complement for [S..], for every operand size and both byte orders. *)
Theorem await_is_comparison op operand data :
  bytes operand -> bytes data -> length operand = length data ->
  exists r, satisfied_by op operand data (length data) = Some r /\
    (r = true <-> await_holds op data operand).
Proof. intros. by apply satisfied_by_spec. Qed.

(** Applying a read-modify-write action to the bytes of an integer stays in
    bounds and stores the bytes of the result of the operation on integers:
    addition and subtraction modulo 256^n through the byte-wise carry, bitwise
    operations, exchange, and signed and unsigned maxima and minima. *)
Theorem rmw_is_arithmetic kind operand dst data :
  bytes data -> bytes operand -> length operand = length data -> length dst = length data ->
  exists out, apply_to kind operand dst (length data) data = Some out /\
    length out = length data /\ bytes out /\
    val out = rmw_result kind (length data) (val data) (val operand).
Proof. intros. by apply apply_to_spec. Qed.

End byte_ops.

(** ** Concrete runs *)

Lemma await_is_comparison_witness :
  exists r, satisfied_by false SLT [0; 0] [255; 255] 2 = Some r /\
    (r = true <-> await_holds false SLT [255; 255] [0; 0]).
Proof. apply (await_is_comparison false SLT [0; 0] [255; 255]); repeat constructor; lia. Defined.

Lemma rmw_is_arithmetic_witness :
  exists out, apply_to false ADD [1; 0] [0; 0] 2 [255; 1] = Some out /\
    length out = 2%nat /\ bytes out /\
    val false out = rmw_result ADD 2 (val false [255; 1]) (val false [1; 0]).
Proof. apply (rmw_is_arithmetic false ADD [1; 0] [0; 0] [255; 1]); repeat constructor; lia. Defined.

Example add_carry : apply_to false ADD [1; 0] [7; 7] 2 [255; 1] = Some [0; 2].
Proof. by vm_compute. Qed.
Example sub_borrow_be : apply_to true SUB [0; 1] [7; 7] 2 [2; 0] = Some [1; 255].
Proof. by vm_compute. Qed.
Example signed_less : satisfied_by false SLT [0; 0] [255; 255] 2 = Some true.
Proof. by vm_compute. Qed.
Example names_in_range : forall op, exists n, await_name op = Some (Some n).
Proof. by intros []; eexists. Qed.
