(* ===== verification/SymEv.v ===== *)
(** * SymEv: symbolic events and their conflicts (src/src/SymEv.h, SymEv.cpp,
      and the conflict tests of src/src/TSOTraceBuilder.cpp)

    A [SymEv] is a tagged record: the tag says which member of the unions
    [arg] and [arg2] is live, and reading the other member is [None]. Blocks of
    data are optional, because the wakeup tree purges them. The second half of
    the file is the conflict relation the exploration is built on; the theorems
    relate it to what the events do to memory. *)

From stdpp Require Import pretty.
From S2P Require Import Prelude SymAddr ByteOps.

Local Open Scope Z_scope.

(** ** The data *)

Inductive SymKind :=
  | NONE | NONDET
  | LOAD | LOAD_AWAIT | STORE | FULLMEM
  | RMW | XCHG_AWAIT | CMPXHG | CMPXHGFAIL
  | M_INIT | M_LOCK | M_TRYLOCK | M_TRYLOCK_FAIL | M_UNLOCK | M_DELETE
  | C_INIT | C_SIGNAL | C_BRDCST | C_WAIT | C_AWAKE | C_DELETE
  | SPAWN | JOIN
  | UNOBS_STORE.
#[export] Instance SymKind_eq_dec : EqDecision SymKind.
Proof. solve_decision. Defined.

(** The unions; [ArgUninit] is a union no constructor has written. *)
Inductive SymArg := ArgAddr (addr : SymAddrSize) | ArgNum (num : Z) | ArgUninit.
Inductive SymArg2 := ArgRmw (k : RmwKind) | ArgAwait (op : AwaitOp) | Arg2Uninit.

Definition block_type : Type := option (list Z).

Record SymEv := MkSymEv {
  ev_kind : SymKind;
  ev_arg : SymArg;
  ev_arg2 : SymArg2;
  ev_rmw_result_used : bool;
  ev_expected : block_type;
  ev_written : block_type;
}.

Record AwaitCond := MkAwaitCond { ac_op : AwaitOp; ac_operand : block_type }.
Record RmwAction := MkRmwAction { ra_kind : RmwKind; ra_operand : block_type; ra_result_used : bool }.
(** A [SymData] whose block may have been purged. *)
Record SymDataRef := MkSymDataRef { sdr_ref : SymAddrSize; sdr_block : block_type }.

(** ** Constructors *)

Definition ev_simple (k : SymKind) (a : SymArg) : SymEv := MkSymEv k a Arg2Uninit false None None.

Definition SymEv_None : SymEv := ev_simple NONE ArgUninit.
Definition SymEv_Nondet (count : Z) : SymEv := ev_simple NONDET (ArgNum count).
Definition SymEv_Load (a : SymAddrSize) : SymEv := ev_simple LOAD (ArgAddr a).
Definition SymEv_LoadAwait (a : SymAddrSize) (c : AwaitCond) : SymEv :=
  MkSymEv LOAD_AWAIT (ArgAddr a) (ArgAwait (ac_op c)) false (ac_operand c) None.
Definition SymEv_Store (d : SymDataRef) : SymEv :=
  MkSymEv STORE (ArgAddr (sdr_ref d)) Arg2Uninit false None (sdr_block d).
Definition SymEv_UnobsStore (d : SymDataRef) : SymEv :=
  MkSymEv UNOBS_STORE (ArgAddr (sdr_ref d)) Arg2Uninit false None (sdr_block d).
Definition SymEv_Rmw (d : SymDataRef) (r : RmwAction) : option SymEv :=
  _ ← cassert (bool_decide (is_Some (sdr_block d)));
  Some (MkSymEv RMW (ArgAddr (sdr_ref d)) (ArgRmw (ra_kind r)) (ra_result_used r) (ra_operand r) (sdr_block d)).
Definition SymEv_XchgAwait (d : SymDataRef) (c : AwaitCond) : option SymEv :=
  _ ← cassert (bool_decide (is_Some (sdr_block d)));
  Some (MkSymEv XCHG_AWAIT (ArgAddr (sdr_ref d)) (ArgAwait (ac_op c)) false (ac_operand c) (sdr_block d)).
Definition SymEv_CmpXhg (d : SymDataRef) (expected : block_type) : SymEv :=
  MkSymEv CMPXHG (ArgAddr (sdr_ref d)) Arg2Uninit false expected (sdr_block d).
Definition SymEv_CmpXhgFail (d : SymDataRef) (expected : block_type) : SymEv :=
  MkSymEv CMPXHGFAIL (ArgAddr (sdr_ref d)) Arg2Uninit false expected (sdr_block d).
Definition SymEv_Fullmem : SymEv := ev_simple FULLMEM ArgUninit.
(** The mutex and condition variable events carry an address only. *)
Definition SymEv_sync (k : SymKind) (a : SymAddrSize) : SymEv := ev_simple k (ArgAddr a).
Definition SymEv_Spawn (proc : Z) : SymEv := ev_simple SPAWN (ArgNum proc).
Definition SymEv_Join (proc : Z) : SymEv := ev_simple JOIN (ArgNum proc).

(** ** Accessors *)

Definition has_addr (e : SymEv) : bool :=
  match ev_kind e with
  | LOAD | LOAD_AWAIT | STORE | M_INIT | M_LOCK | M_UNLOCK | M_DELETE | M_TRYLOCK | M_TRYLOCK_FAIL
  | C_INIT | C_SIGNAL | C_BRDCST | C_DELETE | C_WAIT | C_AWAKE | UNOBS_STORE
  | RMW | XCHG_AWAIT | CMPXHG | CMPXHGFAIL => true
  | NONE | FULLMEM | NONDET | SPAWN | JOIN => false
  end.

Definition has_num (e : SymEv) : bool :=
  match ev_kind e with SPAWN | JOIN | NONDET => true | _ => false end.

Definition has_data (e : SymEv) : bool :=
  match ev_kind e with
  | STORE | UNOBS_STORE | RMW | XCHG_AWAIT | CMPXHG | CMPXHGFAIL => bool_decide (is_Some (ev_written e))
  | _ => false
  end.

Definition has_expected (e : SymEv) : bool :=
  match ev_kind e with
  | CMPXHG | CMPXHGFAIL => bool_decide (is_Some (ev_written e))
  | _ => false
  end.

Definition has_rmwaction (e : SymEv) : bool := bool_decide (ev_kind e = RMW).
Definition has_cond (e : SymEv) : bool :=
  bool_decide (ev_kind e = LOAD_AWAIT) || bool_decide (ev_kind e = XCHG_AWAIT).
Definition ev_empty (e : SymEv) : bool := bool_decide (ev_kind e = NONE).

Definition arg_addr (a : SymArg) : option SymAddrSize := match a with ArgAddr x => Some x | _ => None end.
Definition arg_num (a : SymArg) : option Z := match a with ArgNum x => Some x | _ => None end.
Definition arg2_rmw (a : SymArg2) : option RmwKind := match a with ArgRmw k => Some k | _ => None end.
Definition arg2_await (a : SymArg2) : option AwaitOp := match a with ArgAwait o => Some o | _ => None end.

Definition ev_addr (e : SymEv) : option SymAddrSize := _ ← cassert (has_addr e); arg_addr (ev_arg e).
Definition ev_num (e : SymEv) : option Z := _ ← cassert (has_num e); arg_num (ev_arg e).
Definition ev_data (e : SymEv) : option SymDataRef :=
  _ ← cassert (has_data e); a ← arg_addr (ev_arg e); Some (MkSymDataRef a (ev_written e)).
Definition ev_expected_data (e : SymEv) : option SymDataRef :=
  _ ← cassert (has_expected e); a ← arg_addr (ev_arg e); Some (MkSymDataRef a (ev_expected e)).
Definition ev_rmwaction (e : SymEv) : option RmwAction :=
  _ ← cassert (has_rmwaction e); _ ← cassert (bool_decide (is_Some (ev_expected e)));
  k ← arg2_rmw (ev_arg2 e); Some (MkRmwAction k (ev_expected e) (ev_rmw_result_used e)).
Definition ev_rmw_kind (e : SymEv) : option RmwKind := _ ← cassert (has_rmwaction e); arg2_rmw (ev_arg2 e).
Definition ev_rmw_used (e : SymEv) : option bool :=
  _ ← cassert (has_rmwaction e); Some (ev_rmw_result_used e).
Definition ev_cond (e : SymEv) : option AwaitCond :=
  _ ← cassert (has_cond e); _ ← cassert (bool_decide (is_Some (ev_expected e)));
  o ← arg2_await (ev_arg2 e); Some (MkAwaitCond o (ev_expected e)).

(** ** Operations *)

Definition ev_eq (a s : SymEv) : option bool :=
  if decide (ev_kind a <> ev_kind s) then Some false
  else
    addr_differs ← (if has_addr a then x ← ev_addr a; y ← ev_addr s; Some (negb (sas_eq x y))
                    else Some false);
    if addr_differs : bool then Some false
    else
      num_differs ← (if has_num a then x ← ev_num a; y ← ev_num s; Some (bool_decide (x <> y))
                     else Some false);
      Some (negb num_differs).

Definition is_compatible_with (a o : SymEv) : option bool :=
  let k := ev_kind a in
  let k' := ev_kind o in
  if decide (k <> k' /\ ~ (k = STORE /\ k' = UNOBS_STORE) /\ ~ (k = M_TRYLOCK /\ k' = M_TRYLOCK_FAIL)
             /\ ~ (k = M_TRYLOCK_FAIL /\ k' = M_TRYLOCK))
  then Some false
  else
    rmw_ok ← (if decide (k = RMW) then
                x ← arg2_rmw (ev_arg2 a); y ← arg2_rmw (ev_arg2 o);
                if decide (x <> y) then Some false
                else if bool_decide (is_Some (ev_expected a)) then _ ← cassert (bool_decide (is_Some (ev_expected o))); Some true
                else Some true
              else Some true);
    if negb rmw_ok then Some false
    else
      let cmp_addr := x ← arg_addr (ev_arg a); y ← arg_addr (ev_arg o); Some (sas_eq x y) in
      match k with
      | LOAD_AWAIT | XCHG_AWAIT =>
        x ← arg2_await (ev_arg2 a); y ← arg2_await (ev_arg2 o);
        if negb (op_code x =? op_code y) then Some false
        else
          _ ← (if bool_decide (is_Some (ev_expected a)) then cassert (bool_decide (is_Some (ev_expected o))) else Some tt);
          cmp_addr
      | LOAD | M_INIT | M_LOCK | M_UNLOCK | M_DELETE | M_TRYLOCK | M_TRYLOCK_FAIL
      | C_INIT | C_SIGNAL | C_BRDCST | C_DELETE | C_WAIT | C_AWAKE
      | RMW | CMPXHG | CMPXHGFAIL | STORE | UNOBS_STORE => cmp_addr
      | SPAWN | JOIN | NONDET => x ← arg_num (ev_arg a); y ← arg_num (ev_arg o); Some (bool_decide (x = y))
      | FULLMEM | NONE => Some true
      end.

Definition ev_purge_data (e : SymEv) : SymEv :=
  MkSymEv (ev_kind e) (ev_arg e) (ev_arg2 e) (ev_rmw_result_used e) None None.

Definition ev_with_kind (e : SymEv) (k : SymKind) : SymEv :=
  MkSymEv k (ev_arg e) (ev_arg2 e) (ev_rmw_result_used e) (ev_expected e) (ev_written e).

Definition set_observed (e : SymEv) (observed : bool) : option SymEv :=
  if observed then
    if decide (ev_kind e = UNOBS_STORE) then Some (ev_with_kind e STORE)
    else _ ← cassert (bool_decide (ev_kind e = STORE)); Some e
  else
    if decide (ev_kind e = STORE) then Some (ev_with_kind e UNOBS_STORE)
    else _ ← cassert (bool_decide (ev_kind e = UNOBS_STORE)); Some e.

(** *** Printing *)

Definition hex_digit (d : Z) : string :=
  default "?" (["0"; "1"; "2"; "3"; "4"; "5"; "6"; "7"; "8"; "9"; "a"; "b"; "c"; "d"; "e"; "f"]
               !! Z.to_nat d).
(** [res << std::hex << (int)b] for a byte. *)
Definition hex_byte (b : Z) : string :=
  if decide (b < 16) then hex_digit b else hex_digit (b / 16) +:+ hex_digit (b mod 16).
(** The same under [width(2)] and [fill('0')]. *)
Definition hex_byte2 (b : Z) : string := if decide (b < 16) then "0" +:+ hex_digit b else hex_byte b.

(** [for (; i > 0 && ptr\[i\] == 0; --i) {}] *)
Fixpoint skip_high_zeros (ptr : list Z) (i : nat) : option nat :=
  match i with
  | O => Some O
  | S i' => b ← ptr !! i; if decide (b = 0) then skip_high_zeros ptr i' else Some i
  end.

(** The final loop, for [n] bytes from index [n-1] down. The field width of a
    C++ stream is reset by every formatted output, so the [width(2)] set before
    the loop governs its first iteration only. *)
Fixpoint put_bytes (padded : bool) (ptr : list Z) (n : nat) : option string :=
  match n with
  | O => Some ""
  | S n => b ← ptr !! n; rest ← put_bytes false ptr n;
           Some ((if padded then hex_byte2 b else hex_byte b) +:+ rest)
  end.

Definition block_to_string (blk : block_type) (size : nat) : option string :=
  match blk with
  | None => Some "-"
  | Some ptr =>
    i ← skip_high_zeros ptr (size - 1);
    b ← ptr !! i;
    rest ← put_bytes true ptr i;
    Some ("0x" +:+ hex_byte b +:+ rest)
  end.

Definition sync_name (k : SymKind) : string :=
  match k with
  | LOAD => "Load(" | M_INIT => "MInit(" | M_LOCK => "MLock(" | M_TRYLOCK => "MTryLock("
  | M_TRYLOCK_FAIL => "MTryLockFail(" | M_UNLOCK => "MUnlock(" | M_DELETE => "MDelete("
  | C_INIT => "CInit(" | C_SIGNAL => "CSignal(" | C_BRDCST => "CBrdcst(" | C_WAIT => "CWait("
  | C_AWAKE => "CAwake(" | C_DELETE => "CDelete(" | _ => "?"
  end.

Definition ev_to_string (pid_str : Z -> string) (e : SymEv) : option string :=
  let addr := a ← arg_addr (ev_arg e); sas_to_string pid_str a in
  let size := a ← arg_addr (ev_arg e); Some (Z.to_nat (sas_size a)) in
  let num := arg_num (ev_arg e) in
  match ev_kind e with
  | NONE => Some "None()"
  | NONDET => n ← num; Some ("Nondet(" +:+ pretty n +:+ ")")
  | LOAD_AWAIT =>
    a ← addr; sz ← size; o ← arg2_await (ev_arg2 e); on ← await_name o; on ← on;
    x ← block_to_string (ev_expected e) sz;
    Some ("LoadAwait(" +:+ a +:+ ", " +:+ on +:+ " " +:+ x +:+ ")")
  | STORE => a ← addr; sz ← size; w ← block_to_string (ev_written e) sz;
             Some ("Store(" +:+ a +:+ "," +:+ w +:+ ")")
  | FULLMEM => Some "Fullmem()"
  | SPAWN => n ← num; Some ("Spawn(" +:+ pid_str n +:+ ")")
  | JOIN => n ← num; Some ("Join(" +:+ pid_str n +:+ ")")
  | UNOBS_STORE => a ← addr; sz ← size; w ← block_to_string (ev_written e) sz;
                   Some ("UnobsStore(" +:+ a +:+ "," +:+ w +:+ ")")
  | RMW =>
    a ← addr; sz ← size; w ← block_to_string (ev_written e) sz;
    k ← arg2_rmw (ev_arg2 e); kn ← rmw_name k; kn ← kn; x ← block_to_string (ev_expected e) sz;
    Some ("Rmw(" +:+ a +:+ "," +:+ w +:+ "," +:+ kn +:+ " " +:+ x +:+ ")")
  | XCHG_AWAIT =>
    a ← addr; sz ← size; w ← block_to_string (ev_written e) sz;
    o ← arg2_await (ev_arg2 e); on ← await_name o; on ← on; x ← block_to_string (ev_expected e) sz;
    Some ("XchgAwait(" +:+ a +:+ "," +:+ w +:+ ", " +:+ on +:+ " " +:+ x +:+ ")")
  | CMPXHG =>
    a ← addr; sz ← size; x ← block_to_string (ev_expected e) sz; w ← block_to_string (ev_written e) sz;
    Some ("CmpXhg(" +:+ a +:+ "," +:+ x +:+ "," +:+ w +:+ ")")
  | CMPXHGFAIL =>
    a ← addr; sz ← size; x ← block_to_string (ev_expected e) sz; w ← block_to_string (ev_written e) sz;
    Some ("CmpXhgFail(" +:+ a +:+ "," +:+ x +:+ "," +:+ w +:+ ")")
  | k => a ← addr; Some (sync_name k +:+ a +:+ ")")
  end.

(** ** Conflicts *)

(** The part of the configuration the conflict tests read. *)
Record ConflictConf := MkConflictConf { commute_rmws : bool }.

Definition rmwaction_commutes (conf : ConflictConf) (lhs : RmwKind) (lhs_used : bool)
    (rhs : RmwKind) (rhs_used : bool) : bool :=
  if negb (commute_rmws conf) then false
  else if lhs_used || rhs_used then false
  else match lhs with
       | ADD | SUB => bool_decide (rhs = ADD) || bool_decide (rhs = SUB)
       | XCHG => false
       | _ => bool_decide (rhs = lhs)
       end.

Definition symev_has_pid (e : SymEv) : bool :=
  bool_decide (ev_kind e = SPAWN) || bool_decide (ev_kind e = JOIN).
Definition symev_is_load (e : SymEv) : bool :=
  match ev_kind e with LOAD | CMPXHGFAIL | LOAD_AWAIT => true | _ => false end.
Definition symev_is_unobs_store (e : SymEv) : bool := bool_decide (ev_kind e = UNOBS_STORE).
Definition symev_is_store (e : SymEv) : bool :=
  match ev_kind e with UNOBS_STORE | STORE => true | _ => false end.
Definition symev_does_store (e : SymEv) : bool :=
  match ev_kind e with UNOBS_STORE | STORE | CMPXHG | RMW | XCHG_AWAIT => true | _ => false end.
Definition symev_does_load (e : SymEv) : bool :=
  match ev_kind e with
  | LOAD | RMW | CMPXHG | CMPXHGFAIL | LOAD_AWAIT | XCHG_AWAIT | FULLMEM => true | _ => false
  end.

Definition do_symevs_conflict (conf : ConflictConf) (fst snd : SymEv) : option bool :=
  let k := ev_kind fst in
  let k' := ev_kind snd in
  if decide (k = NONDET \/ k' = NONDET) then Some false
  else if decide (k = FULLMEM \/ k' = FULLMEM) then Some true
  else if symev_is_load fst && symev_is_load snd then Some false
  else
    unobs ← (if symev_is_unobs_store fst && symev_is_unobs_store snd
             then a ← ev_addr fst; b ← ev_addr snd; Some (sas_eq a b) else Some false);
    if unobs : bool then Some false
    else
      commute ← (if decide (k = RMW /\ k' = RMW) then
                   a ← ev_addr fst; b ← ev_addr snd;
                   if sas_eq a b then
                     x ← ev_rmw_kind fst; xu ← ev_rmw_used fst;
                     y ← ev_rmw_kind snd; yu ← ev_rmw_used snd;
                     Some (rmwaction_commutes conf x xu y yu)
                   else Some false
                 else Some false);
      if commute : bool then Some false
      else if has_addr fst then
        if has_addr snd then a ← ev_addr fst; b ← ev_addr snd; Some (sas_overlaps a b)
        else Some false
      else Some false.

(** Process ids are [int]; two ids share a thread. *)
Definition thread_of (pid : Z) : Z := Z.quot pid 2.

Fixpoint any_symev_conflict (conf : ConflictConf) (fe : SymEv) (snd : list SymEv) : option bool :=
  match snd with
  | [] => Some false
  | se :: snd => c ← do_symevs_conflict conf fe se;
                 if c : bool then Some true else any_symev_conflict conf fe snd
  end.

(** Some event of [evs] is a spawn or join of [pid]'s thread. *)
Fixpoint any_pid_conflict (evs : list SymEv) (pid : Z) : option bool :=
  match evs with
  | [] => Some false
  | se :: evs =>
    hit ← (if symev_has_pid se then n ← ev_num se; Some (bool_decide (n = thread_of pid)) else Some false);
    if hit : bool then Some true else any_pid_conflict evs pid
  end.

Fixpoint events_conflict_loop (conf : ConflictConf) (fst : list SymEv) (snd_pid : Z) (snd : list SymEv)
    : option bool :=
  match fst with
  | [] => Some false
  | fe :: fst =>
    hit ← (if symev_has_pid fe then n ← ev_num fe; Some (bool_decide (n = thread_of snd_pid))
           else Some false);
    if hit : bool then Some true
    else
      c ← any_symev_conflict conf fe snd;
      if c : bool then Some true else events_conflict_loop conf fst snd_pid snd
  end.

Definition do_events_conflict (conf : ConflictConf) (fst_pid : Z) (fst : list SymEv)
    (snd_pid : Z) (snd : list SymEv) : option bool :=
  if decide (fst_pid = snd_pid) then Some true
  else
    c ← events_conflict_loop conf fst snd_pid snd;
    if c : bool then Some true else any_pid_conflict snd fst_pid.

(** *** Conflicts that exist only if the store is observed *)

Definition is_observed_conflict1 (fst_pid : Z) (fst : SymEv) (snd_pid : Z) (snd : SymEv) (thd : SymEv)
    : option bool :=
  _ ← cassert (bool_decide (fst_pid <> snd_pid));
  _ ← cassert (bool_decide (ev_kind fst = UNOBS_STORE));
  _ ← cassert (bool_decide (ev_kind snd = STORE));
  a ← ev_addr fst; b ← ev_addr snd;
  _ ← cassert (sas_overlaps a b);
  if decide (ev_kind thd = FULLMEM) then Some true
  else if symev_does_load thd then c ← ev_addr thd; Some (sas_overlaps c b) else Some false.

(** [for x in l: if (f x) return true;] *)
Fixpoint any_opt {A} (f : A -> option bool) (l : list A) : option bool :=
  match l with
  | [] => Some false
  | x :: l => c ← f x; if c : bool then Some true else any_opt f l
  end.

Definition is_observed_conflict (fst_pid : Z) (fst : list SymEv) (snd_pid : Z) (snd : list SymEv)
    (thd : list SymEv) : option bool :=
  if decide (fst_pid = snd_pid) then Some false
  else
    any_opt (fun fe =>
      if decide (ev_kind fe <> UNOBS_STORE) then Some false
      else any_opt (fun se =>
        skip ← (if decide (ev_kind se <> STORE) then Some true
                else a ← ev_addr fe; b ← ev_addr se; Some (negb (sas_overlaps a b)));
        if skip : bool then Some false
        else any_opt (fun te => is_observed_conflict1 fst_pid fe snd_pid se te) thd) snd) fst.

(** ** Well-formed events: the tag matches the unions *)

Definition ev_wf (e : SymEv) : Prop :=
  (has_addr e = true -> exists a, ev_arg e = ArgAddr a /\ sas_wf a) /\
  (has_num e = true -> exists n, ev_arg e = ArgNum n) /\
  (ev_kind e = RMW -> exists k, ev_arg2 e = ArgRmw k) /\
  (has_cond e = true -> exists o, ev_arg2 e = ArgAwait o).

Lemma ev_addr_wf e : ev_wf e -> has_addr e = true -> exists a, ev_addr e = Some a /\ sas_wf a.
Proof.
  intros [Ha _] Hh. destruct (Ha Hh) as (a & Harg & Hwf). exists a.
  unfold ev_addr. rewrite Hh. simpl. by rewrite Harg.
Qed.
Lemma ev_num_wf e : ev_wf e -> has_num e = true -> exists n, ev_num e = Some n.
Proof.
  intros (_ & Hn & _) Hh. destruct (Hn Hh) as (n & Harg). exists n.
  unfold ev_num. rewrite Hh. simpl. by rewrite Harg.
Qed.
Lemma ev_rmw_wf e : ev_wf e -> ev_kind e = RMW -> exists k,
  ev_rmw_kind e = Some k /\ ev_rmw_used e = Some (ev_rmw_result_used e) /\ ev_arg2 e = ArgRmw k.
Proof.
  intros (_ & _ & Hk & _) Hr. destruct (Hk Hr) as (k & Harg). exists k.
  unfold ev_rmw_kind, ev_rmw_used, has_rmwaction. rewrite Hr, Harg. done.
Qed.

Lemma rmwaction_commutes_sym conf x xu y yu :
  rmwaction_commutes conf x xu y yu = rmwaction_commutes conf y yu x xu.
Proof.
  unfold rmwaction_commutes. destruct (commute_rmws conf); [simpl|done].
  rewrite orb_comm. destruct (yu || xu); [done|].
  by destruct x, y.
Qed.

Lemma sas_eq_sym a b : sas_eq a b = sas_eq b a.
Proof. apply eq_true_iff_eq. rewrite !sas_eq_spec. by split. Qed.

(** What the conflict test decides, case by case. *)
Lemma do_symevs_conflict_spec conf e1 e2 : ev_wf e1 -> ev_wf e2 ->
  exists r, do_symevs_conflict conf e1 e2 = Some r /\ do_symevs_conflict conf e2 e1 = Some r.
Proof.
  intros Hw1 Hw2. unfold do_symevs_conflict.
  rewrite (decide_ext (ev_kind e2 = NONDET \/ _) (ev_kind e1 = NONDET \/ ev_kind e2 = NONDET)) by tauto.
  destruct (decide (ev_kind e1 = NONDET \/ ev_kind e2 = NONDET)) as [Hn|Hn]; [eauto|].
  rewrite (decide_ext (ev_kind e2 = FULLMEM \/ _) (ev_kind e1 = FULLMEM \/ ev_kind e2 = FULLMEM)) by tauto.
  destruct (decide (ev_kind e1 = FULLMEM \/ ev_kind e2 = FULLMEM)) as [Hf|Hf]; [eauto|].
  rewrite (andb_comm (symev_is_load e2)). destruct (symev_is_load e1 && symev_is_load e2); [eauto|].
  assert (Haddr : has_addr e1 = true -> has_addr e2 = true -> exists a b, ev_addr e1 = Some a /\ ev_addr e2 = Some b).
  { intros H1 H2. destruct (ev_addr_wf e1 Hw1 H1) as (a & ? & _), (ev_addr_wf e2 Hw2 H2) as (b & ? & _); eauto. }
  rewrite (andb_comm (symev_is_unobs_store e2)).
  destruct (symev_is_unobs_store e1 && symev_is_unobs_store e2) eqn:Hu; cbn [mbind option_bind].
  - unfold symev_is_unobs_store in Hu. apply andb_true_iff in Hu as [H1%bool_decide_eq_true H2%bool_decide_eq_true].
    assert (Ha1 : has_addr e1 = true) by (unfold has_addr; by rewrite H1).
    assert (Ha2 : has_addr e2 = true) by (unfold has_addr; by rewrite H2).
    destruct (Haddr Ha1 Ha2) as (a & b & -> & ->). cbn [mbind option_bind].
    rewrite (sas_eq_sym b a). destruct (sas_eq a b); [eauto|].
    rewrite !decide_False by (rewrite H1, H2; naive_solver). cbn [mbind option_bind].
    rewrite Ha1, Ha2, (sas_overlaps_sym b a). eauto.
  - rewrite (decide_ext (ev_kind e2 = RMW /\ _) (ev_kind e1 = RMW /\ ev_kind e2 = RMW)) by tauto.
    destruct (decide (ev_kind e1 = RMW /\ ev_kind e2 = RMW)) as [[H1 H2]|Hr]; cbn [mbind option_bind].
    + assert (Ha1 : has_addr e1 = true) by (unfold has_addr; by rewrite H1).
      assert (Ha2 : has_addr e2 = true) by (unfold has_addr; by rewrite H2).
      destruct (Haddr Ha1 Ha2) as (a & b & -> & ->). cbn [mbind option_bind].
      destruct (ev_rmw_wf e1 Hw1 H1) as (x & -> & -> & _), (ev_rmw_wf e2 Hw2 H2) as (y & -> & -> & _).
      cbn [mbind option_bind]. rewrite (sas_eq_sym b a), (rmwaction_commutes_sym _ y).
      rewrite Ha1, Ha2, (sas_overlaps_sym b a).
      destruct (sas_eq a b); cbn [mbind option_bind]; [destruct rmwaction_commutes|]; eauto.
    + destruct (has_addr e1) eqn:Ha1, (has_addr e2) eqn:Ha2; eauto.
      destruct (Haddr eq_refl eq_refl) as (a & b & -> & ->). cbn [mbind option_bind].
      rewrite (sas_overlaps_sym b a). eauto.
Qed.

(** ** A memory the events act on *)

Definition mem : Type := SymAddr -> Z.

Definition byte_at (a : SymAddrSize) (i : nat) : SymAddr :=
  MkSymAddr (sa_block (sas_addr a)) (sa_offset (sas_addr a) + Z.of_nat i).
Definition mread (m : mem) (a : SymAddrSize) : list Z :=
  map (fun i => m (byte_at a i)) (seq 0 (Z.to_nat (sas_size a))).
Definition in_range (a : SymAddrSize) (x : SymAddr) : bool :=
  bool_decide (sa_block x = sa_block (sas_addr a)
    /\ sa_offset (sas_addr a) <= sa_offset x < sa_offset (sas_addr a) + sas_size a).
Definition mwrite (m : mem) (a : SymAddrSize) (bs : list Z) : mem := fun x =>
  if in_range a x then default (m x) (bs !! Z.to_nat (sa_offset x - sa_offset (sas_addr a))) else m x.

Definition mem_bytes (m : mem) : Prop := forall x, 0 <= m x < 256.

Lemma length_mread m a : length (mread m a) = Z.to_nat (sas_size a).
Proof. unfold mread. by rewrite length_map, length_seq. Qed.

Lemma mread_lookup m a i : (i < Z.to_nat (sas_size a))%nat -> mread m a !! i = Some (m (byte_at a i)).
Proof. intros Hi. unfold mread. by rewrite list_lookup_fmap, lookup_seq_lt. Qed.

Lemma mread_bytes m a : mem_bytes m -> bytes (mread m a).
Proof. intros Hm. apply Forall_lookup_2. intros i x. unfold mread.
  rewrite list_lookup_fmap. destruct (seq _ _ !! i); [|done]. intros [= <-]. apply Hm. Qed.

Lemma in_range_byte_at a i : (i < Z.to_nat (sas_size a))%nat -> in_range a (byte_at a i) = true.
Proof. intros. apply bool_decide_eq_true. unfold byte_at. simpl. split; [done|lia]. Qed.

Lemma in_range_inv a x : in_range a x = true ->
  x = byte_at a (Z.to_nat (sa_offset x - sa_offset (sas_addr a))) /\
  (Z.to_nat (sa_offset x - sa_offset (sas_addr a)) < Z.to_nat (sas_size a))%nat.
Proof.
  intros [Hb Ho]%bool_decide_eq_true. unfold byte_at. split; [|lia].
  rewrite Z2Nat.id by lia. rewrite <-Hb. destruct x; simpl in *. f_equal. lia.
Qed.

Lemma mread_ext m m' a : (forall x, in_range a x = true -> m x = m' x) -> mread m a = mread m' a.
Proof.
  intros Heq. apply list_eq. intros i. destruct (decide (i < Z.to_nat (sas_size a))%nat) as [Hi|Hi].
  - rewrite !mread_lookup by done. f_equal. by apply Heq, in_range_byte_at.
  - by rewrite !lookup_ge_None_2 by (rewrite length_mread; lia).
Qed.

Definition disjoint_ranges (a b : SymAddrSize) : Prop := forall x, ~ (in_range a x = true /\ in_range b x = true).

Lemma mread_mwrite_disjoint m a b bs : disjoint_ranges a b -> mread (mwrite m a bs) b = mread m b.
Proof.
  intros Hd. apply mread_ext. intros x Hx. unfold mwrite.
  destruct (in_range a x) eqn:E; [|done]. by destruct (Hd x).
Qed.

Lemma mread_mwrite_same m a bs : length bs = Z.to_nat (sas_size a) -> mread (mwrite m a bs) a = bs.
Proof.
  intros Hl. apply list_eq. intros i. destruct (decide (i < Z.to_nat (sas_size a))%nat) as [Hi|Hi].
  - rewrite mread_lookup by done. unfold mwrite. rewrite in_range_byte_at by done.
    destruct (lookup_lt_exists bs i) as [y Hy]; [lia|]. unfold byte_at. simpl.
    replace (Z.to_nat _) with i by lia. by rewrite Hy.
  - by rewrite !lookup_ge_None_2 by (rewrite ?length_mread; lia).
Qed.

Lemma mwrite_comm m a b bs cs x : disjoint_ranges a b ->
  mwrite (mwrite m a bs) b cs x = mwrite (mwrite m b cs) a bs x.
Proof.
  intros Hd. unfold mwrite. destruct (in_range a x) eqn:Ea, (in_range b x) eqn:Eb; try done.
  by destruct (Hd x).
Qed.

Lemma mwrite_same m a bs cs x : length bs = Z.to_nat (sas_size a) -> length cs = Z.to_nat (sas_size a) ->
  mwrite (mwrite m a bs) a cs x = mwrite m a cs x.
Proof.
  intros Hb Hc. unfold mwrite. destruct (in_range a x) eqn:E; [|done].
  apply in_range_inv in E as [_ Hi].
  by destruct (lookup_lt_exists cs (Z.to_nat (sa_offset x - sa_offset (sas_addr a)))) as [y ->]; [lia|].
Qed.

Lemma mwrite_mread m a x : mwrite m a (mread m a) x = m x.
Proof.
  unfold mwrite. destruct (in_range a x) eqn:E; [|done]. apply in_range_inv in E as [Hx Hi].
  rewrite mread_lookup by done. simpl. by rewrite <-Hx.
Qed.

Lemma overlaps_false_disjoint a b : sas_wf a -> sas_wf b -> sas_overlaps a b = false -> disjoint_ranges a b.
Proof.
  intros Ha Hb Ho x [[H1 H2]%bool_decide_eq_true [H3 H4]%bool_decide_eq_true].
  enough (sas_overlaps a b = true) by congruence.
  apply sas_overlaps_spec; [done|done|lia|lia|]. by exists x.
Qed.

(** ** Commuting read-modify-writes *)

Lemma rmw_result_range k n x a : 0 <= x < 256 ^ Z.of_nat n -> 0 <= a < 256 ^ Z.of_nat n ->
  k <> AND -> k <> NAND -> k <> OR -> k <> XOR -> 0 <= rmw_result k n x a < 256 ^ Z.of_nat n.
Proof.
  intros Hx Ha. assert (0 < 256 ^ Z.of_nat n) by lia.
  destruct k; simpl; intros; try done; try lia; try (case_decide; lia);
    apply Z.mod_pos_bound; lia.
Qed.

Lemma to_signed_inj n x y : 0 <= x < 256 ^ Z.of_nat n -> 0 <= y < 256 ^ Z.of_nat n ->
  to_signed n x = to_signed n y -> x = y.
Proof. unfold to_signed. rewrite <-pow256. intros. repeat case_decide; lia. Qed.

Lemma rmw_result_comm k1 k2 n x a b :
  0 <= x < 256 ^ Z.of_nat n -> 0 <= a < 256 ^ Z.of_nat n -> 0 <= b < 256 ^ Z.of_nat n ->
  rmwaction_commutes (MkConflictConf true) k1 false k2 false = true -> k1 <> NAND ->
  rmw_result k2 n (rmw_result k1 n x a) b = rmw_result k1 n (rmw_result k2 n x b) a.
Proof.
  intros Hx Ha Hb Hc Hn.
  assert (k1 = k2 /\ k1 <> XCHG \/ k1 = ADD /\ k2 = SUB \/ k1 = SUB /\ k2 = ADD) as Hk
    by (destruct k1, k2; simpl in Hc; naive_solver).
  destruct Hk as [[<- Hx']|[[-> ->]|[-> ->]]].
  - destruct k1; try done; cbn [rmw_result].
    + rewrite !Zplus_mod_idemp_l. f_equal. lia.
    + rewrite !Zminus_mod_idemp_l. f_equal. lia.
    + rewrite <-!Z.land_assoc. f_equal. apply Z.land_comm.
    + rewrite <-!Z.lor_assoc. f_equal. apply Z.lor_comm.
    + rewrite !Z.lxor_assoc. f_equal. apply Z.lxor_comm.
    + assert (to_signed n a = to_signed n b -> a = b) by (by apply to_signed_inj).
      repeat (case_decide; try lia). 
    + assert (to_signed n a = to_signed n b -> a = b) by (by apply to_signed_inj).
      repeat (case_decide; try lia).
    + lia.
    + lia.
  - cbn [rmw_result]. rewrite Zminus_mod_idemp_l, Zplus_mod_idemp_l. f_equal. lia.
  - cbn [rmw_result]. rewrite Zminus_mod_idemp_l, Zplus_mod_idemp_l. f_equal. lia.
Qed.

(** The same on bytes: two applications in either order give the same block. *)
Lemma apply_to_comm be k1 k2 (x a b y z : list Z) :
  bytes x -> bytes a -> bytes b -> length a = length x -> length b = length x ->
  rmwaction_commutes (MkConflictConf true) k1 false k2 false = true -> k1 <> NAND ->
  apply_to be k1 a x (length x) x = Some y -> apply_to be k2 b y (length y) y = Some z ->
  exists y', apply_to be k2 b x (length x) x = Some y' /\ apply_to be k1 a y' (length y') y' = Some z.
Proof.
  intros Hx Ha Hb Hla Hlb Hc Hn Ey Ez.
  destruct (apply_to_spec be k1 a x x) as (y0 & Ey0 & Hly & Hby & Hvy); [done..|].
  rewrite Ey in Ey0. simplify_eq.
  destruct (apply_to_spec be k2 b y0 y0) as (z0 & Ez0 & Hlz & Hbz & Hvz); [done..|congruence|done|].
  rewrite Ez in Ez0. simplify_eq.
  destruct (apply_to_spec be k2 b x x) as (y' & Ey' & Hly' & Hby' & Hvy'); [done..|].
  destruct (apply_to_spec be k1 a y' y') as (z' & Ez' & Hlz' & Hbz' & Hvz'); [done..|congruence|done|].
  exists y'. split; [done|]. rewrite Ez'. f_equal. apply (val_inj be); [done..|congruence|].
  rewrite Hvz, Hvz', Hvy, Hvy', Hly, Hly'. symmetry.
  pose proof (val_range be x Hx). pose proof (val_range be a Ha). pose proof (val_range be b Hb).
  rewrite Hla, Hlb in *. by apply rmw_result_comm.
Qed.

Definition ev_covers (e : SymEv) (x : SymAddr) : bool :=
  match ev_addr e with Some a => in_range a x | None => false end.

(** ** What events do to memory

    The reference semantics: an event with an address reads its bytes, yields
    an observation and new bytes. [sync] is the effect of the mutex and
    condition variable events, of which only locality matters here. *)
Section exec.
Context (be : bool) (sync : SymEv -> list Z -> list Z * list Z).

Definition local_effect (e : SymEv) (bs : list Z) : option (list Z * list Z) :=
  match ev_kind e with
  | LOAD | LOAD_AWAIT | CMPXHGFAIL => Some (bs, bs)
  | STORE | UNOBS_STORE => new ← ev_written e; Some ([], new)
  | XCHG_AWAIT => new ← ev_written e; Some (bs, new)
  | CMPXHG => expd ← ev_expected e; new ← ev_written e;
              Some (bs, if decide (bs = expd) then new else bs)
  | RMW => a ← ev_rmwaction e; op ← ra_operand a;
           new ← apply_to be (ra_kind a) op bs (length bs) bs;
           Some (if ra_result_used a then bs else [], new)
  | _ => Some (sync e bs)
  end.

Definition exec (e : SymEv) (m : mem) : option (list Z * mem) :=
  a ← ev_addr e; r ← local_effect e (mread m a); Some (r.1, mwrite m a r.2).

(** The operand of a read-modify-write has the size of its target. *)
Definition rmw_operand_ok (e : SymEv) : Prop :=
  ev_kind e = RMW -> forall a op, ev_addr e = Some a -> ev_expected e = Some op ->
  bytes op /\ length op = Z.to_nat (sas_size a).

Lemma exec_disjoint e1 e2 a b m o1 m1 o2 m2 :
  ev_addr e1 = Some a -> ev_addr e2 = Some b -> disjoint_ranges a b ->
  exec e1 m = Some (o1, m1) -> exec e2 m1 = Some (o2, m2) ->
  exists m1' m2', exec e2 m = Some (o2, m1') /\ exec e1 m1' = Some (o1, m2') /\
    forall x, m2 x = m2' x.
Proof.
  unfold exec. intros -> -> Hd. cbn [mbind option_bind]. intros H1 H2.
  destruct (local_effect e1 (mread m a)) as [[p q]|] eqn:E1; simplify_eq/=.
  rewrite mread_mwrite_disjoint in H2 by done.
  destruct (local_effect e2 (mread m b)) as [[p' q']|] eqn:E2; simplify_eq/=.
  exists (mwrite m b q'), (mwrite (mwrite m b q') a q).
  rewrite mread_mwrite_disjoint, E1 by (intros x ?; apply (Hd x); tauto).
  split_and!; [done|done|]. intros x. by apply mwrite_comm.
Qed.

Lemma exec_load e m o m' : symev_is_load e = true -> exec e m = Some (o, m') ->
  exists a, ev_addr e = Some a /\ o = mread m a /\ m' = mwrite m a (mread m a).
Proof.
  unfold symev_is_load, exec, local_effect. intros Hl. destruct (ev_addr e) as [a|]; [|done].
  destruct (ev_kind e); simpl; try done; intros; simplify_eq; eauto.
Qed.

Lemma exec_loads e1 e2 m o1 m1 o2 m2 :
  symev_is_load e1 = true -> symev_is_load e2 = true ->
  exec e1 m = Some (o1, m1) -> exec e2 m1 = Some (o2, m2) ->
  exists m1' m2', exec e2 m = Some (o2, m1') /\ exec e1 m1' = Some (o1, m2') /\
    forall x, m2 x = m2' x.
Proof.
  assert (Hload : forall e m a, symev_is_load e = true -> ev_addr e = Some a ->
    exec e m = Some (mread m a, mwrite m a (mread m a))).
  { unfold symev_is_load, exec, local_effect. intros e m' a Hl ->. by destruct (ev_kind e). }
  assert (Hext : forall m a b, mread (mwrite m a (mread m a)) b = mread m b).
  { intros. apply mread_ext. intros. apply mwrite_mread. }
  intros H1 H2 E1 E2. destruct (exec_load _ _ _ _ H1 E1) as (a & Ha & -> & ->).
  destruct (exec_load _ _ _ _ H2 E2) as (b & Hb & -> & ->).
  exists (mwrite m b (mread m b)), (mwrite (mwrite m b (mread m b)) a (mread (mwrite m b (mread m b)) a)).
  rewrite (Hload e2 m b H2 Hb), (Hload e1 _ a H1 Ha).
  split_and!; [by rewrite Hext|by rewrite Hext|]. intros x. by rewrite !mwrite_mread.
Qed.

Lemma exec_rmw e m a k o m' : ev_kind e = RMW -> ev_addr e = Some a -> ev_arg2 e = ArgRmw k ->
  exec e m = Some (o, m') <-> exists op new, ev_expected e = Some op /\
    apply_to be k op (mread m a) (length (mread m a)) (mread m a) = Some new /\
    o = (if ev_rmw_result_used e then mread m a else []) /\ m' = mwrite m a new.
Proof.
  intros Hk Ha Harg. unfold exec, local_effect, ev_rmwaction, has_rmwaction. rewrite Ha, Hk, Harg.
  cbn [mbind option_bind]. rewrite (bool_decide_true (RMW = RMW)) by done. simpl.
  destruct (ev_expected e) as [op|]; simpl; [|by split; [intros [=]|intros (? & ? & [=] & _)]].
  destruct (apply_to _ _ _ _ _ _) as [new|] eqn:E; simpl.
  2:{ split; [intros [=]|]. intros (? & ? & [= <-] & ? & _). congruence. }
  split; [intros [= <- <-]; by exists op, new|]. intros (? & ? & [= <-] & ? & -> & ->). by simplify_eq.
Qed.

Lemma exec_rmws e1 e2 a k1 k2 m o1 m1 o2 m2 :
  ev_kind e1 = RMW -> ev_kind e2 = RMW -> ev_addr e1 = Some a -> ev_addr e2 = Some a ->
  ev_arg2 e1 = ArgRmw k1 -> ev_arg2 e2 = ArgRmw k2 -> mem_bytes m ->
  rmw_operand_ok e1 -> rmw_operand_ok e2 ->
  rmwaction_commutes (MkConflictConf true) k1 (ev_rmw_result_used e1) k2 (ev_rmw_result_used e2) = true ->
  k1 <> NAND ->
  exec e1 m = Some (o1, m1) -> exec e2 m1 = Some (o2, m2) ->
  exists m1' m2', exec e2 m = Some (o2, m1') /\ exec e1 m1' = Some (o1, m2') /\
    forall x, m2 x = m2' x.
Proof.
  intros Hk1 Hk2 Ha1 Ha2 Hg1 Hg2 Hm Hop1 Hop2 Hc Hn E1 E2.
  assert (ev_rmw_result_used e1 = false /\ ev_rmw_result_used e2 = false) as [Hu1 Hu2].
  { unfold rmwaction_commutes in Hc. simpl in Hc. destruct (ev_rmw_result_used e1), (ev_rmw_result_used e2); done. }
  rewrite Hu1, Hu2 in Hc.
  apply (exec_rmw _ _ a k1) in E1 as (x & y & Hx & Ey & -> & ->); [|done..].
  apply (exec_rmw _ _ a k2) in E2 as (x' & z & Hx' & Ez & -> & ->); [|done..].
  destruct (Hop1 Hk1 a x) as [Hbx Hlx]; [done|done|]. destruct (Hop2 Hk2 a x') as [Hbx' Hlx']; [done|done|].
  pose proof (mread_bytes m a Hm) as Hbm. pose proof (length_mread m a) as Hlm.
  assert (Hlen : forall k op bs out, bytes op -> bytes bs -> length op = length bs ->
    apply_to be k op bs (length bs) bs = Some out -> length out = length bs).
  { intros k op bs out Ho Hbs Hl E. destruct (apply_to_spec be k op bs bs) as (out' & E' & ? & _); [done..|].
    congruence. }
  assert (Hly : length y = length (mread m a)) by (eapply Hlen, Ey; [done|done|congruence]).
  rewrite mread_mwrite_same in Ez by congruence.
  destruct (apply_to_comm be k1 k2 (mread m a) x x' y z) as (y' & Ey' & Ez'); [done..|congruence|congruence|done|done|done|done|].
  assert (Hly' : length y' = length (mread m a)) by (eapply Hlen, Ey'; [done|done|congruence]).
  assert (Hby : bytes y).
  { destruct (apply_to_spec be k1 x (mread m a) (mread m a)) as (? & ? & ? & ? & _); [done..|congruence|done|congruence]. }
  assert (Hlz : length z = length y) by (eapply Hlen, Ez; [done|done|congruence]).
  exists (mwrite m a y'), (mwrite (mwrite m a y') a z). split_and!.
  - apply (exec_rmw _ _ a k2); [done..|]. exists x', y'. by rewrite Hu2.
  - apply (exec_rmw _ _ a k1); [done..|]. exists x, z. rewrite mread_mwrite_same by congruence. by rewrite Hu1.
  - intros w. by rewrite !mwrite_same by congruence.
Qed.

Lemma no_conflict_cases conf e1 e2 a b : ev_wf e1 -> ev_wf e2 ->
  ev_addr e1 = Some a -> ev_addr e2 = Some b -> do_symevs_conflict conf e1 e2 = Some false ->
  (symev_is_load e1 = true /\ symev_is_load e2 = true) \/
  (ev_kind e1 = UNOBS_STORE /\ ev_kind e2 = UNOBS_STORE /\ a = b) \/
  (ev_kind e1 = RMW /\ ev_kind e2 = RMW /\ a = b /\ commute_rmws conf = true /\ exists k1 k2,
    ev_arg2 e1 = ArgRmw k1 /\ ev_arg2 e2 = ArgRmw k2 /\
    rmwaction_commutes (MkConflictConf true) k1 (ev_rmw_result_used e1) k2 (ev_rmw_result_used e2) = true) \/
  sas_overlaps a b = false.
Proof.
  intros Hw1 Hw2 Ha Hb. unfold do_symevs_conflict. rewrite Ha, Hb.
  assert (has_addr e1 = true) as H1 by (unfold ev_addr in Ha; by destruct (has_addr e1)).
  assert (has_addr e2 = true) as H2 by (unfold ev_addr in Hb; by destruct (has_addr e2)).
  rewrite decide_False by (unfold has_addr in *; intros [E|E]; rewrite E in *; done).
  destruct (decide (ev_kind e1 = FULLMEM \/ ev_kind e2 = FULLMEM)); [done|].
  destruct (symev_is_load e1 && symev_is_load e2) eqn:El; [apply andb_true_iff in El; auto|].
  cbn [mbind option_bind]. rewrite H1, H2.
  destruct (symev_is_unobs_store e1 && symev_is_unobs_store e2) eqn:Eu; cbn [mbind option_bind].
  - apply andb_true_iff in Eu as [Eu1%bool_decide_eq_true Eu2%bool_decide_eq_true].
    destruct (sas_eq a b) eqn:Eab; [apply sas_eq_spec in Eab; auto|].
    rewrite decide_False by (rewrite Eu1; naive_solver). intros [= ?]. auto.
  - destruct (decide (ev_kind e1 = RMW /\ ev_kind e2 = RMW)) as [[Er1 Er2]|]; cbn [mbind option_bind];
      [|intros [= ?]; auto].
    destruct (sas_eq a b) eqn:Eab; [|intros [= ?]; auto]. apply sas_eq_spec in Eab as ->.
    destruct (ev_rmw_wf e1 Hw1 Er1) as (k1 & -> & -> & Hg1), (ev_rmw_wf e2 Hw2 Er2) as (k2 & -> & -> & Hg2).
    cbn [mbind option_bind].
    destruct (rmwaction_commutes conf k1 _ k2 _) eqn:Ec; [|intros [= ?]; auto].
    intros _. right; right; left. unfold rmwaction_commutes in *.
    destruct (commute_rmws conf); [|done]. split_and!; try done. eauto.
Qed.

Lemma exec_unobs_stores e1 e2 a m o1 m1 o2 m2 : ev_kind e1 = UNOBS_STORE -> ev_kind e2 = UNOBS_STORE ->
  ev_addr e1 = Some a -> ev_addr e2 = Some a -> exec e1 m = Some (o1, m1) -> exec e2 m1 = Some (o2, m2) ->
  exists m1' m2', exec e2 m = Some (o2, m1') /\ exec e1 m1' = Some (o1, m2') /\ forall x, ev_covers e1 x = false -> m2 x = m2' x.
Proof.
  intros Hk1 Hk2 Ha1 Ha2. unfold exec, local_effect, ev_covers. rewrite Ha1, Ha2, Hk1, Hk2. cbn [mbind option_bind].
  destruct (ev_written e1) as [n1|]; [|done]. destruct (ev_written e2) as [n2|]; [|done]. cbn [mbind option_bind fst snd].
  intros [= <- <-] [= <- <-]. eexists _, _. split_and!; [done|done|]. intros x Hx. unfold mwrite. by rewrite Hx.
Qed.

(** C35. Soundness of the conflict test, the basis of the partial order
    reduction: two events with addresses, not both NANDs, that do not conflict
    can be swapped in any memory without changing what either observes or the
    final memory; of two stores nobody observes the bytes they write are
    excepted, since there the last one wins. (Two NANDs are declared to commute
    and do not, see [rmw_commute_table].) *)
Theorem conflict_sound conf e1 e2 m o1 m1 o2 m2 :
  ev_wf e1 -> ev_wf e2 -> rmw_operand_ok e1 -> rmw_operand_ok e2 -> mem_bytes m ->
  do_symevs_conflict conf e1 e2 = Some false ->
  ~ (ev_arg2 e1 = ArgRmw NAND /\ ev_arg2 e2 = ArgRmw NAND) ->
  exec e1 m = Some (o1, m1) -> exec e2 m1 = Some (o2, m2) ->
  exists m1' m2', exec e2 m = Some (o2, m1') /\ exec e1 m1' = Some (o1, m2') /\
    forall x, ~ (ev_kind e1 = UNOBS_STORE /\ ev_kind e2 = UNOBS_STORE /\ ev_covers e1 x = true) -> m2 x = m2' x.
Proof.
  intros Hw1 Hw2 Hop1 Hop2 Hm Hc Hn E1 E2.
  destruct (ev_addr e1) as [a|] eqn:Ha; [|unfold exec in E1; by rewrite Ha in E1].
  destruct (ev_addr e2) as [b|] eqn:Hb; [|unfold exec in E2; by rewrite Hb in E2].
  assert (Hall : (exists m1' m2', exec e2 m = Some (o2, m1') /\ exec e1 m1' = Some (o1, m2') /\ forall x, m2 x = m2' x) ->
    exists m1' m2', exec e2 m = Some (o2, m1') /\ exec e1 m1' = Some (o1, m2') /\
      forall x, ~ (ev_kind e1 = UNOBS_STORE /\ ev_kind e2 = UNOBS_STORE /\ ev_covers e1 x = true) -> m2 x = m2' x)
    by (intros (m1' & m2' & ? & ? & ?); exists m1', m2'; auto).
  destruct (no_conflict_cases conf e1 e2 a b) as [[??]|[(Hu1 & Hu2 & <-)|[(Er1 & Er2 & <- & _ & k1 & k2 & Hg1 & Hg2 & Hcm)|Ho]]]; try done.
  - apply Hall. by eapply exec_loads.
  - destruct (exec_unobs_stores e1 e2 a m o1 m1 o2 m2) as (m1' & m2' & H1 & H2 & Hx); [done..|]. exists m1', m2'.
    split_and!; [done|done|]. intros x Hnx. apply Hx. destruct (ev_covers e1 x) eqn:E; [|done]. by destruct Hnx.
  - apply Hall. eapply (exec_rmws e1 e2 a k1 k2); eauto. intros ->. apply Hn. split; [done|]. rewrite Hg2. f_equal.
    revert Hcm. clear. unfold rmwaction_commutes. by destruct k2, (ev_rmw_result_used e1), (ev_rmw_result_used e2).
  - apply Hall. assert (has_addr e1 = true) as H1 by (unfold ev_addr in Ha; by destruct (has_addr e1)).
    assert (has_addr e2 = true) as H2 by (unfold ev_addr in Hb; by destruct (has_addr e2)).
    destruct (ev_addr_wf e1 Hw1 H1) as (a' & ? & ?), (ev_addr_wf e2 Hw2 H2) as (b' & ? & ?). simplify_eq.
    eapply exec_disjoint; eauto. by apply overlaps_false_disjoint.
Qed.
End exec.

(** ** The relation on whole events *)

(** [e] creates or joins the thread of [pid]. *)
Definition names_thread (pid : Z) (e : SymEv) : Prop :=
  symev_has_pid e = true /\ ev_num e = Some (thread_of pid).

Definition conflicting (conf : ConflictConf) (p1 : Z) (l1 : list SymEv) (p2 : Z) (l2 : list SymEv) : Prop :=
  p1 = p2 \/ (exists e, e ∈ l1 /\ names_thread p2 e) \/ (exists e, e ∈ l2 /\ names_thread p1 e) \/
  exists e f, e ∈ l1 /\ f ∈ l2 /\ do_symevs_conflict conf e f = Some true.

Lemma conflicting_sym conf p1 l1 p2 l2 : Forall ev_wf l1 -> Forall ev_wf l2 ->
  conflicting conf p1 l1 p2 l2 -> conflicting conf p2 l2 p1 l1.
Proof.
  rewrite !Forall_forall. intros H1 H2. unfold conflicting.
  intros [->|[?|[?|(e & f & He & Hf & Hc)]]]; auto. right; right; right. exists f, e.
  split_and!; [done|done|]. destruct (do_symevs_conflict_spec conf e f) as (r & E & E'); auto. congruence.
Qed.

Lemma names_thread_test e pid : ev_wf e ->
  exists r, (if symev_has_pid e then n ← ev_num e; Some (bool_decide (n = thread_of pid)) else Some false)
            = Some r /\ (r = true <-> names_thread pid e).
Proof.
  intros Hw. unfold names_thread. destruct (symev_has_pid e) eqn:E.
  - destruct (ev_num_wf e Hw) as [n Hn].
    { unfold symev_has_pid in E. unfold has_num.
      apply orb_true_iff in E as [E%bool_decide_eq_true|E%bool_decide_eq_true]; by rewrite E. }
    rewrite Hn. simpl. eexists; split; [done|]. rewrite bool_decide_eq_true. naive_solver.
  - exists false. naive_solver.
Qed.

Lemma any_symev_conflict_spec conf e l : ev_wf e -> Forall ev_wf l ->
  exists r, any_symev_conflict conf e l = Some r /\
    (r = true <-> exists f, f ∈ l /\ do_symevs_conflict conf e f = Some true).
Proof.
  intros He. induction 1 as [|f l Hf Hl (r & E & Hr)]; simpl.
  - exists false. split; [done|]. split; [done|]. by intros (? & ?%elem_of_nil & _).
  - destruct (do_symevs_conflict_spec conf e f He Hf) as ([] & Ec & _); rewrite Ec; simpl.
    + exists true. split; [done|]. split; [|done]. intros _. exists f. split; [by constructor|done].
    + exists r. split; [done|]. rewrite Hr. setoid_rewrite elem_of_cons. split.
      * intros (g & ? & ?). eauto.
      * intros (g & [->|?] & ?); [congruence|eauto].
Qed.

Lemma any_pid_conflict_spec l pid : Forall ev_wf l ->
  exists r, any_pid_conflict l pid = Some r /\ (r = true <-> exists e, e ∈ l /\ names_thread pid e).
Proof.
  induction 1 as [|e l He Hl (r & E & Hr)]; simpl.
  - exists false. split; [done|]. split; [done|]. by intros (? & ?%elem_of_nil & _).
  - destruct (names_thread_test e pid He) as ([] & Et & Ht); rewrite Et; simpl.
    + exists true. split; [done|]. split; [|done]. intros _. exists e. split; [by constructor|by apply Ht].
    + exists r. split; [done|]. rewrite Hr. setoid_rewrite elem_of_cons. split.
      * intros (g & ? & ?). eauto.
      * intros (g & [->|?] & Hg); [by apply Ht in Hg|eauto].
Qed.

Lemma events_conflict_loop_spec conf l1 p2 l2 : Forall ev_wf l1 -> Forall ev_wf l2 ->
  exists r, events_conflict_loop conf l1 p2 l2 = Some r /\
    (r = true <-> (exists e, e ∈ l1 /\ names_thread p2 e) \/
                  exists e f, e ∈ l1 /\ f ∈ l2 /\ do_symevs_conflict conf e f = Some true).
Proof.
  intros Hl1 Hl2. induction Hl1 as [|e l1 He Hl1 (r & E & Hr)]; simpl.
  - exists false. split; [done|]. split; [done|].
    by intros [(? & ?%elem_of_nil & _)|(? & ? & ?%elem_of_nil & _)].
  - destruct (names_thread_test e p2 He) as ([] & Et & Ht); rewrite Et; simpl.
    { exists true. split; [done|]. split; [|done]. intros _. left. exists e. split; [by constructor|by apply Ht]. }
    destruct (any_symev_conflict_spec conf e l2 He Hl2) as ([] & Ec & Hc); rewrite Ec; simpl.
    { exists true. split; [done|]. split; [|done]. intros _. right.
      destruct (proj1 Hc eq_refl) as (f & ? & ?). exists e, f. split; [by constructor|done]. }
    exists r. split; [done|]. rewrite Hr. setoid_rewrite elem_of_cons. split.
    + intros [(g & ? & ?)|(g & h & ? & ? & ?)]; [left; eauto|right; eauto 10].
    + intros [(g & [->|?] & Hg)|(g & h & [->|?] & ? & ?)].
      * by apply Ht in Hg.
      * left; eauto.
      * enough (false = true) by done. apply Hc. eauto.
      * right; eauto 10.
Qed.

Lemma do_events_conflict_spec conf p1 l1 p2 l2 : Forall ev_wf l1 -> Forall ev_wf l2 ->
  exists r, do_events_conflict conf p1 l1 p2 l2 = Some r /\ (r = true <-> conflicting conf p1 l1 p2 l2).
Proof.
  intros H1 H2. unfold do_events_conflict, conflicting. destruct (decide (p1 = p2)) as [->|Hne].
  { exists true. naive_solver. }
  destruct (events_conflict_loop_spec conf l1 p2 l2 H1 H2) as ([] & -> & Hc); simpl.
  - exists true. split; [done|]. split; [|done]. intros _. destruct (proj1 Hc eq_refl); auto.
  - destruct (any_pid_conflict_spec l2 p1 H2) as (r & -> & Hr). exists r. split; [done|].
    rewrite Hr. split; [auto|]. intros [?|[?|[?|?]]]; [done| |done|]; enough (false = true) by done;
      apply Hc; auto.
Qed.

(** The conflict test on whole events (a process id and its symbolic events)
    is total on well-formed events, decides the declarative conflict relation,
    and is symmetric, although the source scans its arguments differently. *)
Theorem events_conflict_symmetric conf p1 l1 p2 l2 :
  Forall ev_wf l1 -> Forall ev_wf l2 ->
  exists r, do_events_conflict conf p1 l1 p2 l2 = Some r /\
    do_events_conflict conf p2 l2 p1 l1 = Some r /\
    (r = true <-> conflicting conf p1 l1 p2 l2).
Proof.
  intros H1 H2. destruct (do_events_conflict_spec conf p1 l1 p2 l2 H1 H2) as (r & E & Hr).
  destruct (do_events_conflict_spec conf p2 l2 p1 l1 H2 H1) as (r' & E' & Hr').
  exists r. split_and!; [done| |done]. rewrite E'. f_equal. apply eq_true_iff_eq.
  rewrite Hr, Hr'. split; by apply conflicting_sym.
Qed.

(** C40. The table of commuting read-modify-writes: every pair the code declares
    commuting (results unused) gives the same bytes in either order, except
    that NAND is declared to commute with itself and does not. *)
Theorem rmw_commute_table :
  (forall be k1 k2 (x a b y z : list Z),
     rmwaction_commutes (MkConflictConf true) k1 false k2 false = true -> k1 <> NAND ->
     bytes x -> bytes a -> bytes b -> length a = length x -> length b = length x ->
     apply_to be k1 a x (length x) x = Some y -> apply_to be k2 b y (length y) y = Some z ->
     exists y', apply_to be k2 b x (length x) x = Some y' /\ apply_to be k1 a y' (length y') y' = Some z) /\
  rmwaction_commutes (MkConflictConf true) NAND false NAND false = true /\
  exists x a b y z y' z',
    apply_to false NAND a x 1 x = Some y /\ apply_to false NAND b y 1 y = Some z /\
    apply_to false NAND b x 1 x = Some y' /\ apply_to false NAND a y' 1 y' = Some z' /\ z <> z'.
Proof.
  split; [|split; [done|]].
  - intros be k1 k2 x a b y z Hc Hn Hx Ha Hb Hla Hlb Ey Ez. by eapply (apply_to_comm be k1 k2 x a b y z).
  - exists [1], [1], [0], [254], [255], [255], [254]. by vm_compute.
Qed.

(** What the wakeup tree may forget: purging the data blocks of events
    changes neither the conflict test nor the compatibility test of replay. *)
Theorem purge_preserves_tests conf e f :
  do_symevs_conflict conf (ev_purge_data e) (ev_purge_data f) = do_symevs_conflict conf e f /\
  (forall r, is_compatible_with e f = Some r -> is_compatible_with (ev_purge_data e) f = Some r) /\
  ev_purge_data (ev_purge_data e) = ev_purge_data e /\ has_data (ev_purge_data e) = false.
Proof.
  split_and!; [done| |done|by destruct e as [[]]].
  intros r. unfold is_compatible_with. cbn [ev_purge_data ev_kind ev_arg ev_arg2 ev_expected].
  destruct (decide _); [done|]. rewrite !(bool_decide_false (is_Some None)) by (by intros [? [=]]).
  destruct (decide (ev_kind e = RMW)) as [->|Hne].
  - destruct (arg2_rmw (ev_arg2 e)) as [x|]; [|done]. destruct (arg2_rmw (ev_arg2 f)) as [y|]; [|done].
    cbn [mbind option_bind]. destruct (decide (x <> y)); [done|].
    destruct (bool_decide (is_Some (ev_expected e))); [|done].
    by destruct (bool_decide (is_Some (ev_expected f))).
  - cbn [mbind option_bind negb]. destruct (ev_kind e); try done;
      (destruct (arg2_await (ev_arg2 e)) as [x|]; [|done]; destruct (arg2_await (ev_arg2 f)) as [y|]; [|done];
       cbn [mbind option_bind]; destruct (negb _); [done|];
       destruct (bool_decide (is_Some (ev_expected e))); [|done];
       by destruct (bool_decide (is_Some (ev_expected f)))).
Qed.

(** Printing of data blocks: [width(2)] pads only the first byte after the
    leading one, so blocks of different integers print alike: the 4-byte
    integers 0x00010203 and 0x00001023 are both shown as 0x1023. *)
Theorem block_to_string_collision :
  block_to_string (Some [3; 2; 1; 0]) 4 = Some "0x1023" /\
  block_to_string (Some [35; 16; 0; 0]) 4 = Some "0x1023" /\
  val false [3; 2; 1; 0] <> val false [35; 16; 0; 0].
Proof. by vm_compute. Qed.

(** ** Concrete runs *)

Definition wit_range : SymAddrSize := MkSymAddrSize (MkSymAddr (MkSymMBlock 65535 1) 0) 1.
Definition wit_rmw (k : RmwKind) (v : Z) : SymEv :=
  MkSymEv RMW (ArgAddr wit_range) (ArgRmw k) false (Some [v]) (Some [0]).

Lemma wit_rmw_wf k v : ev_wf (wit_rmw k v).
Proof.
  split_and!; [|done| |done]; intros _; eexists; [|done].
  split; [done|]. unfold_consts. simpl. lia.
Qed.

Lemma conflict_sound_witness :
  exists m1' m2', exec false (fun _ b => (b, b)) (wit_rmw SUB 3) (fun _ => 7) = Some ([], m1') /\
    exec false (fun _ b => (b, b)) (wit_rmw ADD 2) m1' = Some ([], m2') /\
    forall x, ~ (ev_kind (wit_rmw ADD 2) = UNOBS_STORE /\ ev_kind (wit_rmw SUB 3) = UNOBS_STORE /\ ev_covers (wit_rmw ADD 2) x = true) ->
      mwrite (mwrite (fun _ => 7) wit_range [9]) wit_range [6] x = m2' x.
Proof.
  apply (conflict_sound false (fun _ b => (b, b)) (MkConflictConf true) (wit_rmw ADD 2) (wit_rmw SUB 3)
    (fun _ => 7) [] (mwrite (fun _ => 7) wit_range [9])).
  - apply wit_rmw_wf.
  - apply wit_rmw_wf.
  - intros _ a op [= <-] [= <-]. split; [repeat constructor; lia|done].
  - intros _ a op [= <-] [= <-]. split; [repeat constructor; lia|done].
  - intros x. lia.
  - reflexivity.
  - by intros [[=] _].
  - reflexivity.
  - reflexivity.
Defined.

Lemma events_conflict_symmetric_witness :
  exists r, do_events_conflict (MkConflictConf false) 0 [wit_rmw ADD 1] 2 [SymEv_Spawn 0] = Some r /\
    do_events_conflict (MkConflictConf false) 2 [SymEv_Spawn 0] 0 [wit_rmw ADD 1] = Some r /\
    (r = true <-> conflicting (MkConflictConf false) 0 [wit_rmw ADD 1] 2 [SymEv_Spawn 0]).
Proof.
  apply (events_conflict_symmetric (MkConflictConf false) 0 [wit_rmw ADD 1] 2 [SymEv_Spawn 0]).
  - constructor; [apply wit_rmw_wf|constructor].
  - constructor; [|constructor]. split_and!; try done. intros _. by eexists.
Defined.

Example spawn_conflicts :
  do_events_conflict (MkConflictConf false) 0 [wit_rmw ADD 1] 2 [SymEv_Spawn 0] = Some true.
Proof. by vm_compute. Qed.
Example print_store :
  ev_to_string pretty (SymEv_Store (MkSymDataRef wit_range (Some [255]))) = Some "Store(Global(1)(1),0xff)".
Proof. by vm_compute. Qed.
