(* ===== verification/ReplayMem.v ===== *)
(** * ReplayMem: recomputing what memory holds from the recorded events
      (src/src/TSOTraceBuilder.cpp, lines 1905-2118)

    Race reversal needs the value an await or a compare-exchange would read if
    events were reordered, and the set of stores that some later event observes.
    The code scans the recorded events backwards, byte by byte, until every
    needed byte is found. The theorems say that the backward scans compute what
    running the events forwards would leave in memory. *)

From S2P Require Import Prelude VecSet SymAddr ByteOps SymEv.

Local Open Scope Z_scope.

Abbreviation sym_ty := (list SymEv).

Section replay.
Context (IsBigEndianHost : bool).

(** ** The scans

    Iterators [end], [begin] become the reversed list of events still to see. *)

(** Dereferencing the block of a [SymData]: a purged one is a null pointer. *)
Definition sdr_data (d : SymDataRef) : option SymData :=
  b ← sdr_block d; Some (MkSymData (sdr_ref d) b).
(** [p.data()\[a\]] *)
Definition ev_data_byte (p : SymEv) (a : SymAddr) : option Z :=
  d ← ev_data p; d ← sdr_data d; sd_get d a.

Definition rev_recompute_bytes (p : SymEv) (l : list SymAddr) (st : SymData * list SymAddr)
    : option (SymData * list SymAddr) :=
  for_each l (fun a st =>
    r ← erase st.2 a;
    if decide (r.2 <> 0%nat)
    then x ← ev_data_byte p a; data ← sd_set st.1 a x; Some (data, r.1)
    else Some (st.1, r.1)) st.

Fixpoint rev_recompute_loop (revs : list SymEv) (data : SymData) (needed : list SymAddr)
    : option (SymData * list SymAddr) :=
  match revs with
  | [] => Some (data, needed)
  | p :: revs =>
    if decide (needed = []) then Some (data, needed)
    else
      st ← (match ev_kind p with
            | STORE | UNOBS_STORE | RMW | CMPXHG | XCHG_AWAIT =>
              _ ← cassert (symev_does_store p);
              pa ← ev_addr p;
              if sas_overlaps (sd_ref data) pa
              then bs ← sas_bytes pa; rev_recompute_bytes p bs (data, needed)
              else Some (data, needed)
            | _ => _ ← cassert (negb (symev_does_store p)); Some (data, needed)
            end);
      rev_recompute_loop revs st.1 st.2
  end.

Definition rev_recompute_data (data : SymData) (needed : list SymAddr) (evs : list SymEv)
    : option (SymData * list SymAddr) := rev_recompute_loop (reverse evs) data needed.

(** The loop [for (j = i; !needed.empty();) { if (j-- == 0) break; ... }]. *)
Fixpoint rev_recompute_prefix (prefix : list sym_ty) (j : nat) (data : SymData) (needed : list SymAddr)
    : option (SymData * list SymAddr) :=
  if decide (needed = []) then Some (data, needed)
  else
    match j with
    | O => Some (data, needed)
    | S j => js ← prefix !! j; st ← rev_recompute_data data needed js;
             rev_recompute_prefix prefix j st.1 st.2
    end.

(** A block of [ml.size] zero bytes, and every byte of [ml]. *)
Definition zero_data (ml : SymAddrSize) : SymData := MkSymData ml (replicate (Z.to_nat (sas_size ml)) 0).
Definition all_bytes (ml : SymAddrSize) : option (list SymAddr) := bs ← sas_bytes ml; of_range bs.

Definition cond_satisfied (cond : AwaitCond) (data : SymData) : option bool :=
  operand ← ac_operand cond;
  satisfied_by IsBigEndianHost (ac_op cond) operand (sd_block data) (Z.to_nat (sas_size (sd_ref data))).

Definition awaitcond_satisfied_before (prefix : list sym_ty) (i : nat) (ml : SymAddrSize) (cond : AwaitCond)
    : option bool :=
  needed ← all_bytes ml;
  st ← rev_recompute_prefix prefix i (zero_data ml) needed;
  cond_satisfied cond st.1.

(** [recompute_scan_rev] pushes the events that matter on [stack], whose back is
    the head of the list here. *)
Definition scan_bytes (l : list SymAddr) (st : list SymAddr * bool) : option (list SymAddr * bool) :=
  for_each l (fun a st => r ← erase st.1 a; Some (r.1, st.2 || bool_decide (r.2 <> 0%nat))) st.

Fixpoint any_needed (needed l : list SymAddr) : option bool :=
  match l with
  | [] => Some false
  | a :: l => c ← count needed a; if decide (c <> 0) then Some true else any_needed needed l
  end.

Fixpoint recompute_scan_rev_loop (desired : SymAddrSize) (revs : list SymEv) (needed : list SymAddr)
    (stack : list SymEv) : option (list SymAddr * list SymEv) :=
  match revs with
  | [] => Some (needed, stack)
  | p :: revs =>
    if decide (needed = []) then Some (needed, stack)
    else
      st ← (match ev_kind p with
            | STORE | UNOBS_STORE | CMPXHG | XCHG_AWAIT =>
              _ ← cassert (symev_does_store p);
              sas ← ev_addr p;
              if sas_overlaps desired sas then
                bs ← sas_bytes sas; r ← scan_bytes bs (needed, false);
                Some (r.1, if r.2 : bool then p :: stack else stack)
              else Some (needed, stack)
            | RMW =>
              sas ← ev_addr p;
              any ← (if sas_overlaps desired sas then bs ← sas_bytes sas; any_needed needed bs
                     else Some false);
              if any : bool then
                _ ← cassert (sas_subsetof sas desired);
                more ← all_bytes sas; r ← insert_set needed more; Some (r.1, p :: stack)
              else Some (needed, stack)
            | _ => _ ← cassert (negb (symev_does_store p)); Some (needed, stack)
            end);
      recompute_scan_rev_loop desired revs st.1 st.2
  end.

Definition recompute_scan_rev (desired : SymAddrSize) (needed : list SymAddr) (stack : list SymEv) (evs : sym_ty)
    : option (list SymAddr * list SymEv) := recompute_scan_rev_loop desired (reverse evs) needed stack.

(** [p.rmwaction().apply_to(data_at_sas, sas.size, data_at_sas)] at offset
    [off] of the block. It works in place; every case of [apply_to] reads
    position [i] before it writes it, and no earlier one after, so that the
    aliasing cannot be observed. *)
Definition apply_in_place (r : RmwAction) (off size : nat) (block : list Z) : option (list Z) :=
  operand ← ra_operand r;
  let cur := take size (drop off block) in
  new ← apply_to IsBigEndianHost (ra_kind r) operand cur size cur;
  Some (take off block ++ new ++ drop (off + size) block).

Fixpoint recompute_replay_fwd (data : SymData) (stack : list SymEv) : option SymData :=
  match stack with
  | [] => Some data
  | p :: stack =>
    sas ← ev_addr p;
    data ← (if decide (ev_kind p = RMW) then
              _ ← cassert (sas_subsetof sas (sd_ref data));
              off ← sa_diff (sas_addr sas) (sas_addr (sd_ref data));
              r ← ev_rmwaction p;
              block ← apply_in_place r (Z.to_nat off) (Z.to_nat (sas_size sas)) (sd_block data);
              Some (MkSymData (sd_ref data) block)
            else
              _ ← cassert (symev_does_store p);
              _ ← cassert (sas_overlaps (sd_ref data) sas);
              bs ← sas_bytes sas;
              for_each bs (fun a data => x ← ev_data_byte p a; sd_set data a x) data);
    recompute_replay_fwd data stack
  end.

(** Both outer loops of [awaitcond_satisfied_by]: [evs] lists what the index
    [j] selects. *)
Fixpoint scan_prefix (evs : list sym_ty) (j : nat) (ml : SymAddrSize) (needed : list SymAddr)
    (stack : list SymEv) : option (list SymAddr * list SymEv) :=
  if decide (needed = []) then Some (needed, stack)
  else
    match j with
    | O => Some (needed, stack)
    | S j => js ← evs !! j; st ← recompute_scan_rev ml needed stack js;
             scan_prefix evs j ml st.1 st.2
    end.

Definition awaitcond_satisfied_by (prefix : list sym_ty) (i : nat) (seq : list nat) (ml : SymAddrSize)
    (cond : AwaitCond) : option bool :=
  needed ← all_bytes ml;
  seq_syms ← mapM (fun j => prefix !! j) seq;
  st ← scan_prefix seq_syms (length seq) ml needed [];
  st ← scan_prefix prefix i ml st.1 st.2;
  data ← recompute_replay_fwd (zero_data ml) st.2;
  cond_satisfied cond data.

(** [recompute_cmpxhg_success]: [es] is rewritten in place, front to back; [v] is
    the sequence of branches so far, by their events. *)
Definition recompute_cmpxhg1 (prefix : list sym_ty) (v : list sym_ty) (i : nat) (before : sym_ty) (e : SymEv)
    : option SymEv :=
  if decide (ev_kind e = CMPXHG \/ ev_kind e = CMPXHGFAIL) then
    ml ← ev_addr e;
    needed ← all_bytes ml;
    st ← rev_recompute_data (zero_data ml) needed before;
    st ← rev_recompute_prefix v (length v) st.1 st.2;
    st ← rev_recompute_prefix prefix i st.1 st.2;
    x ← ev_expected_data e; xb ← sdr_block x;
    c ← memcmp xb (sd_block st.1) (Z.to_nat (sas_size ml));
    d ← ev_data e;
    Some (if decide (c = 0) then SymEv_CmpXhg d (sdr_block x) else SymEv_CmpXhgFail d (sdr_block x))
  else Some e.

Fixpoint recompute_cmpxhg_loop (prefix : list sym_ty) (v : list sym_ty) (i : nat) (before es : sym_ty)
    : option sym_ty :=
  match es with
  | [] => Some before
  | e :: es => e ← recompute_cmpxhg1 prefix v i before e;
               recompute_cmpxhg_loop prefix v i (before ++ [e]) es
  end.

Definition recompute_cmpxhg_success (prefix : list sym_ty) (es : sym_ty) (v : list sym_ty) (i : nat)
    : option sym_ty := recompute_cmpxhg_loop prefix v i [] es.

(** ** Observed stores *)

Definition clear_observed (e : SymEv) : option SymEv :=
  if decide (ev_kind e = STORE) then set_observed e false else Some e.
Definition clear_observed_all (syms : sym_ty) : option sym_ty := mapM clear_observed syms.

(** One event of the backward pass; the state is [last_reads] and [read_all]. *)
Definition recompute_observed1 (e : SymEv) (last_reads : list SymAddr) (read_all : bool)
    : option (SymEv * (list SymAddr * bool)) :=
  match ev_kind e with
  | LOAD | RMW | CMPXHG | CMPXHGFAIL =>
    ml ← ev_addr e; bs ← all_bytes ml;
    if read_all then r ← erase_set last_reads bs; Some (e, (r.1, read_all))
    else r ← insert_set last_reads bs; Some (e, (r.1, read_all))
  | STORE => None
  | UNOBS_STORE =>
    ml ← ev_addr e; bs ← all_bytes ml;
    hit ← intersects last_reads bs;
    e' ← (if xorb read_all hit then d ← ev_data e; Some (SymEv_Store d) else Some e);
    if read_all then r ← insert_set last_reads bs; Some (e', (r.1, read_all))
    else r ← erase_set last_reads bs; Some (e', (r.1, read_all))
  | FULLMEM => Some (e, ([], true))
  | _ => Some (e, (last_reads, read_all))
  end.

(** Over the events of a branch, last first, rebuilding them in order. *)
Fixpoint recompute_observed_evs (revs : list SymEv) (last_reads : list SymAddr) (read_all : bool)
    (acc : sym_ty) : option (sym_ty * (list SymAddr * bool)) :=
  match revs with
  | [] => Some (acc, (last_reads, read_all))
  | e :: revs => r ← recompute_observed1 e last_reads read_all;
                 recompute_observed_evs revs r.2.1 r.2.2 (r.1 :: acc)
  end.

Fixpoint recompute_observed_branches (rv : list sym_ty) (last_reads : list SymAddr) (read_all : bool)
    (acc : list sym_ty) : option (list sym_ty) :=
  match rv with
  | [] => Some acc
  | b :: rv => r ← recompute_observed_evs (reverse b) last_reads read_all [];
               recompute_observed_branches rv r.2.1 r.2.2 (r.1 :: acc)
  end.

Definition recompute_observed (v : list sym_ty) : option (list sym_ty) :=
  v ← mapM clear_observed_all v;
  recompute_observed_branches (reverse v) [] false [].

(** ** Byte ranges and data blocks *)

(** A range that stays below offset 2^32, so that [includes] does not wrap. *)
Definition sas_ok (a : SymAddrSize) : Prop :=
  sas_wf a /\ 0 < sas_size a /\ sa_offset (sas_addr a) + sas_size a < 2 ^ 32.
Definition idx (a : SymAddrSize) (x : SymAddr) : nat := Z.to_nat (sa_offset x - sa_offset (sas_addr a)).

Lemma sas_bytes_ok a : sas_ok a -> exists l, sas_bytes a = Some l /\ NoDup l /\
  forall x, x ∈ l <-> in_range a x = true.
Proof.
  intros (Hwf & Hpos & Hlt). rewrite sas_bytes_spec by done. eexists. split; [done|].
  assert (Heq : map (fun i => sa_add (sas_addr a) (Z.of_nat i)) (seq 0 (Z.to_nat (sas_size a)))
              = map (byte_at a) (seq 0 (Z.to_nat (sas_size a)))).
  { apply map_ext_in. intros i Hi%in_seq. unfold sa_add, byte_at. f_equal. apply wrapu_id.
    destruct Hwf as [[_ Hw] _]. unfold_consts. change (2 ^ 32) with 4294967296 in *. lia. }
  rewrite Heq. split.
  - apply NoDup_fmap_2; [|apply NoDup_seq]. intros i j [=]. lia.
  - intros x. rewrite list_elem_of_fmap. split.
    + intros (i & -> & Hi%elem_of_seq). apply in_range_byte_at. lia.
    + intros [Hx Hi]%in_range_inv. eexists. split; [exact Hx|]. apply elem_of_seq. lia.
Qed.

Lemma all_bytes_ok a : sas_ok a -> exists l, all_bytes a = Some l /\ sorted l /\
  forall x, x ∈ l <-> in_range a x = true.
Proof.
  intros Ha. destruct (sas_bytes_ok a Ha) as (l & Hl & _ & Hin). unfold all_bytes. rewrite Hl.
  cbn [mbind option_bind]. destruct (of_range_loop_spec l [] sorted_nil) as (v & Hv & Hs & Hel).
  exists v. split_and!; [done|done|]. intros x. rewrite Hel, <-Hin, elem_of_nil. tauto.
Qed.

Lemma includes_in_range a x : sas_ok a -> sas_includes a x = in_range a x.
Proof.
  intros (Hwf & Hpos & Hlt). apply eq_true_iff_eq. unfold sas_includes, in_range.
  destruct Hwf as [[_ Hw] _]. unfold_consts. rewrite wrapu_id by (change (2 ^ 32) with 4294967296 in *; lia).
  rewrite !andb_true_iff, mb_eq_spec, bool_decide_eq_true, Z.leb_le, Z.ltb_lt.
  split; [intros [[? ?] ?]|intros [? ?]]; split_and!; (done || lia || congruence).
Qed.

Definition sd_ok (d : SymData) : Prop :=
  sas_ok (sd_ref d) /\ length (sd_block d) = Z.to_nat (sas_size (sd_ref d)).
Definition dmem (d : SymData) : mem := fun x => default 0 (sd_block d !! idx (sd_ref d) x).

Lemma in_range_idx a x : in_range a x = true -> (idx a x < Z.to_nat (sas_size a))%nat.
Proof. by intros [_ ?]%in_range_inv. Qed.

Lemma sa_diff_in a x : sas_ok a -> in_range a x = true -> sa_diff x (sas_addr a) = Some (Z.of_nat (idx a x)).
Proof.
  intros (Hwf & _ & Hlt) [Hb Ho]%bool_decide_eq_true. unfold sa_diff, idx.
  rewrite Hb, (proj2 (mb_eq_spec _ _) eq_refl). simpl. f_equal. rewrite wrapu_id; [lia|].
  destruct Hwf as [[_ Hw] _]. unfold_consts. change (2 ^ 32) with 4294967296 in *. lia.
Qed.

Lemma sd_get_spec d x : sd_ok d -> in_range (sd_ref d) x = true -> sd_get d x = Some (dmem d x).
Proof.
  intros [Ha Hl] Hx. unfold sd_get, dmem. rewrite includes_in_range, Hx by done.
  cbn [cassert mbind option_bind]. rewrite sa_diff_in by done. cbn [mbind option_bind].
  rewrite zget_nat. pose proof (in_range_idx _ _ Hx).
  by destruct (lookup_lt_exists (sd_block d) (idx (sd_ref d) x)) as [v ->]; [lia|].
Qed.

Lemma idx_inj a x y : in_range a x = true -> in_range a y = true -> idx a x = idx a y -> x = y.
Proof.
  intros [Hx _]%in_range_inv [Hy _]%in_range_inv. unfold idx. intros Heq. by rewrite Hx, Hy, Heq.
Qed.

Lemma sd_set_spec d x v : sd_ok d -> in_range (sd_ref d) x = true ->
  exists d', sd_set d x v = Some d' /\ sd_ok d' /\ sd_ref d' = sd_ref d /\
    forall y, in_range (sd_ref d) y = true -> dmem d' y = if decide (y = x) then v else dmem d y.
Proof.
  intros [Ha Hl] Hx. unfold sd_set. rewrite includes_in_range, Hx by done.
  cbn [cassert mbind option_bind]. rewrite sa_diff_in by done. cbn [mbind option_bind].
  pose proof (in_range_idx _ _ Hx). rewrite zset_nat, vset_Some by lia. cbn [mbind option_bind].
  eexists. split; [done|]. split_and!; [split; [done|]; simpl; by rewrite length_insert|done|].
  intros y Hy. unfold dmem. simpl. destruct (decide (y = x)) as [->|Hne].
  - by rewrite list_lookup_insert_eq by lia.
  - rewrite list_lookup_insert_ne; [done|]. intros Heq. apply Hne. symmetry. by apply (idx_inj (sd_ref d)).
Qed.

Lemma mread_dmem d : sd_ok d -> mread (dmem d) (sd_ref d) = sd_block d.
Proof.
  intros [Ha Hl]. apply list_eq. intros i. destruct (decide (i < Z.to_nat (sas_size (sd_ref d)))%nat) as [Hi|Hi].
  - rewrite mread_lookup by done. unfold dmem, idx, byte_at. simpl.
    replace (Z.to_nat _) with i by lia.
    by destruct (lookup_lt_exists (sd_block d) i) as [v ->]; [lia|].
  - by rewrite !lookup_ge_None_2 by (rewrite ?length_mread; lia).
Qed.

Lemma zero_data_ok ml : sas_ok ml -> sd_ok (zero_data ml).
Proof. intros. split; [done|]. simpl. by rewrite length_replicate. Qed.

Lemma dmem_zero ml x : dmem (zero_data ml) x = 0.
Proof.
  unfold dmem. simpl. destruct (_ !! _) eqn:E; [|done]. by apply lookup_replicate in E as [-> _].
Qed.

(** ** Running the stores forwards

    The reference: every store writes the bytes recorded with it. *)

Definition writes (e : SymEv) (a : SymAddrSize) (bs : list Z) : Prop :=
  ev_arg e = ArgAddr a /\ ev_written e = Some bs /\ sas_ok a /\ length bs = Z.to_nat (sas_size a) /\ bytes bs.
Definition data_ok (e : SymEv) : Prop := symev_does_store e = true -> exists a bs, writes e a bs.

Definition store_step (m : mem) (e : SymEv) : mem :=
  if symev_does_store e then
    match ev_arg e, ev_written e with ArgAddr a, Some bs => mwrite m a bs | _, _ => m end
  else m.
Definition stores (evs : list SymEv) (m : mem) : mem := foldl store_step m evs.

Lemma stores_app l k m : stores (l ++ k) m = stores k (stores l m).
Proof. apply foldl_app. Qed.

Lemma store_step_writes e a bs m : symev_does_store e = true -> writes e a bs ->
  store_step m e = mwrite m a bs.
Proof. intros Hs (Ha & Hb & _). unfold store_step. by rewrite Hs, Ha, Hb. Qed.

Lemma does_store_addr e : symev_does_store e = true -> has_addr e = true.
Proof. unfold symev_does_store, has_addr. by destruct (ev_kind e). Qed.

Lemma writes_addr e a bs : symev_does_store e = true -> writes e a bs -> ev_addr e = Some a.
Proof. intros Hs (Ha & _). unfold ev_addr. by rewrite does_store_addr, Ha. Qed.

Lemma writes_data e a bs : symev_does_store e = true -> writes e a bs ->
  ev_data e = Some (MkSymDataRef a (Some bs)).
Proof.
  intros Hs (Ha & Hb & _). unfold ev_data, has_data.
  unfold symev_does_store in Hs. destruct (ev_kind e); try done;
    rewrite Hb, bool_decide_true by done; simpl; by rewrite Ha.
Qed.

Lemma writes_byte e a bs x : symev_does_store e = true -> writes e a bs -> in_range a x = true ->
  exists v, ev_data_byte e x = Some v /\ forall m, mwrite m a bs x = v.
Proof.
  intros Hs Hw Hx. pose proof Hw as (_ & _ & Hok & Hl & _). unfold ev_data_byte.
  rewrite (writes_data e a bs) by done. cbn [mbind option_bind sdr_data sdr_block sdr_ref].
  rewrite sd_get_spec by done. eexists. split; [done|]. intros m. unfold mwrite, dmem. simpl.
  rewrite Hx. pose proof (in_range_idx _ _ Hx). unfold idx in *.
  by destruct (lookup_lt_exists bs (Z.to_nat (sa_offset x - sa_offset (sas_addr a)))) as [v ->]; [lia|].
Qed.

(** What a backward pass over [evs] that starts with [(d, needed)] may return. *)
Record recomputed (evs : list SymEv) (d : SymData) (needed : list SymAddr) (d' : SymData)
    (needed' : list SymAddr) : Prop := {
  rc_ok : sd_ok d';
  rc_ref : sd_ref d' = sd_ref d;
  rc_sorted : sorted needed';
  rc_sub : forall x, x ∈ needed' -> x ∈ needed;
  rc_done : forall x, in_range (sd_ref d) x = true -> x ∉ needed -> dmem d' x = dmem d x;
  rc_open : forall x, in_range (sd_ref d) x = true -> x ∈ needed' ->
    dmem d' x = dmem d x /\ forall m, stores evs m x = m x;
  rc_found : forall x, in_range (sd_ref d) x = true -> x ∈ needed -> x ∉ needed' ->
    forall m, stores evs m x = dmem d' x;
}.

Lemma recomputed_stop evs d : sd_ok d -> recomputed evs d [] d [].
Proof. intros Hd. split; try done; intros; by apply not_elem_of_nil in H0 || by constructor. Qed.

Lemma recomputed_nil d needed : sd_ok d -> sorted needed -> recomputed [] d needed d needed.
Proof. intros Hd Hs. split; done. Qed.

Lemma recomputed_app evs1 evs2 d n d1 n1 d2 n2 :
  recomputed evs2 d n d1 n1 -> recomputed evs1 d1 n1 d2 n2 -> recomputed (evs1 ++ evs2) d n d2 n2.
Proof.
  intros H2 H1. pose proof (rc_ref _ _ _ _ _ H2) as Hr. split.
  - apply H1.
  - by rewrite (rc_ref _ _ _ _ _ H1).
  - apply H1.
  - intros x Hx. by apply H2, H1.
  - intros x Hx Hn. rewrite (rc_done _ _ _ _ _ H1); [by apply H2|by rewrite Hr|].
    intros ?. by apply Hn, H2.
  - intros x Hx Hn. destruct (rc_open _ _ _ _ _ H1 x) as [Hd1 Hm1]; [by rewrite Hr|done|].
    destruct (rc_open _ _ _ _ _ H2 x) as [Hd2 Hm2]; [done|by apply H1|].
    split; [by rewrite Hd1|]. intros m. by rewrite stores_app, Hm2.
  - intros x Hx Hn Hn2 m. rewrite stores_app. destruct (decide (x ∈ n1)) as [Hin|Hin].
    + destruct (rc_open _ _ _ _ _ H2 x) as [Hd2 Hm2]; [done..|]. rewrite Hm2.
      apply H1; [by rewrite Hr|done..].
    + rewrite (rc_found _ _ _ _ _ H2) by done. symmetry. apply H1; [by rewrite Hr|done].
Qed.

(** The byte loop of one store. *)
Lemma rev_recompute_bytes_spec p a bs l : forall d needed,
  symev_does_store p = true -> writes p a bs -> sd_ok d -> sorted needed ->
  (forall x, x ∈ needed -> in_range (sd_ref d) x = true) ->
  (forall x, x ∈ l -> in_range a x = true) ->
  exists d' needed', rev_recompute_bytes p l (d, needed) = Some (d', needed') /\
    sd_ok d' /\ sd_ref d' = sd_ref d /\ sorted needed' /\
    (forall x, x ∈ needed' <-> x ∈ needed /\ x ∉ l) /\
    (forall x, in_range (sd_ref d) x = true ->
       (x ∈ needed -> x ∈ l -> forall m, mwrite m a bs x = dmem d' x) /\
       (~ (x ∈ needed /\ x ∈ l) -> dmem d' x = dmem d x)).
Proof.
  induction l as [|y l IH]; intros d needed Hp Hw Hd Hs Hn Hl.
  { exists d, needed. split_and!; try done.
    - intros x. rewrite elem_of_nil. tauto.
    - intros x Hx. split; [by intros _ ?%not_elem_of_nil|done]. }
  unfold rev_recompute_bytes. cbn [for_each fst snd].
  destruct (erase_spec needed y Hs) as (n1 & -> & Hs1 & Hn1). cbn [mbind option_bind fst snd].
  destruct (decide (y ∈ needed)) as [Hy|Hy].
  - rewrite bool_decide_true by done. rewrite decide_True by done.
    destruct (writes_byte p a bs y) as (v & -> & Hv); [done|done|apply Hl, list_elem_of_here|].
    cbn [mbind option_bind fst snd]. pose proof (Hn y Hy) as Hry.
    destruct (sd_set_spec d y v Hd Hry) as (d1 & -> & Hd1 & Hr1 & Hv1). cbn [mbind option_bind].
    destruct (IH d1 n1) as (d' & n' & Heq & Hd' & Hr' & Hs' & Hn' & Hx'); try done.
    { rewrite Hr1. intros x [? _]%Hn1. by apply Hn. }
    { intros x Hx. apply Hl. by apply list_elem_of_further. }
    exists d', n'. split; [exact Heq|]. split_and!; [done|by rewrite Hr'|done| |].
    + intros x. rewrite Hn', Hn1, elem_of_cons. tauto.
    + rewrite Hr1 in Hx'. intros x Hx. destruct (Hx' x Hx) as [Hw1 Hk1]. split.
      * intros Hxn [->|Hxl]%elem_of_cons.
        -- intros m. rewrite Hv, Hk1, Hv1 by (done || rewrite Hn1; tauto). by rewrite decide_True.
        -- destruct (decide (x = y)) as [->|Hne].
           ++ intros m. rewrite Hv, Hk1, Hv1 by (done || rewrite Hn1; tauto). by rewrite decide_True.
           ++ apply Hw1; [by apply Hn1|done].
      * intros Hno. rewrite Hk1; [|rewrite Hn1; set_solver]. rewrite Hv1 by done.
        rewrite decide_False; [done|]. intros ->. apply Hno. set_solver.
  - rewrite bool_decide_false by done. rewrite decide_False by tauto.
    destruct (IH d n1) as (d' & n' & Heq & Hd' & Hr' & Hs' & Hn' & Hx'); try done.
    { intros x [? _]%Hn1. by apply Hn. }
    { intros x Hx. apply Hl. by apply list_elem_of_further. }
    assert (Hsame : forall x, x ∈ n1 <-> x ∈ needed).
    { intros x. rewrite Hn1. split; [tauto|]. intros Hx. split; [done|]. by intros ->. }
    exists d', n'. split; [exact Heq|]. split_and!; [done..| |].
    + intros x. rewrite Hn', Hn1, elem_of_cons. tauto.
    + intros x Hx. destruct (Hx' x Hx) as [Hw1 Hk1]. rewrite Hsame in Hw1, Hk1. split.
      * intros Hxn [->|Hxl]%elem_of_cons; [done|]. by apply Hw1.
      * intros Hno. apply Hk1. intros [??]. apply Hno. split; [done|]. by apply list_elem_of_further.
Qed.

Lemma rev_recompute_step p d needed revs :
  data_ok p -> sd_ok d -> sorted needed -> needed <> [] ->
  (forall x, x ∈ needed -> in_range (sd_ref d) x = true) ->
  exists d' needed', rev_recompute_loop (p :: revs) d needed = rev_recompute_loop revs d' needed' /\
    recomputed [p] d needed d' needed'.
Proof.
  intros Hp Hd Hs Hne Hn. cbn [rev_recompute_loop]. rewrite decide_False by done.
  destruct (symev_does_store p) eqn:Estore.
  - destruct (Hp Estore) as (a & bs & Hw). pose proof Hw as (_ & _ & Hok & _).
    assert (Hcase : forall B (x y : B), match ev_kind p with
      | STORE | UNOBS_STORE | RMW | CMPXHG | XCHG_AWAIT => x | _ => y end = x).
    { intros. unfold symev_does_store in Estore. by destruct (ev_kind p). }
    rewrite Hcase. rewrite (writes_addr p a bs) by done. cbn [cassert mbind option_bind].
    destruct (sas_overlaps (sd_ref d) a) eqn:Eo.
    + destruct (sas_bytes_ok a Hok) as (l & -> & Hnd & Hl). cbn [mbind option_bind].
      destruct (rev_recompute_bytes_spec p a bs l d needed) as (d' & n' & -> & Hd' & Hr' & Hs' & Hn' & Hx');
        [done..|intros x; apply Hl|]. cbn [mbind option_bind fst snd].
      exists d', n'. split; [done|]. split; try done.
      * intros x Hx. by apply Hn' in Hx as [? _].
      * intros x Hx Hno. apply Hx'; [done|tauto].
      * intros x Hx Hin. apply Hn' in Hin as [Hxn Hxl]. split; [apply Hx'; [done|tauto]|].
        intros m. unfold stores. simpl. rewrite (store_step_writes p a bs) by done. unfold mwrite.
        destruct (in_range a x) eqn:E; [|done]. by apply Hl in E.
      * intros x Hx Hxn Hno m. unfold stores. simpl. rewrite (store_step_writes p a bs) by done.
        destruct (decide (x ∈ l)) as [Hxl|Hxl]; [by apply Hx'|]. exfalso. apply Hno. by apply Hn'.
    + cbn [mbind option_bind fst snd]. exists d, needed. split; [done|]. split; try done.
      intros x Hx Hin. split; [done|]. intros m. unfold stores. simpl.
      rewrite (store_step_writes p a bs) by done. unfold mwrite. destruct (in_range a x) eqn:E; [|done].
      exfalso. eapply (overlaps_false_disjoint (sd_ref d) a); [apply Hd|apply Hok|done|done].
  - assert (Hcase : forall B (x y : B), match ev_kind p with
      | STORE | UNOBS_STORE | RMW | CMPXHG | XCHG_AWAIT => x | _ => y end = y).
    { intros. unfold symev_does_store in Estore. by destruct (ev_kind p). }
    rewrite Hcase. cbn [negb cassert mbind option_bind fst snd]. exists d, needed. split; [done|].
    split; try done. intros x Hx Hin. split; [done|]. intros m. unfold stores, store_step. simpl.
    by rewrite Estore.
Qed.

Lemma rev_recompute_loop_spec revs : forall d needed,
  Forall data_ok revs -> sd_ok d -> sorted needed ->
  (forall x, x ∈ needed -> in_range (sd_ref d) x = true) ->
  exists d' needed', rev_recompute_loop revs d needed = Some (d', needed') /\
    recomputed (reverse revs) d needed d' needed'.
Proof.
  induction revs as [|p revs IH]; intros d needed Hok Hd Hs Hn.
  { exists d, needed. split; [done|]. by apply recomputed_nil. }
  destruct (decide (needed = [])) as [->|Hne].
  { exists d, []. split; [done|]. by apply recomputed_stop. }
  apply Forall_cons in Hok as [Hp Hok].
  destruct (rev_recompute_step p d needed revs) as (d1 & n1 & -> & H1); [done..|].
  destruct (IH d1 n1) as (d' & n' & -> & H2); [done|apply H1|apply H1| |].
  { intros x Hx. rewrite (rc_ref _ _ _ _ _ H1). apply Hn. by apply H1. }
  exists d', n'. split; [done|]. rewrite reverse_cons. by eapply recomputed_app.
Qed.

Lemma rev_recompute_data_spec evs d needed :
  Forall data_ok evs -> sd_ok d -> sorted needed ->
  (forall x, x ∈ needed -> in_range (sd_ref d) x = true) ->
  exists d' needed', rev_recompute_data d needed evs = Some (d', needed') /\
    recomputed evs d needed d' needed'.
Proof.
  intros Hok Hd Hs Hn. destruct (rev_recompute_loop_spec (reverse evs) d needed) as (d' & n' & H1 & H2);
    [by apply Forall_reverse|done..|]. rewrite reverse_involutive in H2. by exists d', n'.
Qed.

Lemma rev_recompute_prefix_spec (prefix : list sym_ty) j : forall d needed,
  (j <= length prefix)%nat -> Forall (Forall data_ok) prefix -> sd_ok d -> sorted needed ->
  (forall x, x ∈ needed -> in_range (sd_ref d) x = true) ->
  exists d' needed', rev_recompute_prefix prefix j d needed = Some (d', needed') /\
    recomputed (concat (take j prefix)) d needed d' needed'.
Proof.
  induction j as [|j IH]; intros d needed Hj Hok Hd Hs Hn; cbn [rev_recompute_prefix];
    (case_decide as Hne; [subst; exists d, []; split; [done|by apply recomputed_stop]|]).
  { exists d, needed. split; [done|]. by apply recomputed_nil. }
  destruct (lookup_lt_exists prefix j) as [js Hjs]; [lia|]. rewrite Hjs. cbn [mbind option_bind].
  destruct (rev_recompute_data_spec js d needed) as (d1 & n1 & -> & H1);
    [by eapply Forall_lookup_1 in Hok|done..|]. cbn [mbind option_bind fst snd].
  destruct (IH d1 n1) as (d' & n' & -> & H2); [lia|done|apply H1|apply H1| |].
  { intros x Hx. rewrite (rc_ref _ _ _ _ _ H1). apply Hn. by apply H1. }
  exists d', n'. split; [done|]. rewrite (take_snoc prefix j js), concat_app by done. simpl.
  rewrite app_nil_r. by eapply recomputed_app.
Qed.

(** What is left of the zero block after a complete pass is the final memory. *)
Lemma recomputed_final evs ml needed d' needed' : sas_ok ml ->
  (forall x, x ∈ needed <-> in_range ml x = true) ->
  recomputed evs (zero_data ml) needed d' needed' ->
  sd_block d' = mread (stores evs (fun _ => 0)) ml.
Proof.
  intros Hml Hn H. rewrite <-mread_dmem by apply H.
  pose proof (rc_ref _ _ _ _ _ H) as Hr. simpl in Hr. rewrite Hr. apply mread_ext. intros x Hx.
  destruct (decide (x ∈ needed')) as [Hin|Hin].
  - destruct (rc_open _ _ _ _ _ H x) as [-> ->]; [done..|]. apply dmem_zero.
  - symmetry. apply (rc_found _ _ _ _ _ H); [done|by apply Hn|done].
Qed.

Lemma all_bytes_zero ml : sas_ok ml -> exists needed, all_bytes ml = Some needed /\ sorted needed /\
  (forall x, x ∈ needed -> in_range (sd_ref (zero_data ml)) x = true) /\
  (forall x, x ∈ needed <-> in_range ml x = true).
Proof. intros (l & ? & ? & Hin)%all_bytes_ok. exists l. split_and!; [done..| |done]. intros x. apply Hin. Qed.

(** ** Deciding compare-exchanges *)

(** A compare-exchange event carries its address and both blocks. *)
Definition cmpxhg_ok (e : SymEv) : Prop :=
  ev_kind e = CMPXHG \/ ev_kind e = CMPXHGFAIL ->
  exists a bs expd, writes e a bs /\ ev_expected e = Some expd /\ bytes expd /\
    length expd = Z.to_nat (sas_size a).

(** The forward interpreter: every compare-exchange compares what memory holds. *)
Fixpoint resolve_forward (m : mem) (es : sym_ty) : sym_ty :=
  match es with
  | [] => []
  | e :: es =>
    let e' := match ev_kind e, ev_arg e, ev_expected e with
              | (CMPXHG | CMPXHGFAIL), ArgAddr a, Some expd =>
                let k := if decide (mread m a = expd) then CMPXHG else CMPXHGFAIL in
                MkSymEv k (ArgAddr a) Arg2Uninit false (Some expd) (ev_written e)
              | _, _, _ => e
              end in
    e' :: resolve_forward (store_step m e') es
  end.

Lemma memcmp_eq l r : bytes l -> bytes r -> length l = length r ->
  exists c, memcmp l r (length l) = Some c /\ (c = 0 <-> r = l).
Proof.
  intros Hl Hr Hlen. unfold memcmp. eexists. split; [by apply memcmp_loop_spec|].
  rewrite !drop_0. split.
  - intros H0. symmetry. rewrite <-(reverse_involutive l), <-(reverse_involutive r). f_equal.
    apply lval_inj; [by apply bytes_reverse..|by rewrite !length_reverse|]. lia.
  - intros ->. lia.
Qed.

Lemma mwrite_bytes m a bs : mem_bytes m -> bytes bs -> mem_bytes (mwrite m a bs).
Proof.
  intros Hm Hbs x. unfold mwrite. destruct (in_range a x); [|done].
  destruct (bs !! _) eqn:E; [|apply Hm]. by eapply bytes_lookup.
Qed.

Lemma stores_bytes evs m : Forall data_ok evs -> mem_bytes m -> mem_bytes (stores evs m).
Proof.
  revert m. induction evs as [|e evs IH]; intros m Hok Hm; [done|].
  apply Forall_cons in Hok as [He Hok]. simpl. apply IH; [done|]. unfold store_step.
  destruct (symev_does_store e) eqn:E; [|done]. destruct (He E) as (a & bs & -> & -> & _ & _ & Hb).
  by apply mwrite_bytes.
Qed.

Lemma cmpxhg_result e a bs expd k : writes e a bs -> ev_kind e = CMPXHG \/ ev_kind e = CMPXHGFAIL ->
  ev_expected e = Some expd ->
  ev_data e = Some (MkSymDataRef a (Some bs)) /\ ev_addr e = Some a /\
  ev_expected_data e = Some (MkSymDataRef a (Some expd)) /\
  (k = CMPXHG \/ k = CMPXHGFAIL ->
   data_ok (MkSymEv k (ArgAddr a) Arg2Uninit false (Some expd) (ev_written e))).
Proof.
  intros (Ha & Hb & Hok & Hl & Hbs) Hk He.
  unfold ev_data, ev_expected_data, ev_addr, has_data, has_expected, has_addr.
  rewrite Hb, Ha, He. destruct Hk as [-> | ->]; simpl; (split_and!; [done..|]);
    intros _ _; exists a, bs; by split_and!.
Qed.

(** One compare-exchange, decided by three backward scans. *)
Lemma recompute_cmpxhg1_spec (prefix v : list sym_ty) i before e :
  (i <= length prefix)%nat -> Forall (Forall data_ok) prefix -> Forall (Forall data_ok) v ->
  Forall data_ok before -> cmpxhg_ok e -> data_ok e ->
  let m := stores (concat (take i prefix) ++ concat v ++ before) (fun _ => 0) in
  exists e', recompute_cmpxhg1 prefix v i before e = Some e' /\
    [e'] = resolve_forward m [e] /\ data_ok e'.
Proof.
  intros Hi Hpre Hv Hbef Hcx Hdata m. unfold recompute_cmpxhg1. case_decide as Hk.
  - destruct (Hcx Hk) as (a & bs & expd & Hw & Hexp & Hxb & Hxl).
    pose proof Hw as (Harg & Hwr & Hok & _).
    destruct (cmpxhg_result e a bs expd CMPXHG Hw Hk Hexp) as (Hdat & Haddr & Hxd & _). rewrite Haddr.
    cbn [mbind option_bind]. destruct (all_bytes_zero a Hok) as (needed & -> & Hs & Hn & Hiff).
    cbn [mbind option_bind].
    destruct (rev_recompute_data_spec before (zero_data a) needed) as (d1 & n1 & -> & H1);
      [done|by apply zero_data_ok|done..|]. cbn [mbind option_bind fst snd].
    destruct (rev_recompute_prefix_spec v (length v) d1 n1) as (d2 & n2 & -> & H2);
      [done|done|apply H1|apply H1|intros x Hx; rewrite (rc_ref _ _ _ _ _ H1); by apply Hn, H1|].
    cbn [mbind option_bind fst snd].
    pose proof (recomputed_app _ _ _ _ _ _ _ _ H1 H2) as H12.
    destruct (rev_recompute_prefix_spec prefix i d2 n2) as (d3 & n3 & -> & H3);
      [done|done|apply H2|apply H2|intros x Hx; rewrite (rc_ref _ _ _ _ _ H12); by apply Hn, H12|].
    cbn [mbind option_bind fst snd]. rewrite firstn_all in H12.
    pose proof (recomputed_app _ _ _ _ _ _ _ _ H12 H3) as H123.
    rewrite Hxd. cbn [mbind option_bind sdr_block].
    rewrite (recomputed_final _ a needed d3 n3 Hok Hiff H123). fold m.
    assert (Hmb : bytes (mread m a)).
    { apply mread_bytes, stores_bytes; [|intros x; lia].
      rewrite !Forall_app. split_and!; [|by apply Forall_concat|done]. by apply Forall_concat, Forall_take. }
    destruct (memcmp_eq expd (mread m a)) as (c & Hc & Hc0); [done..|by rewrite length_mread|].
    rewrite <-Hxl, Hc. cbn [mbind option_bind]. rewrite Hdat. cbn [mbind option_bind].
    eexists. split; [done|]. cbn [resolve_forward]. rewrite Harg, Hexp, Hwr. split.
    + destruct (decide (c = 0)) as [H0|H0]; [rewrite decide_True by (by apply Hc0)|rewrite decide_False by tauto];
        by destruct Hk as [-> | ->].
    + destruct (cmpxhg_result e a bs expd (if decide (c = 0) then CMPXHG else CMPXHGFAIL) Hw Hk Hexp)
        as (_ & _ & _ & Hres). rewrite Hwr in Hres. unfold SymEv_CmpXhg, SymEv_CmpXhgFail. simpl.
      case_decide; apply Hres; auto.
  - exists e. split_and!; [done| |done]. cbn [resolve_forward].
    destruct (ev_kind e); try done; tauto.
Qed.

Lemma resolve_forward_cons m e es :
  exists e', [e'] = resolve_forward m [e] /\
    resolve_forward m (e :: es) = e' :: resolve_forward (store_step m e') es.
Proof. eexists. split; [done|]. done. Qed.

Lemma recompute_cmpxhg_loop_spec (prefix v : list sym_ty) i es : forall before,
  (i <= length prefix)%nat -> Forall (Forall data_ok) prefix -> Forall (Forall data_ok) v ->
  Forall data_ok before -> Forall cmpxhg_ok es -> Forall data_ok es ->
  recompute_cmpxhg_loop prefix v i before es =
    Some (before ++ resolve_forward (stores (concat (take i prefix) ++ concat v ++ before) (fun _ => 0)) es).
Proof.
  induction es as [|e es IH]; intros before Hi Hpre Hv Hbef Hcx Hdata; cbn [recompute_cmpxhg_loop].
  { simpl. by rewrite app_nil_r. }
  apply Forall_cons in Hcx as [Hc Hcx], Hdata as [Hd Hdata].
  destruct (recompute_cmpxhg1_spec prefix v i before e) as (e' & -> & He' & Hd'); [done..|].
  cbn [mbind option_bind]. rewrite IH by (done || (apply Forall_app; split; [done|by constructor])).
  destruct (resolve_forward_cons (stores (concat (take i prefix) ++ concat v ++ before) (fun _ => 0)) e es)
    as (e2 & He2 & ->). rewrite <-He2 in He'. simplify_eq.
  rewrite <-app_assoc. simpl. do 4 f_equal. by rewrite !app_assoc, stores_app.
Qed.

(** ** Replaying read-modify-writes

    The second reference: read-modify-writes act on what memory holds. *)

Definition act_step (m : mem) (e : SymEv) : mem :=
  if decide (ev_kind e = RMW) then
    match ev_arg e, ev_arg2 e, ev_expected e with
    | ArgAddr a, ArgRmw k, Some operand =>
      default m (mwrite m a <$> apply_to IsBigEndianHost k operand (mread m a) (Z.to_nat (sas_size a)) (mread m a))
    | _, _, _ => m
    end
  else store_step m e.
Definition acts (evs : list SymEv) (m : mem) : mem := foldl act_step m evs.

(** An event that carries its data, whose store covers [ml] or misses it. *)
Record act_ok (ml : SymAddrSize) (e : SymEv) : Prop := {
  ao_data : data_ok e;
  ao_rmw : ev_kind e = RMW -> exists a k operand, ev_addr e = Some a /\ sas_ok a /\
    ev_arg2 e = ArgRmw k /\ ev_expected e = Some operand /\ bytes operand /\
    length operand = Z.to_nat (sas_size a);
  ao_contained : symev_does_store e = true -> forall a, ev_addr e = Some a ->
    sas_overlaps ml a = true -> sas_subsetof a ml = true;
}.

Lemma ev_addr_arg p a : ev_addr p = Some a -> ev_arg p = ArgAddr a.
Proof.
  unfold ev_addr. destruct (has_addr p); [|done]. simpl. destruct (ev_arg p); simpl; congruence.
Qed.

Lemma acts_app l k m : acts (l ++ k) m = acts k (acts l m).
Proof. apply foldl_app. Qed.

Lemma subsetof_in_range a b x : sas_wf a -> sas_wf b -> sas_subsetof a b = true ->
  in_range a x = true -> in_range b x = true.
Proof.
  intros Ha Hb. unfold sas_subsetof. rewrite !wrapu64_sum by done.
  destruct (mb_eq _ _) eqn:E; simpl; [|done]. apply mb_eq_spec in E.
  intros Hs [Hx1 Hx2]%bool_decide_eq_true. apply bool_decide_eq_true.
  apply andb_true_iff in Hs as [?%Z.leb_le ?%Z.leb_le]. split; [congruence|lia].
Qed.

Section scan.
Context (ml : SymAddrSize) (Hml : sas_ok ml).

(** What a backward scan of [evs] promises to the replay: from any block that
    agrees with memory on what is still needed, replaying the new stack reaches
    a block that agrees with the memory after [evs] on what was needed. *)
Record scanned (evs : list SymEv) (needed : list SymAddr) (stack : list SymEv)
    (needed' : list SymAddr) (stack' : list SymEv) : Prop := {
  sc_sorted : sorted needed';
  sc_range : forall x, x ∈ needed' -> in_range ml x = true;
  sc_replay : forall d m, mem_bytes m -> sd_ok d -> sd_ref d = ml -> (forall x, x ∈ needed' -> dmem d x = m x) ->
    exists d1, recompute_replay_fwd d stack' = recompute_replay_fwd d1 stack /\
      sd_ok d1 /\ sd_ref d1 = ml /\ forall x, x ∈ needed -> dmem d1 x = acts evs m x;
}.

Lemma scanned_stop evs stack : scanned evs [] stack [] stack.
Proof.
  split; [apply sorted_nil|by intros x ?%not_elem_of_nil|]. intros d m _ Hd Hr _. exists d.
  split_and!; [done..|]. by intros x ?%not_elem_of_nil.
Qed.

Lemma scanned_skip evs needed stack : sorted needed -> (forall x, x ∈ needed -> in_range ml x = true) ->
  (forall m x, mem_bytes m -> x ∈ needed -> acts evs m x = m x) -> scanned evs needed stack needed stack.
Proof.
  intros Hs Hn Hsame. split; [done..|]. intros d m Hmb Hd Hr Heq. exists d. split_and!; [done..|].
  intros x Hx. by rewrite Hsame, Heq.
Qed.

Lemma acts_bytes evs m : Forall (act_ok ml) evs -> mem_bytes m -> mem_bytes (acts evs m).
Proof.
  revert m. induction evs as [|e evs IH]; intros m Hok Hm; [done|].
  apply Forall_cons in Hok as [He Hok]. simpl. apply IH; [done|]. unfold act_step. case_decide as Hk.
  - destruct (ao_rmw _ _ He Hk) as (a & k & operand & Ha & Ha2 & -> & -> & Hob & Hol).
    rewrite (ev_addr_arg _ _ Ha). pose proof (length_mread m a) as Hlm.
    destruct (apply_to_spec IsBigEndianHost k operand (mread m a) (mread m a))
      as (new & Hnew & _ & Hnb & _); [by apply mread_bytes|done|lia|done|].
    rewrite Hlm in Hnew. rewrite Hnew. simpl. by apply mwrite_bytes.
  - apply (stores_bytes [e]); [|done]. constructor; [by apply (ao_data _ _ He)|done].
Qed.

Lemma scanned_app evs1 evs2 n s n1 s1 n2 s2 : Forall (act_ok ml) evs1 ->
  scanned evs2 n s n1 s1 -> scanned evs1 n1 s1 n2 s2 -> scanned (evs1 ++ evs2) n s n2 s2.
Proof.
  intros Hok H2 H1. split; [apply H1|apply H1|]. intros d m Hmb Hd Hr Heq.
  destruct (sc_replay _ _ _ _ _ H1 d m Hmb Hd Hr Heq) as (d1 & -> & Hd1 & Hr1 & Heq1).
  destruct (sc_replay _ _ _ _ _ H2 d1 (acts evs1 m)) as (d2 & -> & Hd2 & Hr2 & Heq2);
    [by apply acts_bytes|done..|].
  exists d2. split_and!; [done..|]. intros x Hx. by rewrite acts_app, Heq2.
Qed.

Lemma scan_bytes_spec l : forall needed b, sorted needed ->
  exists needed' c, scan_bytes l (needed, b) = Some (needed', c) /\ sorted needed' /\
    (forall x, x ∈ needed' <-> x ∈ needed /\ x ∉ l) /\
    (c = true <-> b = true \/ exists x, x ∈ l /\ x ∈ needed).
Proof.
  induction l as [|y l IH]; intros needed b Hs.
  { exists needed, b. split_and!; [done|done|intros x; rewrite elem_of_nil; tauto|].
    split; [auto|]. intros [?|(x & ?%not_elem_of_nil & _)]; done. }
  unfold scan_bytes. cbn [for_each fst snd].
  destruct (erase_spec needed y Hs) as (n1 & -> & Hs1 & Hn1). cbn [mbind option_bind fst snd].
  destruct (IH n1 (b || bool_decide ((if bool_decide (y ∈ needed) then 1%nat else 0%nat) <> 0%nat)) Hs1)
    as (n' & c & Heq & Hs' & Hn' & Hc).
  exists n', c. split; [exact Heq|]. split_and!; [done|intros x; rewrite Hn', Hn1; set_solver|].
  rewrite Hc, orb_true_iff, bool_decide_eq_true. setoid_rewrite Hn1. setoid_rewrite elem_of_cons.
  destruct (decide (y ∈ needed)) as [Hy|Hy];
    [rewrite (bool_decide_true (y ∈ needed)) by done|rewrite (bool_decide_false (y ∈ needed)) by done].
  - split; [intros _; right; by eauto|intros _; left; by right].
  - split; [intros [[?|?]|(x & ? & ? & ?)]|intros [?|(x & [->|?] & ?)]]; try done; eauto.
    right. exists x. split_and!; [done..|]. by intros ->.
Qed.

Lemma any_needed_spec needed l : sorted needed ->
  exists b, any_needed needed l = Some b /\ (b = true <-> exists x, x ∈ l /\ x ∈ needed).
Proof.
  intros Hs. induction l as [|y l IH]; cbn [any_needed].
  { exists false. split; [done|]. split; [done|]. by intros (x & ?%not_elem_of_nil & _). }
  rewrite count_spec by done. cbn [mbind option_bind].
  destruct (decide (y ∈ needed)) as [Hy|Hy];
    [rewrite (bool_decide_true (y ∈ needed)) by done|rewrite (bool_decide_false (y ∈ needed)) by done].
  - rewrite decide_True by done. exists true. split; [done|]. split; [|done]. intros _. exists y.
    split; [apply list_elem_of_here|done].
  - rewrite decide_False by lia. destruct IH as (b & -> & Hb). exists b. split; [done|].
    rewrite Hb. setoid_rewrite elem_of_cons. split; [intros (x & ? & ?); eauto|].
    intros (x & [->|?] & ?); [done|eauto].
Qed.

(** Overwriting a whole range of the block. *)
Lemma replay_store_spec p a bs l : forall d,
  symev_does_store p = true -> writes p a bs -> sd_ok d ->
  (forall x, x ∈ l -> in_range a x = true) -> (forall x, x ∈ l -> in_range (sd_ref d) x = true) ->
  exists d1, for_each l (fun x data => b ← ev_data_byte p x; sd_set data x b) d = Some d1 /\
    sd_ok d1 /\ sd_ref d1 = sd_ref d /\
    forall x, in_range (sd_ref d) x = true ->
      (x ∈ l -> forall m, mwrite m a bs x = dmem d1 x) /\ (x ∉ l -> dmem d1 x = dmem d x).
Proof.
  induction l as [|y l IH]; intros d Hp Hw Hd Hla Hlr.
  { exists d. split_and!; [done..|]. intros x Hx. split; [by intros ?%not_elem_of_nil|done]. }
  cbn [for_each]. destruct (writes_byte p a bs y) as (v & -> & Hv); [done|done|apply Hla, list_elem_of_here|].
  cbn [mbind option_bind].
  destruct (sd_set_spec d y v Hd) as (d1 & -> & Hd1 & Hr1 & Hv1); [apply Hlr, list_elem_of_here|].
  cbn [mbind option_bind].
  destruct (IH d1) as (d' & Heq & Hd' & Hr' & Hx'); [done..| | |].
  { intros x Hx. apply Hla. by apply list_elem_of_further. }
  { intros x Hx. rewrite Hr1. apply Hlr. by apply list_elem_of_further. }
  exists d'. split; [exact Heq|]. rewrite Hr1 in *. split_and!; [done..|]. intros x Hx.
  destruct (Hx' x Hx) as [Hin Hout]. destruct (decide (x ∈ l)) as [Hxl|Hxl].
  - split; [by auto|]. intros Hno. exfalso. apply Hno. by apply list_elem_of_further.
  - rewrite Hout, Hv1 by done. split.
    + intros [->|?]%elem_of_cons m; [|done]. by rewrite decide_True.
    + intros Hno. rewrite decide_False; [done|]. intros ->. apply Hno, list_elem_of_here.
Qed.

Lemma scan_store p needed stack revs :
  act_ok ml p -> symev_does_store p = true -> ev_kind p <> RMW -> sorted needed -> needed <> [] ->
  (forall x, x ∈ needed -> in_range ml x = true) ->
  exists needed' stack', recompute_scan_rev_loop ml (p :: revs) needed stack =
      recompute_scan_rev_loop ml revs needed' stack' /\ scanned [p] needed stack needed' stack'.
Proof.
  intros Hp Hst Hk Hs Hne Hn. destruct (ao_data _ _ Hp Hst) as (a & bs & Hw).
  pose proof Hw as (_ & _ & Hok & _). pose proof (writes_addr p a bs Hst Hw) as Haddr.
  assert (Hstep : forall m, acts [p] m = mwrite m a bs).
  { intros m. unfold acts, act_step. simpl. rewrite decide_False by done. by apply store_step_writes. }
  cbn [recompute_scan_rev_loop]. rewrite decide_False by done.
  assert (Hcase : forall B (x y z : B), match ev_kind p with
    | STORE | UNOBS_STORE | CMPXHG | XCHG_AWAIT => x | RMW => y | _ => z end = x).
  { intros. unfold symev_does_store in Hst. by destruct (ev_kind p). }
  rewrite Hcase, Hst, Haddr. cbn [cassert mbind option_bind].
  destruct (sas_overlaps ml a) eqn:Eo.
  - destruct (sas_bytes_ok a Hok) as (l & Hbytes & Hnd & Hl). rewrite Hbytes. cbn [mbind option_bind].
    destruct (scan_bytes_spec l needed false Hs) as (n' & c & -> & Hs' & Hn' & Hc).
    cbn [mbind option_bind fst snd]. eexists n', _. split; [done|].
    assert (Hr : forall x, in_range a x = true -> in_range ml x = true).
    { intros x. apply subsetof_in_range; [apply Hok|apply Hml|by eapply ao_contained]. }
    destruct c.
    + split; [done|intros x [? _]%Hn'; by apply Hn|]. intros d m Hmb Hd Hrd Heq.
      destruct (replay_store_spec p a bs l d) as (d1 & Hd1 & Hok1 & Hr1 & Hx1); [done..| | |].
      { intros x. apply Hl. }
      { intros x Hx. rewrite Hrd. by apply Hr, Hl. }
      exists d1. split_and!; [|done|by rewrite Hr1|].
      * cbn [recompute_replay_fwd]. rewrite Haddr. cbn [mbind option_bind].
        rewrite (decide_False (P := ev_kind p = RMW)), Hst, Hrd, Eo, Hbytes by done.
        cbn [cassert mbind option_bind]. by rewrite Hd1.
      * intros x Hx. rewrite Hstep. destruct (Hx1 x) as [Hin Hout]; [rewrite Hrd; by apply Hn|].
        destruct (decide (x ∈ l)) as [Hxl|Hxl]; [by rewrite (Hin Hxl m)|].
        rewrite Hout, Heq by (done || by apply Hn'). unfold mwrite.
        destruct (in_range a x) eqn:E; [|done]. by apply Hl in E.
    + split; [done|intros x [? _]%Hn'; by apply Hn|]. intros d m Hmb Hd Hrd Heq.
      assert (Hno : forall x, x ∈ needed -> x ∉ l).
      { intros x Hx Hxl. enough (false = true) by done. apply Hc. right. eauto. }
      exists d. split_and!; [done..|]. intros x Hx. rewrite Hstep, Heq by (apply Hn'; split; [done|by apply Hno]).
      unfold mwrite. destruct (in_range a x) eqn:E; [|done]. apply Hl in E. by apply Hno in E.
  - cbn [mbind option_bind fst snd]. eexists needed, stack. split; [done|]. apply scanned_skip; [done..|].
    intros m x _ Hx. rewrite Hstep. unfold mwrite. destruct (in_range a x) eqn:E; [|done].
    exfalso. eapply (overlaps_false_disjoint ml a); [apply Hml|apply Hok|done|]. split; [|done]. by apply Hn.
Qed.

Lemma slice_is_mread d a : sd_ok d -> sas_ok a -> sas_subsetof a (sd_ref d) = true ->
  let off := idx (sd_ref d) (sas_addr a) in
  sa_diff (sas_addr a) (sas_addr (sd_ref d)) = Some (Z.of_nat off) /\
  (off + Z.to_nat (sas_size a) <= length (sd_block d))%nat /\
  take (Z.to_nat (sas_size a)) (drop off (sd_block d)) = mread (dmem d) a.
Proof.
  intros [Hd Hl] Ha Hsub off.
  assert (Hin : forall x, in_range a x = true -> in_range (sd_ref d) x = true).
  { intros x. apply subsetof_in_range; [apply Ha|apply Hd|done]. }
  assert (Hfst : in_range (sd_ref d) (sas_addr a) = true).
  { apply Hin, bool_decide_eq_true. destruct Ha as (_ & ? & _). split; [done|lia]. }
  assert (Hidx : forall i, (i < Z.to_nat (sas_size a))%nat -> idx (sd_ref d) (byte_at a i) = (off + i)%nat).
  { intros i Hi. unfold off, idx, byte_at. simpl. apply bool_decide_eq_true in Hfst as [_ ?]. lia. }
  assert (Hbound : (off + Z.to_nat (sas_size a) <= length (sd_block d))%nat).
  { destruct Ha as (_ & Hpos & _).
    pose proof (in_range_idx _ _ (Hin _ (in_range_byte_at a (Z.to_nat (sas_size a) - 1) ltac:(lia)))) as H.
    rewrite Hidx in H by lia. lia. }
  split_and!; [by apply sa_diff_in|done|]. apply list_eq. intros i.
  destruct (decide (i < Z.to_nat (sas_size a))%nat) as [Hi|Hi].
  - rewrite mread_lookup, lookup_take_lt, lookup_drop by done. unfold dmem. rewrite Hidx by done.
    by destruct (lookup_lt_exists (sd_block d) (off + i)) as [v ->]; [lia|].
  - by rewrite !lookup_ge_None_2 by (rewrite ?length_mread, ?length_take; lia).
Qed.

Lemma dmem_splice d a new x : sd_ok d -> sas_ok a -> sas_subsetof a (sd_ref d) = true ->
  length new = Z.to_nat (sas_size a) -> in_range (sd_ref d) x = true ->
  let off := idx (sd_ref d) (sas_addr a) in
  dmem (MkSymData (sd_ref d) (take off (sd_block d) ++ new ++ drop (off + Z.to_nat (sas_size a)) (sd_block d))) x
    = mwrite (dmem d) a new x.
Proof.
  intros Hd Ha Hsub Hnew Hx off. destruct (slice_is_mread d a Hd Ha Hsub) as (_ & Hb & _).
  fold off in Hb. unfold mwrite. unfold dmem at 1. simpl. pose proof (in_range_idx _ _ Hx) as Hi.
  pose proof Hd as [_ Hl].
  assert (Hfst : in_range (sd_ref d) (sas_addr a) = true).
  { apply (subsetof_in_range a); [apply Ha|apply Hd|done|]. apply bool_decide_eq_true.
    destruct Ha as (_ & ? & _). split; [done|lia]. }
  apply bool_decide_eq_true in Hfst as [Hfb Hfo]. pose proof Hx as [Hxb Hxo]%bool_decide_eq_true.
  destruct (in_range a x) eqn:E.
  - apply bool_decide_eq_true in E as [_ Ho].
    assert (Hidx : idx (sd_ref d) x = (off + Z.to_nat (sa_offset x - sa_offset (sas_addr a)))%nat).
    { unfold off, idx. lia. }
    rewrite Hidx, lookup_app_r, length_take, lookup_app_l by (rewrite ?length_take; lia).
    replace (_ - _)%nat with (Z.to_nat (sa_offset x - sa_offset (sas_addr a))) by lia.
    by destruct (lookup_lt_exists new (Z.to_nat (sa_offset x - sa_offset (sas_addr a)))) as [v ->]; [lia|].
  - apply bool_decide_eq_false in E. unfold dmem.
    destruct (decide (idx (sd_ref d) x < off)%nat) as [Hlt|Hge].
    + by rewrite lookup_app_l, lookup_take_lt by (rewrite ?length_take; lia).
    + assert (Hge2 : (off + Z.to_nat (sas_size a) <= idx (sd_ref d) x)%nat).
      { destruct (decide (off + Z.to_nat (sas_size a) <= idx (sd_ref d) x)%nat); [done|].
        exfalso. apply E. split; [congruence|]. unfold off, idx in *. lia. }
      rewrite lookup_app_r, length_take, lookup_app_r, lookup_drop by (rewrite ?length_take; lia).
      do 2 f_equal. lia.
Qed.

(** Rewriting a slice of the block by the in-place operation. *)
Lemma replay_rmw_spec p a k operand d :
  ev_kind p = RMW -> ev_addr p = Some a -> ev_arg2 p = ArgRmw k -> ev_expected p = Some operand ->
  bytes operand -> length operand = Z.to_nat (sas_size a) -> sas_ok a -> sas_subsetof a ml = true ->
  sd_ok d -> sd_ref d = ml -> bytes (mread (dmem d) a) ->
  exists d1 new, (forall stack, recompute_replay_fwd d (p :: stack) = recompute_replay_fwd d1 stack) /\
    sd_ok d1 /\ sd_ref d1 = ml /\
    apply_to IsBigEndianHost k operand (mread (dmem d) a) (Z.to_nat (sas_size a)) (mread (dmem d) a) = Some new /\
    length new = Z.to_nat (sas_size a) /\
    forall x, in_range ml x = true -> dmem d1 x = mwrite (dmem d) a new x.
Proof.
  intros Hk Ha Hk2 He Hob Hol Hok Hsub Hd Hr Hmb. rewrite <-Hr in Hsub.
  destruct (slice_is_mread d a Hd Hok Hsub) as (Hdiff & Hbound & Hslice).
  destruct (apply_to_spec IsBigEndianHost k operand (mread (dmem d) a) (mread (dmem d) a))
    as (new & Hnew & Hlen & Hnb & _); [done|done|by rewrite length_mread|done|].
  rewrite length_mread in Hnew, Hlen.
  pose proof Hd as [Hrok Hl].
  set (off := idx (sd_ref d) (sas_addr a)) in *.
  exists (MkSymData (sd_ref d) (take off (sd_block d) ++ new ++ drop (off + Z.to_nat (sas_size a)) (sd_block d))), new.
  split_and!; [| |exact Hr|done|done|].
  - intros stack. cbn [recompute_replay_fwd]. rewrite Ha. cbn [mbind option_bind].
    rewrite decide_True, Hsub by done. cbn [cassert mbind option_bind]. rewrite Hdiff.
    unfold ev_rmwaction, has_rmwaction. rewrite Hk, He, Hk2.
    rewrite !bool_decide_true by done. cbn [cassert mbind option_bind arg2_rmw].
    unfold apply_in_place. cbn [ra_operand ra_kind mbind option_bind]. rewrite Nat2Z.id, Hslice, Hnew.
    done.
  - split; [done|]. simpl. rewrite !length_app, length_take, length_drop. lia.
  - intros x Hx. apply dmem_splice; [done..|by rewrite Hr].
Qed.

Lemma scan_rmw p needed stack revs :
  act_ok ml p -> ev_kind p = RMW -> sorted needed -> needed <> [] ->
  (forall x, x ∈ needed -> in_range ml x = true) ->
  exists needed' stack', recompute_scan_rev_loop ml (p :: revs) needed stack =
      recompute_scan_rev_loop ml revs needed' stack' /\ scanned [p] needed stack needed' stack'.
Proof.
  intros Hp Hk Hs Hne Hn. destruct (ao_rmw _ _ Hp Hk) as (a & k & operand & Ha & Hok & Hk2 & He & Hob & Hol).
  pose proof (ev_addr_arg _ _ Ha) as Harg.
  assert (Hstep : forall m, mem_bytes m -> exists new, act_step m p = mwrite m a new /\
    apply_to IsBigEndianHost k operand (mread m a) (Z.to_nat (sas_size a)) (mread m a) = Some new).
  { intros m Hm. destruct (apply_to_spec IsBigEndianHost k operand (mread m a) (mread m a))
      as (new & Hnew & _); [by apply mread_bytes|done|by rewrite length_mread|done|].
    rewrite length_mread in Hnew. exists new. unfold act_step. rewrite decide_True by done.
    by rewrite Harg, Hk2, He, Hnew. }
  assert (Hst : symev_does_store p = true) by (unfold symev_does_store; by rewrite Hk).
  cbn [recompute_scan_rev_loop]. rewrite decide_False, Hk, Ha by done. cbn [mbind option_bind].
  destruct (sas_bytes_ok a Hok) as (l & -> & _ & Hl). cbn [mbind option_bind].
  destruct (any_needed_spec needed l Hs) as (b & Hb & Hbt). rewrite Hb.
  destruct (sas_overlaps ml a) eqn:Eo; [destruct b|].
  - cbn [mbind option_bind]. pose proof (ao_contained _ _ Hp Hst a Ha Eo) as Hsub. rewrite Hsub.
    cbn [cassert mbind option_bind].
    destruct (all_bytes_ok a Hok) as (more & -> & Hms & Hmore). cbn [mbind option_bind].
    rewrite insert_set_spec by done. cbn [mbind option_bind fst snd]. eexists _, _. split; [done|].
    split; [by apply sorted_lunion| |].
    { intros x [Hx|Hx%Hmore]%elem_of_lunion; [by apply Hn|].
      by eapply subsetof_in_range; [apply Hok|apply Hml|..]. }
    intros d m Hmb Hd Hr Heq.
    assert (Hag : mread (dmem d) a = mread m a).
    { apply mread_ext. intros x Hx. apply Heq, elem_of_lunion. right. by apply Hmore. }
    destruct (replay_rmw_spec p a k operand d) as (d1 & new & Hrep & Hd1 & Hr1 & Hnew & Hlen & Hx1);
      [done..|rewrite Hag; by apply mread_bytes|].
    exists d1. split_and!; [apply Hrep|done|done|]. intros x Hx. rewrite Hx1 by (by apply Hn).
    destruct (Hstep m Hmb) as (new' & Hs' & Hn'). rewrite Hag, Hn' in Hnew. simplify_eq.
    unfold acts. simpl. rewrite Hs'. unfold mwrite.
    by rewrite (Heq x) by (apply elem_of_lunion; by left).
  - cbn [mbind option_bind fst snd]. eexists needed, stack. split; [done|]. apply scanned_skip; [done..|].
    intros m x Hmb Hx. unfold acts. simpl. destruct (Hstep m Hmb) as (new & -> & _). unfold mwrite.
    destruct (in_range a x) eqn:E; [|done]. enough (false = true) by done. apply Hbt. exists x.
    split; [by apply Hl|done].
  - cbn [mbind option_bind fst snd]. eexists needed, stack. split; [done|]. apply scanned_skip; [done..|].
    intros m x Hmb Hx. unfold acts. simpl. destruct (Hstep m Hmb) as (new & -> & _). unfold mwrite.
    destruct (in_range a x) eqn:E; [|done]. exfalso.
    eapply (overlaps_false_disjoint ml a); [apply Hml|apply Hok|done|]. split; [|done]. by apply Hn.
Qed.

Lemma scan_step p needed stack revs :
  act_ok ml p -> sorted needed -> needed <> [] -> (forall x, x ∈ needed -> in_range ml x = true) ->
  exists needed' stack', recompute_scan_rev_loop ml (p :: revs) needed stack =
      recompute_scan_rev_loop ml revs needed' stack' /\ scanned [p] needed stack needed' stack'.
Proof.
  intros Hp Hs Hne Hn. destruct (decide (ev_kind p = RMW)) as [Hk|Hk]; [by apply scan_rmw|].
  destruct (symev_does_store p) eqn:Est; [by apply scan_store|].
  exists needed, stack. split.
  - cbn [recompute_scan_rev_loop]. rewrite decide_False, Est by done.
    unfold symev_does_store in Est. by destruct (ev_kind p).
  - apply scanned_skip; [done..|]. intros m x Hmb Hx. unfold acts, act_step, store_step. simpl.
    by rewrite decide_False, Est.
Qed.

Lemma scan_loop_spec revs : forall needed stack,
  Forall (act_ok ml) revs -> sorted needed -> (forall x, x ∈ needed -> in_range ml x = true) ->
  exists needed' stack', recompute_scan_rev_loop ml revs needed stack = Some (needed', stack') /\
    scanned (reverse revs) needed stack needed' stack'.
Proof.
  induction revs as [|p revs IH]; intros needed stack Hok Hs Hn.
  { exists needed, stack. split; [done|]. by apply scanned_skip. }
  destruct (decide (needed = [])) as [->|Hne].
  { exists [], stack. split; [done|]. by apply scanned_stop. }
  apply Forall_cons in Hok as [Hp Hok].
  destruct (scan_step p needed stack revs) as (n1 & s1 & -> & H1); [done..|].
  destruct (IH n1 s1) as (n' & s' & -> & H2); [done|apply H1|apply H1|].
  exists n', s'. split; [done|]. rewrite reverse_cons.
  eapply scanned_app; [by apply Forall_reverse|done|done].
Qed.

Lemma scan_prefix_spec (evs : list sym_ty) j : forall needed stack,
  (j <= length evs)%nat -> Forall (Forall (act_ok ml)) evs -> sorted needed ->
  (forall x, x ∈ needed -> in_range ml x = true) ->
  exists needed' stack', scan_prefix evs j ml needed stack = Some (needed', stack') /\
    scanned (concat (take j evs)) needed stack needed' stack'.
Proof.
  induction j as [|j IH]; intros needed stack Hj Hok Hs Hn; cbn [scan_prefix];
    (case_decide as Hne; [subst; exists [], stack; split; [done|by apply scanned_stop]|]).
  { exists needed, stack. split; [done|]. by apply scanned_skip. }
  destruct (lookup_lt_exists evs j) as [js Hjs]; [lia|]. rewrite Hjs. cbn [mbind option_bind].
  destruct (scan_loop_spec (reverse js) needed stack) as (n1 & s1 & H0 & H1);
    [apply Forall_reverse; by eapply Forall_lookup_1 in Hok|done..|].
  unfold recompute_scan_rev. rewrite H0. cbn [mbind option_bind fst snd]. rewrite reverse_involutive in H1.
  destruct (IH n1 s1) as (n' & s' & -> & H2); [lia|done|apply H1|apply H1|].
  exists n', s'. split; [done|]. rewrite (take_snoc evs j js), concat_app by done. simpl.
  rewrite app_nil_r. eapply scanned_app; [|done|done]. by apply Forall_concat, Forall_take.
Qed.

End scan.

(** ** Observed stores: a liveness analysis *)

Definition reads_at (e : SymEv) (x : SymAddr) : bool :=
  match ev_kind e with
  | LOAD | RMW | CMPXHG | CMPXHGFAIL => ev_covers e x
  | FULLMEM => true
  | _ => false
  end.
Definition shadows_at (e : SymEv) (x : SymAddr) : bool :=
  bool_decide (ev_kind e = UNOBS_STORE) && ev_covers e x.

(** The next event of [es] that reads or overwrites byte [x] reads it. *)
Fixpoint live (es : list SymEv) (x : SymAddr) : bool :=
  match es with
  | [] => false
  | e :: es => reads_at e x || (negb (shadows_at e x) && live es x)
  end.
Definition has_fullmem (es : list SymEv) : bool := existsb (fun e => bool_decide (ev_kind e = FULLMEM)) es.

(** Store [e] is observed: one of its bytes is read before it is overwritten. *)
Definition observed_in (e : SymEv) (es : list SymEv) : Prop := exists x, ev_covers e x = true /\ live es x = true.

(** The test of the backward pass, to follow its two modes. *)
Definition marks (e : SymEv) (es : list SymEv) : bool :=
  let bs := default [] (a ← ev_addr e; sas_bytes a) in
  if has_fullmem es then forallb (live es) bs else existsb (live es) bs.
Fixpoint annotate (es : list SymEv) : list SymEv :=
  match es with
  | [] => []
  | e :: es =>
    (if bool_decide (ev_kind e = UNOBS_STORE) && marks e es
     then default e (SymEv_Store <$> ev_data e) else e) :: annotate es
  end.

Record obs_ok (e : SymEv) : Prop := {
  ob_addr : ev_kind e = LOAD \/ ev_kind e = RMW \/ ev_kind e = CMPXHG \/ ev_kind e = CMPXHGFAIL \/
    ev_kind e = UNOBS_STORE \/ ev_kind e = STORE -> exists a, ev_arg e = ArgAddr a /\ sas_ok a;
  ob_data : ev_kind e = UNOBS_STORE \/ ev_kind e = STORE -> is_Some (ev_written e);
}.

(** What [last_reads] and [read_all] stand for. *)
Record live_set (es : list SymEv) (last_reads : list SymAddr) (read_all : bool) : Prop := {
  ls_sorted : sorted last_reads;
  ls_all : read_all = has_fullmem es;
  ls_live : forall x, live es x = xorb read_all (bool_decide (x ∈ last_reads));
}.

Lemma forallb_existsb_negb {A} (f : A -> bool) l : forallb f l = negb (existsb (fun x => negb (f x)) l).
Proof. induction l as [|x l IH]; simpl; [done|]. rewrite IH. by destruct (f x). Qed.

Lemma existsb_elem {A} (f : A -> bool) l : existsb f l = true <-> exists x, x ∈ l /\ f x = true.
Proof. rewrite existsb_exists. by setoid_rewrite list_elem_of_In. Qed.

Lemma obs_bytes e : obs_ok e ->
  ev_kind e = LOAD \/ ev_kind e = RMW \/ ev_kind e = CMPXHG \/ ev_kind e = CMPXHGFAIL \/
    ev_kind e = UNOBS_STORE \/ ev_kind e = STORE ->
  exists a bs l, ev_addr e = Some a /\ all_bytes a = Some bs /\ sorted bs /\ sas_bytes a = Some l /\
    (forall x, x ∈ bs <-> ev_covers e x = true) /\ (forall x, x ∈ l <-> ev_covers e x = true).
Proof.
  intros He Hk. destruct (ob_addr e He Hk) as (a & Ha & Hok).
  assert (Haddr : ev_addr e = Some a).
  { unfold ev_addr, has_addr. destruct Hk as [->|[->|[->|[->|[->| ->]]]]]; simpl; by rewrite Ha. }
  destruct (all_bytes_ok a Hok) as (bs & Hbs & Hs & Hin), (sas_bytes_ok a Hok) as (l & Hl & _ & Hinl).
  exists a, bs, l. unfold ev_covers. rewrite Haddr. by split_and!.
Qed.

Lemma lunion_test (v s : list SymAddr) x :
  bool_decide (x ∈ lunion v s) = bool_decide (x ∈ v) || bool_decide (x ∈ s).
Proof. rewrite <-bool_decide_or. apply bool_decide_ext, elem_of_lunion. Qed.
Lemma ldiff_test (v s : list SymAddr) x :
  bool_decide (x ∈ ldiff v s) = bool_decide (x ∈ v) && negb (bool_decide (x ∈ s)).
Proof. rewrite <-bool_decide_not, <-bool_decide_and. apply bool_decide_ext, elem_of_ldiff. Qed.
Lemma covers_test e (bs : list SymAddr) x : (forall x, x ∈ bs <-> ev_covers e x = true) -> bool_decide (x ∈ bs) = ev_covers e x.
Proof. intros Hin. apply eq_true_iff_eq. by rewrite bool_decide_eq_true. Qed.

(** A read makes its bytes live. *)
Lemma observed_read e es last_reads read_all :
  obs_ok e -> ev_kind e = LOAD \/ ev_kind e = RMW \/ ev_kind e = CMPXHG \/ ev_kind e = CMPXHGFAIL ->
  live_set es last_reads read_all ->
  exists lr ra, recompute_observed1 e last_reads read_all = Some (e, (lr, ra)) /\
    live_set (e :: es) lr ra.
Proof.
  intros He Hk [Hs Hra Hlive]. destruct (obs_bytes e He) as (a & bs & l & Ha & Hbs & Hsb & _ & Hin & _); [tauto|].
  assert (Hl : forall x, live (e :: es) x = ev_covers e x || live es x).
  { intros x. cbn [live]. unfold reads_at, shadows_at. by destruct Hk as [->|[->|[->| ->]]]. }
  assert (Hf : has_fullmem (e :: es) = has_fullmem es) by (simpl; by destruct Hk as [->|[->|[->| ->]]]).
  assert (Heq : recompute_observed1 e last_reads read_all = if read_all then
      r ← erase_set last_reads bs; Some (e, (r.1, read_all))
      else r ← insert_set last_reads bs; Some (e, (r.1, read_all))).
  { unfold recompute_observed1. rewrite Ha. cbn [mbind option_bind]. rewrite Hbs.
    by destruct Hk as [->|[->|[->| ->]]]. }
  rewrite Heq. destruct read_all.
  - rewrite erase_set_spec by done. cbn [mbind option_bind fst]. eexists _, _. split; [done|].
    split; [by apply sorted_filter|by rewrite Hf|]. intros x.
    rewrite Hl, Hlive, ldiff_test, (covers_test e bs) by done. by destruct (ev_covers e x), (bool_decide _).
  - rewrite insert_set_spec by done. cbn [mbind option_bind fst]. eexists _, _. split; [done|].
    split; [by apply sorted_lunion|by rewrite Hf|]. intros x.
    rewrite Hl, Hlive, lunion_test, (covers_test e bs) by done. by destruct (ev_covers e x), (bool_decide _).
Qed.

(** An unobserved store becomes observed by the test on its bytes, and shadows
    them. *)
Lemma observed_store e es last_reads read_all :
  obs_ok e -> ev_kind e = UNOBS_STORE -> live_set es last_reads read_all ->
  exists e' lr ra, recompute_observed1 e last_reads read_all = Some (e', (lr, ra)) /\
    annotate (e :: es) = e' :: annotate es /\ live_set (e :: es) lr ra.
Proof.
  intros He Hk [Hs Hra Hlive].
  destruct (obs_bytes e He) as (a & bs & l & Ha & Hbs & Hsb & Hl & Hin & Hinl); [tauto|].
  destruct (intersects_spec last_reads bs Hs Hsb) as (hit & Hhit & Hht).
  assert (Hlv : forall x, live (e :: es) x = negb (ev_covers e x) && live es x).
  { intros x. cbn [live]. unfold reads_at, shadows_at. by rewrite Hk. }
  assert (Hf : has_fullmem (e :: es) = has_fullmem es) by (simpl; by rewrite Hk).
  assert (Hmarks : marks e es = xorb read_all hit).
  { unfold marks. rewrite Ha. simpl. rewrite Hl, <-Hra. unfold default, id. destruct read_all.
    - rewrite xorb_true_l, forallb_existsb_negb. f_equal. apply eq_true_iff_eq. rewrite existsb_elem, Hht.
      split; intros (x & Hx1 & Hx2); exists x; specialize (Hin x); specialize (Hinl x);
        specialize (Hlive x); case_bool_decide; simpl in *; destruct (live es x); simpl in *; (done || tauto).
    - rewrite xorb_false_l. apply eq_true_iff_eq. rewrite existsb_elem, Hht.
      split; intros (x & Hx1 & Hx2); exists x; specialize (Hin x); specialize (Hinl x);
        specialize (Hlive x); case_bool_decide; simpl in *; destruct (live es x); simpl in *; (done || tauto). }
  destruct (ob_data e He) as [w Hw]; [tauto|]. destruct (ob_addr e He) as (a' & Ha' & _); [tauto|].
  assert (Hdata : ev_data e = Some (MkSymDataRef a' (Some w))).
  { unfold ev_data, has_data. rewrite Hk, Hw, bool_decide_true by done. simpl. by rewrite Ha'. }
  unfold recompute_observed1. rewrite Hk, Ha. cbn [mbind option_bind]. rewrite Hbs. cbn [mbind option_bind].
  rewrite Hhit. cbn [mbind option_bind annotate].
  rewrite Hk, Hmarks, bool_decide_true, andb_true_l, Hdata by done. cbn [mbind option_bind fmap option_map option_fmap default].
  assert (Hset : exists lr, (if read_all then r ← insert_set last_reads bs; Some r.1
      else r ← erase_set last_reads bs; Some r.1) = Some lr /\ live_set (e :: es) lr read_all).
  { destruct read_all.
    - rewrite insert_set_spec by done. eexists. split; [done|].
      split; [by apply sorted_lunion|by rewrite Hf|]. intros x.
      rewrite Hlv, Hlive. simpl. rewrite lunion_test, (covers_test e bs) by done.
      by destruct (ev_covers e x), (bool_decide _).
    - rewrite erase_set_spec by done. eexists. split; [done|].
      split; [by apply sorted_filter|by rewrite Hf|]. intros x.
      rewrite Hlv, Hlive. simpl. rewrite ldiff_test, (covers_test e bs) by done.
      by destruct (ev_covers e x), (bool_decide _). }
  destruct Hset as (lr & Hset & Hls). clear Hmarks Hht Hhit.
  destruct read_all; [destruct (insert_set last_reads bs) as [r|]|destruct (erase_set last_reads bs) as [r|]];
    try discriminate Hset; injection Hset as <-;
    (destruct hit; eexists _, _, _; (split; [done|split; [done|exact Hls]])).
Qed.

Lemma recompute_observed1_spec e es last_reads read_all :
  obs_ok e -> ev_kind e <> STORE -> live_set es last_reads read_all ->
  exists e' lr ra, recompute_observed1 e last_reads read_all = Some (e', (lr, ra)) /\
    annotate (e :: es) = e' :: annotate es /\ live_set (e :: es) lr ra.
Proof.
  intros He Hns Hls. destruct (decide (ev_kind e = UNOBS_STORE)) as [Hk|Hu]; [by apply observed_store|].
  assert (Hann : annotate (e :: es) = e :: annotate es).
  { cbn [annotate]. by rewrite bool_decide_false. }
  destruct (decide (ev_kind e = LOAD \/ ev_kind e = RMW \/ ev_kind e = CMPXHG \/ ev_kind e = CMPXHGFAIL)) as [Hk|Hk].
  { destruct (observed_read e es last_reads read_all He Hk Hls) as (lr & ra & ? & ?). by exists e, lr, ra. }
  destruct Hls as [Hs Hra Hlive]. destruct (decide (ev_kind e = FULLMEM)) as [Hf|Hf].
  - exists e, [], true. unfold recompute_observed1. rewrite Hf. split; [done|]. split; [done|]. split; [apply sorted_nil| |].
    + simpl. by rewrite Hf.
    + intros x. cbn [live]. unfold reads_at. by rewrite Hf.
  - exists e, last_reads, read_all. split; [|split; [done|split; [done| |]]].
    + unfold recompute_observed1. destruct (ev_kind e); (done || tauto).
    + simpl. by rewrite bool_decide_false.
    + intros x. cbn [live]. rewrite <-Hlive. unfold reads_at, shadows_at.
      rewrite (bool_decide_false (ev_kind e = UNOBS_STORE)) by done. destruct (ev_kind e); (done || tauto).
Qed.

Definition obs_cleared (e : SymEv) : Prop := obs_ok e /\ ev_kind e <> STORE.

Lemma live_set_nil : live_set [] [] false.
Proof. split; [apply sorted_nil|done|done]. Qed.

Lemma recompute_observed_evs_spec revs : forall es lr ra acc,
  Forall obs_cleared revs -> live_set es lr ra ->
  exists acc' lr' ra', recompute_observed_evs revs lr ra acc = Some (acc' ++ acc, (lr', ra')) /\
    length acc' = length revs /\ annotate (reverse revs ++ es) = acc' ++ annotate es /\
    live_set (reverse revs ++ es) lr' ra'.
Proof.
  induction revs as [|e revs IH]; intros es lr ra acc Hok Hls; cbn [recompute_observed_evs].
  { by exists [], lr, ra. }
  apply Forall_cons in Hok as [[He Hns] Hok].
  destruct (recompute_observed1_spec e es lr ra He Hns Hls) as (e' & lr1 & ra1 & -> & Hann & Hls1).
  cbn [mbind option_bind fst snd].
  destruct (IH (e :: es) lr1 ra1 (e' :: acc) Hok Hls1) as (acc' & lr' & ra' & -> & Hlen & Hann' & Hls').
  exists (acc' ++ [e']), lr', ra'. rewrite reverse_cons, <-!app_assoc. simpl.
  split_and!; [done|rewrite length_app; simpl; lia| |done].
  by rewrite Hann', Hann.
Qed.

Lemma recompute_observed_branches_spec rv : forall es lr ra acc,
  Forall (Forall obs_cleared) rv -> live_set es lr ra -> annotate es = concat acc ->
  exists v', recompute_observed_branches rv lr ra acc = Some v' /\
    map length v' = map length (reverse rv) ++ map length acc /\
    concat v' = annotate (concat (reverse rv) ++ es).
Proof.
  induction rv as [|b rv IH]; intros es lr ra acc Hok Hls Hacc; cbn [recompute_observed_branches].
  { by exists acc. }
  apply Forall_cons in Hok as [Hb Hok].
  destruct (recompute_observed_evs_spec (reverse b) es lr ra []) as (acc' & lr' & ra' & -> & Hlen & Hann & Hls');
    [by apply Forall_reverse|done|].
  cbn [mbind option_bind fst snd]. rewrite app_nil_r in *. rewrite reverse_involutive in *.
  destruct (IH (b ++ es) lr' ra' (acc' :: acc) Hok Hls') as (v' & -> & Hl' & Hcat); [by rewrite Hann, Hacc|].
  exists v'. rewrite reverse_cons, map_app, concat_app, <-!app_assoc. simpl. rewrite app_nil_r.
  split_and!; [done| |done]. rewrite Hl'. simpl. by rewrite Hlen, length_reverse.
Qed.

Lemma clear_observed_spec e : obs_ok e -> exists e', clear_observed e = Some e' /\ obs_cleared e'.
Proof.
  intros He. unfold clear_observed. case_decide as Hk; [|by exists e].
  unfold set_observed. rewrite decide_True by done. eexists. split; [done|]. split; [|done].
  destruct (ob_addr e He) as (a & Ha & Hok); [tauto|]. split; simpl; [by eauto|].
  intros _. apply (ob_data e He). tauto.
Qed.

Lemma clear_all_spec (v : list sym_ty) : Forall (Forall obs_ok) v ->
  exists cleared, mapM clear_observed_all v = Some cleared /\ map length cleared = map length v /\
    Forall (Forall obs_cleared) cleared.
Proof.
  assert (Hone : forall b, Forall obs_ok b -> exists b', clear_observed_all b = Some b' /\
    length b' = length b /\ Forall obs_cleared b').
  { intros b. unfold clear_observed_all. induction 1 as [|e b He Hb IH]; [by exists []|].
    destruct (clear_observed_spec e He) as (e' & He' & Hc), IH as (b' & Hb' & Hl & Hbc).
    exists (e' :: b'). simpl. rewrite He'. simpl. rewrite Hb'. simpl. by split_and!; [|f_equal|constructor]. }
  induction 1 as [|b v Hb Hv IH]; [by exists []|].
  destruct (Hone b Hb) as (b' & Hb' & Hl & Hbc), IH as (c & Hc & Hlc & Hcc).
  exists (b' :: c). simpl. rewrite Hb'. simpl. rewrite Hc. simpl.
  by split_and!; [|f_equal|constructor].
Qed.

(** ** What the scans promise *)

(** [awaitcond_satisfied_before] is total on recorded stores that carry
    their data, and decides the await condition on the bytes that running the
    first [i] events forwards from zeroed memory leaves at [ml]; the backward
    scan with its shrinking set of needed bytes and its early exit computes
    exactly the last writer of every byte, at mixed access sizes. *)
Theorem awaitcond_before_is_forward (prefix : list sym_ty) i ml cond operand :
  (i <= length prefix)%nat -> Forall (Forall data_ok) prefix -> sas_ok ml ->
  ac_operand cond = Some operand ->
  awaitcond_satisfied_before prefix i ml cond =
    satisfied_by IsBigEndianHost (ac_op cond) operand
      (mread (stores (concat (take i prefix)) (fun _ => 0)) ml) (Z.to_nat (sas_size ml)).
Proof.
  intros Hi Hok Hml Hop. unfold awaitcond_satisfied_before.
  destruct (all_bytes_zero ml Hml) as (needed & -> & Hs & Hn & Hiff). cbn [mbind option_bind].
  destruct (rev_recompute_prefix_spec prefix i (zero_data ml) needed) as (d & n' & -> & H);
    [done|done|by apply zero_data_ok|done..|].
  cbn [mbind option_bind fst snd]. unfold cond_satisfied. rewrite Hop. cbn [mbind option_bind].
  rewrite (recomputed_final _ ml needed d n') by done. by rewrite (rc_ref _ _ _ _ _ H).
Qed.

(** C36. [recompute_cmpxhg_success] rewrites the compare-exchanges of [es] as a
    forward run would decide them: each becomes a [CMPXHG] exactly when the
    bytes that [prefix[0..i)], the sequence [v] and the (already rewritten)
    earlier events of [es] leave at its address are the expected ones; it
    never fails, and every other event is untouched. *)
Theorem cmpxhg_success_is_forward (prefix v : list sym_ty) i es :
  (i <= length prefix)%nat -> Forall (Forall data_ok) prefix -> Forall (Forall data_ok) v ->
  Forall cmpxhg_ok es -> Forall data_ok es ->
  recompute_cmpxhg_success prefix es v i =
    Some (resolve_forward (stores (concat (take i prefix) ++ concat v) (fun _ => 0)) es).
Proof.
  intros Hi Hp Hv Hc Hd. unfold recompute_cmpxhg_success.
  rewrite recompute_cmpxhg_loop_spec by done. by rewrite app_nil_r.
Qed.

(** C37. [awaitcond_satisfied_by] is total and decides the await condition on
    the bytes of [ml] after a forward run, from zeroed memory, of
    [prefix[0..i)] followed by the chosen events [seq], in which every
    read-modify-write is re-applied to what memory holds at that point: the
    backward scan that collects a stack of the relevant events and the forward
    replay of the stack compose to exactly that. It needs that every store of
    the prefix that touches [ml] lies inside it ([act_ok]): a wider one fails an
    assertion, see [awaitcond_by_wide_store]. *)
Theorem awaitcond_by_is_forward (prefix : list sym_ty) i seq seq_syms ml cond operand :
  (i <= length prefix)%nat -> mapM (fun j => prefix !! j) seq = Some seq_syms ->
  sas_ok ml -> Forall (Forall (act_ok ml)) prefix -> ac_operand cond = Some operand ->
  awaitcond_satisfied_by prefix i seq ml cond =
    satisfied_by IsBigEndianHost (ac_op cond) operand
      (mread (acts (concat (take i prefix) ++ concat seq_syms) (fun _ => 0)) ml) (Z.to_nat (sas_size ml)).
Proof.
  intros Hi Hseq Hml Hok Hop. unfold awaitcond_satisfied_by.
  destruct (all_bytes_zero ml Hml) as (needed & -> & Hs & Hn & Hiff). cbn [mbind option_bind].
  rewrite Hseq. cbn [mbind option_bind].
  assert (Hseqok : Forall (Forall (act_ok ml)) seq_syms).
  { apply mapM_Some_1 in Hseq. apply Forall_lookup_2. intros k x Hx.
    destruct (Forall2_lookup_r _ _ _ _ _ Hseq Hx) as (j & _ & Hj). by eapply Forall_lookup_1 in Hok. }
  pose proof (length_mapM _ _ _ Hseq) as Hlen.
  destruct (scan_prefix_spec ml Hml seq_syms (length seq) needed []) as (n1 & s1 & -> & H1);
    [lia|done|done|exact Hn|]. cbn [mbind option_bind fst snd].
  destruct (scan_prefix_spec ml Hml prefix i n1 s1) as (n2 & s2 & -> & H2);
    [done|done|apply H1|apply H1|]. cbn [mbind option_bind fst snd].
  rewrite (firstn_all2 seq_syms) in H1 by lia.
  assert (H12 : scanned ml (concat (take i prefix) ++ concat seq_syms) needed [] n2 s2).
  { eapply scanned_app; [|done|done]. by apply Forall_concat, Forall_take. }
  destruct (sc_replay _ _ _ _ _ _ H12 (zero_data ml) (fun _ => 0)) as (d1 & -> & Hd1 & Hr1 & Heq);
    [intros x; lia|by apply zero_data_ok|done|intros x _; apply dmem_zero|].
  cbn [recompute_replay_fwd mbind option_bind]. unfold cond_satisfied. rewrite Hop.
  cbn [mbind option_bind]. rewrite Hr1. f_equal. rewrite <-mread_dmem, Hr1 by done.
  apply mread_ext. intros x Hx. apply Heq. by apply Hiff.
Qed.

Lemma annotate_lookup es i : annotate es !! i =
  (fun e => if bool_decide (ev_kind e = UNOBS_STORE) && marks e (drop (S i) es) then default e (SymEv_Store <$> ev_data e) else e) <$> es !! i.
Proof. revert i. induction es as [|e es IH]; intros [|i]; [done..|]. cbn [annotate lookup list_lookup drop]. by apply IH. Qed.

(** The two modes against the analysis. *)
Lemma marks_live e es : obs_ok e -> ev_kind e = UNOBS_STORE ->
  (marks e es = true -> observed_in e es) /\
  (observed_in e es -> has_fullmem es = false \/ (forall x, ev_covers e x = true -> live es x = true) -> marks e es = true).
Proof.
  intros He Hk. destruct (obs_bytes e He) as (a & bs & l & Ha & _ & _ & Hl & _ & Hinl); [tauto|].
  unfold marks. rewrite Ha. cbn [mbind option_bind]. rewrite Hl. unfold default, id. split.
  - intros Hm. destruct (has_fullmem es).
    + destruct (ob_addr e He) as (a' & Ha' & Hok); [tauto|]. assert (a' = a) as ->.
      { revert Ha. unfold ev_addr, has_addr. rewrite Hk, Ha'. by intros [= <-]. }
      exists (sas_addr a). assert (Hc : ev_covers e (sas_addr a) = true).
      { unfold ev_covers. rewrite Ha. apply bool_decide_eq_true. destruct Hok as (_ & ? & _). split; [done|lia]. }
      split; [done|]. rewrite forallb_forall in Hm. by apply Hm, list_elem_of_In, Hinl.
    + apply existsb_elem in Hm as (x & Hx & Hlv). exists x. split; [by apply Hinl|done].
  - intros (x & Hx & Hlv) Hor. destruct (has_fullmem es).
    + destruct Hor as [|Hor]; [done|]. apply forallb_forall. intros y Hy. apply Hor, Hinl. by apply list_elem_of_In.
    + apply existsb_elem. exists x. split; [by apply Hinl|done].
Qed.


(** The precondition is needed: a store wider than the awaited range makes
    the replay of [awaitcond_satisfied_by] write the bytes of the store that
    lie outside the block (a failed [assert] of [SymData::operator\[\]], an
    out-of-bounds write without it), where [awaitcond_satisfied_before], which
    writes needed bytes only, gives the right answer. *)
Theorem awaitcond_by_wide_store :
  let range n := MkSymAddrSize (MkSymAddr (MkSymMBlock 65535 1) 0) n in
  let st := SymEv_Store (MkSymDataRef (range 4) (Some [7; 0; 0; 0])) in
  let cond := MkAwaitCond EQ (Some [7]) in
  data_ok st /\ sas_ok (range 1) /\
  awaitcond_satisfied_before [[st]] 1 (range 1) cond = Some true /\
  awaitcond_satisfied_by [[st]] 1 [] (range 1) cond = None.
Proof.
  assert (Hok : forall n, 0 < n <= 4 -> sas_ok (MkSymAddrSize (MkSymAddr (MkSymMBlock 65535 1) 0) n)).
  { intros n Hn. unfold sas_ok. unfold_consts. simpl. change (2 ^ 32) with 4294967296. lia. }
  split_and!.
  - intros _. eexists _, _. split_and!; [done|done|apply Hok; lia|done|]. repeat constructor; lia.
  - apply Hok. lia.
  - unfold awaitcond_satisfied_before, cond_satisfied, satisfied_by. destruct IsBigEndianHost; by vm_compute.
  - by vm_compute.
Qed.

End replay.

(** ** Concrete runs *)

Definition wit_ml (n : Z) : SymAddrSize := MkSymAddrSize (MkSymAddr (MkSymMBlock 65535 1) 0) n.
Definition wit_st (bs : list Z) : SymEv := SymEv_Store (MkSymDataRef (wit_ml (Z.of_nat (length bs))) (Some bs)).
Definition wit_add (v : Z) : SymEv :=
  MkSymEv RMW (ArgAddr (wit_ml 1)) (ArgRmw ADD) false (Some [v]) (Some [0]).
Definition wit_cas (expd new : Z) : SymEv :=
  SymEv_CmpXhg (MkSymDataRef (wit_ml 1) (Some [new])) (Some [expd]).

Lemma wit_ml_ok n : 0 < n <= 4 -> sas_ok (wit_ml n).
Proof. intros Hn. unfold sas_ok, wit_ml. unfold_consts. simpl. change (2 ^ 32) with 4294967296. lia. Qed.
Lemma wit_st_ok bs : 0 < Z.of_nat (length bs) <= 4 -> bytes bs -> data_ok (wit_st bs).
Proof. intros Hl Hb _. exists (wit_ml (Z.of_nat (length bs))), bs. split_and!; [done|done|by apply wit_ml_ok|simpl; lia|done]. Qed.
Lemma wit_cas_ok x y : bytes [x] -> bytes [y] -> data_ok (wit_cas x y) /\ cmpxhg_ok (wit_cas x y).
Proof.
  intros Hx Hy.
  assert (writes (wit_cas x y) (wit_ml 1) [y]) by (by split_and!; [| |apply wit_ml_ok| |]).
  split; [intros _; by exists (wit_ml 1), [y]|intros _; by exists (wit_ml 1), [y], [x]].
Qed.

Lemma awaitcond_before_is_forward_witness :
  awaitcond_satisfied_before false [[wit_st [7; 1]]; [wit_st [9]]] 2 (wit_ml 2) (MkAwaitCond EQ (Some [9; 1]))
  = Some true.
Proof.
  rewrite (awaitcond_before_is_forward false [[wit_st [7; 1]]; [wit_st [9]]] 2 (wit_ml 2)
             (MkAwaitCond EQ (Some [9; 1])) [9; 1]); [by vm_compute|done| |by apply wit_ml_ok|done].
  repeat constructor; apply wit_st_ok; (done || (repeat constructor; lia)).
Defined.

Lemma cmpxhg_success_is_forward_witness :
  recompute_cmpxhg_success [[wit_st [7]]] [wit_cas 7 8; wit_cas 7 9] [] 1
  = Some [wit_cas 7 8; ev_with_kind (wit_cas 7 9) CMPXHGFAIL].
Proof.
  rewrite (cmpxhg_success_is_forward [[wit_st [7]]] [] 1 [wit_cas 7 8; wit_cas 7 9]);
    [by vm_compute|done| |done| |].
  - repeat constructor; apply wit_st_ok; (done || (repeat constructor; lia)).
  - repeat constructor; apply wit_cas_ok; repeat constructor; lia.
  - repeat constructor; apply wit_cas_ok; repeat constructor; lia.
Defined.

Lemma wit_act_ok : Forall (Forall (act_ok (wit_ml 1))) [[wit_st [7]]; [wit_add 3]].
Proof.
  repeat constructor.
  - apply wit_st_ok; (done || (repeat constructor; lia)).
  - done.
  - by intros _ a [= <-].
  - intros _. exists (wit_ml 1), [0]. split_and!; [done|done|by apply wit_ml_ok|done|repeat constructor; lia].
  - intros _. exists (wit_ml 1), ADD, [3]. split_and!; [done|by apply wit_ml_ok|done|done|repeat constructor; lia|done].
  - by intros _ a [= <-].
Qed.

Lemma awaitcond_by_is_forward_witness :
  awaitcond_satisfied_by false [[wit_st [7]]; [wit_add 3]] 1 [1%nat] (wit_ml 1) (MkAwaitCond EQ (Some [10]))
  = Some true.
Proof.
  rewrite (awaitcond_by_is_forward false [[wit_st [7]]; [wit_add 3]] 1 [1%nat] [[wit_add 3]] (wit_ml 1)
             (MkAwaitCond EQ (Some [10])) [10]);
    [by vm_compute|simpl; lia|done|by apply wit_ml_ok|apply wit_act_ok|done].
Defined.


