(* ===== verification/WakeupTree.v ===== *)
(** * WakeupTree: the tree of scheduled explorations
      (src/src/WakeupTrees.h, WakeupTrees.tcc)

    A wakeup tree holds the executions still to explore; the exploration buffer
    pairs it with the stack of events of the current one. A [WakeupTreeRef] is a
    pointer to a node; here it is the path of child positions from the root.
    Children are added at the back, and the only child ever removed is the
    front one that the last event of the buffer occupies, so that no path in
    use moves: in particular the node of [prefix[i]] is always reached by
    first children. *)

From S2P Require Import Prelude.

Section wakeup_tree.
Context {Branch Event : Type} (branch_eq : Branch -> Branch -> bool).

Inductive WakeupTree := WNode (children : list (Branch * WakeupTree)).
Definition children (t : WakeupTree) : list (Branch * WakeupTree) := let '(WNode c) := t in c.
Definition WakeupTreeRef : Type := list nat.

(** The node a reference points to, and replacing it in the tree. *)
Fixpoint wnode (t : WakeupTree) (r : WakeupTreeRef) : option WakeupTree :=
  match r with
  | [] => Some t
  | k :: r => c ← children t !! k; wnode c.2 r
  end.
Fixpoint wnode_set (t : WakeupTree) (r : WakeupTreeRef) (u : WakeupTree) : option WakeupTree :=
  match r with
  | [] => Some u
  | k :: r => c ← children t !! k; c' ← wnode_set c.2 r u;
              Some (WNode (<[k := (c.1, c')]> (children t)))
  end.

Definition ref_size (t : WakeupTree) (r : WakeupTreeRef) : option nat :=
  n ← wnode t r; Some (length (children n)).
Definition has_child (t : WakeupTree) (r : WakeupTreeRef) (b : Branch) : option bool :=
  n ← wnode t r; Some (existsb (fun p => branch_eq p.1 b) (children n)).
Definition ref_put_child (t : WakeupTree) (r : WakeupTreeRef) (b : Branch)
    : option (WakeupTree * WakeupTreeRef) :=
  n ← wnode t r;
  _ ← cassert (negb (existsb (fun p => branch_eq p.1 b) (children n)));
  t' ← wnode_set t r (WNode (children n ++ [(b, WNode [])]));
  Some (t', r ++ [length (children n)]).

(** ** The exploration buffer *)

Record Buffer := MkBuffer { wtree : WakeupTree; events : list Event }.
Definition buffer_empty : Buffer := MkBuffer (WNode []) [].

Definition buf_len (b : Buffer) : nat := length (events b).
Definition buf_get (b : Buffer) (i : nat) : option Event := events b !! i.
Definition buf_set (b : Buffer) (i : nat) (e : Event) : option Buffer :=
  evs ← vset (events b) i e; Some (MkBuffer (wtree b) evs).

(** [prefix[i].node] and [parent_at(i)]. *)
Definition parent_at (b : Buffer) (i : nat) : option WakeupTreeRef :=
  _ ← cassert (bool_decide (i <= buf_len b)); Some (replicate i 0).
Definition buf_node (b : Buffer) (i : nat) : option WakeupTreeRef :=
  _ ← cassert (bool_decide (i < buf_len b)); Some (replicate (S i) 0).

Definition front_branch (t : WakeupTree) (r : WakeupTreeRef) : option Branch :=
  n ← wnode t r; c ← children n !! 0; Some c.1.
Definition buf_branch (b : Buffer) (i : nat) : option Branch :=
  p ← parent_at b i; front_branch (wtree b) p.
Definition children_after (b : Buffer) (pos : nat) : option nat :=
  _ ← cassert (bool_decide (pos < buf_len b));
  p ← parent_at b pos; n ← ref_size (wtree b) p; Some (n - 1).
Definition buf_last (b : Buffer) : option Event := vback (events b).
Definition lastbranch (b : Buffer) : option Branch := buf_branch b (buf_len b - 1).
Definition lastnode (b : Buffer) : option WakeupTreeRef := buf_node b (buf_len b - 1).

Definition set_last_branch (b : Buffer) (x : Branch) : option Buffer :=
  p ← parent_at b (buf_len b - 1);
  n ← wnode (wtree b) p;
  old ← lastbranch b;
  _ ← cassert (bool_decide (length (children n) = 1) || branch_eq x old);
  c ← children n !! 0;
  _ ← cassert (branch_eq c.1 x);
  t ← wnode_set (wtree b) p (WNode (<[0 := (x, c.2)]> (children n)));
  Some (MkBuffer t (events b)).

Definition delete_last (b : Buffer) : option Buffer :=
  _ ← cassert (bool_decide (0 < buf_len b));
  p ← parent_at b (buf_len b - 1);
  n ← wnode (wtree b) p;
  c ← children n !! 0;
  lb ← lastbranch b;
  _ ← cassert (branch_eq c.1 lb);
  t ← wnode_set (wtree b) p (WNode (drop 1 (children n)));
  evs ← vpop (events b);
  Some (MkBuffer t evs).

Definition first_child (b : Buffer) : option Branch :=
  p ← parent_at b (buf_len b);
  n ← ref_size (wtree b) p; _ ← cassert (bool_decide (n <> 0));
  front_branch (wtree b) p.

Definition enter_first_child (b : Buffer) (e : Event) : option Buffer :=
  p ← parent_at b (buf_len b);
  n ← ref_size (wtree b) p; _ ← cassert (bool_decide (n <> 0));
  Some (MkBuffer (wtree b) (events b ++ [e])).

Definition buf_push (b : Buffer) (x : Branch) (e : Event) : option Buffer :=
  p ← parent_at b (buf_len b);
  n ← ref_size (wtree b) p; _ ← cassert (bool_decide (n = 0));
  r ← ref_put_child (wtree b) p x;
  Some (MkBuffer r.1 (events b ++ [e])).

(** [prefix.parent_at(i).put_child(x)] *)
Definition put_child_at (b : Buffer) (r : WakeupTreeRef) (x : Branch) : option (Buffer * WakeupTreeRef) :=
  t ← ref_put_child (wtree b) r x; Some (MkBuffer t.1 (events b), t.2).

(** ** The invariant: every event of the stack has its node *)

Definition buf_inv (b : Buffer) : Prop := is_Some (wnode (wtree b) (replicate (buf_len b) 0)).

Lemma wnode_app t r s : wnode t (r ++ s) = n ← wnode t r; wnode n s.
Proof.
  revert t. induction r as [|k r IH]; intros t; [done|]. simpl.
  destruct (children t !! k); simpl; [apply IH|done].
Qed.

Lemma wnode_prefix b i : buf_inv b -> i <= buf_len b -> exists n, wnode (wtree b) (replicate i 0) = Some n.
Proof.
  intros [n Hn] Hi. replace (buf_len b) with (i + (buf_len b - i)) in Hn by lia.
  rewrite replicate_add, wnode_app in Hn. destruct (wnode (wtree b) (replicate i 0)); [by eexists|done].
Qed.

(** Below the top every node on the path has a first child. *)
Lemma wnode_front b i : buf_inv b -> i < buf_len b -> exists n c cs,
  wnode (wtree b) (replicate i 0) = Some n /\ children n = c :: cs /\
  wnode (wtree b) (replicate (S i) 0) = Some c.2.
Proof.
  intros Hinv Hi. destruct (wnode_prefix b i) as [n Hn]; [done|lia|].
  destruct (wnode_prefix b (S i)) as [m Hm]; [done|lia|].
  rewrite replicate_S_end, wnode_app, Hn in *. simpl in *.
  destruct (children n) as [|c cs] eqn:E; [done|]. exists n, c, cs. simpl in *. by rewrite Hm.
Qed.

Lemma wnode_set_Some t r u n : wnode t r = Some n -> exists t', wnode_set t r u = Some t'.
Proof.
  revert t n. induction r as [|k r IH]; intros t n; simpl; [eauto|].
  destruct (children t !! k) as [c|] eqn:E; simpl; [|done]. intros Hn.
  destruct (IH c.2 n Hn) as [c' ->]. eauto.
Qed.

(** Reading after replacing: below the replaced node, and on paths that leave
    the path to it. *)
Lemma wnode_set_below t r u t' s : wnode_set t r u = Some t' -> wnode t' (r ++ s) = wnode u s.
Proof.
  revert t t'. induction r as [|k r IH]; intros t t'; simpl; [by intros [= ->]|].
  destruct (children t !! k) as [c|] eqn:E; simpl; [|done].
  destruct (wnode_set c.2 r u) as [c'|] eqn:E'; simpl; [|done]. intros [= <-]. simpl.
  rewrite list_lookup_insert_eq by (by eapply lookup_lt_Some). simpl. by eapply IH.
Qed.

(** On a proper prefix of the path the node keeps its shape: the number of
    children, their branches, and every other child. *)
Lemma wnode_set_above t r k s u t' : wnode_set t (r ++ k :: s) u = Some t' ->
  exists n c c', wnode t r = Some n /\ children n !! k = Some c /\
    wnode t' r = Some (WNode (<[k := (c.1, c')]> (children n))).
Proof.
  revert t t'. induction r as [|j r IH]; intros t t'; simpl.
  - destruct (children t !! k) as [c|] eqn:E; simpl; [|done].
    destruct (wnode_set c.2 s u) as [c'|]; simpl; [|done]. intros [= <-]. by exists t, c, c'.
  - destruct (children t !! j) as [d|] eqn:E; simpl; [|done].
    destruct (wnode_set d.2 (r ++ k :: s) u) as [d'|] eqn:E'; simpl; [|done]. intros [= <-]. simpl.
    rewrite list_lookup_insert_eq by (by eapply lookup_lt_Some). simpl. by apply (IH d.2 d').
Qed.

Lemma wnode_set_id t r n : wnode t r = Some n -> wnode_set t r n = Some t.
Proof.
  revert t. induction r as [|k r IH]; intros t; simpl; [by intros [= ->]|].
  destruct (children t !! k) as [c|] eqn:E; simpl; [|done]. intros Hn.
  rewrite (IH _ Hn). simpl. destruct t as [cs]. simpl in *. do 2 f_equal.
  destruct c as [x c]. simpl. by apply list_insert_id.
Qed.

Lemma wnode_set_set t r u v t' : wnode_set t r u = Some t' -> wnode_set t' r v = wnode_set t r v.
Proof.
  revert t t'. induction r as [|k r IH]; intros t t'; simpl; [done|].
  destruct (children t !! k) as [c|] eqn:E; simpl; [|done].
  destruct (wnode_set c.2 r u) as [c'|] eqn:E'; simpl; [|done]. intros [= <-]. simpl.
  rewrite list_lookup_insert_eq by (by eapply lookup_lt_Some). simpl. rewrite (IH _ _ E').
  destruct (wnode_set c.2 r v); simpl; [|done]. by rewrite list_insert_insert_eq.
Qed.

Lemma buf_branch_front b i : buf_inv b -> i < buf_len b -> exists n c cs,
  wnode (wtree b) (replicate i 0) = Some n /\ children n = c :: cs /\ buf_branch b i = Some c.1 /\
  children_after b i = Some (length cs).
Proof.
  intros Hinv Hi. destruct (wnode_front b i Hinv Hi) as (n & c & cs & Hn & Hc & _).
  exists n, c, cs. split_and!; [done|done| |].
  - unfold buf_branch, parent_at, front_branch. rewrite bool_decide_true by lia. simpl. rewrite Hn. simpl.
    by rewrite Hc.
  - unfold children_after, parent_at, ref_size. rewrite !bool_decide_true by lia. simpl. rewrite Hn. simpl.
    rewrite Hc. simpl. by rewrite Nat.sub_0_r.
Qed.

(** Replacing the node at depth [j] does not change the branches above. *)
Lemma branch_above b j u t' i : wnode_set (wtree b) (replicate j 0) u = Some t' ->
  i < j -> j <= buf_len b -> buf_inv b -> exists n c cs c',
  wnode (wtree b) (replicate i 0) = Some n /\ children n = c :: cs /\
  wnode t' (replicate i 0) = Some (WNode ((c.1, c') :: cs)).
Proof.
  intros Hset Hi Hj Hinv. replace j with (i + S (j - S i)) in Hset by lia.
  rewrite replicate_add in Hset. simpl in Hset.
  destruct (wnode_set_above _ _ _ _ _ _ Hset) as (n & c & c' & Hn & Hc & Hn').
  destruct (children n) as [|d ds] eqn:E; [done|]. simpl in Hc. simplify_eq.
  exists n, c, ds, c'. done.
Qed.

Lemma buf_branch_of t evs i n c cs : i <= length evs -> wnode t (replicate i 0) = Some n ->
  children n = c :: cs -> buf_branch (MkBuffer t evs) i = Some c.1.
Proof.
  intros Hi Hn Hc. unfold buf_branch, parent_at, front_branch, buf_len. simpl.
  rewrite bool_decide_true by done. simpl. rewrite Hn. simpl. by rewrite Hc.
Qed.

Lemma delete_last_spec b : (forall x, branch_eq x x = true) -> buf_inv b -> 0 < buf_len b ->
  exists b', delete_last b = Some b' /\ buf_inv b' /\ events b' = take (buf_len b - 1) (events b) /\
    (forall i, i < buf_len b - 1 -> buf_branch b' i = buf_branch b i) /\
    exists n c cs, wnode (wtree b) (replicate (buf_len b - 1) 0) = Some n /\ children n = c :: cs /\
      wnode_set (wtree b) (replicate (buf_len b - 1) 0) (WNode cs) = Some (wtree b').
Proof.
  intros Hrefl Hinv Hlen. destruct (buf_branch_front b (buf_len b - 1)) as (n & c & cs & Hn & Hc & Hb & _); [done|lia|].
  destruct (wnode_set_Some _ _ (WNode cs) _ Hn) as [t' Ht'].
  exists (MkBuffer t' (take (buf_len b - 1) (events b))).
  assert (Hdel : delete_last b = Some (MkBuffer t' (take (buf_len b - 1) (events b)))).
  { unfold delete_last, parent_at, lastbranch. rewrite !bool_decide_true by lia. cbn [cassert mbind option_bind].
    rewrite Hn. cbn [mbind option_bind]. rewrite Hc. cbn [mbind option_bind lookup list_lookup].
    rewrite Hb. cbn [mbind option_bind]. rewrite Hrefl. cbn [cassert mbind option_bind]. change (drop 1 (c :: cs)) with cs. rewrite Ht'.
    cbn [mbind option_bind]. unfold vpop, buf_len in *. destruct (events b); simpl in *; [lia|done]. }
  split; [done|]. unfold buf_inv. simpl. split_and!.
  - replace (buf_len _) with (buf_len b - 1) by (unfold buf_len; simpl; rewrite length_take; lia).
    pose proof (wnode_set_below _ _ _ _ [] Ht') as Hw. rewrite app_nil_r in Hw. by rewrite Hw.
  - done.
  - intros i Hi. destruct (branch_above b (buf_len b - 1) (WNode cs) t' i) as (n1 & c1 & cs1 & c1' & H1 & H2 & H3);
      [done|done|lia|done|].
    erewrite buf_branch_of; [|rewrite length_take; unfold buf_len in *; lia|exact H3|done].
    destruct (buf_branch_front b i) as (n2 & c2 & cs2 & H4 & H5 & -> & _); [done|lia|].
    rewrite H1 in H4. simplify_eq. rewrite H2 in H5. by simplify_eq.
  - by exists n, c, cs.
Qed.

Lemma enter_first_child_spec b e x : buf_inv b -> first_child b = Some x ->
  exists b', enter_first_child b e = Some b' /\ buf_inv b' /\ events b' = events b ++ [e] /\
    wtree b' = wtree b /\ buf_branch b' (buf_len b) = Some x /\
    (forall i, i < buf_len b -> buf_branch b' i = buf_branch b i).
Proof.
  intros Hinv. unfold first_child, parent_at. rewrite bool_decide_true by done. cbn [cassert mbind option_bind].
  destruct Hinv as [n Hn]. unfold ref_size, front_branch. rewrite Hn. cbn [mbind option_bind].
  destruct (children n) as [|c cs] eqn:Hc; [done|]. intros [= <-].
  exists (MkBuffer (wtree b) (events b ++ [e])). unfold enter_first_child, parent_at, ref_size, buf_inv.
  rewrite bool_decide_true by done. cbn [cassert mbind option_bind]. rewrite Hn. cbn [mbind option_bind].
  rewrite Hc. cbn [mbind option_bind length cassert]. split_and!; try done.
  - replace (buf_len _) with (buf_len b + 1) by (unfold buf_len; simpl; by rewrite length_app).
    cbn [wtree]. rewrite replicate_add, wnode_app, Hn. simpl. by rewrite Hc.
  - eapply buf_branch_of; [rewrite length_app; unfold buf_len; lia|done|done].
  - intros i Hi. unfold buf_branch, parent_at, buf_len in *. simpl. rewrite length_app.
    by rewrite !bool_decide_true by (simpl; lia).
Qed.

Lemma ref_put_child_spec t r n x :
  wnode t r = Some n -> existsb (fun p => branch_eq p.1 x) (children n) = false ->
  exists t', ref_put_child t r x = Some (t', r ++ [length (children n)]) /\
    wnode_set t r (WNode (children n ++ [(x, WNode [])])) = Some t' /\
    wnode t' r = Some (WNode (children n ++ [(x, WNode [])])) /\
    wnode t' (r ++ [length (children n)]) = Some (WNode []).
Proof.
  intros Hn Hfresh. destruct (wnode_set_Some _ _ (WNode (children n ++ [(x, WNode [])])) _ Hn) as [t' Ht'].
  exists t'. unfold ref_put_child. rewrite Hn. simpl. rewrite Hfresh. simpl. rewrite Ht'. split; [done|].
  pose proof (wnode_set_below _ _ _ _ [] Ht') as Hw. rewrite app_nil_r in Hw.
  split_and!; [done|by rewrite Hw|]. rewrite wnode_app, Hw. simpl. by rewrite lookup_mid.
Qed.

Lemma put_child_at_spec b i x n : buf_inv b -> i <= buf_len b ->
  wnode (wtree b) (replicate i 0) = Some n -> existsb (fun p => branch_eq p.1 x) (children n) = false ->
  exists b' r, put_child_at b (replicate i 0) x = Some (b', r) /\ buf_inv b' /\ events b' = events b /\
    (forall j, j < buf_len b -> buf_branch b' j = buf_branch b j) /\
    wnode (wtree b') (replicate i 0) = Some (WNode (children n ++ [(x, WNode [])])).
Proof.
  intros Hinv Hi Hn Hfresh. destruct (ref_put_child_spec _ _ _ x Hn Hfresh) as (t' & Hput & Hset & Hat & _).
  exists (MkBuffer t' (events b)), (replicate i 0 ++ [length (children n)]).
  unfold put_child_at. rewrite Hput. split; [done|].
  assert (Hinv' : is_Some (wnode t' (replicate (buf_len b) 0))).
  { replace (buf_len b) with (i + (buf_len b - i)) by lia.
    rewrite replicate_add, wnode_app, Hat. cbn [mbind option_bind].
    destruct Hinv as [m Hm]. replace (buf_len b) with (i + (buf_len b - i)) in Hm by lia.
    rewrite replicate_add, wnode_app, Hn in Hm. cbn [mbind option_bind] in Hm.
    destruct (buf_len b - i) as [|k]; [by eexists|]. simpl in *.
    destruct (children n) as [|c cs]; [done|]. simpl in *. by exists m. }
  split_and!; [done|done| |done]. intros j Hj.
  destruct (buf_branch_front b j) as (n2 & c2 & cs2 & H4 & H5 & -> & _); [done|done|].
  destruct (decide (j < i)) as [Hji|Hji].
  - destruct (branch_above b i _ t' j Hset) as (n1 & c1 & cs1 & c1' & H1 & H2 & H3); [done..|].
    erewrite buf_branch_of; [|unfold buf_len in *; lia|exact H3|done].
    rewrite H1 in H4. simplify_eq. rewrite H2 in H5. by simplify_eq.
  - replace j with (i + (j - i)) in * by lia. rewrite replicate_add in H4. rewrite wnode_app, Hn in H4.
    cbn [mbind option_bind] in H4.
    assert (Hw : exists m cs, wnode t' (replicate (i + (j - i)) 0) = Some m /\ children m = c2 :: cs).
    { rewrite replicate_add, wnode_app, Hat. cbn [mbind option_bind].
      destruct (j - i) as [|k]; simpl in *.
      - simplify_eq. eexists _, _. split; [done|]. simpl. by rewrite H5.
      - destruct (children n) as [|c cs]; [done|]. simpl in *. by exists n2, cs2. }
    destruct Hw as (m & cs & Hm & Hc). eapply buf_branch_of; [unfold buf_len in *; lia|done|done].
Qed.

Lemma buf_push_spec b x e : (forall y, branch_eq y y = true) -> buf_inv b ->
  wnode (wtree b) (replicate (buf_len b) 0) = Some (WNode []) ->
  exists b', buf_push b x e = Some b' /\ buf_inv b' /\ events b' = events b ++ [e] /\
    buf_branch b' (buf_len b) = Some x /\ delete_last b' = Some b.
Proof.
  intros Hrefl Hinv Hn. destruct (ref_put_child_spec _ _ _ x Hn eq_refl) as (t' & Hput & Hset & Hat & Hnew).
  exists (MkBuffer t' (events b ++ [e])). unfold buf_push, parent_at, ref_size.
  rewrite bool_decide_true by done. cbn [cassert mbind option_bind]. rewrite Hn.
  cbn [mbind option_bind children length cassert bool_decide]. rewrite Hput. split; [done|].
  assert (Hlen : buf_len (MkBuffer t' (events b ++ [e])) = S (buf_len b)).
  { unfold buf_len. simpl. rewrite length_app. simpl. lia. }
  assert (Hinv' : buf_inv (MkBuffer t' (events b ++ [e]))).
  { unfold buf_inv. rewrite Hlen, replicate_S_end. simpl in *. by rewrite Hnew. }
  split_and!; [done|done| |].
  - refine (buf_branch_of t' (events b ++ [e]) (buf_len b) _ (x, WNode []) [] _ Hat eq_refl).
    rewrite length_app. unfold buf_len. lia.
  - destruct (delete_last_spec _ Hrefl Hinv') as (b2 & Hdel & _ & Hev & _ & n & c & cs & Hn2 & Hc & Hset2);
      [by rewrite Hlen; lia|].
    rewrite Hlen in *. simpl in *. rewrite Nat.sub_0_r in *. rewrite Hat in Hn2. simplify_eq. simpl in Hc. simplify_eq.
    rewrite (wnode_set_set _ _ _ _ _ Hset), (wnode_set_id _ _ _ Hn) in Hset2. simplify_eq.
    rewrite Hdel. destruct b, b2; simpl in *. f_equal. subst. f_equal. unfold buf_len. simpl.
    by rewrite take_app_length.
Qed.

(** The branches at a depth of the current execution: all that [branch] and
    [children_after] look at. *)
Definition siblings (b : Buffer) (i : nat) : option (list Branch) :=
  n ← wnode (wtree b) (replicate i 0); Some (map fst (children n)).
Lemma buf_branch_siblings b i : i <= buf_len b -> buf_branch b i = siblings b i ≫= head.
Proof.
  intros Hi. unfold buf_branch, parent_at, front_branch, siblings. rewrite bool_decide_true by done. simpl.
  destruct (wnode _ _) as [n|]; simpl; [|done]. by destruct (children n).
Qed.
Lemma children_after_siblings b i : i < buf_len b -> children_after b i = l ← siblings b i; Some (length l - 1).
Proof.
  intros Hi. unfold children_after, parent_at, ref_size, siblings. rewrite !bool_decide_true by lia. simpl.
  destruct (wnode _ _) as [n|]; simpl; [|done]. by rewrite length_map.
Qed.
Lemma siblings_above t t' u evs evs' k i : wnode_set t (replicate k 0) u = Some t' -> i < k ->
  siblings (MkBuffer t' evs') i = siblings (MkBuffer t evs) i.
Proof.
  intros Hset Hi. replace k with (i + S (k - S i)) in Hset by lia. rewrite replicate_add in Hset. simpl in Hset.
  destruct (wnode_set_above _ _ _ _ _ _ Hset) as (n & c & c' & Hn & Hc & Hn'). unfold siblings. simpl.
  rewrite Hn, Hn'. simpl. f_equal. destruct (children n) as [|d ds]; [done|]. simpl in *. by simplify_eq.
Qed.

(** Renaming the branch of the last event keeps the shape of the tree. *)
Lemma set_last_branch_spec b x old : buf_inv b -> 0 < buf_len b ->
  lastbranch b = Some old -> branch_eq x old = true -> branch_eq old x = true ->
  exists b', set_last_branch b x = Some b' /\ events b' = events b /\
    wnode (wtree b') (replicate (buf_len b) 0) = wnode (wtree b) (replicate (buf_len b) 0) /\
    (forall i, i < buf_len b - 1 -> siblings b' i = siblings b i) /\
    exists l, siblings b (buf_len b - 1) = Some (old :: l) /\ siblings b' (buf_len b - 1) = Some (x :: l).
Proof.
  intros Hinv Hlen Hold Hx Hx'. set (k := buf_len b - 1).
  destruct (wnode_front b k Hinv) as (n & c & cs & Hn & Hc & Hbelow); [lia|].
  assert (c.1 = old) as Hc1.
  { revert Hold. unfold lastbranch. fold k. rewrite buf_branch_siblings by lia. unfold siblings. rewrite Hn. simpl.
    rewrite Hc. simpl. by intros [= ->]. }
  destruct (wnode_set_Some _ _ (WNode (<[0 := (x, c.2)]> (children n))) _ Hn) as [t' Ht'].
  exists (MkBuffer t' (events b)).
  assert (Hset : set_last_branch b x = Some (MkBuffer t' (events b))).
  { unfold set_last_branch, parent_at. fold k. rewrite bool_decide_true by lia. cbn [cassert mbind option_bind].
    rewrite Hn. cbn [mbind option_bind]. rewrite Hold. cbn [mbind option_bind]. rewrite Hx, orb_true_r.
    cbn [cassert mbind option_bind]. rewrite Hc at 1. cbn [mbind option_bind lookup list_lookup]. rewrite Hc1, Hx'.
    cbn [cassert mbind option_bind]. by rewrite Ht'. }
  rewrite Hc in Ht'. simpl in Ht'. pose proof (wnode_set_below _ _ _ _ [] Ht') as Hat. rewrite app_nil_r in Hat. simpl in Hat.
  split_and!; [done|done| | |].
  - cbn [wtree]. replace (buf_len b) with (S k) by lia. rewrite Hbelow, replicate_S_end, wnode_app, Hat. done.
  - intros i Hi. destruct b. by eapply siblings_above.
  - exists (map fst cs). unfold siblings. cbn [wtree]. rewrite Hn, Hat. simpl. rewrite Hc. simpl. by rewrite Hc1.
Qed.

Lemma delete_last_siblings b b' : delete_last b = Some b' -> buf_inv b -> (forall x, branch_eq x x = true) ->
  (forall i, i < buf_len b - 1 -> siblings b' i = siblings b i) /\
  exists n c cs, wnode (wtree b) (replicate (buf_len b - 1) 0) = Some n /\ children n = c :: cs /\
    wnode (wtree b') (replicate (buf_len b - 1) 0) = Some (WNode cs).
Proof.
  intros Hdel Hinv Hrefl.
  assert (Hlen : 0 < buf_len b) by (revert Hdel; unfold delete_last; case_bool_decide; done).
  destruct (delete_last_spec b Hrefl Hinv Hlen) as (b2 & Hdel2 & _ & _ & _ & n & c & cs & Hn & Hc & Hset).
  rewrite Hdel in Hdel2. simplify_eq. split.
  - intros i Hi. destruct b, b2. by eapply siblings_above.
  - exists n, c, cs. pose proof (wnode_set_below _ _ _ _ [] Hset) as Hat. by rewrite app_nil_r in Hat.
Qed.

Lemma buf_push_siblings b b' x e : buf_push b x e = Some b' ->
  wnode (wtree b) (replicate (buf_len b) 0) = Some (WNode []) ->
  (forall i, i < buf_len b -> siblings b' i = siblings b i) /\ siblings b' (buf_len b) = Some [x] /\
  wnode (wtree b') (replicate (S (buf_len b)) 0) = Some (WNode []).
Proof.
  intros Hpush Hn. destruct (ref_put_child_spec _ _ _ x Hn eq_refl) as (t' & Hput & Hset & Hat & Hnew).
  revert Hpush. unfold buf_push, parent_at, ref_size. rewrite bool_decide_true by done. cbn [cassert mbind option_bind].
  rewrite Hn. cbn [mbind option_bind children length cassert bool_decide]. rewrite Hput. intros [= <-]. split_and!.
  - intros i Hi. destruct b. by eapply siblings_above.
  - unfold siblings. cbn [wtree fst]. by rewrite Hat.
  - cbn [wtree fst]. by rewrite replicate_S_end.
Qed.

(** ** What the buffer promises *)

(** The exploration buffer is a stack: when every event has its node, the
    branch and the number of siblings of every event can be read; [delete_last]
    removes the last event and its subtree and nothing else; entering the first
    scheduled child pushes the event with that branch; pushing a new event on a
    leaf gives it the new branch, and [delete_last] undoes it exactly. None of
    the assertions of these operations can fail. *)
Theorem buffer_stack b e :
  (forall x, branch_eq x x = true) -> buf_inv b ->
  (forall i, i < buf_len b -> exists x n, buf_branch b i = Some x /\ children_after b i = Some n) /\
  (0 < buf_len b -> exists b', delete_last b = Some b' /\ buf_inv b' /\
     events b' = take (buf_len b - 1) (events b) /\
     (forall i, i < buf_len b - 1 -> buf_branch b' i = buf_branch b i)) /\
  (forall x, first_child b = Some x -> exists b', enter_first_child b e = Some b' /\ buf_inv b' /\
     events b' = events b ++ [e] /\ wtree b' = wtree b /\ buf_branch b' (buf_len b) = Some x /\
     (forall i, i < buf_len b -> buf_branch b' i = buf_branch b i)) /\
  (forall x, wnode (wtree b) (replicate (buf_len b) 0) = Some (WNode []) ->
     exists b', buf_push b x e = Some b' /\ buf_inv b' /\ events b' = events b ++ [e] /\
       buf_branch b' (buf_len b) = Some x /\ delete_last b' = Some b).
Proof.
  intros Hrefl Hinv. split_and!.
  - intros i Hi. destruct (buf_branch_front b i Hinv Hi) as (n & c & cs & _ & _ & ? & ?). eauto.
  - intros Hl. destruct (delete_last_spec b Hrefl Hinv Hl) as (b' & ? & ? & ? & ? & _). by exists b'.
  - intros x Hx. by apply enter_first_child_spec.
  - intros x Hx. by apply buf_push_spec.
Qed.

(** Scheduling an alternative [x] at depth [i] of the current execution
    ([parent_at(i).put_child(x)], with [x] not yet a child there) succeeds,
    leaves the events and the branches of the current execution as they are,
    makes [has_child] true and gives position [i] one more unexplored child. *)
Theorem put_child_schedules b i x :
  (forall y, branch_eq y y = true) -> buf_inv b -> i < buf_len b ->
  has_child (wtree b) (replicate i 0) x = Some false ->
  exists b' r, parent_at b i = Some (replicate i 0) /\ put_child_at b (replicate i 0) x = Some (b', r) /\
    buf_inv b' /\ events b' = events b /\
    (forall j, j < buf_len b -> buf_branch b' j = buf_branch b j) /\
    has_child (wtree b') (replicate i 0) x = Some true /\
    children_after b' i = option_map S (children_after b i).
Proof.
  intros Hrefl Hinv Hi Hfresh.
  destruct (buf_branch_front b i Hinv Hi) as (n & c & cs & Hn & Hc & _ & Hca).
  unfold has_child in Hfresh. rewrite Hn in Hfresh. simpl in Hfresh. simplify_eq.
  destruct (put_child_at_spec b i x n) as (b' & r & Hput & Hinv' & Hev & Hbr & Hat); [done|lia|done|done|].
  exists b', r. split_and!; [|done|done|done|done| |].
  - unfold parent_at. by rewrite bool_decide_true by lia.
  - unfold has_child. rewrite Hat. simpl. rewrite existsb_app. simpl. by rewrite Hrefl, orb_true_r.
  - rewrite Hca. destruct (buf_branch_front b' i Hinv') as (n' & c' & cs' & Hn' & Hc' & _ & ->).
    { unfold buf_len in *. by rewrite Hev. }
    rewrite Hat in Hn'. simplify_eq. simpl in Hc'. rewrite Hc in Hc'. simpl in *. simplify_eq.
    rewrite length_app. simpl. f_equal. lia.
Qed.

End wakeup_tree.

(** ** Concrete runs *)

Definition wit_buf : Buffer (Branch := nat) (Event := nat) := MkBuffer (WNode [(1, WNode []); (2, WNode [])]) [10].

Lemma buffer_stack_witness :
  exists b', delete_last Nat.eqb wit_buf = Some b' /\ buf_inv b' /\
    events b' = take (buf_len wit_buf - 1) (events wit_buf) /\
    (forall i, i < buf_len wit_buf - 1 -> buf_branch b' i = buf_branch wit_buf i).
Proof.
  apply (buffer_stack Nat.eqb wit_buf 0); [apply Nat.eqb_refl|by eexists|].
  unfold buf_len. simpl. lia.
Defined.

Lemma put_child_schedules_witness :
  exists b' r, parent_at wit_buf 0 = Some (replicate 0 0) /\
    put_child_at Nat.eqb wit_buf (replicate 0 0) 3 = Some (b', r) /\
    buf_inv b' /\ events b' = events wit_buf /\
    (forall j, j < buf_len wit_buf -> buf_branch b' j = buf_branch wit_buf j) /\
    has_child Nat.eqb (wtree b') (replicate 0 0) 3 = Some true /\
    children_after b' 0 = option_map S (children_after wit_buf 0).
Proof.
  apply (put_child_schedules Nat.eqb wit_buf 0 3); [apply Nat.eqb_refl|by eexists| |done].
  unfold buf_len. simpl. lia.
Defined.
