(* ===== verification/TSOState.v ===== *)
(** * TSOState: the state of the TSO trace builder and its basic steps
      (src/src/TSOTraceBuilder.h, TSOTraceBuilder.cpp)

    [TSOTraceBuilder] is the record of the class's fields; a member function is
    a computation in the state monad [M], where [None] is undefined behaviour
    or a failed assertion. The [assert]s that compare the recorded races with
    the conflict relation of the symbolic events evaluate [do_events_conflict];
    they are checked when [check_conflicts] is set (builds without [NDEBUG]). *)

From stdpp Require Import pretty sorting.
From S2P Require Import Prelude StdMap VecSet CPid SymAddr ByteOps SymEv ReplayMem WakeupTree.

Local Open Scope Z_scope.

(** ** Configuration *)

Inductive MemoryModel := MM_UNDEF | SC | ARM | POWER | PSO | TSO.
Inductive DPORAlgorithm := SOURCE | OPTIMAL | OBSERVERS | READS_FROM.
#[export] Instance MemoryModel_eq_dec : EqDecision MemoryModel.
Proof. solve_decision. Defined.
#[export] Instance DPORAlgorithm_eq_dec : EqDecision DPORAlgorithm.
Proof. solve_decision. Defined.

(** The options the trace builder reads, and the build's [NDEBUG]. *)
Record Configuration := MkConfiguration {
  conflict_conf : ConflictConf;
  dpor_algorithm : DPORAlgorithm;
  memory_model : MemoryModel;
  mutex_require_init : bool;
  max_search_depth : Z;
  check_conflicts : bool;
}.

(** ** Data *)

(** [const llvm::MDNode *]; 0 is the null pointer. *)
Definition MDNode : Type := Z.

(** [IID<CPid>] *)
Record Loc := MkLoc { loc_pid : CPid; loc_index : Z }.
Inductive Error :=
  | PthreadsError (l : Loc) (msg : string)
  | NondeterminismError (l : Loc) (msg : string)
  | InvalidInputError (l : Loc) (msg : string)
  | RobustnessError (l : Loc).

Record PendingStore := MkPendingStore {
  ps_ml : SymAddrSize;
  ps_store_event : Z;
  ps_last_rowe : Z;
  ps_md : MDNode;
}.

Record Thread := MkThread {
  cpid : CPid;
  available : bool;
  spawn_event : Z;
  event_indices : list Z;
  store_buffer : list PendingStore;
  sleeping : bool;
  sleep_accesses_r : list SymAddr;
  sleep_accesses_w : list SymAddr;
  sleep_full_memory_conflict : bool;
  sleep_sym : option (Z * nat);
}.

Definition Thread_new (c : CPid) (spawn : Z) : Thread :=
  MkThread c true spawn [] [] false [] [] false None.
Definition last_event_index (t : Thread) : Z := Z.of_nat (length (event_indices t)).

Record ByteInfo := MkByteInfo {
  last_update : Z;
  last_update_ml : SymAddrSize;
  unordered_updates : list (Z * Z);
  before_unordered : list Z;
  last_read : list Z;
}.

Definition ByteInfo_new : ByteInfo :=
  MkByteInfo (-1) (MkSymAddrSize (MkSymAddr (MkSymMBlock UINT16_MAX 0) 0) 1) [] [] [].

(** [last_read_t]: reading past the end gives -1, writing there extends. *)
Definition last_read_get (v : list Z) (i : Z) : option Z :=
  if decide (i < Z.of_nat (length v)) then zget v i else Some (-1).
Definition last_read_set (v : list Z) (i : Z) (x : Z) : option (list Z) :=
  zset (if decide (Z.of_nat (length v) <= i) then resize (Z.to_nat (i + 1)) (-1) v else v) i x.

Record Mutex := MkMutex {
  last_access : Z;
  last_lock : Z;
  locked : bool;
}.
Definition Mutex_new : Mutex := MkMutex (-1) (-1) false.
Record CondVar := MkCondVar {
  last_signal : Z;
  waiters : list Z;
}.
Definition CondVar_new (init_idx : Z) : CondVar := MkCondVar init_idx [].

Record Branch := MkBranch { b_sym : sym_ty; b_pid : Z; b_alt : Z; b_size : Z }.
Definition Branch_new (pid : Z) : Branch := MkBranch [] pid 0 1.
Definition branch_eq (a b : Branch) : bool := (b_pid a =? b_pid b) && (b_alt a =? b_alt b).

Inductive RaceKind := NONBLOCK | OBSERVED | LOCK_FAIL | LOCK_SUC | RACE_NONDET | SEQUENCE.
#[export] Instance RaceKind_eq_dec : EqDecision RaceKind.
Proof. solve_decision. Defined.

(** [r_third] is the union of witness, alternative and unlock event. *)
Record Race := MkRace {
  r_ev : option SymEv;
  r_kind : RaceKind;
  r_first : Z;
  r_second : Z;
  r_process : IID;
  r_exclude : list nat;
  r_third : Z;
}.
Definition no_process : IID := MkIID (-1) 0.
Definition Race_Nonblock (first second : Z) : Race := MkRace None NONBLOCK first second no_process [] (-1).
Definition Race_Observed (first second witness : Z) : Race := MkRace None OBSERVED first second no_process [] witness.
Definition Race_LockFail (first second : Z) (process : IID) : Race := MkRace None LOCK_FAIL first second process [] (-1).
Definition Race_LockSuc (first second unlock : Z) : Race := MkRace None LOCK_SUC first second no_process [] unlock.
Definition Race_Nondet (event alt : Z) : Race := MkRace None RACE_NONDET event (-1) no_process [] alt.
Definition Race_Sequence (first second : Z) (process : IID) (ev : SymEv) (exclude : list nat) : Race :=
  MkRace (Some ev) SEQUENCE first second process exclude (-1).
Definition is_fail_kind (r : Race) : bool :=
  bool_decide (r_kind r = LOCK_FAIL) || bool_decide (r_kind r = SEQUENCE).

Record BlockedAwait := MkBlockedAwait { ba_index : Z; ba_ev : SymEv }.

Record Event := MkEvent {
  iid : IID;
  origin_iid : IID;
  ev_md : MDNode;
  clock : list Z;
  happens_after : list Z;
  races : list Race;
  happens_after_later : list Z;
  may_conflict : bool;
  sym : sym_ty;
  sleep : list Z;
  sleep_evs : list sym_ty;
  ev_wakeup : list Z;
  sleep_branch_trace_count : Z;
}.

Definition Event_new (i : IID) (s : sym_ty) : Event := MkEvent i i 0 [] [] [] [] false s [] [] [] 0.

Record TSOTraceBuilder := MkTSOTraceBuilder {
  threads : list Thread;
  CPS : CPidSystem;
  mem : list (SymAddr * ByteInfo);
  last_full_memory_conflict : Z;
  mutexes : list (SymAddr * Mutex);
  cond_vars : list (SymAddr * CondVar);
  lock_fail_races : list Race;
  blocked_awaits : list (SymAddr * list (Z * BlockedAwait));
  prefix : Buffer (Branch := Branch) (Event := Event);
  dry_sleepers : Z;
  prefix_idx : Z;
  sym_idx : nat;
  dryrun : bool;
  replay : bool;
  replay_point : Z;
  last_md : MDNode;
  errors : list Error;
  has_vclocks : bool;
}.

(** Field updates. *)
Definition set_ps_last_rowe (v : Z) (p : PendingStore) : PendingStore :=
  MkPendingStore (ps_ml p) (ps_store_event p) v (ps_md p).
Definition set_available (v : bool) (t : Thread) : Thread :=
  MkThread (cpid t) v (spawn_event t) (event_indices t) (store_buffer t) (sleeping t) (sleep_accesses_r t) (sleep_accesses_w t) (sleep_full_memory_conflict t) (sleep_sym t).
Definition set_event_indices (v : list Z) (t : Thread) : Thread :=
  MkThread (cpid t) (available t) (spawn_event t) v (store_buffer t) (sleeping t) (sleep_accesses_r t) (sleep_accesses_w t) (sleep_full_memory_conflict t) (sleep_sym t).
Definition set_store_buffer (v : list PendingStore) (t : Thread) : Thread :=
  MkThread (cpid t) (available t) (spawn_event t) (event_indices t) v (sleeping t) (sleep_accesses_r t) (sleep_accesses_w t) (sleep_full_memory_conflict t) (sleep_sym t).
Definition set_sleeping (v : bool) (t : Thread) : Thread :=
  MkThread (cpid t) (available t) (spawn_event t) (event_indices t) (store_buffer t) v (sleep_accesses_r t) (sleep_accesses_w t) (sleep_full_memory_conflict t) (sleep_sym t).
Definition set_sleep_accesses_r (v : list SymAddr) (t : Thread) : Thread :=
  MkThread (cpid t) (available t) (spawn_event t) (event_indices t) (store_buffer t) (sleeping t) v (sleep_accesses_w t) (sleep_full_memory_conflict t) (sleep_sym t).
Definition set_sleep_accesses_w (v : list SymAddr) (t : Thread) : Thread :=
  MkThread (cpid t) (available t) (spawn_event t) (event_indices t) (store_buffer t) (sleeping t) (sleep_accesses_r t) v (sleep_full_memory_conflict t) (sleep_sym t).
Definition set_sleep_full_memory_conflict (v : bool) (t : Thread) : Thread :=
  MkThread (cpid t) (available t) (spawn_event t) (event_indices t) (store_buffer t) (sleeping t) (sleep_accesses_r t) (sleep_accesses_w t) v (sleep_sym t).
Definition set_sleep_sym (v : option (Z * nat)) (t : Thread) : Thread :=
  MkThread (cpid t) (available t) (spawn_event t) (event_indices t) (store_buffer t) (sleeping t) (sleep_accesses_r t) (sleep_accesses_w t) (sleep_full_memory_conflict t) v.
Definition set_last_update (v : Z) (m : ByteInfo) : ByteInfo :=
  MkByteInfo v (last_update_ml m) (unordered_updates m) (before_unordered m) (last_read m).
Definition set_last_update_ml (v : SymAddrSize) (m : ByteInfo) : ByteInfo :=
  MkByteInfo (last_update m) v (unordered_updates m) (before_unordered m) (last_read m).
Definition set_unordered_updates (v : list (Z * Z)) (m : ByteInfo) : ByteInfo :=
  MkByteInfo (last_update m) (last_update_ml m) v (before_unordered m) (last_read m).
Definition set_before_unordered (v : list Z) (m : ByteInfo) : ByteInfo :=
  MkByteInfo (last_update m) (last_update_ml m) (unordered_updates m) v (last_read m).
Definition set_last_read (v : list Z) (m : ByteInfo) : ByteInfo :=
  MkByteInfo (last_update m) (last_update_ml m) (unordered_updates m) (before_unordered m) v.
Definition set_last_access (v : Z) (x : Mutex) : Mutex :=
  MkMutex v (last_lock x) (locked x).
Definition set_last_lock (v : Z) (x : Mutex) : Mutex :=
  MkMutex (last_access x) v (locked x).
Definition set_locked (v : bool) (x : Mutex) : Mutex :=
  MkMutex (last_access x) (last_lock x) v.
Definition set_last_signal (v : Z) (c : CondVar) : CondVar :=
  MkCondVar v (waiters c).
Definition set_waiters (v : list Z) (c : CondVar) : CondVar :=
  MkCondVar (last_signal c) v.
Definition set_origin_iid (v : IID) (e : Event) : Event :=
  MkEvent (iid e) v (ev_md e) (clock e) (happens_after e) (races e) (happens_after_later e) (may_conflict e) (sym e) (sleep e) (sleep_evs e) (ev_wakeup e) (sleep_branch_trace_count e).
Definition set_ev_md (v : MDNode) (e : Event) : Event :=
  MkEvent (iid e) (origin_iid e) v (clock e) (happens_after e) (races e) (happens_after_later e) (may_conflict e) (sym e) (sleep e) (sleep_evs e) (ev_wakeup e) (sleep_branch_trace_count e).
Definition set_happens_after (v : list Z) (e : Event) : Event :=
  MkEvent (iid e) (origin_iid e) (ev_md e) (clock e) v (races e) (happens_after_later e) (may_conflict e) (sym e) (sleep e) (sleep_evs e) (ev_wakeup e) (sleep_branch_trace_count e).
Definition set_races (v : list Race) (e : Event) : Event :=
  MkEvent (iid e) (origin_iid e) (ev_md e) (clock e) (happens_after e) v (happens_after_later e) (may_conflict e) (sym e) (sleep e) (sleep_evs e) (ev_wakeup e) (sleep_branch_trace_count e).
Definition set_happens_after_later (v : list Z) (e : Event) : Event :=
  MkEvent (iid e) (origin_iid e) (ev_md e) (clock e) (happens_after e) (races e) v (may_conflict e) (sym e) (sleep e) (sleep_evs e) (ev_wakeup e) (sleep_branch_trace_count e).
Definition set_may_conflict (v : bool) (e : Event) : Event :=
  MkEvent (iid e) (origin_iid e) (ev_md e) (clock e) (happens_after e) (races e) (happens_after_later e) v (sym e) (sleep e) (sleep_evs e) (ev_wakeup e) (sleep_branch_trace_count e).
Definition set_sym (v : sym_ty) (e : Event) : Event :=
  MkEvent (iid e) (origin_iid e) (ev_md e) (clock e) (happens_after e) (races e) (happens_after_later e) (may_conflict e) v (sleep e) (sleep_evs e) (ev_wakeup e) (sleep_branch_trace_count e).
Definition set_sleep_evs (v : list sym_ty) (e : Event) : Event :=
  MkEvent (iid e) (origin_iid e) (ev_md e) (clock e) (happens_after e) (races e) (happens_after_later e) (may_conflict e) (sym e) (sleep e) v (ev_wakeup e) (sleep_branch_trace_count e).
Definition set_ev_wakeup (v : list Z) (e : Event) : Event :=
  MkEvent (iid e) (origin_iid e) (ev_md e) (clock e) (happens_after e) (races e) (happens_after_later e) (may_conflict e) (sym e) (sleep e) (sleep_evs e) v (sleep_branch_trace_count e).
Definition set_threads (v : list Thread) (s : TSOTraceBuilder) : TSOTraceBuilder :=
  MkTSOTraceBuilder v (CPS s) (mem s) (last_full_memory_conflict s) (mutexes s) (cond_vars s) (lock_fail_races s) (blocked_awaits s) (prefix s) (dry_sleepers s) (prefix_idx s) (sym_idx s) (dryrun s) (replay s) (replay_point s) (last_md s) (errors s) (has_vclocks s).
Definition set_CPS (v : CPidSystem) (s : TSOTraceBuilder) : TSOTraceBuilder :=
  MkTSOTraceBuilder (threads s) v (mem s) (last_full_memory_conflict s) (mutexes s) (cond_vars s) (lock_fail_races s) (blocked_awaits s) (prefix s) (dry_sleepers s) (prefix_idx s) (sym_idx s) (dryrun s) (replay s) (replay_point s) (last_md s) (errors s) (has_vclocks s).
Definition set_mem (v : list (SymAddr * ByteInfo)) (s : TSOTraceBuilder) : TSOTraceBuilder :=
  MkTSOTraceBuilder (threads s) (CPS s) v (last_full_memory_conflict s) (mutexes s) (cond_vars s) (lock_fail_races s) (blocked_awaits s) (prefix s) (dry_sleepers s) (prefix_idx s) (sym_idx s) (dryrun s) (replay s) (replay_point s) (last_md s) (errors s) (has_vclocks s).
Definition set_last_full_memory_conflict (v : Z) (s : TSOTraceBuilder) : TSOTraceBuilder :=
  MkTSOTraceBuilder (threads s) (CPS s) (mem s) v (mutexes s) (cond_vars s) (lock_fail_races s) (blocked_awaits s) (prefix s) (dry_sleepers s) (prefix_idx s) (sym_idx s) (dryrun s) (replay s) (replay_point s) (last_md s) (errors s) (has_vclocks s).
Definition set_mutexes (v : list (SymAddr * Mutex)) (s : TSOTraceBuilder) : TSOTraceBuilder :=
  MkTSOTraceBuilder (threads s) (CPS s) (mem s) (last_full_memory_conflict s) v (cond_vars s) (lock_fail_races s) (blocked_awaits s) (prefix s) (dry_sleepers s) (prefix_idx s) (sym_idx s) (dryrun s) (replay s) (replay_point s) (last_md s) (errors s) (has_vclocks s).
Definition set_cond_vars (v : list (SymAddr * CondVar)) (s : TSOTraceBuilder) : TSOTraceBuilder :=
  MkTSOTraceBuilder (threads s) (CPS s) (mem s) (last_full_memory_conflict s) (mutexes s) v (lock_fail_races s) (blocked_awaits s) (prefix s) (dry_sleepers s) (prefix_idx s) (sym_idx s) (dryrun s) (replay s) (replay_point s) (last_md s) (errors s) (has_vclocks s).
Definition set_lock_fail_races (v : list Race) (s : TSOTraceBuilder) : TSOTraceBuilder :=
  MkTSOTraceBuilder (threads s) (CPS s) (mem s) (last_full_memory_conflict s) (mutexes s) (cond_vars s) v (blocked_awaits s) (prefix s) (dry_sleepers s) (prefix_idx s) (sym_idx s) (dryrun s) (replay s) (replay_point s) (last_md s) (errors s) (has_vclocks s).
Definition set_blocked_awaits (v : list (SymAddr * list (Z * BlockedAwait))) (s : TSOTraceBuilder) : TSOTraceBuilder :=
  MkTSOTraceBuilder (threads s) (CPS s) (mem s) (last_full_memory_conflict s) (mutexes s) (cond_vars s) (lock_fail_races s) v (prefix s) (dry_sleepers s) (prefix_idx s) (sym_idx s) (dryrun s) (replay s) (replay_point s) (last_md s) (errors s) (has_vclocks s).
Definition set_prefix (v : Buffer (Branch := Branch) (Event := Event)) (s : TSOTraceBuilder) : TSOTraceBuilder :=
  MkTSOTraceBuilder (threads s) (CPS s) (mem s) (last_full_memory_conflict s) (mutexes s) (cond_vars s) (lock_fail_races s) (blocked_awaits s) v (dry_sleepers s) (prefix_idx s) (sym_idx s) (dryrun s) (replay s) (replay_point s) (last_md s) (errors s) (has_vclocks s).
Definition set_dry_sleepers (v : Z) (s : TSOTraceBuilder) : TSOTraceBuilder :=
  MkTSOTraceBuilder (threads s) (CPS s) (mem s) (last_full_memory_conflict s) (mutexes s) (cond_vars s) (lock_fail_races s) (blocked_awaits s) (prefix s) v (prefix_idx s) (sym_idx s) (dryrun s) (replay s) (replay_point s) (last_md s) (errors s) (has_vclocks s).
Definition set_prefix_idx (v : Z) (s : TSOTraceBuilder) : TSOTraceBuilder :=
  MkTSOTraceBuilder (threads s) (CPS s) (mem s) (last_full_memory_conflict s) (mutexes s) (cond_vars s) (lock_fail_races s) (blocked_awaits s) (prefix s) (dry_sleepers s) v (sym_idx s) (dryrun s) (replay s) (replay_point s) (last_md s) (errors s) (has_vclocks s).
Definition set_sym_idx (v : nat) (s : TSOTraceBuilder) : TSOTraceBuilder :=
  MkTSOTraceBuilder (threads s) (CPS s) (mem s) (last_full_memory_conflict s) (mutexes s) (cond_vars s) (lock_fail_races s) (blocked_awaits s) (prefix s) (dry_sleepers s) (prefix_idx s) v (dryrun s) (replay s) (replay_point s) (last_md s) (errors s) (has_vclocks s).
Definition set_dryrun (v : bool) (s : TSOTraceBuilder) : TSOTraceBuilder :=
  MkTSOTraceBuilder (threads s) (CPS s) (mem s) (last_full_memory_conflict s) (mutexes s) (cond_vars s) (lock_fail_races s) (blocked_awaits s) (prefix s) (dry_sleepers s) (prefix_idx s) (sym_idx s) v (replay s) (replay_point s) (last_md s) (errors s) (has_vclocks s).
Definition set_replay (v : bool) (s : TSOTraceBuilder) : TSOTraceBuilder :=
  MkTSOTraceBuilder (threads s) (CPS s) (mem s) (last_full_memory_conflict s) (mutexes s) (cond_vars s) (lock_fail_races s) (blocked_awaits s) (prefix s) (dry_sleepers s) (prefix_idx s) (sym_idx s) (dryrun s) v (replay_point s) (last_md s) (errors s) (has_vclocks s).
Definition set_last_md (v : MDNode) (s : TSOTraceBuilder) : TSOTraceBuilder :=
  MkTSOTraceBuilder (threads s) (CPS s) (mem s) (last_full_memory_conflict s) (mutexes s) (cond_vars s) (lock_fail_races s) (blocked_awaits s) (prefix s) (dry_sleepers s) (prefix_idx s) (sym_idx s) (dryrun s) (replay s) (replay_point s) v (errors s) (has_vclocks s).
Definition set_errors (v : list Error) (s : TSOTraceBuilder) : TSOTraceBuilder :=
  MkTSOTraceBuilder (threads s) (CPS s) (mem s) (last_full_memory_conflict s) (mutexes s) (cond_vars s) (lock_fail_races s) (blocked_awaits s) (prefix s) (dry_sleepers s) (prefix_idx s) (sym_idx s) (dryrun s) (replay s) (replay_point s) (last_md s) v (has_vclocks s).

(** ** The monad *)

Definition M (A : Type) : Type := TSOTraceBuilder -> option (A * TSOTraceBuilder).
#[export] Instance M_ret : MRet M := fun A x s => Some (x, s).
#[export] Instance M_bind : MBind M := fun A B k m s =>
  match m s with Some (x, s') => k x s' | None => None end.

Definition lift {A} (o : option A) : M A := fun s => x ← o; Some (x, s).
Definition gets {A} (f : TSOTraceBuilder -> A) : M A := fun s => Some (f s, s).
Definition modify (f : TSOTraceBuilder -> TSOTraceBuilder) : M unit := fun s => Some (tt, f s).
Definition massert (b : bool) : M unit := lift (cassert b).
Definition when (b : bool) (m : M unit) : M unit := if b then m else mret tt.

Fixpoint loop {A St} (l : list A) (body : A -> St -> M St) (st : St) : M St :=
  match l with
  | [] => mret st
  | x :: l => st ← body x st; loop l body st
  end.
Definition each {A} (l : list A) (body : A -> M unit) : M unit := loop l (fun x _ => body x) tt.

(** ** Access to events and threads *)

Definition pfx_len : M Z := gets (fun s => Z.of_nat (buf_len (prefix s))).
Definition pfx (i : Z) : M Event := b ← gets prefix; lift (zget (events b) i).
Definition pfx_upd (i : Z) (f : Event -> Event) : M unit :=
  b ← gets prefix; e ← lift (zget (events b) i); evs ← lift (zset (events b) i (f e));
  modify (set_prefix (MkBuffer (wtree b) evs)).

Definition cur_idx : M Z :=
  i ← gets prefix_idx; _ ← massert (bool_decide (0 <= i)); n ← pfx_len;
  _ ← massert (bool_decide (i < n)); mret i.
Definition curev : M Event := i ← cur_idx; pfx i.
Definition curev_upd (f : Event -> Event) : M unit := i ← cur_idx; pfx_upd i f.
Definition curbranch : M Branch := i ← cur_idx; b ← gets prefix; lift (buf_branch b (Z.to_nat i)).
Definition curpid : M Z := e ← curev; mret (iid_pid (iid e)).

Definition thread (p : Z) : M Thread := ts ← gets threads; lift (zget ts p).
Definition thread_upd (p : Z) (f : Thread -> Thread) : M unit :=
  ts ← gets threads; t ← lift (zget ts p); ts ← lift (zset ts p (f t)); modify (set_threads ts).

(** [threads\[p\].store_buffer.empty()] as an assertion. *)
Definition assert_buffer_empty (p : Z) : M unit :=
  t ← thread p; massert (bool_decide (store_buffer t = [])).

(** [get_iid()] and the error reports. *)
Definition get_iid : M Loc :=
  i ← gets prefix_idx; e ← pfx i; t ← thread (iid_pid (iid e)); mret (MkLoc (cpid t) (iid_index (iid e))).
Definition report (mk : Loc -> Error) : M unit :=
  l ← get_iid; modify (fun s => set_errors (errors s ++ [mk l]) s).
Definition pthreads_error (msg : string) : M unit := report (fun l => PthreadsError l msg).
Definition nondeterminism_error (msg : string) : M unit := report (fun l => NondeterminismError l msg).
Definition invalid_input_error (msg : string) : M unit := report (fun l => InvalidInputError l msg).

(** The thread that is being dry run. *)
Definition dry_pid : M Z :=
  i ← gets prefix_idx; n ← pfx_len; _ ← massert (bool_decide (i + 1 < n));
  e ← pfx (i + 1); d ← gets dry_sleepers;
  _ ← massert (bool_decide (d <= Z.of_nat (length (sleep e))));
  lift (zget (sleep e) (d - 1)).

Definition ins (v : list Z) (x : Z) : M (list Z) := r ← lift (insert v x); mret r.1.
Definition ins_addr (v : list SymAddr) (x : SymAddr) : M (list SymAddr) := r ← lift (insert v x); mret r.1.
Definition dry_sleep_r (p : Z) (a : SymAddr) : M unit :=
  t ← thread p; v ← ins_addr (sleep_accesses_r t) a; thread_upd p (set_sleep_accesses_r v).
Definition dry_sleep_w (p : Z) (a : SymAddr) : M unit :=
  t ← thread p; v ← ins_addr (sleep_accesses_w t) a; thread_upd p (set_sleep_accesses_w v).
