(* ===== verification/TSOOps.v ===== *)
(** * TSOOps: the steps the registration methods are made of
      (src/src/TSOTraceBuilder.cpp)

    Recording symbolic events, races and happens-before edges, waking sleeping
    threads, and observing the accesses of earlier events. *)

From stdpp Require Import pretty sorting.
From S2P Require Import Prelude StdMap VecSet CPid SymAddr ByteOps SymEv ReplayMem WakeupTree TSOState.

Local Open Scope Z_scope.

Section ops.
Context (conf : Configuration).

(** ** Symbolic events *)

Definition pid_str (ts : list Thread) (p : Z) : string :=
  if decide (Z.of_nat (length ts) <= p * 2) then pretty p
  else default "" (t ← zget ts (p * 2); Some (cpid_to_string (cpid t))).

(** [threads\[pid\].sleep_sym->push_back(event)]: the pointer designates an
    element of [prefix\[i\].sleep_evs]. *)
Definition push_sleep_sym (r : Z * nat) (event : SymEv) : M unit :=
  e ← pfx r.1;
  old ← lift (sleep_evs e !! r.2);
  evs ← lift (vset (sleep_evs e) r.2 (old ++ [event]));
  pfx_upd r.1 (set_sleep_evs evs).

Definition record_symbolic (event : SymEv) : M bool :=
  dry ← gets dryrun;
  if dry : bool then
    pid ← dry_pid; t ← thread pid;
    r ← lift (sleep_sym t);
    _ ← push_sleep_sym r event; mret true
  else
    rep ← gets replay; k ← gets sym_idx; e ← curev;
    if negb rep then
      _ ← massert (bool_decide (k = length (sym e)));
      _ ← curev_upd (fun e => set_sym (sym e ++ [event]) e);
      _ ← modify (set_sym_idx (S k)); mret true
    else
      _ ← massert (bool_decide (k < length (sym e))%nat);
      old ← lift (sym e !! k);
      _ ← modify (set_sym_idx (S k));
      ok ← lift (is_compatible_with old event);
      if negb ok then
        ts ← gets threads;
        a ← lift (ev_to_string (pid_str ts) old); b ← lift (ev_to_string (pid_str ts) event);
        _ ← nondeterminism_error ("Event with effect " +:+ a +:+ " became " +:+ b +:+ " when replayed");
        mret false
      else
        evs ← lift (vset (sym e) k event);
        _ ← curev_upd (set_sym evs); mret true.

(** ** Races and happens-before edges *)

Definition events_conflict (i j : Z) : M bool :=
  a ← pfx i; b ← pfx j;
  lift (do_events_conflict (conflict_conf conf) (iid_pid (iid a)) (sym a) (iid_pid (iid b)) (sym b)).
Definition assert_conflict (i j : Z) : M unit :=
  when (check_conflicts conf) (c ← events_conflict i j; massert c).

Definition add_noblock_race (event : Z) : M unit :=
  i ← gets prefix_idx;
  _ ← massert (bool_decide (0 <= event)); _ ← massert (bool_decide (event < i));
  _ ← assert_conflict event i;
  e ← curev;
  let dup := match vback (races e) with
             | Some prev => bool_decide (r_kind prev = NONBLOCK /\ r_first prev = event /\ r_second prev = i)
             | None => false
             end in
  when (negb dup) (curev_upd (fun e => set_races (races e ++ [Race_Nonblock event i]) e)).

Definition add_lock_suc_race (lock unlock : Z) : M unit :=
  i ← gets prefix_idx;
  _ ← massert (bool_decide (0 <= lock)); _ ← massert (bool_decide (lock < unlock));
  _ ← massert (bool_decide (unlock < i));
  curev_upd (fun e => set_races (races e ++ [Race_LockSuc lock i unlock]) e).

Definition add_lock_fail_race (event : Z) : M unit :=
  i ← gets prefix_idx;
  _ ← massert (bool_decide (0 <= event)); _ ← massert (bool_decide (event < i));
  e ← curev;
  modify (fun s => set_lock_fail_races (lock_fail_races s ++ [Race_LockFail event i (iid e)]) s).

Definition add_observed_race (first second : Z) : M unit :=
  i ← gets prefix_idx;
  _ ← massert (bool_decide (0 <= first)); _ ← massert (bool_decide (first < second));
  _ ← massert (bool_decide (second < i));
  _ ← assert_conflict first second; _ ← assert_conflict second i;
  e ← pfx second;
  let dup := match vback (races e) with
             | Some prev => bool_decide (r_kind prev = OBSERVED /\ r_first prev = first
                                         /\ r_second prev = second /\ r_third prev = i)
             | None => false
             end in
  when (negb dup) (pfx_upd second (fun e => set_races (races e ++ [Race_Observed first second i]) e)).

(** The parameters are [unsigned]: [first] may be a converted -1. *)
Definition add_happens_after (second first : Z) : M unit :=
  let first := wrapu 32 first in let second := wrapu 32 second in
  i ← gets prefix_idx;
  _ ← massert (bool_decide (first <> UINT32_MAX)); _ ← massert (bool_decide (second <> UINT32_MAX));
  _ ← massert (bool_decide (first <> second)); _ ← massert (bool_decide (first < second));
  _ ← massert (bool_decide (second <= i));
  e ← pfx second;
  let dup := match vback (happens_after e) with Some x => bool_decide (x = first) | None => false end in
  when (negb dup) (pfx_upd second (fun e => set_happens_after (happens_after e ++ [first]) e)).

Definition add_happens_after_thread (second p : Z) : M unit :=
  i ← gets prefix_idx; _ ← massert (bool_decide (second = i));
  t ← thread p;
  match vback (event_indices t) with
  | None => mret tt
  | Some last => add_happens_after second last
  end.

Definition see_events (seen : list Z) : M unit :=
  each seen (fun i =>
    idx ← gets prefix_idx;
    if decide (i < 0) then mret tt else if decide (i = idx) then mret tt else add_noblock_race i).

Definition see_event_pairs (seen : list (Z * Z)) : M unit :=
  each seen (fun p => add_observed_race p.1 p.2).

(** ** Waking sleeping threads *)

Inductive AccessType := ACC_R | ACC_W | W_ALL_MEMORY | NA.

(** [has_pending_store(p,ml)] for the thread [t] = [threads\[p\]]. *)
Definition has_pending_store (t : Thread) (ml : SymAddr) : bool :=
  existsb (fun ps => sas_includes (ps_ml ps) ml) (store_buffer t).

Definition in_set (v : list SymAddr) (a : SymAddr) : option bool :=
  c ← count v a; Some (negb (bool_decide (c = 0))).

(** Whether thread [p] wakes when [pid] makes the access. *)
Definition wakes (ty : AccessType) (ml : SymAddr) (pid p : Z) (t : Thread) : option bool :=
  match ty with
  | W_ALL_MEMORY =>
    Some (sleep_full_memory_conflict t || negb (bool_decide (sleep_accesses_w t = []))
          || existsb (fun b => negb (has_pending_store t b)) (sleep_accesses_r t))
  | ACC_R =>
    if sleep_full_memory_conflict t then Some true
    else if bool_decide (p <> pid + 1) then in_set (sleep_accesses_w t) ml else Some false
  | ACC_W =>
    if sleep_full_memory_conflict t then Some true
    else if bool_decide (p + 1 <> pid) then
      w ← in_set (sleep_accesses_w t) ml;
      if w : bool then Some true
      else r ← in_set (sleep_accesses_r t) ml; Some (r && negb (has_pending_store t ml))
    else Some false
  | NA => None
  end.

Fixpoint wakeup_list (ty : AccessType) (ml : SymAddr) (pid : Z) (p : Z) (ts : list Thread) : option (list Z) :=
  match ts with
  | [] => Some []
  | t :: ts => w ← wakes ty ml pid p t; l ← wakeup_list ty ml pid (p + 1) ts;
               Some (if w : bool then p :: l else l)
  end.

(** The event the debug check of [wakeup] makes up. *)
Definition wakeup_event (ty : AccessType) (ml : SymAddr) : sym_ty :=
  match ty with
  | W_ALL_MEMORY => [SymEv_Fullmem]
  | ACC_R => [SymEv_Load (MkSymAddrSize ml 1)]
  | _ => [SymEv_Store (MkSymDataRef (MkSymAddrSize ml 1) (Some [0]))]
  end.

(** Every sleeping thread wakes exactly when its next event conflicts. *)
Definition wakeup_check (ty : AccessType) (ml : SymAddr) (pid : Z) (l : list Z) : M unit :=
  ts ← gets threads;
  each (seq 0 (length ts)) (fun p =>
    t ← thread (Z.of_nat p);
    when (sleeping t) (
      r ← lift (sleep_sym t); e ← pfx r.1; ss ← lift (sleep_evs e !! r.2);
      c ← lift (do_events_conflict (conflict_conf conf) pid (wakeup_event ty ml) (Z.of_nat p) ss);
      massert (bool_decide (bool_decide (Z.of_nat p ∈ l) = c)))).

Definition wakeup (ty : AccessType) (ml : SymAddr) : M unit :=
  pid ← curpid;
  ts ← gets threads;
  l ← lift (wakeup_list ty ml pid 0 ts);
  _ ← when (check_conflicts conf && negb (bool_decide (dpor_algorithm conf = SOURCE)))
        (wakeup_check ty ml pid l);
  each l (fun p =>
    t ← thread p;
    _ ← massert (sleeping t);
    _ ← thread_upd p (fun t => set_sleeping false (set_sleep_sym None
          (set_sleep_full_memory_conflict false (set_sleep_accesses_w [] (set_sleep_accesses_r [] t)))));
    e ← curev; w ← ins (ev_wakeup e) p;
    curev_upd (set_ev_wakeup w)).

(** ** Observing earlier accesses *)

(** The loop of [observe_store], on the reversed list of events: the result is
    the list and whether a store was turned into an observed one. *)
Fixpoint observe_store_loop (revs : list SymEv) (ml : SymAddr) : option (list SymEv * bool) :=
  match revs with
  | [] => None
  | e :: revs =>
    let includes := a ← ev_addr e; Some (sas_includes a ml) in
    stop ← (match ev_kind e with STORE | RMW | CMPXHG | XCHG_AWAIT => includes | _ => Some false end);
    if stop : bool then Some (e :: revs, false)
    else
      unobs ← (if decide (ev_kind e = UNOBS_STORE) then includes else Some false);
      if unobs : bool then d ← ev_data e; Some (SymEv_Store d :: revs, true)
      else
        _ ← (if symev_does_store e then i ← includes; cassert (negb i) else Some tt);
        r ← observe_store_loop revs ml; Some (e :: r.1, r.2)
  end.
Definition observe_store (syms : sym_ty) (ml : SymAddr) : option (sym_ty * bool) :=
  r ← observe_store_loop (reverse syms) ml; Some (reverse r.1, r.2).

Definition to_vecset (set : list (Z * Z)) : option (list Z) :=
  for_each set (fun el ret => r ← insert ret el.2; Some r.1) [].

Definition add_to_seen (unordered : list (Z * Z)) (seen : list Z) : option (list Z) :=
  let es := merge_sort Z.le (map snd unordered) in
  _ ← cassert (check_invariant es);
  r ← insert_set seen es; Some r.1.

(** [ipid & ~0x1] *)
Definition real_of (p : Z) : Z := Z.land p (Z.lnot 1).

(** [observe_memory(ml, m, seen_accesses, seen_pairs, is_update)]: the three
    references are returned. *)
Definition observe_memory (ml : SymAddr) (m : ByteInfo) (seen : list Z) (pairs : list (Z * Z)) (is_update : bool)
    : M (ByteInfo * (list Z * list (Z * Z))) :=
  ipid ← curpid;
  let lu := last_update m in
  r ← (if decide (0 <= lu) then
         e ← pfx lu;
         let lu_tipid := real_of (iid_pid (iid e)) in
         seen ← (if decide (lu_tipid <> ipid) then ins seen lu else mret seen);
         obs ← (if decide (dpor_algorithm conf = OBSERVERS) then
                  o ← lift (observe_store (sym e) ml);
                  _ ← pfx_upd lu (set_sym o.1); mret o.2
                else mret false);
         if obs : bool then
           pairs ← lift (for_each (unordered_updates m) (fun u pairs =>
             if decide (u.2 <> lu) then r ← insert pairs (u.2, lu); Some r.1 else Some pairs) pairs);
           mret (set_before_unordered [lu] (set_unordered_updates [] m), (seen, pairs))
         else if is_update then
           bu ← lift (to_vecset (unordered_updates m));
           let bu := if decide (bu = [] /\ 0 <= lu) then [lu] else bu in
           s ← lift (insert_set seen bu);
           mret (set_before_unordered bu (set_unordered_updates [] m), (s.1, pairs))
         else
           s ← lift (add_to_seen (unordered_updates m) seen);
           mret (m, (s, pairs))
       else mret (m, (seen, pairs)));
  _ ← massert (negb is_update || bool_decide (unordered_updates r.1 = []));
  mret r.

(** [mem\[b\]] *)
Definition mem_get (b : SymAddr) : M ByteInfo :=
  ms ← gets mem;
  let r := map_index ByteInfo_new ms b in
  _ ← modify (set_mem r.2); mret r.1.
Definition mem_put (b : SymAddr) (m : ByteInfo) : M unit :=
  modify (fun s => set_mem (map_insert (mem s) b m) s).

(** The scan of [last_read] that starts the update handlers: the reads of other
    threads are seen, and the flag says that the last update was read. *)
Definition scan_last_reads (reads : list Z) (lu own : Z) (seen : list Z) : M (list Z * bool) :=
  loop reads (fun i st =>
    if decide (i < 0) then mret st
    else
      e ← pfx i;
      let last_read_pid := iid_pid (iid e) in
      seen ← (if decide (last_read_pid <> own) then ins st.1 i else mret st.1);
      after ← (if decide (0 <= lu /\ lu < i)
               then l ← pfx lu; mret (bool_decide (iid_pid (iid l) <> last_read_pid + 1))
               else mret false);
      mret (seen, st.2 || after)) (seen, false).

End ops.
