(* ===== verification/TSOHandlers.v ===== *)
(** * TSOHandlers: the registration methods of the TSO trace builder
      (src/src/TSOTraceBuilder.cpp, lines 656-1738)

    One definition per method the interpreter calls, from its first line to its
    last. A [false] result is the method's [return false] after an error has
    been reported. *)

From S2P Require Import Prelude StdMap VecSet CPid SymAddr ByteOps SymEv ReplayMem WakeupTree TSOState TSOOps.

Local Open Scope Z_scope.

Section handlers.
Context (IsBigEndianHost : bool) (conf : Configuration).

(** [if (!m) return false; k] *)
Definition and_then (m : M bool) (k : M bool) : M bool := ok ← m; if ok : bool then k else mret false.
Notation "m 'or_return' ; k" := (and_then m k) (at level 100, k at level 200, right associativity).

(** [for(SymAddr b : ml)] *)
Definition each_byte {St} (ml : SymAddrSize) (body : SymAddr -> St -> M St) (st : St) : M St :=
  bs ← lift (sas_bytes ml); loop bs body st.

Definition mark_conflict : M unit := curev_upd (set_may_conflict true).

(** ** Threads and store buffers *)

Definition spawn : M bool :=
  _ ← mark_conflict;
  n ← gets (fun s => length (threads s));
  record_symbolic (SymEv_Spawn (Z.of_nat (n / 2))) or_return;
  e ← curev; parent ← thread (iid_pid (iid e));
  cps ← gets CPS;
  c ← lift (cps_spawn cps (cpid parent)); let '(child, cps) := c in
  i ← gets prefix_idx;
  _ ← modify (fun s => set_threads (threads s ++ [Thread_new child i]) s);
  a ← lift (cps_new_aux cps child); let '(aux, cps) := a in
  _ ← modify (set_CPS cps);
  _ ← modify (fun s => set_threads (threads s ++ [set_available false (Thread_new aux i)]) s);
  mret true.

Definition store (sd : SymDataRef) : M bool :=
  dry ← gets dryrun;
  if dry : bool then mret true
  else
    _ ← mark_conflict; ipid ← curpid;
    i ← gets prefix_idx; md ← gets last_md;
    _ ← thread_upd ipid (fun t => set_store_buffer (store_buffer t ++ [MkPendingStore (sdr_ref sd) i (-1) md]) t);
    _ ← thread_upd (ipid + 1) (set_available true);
    mret true.

(** The dry-run prologue: every byte of [ml] joins the sleeper's sets. *)
Definition dry_bytes (rd wr : bool) (ml : SymAddrSize) : M unit :=
  pid ← dry_pid;
  each_byte ml (fun b _ => _ ← when rd (dry_sleep_r pid b); when wr (dry_sleep_w pid b)) tt.

(** [for(i = 0; i < sb.size()-1; ++i) sb\[i\] = sb\[i+1\]; sb.pop_back();] *)
Definition pop_front (sb : list PendingStore) : option (list PendingStore) :=
  sb ← for_range (length sb - 1) 0 (fun i sb => x ← sb !! S i; vset sb i x) sb;
  vpop sb.

(** One byte of [do_atomic_store]. *)
Definition atomic_store_byte (ml : SymAddrSize) (ipid : Z) (b : SymAddr) (st : list Z * list (Z * Z))
    : M (list Z * list (Z * Z)) :=
  let is_update := bool_decide (Z.rem ipid 2 <> 0) in
  let tipid := if is_update then ipid - 1 else ipid in
  bi ← mem_get b;
  let lu := last_update bi in
  n ← pfx_len; _ ← massert (bool_decide (lu < n));
  r ← scan_last_reads (last_read bi) lu tipid st.1;
  let '(seen, lu_before_read) := r in
  r ← (if lu_before_read : bool then
         mret (set_before_unordered [] (set_unordered_updates [] bi), (seen, st.2))
       else if decide (0 <= lu) then
         l ← pfx lu;
         same ← lift (match sym l with
                      | [e] => if decide (ev_kind e = UNOBS_STORE) then a ← ev_addr e; Some (sas_eq a ml)
                               else Some false
                      | _ => Some false
                      end);
         if negb same then observe_memory conf b bi seen st.2 true
         else s ← lift (insert_set seen (before_unordered bi)); mret (bi, (s.1, st.2))
       else mret (bi, (seen, st.2)));
  let bi := r.1 in
  i ← gets prefix_idx;
  let bi := if decide (dpor_algorithm conf = OBSERVERS)
            then set_unordered_updates (map_insert (unordered_updates bi) ipid i) bi else bi in
  let bi := set_last_update_ml ml (set_last_update i bi) in
  t ← thread tipid;
  bi ← (match (if is_update then store_buffer t !! 0%nat else None) with
        | Some pst =>
          if decide (0 <= ps_last_rowe pst)
          then lr ← lift (last_read_set (last_read bi) (Z.quot tipid 2) (ps_last_rowe pst));
               mret (set_last_read lr bi)
          else mret bi
        | None => mret bi
        end);
  _ ← mem_put b bi;
  _ ← wakeup conf ACC_W b;
  mret r.2.

Definition do_atomic_store (sd : SymDataRef) : M unit :=
  let ml := sdr_ref sd in
  dry ← gets dryrun;
  if dry : bool then dry_bytes false true ml
  else
    ipid ← curpid; _ ← mark_conflict;
    let is_update := bool_decide (Z.rem ipid 2 <> 0) in
    let uipid := ipid in
    let tipid := if is_update then ipid - 1 else ipid in
    i ← gets prefix_idx;
    _ ← (if is_update then
           t ← thread tipid;
           pst ← lift (store_buffer t !! 0%nat);
           _ ← massert (bool_decide (ps_store_event pst <> wrapu 32 i));
           _ ← add_happens_after i (ps_store_event pst);
           origin ← pfx (ps_store_event pst);
           curev_upd (fun e => set_ev_md (ps_md pst) (set_origin_iid (iid origin) e))
         else
           _ ← assert_buffer_empty tipid; add_happens_after_thread i (tipid + 1));
    st ← each_byte ml (atomic_store_byte ml ipid) ([], []);
    _ ← when is_update (
          t ← thread tipid;
          sb ← lift (pop_front (store_buffer t));
          _ ← thread_upd tipid (set_store_buffer sb);
          when (bool_decide (sb = [])) (thread_upd uipid (set_available false)));
    lfmc ← gets last_full_memory_conflict;
    seen ← ins st.1 lfmc;
    _ ← see_events conf seen; see_event_pairs conf st.2.

Definition atomic_store (sd : SymDataRef) : M bool :=
  record_symbolic (if decide (dpor_algorithm conf = OBSERVERS) then SymEv_UnobsStore sd else SymEv_Store sd)
  or_return;
  _ ← do_atomic_store sd; mret true.

(** ** Read-modify-writes and awaits *)

(** [lu_tipid == ipid && ml != lu_ml && lu != prefix_idx]: an edge to the last
    update by the same thread. *)
Definition own_update_edge (ml lu_ml : SymAddrSize) (lu ipid : Z) : M unit :=
  l ← pfx lu; i ← gets prefix_idx;
  when (bool_decide (real_of (iid_pid (iid l)) = ipid) && negb (sas_eq ml lu_ml) && bool_decide (lu <> i))
    (add_happens_after i lu).

(** The end of every update of byte [b]. *)
Definition register_update (ml : SymAddrSize) (ipid : Z) (b : SymAddr) (bi : ByteInfo) : M unit :=
  i ← gets prefix_idx;
  _ ← mem_put b (set_last_update_ml ml (set_last_update i
        (set_unordered_updates (map_insert (unordered_updates bi) ipid i) bi)));
  wakeup conf ACC_W b.

Definition atomic_rmw_byte (ml : SymAddrSize) (action : RmwAction) (ipid : Z) (b : SymAddr)
    (st : list Z * list (Z * Z)) : M (list Z * list (Z * Z)) :=
  bi ← mem_get b;
  let lu := last_update bi in
  n ← pfx_len; _ ← massert (bool_decide (lu < n));
  r ← scan_last_reads (last_read bi) lu ipid st.1;
  let '(seen, lu_before_read) := r in
  r ← (if lu_before_read : bool then
         mret (false, (set_before_unordered [] (set_unordered_updates [] bi), (seen, st.2)))
       else if decide (0 <= lu) then
         _ ← own_update_edge ml (last_update_ml bi) lu ipid;
         l ← pfx lu;
         same ← lift (match sym l with
                      | [e] => if decide (ev_kind e = RMW) then
                                 k ← ev_rmw_kind e; u ← ev_rmw_used e;
                                 if rmwaction_commutes (conflict_conf conf) k u (ra_kind action) (ra_result_used action)
                                 then a ← ev_addr e; Some (sas_eq a ml) else Some false
                               else Some false
                      | _ => Some false
                      end);
         if negb same then o ← observe_memory conf b bi seen st.2 true; mret (true, o)
         else s ← lift (insert_set seen (before_unordered bi)); mret (false, (bi, (s.1, st.2)))
       else mret (false, (bi, (seen, st.2))));
  let bi := r.2.1 in
  _ ← massert (negb r.1 || bool_decide (unordered_updates bi = []));
  _ ← register_update ml ipid b bi;
  mret r.2.2.

Definition atomic_rmw (sd : SymDataRef) (action : RmwAction) : M bool :=
  _ ← mark_conflict;
  ev ← lift (SymEv_Rmw sd action);
  record_symbolic ev or_return;
  let ml := sdr_ref sd in
  dry ← gets dryrun;
  if dry : bool then _ ← dry_bytes true true ml; mret true
  else
    ipid ← curpid; _ ← massert (bool_decide (Z.rem ipid 2 = 0));
    i ← gets prefix_idx;
    _ ← assert_buffer_empty ipid; _ ← add_happens_after_thread i (ipid + 1);
    st ← each_byte ml (atomic_rmw_byte ml action ipid) ([], []);
    lfmc ← gets last_full_memory_conflict;
    seen ← ins st.1 lfmc;
    _ ← see_events conf seen; _ ← see_event_pairs conf st.2; mret true.

(** [blocked_awaits.find(a)], erase the current process, drop empty entries. *)
Definition unblock_await (a : SymAddr) : M unit :=
  bs ← gets blocked_awaits;
  match map_lookup bs a with
  | None => mret tt
  | Some m =>
    p ← curpid;
    let m := map_erase m p in
    modify (set_blocked_awaits (if decide (m = []) then map_erase bs a else map_insert bs a m))
  end.

(** [blocked_awaits\[a\].try_emplace(pid, index, ev)] with the debug check that
    an existing entry is for the same await. *)
Definition block_await (a : SymAddr) (ev : SymEv) : M unit :=
  e ← curev;
  bs ← gets blocked_awaits;
  let m := (map_index [] bs a).1 in
  match map_lookup m (iid_pid (iid e)) with
  | Some aw =>
    _ ← massert (bool_decide (ba_index aw = iid_index (iid e)));
    one ← lift (ev_cond ev); other ← lift (ev_cond (ba_ev aw));
    _ ← massert (op_code (ac_op other) =? op_code (ac_op one));
    x ← lift (ac_operand other); y ← lift (ac_operand one);
    sz ← lift (ev_addr ev);
    c ← lift (memcmp x y (Z.to_nat (sas_size sz))); massert (bool_decide (c = 0))
  | None =>
    modify (set_blocked_awaits (map_insert bs a
      (map_insert m (iid_pid (iid e)) (MkBlockedAwait (iid_index (iid e)) ev))))
  end.

Definition satisfied_before (i : Z) (ml : SymAddrSize) (cond : AwaitCond) : M bool :=
  b ← gets prefix;
  lift (awaitcond_satisfied_before IsBigEndianHost (map sym (events b)) (Z.to_nat i) ml cond).

Definition xchg_await_byte (ml : SymAddrSize) (cond : AwaitCond) (ipid : Z) (b : SymAddr)
    (st : list Z * list (Z * Z)) : M (list Z * list (Z * Z)) :=
  bi ← mem_get b;
  let lu := last_update bi in
  n ← pfx_len; _ ← massert (bool_decide (lu < n));
  r ← loop (last_read bi) (fun i (r : list Z * bool) =>
        seen ← (if decide (0 <= i) then
                  e ← pfx i;
                  if decide (iid_pid (iid e) <> ipid) then
                    ok ← satisfied_before i ml cond;
                    if ok : bool then ins r.1 i
                    else c ← curev; l ← ins (happens_after_later c) i;
                         _ ← curev_upd (set_happens_after_later l); mret r.1
                  else mret r.1
                else mret r.1);
        mret (seen, r.2 || bool_decide (lu < i))) (st.1, false);
  let '(seen, lu_before_read) := r in
  r ← (if lu_before_read : bool then
         mret (set_before_unordered [] (set_unordered_updates [] bi), st.2)
       else if decide (0 <= lu) then
         _ ← own_update_edge ml (last_update_ml bi) lu ipid;
         c ← curev;
         o ← observe_memory conf b bi (happens_after_later c) st.2 true;
         _ ← curev_upd (set_happens_after_later o.2.1); mret (o.1, o.2.2)
       else mret (bi, st.2));
  _ ← massert (bool_decide (unordered_updates r.1 = []));
  _ ← register_update ml ipid b r.1;
  mret (seen, r.2).

Definition xchg_await (sd : SymDataRef) (cond : AwaitCond) : M bool :=
  _ ← mark_conflict;
  ev ← lift (SymEv_XchgAwait sd cond);
  record_symbolic ev or_return;
  let ml := sdr_ref sd in
  dry ← gets dryrun;
  if dry : bool then _ ← dry_bytes true true ml; mret true
  else
    ipid ← curpid; _ ← massert (bool_decide (Z.rem ipid 2 = 0));
    i ← gets prefix_idx;
    _ ← assert_buffer_empty ipid; _ ← add_happens_after_thread i (ipid + 1);
    _ ← unblock_await (sas_addr ml);
    st ← each_byte ml (xchg_await_byte ml cond ipid) ([], []);
    lfmc ← gets last_full_memory_conflict;
    c ← curev; l ← ins (happens_after_later c) lfmc; _ ← curev_upd (set_happens_after_later l);
    _ ← see_events conf st.1; _ ← see_event_pairs conf st.2; mret true.

Definition xchg_await_fail (sd : SymDataRef) (cond : AwaitCond) : M bool :=
  if decide (memory_model conf <> SC) then
    _ ← invalid_input_error "Exchange-Await is only implemented for SC right now"; mret false
  else
    dry ← gets dryrun; _ ← massert (negb dry);
    ev ← lift (SymEv_XchgAwait sd cond);
    _ ← block_await (sas_addr (sdr_ref sd)) ev; mret true.

(** ** Loads *)

(** The newest pending store to the same address, as the loop finds it. *)
Fixpoint find_rowe (n : nat) (sb : list PendingStore) (a : SymAddr) : option (option nat) :=
  match n with
  | O => Some None
  | S n => ps ← sb !! n; if sa_eq (sas_addr (ps_ml ps)) a then Some (Some n) else find_rowe n sb a
  end.

Definition load_byte (ml : SymAddrSize) (ipid : Z) (b : SymAddr) (st : list Z * list (Z * Z))
    : M (list Z * list (Z * Z)) :=
  bi ← mem_get b;
  let lu := last_update bi in
  _ ← (if decide (0 <= lu) then own_update_edge ml (last_update_ml bi) lu ipid else mret tt);
  o ← observe_memory conf b bi st.1 st.2 false;
  i ← gets prefix_idx;
  lr ← lift (last_read_set (last_read o.1) (Z.quot ipid 2) i);
  _ ← mem_put b (set_last_read lr o.1);
  _ ← wakeup conf ACC_R b;
  mret o.2.

Definition do_load (ml : SymAddrSize) : M unit :=
  dry ← gets dryrun;
  if dry : bool then dry_bytes true false ml
  else
    _ ← mark_conflict; ipid ← curpid; t ← thread ipid;
    i ← gets prefix_idx;
    r ← lift (find_rowe (length (store_buffer t)) (store_buffer t) (sas_addr ml));
    match r with
    | Some k =>
      ps ← lift (store_buffer t !! k);
      sb ← lift (vset (store_buffer t) k (set_ps_last_rowe i ps));
      thread_upd ipid (set_store_buffer sb)
    | None =>
      st ← each_byte ml (load_byte ml ipid) ([], []);
      lfmc ← gets last_full_memory_conflict;
      seen ← ins st.1 lfmc;
      _ ← see_events conf seen; see_event_pairs conf st.2
    end.

Definition load (ml : SymAddrSize) : M bool :=
  record_symbolic (SymEv_Load ml) or_return; _ ← do_load ml; mret true.

Definition compare_exchange (sd : SymDataRef) (expected : block_type) (success : bool) : M bool :=
  if success then
    record_symbolic (SymEv_CmpXhg sd expected) or_return;
    _ ← do_load (sdr_ref sd); _ ← do_atomic_store sd; mret true
  else
    record_symbolic (SymEv_CmpXhgFail sd expected) or_return;
    _ ← do_load (sdr_ref sd); mret true.

Definition load_await_byte (ipid : Z) (b : SymAddr) (pairs : list (Z * Z)) : M (list (Z * Z)) :=
  bi ← mem_get b;
  c ← curev;
  o ← observe_memory conf b bi (happens_after_later c) pairs false;
  _ ← curev_upd (set_happens_after_later o.2.1);
  i ← gets prefix_idx;
  lr ← lift (last_read_set (last_read o.1) (Z.quot ipid 2) i);
  _ ← mem_put b (set_last_read lr o.1);
  _ ← wakeup conf ACC_R b;
  mret o.2.2.

Definition load_await (ml : SymAddrSize) (cond : AwaitCond) : M bool :=
  _ ← mark_conflict;
  if decide (memory_model conf <> SC) then
    _ ← invalid_input_error "Load-Await is only implemented for SC right now"; mret false
  else
    record_symbolic (SymEv_LoadAwait ml cond) or_return;
    dry ← gets dryrun;
    if dry : bool then _ ← dry_bytes true false ml; mret true
    else
      ipid ← curpid; _ ← assert_buffer_empty ipid;
      _ ← unblock_await (sas_addr ml);
      pairs ← each_byte ml (load_await_byte ipid) [];
      _ ← see_event_pairs conf pairs; mret true.

Definition load_await_fail (ml : SymAddrSize) (cond : AwaitCond) : M bool :=
  if decide (memory_model conf <> SC) then
    _ ← invalid_input_error "Load-Await is only implemented for SC right now"; mret false
  else
    dry ← gets dryrun; _ ← massert (negb dry);
    _ ← block_await (sas_addr ml) (SymEv_LoadAwait ml cond); mret true.

(** ** Fences, joins and full memory conflicts *)

Definition fence : M bool :=
  dry ← gets dryrun;
  if dry : bool then mret true
  else
    ipid ← curpid; _ ← massert (bool_decide (Z.rem ipid 2 = 0));
    _ ← assert_buffer_empty ipid;
    i ← gets prefix_idx; _ ← add_happens_after_thread i (ipid + 1); mret true.

Definition join (tgt_proc : Z) : M bool :=
  _ ← mark_conflict;
  record_symbolic (SymEv_Join tgt_proc) or_return;
  dry ← gets dryrun;
  if dry : bool then mret true
  else
    _ ← assert_buffer_empty (tgt_proc * 2);
    i ← gets prefix_idx;
    _ ← add_happens_after_thread i (tgt_proc * 2);
    _ ← add_happens_after_thread i (tgt_proc * 2 + 1); mret true.

Definition full_memory_conflict : M bool :=
  _ ← mark_conflict;
  record_symbolic SymEv_Fullmem or_return;
  dry ← gets dryrun;
  if dry : bool then
    pid ← dry_pid; _ ← thread_upd pid (set_sleep_full_memory_conflict true); mret true
  else
    ms ← gets mem;
    i ← gets prefix_idx;
    st ← loop ms (fun it (st : list Z * list (Z * Z)) =>
           o ← observe_memory conf it.1 it.2 st.1 st.2 true;
           _ ← mem_put it.1 (set_before_unordered [i] o.1);
           seen ← loop (last_read o.1) (fun j seen => ins seen j) o.2.1;
           mret (seen, o.2.2)) ([], []);
    xs ← gets mutexes;
    seen ← loop xs (fun it seen => ins seen (last_access it.2)) st.1;
    lfmc ← gets last_full_memory_conflict;
    seen ← ins seen lfmc;
    _ ← modify (set_last_full_memory_conflict i);
    _ ← wakeup conf W_ALL_MEMORY (MkSymAddr (MkSymMBlock UINT16_MAX 0) 0);
    _ ← modify (set_mem []);
    _ ← see_events conf seen; _ ← see_event_pairs conf st.2; mret true.

(** ** Mutexes *)

Definition list_set (l : list Z) : M (list Z) := lift (of_range l).

(** Static initialisation: an unknown mutex is bound unless one is required. *)
Definition mutex_default (a : SymAddr) : M unit :=
  xs ← gets mutexes;
  when (negb (mutex_require_init conf) && negb (map_count xs a))
    (modify (set_mutexes (map_insert xs a Mutex_new))).
Definition assert_mutex (a : SymAddr) : M unit := xs ← gets mutexes; massert (map_count xs a).
(** [mutexes\[a\]] *)
Definition mutex_get (a : SymAddr) : M Mutex :=
  xs ← gets mutexes;
  let r := map_index Mutex_new xs a in _ ← modify (set_mutexes r.2); mret r.1.
Definition mutex_put (a : SymAddr) (x : Mutex) : M unit :=
  modify (fun s => set_mutexes (map_insert (mutexes s) a x) s).

(** The common prologue: record the event; a dry run only adds the address to
    the sleeper's writes ([inl]); otherwise fence. *)
Definition sync_prologue (k : SymKind) (ml : SymAddrSize) : M (bool + unit) :=
  _ ← mark_conflict;
  ok ← record_symbolic (SymEv_sync k ml);
  if negb ok then mret (inl false)
  else
    dry ← gets dryrun;
    if dry : bool then pid ← dry_pid; _ ← dry_sleep_w pid (sas_addr ml); mret (inl true)
    else ok ← fence; if negb ok then mret (inl false) else mret (inr tt).
Definition sync_op (k : SymKind) (ml : SymAddrSize) (body : M bool) : M bool :=
  r ← sync_prologue k ml; match r with inl b => mret b | inr _ => body end.

Definition mutex_lock (ml : SymAddrSize) : M bool :=
  let a := sas_addr ml in
  sync_op M_LOCK ml (
    _ ← mutex_default a;
    _ ← wakeup conf ACC_W a;
    x ← mutex_get a;
    lfmc ← gets last_full_memory_conflict;
    _ ← (if decide (last_lock x < 0) then seen ← list_set [last_access x; lfmc]; see_events conf seen
         else _ ← add_lock_suc_race (last_lock x) (last_access x); seen ← list_set [lfmc]; see_events conf seen);
    i ← gets prefix_idx;
    _ ← mutex_put a (MkMutex i i true); mret true).

Definition mutex_lock_fail (ml : SymAddrSize) : M bool :=
  let a := sas_addr ml in
  dry ← gets dryrun; _ ← massert (negb dry);
  _ ← mutex_default a; _ ← assert_mutex a;
  x ← mutex_get a;
  _ ← massert (bool_decide (0 <= last_lock x));
  _ ← add_lock_fail_race (last_lock x);
  lfmc ← gets last_full_memory_conflict;
  _ ← when (bool_decide (0 <= lfmc)) (add_lock_fail_race lfmc);
  mret true.

Definition mutex_trylock (ml : SymAddrSize) : M bool :=
  let a := sas_addr ml in
  sync_op M_LOCK ml (
    _ ← mutex_default a; _ ← assert_mutex a;
    _ ← wakeup conf ACC_W a;
    x ← mutex_get a;
    lfmc ← gets last_full_memory_conflict;
    seen ← list_set [last_access x; lfmc]; _ ← see_events conf seen;
    i ← gets prefix_idx;
    _ ← mutex_put a (if locked x then set_last_access i x else MkMutex i i true); mret true).

Definition mutex_unlock (ml : SymAddrSize) : M bool :=
  let a := sas_addr ml in
  sync_op M_UNLOCK ml (
    _ ← mutex_default a; _ ← assert_mutex a;
    x ← mutex_get a;
    _ ← wakeup conf ACC_W a;
    _ ← massert (bool_decide (0 <= last_access x));
    lfmc ← gets last_full_memory_conflict;
    seen ← list_set [last_access x; lfmc]; _ ← see_events conf seen;
    i ← gets prefix_idx;
    _ ← mutex_put a (set_locked false (set_last_access i x)); mret true).

Definition mutex_init (ml : SymAddrSize) : M bool :=
  let a := sas_addr ml in
  sync_op M_INIT ml (
    x ← mutex_get a;
    lfmc ← gets last_full_memory_conflict;
    seen ← list_set [last_access x; lfmc]; _ ← see_events conf seen;
    i ← gets prefix_idx;
    _ ← mutex_put a (set_last_access i x); mret true).

Definition mutex_destroy (ml : SymAddrSize) : M bool :=
  let a := sas_addr ml in
  sync_op M_DELETE ml (
    _ ← mutex_default a; _ ← assert_mutex a;
    x ← mutex_get a;
    _ ← wakeup conf ACC_W a;
    lfmc ← gets last_full_memory_conflict;
    seen ← list_set [last_access x; lfmc]; _ ← see_events conf seen;
    _ ← modify (fun s => set_mutexes (map_erase (mutexes s) a) s); mret true).

(** ** Condition variables *)

Definition cond_put (a : SymAddr) (c : CondVar) : M unit :=
  modify (fun s => set_cond_vars (map_insert (cond_vars s) a c) s).

Definition register_alternatives (alt_count : Z) : M bool :=
  _ ← mark_conflict;
  record_symbolic (SymEv_Nondet alt_count) or_return;
  br ← curbranch;
  _ ← when (bool_decide (b_alt br = 0))
        (each (seqZ (b_alt br + 1) (alt_count - (b_alt br + 1))) (fun a =>
           i ← gets prefix_idx; curev_upd (fun e => set_races (races e ++ [Race_Nondet i a]) e)));
  mret true.

Definition cond_init (ml : SymAddrSize) : M bool :=
  let a := sas_addr ml in
  sync_op C_INIT ml (
    cs ← gets cond_vars;
    if map_count cs a then _ ← pthreads_error "Condition variable initiated twice."; mret false
    else
      i ← gets prefix_idx; _ ← cond_put a (CondVar_new i);
      lfmc ← gets last_full_memory_conflict;
      seen ← list_set [lfmc]; _ ← see_events conf seen; mret true).

(** Waking waiter [i]: its thread becomes available. *)
Definition wake_waiter (i : Z) : M unit :=
  idx ← gets prefix_idx; _ ← massert (bool_decide (0 <= i /\ i < idx));
  e ← pfx i; t ← thread (iid_pid (iid e));
  _ ← massert (negb (available t)); thread_upd (iid_pid (iid e)) (set_available true).

(** [for(j = alt; j < size-1; ++j) w\[j\] = w\[j+1\]; w.pop_back();] *)
Definition remove_waiter (w : list Z) (alt : nat) : option (list Z) :=
  w ← for_range (length w - 1 - alt) alt (fun j w => x ← w !! S j; vset w j x) w;
  vpop w.

Definition cond_signal (ml : SymAddrSize) : M bool :=
  let a := sas_addr ml in
  sync_op C_SIGNAL ml (
    _ ← wakeup conf ACC_W a;
    cs ← gets cond_vars;
    match map_lookup cs a with
    | None => _ ← pthreads_error "cond_signal called with uninitialized condition variable."; mret false
    | Some c =>
      lfmc ← gets last_full_memory_conflict;
      seen ← list_set [lfmc];
      (if decide (1 < length (waiters c))%nat
       then register_alternatives (Z.of_nat (length (waiters c))) else mret true) or_return;
      br ← curbranch;
      _ ← massert (bool_decide (0 <= b_alt br));
      _ ← massert (bool_decide (waiters c = []) || bool_decide (b_alt br < Z.of_nat (length (waiters c))));
      r ← (if decide (waiters c <> []) then
             i ← lift (zget (waiters c) (b_alt br));
             _ ← wake_waiter i;
             seen ← ins seen i;
             w ← lift (remove_waiter (waiters c) (Z.to_nat (b_alt br)));
             mret (seen, w)
           else mret (seen, waiters c));
      idx ← gets prefix_idx;
      _ ← cond_put a (MkCondVar idx r.2);
      _ ← see_events conf r.1; mret true
    end).

Definition cond_broadcast (ml : SymAddrSize) : M bool :=
  let a := sas_addr ml in
  sync_op C_BRDCST ml (
    _ ← wakeup conf ACC_W a;
    cs ← gets cond_vars;
    match map_lookup cs a with
    | None => _ ← pthreads_error "cond_broadcast called with uninitialized condition variable."; mret false
    | Some c =>
      lfmc ← gets last_full_memory_conflict;
      seen ← list_set [lfmc];
      seen ← loop (waiters c) (fun i seen => _ ← wake_waiter i; ins seen i) seen;
      idx ← gets prefix_idx;
      _ ← cond_put a (MkCondVar idx []);
      _ ← see_events conf seen; mret true
    end).

Definition cond_wait (cond_ml mutex_ml : SymAddrSize) : M bool :=
  dry ← gets dryrun;
  xs ← gets mutexes;
  bad ← (if dry : bool then mret false
         else match map_lookup xs (sas_addr mutex_ml) with
              | None =>
                _ ← pthreads_error (if mutex_require_init conf
                      then "cond_wait called with uninitialized mutex object."
                      else "cond_wait called with unlocked mutex object."); mret true
              | Some x =>
                other ← (if decide (last_lock x < 0) then mret true
                         else l ← pfx (last_lock x); p ← curpid;
                              mret (bool_decide (iid_pid (iid l) <> p)));
                if other : bool then
                  _ ← pthreads_error "cond_wait called with mutex which is not locked by the same thread.";
                  mret true
                else mret false
              end);
  if bad : bool then mret false
  else
    _ ← mark_conflict;
    mutex_unlock mutex_ml or_return;
    record_symbolic (SymEv_sync C_WAIT cond_ml) or_return;
    dry ← gets dryrun;
    if dry : bool then pid ← dry_pid; _ ← dry_sleep_r pid (sas_addr cond_ml); mret true
    else
      fence or_return;
      _ ← wakeup conf ACC_R (sas_addr cond_ml);
      pid ← curpid;
      cs ← gets cond_vars;
      match map_lookup cs (sas_addr cond_ml) with
      | None => _ ← pthreads_error "cond_wait called with uninitialized condition variable."; mret false
      | Some c =>
        i ← gets prefix_idx;
        _ ← cond_put (sas_addr cond_ml) (set_waiters (waiters c ++ [i]) c);
        _ ← thread_upd pid (set_available false);
        lfmc ← gets last_full_memory_conflict;
        seen ← list_set [lfmc; last_signal c]; _ ← see_events conf seen; mret true
      end.

Definition cond_awake (cond_ml mutex_ml : SymAddrSize) : M bool :=
  dry ← gets dryrun;
  _ ← when (negb dry) (
        cs ← gets cond_vars;
        _ ← massert (map_count cs (sas_addr cond_ml));
        c ← lift (map_lookup cs (sas_addr cond_ml));
        i ← gets prefix_idx; add_happens_after i (last_signal c));
  _ ← mark_conflict;
  mutex_lock mutex_ml or_return;
  record_symbolic (SymEv_sync C_AWAKE cond_ml) or_return;
  mret true.

(** The result is an error number; [EBUSY] is 16. *)
Definition EBUSY : Z := 16.
Definition destroy_err : Z := if decide (EBUSY = 1) then 2 else 1.
Definition cond_destroy (ml : SymAddrSize) : M Z :=
  let a := sas_addr ml in
  r ← sync_prologue C_DELETE ml;
  match r with
  | inl b => mret (if b : bool then 0 else destroy_err)
  | inr _ =>
    _ ← wakeup conf ACC_W a;
    cs ← gets cond_vars;
    match map_lookup cs a with
    | None => _ ← pthreads_error "cond_destroy called on uninitialized condition variable."; mret destroy_err
    | Some c =>
      lfmc ← gets last_full_memory_conflict;
      seen ← list_set [last_signal c; lfmc];
      seen ← loop (waiters c) (fun i seen => ins seen i) seen;
      _ ← see_events conf seen;
      _ ← modify (fun s => set_cond_vars (map_erase (cond_vars s) a) s);
      mret (if decide (waiters c <> []) then EBUSY else 0)
    end
  end.

End handlers.
