(* ===== verification/TSOInv.v ===== *)
(** * TSOInv: the invariant of the TSO trace builder

    A weakest-precondition calculus for the state monad, the invariant that
    relates the tables of the builder to the event prefix, and the
    specification of every step of TSOOps.v: no assertion fails, nothing is
    accessed out of range, and the invariant is kept. *)

From stdpp Require Import sorting.
From S2P Require Import Prelude StdMap VecSet CPid SymAddr ByteOps SymEv ReplayMem WakeupTree TSOState TSOOps.

Local Open Scope Z_scope.

(** ** Total correctness *)

Definition wp {A} (m : M A) (Q : A -> TSOTraceBuilder -> Prop) (s : TSOTraceBuilder) : Prop :=
  match m s with Some (a, s') => Q a s' | None => False end.

Section wp.
Context {A B : Type}.
Implicit Types (Q : A -> TSOTraceBuilder -> Prop) (R : B -> TSOTraceBuilder -> Prop).

Lemma wp_mono (m : M A) Q Q' s : wp m Q s -> (forall a s', Q a s' -> Q' a s') -> wp m Q' s.
Proof. unfold wp. destruct (m s) as [[a s']|]; [|done]. auto. Qed.

Lemma wp_bind (m : M A) (k : A -> M B) R s : wp m (fun a s' => wp (k a) R s') s -> wp (m ≫= k) R s.
Proof. unfold wp, mbind, M_bind. by destruct (m s) as [[a s']|]. Qed.

Lemma wp_ret (x : A) Q s : Q x s -> wp (mret x) Q s.
Proof. done. Qed.

Lemma wp_lift (o : option A) x Q s : o = Some x -> Q x s -> wp (lift o) Q s.
Proof. by intros ->. Qed.

Lemma wp_gets (f : TSOTraceBuilder -> A) Q s : Q (f s) s -> wp (gets f) Q s.
Proof. done. Qed.

Lemma wp_total (m : M A) Q s : wp m Q s <-> exists a s', m s = Some (a, s') /\ Q a s'.
Proof.
  unfold wp. destruct (m s) as [[a s']|].
  - split; [by eauto|]. by intros (? & ? & [= -> ->] & ?).
  - split; [done|]. by intros (? & ? & ? & ?).
Qed.
End wp.

Lemma wp_modify f (Q : unit -> TSOTraceBuilder -> Prop) s : Q tt (f s) -> wp (modify f) Q s.
Proof. done. Qed.
Lemma wp_massert b (Q : unit -> TSOTraceBuilder -> Prop) s : b = true -> Q tt s -> wp (massert b) Q s.
Proof. by intros ->. Qed.
Lemma wp_when_false m (Q : unit -> TSOTraceBuilder -> Prop) s : Q tt s -> wp (when false m) Q s.
Proof. done. Qed.

(** Loops: [I] is indexed by what is left to visit. *)
Lemma wp_loop {A St} (I : list A -> St -> TSOTraceBuilder -> Prop) (l : list A) body st s :
  I l st s ->
  (forall x l' st s, I (x :: l') st s -> wp (body x st) (fun st' s' => I l' st' s') s) ->
  wp (loop l body st) (fun st' s' => I [] st' s') s.
Proof.
  intros HI Hbody. revert st s HI. induction l as [|x l IH]; intros st s HI; [done|].
  cbn [loop]. apply wp_bind. eapply wp_mono; [by apply Hbody|]. auto.
Qed.

Lemma wp_each {A} (I : list A -> TSOTraceBuilder -> Prop) (l : list A) body s :
  I l s -> (forall x l' s, I (x :: l') s -> wp (body x) (fun _ s' => I l' s') s) ->
  wp (each l body) (fun _ s' => I [] s') s.
Proof. intros HI Hb. apply (wp_loop (fun l _ => I l)); [done|]. intros x l' [] s'. apply Hb. Qed.

(** One step of a computation: reads, assertions and pure results are resolved
    by the side conditions; [step_by lem] uses a specification. *)
Ltac step_by tac := apply wp_bind; eapply wp_mono; [tac|cbv beta].
Ltac wp_gets := apply wp_bind, wp_gets; cbv beta.
Ltac wp_assert := apply wp_bind, wp_massert.

(** ** What the invariant talks about *)

Record TView := MkTView {
  v_cpid : CPid; v_available : bool; v_indices : list Z; v_buffer : list PendingStore }.
Definition tview (t : Thread) : TView := MkTView (cpid t) (available t) (event_indices t) (store_buffer t).

Record View := MkView {
  v_idx : Z; v_lfmc : Z;
  v_mem : list (SymAddr * ByteInfo);
  v_mutexes : list (SymAddr * Mutex);
  v_conds : list (SymAddr * CondVar);
  v_cps : CPidSystem;
  v_threads : list TView;
  v_iids : list IID;
  v_dry : bool; v_replay : bool;
}.
Definition view (s : TSOTraceBuilder) : View :=
  MkView (prefix_idx s) (last_full_memory_conflict s) (mem s) (mutexes s) (cond_vars s) (CPS s)
    (map tview (threads s)) (map iid (events (prefix s))) (dryrun s) (replay s).

Definition pid_of (v : View) (i : Z) : option Z := iid_pid <$> zget (v_iids v) i.
(** [i] is the index of an executed event of thread [p]. *)
Definition event_of (v : View) (i p : Z) : Prop := 0 <= i <= v_idx v /\ pid_of v i = Some p.
Definition maybe_event (v : View) (i : Z) : Prop := -1 <= i <= v_idx v.

Record byte_inv (v : View) (m : ByteInfo) : Prop := {
  bi_update : maybe_event v (last_update m);
  bi_read : forall i, i ∈ last_read m -> maybe_event v i;
  bi_unordered : forall p i, (p, i) ∈ unordered_updates m -> 0 <= i <= last_update m;
  bi_distinct : NoDup (map snd (unordered_updates m));
  bi_before : sorted (before_unordered m) /\ forall i, i ∈ before_unordered m -> 0 <= i <= v_idx v;
}.

Record mutex_inv (v : View) (x : Mutex) : Prop := {
  mi_access : maybe_event v (last_access x);
  mi_lock : maybe_event v (last_lock x);
  mi_order : last_lock x <= last_access x;
  mi_unlocked : locked x = false -> 0 <= last_lock x -> last_lock x < last_access x;
}.

(** Thread [p] is blocked in the wait it started with event [i]. *)
Definition waiting (v : View) (i p : Z) : Prop :=
  event_of v i p /\ Z.even p = true /\ exists t, zget (v_threads v) p = Some t /\ v_available t = false.
Definition waiter_at (v : View) (a : SymAddr) (k : nat) (p : Z) : Prop :=
  exists c i, map_lookup (v_conds v) a = Some c /\ waiters c !! k = Some i /\ pid_of v i = Some p.

Record pending_inv (v : View) (p : Z) (ps : PendingStore) : Prop := {
  pi_ml : sas_ok (ps_ml ps);
  pi_event : event_of v (ps_store_event ps) p;
  pi_rowe : maybe_event v (ps_last_rowe ps);
}.

Record core_inv (v : View) : Prop := {
  ci_idx : 0 <= v_idx v < Z.of_nat (length (v_iids v));
  ci_small : Z.of_nat (length (v_iids v)) <= 2 ^ 31;
  ci_even : Z.even (Z.of_nat (length (v_threads v))) = true;
  ci_pids : forall i x, v_iids v !! i = Some x -> 0 <= iid_pid x < Z.of_nat (length (v_threads v));
  ci_indices : forall p t i, zget (v_threads v) p = Some t -> i ∈ v_indices t -> event_of v i p;
  ci_pending : forall p t ps, zget (v_threads v) p = Some t -> ps ∈ v_buffer t -> pending_inv v p ps;
  ci_odd : forall p t, zget (v_threads v) p = Some t -> Z.even p = false -> v_buffer t = [];
  ci_aux : forall p t u, Z.even p = true -> zget (v_threads v) p = Some t ->
    zget (v_threads v) (p + 1) = Some u -> v_available u = negb (bool_decide (v_buffer t = []));
  ci_mem : forall b m, (b, m) ∈ v_mem v -> byte_inv v m;
  ci_lfmc : maybe_event v (v_lfmc v);
  ci_mutex : forall a x, (a, x) ∈ v_mutexes v -> mutex_inv v x;
  ci_signal : forall a c, map_lookup (v_conds v) a = Some c -> 0 <= last_signal c <= v_idx v;
  ci_waiting : forall a c i, map_lookup (v_conds v) a = Some c -> i ∈ waiters c -> exists p, waiting v i p;
  ci_waiters : forall a k a' k' p, waiter_at v a k p -> waiter_at v a' k' p -> a = a' /\ k = k';
  ci_cps : cps_inv (v_cps v);
  ci_cpids : forall p t, zget (v_threads v) p = Some t -> Z.even p = true ->
    v_cpid t ∈ cpids (v_cps v) /\ is_auxiliary (v_cpid t) = false;
}.

(** A thread that is awake has no sleep sets; the sets are sets. *)
Record sleep_inv (t : Thread) : Prop := {
  si_r : sorted (sleep_accesses_r t);
  si_w : sorted (sleep_accesses_w t);
  si_awake : sleeping t = false ->
    sleep_accesses_r t = [] /\ sleep_accesses_w t = [] /\ sleep_full_memory_conflict t = false;
}.

(** Stores know what they write, read-modify-writes how. *)
Definition sym_ok (e : SymEv) : Prop := data_ok e /\ (ev_kind e = RMW -> is_Some (ev_rmw_kind e)).

(** [observe_store] finds a store to [b] among [syms]. *)
Definition observable (syms : sym_ty) (b : SymAddr) : Prop :=
  exists e a, e ∈ syms /\ symev_does_store e = true /\ ev_addr e = Some a /\ sas_includes a b = true.

Section inv.
Context (conf : Configuration) (Hchecks : check_conflicts conf = false).

Record event_ok (v : View) (e : Event) : Prop := {
  eo_wakeup : sorted (ev_wakeup e);
  eo_later : sorted (happens_after_later e);
  eo_bound : forall i, i ∈ happens_after_later e -> maybe_event v i;
  eo_data : Forall sym_ok (sym e);
}.

Record aux_inv (s : TSOTraceBuilder) : Prop := {
  ax_sleep : Forall sleep_inv (threads s);
  ax_event : forall e, e ∈ events (prefix s) -> event_ok (view s) e;
  ax_branch : buf_inv (prefix s);
}.

Definition byte_observable (s : TSOTraceBuilder) (b : SymAddr) (m : ByteInfo) : Prop :=
  dpor_algorithm conf = OBSERVERS -> 0 <= last_update m ->
  exists e, zget (events (prefix s)) (last_update m) = Some e /\ observable (sym e) b.

Record inv (s : TSOTraceBuilder) : Prop := {
  inv_core : core_inv (view s);
  inv_ax : aux_inv s;
  inv_obs : forall b m, (b, m) ∈ mem s -> byte_observable s b m;
}.

(** [record_symbolic] appends at the right place. *)
Definition synced (s : TSOTraceBuilder) : Prop :=
  forall e, zget (events (prefix s)) (prefix_idx s) = Some e -> sym_idx s = length (sym e).

(** What every method leaves alone: the trace so far, but for what the events
    record about themselves. Stores stay observable. *)
Record run (s s' : TSOTraceBuilder) : Prop := {
  ru_idx : prefix_idx s' = prefix_idx s;
  ru_iids : map iid (events (prefix s')) = map iid (events (prefix s));
  ru_flags : dryrun s' = dryrun s /\ replay s' = replay s;
  ru_tree : wtree (prefix s') = wtree (prefix s);
  ru_obs : forall i e, zget (events (prefix s)) i = Some e ->
    exists e', zget (events (prefix s')) i = Some e' /\ (forall b, observable (sym e) b -> observable (sym e') b);
  ru_sync : synced s -> synced s';
}.

(** What the steps leave alone. *)
Record frame (s s' : TSOTraceBuilder) : Prop := {
  fr_view : view s' = view s;
  fr_run : run s s';
}.

Lemma run_refl s : run s s.
Proof. split; [done..| |done]. eauto. Qed.

Lemma run_trans s1 s2 s3 : run s1 s2 -> run s2 s3 -> run s1 s3.
Proof.
  intros [Hi Hd [Hy Hr] Ht Ho Hs] [Hi' Hd' [Hy' Hr'] Ht' Ho' Hs'].
  split; [congruence..|split; congruence|congruence| |auto].
  intros i e He. destruct (Ho i e He) as (e' & He' & Hb). destruct (Ho' i e' He') as (e'' & He'' & Hb').
  exists e''. split; [done|]. auto.
Qed.

Lemma frame_refl s : frame s s.
Proof. split; [done|apply run_refl]. Qed.

Lemma frame_trans s1 s2 s3 : frame s1 s2 -> frame s2 s3 -> frame s1 s3.
Proof. intros [Hv Hr] [Hv' Hr']. split; [congruence|by eapply run_trans]. Qed.

Lemma run_observable s s' b m : run s s' -> byte_observable s b m -> byte_observable s' b m.
Proof.
  intros Hf Hb Hc Hlu. destruct (Hb Hc Hlu) as (e & He & Ho).
  destruct (ru_obs _ _ Hf _ _ He) as (e' & He' & Hb'). eauto.
Qed.

Lemma inv_frame s s' : inv s -> frame s s' -> aux_inv s' -> inv s'.
Proof.
  intros [Hc Ha Ho] Hf Ha'. pose proof (fr_view _ _ Hf) as Hv. split; [by rewrite Hv|done|].
  intros b m Hbm. eapply run_observable; [apply Hf|]. apply Ho.
  assert (mem s' = mem s) as <- by (by inversion Hv). done.
Qed.

(** ** Events and threads *)

Lemma view_idx s : v_idx (view s) = prefix_idx s. Proof. done. Qed.

Lemma zget_map {X Y} (f : X -> Y) l i : zget (map f l) i = f <$> zget l i.
Proof. unfold zget. case_decide; [apply list_lookup_fmap|done]. Qed.

Lemma zget_Some {X} (l : list X) i x : zget l i = Some x -> 0 <= i < Z.of_nat (length l).
Proof. unfold zget. case_decide; [|done]. intros ?%lookup_lt_Some. lia. Qed.

Lemma zget_lt {X} (l : list X) i : 0 <= i < Z.of_nat (length l) -> exists x, zget l i = Some x.
Proof. intros Hi. unfold zget. rewrite decide_True by lia. apply lookup_lt_exists. lia. Qed.

Lemma zset_lt {X} (l : list X) i x : 0 <= i < Z.of_nat (length l) -> zset l i x = Some (<[Z.to_nat i := x]> l).
Proof. intros Hi. unfold zset. rewrite decide_True by lia. apply vset_Some. lia. Qed.

Lemma zget_insert {X} (l : list X) i j x : 0 <= i < Z.of_nat (length l) ->
  zget (<[Z.to_nat i := x]> l) j = if decide (i = j) then Some x else zget l j.
Proof.
  intros Hi. unfold zget. repeat case_decide; subst; try lia; try done.
  - by rewrite list_lookup_insert_eq by lia.
  - by rewrite list_lookup_insert_ne by lia.
Qed.

Lemma zget_elem {X} (l : list X) i x : zget l i = Some x -> x ∈ l.
Proof. unfold zget. case_decide; [apply list_elem_of_lookup_2|done]. Qed.

Lemma elem_insert {X} (l : list X) i x y : y ∈ <[i := x]> l -> y = x \/ y ∈ l.
Proof.
  intros [j Hj]%list_elem_of_lookup. destruct (decide (i = j)) as [->|Hne].
  - destruct (decide (j < length l)%nat).
    + rewrite list_lookup_insert_eq in Hj by done. simplify_eq. by left.
    + rewrite list_insert_ge in Hj by lia. right. by eapply list_elem_of_lookup_2.
  - rewrite list_lookup_insert_ne in Hj by done. right. by eapply list_elem_of_lookup_2.
Qed.

Lemma map_insert_id {X Y} (f : X -> Y) l i x x' : zget l i = Some x -> f x' = f x ->
  map f (<[Z.to_nat i := x']> l) = map f l.
Proof.
  unfold zget. case_decide; [|done]. intros Hl Hf.
  change (f <$> <[Z.to_nat i := x']> l = f <$> l). rewrite list_fmap_insert, Hf.
  apply list_insert_id. by rewrite list_lookup_fmap, Hl.
Qed.

Lemma wp_cur_idx s (Q : Z -> TSOTraceBuilder -> Prop) : core_inv (view s) -> Q (prefix_idx s) s -> wp cur_idx Q s.
Proof.
  intros Hc HQ. pose proof (ci_idx _ Hc) as Hi. simpl in Hi. rewrite length_map in Hi.
  unfold cur_idx, pfx_len. wp_gets. wp_assert; [by apply bool_decide_eq_true; lia|]. wp_gets.
  wp_assert; [|done]. apply bool_decide_eq_true. unfold buf_len. lia.
Qed.

Lemma wp_pfx s i e (Q : Event -> TSOTraceBuilder -> Prop) :
  zget (events (prefix s)) i = Some e -> Q e s -> wp (pfx i) Q s.
Proof. intros He HQ. unfold pfx. wp_gets. by eapply wp_lift. Qed.

Lemma cur_event s : core_inv (view s) -> exists e, zget (events (prefix s)) (prefix_idx s) = Some e /\
  0 <= iid_pid (iid e) < Z.of_nat (length (threads s)).
Proof.
  intros Hc. pose proof (ci_idx _ Hc) as Hi. simpl in Hi. rewrite length_map in Hi.
  destruct (zget_lt (events (prefix s)) (prefix_idx s)) as [e He]; [done|]. exists e. split; [done|].
  pose proof (ci_pids _ Hc) as Hp. simpl in Hp. rewrite length_map in Hp.
  apply (Hp (Z.to_nat (prefix_idx s))). rewrite list_lookup_fmap. unfold zget in He.
  by rewrite decide_True in He by lia; rewrite He.
Qed.

Lemma wp_curev s (Q : Event -> TSOTraceBuilder -> Prop) : core_inv (view s) ->
  (forall e, zget (events (prefix s)) (prefix_idx s) = Some e -> Q e s) -> wp curev Q s.
Proof.
  intros Hc HQ. destruct (cur_event s Hc) as (e & He & _).
  unfold curev. apply wp_bind, wp_cur_idx; [done|]. eapply wp_pfx; eauto.
Qed.

(** Replacing an event whose identifier and stores stay. *)
Record same_event (v : View) (e e' : Event) : Prop := {
  se_iid : iid e' = iid e;
  se_obs : forall b, observable (sym e) b -> observable (sym e') b;
  se_len : length (sym e') = length (sym e);
  se_ok : event_ok v e';
}.

Lemma wp_pfx_upd s i e f (Q : unit -> TSOTraceBuilder -> Prop) :
  aux_inv s -> zget (events (prefix s)) i = Some e -> same_event (view s) e (f e) ->
  (forall s', frame s s' -> aux_inv s' -> zget (events (prefix s')) i = Some (f e) ->
     (forall j, j <> i -> zget (events (prefix s')) j = zget (events (prefix s)) j) ->
     threads s' = threads s -> Q tt s') ->
  wp (pfx_upd i f) Q s.
Proof.
  intros Ha He [Hi Hobs Hlen Hok] HQ. pose proof (zget_Some _ _ _ He) as Hlt. unfold pfx_upd. wp_gets.
  apply wp_bind. eapply wp_lift; [done|]. apply wp_bind. eapply wp_lift; [by apply zset_lt|].
  apply wp_modify.
  assert (Hview : view (set_prefix (MkBuffer (wtree (prefix s)) (<[Z.to_nat i := f e]> (events (prefix s)))) s) = view s).
  { unfold view. simpl. f_equal. by apply (map_insert_id iid _ _ e). }
  apply HQ; simpl; try done.
  - split; [done|]. split; [done|by apply (map_insert_id iid _ _ e)|done|done| |].
    + intros j x Hx. simpl. rewrite zget_insert by done. case_decide; [|by eauto].
      subst. rewrite He in Hx. simplify_eq. eauto.
    + unfold synced. simpl. intros Hsy x. rewrite zget_insert by done. case_decide; [|apply Hsy].
      subst. intros [= <-]. rewrite Hlen. by apply Hsy.
  - split; simpl; [apply Ha| |].
    + intros x [->|Hx]%elem_insert; rewrite Hview; [done|by apply Ha].
    + pose proof (ax_branch _ Ha) as Hb. unfold buf_inv, buf_len in *. simpl. by rewrite length_insert.
  - rewrite zget_insert by done. by rewrite decide_True.
  - intros j Hj. rewrite zget_insert by done. by rewrite decide_False.
Qed.

Lemma wp_curev_upd s f (Q : unit -> TSOTraceBuilder -> Prop) :
  core_inv (view s) -> aux_inv s ->
  (forall e, zget (events (prefix s)) (prefix_idx s) = Some e -> same_event (view s) e (f e)) ->
  (forall e s', zget (events (prefix s)) (prefix_idx s) = Some e ->
     frame s s' -> aux_inv s' -> zget (events (prefix s')) (prefix_idx s) = Some (f e) ->
     threads s' = threads s -> Q tt s') ->
  wp (curev_upd f) Q s.
Proof.
  intros Hc Ha Hse HQ. destruct (cur_event s Hc) as (e & He & _).
  unfold curev_upd. apply wp_bind, wp_cur_idx; [done|]. eapply wp_pfx_upd; eauto.
Qed.

Lemma event_ok_elem s i e : aux_inv s -> zget (events (prefix s)) i = Some e -> event_ok (view s) e.
Proof. intros Ha He. by eapply ax_event, zget_elem. Qed.

Lemma wp_thread s p (Q : Thread -> TSOTraceBuilder -> Prop) t :
  zget (threads s) p = Some t -> Q t s -> wp (thread p) Q s.
Proof. intros Ht HQ. unfold thread. wp_gets. by eapply wp_lift. Qed.

(** Steps that leave the prefix alone. *)
Lemma run_prefix s s' : prefix s' = prefix s -> prefix_idx s' = prefix_idx s -> sym_idx s' = sym_idx s ->
  dryrun s' = dryrun s -> replay s' = replay s -> run s s'.
Proof.
  intros Hp Hi Hs Hd Hr. split; [done|by rewrite Hp|done|by rewrite Hp| |].
  - rewrite Hp. eauto.
  - unfold synced. by rewrite Hp, Hi, Hs.
Qed.

(** Changing what [view] does not show of a thread. *)
Lemma wp_thread_upd s p t f (Q : unit -> TSOTraceBuilder -> Prop) :
  aux_inv s -> zget (threads s) p = Some t -> tview (f t) = tview t -> sleep_inv (f t) ->
  (forall s', frame s s' -> aux_inv s' -> threads s' = <[Z.to_nat p := f t]> (threads s) ->
     prefix s' = prefix s -> Q tt s') ->
  wp (thread_upd p f) Q s.
Proof.
  intros Ha Ht Hv Hs HQ. pose proof (zget_Some _ _ _ Ht) as Hlt. unfold thread_upd. wp_gets.
  apply wp_bind. eapply wp_lift; [done|]. apply wp_bind. eapply wp_lift; [by apply zset_lt|].
  apply wp_modify.
  assert (Hview : view (set_threads (<[Z.to_nat p := f t]> (threads s)) s) = view s).
  { unfold view. simpl. f_equal. by apply (map_insert_id tview _ _ t). }
  apply HQ; try done.
  - split; [done|apply run_prefix; done].
  - split; simpl; [|rewrite Hview; apply Ha|apply Ha]. apply Forall_insert; [apply Ha|done].
Qed.

(** ** Races and edges

    [stays s Q]: whatever a step that keeps the frame and the auxiliary
    invariant reaches. *)
Definition stays (s : TSOTraceBuilder) (Q : TSOTraceBuilder -> Prop) : Prop :=
  forall s', frame s s' -> aux_inv s' -> threads s' = threads s -> Q s'.

Lemma same_event_meta v e e' : event_ok v e -> iid e' = iid e -> sym e' = sym e ->
  ev_wakeup e' = ev_wakeup e -> happens_after_later e' = happens_after_later e -> same_event v e e'.
Proof.
  intros [Hw Hl Hb Hd] Hi Hs Hw' Hl'. split; [done|by rewrite Hs|by rewrite Hs|].
  split; [by rewrite Hw'|by rewrite Hl'|by rewrite Hl'|by rewrite Hs].
Qed.

Lemma wp_curev_meta s f (Q : unit -> TSOTraceBuilder -> Prop) :
  core_inv (view s) -> aux_inv s ->
  (forall e, iid (f e) = iid e /\ sym (f e) = sym e /\ ev_wakeup (f e) = ev_wakeup e /\
     happens_after_later (f e) = happens_after_later e) ->
  stays s (Q tt) -> wp (curev_upd f) Q s.
Proof.
  intros Hc Ha Hf HQ. apply wp_curev_upd; [done|done| |].
  - intros e He. destruct (Hf e) as (? & ? & ? & ?). by apply same_event_meta; [eapply event_ok_elem|..].
  - intros e s' He Hfr Ha' _ Ht. by apply HQ.
Qed.

Lemma wp_pfx_meta s i f (Q : unit -> TSOTraceBuilder -> Prop) e :
  zget (events (prefix s)) i = Some e -> aux_inv s ->
  (iid (f e) = iid e /\ sym (f e) = sym e /\ ev_wakeup (f e) = ev_wakeup e /\
     happens_after_later (f e) = happens_after_later e) ->
  stays s (Q tt) -> wp (pfx_upd i f) Q s.
Proof.
  intros He Ha (? & ? & ? & ?) HQ. eapply wp_pfx_upd; [done|done| |].
  - by apply same_event_meta; [eapply event_ok_elem|..].
  - intros s' Hfr Ha' _ _ Ht. by apply HQ.
Qed.

Lemma wp_assert_conflict s i j (Q : unit -> TSOTraceBuilder -> Prop) : Q tt s -> wp (assert_conflict conf i j) Q s.
Proof. unfold assert_conflict. by rewrite Hchecks. Qed.

Lemma wp_when b m (Q : unit -> TSOTraceBuilder -> Prop) s :
  (b = true -> wp m Q s) -> (b = false -> Q tt s) -> wp (when b m) Q s.
Proof. intros H1 H2. destruct b; [by apply H1|by apply H2]. Qed.

Lemma stays_refl s (Q : TSOTraceBuilder -> Prop) : aux_inv s -> stays s Q -> Q s.
Proof. intros Ha HQ. by apply HQ; [apply frame_refl|..]. Qed.

Lemma wp_add_noblock_race s e (Q : unit -> TSOTraceBuilder -> Prop) :
  core_inv (view s) -> aux_inv s -> 0 <= e < prefix_idx s -> stays s (Q tt) ->
  wp (add_noblock_race conf e) Q s.
Proof.
  intros Hc Ha He HQ. unfold add_noblock_race. wp_gets.
  wp_assert; [by apply bool_decide_eq_true; lia|]. wp_assert; [by apply bool_decide_eq_true; lia|].
  apply wp_bind, wp_assert_conflict, wp_bind, wp_curev; [done|]. intros ev Hev.
  apply wp_when; intros _; [|by apply stays_refl].
  by apply wp_curev_meta.
Qed.

Lemma wp_add_lock_suc_race s l u (Q : unit -> TSOTraceBuilder -> Prop) :
  core_inv (view s) -> aux_inv s -> 0 <= l < u -> u < prefix_idx s -> stays s (Q tt) ->
  wp (add_lock_suc_race l u) Q s.
Proof.
  intros Hc Ha Hl Hu HQ. unfold add_lock_suc_race. wp_gets.
  do 3 (wp_assert; [by apply bool_decide_eq_true; lia|]). by apply wp_curev_meta.
Qed.

Lemma wp_add_observed_race s a b (Q : unit -> TSOTraceBuilder -> Prop) :
  core_inv (view s) -> aux_inv s -> 0 <= a < b -> b < prefix_idx s -> stays s (Q tt) ->
  wp (add_observed_race conf a b) Q s.
Proof.
  intros Hc Ha Hab Hb HQ. unfold add_observed_race. wp_gets.
  do 3 (wp_assert; [by apply bool_decide_eq_true; lia|]).
  apply wp_bind, wp_assert_conflict, wp_bind, wp_assert_conflict.
  pose proof (ci_idx _ Hc) as Hi. simpl in Hi. rewrite length_map in Hi.
  destruct (zget_lt (events (prefix s)) b) as [ev Hev]; [lia|].
  apply wp_bind. eapply wp_pfx; [done|]. apply wp_when; intros _; [|by apply stays_refl].
  by eapply wp_pfx_meta.
Qed.

Lemma wp_add_happens_after s x y (Q : unit -> TSOTraceBuilder -> Prop) :
  core_inv (view s) -> aux_inv s -> 0 <= y < x -> x <= prefix_idx s -> stays s (Q tt) ->
  wp (add_happens_after x y) Q s.
Proof.
  intros Hc Ha Hy Hx HQ. pose proof (ci_idx _ Hc) as Hi. pose proof (ci_small _ Hc) as Hs.
  simpl in Hi, Hs. rewrite length_map in Hi, Hs. unfold add_happens_after.
  change (2 ^ 31) with 2147483648 in Hs.
  rewrite !wrapu_id by (change (2 ^ 32) with 4294967296; lia). unfold UINT32_MAX. wp_gets.
  do 5 (wp_assert; [by apply bool_decide_eq_true; lia|]).
  destruct (zget_lt (events (prefix s)) x) as [ev Hev]; [lia|].
  apply wp_bind. eapply wp_pfx; [done|]. apply wp_when; intros _; [|by apply stays_refl].
  by eapply wp_pfx_meta.
Qed.

Lemma zget_tview s p t : zget (threads s) p = Some t -> zget (v_threads (view s)) p = Some (tview t).
Proof. intros Ht. simpl. by rewrite zget_map, Ht. Qed.

Lemma vback_elem {X} (l : list X) x : vback l = Some x -> x ∈ l.
Proof. intros (w & ->)%vback_snoc_inv. apply elem_of_app. right. by constructor. Qed.

(** The last event of another thread. *)
Lemma wp_add_happens_after_thread s p t (Q : unit -> TSOTraceBuilder -> Prop) :
  core_inv (view s) -> aux_inv s -> zget (threads s) p = Some t ->
  ~ event_of (view s) (prefix_idx s) p -> stays s (Q tt) ->
  wp (add_happens_after_thread (prefix_idx s) p) Q s.
Proof.
  intros Hc Ha Ht Hother HQ. unfold add_happens_after_thread. wp_gets.
  wp_assert; [by apply bool_decide_eq_true|]. apply wp_bind. eapply wp_thread; [done|].
  destruct (vback (event_indices t)) as [last|] eqn:E; [|by apply stays_refl].
  apply vback_elem in E. pose proof (ci_indices _ Hc p (tview t) last) as Hev.
  destruct Hev as [[H0 H1] Hp]; [by apply zget_tview|done|]. simpl in H1.
  assert (last <> prefix_idx s). { intros ->. by apply Hother. }
  apply wp_add_happens_after; [done|done|lia|lia|done].
Qed.

Lemma frame_idx s s' : frame s s' -> prefix_idx s' = prefix_idx s.
Proof. intros [Hv _]. by inversion Hv. Qed.

(** The two batches of races at the end of a method. *)
Definition seen_ok (v : View) (seen : list Z) : Prop :=
  sorted seen /\ forall i, i ∈ seen -> maybe_event v i.
Definition pairs_ok (v : View) (pairs : list (Z * Z)) : Prop :=
  sorted pairs /\ forall p, p ∈ pairs -> 0 <= p.1 < p.2 /\ p.2 < v_idx v.

Lemma stays_trans s s1 Q : frame s s1 -> threads s1 = threads s ->
  stays s Q -> stays s1 Q.
Proof. intros Hf Ht HQ s' Hf' Ha' Ht'. apply HQ; [by eapply frame_trans|done|congruence]. Qed.

Lemma wp_stays_each {A} (P : A -> Prop) (l : list A) body s (Q : unit -> TSOTraceBuilder -> Prop) :
  core_inv (view s) -> aux_inv s -> (forall x, x ∈ l -> P x) ->
  (forall x s1 (R : unit -> TSOTraceBuilder -> Prop), core_inv (view s1) -> aux_inv s1 ->
     prefix_idx s1 = prefix_idx s -> P x -> stays s1 (R tt) -> wp (body x) R s1) ->
  stays s (Q tt) -> wp (each l body) Q s.
Proof.
  intros Hc Ha Hl Hb HQ.
  eapply wp_mono; [apply (wp_each (fun l' s' => (forall x, x ∈ l' -> P x) /\ frame s s' /\ aux_inv s' /\
    threads s' = threads s))|].
  - split_and!; [done|apply frame_refl|done|done].
  - intros x l' s1 (Hx & Hf & Ha1 & Ht1). apply Hb.
    + by rewrite (fr_view _ _ Hf).
    + done.
    + by apply frame_idx.
    + apply Hx. by constructor.
    + intros s2 Hf2 Ha2 Ht2. split_and!; [|by eapply frame_trans|done|congruence].
      intros y Hy. apply Hx. by constructor.
  - intros [] s' (_ & Hf & Ha' & Ht). by apply HQ.
Qed.

Lemma wp_see_events s seen (Q : unit -> TSOTraceBuilder -> Prop) :
  core_inv (view s) -> aux_inv s -> seen_ok (view s) seen -> stays s (Q tt) ->
  wp (see_events conf seen) Q s.
Proof.
  intros Hc Ha [_ Hseen] HQ. unfold see_events.
  eapply (wp_stays_each (maybe_event (view s))); [done..| |done].
  intros i s1 R Hc1 Ha1 Hi1 Hm HR. wp_gets. unfold maybe_event in Hm. simpl in Hm.
  case_decide; [by apply wp_ret, stays_refl|]. case_decide; [by apply wp_ret, stays_refl|].
  apply wp_add_noblock_race; [done|done|lia|done].
Qed.

Lemma wp_see_event_pairs s pairs (Q : unit -> TSOTraceBuilder -> Prop) :
  core_inv (view s) -> aux_inv s -> pairs_ok (view s) pairs -> stays s (Q tt) ->
  wp (see_event_pairs conf pairs) Q s.
Proof.
  intros Hc Ha [_ Hp] HQ. unfold see_event_pairs.
  eapply (wp_stays_each (fun p => 0 <= p.1 < p.2 /\ p.2 < prefix_idx s)); [done..| |done].
  intros [a b] s1 R Hc1 Ha1 Hi1 [H1 H2] HR. simpl in *.
  apply wp_add_observed_race; [done|done|lia|lia|done].
Qed.

(** ** Waking threads *)

Definition steps (s : TSOTraceBuilder) (Q : TSOTraceBuilder -> Prop) : Prop :=
  forall s', frame s s' -> aux_inv s' -> Q s'.

Lemma steps_stays s Q : steps s Q -> stays s Q.
Proof. intros HQ s' Hf Ha _. by apply HQ. Qed.
Lemma steps_refl s (Q : TSOTraceBuilder -> Prop) : aux_inv s -> steps s Q -> Q s.
Proof. intros Ha HQ. by apply HQ; [apply frame_refl|..]. Qed.
Lemma steps_trans s s1 Q : frame s s1 -> steps s Q -> steps s1 Q.
Proof. intros Hf HQ s' Hf' Ha'. apply HQ; [by eapply frame_trans|done]. Qed.

Lemma in_set_spec v a : sorted v -> in_set v a = Some (bool_decide (a ∈ v)).
Proof.
  intros Hv. unfold in_set. rewrite count_spec by done. cbn [mbind option_bind].
  destruct (decide (a ∈ v)); [rewrite (bool_decide_true (a ∈ v)) by done|rewrite (bool_decide_false (a ∈ v)) by done]; done.
Qed.

Lemma wakes_sleeping ty ml pid p t : sleep_inv t -> ty <> NA ->
  exists b, wakes ty ml pid p t = Some b /\ (b = true -> sleeping t = true).
Proof.
  intros [Hr Hw Hawake] Hty.
  assert (Hno : sleeping t = false -> forall a, bool_decide (a ∈ sleep_accesses_w t) = false /\
    bool_decide (a ∈ sleep_accesses_r t) = false).
  { intros Hs a. destruct (Hawake Hs) as (-> & -> & _). by rewrite !bool_decide_false by (by intros ?%not_elem_of_nil). }
  assert (Hcase : forall b, (sleeping t = false -> b = false) -> exists b', Some b = Some b' /\ (b' = true -> sleeping t = true)).
  { intros b Hb. exists b. split; [done|]. intros ->. destruct (sleeping t); [done|]. by discriminate Hb. }
  destruct ty; unfold wakes; [| | |done].
  - destruct (sleep_full_memory_conflict t) eqn:Ef.
    { apply Hcase. intros Hs. destruct (Hawake Hs) as (_ & _ & Hf). congruence. }
    destruct (bool_decide (p <> pid + 1)); [|by apply Hcase].
    rewrite in_set_spec by done. apply Hcase. intros Hs. apply (Hno Hs).
  - destruct (sleep_full_memory_conflict t) eqn:Ef.
    { apply Hcase. intros Hs. destruct (Hawake Hs) as (_ & _ & Hf). congruence. }
    destruct (bool_decide (p + 1 <> pid)); [|by apply Hcase].
    rewrite (in_set_spec (sleep_accesses_w t)), (in_set_spec (sleep_accesses_r t)) by done.
    cbn [mbind option_bind].
    destruct (bool_decide (ml ∈ sleep_accesses_w t)) eqn:Ew.
    + apply Hcase. intros Hs. destruct (Hno Hs ml). congruence.
    + cbn [mbind option_bind]. apply Hcase. intros Hs. by destruct (Hno Hs ml) as [_ ->].
  - apply Hcase. intros Hs. by destruct (Hawake Hs) as (-> & -> & ->).
Qed.

Lemma wakeup_list_spec ty ml pid ts : forall p, Forall sleep_inv ts -> ty <> NA ->
  exists l, wakeup_list ty ml pid p ts = Some l /\ NoDup l /\
    forall q, q ∈ l -> p <= q /\ exists t, zget ts (q - p) = Some t /\ sleeping t = true.
Proof.
  induction ts as [|t ts IH]; intros p Hs Hty; cbn [wakeup_list].
  { exists []. split_and!; [done|constructor|by intros q ?%not_elem_of_nil]. }
  apply Forall_cons in Hs as [Ht Hs]. destruct (wakes_sleeping ty ml pid p t Ht Hty) as (b & -> & Hb).
  destruct (IH (p + 1) Hs Hty) as (l & -> & Hnd & Hl). cbn [mbind option_bind].
  assert (Hrest : forall q, q ∈ l -> p < q /\ exists t', zget (t :: ts) (q - p) = Some t' /\ sleeping t' = true).
  { intros q Hq. destruct (Hl q Hq) as (Hpq & t' & Ht' & Hst). split; [lia|]. exists t'. split; [|done].
    unfold zget in Ht' |- *. rewrite decide_True in Ht' by lia. rewrite decide_True by lia.
    replace (Z.to_nat (q - p)) with (S (Z.to_nat (q - (p + 1)))) by lia. done. }
  destruct b.
  - exists (p :: l). split_and!; [done| |].
    + constructor; [|done]. intros Hp. destruct (Hrest p Hp). lia.
    + intros q [->|Hq]%elem_of_cons; [|destruct (Hrest q Hq); split; [lia|done]].
      split; [lia|]. exists t. rewrite Z.sub_diag. split; [done|by apply Hb].
  - exists l. split_and!; [done..|]. intros q Hq. destruct (Hrest q Hq). split; [lia|done].
Qed.

Lemma wp_curpid s (Q : Z -> TSOTraceBuilder -> Prop) : core_inv (view s) ->
  (forall p, event_of (view s) (prefix_idx s) p -> 0 <= p < Z.of_nat (length (threads s)) -> Q p s) ->
  wp curpid Q s.
Proof.
  intros Hc HQ. destruct (cur_event s Hc) as (e & He & Hp). unfold curpid.
  apply wp_bind, wp_curev; [done|]. intros e' He'. rewrite He in He'. simplify_eq. apply wp_ret, HQ; [|done].
  split; [simpl; pose proof (ci_idx _ Hc); simpl in *; lia|]. unfold pid_of. simpl. by rewrite zget_map, He.
Qed.

Lemma wp_ins s v x (Q : list Z -> TSOTraceBuilder -> Prop) : sorted v ->
  (forall v', sorted v' -> (forall y, y ∈ v' <-> y = x \/ y ∈ v) -> Q v' s) -> wp (ins v x) Q s.
Proof.
  intros Hv HQ. destruct (insert_spec v x Hv) as (v' & i & Hins & _ & Hs & Hin & _).
  unfold ins. apply wp_bind. eapply wp_lift; [done|]. by apply wp_ret, HQ.
Qed.

Lemma wp_wakeup s ty ml (Q : unit -> TSOTraceBuilder -> Prop) :
  core_inv (view s) -> aux_inv s -> ty <> NA -> steps s (Q tt) -> wp (wakeup conf ty ml) Q s.
Proof.
  intros Hc Ha Hty HQ. unfold wakeup. apply wp_bind, wp_curpid; [done|]. intros pid Hpid Hrange. wp_gets.
  destruct (wakeup_list_spec ty ml pid (threads s) 0 (ax_sleep _ Ha) Hty) as (l & Hl & Hnd & Hsl).
  apply wp_bind. eapply wp_lift; [done|]. rewrite Hchecks. apply wp_bind, wp_when_false.
  eapply wp_mono; [apply (wp_each (fun l' s' => frame s s' /\ aux_inv s' /\ NoDup l' /\
    forall q, q ∈ l' -> exists t, zget (threads s') q = Some t /\ sleeping t = true))|].
  - split_and!; [apply frame_refl|done|done|]. intros q Hq. destruct (Hsl q Hq) as (_ & t & Ht & Hst).
    rewrite Z.sub_0_r in Ht. eauto.
  - intros q l' s1 (Hf & Ha1 & [Hq Hnd1]%NoDup_cons & Hall).
    destruct (Hall q) as (t & Ht & Hst); [by constructor|].
    assert (Hc1 : core_inv (view s1)) by (by rewrite (fr_view _ _ Hf)).
    apply wp_bind. eapply wp_thread; [done|]. wp_assert; [done|]. apply wp_bind.
    eapply wp_thread_upd; [done|done|done| |].
    { by split; simpl; [apply sorted_nil..|]. }
    intros s2 Hf2 Ha2 Ht2 Hp2. assert (Hc2 : core_inv (view s2)) by (by rewrite (fr_view _ _ Hf2)).
    apply wp_bind, wp_curev; [done|]. intros e He. pose proof (event_ok_elem _ _ _ Ha2 He) as [Hw Hlat Hb Hd].
    apply wp_bind, wp_ins; [done|]. intros w Hws _.
    apply wp_curev_upd; [done|done| |].
    { intros e' He'. rewrite He in He'. simplify_eq. split; [done|done|done|]. by split. }
    intros e' s3 _ Hf3 Ha3 _ Ht3. split_and!; [eapply frame_trans, Hf3; by eapply frame_trans|done|done|].
    intros q' Hq'. destruct (Hall q') as (t' & Ht' & Hst'); [by constructor|]. exists t'.
    rewrite Ht3, Ht2, zget_insert by (by eapply zget_Some). rewrite decide_False; [done|]. by intros ->.
  - intros [] s' (Hf & Ha' & _). by apply HQ.
Qed.

(** ** Observing *)

Lemma sym_ok_addr e : sym_ok e -> symev_does_store e = true -> exists a, ev_addr e = Some a.
Proof. intros [Hd _] Hs. destruct (Hd Hs) as (a & bs & Hw). exists a. by eapply writes_addr. Qed.

Lemma store_of_data e a bs : symev_does_store e = true -> writes e a bs ->
  let e' := SymEv_Store (MkSymDataRef a (Some bs)) in
  ev_data e = Some (MkSymDataRef a (Some bs)) /\ ev_addr e = Some a /\ ev_addr e' = Some a /\
  symev_does_store e' = true /\ sym_ok e'.
Proof.
  intros Hs Hw e'. split_and!; [by apply (writes_data e a bs)|by apply (writes_addr e a bs)|done|done|].
  split; [|done]. intros _. exists a, bs. destruct Hw as (_ & _ & Hr). exact (conj eq_refl (conj eq_refl Hr)).
Qed.

Lemma observe_store_loop_spec ml revs : Forall sym_ok revs -> observable revs ml ->
  exists revs' b, observe_store_loop revs ml = Some (revs', b) /\ Forall sym_ok revs' /\
    length revs' = length revs /\ (forall x, observable revs x -> observable revs' x).
Proof.
  induction revs as [|e revs IH]; intros Hd Ho.
  { by destruct Ho as (e & a & ?%not_elem_of_nil & _). }
  apply Forall_cons in Hd as [He Hd]. cbn [observe_store_loop].
  destruct (symev_does_store e) eqn:Est.
  - destruct (proj1 He Est) as (a & bs & Hw). destruct (store_of_data e a bs Est Hw) as (Hdat & Ha & Ha' & Hs' & Hd').
    rewrite Ha. cbn [mbind option_bind].
    destruct (sas_includes a ml) eqn:Ei.
    + destruct (decide (ev_kind e = UNOBS_STORE)) as [Hk|Hk].
      * rewrite Hk. cbn [mbind option_bind].
        rewrite Hdat. cbn [mbind option_bind]. eexists _, true. split; [done|]. split; [by constructor|]. split; [done|].
        intros x (e2 & a2 & [->|Hin]%elem_of_cons & Hs2 & Ha2 & Hi2).
        -- eexists _, a. split_and!; [apply list_elem_of_here|done|done|]. congruence.
        -- exists e2, a2. split_and!; [by apply list_elem_of_further|done..].
      * assert (Hstop : (match ev_kind e with STORE | RMW | CMPXHG | XCHG_AWAIT => Some true | _ => Some false end) = Some true).
        { unfold symev_does_store in Est. by destruct (ev_kind e). }
        rewrite Hstop. cbn [mbind option_bind]. exists (e :: revs), false. by split_and!; [|constructor|..].
    + assert (Hstop : (match ev_kind e with STORE | RMW | CMPXHG | XCHG_AWAIT => Some false | _ => Some false end) = Some false).
      { by destruct (ev_kind e). }
      rewrite Hstop. cbn [mbind option_bind].
      assert (Hun : (if decide (ev_kind e = UNOBS_STORE) then Some false else Some false) = Some false) by (by case_decide).
      rewrite Hun. cbn [mbind option_bind negb cassert].
      destruct IH as (revs' & b & -> & Hdr & Hlen & Hor); [done| |].
      { destruct Ho as (e2 & a2 & [->|Hin]%elem_of_cons & Hs2 & Ha2 & Hi2); [congruence|]. by exists e2, a2. }
      cbn [mbind option_bind fst snd]. exists (e :: revs'), b. split; [done|]. split; [by constructor|]. split; [by simpl; rewrite Hlen|].
      intros x (e2 & a2 & [->|Hin]%elem_of_cons & Hs2 & Ha2 & Hi2).
      * exists e, a2. split_and!; [apply list_elem_of_here|done..].
      * destruct (Hor x) as (e3 & a3 & ? & ?); [by exists e2, a2|]. exists e3, a3.
        by split; [apply list_elem_of_further|].
  - assert (Hstop : forall o : option bool, (match ev_kind e with STORE | RMW | CMPXHG | XCHG_AWAIT => o | _ => Some false end) = Some false).
    { intros o. unfold symev_does_store in Est. by destruct (ev_kind e). }
    rewrite Hstop. cbn [mbind option_bind].
    rewrite decide_False by (intros Hk; unfold symev_does_store in Est; by rewrite Hk in Est).
    cbn [mbind option_bind]. destruct IH as (revs' & b & -> & Hdr & Hlen & Hor); [done| |].
    { destruct Ho as (e2 & a2 & [->|Hin]%elem_of_cons & Hs2 & Ha2 & Hi2); [congruence|]. by exists e2, a2. }
    cbn [mbind option_bind fst snd]. exists (e :: revs'), b. split; [done|]. split; [by constructor|]. split; [by simpl; rewrite Hlen|].
    intros x (e2 & a2 & [->|Hin]%elem_of_cons & Hs2 & Ha2 & Hi2); [congruence|].
    destruct (Hor x) as (e3 & a3 & ? & ?); [by exists e2, a2|]. exists e3, a3.
    by split; [apply list_elem_of_further|].
Qed.

Lemma observable_reverse l x : observable (reverse l) x <-> observable l x.
Proof. unfold observable. by setoid_rewrite elem_of_reverse. Qed.

Lemma observe_store_spec ml syms : Forall sym_ok syms -> observable syms ml ->
  exists syms' b, observe_store syms ml = Some (syms', b) /\ Forall sym_ok syms' /\
    (forall x, observable syms x -> observable syms' x) /\ length syms' = length syms.
Proof.
  intros Hd Ho. destruct (observe_store_loop_spec ml (reverse syms)) as (r & b & Hr & Hdr & Hlen & Hor);
    [by apply Forall_reverse|by apply observable_reverse|].
  unfold observe_store. rewrite Hr. cbn [mbind option_bind fst snd]. exists (reverse r), b. split; [done|].
  split; [by apply Forall_reverse|]. split.
  - intros x Hx. apply observable_reverse, Hor. by apply observable_reverse.
  - by rewrite !length_reverse in *.
Qed.

Lemma to_vecset_spec set : exists v, to_vecset set = Some v /\ sorted v /\ forall x, x ∈ v <-> exists p : Z, (p, x) ∈ set.
Proof.
  unfold to_vecset.
  assert (Hgen : forall (set : list (Z * Z)) (acc : list Z), sorted acc -> exists v,
    for_each set (fun el ret => r ← insert ret el.2; Some r.1) acc = Some v /\ sorted v /\
    forall x, x ∈ v <-> x ∈ acc \/ exists p : Z, (p, x) ∈ set).
  { clear set. induction set as [|[p y] set IH]; intros acc Hs; cbn [for_each snd].
    - exists acc. split_and!; [done|done|]. intros x. split; [auto|]. intros [?|(p & ?%not_elem_of_nil)]; done.
    - destruct (insert_spec acc y Hs) as (v' & i & -> & _ & Hs' & Hin & _). cbn [mbind option_bind snd fst].
      destruct (IH v' Hs') as (v & -> & Hv & Hel). exists v. split_and!; [done|done|]. intros x.
      rewrite Hel, Hin. setoid_rewrite elem_of_cons. split.
      + intros [[->|?]|(q & ?)]; eauto.
      + intros [?|(q & [[= -> ->]|?])]; eauto. }
  destruct (Hgen set [] sorted_nil) as (v & Hv & Hs & Hel). exists v. split_and!; [done|done|].
  intros x. rewrite Hel, elem_of_nil. tauto.
Qed.

Lemma merge_sort_sorted_nodup l : NoDup l -> sorted (merge_sort Z.le l).
Proof.
  intros Hnd. assert (Hnd' : NoDup (merge_sort Z.le l)) by (by rewrite merge_sort_Permutation).
  pose proof (StronglySorted_merge_sort Z.le l) as Hs. unfold sorted.
  induction Hs as [|x k Hk IH Hx]; [constructor|]. apply NoDup_cons in Hnd' as [Hx' Hnd'].
  constructor; [by apply IH|]. rewrite Forall_forall in Hx |- *. intros y Hy.
  assert (x <> y) by congruence. specialize (Hx y Hy). unfold ltb, Z_ltb. lia.
Qed.

Lemma add_to_seen_spec (unordered : list (Z * Z)) (seen : list Z) : NoDup (map snd unordered) -> sorted seen ->
  exists v, add_to_seen unordered seen = Some v /\ sorted v /\
    forall x, x ∈ v <-> x ∈ seen \/ exists p : Z, (p, x) ∈ unordered.
Proof.
  intros Hnd Hs. unfold add_to_seen. pose proof (merge_sort_sorted_nodup _ Hnd) as Hms.
  rewrite (proj2 (check_invariant_sorted _) Hms). cbn [cassert mbind option_bind].
  rewrite insert_set_spec by done. cbn [mbind option_bind fst]. eexists. split; [done|].
  split; [by apply sorted_lunion|]. intros x. rewrite elem_of_lunion, merge_sort_Permutation.
  change (map snd unordered) with (snd <$> unordered). rewrite list_elem_of_fmap. split.
  - intros [?|([p y] & -> & ?)]; eauto.
  - intros [?|(p & ?)]; [by left|]. right. by exists (p, x).
Qed.

Lemma add_pairs_spec (P : Z * Z -> Prop) (unordered : list (Z * Z)) (lu : Z) (pairs : list (Z * Z)) : sorted pairs -> (forall q, q ∈ pairs -> P q) ->
  (forall p i, (p, i) ∈ unordered -> i <> lu -> P (i, lu)) ->
  exists v, for_each unordered (fun u pairs =>
      if decide (u.2 <> lu) then r ← insert pairs (u.2, lu); Some r.1 else Some pairs) pairs = Some v /\
    sorted v /\ forall q, q ∈ v -> P q.
Proof.
  revert pairs. induction unordered as [|[p i] un IH]; intros pairs Hs HP Hu; cbn [for_each]; [eauto|].
  cbn [snd]. case_decide as Hi.
  - destruct (insert_spec pairs (i, lu) Hs) as (v' & k & -> & _ & Hs' & Hin & _). cbn [mbind option_bind fst].
    apply IH; [done| |].
    + intros q [->|Hq]%Hin; [|by apply HP]. by apply (Hu p); [apply list_elem_of_here|].
    + intros p' i' Hin' Hne. apply (Hu p'); [by apply list_elem_of_further|done].
  - cbn [mbind option_bind]. apply IH; [done|done|]. intros p' i' Hin' Hne.
    apply (Hu p'); [by apply list_elem_of_further|done].
Qed.

Lemma byte_inv_idx v v' m : v_idx v' = v_idx v -> byte_inv v m -> byte_inv v' m.
Proof. intros Hi [H1 H2 H3 H4 H5]. unfold maybe_event in *. split; unfold maybe_event; by rewrite ?Hi. Qed.

Lemma seen_ok_insert v seen s' i : seen_ok v seen -> maybe_event v i ->
  (forall y, y ∈ s' <-> y = i \/ y ∈ seen) -> sorted s' -> seen_ok v s'.
Proof. intros [_ Hs] Hi Hel Hs'. split; [done|]. intros y [->|?]%Hel; auto. Qed.

Lemma wp_ins_seen s v seen i (Q : list Z -> TSOTraceBuilder -> Prop) : seen_ok v seen -> maybe_event v i ->
  (forall seen', seen_ok v seen' -> (forall y, y ∈ seen' <-> y = i \/ y ∈ seen) -> Q seen' s) -> wp (ins seen i) Q s.
Proof.
  intros Hs Hi HQ. apply wp_ins; [apply Hs|]. intros v' Hv' Hel. apply HQ; [|done]. by eapply seen_ok_insert.
Qed.

Lemma seen_ok_union v seen l : seen_ok v seen -> seen_ok v l -> seen_ok v (lunion seen l).
Proof.
  intros [Hs Hm] [Hs' Hm']. split; [by apply sorted_lunion|]. intros y [?|?]%elem_of_lunion; auto.
Qed.

Lemma insert_set_seen v seen l : seen_ok v seen -> seen_ok v l ->
  exists n, insert_set seen l = Some (lunion seen l, n).
Proof. intros [Hs _] [Hs' _]. rewrite insert_set_spec by done. eauto. Qed.

(** What [observe_memory] does to the byte and to the two sets. *)
Record observed (v : View) (m m' : ByteInfo) (upd : bool) : Prop := {
  ob_inv : byte_inv v m';
  ob_last : last_update m' = last_update m;
  ob_read : last_read m' = last_read m;
  ob_empty : upd = true -> unordered_updates m' = [];
}.

Lemma unordered_empty v m : byte_inv v m -> last_update m < 0 -> unordered_updates m = [].
Proof.
  intros Hm Hlu. destruct (unordered_updates m) as [|[p i] l] eqn:E; [done|].
  destruct (bi_unordered _ _ Hm p i); [rewrite E; by left|lia].
Qed.

Lemma observed_set v m bu : byte_inv v m -> seen_ok v bu -> (forall i, i ∈ bu -> 0 <= i <= v_idx v) ->
  forall upd, observed v m (set_before_unordered bu (set_unordered_updates [] m)) upd.
Proof.
  intros [H1 H2 H3 H4 H5] [Hs _] Hb upd. split; [|done..]. split; simpl; [done|done| |constructor|done].
  by intros p i ?%not_elem_of_nil.
Qed.

(** Events that [observe_store] rewrites stay what they were. *)
Lemma wp_observe s lu b (Q : bool -> TSOTraceBuilder -> Prop) e :
  aux_inv s -> zget (events (prefix s)) lu = Some e ->
  (dpor_algorithm conf = OBSERVERS -> observable (sym e) b) -> stays s (fun s' => forall o, (o = true -> dpor_algorithm conf = OBSERVERS) -> Q o s') ->
  wp (if decide (dpor_algorithm conf = OBSERVERS) then
        o ← lift (observe_store (sym e) b); _ ← pfx_upd lu (set_sym o.1); mret o.2
      else mret false) Q s.
Proof.
  intros Ha He Ho HQ. case_decide as Hobs; [|by apply wp_ret; apply (stays_refl s _ Ha HQ)].
  pose proof (event_ok_elem _ _ _ Ha He) as [Hw Hl Hb Hd].
  destruct (observe_store_spec b (sym e) Hd (Ho Hobs)) as (syms' & o & Hos & Hd' & Hmono & Hlen).
  apply wp_bind. eapply wp_lift; [done|]. apply wp_bind. eapply wp_pfx_upd; [done|done| |].
  - split; [done|done|done|]. by split.
  - intros s' Hf Ha' _ _ Ht. apply wp_ret. by apply HQ.
Qed.

Lemma seen_ok_list v l : sorted l -> (forall i, i ∈ l -> 0 <= i <= v_idx v) -> seen_ok v l.
Proof. intros Hs Hl. split; [done|]. intros i Hi. specialize (Hl i Hi). unfold maybe_event. lia. Qed.

Lemma wp_observe_memory s b m seen pairs upd
    (Q : ByteInfo * (list Z * list (Z * Z)) -> TSOTraceBuilder -> Prop) :
  core_inv (view s) -> aux_inv s -> byte_inv (view s) m -> byte_observable s b m ->
  seen_ok (view s) seen -> pairs_ok (view s) pairs ->
  (dpor_algorithm conf = OBSERVERS -> last_update m < prefix_idx s) ->
  (forall m' seen' pairs', observed (view s) m m' upd -> seen_ok (view s) seen' -> pairs_ok (view s) pairs' ->
     stays s (Q (m', (seen', pairs')))) ->
  wp (observe_memory conf b m seen pairs upd) Q s.
Proof.
  intros Hc Ha Hm Hbo Hseen Hpairs Hlt HQ. unfold observe_memory.
  apply wp_bind, wp_curpid; [done|]. intros ipid _ _.
  pose proof (bi_update _ _ Hm) as [_ Hlu]. simpl in Hlu. apply wp_bind.
  assert (Hdone : forall m' seen' pairs', observed (view s) m m' upd -> seen_ok (view s) seen' ->
    pairs_ok (view s) pairs' -> forall s', frame s s' -> aux_inv s' -> threads s' = threads s ->
    wp (_ ← massert (negb upd || bool_decide (unordered_updates m' = [])); mret (m', (seen', pairs'))) Q s').
  { intros m' seen' pairs' Hob Hs' Hp' s' Hf Ha' Ht. wp_assert; [|by apply wp_ret, HQ].
    destruct upd; [|done]. simpl. apply bool_decide_eq_true. by apply (ob_empty _ _ _ _ Hob). }
  destruct (decide (0 <= last_update m)) as [H0|H0].
  2:{ apply wp_ret. apply Hdone; [|done|done|apply frame_refl|done|done]. split; [done..|].
      intros _. eapply unordered_empty; [exact Hm|by apply Z.nle_gt]. }
  pose proof (ci_idx _ Hc) as Hi. simpl in Hi. rewrite length_map in Hi.
  destruct (zget_lt (events (prefix s)) (last_update m)) as [e He]; [lia|].
  apply wp_bind. eapply wp_pfx; [done|]. cbv zeta.
  assert (Hrest : forall seen1, seen_ok (view s) seen1 ->
    wp (obs ← (if decide (dpor_algorithm conf = OBSERVERS) then
            o ← lift (observe_store (sym e) b); _ ← pfx_upd (last_update m) (set_sym o.1); mret o.2
          else mret false);
        if obs : bool then
          pairs ← lift (for_each (unordered_updates m) (fun u pairs =>
             if decide (u.2 <> last_update m) then r ← insert pairs (u.2, last_update m); Some r.1 else Some pairs) pairs);
          mret (set_before_unordered [last_update m] (set_unordered_updates [] m), (seen1, pairs))
        else if upd then
          bu ← lift (to_vecset (unordered_updates m));
          let bu := if decide (bu = [] /\ 0 <= last_update m) then [last_update m] else bu in
          s ← lift (insert_set seen1 bu);
          mret (set_before_unordered bu (set_unordered_updates [] m), (s.1, pairs))
        else
          s ← lift (add_to_seen (unordered_updates m) seen1);
          mret (m, (s, pairs)))
      (fun r s' => wp (_ ← massert (negb upd || bool_decide (unordered_updates r.1 = [])); mret r) Q s') s).
  2:{ apply wp_bind. destruct (decide (real_of (iid_pid (iid e)) <> ipid)).
      - eapply wp_ins_seen; [done|by apply bi_update|]. intros seen1 Hs1 _. by apply Hrest.
      - apply wp_ret. by apply Hrest. }
  clear Hseen. intros seen1 Hseen.
  apply wp_bind. eapply wp_observe; [done|done| |].
  { intros Hobs. destruct (Hbo Hobs H0) as (e' & He' & Ho). rewrite He in He'. by simplify_eq. }
  intros s1 Hf1 Ha1 Ht1 o Hobs. destruct o; [specialize (Hobs eq_refl)|destruct upd].
  - destruct (add_pairs_spec (fun q => 0 <= q.1 < q.2 /\ q.2 < prefix_idx s) (unordered_updates m)
      (last_update m) pairs) as (pairs' & Hp & Hps & Hpe); [apply Hpairs|apply Hpairs| |].
    { intros p i Hpi Hne. pose proof (bi_unordered _ _ Hm p i Hpi). simpl in *. specialize (Hlt Hobs). lia. }
    apply wp_bind. eapply wp_lift; [exact Hp|]. apply wp_ret. apply Hdone; [|done|by split|done..].
    apply observed_set; [done| |].
    + apply seen_ok_list; [by repeat constructor|]. by intros i ->%list_elem_of_singleton.
    + by intros i ->%list_elem_of_singleton.
  - destruct (to_vecset_spec (unordered_updates m)) as (bu & -> & Hbs & Hbe).
    apply wp_bind. eapply wp_lift; [done|]. cbv zeta.
    assert (Hbu : forall i, i ∈ (if decide (bu = [] /\ 0 <= last_update m) then [last_update m] else bu) ->
      0 <= i <= v_idx (view s)).
    { intros i. case_decide; [by intros ->%list_elem_of_singleton|].
      intros (p & Hp)%Hbe. pose proof (bi_unordered _ _ Hm p i Hp). simpl. lia. }
    assert (Hbo' : seen_ok (view s) (if decide (bu = [] /\ 0 <= last_update m) then [last_update m] else bu)).
    { apply seen_ok_list; [|done]. case_decide; [by repeat constructor|done]. }
    destruct (insert_set_seen (view s) seen1 _ Hseen Hbo') as [n Hn].
    apply wp_bind. eapply wp_lift; [exact Hn|]. apply wp_ret.
    apply Hdone; [by apply observed_set|by apply seen_ok_union|done..].
  - destruct (add_to_seen_spec (unordered_updates m) seen1) as (seen2 & Hs2 & Hss & Hse);
      [apply Hm|apply Hseen|].
    apply wp_bind. eapply wp_lift; [exact Hs2|]. apply wp_ret. apply Hdone; [by split| |done..].
    split; [done|]. intros i [Hi'|(p & Hp)]%Hse; [by apply Hseen|].
    pose proof (bi_unordered _ _ Hm p i Hp). unfold maybe_event. simpl. lia.
Qed.

End inv.
