(* ===== verification/TSOMem.v ===== *)
(** * TSOMem: the memory methods of the TSO trace builder keep its invariant

    For the methods of TSOHandlers.v that a memory instruction calls: no
    assertion fails, no table is accessed out of range, and the invariant of
    TSOInv.v holds again when the method returns. *)

From stdpp Require Import sorting.
From S2P Require Import Prelude StdMap VecSet CPid SymAddr ByteOps SymEv ReplayMem WakeupTree TSOState TSOOps.
From S2P Require Import TSOHandlers TSOInv.

Local Open Scope Z_scope.

(** ** Replacing one table *)

Definition view_with_mem (ms : list (SymAddr * ByteInfo)) (v : View) : View :=
  MkView (v_idx v) (v_lfmc v) ms (v_mutexes v) (v_conds v) (v_cps v) (v_threads v) (v_iids v) (v_dry v) (v_replay v).
Definition view_with_lfmc (i : Z) (v : View) : View :=
  MkView (v_idx v) i (v_mem v) (v_mutexes v) (v_conds v) (v_cps v) (v_threads v) (v_iids v) (v_dry v) (v_replay v).
Definition view_with_mutexes (xs : list (SymAddr * Mutex)) (v : View) : View :=
  MkView (v_idx v) (v_lfmc v) (v_mem v) xs (v_conds v) (v_cps v) (v_threads v) (v_iids v) (v_dry v) (v_replay v).
Definition view_with_waits (cs : list (SymAddr * CondVar)) (ts : list TView) (v : View) : View :=
  MkView (v_idx v) (v_lfmc v) (v_mem v) (v_mutexes v) cs (v_cps v) ts (v_iids v) (v_dry v) (v_replay v).

Lemma pending_inv_iids v v' p ps : v_idx v' = v_idx v -> v_iids v' = v_iids v -> pending_inv v p ps -> pending_inv v' p ps.
Proof.
  intros Hi Hd [H1 H2 H3]. unfold event_of, maybe_event, pid_of in *.
  split; unfold event_of, maybe_event, pid_of; by rewrite ?Hi, ?Hd.
Qed.

Lemma mutex_inv_idx v v' x : v_idx v' = v_idx v -> mutex_inv v x -> mutex_inv v' x.
Proof. intros Hi [H1 H2 H3 H4]. unfold maybe_event in *. split; unfold maybe_event; by rewrite ?Hi. Qed.

Lemma core_with_mem v ms : core_inv v -> (forall b m, (b, m) ∈ ms -> byte_inv v m) -> core_inv (view_with_mem ms v).
Proof.
  intros [] Hms. split; try done.
  - intros p t ps Ht Hps. eapply pending_inv_iids; [..|by eapply ci_pending]; done.
  - intros b m Hbm. eapply byte_inv_idx; [|by eapply Hms]. done.
  - intros a x Hx. eapply mutex_inv_idx; [|by eapply ci_mutex]. done.
Qed.

Lemma core_with_lfmc v i : core_inv v -> maybe_event v i -> core_inv (view_with_lfmc i v).
Proof.
  intros [] Hi. split; try done.
  - intros p t ps Ht Hps. eapply pending_inv_iids; [..|by eapply ci_pending]; done.
  - intros b m Hbm. eapply byte_inv_idx; [|by eapply ci_mem]. done.
  - intros a x Hx. eapply mutex_inv_idx; [|by eapply ci_mutex]. done.
Qed.

Lemma core_with_mutexes v xs : core_inv v -> (forall a x, (a, x) ∈ xs -> mutex_inv v x) -> core_inv (view_with_mutexes xs v).
Proof.
  intros [] Hxs. split; try done.
  - intros p t ps Ht Hps. eapply pending_inv_iids; [..|by eapply ci_pending]; done.
  - intros b m Hbm. eapply byte_inv_idx; [|by eapply ci_mem]. done.
  - intros a x Hx. eapply mutex_inv_idx; [|by eapply Hxs]. done.
Qed.

(** Threads keep their identifiers and events; a thread that waits is a
    thread that is not available, in one queue. *)
Record threads_ok (v : View) (ts : list TView) : Prop := {
  to_len : length ts = length (v_threads v);
  to_same : forall p t', zget ts p = Some t' -> exists t, zget (v_threads v) p = Some t /\
    v_cpid t' = v_cpid t /\ v_indices t' = v_indices t;
  to_pending : forall p t' ps, zget ts p = Some t' -> ps ∈ v_buffer t' -> pending_inv v p ps;
  to_odd : forall p t', zget ts p = Some t' -> Z.even p = false -> v_buffer t' = [];
  to_aux : forall p t' u', Z.even p = true -> zget ts p = Some t' -> zget ts (p + 1) = Some u' ->
    v_available u' = negb (bool_decide (v_buffer t' = []));
}.
Record conds_ok (v : View) : Prop := {
  co_signal : forall a c, map_lookup (v_conds v) a = Some c -> 0 <= last_signal c <= v_idx v;
  co_waiting : forall a c i, map_lookup (v_conds v) a = Some c -> i ∈ waiters c -> exists p, waiting v i p;
  co_waiters : forall a k a' k' p, waiter_at v a k p -> waiter_at v a' k' p -> a = a' /\ k = k';
}.

Lemma core_with_waits v cs ts : core_inv v -> threads_ok v ts -> conds_ok (view_with_waits cs ts v) ->
  core_inv (view_with_waits cs ts v).
Proof.
  intros Hc [Tl Ts Tp To Ta] [Cs Cw Cn]. pose proof Hc as []. split; simpl; try done.
  - by rewrite Tl.
  - by rewrite Tl.
  - intros p t' i Ht' Hi. destruct (Ts p t' Ht') as (t & Ht & _ & Heq). rewrite Heq in Hi.
    by apply (TSOInv.ci_indices _ Hc p t).
  - intros p t' ps Ht' Hps. eapply pending_inv_iids; [..|by eapply Tp]; done.
  - intros b m Hbm. eapply byte_inv_idx; [|by eapply (TSOInv.ci_mem _ Hc)]. done.
  - intros a x Hx. eapply mutex_inv_idx; [|by eapply (TSOInv.ci_mutex _ Hc)]. done.
  - intros p t' Ht' Hp. destruct (Ts p t' Ht') as (t & Ht & -> & _). by apply (TSOInv.ci_cpids _ Hc p t).
Qed.

Lemma aux_inv_keep s s' : aux_inv s -> prefix s' = prefix s -> prefix_idx s' = prefix_idx s ->
  Forall sleep_inv (threads s') -> aux_inv s'.
Proof.
  intros [Hs He Hb] Hp Hi Hs'. split; [done| |by rewrite Hp].
  rewrite Hp. intros e Hin. destruct (He e Hin) as [H1 H2 H3 H4]. unfold maybe_event in *.
  split; [done..| |done]. unfold maybe_event. simpl in *. by rewrite Hi.
Qed.

Section memory.
Context (IsBigEndianHost : bool) (conf : Configuration) (Hchecks : check_conflicts conf = false).

Abbreviation inv := (inv conf).
Abbreviation byte_observable := (byte_observable conf).

(** What the byte loops leave alone: everything but the memory table. *)
Record mframe (s s' : TSOTraceBuilder) : Prop := {
  mf_run : run s s';
  mf_view : view_with_mem [] (view s') = view_with_mem [] (view s);
}.

Lemma mframe_refl s : mframe s s.
Proof. split; [apply run_refl|done]. Qed.
Lemma mframe_trans s1 s2 s3 : mframe s1 s2 -> mframe s2 s3 -> mframe s1 s3.
Proof. intros [] []. split; [by eapply run_trans|congruence]. Qed.
Lemma frame_mframe s s' : frame s s' -> mframe s s'.
Proof. intros [Hv Hr]. split; [done|by rewrite Hv]. Qed.
Lemma mframe_idx s s' : mframe s s' -> prefix_idx s' = prefix_idx s.
Proof. intros [Hr _]. by apply ru_idx. Qed.
Lemma mframe_thread s s' p t : mframe s s' -> zget (threads s) p = Some t ->
  exists t', zget (threads s') p = Some t' /\ tview t' = tview t.
Proof.
  intros [_ Hv] Ht. pose proof (f_equal v_threads Hv) as Hts. simpl in Hts.
  apply (f_equal (fun l => zget l p)) in Hts. rewrite !zget_map, Ht in Hts. simpl in Hts.
  destruct (zget (threads s') p) as [t'|]; [|done]. exists t'. split; [done|].
  by apply (inj Some).
Qed.

(** The current event has not updated byte [b]. *)
Definition fresh (s : TSOTraceBuilder) (b : SymAddr) : Prop :=
  forall m, map_lookup (mem s) b = Some m -> last_update m < prefix_idx s.

Lemma fresh_frame s s' b : frame s s' -> fresh s b -> fresh s' b.
Proof.
  intros [Hv _] Hf. pose proof (f_equal v_mem Hv) as Hm. pose proof (f_equal v_idx Hv) as Hi. simpl in *.
  unfold fresh. by rewrite Hm, Hi.
Qed.

Lemma inv_set_mem s ms : inv s -> (forall b m, (b, m) ∈ ms -> byte_inv (view s) m /\ byte_observable s b m) ->
  inv (set_mem ms s).
Proof.
  intros [Hc Ha Ho] Hms. split.
  - apply (core_with_mem (view s)); [done|]. intros b m Hbm. by eapply Hms.
  - by eapply aux_inv_keep; [|..|apply Ha].
  - intros b m Hbm. by apply Hms.
Qed.

Lemma run_set_mem s ms : run s (set_mem ms s).
Proof. by apply run_prefix. Qed.

Lemma byte_inv_new v : 0 <= v_idx v -> byte_inv v ByteInfo_new.
Proof.
  intros Hi. split; simpl.
  - unfold maybe_event. lia.
  - by intros i ?%not_elem_of_nil.
  - by intros p i ?%not_elem_of_nil.
  - constructor.
  - split; [apply sorted_nil|]. by intros i ?%not_elem_of_nil.
Qed.

Lemma inv_idx s : inv s -> 0 <= prefix_idx s.
Proof. intros [Hc _ _]. pose proof (ci_idx _ Hc) as Hi. simpl in Hi. lia. Qed.

Lemma wp_mem_get s b (Q : ByteInfo -> TSOTraceBuilder -> Prop) : inv s ->
  (forall m s', mframe s s' -> inv s' -> threads s' = threads s -> byte_inv (view s') m -> byte_observable s' b m ->
     (fresh s b -> last_update m < prefix_idx s') ->
     (forall b', b' <> b -> map_lookup (mem s') b' = map_lookup (mem s) b') ->
     Q m s') ->
  wp (mem_get b) Q s.
Proof.
  intros Hinv HQ. unfold mem_get. wp_gets. apply wp_bind, wp_modify, wp_ret. unfold map_index.
  destruct (map_lookup (mem s) b) as [m|] eqn:E; simpl.
  - pose proof E as Hlk. apply map_lookup_elem in E. assert (Hs : set_mem (mem s) s = s) by (by destruct s). rewrite Hs.
    apply HQ; try done; [apply mframe_refl|by eapply (ci_mem _ (inv_core _ _ Hinv))|by apply (inv_obs _ _ Hinv)|].
    intros Hf. by apply (Hf m).
  - pose proof (inv_idx s Hinv) as Hi.
    assert (Hnew : byte_inv (view s) ByteInfo_new) by (by apply byte_inv_new).
    assert (Hel : forall b' m', (b', m') ∈ map_insert (mem s) b ByteInfo_new ->
      m' = ByteInfo_new \/ (b', m') ∈ mem s).
    { intros b' m' [[= -> ->]|?]%elem_map_insert; auto. }
    apply HQ; simpl; try done.
    + split; [apply run_set_mem|done].
    + apply inv_set_mem; [done|]. intros b' m' [->|Hin]%Hel; [split; [done|by intros _ Hlu; simpl in Hlu; lia]|].
      split; [by eapply (ci_mem _ (inv_core _ _ Hinv))|by apply (inv_obs _ _ Hinv)].
    + by apply byte_inv_new.
    + intros _ Hlu. simpl in Hlu. lia.
    + intros _. simpl. lia.
    + intros b' Hne. by apply map_lookup_insert_ne.
Qed.

Lemma wp_mem_put s b m (Q : unit -> TSOTraceBuilder -> Prop) : inv s -> byte_inv (view s) m -> byte_observable s b m ->
  (forall s', mframe s s' -> inv s' -> threads s' = threads s -> mem s' = map_insert (mem s) b m -> Q tt s') ->
  wp (mem_put b m) Q s.
Proof.
  intros Hinv Hm Ho HQ. apply wp_modify. apply HQ; try done; [split; [apply run_set_mem|done]|].
  apply inv_set_mem; [done|]. intros b' m' [[= -> ->]|Hin]%elem_map_insert; [done|].
  split; [by eapply (ci_mem _ (inv_core _ _ Hinv))|by apply (inv_obs _ _ Hinv)].
Qed.

Lemma wp_scan_last_reads s reads lu own seen (Q : list Z * bool -> TSOTraceBuilder -> Prop) :
  core_inv (view s) -> (forall i, i ∈ reads -> maybe_event (view s) i) -> seen_ok (view s) seen ->
  (forall seen' f, seen_ok (view s) seen' -> Q (seen', f) s) -> wp (scan_last_reads reads lu own seen) Q s.
Proof.
  intros Hc Hr Hseen HQ. pose proof (ci_idx _ Hc) as Hi. simpl in Hi. rewrite length_map in Hi. unfold scan_last_reads.
  eapply wp_mono; [apply (wp_loop (fun l st s' => s' = s /\ (forall i, i ∈ l -> maybe_event (view s) i) /\ seen_ok (view s) st.1))|].
  - done.
  - intros i l' [seen1 f] s1 (-> & Hl & Hs1). simpl in Hs1. assert (Hir : maybe_event (view s) i) by (apply Hl; by left).
    assert (Hl' : forall i, i ∈ l' -> maybe_event (view s) i) by (intros j Hj; apply Hl; by right).
    pose proof Hir as [_ Hi2]. simpl in Hi2. case_decide as H0; [by apply wp_ret|].
    destruct (zget_lt (events (prefix s)) i) as [e He]; [lia|]. apply wp_bind. eapply wp_pfx; [done|]. cbv zeta.
    assert (Hafter : forall seen2, seen_ok (view s) seen2 ->
      wp (after ← (if decide (0 <= lu /\ lu < i)
               then l ← pfx lu; mret (bool_decide (iid_pid (iid l) <> iid_pid (iid e) + 1))
               else mret false); mret (seen2, (seen1, f).2 || after))
        (fun st s' => s' = s /\ (forall i, i ∈ l' -> maybe_event (view s) i) /\ seen_ok (view s) st.1) s).
    { intros seen2 Hs2. apply wp_bind. destruct (decide (0 <= lu /\ lu < i)) as [Hlu|]; [|by do 2 apply wp_ret].
      destruct (zget_lt (events (prefix s)) lu) as [e' He']; [lia|].
      apply wp_bind. eapply wp_pfx; [done|]. by do 2 apply wp_ret. }
    apply wp_bind. destruct (decide (iid_pid (iid e) <> own)).
    + eapply wp_ins_seen; [done|done|]. intros seen2 Hs2 _. by apply Hafter.
    + apply wp_ret. by apply Hafter.
  - intros [seen' f] s' (-> & _ & Hs'). by apply HQ.
Qed.

(** ** Updates *)

Lemma byte_inv_update v p m m' : byte_inv v m -> 0 <= v_idx v -> last_update m < v_idx v ->
  last_update m' = v_idx v -> before_unordered m' = before_unordered m ->
  (forall i, i ∈ last_read m' -> maybe_event v i) ->
  (unordered_updates m' = unordered_updates m \/ unordered_updates m' = map_insert (unordered_updates m) p (v_idx v)) ->
  byte_inv v m'.
Proof.
  intros [H1 H2 H3 H4 H5] H0 Hlt Hlu Hbu Hlr Hun.
  assert (Hel : forall q i, (q, i) ∈ unordered_updates m -> 0 <= i < v_idx v) by (intros q i Hq; specialize (H3 q i Hq); lia).
  split; [unfold maybe_event; lia|done| | |by rewrite Hbu].
  - intros q i. rewrite Hlu. destruct Hun as [-> | ->].
    + intros Hq. specialize (Hel q i Hq). lia.
    + intros [[= -> ->]|Hq]%elem_map_insert; [lia|]. specialize (Hel q i Hq). lia.
  - destruct Hun as [-> | ->]; [done|]. apply map_insert_distinct; [done|].
    change (v_idx v ∉ snd <$> unordered_updates m). intros ([q i] & Heq & Hq)%list_elem_of_fmap.
    specialize (Hel q i Hq). simpl in Heq. lia.
Qed.

Lemma last_read_set_spec v i x : 0 <= i -> exists v', last_read_set v i x = Some v' /\
  last_read_get v' i = Some x /\ forall y, y ∈ v' -> y = x \/ y = -1 \/ y ∈ v.
Proof.
  intros Hi. unfold last_read_set.
  set (w := if decide (Z.of_nat (length v) <= i) then resize (Z.to_nat (i + 1)) (-1) v else v).
  assert (Hlen : i < Z.of_nat (length w)).
  { subst w. case_decide; [rewrite length_resize|]; lia. }
  assert (Hel : forall y, y ∈ w -> y = -1 \/ y ∈ v).
  { subst w. case_decide; [|by right]. intros y Hy. rewrite resize_spec in Hy.
    apply elem_of_app in Hy as [Hy|Hy]; [right; by eapply elem_of_take in Hy as (? & ?%list_elem_of_lookup_2 & _)|].
    left. by apply elem_of_replicate in Hy as [-> _]. }
  rewrite zset_lt by lia. eexists. split; [done|]. split.
  - unfold last_read_get. rewrite length_insert, decide_True by done. rewrite zget_insert by lia. by rewrite decide_True.
  - intros y [->|Hy]%elem_insert; [by left|right; by apply Hel].
Qed.

Lemma seen_ok_idx v v' l : v_idx v' = v_idx v -> seen_ok v l -> seen_ok v' l.
Proof. intros Hi [Hs Hl]. split; [done|]. unfold maybe_event in *. by rewrite Hi. Qed.
Lemma pairs_ok_idx v v' l : v_idx v' = v_idx v -> pairs_ok v l -> pairs_ok v' l.
Proof. intros Hi [Hs Hl]. split; [done|]. by rewrite Hi. Qed.

(** Writing the byte back and waking the threads that conflict. *)
Lemma wp_put_wakeup s b m ty (Q : unit -> TSOTraceBuilder -> Prop) : inv s -> byte_inv (view s) m -> byte_observable s b m ->
  ty <> NA ->
  (forall s', mframe s s' -> inv s' -> mem s' = map_insert (mem s) b m -> Q tt s') ->
  wp (_ ← mem_put b m; wakeup conf ty b) Q s.
Proof.
  intros Hinv Hm Ho Hty HQ. apply wp_bind, wp_mem_put; [done..|]. intros s1 Hf1 Hi1 _ Hmem1.
  apply wp_wakeup; [done|apply Hi1|apply Hi1|done|]. intros s2 Hf2 Ha2. apply HQ.
  - eapply mframe_trans; [done|]. by apply frame_mframe.
  - by eapply inv_frame.
  - rewrite <- Hmem1. apply (f_equal v_mem (fr_view _ _ Hf2)).
Qed.

Definition cur_observable (s : TSOTraceBuilder) (b : SymAddr) : Prop :=
  dpor_algorithm conf = OBSERVERS ->
  exists e, zget (events (prefix s)) (prefix_idx s) = Some e /\ observable (sym e) b.

Lemma cur_observable_run s s' b : run s s' -> cur_observable s b -> cur_observable s' b.
Proof.
  intros Hr Ho Hc. destruct (Ho Hc) as (e & He & Hob). destruct (ru_obs _ _ Hr _ _ He) as (e' & He' & Hb').
  exists e'. rewrite (ru_idx _ _ Hr). auto.
Qed.

(** What one byte step achieves: [P] of the byte, nothing to the others. *)
Record byte_step (P : TSOTraceBuilder -> SymAddr -> Prop) (b : SymAddr) (s s' : TSOTraceBuilder)
    (st : list Z * list (Z * Z)) : Prop := {
  by_frame : mframe s s';
  by_inv : inv s';
  by_seen : seen_ok (view s) st.1;
  by_pairs : pairs_ok (view s) st.2;
  by_others : forall b', b' <> b -> map_lookup (mem s') b' = map_lookup (mem s) b';
  by_byte : P s' b;
}.

Definition local (P : TSOTraceBuilder -> SymAddr -> Prop) : Prop :=
  forall s s' b, map_lookup (mem s') b = map_lookup (mem s) b -> prefix_idx s' = prefix_idx s -> P s b -> P s' b.

Lemma fresh_local : local fresh.
Proof. intros s s' b Hl Hi Hf m Hm. rewrite Hi. apply Hf. by rewrite <- Hl. Qed.

(** Byte [b] has been updated by the current event, an access of [ml]. *)
Definition updated (ml : SymAddrSize) (s : TSOTraceBuilder) (b : SymAddr) : Prop :=
  exists m, map_lookup (mem s) b = Some m /\ last_update m = prefix_idx s /\ last_update_ml m = ml.

Lemma updated_local ml : local (updated ml).
Proof. intros s s' b Hl Hi (m & Hm & H1 & H2). exists m. by rewrite Hl, Hi. Qed.

(** The end of every update: [m] is the byte as observed, in a state reached
    from [s] by the frame steps after [mem_get]. *)
Lemma wp_finish_update s s1 s2 ml b p m m' st (Q : unit -> TSOTraceBuilder -> Prop) :
  mframe s s1 -> frame s1 s2 -> inv s2 -> cur_observable s b ->
  byte_inv (view s) m -> last_update m < prefix_idx s ->
  last_update m' = prefix_idx s -> last_update_ml m' = ml -> before_unordered m' = before_unordered m ->
  (forall i, i ∈ last_read m' -> maybe_event (view s) i) ->
  (unordered_updates m' = unordered_updates m \/
   unordered_updates m' = map_insert (unordered_updates m) p (prefix_idx s)) ->
  (forall b', b' <> b -> map_lookup (mem s1) b' = map_lookup (mem s) b') ->
  seen_ok (view s) st.1 -> pairs_ok (view s) st.2 ->
  (forall s', byte_step (updated ml) b s s' st -> Q tt s') ->
  wp (_ ← mem_put b m'; wakeup conf ACC_W b) Q s2.
Proof.
  intros Hf1 Hf2 Hinv Hco Hm Hlt Hlu Hml Hbu Hlr Hun Hother Hseen Hpairs HQ.
  assert (Hf : mframe s s2) by (eapply mframe_trans; [done|]; by apply frame_mframe).
  pose proof (mframe_idx _ _ Hf) as Hidx. pose proof (inv_idx _ Hinv) as H0.
  pose proof (f_equal v_mem (fr_view _ _ Hf2)) as Hmem2. simpl in Hmem2.
  apply wp_put_wakeup; [done| | |done|].
  - apply (byte_inv_idx (view s)); [exact Hidx|]. eapply byte_inv_update; [exact Hm|simpl; lia|done|done|done|done|done].
  - intros Hobs _. rewrite Hlu, <- Hidx. by eapply cur_observable_run; [apply Hf|..].
  - intros s' Hf' Hinv' Hmem'. apply HQ.
    assert (Hidx' : prefix_idx s' = prefix_idx s2) by (by apply mframe_idx).
    split; [by eapply mframe_trans|done|done|done|..].
    + intros b' Hne. rewrite Hmem', Hmem2, map_lookup_insert_ne by done. by apply Hother.
    + exists m'. by rewrite Hmem', map_lookup_insert_eq, Hidx', Hidx.
Qed.

Lemma byte_inv_clear v m : byte_inv v m -> byte_inv v (set_before_unordered [] (set_unordered_updates [] m)).
Proof.
  intros [H1 H2 H3 H4 H5]. split; simpl; [done|done| |constructor|].
  - by intros p i ?%not_elem_of_nil.
  - split; [apply sorted_nil|]. by intros i ?%not_elem_of_nil.
Qed.

Lemma wp_assoc {A B C} (m : M A) (k : A -> M B) (h : B -> M C) Q s :
  wp ((m ≫= k) ≫= h) Q s -> wp (m ≫= fun x => k x ≫= h) Q s.
Proof. unfold wp, mbind, M_bind. by destruct (m s) as [[a s']|]. Qed.

(** An update's look at the byte: the edge to an update by the same thread,
    the accesses seen, and the byte the new update is registered in. *)
Record looked (s : TSOTraceBuilder) (m m' : ByteInfo) (st : list Z * list (Z * Z)) : Prop := {
  lk_inv : byte_inv (view s) m';
  lk_last : last_update m' = last_update m;
  lk_read : last_read m' = last_read m;
  lk_seen : seen_ok (view s) st.1;
  lk_pairs : pairs_ok (view s) st.2;
}.

Lemma before_seen v m : byte_inv v m -> seen_ok v (before_unordered m).
Proof. intros [_ _ _ _ [Hs Hb]]. by apply seen_ok_list. Qed.

(** The branch of an update that found its kind of event alone in the last
    update merges with it; the others observe it. *)
Lemma wp_merge_or_observe s b m st (same : bool) (Q : ByteInfo * (list Z * list (Z * Z)) -> TSOTraceBuilder -> Prop) :
  inv s -> byte_inv (view s) m -> byte_observable s b m -> last_update m < prefix_idx s ->
  seen_ok (view s) st.1 -> pairs_ok (view s) st.2 ->
  (forall m' st', looked s m m' st' -> (same = false -> unordered_updates m' = []) -> stays s (Q (m', st'))) ->
  wp (if negb same then observe_memory conf b m st.1 st.2 true
      else s ← lift (insert_set st.1 (before_unordered m)); mret (m, (s.1, st.2))) Q s.
Proof.
  intros Hinv Hm Hbo Hlt Hseen Hpairs HQ. destruct same; simpl.
  - destruct (insert_set_seen (view s) st.1 (before_unordered m)) as [n Hn]; [done|by apply before_seen|].
    apply wp_bind. eapply wp_lift; [exact Hn|]. apply wp_ret. apply HQ; [|done|apply frame_refl|apply Hinv|done].
    split; [done..| |done]. apply seen_ok_union; [done|by apply before_seen].
  - apply wp_observe_memory; [apply Hinv|apply Hinv|done..|].
    intros m' seen' pairs' [H1 H2 H3 H4] Hs Hp. apply HQ; [by split|]. intros _. by apply H4.
Qed.

(** The reads-own-writes-early entry of the store that is being committed. *)
Definition rowe_entry (is_update : bool) (tipid : Z) (t : Thread) (m : ByteInfo) : M ByteInfo :=
  match (if is_update then store_buffer t !! 0%nat else None) with
  | Some pst =>
    if decide (0 <= ps_last_rowe pst)
    then lr ← lift (last_read_set (last_read m) (Z.quot tipid 2) (ps_last_rowe pst));
         mret (set_last_read lr m)
    else mret m
  | None => mret m
  end.

Lemma wp_rowe_entry s upd tipid t m (Q : ByteInfo -> TSOTraceBuilder -> Prop) v :
  0 <= tipid -> (forall ps, store_buffer t !! 0%nat = Some ps -> maybe_event v (ps_last_rowe ps)) ->
  maybe_event v (-1) -> (forall i, i ∈ last_read m -> maybe_event v i) ->
  (forall lr, (forall i, i ∈ lr -> maybe_event v i) -> Q (set_last_read lr m) s) ->
  wp (rowe_entry upd tipid t m) Q s.
Proof.
  intros Htip Hps Hm1 Hlr HQ. unfold rowe_entry.
  assert (Hkeep : Q m s) by (destruct m; by apply HQ).
  destruct (if upd then _ else _) as [ps|] eqn:E; [|by apply wp_ret].
  case_decide as H0; [|by apply wp_ret].
  destruct (last_read_set_spec (last_read m) (Z.quot tipid 2) (ps_last_rowe ps)) as (lr & Hset & _ & Hel).
  { apply Z.quot_pos; lia. }
  apply wp_bind. eapply wp_lift; [exact Hset|]. apply wp_ret, HQ.
  intros i [->|[->|?]]%Hel; [|done|by apply Hlr]. apply Hps. by destruct upd.
Qed.

Lemma wp_atomic_store_byte s ml ipid t b st (Q : list Z * list (Z * Z) -> TSOTraceBuilder -> Prop) :
  let tipid := if bool_decide (Z.rem ipid 2 <> 0) then ipid - 1 else ipid in
  inv s -> fresh s b -> cur_observable s b -> seen_ok (view s) st.1 -> pairs_ok (view s) st.2 ->
  0 <= tipid -> zget (threads s) tipid = Some t ->
  (forall st' s', byte_step (updated ml) b s s' st' -> Q st' s') ->
  wp (atomic_store_byte conf ml ipid b st) Q s.
Proof.
  intros tipid Hinv Hfresh Hco Hseen Hpairs Htip Ht HQ. unfold atomic_store_byte. cbv zeta. fold tipid.
  apply wp_bind, wp_mem_get; [done|]. intros m s1 Hf1 Hinv1 Hts1 Hm Hbo Hlt Hother.
  pose proof (mframe_idx _ _ Hf1) as Hidx. specialize (Hlt Hfresh).
  assert (Hv : v_idx (view s1) = v_idx (view s)) by exact Hidx.
  pose proof (ci_idx _ (inv_core _ _ Hinv1)) as Hlen. simpl in Hlen. rewrite length_map in Hlen.
  apply wp_bind. unfold pfx_len. apply wp_gets. wp_assert; [apply bool_decide_eq_true; unfold buf_len; lia|].
  apply wp_bind, wp_scan_last_reads; [apply Hinv1|apply Hm|by eapply seen_ok_idx|]. intros seen f Hs1.
  eapply pairs_ok_idx in Hpairs; [|exact Hv]. apply wp_bind.
  assert (Hrest : forall m2 st2, looked s1 m m2 st2 -> stays s1 (fun s2 =>
    wp (i ← gets prefix_idx;
        let bi := if decide (dpor_algorithm conf = OBSERVERS)
                  then set_unordered_updates (map_insert (unordered_updates m2) ipid i) m2 else m2 in
        let bi := set_last_update_ml ml (set_last_update i bi) in
        t ← thread tipid; bi ← rowe_entry (bool_decide (Z.rem ipid 2 <> 0)) tipid t bi;
        _ ← mem_put b bi; _ ← wakeup conf ACC_W b; mret st2) Q s2)).
  { rewrite <- Hts1 in Ht. intros m2 st2 [Hm2 Hl2 Hr2 Hs2 Hp2] s2 Hf2 Ha2 Ht2.
    assert (Hidx2 : prefix_idx s2 = prefix_idx s) by (rewrite (frame_idx _ _ Hf2); done).
    assert (Hinv2 : inv s2) by (by eapply inv_frame).
    wp_gets. apply wp_bind. eapply wp_thread; [by rewrite Ht2|].
    assert (Hlr2 : forall i, i ∈ last_read m2 -> maybe_event (view s1) i) by apply (bi_read _ _ Hm2).
    apply wp_bind, (wp_rowe_entry _ _ _ _ _ _ (view s1)); [done| |split; simpl; lia| |].
    - intros ps Hps. apply list_elem_of_lookup_2 in Hps.
      by apply (pi_rowe _ _ _ (ci_pending _ (inv_core _ _ Hinv1) _ _ _ (zget_tview _ _ _ Ht) Hps)).
    - by case_decide.
    - intros lr Hlr. apply wp_assoc, wp_bind.
      eapply (wp_finish_update s s1 s2 ml b ipid m2 _ st2); try done; simpl.
      + by apply (byte_inv_idx (view s1)).
      + by rewrite Hl2, <- Hidx.
      + by case_decide.
      + intros i Hi. specialize (Hlr i Hi). unfold maybe_event in *. by rewrite <- Hv.
      + rewrite Hidx2. case_decide; [by right|by left].
      + by apply (seen_ok_idx (view s1)).
      + by apply (pairs_ok_idx (view s1)).
      + intros s' Hs'. by apply wp_ret, HQ. }
  rewrite <- Hts1 in Ht. destruct f; [|destruct (decide (0 <= last_update m)) as [H0|H0]].
  - apply wp_ret, Hrest; [|apply frame_refl|apply Hinv1|done]. split; simpl; [by apply byte_inv_clear|done..].
  - destruct (zget_lt (events (prefix s1)) (last_update m)) as [e He]; [lia|].
    apply wp_bind. eapply wp_pfx; [done|].
    pose proof (event_ok_elem _ _ _ (inv_ax _ _ Hinv1) He) as Heok.
    assert (exists same, (match sym e with
                      | [e0] => if decide (ev_kind e0 = UNOBS_STORE) then a ← ev_addr e0; Some (sas_eq a ml)
                               else Some false
                      | _ => Some false
                      end) = Some same) as [same Hsame].
    { destruct (sym e) as [|e0 [|? ?]] eqn:E; [by eexists| |by eexists]. destruct (decide (ev_kind e0 = UNOBS_STORE)) as [Hk|]; [|by eexists].
      destruct (sym_ok_addr e0) as [a Ha]; [|by unfold symev_does_store; rewrite Hk|by rewrite Ha; eexists].
      pose proof (eo_data _ _ Heok) as Hd. rewrite E in Hd. by apply Forall_cons in Hd as []. }
    apply wp_bind. eapply wp_lift; [exact Hsame|].
    apply (wp_merge_or_observe s1 b m (seen, st.2)); [done..|].
    intros m' st' Hlk _. by apply Hrest.
  - apply wp_ret, Hrest; [|apply frame_refl|apply Hinv1|done]. by split.
Qed.

Lemma wp_each_byte s ml body P (Q : list Z * list (Z * Z) -> TSOTraceBuilder -> Prop) :
  sas_ok ml -> inv s -> local P -> (forall b, in_range ml b = true -> fresh s b) ->
  (forall b st s1 (R : list Z * list (Z * Z) -> TSOTraceBuilder -> Prop),
     in_range ml b = true -> mframe s s1 -> inv s1 -> fresh s1 b ->
     seen_ok (view s1) st.1 -> pairs_ok (view s1) st.2 ->
     (forall st' s', byte_step P b s1 s' st' -> R st' s') -> wp (body b st) R s1) ->
  (forall st s', mframe s s' -> inv s' -> seen_ok (view s) st.1 -> pairs_ok (view s) st.2 ->
     (forall b, in_range ml b = true -> P s' b) ->
     (forall b, in_range ml b = false -> map_lookup (mem s') b = map_lookup (mem s) b) -> Q st s') ->
  wp (each_byte ml body ([], [])) Q s.
Proof.
  intros Hml Hinv Hloc Hpre Hbody HQ. destruct (sas_bytes_ok ml Hml) as (bs & Hbs & Hnd & Hin).
  unfold each_byte. apply wp_bind. eapply wp_lift; [exact Hbs|].
  eapply wp_mono; [apply (wp_loop (fun l st s' => mframe s s' /\ inv s' /\ seen_ok (view s) st.1 /\ pairs_ok (view s) st.2 /\
    NoDup l /\ (forall b, b ∈ l -> b ∈ bs /\ fresh s' b) /\ (forall b, b ∈ bs -> b ∉ l -> P s' b) /\
    (forall b, b ∉ bs -> map_lookup (mem s') b = map_lookup (mem s) b)))|].
  - split_and!; [apply mframe_refl|done|by split; [apply sorted_nil|intros i ?%not_elem_of_nil]|
      by split; [apply sorted_nil|intros i ?%not_elem_of_nil]|done| |done|done].
    intros b Hb. split; [done|]. by apply Hpre, Hin.
  - intros b l st s1 (Hf & Hinv1 & Hs & Hp & [Hb Hnd']%NoDup_cons & Hfr & Hup & Hout).
    assert (Hv : v_idx (view s1) = v_idx (view s)) by exact (mframe_idx _ _ Hf).
    destruct (Hfr b) as [Hbin Hfb]; [by left|].
    apply Hbody; [by apply Hin|done..| | |].
    + by apply (seen_ok_idx (view s)).
    + by apply (pairs_ok_idx (view s)).
    + intros st' s' [H1 H2 H3 H4 H5 H6]. pose proof (mframe_idx _ _ H1) as Hidx.
      split_and!; [by eapply mframe_trans|done| | |done| | |].
      * by apply (seen_ok_idx (view s1)).
      * by apply (pairs_ok_idx (view s1)).
      * intros b' Hb'. destruct (Hfr b') as [? ?]; [by right|]. split; [done|].
        apply (fresh_local s1); [apply H5; by intros ->|done..].
      * intros b' Hb'in Hb'. destruct (decide (b' = b)) as [->|Hne]; [done|].
        apply (Hloc s1); [by apply H5|done|]. apply Hup; [done|]. by apply not_elem_of_cons.
      * intros b' Hb'. rewrite H5 by (by intros ->). by apply Hout.
  - intros st s' (Hf & Hinv' & Hs & Hp & _ & _ & Hup & Hout). apply HQ; [done..| |].
    + intros b Hb. apply Hup; [by apply Hin|apply not_elem_of_nil].
    + intros b Hb. apply Hout. rewrite Hin. by rewrite Hb.
Qed.

(** The end of a memory method: the accesses seen become races. *)
Lemma wp_see_all s (seen : list Z) pairs (Q : unit -> TSOTraceBuilder -> Prop) : inv s -> seen_ok (view s) seen -> pairs_ok (view s) pairs ->
  (forall s', frame s s' -> inv s' -> Q tt s') ->
  wp (lfmc ← gets last_full_memory_conflict; seen ← ins seen lfmc; _ ← see_events conf seen; see_event_pairs conf pairs) Q s.
Proof.
  intros Hinv Hs Hp HQ. wp_gets. apply wp_bind.
  eapply wp_ins_seen; [done|apply (ci_lfmc _ (inv_core _ _ Hinv))|]. intros seen' Hs' _.
  apply wp_bind. apply wp_see_events; [done|apply Hinv|apply Hinv|done|]. intros s1 Hf1 Ha1 _.
  assert (Hinv1 : inv s1) by (by eapply inv_frame).
  apply wp_see_event_pairs; [done|apply Hinv1|done|by rewrite (fr_view _ _ Hf1)|].
  intros s2 Hf2 Ha2 _. assert (frame s s2) by (by eapply frame_trans). apply HQ; [done|by eapply inv_frame].
Qed.

Lemma wp_see_all_then s (seen : list Z) pairs (k : M bool) (Q : bool -> TSOTraceBuilder -> Prop) :
  inv s -> seen_ok (view s) seen -> pairs_ok (view s) pairs -> (forall s', frame s s' -> inv s' -> wp k Q s') ->
  wp (lfmc ← gets last_full_memory_conflict; seen ← ins seen lfmc; _ ← see_events conf seen;
      _ ← see_event_pairs conf pairs; k) Q s.
Proof.
  intros Hinv Hs Hp HQ.
  assert (Hwp : wp (_ ← (lfmc ← gets last_full_memory_conflict; seen ← ins seen lfmc; _ ← see_events conf seen;
    see_event_pairs conf pairs); k) Q s) by (by apply wp_bind, wp_see_all).
  unfold wp, mbind, M_bind in *. simpl in *. destruct (ins seen (last_full_memory_conflict s) s) as [[v s1]|]; [|done].
  by destruct (see_events conf v s1) as [[[] s2]|].
Qed.

(** ** Store buffers *)

Lemma wp_thread_upd_raw s p t f (Q : unit -> TSOTraceBuilder -> Prop) : zget (threads s) p = Some t ->
  Q tt (set_threads (<[Z.to_nat p := f t]> (threads s)) s) -> wp (thread_upd p f) Q s.
Proof.
  intros Ht HQ. pose proof (zget_Some _ _ _ Ht) as Hlt. unfold thread_upd. wp_gets.
  apply wp_bind. eapply wp_lift; [done|]. apply wp_bind. eapply wp_lift; [by apply zset_lt|]. by apply wp_modify.
Qed.

Lemma inv_set_waits s cs ts : inv s -> threads_ok (view s) (map tview ts) ->
  conds_ok (view_with_waits cs (map tview ts) (view s)) -> Forall sleep_inv ts ->
  inv (set_cond_vars cs (set_threads ts s)).
Proof.
  intros [Hc Ha Ho] Hts Hcs Hsl. split; [by apply (core_with_waits (view s) cs (map tview ts))| |exact Ho].
  by eapply aux_inv_keep.
Qed.

Lemma run_set_waits s cs ts : run s (set_cond_vars cs (set_threads ts s)).
Proof. by apply run_prefix. Qed.

Lemma conds_ok_self s : inv s -> conds_ok (view s).
Proof. intros [[] _ _]. by split. Qed.
Lemma threads_ok_self v : core_inv v -> threads_ok v (v_threads v).
Proof. intros []. split; eauto. Qed.

Lemma even_pair s p : inv s -> Z.even p = true -> 0 <= p < Z.of_nat (length (threads s)) ->
  exists u, zget (threads s) (p + 1) = Some u.
Proof.
  intros Hinv Hp Hr. apply zget_lt. pose proof (ci_even _ (inv_core _ _ Hinv)) as He. simpl in He. rewrite length_map in He.
  apply Z.even_spec in He as [n Hn], Hp as [k Hk]. lia.
Qed.

(** Thread [p] of the pair [(p, p+1)] gets the buffer [sb]. *)
Definition set_buffer (p : Z) (t u : Thread) (sb : list PendingStore) (s : TSOTraceBuilder) : TSOTraceBuilder :=
  set_threads (<[Z.to_nat (p + 1) := set_available (negb (bool_decide (sb = []))) u]>
    (<[Z.to_nat p := set_store_buffer sb t]> (threads s))) s.

Lemma zget_set_buffer p t u sb s q : zget (threads s) p = Some t -> zget (threads s) (p + 1) = Some u ->
  zget (threads (set_buffer p t u sb s)) q =
  if decide (q = p) then Some (set_store_buffer sb t)
  else if decide (q = p + 1) then Some (set_available (negb (bool_decide (sb = []))) u) else zget (threads s) q.
Proof.
  intros Ht Hu. pose proof (zget_Some _ _ _ Ht) as Hp. pose proof (zget_Some _ _ _ Hu) as Hp1.
  unfold set_buffer. simpl. rewrite zget_insert by (rewrite length_insert; lia).
  rewrite zget_insert by lia. repeat case_decide; subst; try done; lia.
Qed.

Lemma inv_set_buffer s p t u sb : inv s -> Z.even p = true ->
  zget (threads s) p = Some t -> zget (threads s) (p + 1) = Some u ->
  (forall ps, ps ∈ sb -> pending_inv (view s) p ps) -> inv (set_buffer p t u sb s).
Proof.
  intros Hinv Hp Ht Hu Hsb. pose proof (inv_core _ _ Hinv) as Hc.
  assert (Hp1 : Z.even (p + 1) = false) by (rewrite Z.even_add, Hp; done).
  assert (Hgoal : inv (set_cond_vars (cond_vars s) (set_buffer p t u sb s))).
  2:{ by destruct s. }
  set (ts := threads (set_buffer p t u sb s)).
  assert (Hz : forall q, zget (map tview ts) q = if decide (q = p) then Some (tview (set_store_buffer sb t))
    else if decide (q = p + 1) then Some (tview (set_available (negb (bool_decide (sb = []))) u))
    else tview <$> zget (threads s) q).
  { intros q. subst ts. rewrite zget_map, zget_set_buffer by done. by repeat case_decide. }
  assert (Hself : forall q t', zget (map tview ts) q = Some t' -> exists t0, zget (threads s) q = Some t0 /\
    v_cpid t' = cpid t0 /\ v_indices t' = event_indices t0 /\ (Z.even q = true -> v_available t' = available t0)).
  { intros q t'. rewrite Hz. case_decide as Hq; [subst q; intros [= <-]; by exists t|].
    case_decide as Hq1; [subst q; intros [= <-]; exists u; rewrite Hp1; by split_and!|].
    destruct (zget (threads s) q) as [t0|]; [|done]. intros [= <-]. by exists t0. }
  assert (Hback : forall q t0, zget (threads s) q = Some t0 -> exists t', zget (map tview ts) q = Some t' /\
    (Z.even q = true -> v_available t' = available t0)).
  { intros q t0 Hq. rewrite Hz, Hq. case_decide; [eexists; split; [done|]; subst q; simpl; congruence|].
    case_decide; [eexists; split; [done|]; subst q; congruence|]. by eexists. }
  apply inv_set_waits; [done| | |].
  - split.
    + subst ts. unfold set_buffer. simpl. by rewrite !length_map, !length_insert.
    + intros q t' Hq. destruct (Hself q t' Hq) as (t0 & Ht0 & H1 & H2 & _).
      exists (tview t0). by rewrite (zget_tview s q t0).
    + intros q t' ps. rewrite Hz. case_decide as Hq; [subst q; intros [= <-]; apply Hsb|].
      case_decide as Hq1; [subst q; intros [= <-]; by apply (ci_pending _ Hc (p + 1) (tview u)), zget_tview|].
      destruct (zget (threads s) q) as [t0|] eqn:E; [|done]. intros [= <-].
      by apply (ci_pending _ Hc q (tview t0)), zget_tview.
    + intros q t' Hq Hodd. revert Hq. rewrite Hz. case_decide as Hq; [congruence|].
      case_decide as Hq1; [subst q; intros [= <-]; by apply (ci_odd _ Hc (p + 1) (tview u)); [apply zget_tview|]|].
      destruct (zget (threads s) q) as [t0|] eqn:E; [|done]. intros [= <-].
      by apply (ci_odd _ Hc q (tview t0)); [apply zget_tview|].
    + intros q t' u' Hev. rewrite !Hz. case_decide as Hq.
      * subst q. rewrite decide_False by lia. rewrite decide_True by done. by intros [= <-] [= <-].
      * rewrite (decide_False (P := q = p + 1)) by (intros ->; congruence).
        rewrite (decide_False (P := q + 1 = p)) by (intros <-; rewrite Z.even_add, Hev in Hp; done).
        rewrite (decide_False (P := q + 1 = p + 1)) by lia.
        destruct (zget (threads s) q) as [t0|] eqn:E, (zget (threads s) (q + 1)) as [u0|] eqn:E'; try done.
        intros [= <-] [= <-]. by apply (ci_aux _ Hc q); [|apply zget_tview..].
  - destruct (conds_ok_self s Hinv) as [H1 H2 H3]. split; [done| |done].
    intros a c i Ha Hi. destruct (H2 a c i Ha Hi) as (q & Hev & Hq & t0 & Ht0 & Hav). exists q.
    split; [done|]. split; [done|]. simpl in Ht0. rewrite zget_map in Ht0.
    destruct (zget (threads s) q) as [t1|] eqn:E; [|done]. simplify_eq/=.
    destruct (Hback q t1 E) as (t' & Ht' & Hav'). exists t'. split; [done|]. by rewrite Hav'.
  - pose proof (ax_sleep _ (inv_ax _ _ Hinv)) as Hsl.
    assert (Hst : sleep_inv t /\ sleep_inv u).
    { rewrite Forall_forall in Hsl. split; eapply Hsl, zget_elem; done. }
    subst ts. unfold set_buffer. simpl. destruct Hst as [[] []]. by do 2 (apply Forall_insert; [|by split]).
Qed.

Lemma shift_left {A} (rest : list A) : forall pre x, exists z,
  for_range (length rest) (length pre) (fun j w => y ← w !! S j; vset w j y) (pre ++ x :: rest) = Some (pre ++ rest ++ [z]).
Proof.
  induction rest as [|y rest IH]; intros pre x; cbn [for_range length]; [by exists x|].
  replace ((pre ++ x :: y :: rest) !! S (length pre)) with (Some y)
    by (rewrite lookup_app_r by lia; by replace (S (length pre) - length pre)%nat with 1%nat by lia).
  cbn [mbind option_bind]. rewrite vset_mid. cbn [mbind option_bind].
  destruct (IH (pre ++ [y]) y) as [z Hz]. exists z.
  rewrite length_app, <- !app_assoc in Hz. cbn [length app] in Hz. by rewrite Nat.add_1_r in Hz.
Qed.

Lemma vpop_snoc {A} (l : list A) x : vpop (l ++ [x]) = Some l.
Proof.
  unfold vpop. destruct (l ++ [x]) eqn:E; [by destruct l|]. rewrite <- E, length_app. simpl.
  by rewrite Nat.add_sub, take_app_length.
Qed.

(** The oldest pending store is the one that leaves. *)
Lemma pop_front_tail ps sb : pop_front (ps :: sb) = Some sb.
Proof.
  unfold pop_front. cbn [length]. replace (S (length sb) - 1)%nat with (length sb) by lia.
  destruct (shift_left sb [] ps) as [z Hz]. cbn [length app] in Hz. rewrite Hz. cbn [mbind option_bind]. apply vpop_snoc.
Qed.

(** ** The current event *)

(** A method may be called: the builder runs the event of thread [p], is not
    in a dry run and is not replaying. *)
Record running (s : TSOTraceBuilder) (p : Z) : Prop := {
  rn_inv : inv s;
  rn_dry : dryrun s = false;
  rn_replay : replay s = false;
  rn_sync : synced s;
  rn_event : event_of (view s) (prefix_idx s) p;
}.

Lemma running_step s s' p : running s p -> run s s' -> inv s' -> running s' p.
Proof.
  intros [H1 H2 H3 H4 [H5 H6]] Hr Hinv. destruct (ru_flags _ _ Hr) as [Hd Hp].
  split; [done|congruence|congruence|by apply (ru_sync _ _ Hr)|].
  split; [pose proof (inv_idx _ Hinv); simpl; lia|]. unfold pid_of in *. simpl in *.
  by rewrite (ru_iids _ _ Hr), (ru_idx _ _ Hr).
Qed.

Lemma wp_running_curpid s p (Q : Z -> TSOTraceBuilder -> Prop) : running s p ->
  (0 <= p < Z.of_nat (length (threads s)) -> Q p s) -> wp curpid Q s.
Proof.
  intros Hr HQ. apply wp_curpid; [apply (rn_inv _ _ Hr)|]. intros p' [_ Hp'] Hlt.
  destruct (rn_event _ _ Hr) as [_ Hp]. rewrite Hp in Hp'. simplify_eq. by apply HQ.
Qed.

Lemma wp_mark_conflict s p (Q : unit -> TSOTraceBuilder -> Prop) : running s p ->
  (forall s', frame s s' -> running s' p -> Q tt s') -> wp mark_conflict Q s.
Proof.
  intros Hr HQ. pose proof (rn_inv _ _ Hr) as Hinv. apply wp_curev_meta; [apply Hinv|apply Hinv|done|].
  intros s' Hf Ha _. apply HQ; [done|]. eapply running_step; [done|apply Hf|by eapply inv_frame].
Qed.

Lemma wp_record_symbolic s p ev (Q : bool -> TSOTraceBuilder -> Prop) : running s p -> sym_ok ev ->
  (forall s' e, frame s s' -> running s' p -> zget (events (prefix s')) (prefix_idx s) = Some e ->
     ev ∈ sym e -> Q true s') ->
  wp (record_symbolic ev) Q s.
Proof.
  intros Hr Hev HQ. pose proof Hr as [Hinv Hdry Hrep Hsync _]. unfold record_symbolic. wp_gets. rewrite Hdry.
  wp_gets. rewrite Hrep. wp_gets. destruct (cur_event s (inv_core _ _ Hinv)) as (e & He & Hpid).
  apply wp_bind, wp_curev; [apply Hinv|]. intros e' He'. rewrite He in He'. injection He' as <-. simpl.
  wp_assert; [by apply bool_decide_eq_true, Hsync|].
  pose proof (event_ok_elem _ _ _ (inv_ax _ _ Hinv) He) as [Hw Hl Hb Hd]. pose proof (zget_Some _ _ _ He) as Hlt.
  set (e1 := set_sym (sym e ++ [ev]) e).
  set (s2 := set_sym_idx (S (sym_idx s)) (set_prefix (MkBuffer (wtree (prefix s))
    (<[Z.to_nat (prefix_idx s) := e1]> (events (prefix s)))) s)).
  assert (Hview : view s2 = view s).
  { unfold view. simpl. f_equal. by apply (map_insert_id iid _ _ e). }
  assert (Hf : frame s s2).
  { split; [done|]. split; [done|by apply (map_insert_id iid _ _ e)|done|done| |].
    - intros j x Hx. simpl. rewrite zget_insert by done. case_decide; [|by eauto].
      subst. rewrite He in Hx. injection Hx as <-. eexists. split; [done|].
      intros b (x & a & ? & ?). exists x, a. split; [|done]. apply elem_of_app. by left.
    - intros _ x. simpl. rewrite zget_insert by done. rewrite decide_True by done.
      intros [= <-]. simpl. rewrite length_app, (Hsync e He). simpl. lia. }
  assert (Ha2 : aux_inv s2).
  { split; simpl; [apply Hinv| |].
    - intros x [->|Hx]%elem_insert; rewrite Hview; [|by apply (inv_ax _ _ Hinv)].
      split; [done..|]. apply Forall_app. split; [done|by constructor; [|constructor]].
    - pose proof (ax_branch _ (inv_ax _ _ Hinv)) as Hbr. unfold buf_inv, buf_len in *. simpl. by rewrite length_insert. }
  assert (Hwp : wp (_ ← curev_upd (fun e => set_sym (sym e ++ [ev]) e);
    _ ← modify (set_sym_idx (S (sym_idx s))); mret true) Q s); [|exact Hwp].
  apply wp_bind. unfold curev_upd. apply wp_bind, wp_cur_idx; [apply Hinv|].
  unfold pfx_upd. wp_gets. apply wp_bind. eapply wp_lift; [done|]. apply wp_bind.
  eapply wp_lift; [by apply zset_lt|]. apply wp_modify, wp_bind, wp_modify, wp_ret.
  apply (HQ s2 e1); [done| | |].
  - eapply running_step; [done|apply Hf|by eapply inv_frame].
  - simpl. rewrite zget_insert by done. by rewrite decide_True.
  - apply elem_of_app. right. by left.
Qed.

Lemma wp_pair_update s p t u sb f g (Q : unit -> TSOTraceBuilder -> Prop) :
  zget (threads s) p = Some t -> zget (threads s) (p + 1) = Some u ->
  f t = set_store_buffer sb t -> g u = set_available (negb (bool_decide (sb = []))) u ->
  Q tt (set_buffer p t u sb s) -> wp (_ ← thread_upd p f; thread_upd (p + 1) g) Q s.
Proof.
  intros Ht Hu Hf Hg HQ. apply wp_bind. eapply wp_thread_upd_raw; [done|].
  pose proof (zget_Some _ _ _ Ht) as Hp. pose proof (zget_Some _ _ _ Hu) as Hp1.
  eapply (wp_thread_upd_raw _ _ u).
  - simpl. rewrite zget_insert by done. by rewrite decide_False by lia.
  - rewrite Hf, Hg. exact HQ.
Qed.

Lemma real_pair s p : running s p -> Z.even p = true -> exists t u,
  zget (threads s) p = Some t /\ zget (threads s) (p + 1) = Some u.
Proof.
  intros Hr Hp. destruct (cur_event s (inv_core _ _ (rn_inv _ _ Hr))) as (e & He & Hlt).
  destruct (rn_event _ _ Hr) as [_ Hpid]. unfold pid_of in Hpid. simpl in Hpid. rewrite zget_map, He in Hpid.
  injection Hpid as Hpid. rewrite Hpid in Hlt. destruct (zget_lt (threads s) p) as [t Ht]; [done|].
  destruct (even_pair s p (rn_inv _ _ Hr) Hp Hlt) as [u Hu]. by exists t, u.
Qed.

(** [store] appends to the buffer and lets the auxiliary thread run. *)
Lemma wp_store s p sd (Q : bool -> TSOTraceBuilder -> Prop) : running s p -> Z.even p = true -> sas_ok (sdr_ref sd) ->
  (forall t u s1, zget (threads s1) p = Some t -> zget (threads s1) (p + 1) = Some u -> frame s s1 ->
     let s' := set_buffer p t u (store_buffer t ++ [MkPendingStore (sdr_ref sd) (prefix_idx s) (-1) (last_md s1)]) s1 in
     running s' p -> Q true s') ->
  wp (store sd) Q s.
Proof.
  intros Hr Hp Hml HQ. unfold store. wp_gets. rewrite (rn_dry _ _ Hr).
  apply wp_bind. eapply wp_mark_conflict; [done|]. intros s1 Hf1 Hr1.
  apply wp_bind. eapply wp_running_curpid; [done|]. intros Hlt. wp_gets. wp_gets.
  destruct (real_pair s1 p Hr1 Hp) as (t & u & Ht & Hu). pose proof (frame_idx _ _ Hf1) as Hidx.
  set (ps := MkPendingStore (sdr_ref sd) (prefix_idx s1) (-1) (last_md s1)).
  apply wp_assoc, wp_bind. eapply (wp_pair_update s1 p t u (store_buffer t ++ [ps])); [done|done|done| |].
  { by rewrite bool_decide_false by (by destruct (store_buffer t)). }
  apply wp_ret. unfold ps. rewrite Hidx. apply (HQ t u s1 Ht Hu Hf1).
  eapply running_step; [exact Hr1|apply run_prefix; done|].
  apply inv_set_buffer; [apply Hr1|done..|]. intros ps' [Hps| ->%list_elem_of_singleton]%elem_of_app.
  - by apply (ci_pending _ (inv_core _ _ (rn_inv _ _ Hr1)) p (tview t)); [apply zget_tview|].
  - pose proof (rn_event _ _ Hr1) as He. split; simpl; [done|by rewrite <- Hidx|].
    destruct He as [He _]. simpl in He. unfold maybe_event. simpl. lia.
Qed.

Lemma wp_pop s p t u sb (Q : unit -> TSOTraceBuilder -> Prop) :
  zget (threads s) p = Some t -> zget (threads s) (p + 1) = Some u -> available u = true ->
  Q tt (set_buffer p t u sb s) ->
  wp (_ ← thread_upd p (set_store_buffer sb);
      when (bool_decide (sb = [])) (thread_upd (p + 1) (set_available false))) Q s.
Proof.
  intros Ht Hu Hav HQ. destruct (decide (sb = [])) as [->|Hne].
  - by eapply wp_pair_update.
  - rewrite (bool_decide_false (sb = [])) by done. apply wp_bind. eapply wp_thread_upd_raw; [done|].
    apply wp_when_false. unfold set_buffer in HQ. rewrite bool_decide_false in HQ by done. simpl in HQ.
    pose proof (zget_Some _ _ _ Ht) as Hp. pose proof (zget_Some _ _ _ Hu) as Hp1.
    rewrite list_insert_id in HQ; [done|].
    assert (Hz : zget (<[Z.to_nat p := set_store_buffer sb t]> (threads s)) (p + 1) = Some u).
    { rewrite zget_insert by done. by rewrite decide_False by lia. }
    unfold zget in Hz. rewrite decide_True in Hz by lia. rewrite Hz. by destruct u; simpl in Hav |- *; rewrite Hav.
Qed.

Lemma sync_idx_small s : inv s -> 0 <= prefix_idx s < 2 ^ 31.
Proof.
  intros Hinv. pose proof (ci_idx _ (inv_core _ _ Hinv)) as Hi. pose proof (ci_small _ (inv_core _ _ Hinv)) as Hs.
  simpl in *. lia.
Qed.

Lemma frame_thread s s' p t : frame s s' -> zget (threads s) p = Some t ->
  exists t', zget (threads s') p = Some t' /\ tview t' = tview t.
Proof. intros Hf. by apply mframe_thread, frame_mframe. Qed.

Lemma running_frame s s' p : running s p -> frame s s' -> aux_inv s' -> running s' p.
Proof.
  intros Hr Hf Ha. eapply running_step; [done|apply Hf|]. by eapply inv_frame; [apply Hr|..].
Qed.

(** The part of [do_atomic_store] before the bytes, for an update. *)
Lemma wp_update_origin s p ps (Q : unit -> TSOTraceBuilder -> Prop) t sb :
  running s (p + 1) -> Z.even p = true -> zget (threads s) p = Some t -> store_buffer t = ps :: sb ->
  (forall s', frame s s' -> running s' (p + 1) -> Q tt s') ->
  wp (t ← thread p;
      pst ← lift (store_buffer t !! 0%nat);
      _ ← massert (bool_decide (ps_store_event pst <> wrapu 32 (prefix_idx s)));
      _ ← add_happens_after (prefix_idx s) (ps_store_event pst);
      origin ← pfx (ps_store_event pst);
      curev_upd (fun e => set_ev_md (ps_md pst) (set_origin_iid (iid origin) e))) Q s.
Proof.
  intros Hr Hp Ht Hsb HQ. pose proof (rn_inv _ _ Hr) as Hinv. apply wp_bind. eapply wp_thread; [done|].
  rewrite Hsb. apply wp_bind. eapply wp_lift; [done|].
  assert (Hps : pending_inv (view s) p ps).
  { apply (ci_pending _ (inv_core _ _ Hinv) p (tview t)); [by apply zget_tview|]. simpl. rewrite Hsb. by left. }
  destruct (pi_event _ _ _ Hps) as [[He0 He1] Hpid]. simpl in He1. destruct (rn_event _ _ Hr) as [_ Hcur].
  assert (Hlt : ps_store_event ps < prefix_idx s).
  { assert (ps_store_event ps <> prefix_idx s); [|lia]. intros Heq. rewrite Heq, Hcur in Hpid. injection Hpid. lia. }
  pose proof (sync_idx_small s Hinv) as Hsm. change (2 ^ 31) with 2147483648 in Hsm.
  rewrite wrapu_id by (change (2 ^ 32) with 4294967296; lia).
  wp_assert; [apply bool_decide_eq_true; lia|]. apply wp_bind.
  apply wp_add_happens_after; [apply Hinv|apply Hinv|lia|lia|]. intros s1 Hf1 Ha1 _.
  assert (Hr1 : running s1 (p + 1)) by (by eapply running_frame).
  destruct (zget_lt (events (prefix s1)) (ps_store_event ps)) as [o Ho].
  { pose proof (ci_idx _ (inv_core _ _ (rn_inv _ _ Hr1))) as Hi. simpl in Hi. rewrite length_map, (frame_idx _ _ Hf1) in Hi. lia. }
  apply wp_bind. eapply wp_pfx; [done|].
  apply wp_curev_meta; [apply Hr1|apply Hr1|done|]. intros s2 Hf2 Ha2 _.
  apply HQ; [by eapply frame_trans|by eapply running_frame].
Qed.

(** No byte of [ml] has been updated by the current event, which records a
    store to [ml] when observers are tracked. *)
Definition may_update (s : TSOTraceBuilder) (ml : SymAddrSize) : Prop :=
  sas_ok ml /\ forall b, in_range ml b = true -> fresh s b /\ cur_observable s b.

Lemma may_update_frame s s' ml : frame s s' -> may_update s ml -> may_update s' ml.
Proof.
  intros Hf [Hml Hb]. split; [done|]. intros b Hr. destruct (Hb b Hr) as [H1 H2].
  split; [by eapply fresh_frame|by eapply cur_observable_run; [apply Hf|]].
Qed.

Lemma wp_store_bytes s ml ipid t (Q : list Z * list (Z * Z) -> TSOTraceBuilder -> Prop) :
  let tipid := if bool_decide (Z.rem ipid 2 <> 0) then ipid - 1 else ipid in
  inv s -> may_update s ml -> 0 <= tipid -> zget (threads s) tipid = Some t ->
  (forall st s', mframe s s' -> inv s' -> seen_ok (view s) st.1 -> pairs_ok (view s) st.2 ->
     (forall b, in_range ml b = true -> updated ml s' b) -> Q st s') ->
  wp (each_byte ml (atomic_store_byte conf ml ipid) ([], [])) Q s.
Proof.
  intros tipid Hinv [Hml Hup] Htip Ht HQ.
  apply (wp_each_byte s ml _ (updated ml)); [done|done|apply updated_local|by intros b Hb; apply Hup| |by eauto].
  intros b st s1 R Hb Hf1 Hinv1 Hfr Hs Hp HR. destruct (mframe_thread _ _ _ _ Hf1 Ht) as (t1 & Ht1 & _).
  apply (wp_atomic_store_byte s1 ml ipid t1 b st R); try done.
  eapply cur_observable_run; [apply Hf1|by apply Hup].
Qed.

Lemma rem_odd p : 0 <= p -> Z.even p = true -> Z.rem (p + 1) 2 <> 0 /\ Z.rem p 2 = 0.
Proof.
  intros Hp He. rewrite !Z.rem_mod_nonneg by lia. apply Z.even_spec in He as [k ->]. split; Z.to_euclidean_division_equations; lia.
Qed.

(** The commit of the oldest pending store of thread [p] by its auxiliary
    thread. *)
Lemma wp_do_atomic_store_update s p ps sb t sd (Q : unit -> TSOTraceBuilder -> Prop) :
  running s (p + 1) -> Z.even p = true -> zget (threads s) p = Some t -> store_buffer t = ps :: sb ->
  may_update s (sdr_ref sd) ->
  (forall s' t' u', running s' (p + 1) -> run s s' -> zget (threads s') p = Some t' -> store_buffer t' = sb ->
     zget (threads s') (p + 1) = Some u' -> available u' = negb (bool_decide (sb = [])) ->
     (forall b, in_range (sdr_ref sd) b = true -> updated (sdr_ref sd) s' b) -> Q tt s') ->
  wp (do_atomic_store conf sd) Q s.
Proof.
  intros Hr Hp Ht Hsb Hup HQ. pose proof (zget_Some _ _ _ Ht) as Hlt. unfold do_atomic_store. cbv zeta. wp_gets.
  rewrite (rn_dry _ _ Hr). apply wp_bind. eapply wp_running_curpid; [done|]. intros _.
  apply wp_bind. eapply wp_mark_conflict; [done|]. intros s1 Hf1 Hr1. wp_gets.
  destruct (rem_odd p) as [Hodd _]; [lia|done|]. rewrite bool_decide_true by done.
  replace (p + 1 - 1) with p by lia.
  destruct (frame_thread _ _ _ _ Hf1 Ht) as (t1 & Ht1 & Htv1).
  assert (Hsb1 : store_buffer t1 = ps :: sb) by (rewrite <- Hsb; exact (f_equal v_buffer Htv1)).
  apply wp_bind. eapply wp_update_origin; [done..|]. intros s2 Hf2 Hr2.
  assert (Hf02 : frame s s2) by (by eapply frame_trans). destruct (frame_thread _ _ _ _ Hf02 Ht) as (t2 & Ht2 & Htv2).
  apply wp_bind. eapply wp_store_bytes.
  { apply Hr2. }
  { by eapply may_update_frame. }
  { rewrite bool_decide_true by done. lia. }
  { rewrite bool_decide_true by done. by replace (p + 1 - 1) with p by lia. }
  intros st s3 Hf3 Hinv3 Hs3 Hp3 Hdone. destruct (mframe_thread _ _ _ _ Hf3 Ht2) as (t3 & Ht3 & Htv3).
  assert (Hr3 : running s3 (p + 1)) by (eapply running_step; [exact Hr2|apply Hf3|done]).
  assert (Hsb3 : store_buffer t3 = ps :: sb) by (rewrite <- Hsb; exact (f_equal v_buffer (eq_trans Htv3 Htv2))).
  destruct (even_pair s3 p Hinv3 Hp) as [u Hu]; [by eapply zget_Some|].
  assert (Hav : available u = true).
  { pose proof (ci_aux _ (inv_core _ _ Hinv3) p _ _ Hp (zget_tview _ _ _ Ht3) (zget_tview _ _ _ Hu)) as Hav.
    simpl in Hav. by rewrite Hsb3 in Hav. }
  apply wp_bind. simpl. apply wp_bind. eapply wp_thread; [exact Ht3|]. rewrite Hsb3.
  apply wp_bind. eapply wp_lift; [apply pop_front_tail|]. eapply wp_pop; [done..|].
  assert (Hinv4 : inv (set_buffer p t3 u sb s3)).
  { apply inv_set_buffer; [done..|]. intros ps' Hps'.
    apply (ci_pending _ (inv_core _ _ Hinv3) p (tview t3)); [by apply zget_tview|]. simpl. rewrite Hsb3. by right. }
  assert (Hv : v_idx (view s3) = v_idx (view s2)) by exact (mframe_idx _ _ Hf3).
  apply wp_see_all; [done|by apply (seen_ok_idx (view s2))|by apply (pairs_ok_idx (view s2))|].
  intros s5 Hf5 Hinv5.
  assert (Hsame : mem s5 = mem s3 /\ prefix_idx s5 = prefix_idx s3).
  { pose proof (fr_view _ _ Hf5) as Hv5. split; [exact (f_equal v_mem Hv5)|exact (f_equal v_idx Hv5)]. }
  destruct Hsame as [Hmem Hidx5].
  destruct (frame_thread _ _ p (set_store_buffer sb t3) Hf5) as (t5 & Ht5 & Htv5).
  { rewrite zget_set_buffer by done. by rewrite decide_True. }
  destruct (frame_thread _ _ (p + 1) (set_available (negb (bool_decide (sb = []))) u) Hf5) as (u5 & Hu5 & Huv5).
  { rewrite zget_set_buffer by done. by rewrite decide_False, decide_True by lia. }
  apply (HQ s5 t5 u5).
  - eapply running_step; [exact Hr3| |done]. eapply run_trans; [|apply Hf5]. by apply run_prefix.
  - eapply run_trans; [apply Hf02|]. eapply run_trans; [apply Hf3|]. eapply run_trans; [|apply Hf5]. by apply run_prefix.
  - done.
  - exact (f_equal v_buffer Htv5).
  - done.
  - exact (f_equal v_available Huv5).
  - intros b Hb. destruct (Hdone b Hb) as (m & Hm & ? & ?). exists m. by rewrite Hmem, Hidx5.
Qed.

(** ** Recording the event of an access *)

Record sdr_ok (sd : SymDataRef) (bs : list Z) : Prop := {
  so_block : sdr_block sd = Some bs;
  so_ref : sas_ok (sdr_ref sd);
  so_len : length bs = Z.to_nat (sas_size (sdr_ref sd));
  so_bytes : bytes bs;
}.

(** [ev] is the event of a store of [sd]. *)
Record store_event (sd : SymDataRef) (ev : SymEv) : Prop := {
  sv_store : symev_does_store ev = true;
  sv_arg : ev_arg ev = ArgAddr (sdr_ref sd);
  sv_written : ev_written ev = sdr_block sd;
  sv_rmw : ev_kind ev = RMW -> is_Some (ev_rmw_kind ev);
}.

Lemma store_event_writes sd bs ev : sdr_ok sd bs -> store_event sd ev -> writes ev (sdr_ref sd) bs.
Proof. intros [Hb Hr Hl Hbs] [H1 H2 H3 _]. rewrite Hb in H3. exact (conj H2 (conj H3 (conj Hr (conj Hl Hbs)))). Qed.

Lemma wp_record_update s p sd bs ev (Q : bool -> TSOTraceBuilder -> Prop) : running s p -> sdr_ok sd bs -> store_event sd ev ->
  (forall b, in_range (sdr_ref sd) b = true -> fresh s b) ->
  (forall s', frame s s' -> running s' p -> may_update s' (sdr_ref sd) -> Q true s') ->
  wp (record_symbolic ev) Q s.
Proof.
  intros Hr Hsd Hev Hfresh HQ. pose proof (store_event_writes sd bs ev Hsd Hev) as Hw.
  eapply wp_record_symbolic; [done|by split; [intros _; exists (sdr_ref sd), bs|apply Hev]|].
  intros s' e Hf Hr' He Hin. apply HQ; [done|done|]. pose proof (so_ref _ _ Hsd) as Hml.
  split; [done|]. intros b Hb. split; [by eapply fresh_frame, Hfresh|]. intros _. exists e.
  rewrite (frame_idx _ _ Hf). split; [done|]. exists ev, (sdr_ref sd). split; [done|].
  split; [apply Hev|]. split; [by apply (writes_addr _ _ bs); [apply Hev|]|]. by rewrite includes_in_range.
Qed.

(** [if (!m) return false; k] *)
Lemma wp_or_return m (k : M bool) (Q : bool -> TSOTraceBuilder -> Prop) s :
  wp m (fun ok s' => ok = true /\ wp k Q s') s -> wp (and_then m k) Q s.
Proof.
  intros Hm. unfold and_then. apply wp_bind. eapply wp_mono; [exact Hm|]. by intros ok s' [-> Hk].
Qed.

(** ** Read-modify-writes *)

Lemma land_lnot_even p : 0 <= p -> Z.even p = true -> real_of p = p.
Proof.
  intros Hp He. unfold real_of. apply Z.bits_inj'. intros n Hn. rewrite Z.land_spec, Z.lnot_spec by done.
  destruct (decide (n = 0)) as [->|Hne].
  - rewrite Z.bit0_odd, <- Z.negb_even, He. done.
  - replace (Z.testbit 1 n) with false; [by rewrite andb_true_r|].
    symmetry. apply Z.bits_above_log2; [lia|]. simpl. lia.
Qed.

Lemma wp_own_update_edge s ml lu_ml lu p (Q : unit -> TSOTraceBuilder -> Prop) : inv s -> 0 <= lu <= prefix_idx s ->
  stays s (Q tt) -> wp (own_update_edge ml lu_ml lu p) Q s.
Proof.
  intros Hinv Hlu HQ. unfold own_update_edge.
  pose proof (ci_idx _ (inv_core _ _ Hinv)) as Hi. simpl in Hi. rewrite length_map in Hi.
  destruct (zget_lt (events (prefix s)) lu) as [e He]; [lia|]. apply wp_bind. eapply wp_pfx; [done|]. wp_gets.
  apply wp_when; [|by intros _; apply (stays_refl s); [apply Hinv|]].
  intros [_ Hne%bool_decide_eq_true]%andb_true_iff. apply wp_add_happens_after; [apply Hinv|apply Hinv|lia|lia|done].
Qed.

Lemma wp_atomic_rmw_byte s ml action p b st (Q : list Z * list (Z * Z) -> TSOTraceBuilder -> Prop) :
  inv s -> fresh s b -> cur_observable s b -> seen_ok (view s) st.1 -> pairs_ok (view s) st.2 ->
  (forall st' s', byte_step (updated ml) b s s' st' -> Q st' s') ->
  wp (atomic_rmw_byte conf ml action p b st) Q s.
Proof.
  intros Hinv Hfresh Hco Hseen Hpairs HQ. unfold atomic_rmw_byte. cbv zeta.
  apply wp_bind, wp_mem_get; [done|]. intros m s1 Hf1 Hinv1 Hts1 Hm Hbo Hlt Hother.
  pose proof (mframe_idx _ _ Hf1) as Hidx. specialize (Hlt Hfresh).
  assert (Hv : v_idx (view s1) = v_idx (view s)) by exact Hidx.
  pose proof (ci_idx _ (inv_core _ _ Hinv1)) as Hlen. simpl in Hlen. rewrite length_map in Hlen.
  apply wp_bind. unfold pfx_len. apply wp_gets. wp_assert; [apply bool_decide_eq_true; unfold buf_len; lia|].
  apply wp_bind, wp_scan_last_reads; [apply Hinv1|apply Hm|by eapply seen_ok_idx|]. intros seen f Hs1.
  eapply pairs_ok_idx in Hpairs; [|exact Hv]. apply wp_bind.
  assert (Hrest : forall o m2 st2, looked s1 m m2 st2 -> (o = true -> unordered_updates m2 = []) -> stays s1 (fun s2 =>
    wp (_ ← massert (negb o || bool_decide (unordered_updates m2 = []));
        _ ← register_update conf ml p b m2; mret st2) Q s2)).
  { intros o m2 st2 [Hm2 Hl2 Hr2 Hs2 Hp2] Ho s2 Hf2 Ha2 Ht2.
    assert (Hidx2 : prefix_idx s2 = prefix_idx s) by (rewrite (frame_idx _ _ Hf2); done).
    assert (Hinv2 : inv s2) by (by eapply inv_frame).
    wp_assert; [by destruct o; simpl; [apply bool_decide_eq_true, Ho|]|].
    apply wp_bind. unfold register_update. wp_gets.
    eapply (wp_finish_update s s1 s2 ml b p m2 _ st2); try done; simpl.
    - by apply (byte_inv_idx (view s1)).
    - by rewrite Hl2, <- Hidx.
    - intros i Hi. pose proof (bi_read _ _ Hm2 i Hi) as Hlr. unfold maybe_event in *. by rewrite <- Hv.
    - rewrite Hidx2. by right.
    - by apply (seen_ok_idx (view s1)).
    - by apply (pairs_ok_idx (view s1)).
    - intros s' Hs'. by apply wp_ret, HQ. }
  destruct f; [|destruct (decide (0 <= last_update m)) as [H0|H0]].
  - apply wp_ret, Hrest; [|done|apply frame_refl|apply Hinv1|done]. split; simpl; [by apply byte_inv_clear|done..].
  - apply wp_bind. apply wp_own_update_edge; [done|lia|]. intros s2 Hf2 Ha2 Ht2.
    assert (Hinv2 : inv s2) by (by eapply inv_frame). pose proof (frame_idx _ _ Hf2) as Hidx2.
    destruct (zget_lt (events (prefix s2)) (last_update m)) as [e He].
    { pose proof (ci_idx _ (inv_core _ _ Hinv2)) as Hi. simpl in Hi. rewrite length_map in Hi. lia. }
    apply wp_bind. eapply wp_pfx; [done|].
    pose proof (event_ok_elem _ _ _ (inv_ax _ _ Hinv2) He) as Heok.
    assert (exists same, (match sym e with
                      | [e0] => if decide (ev_kind e0 = RMW) then
                                 k ← ev_rmw_kind e0; u ← ev_rmw_used e0;
                                 if rmwaction_commutes (conflict_conf conf) k u (ra_kind action) (ra_result_used action)
                                 then a ← ev_addr e0; Some (sas_eq a ml) else Some false
                               else Some false
                      | _ => Some false
                      end) = Some same) as [same Hsame].
    { destruct (sym e) as [|e0 [|? ?]] eqn:E; [by eexists| |by eexists].
      destruct (decide (ev_kind e0 = RMW)) as [Hk|]; [|by eexists].
      pose proof (eo_data _ _ Heok) as Hd. rewrite E in Hd. apply Forall_cons in Hd as [Hd _].
      destruct (sym_ok_addr e0) as [a Ha]; [done|by unfold symev_does_store; rewrite Hk|].
      destruct (proj2 Hd Hk) as [k ->]. unfold ev_rmw_used, has_rmwaction. rewrite bool_decide_true by done.
      cbn [mbind option_bind cassert]. rewrite Ha. destruct (rmwaction_commutes _ _ _ _ _); by eexists. }
    apply wp_bind. eapply wp_lift; [exact Hsame|].
    assert (Hwp : wp (r ← (if negb same then observe_memory conf b m seen st.2 true
      else s ← lift (insert_set seen (before_unordered m)); mret (m, (s.1, st.2))); mret (negb same, r))
      (fun r s' => wp (let bi := r.2.1 in _ ← massert (negb r.1 || bool_decide (unordered_updates bi = []));
         _ ← register_update conf ml p b bi; mret r.2.2) Q s') s2).
    { apply wp_bind. pose proof (fr_view _ _ Hf2) as Hv2.
      apply (wp_merge_or_observe s2 b m (seen, st.2)); rewrite ?Hv2; [done|done| |by rewrite Hidx2|done|done|].
      { eapply run_observable; [apply Hf2|done]. }
      intros m' st' [L1 L2 L3 L4 L5] He' s3 Hf3 Ha3 Ht3. rewrite ?Hv2 in *. apply wp_ret.
      apply Hrest; [by split| |by eapply frame_trans|done|congruence].
      intros Hs. apply He'. by destruct same. }
    destruct same; [exact (wp_assoc _ _ _ _ _ Hwp)|exact Hwp].
  - apply wp_ret, Hrest; [by split|done|apply frame_refl|apply Hinv1|done].
Qed.

(** The store buffer of thread [p] is empty. *)
Definition flushed (s : TSOTraceBuilder) (p : Z) : Prop :=
  exists t, zget (threads s) p = Some t /\ store_buffer t = [].

Lemma flushed_frame s s' p : frame s s' -> flushed s p -> flushed s' p.
Proof.
  intros Hf (t & Ht & Hb). destruct (frame_thread _ _ _ _ Hf Ht) as (t' & Ht' & Htv). exists t'. split; [done|].
  rewrite <- Hb. exact (f_equal v_buffer Htv).
Qed.

Lemma wp_assert_buffer_empty s p (Q : unit -> TSOTraceBuilder -> Prop) : flushed s p -> Q tt s -> wp (assert_buffer_empty p) Q s.
Proof.
  intros (t & Ht & Hb) HQ. unfold assert_buffer_empty. apply wp_bind. eapply wp_thread; [done|].
  apply wp_massert; [by apply bool_decide_eq_true|done].
Qed.

(** The edge from the last commit of the current thread's own buffer. *)
Lemma wp_own_aux_edge s p (Q : unit -> TSOTraceBuilder -> Prop) : running s p -> Z.even p = true ->
  (forall s', frame s s' -> running s' p -> Q tt s') -> wp (add_happens_after_thread (prefix_idx s) (p + 1)) Q s.
Proof.
  intros Hr Hp HQ. destruct (real_pair s p Hr Hp) as (t & u & Ht & Hu).
  eapply wp_add_happens_after_thread; [apply Hr|apply Hr|done| |].
  - intros [_ Hq]. destruct (rn_event _ _ Hr) as [_ Hp']. rewrite Hq in Hp'. injection Hp'. lia.
  - intros s' Hf Ha _. apply HQ; [done|by eapply running_frame].
Qed.

Lemma wp_fence s p (Q : bool -> TSOTraceBuilder -> Prop) : running s p -> Z.even p = true -> flushed s p ->
  (forall s', frame s s' -> running s' p -> Q true s') -> wp fence Q s.
Proof.
  intros Hr Hp Hb HQ. destruct (real_pair s p Hr Hp) as (t & u & Ht & Hu). pose proof (zget_Some _ _ _ Ht) as Hlt.
  unfold fence. wp_gets. rewrite (rn_dry _ _ Hr). apply wp_bind. eapply wp_running_curpid; [done|]. intros _.
  destruct (rem_odd p) as [_ Hrem]; [lia|done|]. wp_assert; [by apply bool_decide_eq_true|].
  apply wp_bind, wp_assert_buffer_empty; [done|]. wp_gets. apply wp_bind, (wp_own_aux_edge s p); [done|done|].
  intros s1 Hf1 Hr1. by apply wp_ret, HQ.
Qed.

(** What an access by the thread itself leaves: only the memory changed. *)
Record accessed (s s' : TSOTraceBuilder) (p : Z) : Prop := {
  ac_frame : mframe s s';
  ac_running : running s' p;
}.

Lemma wp_atomic_rmw s p sd bs action ev (Q : bool -> TSOTraceBuilder -> Prop) :
  running s p -> Z.even p = true -> flushed s p -> sdr_ok sd bs -> SymEv_Rmw sd action = Some ev ->
  (forall b, in_range (sdr_ref sd) b = true -> fresh s b) ->
  (forall s', accessed s s' p -> (forall b, in_range (sdr_ref sd) b = true -> updated (sdr_ref sd) s' b) -> Q true s') ->
  wp (atomic_rmw conf sd action) Q s.
Proof.
  intros Hr Hp Hb Hsd Hev Hfresh HQ. unfold atomic_rmw. cbv zeta. apply wp_bind. eapply wp_mark_conflict; [done|].
  intros s1 Hf1 Hr1. apply wp_bind. eapply wp_lift; [done|]. apply wp_or_return.
  assert (Hse : store_event sd ev).
  { unfold SymEv_Rmw in Hev. rewrite (so_block _ _ Hsd) in Hev. simpl in Hev. injection Hev as <-.
    split; [done|done|by rewrite (so_block _ _ Hsd)|by eexists]. }
  eapply wp_record_update; [done..| |].
  { intros b Hin. by eapply fresh_frame, Hfresh. }
  intros s2 Hf2 Hr2 Hmay. split; [done|]. assert (Hf02 : frame s s2) by (by eapply frame_trans).
  destruct (real_pair s2 p Hr2 Hp) as (t & u & Ht & Hu). pose proof (zget_Some _ _ _ Ht) as Hlt.
  wp_gets. rewrite (rn_dry _ _ Hr2). apply wp_bind. eapply wp_running_curpid; [done|]. intros _.
  destruct (rem_odd p) as [_ Hrem]; [lia|done|]. wp_assert; [by apply bool_decide_eq_true|]. wp_gets.
  apply wp_bind, wp_assert_buffer_empty; [by eapply flushed_frame|].
  apply wp_bind, (wp_own_aux_edge s2 p); [done|done|]. intros s3 Hf3 Hr3.
  apply wp_bind. destruct (may_update_frame _ _ _ Hf3 Hmay) as [Hml Hupd].
  apply (wp_each_byte s3 (sdr_ref sd) _ (updated (sdr_ref sd))); [done|apply Hr3|apply updated_local|by intros b Hin; apply Hupd| |].
  { intros b st s4 R Hin Hf4 Hinv4 Hfr4 Hs4 Hp4 HR. apply wp_atomic_rmw_byte; try done.
    eapply cur_observable_run; [apply Hf4|by apply Hupd]. }
  intros st s4 Hf4 Hinv4 Hs4 Hp4 Hdone _. assert (Hv : v_idx (view s4) = v_idx (view s3)) by exact (mframe_idx _ _ Hf4).
  apply wp_see_all_then; [done|by apply (seen_ok_idx (view s3))|by apply (pairs_ok_idx (view s3))|].
  intros s5 Hf5 Hinv5. apply wp_ret. pose proof (fr_view _ _ Hf5) as Hv5.
  assert (Hmf : mframe s s5).
  { eapply mframe_trans; [apply frame_mframe; eapply frame_trans; [exact Hf02|exact Hf3]|].
    eapply mframe_trans; [exact Hf4|by apply frame_mframe]. }
  apply HQ.
  - split; [done|]. eapply running_step; [exact Hr|apply Hmf|done].
  - intros b Hin. destruct (Hdone b Hin) as (m & Hm & ? & ?). exists m.
    pose proof (f_equal v_mem Hv5) as Hmem. pose proof (f_equal v_idx Hv5) as Hidx. simpl in Hmem, Hidx.
    by rewrite Hmem, Hidx.
Qed.

(** ** Loads *)

(** Byte [b] has been read from memory by thread [p] in the current event. *)
Definition read_by (p : Z) (s : TSOTraceBuilder) (b : SymAddr) : Prop :=
  exists m, map_lookup (mem s) b = Some m /\ last_read_get (last_read m) (Z.quot p 2) = Some (prefix_idx s) /\
    last_update m < prefix_idx s.

Lemma read_by_local p : local (read_by p).
Proof. intros s s' b Hl Hi (m & Hm & H1). exists m. by rewrite Hl, Hi. Qed.

Lemma byte_inv_read v m lr : byte_inv v m -> (forall i, i ∈ lr -> maybe_event v i) -> byte_inv v (set_last_read lr m).
Proof. intros [H1 H2 H3 H4 H5] Hlr. by split. Qed.

Lemma wp_load_byte s ml p b st (Q : list Z * list (Z * Z) -> TSOTraceBuilder -> Prop) :
  inv s -> fresh s b -> seen_ok (view s) st.1 -> pairs_ok (view s) st.2 -> 0 <= p ->
  (forall st' s', byte_step (read_by p) b s s' st' -> Q st' s') -> wp (load_byte conf ml p b st) Q s.
Proof.
  intros Hinv Hfresh Hseen Hpairs Hp HQ. unfold load_byte. cbv zeta.
  apply wp_bind, wp_mem_get; [done|]. intros m s1 Hf1 Hinv1 Hts1 Hm Hbo Hlt Hother.
  pose proof (mframe_idx _ _ Hf1) as Hidx. specialize (Hlt Hfresh).
  assert (Hv : v_idx (view s1) = v_idx (view s)) by exact Hidx.
  assert (Hrest : stays s1 (fun s2 => wp (o ← observe_memory conf b m st.1 st.2 false;
    i ← gets prefix_idx; lr ← lift (last_read_set (last_read o.1) (Z.quot p 2) i);
    _ ← mem_put b (set_last_read lr o.1); _ ← wakeup conf ACC_R b; mret o.2) Q s2)).
  { intros s2 Hf2 Ha2 Ht2. pose proof (fr_view _ _ Hf2) as Hv2. assert (Hinv2 : inv s2) by (by eapply inv_frame).
    pose proof (frame_idx _ _ Hf2) as Hidx2.
    apply wp_bind, wp_observe_memory; rewrite ?Hv2; [apply Hinv1|done|done| | | |by rewrite Hidx2|].
    { eapply run_observable; [apply Hf2|done]. }
    { by apply (seen_ok_idx (view s)). }
    { by apply (pairs_ok_idx (view s)). }
    intros m' seen' pairs' [Hm' Hl' Hr' _] Hs' Hp' s3 Hf3 Ha3 Ht3. wp_gets.
    assert (Hf13 : frame s1 s3) by (by eapply frame_trans). assert (Hinv3 : inv s3) by (by eapply inv_frame).
    assert (Hidx3 : prefix_idx s3 = prefix_idx s) by (rewrite (frame_idx _ _ Hf13); exact Hidx).
    assert (Hmem3 : mem s3 = mem s1) by exact (f_equal v_mem (fr_view _ _ Hf13)).
    destruct (last_read_set_spec (last_read m') (Z.quot p 2) (prefix_idx s3)) as (lr & Hlr & Hget & Hel).
    { apply Z.quot_pos; lia. }
    apply wp_bind. eapply wp_lift; [exact Hlr|]. apply wp_assoc, wp_bind. pose proof (inv_idx _ Hinv3) as H0.
    apply wp_put_wakeup; [done| | |done|].
    - apply byte_inv_read; [by apply (byte_inv_idx (view s1)); [rewrite (fr_view _ _ Hf13)|]|].
      intros i Hi. rewrite (fr_view _ _ Hf13). apply Hel in Hi as [->|[->|Hi]].
      + unfold maybe_event. simpl. rewrite (frame_idx _ _ Hf13) in *. lia.
      + unfold maybe_event. simpl. rewrite (frame_idx _ _ Hf13) in *. lia.
      + by apply (bi_read _ _ Hm').
    - intros Hc. simpl. rewrite Hl'. intros Hlu. destruct (Hbo Hc Hlu) as (e & He & Ho).
      destruct (ru_obs _ _ (fr_run _ _ Hf13) _ _ He) as (e' & He' & Ho'). exists e'. auto.
    - intros s4 Hf4 Hinv4 Hmem4. apply wp_ret, HQ. pose proof (mframe_idx _ _ Hf4) as Hidx4.
      split; simpl; [|done|by apply (seen_ok_idx (view s1))|by apply (pairs_ok_idx (view s1))| |].
      + eapply mframe_trans; [exact Hf1|]. eapply mframe_trans; [by apply frame_mframe|done].
      + intros b' Hne. rewrite Hmem4, map_lookup_insert_ne, Hmem3 by done. by apply Hother.
      + exists (set_last_read lr m'). rewrite Hmem4, map_lookup_insert_eq, Hidx4. split_and!; [done|done|].
        simpl. rewrite Hl', Hidx3, <- Hidx. done. }
  case_decide as Hlu; [|apply Hrest; [apply frame_refl|apply Hinv1|done]].
  apply wp_bind. apply wp_own_update_edge; [done|lia|exact Hrest].
Qed.

(** [find_rowe] finds the newest pending store to the address. *)
Definition newest (sb : list PendingStore) (a : SymAddr) (n : nat) (r : option nat) : Prop :=
  match r with
  | Some k => (k < n)%nat /\ (exists ps, sb !! k = Some ps /\ sa_eq (sas_addr (ps_ml ps)) a = true) /\
      forall i ps, (k < i < n)%nat -> sb !! i = Some ps -> sa_eq (sas_addr (ps_ml ps)) a = false
  | None => forall i ps, (i < n)%nat -> sb !! i = Some ps -> sa_eq (sas_addr (ps_ml ps)) a = false
  end.

Lemma find_rowe_spec sb a n : (n <= length sb)%nat -> exists r, find_rowe n sb a = Some r /\ newest sb a n r.
Proof.
  induction n as [|n IH]; intros Hn; cbn [find_rowe].
  { exists None. split; [done|]. intros i ps Hi. lia. }
  destruct (lookup_lt_exists sb n) as [ps Hps]; [lia|]. rewrite Hps. cbn [mbind option_bind].
  destruct (sa_eq (sas_addr (ps_ml ps)) a) eqn:E.
  - exists (Some n). split; [done|]. split_and!; [lia|by exists ps|]. intros i ps' Hi. lia.
  - destruct IH as (r & -> & Hr); [lia|]. exists r. split; [done|]. destruct r as [k|]; simpl in *.
    + destruct Hr as (Hk & Hm & Hno). split_and!; [lia|done|]. intros i ps' Hi Hps'.
      destruct (decide (i = n)) as [->|]; [congruence|]. apply (Hno i); [lia|done].
    + intros i ps' Hi Hps'. destruct (decide (i = n)) as [->|]; [congruence|]. apply (Hr i); [lia|done].
Qed.

(** A load reads its own newest pending store, or memory. *)
Inductive loaded (s s' : TSOTraceBuilder) (p : Z) (ml : SymAddrSize) (t : Thread) : Prop :=
  | loaded_forward k ps t' :
      newest (store_buffer t) (sas_addr ml) (length (store_buffer t)) (Some k) -> store_buffer t !! k = Some ps ->
      zget (threads s') p = Some t' -> store_buffer t' = <[k := set_ps_last_rowe (prefix_idx s) ps]> (store_buffer t) ->
      mem s' = mem s -> loaded s s' p ml t
  | loaded_memory :
      newest (store_buffer t) (sas_addr ml) (length (store_buffer t)) None -> mframe s s' ->
      (forall b, in_range ml b = true -> read_by p s' b) -> loaded s s' p ml t.

Lemma inv_set_rowe s p t k ps i : inv s -> zget (threads s) p = Some t -> Z.even p = true -> maybe_event (view s) i ->
  store_buffer t !! k = Some ps ->
  inv (set_threads (<[Z.to_nat p := set_store_buffer (<[k := set_ps_last_rowe i ps]> (store_buffer t)) t]> (threads s)) s).
Proof.
  intros Hinv Ht Hp Hi Hk. set (sb := <[k := set_ps_last_rowe i ps]> (store_buffer t)).
  destruct (even_pair s p Hinv Hp) as [u Hu]; [by eapply zget_Some|].
  assert (Hpend : forall ps', ps' ∈ store_buffer t -> pending_inv (view s) p ps').
  { intros ps' Hps'. by apply (ci_pending _ (inv_core _ _ Hinv) p (tview t)); [apply zget_tview|]. }
  assert (Hb : inv (set_buffer p t u sb s)).
  { apply inv_set_buffer; [done..|]. intros ps' [->|Hps']%elem_insert; [|by apply Hpend].
    destruct (Hpend ps) as [H1 H2 H3]; [by eapply list_elem_of_lookup_2|]. by split. }
  unfold set_buffer in Hb. rewrite list_insert_id in Hb; [done|].
  pose proof (ci_aux _ (inv_core _ _ Hinv) p _ _ Hp (zget_tview _ _ _ Ht) (zget_tview _ _ _ Hu)) as Hav. simpl in Hav.
  assert (Hsb : bool_decide (sb = []) = false).
  { apply bool_decide_eq_false. intros He. apply (f_equal length) in He. unfold sb in He. rewrite length_insert in He.
    apply lookup_lt_Some in Hk. simpl in He. lia. }
  assert (Hsb' : bool_decide (store_buffer t = []) = false).
  { apply bool_decide_eq_false. intros He. by rewrite He in Hk. }
  rewrite Hsb' in Hav. rewrite Hsb.
  pose proof (zget_Some _ _ _ Ht) as Hlt. pose proof (zget_Some _ _ _ Hu) as Hlu. unfold zget in Hu. rewrite decide_True in Hu by lia.
  rewrite list_lookup_insert_ne, Hu by lia. by destruct u; simpl in Hav |- *; rewrite Hav.
Qed.

Lemma run_set_threads s ts : run s (set_threads ts s).
Proof. by apply run_prefix. Qed.

Lemma wp_do_load s p t ml (Q : unit -> TSOTraceBuilder -> Prop) :
  running s p -> Z.even p = true -> zget (threads s) p = Some t -> sas_ok ml ->
  (forall b, in_range ml b = true -> fresh s b) ->
  (forall s' t0, running s' p -> run s s' -> tview t0 = tview t -> loaded s s' p ml t0 ->
    (forall b, in_range ml b = true -> fresh s' b) -> Q tt s') ->
  wp (do_load conf ml) Q s.
Proof.
  intros Hr Hp Ht Hml Hfresh HQ. unfold do_load. wp_gets. rewrite (rn_dry _ _ Hr).
  apply wp_bind. eapply wp_mark_conflict; [done|]. intros s1 Hf1 Hr1. pose proof (frame_idx _ _ Hf1) as Hidx1.
  apply wp_bind. eapply wp_running_curpid; [done|]. intros _.
  destruct (frame_thread _ _ _ _ Hf1 Ht) as (t1 & Ht1 & Htv). apply wp_bind. eapply wp_thread; [exact Ht1|]. wp_gets.
  destruct (find_rowe_spec (store_buffer t1) (sas_addr ml) (length (store_buffer t1))) as (r & Hfind & Hnew); [done|].
  apply wp_bind. eapply wp_lift; [exact Hfind|]. destruct r as [k|].
  - pose proof Hnew as (Hk & (ps & Hps & _) & _). apply wp_bind. eapply wp_lift; [exact Hps|].
    apply wp_bind. eapply wp_lift; [by apply vset_Some|]. eapply wp_thread_upd_raw; [exact Ht1|].
    pose proof (inv_idx _ (rn_inv _ _ Hr1)) as H0.
    set (s2 := set_threads _ s1).
    assert (Hinv2 : inv s2).
    { apply (inv_set_rowe s1 p t1 k ps); [apply Hr1|done|done|split; simpl; lia|done]. }
    apply (HQ s2 t1); [|eapply run_trans; [apply Hf1|by apply run_prefix]|done| |].
    + eapply running_step; [exact Hr1|by apply run_prefix|done].
    + eapply (loaded_forward s s2 p ml t1 k ps); [done|done| | |].
      * simpl. rewrite zget_insert by (by eapply zget_Some). by rewrite decide_True.
      * simpl. by rewrite Hidx1.
      * simpl. exact (f_equal v_mem (fr_view _ _ Hf1)).
    + intros b Hb. apply (fresh_local s1); [done|done|]. by eapply fresh_frame, Hfresh.
  - apply wp_bind. pose proof (zget_Some _ _ _ Ht) as Hlt.
    apply (wp_each_byte s1 ml _ (read_by p)); [done|apply Hr1|apply read_by_local| | |].
    + intros b Hb. by eapply fresh_frame, Hfresh.
    + intros b st s2 R Hb Hf2 Hinv2 Hfr2 Hs2 Hp2 HR. apply wp_load_byte; [done..|lia|done].
    + intros st s2 Hf2 Hinv2 Hs2 Hp2 Hdone Hout.
      assert (Hv : v_idx (view s2) = v_idx (view s1)) by exact (mframe_idx _ _ Hf2).
      apply wp_see_all; [done|by apply (seen_ok_idx (view s1))|by apply (pairs_ok_idx (view s1))|].
      intros s3 Hf3 Hinv3.
      assert (Hmf : mframe s s3).
      { eapply mframe_trans; [by apply frame_mframe|]. eapply mframe_trans; [exact Hf2|by apply frame_mframe]. }
      assert (Hread : forall b, in_range ml b = true -> read_by p s3 b).
      { intros b Hb. apply (read_by_local p s2); [|by apply frame_idx|by apply Hdone].
        f_equal. exact (f_equal v_mem (fr_view _ _ Hf3)). }
      apply (HQ s3 t1); [|apply Hmf|done|by apply loaded_memory|].
      * eapply running_step; [exact Hr|apply Hmf|done].
      * intros b Hb m Hm. destruct (Hread b Hb) as (m' & Hm' & _ & Hlt'). congruence.
Qed.

Lemma wp_load s p t ml (Q : bool -> TSOTraceBuilder -> Prop) :
  running s p -> Z.even p = true -> zget (threads s) p = Some t -> sas_ok ml ->
  (forall b, in_range ml b = true -> fresh s b) ->
  (forall s' s1 t0, frame s s1 -> running s' p -> run s s' -> tview t0 = tview t -> loaded s1 s' p ml t0 -> Q true s') ->
  wp (load conf ml) Q s.
Proof.
  intros Hr Hp Ht Hml Hfresh HQ. unfold load. apply wp_or_return.
  eapply wp_record_symbolic; [done|by split|]. intros s1 e Hf1 Hr1 He Hin. split; [done|].
  destruct (frame_thread _ _ _ _ Hf1 Ht) as (t1 & Ht1 & Htv). apply wp_bind.
  eapply wp_do_load; [done|done|exact Ht1|done|by intros b Hb; eapply fresh_frame, Hfresh|].
  intros s2 t2 Hr2 Hrun Htv2 Hl _. apply wp_ret. eapply HQ; [exact Hf1|done| |by rewrite Htv2|done].
  eapply run_trans; [apply Hf1|done].
Qed.

Lemma loaded_frame s s1 s' p ml t : frame s s1 -> loaded s1 s' p ml t -> loaded s s' p ml t.
Proof.
  intros Hf [k ps t' H1 H2 H3 H4 H5|H1 H2 H3].
  - eapply loaded_forward; [done|done|done|by rewrite H4, (frame_idx _ _ Hf)|].
    rewrite H5. exact (f_equal v_mem (fr_view _ _ Hf)).
  - apply loaded_memory; [done| |done]. eapply mframe_trans; [by apply frame_mframe|done].
Qed.

(** A store by the thread itself, which has flushed its buffer. *)
Lemma wp_do_atomic_store_direct s p sd (Q : unit -> TSOTraceBuilder -> Prop) :
  running s p -> Z.even p = true -> flushed s p -> may_update s (sdr_ref sd) ->
  (forall s', accessed s s' p -> (forall b, in_range (sdr_ref sd) b = true -> updated (sdr_ref sd) s' b) -> Q tt s') ->
  wp (do_atomic_store conf sd) Q s.
Proof.
  intros Hr Hp Hb Hup HQ. destruct (real_pair s p Hr Hp) as (t & u & Ht & Hu). pose proof (zget_Some _ _ _ Ht) as Hlt.
  unfold do_atomic_store. cbv zeta. wp_gets.
  rewrite (rn_dry _ _ Hr). apply wp_bind. eapply wp_running_curpid; [done|]. intros _.
  apply wp_bind. eapply wp_mark_conflict; [done|]. intros s1 Hf1 Hr1. wp_gets.
  destruct (rem_odd p) as [_ Heven]; [lia|done|]. rewrite bool_decide_false by (by intros []).
  destruct (frame_thread _ _ _ _ Hf1 Ht) as (t1 & Ht1 & Htv1).
  apply wp_bind, wp_bind, wp_assert_buffer_empty; [by eapply flushed_frame|].
  apply (wp_own_aux_edge s1 p); [done|done|]. intros s2 Hf2 Hr2.
  assert (Hf02 : frame s s2) by (by eapply frame_trans). destruct (frame_thread _ _ _ _ Hf02 Ht) as (t2 & Ht2 & Htv2).
  apply wp_bind. eapply wp_store_bytes.
  { apply Hr2. }
  { by eapply may_update_frame. }
  { rewrite bool_decide_false by (by intros []). lia. }
  { rewrite bool_decide_false by (by intros []). exact Ht2. }
  intros st s3 Hf3 Hinv3 Hs3 Hp3 Hdone. apply wp_bind, wp_when_false.
  assert (Hv : v_idx (view s3) = v_idx (view s2)) by exact (mframe_idx _ _ Hf3).
  apply wp_see_all; [done|by apply (seen_ok_idx (view s2))|by apply (pairs_ok_idx (view s2))|].
  intros s4 Hf4 Hinv4.
  assert (Hmf : mframe s s4).
  { eapply mframe_trans; [by apply frame_mframe|]. eapply mframe_trans; [exact Hf3|by apply frame_mframe]. }
  apply HQ; [split; [done|by eapply running_step; [exact Hr|apply Hmf|]]|].
  intros b Hin. apply (updated_local _ s3); [f_equal; exact (f_equal v_mem (fr_view _ _ Hf4))|by apply frame_idx|by apply Hdone].
Qed.

Lemma store_event_stores sd bs : sdr_ok sd bs ->
  store_event sd (if decide (dpor_algorithm conf = OBSERVERS) then SymEv_UnobsStore sd else SymEv_Store sd).
Proof. intros _. by destruct (decide _). Qed.

Lemma wp_atomic_store_update s p ps sb t sd bs (Q : bool -> TSOTraceBuilder -> Prop) :
  running s (p + 1) -> Z.even p = true -> zget (threads s) p = Some t -> store_buffer t = ps :: sb ->
  sdr_ok sd bs -> (forall b, in_range (sdr_ref sd) b = true -> fresh s b) ->
  (forall s' t' u', running s' (p + 1) -> run s s' -> zget (threads s') p = Some t' -> store_buffer t' = sb ->
     zget (threads s') (p + 1) = Some u' -> available u' = negb (bool_decide (sb = [])) ->
     (forall b, in_range (sdr_ref sd) b = true -> updated (sdr_ref sd) s' b) -> Q true s') ->
  wp (atomic_store conf sd) Q s.
Proof.
  intros Hr Hp Ht Hsb Hsd Hfresh HQ. unfold atomic_store. apply wp_or_return.
  eapply wp_record_update; [done..|by eapply store_event_stores|done|]. intros s1 Hf1 Hr1 Hup. split; [done|].
  destruct (frame_thread _ _ _ _ Hf1 Ht) as (t1 & Ht1 & Htv1). apply wp_bind.
  eapply wp_do_atomic_store_update; [done|done|done| |done|].
  { rewrite <- Hsb. exact (f_equal v_buffer Htv1). }
  intros s2 t2 u2 Hr2 Hrun2 Ht2 Hsb2 Hu2 Hav2 Hdone. apply wp_ret.
  apply (HQ s2 t2 u2); try done. eapply run_trans; [apply Hf1|done].
Qed.

Lemma wp_atomic_store_direct s p sd bs (Q : bool -> TSOTraceBuilder -> Prop) :
  running s p -> Z.even p = true -> flushed s p -> sdr_ok sd bs ->
  (forall b, in_range (sdr_ref sd) b = true -> fresh s b) ->
  (forall s', accessed s s' p -> (forall b, in_range (sdr_ref sd) b = true -> updated (sdr_ref sd) s' b) -> Q true s') ->
  wp (atomic_store conf sd) Q s.
Proof.
  intros Hr Hp Hb Hsd Hfresh HQ. unfold atomic_store. apply wp_or_return.
  eapply wp_record_update; [done..|by eapply store_event_stores|done|]. intros s1 Hf1 Hr1 Hup. split; [done|].
  apply wp_bind, (wp_do_atomic_store_direct s1 p); [done|done|by eapply flushed_frame|done|].
  intros s2 [Hmf Hr2] Hdone. apply wp_ret, HQ; [|done]. split; [|done].
  eapply mframe_trans; [by apply frame_mframe|done].
Qed.

Lemma store_event_cmpxhg sd expected : store_event sd (SymEv_CmpXhg sd expected).
Proof. done. Qed.

(** A compare-and-exchange reads, and writes when it succeeds. *)
Lemma wp_compare_exchange s p sd bs expected success (Q : bool -> TSOTraceBuilder -> Prop) :
  running s p -> Z.even p = true -> flushed s p -> sdr_ok sd bs ->
  (forall b, in_range (sdr_ref sd) b = true -> fresh s b) ->
  (forall s', accessed s s' p -> (forall b, in_range (sdr_ref sd) b = true ->
     if success : bool then updated (sdr_ref sd) s' b else read_by p s' b) -> Q true s') ->
  wp (compare_exchange conf sd expected success) Q s.
Proof.
  intros Hr Hp (t & Ht & Hb) Hsd Hfresh HQ. unfold compare_exchange.
  assert (Hload : forall s1 (R : unit -> TSOTraceBuilder -> Prop), frame s s1 -> running s1 p -> (forall s2, mframe s1 s2 -> running s2 p ->
    (forall b, in_range (sdr_ref sd) b = true -> read_by p s2 b /\ fresh s2 b) -> R tt s2) -> wp (do_load conf (sdr_ref sd)) R s1).
  { intros s1 R Hf1 Hr1 HR. destruct (frame_thread _ _ _ _ Hf1 Ht) as (t1 & Ht1 & Htv1).
    eapply wp_do_load; [done|done|exact Ht1|apply Hsd|by intros b Hin; eapply fresh_frame, Hfresh|].
    intros s2 t2 Hr2 Hrun Htv2 Hl Hfr. apply HR; [|done|].
    - destruct Hl as [k ps t' (Hk & _) _ _ _ _|]; [|done]. rewrite (f_equal v_buffer (eq_trans Htv2 Htv1) : store_buffer t2 = _) in Hk.
      simpl in Hk. rewrite Hb in Hk. simpl in Hk. lia.
    - destruct Hl as [k ps t' (Hk & _) _ _ _ _|_ _ Hread]; [|by auto].
      rewrite (f_equal v_buffer (eq_trans Htv2 Htv1) : store_buffer t2 = _) in Hk.
      simpl in Hk. rewrite Hb in Hk. simpl in Hk. lia. }
  destruct success; apply wp_or_return.
  - eapply wp_record_update; [done..|apply store_event_cmpxhg|done|]. intros s1 Hf1 Hr1 [Hml Hup]. split; [done|].
    apply wp_bind, Hload; [done|done|]. intros s2 Hf2 Hr2 Hread. apply wp_bind.
    apply (wp_do_atomic_store_direct s2 p); [done|done| | |].
    + destruct (mframe_thread _ _ _ t (mframe_trans _ _ _ (frame_mframe _ _ Hf1) Hf2) Ht) as (t2 & Ht2 & Htv2).
      exists t2. split; [done|]. rewrite <- Hb. exact (f_equal v_buffer Htv2).
    + split; [done|]. intros b Hin. split; [by apply Hread|]. eapply cur_observable_run; [apply Hf2|by apply Hup].
    + intros s3 [Hmf Hr3] Hdone. apply wp_ret, HQ; [|done]. split; [|done].
      eapply mframe_trans; [by apply frame_mframe|by eapply mframe_trans].
  - eapply wp_record_symbolic; [done|by split|]. intros s1 e Hf1 Hr1 _ _. split; [done|].
    apply wp_bind, Hload; [done|done|]. intros s2 Hf2 Hr2 Hread. apply wp_ret, HQ; [|by intros b Hin; apply Hread].
    split; [|done]. eapply mframe_trans; [by apply frame_mframe|done].
Qed.

(** ** Full memory conflicts *)

Lemma wp_ins_all {A} (f : A -> Z) v (l : list A) s seen (Q : list Z -> TSOTraceBuilder -> Prop) :
  seen_ok v seen -> (forall x, x ∈ l -> maybe_event v (f x)) ->
  (forall seen', seen_ok v seen' -> (forall y, y ∈ seen' <-> y ∈ seen \/ y ∈ map f l) -> Q seen' s) ->
  wp (loop l (fun x seen => ins seen (f x)) seen) Q s.
Proof.
  revert seen. induction l as [|x l IH]; intros seen Hs Hl HQ; cbn [loop].
  - apply wp_ret, HQ; [done|]. intros y. simpl. rewrite elem_of_nil. tauto.
  - apply wp_bind. eapply wp_ins_seen; [done|by apply Hl; left|]. intros seen1 Hs1 Hel.
    apply IH; [done|by intros y Hy; apply Hl; right|]. intros seen2 Hs2 Hel2. apply HQ; [done|].
    intros y. rewrite Hel2, Hel. cbn [map]. rewrite elem_of_cons. tauto.
Qed.

Lemma inv_set_lfmc s i : inv s -> maybe_event (view s) i -> inv (set_last_full_memory_conflict i s).
Proof. intros [Hc Ha Ho] Hi. split; [by apply (core_with_lfmc (view s))|by eapply aux_inv_keep; [|..|apply Ha]|done]. Qed.

Lemma wp_full_memory_conflict s p (Q : bool -> TSOTraceBuilder -> Prop) :
  running s p -> (forall b m, (b, m) ∈ mem s -> last_update m < prefix_idx s) ->
  (forall s', running s' p -> run s s' -> mem s' = [] -> last_full_memory_conflict s' = prefix_idx s ->
     view_with_lfmc (v_lfmc (view s)) (view_with_mem (mem s) (view s')) = view s -> Q true s') ->
  wp (full_memory_conflict conf) Q s.
Proof.
  intros Hr Hfresh HQ. unfold full_memory_conflict. apply wp_bind. eapply wp_mark_conflict; [done|].
  intros s1 Hf1 Hr1. apply wp_or_return. eapply wp_record_symbolic; [done|by split|].
  intros s2 e Hf2 Hr2 _ _. split; [done|]. assert (Hf02 : frame s s2) by (by eapply frame_trans).
  pose proof (fr_view _ _ Hf02) as Hv2. pose proof (frame_idx _ _ Hf02) as Hidx2.
  pose proof (f_equal v_mem Hv2) as Hmem2. simpl in Hmem2. pose proof (rn_inv _ _ Hr2) as Hinv2.
  pose proof (inv_idx _ Hinv2) as H0.
  wp_gets. rewrite (rn_dry _ _ Hr2). wp_gets. wp_gets. apply wp_bind.
  set (body := fun (it : SymAddr * ByteInfo) (st : list Z * list (Z * Z)) => _).
  eapply (wp_mono (loop (mem s2) body ([], []))).
  { apply (wp_loop (fun l st s' => mframe s2 s' /\ inv s' /\ seen_ok (view s2) st.1 /\ pairs_ok (view s2) st.2 /\
      forall it, it ∈ l -> it ∈ mem s2)).
    - split_and!; [apply mframe_refl|done|by split; [apply sorted_nil|intros i ?%not_elem_of_nil]|
        by split; [apply sorted_nil|intros i ?%not_elem_of_nil]|done].
    - intros [b m] l [seen pairs] s3 (Hf3 & Hinv3 & Hs3 & Hp3 & Hl). unfold body. cbn [fst snd] in *.
      assert (Hin : (b, m) ∈ mem s2) by (apply Hl; by left).
      assert (Hm : byte_inv (view s2) m) by (by eapply (ci_mem _ (inv_core _ _ Hinv2))).
      assert (Hv3 : v_idx (view s3) = v_idx (view s2)) by exact (mframe_idx _ _ Hf3).
      pose proof (mframe_idx _ _ Hf3) as Hidx3.
      apply wp_bind, wp_observe_memory; [apply Hinv3|apply Hinv3|by apply (byte_inv_idx (view s2))| | | | |].
      { eapply run_observable; [apply Hf3|by apply (inv_obs _ _ Hinv2)]. }
      { by apply (seen_ok_idx (view s2)). }
      { by apply (pairs_ok_idx (view s2)). }
      { intros _. rewrite Hidx3, Hidx2. rewrite Hmem2 in Hin. by apply (Hfresh b). }
      intros m' seen' pairs' [Hm' Hl' Hr' He'] Hs' Hp' s4 Hf4 Ha4 _.
      assert (Hinv4 : inv s4) by (by eapply inv_frame). pose proof (fr_view _ _ Hf4) as Hv4. cbn [fst snd].
      apply wp_bind, wp_mem_put; [done| | |].
      { rewrite Hv4. destruct Hm' as [B1 B2 B3 B4 B5]. split; [done..|]. simpl. split; [by repeat constructor|].
        intros i ->%list_elem_of_singleton. simpl in Hv3. rewrite Hv3. simpl. lia. }
      { intros Hc Hlu. simpl in Hlu. rewrite Hl' in Hlu. destruct (inv_obs _ _ Hinv2 b m Hin Hc Hlu) as (x & Hx & Hox).
        destruct (ru_obs _ _ (mf_run _ _ Hf3) _ _ Hx) as (x1 & Hx1 & Hox1).
        destruct (ru_obs _ _ (fr_run _ _ Hf4) _ _ Hx1) as (x2 & Hx2 & Hox2).
        exists x2. simpl. rewrite Hl'. auto. }
      intros s5 Hf5 Hinv5 _ _. apply wp_bind.
      apply (wp_ins_all (fun j => j) (view s3)); [done|by intros j Hj; apply (bi_read _ _ Hm')|].
      intros seen2 Hs2' _. apply wp_ret. simpl. split_and!; [|done|by apply (seen_ok_idx (view s3))|by apply (pairs_ok_idx (view s3))|].
      + eapply mframe_trans; [exact Hf3|]. eapply mframe_trans; [by apply frame_mframe|exact Hf5].
      + intros it Hit. apply Hl. by right. }
  intros st s3 (Hf3 & Hinv3 & Hs3 & Hp3 & _). wp_gets. apply wp_bind.
  assert (Hv3 : v_idx (view s3) = v_idx (view s2)) by exact (mframe_idx _ _ Hf3).
  apply (wp_ins_all (fun it : SymAddr * Mutex => last_access it.2) (view s2)); [done| |].
  { intros [a x] Hx. pose proof (mi_access _ _ (ci_mutex _ (inv_core _ _ Hinv3) a x Hx)) as Ha. simpl.
    unfold maybe_event in *. by rewrite <- Hv3. }
  intros seen4 Hs4 _. wp_gets. apply wp_bind. eapply wp_ins_seen; [exact Hs4| |].
  { pose proof (ci_lfmc _ (inv_core _ _ Hinv3)) as Hl. unfold maybe_event in *. simpl in Hl. by rewrite <- Hv3. }
  intros seen5 Hs5 _. apply wp_bind, wp_modify.
  assert (Hidx3 : prefix_idx s3 = prefix_idx s2) by exact Hv3.
  set (s4 := set_last_full_memory_conflict (prefix_idx s2) s3).
  assert (Hinv4 : inv s4) by (apply inv_set_lfmc; [done|split; simpl; lia]).
  apply wp_bind, wp_wakeup; [done|apply Hinv4|apply Hinv4|done|]. intros s5 Hf5 Ha5.
  assert (Hinv5 : inv s5) by (by eapply inv_frame). apply wp_bind, wp_modify.
  set (s6 := set_mem [] s5).
  assert (Hinv6 : inv s6) by (apply inv_set_mem; [done|by intros b m ?%not_elem_of_nil]).
  assert (Hv6 : v_idx (view s6) = v_idx (view s2)).
  { rewrite <- Hv3. exact (f_equal v_idx (fr_view _ _ Hf5)). }
  apply wp_bind, wp_see_events; [done|apply Hinv6|apply Hinv6|by apply (seen_ok_idx (view s2))|].
  intros s7 Hf7 Ha7 _. assert (Hinv7 : inv s7) by (by eapply inv_frame).
  apply wp_bind, wp_see_event_pairs; [done|apply Hinv7|done| |].
  { rewrite (fr_view _ _ Hf7). by apply (pairs_ok_idx (view s2)). }
  intros s8 Hf8 Ha8 _. apply wp_ret. assert (Hinv8 : inv s8) by (by eapply inv_frame).
  assert (Hrun : run s s8).
  { eapply run_trans; [apply Hf02|]. eapply run_trans; [apply Hf3|]. eapply (run_trans _ s4); [by apply run_prefix|].
    eapply run_trans; [apply Hf5|]. eapply (run_trans _ s6); [by apply run_prefix|].
    eapply run_trans; [apply Hf7|apply Hf8]. }
  assert (Hview : view s8 = view_with_mem [] (view_with_lfmc (prefix_idx s2) (view_with_mem [] (view s3)))).
  { rewrite (fr_view _ _ Hf8), (fr_view _ _ Hf7). change (view_with_mem [] (view s5) = view_with_mem [] (view s4)).
    by rewrite (fr_view _ _ Hf5). }
  rewrite (mf_view _ _ Hf3), Hv2 in Hview.
  apply HQ; [by eapply running_step; [exact Hr|..]|done|exact (f_equal v_mem Hview)| |].
  - rewrite <- Hidx2. exact (f_equal v_lfmc Hview).
  - rewrite Hview. done.
Qed.

End memory.
