(* ===== verification/TSOSync.v ===== *)
(** * TSOSync: the synchronisation methods of the TSO trace builder

    Mutexes, condition variables, threads: no assertion fails, the invariant of
    TSOInv.v is kept, and the object table holds what the method promises. *)

From stdpp Require Import sorting.
From S2P Require Import Prelude StdMap VecSet CPid SymAddr ByteOps SymEv ReplayMem WakeupTree TSOState TSOOps.
From S2P Require Import TSOHandlers TSOInv TSOMem.

Local Open Scope Z_scope.

Section sync.
Context (IsBigEndianHost : bool) (conf : Configuration) (Hchecks : check_conflicts conf = false).

Abbreviation inv := (inv conf).
Abbreviation running := (running conf).

Lemma wp_sync_op s p k ml body (Q : bool -> TSOTraceBuilder -> Prop) :
  running s p -> Z.even p = true -> flushed s p -> sym_ok (SymEv_sync k ml) ->
  (forall s', frame s s' -> running s' p -> wp body Q s') -> wp (sync_op k ml body) Q s.
Proof.
  intros Hr Hp Hb Hk HQ. unfold sync_op, sync_prologue. apply wp_bind, wp_bind.
  eapply wp_mark_conflict; [done|]. intros s1 Hf1 Hr1. apply wp_bind.
  eapply wp_record_symbolic; [done|done|]. intros s2 e Hf2 Hr2 _ _. simpl. wp_gets. rewrite (rn_dry _ _ _ Hr2).
  assert (Hf02 : frame s s2) by (by eapply frame_trans). apply wp_bind.
  apply (wp_fence conf s2 p); [done|done|by eapply flushed_frame|]. intros s3 Hf3 Hr3. simpl. apply wp_ret.
  apply HQ; [by eapply frame_trans|done].
Qed.

Lemma wp_see_list s l (Q : unit -> TSOTraceBuilder -> Prop) : inv s -> (forall i, i ∈ l -> maybe_event (view s) i) ->
  (forall s', frame s s' -> inv s' -> Q tt s') -> wp (seen ← list_set l; see_events conf seen) Q s.
Proof.
  intros Hinv Hl HQ. destruct (of_range_loop_spec l [] sorted_nil) as (v & Hv & Hs & Hel).
  apply wp_bind. unfold list_set. eapply wp_lift; [exact Hv|].
  apply wp_see_events; [done|apply Hinv|apply Hinv| |].
  - split; [done|]. intros i [Hi%not_elem_of_nil|Hi]%Hel; [done|by apply Hl].
  - intros s' Hf Ha _. apply HQ; [done|by eapply inv_frame].
Qed.

(** ** Mutexes *)

(** What a mutex method leaves alone: everything but the mutex table. *)
Record xframe (s s' : TSOTraceBuilder) : Prop := {
  xf_run : run s s';
  xf_view : view_with_mutexes [] (view s') = view_with_mutexes [] (view s);
}.

Lemma xframe_refl s : xframe s s.
Proof. split; [apply run_refl|done]. Qed.
Lemma xframe_trans s1 s2 s3 : xframe s1 s2 -> xframe s2 s3 -> xframe s1 s3.
Proof. intros [] []. split; [by eapply run_trans|congruence]. Qed.
Lemma frame_xframe s s' : frame s s' -> xframe s s'.
Proof. intros [Hv Hr]. split; [done|by rewrite Hv]. Qed.
Lemma xframe_idx s s' : xframe s s' -> prefix_idx s' = prefix_idx s.
Proof. intros [Hr _]. by apply ru_idx. Qed.
Lemma frame_mutexes s s' : frame s s' -> mutexes s' = mutexes s.
Proof. intros [Hv _]. exact (f_equal v_mutexes Hv). Qed.

Definition mutex_at (s : TSOTraceBuilder) (a : SymAddr) : Mutex := default Mutex_new (map_lookup (mutexes s) a).
(** Statically initialised, or initialised. *)
Definition known (s : TSOTraceBuilder) (a : SymAddr) : Prop :=
  mutex_require_init conf = false \/ is_Some (map_lookup (mutexes s) a).

Lemma inv_set_mutexes s xs : inv s -> (forall a x, (a, x) ∈ xs -> mutex_inv (view s) x) -> inv (set_mutexes xs s).
Proof.
  intros [Hc Ha Ho] Hxs. split; [by apply (core_with_mutexes (view s))|by eapply aux_inv_keep; [|..|apply Ha]|done].
Qed.

Lemma xframe_set_mutexes s xs : xframe s (set_mutexes xs s).
Proof. split; [by apply run_prefix|done]. Qed.

Lemma mutex_inv_new v : 0 <= v_idx v -> mutex_inv v Mutex_new.
Proof. intros Hi. split; simpl; unfold maybe_event; lia. Qed.

Lemma inv_bind_mutex s a x : inv s -> mutex_inv (view s) x -> inv (set_mutexes (map_insert (mutexes s) a x) s).
Proof.
  intros Hinv Hx. apply inv_set_mutexes; [done|]. intros b y [[= -> ->]|Hin]%elem_map_insert; [done|].
  by eapply (ci_mutex _ (inv_core _ _ Hinv)).
Qed.

Lemma mutex_at_inv s a : inv s -> mutex_inv (view s) (mutex_at s a).
Proof.
  intros Hinv. unfold mutex_at. destruct (map_lookup (mutexes s) a) as [x|] eqn:E; simpl.
  - by eapply (ci_mutex _ (inv_core _ _ Hinv)), map_lookup_elem.
  - apply mutex_inv_new. by apply (inv_idx conf).
Qed.

Lemma wp_mutex_default s a (Q : unit -> TSOTraceBuilder -> Prop) : inv s ->
  (forall s', xframe s s' -> inv s' -> (known s a -> is_Some (map_lookup (mutexes s') a)) ->
     mutex_at s' a = mutex_at s a -> (forall b, b <> a -> map_lookup (mutexes s') b = map_lookup (mutexes s) b) -> Q tt s') ->
  wp (mutex_default conf a) Q s.
Proof.
  intros Hinv HQ. unfold mutex_default. wp_gets. apply wp_when.
  - intros [Hreq Hcount]%andb_true_iff. apply wp_modify.
    apply negb_true_iff, bool_decide_eq_false in Hcount. apply eq_None_not_Some in Hcount.
    apply HQ; [apply xframe_set_mutexes| | | |]; simpl.
    + apply inv_bind_mutex; [done|]. by apply mutex_inv_new, (inv_idx conf).
    + intros _. rewrite map_lookup_insert_eq. by eexists.
    + unfold mutex_at. simpl. by rewrite map_lookup_insert_eq, Hcount.
    + intros b Hb. by apply map_lookup_insert_ne.
  - intros Hno. apply HQ; [apply xframe_refl|done| |done|done]. intros Hk.
    destruct (mutex_require_init conf) eqn:E; simpl in Hno.
    + destruct Hk as [?|?]; [congruence|done].
    + apply negb_false_iff, bool_decide_eq_true in Hno. done.
Qed.

Lemma wp_assert_mutex s a (Q : unit -> TSOTraceBuilder -> Prop) : is_Some (map_lookup (mutexes s) a) -> Q tt s ->
  wp (assert_mutex a) Q s.
Proof. intros Ha HQ. unfold assert_mutex. wp_gets. apply wp_massert; [by apply bool_decide_eq_true|done]. Qed.

Lemma wp_mutex_get s a (Q : Mutex -> TSOTraceBuilder -> Prop) : inv s ->
  (forall s', xframe s s' -> inv s' -> mutex_at s' a = mutex_at s a ->
     (forall b, b <> a -> map_lookup (mutexes s') b = map_lookup (mutexes s) b) -> Q (mutex_at s a) s') ->
  wp (mutex_get a) Q s.
Proof.
  intros Hinv HQ. unfold mutex_get. wp_gets. apply wp_bind, wp_modify, wp_ret. unfold map_index.
  destruct (map_lookup (mutexes s) a) as [x|] eqn:E; simpl.
  - assert (Hs : set_mutexes (mutexes s) s = s) by (by destruct s). rewrite Hs.
    specialize (HQ s). unfold mutex_at in HQ. rewrite E in HQ. apply HQ; try done. apply xframe_refl.
  - specialize (HQ (set_mutexes (map_insert (mutexes s) a Mutex_new) s)). unfold mutex_at in HQ. rewrite E in HQ.
    simpl in HQ. apply HQ; [apply xframe_set_mutexes| | |].
    + apply inv_bind_mutex; [done|]. by apply mutex_inv_new, (inv_idx conf).
    + by rewrite map_lookup_insert_eq.
    + intros b Hb. by apply map_lookup_insert_ne.
Qed.

(** A mutex method changes one mutex. *)
Record mutexed (s s' : TSOTraceBuilder) (p : Z) (a : SymAddr) (r : option Mutex) : Prop := {
  mx_frame : xframe s s';
  mx_running : running s' p;
  mx_at : map_lookup (mutexes s') a = r;
  mx_others : forall b, b <> a -> map_lookup (mutexes s') b = map_lookup (mutexes s) b;
}.

(** The last step of most methods. *)
Lemma wp_mutex_put s0 s p a x (Q : bool -> TSOTraceBuilder -> Prop) : running s0 p -> xframe s0 s -> inv s ->
  (forall b, b <> a -> map_lookup (mutexes s) b = map_lookup (mutexes s0) b) -> mutex_inv (view s) x ->
  (forall s', mutexed s0 s' p a (Some x) -> Q true s') -> wp (_ ← mutex_put a x; mret true) Q s.
Proof.
  intros Hr Hx Hinv Hb Hm HQ. apply wp_bind, wp_modify, wp_ret, HQ.
  assert (Hx' : xframe s0 (set_mutexes (map_insert (mutexes s) a x) s)).
  { eapply xframe_trans; [exact Hx|apply xframe_set_mutexes]. }
  split; [done| | |].
  - eapply running_step; [exact Hr|apply Hx'|by apply inv_bind_mutex].
  - simpl. apply map_lookup_insert_eq.
  - intros b Hne. simpl. rewrite map_lookup_insert_ne by done. by apply Hb.
Qed.

(** A state reached by steps that keep what is known of the mutexes. *)
Record reach (s s' : TSOTraceBuilder) (a : SymAddr) : Prop := {
  rc_frame : xframe s s';
  rc_inv : inv s';
  rc_at : mutex_at s' a = mutex_at s a;
  rc_others : forall b, b <> a -> map_lookup (mutexes s') b = map_lookup (mutexes s) b;
}.

Lemma reach_frame s s1 s2 a : reach s s1 a -> frame s1 s2 -> inv s2 -> reach s s2 a.
Proof.
  intros [H1 H2 H3 H4] Hf Hinv. pose proof (frame_mutexes _ _ Hf) as Hm. split; [|done| |].
  - eapply xframe_trans; [exact H1|by apply frame_xframe].
  - unfold mutex_at. rewrite Hm. exact H3.
  - intros b Hb. rewrite Hm. by apply H4.
Qed.

Lemma reach_of_frame s s' a : frame s s' -> inv s' -> reach s s' a.
Proof.
  intros Hf Hinv. pose proof (frame_mutexes _ _ Hf) as Hm.
  split; [by apply frame_xframe|done|by unfold mutex_at; rewrite Hm|by rewrite Hm].
Qed.

Lemma wp_reach_default s s1 a (Q : unit -> TSOTraceBuilder -> Prop) : reach s s1 a ->
  (forall s', reach s s' a -> (known s1 a -> is_Some (map_lookup (mutexes s') a)) -> Q tt s') ->
  wp (mutex_default conf a) Q s1.
Proof.
  intros [H1 H2 H3 H4] HQ. apply wp_mutex_default; [done|]. intros s2 Hx Hinv Hk Hat Ho. apply HQ; [|done].
  split; [by eapply xframe_trans|done|congruence|]. intros b Hb. rewrite Ho by done. by apply H4.
Qed.

Lemma wp_reach_get s s1 a (Q : Mutex -> TSOTraceBuilder -> Prop) : reach s s1 a ->
  (forall s', reach s s' a -> Q (mutex_at s a) s') -> wp (mutex_get a) Q s1.
Proof.
  intros [H1 H2 H3 H4] HQ. apply wp_mutex_get; [done|]. intros s2 Hx Hinv Hat Ho. rewrite H3. apply HQ.
  split; [by eapply xframe_trans|done|congruence|]. intros b Hb. rewrite Ho by done. by apply H4.
Qed.

Lemma wp_reach_wakeup s s1 ty a b (Q : unit -> TSOTraceBuilder -> Prop) : reach s s1 a -> ty <> NA ->
  (forall s', reach s s' a -> mutexes s' = mutexes s1 -> Q tt s') -> wp (wakeup conf ty b) Q s1.
Proof.
  intros Hr Hty HQ. apply wp_wakeup; [done|apply Hr|apply Hr|done|]. intros s2 Hf Ha. apply HQ; [|by apply frame_mutexes].
  eapply reach_frame; [done|done|by eapply inv_frame; [apply Hr|..]].
Qed.

Lemma wp_reach_see s s1 a l (k : M bool) (Q : bool -> TSOTraceBuilder -> Prop) : reach s s1 a ->
  (forall i, i ∈ l -> maybe_event (view s) i) -> (forall s', reach s s' a -> wp k Q s') ->
  wp (seen ← list_set l; _ ← see_events conf seen; k) Q s1.
Proof.
  intros Hr Hl HQ. apply wp_assoc, wp_bind, wp_see_list; [apply Hr| |].
  - intros i Hi. specialize (Hl i Hi). unfold maybe_event in *. simpl in *. by rewrite (xframe_idx _ _ (rc_frame _ _ _ Hr)).
  - intros s2 Hf Hinv. apply HQ. by eapply reach_frame.
Qed.

Lemma reach_lfmc s s1 a : inv s -> reach s s1 a -> maybe_event (view s) (last_full_memory_conflict s1).
Proof.
  intros Hinv Hr. pose proof (f_equal v_lfmc (xf_view _ _ (rc_frame _ _ _ Hr))) as Hl. simpl in Hl. rewrite Hl.
  apply (ci_lfmc _ (inv_core _ _ Hinv)).
Qed.

(** The mutex as the current event leaves it. *)
Lemma wp_reach_put s0 s s1 p a x (Q : bool -> TSOTraceBuilder -> Prop) :
  running s0 p -> frame s0 s -> reach s s1 a -> mutex_inv (view s) x ->
  (forall s', mutexed s0 s' p a (Some x) -> Q true s') -> wp (_ ← mutex_put a x; mret true) Q s1.
Proof.
  intros Hr Hf Hre Hm HQ. apply (wp_mutex_put s0 s1 p a); [done| |apply Hre| | |done].
  - eapply xframe_trans; [by apply frame_xframe|apply Hre].
  - intros b Hb. rewrite (rc_others _ _ _ Hre b Hb). by rewrite (frame_mutexes _ _ Hf).
  - apply (mutex_inv_idx (view s)); [by apply (xframe_idx _ _ (rc_frame _ _ _ Hre))|done].
Qed.

Lemma reach_idx s s1 a : reach s s1 a -> prefix_idx s1 = prefix_idx s.
Proof. intros Hr. by apply (xframe_idx _ _ (rc_frame _ _ _ Hr)). Qed.

Lemma mutex_inv_now v x l : 0 <= v_idx v -> mutex_inv v x -> last_access x < v_idx v ->
  mutex_inv v (MkMutex (v_idx v) (last_lock x) l).
Proof. intros Hi [H1 H2 H3 H4] Hlt. unfold maybe_event in *. split; simpl; unfold maybe_event; lia. Qed.

Lemma mutex_inv_locked v : 0 <= v_idx v -> mutex_inv v (MkMutex (v_idx v) (v_idx v) true).
Proof. intros Hi. unfold maybe_event in *. split; simpl; unfold maybe_event; (lia || done). Qed.

Lemma mutex_at_frame s s' a : frame s s' -> mutex_at s' a = mutex_at s a.
Proof. intros Hf. unfold mutex_at. by rewrite (frame_mutexes _ _ Hf). Qed.
Lemma known_frame s s' a : frame s s' -> known s a -> known s' a.
Proof. intros Hf. unfold known. by rewrite (frame_mutexes _ _ Hf). Qed.

Lemma wp_mutex_lock s p ml (Q : bool -> TSOTraceBuilder -> Prop) : running s p -> Z.even p = true -> flushed s p ->
  locked (mutex_at s (sas_addr ml)) = false -> last_access (mutex_at s (sas_addr ml)) < prefix_idx s ->
  (forall s', mutexed s s' p (sas_addr ml) (Some (MkMutex (prefix_idx s) (prefix_idx s) true)) -> Q true s') ->
  wp (mutex_lock conf ml) Q s.
Proof.
  intros Hr Hp Hb Hlocked Hlt HQ. unfold mutex_lock. cbv zeta. set (a := sas_addr ml) in *.
  apply (wp_sync_op s p); [done|done|done|by split|]. intros s1 Hf1 Hr1. pose proof (rn_inv _ _ _ Hr1) as Hinv1.
  pose proof (inv_idx conf _ Hinv1) as H0. pose proof (frame_idx _ _ Hf1) as Hidx1.
  apply wp_bind, (wp_reach_default s1 s1 a); [by apply reach_of_frame; [apply frame_refl|]|]. intros s2 Hre2 _.
  apply wp_bind, (wp_reach_wakeup s1 s2 _ a); [done|done|]. intros s3 Hre3 _.
  apply wp_bind, (wp_reach_get s1 s3 a); [done|]. intros s4 Hre4. wp_gets.
  rewrite (mutex_at_frame _ _ a Hf1). pose proof (mutex_at_inv s1 a Hinv1) as Hm. rewrite (mutex_at_frame _ _ a Hf1) in Hm.
  pose proof (reach_idx _ _ _ Hre4) as Hidx4. pose proof (reach_lfmc _ _ _ Hinv1 Hre4) as Hl.
  apply wp_bind.
  assert (Hput : forall s5, frame s4 s5 -> inv s5 -> wp (i ← gets prefix_idx; _ ← mutex_put a (MkMutex i i true); mret true) Q s5).
  { intros s5 Hf5 Hinv5. wp_gets. assert (Hre5 : reach s1 s5 a) by (by eapply reach_frame).
    rewrite (reach_idx _ _ _ Hre5). apply (wp_reach_put s s1 s5 p); [done|done|done|by apply mutex_inv_locked|].
    rewrite Hidx1. exact HQ. }
  destruct (decide (last_lock (mutex_at s a) < 0)) as [Hll|Hll].
  - apply wp_see_list; [apply Hre4| |exact Hput].
    assert (Hma : maybe_event (view s1) (last_access (mutex_at s a))) by apply Hm.
    intros i [->|[->|Hi%not_elem_of_nil]%elem_of_cons]%elem_of_cons; [| |done];
      unfold maybe_event in *; simpl in *; lia.
  - apply wp_bind, wp_add_lock_suc_race; [apply Hre4|apply Hre4| | |].
    + pose proof (mi_unlocked _ _ Hm Hlocked). lia.
    + lia.
    + intros s5 Hf5 Ha5 _. assert (Hinv5 : inv s5) by (by eapply inv_frame; [apply Hre4|..]).
      apply wp_see_list; [done| |].
      * intros i ->%list_elem_of_singleton. unfold maybe_event in *. simpl in *. rewrite (frame_idx _ _ Hf5). lia.
      * intros s6 Hf6 Hinv6. apply Hput; [by eapply frame_trans|done].
Qed.

Lemma access_lfmc s s1 a : inv s -> reach s s1 a ->
  forall i, i ∈ [last_access (mutex_at s a); last_full_memory_conflict s1] -> maybe_event (view s) i.
Proof.
  intros Hinv Hre i [->|[->|Hi%not_elem_of_nil]%elem_of_cons]%elem_of_cons; [| |done].
  - apply (mutex_at_inv s a Hinv).
  - by eapply reach_lfmc.
Qed.

Lemma wp_mutex_trylock s p ml (Q : bool -> TSOTraceBuilder -> Prop) :
  let x := mutex_at s (sas_addr ml) in
  running s p -> Z.even p = true -> flushed s p -> known s (sas_addr ml) -> last_access x < prefix_idx s ->
  (forall s', mutexed s s' p (sas_addr ml) (Some (if locked x then set_last_access (prefix_idx s) x
     else MkMutex (prefix_idx s) (prefix_idx s) true)) -> Q true s') ->
  wp (mutex_trylock conf ml) Q s.
Proof.
  intros x Hr Hp Hb Hk Hlt HQ. unfold mutex_trylock. cbv zeta. set (a := sas_addr ml) in *.
  apply (wp_sync_op s p); [done|done|done|by split|]. intros s1 Hf1 Hr1. pose proof (rn_inv _ _ _ Hr1) as Hinv1.
  pose proof (inv_idx conf _ Hinv1) as H0. pose proof (frame_idx _ _ Hf1) as Hidx1.
  apply wp_bind, (wp_reach_default s1 s1 a); [by apply reach_of_frame; [apply frame_refl|]|]. intros s2 Hre2 Hk2.
  apply wp_bind, wp_assert_mutex; [by apply Hk2, (known_frame s)|].
  apply wp_bind, (wp_reach_wakeup s1 s2 _ a); [done|done|]. intros s3 Hre3 _.
  apply wp_bind, (wp_reach_get s1 s3 a); [done|]. intros s4 Hre4. wp_gets.
  eapply (wp_reach_see s1); [done|by apply (access_lfmc s1 s4)|]. intros s5 Hre5. wp_gets.
  rewrite (reach_idx _ _ _ Hre5). pose proof (mutex_at_inv s1 a Hinv1) as Hm. rewrite (mutex_at_frame _ _ a Hf1) in Hm |- *.
  fold x in Hm |- *. eapply (wp_reach_put s s1 s5 p); [done|done|done| |by rewrite Hidx1].
  destruct (locked x) eqn:E.
  - unfold set_last_access. rewrite E. by apply (mutex_inv_now (view s1)); [|done|simpl; rewrite Hidx1].
  - by apply (mutex_inv_locked (view s1)).
Qed.

(** An unlock needs a mutex that has been accessed. *)
Lemma wp_mutex_unlock s p ml (Q : bool -> TSOTraceBuilder -> Prop) :
  let x := mutex_at s (sas_addr ml) in
  running s p -> Z.even p = true -> flushed s p -> known s (sas_addr ml) -> 0 <= last_access x < prefix_idx s ->
  (forall s', mutexed s s' p (sas_addr ml) (Some (MkMutex (prefix_idx s) (last_lock x) false)) -> Q true s') ->
  wp (mutex_unlock conf ml) Q s.
Proof.
  intros x Hr Hp Hb Hk Hlt HQ. unfold mutex_unlock. cbv zeta. set (a := sas_addr ml) in *.
  apply (wp_sync_op s p); [done|done|done|by split|]. intros s1 Hf1 Hr1. pose proof (rn_inv _ _ _ Hr1) as Hinv1.
  pose proof (inv_idx conf _ Hinv1) as H0. pose proof (frame_idx _ _ Hf1) as Hidx1.
  apply wp_bind, (wp_reach_default s1 s1 a); [by apply reach_of_frame; [apply frame_refl|]|]. intros s2 Hre2 Hk2.
  apply wp_bind, wp_assert_mutex; [by apply Hk2, (known_frame s)|].
  apply wp_bind, (wp_reach_get s1 s2 a); [done|]. intros s3 Hre3.
  apply wp_bind, (wp_reach_wakeup s1 s3 _ a); [done|done|]. intros s4 Hre4 _.
  wp_assert; [apply bool_decide_eq_true; rewrite (mutex_at_frame _ _ a Hf1); fold x; lia|]. wp_gets.
  eapply (wp_reach_see s1); [done|by apply (access_lfmc s1 s4)|]. intros s5 Hre5. wp_gets.
  rewrite (reach_idx _ _ _ Hre5). pose proof (mutex_at_inv s1 a Hinv1) as Hm. rewrite (mutex_at_frame _ _ a Hf1) in Hm |- *.
  fold x in Hm |- *. eapply (wp_reach_put s s1 s5 p); [done|done|done| |unfold set_locked, set_last_access; simpl; by rewrite Hidx1].
  unfold set_locked, set_last_access. simpl. apply (mutex_inv_now (view s1)); [done|done|simpl; lia].
Qed.

Lemma wp_mutex_init s p ml (Q : bool -> TSOTraceBuilder -> Prop) :
  let x := mutex_at s (sas_addr ml) in
  running s p -> Z.even p = true -> flushed s p -> last_access x < prefix_idx s ->
  (forall s', mutexed s s' p (sas_addr ml) (Some (set_last_access (prefix_idx s) x)) -> Q true s') ->
  wp (mutex_init conf ml) Q s.
Proof.
  intros x Hr Hp Hb Hlt HQ. unfold mutex_init. cbv zeta. set (a := sas_addr ml) in *.
  apply (wp_sync_op s p); [done|done|done|by split|]. intros s1 Hf1 Hr1. pose proof (rn_inv _ _ _ Hr1) as Hinv1.
  pose proof (inv_idx conf _ Hinv1) as H0. pose proof (frame_idx _ _ Hf1) as Hidx1.
  apply wp_bind, (wp_reach_get s1 s1 a); [by apply reach_of_frame; [apply frame_refl|]|]. intros s2 Hre2. wp_gets.
  eapply (wp_reach_see s1); [done|by apply (access_lfmc s1 s2)|]. intros s3 Hre3. wp_gets.
  rewrite (reach_idx _ _ _ Hre3). pose proof (mutex_at_inv s1 a Hinv1) as Hm. rewrite (mutex_at_frame _ _ a Hf1) in Hm |- *.
  fold x in Hm |- *. eapply (wp_reach_put s s1 s3 p); [done|done|done| |by rewrite Hidx1].
  apply (mutex_inv_now (view s1)); [done|done|simpl; lia].
Qed.

Lemma map_erase_elem {V} (m : list (SymAddr * V)) k q : q ∈ map_erase m k -> q ∈ m.
Proof. unfold map_erase. intros [_ Hq]%list_elem_of_filter. done. Qed.

Lemma wp_mutex_destroy s p ml (Q : bool -> TSOTraceBuilder -> Prop) :
  running s p -> Z.even p = true -> flushed s p -> known s (sas_addr ml) ->
  (forall s', mutexed s s' p (sas_addr ml) None -> Q true s') ->
  wp (mutex_destroy conf ml) Q s.
Proof.
  intros Hr Hp Hb Hk HQ. unfold mutex_destroy. cbv zeta. set (a := sas_addr ml) in *.
  apply (wp_sync_op s p); [done|done|done|by split|]. intros s1 Hf1 Hr1. pose proof (rn_inv _ _ _ Hr1) as Hinv1.
  apply wp_bind, (wp_reach_default s1 s1 a); [by apply reach_of_frame; [apply frame_refl|]|]. intros s2 Hre2 Hk2.
  apply wp_bind, wp_assert_mutex; [by apply Hk2, (known_frame s)|].
  apply wp_bind, (wp_reach_get s1 s2 a); [done|]. intros s3 Hre3.
  apply wp_bind, (wp_reach_wakeup s1 s3 _ a); [done|done|]. intros s4 Hre4 _. wp_gets.
  eapply (wp_reach_see s1); [done|by apply (access_lfmc s1 s4)|]. intros s5 Hre5. apply wp_bind, wp_modify, wp_ret, HQ.
  assert (Hx : xframe s (set_mutexes (map_erase (mutexes s5) a) s5)).
  { eapply xframe_trans; [by apply frame_xframe|]. eapply xframe_trans; [apply Hre5|apply xframe_set_mutexes]. }
  split; [done| | |].
  - eapply running_step; [exact Hr|apply Hx|]. apply inv_set_mutexes; [apply Hre5|].
    intros b x Hin%map_erase_elem. by eapply (ci_mutex _ (inv_core _ _ (rc_inv _ _ _ Hre5))).
  - simpl. rewrite map_lookup_erase. by rewrite decide_True.
  - intros b Hne. simpl. rewrite map_lookup_erase, decide_False by done.
    rewrite (rc_others _ _ _ Hre5 b Hne). by rewrite (frame_mutexes _ _ Hf1).
Qed.

Lemma set_lock_fail_races_frame s rs : inv s -> frame s (set_lock_fail_races rs s) /\ inv (set_lock_fail_races rs s).
Proof.
  intros Hinv. assert (Hf : frame s (set_lock_fail_races rs s)) by (split; [done|by apply run_prefix]).
  split; [done|]. eapply inv_frame; [exact Hinv|exact Hf|]. by eapply aux_inv_keep; [apply Hinv|..|apply Hinv].
Qed.
Lemma wp_add_lock_fail_race s i e (Q : unit -> TSOTraceBuilder -> Prop) :
  zget (events (prefix s)) (prefix_idx s) = Some e -> 0 <= i < prefix_idx s ->
  Q tt (set_lock_fail_races (lock_fail_races s ++ [Race_LockFail i (prefix_idx s) (iid e)]) s) ->
  wp (add_lock_fail_race i) Q s.
Proof.
  intros He Hi HQ. pose proof (zget_Some _ _ _ He). unfold add_lock_fail_race. wp_gets.
  do 2 (wp_assert; [by apply bool_decide_eq_true; lia|]). unfold curev, cur_idx, pfx_len. apply wp_bind, wp_bind.
  wp_gets. wp_assert; [by apply bool_decide_eq_true; lia|]. wp_gets. wp_assert; [by apply bool_decide_eq_true; unfold buf_len; lia|].
  apply wp_ret. eapply wp_pfx; [exact He|]. by apply wp_modify.
Qed.

(** A failed lock acquisition is recorded against the holder and the last
    full memory conflict. *)
Lemma wp_mutex_lock_fail s p ml e (Q : bool -> TSOTraceBuilder -> Prop) :
  let x := mutex_at s (sas_addr ml) in
  running s p -> zget (events (prefix s)) (prefix_idx s) = Some e ->
  is_Some (map_lookup (mutexes s) (sas_addr ml)) -> 0 <= last_lock x < prefix_idx s ->
  last_full_memory_conflict s < prefix_idx s ->
  Q true (set_lock_fail_races (lock_fail_races s ++ map (fun i => Race_LockFail i (prefix_idx s) (iid e))
       (last_lock x :: (if decide (0 <= last_full_memory_conflict s) then [last_full_memory_conflict s] else []))) s) ->
  wp (mutex_lock_fail conf ml) Q s.
Proof.
  intros x Hr He [y Hy] Hlt Hfm HQ. unfold mutex_lock_fail. cbv zeta. set (a := sas_addr ml) in *.
  wp_gets. rewrite (rn_dry _ _ _ Hr). wp_assert; [done|]. apply wp_bind. unfold mutex_default. wp_gets.
  unfold map_count. rewrite Hy, bool_decide_true, andb_false_r by by eexists. apply wp_when_false.
  apply wp_bind, wp_assert_mutex; [by eexists|]. apply wp_bind. unfold mutex_get. wp_gets.
  unfold map_index. rewrite Hy. apply wp_bind, wp_modify, wp_ret. simpl.
  assert (Hs : set_mutexes (mutexes s) s = s) by (by destruct s). rewrite Hs. clear Hs.
  assert (Hxy : x = y) by (unfold x, mutex_at; by rewrite Hy). rewrite <- Hxy. clear Hy Hxy y.
  wp_assert; [by apply bool_decide_eq_true; lia|].
  apply wp_bind, (wp_add_lock_fail_race s _ e); [done|done|]. wp_gets. cbn [last_full_memory_conflict set_lock_fail_races].
  apply wp_bind, wp_when.
  - intros H0%bool_decide_eq_true. eapply wp_add_lock_fail_race; [exact He|simpl; lia|]. apply wp_ret.
    rewrite decide_True in HQ by done. cbn [map] in HQ. cbn [lock_fail_races set_lock_fail_races prefix_idx]. by rewrite <- app_assoc.
  - intros H0%bool_decide_eq_false. apply wp_ret. by rewrite decide_False in HQ.
Qed.

(** ** Threads *)

Lemma wp_join s p tgt (Q : bool -> TSOTraceBuilder -> Prop) : running s p -> flushed s (tgt * 2) ->
  is_Some (zget (threads s) (tgt * 2 + 1)) -> p <> tgt * 2 -> p <> tgt * 2 + 1 ->
  (forall s', frame s s' -> running s' p -> Q true s') -> wp (TSOHandlers.join tgt) Q s.
Proof.
  intros Hr Hb [u Hu] Hne Hne' HQ. unfold join. apply wp_bind. eapply wp_mark_conflict; [done|]. intros s1 Hf1 Hr1.
  apply wp_or_return. eapply wp_record_symbolic; [done|by split|]. intros s2 e Hf2 Hr2 _ _. split; [done|].
  assert (Hf02 : frame s s2) by (by eapply frame_trans). wp_gets. rewrite (rn_dry _ _ _ Hr2).
  assert (Hb2 : flushed s2 (tgt * 2)) by (by eapply flushed_frame).
  apply wp_bind, wp_assert_buffer_empty; [done|]. wp_gets. destruct Hb2 as (t2 & Ht2 & _).
  assert (Hoth : forall s3 q, running s3 p -> q <> p -> ~ event_of (view s3) (prefix_idx s3) q).
  { intros s3 q Hr3 Hq [_ Hq']. destruct (rn_event _ _ _ Hr3) as [_ Hp']. rewrite Hp' in Hq'. congruence. }
  apply wp_bind. eapply wp_add_happens_after_thread; [apply Hr2|apply Hr2|exact Ht2|by apply Hoth; [|congruence]|].
  intros s3 Hf3 Ha3 _. assert (Hr3 : running s3 p) by (by eapply running_frame).
  assert (Hf03 : frame s s3) by (by eapply frame_trans). destruct (frame_thread _ _ _ _ Hf03 Hu) as (u3 & Hu3 & _).
  rewrite <- (frame_idx _ _ Hf3). apply wp_bind.
  eapply wp_add_happens_after_thread; [apply Hr3|apply Hr3|exact Hu3|by apply Hoth; [|congruence]|].
  intros s4 Hf4 Ha4 _. apply wp_ret, HQ; [by eapply frame_trans|by eapply running_frame].
Qed.

Lemma zget_app {A} (l k : list A) i x : zget (l ++ k) i = Some x ->
  zget l i = Some x \/ zget k (i - Z.of_nat (length l)) = Some x.
Proof.
  unfold zget. case_decide as H0; [|done]. intros Hx. apply lookup_app_Some in Hx as [Hx|[Hlen Hx]]; [by left|right].
  rewrite decide_True by lia. by replace (Z.to_nat (i - Z.of_nat (length l))) with (Z.to_nat i - length l)%nat by lia.
Qed.

Lemma zget_app_l {A} (l k : list A) i x : zget l i = Some x -> zget (l ++ k) i = Some x.
Proof. unfold zget. case_decide; [|done]. apply lookup_app_l_Some. Qed.

Definition view_with_threads (cps : CPidSystem) (ts : list TView) (v : View) : View :=
  MkView (v_idx v) (v_lfmc v) (v_mem v) (v_mutexes v) (v_conds v) cps ts (v_iids v) (v_dry v) (v_replay v).

(** A new thread and its auxiliary thread at the end of the table. *)
Lemma core_spawn v cps c1 c2 : core_inv v -> cps_inv cps -> (forall c, c ∈ cpids (v_cps v) -> c ∈ cpids cps) ->
  c1 ∈ cpids cps -> is_auxiliary c1 = false ->
  core_inv (view_with_threads cps (v_threads v ++ [MkTView c1 true [] []; MkTView c2 false [] []]) v).
Proof.
  intros Hc Hcps Hsub Hc1 Haux. pose proof Hc as [].
  set (new := [MkTView c1 true [] []; MkTView c2 false [] []]).
  assert (Hn : forall i t, zget new i = Some t -> (i = 0 /\ t = MkTView c1 true [] []) \/ (i = 1 /\ t = MkTView c2 false [] [])).
  { unfold zget. intros i t. case_decide; [|done]. destruct (Z.to_nat i) as [|[|n]] eqn:E; simpl; [| |done]; intros [= <-]; [left|right]; split; (lia || done). }
  assert (Hz : forall p t, zget (v_threads v ++ new) p = Some t -> zget (v_threads v) p = Some t \/
    (v_indices t = [] /\ v_buffer t = [] /\ (Z.even p = true -> v_cpid t = c1))).
  { intros p t [Ht|Ht]%zget_app; [by left|right]. apply Hn in Ht as [[_ ->]|[Hp ->]]; [done|].
    split_and!; [done|done|]. intros Hev. exfalso. replace p with (Z.of_nat (length (v_threads v)) + 1) in Hev by lia.
    rewrite Z.even_add, ci_even in Hev. done. }
  split; simpl; try done.
  - rewrite length_app. simpl. rewrite Nat2Z.inj_add, Z.even_add, ci_even. done.
  - intros i x Hx. specialize (ci_pids i x Hx). rewrite length_app. lia.
  - intros p t i [Ht|(-> & _ & _)]%Hz; [by apply (TSOInv.ci_indices _ Hc p t)|]. by intros ?%not_elem_of_nil.
  - intros p t ps [Ht|(_ & -> & _)]%Hz Hps; [|by apply not_elem_of_nil in Hps].
    by apply (pending_inv_iids v); [done|done|apply (TSOInv.ci_pending _ Hc p t)].
  - intros p t [Ht|(_ & -> & _)]%Hz Hodd; [by apply (TSOInv.ci_odd _ Hc p)|done].
  - intros p t u Hev Ht Hu. apply zget_app in Ht as [Ht|Ht].
    + assert (Hlt : exists u', zget (v_threads v) (p + 1) = Some u').
      { apply zget_lt. pose proof (zget_Some _ _ _ Ht). apply Z.even_spec in Hev as [k Hk], ci_even as [m Hm]. lia. }
      destruct Hlt as [u' Hu']. pose proof (zget_app_l _ new _ _ Hu') as Hu2. rewrite Hu in Hu2. injection Hu2 as ->.
      by apply (TSOInv.ci_aux _ Hc p).
    + apply Hn in Ht as [[Hp ->]|[Hp ->]].
      * apply zget_app in Hu as [Hu%zget_Some|Hu]; [lia|]. apply Hn in Hu as [[Hu _]|[_ ->]]; [lia|done].
      * replace p with (Z.of_nat (length (v_threads v)) + 1) in Hev by lia. by rewrite Z.even_add, ci_even in Hev.
  - intros b m Hbm. by apply (byte_inv_idx v); [|apply (TSOInv.ci_mem _ Hc b)].
  - intros a x Hx. by apply (mutex_inv_idx v); [|apply (TSOInv.ci_mutex _ Hc a)].
  - intros a c i Ha Hi. destruct (ci_waiting a c i Ha Hi) as (p & Hev & Hp & t & Ht & Hav). exists p.
    split; [done|]. split; [done|]. exists t. split; [|done]. simpl. by apply zget_app_l.
  - intros p t Ht Hev. apply zget_app in Ht as [Ht|Ht].
    + destruct (TSOInv.ci_cpids _ Hc p t Ht Hev) as [H1 H2]. split; [by apply Hsub|done].
    + apply Hn in Ht as [[_ ->]|[Hp ->]]; [done|].
      replace p with (Z.of_nat (length (v_threads v)) + 1) in Hev by lia. by rewrite Z.even_add, ci_even in Hev.
Qed.

Lemma sleep_inv_new c i : sleep_inv (Thread_new c i).
Proof. split; simpl; [apply sorted_nil|apply sorted_nil|done]. Qed.

(** What [spawn] returns with: the new thread, its auxiliary thread, and an
    identifier nobody had. *)
Lemma wp_spawn s p t (Q : bool -> TSOTraceBuilder -> Prop) : running s p -> Z.even p = true ->
  zget (threads s) p = Some t ->
  (forall s' ts child aux, running s' p -> threads s' = ts ++ [Thread_new child (prefix_idx s); set_available false (Thread_new aux (prefix_idx s))] ->
     map tview ts = map tview (threads s) -> child ∉ cpids (CPS s) -> cpid_parent child = Some (cpid t) ->
     cpids (CPS s') = cpids (CPS s) ++ [child; aux] -> Q true s') ->
  wp spawn Q s.
Proof.
  intros Hr Hp Ht HQ. unfold spawn. apply wp_bind. eapply wp_mark_conflict; [done|]. intros s1 Hf1 Hr1. wp_gets.
  apply wp_or_return. eapply wp_record_symbolic; [done|by split|]. intros s2 e Hf2 Hr2 _ _. split; [done|].
  assert (Hf02 : frame s s2) by (by eapply frame_trans). pose proof (frame_idx _ _ Hf02) as Hidx2.
  destruct (frame_thread _ _ _ _ Hf02 Ht) as (t2 & Ht2 & Htv). pose proof (rn_inv _ _ _ Hr2) as Hinv2.
  apply wp_bind, wp_curev; [apply Hinv2|]. intros ev Hev.
  assert (Hpid : iid_pid (iid ev) = p).
  { destruct (rn_event _ _ _ Hr2) as [_ Hp']. unfold pid_of in Hp'. simpl in Hp'. rewrite zget_map, Hev in Hp'. by injection Hp'. }
  rewrite Hpid. apply wp_bind. eapply wp_thread; [exact Ht2|]. wp_gets.
  pose proof (inv_core _ _ Hinv2) as Hc2. destruct (ci_cpids _ Hc2 p _ (zget_tview _ _ _ Ht2) Hp) as [Hin Haux].
  destruct (cps_spawn_spec (CPS s2) (cpid t2) (ci_cps _ Hc2) Hin Haux) as (child & cps1 & Hsp & Hfr1 & Haux1 & Hpar1 & Hcp1 & Hci1).
  apply wp_bind. eapply wp_lift; [exact Hsp|]. wp_gets. apply wp_bind, wp_modify.
  destruct (cps_new_aux_spec cps1 child Hci1) as (aux & cps2 & Hna & Hfr2 & Haux2 & Hpar2 & Hcp2 & Hci2);
    [rewrite Hcp1; apply elem_of_app; right; by left|done|].
  apply wp_bind. eapply wp_lift; [exact Hna|]. apply wp_bind, wp_modify, wp_bind, wp_modify, wp_ret.
  set (s5 := set_threads _ _).
  assert (Hts : threads s5 = threads s2 ++ [Thread_new child (prefix_idx s2); set_available false (Thread_new aux (prefix_idx s2))]).
  { subst s5. simpl. by rewrite <- app_assoc. }
  assert (Hcps : cpids cps2 = cpids (CPS s2) ++ [child; aux]) by (by rewrite Hcp2, Hcp1, <- app_assoc).
  assert (Hinv5 : inv s5).
  { split.
    - assert (Hv : view s5 = view_with_threads cps2 (v_threads (view s2) ++ [MkTView child true [] []; MkTView aux false [] []]) (view s2)).
      { unfold view, view_with_threads. rewrite Hts, map_app. done. }
      rewrite Hv. apply core_spawn; [done|done| | |done]; rewrite Hcps.
      + intros c Hcin. apply elem_of_app. by left.
      + apply elem_of_app. right. by left.
    - eapply aux_inv_keep; [apply Hinv2|done|done|]. rewrite Hts. apply Forall_app. split; [apply Hinv2|].
      constructor; [apply sleep_inv_new|]. constructor; [|constructor]. by split; simpl; [apply sorted_nil|apply sorted_nil|].
    - exact (inv_obs _ _ Hinv2). }
  pose proof (f_equal v_cps (fr_view _ _ Hf02)) as Hcps0. simpl in Hcps0.
  rewrite Hidx2 in Hts. apply (HQ s5 (threads s2) child aux).
  - eapply running_step; [exact Hr2|by apply run_prefix|done].
  - done.
  - exact (f_equal v_threads (fr_view _ _ Hf02)).
  - by rewrite <- Hcps0.
  - rewrite Hpar1. f_equal. exact (f_equal v_cpid Htv).
  - change (CPS s5) with cps2. by rewrite Hcps, Hcps0.
Qed.

(** ** Condition variables *)

(** The threads in [W] become available, or unavailable. *)
Record avail_set (v : bool) (W : Z -> bool) (ts ts' : list Thread) : Prop := {
  as_len : length ts' = length ts;
  as_at : forall q t, zget ts q = Some t -> zget ts' q = Some (set_available (if W q then v else available t) t);
}.

Lemma avail_set_back v W ts ts' q t' : avail_set v W ts ts' -> zget ts' q = Some t' ->
  exists t, zget ts q = Some t /\ t' = set_available (if W q then v else available t) t.
Proof.
  intros [Hl Ha] Ht. destruct (zget_lt ts q) as [t Hq]; [rewrite <- Hl; by eapply zget_Some|].
  exists t. split; [done|]. rewrite (Ha q t Hq) in Ht. congruence.
Qed.

Lemma avail_set_refl v ts : avail_set v (fun _ => false) ts ts.
Proof. split; [done|]. intros q [] Hq. exact Hq. Qed.

Lemma avail_set_insert v W ts ts' q t : avail_set v W ts ts' -> zget ts' q = Some t ->
  avail_set v (fun x => bool_decide (x = q) || W x) ts (<[Z.to_nat q := set_available v t]> ts').
Proof.
  intros [Hl Ha] Hq. pose proof (zget_Some _ _ _ Hq) as Hlt. split; [by rewrite length_insert|].
  intros x u Hx. rewrite zget_insert by done. pose proof (Ha x u Hx) as Hx'. case_decide as Hxq.
  - subst x. rewrite Hq in Hx'. injection Hx' as ->. rewrite bool_decide_true by done. done.
  - rewrite bool_decide_false by congruence. done.
Qed.

Lemma threads_ok_avail s v W ts : inv s -> (forall q, W q = true -> Z.even q = true) -> avail_set v W (threads s) ts ->
  threads_ok (view s) (map tview ts) /\ Forall sleep_inv ts.
Proof.
  intros Hinv HW Has. pose proof (inv_core _ _ Hinv) as Hc.
  assert (Hz : forall q t', zget (map tview ts) q = Some t' -> exists t, zget (threads s) q = Some t /\
    t' = tview (set_available (if W q then v else available t) t)).
  { intros q t' Hq. rewrite zget_map in Hq. destruct (zget ts q) as [t1|] eqn:E; [|done]. injection Hq as <-.
    destruct (avail_set_back _ _ _ _ _ _ Has E) as (t & Ht & ->). by exists t. }
  split; [split|].
  - rewrite !length_map. simpl. rewrite length_map. by rewrite (as_len _ _ _ _ Has).
  - intros q t' (t & Ht & ->)%Hz. exists (tview t). by rewrite (zget_tview s q t).
  - intros q t' ps (t & Ht & ->)%Hz Hps. by apply (ci_pending _ Hc q (tview t)); [apply zget_tview|].
  - intros q t' (t & Ht & ->)%Hz Hodd. by apply (ci_odd _ Hc q (tview t)); [apply zget_tview|].
  - intros q t' u' Hev (t & Ht & ->)%Hz (u & Hu & ->)%Hz. simpl.
    assert (W (q + 1) = false) as ->.
    { apply not_true_is_false. intros Hw%HW. by rewrite Z.even_add, Hev in Hw. }
    by apply (ci_aux _ Hc q (tview t) (tview u)); [|apply zget_tview..].
  - apply Forall_forall. intros t' [i Hi]%list_elem_of_lookup.
    assert (Hz' : zget ts (Z.of_nat i) = Some t') by (by rewrite zget_nat).
    destruct (avail_set_back _ _ _ _ _ _ Has Hz') as (t & Ht & ->).
    pose proof (ax_sleep _ (inv_ax _ _ Hinv)) as Hs. rewrite Forall_forall in Hs.
    destruct (Hs t) as [H1 H2 H3]; [by eapply zget_elem|]. by split.
Qed.

(** The threads blocked on condition variables, after an update of one of
    them: [f] says where its remaining waiters were. *)
Lemma conds_ok_update s a c c' v W ts f : inv s -> map_lookup (cond_vars s) a = Some c ->
  avail_set v W (threads s) ts ->
  0 <= last_signal c' <= prefix_idx s ->
  (forall k i, waiters c' !! k = Some i -> waiters c !! f k = Some i) -> Inj (=) (=) f ->
  (forall b k q, waiter_at (view s) b k q -> W q = true -> v = false \/ (b = a /\ forall k', f k' <> k)) ->
  conds_ok (view_with_waits (map_insert (cond_vars s) a c') (map tview ts) (view s)).
Proof.
  intros Hinv Ha Has Hsig Hf Hinj HW. destruct (conds_ok_self conf s Hinv) as [H1 H2 H3].
  set (v' := view_with_waits _ _ _).
  assert (Hat : forall b k q, waiter_at v' b k q -> exists k', waiter_at (view s) b k' q /\
    (b = a -> k' = f k) /\ (b <> a -> k' = k)).
  { intros b k q (c1 & i & Hc1 & Hk & Hq). unfold v' in Hc1. simpl in Hc1. rewrite map_lookup_insert in Hc1.
    case_decide as Hab.
    - subst b. injection Hc1 as <-. exists (f k). split; [|by split]. exists c, i. split_and!; [done|by apply Hf|done].
    - exists k. split; [by exists c1, i|]. split; [congruence|done]. }
  split.
  - intros b c1. unfold v'. simpl. rewrite map_lookup_insert. case_decide; [by intros [= <-]|]. apply H1.
  - intros b c1 i Hc1 Hi. apply list_elem_of_lookup in Hi as [k Hk].
    assert (Hold : exists c0 k0, map_lookup (cond_vars s) b = Some c0 /\ waiters c0 !! k0 = Some i /\ (b = a -> k0 = f k)).
    { unfold v' in Hc1. simpl in Hc1. rewrite map_lookup_insert in Hc1. case_decide as Hab.
      - subst b. injection Hc1 as <-. exists c, (f k). split_and!; [done|by apply Hf|done].
      - exists c1, k. split_and!; [done|done|congruence]. }
    destruct Hold as (c0 & k0 & Hc0 & Hk0 & Hfk). destruct (H2 b c0 i Hc0) as (q & Hev & Hqe & t & Ht & Hav).
    { by eapply list_elem_of_lookup_2. }
    exists q. split; [done|]. split; [done|]. simpl in Ht. rewrite zget_map in Ht.
    destruct (zget (threads s) q) as [t0|] eqn:E; [|done]. injection Ht as <-. simpl in Hav.
    exists (tview (set_available (if W q then v else available t0) t0)). unfold v'. simpl. rewrite zget_map.
    rewrite (as_at _ _ _ _ Has q t0 E). split; [done|]. simpl. destruct (W q) eqn:Ew; [|done].
    destruct (HW b k0 q) as [->|[Hba Hno]]; [by exists c0, i; split_and!; [..|apply Hev]|done|done|].
    exfalso. by apply (Hno k), eq_sym, Hfk.
  - intros b k b' k' q Hw Hw'. destruct (Hat _ _ _ Hw) as (k1 & Hk1 & Hba & Hbn), (Hat _ _ _ Hw') as (k2 & Hk2 & Hba' & Hbn').
    destruct (H3 _ _ _ _ _ Hk1 Hk2) as [-> ->]. split; [done|].
    destruct (decide (b' = a)) as [->|Hne]; [apply Hinj; rewrite <- Hba, <- Hba' by done; done|].
    rewrite <- (Hbn Hne). by apply Hbn'.
Qed.

Lemma frame_conds s s' : frame s s' -> cond_vars s' = cond_vars s.
Proof. intros [Hv _]. exact (f_equal v_conds Hv). Qed.

Lemma run_branch s s' i : run s s' -> buf_branch (prefix s') i = buf_branch (prefix s) i.
Proof.
  intros Hr. pose proof (f_equal length (ru_iids _ _ Hr)) as Hl. rewrite !length_map in Hl.
  unfold buf_branch, parent_at, buf_len. by rewrite (ru_tree _ _ Hr), Hl.
Qed.

(** The alternative chosen for the current event. *)
Definition cur_alt (s : TSOTraceBuilder) (alt : Z) : Prop :=
  exists br, buf_branch (prefix s) (Z.to_nat (prefix_idx s)) = Some br /\ b_alt br = alt.

Lemma cur_alt_run s s' alt : run s s' -> cur_alt s alt -> cur_alt s' alt.
Proof. intros Hr (br & Hbr & Hal). exists br. by rewrite (run_branch _ _ _ Hr), (ru_idx _ _ Hr). Qed.

Lemma wp_curbranch s alt (Q : Branch -> TSOTraceBuilder -> Prop) : inv s -> cur_alt s alt ->
  (forall br, b_alt br = alt -> Q br s) -> wp curbranch Q s.
Proof.
  intros Hinv (br & Hbr & Hal) HQ. unfold curbranch. apply wp_bind, wp_cur_idx; [apply Hinv|]. wp_gets.
  eapply wp_lift; [exact Hbr|]. by apply HQ.
Qed.

Lemma wp_register_alternatives s p alt n (Q : bool -> TSOTraceBuilder -> Prop) : running s p -> cur_alt s alt ->
  (forall s', frame s s' -> running s' p -> Q true s') -> wp (register_alternatives n) Q s.
Proof.
  intros Hr Hal HQ. unfold register_alternatives. apply wp_bind. eapply wp_mark_conflict; [done|]. intros s1 Hf1 Hr1.
  apply wp_or_return. eapply wp_record_symbolic; [done|by split|]. intros s2 e Hf2 Hr2 _ _. split; [done|].
  assert (Hf02 : frame s s2) by (by eapply frame_trans).
  apply wp_bind, (wp_curbranch s2 alt); [apply Hr2|by eapply cur_alt_run; [apply Hf02|]|]. intros br _.
  apply wp_bind, wp_when; [|intros _; by apply wp_ret, HQ]. intros _.
  eapply wp_mono; [apply (wp_each (fun _ s' => frame s s' /\ running s' p)); [done|]|].
  - intros x l' s3 [Hf3 Hr3]. wp_gets. apply wp_curev_meta; [apply Hr3|apply Hr3|done|].
    intros s4 Hf4 Ha4 _. split; [by eapply frame_trans|by eapply running_frame].
  - intros [] s3 [Hf3 Hr3]. by apply wp_ret, HQ.
Qed.

Lemma run_set_cond s a c ts : run s (set_cond_vars (map_insert (cond_vars s) a c) (set_threads ts s)).
Proof. by apply run_prefix. Qed.

Lemma set_threads_self s : set_threads (threads s) s = s.
Proof. by destruct s. Qed.

Lemma conds_ok_init s a i : inv s -> 0 <= i <= prefix_idx s -> map_lookup (cond_vars s) a = None ->
  conds_ok (view_with_waits (map_insert (cond_vars s) a (CondVar_new i)) (v_threads (view s)) (view s)).
Proof.
  intros Hinv Hi Ha. destruct (conds_ok_self conf s Hinv) as [H1 H2 H3].
  assert (Hat : forall b k q, waiter_at (view_with_waits (map_insert (cond_vars s) a (CondVar_new i)) (v_threads (view s)) (view s)) b k q ->
    waiter_at (view s) b k q).
  { intros b k q (c1 & j & Hc1 & Hk & Hq). simpl in Hc1. rewrite map_lookup_insert in Hc1.
    case_decide; [by injection Hc1 as <-|by exists c1, j]. }
  split.
  - intros b c1. simpl. rewrite map_lookup_insert. case_decide; [by intros [= <-]|apply H1].
  - intros b c1 j. simpl. rewrite map_lookup_insert. case_decide.
    + intros [= <-] ?%not_elem_of_nil. done.
    + intros Hc1 Hj. exact (H2 b c1 j Hc1 Hj).
  - intros b k b' k' q Hw Hw'. by apply (H3 b k b' k' q); apply Hat.
Qed.

(** [cond_init] binds the variable; initialising it twice is the error. *)
Lemma wp_cond_init s p ml (Q : bool -> TSOTraceBuilder -> Prop) : running s p -> Z.even p = true -> flushed s p ->
  map_lookup (cond_vars s) (sas_addr ml) = None ->
  (forall s', running s' p -> run s s' -> cond_vars s' = map_insert (cond_vars s) (sas_addr ml) (CondVar_new (prefix_idx s)) -> Q true s') ->
  wp (cond_init conf ml) Q s.
Proof.
  intros Hr Hp Hb Hno HQ. unfold cond_init. cbv zeta. set (a := sas_addr ml) in *.
  apply (wp_sync_op s p); [done|done|done|by split|]. intros s1 Hf1 Hr1. pose proof (rn_inv _ _ _ Hr1) as Hinv1.
  pose proof (frame_conds _ _ Hf1) as Hc1. pose proof (inv_idx conf _ Hinv1) as H0.
  wp_gets. unfold map_count. rewrite Hc1, Hno, bool_decide_false by (by intros []). wp_gets. apply wp_bind, wp_modify.
  set (s2 := set_cond_vars _ s1).
  assert (Hinv2 : inv s2).
  { assert (Hs2 : s2 = set_cond_vars (map_insert (cond_vars s1) a (CondVar_new (prefix_idx s1))) (set_threads (threads s1) s1)).
    { subst s2. by rewrite set_threads_self. }
    rewrite Hs2. apply inv_set_waits; [done|by apply threads_ok_self, Hinv1| |apply Hinv1].
    apply conds_ok_init; [done|lia|by rewrite Hc1]. }
  wp_gets. apply wp_assoc, wp_bind, wp_see_list; [done| |].
  { intros i ->%list_elem_of_singleton. apply (ci_lfmc _ (inv_core _ _ Hinv2)). }
  intros s3 Hf3 Hinv3. apply wp_ret.
  assert (Hrun : run s s3).
  { eapply run_trans; [apply Hf1|]. eapply (run_trans _ s2); [by apply run_prefix|apply Hf3]. }
  apply HQ; [by eapply running_step; [exact Hr|..]|done|].
  rewrite (frame_conds _ _ Hf3). subst s2. simpl. by rewrite Hc1, (frame_idx _ _ Hf1).
Qed.

Lemma remove_waiter_spec w alt : (alt < length w)%nat -> remove_waiter w alt = Some (take alt w ++ drop (S alt) w).
Proof.
  intros Halt. destruct (lookup_lt_exists w alt Halt) as [x Hx]. unfold remove_waiter.
  assert (Hlen : length (take alt w) = alt) by (rewrite length_take; lia).
  rewrite <- (take_drop_middle w alt x Hx) at 1 2. destruct (shift_left (drop (S alt) w) (take alt w) x) as [z Hz].
  rewrite Hlen in Hz.
  replace (length (take alt w ++ x :: drop (S alt) w) - 1 - alt)%nat with (length (drop (S alt) w))
    by (rewrite length_app, Hlen; simpl; lia).
  rewrite Hz. cbn [mbind option_bind]. rewrite app_assoc. apply vpop_snoc.
Qed.

Definition skip (alt k : nat) : nat := if decide (k < alt)%nat then k else S k.

Lemma skip_lookup (w : list Z) alt k i : (take alt w ++ drop (S alt) w) !! k = Some i -> w !! skip alt k = Some i.
Proof.
  unfold skip. intros Hk. case_decide as Hlt.
  - rewrite lookup_app_Some in Hk. destruct Hk as [[Hk _]%lookup_take_Some|[Hle Hk]]; [done|].
    rewrite length_take in Hle. rewrite lookup_drop in Hk. apply lookup_lt_Some in Hk. lia.
  - rewrite lookup_app_Some in Hk. destruct Hk as [[_ Hk]%lookup_take_Some|[Hle Hk]]; [lia|].
    rewrite lookup_drop, length_take in Hk. rewrite length_take in Hle. rewrite <- Hk. f_equal.
    destruct (decide (alt <= length w)%nat); [lia|]. apply lookup_lt_Some in Hk. lia.
Qed.

#[local] Instance skip_inj alt : Inj (=) (=) (skip alt).
Proof. intros k k'. unfold skip. repeat case_decide; lia. Qed.

Lemma skip_ne alt k : skip alt k <> alt.
Proof. unfold skip. case_decide; lia. Qed.

Lemma wp_wake_waiter s i q t (Q : unit -> TSOTraceBuilder -> Prop) : 0 <= i < prefix_idx s -> pid_of (view s) i = Some q ->
  zget (threads s) q = Some t -> available t = false ->
  Q tt (set_threads (<[Z.to_nat q := set_available true t]> (threads s)) s) -> wp (wake_waiter i) Q s.
Proof.
  intros Hi Hq Ht Hav HQ. unfold wake_waiter. wp_gets. wp_assert; [by apply bool_decide_eq_true|].
  unfold pid_of in Hq. simpl in Hq. rewrite zget_map in Hq. destruct (zget (events (prefix s)) i) as [e|] eqn:E; [|done].
  injection Hq as Hq. apply wp_bind. eapply wp_pfx; [done|]. rewrite Hq. apply wp_bind. eapply wp_thread; [exact Ht|].
  rewrite Hav. wp_assert; [done|]. by eapply wp_thread_upd_raw.
Qed.

(** A waiter's thread is blocked, and is not the current one. *)
Lemma waiter_blocked s p t a c i : running s p -> zget (threads s) p = Some t -> available t = true ->
  map_lookup (cond_vars s) a = Some c -> i ∈ waiters c ->
  exists q u, 0 <= i < prefix_idx s /\ pid_of (view s) i = Some q /\ Z.even q = true /\ zget (threads s) q = Some u /\ available u = false.
Proof.
  intros Hr Ht Hav Ha Hi. destruct (co_waiting _ (conds_ok_self conf s (rn_inv _ _ _ Hr)) a c i Ha Hi) as (q & [H0 Hq] & Hev & u' & Hu & Hau).
  simpl in Hu. rewrite zget_map in Hu. destruct (zget (threads s) q) as [u|] eqn:E; [|done]. injection Hu as <-. simpl in *.
  exists q, u. split_and!; [lia| |done..]. assert (i <> prefix_idx s); [|lia]. intros ->.
  destruct (rn_event _ _ _ Hr) as [_ Hp]. rewrite Hp in Hq. injection Hq as ->. congruence.
Qed.

(** [cond_signal] wakes the waiter the branch chose, and that one only. *)
Inductive signalled (s s' : TSOTraceBuilder) (a : SymAddr) (c : CondVar) (alt : nat) : Prop :=
  | signalled_none : waiters c = [] -> map_lookup (cond_vars s') a = Some (CondVar_new (prefix_idx s)) ->
      map tview (threads s') = map tview (threads s) -> signalled s s' a c alt
  | signalled_one i q u : waiters c !! alt = Some i -> pid_of (view s) i = Some q ->
      map_lookup (cond_vars s') a = Some (MkCondVar (prefix_idx s) (take alt (waiters c) ++ drop (S alt) (waiters c))) ->
      zget (threads s') q = Some u -> available u = true ->
      (forall x, x <> q -> tview <$> zget (threads s') x = tview <$> zget (threads s) x) -> signalled s s' a c alt.

Lemma wp_see_set s v (Q : unit -> TSOTraceBuilder -> Prop) : inv s -> seen_ok (view s) v ->
  (forall s', frame s s' -> inv s' -> Q tt s') -> wp (see_events conf v) Q s.
Proof.
  intros Hinv Hv HQ. apply wp_see_events; [done|apply Hinv|apply Hinv|done|].
  intros s' Hf Ha _. apply HQ; [done|by eapply inv_frame].
Qed.

Lemma wp_singleton s i (Q : list Z -> TSOTraceBuilder -> Prop) v : maybe_event v i ->
  (forall seen, seen_ok v seen -> Q seen s) -> wp (list_set [i]) Q s.
Proof.
  intros Hi HQ. destruct (of_range_loop_spec [i] [] sorted_nil) as (w & Hw & Hs & Hel).
  eapply wp_lift; [exact Hw|]. apply HQ. split; [done|]. by intros j [Hj%not_elem_of_nil| ->%list_elem_of_singleton]%Hel.
Qed.

(** The end of [cond_signal] and [cond_broadcast]: the variable is updated
    after its waiters in [W] have been made available. *)
Lemma wp_finish_wake s0 s p a c c' W ts f seen (Q : bool -> TSOTraceBuilder -> Prop) :
  running s0 p -> run s0 s -> running s p -> map_lookup (cond_vars s) a = Some c -> avail_set true W (threads s) ts ->
  (forall q, W q = true -> Z.even q = true /\ exists k, waiter_at (view s) a k q /\ forall k', f k' <> k) ->
  last_signal c' = prefix_idx s -> (forall k i, waiters c' !! k = Some i -> waiters c !! f k = Some i) -> Inj (=) (=) f ->
  seen_ok (view s) seen ->
  (forall s', running s' p -> run s0 s' -> map_lookup (cond_vars s') a = Some c' ->
     (forall b, b <> a -> map_lookup (cond_vars s') b = map_lookup (cond_vars s) b) ->
     map tview (threads s') = map tview ts -> Q true s') ->
  wp (_ ← cond_put a c'; _ ← see_events conf seen; mret true) Q (set_threads ts s).
Proof.
  intros Hr0 Hrun0 Hr Ha Has HW Hsig Hf Hinj Hseen HQ. pose proof (rn_inv _ _ _ Hr) as Hinv.
  pose proof (inv_idx conf _ Hinv) as H0. destruct (conds_ok_self conf s Hinv) as [_ _ Huniq].
  apply wp_bind, wp_modify. set (s2 := set_cond_vars _ _).
  destruct (threads_ok_avail s true W ts Hinv (fun q Hq => proj1 (HW q Hq)) Has) as [Hto Hsl].
  assert (Hinv2 : inv s2).
  { apply inv_set_waits; [done|done| |done]. eapply (conds_ok_update s a c c' true W ts f); try done; [rewrite Hsig; lia|].
    intros b k q Hb Hq. right. destruct (HW q Hq) as (_ & k0 & Hk0 & Hno).
    destruct (Huniq _ _ _ _ _ Hb Hk0) as [-> ->]. done. }
  apply wp_bind, wp_see_set; [done|exact (seen_ok_idx (view s) (view s2) _ eq_refl Hseen)|].
  intros s3 Hf3 Hinv3. apply wp_ret.
  assert (Hrun : run s0 s3).
  { eapply run_trans; [exact Hrun0|]. eapply (run_trans _ s2); [by apply run_prefix|apply Hf3]. }
  apply HQ; [by eapply running_step; [exact Hr0|..]|done| | |exact (f_equal v_threads (fr_view _ _ Hf3))];
    rewrite (frame_conds _ _ Hf3); unfold s2; simpl.
  - apply map_lookup_insert_eq.
  - intros b Hne. by apply map_lookup_insert_ne.
Qed.

Lemma wp_cond_signal s p t ml c alt (Q : bool -> TSOTraceBuilder -> Prop) :
  running s p -> Z.even p = true -> zget (threads s) p = Some t -> available t = true -> store_buffer t = [] ->
  map_lookup (cond_vars s) (sas_addr ml) = Some c -> cur_alt s (Z.of_nat alt) ->
  (waiters c <> [] -> (alt < length (waiters c))%nat) ->
  (forall s', running s' p -> run s s' -> signalled s s' (sas_addr ml) c alt ->
     (forall b, b <> sas_addr ml -> map_lookup (cond_vars s') b = map_lookup (cond_vars s) b) -> Q true s') ->
  wp (cond_signal conf ml) Q s.
Proof.
  intros Hr Hp Ht Hav Hb Ha Halt Hlt HQ. unfold cond_signal. cbv zeta. set (a := sas_addr ml) in *.
  apply (wp_sync_op s p); [done|done|by exists t|by split|]. intros s1 Hf1 Hr1.
  apply wp_bind, wp_wakeup; [done|apply Hr1|apply Hr1|done|]. intros s2 Hf2 Ha2.
  assert (Hr2 : running s2 p) by (by eapply running_frame). assert (Hf02 : frame s s2) by (by eapply frame_trans).
  wp_gets. rewrite (frame_conds _ _ Hf02), Ha. wp_gets. apply wp_bind, (wp_singleton _ _ _ (view s)).
  { rewrite <- (fr_view _ _ Hf02). apply (ci_lfmc _ (inv_core _ _ (rn_inv _ _ _ Hr2))). }
  intros seen Hseen. apply wp_or_return.
  assert (Hal2 : cur_alt s2 (Z.of_nat alt)) by (eapply cur_alt_run; [apply Hf02|done]).
  set (rest := br ← curbranch; _).
  assert (Hrest : forall s3, frame s s3 -> running s3 p -> wp rest Q s3).
  { intros s3 Hf3 Hr3. pose proof (frame_conds _ _ Hf3) as Hc3. destruct (frame_thread _ _ _ _ Hf3 Ht) as (t3 & Ht3 & Htv3).
    pose proof (frame_idx _ _ Hf3) as Hidx3. pose proof (rn_inv _ _ _ Hr3) as Hinv3.
    assert (Hav3 : available t3 = true) by (rewrite <- Hav; exact (f_equal v_available Htv3)).
    apply wp_bind, (wp_curbranch s3 (Z.of_nat alt)); [done|eapply cur_alt_run; [apply Hf3|done]|].
    intros br Hbr. rewrite Hbr. wp_assert; [by apply bool_decide_eq_true; lia|].
    wp_assert.
    { destruct (decide (waiters c = [])) as [->|Hne]; [done|]. apply orb_true_iff. right. apply bool_decide_eq_true.
      specialize (Hlt Hne). lia. }
    destruct (decide (waiters c = [])) as [Hw|Hw].
    - rewrite decide_False by (by intros Hn). apply wp_bind, wp_ret. wp_gets.
      rewrite <- (set_threads_self s3).
      eapply (wp_finish_wake s s3 p a c _ (fun _ => false) _ id); try done.
      + apply Hf3.
      + by rewrite Hc3.
      + apply avail_set_refl.
      + apply _.
      + by rewrite (fr_view _ _ Hf3).
      + intros s4 Hr4 Hrun4 Hc4 Hb4 Hts4. apply HQ; [done|done| |by intros b Hne; rewrite Hb4, Hc3].
        apply signalled_none; [done| |].
        * unfold CondVar_new. rewrite Hc4, Hw. simpl. by rewrite Hidx3.
        * rewrite Hts4. exact (f_equal v_threads (fr_view _ _ Hf3)).
    - specialize (Hlt Hw). destruct (lookup_lt_exists (waiters c) alt Hlt) as [i Hi]. rewrite decide_True by done.
      rewrite Nat2Z.id. destruct (waiter_blocked s3 p t3 a c i) as (q & u & Hi' & Hq & Hev & Hu & Hau);
        [done|done|done|by rewrite Hc3|by eapply list_elem_of_lookup_2|].
      apply wp_bind, wp_bind. eapply wp_lift; [by rewrite zget_nat|]. apply wp_bind. eapply wp_wake_waiter; [done..|].
      set (ts := <[Z.to_nat q := set_available true u]> (threads s3)).
      apply wp_bind. eapply (wp_ins_seen _ (view s)); [done|rewrite <- (fr_view _ _ Hf3); split; simpl; lia|].
      intros seen2 Hs2 _. apply wp_bind. eapply wp_lift; [by apply remove_waiter_spec|]. apply wp_ret. simpl. wp_gets.
      eapply (wp_finish_wake s s3 p a c _ (fun x => bool_decide (x = q) || false) ts (skip alt)); try done.
      + apply Hf3.
      + by rewrite Hc3.
      + by apply (avail_set_insert true (fun _ => false) (threads s3) (threads s3)); [apply avail_set_refl|].
      + intros x. rewrite orb_false_r. intros ->%bool_decide_eq_true. split; [done|]. exists alt.
        split; [exists c, i; simpl; by rewrite Hc3|apply skip_ne].
      + apply skip_lookup.
      + apply _.
      + by rewrite (fr_view _ _ Hf3).
      + intros s4 Hr4 Hrun4 Hc4 Hb4 Hts4. apply HQ; [done|done| |by intros b Hne; rewrite Hb4, Hc3].
        assert (Hz : forall x, tview <$> zget (threads s4) x = tview <$> zget ts x).
        { intros x. rewrite <- !zget_map. by rewrite Hts4. }
        pose proof (zget_Some _ _ _ Hu) as Hqlt.
        destruct (zget (threads s4) q) as [u4|] eqn:E4.
        2:{ specialize (Hz q). rewrite E4 in Hz. unfold ts in Hz. rewrite zget_insert, decide_True in Hz by done. done. }
        eapply (signalled_one s s4 a c alt i q u4); [done|by rewrite <- (fr_view _ _ Hf3)| |done| |].
        * rewrite Hc4. do 2 f_equal. exact Hidx3.
        * specialize (Hz q). rewrite E4 in Hz. unfold ts in Hz. rewrite zget_insert, decide_True in Hz by done.
          apply (inj Some) in Hz. exact (f_equal v_available Hz).
        * intros x Hx. rewrite Hz. unfold ts. rewrite zget_insert by done. rewrite decide_False by congruence.
          rewrite <- !zget_map. f_equal. exact (f_equal v_threads (fr_view _ _ Hf3)). }
  case_decide.
  - eapply wp_register_alternatives; [done|done|]. intros s3 Hf3 Hr3. split; [done|]. apply Hrest; [by eapply frame_trans|done].
  - apply wp_ret. split; [done|]. by apply Hrest.
Qed.

Lemma wp_wake_all s p t a c seen (Q : list Z -> TSOTraceBuilder -> Prop) :
  running s p -> zget (threads s) p = Some t -> available t = true -> map_lookup (cond_vars s) a = Some c ->
  seen_ok (view s) seen ->
  (forall ts W seen', avail_set true W (threads s) ts -> (forall q, W q = true <-> exists k, waiter_at (view s) a k q) ->
     seen_ok (view s) seen' -> Q seen' (set_threads ts s)) ->
  wp (loop (waiters c) (fun i seen => _ ← wake_waiter i; ins seen i) seen) Q s.
Proof.
  intros Hr Ht Hav Ha Hseen HQ. destruct (conds_ok_self conf s (rn_inv _ _ _ Hr)) as [_ _ Huniq].
  assert (Hat : forall k q, waiter_at (view s) a k q <-> exists i, waiters c !! k = Some i /\ pid_of (view s) i = Some q).
  { intros k q. split.
    - intros (c1 & i & Hc1 & Hk & Hq). simpl in Hc1. rewrite Ha in Hc1. injection Hc1 as <-. by exists i.
    - intros (i & Hk & Hq). by exists c, i. }
  eapply wp_mono; [apply (wp_loop (fun l st s' => exists ts W k, s' = set_threads ts s /\ l = drop k (waiters c) /\
    (k <= length (waiters c))%nat /\
    avail_set true W (threads s) ts /\ (forall q, W q = true <-> exists k', (k' < k)%nat /\ waiter_at (view s) a k' q) /\ seen_ok (view s) st))|].
  - exists (threads s), (fun _ => false), 0%nat. split_and!; [by rewrite set_threads_self|done|lia|apply avail_set_refl| |done].
    intros q. split; [done|]. intros (k' & ? & _). lia.
  - intros i l' seen1 s1 (ts & W & k & -> & Hl & Hk & Has & HW & Hs1).
    assert (Hi : waiters c !! k = Some i).
    { rewrite <- (Nat.add_0_r k), <- lookup_drop, <- Hl. done. }
    destruct (waiter_blocked s p t a c i) as (q & u & Hir & Hq & Hev & Hu & Hau);
      [done..|by eapply list_elem_of_lookup_2|].
    assert (HWq : W q = false).
    { apply not_true_is_false. intros (k' & Hk' & Hw)%HW. destruct (Huniq a k' a k q Hw) as [_ ?]; [by apply Hat; exists i|]. lia. }
    pose proof (as_at _ _ _ _ Has q u Hu) as Hq'. rewrite HWq in Hq'.
    apply wp_bind. eapply wp_wake_waiter; [done|exact Hq|exact Hq'|done|].
    eapply (wp_ins_seen _ (view s)); [done|split; simpl; lia|]. intros seen2 Hs2 _.
    exists (<[Z.to_nat q := set_available true (set_available (available u) u)]> ts), (fun x => bool_decide (x = q) || W x), (S k).
    split_and!; [done| |apply lookup_lt_Some in Hi; lia|by apply avail_set_insert| |done].
    + rewrite (drop_S _ _ _ Hi) in Hl. congruence.
    + intros x. rewrite orb_true_iff, bool_decide_eq_true, HW. split.
      * intros [->|(k' & Hk' & Hw)]; [exists k; split; [lia|by apply Hat; exists i]|exists k'; split; [lia|done]].
      * intros (k' & Hk' & Hw). destruct (decide (k' = k)) as [->|]; [|right; exists k'; split; [lia|done]].
        left. apply Hat in Hw as (j & Hj & Hx). rewrite Hi in Hj. injection Hj as <-. congruence.
  - intros seen' s' (ts & W & k & -> & Hl & Hk & Has & HW & Hs'). eapply HQ; [exact Has| |done].
    intros q. rewrite HW. split; [by intros (k' & _ & Hw); exists k'|]. intros (k' & Hw). exists k'. split; [|done].
    apply Hat in Hw as (i & Hi & _). apply lookup_lt_Some in Hi.
    apply (f_equal length) in Hl. rewrite length_drop in Hl. simpl in Hl. lia.
Qed.

(** [cond_broadcast] wakes every waiter and empties the queue. *)
Lemma wp_cond_broadcast s p t ml c (Q : bool -> TSOTraceBuilder -> Prop) :
  running s p -> Z.even p = true -> zget (threads s) p = Some t -> available t = true -> store_buffer t = [] ->
  map_lookup (cond_vars s) (sas_addr ml) = Some c ->
  (forall s', running s' p -> run s s' -> map_lookup (cond_vars s') (sas_addr ml) = Some (CondVar_new (prefix_idx s)) ->
     (forall b, b <> sas_addr ml -> map_lookup (cond_vars s') b = map_lookup (cond_vars s) b) ->
     (forall k q, waiter_at (view s) (sas_addr ml) k q -> exists u, zget (threads s') q = Some u /\ available u = true) ->
     (forall q, (forall k, ~ waiter_at (view s) (sas_addr ml) k q) ->
        tview <$> zget (threads s') q = tview <$> zget (threads s) q) -> Q true s') ->
  wp (cond_broadcast conf ml) Q s.
Proof.
  intros Hr Hp Ht Hav Hb Ha HQ. unfold cond_broadcast. cbv zeta. set (a := sas_addr ml) in *.
  apply (wp_sync_op s p); [done|done|by exists t|by split|]. intros s1 Hf1 Hr1.
  apply wp_bind, wp_wakeup; [done|apply Hr1|apply Hr1|done|]. intros s2 Hf2 Ha2.
  assert (Hr2 : running s2 p) by (by eapply running_frame). assert (Hf02 : frame s s2) by (by eapply frame_trans).
  pose proof (frame_conds _ _ Hf02) as Hc2. pose proof (fr_view _ _ Hf02) as Hv2.
  wp_gets. rewrite Hc2, Ha. wp_gets. apply wp_bind, (wp_singleton _ _ _ (view s2)).
  { apply (ci_lfmc _ (inv_core _ _ (rn_inv _ _ _ Hr2))). }
  intros seen Hseen. destruct (frame_thread _ _ _ _ Hf02 Ht) as (t2 & Ht2 & Htv2).
  apply wp_bind, (wp_wake_all s2 p t2 a c); [done|done|by rewrite <- Hav; exact (f_equal v_available Htv2)|by rewrite Hc2|done|].
  intros ts W seen' Has HW Hs'. wp_gets.
  eapply (wp_finish_wake s s2 p a c _ W ts (fun k => (k + length (waiters c))%nat)); try done.
  - apply Hf02.
  - by rewrite Hc2.
  - intros q (k & Hw)%HW. pose proof Hw as (c1 & i & Hc1 & Hk & Hq). simpl in Hc1. rewrite Hc2, Ha in Hc1. injection Hc1 as <-.
    split.
    + destruct (co_waiting _ (conds_ok_self conf s2 (rn_inv _ _ _ Hr2)) a c i) as (q' & [_ Hq'] & Hev & _);
        [simpl; by rewrite Hc2|by eapply list_elem_of_lookup_2|]. rewrite Hq in Hq'. injection Hq' as ->. done.
    + exists k. split; [done|]. intros k'. apply lookup_lt_Some in Hk. lia.
  - intros k k' Hkk. simpl in Hkk. lia.
  - intros s4 Hr4 Hrun4 Hc4 Hb4 Hts4.
    assert (Hz : forall x, tview <$> zget (threads s4) x = tview <$> zget ts x).
    { intros x. rewrite <- !zget_map. by rewrite Hts4. }
    assert (Hz2 : forall x, tview <$> zget (threads s2) x = tview <$> zget (threads s) x).
    { intros x. rewrite <- !zget_map. f_equal. exact (f_equal v_threads Hv2). }
    apply HQ; [done|done| | | |].
    + rewrite Hc4. unfold CondVar_new. do 2 f_equal. exact (frame_idx _ _ Hf02).
    + intros b Hne. by rewrite Hb4, Hc2.
    + intros k q Hw. rewrite <- Hv2 in Hw. specialize (Hz q).
      assert (Hu : exists u, zget (threads s2) q = Some u).
      { destruct Hw as (c1 & i & Hc1 & Hk & Hq). destruct (waiter_blocked s2 p t2 a c1 i) as (q' & u & _ & Hq' & _ & Hu & _);
          [done|done|by rewrite <- Hav; exact (f_equal v_available Htv2)|exact Hc1|by eapply list_elem_of_lookup_2|].
        rewrite Hq in Hq'. injection Hq' as <-. by exists u. }
      destruct Hu as [u Hu]. pose proof (as_at _ _ _ _ Has q u Hu) as Hts. rewrite Hts in Hz.
      assert (HWq : W q = true) by (apply HW; by exists k). rewrite HWq in Hz.
      destruct (zget (threads s4) q) as [u4|]; [|done]. exists u4. split; [done|].
      apply (inj Some) in Hz. exact (f_equal v_available Hz).
    + intros q Hno. rewrite Hz, <- Hz2. destruct (zget (threads s2) q) as [u|] eqn:Hu.
      * rewrite (as_at _ _ _ _ Has q u Hu). destruct (W q) eqn:E; [|by destruct u].
        apply HW in E as [k Hk]. rewrite Hv2 in Hk. by destruct (Hno k).
      * destruct (zget ts q) as [u|] eqn:E; [|done]. destruct (avail_set_back _ _ _ _ _ _ Has E) as (u' & Hu' & _). congruence.
Qed.

Lemma xframe_conds s s' : xframe s s' -> cond_vars s' = cond_vars s.
Proof. intros [_ Hv]. exact (f_equal v_conds Hv). Qed.
Lemma xframe_thread s s' p t : xframe s s' -> zget (threads s) p = Some t ->
  exists t', zget (threads s') p = Some t' /\ tview t' = tview t.
Proof.
  intros [_ Hv] Ht. pose proof (f_equal v_threads Hv) as Hts. simpl in Hts.
  apply (f_equal (fun l => zget l p)) in Hts. rewrite !zget_map, Ht in Hts.
  destruct (zget (threads s') p) as [t'|]; [|done]. exists t'. split; [done|]. by apply (inj Some).
Qed.

(** The current thread joins the queue of [a] and blocks. *)
Lemma conds_ok_wait s p t a c ts : running s p -> Z.even p = true -> zget (threads s) p = Some t -> available t = true ->
  map_lookup (cond_vars s) a = Some c -> avail_set false (fun x => bool_decide (x = p)) (threads s) ts ->
  conds_ok (view_with_waits (map_insert (cond_vars s) a (set_waiters (waiters c ++ [prefix_idx s]) c)) (map tview ts) (view s)).
Proof.
  intros Hr Hp Ht Hav Ha Has. destruct (conds_ok_self conf s (rn_inv _ _ _ Hr)) as [H1 H2 H3].
  set (v' := view_with_waits _ _ _). destruct (rn_event _ _ _ Hr) as [Hidx Hpid].
  assert (Hnot : forall b c1 i, map_lookup (cond_vars s) b = Some c1 -> i ∈ waiters c1 -> pid_of (view s) i <> Some p).
  { intros b c1 i Hc1 Hi Heq. destruct (waiter_blocked s p t b c1 i Hr Ht Hav Hc1 Hi) as (q & u & _ & Hq & _ & Hu & Hau).
    rewrite Heq in Hq. injection Hq as <-. congruence. }
  assert (Hat : forall b k q, waiter_at v' b k q -> (waiter_at (view s) b k q /\ q <> p) \/ (b = a /\ k = length (waiters c) /\ q = p)).
  { intros b k q (c1 & i & Hc1 & Hk & Hq). unfold v' in Hc1. simpl in Hc1. rewrite map_lookup_insert in Hc1.
    case_decide as Hab.
    - subst b. injection Hc1 as <-. simpl in Hk. apply lookup_app_Some in Hk as [Hk|[Hlen Hk]].
      + left. split; [by exists c, i|]. intros ->. by eapply (Hnot a c i); [..|by eapply list_elem_of_lookup_2|].
      + right. apply list_lookup_singleton_Some in Hk as [Hk <-]. change (pid_of (view s) (prefix_idx s) = Some q) in Hq.
        rewrite Hpid in Hq. injection Hq as <-. split_and!; [done|lia|done].
    - left. split; [by exists c1, i|]. intros ->. by eapply (Hnot b c1 i); [..|by eapply list_elem_of_lookup_2|]. }
  split.
  - intros b c1. unfold v'. simpl. rewrite map_lookup_insert. case_decide; [intros [= <-]; exact (H1 a c Ha)|apply H1].
  - intros b c1 i Hc1 Hi. unfold v' in Hc1. simpl in Hc1. rewrite map_lookup_insert in Hc1.
    assert (Hold : (exists c0, map_lookup (cond_vars s) b = Some c0 /\ i ∈ waiters c0) \/ i = prefix_idx s).
    { case_decide as Hab; [|by left; exists c1]. subst b. injection Hc1 as <-. simpl in Hi.
      apply elem_of_app in Hi as [Hi| ->%list_elem_of_singleton]; [by left; exists c|by right]. }
    destruct Hold as [(c0 & Hc0 & Hi0)| ->].
    + destruct (H2 b c0 i Hc0 Hi0) as (q & Hev & Hqe & u' & Hu & Hau). simpl in Hu. rewrite zget_map in Hu.
      destruct (zget (threads s) q) as [u|] eqn:E; [|done]. injection Hu as <-. simpl in Hau.
      exists q. split; [done|]. split; [done|]. unfold v'. simpl. rewrite zget_map, (as_at _ _ _ _ Has q u E).
      eexists. split; [done|]. simpl. by case_bool_decide.
    + exists p. split; [done|]. split; [done|]. unfold v'. simpl. rewrite zget_map, (as_at _ _ _ _ Has p t Ht).
      eexists. split; [done|]. simpl. by rewrite bool_decide_true.
  - intros b k b' k' q Hw Hw'. destruct (Hat _ _ _ Hw) as [[Hk Hq]|(-> & -> & Hq)], (Hat _ _ _ Hw') as [[Hk' Hq']|(-> & -> & Hq')];
      [by apply (H3 b k b' k' q)|congruence..|done].
Qed.

(** [cond_wait] releases the mutex, joins the queue and blocks the thread. *)
Lemma wp_cond_wait s p t cml mml c x (Q : bool -> TSOTraceBuilder -> Prop) :
  running s p -> Z.even p = true -> zget (threads s) p = Some t -> available t = true -> store_buffer t = [] ->
  map_lookup (mutexes s) (sas_addr mml) = Some x -> event_of (view s) (last_lock x) p -> last_access x < prefix_idx s ->
  map_lookup (cond_vars s) (sas_addr cml) = Some c ->
  (forall s' t', running s' p -> run s s' ->
     map_lookup (mutexes s') (sas_addr mml) = Some (MkMutex (prefix_idx s) (last_lock x) false) ->
     map_lookup (cond_vars s') (sas_addr cml) = Some (set_waiters (waiters c ++ [prefix_idx s]) c) ->
     zget (threads s') p = Some t' -> available t' = false -> Q true s') ->
  wp (cond_wait conf cml mml) Q s.
Proof.
  intros Hr Hp Ht Hav Hb Hx [Hlock Hlp] Hlt Hc HQ. pose proof (rn_inv _ _ _ Hr) as Hinv.
  unfold cond_wait. wp_gets. rewrite (rn_dry _ _ _ Hr). wp_gets. rewrite Hx. simpl in Hlock.
  destruct (zget_lt (events (prefix s)) (last_lock x)) as [l Hl].
  { pose proof (ci_idx _ (inv_core _ _ Hinv)) as Hi. simpl in Hi. rewrite length_map in Hi. lia. }
  assert (Hlpid : iid_pid (iid l) = p).
  { unfold pid_of in Hlp. simpl in Hlp. rewrite zget_map, Hl in Hlp. by injection Hlp. }
  apply wp_bind, wp_bind. rewrite decide_False by lia. apply wp_bind. eapply wp_pfx; [exact Hl|].
  apply wp_bind. eapply wp_running_curpid; [done|]. intros _. apply wp_ret. rewrite Hlpid, bool_decide_false by (by intros []).
  apply wp_ret. apply wp_bind. eapply wp_mark_conflict; [done|]. intros s1 Hf1 Hr1. apply wp_or_return.
  assert (Hmx : mutex_at s1 (sas_addr mml) = x) by (unfold mutex_at; by rewrite (frame_mutexes _ _ Hf1), Hx).
  pose proof (frame_idx _ _ Hf1) as Hidx1. destruct (frame_thread _ _ _ _ Hf1 Ht) as (t1 & Ht1 & Htv1).
  pose proof (mi_order _ _ (ci_mutex _ (inv_core _ _ Hinv) _ _ (map_lookup_elem _ _ _ Hx))) as Hord.
  apply (wp_mutex_unlock s1 p); [done|done| |right; rewrite (frame_mutexes _ _ Hf1), Hx; by eexists|rewrite Hmx, Hidx1; lia|].
  { exists t1. split; [done|]. rewrite <- Hb. exact (f_equal v_buffer Htv1). }
  intros s2 [Hxf2 Hr2 Hm2 _]. rewrite Hmx, Hidx1 in Hm2. split; [done|]. pose proof (xframe_idx _ _ Hxf2) as Hidx2.
  destruct (xframe_thread _ _ _ _ Hxf2 Ht1) as (t2 & Ht2 & Htv2).
  assert (Hc2 : map_lookup (cond_vars s2) (sas_addr cml) = Some c) by (by rewrite (xframe_conds _ _ Hxf2), (frame_conds _ _ Hf1)).
  apply wp_or_return. eapply wp_record_symbolic; [done|by split|]. intros s3 e Hf3 Hr3 _ _. split; [done|].
  wp_gets. rewrite (rn_dry _ _ _ Hr3). apply wp_or_return.
  destruct (frame_thread _ _ _ _ Hf3 Ht2) as (t3 & Ht3 & Htv3).
  apply (wp_fence conf s3 p); [done|done| |].
  { exists t3. split; [done|]. rewrite <- Hb. exact (f_equal v_buffer (eq_trans Htv3 (eq_trans Htv2 Htv1))). }
  intros s4 Hf4 Hr4. split; [done|]. apply wp_bind, wp_wakeup; [done|apply Hr4|apply Hr4|done|]. intros s5 Hf5 Ha5.
  assert (Hr5 : running s5 p) by (by eapply running_frame).
  assert (Hf25 : frame s2 s5) by (eapply frame_trans; [exact Hf3|by eapply frame_trans]).
  assert (Hidx5 : prefix_idx s5 = prefix_idx s) by (rewrite (frame_idx _ _ Hf25); congruence).
  destruct (frame_thread _ _ _ _ Hf25 Ht2) as (t5 & Ht5 & Htv5).
  assert (Hav5 : available t5 = true) by (rewrite <- Hav; exact (f_equal v_available (eq_trans Htv5 (eq_trans Htv2 Htv1)))).
  assert (Hc5 : map_lookup (cond_vars s5) (sas_addr cml) = Some c) by (by rewrite (frame_conds _ _ Hf25)).
  apply wp_bind. eapply wp_running_curpid; [done|]. intros _. wp_gets. rewrite Hc5. wp_gets. apply wp_bind, wp_modify.
  apply wp_bind. eapply wp_thread_upd_raw; [exact Ht5|]. pose proof (zget_Some _ _ _ Ht5) as Hplt.
  set (ts := <[Z.to_nat p := set_available false t5]> (threads s5)).
  assert (Has : avail_set false (fun x => bool_decide (x = p)) (threads s5) ts).
  { split; [apply length_insert|]. intros q u Hq. unfold ts. rewrite zget_insert by done. case_decide as Hqp.
    - subst q. rewrite Ht5 in Hq. injection Hq as <-. by rewrite bool_decide_true.
    - rewrite bool_decide_false by congruence. rewrite Hq. by destruct u. }
  set (s6 := set_threads _ _).
  assert (Hs6 : s6 = set_cond_vars (map_insert (cond_vars s5) (sas_addr cml) (set_waiters (waiters c ++ [prefix_idx s5]) c)) (set_threads ts s5)) by done.
  assert (Hinv6 : inv s6).
  { rewrite Hs6. destruct (threads_ok_avail s5 false (fun x => bool_decide (x = p)) ts) as [Hto Hsl]; [apply Hr5| |done|].
    - by intros q ->%bool_decide_eq_true.
    - apply inv_set_waits; [apply Hr5|done| |done]. by apply (conds_ok_wait s5 p t5). }
  wp_gets. apply wp_assoc, wp_bind, wp_see_list; [done| |].
  { intros i [->|[->|Hi%not_elem_of_nil]%elem_of_cons]%elem_of_cons; [| |done].
    - apply (ci_lfmc _ (inv_core _ _ Hinv6)).
    - pose proof (ci_signal _ (inv_core _ _ (rn_inv _ _ _ Hr5)) _ _ Hc5) as Hsig. unfold maybe_event. simpl in *. lia. }
  intros s7 Hf7 Hinv7. apply wp_ret.
  assert (Hrun : run s s7).
  { eapply run_trans; [apply Hf1|]. eapply run_trans; [apply Hxf2|]. eapply run_trans; [apply Hf25|].
    eapply (run_trans _ s6); [by apply run_prefix|apply Hf7]. }
  destruct (frame_thread s6 s7 p (set_available false t5)) as (t7 & Ht7 & Htv7); [done| |].
  { simpl. rewrite zget_insert by done. by rewrite decide_True. }
  apply (HQ s7 t7); [by eapply running_step; [exact Hr|..]|done| | |done|exact (f_equal v_available Htv7)].
  - rewrite (frame_mutexes _ _ Hf7). simpl. by rewrite (frame_mutexes _ _ Hf25).
  - rewrite (frame_conds _ _ Hf7). simpl. by rewrite map_lookup_insert_eq, Hidx5.
Qed.

(** Waking from a wait takes the mutex again. *)
Lemma mutexed_frame s s1 s2 p a r : mutexed s s1 p a r -> frame s1 s2 -> running s2 p -> mutexed s s2 p a r.
Proof.
  intros [Hx Hr Hat Ho] Hf Hr2. split; [by eapply xframe_trans; [|apply frame_xframe]|done| |].
  - by rewrite (frame_mutexes _ _ Hf).
  - intros b Hb. rewrite (frame_mutexes _ _ Hf). by apply Ho.
Qed.

Lemma wp_cond_awake s p cml mml c (Q : bool -> TSOTraceBuilder -> Prop) :
  running s p -> Z.even p = true -> flushed s p ->
  map_lookup (cond_vars s) (sas_addr cml) = Some c -> last_signal c < prefix_idx s ->
  locked (mutex_at s (sas_addr mml)) = false -> last_access (mutex_at s (sas_addr mml)) < prefix_idx s ->
  (forall s', mutexed s s' p (sas_addr mml) (Some (MkMutex (prefix_idx s) (prefix_idx s) true)) -> Q true s') ->
  wp (cond_awake conf cml mml) Q s.
Proof.
  intros Hr Hp Hb Hc Hsig Hl Hlt HQ. unfold cond_awake. wp_gets. rewrite (rn_dry _ _ _ Hr).
  pose proof (rn_inv _ _ _ Hr) as Hinv. pose proof (ci_signal _ (inv_core _ _ Hinv) _ _ Hc) as [H0 _].
  cbn [negb when]. apply wp_bind. wp_gets. wp_assert; [by unfold map_count; rewrite Hc|].
  apply wp_bind. eapply wp_lift; [exact Hc|]. wp_gets.
  apply wp_add_happens_after; [apply Hinv|apply Hinv|lia|lia|]. intros s1 Hf1 Ha1 _.
  pose proof (running_frame _ _ _ _ Hr Hf1 Ha1) as Hr1. pose proof (frame_idx _ _ Hf1) as Hi1.
  apply wp_bind. eapply wp_mark_conflict; [done|]. intros s2 Hf2 Hr2. pose proof (frame_idx _ _ Hf2) as Hi2.
  assert (Hf02 : frame s s2) by (by eapply frame_trans).
  apply wp_or_return, (wp_mutex_lock s2 p); [done|done|by eapply flushed_frame| | |].
  - by rewrite (mutex_at_frame _ _ _ Hf02).
  - rewrite (mutex_at_frame _ _ _ Hf02). lia.
  - intros s3 Hm. split; [done|]. apply wp_or_return.
    eapply wp_record_symbolic; [apply (mx_running _ _ _ _ _ Hm)|by split|]. intros s4 e Hf4 Hr4 _ _.
    split; [done|]. apply wp_ret, HQ. pose proof (mutexed_frame _ _ _ _ _ _ Hm Hf4 Hr4) as [Hx4 _ Hat Ho].
    rewrite Hi2, Hi1 in Hat. split; [|done|done|].
    + eapply xframe_trans; [by apply frame_xframe|exact Hx4].
    + intros b Hne. rewrite Ho by done. by rewrite (frame_mutexes _ _ Hf02).
Qed.

Lemma conds_ok_erase s a : inv s ->
  conds_ok (view_with_waits (map_erase (cond_vars s) a) (v_threads (view s)) (view s)).
Proof.
  intros Hinv. destruct (conds_ok_self conf s Hinv) as [H1 H2 H3].
  assert (Hsub : forall b c, map_lookup (map_erase (cond_vars s) a) b = Some c -> map_lookup (cond_vars s) b = Some c).
  { intros b c. rewrite map_lookup_erase. by case_decide. }
  split.
  - intros b c Hc. apply (H1 b c), Hsub, Hc.
  - intros b c j Hc Hj. exact (H2 b c j (Hsub _ _ Hc) Hj).
  - intros b k b' k' q (c & i & Hc & Hk) (c' & i' & Hc' & Hk').
    apply (H3 b k b' k' q); [exists c, i|exists c', i']; (split; [by apply Hsub|done]).
Qed.

(** Destroying a condition variable unbinds it; the result tells whether
    threads still wait. *)
Lemma wp_cond_destroy s p ml c (Q : Z -> TSOTraceBuilder -> Prop) :
  running s p -> Z.even p = true -> flushed s p -> map_lookup (cond_vars s) (sas_addr ml) = Some c ->
  (forall s', running s' p -> run s s' -> cond_vars s' = map_erase (cond_vars s) (sas_addr ml) ->
     Q (if decide (waiters c <> []) then EBUSY else 0) s') ->
  wp (cond_destroy conf ml) Q s.
Proof.
  intros Hr Hp Hb Hc HQ. unfold cond_destroy. cbv zeta. set (a := sas_addr ml) in *.
  unfold sync_prologue. apply wp_bind, wp_bind. eapply wp_mark_conflict; [done|]. intros s1 Hf1 Hr1.
  apply wp_bind. eapply wp_record_symbolic; [exact Hr1|by split|]. intros s2 e Hf2 Hr2 _ _.
  cbn [negb]. wp_gets. rewrite (rn_dry _ _ _ Hr2).
  apply wp_bind. assert (Hf02 : frame s s2) by (by eapply frame_trans).
  apply (wp_fence conf s2 p); [done|done|by eapply flushed_frame|]. intros s3 Hf3 Hr3. cbn [negb]. apply wp_ret.
  assert (Hf03 : frame s s3) by (by eapply frame_trans). pose proof (rn_inv _ _ _ Hr3) as Hinv3.
  apply wp_bind, wp_wakeup; [done|apply Hinv3|apply Hinv3|done|]. intros s4 Hf4 Ha4.
  pose proof (running_frame _ _ _ _ Hr3 Hf4 Ha4) as Hr4. pose proof (rn_inv _ _ _ Hr4) as Hinv4.
  assert (Hf04 : frame s s4) by (by eapply frame_trans). wp_gets. rewrite (frame_conds _ _ Hf04), Hc. wp_gets.
  assert (Hc4 : map_lookup (cond_vars s4) a = Some c) by (by rewrite (frame_conds _ _ Hf04)).
  destruct (of_range_correct [last_signal c; last_full_memory_conflict s4]) as (seen & Hse & Hso & Hel).
  apply wp_bind. eapply wp_lift; [exact Hse|].
  assert (Hs : seen_ok (view s4) seen).
  { split; [by apply check_invariant_sorted|]. intros i Hi%Hel. apply elem_of_cons in Hi as [->|Hi%list_elem_of_singleton].
    - pose proof (ci_signal _ (inv_core _ _ Hinv4) _ _ Hc4). unfold maybe_event. simpl in *. lia.
    - subst. apply (ci_lfmc _ (inv_core _ _ Hinv4)). }
  apply wp_bind. eapply (wp_ins_all (fun i => i) (view s4)); [done| |].
  { intros i Hi. destruct (ci_waiting _ (inv_core _ _ Hinv4) _ _ _ Hc4 Hi) as (q & [[Hrange _] _]).
    unfold maybe_event. simpl in *. lia. }
  intros seen' Hs' _. apply wp_bind, wp_see_set; [done|done|]. intros s5 Hf5 Hinv5.
  apply wp_bind, wp_modify, wp_ret. set (s6 := set_cond_vars _ s5).
  assert (Hinv6 : inv s6).
  { assert (Hs6 : s6 = set_cond_vars (map_erase (cond_vars s5) a) (set_threads (threads s5) s5)).
    { subst s6. by rewrite set_threads_self. }
    rewrite Hs6. apply inv_set_waits; [done|by apply threads_ok_self, Hinv5| |apply Hinv5]. by apply conds_ok_erase. }
  assert (Hrun : run s s6).
  { eapply run_trans; [apply Hf04|]. eapply (run_trans _ s5); [apply Hf5|by apply run_prefix]. }
  apply HQ; [by eapply running_step; [exact Hr|..]|done|].
  subst s6. simpl. by rewrite (frame_conds _ _ Hf5), (frame_conds _ _ Hf04).
Qed.

End sync.
