(* ===== verification/TSOSched.v ===== *)
(** * TSOSched: scheduling in the TSO trace builder
      (src/src/TSOTraceBuilder.cpp, lines 42-330 and 330-388)

    The constructor, [schedule] and its companions, and the part of [reset]
    that prepares the next execution once the races have been planned. *)

From S2P Require Import Prelude StdMap VecSet CPid SymAddr ByteOps SymEv ReplayMem WakeupTree TSOState TSOOps.

Local Open Scope Z_scope.

Section sched.
Context (conf : Configuration).

(** ** The initial state *)

(** The two threads every execution starts with. *)
Definition initial_threads : option (CPidSystem * list Thread) :=
  r ← cps_new_aux cps_init CPid_root;
  Some (r.2, [Thread_new CPid_root (-1); set_available false (Thread_new r.1 (-1))]).

Definition TSOTraceBuilder_new : option TSOTraceBuilder :=
  r ← initial_threads;
  Some (MkTSOTraceBuilder r.2 r.1 [] (-1) [] [] [] [] buffer_empty 0 (-1) 0 false false 0 0 [] false).

(** ** The exploration buffer in the monad *)

Definition set_replay_point (v : Z) (s : TSOTraceBuilder) : TSOTraceBuilder :=
  MkTSOTraceBuilder (threads s) (CPS s) (mem s) (last_full_memory_conflict s) (mutexes s) (cond_vars s) (lock_fail_races s) (blocked_awaits s) (prefix s) (dry_sleepers s) (prefix_idx s) (sym_idx s) (dryrun s) (replay s) v (last_md s) (errors s) (has_vclocks s).
Definition set_has_vclocks (v : bool) (s : TSOTraceBuilder) : TSOTraceBuilder :=
  MkTSOTraceBuilder (threads s) (CPS s) (mem s) (last_full_memory_conflict s) (mutexes s) (cond_vars s) (lock_fail_races s) (blocked_awaits s) (prefix s) (dry_sleepers s) (prefix_idx s) (sym_idx s) (dryrun s) (replay s) (replay_point s) (last_md s) (errors s) v.
Definition set_sleep (v : list Z) (e : Event) : Event :=
  MkEvent (iid e) (origin_iid e) (ev_md e) (clock e) (happens_after e) (races e) (happens_after_later e) (may_conflict e) (sym e) v (sleep_evs e) (ev_wakeup e) (sleep_branch_trace_count e).
Definition set_sleep_branch_trace_count (v : Z) (e : Event) : Event :=
  MkEvent (iid e) (origin_iid e) (ev_md e) (clock e) (happens_after e) (races e) (happens_after_later e) (may_conflict e) (sym e) (sleep e) (sleep_evs e) (ev_wakeup e) v.
Definition set_b_sym (v : sym_ty) (b : Branch) : Branch := MkBranch v (b_pid b) (b_alt b) (b_size b).
Definition set_b_size (v : Z) (b : Branch) : Branch := MkBranch (b_sym b) (b_pid b) (b_alt b) v.

(** [prefix.op(...)] for an operation that changes the buffer. *)
Definition on_prefix (f : Buffer (Branch := Branch) (Event := Event) -> option (Buffer (Branch := Branch) (Event := Event))) : M unit :=
  b ← gets prefix; b' ← lift (f b); modify (set_prefix b').
(** [prefix.op(...)] for one that reads it. *)
Definition of_prefix {A} (f : Buffer (Branch := Branch) (Event := Event) -> option A) : M A :=
  b ← gets prefix; lift (f b).

(** [pid/2] and [pid % 2 - 1]: the process and the auxiliary index. *)
Definition proc_of (pid : Z) : Z := Z.quot pid 2.
Definition aux_of (pid : Z) : Z := Z.rem pid 2 - 1.
Definition ipid (proc aux : Z) : M Z :=
  _ ← massert (bool_decide (-1 <= aux <= 0));
  ts ← gets threads; _ ← massert (bool_decide (proc * 2 + 1 < Z.of_nat (length ts)));
  mret (if decide (aux = 0) then proc * 2 + 1 else proc * 2).

(** [errors.size() && errors.back()->get_location() == IID<CPid>(c, index)] *)
Definition get_location (e : Error) : Loc :=
  match e with PthreadsError l _ | NondeterminismError l _ | InvalidInputError l _ | RobustnessError l => l end.
Definition loc_eq (a b : Loc) : bool :=
  (loc_index a =? loc_index b) && (cpid_compare (loc_pid a) (loc_pid b) =? 0).
Definition error_at (c : CPid) (index : Z) : M bool :=
  es ← gets errors;
  mret match vback es with Some e => loc_eq (get_location e) (MkLoc c index) | None => false end.

(** The current event was replayed to its end, or stopped by an error. *)
Definition assert_replayed : M unit :=
  i ← gets prefix_idx;
  if decide (i < 0) then mret tt
  else
    e ← curev; k ← gets sym_idx;
    if decide (length (sym e) = k) then mret tt
    else
      b ← curbranch; t ← thread (b_pid b);
      ok ← error_at (cpid t) (iid_index (iid e)); massert ok.

Definition push_event_index (pid : Z) : M unit :=
  i ← gets prefix_idx; thread_upd pid (fun t => set_event_indices (event_indices t ++ [i]) t).

(** ** The replay branches of [schedule] *)

(** A scheduling decision: process, auxiliary index, alternative, dry run. *)
Record Choice := MkChoice { c_proc : Z; c_aux : Z; c_alt : Z; c_dry : bool }.
Definition choose (pid alt : Z) (dry : bool) : option Choice := Some (MkChoice (proc_of pid) (aux_of pid) alt dry).

Definition continues_event : M bool :=
  i ← gets prefix_idx;
  if decide (0 <= i) then
    e ← curev; t ← thread (iid_pid (iid e)); b ← curbranch;
    mret (bool_decide (last_event_index t < iid_index (iid e) + b_size b - 1))
  else mret false.

Definition continue_event : M (option Choice) :=
  e ← curev; let pid := iid_pid (iid e) in
  t ← thread pid; _ ← massert (available t); _ ← push_event_index pid;
  mret (choose pid 0 false).

Definition replay_is_over : M bool :=
  i ← gets prefix_idx; n ← pfx_len;
  if decide (i + 1 = n) then
    sz ← of_prefix (fun b => r ← lastnode b; ref_size (wtree b) r); mret (bool_decide (sz = 0)%nat)
  else mret false.

Definition end_replay : M unit :=
  _ ← assert_replayed;
  _ ← modify (set_replay false);
  if decide (dpor_algorithm conf = SOURCE) then mret tt
  else
    es ← gets errors;
    ok ← (if decide (es = []) then mret false
          else e ← curev; t ← thread (iid_pid (iid e)); error_at (cpid t) (iid_index (iid e)));
    ts ← gets threads;
    massert (ok || forallb (fun t => negb (sleeping t)) ts).

Definition has_sleepers : M bool :=
  i ← gets prefix_idx; n ← pfx_len; d ← gets dry_sleepers;
  if decide (i + 1 <> n) then e ← pfx (i + 1); mret (bool_decide (d < Z.of_nat (length (sleep e))))
  else mret false.

Definition dry_run_next : M (option Choice) :=
  i ← gets prefix_idx; d ← gets dry_sleepers;
  e ← pfx (i + 1);
  pid ← lift (zget (sleep e) d);
  let evs := resize (length (sleep e)) [] (sleep_evs e) in
  cleared ← lift (zset evs d []);
  _ ← pfx_upd (i + 1) (set_sleep_evs cleared);
  _ ← modify (set_dry_sleepers (d + 1));
  _ ← thread_upd pid (fun t => set_sleeping true (set_sleep_sym (Some (i + 1, Z.to_nat d)) t));
  _ ← modify (set_dryrun true);
  mret (choose pid 0 true).

Definition next_event : M (option Choice) :=
  _ ← assert_replayed;
  _ ← modify (fun s => set_sym_idx 0 (set_dry_sleepers 0 s));
  _ ← modify (fun s => set_prefix_idx (prefix_idx s + 1) s);
  i ← gets prefix_idx; n ← pfx_len;
  pid ← (if decide (i < n) then
           e ← curev; _ ← curev_upd (set_happens_after []); mret (iid_pid (iid e))
         else
           b ← of_prefix first_child;
           t ← thread (b_pid b);
           _ ← on_prefix (fun p => enter_first_child p
                 (Event_new (MkIID (b_pid b) (last_event_index t + 1)) (b_sym b)));
           mret (b_pid b));
  br ← curbranch;
  t ← thread pid; _ ← massert (available t);
  _ ← push_event_index pid;
  t ← thread pid; _ ← massert (negb (sleeping t));
  mret (choose pid (b_alt br) false).

(** ** New events *)

(** The last two events are by the same thread, and the last one is local. *)
Definition should_merge : M bool :=
  b ← gets prefix;
  let n := Z.of_nat (buf_len b) in
  if decide (1 < n) then
    e ← pfx (n - 1); f ← pfx (n - 2);
    if decide (iid_pid (iid e) = iid_pid (iid f)) then
      if may_conflict e then mret false
      else if decide (sleep e <> []) then mret false
      else k ← lift (children_after b (buf_len b - 1)); mret (bool_decide (k = 0)%nat)
    else mret false
  else mret false.

Definition merge_last : M unit :=
  e ← of_prefix buf_last; _ ← massert (bool_decide (ev_wakeup e = []));
  e ← curev; _ ← massert (bool_decide (sym e = []));
  b ← curbranch; _ ← massert (bool_decide (b_sym b = []));
  _ ← on_prefix (delete_last branch_eq);
  _ ← modify (fun s => set_prefix_idx (prefix_idx s - 1) s);
  b' ← curbranch;
  _ ← on_prefix (fun p => set_last_branch branch_eq p (set_b_size (b_size b' + b_size b) b'));
  e ← curev; i ← gets prefix_idx; t ← thread (iid_pid (iid e));
  last ← lift (vback (event_indices t));
  _ ← massert (bool_decide (last = i + 1));
  rest ← lift (vpop (event_indices t));
  thread_upd (iid_pid (iid e)) (set_event_indices (rest ++ [i])).

(** [operator==] on [sym_ty] *)
Fixpoint syms_eq (a b : sym_ty) : option bool :=
  match a, b with
  | [], [] => Some true
  | x :: a, y :: b => e ← ev_eq x y; if e : bool then syms_eq a b else Some false
  | _, _ => Some false
  end.

(** [if(conf.dpor_algorithm == OBSERVERS) clear_observed(syms)] *)
Definition unobserved (syms : sym_ty) : option sym_ty :=
  if decide (dpor_algorithm conf = OBSERVERS) then clear_observed_all syms else Some syms.

(** The recorded events become the branch's; a branch that came from the
    wakeup tree has them already. *)
Definition copy_syms : M unit :=
  n ← pfx_len;
  if decide (0 < n) then
    b ← curbranch; e ← curev;
    if decide (b_sym b <> []) then
      when (check_conflicts conf)
        (expected ← lift (unobserved (sym e)); same ← lift (syms_eq (b_sym b) expected); massert same)
    else
      syms ← lift (unobserved (sym e));
      on_prefix (fun p => set_last_branch branch_eq p (set_b_sym (map ev_purge_data syms) b))
  else mret tt.

Definition schedulable (t : Thread) : bool :=
  available t && negb (sleeping t)
  && (bool_decide (max_search_depth conf < 0) || bool_decide (last_event_index t < max_search_depth conf)).

(** [for(p = start; p < sz; p += 2)]: the first schedulable thread. *)
Fixpoint find_schedulable (fuel : nat) (ts : list Thread) (p : nat) : option (option nat) :=
  match fuel with
  | O => None
  | S fuel =>
    if decide (p < length ts)%nat then
      t ← ts !! p; if schedulable t then Some (Some p) else find_schedulable fuel ts (p + 2)
    else Some None
  end.

Definition push_event (p : nat) : M (option Choice) :=
  let pid := Z.of_nat p in
  _ ← modify (fun s => set_prefix_idx (prefix_idx s + 1) s);
  _ ← push_event_index pid;
  i ← gets prefix_idx; n ← pfx_len; _ ← massert (bool_decide (i = n));
  t ← thread pid;
  _ ← on_prefix (fun b => buf_push branch_eq b (Branch_new pid) (Event_new (MkIID pid (last_event_index t)) []));
  mret (Some (MkChoice (proc_of pid) (if decide (Z.rem pid 2 = 1) then 0 else -1) 0 false)).

Definition new_event : M (option Choice) :=
  rep ← gets replay; _ ← massert (negb rep);
  m ← should_merge;
  _ ← (if m : bool then merge_last else copy_syms);
  _ ← modify (set_sym_idx 0);
  ts ← gets threads;
  a ← lift (find_schedulable (S (length ts)) ts 1);
  match a with
  | Some p => push_event p
  | None =>
    r ← lift (find_schedulable (S (length ts)) ts 0);
    match r with Some p => push_event p | None => mret None end
  end.

(** [schedule(&proc, &aux, &alt, &dryrun)]: [None] is [return false]. *)
Definition schedule : M (option Choice) :=
  v ← gets has_vclocks; _ ← massert (negb v);
  _ ← modify (set_dryrun false);
  rep ← gets replay;
  if rep : bool then
    c ← continues_event;
    if c : bool then continue_event
    else
      o ← replay_is_over;
      if o : bool then _ ← end_replay; new_event
      else d ← has_sleepers; if d : bool then dry_run_next else next_event
  else new_event.

(** ** The other scheduling methods *)

Definition mark_available (proc aux : Z) : M unit := p ← ipid proc aux; thread_upd p (set_available true).
Definition mark_unavailable (proc aux : Z) : M unit := p ← ipid proc aux; thread_upd p (set_available false).

Definition refuse_schedule : M unit :=
  i ← gets prefix_idx; n ← pfx_len; _ ← massert (bool_decide (i = n - 1));
  b ← of_prefix lastbranch; _ ← massert (bool_decide (b_size b = 1));
  e ← of_prefix buf_last; _ ← massert (negb (may_conflict e));
  _ ← massert (bool_decide (sleep e = [])); _ ← massert (bool_decide (ev_wakeup e = []));
  k ← (if decide (0 <= i) then of_prefix (fun b => children_after b (Z.to_nat i)) else lift None);
  _ ← massert (bool_decide (k = 0)%nat);
  let last_pid := iid_pid (iid e) in
  _ ← on_prefix (delete_last branch_eq);
  t ← thread last_pid;
  last ← lift (vback (event_indices t)); _ ← massert (bool_decide (last = i));
  rest ← lift (vpop (event_indices t));
  _ ← thread_upd last_pid (set_event_indices rest);
  _ ← modify (fun s => set_prefix_idx (prefix_idx s - 1) s);
  mark_unavailable (proc_of last_pid) (aux_of last_pid).

Definition is_replaying : M bool :=
  i ← gets prefix_idx; r ← gets replay_point; mret (bool_decide (i < r)).

(** [while (prefix_idx + 1 < int(prefix.len())) prefix.delete_last();] *)
Fixpoint delete_down (fuel : nat) (n : nat) (b : Buffer (Branch := Branch) (Event := Event)) :=
  if decide (n < buf_len b)%nat then
    match fuel with
    | O => None
    | S fuel => b' ← delete_last branch_eq b; delete_down fuel n b'
    end
  else Some b.

Definition cancel_replay : M unit :=
  rep ← gets replay;
  if negb rep then mret tt
  else
    _ ← modify (set_replay false);
    i ← gets prefix_idx;
    _ ← on_prefix (fun b => delete_down (buf_len b) (Z.to_nat (i + 1)) b);
    r ← (if decide (0 <= i) then of_prefix (fun b => buf_node b (Z.to_nat i)) else lift None);
    sz ← of_prefix (fun b => ref_size (wtree b) r);
    when (negb (bool_decide (sz = 0)%nat))
      (_ ← on_prefix (fun b => enter_first_child b (Event_new (iid_null) [])); on_prefix (delete_last branch_eq)).

Definition metadata (md : MDNode) : M unit :=
  dry ← gets dryrun;
  _ ← when (negb dry) (curev_upd (set_ev_md md));
  modify (set_last_md md).

Definition sleepset_is_empty (s : TSOTraceBuilder) : bool := forallb (fun t => negb (sleeping t)) (threads s).
Definition await_blocked (s : TSOTraceBuilder) : bool := negb (bool_decide (blocked_awaits s = [])).

(** [get_trace()]: the events by their identifiers, the errors, and whether the
    execution ended blocked by the sleep set. *)
Record TraceData := MkTraceData { tr_iids : list Loc; tr_mds : list MDNode; tr_errors : list Error; tr_blocked : bool }.
Definition event_loc (ts : list Thread) (e : Event) : option Loc :=
  t ← zget ts (iid_pid (iid e)); Some (MkLoc (cpid t) (iid_index (iid e))).
Definition get_trace (s : TSOTraceBuilder) : option TraceData :=
  cmp ← mapM (event_loc (threads s)) (events (prefix s));
  Some (MkTraceData cmp (map ev_md (events (prefix s))) (errors s) (negb (sleepset_is_empty s))).

(** ** Preparing the next execution *)

(** The last event with an unexplored sibling ([-1]: none), scanning down. *)
Fixpoint last_branching (n : nat) (b : Buffer (Branch := Branch) (Event := Event)) : option Z :=
  match n with
  | O => Some (-1)
  | S i => k ← children_after b i; if decide (k = 0)%nat then last_branching i b else Some (Z.of_nat i)
  end.

(** The index of the next event of [pid]: one past its last event below [i]. *)
Fixpoint next_index (n : nat) (b : Buffer (Branch := Branch) (Event := Event)) (pid : Z) : option Z :=
  match n with
  | O => Some 1
  | S j =>
    e ← buf_get b j;
    if decide (iid_pid (iid e) = pid) then
      br ← buf_branch b j;
      let r := iid_index (iid e) + b_size br in
      if decide (r = 1) then next_index j b pid else Some r
    else next_index j b pid
  end.

(** [reset()] after the races have been planned; [traces] is the estimate that
    is added to the count at the branching event. *)
Definition reset_execution (traces : Z) : M bool :=
  b ← gets prefix;
  i ← lift (last_branching (buf_len b) b);
  if decide (i < 0) then mret false
  else
    _ ← modify (set_replay_point i);
    prev ← pfx i;
    _ ← on_prefix (fun b => delete_down (buf_len b) (Z.to_nat i) b);
    br ← of_prefix first_child;
    idx ← of_prefix (fun b => next_index (Z.to_nat i) b (b_pid br));
    slp ← (if decide (b_pid br <> iid_pid (iid prev)) then ins (sleep prev) (iid_pid (iid prev)) else mret (sleep prev));
    _ ← on_prefix (fun b => enter_first_child b
          (set_sleep_branch_trace_count (wrapu 64 (sleep_branch_trace_count prev + traces))
            (set_sleep slp (Event_new (MkIID (b_pid br) idx) (b_sym br)))));
    r ← lift initial_threads;
    _ ← modify (fun s => MkTSOTraceBuilder r.2 r.1 [] (-1) [] [] (lock_fail_races s) [] (prefix s) 0 (-1) (sym_idx s)
          false true (replay_point s) 0 (errors s) false);
    mret true.

End sched.
