(* ===== verification/TSOClocks.v ===== *)
(** * TSOClocks: vector clocks and races of a finished execution
      (src/src/TSOTraceBuilder.cpp, lines 1148-1257, 2205-2383 and 2940-2973)

    [compute_vclocks] walks the events from the first to the last, gives each
    the join of the clocks it happens after, and keeps of its races those that
    no other race subsumes. [std::partition] leaves the order open: it is a
    parameter here, as is the byte order of the host. *)

From S2P Require Import Prelude StdMap VecSet VClock CPid SymAddr ByteOps SymEv ReplayMem WakeupTree TSOState TSOOps.

Local Open Scope Z_scope.

(** ** frontier_filter *)

Section frontier.
Context {A : Type} (less : A -> A -> option bool).

Definition vswap (v : list A) (i j : nat) : option (list A) :=
  x ← v !! i; y ← v !! j; v ← vset v i y; vset v j x.

(** The inner loop: [check] runs over the kept elements; the flag is
    [include]. *)
Fixpoint frontier_check (fuel : nat) (current : nat) (v : list A) (fill check : nat) : option (bool * (list A * nat)) :=
  if decide (check = fill) then Some (true, (v, fill))
  else
    match fuel with
    | O => None
    | S fuel =>
      c ← v !! current; k ← v !! check;
      l ← less c k;
      if l : bool then Some (false, (v, fill))
      else
        g ← less k c;
        if g : bool then v ← vswap v check (fill - 1); frontier_check fuel current v (fill - 1) check
        else frontier_check fuel current v fill (S check)
    end.

Fixpoint frontier_loop (n current : nat) (v : list A) (fill : nat) : option (list A * nat) :=
  match n with
  | O => Some (v, fill)
  | S n =>
    r ← frontier_check fill current v fill 0;
    let '(include, (v, fill)) := r in
    if include : bool then
      v ← (if decide (fill <> current) then vswap v fill current else Some v);
      frontier_loop n (S current) v (S fill)
    else frontier_loop n (S current) v fill
  end.

(** The kept elements, the front of the sequence. *)
Definition frontier_filter (v : list A) : option (list A) :=
  r ← frontier_loop (length v) 0 v 0; Some (take r.2 r.1).
End frontier.

Section clocks.
Context (IsBigEndianHost : bool) (conf : Configuration).
Context (partition : forall A, (A -> bool) -> list A -> list A * list A).

(** ** Finding events *)

Definition set_clock (v : list Z) (e : Event) : Event :=
  MkEvent (iid e) (origin_iid e) (ev_md e) v (happens_after e) (races e) (happens_after_later e) (may_conflict e) (sym e) (sleep e) (sleep_evs e) (ev_wakeup e) (sleep_branch_trace_count e).

(** [threads\[pid\].event_indices\[index-1\]], the event that holds the
    [index]-th step of [pid]. *)
Definition event_index (pid index : Z) : M Z :=
  t ← thread pid;
  k ← lift (zget (event_indices t) (index - 1));
  n ← pfx_len; _ ← massert (bool_decide (k < n));
  b ← gets prefix; br ← lift (buf_branch b (Z.to_nat k));
  _ ← massert (bool_decide (0 < b_size br));
  e ← pfx k;
  _ ← massert (bool_decide (iid_pid (iid e) = pid /\ iid_index (iid e) <= index /\ index < iid_index (iid e) + b_size br));
  mret k.
Definition find_process_event (pid index : Z) : M Z :=
  t ← thread pid;
  _ ← massert (bool_decide (1 <= index <= Z.of_nat (length (event_indices t)))); event_index pid index.
Definition try_find_process_event (pid index : Z) : M (option Z) :=
  t ← thread pid;
  _ ← massert (bool_decide (1 <= index));
  if decide (Z.of_nat (length (event_indices t)) < index) then mret None
  else k ← event_index pid index; mret (Some k).

(** [prefix\[i\].clock.includes(prefix\[j\].iid)] *)
Definition clock_includes (c : list Z) (j : Z) : M bool :=
  e ← pfx j; lift (vc_includes c (iid_pid (iid e)) (iid_index (iid e))).

(** ** Races of awaits *)

(** The erasures of [shadows_all_of]: the result tells whether [addrs] ran
    empty. *)
Fixpoint shadow_events (syms : sym_ty) (addrs : list SymAddr) : option bool :=
  match syms with
  | [] => Some false
  | e :: syms =>
    if decide (ev_kind e = FULLMEM) then Some true
    else if decide (ev_kind e <> STORE /\ ev_kind e <> XCHG_AWAIT) then shadow_events syms addrs
    else
      a ← ev_addr e; bs ← sas_bytes a;
      addrs ← for_each bs (fun b v => r ← erase v b; Some r.1) addrs;
      if decide (addrs = []) then Some true else shadow_events syms addrs
  end.
Definition shadows_all_of (syms : sym_ty) (ml : SymAddrSize) : option bool := addrs ← all_bytes ml; shadow_events syms addrs.

Definition is_sorted (l : list nat) : bool := bool_decide (StronglySorted le l).

(** [not_excluded]: event [e] happens after none of [exclude]. *)
Fixpoint not_excluded (exclude : list nat) (e : nat) : M bool :=
  match exclude with
  | [] => mret true
  | x :: exclude => k ← pfx (Z.of_nat e); c ← clock_includes (clock k) (Z.of_nat x);
                    if c : bool then mret false else not_excluded exclude e
  end.

Definition prefix_syms : M (list sym_ty) := b ← gets prefix; mret (map sym (events b)).

(** [try_subsequences(k)]; [us] are the first [k] accesses, the last one first,
    and the result are the races in the order they are pushed. *)
Fixpoint try_subsequences (i : nat) (j : Z) (id : IID) (e : SymEv) (ml : SymAddrSize) (cond : AwaitCond) (above : list Z)
    (us : list nat) (include exclude : list nat) : M (list Race) :=
  match us with
  | [] =>
    _ ← massert (is_sorted include);
    syms ← prefix_syms;
    ok ← lift (awaitcond_satisfied_by IsBigEndianHost syms i include ml cond);
    mret (if ok : bool then [Race_Sequence (Z.of_nat i) j id e exclude] else [])
  | ke :: us =>
    k ← pfx (Z.of_nat ke);
    dep ← clock_includes (clock k) (Z.of_nat i);
    if dep : bool then try_subsequences i j id e ml cond above us include exclude
    else
      before ← clock_includes above (Z.of_nat ke);
      r1 ← (if negb before then try_subsequences i j id e ml cond above us include (exclude ++ [ke]) else mret []);
      free ← not_excluded exclude ke;
      r2 ← (if free : bool then try_subsequences i j id e ml cond above us (include ++ [ke]) exclude else mret []);
      mret (r1 ++ r2)
  end.

(** The loop over the events before [j], the last one first; [us] is
    [unordered_accesses] reversed. The flag of the result is [do_await]'s. *)
Fixpoint do_await_loop (n : nat) (j : Z) (id : IID) (e : SymEv) (ml : SymAddrSize) (cond : AwaitCond) (above : list Z)
    (can_stop : bool) (us : list nat) (races : list Race) : M (bool * list Race) :=
  match n with
  | O => mret (true, races)
  | S i =>
    ie ← pfx (Z.of_nat i);
    if existsb (fun x => bool_decide (ev_kind x = FULLMEM)) (sym ie) then
      t ← thread (iid_pid (iid ie));
      _ ← modify (fun s => set_errors (errors s ++ [InvalidInputError (MkLoc (cpid t) (iid_index (iid ie)))
            "Full memory conflicts are not compatible with awaits"]) s);
      mret (false, races)
    else
      stores ← lift (any_opt (fun x => if symev_does_store x then a ← ev_addr x; Some (sas_overlaps a ml) else Some false) (sym ie));
      if negb stores then do_await_loop i j id e ml cond above can_stop us races
      else
        shadows ← (if can_stop then mret true else lift (shadows_all_of (sym ie) ml));
        inside ← clock_includes above (Z.of_nat i);
        if commute_rmws (conflict_conf conf) then
          new ← (if negb inside then try_subsequences i j id e ml cond above us [] [] else mret []);
          if shadows && negb (bool_decide (new = [])) then mret (true, races ++ new)
          else do_await_loop i j id e ml cond above shadows (i :: us) (races ++ new)
        else if inside : bool then do_await_loop i j id e ml cond above shadows us races
        else
          syms ← prefix_syms;
          ok ← lift (awaitcond_satisfied_before IsBigEndianHost syms i ml cond);
          if ok : bool then
            let races := races ++ [Race_Sequence (Z.of_nat i) j id e []] in
            if shadows : bool then mret (true, races)
            else do_await_loop i j id e ml cond above shadows us races
          else do_await_loop i j id e ml cond above shadows us races
  end.
Definition do_await (j : Z) (id : IID) (e : SymEv) (above : list Z) (races : list Race) : M (bool * list Race) :=
  ml ← lift (ev_addr e); cond ← lift (ev_cond e);
  do_await_loop (Z.to_nat j) j id e ml cond above false [] races.

(** ** Vector clocks *)

(** [prefix\[i\].clock += prefix\[j\].clock] *)
Definition join_clock (i j : Z) : M unit :=
  a ← pfx i; b ← pfx j; c ← lift (vc_plus_assign (clock a) (clock b)); pfx_upd i (set_clock c).

(** [std::partition] with a predicate that reads the state. *)
Definition partitionM {A} (p : A -> M bool) (l : list A) : M (list A * list A) :=
  tagged ← loop l (fun x acc => b ← p x; mret (acc ++ [(x, b)])) [];
  let r := partition _ snd tagged in
  mret (map fst r.1, map fst r.2).

(** Edges from a spawn to the first event of the thread. *)
Definition spawn_edges : M unit :=
  ts ← gets threads;
  each ts (fun t =>
    match event_indices t with
    | first :: _ => when (bool_decide (0 <= spawn_event t)) (add_happens_after first (spawn_event t))
    | [] => mret tt
    end).

(** Races of failed locks go to the event that followed, if there is one. *)
Definition place_lock_fail_races : M unit :=
  rs ← gets lock_fail_races;
  n ← pfx_len;
  final ← loop rs (fun r acc =>
    if decide (r_second r < n) then
      _ ← pfx_upd (r_second r) (fun e => set_races (races e ++ [r]) e); mret acc
    else _ ← massert (bool_decide (r_second r = n)); mret (acc ++ [r])) [];
  modify (set_lock_fail_races final).

(** The last event of the thread before [e], and the edges that cannot be
    reversed. *)
Definition program_order_clock (i : Z) : M unit :=
  e ← pfx i;
  let p := iid_pid (iid e) in
  c ← (if decide (1 < iid_index (iid e)) then
         last ← find_process_event p (iid_index (iid e) - 1); l ← pfx last; mret (clock l)
       else mret []);
  c ← lift (vc_set c p (iid_index (iid e)));
  _ ← pfx_upd i (set_clock c);
  each (happens_after e) (fun j => _ ← massert (bool_decide (j < i)); join_clock i j).

Definition await_races (i : Z) : M unit :=
  e ← pfx i;
  if existsb has_cond (sym e) then
    aw ← lift (sym e !! 0%nat);
    _ ← massert (bool_decide (length (sym e) = 1%nat));
    r ← do_await i (iid e) aw (clock e) (races e);
    pfx_upd i (set_races r.2)
  else mret tt.

(** The [do]-[while] loop: races whose first event is already below the clock
    of [i] are dropped; a dropped lock race adds the clock of its unlock. *)
Definition race_unordered (i : Z) (r : Race) : M bool :=
  f ← pfx (r_first r); e ← pfx i; b ← lift (vc_leq (clock f) (clock e)); mret (negb b).
Fixpoint drop_ordered (fuel : nat) (i : Z) (pairs : list Race) : M (list Race) :=
  match fuel with
  | O => lift None
  | S fuel =>
    r ← partitionM (race_unordered i) pairs;
    _ ← each r.2 (fun x => when (bool_decide (r_kind x = LOCK_SUC)) (join_clock i (r_third x)));
    if existsb (fun x => bool_decide (r_kind x = LOCK_SUC)) r.2 then drop_ordered fuel i r.1
    else mret r.1
  end.

(** The comparison given to [frontier_filter]: does [s] subsume [f]?
    [ev i] is [prefix\[i\]]. *)
Fixpoint exclude_skip (x : nat) (fx : list nat) : list nat :=
  match fx with
  | f :: rest => if decide (f < x)%nat then exclude_skip x rest else fx
  | [] => []
  end.
Fixpoint exclude_subsumes (ev : Z -> option Event) (fe : Event) (sx fx : list nat) : option bool :=
  match sx with
  | [] => Some true
  | x :: sx =>
    let fx := exclude_skip x fx in
    if decide (head fx = Some x) then exclude_subsumes ev fe sx (tail fx)
    else
      e ← ev (Z.of_nat x);
      c ← vc_includes (clock e) (iid_pid (iid fe)) (iid_index (iid fe));
      if c : bool then exclude_subsumes ev fe sx fx else Some false
  end.
Definition subsumes (ev : Z -> option Event) (f s : Race) : option bool :=
  if decide (r_kind s = LOCK_FAIL) then Some false
  else if decide (r_kind s = SEQUENCE) then
    _ ← cassert (bool_decide (r_kind f = SEQUENCE \/ r_kind f = NONBLOCK));
    _ ← cassert (is_sorted (r_exclude f)); _ ← cassert (is_sorted (r_exclude s));
    se ← ev (r_first s); fe ← ev (r_first f);
    c ← vc_includes (clock se) (iid_pid (iid fe)) (iid_index (iid fe));
    if negb c then Some false else exclude_subsumes ev fe (r_exclude s) (r_exclude f)
  else if decide (r_kind f = OBSERVED /\ r_kind s = OBSERVED /\ r_first f = r_first s /\ r_second f = r_second s) then
    Some (bool_decide (r_third s <= r_third f))
  else
    se ← ev (if decide (r_kind s = LOCK_SUC) then r_third s else r_first s);
    fe ← ev (r_first f);
    vc_includes (clock se) (iid_pid (iid fe)) (iid_index (iid fe)).

(** The clocks of the races that were kept. *)
Definition join_race (i : Z) (r : Race) : M unit :=
  if decide (r_kind r = LOCK_SUC) then
    f ← pfx (r_first r); u ← pfx (r_third r);
    b ← lift (vc_leq (clock f) (clock u)); _ ← massert b;
    join_clock i (r_third r)
  else if decide (r_kind r = LOCK_FAIL) then mret tt
  else join_clock i (r_first r).

(** The edges of an await that its races do not imply; -1 stands for no event. *)
Definition later_edges (i : Z) : M unit :=
  e ← pfx i;
  _ ← massert (bool_decide (happens_after_later e = []) ||
               (bool_decide (length (sym e) = 1%nat) && existsb has_cond (sym e)));
  _ ← each (happens_after_later e) (fun b =>
        if decide (b = -1) then mret tt
        else e ← pfx i; c ← clock_includes (clock e) b;
             when (negb c) (join_clock i b));
  pfx_upd i (set_happens_after_later []).

Definition event_vclock (i : Z) : M unit :=
  _ ← program_order_clock i;
  _ ← await_races i;
  e ← pfx i;
  let r := partition _ (fun x => bool_decide (r_kind x = RACE_NONDET)) (races e) in
  pairs ← drop_ordered (S (length r.2)) i r.2;
  b ← gets prefix;
  kept ← lift (frontier_filter (subsumes (zget (events b))) pairs);
  _ ← each kept (join_race i);
  _ ← later_edges i;
  pfx_upd i (set_races (r.1 ++ kept)).

Definition compute_vclocks : M unit :=
  done ← gets has_vclocks;
  if done : bool then mret tt
  else
    _ ← spawn_edges;
    _ ← place_lock_fail_races;
    n ← pfx_len;
    _ ← each (seq 0 (Z.to_nat n)) (fun i => event_vclock (Z.of_nat i));
    modify (fun s => MkTSOTraceBuilder (threads s) (CPS s) (mem s) (last_full_memory_conflict s) (mutexes s) (cond_vars s)
      (lock_fail_races s) (blocked_awaits s) (prefix s) (dry_sleepers s) (prefix_idx s) (sym_idx s) (dryrun s) (replay s)
      (replay_point s) (last_md s) (errors s) true).

End clocks.
