(* ===== verification/TSORaces.v ===== *)
(** * TSORaces: planning the reversal of races
      (src/src/TSOTraceBuilder.cpp, lines 1739-1900 and 2525-2942)

    At the end of an execution every race becomes a branch of the wakeup tree:
    [race_detect] adds one sibling of the first event (source sets),
    [race_detect_optimal] inserts the wakeup sequence of the race unless an
    execution that was already explored or planned covers it. Sleeping threads
    are simulated by [obs_sleep]. *)

From S2P Require Import Prelude StdMap VecSet VClock CPid SymAddr ByteOps SymEv ReplayMem WakeupTree TSOState TSOOps.
From S2P Require Import TSOSched TSOClocks.

Local Open Scope Z_scope.

(** ** Simulated sleep sets *)

Record sleeper := MkSleeper { sl_pid : Z; sl_sym : sym_ty; sl_not_if_read : option SymAddrSize }.
Record obs_sleep := MkObsSleep { os_sleep : list sleeper; os_must_read : list SymAddrSize }.
Definition obs_sleep_empty : obs_sleep := MkObsSleep [] [].
Inductive obs_wake_res := CLEAR | CONTINUE | BLOCK.
#[export] Instance obs_wake_res_eq_dec : EqDecision obs_wake_res.
Proof. solve_decision. Defined.

Definition obs_sleep_count (s : obs_sleep) (p : Z) : bool := existsb (fun x => bool_decide (sl_pid x = p)) (os_sleep s).

Fixpoint obs_sleep_add_loop (pids : list Z) (evs : list sym_ty) (l : list sleeper) : option (list sleeper) :=
  match pids with
  | [] => Some l
  | p :: pids => match evs with
                 | [] => None
                 | s :: evs => obs_sleep_add_loop pids evs (l ++ [MkSleeper p s None])
                 end
  end.
Definition obs_sleep_add (s : obs_sleep) (e : Event) : option obs_sleep :=
  l ← obs_sleep_add_loop (sleep e) (sleep_evs e) (os_sleep s); Some (MkObsSleep l (os_must_read s)).

(** The last element takes the place of the deleted one. *)
Definition unordered_vector_delete {T} (vec : list T) (pos : nat) : option (list T) :=
  _ ← cassert (bool_decide (pos < length vec)%nat);
  vec ← (if decide (pos + 1 <> length vec)%nat then bk ← vback vec; vset vec pos bk else Some vec);
  vpop vec.

(** [for (i = 0; i < vec.size();) if (p(vec\[i\])) delete i; else ++i;] *)
Fixpoint delete_where {T} (n : nat) (p : T -> option bool) (i : nat) (vec : list T) : option (list T) :=
  if decide (i < length vec)%nat then
    match n with
    | O => None
    | S n =>
      x ← vec !! i; b ← p x;
      if b : bool then vec ← unordered_vector_delete vec i; delete_where n p i vec
      else delete_where n p (S i) vec
    end
  else Some vec.

Section wake.
Context (conf : Configuration).

(** A store moves the sleepers that store to the same place to [sleep_if]. *)
Definition sleep_if (esas : SymAddrSize) (x : sleeper) : option sleeper :=
  hit ← any_opt (fun f => if symev_is_store f then a ← ev_addr f; Some (sas_eq a esas) else Some false) (sl_sym x);
  if hit : bool then
    _ ← cassert (match sl_not_if_read x with Some a => sas_eq a esas | None => true end);
    Some (MkSleeper (sl_pid x) (sl_sym x) (Some esas))
  else Some x.

(** The first loop, for observers; the flag of the result is [BLOCK]. *)
Fixpoint observers_wake (syms : sym_ty) (s : obs_sleep) : option (bool * obs_sleep) :=
  match syms with
  | [] => Some (false, s)
  | e :: syms =>
    must ← (if decide (ev_kind e = FULLMEM) then Some []
            else if symev_does_load e then
              esas ← ev_addr e;
              delete_where (length (os_must_read s)) (fun m => Some (sas_overlaps m esas)) 0 (os_must_read s)
            else Some (os_must_read s));
    if symev_is_store e then
      esas ← ev_addr e;
      if existsb (fun ssas => sas_subsetof ssas esas) must then Some (true, MkObsSleep (os_sleep s) must)
      else l ← mapM (sleep_if esas) (os_sleep s); observers_wake syms (MkObsSleep l must)
    else observers_wake syms (MkObsSleep (os_sleep s) must)
  end.

(** The second loop: conflicting sleepers wake up. *)
Fixpoint sleepers_wake (n : nat) (p : Z) (syms : sym_ty) (i : nat) (s : obs_sleep) : option (bool * obs_sleep) :=
  if decide (i < length (os_sleep s))%nat then
    match n with
    | O => None
    | S n =>
      x ← os_sleep s !! i;
      if decide (sl_pid x = p) then
        match sl_not_if_read x with
        | Some a =>
          l ← unordered_vector_delete (os_sleep s) i;
          sleepers_wake n p syms i (MkObsSleep l (os_must_read s ++ [a]))
        | None => Some (true, s)
        end
      else
        c ← do_events_conflict (conflict_conf conf) p syms (sl_pid x) (sl_sym x);
        if c : bool then l ← unordered_vector_delete (os_sleep s) i; sleepers_wake n p syms i (MkObsSleep l (os_must_read s))
        else sleepers_wake n p syms (S i) s
    end
  else Some (false, s).

Definition obs_sleep_wake (s : obs_sleep) (p : Z) (syms : sym_ty) : option (obs_wake_res * obs_sleep) :=
  r ← (if decide (dpor_algorithm conf = OBSERVERS) then observers_wake syms s else Some (false, s));
  if r.1 : bool then Some (BLOCK, r.2)
  else
    r ← sleepers_wake (length (os_sleep r.2)) p syms 0 r.2;
    if r.1 : bool then Some (BLOCK, r.2)
    else Some (if decide (os_sleep r.2 = [] /\ os_must_read r.2 = []) then CLEAR else CONTINUE, r.2).

Definition obs_sleep_wake_event (s : obs_sleep) (e : Event) : option obs_sleep :=
  if decide (memory_model conf = TSO) then
    _ ← cassert (negb (commute_rmws (conflict_conf conf)));
    if decide (ev_wakeup e = []) then Some s
    else
      l ← delete_where (length (os_sleep s)) (fun x => c ← count (ev_wakeup e) (sl_pid x); Some (negb (bool_decide (c = 0)))) 0 (os_sleep s);
      Some (MkObsSleep l (os_must_read s))
  else
    syms ← unobserved conf (sym e);
    r ← obs_sleep_wake s (iid_pid (iid e)) syms;
    _ ← cassert (negb (bool_decide (r.1 = BLOCK))); Some r.2.

Fixpoint sequence_wakes (seq : list Branch) (state : obs_wake_res) (s : obs_sleep) : option obs_wake_res :=
  match seq with
  | [] => Some state
  | b :: seq =>
    if decide (state = CONTINUE) then r ← obs_sleep_wake s (b_pid b) (b_sym b); sequence_wakes seq r.1 r.2
    else Some state
  end.
Definition sequence_clears_sleep (seq : list Branch) (s : obs_sleep) : option bool :=
  r ← sequence_wakes seq CONTINUE s; Some (bool_decide (r = CLEAR)).

(** [obs_sleep_at(i)]: the loop ends at [j = i]. *)
Fixpoint obs_sleep_loop (evs : list Event) (i : nat) (s : obs_sleep) : option obs_sleep :=
  match evs with
  | [] => None
  | e :: evs =>
    s ← obs_sleep_add s e;
    match i with
    | O => Some s
    | S i => s ← obs_sleep_wake_event s e; obs_sleep_loop evs i s
    end
  end.
Definition obs_sleep_at (b : Buffer (Branch := Branch) (Event := Event)) (i : nat) : option obs_sleep :=
  obs_sleep_loop (events b) i obs_sleep_empty.
End wake.

(** ** Positions of the threads *)

Definition iid_map_step (iid_map : list Z) (event : Branch) : option (list Z) :=
  let m := if decide (wrapu 32 (b_pid event) >= Z.of_nat (length iid_map)) then resize (Z.to_nat (b_pid event + 1)) 1 iid_map else iid_map in
  x ← zget m (b_pid event); zset m (b_pid event) (x + b_size event).
Definition iid_map_step_rev (iid_map : list Z) (event : Branch) : option (list Z) :=
  x ← zget iid_map (b_pid event); zset iid_map (b_pid event) (x - b_size event).
Definition iid_map_at (event : nat) : M (list Z) :=
  ts ← gets threads; b ← gets prefix;
  loop (seq 0 event) (fun i m => br ← lift (buf_branch b i); lift (iid_map_step m br)) (replicate (length ts) 1).

Section races.
Context (IsBigEndianHost : bool) (conf : Configuration).

(** ** Blocked events *)

Definition reconstruct_blocked_clock (event : IID) : M (list Z) :=
  let p := iid_pid event in
  ret ← (if decide (iid_index event <> 1) then
           last ← find_process_event p (iid_index event - 1); l ← pfx last; mret (clock l)
         else mret []);
  x ← lift (vc_get ret p); lift (vc_set ret p (x + 1)).

Definition reconstruct_blocked_event (race : Race) : M Event :=
  _ ← massert (is_fail_kind race);
  c ← reconstruct_blocked_clock (r_process race);
  let ret := set_clock c (Event_new (r_process race) []) in
  if decide (r_kind race = LOCK_FAIL) then
    f ← pfx (r_first race);
    _ ← massert (existsb (fun e => bool_decide (ev_kind e = M_LOCK) || bool_decide (ev_kind e = FULLMEM)) (sym f));
    mret (set_sym (sym f) ret)
  else
    _ ← massert (bool_decide (r_kind race = SEQUENCE));
    ev ← lift (r_ev race); mret (set_sym [ev] ret).

(** ** Wakeup sequences *)

Definition branch_with_symbolic_data (i : Z) : M Branch :=
  b ← gets prefix; br ← lift (buf_branch b (Z.to_nat i)); e ← pfx i;
  mret (MkBranch (sym e) (b_pid br) (b_alt br) (b_size br)).

Definition set_b_alt (v : Z) (b : Branch) : Branch := MkBranch (b_sym b) (b_pid b) v (b_size b).

(** The second event of the race, and its branch. *)
Definition second_branch (race : Race) : M (Event * Branch) :=
  first ← pfx (r_first race);
  r ← (if is_fail_kind race then
         second ← reconstruct_blocked_event race;
         mret (second, set_b_sym (sym second) (Branch_new (iid_pid (iid second))))
       else if decide (r_kind race = RACE_NONDET) then
         br ← branch_with_symbolic_data (r_first race); mret (first, set_b_alt (r_third race) br)
       else
         second ← pfx (r_second race); br ← branch_with_symbolic_data (r_second race); mret (second, br));
  mret (r.1, if decide (r_kind race <> OBSERVED) then set_b_size 1 r.2 else r.2).

(** The loop over the events after the first one; the state is the rest of the
    exclusions, their clock, [v], the clocks of the observers and [notobs]. *)
Record ws_state := MkWs {
  ws_exclude : list nat; ws_clock : list Z; ws_v : list Branch; ws_obs : list (list Z); ws_notobs : list Branch }.

Definition ws_step (race : Race) (first second : Event) (k : nat) (st : ws_state) : M ws_state :=
  let '(MkWs excl xclock v obs notobs) := st in
  _ ← massert (match excl with x :: _ => bool_decide (k <= x)%nat | [] => true end);
  e ← pfx (Z.of_nat k);
  if decide (head excl = Some k) then
    x ← lift (vc_get xclock (iid_pid (iid e)));
    c ← lift (vc_set xclock (iid_pid (iid e)) (Z.min x (iid_index (iid e))));
    mret (MkWs (tail excl) c v obs notobs)
  else
    below ← lift (vc_intersects_below (clock e) xclock);
    if below : bool then mret st
    else
      after ← lift (vc_leq (clock first) (clock e));
      if negb after then br ← branch_with_symbolic_data (Z.of_nat k); mret (MkWs excl xclock (v ++ [br]) obs notobs)
      else if decide (r_kind race = OBSERVED /\ Z.of_nat k <> r_second race) then
        hidden ← lift (any_opt (fun o => vc_leq o (clock e)) obs);
        if hidden : bool then mret st
        else
          c ← lift (is_observed_conflict (iid_pid (iid first)) (sym first) (iid_pid (iid second)) (sym second) (sym e));
          if c : bool then
            _ ← massert (negb (bool_decide (obs = [])) || bool_decide (Z.of_nat k = r_third race));
            mret (MkWs excl xclock v (obs ++ [clock e]) notobs)
          else br ← branch_with_symbolic_data (Z.of_nat k); mret (MkWs excl xclock v obs (notobs ++ [br]))
      else mret st.

Definition recompute_observed_of (v : list Branch) : option (list Branch) :=
  syms ← recompute_observed (map b_sym v); Some (zip_with set_b_sym syms v).

Definition wakeup_sequence (race : Race) : M (list Branch) :=
  let i := r_first race in
  first ← pfx i;
  sb ← second_branch race;
  ts ← gets threads; n ← pfx_len;
  let excl := if decide (r_kind race = SEQUENCE) then r_exclude race else [] in
  st ← loop (seq (S (Z.to_nat i)) (Z.to_nat n - S (Z.to_nat i))) (ws_step race first sb.1)
         (MkWs excl (replicate (length ts) (2 ^ 31 - 1)) [] [] []);
  syms ← prefix_syms;
  second_br ← (if decide (r_kind race = NONBLOCK) then
                 s ← lift (recompute_cmpxhg_success syms (b_sym sb.2) (map b_sym (ws_v st)) (Z.to_nat i));
                 mret (set_b_sym s sb.2)
               else mret sb.2);
  let v := ws_v st ++ [second_br] in
  v ← (if decide (r_kind race = OBSERVED) then
         first_br ← branch_with_symbolic_data i;
         witness_br ← branch_with_symbolic_data (r_third race);
         mret (v ++ [first_br] ++ ws_notobs st ++ [set_b_size 1 witness_br])
       else mret v);
  if decide (dpor_algorithm conf = OBSERVERS) then lift (recompute_observed_of v) else mret v.

(** ** Insertion into the wakeup tree *)

(** Once [child] has taken a part of its thread's steps from the front, [missing]
    more are taken from the rest of the sequence. *)
Fixpoint drop_missing (missing pid : Z) (v : list Branch) : option (list Branch) :=
  if decide (missing = 0) then Some v
  else
    match v with
    | [] => Some []
    | b :: v =>
      if decide (b_pid b = pid) then
        _ ← cassert (bool_decide (b_sym b = []));
        if decide (missing < b_size b) then Some (set_b_size missing b :: v)
        else drop_missing (missing - b_size b) pid v
      else r ← drop_missing missing pid v; Some (b :: r)
    end.

(** What a child of the wakeup tree says about [v]. *)
Inductive ChildVerdict := Covered | NextChild | Recurse (v : list Branch).

(** The element [ve] of [v] matches the child: what is left of [v]. *)
Definition take_child (child ve : Branch) (before after : list Branch) : option (list Branch) :=
  if decide (b_size ve < b_size child) then
    rest ← drop_missing (b_size child - b_size ve) (b_pid ve) after; Some (before ++ rest)
  else if decide (b_size child < b_size ve) then
    Some (before ++ MkBranch [] (b_pid ve) 0 (b_size ve - b_size child) :: after)
  else Some (before ++ after).

(** The loop over [v]; [before] is the part that was passed. *)
Fixpoint match_child (child : Branch) (before after : list Branch) : option ChildVerdict :=
  match after with
  | [] => Some Covered
  | ve :: after =>
    if branch_eq child ve then
      same ← syms_eq (b_sym child) (b_sym ve);
      blocked ← (if same : bool then Some false
                 else any_opt (fun pe => do_events_conflict (conflict_conf conf) (b_pid ve) (b_sym ve) (b_pid pe) (b_sym pe)) before);
      if blocked : bool then Some NextChild
      else if decide (length before + S (length after) = 1)%nat then Some Covered
      else r ← take_child child ve before after; Some (Recurse r)
    else
      c ← do_events_conflict (conflict_conf conf) (b_pid ve) (b_sym ve) (b_pid child) (b_sym child);
      if c : bool then Some NextChild else match_child child (before ++ [ve]) after
  end.

(** The loop over the children: where [v] goes. *)
Inductive Insertion := Nothing | Here | Into (k : nat) (v : list Branch).
Fixpoint find_child (k : nat) (cs : list (Branch * WakeupTree (Branch := Branch))) (v : list Branch) : option Insertion :=
  match cs with
  | [] => Some Here
  | c :: cs =>
    r ← match_child c.1 [] v;
    match r with
    | Covered => Some Nothing
    | NextChild => find_child (S k) cs v
    | Recurse v => Some (Into k v)
    end
  end.

Fixpoint put_sequence (t : WakeupTree (Branch := Branch)) (r : WakeupTreeRef) (v : list Branch) : option (WakeupTree (Branch := Branch)) :=
  match v with
  | [] => Some t
  | ve :: v =>
    syms ← unobserved conf (b_sym ve);
    t' ← ref_put_child branch_eq t r (set_b_sym (map ev_purge_data syms) ve);
    put_sequence t'.1 t'.2 v
  end.

(** The [while(1)] loop; a level of the tree is left at every turn. *)
Fixpoint insert_wakeup (fuel : nat) (t : WakeupTree (Branch := Branch)) (r : WakeupTreeRef) (v : list Branch) : option (WakeupTree (Branch := Branch)) :=
  match fuel with
  | O => None
  | S fuel =>
    n ← wnode t r;
    if decide (children n = []) then Some t
    else
      w ← find_child 0 (children n) v;
      match w with
      | Nothing => Some t
      | Here => put_sequence t r v
      | Into k v => insert_wakeup fuel t (r ++ [k]) v
      end
  end.

Fixpoint wheight (t : WakeupTree (Branch := Branch)) : nat :=
  let '(WNode cs) := t in S (fold_right Nat.max 0%nat (map (fun c => wheight c.2) cs)).

Definition race_detect_optimal (race : Race) (isleep : obs_sleep) : M unit :=
  v ← wakeup_sequence race;
  clears ← lift (sequence_clears_sleep conf v isleep);
  if negb clears then mret tt
  else
    r ← of_prefix (fun b => parent_at b (Z.to_nat (r_first race)));
    b ← gets prefix;
    t ← lift (insert_wakeup (S (wheight (wtree b))) (wtree b) r v);
    modify (set_prefix (MkBuffer t (events b))).

(** ** Source sets *)

Fixpoint after_candidate (candidates : list Z) (q : Z) (pclock : list Z) : option bool :=
  match candidates with
  | [] => Some false
  | c :: candidates =>
    hit ← (if decide (0 <= c) then x ← vc_get pclock q; Some (bool_decide (c <= x)) else Some false);
    if hit : bool then Some true else after_candidate candidates (q + 1) pclock
  end.

(** The loop that looks for a candidate; [None] is its [return]. *)
Fixpoint find_candidate (race : Race) (isleep : obs_sleep) (ks : list nat) (candidates : list Z) (cand : option Branch)
    : M (option (option Branch)) :=
  match ks with
  | [] => mret (Some cand)
  | k :: ks =>
    let i := r_first race in
    let last := bool_decide (Z.of_nat k = r_second race) in
    iide ← (if last && is_fail_kind race then mret (r_process race) else e ← pfx (Z.of_nat k); mret (iid e));
    let p := iid_pid iide in
    covered ← (if decide (p < Z.of_nat (length candidates)) then c ← lift (zget candidates p); mret (bool_decide (0 <= c)) else mret false);
    if covered : bool then find_candidate race isleep ks candidates cand
    else
      pe ← (if last && is_fail_kind race then e ← reconstruct_blocked_event race; mret (e, 1)
            else e ← pfx (Z.of_nat k); b ← gets prefix; br ← lift (buf_branch b k); mret (e, b_size br));
      let psize := if last then 1 else pe.2 in
      first ← pfx i;
      after ← (if last then mret false else lift (vc_leq (clock first) (clock pe.1)));
      if after : bool then find_candidate race isleep ks candidates cand
      else
        is_after ← lift (after_candidate candidates 0 (clock pe.1));
        if is_after : bool then find_candidate race isleep ks candidates cand
        else
          let cs := if decide (Z.of_nat (length candidates) <= p) then resize (Z.to_nat (p + 1)) (-1) candidates else candidates in
          cs ← lift (zset cs p (iid_index iide));
          let c := MkBranch (sym pe.1) p 0 psize in
          b ← gets prefix;
          r ← lift (parent_at b (Z.to_nat i));
          has ← lift (has_child branch_eq (wtree b) r c);
          if has : bool then mret None
          else if obs_sleep_count isleep p then mret None
          else find_candidate race isleep ks cs (Some c)
  end.

Definition put_child_of (i : Z) (br : Branch) : M unit :=
  b ← gets prefix;
  r ← lift (parent_at b (Z.to_nat i));
  r ← lift (put_child_at branch_eq b r br);
  modify (set_prefix r.1).

Definition race_detect (race : Race) (isleep : obs_sleep) : M unit :=
  if decide (dpor_algorithm conf <> SOURCE) then race_detect_optimal race isleep
  else
    let i := r_first race in
    let j := r_second race in
    if decide (r_kind race = RACE_NONDET) then
      b ← gets prefix; br ← lift (buf_branch b (Z.to_nat i));
      _ ← massert (bool_decide (b_alt br < r_third race));
      e ← pfx i;
      put_child_of i (MkBranch (b_sym br) (iid_pid (iid e)) (r_third race) 1)
    else if decide (r_kind race = SEQUENCE) then lift None
    else
      r ← find_candidate race isleep (seq (S (Z.to_nat i)) (Z.to_nat (j - i))) [] None;
      match r with
      | None => mret tt
      | Some cand =>
        c ← lift cand;
        syms ← prefix_syms;
        s ← (if decide (r_kind race = NONBLOCK) then lift (recompute_cmpxhg_success syms (b_sym c) [] (Z.to_nat i))
             else mret (b_sym c));
        put_child_of i (set_b_sym s c)
      end.

(** ** All races of an execution *)

Definition blocked_await_races (pb : Z * BlockedAwait) : M unit :=
  let id := MkIID pb.1 (ba_index pb.2) in
  found ← try_find_process_event pb.1 (iid_index id);
  _ ← massert (bool_decide (found = None));
  c ← reconstruct_blocked_clock id;
  n ← pfx_len;
  r ← do_await IsBigEndianHost conf n id (ba_ev pb.2) c [];
  each r.2 (fun x =>
    _ ← massert (bool_decide (0 <= r_first x < n));
    inside ← clock_includes c (r_first x); _ ← massert (negb inside);
    modify (fun s => set_lock_fail_races (lock_fail_races s ++ [x]) s)).

Definition do_race_detect : M unit :=
  v ← gets has_vclocks; _ ← massert v;
  bs ← gets blocked_awaits;
  _ ← each bs (fun ab => each ab.2 blocked_await_races);
  n ← pfx_len; b ← gets prefix; fails ← gets lock_fail_races;
  let all := fails ++ concat (map races (events b)) in
  _ ← massert (forallb (fun r => bool_decide (0 <= r_first r < n)) all);
  _ ← loop (seq 0 (Z.to_nat n)) (fun i sl =>
        e ← pfx (Z.of_nat i);
        sl ← lift (obs_sleep_add sl e);
        _ ← each (filter (fun r => r_first r = Z.of_nat i) all) (fun r => race_detect r sl);
        lift (obs_sleep_wake_event conf sl e)) obs_sleep_empty;
  _ ← modify (fun s => set_prefix (MkBuffer (wtree (prefix s)) (map (set_races []) (events (prefix s)))) s);
  modify (set_lock_fail_races []).

(** [reset()]; [estimate] is [estimate_trace_count], a [long double]. *)
Definition reset (partition : forall A, (A -> bool) -> list A -> list A * list A)
    (estimate : Buffer (Branch := Branch) (Event := Event) -> Z -> Z) : M bool :=
  _ ← compute_vclocks IsBigEndianHost conf partition;
  _ ← do_race_detect;
  b ← gets prefix;
  i ← lift (last_branching (buf_len b) b);
  reset_execution (estimate b (i + 1)).

End races.

(** ** Is the execution sequentially consistent? (lines 270-285 and 3068-3206)

    [has_cycle] replays the finished execution under sequential consistency: a
    process may take its next step when every process has come as far as the
    step's clock demands, where a store must also respect the clock of its
    memory update. It has a cycle when some process stays blocked. *)

Record stupd_t := MkStupd { st_store : Z; st_update : Z }.
Record proc_t := MkProc { pc : Z; pfx_index : nat; store_index : nat; blocked : bool; block_clock : list Z }.
Definition proc_new : proc_t := MkProc 0 0 0 false [].
Definition set_pc (v : Z) (p : proc_t) : proc_t := MkProc v (pfx_index p) (store_index p) (blocked p) (block_clock p).
Definition set_pfx_index (v : nat) (p : proc_t) : proc_t := MkProc (pc p) v (store_index p) (blocked p) (block_clock p).
Definition set_store_index (v : nat) (p : proc_t) : proc_t := MkProc (pc p) (pfx_index p) v (blocked p) (block_clock p).
Definition set_blocked (v : bool) (p : proc_t) : proc_t := MkProc (pc p) (pfx_index p) (store_index p) v (block_clock p).
Definition set_block_clock (v : list Z) (p : proc_t) : proc_t := MkProc (pc p) (pfx_index p) (store_index p) (blocked p) v.

Section cycle.
Context (b : Buffer (Branch := Branch) (Event := Event)) (proc_count : nat).

(** [stores\[proc\]]: the updates of the process, in order of the prefix. *)
Fixpoint collect_stores (evs : list Event) (i : Z) (stores : list (list stupd_t)) : option (list (list stupd_t)) :=
  match evs with
  | [] => Some stores
  | e :: evs =>
    let p := iid_pid (iid e) in
    if decide (Z.rem p 2 <> 0) then
      _ ← cassert (bool_decide (iid_pid (origin_iid e) = p - 1));
      l ← zget stores (Z.quot p 2);
      stores ← zset stores (Z.quot p 2) (l ++ [MkStupd (iid_index (origin_iid e)) i]);
      collect_stores evs (i + 1) stores
    else collect_stores evs (i + 1) stores
  end.

(** [while (pfx_index < pfx_size && prefix\[pfx_index\].iid.get_pid() != pid)] *)
Fixpoint advance (evs : list Event) (pid : Z) (k : nat) : nat :=
  match evs with
  | [] => k
  | e :: evs => if decide (iid_pid (iid e) <> pid) then advance evs pid (S k) else k
  end.

(** What the process waits for before its step [next_pc]. *)
Definition compute_block_clock (stores : list stupd_t) (proc : nat) (e : Event) (size next_pc : Z) (p : proc_t) : option proc_t :=
  let pid := 2 * Z.of_nat proc in
  _ ← cassert (bool_decide (iid_pid (iid e) = pid));
  _ ← cassert (bool_decide (iid_index (iid e) <= next_pc));
  _ ← cassert (bool_decide (next_pc < iid_index (iid e) + size));
  x ← vc_get (clock e) pid;
  _ ← cassert (bool_decide (x <= next_pc));
  c ← vc_set (clock e) pid next_pc;
  match stores !! store_index p with
  | Some st =>
    if decide (st_store st = next_pc) then
      u ← zget (events b) (st_update st);
      c ← vc_plus_assign c (clock u);
      Some (set_store_index (S (store_index p)) (set_block_clock c p))
    else Some (set_block_clock c p)
  | None => Some (set_block_clock c p)
  end.

(** Some other process has not come as far as [c] demands. *)
Fixpoint must_wait (procs : list proc_t) (i proc : nat) (c : list Z) : option bool :=
  match procs with
  | [] => Some false
  | q :: procs =>
    hit ← (if decide (i <> proc) then x ← vc_get c (Z.of_nat i * 2); Some (bool_decide (pc q < x)) else Some false);
    if hit : bool then Some true else must_wait procs (S i) proc c
  end.

(** The step is taken: go on to the next step of interest. *)
Definition take_step (stores : list stupd_t) (proc : nat) (e : Event) (size next_pc : Z) (p : proc_t) : option proc_t :=
  x ← vc_get (block_clock p) (Z.of_nat proc * 2);
  _ ← cassert (bool_decide (next_pc = x));
  let last := iid_index (iid e) + size - 1 in
  let next := match stores !! store_index p with
              | Some st => if decide (st_store st - 1 < last) then st_store st - 1 else last
              | None => last
              end in
  _ ← cassert (bool_decide (next_pc <= next));
  Some (MkProc next (if decide (next + 1 = iid_index (iid e) + size) then S (pfx_index p) else pfx_index p)
          (store_index p) (blocked p) (block_clock p)).

(** The [while(true)] loop. *)
Fixpoint replay_sc (fuel : nat) (stores : list (list stupd_t)) (proc : nat) (alive : bool) (procs : list proc_t) : option (list proc_t) :=
  match fuel with
  | O => None
  | S fuel =>
    let next_proc := (S proc mod proc_count)%nat in
    let try_other procs := (* try another process *)
      if decide (next_proc = 0%nat) then
        if alive then replay_sc fuel stores 0%nat false procs else Some procs
      else replay_sc fuel stores next_proc alive procs in
    p ← procs !! proc;
    let p := set_pfx_index (advance (drop (pfx_index p) (events b)) (Z.of_nat proc * 2) (pfx_index p)) p in
    if decide (length (events b) <= pfx_index p)%nat then procs ← vset procs proc p; try_other procs
    else
      e ← events b !! pfx_index p;
      br ← buf_branch b (pfx_index p);
      sts ← stores !! proc;
      let next_pc := pc p + 1 in
      p ← (if blocked p then Some p else compute_block_clock sts proc e (b_size br) next_pc p);
      w ← must_wait procs 0%nat proc (block_clock p);
      let p := set_blocked w p in
      if w : bool then procs ← vset procs proc p; try_other procs
      else
        p ← take_step sts proc e (b_size br) next_pc p;
        procs ← vset procs proc p;
        replay_sc fuel stores proc true procs
  end.

(** The last update of a store that is blocked, and whether there is one. *)
Fixpoint blocked_updates (stores : list (list stupd_t)) (procs : list proc_t) (upd_idx : Z) (cycle : bool) : option (Z * bool) :=
  match procs, stores with
  | [], _ => Some (upd_idx, cycle)
  | _, [] => None
  | p :: procs, sts :: stores =>
    if blocked p then
      upd ← (match store_index p with
             | O => Some upd_idx
             | S k => st ← sts !! k;
                      Some (if decide (st_store st = pc p + 1 /\ upd_idx < st_update st) then st_update st else upd_idx)
             end);
      blocked_updates stores procs upd true
    else blocked_updates stores procs upd_idx cycle
  end.

(** The steps of all events, then two passes over the processes. *)
Fixpoint total_size (evs : list Event) (i : nat) : option nat :=
  match evs with
  | [] => Some 0%nat
  | e :: evs => br ← buf_branch b i; n ← total_size evs (S i); Some (Z.to_nat (b_size br) + n)%nat
  end.
Definition replay_fuel (total : nat) : nat := ((total + 2) * (proc_count + 1))%nat.

(** The result is the return value and the location of the last update that is
    part of a cycle. *)
Definition has_cycle : option (bool * option IID) :=
  stores ← collect_stores (events b) 0 (replicate proc_count []);
  total ← total_size (events b) 0;
  procs ← replay_sc (replay_fuel total) stores 0%nat false (replicate proc_count proc_new);
  r ← blocked_updates stores procs (-1) false;
  _ ← cassert (negb r.2 || bool_decide (0 <= r.1));
  loc ← (if decide (0 <= r.1) then e ← zget (events b) r.1; Some (Some (iid e)) else Some None);
  Some (r.2, loc).
End cycle.

(** [check_for_cycles()]: a cycle is reported as an error at its last update. *)
Definition check_for_cycles (IsBigEndianHost : bool) (conf : Configuration)
    (partition : forall A, (A -> bool) -> list A -> list A * list A) : M bool :=
  _ ← compute_vclocks IsBigEndianHost conf partition;
  b ← gets prefix; ts ← gets threads;
  r ← lift (has_cycle b (length ts));
  if negb r.1 then mret false
  else
    n ← pfx_len; _ ← massert (bool_decide (0 < n));
    id ← lift r.2;
    t ← thread (iid_pid id);
    _ ← modify (fun s => set_errors (errors s ++ [RobustnessError (MkLoc (cpid t) (iid_index id))]) s);
    mret true.
