(* ===== verification/TSOKeeps.v ===== *)
(** * TSOKeeps: what every registration method leaves alone

    A method changes the recorded trace only in the current event, but for what
    earlier events record about their observers; and every method that touches
    the tables marks the current event as conflicting. Both facts hold of every
    successful run, whatever the state, and follow from the structure of the
    methods: [always], and with it [keeps] and [marks], are closed under the
    combinators of the monad. *)

From S2P Require Import Prelude StdMap VecSet CPid SymAddr ByteOps SymEv ReplayMem WakeupTree TSOState TSOOps.
From S2P Require Import TSOHandlers.

Local Open Scope Z_scope.

(** ** The relation *)

(** [quiet] runs do not change what the current event records either. *)
Definition kept (quiet : bool) (idx i : Z) (e e' : Event) : Prop :=
  iid e' = iid e /\ sleep e' = sleep e /\ (may_conflict e = true -> may_conflict e' = true) /\
  (quiet = true \/ i <> idx -> may_conflict e' = may_conflict e /\ ev_wakeup e' = ev_wakeup e /\
     happens_after_later e' = happens_after_later e /\ (sym e = [] -> sym e' = [])).

Record kept_state (quiet : bool) (s s' : TSOTraceBuilder) : Prop := {
  ks_idx : prefix_idx s' = prefix_idx s;
  ks_tree : wtree (prefix s') = wtree (prefix s);
  ks_len : length (events (prefix s')) = length (events (prefix s));
  ks_event : forall i e, zget (events (prefix s)) i = Some e ->
    exists e', zget (events (prefix s')) i = Some e' /\ kept quiet (prefix_idx s) i e e';
  ks_thread : forall p t, zget (threads s) p = Some t ->
    exists t', zget (threads s') p = Some t' /\ event_indices t' = event_indices t;
  ks_flags : has_vclocks s' = has_vclocks s /\ dryrun s' = dryrun s /\ replay s' = replay s;
}.

Lemma kept_refl q idx i e : kept q idx i e e.
Proof. by split_and!. Qed.
Lemma kept_trans q idx i e1 e2 e3 : kept q idx i e1 e2 -> kept q idx i e2 e3 -> kept q idx i e1 e3.
Proof.
  intros (? & ? & ? & Ho1) (? & ? & ? & Ho2). split_and!; [congruence|congruence|auto|].
  intros Hi. destruct (Ho1 Hi) as (? & ? & ? & ?), (Ho2 Hi) as (? & ? & ? & ?). split_and!; [congruence..|auto].
Qed.

Lemma kept_state_refl q s : kept_state q s s.
Proof. split; try done; eauto using kept_refl. Qed.
Lemma kept_state_trans q s1 s2 s3 : kept_state q s1 s2 -> kept_state q s2 s3 -> kept_state q s1 s3.
Proof.
  intros [Hi1 Ht1 Hl1 He1 Hth1 (? & ? & ?)] [Hi2 Ht2 Hl2 He2 Hth2 (? & ? & ?)]. split; try congruence.
  - intros i e He. destruct (He1 i e He) as (e' & He' & Hk). destruct (He2 i e' He') as (e'' & He'' & Hk').
    exists e''. split; [done|]. rewrite Hi1 in Hk'. by eapply kept_trans.
  - intros p t Ht. destruct (Hth1 p t Ht) as (t' & Ht' & Hk). destruct (Hth2 p t' Ht') as (t'' & Ht'' & Hk').
    exists t''. split; [done|congruence].
  - split_and!; congruence.
Qed.

(** ** The logic *)

Lemma run_bind {A B} (m : M A) (k : A -> M B) s b s' : (m ≫= k) s = Some (b, s') ->
  exists a s1, m s = Some (a, s1) /\ k a s1 = Some (b, s').
Proof. unfold mbind, M_bind. destruct (m s) as [[a s1]|]; [eauto|done]. Qed.
Lemma run_lift {A} (o : option A) s a s' : lift o s = Some (a, s') -> o = Some a /\ s' = s.
Proof. unfold lift. destruct o; [|done]. by intros [= <- <-]. Qed.
Lemma run_pfx i s e s' : pfx i s = Some (e, s') -> zget (events (prefix s)) i = Some e /\ s' = s.
Proof. intros (b & s1 & [= <- <-] & H)%run_bind. by apply run_lift in H. Qed.
Lemma run_ins v x s v' s' : ins v x s = Some (v', s') -> s' = s.
Proof. by intros (b & s1 & (_ & ->)%run_lift & [= _ ->])%run_bind. Qed.

(** What holds between the states before and after every successful run. *)
Definition always (R : TSOTraceBuilder -> TSOTraceBuilder -> Prop) {A} (m : M A) : Prop :=
  forall s a s', m s = Some (a, s') -> R s s'.

(** Events are written one at a time. *)
Definition put_event (i : Z) (e : Event) (s : TSOTraceBuilder) : TSOTraceBuilder :=
  set_prefix (MkBuffer (wtree (prefix s)) (<[Z.to_nat i := e]> (events (prefix s)))) s.
Lemma run_pfx_upd i f s u s' : pfx_upd i f s = Some (u, s') ->
  exists e, zget (events (prefix s)) i = Some e /\ s' = put_event i (f e) s.
Proof.
  intros (b & s1 & [= <- <-] & (e & s2 & (He & ->)%run_lift & (evs & s3 & (Hs & ->)%run_lift & [= _ <-])%run_bind)%run_bind)%run_bind.
  exists e. split; [done|]. unfold zset, vset in Hs. case_decide; [|done]. case_decide; [|done]. by injection Hs as <-.
Qed.
Lemma put_event_at i e s x : zget (events (prefix s)) i = Some x ->
  zget (events (prefix (put_event i e s))) i = Some e.
Proof.
  unfold zget. intros Hx. case_decide; [|done]. simpl. apply list_lookup_insert_eq. by eapply lookup_lt_Some.
Qed.
Lemma run_curev_upd f s u s' : curev_upd f s = Some (u, s') ->
  exists e, zget (events (prefix s)) (prefix_idx s) = Some e /\ s' = put_event (prefix_idx s) (f e) s.
Proof.
  intros (i & s1 & Hi & H)%run_bind. revert Hi.
  unfold cur_idx, mbind, M_bind, gets, massert, lift, pfx_len, cassert. cbn.
  do 2 (case_bool_decide; cbn; [|done]). intros [= <- <-]. by apply run_pfx_upd in H.
Qed.
Lemma run_thread_upd p f s u s' : thread_upd p f s = Some (u, s') ->
  exists t, zget (threads s) p = Some t /\ s' = set_threads (<[Z.to_nat p := f t]> (threads s)) s.
Proof.
  unfold thread_upd, mbind, M_bind, gets, lift, modify. cbn.
  destruct (zget (threads s) p) as [t|] eqn:He; cbn; [|done].
  destruct (zset (threads s) p (f t)) as [ts|] eqn:Hs; cbn; [|done]. intros [= _ <-].
  unfold zset, vset in Hs. case_decide; [|done]. case_decide; [|done]. injection Hs as <-. eauto.
Qed.

Section always.
Context (R : TSOTraceBuilder -> TSOTraceBuilder -> Prop) `{!Reflexive R, !Transitive R}.

Lemma always_bind {A B} (m : M A) (k : A -> M B) : always R m -> (forall a, always R (k a)) -> always R (m ≫= k).
Proof. intros Hm Hk s b s' (a & s1 & H1 & H2)%run_bind. etrans; [by eapply Hm|by eapply Hk]. Qed.
Lemma always_ret {A} (x : A) : always R (mret x).
Proof. by intros s a s' [= <- <-]. Qed.
Lemma always_lift {A} (o : option A) : always R (lift o).
Proof. by intros s a s' [_ ->]%run_lift. Qed.
Lemma always_gets {A} (f : TSOTraceBuilder -> A) : always R (gets f).
Proof. by intros s a s' [= <- <-]. Qed.
Lemma always_loop {A St} (l : list A) (body : A -> St -> M St) st : (forall x st, always R (body x st)) -> always R (loop l body st).
Proof.
  intros Hb. revert st. induction l as [|x l IH]; intros st; cbn [loop]; [apply always_ret|].
  apply always_bind; [apply Hb|]. intros st'. apply IH.
Qed.
Lemma always_modify f : (forall s, R s (f s)) -> always R (modify f).
Proof. by intros Hf s a s' [= <- <-]. Qed.
Lemma always_thread_upd p f :
  (forall s t, zget (threads s) p = Some t -> R s (set_threads (<[Z.to_nat p := f t]> (threads s)) s)) -> always R (thread_upd p f).
Proof. intros Hf s a s' (t & Ht & ->)%run_thread_upd. by apply Hf. Qed.
Lemma always_pfx_upd i f :
  (forall s e, zget (events (prefix s)) i = Some e -> R s (put_event i (f e) s)) -> always R (pfx_upd i f).
Proof. intros Hf s a s' (e & He & ->)%run_pfx_upd. by apply Hf. Qed.
Lemma always_curev_upd f :
  (forall s e, zget (events (prefix s)) (prefix_idx s) = Some e -> R s (put_event (prefix_idx s) (f e) s)) -> always R (curev_upd f).
Proof. intros Hf s a s' (e & He & ->)%run_curev_upd. by apply Hf. Qed.
End always.

(** Walks through the structure of a method, unfolding the operations it calls;
    [leaf] closes what the rules above do not. *)
Ltac keeps_head m := lazymatch m with ?f _ => keeps_head f | ?f => f end.
Ltac always_walk leaf :=
  repeat (cbv beta zeta; first
    [ leaf ()
    | apply always_ret; apply _ | apply always_lift; apply _ | apply always_gets; apply _
    | apply always_bind; [apply _| |intros ?] | apply always_loop; [apply _|apply _|intros]
    | lazymatch goal with |- always _ ?m =>
        lazymatch m with
        | match ?x with _ => _ end => destruct x
        | mbind _ _ => fail
        | _ => let h := keeps_head m in unfold h
        end end ]).

(** *** Keeping the trace *)

#[export] Instance kept_state_reflexive q : Reflexive (kept_state q).
Proof. intros s. apply kept_state_refl. Qed.
#[export] Instance kept_state_transitive q : Transitive (kept_state q).
Proof. intros s1 s2 s3. apply kept_state_trans. Qed.

Definition keeps {A} (q : bool) (m : M A) : Prop := always (kept_state q) m.

Lemma keeps_bind q {A B} (m : M A) (k : A -> M B) : keeps q m -> (forall a, keeps q (k a)) -> keeps q (m ≫= k).
Proof. by apply always_bind; apply _. Qed.
Lemma keeps_ret q {A} (x : A) : keeps q (mret x).
Proof. by apply always_ret; apply _. Qed.
Lemma keeps_lift q {A} (o : option A) : keeps q (lift o).
Proof. by apply always_lift; apply _. Qed.
Lemma keeps_gets q {A} (f : TSOTraceBuilder -> A) : keeps q (gets f).
Proof. by apply always_gets; apply _. Qed.
Lemma keeps_loop q {A St} (l : list A) (body : A -> St -> M St) st : (forall x st, keeps q (body x st)) -> keeps q (loop l body st).
Proof. by apply always_loop; apply _. Qed.
Lemma keeps_modify q f : (forall s, prefix (f s) = prefix s /\ prefix_idx (f s) = prefix_idx s /\
  has_vclocks (f s) = has_vclocks s /\ dryrun (f s) = dryrun s /\ replay (f s) = replay s /\ exists ts, threads (f s) = threads s ++ ts) -> keeps q (modify f).
Proof.
  intros Hf. apply always_modify. intros s. destruct (Hf s) as (Hp & Hi & Hv & Hd & Hr & ts & Ht).
  split; rewrite ?Hp, ?Ht; try done; eauto using kept_refl.
  intros p t Hpt. exists t. split; [|done]. unfold zget in *. case_decide; [|done]. by apply lookup_app_l_Some.
Qed.
Lemma keeps_thread_upd q p f : (forall t, event_indices (f t) = event_indices t) -> keeps q (thread_upd p f).
Proof.
  intros Hf. apply always_thread_upd. intros s t He. split; try done; simpl; [eauto using kept_refl|].
  intros r u Hu. unfold zget in *. case_decide; [|done]. case_decide; [|done].
  destruct (decide (r = p)) as [->|Hne].
  - rewrite list_lookup_insert_eq by (by eapply lookup_lt_Some). exists (f t). split; [done|]. rewrite He in Hu. injection Hu as <-. apply Hf.
  - rewrite list_lookup_insert_ne by (intros ?; apply Hne; lia). by exists u.
Qed.

Lemma put_event_kept q i e x s : zget (events (prefix s)) i = Some x -> kept q (prefix_idx s) i x e ->
  kept_state q s (put_event i e s).
Proof.
  intros Hx Hk. split; try done; simpl; [by rewrite length_insert| |eauto].
  intros j y Hy. destruct (decide (j = i)) as [->|Hne].
  - exists e. split; [exact (put_event_at i e s x Hx)|]. rewrite Hx in Hy. by injection Hy as <-.
  - exists y. split; [|apply kept_refl]. unfold zget in *. case_decide; [|done]. case_decide; [|done]. simpl.
    by rewrite list_lookup_insert_ne by (intros ?; apply Hne; lia).
Qed.
Lemma keeps_pfx_upd q i f :
  (forall idx e, kept q idx i e (f e)) -> keeps q (pfx_upd i f).
Proof. intros Hf. apply always_pfx_upd. intros s e He. by eapply put_event_kept. Qed.
Lemma keeps_curev_upd q f :
  (forall idx e, kept q idx idx e (f e)) -> keeps q (curev_upd f).
Proof. intros Hf. apply always_curev_upd. intros s e He. by eapply put_event_kept. Qed.

(** [observe_store] rewrites the kinds of the stores an event recorded. *)
Lemma keeps_observed q lu e ml o :
  observe_store (sym e) ml = Some o -> forall s a s', zget (events (prefix s)) lu = Some e ->
  pfx_upd lu (set_sym o.1) s = Some (a, s') -> kept_state q s s'.
Proof.
  intros Ho s a s' He (e' & He' & ->)%run_pfx_upd. rewrite He in He'. injection He' as <-.
  eapply put_event_kept; [done|]. split_and!; [done..|]. intros _. split_and!; [done..|]. intros Hnil. exfalso.
  unfold observe_store in Ho. rewrite Hnil in Ho. done.
Qed.

Lemma keeps_observe q conf b lu (k : bool -> M (ByteInfo * (list Z * list (Z * Z)))) e :
  (forall x, keeps q (k x)) -> forall s a s', zget (events (prefix s)) lu = Some e ->
  (obs ← (if decide (dpor_algorithm conf = OBSERVERS) then
            o ← lift (observe_store (sym e) b); _ ← pfx_upd lu (set_sym o.1); mret o.2
          else mret false); k obs) s = Some (a, s') -> kept_state q s s'.
Proof.
  intros Hk s a s' He (x & s1 & H1 & H2)%run_bind. destruct (decide _) in H1.
  - apply run_bind in H1 as (o & s2 & (Ho & ->)%run_lift & (u & s3 & H3 & [= _ <-])%run_bind).
    eapply kept_state_trans; [by eapply keeps_observed|by eapply Hk].
  - injection H1 as _ <-. by eapply Hk.
Qed.

Ltac keeps_field := split_and!; [done|done|done|let H := fresh in intros H; first [by split_and! | by destruct H]].
Ltac keeps_leaf := first
  [ apply keeps_ret | apply keeps_lift | apply keeps_gets
  | apply keeps_modify; intros; split_and!; [done|done|done|done|done|first [by exists []; rewrite app_nil_r | by eexists]]
  | apply keeps_thread_upd; intros; done
  | apply keeps_curev_upd; intros ? ?; keeps_field | apply keeps_pfx_upd; intros ? ?; keeps_field ].
Create HintDb keeps.
Ltac keeps :=
  repeat (cbv beta zeta; first
    [ solve [auto 1 with keeps nocore] | keeps_leaf
    | apply keeps_bind; [|intros ?] | apply keeps_loop; intros
    | lazymatch goal with |- keeps _ ?m =>
        lazymatch m with
        | match ?x with _ => _ end => destruct x
        | mbind _ _ => fail
        | _ => let h := keeps_head m in unfold h
        end end ]).

Lemma keeps_observe_memory q conf ml m seen pairs upd : keeps q (observe_memory conf ml m seen pairs upd).
Proof.
  unfold observe_memory. apply keeps_bind; [keeps|]. intros ipid. cbv zeta.
  apply keeps_bind; [|intros r; keeps]. case_decide; [|keeps].
  intros s a s' (e & s1 & (He & ->)%run_pfx & (seen' & s2 & Hs & H1)%run_bind)%run_bind.
  assert (s2 = s) as -> by (clear H1; revert Hs; case_decide; [by apply run_ins|by intros [= _ ->]]).
  eapply keeps_observe; [|exact He|exact H1]. intros x. keeps.
Qed.
#[export] Hint Resolve keeps_observe_memory : keeps.

(** ** Marking the current event *)

Definition marked (s : TSOTraceBuilder) : Prop :=
  exists e, zget (events (prefix s)) (prefix_idx s) = Some e /\ may_conflict e = true.
(** Outside a dry run, results in [P] leave the current event marked. *)
Definition marks {A} (P : A -> Prop) (m : M A) : Prop :=
  forall s a s', dryrun s = false -> m s = Some (a, s') -> P a -> marked s'.

Lemma marked_kept q s s' : kept_state q s s' -> marked s -> marked s'.
Proof.
  intros Hk (e & He & Hm). destruct (ks_event _ _ _ Hk _ _ He) as (e' & He' & _ & _ & Hmc & _).
  exists e'. rewrite (ks_idx _ _ _ Hk). auto.
Qed.
Lemma marks_now q {A B} P (m : M A) (k : A -> M B) : marks (fun _ => True) m -> (forall a, keeps q (k a)) -> marks P (m ≫= k).
Proof. intros Hm Hk s b s' Hd (a & s1 & H1 & H2)%run_bind _. eapply marked_kept; [by eapply Hk|by eapply Hm]. Qed.
Lemma marks_later q {A B} P (m : M A) (k : A -> M B) : keeps q m -> (forall a, marks P (k a)) -> marks P (m ≫= k).
Proof.
  intros Hm Hk s b s' Hd (a & s1 & H1 & H2)%run_bind HP. eapply Hk; [|done|done].
  by destruct (ks_flags _ _ _ (Hm _ _ _ H1)) as (_ & -> & _).
Qed.
Lemma marks_dry {A} P (x y : M A) : marks P y -> marks P (dry ← gets dryrun; if dry : bool then x else y).
Proof. intros Hy s a s' Hd (d & s1 & [= <- <-] & H)%run_bind HP. rewrite Hd in H. by eapply Hy. Qed.
Lemma marks_none {A} P (x : A) : ~ P x -> marks P (mret x).
Proof. intros Hx s a s' _ [= <- <-] HP. by destruct Hx. Qed.
Lemma marks_mark : marks (fun _ => True) mark_conflict.
Proof.
  intros s a s' _ (e & He & ->)%run_curev_upd _. exists (set_may_conflict true e). split; [|done].
  by eapply put_event_at.
Qed.
Lemma marks_and_l q m k : marks (eq true) m -> keeps q k -> marks (eq true) (and_then m k).
Proof.
  intros Hm Hk s b s' Hd (ok & s1 & H1 & H2)%run_bind <-. destruct ok; [|done].
  eapply marked_kept; [by eapply Hk|by eapply Hm].
Qed.
Lemma marks_and_r q m k : keeps q m -> marks (eq true) k -> marks (eq true) (and_then m k).
Proof. intros Hm Hk. apply (marks_later q); [done|]. intros []; [done|by apply marks_none]. Qed.

(** The same walk for [marks]. *)
Ltac marks :=
  repeat (cbv beta zeta; first
    [ solve [auto 1 with keeps nocore] | apply marks_mark | apply marks_none; done | apply marks_dry
    | apply (marks_and_l false); [solve [auto 1 with keeps nocore]|keeps]
    | apply (marks_and_r false); [solve [keeps]|]
    | apply (marks_now false); [first [apply marks_mark | solve [auto 1 with keeps nocore]]|intros ?; keeps]
    | apply (marks_later false); [solve [keeps]|intros ?]
    | lazymatch goal with |- marks _ ?m =>
        lazymatch m with
        | match ?x with _ => _ end => destruct x
        | mbind _ _ => fail
        | _ => let h := keeps_head m in unfold h
        end end ]).

(** ** Every method keeps the trace *)

Section handlers.
Context (IsBigEndianHost : bool) (conf : Configuration).

Lemma keeps_record_symbolic ev : keeps false (record_symbolic ev).
Proof. keeps. Qed.
Lemma keeps_see_events l : keeps false (see_events conf l).
Proof. keeps. Qed.
Lemma keeps_see_event_pairs l : keeps false (see_event_pairs conf l).
Proof. keeps. Qed.
Lemma keeps_wakeup ty b : keeps false (wakeup conf ty b).
Proof. keeps. Qed.
#[local] Hint Resolve keeps_record_symbolic keeps_see_events keeps_see_event_pairs keeps_wakeup : keeps.
Lemma keeps_do_atomic_store sd : keeps false (do_atomic_store conf sd).
Proof. keeps. Qed.
Lemma keeps_do_load ml : keeps false (do_load conf ml).
Proof. keeps. Qed.
Lemma keeps_fence q : keeps q fence.
Proof. keeps. Qed.
Lemma keeps_mutex_lock ml : keeps false (mutex_lock conf ml).
Proof. keeps. Qed.
Lemma keeps_mutex_unlock ml : keeps false (mutex_unlock conf ml).
Proof. keeps. Qed.
Lemma keeps_register_alternatives n : keeps false (register_alternatives n).
Proof. keeps. Qed.
#[local] Hint Resolve keeps_do_atomic_store keeps_do_load keeps_fence keeps_mutex_lock keeps_mutex_unlock
  keeps_register_alternatives : keeps.

Lemma marks_do_atomic_store sd : marks (fun _ => True) (do_atomic_store conf sd).
Proof. marks. Qed.
Lemma marks_do_load ml : marks (fun _ => True) (do_load conf ml).
Proof. marks. Qed.
Lemma marks_sync_prologue k ml : marks (fun _ => True) (sync_prologue k ml).
Proof. marks. Qed.
#[local] Hint Resolve marks_do_atomic_store marks_do_load marks_sync_prologue : keeps.
Lemma marks_cond_destroy ml : marks (fun _ => True) (cond_destroy conf ml).
Proof. marks. Qed.
#[local] Hint Resolve marks_cond_destroy : keeps.

(** ** The calls of the interpreter *)

Inductive call :=
  | Local
  | Spawn
  | Store (sd : SymDataRef)
  | AtomicStore (sd : SymDataRef)
  | AtomicRmw (sd : SymDataRef) (action : RmwAction)
  | CompareExchange (sd : SymDataRef) (expected : block_type) (success : bool)
  | Load (ml : SymAddrSize)
  | FullMemoryConflict
  | Fence
  | Join (tgt_proc : Z)
  | MutexLock (ml : SymAddrSize)
  | MutexTrylock (ml : SymAddrSize)
  | MutexUnlock (ml : SymAddrSize)
  | MutexInit (ml : SymAddrSize)
  | MutexDestroy (ml : SymAddrSize)
  | CondInit (ml : SymAddrSize)
  | CondSignal (ml : SymAddrSize)
  | CondBroadcast (ml : SymAddrSize)
  | CondWait (cond_ml mutex_ml : SymAddrSize)
  | CondAwake (cond_ml mutex_ml : SymAddrSize)
  | CondDestroy (ml : SymAddrSize)
  | RegisterAlternatives (n : Z).

(** What the interpreter runs for a call; [Local] is an instruction that
    registers nothing. *)
Definition perform (c : call) : M bool :=
  match c with
  | Local => mret true
  | Spawn => spawn
  | Store sd => TSOHandlers.store sd
  | AtomicStore sd => atomic_store conf sd
  | AtomicRmw sd action => atomic_rmw conf sd action
  | CompareExchange sd expected success => compare_exchange conf sd expected success
  | Load ml => load conf ml
  | FullMemoryConflict => full_memory_conflict conf
  | Fence => fence
  | Join tgt => TSOHandlers.join tgt
  | MutexLock ml => mutex_lock conf ml
  | MutexTrylock ml => mutex_trylock conf ml
  | MutexUnlock ml => mutex_unlock conf ml
  | MutexInit ml => mutex_init conf ml
  | MutexDestroy ml => mutex_destroy conf ml
  | CondInit ml => cond_init conf ml
  | CondSignal ml => cond_signal conf ml
  | CondBroadcast ml => cond_broadcast conf ml
  | CondWait cml mml => cond_wait conf cml mml
  | CondAwake cml mml => cond_awake conf cml mml
  | CondDestroy ml => _ ← cond_destroy conf ml; mret true
  | RegisterAlternatives n => register_alternatives n
  end.

Definition is_quiet (c : call) : bool := match c with Local | Fence => true | _ => false end.

Lemma keeps_perform c : keeps (is_quiet c) (perform c).
Proof. destruct c; cbn [perform is_quiet]; keeps. Qed.
Lemma marks_perform c : is_quiet c = false -> marks (eq true) (perform c).
Proof. destruct c; cbn [perform is_quiet]; intros Hq; try done; marks. Qed.

End handlers.
