(* ===== verification/TSOAbs.v ===== *)
(** * TSOAbs: the TSO memory the trace builder simulates

    The abstract machine: per thread a FIFO queue of pending stores, and for
    every byte the event that wrote it last. Every registration method is
    shown to make the step of this machine that its instruction stands for;
    the theorem for executions is in TSOSpec.v.

    As in TSOKeeps.v the facts hold of every successful run and follow from the
    structure of the methods: [calm] methods leave the abstract state alone,
    and [effect p i f m] says that [m], run in event [i] of thread [p],
    transforms it by [f]. *)

From stdpp Require Import prelude.
From S2P Require Import Prelude StdMap VecSet CPid SymAddr ByteOps SymEv ReplayMem WakeupTree TSOState TSOOps.
From S2P Require Import TSOHandlers TSOSched TSOInv TSOMem TSOKeeps.

Local Open Scope Z_scope.

(** ** The abstract machine *)

(** Pending stores by thread, oldest first, with the event that buffered them;
    and the last event that wrote a byte, [-1] if none. *)
Record TSO := MkTSO { pending : list (list (SymAddrSize * Z)); writer : SymAddr -> Z }.

#[export] Instance TSO_equiv : Equiv TSO := fun A B => pending A = pending B /\ forall b, writer A b = writer B b.
#[export] Instance TSO_equivalence : Equivalence (≡@{TSO}).
Proof.
  split; [done|by intros A B [? ?]|]. intros A B C [H1 H2] [H3 H4]. split; [congruence|]. intros b. by rewrite H2.
Qed.

Definition enqueue (p : Z) (x : SymAddrSize * Z) (A : TSO) : TSO :=
  MkTSO (alter (fun l => l ++ [x]) (Z.to_nat p) (pending A)) (writer A).
Definition dequeue (p : Z) (A : TSO) : TSO := MkTSO (alter tail (Z.to_nat p) (pending A)) (writer A).
Definition write_byte (b : SymAddr) (i : Z) (A : TSO) : TSO :=
  MkTSO (pending A) (fun b' => if decide (b' = b) then i else writer A b').
Definition write (ml : SymAddrSize) (i : Z) (A : TSO) : TSO :=
  MkTSO (pending A) (fun b => if in_range ml b then i else writer A b).
Definition write_all (i : Z) (A : TSO) : TSO := MkTSO (pending A) (fun _ => i).
Definition grow (A : TSO) : TSO := MkTSO (pending A ++ [[]; []]) (writer A).

#[export] Instance enqueue_proper p x : Proper ((≡) ==> (≡)) (enqueue p x).
Proof. intros A B [H1 H2]. split; [by cbn; rewrite H1|done]. Qed.
#[export] Instance dequeue_proper p : Proper ((≡) ==> (≡)) (dequeue p).
Proof. intros A B [H1 H2]. split; [by cbn; rewrite H1|done]. Qed.
#[export] Instance write_byte_proper b i : Proper ((≡) ==> (≡)) (write_byte b i).
Proof. intros A B [H1 H2]. split; [done|]. intros b'. cbn. by rewrite H2. Qed.
#[export] Instance write_proper ml i : Proper ((≡) ==> (≡)) (write ml i).
Proof. intros A B [H1 H2]. split; [done|]. intros b'. cbn. by rewrite H2. Qed.
#[export] Instance write_all_proper i : Proper ((≡) ==> (≡)) (write_all i).
Proof. intros A B [H1 H2]. by split. Qed.
#[export] Instance grow_proper : Proper ((≡) ==> (≡)) grow.
Proof. intros A B [H1 H2]. split; [by cbn; rewrite H1|done]. Qed.
#[export] Instance id_proper : Proper ((≡) ==> (≡@{TSO})) id.
Proof. by intros A B. Qed.

(** A write that reaches memory: the auxiliary threads, the odd ones, take it
    from the queue of their process. *)
Definition commit (p i : Z) (ml : SymAddrSize) (A : TSO) : TSO :=
  (if Z.even p then id else dequeue (p - 1)) (write ml i A).
#[export] Instance dequeue_if_proper (b : bool) p : Proper ((≡) ==> (≡)) (if b then id else dequeue p).
Proof. destruct b; apply _. Qed.
#[export] Instance commit_proper p i ml : Proper ((≡) ==> (≡)) (commit p i ml).
Proof. intros A B HAB. unfold commit. by rewrite HAB. Qed.

Lemma alter_insert {A} (f : A -> A) (l : list A) k x : l !! k = Some x -> alter f k l = <[k := f x]> l.
Proof. revert k. induction l as [|y l IH]; intros [|k]; [done..|by intros [= ->]|]. intros Hk. simpl. f_equal. by apply IH. Qed.

(** The step of an instruction of thread [p] that is event [i]. *)
Definition tso_call (p i : Z) (c : call) : TSO -> TSO :=
  match c with
  | Store sd => enqueue p (sdr_ref sd, i)
  | AtomicStore sd => commit p i (sdr_ref sd)
  | AtomicRmw sd _ | CompareExchange sd _ true => write (sdr_ref sd) i
  | FullMemoryConflict => write_all i
  | Spawn => grow
  | _ => id
  end.

#[export] Instance tso_call_proper p i c : Proper ((≡) ==> (≡)) (tso_call p i c).
Proof. destruct c as [| | | | |? ? []| | | | | | | | | | | | | | | |]; cbn [tso_call]; apply _. Qed.

(** ** The abstraction *)

Definition pend_of (t : Thread) : list (SymAddrSize * Z) := map (fun ps => (ps_ml ps, ps_store_event ps)) (store_buffer t).
(** A full memory conflict writes every byte. *)
Definition writer_at (s : TSOTraceBuilder) (b : SymAddr) : Z :=
  Z.max (last_full_memory_conflict s) (match map_lookup (mem s) b with Some m => last_update m | None => -1 end).
Definition abs (s : TSOTraceBuilder) : TSO := MkTSO (map pend_of (threads s)) (writer_at s).

(** ** Methods that leave it alone *)

(** Everything the effects depend on is kept, and, unless [w], the writers. *)
Record calm_state (w : bool) (s s' : TSOTraceBuilder) : Prop := {
  cm_idx : prefix_idx s' = prefix_idx s;
  cm_iids : map iid (events (prefix s')) = map iid (events (prefix s));
  cm_dry : dryrun s' = dryrun s;
  cm_lfmc : last_full_memory_conflict s' = last_full_memory_conflict s;
  cm_pending : map pend_of (threads s') = map pend_of (threads s);
  cm_writer : w = false -> forall b, writer_at s' b = writer_at s b;
}.
#[export] Instance calm_reflexive w : Reflexive (calm_state w).
Proof. by split. Qed.
#[export] Instance calm_transitive w : Transitive (calm_state w).
Proof. intros s1 s2 s3 [H1 H2 H3 H4 H5 H6] [I1 I2 I3 I4 I5 I6]. split; [congruence..|]. intros Hw b. by rewrite I6, H6. Qed.

Abbreviation calm w m := (always (calm_state w) m).

Lemma calm_put_event w i e x s : zget (events (prefix s)) i = Some x -> iid e = iid x -> calm_state w s (put_event i e s).
Proof.
  intros Hx Hi. split; try done. cbn [prefix put_event set_prefix events]. rewrite list_fmap_insert.
  apply list_insert_id. unfold zget in Hx. case_decide; [|done]. by rewrite list_lookup_fmap, Hx, Hi.
Qed.
Lemma calm_put_thread w p u t s : zget (threads s) p = Some t -> pend_of u = pend_of t ->
  calm_state w s (set_threads (<[Z.to_nat p := u]> (threads s)) s).
Proof.
  intros Ht Hu. split; try done. cbn [threads set_threads]. rewrite list_fmap_insert. apply list_insert_id.
  unfold zget in Ht. case_decide; [|done]. by rewrite list_lookup_fmap, Ht, Hu.
Qed.

Lemma calm_mem_get w b : calm w (mem_get b).
Proof.
  intros s m s' (ms & s1 & [= <- <-] & H)%run_bind. cbv zeta in H. apply run_bind in H as ([] & s2 & [= <-] & [= _ <-]).
  split; try done. intros _ b'. unfold writer_at. cbn [mem set_mem last_full_memory_conflict]. f_equal.
  unfold map_index. destruct (map_lookup (mem s) b) eqn:E; [done|]. cbn [snd].
  destruct (decide (b = b')) as [<-|Hne]; [by rewrite map_lookup_insert_eq, E|by rewrite map_lookup_insert_ne].
Qed.

Create HintDb calm.
#[export] Hint Resolve calm_mem_get : calm.
Ltac calm := always_walk ltac:(fun _ => first
  [ solve [auto 1 with calm nocore]
  | apply always_modify; intros; by split
  | apply always_thread_upd; intros; eapply calm_put_thread; [eassumption|done]
  | apply always_curev_upd; intros; eapply calm_put_event; [eassumption|done]
  | apply always_pfx_upd; intros; eapply calm_put_event; [eassumption|done] ]).

(** A run of a calm method as a step. *)
Ltac calm_run H :=
  lazymatch type of H with ?m ?s = Some (?a, ?s') =>
    let Hc := fresh in assert (Hc : always (calm_state false) m) by calm; apply Hc in H; clear Hc end.

Section calm.
Context (IsBigEndianHost : bool) (conf : Configuration) (w : bool).

Lemma calm_record_symbolic ev : calm w (record_symbolic ev).
Proof. calm. Qed.
Lemma calm_see_events l : calm w (see_events conf l).
Proof. calm. Qed.
Lemma calm_see_event_pairs l : calm w (see_event_pairs conf l).
Proof. calm. Qed.
Lemma calm_wakeup ty b : calm w (wakeup conf ty b).
Proof. calm. Qed.
Lemma calm_observe_memory ml m seen pairs upd : calm w (observe_memory conf ml m seen pairs upd).
Proof. calm. Qed.
Lemma calm_scan_last_reads reads lu own seen : calm w (scan_last_reads reads lu own seen).
Proof. calm. Qed.
Lemma calm_dry_bytes rd wr ml : calm w (dry_bytes rd wr ml).
Proof. calm. Qed.
Lemma calm_fence : calm w fence.
Proof. calm. Qed.
Lemma calm_add_happens_after i j : calm w (add_happens_after i j).
Proof. calm. Qed.
Lemma calm_own_update_edge ml ml' lu p : calm w (own_update_edge ml ml' lu p).
Proof. calm. Qed.
End calm.
#[export] Hint Resolve calm_record_symbolic calm_see_events calm_see_event_pairs calm_wakeup calm_observe_memory
  calm_scan_last_reads calm_dry_bytes calm_fence calm_add_happens_after calm_own_update_edge : calm.
Lemma calm_mutex_lock conf w ml : calm w (mutex_lock conf ml).
Proof. calm. Qed.
Lemma calm_mutex_unlock conf w ml : calm w (mutex_unlock conf ml).
Proof. calm. Qed.
#[export] Hint Resolve calm_mutex_lock calm_mutex_unlock : calm.

(** What an instruction that is neither a memory access nor a spawn does. *)
Definition is_sync (c : call) : bool :=
  match c with
  | Spawn | Store _ | AtomicStore _ | AtomicRmw _ _ | CompareExchange _ _ _ | Load _ | FullMemoryConflict => false
  | _ => true
  end.
Lemma calm_sync conf w c : is_sync c = true -> calm w (perform conf c).
Proof. destruct c; cbn [perform is_sync]; intros Hs; try done; calm. Qed.

(** ** Effects *)

(** Event [i], of thread [p], is being registered. *)
Record at_ev (p i : Z) (s : TSOTraceBuilder) : Prop := {
  at_dry : dryrun s = false;
  at_idx : prefix_idx s = i;
  at_pid : pid_of (view s) i = Some p;
  at_lfmc : last_full_memory_conflict s <= i;
}.

(** Runs whose result is in [P] transform the abstract state by [f]. *)
Definition effect {A} (P : A -> Prop) (p i : Z) (f : TSO -> TSO) (m : M A) : Prop :=
  forall s a s', at_ev p i s -> m s = Some (a, s') -> P a -> at_ev p i s' /\ abs s' ≡ f (abs s).

Lemma calm_at_ev w p i s s' : calm_state w s s' -> at_ev p i s -> at_ev p i s'.
Proof.
  intros [H1 H2 H3 H4 _ _] [I1 I2 I3 I4]. split; [congruence..| |congruence].
  unfold pid_of in *. cbn [view v_iids] in *. by rewrite H2.
Qed.
Lemma calm_abs s s' : calm_state false s s' -> abs s' ≡ abs s.
Proof. intros [_ _ _ _ H5 H6]. split; [done|]. intros b. by apply H6. Qed.

Section effect.
Context {A B : Type} (P : B -> Prop) (p i : Z) (f : TSO -> TSO) `{!Proper ((≡) ==> (≡)) f}.

Lemma effect_calm (m : M B) : calm false m -> effect P p i id m.
Proof. intros Hm s a s' Hat Hr _. split; [by eapply calm_at_ev; [eapply Hm|]|]. eapply calm_abs, Hm, Hr. Qed.
Lemma effect_first (m : M A) (k : A -> M B) : calm false m -> (forall a, effect P p i f (k a)) -> effect P p i f (m ≫= k).
Proof.
  intros Hm Hk s b s' Hat (a & s1 & H1 & H2)%run_bind HP. destruct (Hk a s1 b s') as [H3 H4]; [|done|done|].
  - eapply calm_at_ev; [by eapply Hm|done].
  - split; [done|]. by rewrite H4, (calm_abs s s1) by (by eapply Hm).
Qed.
Lemma effect_first_value (V : A -> Prop) (m : M A) (k : A -> M B) : calm false m -> (forall s a s', m s = Some (a, s') -> V a) ->
  (forall a, V a -> effect P p i f (k a)) -> effect P p i f (m ≫= k).
Proof.
  intros Hm HV Hk s b s' Hat (a & s1 & H1 & H2)%run_bind HP. destruct (Hk a (HV _ _ _ H1) s1 b s') as [H3 H4]; [|done|done|].
  - eapply calm_at_ev; [by eapply Hm|done].
  - split; [done|]. by rewrite H4, (calm_abs s s1) by (by eapply Hm).
Qed.
Lemma effect_last (m : M A) (k : A -> M B) : effect (fun _ => True) p i f m -> (forall a, calm false (k a)) -> effect P p i f (m ≫= k).
Proof.
  intros Hm Hk s b s' Hat (a & s1 & H1 & H2)%run_bind HP. destruct (Hm s a s1) as [H3 H4]; [done..|].
  pose proof (Hk a _ _ _ H2) as Hc. split; [by eapply calm_at_ev|]. by rewrite (calm_abs s1 s').
Qed.
Lemma effect_seq g (m : M A) (k : A -> M B) : effect (fun _ => True) p i g m -> (forall a, effect P p i f (k a)) ->
  effect P p i (fun A => f (g A)) (m ≫= k).
Proof.
  intros Hm Hk s b s' Hat (a & s1 & H1 & H2)%run_bind HP. destruct (Hm s a s1) as [H3 H4]; [done..|].
  destruct (Hk a s1 b s') as [H5 H6]; [done..|]. split; [done|]. by rewrite H6, H4.
Qed.
Lemma effect_dry (x y : M B) : effect P p i f y -> effect P p i f (dry ← gets dryrun; if dry : bool then x else y).
Proof. intros Hy s b s' Hat (d & s1 & [= <- <-] & H)%run_bind HP. rewrite (at_dry _ _ _ Hat) in H. by eapply Hy. Qed.
Lemma effect_idx (k : Z -> M B) : effect P p i f (k i) -> effect P p i f (j ← gets prefix_idx; k j).
Proof. intros Hk s b s' Hat (j & s1 & [= <- <-] & H)%run_bind HP. rewrite (at_idx _ _ _ Hat) in H. by eapply Hk. Qed.
Lemma effect_curpid (k : Z -> M B) : effect P p i f (k p) -> effect P p i f (q ← curpid; k q).
Proof.
  intros Hk s b s' Hat (q & s1 & Hq & H)%run_bind HP.
  apply run_bind in Hq as (e & s2 & (j & s3 & Hj & [He ->]%run_pfx)%run_bind & [= <- <-]).
  assert (j = i /\ s3 = s) as [-> ->].
  { revert Hj. unfold cur_idx, mbind, M_bind, gets, massert, lift, pfx_len, cassert. cbn.
    do 2 (case_bool_decide; cbn; [|done]). intros [= <- <-]. by rewrite (at_idx _ _ _ Hat). }
  pose proof (at_pid _ _ _ Hat) as Hp. unfold pid_of in Hp. cbn [view v_iids] in Hp. rewrite zget_map, He in Hp.
  injection Hp as Hp. rewrite Hp in H. by eapply Hk.
Qed.
End effect.

Lemma effect_and p i f `{!Proper ((≡) ==> (≡)) f} m k : calm false m -> effect (eq true) p i f k -> effect (eq true) p i f (and_then m k).
Proof.
  intros Hm Hk. apply effect_first; [done|done|]. intros []; [done|]. by intros s a s' _ [= <- _] [=].
Qed.
Lemma effect_equiv {A} (P : A -> Prop) p i f g (m : M A) : (forall A, f A ≡ g A) -> effect P p i f m -> effect P p i g m.
Proof. intros Hfg Hm s a s' Hat Hr HP. destruct (Hm s a s' Hat Hr HP) as [? Hf]. by rewrite Hf. Qed.

(** The walk of [calm], up to the first step with an effect of its own. *)
Ltac effect_step :=
  cbv beta zeta; first
    [ apply effect_dry | apply effect_idx | apply effect_curpid
    | apply effect_and; [apply _|solve [calm]|]
    | apply effect_first; [apply _|solve [calm]|intros ?]
    | lazymatch goal with |- effect _ _ _ _ (match ?x with pair _ _ => _ end) => destruct x end ].
Ltac effect := repeat effect_step.

(** *** Memory *)

Lemma effect_mem_put p i b m : last_update m = i -> effect (fun _ => True) p i (write_byte b i) (mem_put b m).
Proof.
  intros Hm s a s' Hat [= <- <-] _. destruct Hat as [H1 H2 H3 H4]. split; [by split|]. split; [done|]. intros b'. cbn.
  unfold writer_at. cbn [mem set_mem last_full_memory_conflict]. rewrite map_lookup_insert.
  case_decide as Hb; [|by rewrite decide_False by congruence]. rewrite decide_True by done. lia.
Qed.

(** The bytes of a range, one after the other. *)
Definition write_list (bs : list SymAddr) (i : Z) (A : TSO) : TSO :=
  MkTSO (pending A) (fun b => if decide (b ∈ bs) then i else writer A b).
#[export] Instance write_list_proper bs i : Proper ((≡) ==> (≡)) (write_list bs i).
Proof. intros A B [H1 H2]. split; [done|]. intros b'. cbn. by rewrite H2. Qed.
Lemma effect_loop {St} p i bs (body : SymAddr -> St -> M St) st :
  (forall b st, effect (fun _ => True) p i (write_byte b i) (body b st)) ->
  effect (fun _ => True) p i (write_list bs i) (loop bs body st).
Proof.
  intros Hb. revert st. induction bs as [|b bs IH]; intros st; cbn [loop].
  - eapply effect_equiv; [|by apply effect_calm; calm]. intros A. split; [done|]. intros b. cbn.
    by rewrite decide_False by apply not_elem_of_nil.
  - eapply (effect_equiv _ _ _ (fun A => write_list bs i (write_byte b i A))).
    + intros A. split; [done|]. intros b'. cbn. destruct (decide (b' ∈ b :: bs)) as [[->|Hin]%elem_of_cons|Hin].
      * case_decide; [done|]. by rewrite decide_True.
      * by rewrite decide_True.
      * apply not_elem_of_cons in Hin as [Hne Hin]. by rewrite !decide_False.
    + apply (effect_seq _ _ _ (write_list bs i)); [done|intros st'; apply IH].
Qed.
Lemma effect_each_byte {St} p i ml (body : SymAddr -> St -> M St) st : sas_ok ml ->
  (forall b st, effect (fun _ => True) p i (write_byte b i) (body b st)) ->
  effect (fun _ => True) p i (write ml i) (each_byte ml body st).
Proof.
  intros Hml Hb. destruct (sas_bytes_ok ml Hml) as (bs & Hbs & _ & Hin).
  apply (effect_equiv _ _ _ (write_list bs i)).
  - intros A. split; [done|]. intros b. cbn. specialize (Hin b).
    destruct (in_range ml b); case_decide; [done|naive_solver..|done].
  - unfold each_byte. rewrite Hbs. apply effect_first_value with (V := fun l => l = bs); [apply _|calm| |].
    + by intros s l s' [[= ->] _]%run_lift.
    + intros l ->. by apply effect_loop.
Qed.

Section handlers.
Context (conf : Configuration) (p i : Z).

Lemma effect_atomic_store_byte ml ipid b st : effect (fun _ => True) p i (write_byte b i) (atomic_store_byte conf ml ipid b st).
Proof.
  unfold atomic_store_byte. do 8 effect_step. cbv zeta. apply effect_first_value with (V := fun m => last_update m = i); [apply _|calm| |].
  - intros s m s'. repeat case_match; first [by intros [= <- _]|by intros (lr & s1 & _ & [= <- _])%run_bind].
  - intros m Hm. apply effect_last; [by apply effect_mem_put|intros ?; calm].
Qed.
Lemma effect_atomic_rmw_byte ml action ipid b st : effect (fun _ => True) p i (write_byte b i) (atomic_rmw_byte conf ml action ipid b st).
Proof.
  unfold atomic_rmw_byte, register_update. effect. apply effect_last; [|intros ?; calm]. effect.
  apply effect_last; [by apply effect_mem_put|intros ?; calm].
Qed.

(** A load touches the entry of a byte, but not its last update. *)
Lemma observe_memory_update b m seen pairs upd s o s' :
  observe_memory conf b m seen pairs upd s = Some (o, s') -> last_update o.1 = last_update m.
Proof.
  unfold observe_memory. intros (q & s1 & _ & H)%run_bind. cbv zeta in H.
  apply run_bind in H as (r & s2 & H2 & (u & s3 & _ & [= <- _])%run_bind). revert H2.
  case_decide; [|by intros [= <- _]]. intros (e & s4 & _ & (seen' & s5 & _ & (obs & s6 & _ & Hr)%run_bind)%run_bind)%run_bind.
  destruct obs; [by apply run_bind in Hr as (? & ? & _ & [= <- _])|]. destruct upd.
  - apply run_bind in Hr as (? & ? & _ & Hr). cbv zeta in Hr. by apply run_bind in Hr as (? & ? & _ & [= <- _]).
  - by apply run_bind in Hr as (? & ? & _ & [= <- _]).
Qed.
Lemma writer_mem_put s s' b m u : mem_put b m s = Some (u, s') -> writer_at s b = Z.max (last_full_memory_conflict s) (last_update m) ->
  calm_state false s s'.
Proof.
  intros [= _ <-] Hw. split; try done. intros _ b'. unfold writer_at in *. cbn [mem set_mem last_full_memory_conflict].
  rewrite map_lookup_insert. case_decide; [subst|done]. by rewrite Hw.
Qed.
Lemma calm_load_byte ml ipid b st : calm false (load_byte conf ml ipid b st).
Proof.
  intros s r s'. unfold load_byte. intros (m & s1 & Hm & H)%run_bind. cbv zeta in H.
  apply run_bind in H as (u & s2 & H2 & (o & s3 & H3 & (j & s4 & [= <- <-] & (lr & s5 & [_ ->]%run_lift & H5)%run_bind)%run_bind)%run_bind).
  apply run_bind in H5 as (u6 & s6 & H6 & H7). pose proof (calm_mem_get false b _ _ _ Hm) as C1.
  calm_run H2.
  pose proof (calm_observe_memory conf false _ _ _ _ _ _ _ _ H3) as C3.
  calm_run H7. etrans; [exact C1|]. etrans; [exact H2|]. etrans; [exact C3|]. etrans; [|exact H7].
  eapply writer_mem_put; [exact H6|]. cbn [last_update set_last_read]. rewrite (observe_memory_update _ _ _ _ _ _ _ _ H3).
  rewrite (cm_writer _ _ _ C3), (cm_writer _ _ _ H2) by done. rewrite (cm_lfmc _ _ _ C3), (cm_lfmc _ _ _ H2).
  unfold writer_at. f_equal. unfold mem_get in Hm. apply run_bind in Hm as (ms & s0 & [= <- <-] & Hm). cbv zeta in Hm.
  apply run_bind in Hm as ([] & s7 & [= <-] & [= <- <-]). cbn [mem set_mem].
  destruct (map_index ByteInfo_new (mem s) b) as [m ms] eqn:E. apply map_index_lookup in E as [_ E].
  cbn [fst snd]. by rewrite E, decide_True.
Qed.
Lemma calm_each_load_byte ml ipid st : calm false (each_byte ml (load_byte conf ml ipid) st).
Proof. unfold each_byte. apply always_bind; [apply _|calm|]. intros bs. apply always_loop; [apply _..|]. intros. apply calm_load_byte. Qed.
#[local] Hint Resolve calm_each_load_byte : calm.

Lemma pend_set_rowe sb k ps i' : sb !! k = Some ps ->
  map (fun ps => (ps_ml ps, ps_store_event ps)) (<[k := set_ps_last_rowe i' ps]> sb) = map (fun ps => (ps_ml ps, ps_store_event ps)) sb.
Proof. intros Hk. rewrite list_fmap_insert. apply list_insert_id. by rewrite list_lookup_fmap, Hk. Qed.
Lemma calm_do_load ml : calm false (do_load conf ml).
Proof.
  intros s a s'. unfold do_load. intros (d & s0 & [= <- <-] & H)%run_bind. destruct (dryrun s).
  { by calm_run H. }
  apply run_bind in H as (u & s1 & H1 & (q & s2 & H2 & (t & s3 & H3 & (j & s4 & [= <- <-] & H)%run_bind)%run_bind)%run_bind).
  calm_run H1. calm_run H2. etrans; [exact H1|]. etrans; [exact H2|].
  apply run_bind in H3 as (ts & s4 & [= <- <-] & [Ht ->]%run_lift). apply run_bind in H as (r & s5 & [_ ->]%run_lift & H).
  destruct r as [k|]; [|by calm_run H].
  apply run_bind in H as (ps & s5 & [Hk ->]%run_lift & (sb & s6 & [Hsb ->]%run_lift & H)%run_bind).
  apply run_thread_upd in H as (t' & Ht' & ->). rewrite Ht in Ht'. injection Ht' as <-.
  eapply calm_put_thread; [exact Ht|]. unfold vset in Hsb. case_decide; [|done]. injection Hsb as <-. by apply pend_set_rowe.
Qed.
#[local] Hint Resolve calm_do_load : calm.

Lemma calm_load ml : calm false (load conf ml).
Proof. calm. Qed.

(** *** Store buffers *)

Lemma effect_thread_upd q f g s u s' : at_ev p i s -> (forall t, pend_of (f t) = g (pend_of t)) -> thread_upd q f s = Some (u, s') ->
  at_ev p i s' /\ abs s' ≡ MkTSO (alter g (Z.to_nat q) (pending (abs s))) (writer (abs s)).
Proof.
  intros Hat Hfg (t & Ht & ->)%run_thread_upd. split; [by destruct Hat|]. split; [|done]. cbn.
  unfold zget in Ht. case_decide; [|done]. rewrite list_fmap_insert, Hfg.
  by erewrite alter_insert by (by rewrite list_lookup_fmap, Ht).
Qed.
Lemma effect_store sd : effect (eq true) p i (enqueue p (sdr_ref sd, i)) (TSOHandlers.store sd).
Proof.
  unfold TSOHandlers.store. effect. apply effect_last; [|intros ?; calm].
  intros s u s' Hat Hr _. eapply effect_thread_upd; [done| |exact Hr]. intros t. unfold pend_of. simpl. by rewrite map_app.
Qed.

Lemma pop_front_Some sb sb' : pop_front sb = Some sb' -> sb' = tail sb.
Proof. destruct sb as [|ps sb]; [done|]. rewrite pop_front_tail. by intros [= <-]. Qed.
Lemma rem_even q : Z.rem q 2 = 0 <-> Z.even q = true.
Proof.
  rewrite Z.even_spec. split; [|by intros [k ->]; rewrite Z.mul_comm, Z.rem_mul].
  intros Hr. exists (Z.quot q 2). pose proof (Z.quot_rem' q 2). lia.
Qed.

Definition pop_pending (tipid uipid : Z) : M unit :=
  t ← thread tipid; sb ← lift (pop_front (store_buffer t)); _ ← thread_upd tipid (set_store_buffer sb);
  when (bool_decide (sb = [])) (thread_upd uipid (set_available false)).
Lemma effect_pop q r : effect (fun _ => True) p i (dequeue q) (pop_pending q r).
Proof.
  intros s u s' Hat H _. apply run_bind in H as (t & s1 & (ts & s2 & [= <- <-] & [Ht ->]%run_lift)%run_bind & H).
  apply run_bind in H as (sb & s1 & [Hsb%pop_front_Some ->]%run_lift & (v & s1 & H1 & H2)%run_bind). subst sb.
  calm_run H2. rename H2 into Hc.
  apply run_thread_upd in H1 as (t' & Ht' & ->). rewrite Ht in Ht'. injection Ht' as <-.
  split; [by eapply calm_at_ev; [exact Hc|destruct Hat]|]. rewrite (calm_abs _ _ Hc). split; [|done]. cbn.
  unfold zget in Ht. case_decide; [|done]. rewrite list_fmap_insert.
  erewrite alter_insert by (by rewrite list_lookup_fmap, Ht). f_equal. unfold pend_of. cbn. by destruct (store_buffer t).
Qed.

Lemma effect_do_atomic_store sd : sas_ok (sdr_ref sd) ->
  effect (fun _ => True) p i (commit p i (sdr_ref sd)) (do_atomic_store conf sd).
Proof.
  intros Hml. unfold do_atomic_store. cbv zeta. do 5 effect_step.
  assert (Hp : bool_decide (Z.rem p 2 <> 0) = negb (Z.even p)).
  { destruct (Z.even p) eqn:E; [apply bool_decide_eq_false; intros []; by apply rem_even|].
    apply bool_decide_eq_true. by intros ?%rem_even; rewrite E in *. }
  rewrite Hp. unfold commit. apply (effect_seq _ _ _ (if Z.even p then id else dequeue (p - 1))).
  - apply effect_each_byte; [done|]. intros b st. apply effect_atomic_store_byte.
  - intros st. apply effect_last; [|intros ?; calm]. destruct (Z.even p); [by apply effect_calm; calm|].
    cbn [negb when]. apply effect_pop.
Qed.

Lemma effect_atomic_store sd : sas_ok (sdr_ref sd) -> effect (eq true) p i (commit p i (sdr_ref sd)) (atomic_store conf sd).
Proof. intros Hml. unfold atomic_store. effect_step. apply effect_last; [by apply effect_do_atomic_store|intros ?; calm]. Qed.
Lemma effect_atomic_rmw sd action : sas_ok (sdr_ref sd) -> effect (eq true) p i (write (sdr_ref sd) i) (atomic_rmw conf sd action).
Proof.
  intros Hml. unfold atomic_rmw. do 9 effect_step. apply effect_last; [|intros ?; calm].
  apply effect_each_byte; [done|]. intros b st. apply effect_atomic_rmw_byte.
Qed.
Lemma effect_compare_exchange sd expected success : sas_ok (sdr_ref sd) -> Z.even p = true ->
  effect (eq true) p i (if success : bool then write (sdr_ref sd) i else id) (compare_exchange conf sd expected success).
Proof.
  intros Hml Hp. unfold compare_exchange. destruct success; [|apply effect_calm; calm].
  do 2 effect_step. apply effect_last; [|intros ?; calm]. pose proof (effect_do_atomic_store sd Hml) as He.
  unfold commit in He. by rewrite Hp in He.
Qed.

Definition grow1 (A : TSO) : TSO := MkTSO (pending A ++ [[]]) (writer A).
#[local] Instance grow1_proper : Proper ((≡) ==> (≡)) grow1.
Proof. intros A B [H1 H2]. split; [by cbn; rewrite H1|done]. Qed.
#[local] Instance grow2_proper : Proper ((≡) ==> (≡)) (fun A => grow1 (grow1 A)).
Proof. intros A B HAB. by rewrite HAB. Qed.
Lemma effect_grow1 t : store_buffer t = [] -> effect (fun _ => True) p i grow1 (modify (fun s => set_threads (threads s ++ [t]) s)).
Proof.
  intros Ht s u s' Hat [= _ <-] _. split; [by destruct Hat|]. split; [|done]. cbn. rewrite map_app. cbn. unfold pend_of. by rewrite Ht.
Qed.
Lemma effect_spawn : effect (eq true) p i grow spawn.
Proof.
  apply (effect_equiv _ _ _ (fun A => grow1 (grow1 A))).
  { intros A. split; [|done]. cbn. by rewrite <- app_assoc. }
  unfold spawn. effect.
  apply (effect_seq _ _ _ grow1); [by apply effect_grow1|]. intros u. effect.
  apply effect_last; [by apply effect_grow1|intros ?; calm].
Qed.

(** *** Full memory conflicts *)

Lemma effect_overwrite {A B} (P : B -> Prop) (m : M A) (k : A -> M B) : calm true m ->
  (forall a, effect P p i (write_all i) (k a)) -> effect P p i (write_all i) (m ≫= k).
Proof.
  intros Hm Hk s b s' Hat (a & s1 & H1 & H2)%run_bind HP. apply Hm in H1. destruct (Hk a s1 b s') as [H3 H4]; [|done|done|].
  - by eapply calm_at_ev.
  - split; [done|]. rewrite H4. split; [|done]. apply (cm_pending _ _ _ H1).
Qed.
Lemma effect_clear {A} (P : A -> Prop) (k : unit -> M A) : (forall u, calm false (k u)) ->
  effect P p i (write_all i) (_ ← modify (set_last_full_memory_conflict i);
    _ ← wakeup conf W_ALL_MEMORY (MkSymAddr (MkSymMBlock UINT16_MAX 0) 0); u ← modify (set_mem []); k u).
Proof.
  intros Hk s a s' Hat (u1 & s1 & [= _ <-] & (u2 & s2 & H2 & (u3 & s3 & [= _ <-] & H3)%run_bind)%run_bind)%run_bind _.
  apply Hk in H3. calm_run H2. assert (H0 : 0 <= i).
  { pose proof (at_pid _ _ _ Hat) as Hp. unfold pid_of in Hp. destruct (zget (v_iids (view s)) i) eqn:E; [|done].
    by apply zget_Some in E as [? _]. }
  pose proof (cm_lfmc _ _ _ H2) as Hl. cbn in Hl. split.
  - eapply calm_at_ev; [exact H3|]. destruct (calm_at_ev false p i _ s2 H2) as [I1 I2 I3 I4]; [|by split].
    destruct Hat as [I1 I2 I3 I4]. by split.
  - rewrite (calm_abs _ _ H3). split; [apply (cm_pending _ _ _ H2)|]. intros b. cbn. unfold writer_at. cbn. rewrite Hl. lia.
Qed.
Lemma effect_full_memory_conflict : effect (eq true) p i (write_all i) (full_memory_conflict conf).
Proof.
  unfold full_memory_conflict. do 5 effect_step. repeat (apply effect_overwrite; [solve [calm]|intros ?]).
  apply effect_clear. intros ?. calm.
Qed.

(** ** Every call makes its step *)

Definition access_ok (c : call) : Prop :=
  match c with
  | AtomicStore sd => sas_ok (sdr_ref sd)
  | AtomicRmw sd _ => sas_ok (sdr_ref sd)
  | CompareExchange sd _ _ => sas_ok (sdr_ref sd) /\ Z.even p = true
  | _ => True
  end.

Lemma effect_perform c : access_ok c -> effect (eq true) p i (tso_call p i c) (perform conf c).
Proof.
  intros Hok. destruct (is_sync c) eqn:Hs.
  { replace (tso_call p i c) with (id (A := TSO)) by (by destruct c). by apply effect_calm, calm_sync. }
  destruct c as [| |sd|sd|sd action|sd expected success|ml| | | | | | | | | | | | | | |]; try done; cbn [perform tso_call access_ok] in *.
  - apply effect_spawn.
  - apply effect_store.
  - by apply effect_atomic_store.
  - by apply effect_atomic_rmw.
  - destruct Hok as [Hml Hp]. pose proof (effect_compare_exchange sd expected success Hml Hp) as He. by destruct success.
  - apply effect_calm, calm_load.
  - apply effect_full_memory_conflict.
Qed.
End handlers.

(** ** Scheduling leaves the memory alone *)

Definition same_abs (s s' : TSOTraceBuilder) : Prop := abs s' ≡ abs s.
#[export] Instance same_abs_reflexive : Reflexive same_abs.
Proof. intros s. unfold same_abs. reflexivity. Qed.
#[export] Instance same_abs_transitive : Transitive same_abs.
Proof. intros s1 s2 s3 H1 H2. unfold same_abs in *. by rewrite H2, H1. Qed.

Lemma calm_same_abs {A} (m : M A) : calm false m -> always same_abs m.
Proof. intros Hm s a s' Hr. by eapply calm_abs, Hm. Qed.
Lemma same_abs_put_thread p u t s : zget (threads s) p = Some t -> pend_of u = pend_of t ->
  same_abs s (set_threads (<[Z.to_nat p := u]> (threads s)) s).
Proof. intros Ht Hu. by eapply calm_abs, calm_put_thread. Qed.

Ltac same_abs := always_walk ltac:(fun _ => first
  [ apply always_modify; intros; by split
  | apply always_thread_upd; intros; eapply same_abs_put_thread; [eassumption|done]
  | apply always_pfx_upd; intros; by split | apply always_curev_upd; intros; by split ]).

Lemma same_abs_push_event p : always same_abs (push_event p).
Proof. same_abs. Qed.
Lemma same_abs_schedule conf : always same_abs (schedule conf).
Proof. same_abs. Qed.
Lemma same_abs_refuse_schedule : always same_abs refuse_schedule.
Proof. same_abs. Qed.
Lemma same_abs_mark_available p aux : always same_abs (mark_available p aux).
Proof. same_abs. Qed.
Lemma same_abs_mark_unavailable p aux : always same_abs (mark_unavailable p aux).
Proof. same_abs. Qed.
Lemma same_abs_mutex_lock_fail conf ml : always same_abs (mutex_lock_fail conf ml).
Proof. apply calm_same_abs. calm. Qed.
