(* ===== verification/TSORun.v ===== *)
(** * TSORun: whole executions of the TSO trace builder keep its invariant

    The interpreter schedules a thread, registers what the instruction does with
    at most one call, and schedules again. [settled] is the invariant between
    instructions, [at_event] the state in which a call may be made. *)

From S2P Require Import Prelude StdMap VecSet CPid SymAddr ByteOps SymEv ReplayMem WakeupTree TSOState TSOOps.
From S2P Require Import TSOHandlers TSOSched TSOInv TSOMem TSOSync TSOKeeps.

Local Open Scope Z_scope.

(** ** Adding and removing the last event *)

(** No table refers to an event after [c]. *)
Record refs_below (v : View) (c : Z) : Prop := {
  rb_byte : forall b m, (b, m) ∈ v_mem v -> last_update m <= c /\ (forall i, i ∈ last_read m -> i <= c) /\
    (forall i, i ∈ before_unordered m -> i <= c);
  rb_mutex : forall a x, (a, x) ∈ v_mutexes v -> last_access x <= c;
  rb_cond : forall a x, map_lookup (v_conds v) a = Some x -> last_signal x <= c /\ forall i, i ∈ waiters x -> i <= c;
  rb_lfmc : v_lfmc v <= c;
  rb_pending : forall p t ps, zget (v_threads v) p = Some t -> ps ∈ v_buffer t ->
    ps_store_event ps <= c /\ ps_last_rowe ps <= c;
}.

Lemma core_refs v : core_inv v -> refs_below v (v_idx v).
Proof.
  intros Hc. split.
  - intros b m Hm. destruct (ci_mem _ Hc _ _ Hm) as [H1 H2 _ _ [_ H3]].
    split_and!; [apply H1|intros i Hi; by apply H2|intros i Hi; by apply H3].
  - intros a x Hx. apply (mi_access _ _ (ci_mutex _ Hc _ _ Hx)).
  - intros a x Hx. split; [apply (ci_signal _ Hc _ _ Hx)|]. intros i Hi.
    destruct (ci_waiting _ Hc _ _ _ Hx Hi) as (p & [[H1 _] _]). lia.
  - apply (ci_lfmc _ Hc).
  - intros p t ps Ht Hps. destruct (ci_pending _ Hc _ _ _ Ht Hps) as [_ [H1 _] H2]. split; [lia|apply H2].
Qed.
Lemma refs_below_mono v c d : c <= d -> refs_below v c -> refs_below v d.
Proof.
  intros Hcd [H1 H2 H3 H4 H5]. split.
  - intros b m Hm. destruct (H1 b m Hm) as (Hu & Hr & Hb). split_and!; [lia|intros i Hi; specialize (Hr i Hi); lia|].
    intros i Hi. specialize (Hb i Hi). lia.
  - intros a x Hx. specialize (H2 a x Hx). lia.
  - intros a x Hx. destruct (H3 a x Hx) as [Hs Hw]. split; [lia|]. intros i Hi. specialize (Hw i Hi). lia.
  - lia.
  - intros p t ps Ht Hps. destruct (H5 p t ps Ht Hps). lia.
Qed.

(** [v'] is [v] with another trace: what the tables refer to is still there. *)
Record moved (v v' : View) (c : Z) : Prop := {
  mv_tables : v_lfmc v' = v_lfmc v /\ v_mem v' = v_mem v /\ v_mutexes v' = v_mutexes v /\ v_conds v' = v_conds v /\
    v_cps v' = v_cps v;
  mv_len : length (v_threads v') = length (v_threads v);
  mv_thread : forall p t', zget (v_threads v') p = Some t' -> exists t, zget (v_threads v) p = Some t /\
    v_cpid t' = v_cpid t /\ v_available t' = v_available t /\ v_buffer t' = v_buffer t;
  mv_idx : 0 <= v_idx v' < Z.of_nat (length (v_iids v'));
  mv_small : Z.of_nat (length (v_iids v')) <= 2 ^ 31;
  mv_pids : forall i x, v_iids v' !! i = Some x -> 0 <= iid_pid x < Z.of_nat (length (v_threads v));
  mv_refs : refs_below v c;
  mv_below : c <= v_idx v';
  mv_same : forall i, i <= c -> pid_of v' i = pid_of v i;
  mv_indices : forall p t i, zget (v_threads v') p = Some t -> i ∈ v_indices t -> event_of v' i p;
}.

Section moved.
Context (v v' : View) (c : Z) (Hm : moved v v' c) (Hc : core_inv v).

Lemma moved_event i p : i <= c -> event_of v i p -> event_of v' i p.
Proof. intros Hi [Hr Hp]. split; [pose proof (mv_below _ _ _ Hm); lia|]. by rewrite (mv_same _ _ _ Hm). Qed.
Lemma moved_thread p t : zget (v_threads v) p = Some t -> exists t', zget (v_threads v') p = Some t' /\
  v_available t' = v_available t /\ v_buffer t' = v_buffer t.
Proof.
  intros Ht. destruct (zget_lt (v_threads v') p) as [t' Ht'].
  { rewrite (mv_len _ _ _ Hm). by eapply zget_Some. }
  destruct (mv_thread _ _ _ Hm p t' Ht') as (t2 & Ht2 & _ & Ha & Hb). rewrite Ht in Ht2. injection Ht2 as <-. eauto.
Qed.
Lemma moved_byte b m : (b, m) ∈ v_mem v -> byte_inv v' m.
Proof.
  intros Hin. destruct (ci_mem _ Hc _ _ Hin) as [H1 H2 H3 H4 [H5 H6]].
  destruct (rb_byte _ _ (mv_refs _ _ _ Hm) _ _ Hin) as (Hu & Hr & Hb). pose proof (mv_below _ _ _ Hm).
  split; [split; [apply H1|lia]| |done|done|].
  - intros i Hi. split; [by apply H2|]. specialize (Hr i Hi). lia.
  - split; [done|]. intros i Hi. specialize (Hb i Hi). specialize (H6 i Hi). lia.
Qed.
Lemma moved_mutex a x : (a, x) ∈ v_mutexes v -> mutex_inv v' x.
Proof.
  intros Hin. destruct (ci_mutex _ Hc _ _ Hin) as [H1 H2 H3 H4].
  pose proof (rb_mutex _ _ (mv_refs _ _ _ Hm) _ _ Hin). pose proof (mv_below _ _ _ Hm).
  split; [split; [apply H1|lia]|split; [apply H2|lia]|done|done].
Qed.
Lemma moved_waiter a k p : waiter_at v' a k p -> waiter_at v a k p.
Proof.
  destruct (mv_tables _ _ _ Hm) as (_ & _ & _ & Hcs & _).
  intros (x & i & Hx & Hi & Hp). rewrite Hcs in Hx. exists x, i. split_and!; [done|done|].
  rewrite <- (mv_same _ _ _ Hm); [done|]. apply (rb_cond _ _ (mv_refs _ _ _ Hm) _ _ Hx). by eapply list_elem_of_lookup_2.
Qed.
Lemma moved_waiting a x i : map_lookup (v_conds v) a = Some x -> i ∈ waiters x -> exists p, waiting v' i p.
Proof.
  intros Hx Hi. destruct (ci_waiting _ Hc _ _ _ Hx Hi) as (p & Hev & Hp & t & Ht & Hav).
  destruct (moved_thread _ _ Ht) as (t' & Ht' & Hav' & _). exists p. split; [|split; [done|exists t'; split; [done|congruence]]].
  apply moved_event; [|done]. by apply (rb_cond _ _ (mv_refs _ _ _ Hm) _ _ Hx).
Qed.
Lemma moved_pending p t ps : zget (v_threads v') p = Some t -> ps ∈ v_buffer t -> pending_inv v' p ps.
Proof.
  intros Ht Hps. destruct (mv_thread _ _ _ Hm _ _ Ht) as (t0 & Ht0 & _ & _ & Hb). rewrite Hb in Hps.
  destruct (ci_pending _ Hc _ _ _ Ht0 Hps) as [H1 H2 H3].
  destruct (rb_pending _ _ (mv_refs _ _ _ Hm) _ _ _ Ht0 Hps). pose proof (mv_below _ _ _ Hm).
  split; [done|by apply moved_event|split; [apply H3|lia]].
Qed.

Lemma core_move : core_inv v'.
Proof.
  destruct (mv_tables _ _ _ Hm) as (Hl & Hme & Hmu & Hco & Hcp). pose proof (mv_below _ _ _ Hm) as Hbel.
  split; try (rewrite ?Hme, ?Hmu, ?Hco, ?Hcp, ?(mv_len _ _ _ Hm)); try apply Hm.
  - apply Hc.
  - apply moved_pending.
  - intros p t Ht Hp. destruct (mv_thread _ _ _ Hm _ _ Ht) as (t0 & Ht0 & _ & _ & ->). by apply (ci_odd _ Hc p).
  - intros p t u Hp Ht Hu. destruct (mv_thread _ _ _ Hm _ _ Ht) as (t0 & Ht0 & _ & _ & ->).
    destruct (mv_thread _ _ _ Hm _ _ Hu) as (u0 & Hu0 & _ & -> & _). by apply (ci_aux _ Hc p).
  - intros b m. apply moved_byte.
  - rewrite Hl. split; [apply (ci_lfmc _ Hc)|]. pose proof (rb_lfmc _ _ (mv_refs _ _ _ Hm)). lia.
  - intros a x. apply moved_mutex.
  - intros a x Hx. pose proof (ci_signal _ Hc _ _ Hx). destruct (rb_cond _ _ (mv_refs _ _ _ Hm) _ _ Hx). lia.
  - intros a x i. apply moved_waiting.
  - intros a k a' k' p H1%moved_waiter H2%moved_waiter. by apply (ci_waiters _ Hc a k a' k' p).
  - apply Hc.
  - intros p t Ht Hp. destruct (mv_thread _ _ _ Hm _ _ Ht) as (t0 & Ht0 & -> & _). by apply (ci_cpids _ Hc p).
Qed.
End moved.

(** ** Between instructions *)

Definition last_event_of (s : TSOTraceBuilder) (i p : Z) : Prop :=
  pid_of (view s) i = Some p /\ forall j, i < j -> pid_of (view s) j <> Some p.

(** Event [i] can be merged into its predecessor, as [should_merge] asks of the
    last event. *)
Definition mergeable (s : TSOTraceBuilder) (i : Z) : Prop :=
  0 < i /\ exists e f b, zget (events (prefix s)) i = Some e /\ zget (events (prefix s)) (i - 1) = Some f /\
    iid_pid (iid e) = iid_pid (iid f) /\ may_conflict e = false /\ sleep e = [] /\
    siblings (prefix s) (Z.to_nat i) = Some [b].

Section run.
Context (conf : Configuration) (Hchecks : check_conflicts conf = false).

Record settled (s : TSOTraceBuilder) : Prop := {
  se_inv : inv conf s;
  se_top : prefix_idx s + 1 = Z.of_nat (length (events (prefix s)));
  se_leaf : wnode (wtree (prefix s)) (replicate (length (events (prefix s))) 0%nat) = Some (WNode []);
  se_flags : has_vclocks s = false /\ replay s = false /\ dryrun s = false;
  se_local : forall i e, zget (events (prefix s)) i = Some e -> may_conflict e = false ->
    sym e = [] /\ ev_wakeup e = [] /\ exists b l, siblings (prefix s) (Z.to_nat i) = Some (b :: l) /\ b_sym b = [];
  se_refs : exists c, refs_below (view s) c /\ -1 <= c <= prefix_idx s /\
    (0 <= c -> exists e, zget (events (prefix s)) c = Some e /\ may_conflict e = true) /\
    (forall i e x, zget (events (prefix s)) i = Some e -> x ∈ happens_after_later e -> x <= c);
  se_index : forall i p t, last_event_of s i p -> zget (threads s) p = Some t -> vback (event_indices t) = Some i;
  se_merge : forall i, mergeable s i -> i = prefix_idx s /\ exists p t rest, pid_of (view s) i = Some p /\
    zget (threads s) p = Some t /\ event_indices t = rest ++ [i] /\ i ∉ rest;
}.

Lemma kept_back q s s' i e' : kept_state q s s' -> zget (events (prefix s')) i = Some e' ->
  exists e, zget (events (prefix s)) i = Some e /\ kept q (prefix_idx s) i e e'.
Proof.
  intros Hk He'. destruct (zget_lt (events (prefix s)) i) as [e He].
  { rewrite <- (ks_len _ _ _ Hk). by eapply zget_Some. }
  destruct (ks_event _ _ _ Hk _ _ He) as (e2 & He2 & Hke). rewrite He' in He2. injection He2 as <-. eauto.
Qed.
Lemma kept_pid q s s' i : kept_state q s s' -> pid_of (view s') i = pid_of (view s) i.
Proof.
  intros Hk. unfold pid_of. simpl. rewrite !zget_map.
  destruct (zget (events (prefix s)) i) as [e|] eqn:He.
  - destruct (ks_event _ _ _ Hk _ _ He) as (e' & -> & Hi & _). simpl. by rewrite Hi.
  - destruct (zget (events (prefix s')) i) as [e'|] eqn:He'; [|done].
    destruct (kept_back _ _ _ _ _ Hk He') as (e & He2 & _). by rewrite He in He2.
Qed.
Lemma kept_siblings q s s' i : kept_state q s s' -> siblings (prefix s') i = siblings (prefix s) i.
Proof. intros Hk. unfold siblings. by rewrite (ks_tree _ _ _ Hk). Qed.
Lemma kept_mergeable q s s' i : kept_state q s s' -> mergeable s' i -> mergeable s i.
Proof.
  intros Hk (Hi & e' & f' & b & He' & Hf' & Hp & Hmc & Hsl & Hsib). split; [done|].
  destruct (kept_back _ _ _ _ _ Hk He') as (e & He & Hie & Hse & Hme & _).
  destruct (kept_back _ _ _ _ _ Hk Hf') as (f & Hf & Hif & _). exists e, f, b.
  rewrite <- (kept_siblings _ _ _ _ Hk). split_and!; try congruence. destruct (may_conflict e); [|done].
  by rewrite (Hme eq_refl) in Hmc.
Qed.
Lemma kept_thread_back q s s' p t' : kept_state q s s' -> is_Some (zget (threads s) p) -> zget (threads s') p = Some t' ->
  exists t, zget (threads s) p = Some t /\ event_indices t' = event_indices t.
Proof.
  intros Hk [t Ht] Ht'. destruct (ks_thread _ _ _ Hk _ _ Ht) as (t2 & Ht2 & He). rewrite Ht' in Ht2.
  injection Ht2 as <-. eauto.
Qed.
Lemma pid_thread s i p : core_inv (view s) -> pid_of (view s) i = Some p -> is_Some (zget (threads s) p).
Proof.
  intros Hc. unfold pid_of. destruct (zget (v_iids (view s)) i) as [x|] eqn:Hx; [|done]. intros [= <-].
  unfold zget in Hx. case_decide; [|done]. pose proof (ci_pids _ Hc _ _ Hx) as Hlt. simpl in Hlt.
  rewrite length_map in Hlt. destruct (zget_lt (threads s) (iid_pid x)) as [t Ht]; [done|by eexists].
Qed.

(** A call settles: either it marks the current event, or it is quiet and
    leaves the tables alone. *)
Lemma settled_kept q s s' : settled s -> kept_state q s s' -> inv conf s' ->
  (marked s' \/ q = true /\ forall c, refs_below (view s) c -> refs_below (view s') c) -> settled s'.
Proof.
  intros Hs Hk Hinv Hor. pose proof (inv_core _ _ (se_inv _ Hs)) as Hc. split.
  - done.
  - rewrite (ks_idx _ _ _ Hk), (ks_len _ _ _ Hk). apply Hs.
  - rewrite (ks_tree _ _ _ Hk), (ks_len _ _ _ Hk). apply Hs.
  - destruct (ks_flags _ _ _ Hk) as (-> & -> & ->). apply Hs.
  - intros i e' He' Hmc'. destruct (kept_back _ _ _ _ _ Hk He') as (e & He & Hie & Hse & Hme & Hrest).
    destruct (decide (q = true \/ i <> prefix_idx s)) as [Hq|Hq].
    + destruct (Hrest Hq) as (Hm & Hw & _ & Hsy). rewrite Hm in Hmc'. destruct (se_local _ Hs _ _ He Hmc') as (H1 & H2 & H3).
      rewrite (kept_siblings _ _ _ _ Hk). split_and!; [auto|congruence|done].
    + exfalso. destruct Hor as [(x & Hx & Hmx)|[? _]]; [|tauto]. rewrite (ks_idx _ _ _ Hk) in Hx.
      destruct (decide (i = prefix_idx s)) as [->|]; [|tauto]. rewrite He' in Hx. injection Hx as <-. congruence.
  - destruct Hor as [(x & Hx & Hmx)|[-> Hv]].
    + exists (prefix_idx s'). pose proof (inv_idx conf _ Hinv). split; [by apply (core_refs (view s')), Hinv|].
      split; [lia|]. split; [by eauto|]. intros i e y He Hy.
      destruct (eo_bound _ _ (event_ok_elem _ _ _ (inv_ax _ _ Hinv) He) y Hy). done.
    + destruct (se_refs _ Hs) as (c & Href & Hle & Hmk & Hlater). exists c. rewrite (ks_idx _ _ _ Hk). split_and!; [by apply Hv|lia|lia| |].
      * intros Hc0. destruct (Hmk Hc0) as (e & He & Hm). destruct (ks_event _ _ _ Hk _ _ He) as (e' & He' & _ & _ & Hme & _). eauto.
      * intros i e' y He' Hy. destruct (kept_back _ _ _ _ _ Hk He') as (e & He & _ & _ & _ & Hrest).
        destruct Hrest as (_ & _ & Hl & _); [by left|]. rewrite Hl in Hy. by eapply Hlater.
  - intros i p t' [Hp Hno] Ht'. rewrite (kept_pid _ _ _ _ Hk) in Hp.
    destruct (kept_thread_back _ _ _ _ _ Hk (pid_thread _ _ _ Hc Hp) Ht') as (t & Ht & ->).
    eapply (se_index _ Hs); [|done]. split; [done|]. intros j Hj. rewrite <- (kept_pid _ _ _ _ Hk). by apply Hno.
  - intros i Hi%(kept_mergeable _ _ _ _ Hk). destruct (se_merge _ Hs i Hi) as (-> & p & t & rest & Hp & Ht & Hrest & Hno).
    split; [symmetry; apply Hk|]. destruct (ks_thread _ _ _ Hk _ _ Ht) as (t' & Ht' & Heq).
    exists p, t', rest. rewrite (kept_pid _ _ _ _ Hk). split_and!; [done|done|congruence|done].
Qed.

(** ** Scheduling a new event *)

(** A state in which a new event may be pushed. *)
Record ready (s : TSOTraceBuilder) : Prop := {
  rd_buf : buf_inv (prefix s);
  rd_idx : -1 <= prefix_idx s;
  rd_top : prefix_idx s + 1 = Z.of_nat (length (events (prefix s)));
  rd_leaf : wnode (wtree (prefix s)) (replicate (length (events (prefix s))) 0%nat) = Some (WNode []);
  rd_flags : has_vclocks s = false /\ replay s = false /\ dryrun s = false;
  rd_local : forall i e, zget (events (prefix s)) i = Some e -> may_conflict e = false ->
    sym e = [] /\ ev_wakeup e = [] /\ exists b l, siblings (prefix s) (Z.to_nat i) = Some (b :: l) /\ b_sym b = [];
  rd_refs : exists c, refs_below (view s) c /\ -1 <= c <= prefix_idx s /\
    (0 <= c -> exists e, zget (events (prefix s)) c = Some e /\ may_conflict e = true) /\
    (forall i e x, zget (events (prefix s)) i = Some e -> x ∈ happens_after_later e -> x <= c);
  rd_index : forall i p t, last_event_of s i p -> zget (threads s) p = Some t -> vback (event_indices t) = Some i;
  rd_indices : forall p t i, zget (threads s) p = Some t -> i ∈ event_indices t -> 0 <= i <= prefix_idx s;
  rd_merge : forall i, ~ mergeable s i;
}.

Lemma settled_ready s : settled s -> (forall i, ~ mergeable s i) -> ready s.
Proof.
  intros Hs Hm. pose proof (inv_idx conf _ (se_inv _ Hs)). split; try apply Hs; [lia| |done].
  intros p t i Ht Hi. apply (ci_indices _ (inv_core _ _ (se_inv _ Hs)) p (tview t) i); [by apply zget_tview|done].
Qed.

(** The state after [push_event p]: the new event is local, of size one, and
    nothing refers to it but the list of its thread. *)
Record at_event (s : TSOTraceBuilder) (p : Z) : Prop := {
  ae_settled : settled s;
  ae_running : running conf s p;
  ae_event : exists e, zget (events (prefix s)) (prefix_idx s) = Some e /\ may_conflict e = false /\ sleep e = [];
  ae_branch : siblings (prefix s) (Z.to_nat (prefix_idx s)) = Some [Branch_new p];
  ae_thread : exists t rest, zget (threads s) p = Some t /\ available t = true /\ sleeping t = false /\
    event_indices t = rest ++ [prefix_idx s] /\ (forall i, i ∈ rest -> i < prefix_idx s) /\
    (forall i, pid_of (view s) i = Some p -> i < prefix_idx s ->
       (forall j, i < j < prefix_idx s -> pid_of (view s) j <> Some p) -> vback rest = Some i);
}.

Definition pushed (s : TSOTraceBuilder) (p : Z) (t : Thread) (b : Buffer (Branch := Branch) (Event := Event)) : TSOTraceBuilder :=
  set_prefix b (set_threads (<[Z.to_nat p := set_event_indices (event_indices t ++ [prefix_idx s + 1]) t]> (threads s))
    (set_prefix_idx (prefix_idx s + 1) s)).
Definition new_event_of (p : Z) (t : Thread) : Event := Event_new (MkIID p (last_event_index t + 1)) [].

Lemma branch_eq_refl x : branch_eq x x = true.
Proof. unfold branch_eq. by rewrite !Z.eqb_refl. Qed.

Lemma ready_push s p t : ready s -> exists b, buf_push branch_eq (prefix s) (Branch_new p) (new_event_of p t) = Some b /\
  buf_inv b /\ events b = events (prefix s) ++ [new_event_of p t] /\
  (forall i, (i < length (events (prefix s)))%nat -> siblings b i = siblings (prefix s) i) /\
  siblings b (length (events (prefix s))) = Some [Branch_new p] /\
  wnode (wtree b) (replicate (S (length (events (prefix s)))) 0%nat) = Some (WNode []) /\
  delete_last branch_eq b = Some (prefix s).
Proof.
  intros Hr. destruct (buf_push_spec branch_eq (prefix s) (Branch_new p) (new_event_of p t) branch_eq_refl (rd_buf _ Hr) (rd_leaf _ Hr))
    as (b & Hb & Hinv & Hev & _ & Hdel).
  destruct (buf_push_siblings branch_eq _ _ _ _ Hb (rd_leaf _ Hr)) as (H1 & H2 & H3). by exists b.
Qed.

Lemma zget_app_one {A} (l : list A) x i : zget (l ++ [x]) i = if decide (i = Z.of_nat (length l)) then Some x else zget l i.
Proof.
  unfold zget. case_decide; case_decide; try lia; [|rewrite lookup_app|].
  - subst. rewrite Nat2Z.id. by rewrite lookup_app_r, Nat.sub_diag by lia.
  - destruct (l !! Z.to_nat i) eqn:E; [done|]. destruct (Z.to_nat i - length l)%nat eqn:E2; [|done].
    apply lookup_ge_None in E. lia.
  - done.
Qed.

Lemma wp_push_event s p t (Q : option Choice -> TSOTraceBuilder -> Prop) : ready s -> zget (threads s) (Z.of_nat p) = Some t ->
  (forall b, buf_push branch_eq (prefix s) (Branch_new (Z.of_nat p)) (new_event_of (Z.of_nat p) t) = Some b ->
     Q (Some (MkChoice (proc_of (Z.of_nat p)) (if decide (Z.rem (Z.of_nat p) 2 = 1) then 0 else -1) 0 false))
       (pushed s (Z.of_nat p) t b)) ->
  wp (push_event p) Q s.
Proof.
  intros Hr Ht HQ. set (pid := Z.of_nat p) in *. unfold push_event. fold pid. cbv zeta.
  destruct (ready_push s pid t Hr) as (b & Hb & _). specialize (HQ b Hb).
  apply wp_bind, wp_modify. apply wp_bind. unfold push_event_index. wp_gets.
  eapply wp_thread_upd_raw; [exact Ht|]. wp_gets. unfold pfx_len. wp_gets. cbn [prefix_idx set_prefix_idx set_threads prefix].
  wp_assert; [apply bool_decide_eq_true; apply (rd_top _ Hr)|].
  apply wp_bind. eapply wp_thread.
  { cbn [threads set_threads]. rewrite zget_insert by (by eapply zget_Some). by rewrite decide_True. }
  apply wp_bind. unfold on_prefix. wp_gets. apply wp_bind. eapply wp_lift.
  { cbn [prefix set_threads set_prefix_idx]. rewrite <- Hb. do 2 f_equal. unfold new_event_of, last_event_index. cbn [event_indices set_event_indices].
    do 2 f_equal. rewrite length_app. simpl. lia. }
  apply wp_modify, wp_ret. exact HQ.
Qed.

Section push.
Context (s : TSOTraceBuilder) (p : Z) (t : Thread) (b : Buffer (Branch := Branch) (Event := Event)).
Context (Hr : ready s) (Ht : zget (threads s) p = Some t)
  (Hb : buf_push branch_eq (prefix s) (Branch_new p) (new_event_of p t) = Some b).
Let s' := pushed s p t b.

Lemma pushed_events : events b = events (prefix s) ++ [new_event_of p t].
Proof. destruct (ready_push s p t Hr) as (b' & Hb' & _ & Hev & _). rewrite Hb in Hb'. by injection Hb' as <-. Qed.
Lemma pushed_siblings i : (i < length (events (prefix s)))%nat -> siblings b i = siblings (prefix s) i.
Proof. destruct (ready_push s p t Hr) as (b' & Hb' & _ & _ & Hsib & _). rewrite Hb in Hb'. injection Hb' as <-. apply Hsib. Qed.
Lemma pushed_event i : zget (events b) i = if decide (i = prefix_idx s + 1) then Some (new_event_of p t) else zget (events (prefix s)) i.
Proof. rewrite pushed_events, zget_app_one. by rewrite (rd_top _ Hr). Qed.
Lemma pushed_pid i : pid_of (view s') i = if decide (i = prefix_idx s + 1) then Some p else pid_of (view s) i.
Proof.
  unfold pid_of. cbn [view v_iids prefix s' pushed set_prefix]. rewrite !zget_map, pushed_event. by case_decide.
Qed.
Lemma pushed_thread q : zget (threads s') q =
  if decide (q = p) then Some (set_event_indices (event_indices t ++ [prefix_idx s + 1]) t) else zget (threads s) q.
Proof.
  cbn [threads s' pushed set_prefix set_threads]. rewrite zget_insert by (by eapply zget_Some).
  destruct (decide (q = p)) as [->|]; [by rewrite decide_True|by rewrite decide_False].
Qed.
Lemma pushed_old_event i e : zget (events b) i = Some e -> i <> prefix_idx s + 1 ->
  zget (events (prefix s)) i = Some e /\ (Z.to_nat i < length (events (prefix s)))%nat.
Proof.
  rewrite pushed_event. intros He Hi. rewrite decide_False in He by done. split; [done|]. apply zget_Some in He. lia.
Qed.

Lemma pushed_mergeable i : mergeable s' i -> i = prefix_idx s'.
Proof.
  cbn [prefix_idx s' pushed set_prefix set_threads set_prefix_idx]. intros (Hi & e & f & x & He & Hf & Hp & Hmc & Hsl & Hsib).
  cbn [prefix s' pushed set_prefix] in *. destruct (decide (i = prefix_idx s + 1)) as [|Hne]; [done|exfalso].
  destruct (pushed_old_event _ _ He Hne) as [He' Hlt]. destruct (zget_Some _ _ _ He') as [_ Hlen].
  pose proof (rd_top _ Hr). destruct (pushed_old_event _ _ Hf) as [Hf' _]; [lia|].
  apply (rd_merge _ Hr i). split; [done|]. exists e, f, x. rewrite <- pushed_siblings by done. by split_and!.
Qed.

Lemma pushed_settled : inv conf s' -> settled s'.
Proof.
  intros Hinv. destruct (ready_push s p t Hr) as (b' & Hb' & _ & _ & _ & Hnew & Hleaf & _). rewrite Hb in Hb'. injection Hb' as <-.
  pose proof (rd_top _ Hr) as Htop. pose proof (rd_idx _ Hr) as Hidx.
  split; [done| | |apply Hr| | | |];
    cbn [prefix_idx prefix threads s' pushed set_prefix set_threads set_prefix_idx].
  - rewrite pushed_events, length_app. simpl. lia.
  - rewrite pushed_events, length_app. simpl. by rewrite Nat.add_1_r.
  - intros i e He Hmc. destruct (decide (i = prefix_idx s + 1)) as [->|Hne].
    + rewrite pushed_event, decide_True in He by done. injection He as <-. split; [done|]. split; [done|].
      replace (Z.to_nat (prefix_idx s + 1)) with (length (events (prefix s))) by lia.
      by exists (Branch_new p), [].
    + destruct (pushed_old_event _ _ He Hne) as [He' Hlt]. rewrite pushed_siblings by done. by apply (rd_local _ Hr).
  - destruct (rd_refs _ Hr) as (c & Hc & Hle & Hmk & Hlater). exists c. split_and!; [|lia|lia| |].
    + split; try apply Hc. intros q u ps Hu Hps. cbn [v_threads view] in Hu. rewrite zget_map in Hu.
      fold s' in Hu. rewrite pushed_thread in Hu. case_decide.
      * subst q. simpl in Hu. injection Hu as <-. eapply (rb_pending _ _ Hc p (tview t)); [by apply zget_tview|done].
      * destruct (zget (threads s) q) as [u0|] eqn:Hu0; [|done]. simpl in Hu. injection Hu as <-.
        eapply (rb_pending _ _ Hc q (tview u0)); [by apply zget_tview|done].
    + intros H0. destruct (Hmk H0) as (e & He & Hm). exists e. split; [|done]. rewrite pushed_event, decide_False by lia. done.
    + intros i e y He Hy. rewrite pushed_event in He. case_decide; [injection He as <-; by apply not_elem_of_nil in Hy|].
      by eapply Hlater.
  - intros i q u [Hp Hno] Hu. fold s' in Hu. rewrite pushed_thread in Hu. rewrite pushed_pid in Hp.
    destruct (decide (i = prefix_idx s + 1)) as [->|Hne].
    + injection Hp as <-. rewrite decide_True in Hu by done. injection Hu as <-. simpl.
      unfold vback. by rewrite last_snoc.
    + assert (Hq : q <> p).
      { intros ->. apply (Hno (prefix_idx s + 1)); [|by rewrite pushed_pid, decide_True].
        unfold pid_of in Hp. simpl in Hp. destruct (zget _ i) as [x|] eqn:Hx; [|done]. rewrite zget_map in Hx.
        destruct (zget (events (prefix s)) i) eqn:Hx2; [|done]. apply zget_Some in Hx2. lia. }
      rewrite decide_False in Hu by done. eapply (rd_index _ Hr); [|done]. split; [done|]. intros j Hj.
      specialize (Hno j Hj). rewrite pushed_pid in Hno. case_decide; [|done]. subst j.
      intros Hpid. unfold pid_of in Hpid. simpl in Hpid. rewrite zget_map in Hpid.
      destruct (zget (events (prefix s)) (prefix_idx s + 1)) eqn:Hx2; [|done]. apply zget_Some in Hx2. lia.
  - intros i Hi. pose proof (pushed_mergeable i Hi) as ->. split; [done|].
    exists p, (set_event_indices (event_indices t ++ [prefix_idx s + 1]) t), (event_indices t). fold s'.
    rewrite pushed_thread, decide_True by done. cbn [prefix_idx s' pushed set_prefix set_threads set_prefix_idx].
    fold s'. rewrite pushed_pid, decide_True by done.
    split_and!; [done..|]. intros Hin. pose proof (rd_indices _ Hr _ _ _ Ht Hin). lia.
Qed.

Lemma pushed_at_event : inv conf s' -> sym_idx s = 0%nat -> available t = true -> sleeping t = false ->
  at_event s' p.
Proof.
  intros Hinv Hsym Hav Hsl. pose proof (rd_top _ Hr) as Htop. pose proof (rd_idx _ Hr) as Hidx.
  destruct (ready_push s p t Hr) as (b' & Hb' & _ & _ & _ & Hnew & _). rewrite Hb in Hb'. injection Hb' as <-.
  assert (Hev : zget (events (prefix s')) (prefix_idx s') = Some (new_event_of p t)).
  { cbn [prefix prefix_idx s' pushed set_prefix set_threads set_prefix_idx]. by rewrite pushed_event, decide_True. }
  split.
  - by apply pushed_settled.
  - split; [done|apply (rd_flags _ Hr)|apply (rd_flags _ Hr)| |].
    + intros e He. rewrite Hev in He. injection He as <-. done.
    + split; [apply inv_idx in Hinv; simpl in *; lia|]. rewrite pushed_pid. by rewrite decide_True.
  - by exists (new_event_of p t).
  - cbn [prefix prefix_idx s' pushed set_prefix set_threads set_prefix_idx].
    by replace (Z.to_nat (prefix_idx s + 1)) with (length (events (prefix s))) by lia.
  - exists (set_event_indices (event_indices t ++ [prefix_idx s + 1]) t), (event_indices t).
    rewrite pushed_thread, decide_True by done. cbn [prefix_idx s' pushed set_prefix set_threads set_prefix_idx].
    split_and!; [done..| |].
    + intros i Hi. pose proof (rd_indices _ Hr _ _ _ Ht Hi). lia.
    + intros i Hp Hi Hno. fold s' in Hp, Hno. rewrite pushed_pid, decide_False in Hp by lia. eapply (rd_index _ Hr); [|done].
      split; [done|]. intros j Hj Hpj. pose proof (pushed_pid j) as Hpj'. case_decide.
      * subst. unfold pid_of in Hpj. simpl in Hpj. rewrite zget_map in Hpj.
        destruct (zget (events (prefix s)) (prefix_idx s + 1)) eqn:Hx2; [|done]. apply zget_Some in Hx2. lia.
      * rewrite Hpj in Hpj'. apply (Hno j); [|done]. unfold pid_of in Hpj. simpl in Hpj. rewrite zget_map in Hpj.
        destruct (zget (events (prefix s)) j) eqn:Hx2; [|done]. apply zget_Some in Hx2. lia.
Qed.

Lemma event_ok_later v v' e : v_idx v <= v_idx v' -> event_ok v e -> event_ok v' e.
Proof.
  intros Hle [H1 H2 H3 H4]. split; [done..| |done]. intros i Hi. destruct (H3 i Hi). split; lia.
Qed.

Lemma pushed_aux : aux_inv s -> aux_inv s'.
Proof.
  intros [Ha He Hbi]. split.
  - cbn [threads s' pushed set_prefix set_threads]. apply Forall_insert; [done|].
    destruct (proj1 (Forall_forall _ _) Ha t) as [H1 H2 H3]; [by eapply zget_elem|by split].
  - intros e. cbn [prefix s' pushed set_prefix]. rewrite pushed_events. intros [Hin| ->%list_elem_of_singleton]%elem_of_app.
    + eapply (event_ok_later (view s)); [simpl; lia|by apply He].
    + split; simpl; [constructor|constructor|by intros ? ?%not_elem_of_nil|constructor].
  - destruct (ready_push s p t Hr) as (b' & Hb' & Hbi' & _). rewrite Hb in Hb'. by injection Hb' as <-.
Qed.

Lemma pushed_inv : inv conf s -> Z.of_nat (length (events (prefix s))) < 2 ^ 31 -> inv conf s'.
Proof.
  intros Hinv Hsmall. pose proof (rd_top _ Hr) as Htop. pose proof (inv_idx conf _ Hinv) as H0. split.
  - apply (core_move (view s) _ (prefix_idx s)); [|apply Hinv]. pose proof (inv_core _ _ Hinv) as Hc. split.
    + done.
    + cbn [view v_threads threads s' pushed set_prefix set_threads]. by rewrite !length_map, length_insert.
    + intros q u'. cbn [view v_threads]. rewrite !zget_map. fold s'. rewrite pushed_thread. case_decide.
      * subst q. rewrite Ht. intros [= <-]. by eexists.
      * destruct (zget (threads s) q); [|done]. intros [= <-]. by eexists.
    + cbn [view v_idx v_iids prefix prefix_idx s' pushed set_prefix set_threads set_prefix_idx].
      rewrite pushed_events, length_map, length_app. simpl. lia.
    + cbn [view v_iids prefix s' pushed set_prefix]. rewrite pushed_events, length_map, length_app. simpl. lia.
    + cbn [view v_iids prefix s' pushed set_prefix]. rewrite pushed_events, map_app. intros i x Hx.
      cbn [view v_threads]. rewrite length_map. apply lookup_app_Some in Hx as [Hx|[_ Hx]].
      * pose proof (ci_pids _ Hc i x Hx) as Hp. simpl in Hp. by rewrite length_map in Hp.
      * apply list_lookup_singleton_Some in Hx as [_ <-]. simpl. by eapply zget_Some.
    + by apply core_refs.
    + simpl. lia.
    + intros i Hi. fold s'. by rewrite pushed_pid, decide_False by (simpl in Hi; lia).
    + intros q u i. cbn [view v_threads]. rewrite zget_map. fold s'. rewrite pushed_thread. case_decide.
      * subst q. intros [= <-]. cbn [v_indices tview event_indices set_event_indices].
        intros [Hin| ->%list_elem_of_singleton]%elem_of_app.
        -- destruct (ci_indices _ Hc p (tview t) i) as [Hle Hp]; [by apply zget_tview|done|]. simpl in Hle.
           split; [simpl; lia|]. fold s'. by rewrite pushed_pid, decide_False by lia.
        -- split; [simpl; lia|]. fold s'. by rewrite pushed_pid, decide_True.
      * destruct (zget (threads s) q) as [u0|] eqn:Hu0; [|done]. intros [= <-] Hin.
        destruct (ci_indices _ Hc q (tview u0) i) as [Hle Hp]; [by apply zget_tview|done|]. simpl in Hle.
        split; [simpl; lia|]. fold s'. by rewrite pushed_pid, decide_False by lia.
  - apply pushed_aux, Hinv.
  - intros a m Hm Halg Hlu. change (mem s') with (mem s) in Hm. destruct (inv_obs _ _ Hinv a m Hm Halg Hlu) as (e & He & Hob).
    exists e. split; [|done]. cbn [prefix s' pushed set_prefix]. rewrite pushed_event, decide_False; [done|].
    apply zget_Some in He. lia.
Qed.
End push.

(** ** Merging and relabelling the last event *)

Lemma wp_cur_idx_at s (Q : Z -> TSOTraceBuilder -> Prop) : 0 <= prefix_idx s < Z.of_nat (length (events (prefix s))) ->
  Q (prefix_idx s) s -> wp cur_idx Q s.
Proof.
  intros Hi HQ. unfold cur_idx, pfx_len. wp_gets. wp_assert; [by apply bool_decide_eq_true; lia|]. wp_gets.
  wp_assert; [|done]. apply bool_decide_eq_true. unfold buf_len. lia.
Qed.
Lemma wp_curev_at s e (Q : Event -> TSOTraceBuilder -> Prop) : zget (events (prefix s)) (prefix_idx s) = Some e -> Q e s -> wp curev Q s.
Proof. intros He HQ. unfold curev. apply wp_bind, wp_cur_idx_at; [by eapply zget_Some|]. by eapply wp_pfx. Qed.
Lemma wp_curbranch_at s b l (Q : Branch -> TSOTraceBuilder -> Prop) : 0 <= prefix_idx s < Z.of_nat (length (events (prefix s))) ->
  siblings (prefix s) (Z.to_nat (prefix_idx s)) = Some (b :: l) -> Q b s -> wp curbranch Q s.
Proof.
  intros Hi Hb HQ. unfold curbranch. apply wp_bind, wp_cur_idx_at; [done|]. wp_gets. eapply wp_lift; [|exact HQ].
  rewrite buf_branch_siblings by (unfold buf_len; lia). by rewrite Hb.
Qed.
Lemma wp_on_prefix s f b (Q : unit -> TSOTraceBuilder -> Prop) : f (prefix s) = Some b -> Q tt (set_prefix b s) -> wp (on_prefix f) Q s.
Proof. intros Hf HQ. unfold on_prefix. wp_gets. apply wp_bind. eapply wp_lift; [done|]. by apply wp_modify. Qed.
Lemma wp_of_prefix {A} s (f : Buffer -> option A) x (Q : A -> TSOTraceBuilder -> Prop) : f (prefix s) = Some x -> Q x s -> wp (of_prefix f) Q s.
Proof. intros Hf HQ. unfold of_prefix. wp_gets. by eapply wp_lift. Qed.

Lemma settled_siblings s i : settled s -> 0 <= i <= prefix_idx s -> exists b l, siblings (prefix s) (Z.to_nat i) = Some (b :: l).
Proof.
  intros Hs Hi. pose proof (se_top _ Hs). pose proof (ax_branch _ (inv_ax _ _ (se_inv _ Hs))) as Hb.
  destruct (wnode_front _ (Z.to_nat i) Hb) as (n & c & cs & Hn & Hc & _); [unfold buf_len; lia|].
  unfold siblings. rewrite Hn. simpl. rewrite Hc. by eexists _, _.
Qed.

Lemma settled_last s : settled s -> exists e, zget (events (prefix s)) (prefix_idx s) = Some e.
Proof. intros Hs. destruct (cur_event s (inv_core _ _ (se_inv _ Hs))) as (e & He & _). eauto. Qed.

(** [should_merge] tells whether the last event is mergeable. *)
Lemma wp_should_merge s (Q : bool -> TSOTraceBuilder -> Prop) : settled s ->
  (forall m : bool, (m = true <-> mergeable s (prefix_idx s)) -> Q m s) -> wp should_merge Q s.
Proof.
  intros Hs HQ. pose proof (se_top _ Hs) as Htop. unfold should_merge. wp_gets. cbv zeta. unfold buf_len.
  assert (Hno : ~ mergeable s (prefix_idx s) -> wp (mret false) Q s).
  { intros Hm. apply wp_ret, HQ. split; [done|tauto]. }
  case_decide as Hn; [|apply Hno; intros [? _]; lia].
  destruct (settled_last s Hs) as [e He]. replace (Z.of_nat _ - 1) with (prefix_idx s) by lia.
  apply wp_bind. eapply wp_pfx; [exact He|]. destruct (zget_lt (events (prefix s)) (prefix_idx s - 1)) as [f Hf]; [lia|].
  replace (Z.of_nat _ - 2) with (prefix_idx s - 1) by lia. apply wp_bind. eapply wp_pfx; [exact Hf|].
  assert (Hinv : mergeable s (prefix_idx s) -> iid_pid (iid e) = iid_pid (iid f) /\ may_conflict e = false /\ sleep e = [] /\
    exists b, siblings (prefix s) (Z.to_nat (prefix_idx s)) = Some [b]).
  { intros (_ & e' & f' & b & He' & Hf' & ? & ? & ? & ?). rewrite He in He'. rewrite Hf in Hf'. simplify_eq. eauto. }
  case_decide as Hp; [|apply Hno; tauto]. destruct (may_conflict e) eqn:Hmc; [apply Hno; intros ?%Hinv; naive_solver|].
  case_decide as Hsl; [apply Hno; tauto|].
  destruct (settled_siblings s (prefix_idx s) Hs) as (b & l & Hsib); [pose proof (inv_idx conf _ (se_inv _ Hs)); lia|].
  replace (length (events (prefix s)) - 1)%nat with (Z.to_nat (prefix_idx s)) by lia.
  apply wp_bind. eapply wp_lift.
  { rewrite children_after_siblings by (unfold buf_len; lia). by rewrite Hsib. }
  apply wp_ret, HQ. rewrite bool_decide_eq_true. simpl. split.
  - intros Hl. split; [lia|]. exists e, f, b. split_and!; try done. destruct l; [done|simpl in Hl; lia].
  - intros (_ & _ & _ & [b' Hb'])%Hinv. rewrite Hsib in Hb'. injection Hb' as _ ->. done.
Qed.

(** The same execution with another branch at its last event. *)
Lemma inv_relabel s b : inv conf s -> events b = events (prefix s) ->
  is_Some (wnode (wtree b) (replicate (length (events (prefix s))) 0%nat)) -> inv conf (set_prefix b s).
Proof.
  intros [Hc [Ha He Hb] Ho] Hev Hn.
  assert (Hv : view (set_prefix b s) = view s) by (unfold view; simpl; by rewrite Hev).
  split; [by rewrite Hv| |].
  - split; [done| |].
    + simpl. rewrite Hev. intros e Hin. rewrite Hv. by apply He.
    + unfold buf_inv, buf_len. simpl. by rewrite Hev.
  - intros a m Hm Halg Hlu. simpl. rewrite Hev. by apply (Ho a m Hm).
Qed.

Definition ready_settled (s : TSOTraceBuilder) : Prop := settled s /\ forall i, ~ mergeable s i.

Lemma settled_relabel s b old x l : settled s -> (forall i, ~ mergeable s i) -> events b = events (prefix s) ->
  wnode (wtree b) (replicate (length (events (prefix s))) 0%nat) = wnode (wtree (prefix s)) (replicate (length (events (prefix s))) 0%nat) ->
  (forall i, (i < Z.to_nat (prefix_idx s))%nat -> siblings b i = siblings (prefix s) i) ->
  siblings (prefix s) (Z.to_nat (prefix_idx s)) = Some (old :: l) ->
  siblings b (Z.to_nat (prefix_idx s)) = Some (x :: l) ->
  (forall e, zget (events (prefix s)) (prefix_idx s) = Some e -> may_conflict e = false -> b_sym x = []) ->
  ready_settled (set_prefix b s).
Proof.
  intros Hs Hm Hev Hleaf Hbelow Hold Hx Hloc. pose proof (inv_idx conf _ (se_inv _ Hs)) as H0. pose proof (se_top _ Hs) as Htop.
  assert (Hv : view (set_prefix b s) = view s) by (unfold view; simpl; by rewrite Hev).
  assert (Hmerge : forall i, ~ mergeable (set_prefix b s) i).
  { intros i (Hi & e & f & y & He & Hf & Hp & Hmc & Hsl & Hsib). simpl in *. rewrite Hev in He, Hf. apply (Hm i).
    split; [done|]. pose proof (zget_Some _ _ _ He) as Hlt. destruct (decide (i = prefix_idx s)) as [->|Hne].
    - exists e, f, old. rewrite Hx in Hsib. injection Hsib as -> ->. by split_and!.
    - exists e, f, y. rewrite <- Hbelow by lia. by split_and!. }
  split; [|done]. split; simpl; rewrite ?Hev, ?Hleaf; try apply Hs.
  - apply inv_relabel; [apply Hs|done|]. rewrite Hleaf, (se_leaf _ Hs). by eexists.
  - intros i e He Hmc. destruct (se_local _ Hs i e He Hmc) as (H1 & H2 & H3). split_and!; [done..|].
    pose proof (zget_Some _ _ _ He) as Hlt. destruct (decide (i = prefix_idx s)) as [->|Hne].
    + exists x, l. split; [done|]. by eapply Hloc.
    + by rewrite Hbelow by lia.
  - rewrite Hv. apply Hs.
  - intros i p t [Hp Hno] Ht. rewrite Hv in Hp. eapply (se_index _ Hs); [|done]. split; [done|]. intros j Hj.
    specialize (Hno j Hj). by rewrite Hv in Hno.
  - intros i Hi. by destruct (Hmerge i).
Qed.

Lemma unobserved_Some syms : exists syms', unobserved conf syms = Some syms' /\ length syms' = length syms.
Proof.
  unfold unobserved. case_decide; [|eauto]. induction syms as [|e syms (l & Hl & Hlen)]; [by exists []|].
  unfold clear_observed_all in *. simpl. rewrite Hl.
  assert (exists e', clear_observed e = Some e') as [e' ->].
  { unfold clear_observed, set_observed. case_decide as Hk; [|eauto]. simpl. rewrite ?Hk. simpl. eauto. }
  exists (e' :: l). simpl. by rewrite Hlen.
Qed.

(** How many steps of its thread event [i] stands for. *)
Definition size_at (b : Buffer (Branch := Branch) (Event := Event)) (i : nat) : option Z :=
  l ← siblings b i; x ← head l; Some (b_size x).

(** Before it pushes an event, [schedule] either leaves the trace as it is ([s0]
    and [s] differ in the branches' symbolic events only) ... *)
Record retraced_same (s0 s : TSOTraceBuilder) : Prop := {
  rt_threads : threads s = threads s0;
  rt_events : events (prefix s) = events (prefix s0);
  rt_idx : prefix_idx s = prefix_idx s0;
  rt_fail : lock_fail_races s = lock_fail_races s0;
  rt_mutexes : mutexes s = mutexes s0;
  rt_size : forall i, (i < length (events (prefix s0)))%nat -> size_at (prefix s) i = size_at (prefix s0) i;
}.
(** ... or merges the last event into the one before it. *)
Record retraced_merge (s0 s : TSOTraceBuilder) : Prop := {
  rm_mergeable : mergeable s0 (prefix_idx s0);
  rm_thread : exists e f t rest, zget (events (prefix s0)) (prefix_idx s0) = Some e /\
    zget (events (prefix s0)) (prefix_idx s0 - 1) = Some f /\ iid_pid (iid e) = iid_pid (iid f) /\ may_conflict e = false /\
    zget (threads s0) (iid_pid (iid e)) = Some t /\ event_indices t = rest ++ [prefix_idx s0] /\ (prefix_idx s0 ∉ rest) /\
    threads s = <[Z.to_nat (iid_pid (iid e)) := set_event_indices (rest ++ [prefix_idx s0 - 1]) t]> (threads s0);
  rm_events : events (prefix s) = take (length (events (prefix s0)) - 1) (events (prefix s0));
  rm_idx : prefix_idx s = prefix_idx s0 - 1;
  rm_fail : lock_fail_races s = lock_fail_races s0;
  rm_mutexes : mutexes s = mutexes s0;
  rm_size : forall i : nat, (i < Z.to_nat (prefix_idx s0) - 1)%nat -> size_at (prefix s) i = size_at (prefix s0) i;
  rm_joined : exists m n, size_at (prefix s0) (Z.to_nat (prefix_idx s0) - 1) = Some m /\
    size_at (prefix s0) (Z.to_nat (prefix_idx s0)) = Some n /\ size_at (prefix s) (Z.to_nat (prefix_idx s0) - 1) = Some (m + n);
}.
Definition retraced (s0 s : TSOTraceBuilder) : Prop := retraced_same s0 s \/ retraced_merge s0 s.

Lemma retraced_refl s : retraced s s.
Proof. by left. Qed.
Lemma retraced_sym_idx s0 s k : retraced s0 s -> retraced s0 (set_sym_idx k s).
Proof. by intros [[]|[]]; [left|right]. Qed.

Lemma wp_copy_syms s (Q : unit -> TSOTraceBuilder -> Prop) : settled s -> ~ mergeable s (prefix_idx s) ->
  (forall s', ready_settled s' -> threads s' = threads s -> dryrun s' = dryrun s ->
     length (events (prefix s')) = length (events (prefix s)) -> retraced s s' -> Q tt s') -> wp (copy_syms conf) Q s.
Proof.
  intros Hs Hnm HQ. pose proof (inv_idx conf _ (se_inv _ Hs)) as H0. pose proof (se_top _ Hs) as Htop.
  assert (Hm : forall i, ~ mergeable s i) by (intros i Hi; destruct (se_merge _ Hs i Hi) as [-> _]; tauto).
  unfold copy_syms, pfx_len. wp_gets. rewrite decide_True by (unfold buf_len; lia).
  destruct (settled_last s Hs) as [e He]. destruct (settled_siblings s (prefix_idx s) Hs) as (b & l & Hsib); [lia|].
  apply wp_bind. eapply wp_curbranch_at; [by eapply zget_Some|exact Hsib|].
  apply wp_bind. eapply wp_curev_at; [exact He|]. case_decide as Hbs.
  - rewrite Hchecks. apply wp_ret. apply HQ; [done..|apply retraced_refl].
  - destruct (unobserved_Some (sym e)) as (syms & Hsy & Hlen). apply wp_bind. eapply wp_lift; [exact Hsy|].
    assert (Hk : (buf_len (prefix s) - 1)%nat = Z.to_nat (prefix_idx s)) by (unfold buf_len; lia).
    destruct (set_last_branch_spec branch_eq (prefix s) (set_b_sym (map ev_purge_data syms) b) b)
      as (b' & Hset & Hev & Hleaf & Hbelow & l' & Hold & Hnew).
    { apply (inv_ax _ _ (se_inv _ Hs)). }
    { unfold buf_len. lia. }
    { unfold lastbranch. rewrite Hk, buf_branch_siblings by (unfold buf_len; lia). by rewrite Hsib. }
    { apply (branch_eq_refl b). }
    { apply (branch_eq_refl b). }
    rewrite Hk in *. rewrite Hsib in Hold. injection Hold as <-.
    eapply wp_on_prefix; [exact Hset|]. apply HQ; [|done|done|simpl; by rewrite Hev|left; split; [done..|]].
    + eapply settled_relabel; [done|done|done|exact Hleaf|done|exact Hsib|exact Hnew|].
      intros e' He' Hmc. rewrite He in He'. injection He' as <-. destruct (se_local _ Hs _ _ He Hmc) as (Hnil & _). simpl.
      rewrite Hnil in Hlen. by destruct syms.
    + intros i Hi. unfold size_at. cbn [prefix set_prefix]. destruct (decide (i = Z.to_nat (prefix_idx s))) as [->|Hne].
      * rewrite Hsib, Hnew. done.
      * rewrite Hbelow; [done|lia].
Qed.

(** *** Removing the last event *)

Section merge.
Context (s : TSOTraceBuilder) (Hs : settled s) (Hpos : 0 < prefix_idx s)
  (Hlocal : exists e, zget (events (prefix s)) (prefix_idx s) = Some e /\ may_conflict e = false).

(** The state after the last event has gone: [ind] are the events its thread is
    left with, and the branch [old] of the event before is now [x]. *)
Context (p : Z) (t : Thread) (ind : list Z) (b : Buffer (Branch := Branch) (Event := Event)) (old x : Branch).
Context (Hp : pid_of (view s) (prefix_idx s) = Some p) (Ht : zget (threads s) p = Some t)
  (Hind : forall i, i ∈ ind -> 0 <= i < prefix_idx s /\ pid_of (view s) i = Some p)
  (Hlast : forall i, pid_of (view s) i = Some p -> i < prefix_idx s ->
     (forall j, i < j < prefix_idx s -> pid_of (view s) j <> Some p) -> vback ind = Some i).
Context (Hev : events b = take (length (events (prefix s)) - 1) (events (prefix s)))
  (Hleaf : wnode (wtree b) (replicate (length (events (prefix s)) - 1) 0%nat) = Some (WNode []))
  (Hbelow : forall i, (i < Z.to_nat (prefix_idx s) - 1)%nat -> siblings b i = siblings (prefix s) i)
  (Hat : exists l, siblings (prefix s) (Z.to_nat (prefix_idx s) - 1) = Some (old :: l) /\
     siblings b (Z.to_nat (prefix_idx s) - 1) = Some (x :: l))
  (Hx : b_sym x = b_sym old).
Let t' := set_event_indices ind t.
Let s' := set_threads (<[Z.to_nat p := t']> (threads s)) (set_prefix b (set_prefix_idx (prefix_idx s - 1) s)).

Lemma merged_event i : zget (events b) i = if decide (i < prefix_idx s) then zget (events (prefix s)) i else None.
Proof.
  pose proof (se_top _ Hs) as Htop. rewrite Hev. unfold zget. case_decide; case_decide; try done.
  - by rewrite lookup_take_lt by lia.
  - rewrite lookup_take_ge by lia. done.
Qed.
Lemma merged_pid i : pid_of (view s') i = if decide (i < prefix_idx s) then pid_of (view s) i else None.
Proof. unfold pid_of. cbn [view v_iids prefix s' set_threads set_prefix]. rewrite !zget_map, merged_event. by case_decide. Qed.
Lemma merged_thread q : zget (threads s') q = if decide (q = p) then Some t' else zget (threads s) q.
Proof.
  cbn [threads s' set_threads]. rewrite zget_insert by (by eapply zget_Some).
  destruct (decide (q = p)) as [->|]; [by rewrite decide_True|by rewrite decide_False].
Qed.
Lemma merged_refs : exists c, refs_below (view s) c /\ -1 <= c < prefix_idx s /\
  (0 <= c -> exists e, zget (events (prefix s)) c = Some e /\ may_conflict e = true) /\
  (forall i e x, zget (events (prefix s)) i = Some e -> x ∈ happens_after_later e -> x <= c).
Proof.
  destruct (se_refs _ Hs) as (c & Hc & Hle & Hmk & Hl). exists c. split_and!; try done; [lia|].
  destruct Hlocal as (e & He & Hmc). destruct (decide (c = prefix_idx s)) as [->|]; [|lia].
  destruct Hmk as (e' & He' & Hmc'); [lia|]. rewrite He in He'. injection He' as <-. congruence.
Qed.

Lemma merged_core : core_inv (view s').
Proof.
  destruct merged_refs as (c & Hc & Hlt & _). pose proof (se_top _ Hs) as Htop.
  pose proof (inv_core _ _ (se_inv _ Hs)) as Hcore.
  apply (core_move (view s) _ c); [|done]. split.
  - done.
  - cbn [view v_threads threads s' set_threads]. by rewrite !length_map, length_insert.
  - intros q u. cbn [view v_threads]. rewrite !zget_map. fold s'. rewrite merged_thread. case_decide.
    + subst q. rewrite Ht. intros [= <-]. by eexists.
    + destruct (zget (threads s) q); [|done]. intros [= <-]. by eexists.
  - cbn [view v_idx v_iids prefix prefix_idx s' set_threads set_prefix set_prefix_idx].
    rewrite length_map, Hev, length_take. lia.
  - pose proof (ci_small _ Hcore) as Hsm. simpl in Hsm. rewrite length_map in Hsm.
    cbn [view v_iids prefix s' set_threads set_prefix]. rewrite length_map, Hev, length_take. lia.
  - cbn [view v_iids prefix s' set_threads set_prefix]. rewrite Hev, <- firstn_map. intros i y Hy.
    apply lookup_take_Some in Hy as [Hy _]. by apply (ci_pids _ Hcore i).
  - done.
  - simpl. lia.
  - intros i Hi. fold s'. by rewrite merged_pid, decide_True by lia.
  - intros q u i. cbn [view v_threads]. rewrite zget_map. fold s'. rewrite merged_thread.
    assert (Hgen : forall q' u', zget (threads s) q' = Some u' -> i ∈ event_indices u' -> i <> prefix_idx s -> event_of (view s') i q').
    { intros q' u' Hu' Hin Hne. destruct (ci_indices _ Hcore q' (tview u') i) as [Hle Hpq]; [by apply zget_tview|done|].
      simpl in Hle. split; [simpl; lia|]. by rewrite merged_pid, decide_True by lia. }
    case_decide.
    + subst q. intros [= <-] Hin. destruct (Hind i Hin) as [Hlt' Hpi]. split; [simpl; lia|].
      by rewrite merged_pid, decide_True by lia.
    + destruct (zget (threads s) q) as [u0|] eqn:Hu0; [|done]. intros [= <-] Hin. apply (Hgen q u0); [done|done|].
      intros ->. destruct (ci_indices _ Hcore q (tview u0) (prefix_idx s)) as [_ Hpq]; [by apply zget_tview|done|].
      rewrite Hp in Hpq. congruence.
Qed.

Lemma merged_inv : inv conf s'.
Proof.
  destruct merged_refs as (c & Hc & Hlt & _ & Hl). pose proof (se_inv _ Hs) as Hinv. pose proof (se_top _ Hs).
  split; [apply merged_core| |].
  - pose proof (inv_ax _ _ Hinv) as Hax. split.
    + cbn [threads s' set_threads]. apply Forall_insert; [apply Hax|].
      destruct (proj1 (Forall_forall _ _) (ax_sleep _ Hax) t) as [H1 H2 H3]; [by eapply zget_elem|by split].
    + intros e He. cbn [prefix s' set_threads set_prefix] in He. apply list_elem_of_lookup in He as [i Hi].
      assert (He : zget (events b) (Z.of_nat i) = Some e) by (unfold zget; rewrite decide_True by lia; by rewrite Nat2Z.id).
      rewrite merged_event in He. case_decide; [|done].
      destruct (event_ok_elem _ _ _ Hax He) as [Ho1 Ho2 Ho3 Ho4]. split; [done..| |done].
      intros y Hy. destruct (Ho3 y Hy) as [Hy1 Hy2]. specialize (Hl _ _ _ He Hy). split; [done|simpl; lia].
    + unfold buf_inv, buf_len. cbn [prefix s' set_threads set_prefix]. rewrite Hev, length_take.
      replace (Nat.min _ _) with (length (events (prefix s)) - 1)%nat by lia. rewrite Hleaf. by eexists.
  - intros a m Hmem Halg Hlu. change (mem s') with (mem s) in Hmem. destruct (inv_obs _ _ Hinv a m Hmem Halg Hlu) as (e & He & Hob).
    exists e. split; [|done]. cbn [prefix s' set_threads set_prefix]. rewrite merged_event, decide_True; [done|].
    destruct (rb_byte _ _ Hc _ _ Hmem) as [Hu _]. lia.
Qed.

Lemma merged_mergeable i : mergeable s' i -> mergeable s i /\ i <> prefix_idx s.
Proof.
  intros (Hi & e & f & y & He & Hf & Hpf & Hmc & Hsl & Hsib). cbn [prefix s' set_threads set_prefix] in *.
  rewrite merged_event in He, Hf. case_decide as Hlt; [|done]. case_decide; [|done]. split; [|lia]. split; [done|].
  destruct (decide (i = prefix_idx s - 1)) as [->|Hne].
  - destruct Hat as (l & Hold & Hnew). replace (Z.to_nat (prefix_idx s - 1)) with (Z.to_nat (prefix_idx s) - 1)%nat in * by lia.
    rewrite Hsib in Hnew. injection Hnew as -> <-. exists e, f, old. by split_and!.
  - exists e, f, y. rewrite <- Hbelow by lia. by split_and!.
Qed.

Lemma merged_settled : ready_settled s'.
Proof.
  destruct merged_refs as (c & Hc & Hlt & Hmk & Hl). pose proof (se_top _ Hs) as Htop.
  assert (Hno : forall i, ~ mergeable s' i).
  { intros i [Hi Hne]%merged_mergeable. destruct (se_merge _ Hs i Hi) as [-> _]. done. }
  split; [|done]. split; cbn [prefix_idx prefix threads s' set_threads set_prefix set_prefix_idx].
  - apply merged_inv.
  - rewrite Hev, length_take. lia.
  - rewrite Hev, length_take. by replace (Nat.min _ _) with (length (events (prefix s)) - 1)%nat by lia.
  - apply Hs.
  - intros i e He Hmc. rewrite merged_event in He. case_decide as Hi; [|done].
    destruct (se_local _ Hs _ _ He Hmc) as (H1 & H2 & y & l & Hsib & Hy). split_and!; [done..|].
    destruct (decide (i = prefix_idx s - 1)) as [->|Hne].
    + destruct Hat as (l' & Hold & Hnew). replace (Z.to_nat (prefix_idx s - 1)) with (Z.to_nat (prefix_idx s) - 1)%nat in * by lia.
      exists x, l'. split; [done|]. rewrite Hsib in Hold. injection Hold as -> _. congruence.
    + exists y, l. split; [|done]. apply zget_Some in He. rewrite Hbelow by lia. done.
  - exists c. split_and!; [|lia|lia| |].
    + split; try apply Hc. intros q u ps Hu Hps. cbn [v_threads view] in Hu. rewrite zget_map in Hu. fold s' in Hu.
      rewrite merged_thread in Hu. case_decide.
      * subst q. simpl in Hu. injection Hu as <-. eapply (rb_pending _ _ Hc p (tview t)); [by apply zget_tview|done].
      * destruct (zget (threads s) q) as [u0|] eqn:Hu0; [|done]. simpl in Hu. injection Hu as <-.
        eapply (rb_pending _ _ Hc q (tview u0)); [by apply zget_tview|done].
    + intros H0. destruct (Hmk H0) as (e & He & Hmce). exists e. split; [|done]. by rewrite merged_event, decide_True by lia.
    + intros i e y He Hy. rewrite merged_event in He. case_decide; [|done]. by eapply Hl.
  - intros i q u [Hq Hnoq] Hu. fold s' in Hu. rewrite merged_thread in Hu. fold s' in Hq, Hnoq. rewrite merged_pid in Hq.
    destruct (decide (i < prefix_idx s)) as [Hi|]; [|done]. destruct (decide (q = p)) as [->|Hne].
    + injection Hu as <-. cbn [event_indices t' set_event_indices]. apply Hlast; [done|done|]. intros j [Hj1 Hj2] Hpj.
      apply (Hnoq j Hj1). by rewrite merged_pid, decide_True.
    + eapply (se_index _ Hs); [|done]. split; [done|]. intros j Hj Hpj. destruct (decide (j < prefix_idx s)) as [Hlj|Hge].
      * apply (Hnoq j Hj). by rewrite merged_pid, decide_True.
      * assert (j = prefix_idx s) as ->.
        { unfold pid_of in Hpj. simpl in Hpj. rewrite zget_map in Hpj.
          destruct (zget (events (prefix s)) j) eqn:E; [|done]. apply zget_Some in E. lia. }
        congruence.
  - intros i Hi. by destruct (Hno i).
Qed.
End merge.

Lemma vback_events s e : prefix_idx s + 1 = Z.of_nat (length (events (prefix s))) ->
  zget (events (prefix s)) (prefix_idx s) = Some e -> vback (events (prefix s)) = Some e.
Proof.
  intros Htop He. unfold vback. rewrite last_lookup. unfold zget in He. case_decide; [|done].
  by replace (pred (length (events (prefix s)))) with (Z.to_nat (prefix_idx s)) by lia.
Qed.

Lemma wp_merge_last s (Q : unit -> TSOTraceBuilder -> Prop) : settled s -> mergeable s (prefix_idx s) ->
  (forall s', ready_settled s' -> dryrun s' = dryrun s -> length (threads s') = length (threads s) ->
     (forall p t', zget (threads s') p = Some t' -> exists t, zget (threads s) p = Some t /\ schedulable conf t' = schedulable conf t) ->
     prefix_idx s' = prefix_idx s - 1 -> retraced s s' -> Q tt s') -> wp merge_last Q s.
Proof.
  intros Hs Hm HQ. pose proof (se_top _ Hs) as Htop. destruct (settled_last s Hs) as [e He].
  destruct (se_merge _ Hs _ Hm) as (_ & p & t & rest & Hp & Ht & Hrest & Hnot).
  pose proof Hm as (Hpos & e' & f & b & He' & Hf & Hpf & Hmc & Hsl & Hsib). rewrite He in He'. injection He' as <-.
  destruct (se_local _ Hs _ _ He Hmc) as (Hsym & Hwk & b2 & l2 & Hb2 & Hbs). rewrite Hsib in Hb2. injection Hb2 as <- <-.
  assert (Hpe : iid_pid (iid e) = p).
  { unfold pid_of in Hp. simpl in Hp. rewrite zget_map, He in Hp. by injection Hp. }
  unfold merge_last. apply wp_bind. eapply wp_of_prefix; [by apply vback_events|].
  wp_assert; [by rewrite Hwk|]. apply wp_bind. eapply wp_curev_at; [exact He|]. wp_assert; [by rewrite Hsym|].
  apply wp_bind. eapply wp_curbranch_at; [by eapply zget_Some|exact Hsib|]. wp_assert; [by rewrite Hbs|].
  pose proof (ax_branch _ (inv_ax _ _ (se_inv _ Hs))) as Hbi.
  destruct (delete_last_spec branch_eq (prefix s) branch_eq_refl Hbi) as (b1 & Hdel & Hbi1 & Hev1 & _); [unfold buf_len; lia|].
  destruct (delete_last_siblings branch_eq _ _ Hdel Hbi branch_eq_refl) as (Hbelow & n & c & cs & Hn & Hc & Hleaf).
  assert (Hcs : cs = []).
  { unfold siblings in Hsib. replace (Z.to_nat (prefix_idx s)) with (buf_len (prefix s) - 1)%nat in Hsib by (unfold buf_len; lia).
    rewrite Hn in Hsib. simpl in Hsib. rewrite Hc in Hsib. by destruct cs. }
  subst cs. unfold buf_len in *.
  apply wp_bind. eapply wp_on_prefix; [exact Hdel|]. apply wp_bind, wp_modify.
  cbn [prefix_idx set_prefix]. set (s1 := set_prefix_idx (prefix_idx s - 1) (set_prefix b1 s)).
  assert (Hlen1 : length (events b1) = (length (events (prefix s)) - 1)%nat) by (rewrite Hev1, length_take; lia).
  destruct (settled_siblings s (prefix_idx s - 1) Hs) as (old & l & Hold); [lia|].
  assert (Hold1 : siblings b1 (Z.to_nat (prefix_idx s) - 1) = Some (old :: l)).
  { rewrite Hbelow by lia. by replace (Z.to_nat (prefix_idx s) - 1)%nat with (Z.to_nat (prefix_idx s - 1)) by lia. }
  assert (Hi1 : 0 <= prefix_idx s1 < Z.of_nat (length (events (prefix s1)))) by (simpl; lia).
  assert (Hk : (length (events b1) - 1)%nat = (Z.to_nat (prefix_idx s) - 1)%nat) by lia.
  apply wp_bind. eapply (wp_curbranch_at s1 old l); [done| |].
  { simpl. by replace (Z.to_nat (prefix_idx s - 1)) with (Z.to_nat (prefix_idx s) - 1)%nat by lia. }
  destruct (set_last_branch_spec branch_eq b1 (set_b_size (b_size old + b_size b) old) old)
    as (b2 & Hset & Hev2 & Hleaf2 & Hbelow2 & l' & Hsame & Hnew).
  { done. }
  { unfold buf_len. lia. }
  { unfold lastbranch. rewrite buf_branch_siblings by (unfold buf_len; lia). unfold buf_len. by rewrite Hk, Hold1. }
  { apply (branch_eq_refl old). }
  { apply (branch_eq_refl old). }
  unfold buf_len in *. rewrite Hk in *. rewrite Hold1 in Hsame. injection Hsame as <-.
  apply wp_bind. eapply wp_on_prefix; [exact Hset|]. set (s2 := set_prefix b2 s1).
  assert (He2 : zget (events (prefix s2)) (prefix_idx s2) = Some f).
  { assert (H0 : 0 <= prefix_idx s - 1) by lia. cbn [s2 s1 prefix prefix_idx set_prefix set_prefix_idx]. rewrite Hev2, Hev1.
    unfold zget in Hf |- *. rewrite decide_True in Hf by done. rewrite decide_True by done. by rewrite lookup_take_lt by lia. }
  apply wp_bind. eapply wp_curev_at; [exact He2|]. wp_gets. rewrite <- Hpf, Hpe.
  apply wp_bind. eapply wp_thread; [exact Ht|]. apply wp_bind. eapply wp_lift.
  { unfold vback. by rewrite Hrest, last_snoc. }
  wp_assert; [by apply bool_decide_eq_true; simpl; lia|].
  apply wp_bind. eapply wp_lift; [rewrite Hrest; by apply vpop_snoc|].
  eapply wp_thread_upd_raw; [exact Ht|]. cbn [prefix_idx s2 s1 set_prefix set_prefix_idx].
  assert (Hp' : pid_of (view s) (prefix_idx s - 1) = Some p).
  { unfold pid_of. simpl. rewrite zget_map, Hf. simpl. by rewrite <- Hpf, Hpe. }
  assert (Hleaf2' : wnode (wtree b2) (replicate (length (events (prefix s)) - 1) 0%nat) = Some (WNode [])).
  { rewrite Hlen1 in Hleaf2. by rewrite Hleaf2. }
  apply HQ.
  - eapply (merged_settled s Hs Hpos (ex_intro _ e (conj He Hmc)) p t (rest ++ [prefix_idx s - 1]) b2 old);
      [done|done| | |by rewrite Hev2|done| | |].
    + intros i [Hi| ->%list_elem_of_singleton]%elem_of_app; [|split; [lia|done]].
      destruct (ci_indices _ (inv_core _ _ (se_inv _ Hs)) p (tview t) i) as [Hle Hpi]; [by apply zget_tview| |].
      { simpl. rewrite Hrest. apply elem_of_app. by left. }
      simpl in Hle. split; [|done]. destruct (decide (i = prefix_idx s)) as [->|]; [done|lia].
    + intros i Hpi Hi Hno. unfold vback. rewrite last_snoc. f_equal.
      destruct (decide (i = prefix_idx s - 1)) as [->|Hne]; [done|]. by destruct (Hno (prefix_idx s - 1)); [lia|].
    + intros i Hi. rewrite Hbelow2 by done. apply Hbelow. lia.
    + exists l. split; [by rewrite <- Hbelow by lia|exact Hnew].
    + done.
  - done.
  - simpl. by rewrite length_insert.
  - intros q u. cbn [threads set_threads s2 s1 set_prefix set_prefix_idx]. rewrite zget_insert by (by eapply zget_Some). case_decide.
    + subst q. intros [= <-]. exists t. split; [done|]. unfold schedulable, last_event_index. simpl. rewrite Hrest, !length_app. done.
    + intros Hu. by exists u.
  - done.
  - right. split; [done| | |done|done|done| |]; cbn [threads prefix set_threads s2 s1 set_prefix set_prefix_idx].
    + exists e, f, t, rest. rewrite Hpe. split_and!; [done..|congruence|done|done|done|done|done].
    + by rewrite Hev2.
    + intros i Hi. unfold size_at. rewrite Hbelow2 by done. rewrite Hbelow by lia. done.
    + exists (b_size old), (b_size b). unfold size_at. rewrite Hnew, <- Hbelow, Hold1 by lia. rewrite Hsib. done.
Qed.

(** *** Choosing a thread *)

Lemma find_schedulable_spec fuel ts p : (0 < fuel)%nat -> (length ts < fuel + p)%nat ->
  exists r, find_schedulable conf fuel ts p = Some r /\
    match r with
    | Some k => (exists t, ts !! k = Some t /\ schedulable conf t = true) /\ (exists j, k = p + 2 * j)%nat /\
        forall j t, (p + 2 * j < k)%nat -> ts !! (p + 2 * j)%nat = Some t -> schedulable conf t = false
    | None => forall j t, ts !! (p + 2 * j)%nat = Some t -> schedulable conf t = false
    end.
Proof.
  revert p. induction fuel as [|fuel IH]; intros p H0 Hf; cbn [find_schedulable].
  - lia.
  - case_decide as Hp.
    + destruct (lookup_lt_is_Some_2 ts p Hp) as [t Ht]. rewrite Ht. cbn [mbind option_bind]. destruct (schedulable conf t) eqn:E.
      * exists (Some p). split; [done|]. split_and!; [eauto|exists 0%nat; lia|]. intros j u Hj. lia.
      * destruct (IH (p + 2)%nat) as (r & Hr & Hspec); [lia|lia|]. exists r. split; [done|].
        assert (Hstep : forall j u, ts !! (p + 2 * j)%nat = Some u ->
          (j = 0%nat /\ schedulable conf u = false) \/ exists j', (p + 2 * j = p + 2 + 2 * j')%nat).
        { intros [|j] u Hu; [left|right; exists j; lia]. rewrite Nat.mul_0_r, Nat.add_0_r, Ht in Hu. by injection Hu as <-. }
        destruct r as [k|].
        -- destruct Hspec as (H1 & (j & ->) & H3). split_and!; [done|exists (S j); lia|]. intros j' u Hj' Hu.
           destruct (Hstep j' u Hu) as [[_ ?]|(j'' & Heq)]; [done|]. rewrite Heq in Hu, Hj'. by eapply H3.
        -- intros j u Hu. destruct (Hstep j u Hu) as [[_ ?]|(j'' & Heq)]; [done|]. rewrite Heq in Hu. by eapply Hspec.
    + exists None. split; [done|]. intros j t Ht. apply lookup_lt_Some in Ht. lia.
Qed.

(** The policy of [schedule]: the first schedulable auxiliary thread, or else
    the first schedulable real thread. *)
Definition chosen (ts : list Thread) (p : Z) : Prop :=
  (exists t, zget ts p = Some t /\ schedulable conf t = true) /\
  (Z.even p = true -> forall q t, Z.even q = false -> zget ts q = Some t -> schedulable conf t = false) /\
  (forall q t, q < p -> Z.even q = Z.even p -> zget ts q = Some t -> schedulable conf t = false).
Definition none_schedulable (ts : list Thread) : Prop := forall q t, zget ts q = Some t -> schedulable conf t = false.

Lemma even_split q : 0 <= q -> exists j : nat, q = if Z.even q then 2 * Z.of_nat j else 1 + 2 * Z.of_nat j.
Proof.
  intros Hq. exists (Z.to_nat (Z.div2 q)). pose proof (Z.div2_odd q) as Hd. rewrite <- Z.negb_even in Hd.
  rewrite Z2Nat.id by (by apply Z.div2_nonneg). destruct (Z.even q); simpl in Hd; lia.
Qed.
Lemma wp_find_thread s (Q : option Choice -> TSOTraceBuilder -> Prop) :
  (forall p, chosen (threads s) (Z.of_nat p) -> wp (push_event p) Q s) ->
  (none_schedulable (threads s) -> Q None s) ->
  wp (ts ← gets threads;
      a ← lift (find_schedulable conf (S (length ts)) ts 1);
      match a with
      | Some p => push_event p
      | None => r ← lift (find_schedulable conf (S (length ts)) ts 0);
                match r with Some p => push_event p | None => mret None end
      end) Q s.
Proof.
  intros Hpush Hnone. wp_gets. set (ts := threads s) in *.
  destruct (find_schedulable_spec (S (length ts)) ts 1) as (a & Ha & Hspec); [lia|lia|].
  apply wp_bind. eapply wp_lift; [exact Ha|]. destruct a as [p|].
  - destruct Hspec as ((t & Ht & Hsc) & (j & ->) & Hfirst). apply Hpush.
    assert (Hodd : Z.even (Z.of_nat (1 + 2 * j)) = false).
    { replace (Z.of_nat (1 + 2 * j)) with (1 + 2 * Z.of_nat j) by lia. by rewrite Z.even_add_mul_2. }
    split_and!; [exists t; by rewrite zget_nat|by rewrite Hodd|]. rewrite Hodd. intros q u Hq Hev Hu.
    destruct (even_split q) as [i Hi]; [by apply zget_Some in Hu as [? _]|]. rewrite Hev in Hi.
    eapply (Hfirst i); [lia|]. rewrite <- zget_nat. by replace (Z.of_nat (1 + 2 * i)) with q by lia.
  - destruct (find_schedulable_spec (S (length ts)) ts 0) as (r & Hr & Hspec2); [lia|lia|].
    apply wp_bind. eapply wp_lift; [exact Hr|].
    assert (Hodd : forall q t, Z.even q = false -> zget ts q = Some t -> schedulable conf t = false).
    { intros q u Hev Hu. destruct (even_split q) as [i Hi]; [by apply zget_Some in Hu as [? _]|]. rewrite Hev in Hi.
      apply (Hspec i). rewrite <- zget_nat. by replace (Z.of_nat (1 + 2 * i)) with q by lia. }
    destruct r as [p|].
    + destruct Hspec2 as ((t & Ht & Hsc) & (j & ->) & Hfirst). apply Hpush.
      assert (Heven : Z.even (Z.of_nat (0 + 2 * j)) = true) by (replace (Z.of_nat (0 + 2 * j)) with (2 * Z.of_nat j) by lia; by rewrite Z.even_mul).
      split_and!; [exists t; by rewrite zget_nat|done|]. rewrite Heven. intros q u Hq Hev Hu.
      destruct (even_split q) as [i Hi]; [by apply zget_Some in Hu as [? _]|]. rewrite Hev in Hi.
      eapply (Hfirst i); [lia|]. rewrite <- zget_nat. by replace (Z.of_nat (0 + 2 * i)) with q by lia.
    + apply wp_ret, Hnone. intros q u Hu. destruct (Z.even q) eqn:Hev; [|by eapply Hodd].
      destruct (even_split q) as [i Hi]; [by apply zget_Some in Hu as [? _]|]. rewrite Hev in Hi.
      apply (Hspec2 i). rewrite <- zget_nat. by replace (Z.of_nat (0 + 2 * i)) with q by lia.
Qed.

Lemma set_dryrun_same s : dryrun s = false -> set_dryrun false s = s.
Proof. destruct s; simpl. by intros ->. Qed.
Lemma inv_set_sym_idx s k : inv conf s -> inv conf (set_sym_idx k s).
Proof.
  intros [Hc Ha Ho]. split; [done| |done]. by apply (aux_inv_keep s); [| | |apply Ha].
Qed.
Lemma settled_set_sym_idx s k : ready_settled s -> ready_settled (set_sym_idx k s).
Proof.
  intros [Hs Hm].
  assert (Hk : kept_state true s (set_sym_idx k s)) by (by eapply (keeps_modify true (set_sym_idx k)); [intros; split_and!; try done; by exists []; rewrite app_nil_r|]).
  split; [eapply settled_kept; [done|done|by apply inv_set_sym_idx, Hs|by right]|].
  intros i Hi%(kept_mergeable _ _ _ _ Hk). by apply (Hm i).
Qed.

Lemma chosen_same ts ts' p : length ts' = length ts ->
  (forall q t', zget ts' q = Some t' -> exists t, zget ts q = Some t /\ schedulable conf t = schedulable conf t') ->
  chosen ts' p -> chosen ts p.
Proof.
  intros Hlen Hback ((t' & Ht' & Hs) & Hodd & Hlow).
  assert (Hall : forall q t, zget ts q = Some t -> exists t', zget ts' q = Some t' /\ schedulable conf t = schedulable conf t').
  { intros q t Ht. destruct (zget_lt ts' q) as [u Hu]; [rewrite Hlen; by eapply zget_Some|].
    destruct (Hback _ _ Hu) as (t2 & Ht2 & Heq). rewrite Ht in Ht2. injection Ht2 as <-. eauto. }
  split_and!.
  - destruct (Hback _ _ Ht') as (t & Ht & Heq). exists t. split; [done|congruence].
  - intros Hp q t Hq Ht. destruct (Hall _ _ Ht) as (u & Hu & ->). by eapply Hodd.
  - intros q t Hq Hev Ht. destruct (Hall _ _ Ht) as (u & Hu & ->). by eapply Hlow.
Qed.
Lemma none_same ts ts' : length ts' = length ts ->
  (forall q t', zget ts' q = Some t' -> exists t, zget ts q = Some t /\ schedulable conf t = schedulable conf t') ->
  none_schedulable ts' -> none_schedulable ts.
Proof.
  intros Hlen Hback Hn q t Ht. destruct (zget_lt ts' q) as [u Hu]; [rewrite Hlen; by eapply zget_Some|].
  destruct (Hback _ _ Hu) as (t2 & Ht2 & Heq). rewrite Ht in Ht2. injection Ht2 as <-. rewrite Heq. by eapply Hn.
Qed.

Definition choice_of (p : Z) : Choice := MkChoice (proc_of p) (if decide (Z.rem p 2 = 1) then 0 else -1) 0 false.

(** The state [schedule], called in [s0], leaves: the event of [p] has just been
    pushed. *)
Definition scheduled (s0 s' : TSOTraceBuilder) (p : Z) : Prop :=
  at_event s' p /\ (length (events (prefix s')) <= S (length (events (prefix s0))))%nat /\ exists s t b, retraced s0 s /\ ready s /\ zget (threads s) p = Some t /\
    buf_push branch_eq (prefix s) (Branch_new p) (new_event_of p t) = Some b /\ s' = pushed s p t b.

(** Pushing the chosen thread's event. *)
Lemma wp_push_chosen s0 s p (Q : option Choice -> TSOTraceBuilder -> Prop) : ready s -> sym_idx s = 0%nat -> retraced s0 s ->
  (length (events (prefix s)) <= length (events (prefix s0)))%nat -> chosen (threads s) (Z.of_nat p) ->
  (forall t b, zget (threads s) (Z.of_nat p) = Some t ->
     buf_push branch_eq (prefix s) (Branch_new (Z.of_nat p)) (new_event_of (Z.of_nat p) t) = Some b ->
     inv conf (pushed s (Z.of_nat p) t b)) ->
  (forall s', scheduled s0 s' (Z.of_nat p) -> Q (Some (choice_of (Z.of_nat p))) s') -> wp (push_event p) Q s.
Proof.
  intros Hr Hsym Hrt Hlen ((t & Ht & Hsc) & _) Hinv HQ. eapply wp_push_event; [done|exact Ht|]. intros b Hb.
  unfold schedulable in Hsc. apply andb_true_iff in Hsc as [[Hav Hsl]%andb_true_iff _]. apply negb_true_iff in Hsl.
  apply HQ. split; [eapply pushed_at_event; [done|done|done|by apply Hinv|done..]|]. split; [|by exists s, t, b].
  cbn [prefix pushed set_prefix]. rewrite (pushed_events s (Z.of_nat p) t b Hr Hb), length_app. simpl in *. lia.
Qed.

Lemma wp_new_event s (Q : option Choice -> TSOTraceBuilder -> Prop) : settled s ->
  Z.of_nat (length (events (prefix s))) < 2 ^ 31 ->
  (forall s' p, scheduled s s' p -> chosen (threads s) p -> Q (Some (choice_of p)) s') ->
  (forall s', ready_settled s' -> retraced s s' -> none_schedulable (threads s) -> Q None s') -> wp (new_event conf) Q s.
Proof.
  intros Hs Hsmall Hsome Hnone. unfold new_event. wp_gets. destruct (se_flags _ Hs) as (_ & -> & _). wp_assert; [done|].
  apply wp_bind, wp_should_merge; [done|]. intros m Hm.
  assert (Hgo : forall s1, ready_settled s1 -> length (threads s1) = length (threads s) ->
    (forall q t', zget (threads s1) q = Some t' -> exists t, zget (threads s) q = Some t /\ schedulable conf t = schedulable conf t') ->
    (length (events (prefix s1)) <= length (events (prefix s)))%nat -> retraced s s1 ->
    wp (_ ← modify (set_sym_idx 0); ts ← gets threads;
        a ← lift (find_schedulable conf (S (length ts)) ts 1);
        match a with
        | Some p => push_event p
        | None => r ← lift (find_schedulable conf (S (length ts)) ts 0);
                  match r with Some p => push_event p | None => mret None end
        end) Q s1).
  { intros s1 Hs1 Hlen Hback Hsm Hrt%(retraced_sym_idx _ _ 0%nat). apply wp_bind, wp_modify. pose proof (settled_set_sym_idx _ 0%nat Hs1) as Hs2.
    pose proof (settled_ready _ (proj1 Hs2) (proj2 Hs2)) as Hr2. apply wp_find_thread.
    - intros p Hp. apply (wp_push_chosen s); [done|done|done|done|done| |].
      + intros t b Ht Hb. eapply pushed_inv; [done|done|done|apply Hs2|]. cbn [prefix set_sym_idx]. lia.
      + intros s' Hsch. apply Hsome; [done|by eapply chosen_same].
    - intros Hn. apply Hnone; [done|done|]. by eapply none_same. }
  apply wp_bind. destruct m.
  - apply wp_merge_last; [done|by apply Hm|]. intros s1 Hs1 _ Hlen Hback Hidx Hrt. apply Hgo; [done|done| | |done].
    + intros q t' Ht'. destruct (Hback _ _ Ht') as (t & Ht & Heq). by exists t.
    + pose proof (se_top _ Hs). pose proof (se_top _ (proj1 Hs1)). lia.
  - apply wp_copy_syms; [done| |].
    + intros Hmg. by apply Hm in Hmg.
    + intros s1 Hs1 Hth _ Hlen Hrt. apply Hgo; [done|by rewrite Hth| |by rewrite Hlen|done].
      intros q t'. rewrite Hth. eauto.
Qed.

Lemma wp_schedule s (Q : option Choice -> TSOTraceBuilder -> Prop) : settled s ->
  Z.of_nat (length (events (prefix s))) < 2 ^ 31 ->
  (forall s' p, scheduled s s' p -> chosen (threads s) p -> Q (Some (choice_of p)) s') ->
  (forall s', ready_settled s' -> retraced s s' -> none_schedulable (threads s) -> Q None s') -> wp (schedule conf) Q s.
Proof.
  intros Hs Hsmall Hsome Hnone. unfold schedule. destruct (se_flags _ Hs) as (Hv & Hr & Hd).
  wp_gets. rewrite Hv. wp_assert; [done|]. apply wp_bind, wp_modify. rewrite set_dryrun_same by done.
  wp_gets. rewrite Hr. by apply wp_new_event.
Qed.

(** *** The first event *)

Lemma zget_two {A} (a b x : A) p : zget [a; b] p = Some x -> (p = 0 /\ x = a) \/ (p = 1 /\ x = b).
Proof.
  intros Hx. pose proof (zget_Some _ _ _ Hx) as Hp. simpl in Hp. assert (p = 0 \/ p = 1) as [-> | ->] by lia;
    unfold zget in Hx; simpl in Hx; injection Hx as <-; tauto.
Qed.

Lemma core_first cps c1 c2 i : cps_inv cps -> c1 ∈ cpids cps -> is_auxiliary c1 = false -> iid_pid i = 0 ->
  core_inv (MkView 0 (-1) [] [] [] cps [MkTView c1 true [0] []; MkTView c2 false [] []] [i] false false).
Proof.
  intros Hcps Hc1 Haux Hi. split; cbn [v_idx v_lfmc v_mem v_mutexes v_conds v_cps v_threads v_iids length]; try done.
  - intros [|k] x; [|done]. simpl. intros [= <-]. lia.
  - intros p t j [[-> ->]|[-> ->]]%zget_two Hj; simpl in Hj; [|by apply not_elem_of_nil in Hj].
    apply list_elem_of_singleton in Hj as ->. split; simpl; [lia|]. unfold pid_of. simpl. by rewrite Hi.
  - intros p t ps [[-> ->]|[-> ->]]%zget_two Hps; by apply not_elem_of_nil in Hps.
  - intros p t [[-> ->]|[-> ->]]%zget_two; done.
  - intros p t u Hp [[-> ->]|[-> ->]]%zget_two [[? ->]|[? ->]]%zget_two; done.
  - intros b m Hb. by apply not_elem_of_nil in Hb.
  - intros a x Hx. by apply not_elem_of_nil in Hx.
  - intros a k a' k' p (c & j & Hc & _). done.
  - intros p t [[-> ->]|[-> ->]]%zget_two Hp; done.
Qed.

(** The state the constructor builds. *)
Definition initial_state (cps : CPidSystem) (aux : CPid) : TSOTraceBuilder :=
  MkTSOTraceBuilder [Thread_new CPid_root (-1); set_available false (Thread_new aux (-1))] cps [] (-1) [] [] [] []
    buffer_empty 0 (-1) 0 false false 0 0 [] false.
Lemma new_initial : exists cps aux, TSOTraceBuilder_new = Some (initial_state cps aux) /\ cps_inv cps /\
  cpids cps = [CPid_root; aux].
Proof.
  destruct (cps_new_aux_spec cps_init CPid_root cps_init_inv) as (aux & cps & Hnew & _ & _ & _ & Hids & Hinv); [by left|done|].
  exists cps, aux. split_and!; [|done|by rewrite Hids]. unfold TSOTraceBuilder_new, initial_threads. by rewrite Hnew.
Qed.

Lemma zget_nil {A} i : zget (A := A) [] i = None.
Proof. unfold zget. by case_decide. Qed.
Lemma initial_ready cps aux : ready (initial_state cps aux).
Proof.
  split; cbn [initial_state prefix prefix_idx threads buffer_empty events length wtree]; try done; try lia.
  - by eexists.
  - intros i e. by rewrite zget_nil.
  - exists (-1). split; [|split; [lia|split; [done|by intros i e x; rewrite zget_nil]]]. split; simpl; try done; try lia.
    + intros b m Hb. by apply not_elem_of_nil in Hb.
    + intros a x Hx. by apply not_elem_of_nil in Hx.
    + intros p t ps [[-> ->]|[-> ->]]%zget_two Hps; by apply not_elem_of_nil in Hps.
  - intros i p t [Hp _]. unfold pid_of in Hp. simpl in Hp. by rewrite zget_nil in Hp.
  - intros p t i [[-> ->]|[-> ->]]%zget_two Hi; by apply not_elem_of_nil in Hi.
  - intros i (_ & e & _ & _ & He & _). simpl in He. by rewrite zget_nil in He.
Qed.

Lemma initial_pushed_inv cps aux b t : cps_inv cps -> cpids cps = [CPid_root; aux] ->
  let s := initial_state cps aux in zget (threads s) 0 = Some t ->
  buf_push branch_eq (prefix s) (Branch_new 0) (new_event_of 0 t) = Some b -> inv conf (pushed s 0 t b).
Proof.
  intros Hcps Hids s Ht Hb. pose proof (initial_ready cps aux) as Hr. fold s in Hr.
  pose proof (pushed_events s 0 t b Hr Hb) as Hev. assert (Ht0 : t = Thread_new CPid_root (-1)) by (by injection Ht).
  split.
  - assert (Hv : view (pushed s 0 t b) = MkView 0 (-1) [] [] [] cps
      [MkTView CPid_root true [0] []; MkTView aux false [] []] [MkIID 0 1] false false).
    { unfold view, pushed. cbn [prefix_idx last_full_memory_conflict mem mutexes cond_vars CPS threads prefix set_prefix set_threads
        set_prefix_idx dryrun replay]. rewrite Hev. subst t. done. }
    rewrite Hv. apply core_first; [done|rewrite Hids; by left|done|done].
  - apply (pushed_aux s 0 t b Hr Ht Hb). split; simpl.
    + repeat constructor; simpl; try done; by intros ?%not_elem_of_nil.
    + by intros e He%not_elem_of_nil.
    + by eexists.
  - intros a m Hm. by apply not_elem_of_nil in Hm.
Qed.

Lemma wp_schedule_initial cps aux (Q : option Choice -> TSOTraceBuilder -> Prop) : cps_inv cps -> cpids cps = [CPid_root; aux] ->
  (forall s', scheduled (initial_state cps aux) s' 0 -> chosen (threads (initial_state cps aux)) 0 -> Q (Some (choice_of 0)) s') ->
  (none_schedulable (threads (initial_state cps aux)) -> Q None (initial_state cps aux)) ->
  wp (schedule conf) Q (initial_state cps aux).
Proof.
  intros Hcps Hids Hsome Hnone. unfold schedule. wp_gets. wp_assert; [done|]. apply wp_bind, wp_modify. wp_gets.
  cbn [replay set_dryrun initial_state]. fold (initial_state cps aux).
  change (set_dryrun false (initial_state cps aux)) with (initial_state cps aux).
  unfold new_event. wp_gets. wp_assert; [done|]. apply wp_bind. unfold should_merge. wp_gets. cbv zeta.
  cbn. apply wp_ret. apply wp_bind. unfold copy_syms, pfx_len. wp_gets.
  cbn. apply wp_ret. apply wp_bind, wp_modify.
  change (set_sym_idx 0 (initial_state cps aux)) with (initial_state cps aux).
  apply wp_find_thread; [|done]. intros p Hp.
  assert (Z.of_nat p = 0) as Hp0.
  { destruct Hp as ((t & [[-> ->]|[-> ->]]%zget_two & Hsc) & _); [done|]. done. }
  rewrite Hp0 in Hp. apply (wp_push_chosen (initial_state cps aux)); [apply initial_ready|done|apply retraced_refl|done|by rewrite Hp0| |].
  - rewrite Hp0. intros t b. by apply initial_pushed_inv.
  - rewrite Hp0. intros s' Hs'. by apply Hsome.
Qed.

(** ** Calls *)

Lemma at_event_refs s p : at_event s p -> refs_below (view s) (prefix_idx s - 1).
Proof.
  intros Hae. destruct (se_refs _ (ae_settled _ _ Hae)) as (c & Hc & Hle & Hmk & _).
  destruct (ae_event _ _ Hae) as (e & He & Hmc & _). eapply refs_below_mono; [|exact Hc].
  destruct (decide (c = prefix_idx s)) as [->|]; [|lia]. destruct Hmk as (e' & He' & Hmc').
  { apply (inv_idx conf s), (se_inv _ (ae_settled _ _ Hae)). }
  rewrite He in He'. injection He' as <-. congruence.
Qed.
Lemma at_event_fresh s p b : at_event s p -> fresh s b.
Proof.
  intros Hae m Hm. destruct (rb_byte _ _ (at_event_refs _ _ Hae) _ _ (map_lookup_elem _ _ _ Hm)) as [Hu _]. lia.
Qed.
Lemma at_event_mutex s p a : at_event s p -> last_access (mutex_at s a) < prefix_idx s.
Proof.
  intros Hae. unfold mutex_at. destruct (map_lookup (mutexes s) a) as [x|] eqn:Hx; simpl.
  - pose proof (rb_mutex _ _ (at_event_refs _ _ Hae) _ _ (map_lookup_elem _ _ _ Hx)). lia.
  - pose proof (inv_idx conf _ (se_inv _ (ae_settled _ _ Hae))). lia.
Qed.
Lemma at_event_alt s p : at_event s p -> cur_alt s 0.
Proof.
  intros Hae. exists (Branch_new p). split; [|done]. pose proof (se_top _ (ae_settled _ _ Hae)).
  pose proof (inv_idx conf _ (se_inv _ (ae_settled _ _ Hae))).
  rewrite buf_branch_siblings by (unfold buf_len; lia). by rewrite (ae_branch _ _ Hae).
Qed.

(** What the interpreter guarantees when thread [p] makes call [c]: auxiliary
    threads only commit stores; fences, atomic accesses and synchronisation
    wait until the store buffer is empty; a lock is only taken when free (a
    refused one goes through [mutex_lock_fail]); objects are used initialised. *)
Definition obliged (s : TSOTraceBuilder) (p : Z) (c : call) : Prop :=
  match c with
  | AtomicStore sd => (exists bs, sdr_ok sd bs) /\ (Z.even p = true -> flushed s p)
  | _ => Z.even p = true /\
    match c with
    | Store sd => sas_ok (sdr_ref sd)
    | Load ml => sas_ok ml
    | AtomicRmw sd action => flushed s p /\ (exists bs, sdr_ok sd bs) /\ is_Some (SymEv_Rmw sd action)
    | CompareExchange sd _ _ => flushed s p /\ exists bs, sdr_ok sd bs
    | Join tgt => flushed s (tgt * 2) /\ is_Some (zget (threads s) (tgt * 2 + 1)) /\ p <> tgt * 2
    | Fence | MutexInit _ => flushed s p
    | MutexLock ml => flushed s p /\ locked (mutex_at s (sas_addr ml)) = false
    | MutexTrylock ml | MutexDestroy ml => flushed s p /\ known conf s (sas_addr ml)
    | MutexUnlock ml => flushed s p /\ known conf s (sas_addr ml) /\ 0 <= last_access (mutex_at s (sas_addr ml))
    | CondInit ml => flushed s p /\ map_lookup (cond_vars s) (sas_addr ml) = None
    | CondSignal ml | CondBroadcast ml | CondDestroy ml => flushed s p /\ is_Some (map_lookup (cond_vars s) (sas_addr ml))
    | CondWait cml mml => flushed s p /\ is_Some (map_lookup (cond_vars s) (sas_addr cml)) /\
        exists x, map_lookup (mutexes s) (sas_addr mml) = Some x /\ event_of (view s) (last_lock x) p
    | CondAwake cml mml => flushed s p /\ is_Some (map_lookup (cond_vars s) (sas_addr cml)) /\
        locked (mutex_at s (sas_addr mml)) = false
    | _ => True
    end
  end.

Lemma even_succ p q : Z.even p = true -> Z.even q = true -> p <> q + 1.
Proof. intros Hp Hq ->. by rewrite Z.even_add, Hq in Hp. Qed.

Lemma wp_perform s p c (Q : bool -> TSOTraceBuilder -> Prop) : at_event s p -> obliged s p c ->
  (forall s', running conf s' p -> (is_quiet c = true -> frame s s') -> Q true s') -> wp (perform conf c) Q s.
Proof.
  intros Hae Hob HQ. pose proof (ae_running _ _ Hae) as Hr. destruct (ae_thread _ _ Hae) as (t & rest & Ht & Hav & _).
  assert (Hfresh : forall ml b, in_range ml b = true -> fresh s b) by (intros; by eapply at_event_fresh).
  pose proof (at_event_mutex s p) as Hmx. pose proof (at_event_alt s p Hae) as Halt.
  assert (Hsig : forall a x, map_lookup (cond_vars s) a = Some x -> last_signal x < prefix_idx s).
  { intros a x Hx. destruct (rb_cond _ _ (at_event_refs _ _ Hae) _ _ Hx). lia. }
  assert (Hbuf : flushed s p -> store_buffer t = []) by (intros (t2 & Ht2 & Hb2); rewrite Ht in Ht2; by injection Ht2 as <-).
  destruct c; cbn [perform obliged is_quiet] in *; try destruct Hob as [Hp Hob].
  - apply wp_ret, HQ; [done|intros _; apply frame_refl].
  - eapply wp_spawn; [exact Hr|exact Hp|exact Ht|]. intros s' ts child aux Hr' _ _ _ _ _. by apply HQ.
  - eapply wp_store; [done|exact Hr|exact Hp|done|]. intros t' u s1 _ _ _ s' Hr'. by apply HQ.
  - destruct Hp as [bs Hsd]. destruct (Z.even p) eqn:Hev.
    + eapply wp_atomic_store_direct; [done|done|exact Hev|by apply Hob|exact Hsd|by apply Hfresh|].
      intros s' Ha _. apply HQ; [apply Ha|done].
    + assert (Hp1 : exists q, p = q + 1 /\ Z.even q = true).
      { exists (p - 1). split; [lia|]. by rewrite Z.even_sub, Hev. }
      destruct Hp1 as (q & -> & Hq). destruct (zget_Some _ _ _ Ht) as [H0 Hlen].
      pose proof (rn_inv _ _ _ Hr) as Hinv. destruct (zget_lt (threads s) q) as [tq Htq].
      { split; [|lia]. destruct (decide (q = -1)) as [->|]; [by simpl in Hq|lia]. }
      pose proof (ci_aux _ (inv_core _ _ Hinv) q (tview tq) (tview t) Hq (zget_tview _ _ _ Htq) (zget_tview _ _ _ Ht)) as Haux.
      simpl in Haux. rewrite Hav in Haux. destruct (store_buffer tq) as [|ps sb] eqn:Hsb; [done|].
      eapply wp_atomic_store_update; [done|exact Hr|exact Hq|exact Htq|exact Hsb|exact Hsd|by apply Hfresh|].
      intros s' t' u' Hr' _ _ _ _ _ _. by apply HQ.
  - destruct Hob as (Hfl & [bs Hsd] & [ev Hev]).
    eapply wp_atomic_rmw; [done|exact Hr|exact Hp|done|exact Hsd|exact Hev|by apply Hfresh|].
    intros s' Ha _. apply HQ; [apply Ha|done].
  - destruct Hob as (Hfl & bs & Hsd). eapply wp_compare_exchange; [done|exact Hr|exact Hp|done|exact Hsd|by apply Hfresh|].
    intros s' Ha _. apply HQ; [apply Ha|done].
  - eapply wp_load; [done|exact Hr|exact Hp|exact Ht|done|by apply Hfresh|]. intros s' s1 t0 _ Hr' _ _ _. by apply HQ.
  - eapply wp_full_memory_conflict; [done|exact Hr| |].
    + intros b m Hm. destruct (rb_byte _ _ (at_event_refs _ _ Hae) _ _ Hm). lia.
    + intros s' Hr' _ _ _ _. by apply HQ.
  - eapply wp_fence; [exact Hr|exact Hp|done|]. intros s' Hf Hr'. by apply HQ.
  - destruct Hob as (Hfl & Hsome & Hne). eapply wp_join; [exact Hr|done|done|done| |].
    + apply even_succ; [done|]. by rewrite Z.even_mul, orb_true_r.
    + intros s' _ Hr'. by apply HQ.
  - destruct Hob as (Hfl & Hl). eapply wp_mutex_lock; [done|exact Hr|exact Hp|done|done|by apply Hmx|].
    intros s' Hm. apply HQ; [apply Hm|done].
  - destruct Hob as (Hfl & Hk). eapply wp_mutex_trylock; [done|exact Hr|exact Hp|done|done|by apply Hmx|].
    intros s' Hm. apply HQ; [apply Hm|done].
  - destruct Hob as (Hfl & Hk & H0). eapply wp_mutex_unlock; [done|exact Hr|exact Hp|done|done|split; [done|by apply Hmx]|].
    intros s' Hm. apply HQ; [apply Hm|done].
  - eapply wp_mutex_init; [done|exact Hr|exact Hp|done|by apply Hmx|]. intros s' Hm. apply HQ; [apply Hm|done].
  - destruct Hob as (Hfl & Hk). eapply wp_mutex_destroy; [done|exact Hr|exact Hp|done|done|].
    intros s' Hm. apply HQ; [apply Hm|done].
  - destruct Hob as (Hfl & Hk). eapply wp_cond_init; [done|exact Hr|exact Hp|done|done|]. intros s' Hr' _ _. by apply HQ.
  - destruct Hob as (Hfl & x & Hx). eapply (wp_cond_signal conf Hchecks s p t _ x 0);
      [exact Hr|exact Hp|exact Ht|done|by apply Hbuf|done|done| |].
    + intros Hne. destruct (waiters x); [done|simpl; lia].
    + intros s' Hr' _ _ _. by apply HQ.
  - destruct Hob as (Hfl & x & Hx). eapply wp_cond_broadcast; [done|exact Hr|exact Hp|exact Ht|done|by apply Hbuf|done|].
    intros s' Hr' _ _ _ _ _. by apply HQ.
  - destruct Hob as (Hfl & [x Hx] & y & Hy & Hev).
    eapply wp_cond_wait; [done|exact Hr|exact Hp|exact Ht|done|by apply Hbuf|exact Hy|done| |exact Hx|].
    + specialize (Hmx (sas_addr mutex_ml) Hae). unfold mutex_at in Hmx. by rewrite Hy in Hmx.
    + intros s' t' Hr' _ _ _ _ _. by apply HQ.
  - destruct Hob as (Hfl & [x Hx] & Hl). eapply wp_cond_awake; [done|exact Hr|exact Hp|done|exact Hx|by eapply Hsig|done|by apply Hmx|].
    intros s' Hm. apply HQ; [apply Hm|done].
  - destruct Hob as (Hfl & x & Hx). apply wp_bind. eapply wp_cond_destroy; [done|exact Hr|exact Hp|done|exact Hx|].
    intros s' Hr' _ _. apply wp_ret. by apply HQ.
  - eapply wp_register_alternatives; [exact Hr|exact Halt|]. intros s' _ Hr'. by apply HQ.
Qed.

(** *** Availability and refusals *)

Lemma even_thread s p t v W : inv conf s -> Z.even p = true -> zget (threads s) p = Some t ->
  W = (fun q => bool_decide (q = p)) ->
  avail_set v W (threads s) (<[Z.to_nat p := set_available v t]> (threads s)).
Proof.
  intros Hinv Hp Ht ->. split; [by rewrite length_insert|]. intros q u Hu.
  rewrite zget_insert by (by eapply zget_Some). case_bool_decide as Hq.
  - subst q. rewrite decide_True by done. rewrite Ht in Hu. by injection Hu as <-.
  - rewrite decide_False by done. rewrite Hu. by destruct u.
Qed.

Lemma inv_avail s p t v : inv conf s -> Z.even p = true -> zget (threads s) p = Some t ->
  (v = true -> forall a k, ~ waiter_at (view s) a k p) ->
  inv conf (set_threads (<[Z.to_nat p := set_available v t]> (threads s)) s).
Proof.
  intros Hinv Hp Ht Hv. pose proof (even_thread s p t v _ Hinv Hp Ht eq_refl) as Hav.
  set (ts := <[Z.to_nat p := set_available v t]> (threads s)) in *.
  destruct (threads_ok_avail conf s v (fun q => bool_decide (q = p)) ts Hinv) as [Hto Hsl]; [|done|].
  { intros q Hq%bool_decide_eq_true. by subst. }
  assert (Hs : set_threads ts s = set_cond_vars (cond_vars s) (set_threads ts s)) by (by destruct s).
  rewrite Hs. apply inv_set_waits; [done|done| |done]. destruct (conds_ok_self conf s Hinv) as [H1 H2 H3].
  split; [done| |done]. intros a c i Hc Hi. destruct (H2 a c i Hc Hi) as (q & Hev & Hq & u & Hu & Hun).
  exists q. split; [exact Hev|]. split; [done|]. cbn [v_threads view_with_waits]. cbn [v_threads view] in Hu. rewrite zget_map in Hu.
  destruct (zget (threads s) q) as [u0|] eqn:Hu0; [|done]. simpl in Hu. injection Hu as <-.
  exists (tview (set_available (if bool_decide (q = p) then v else available u0) u0)). split.
  { rewrite zget_map. by rewrite (as_at _ _ _ _ Hav _ _ Hu0). }
  simpl. case_bool_decide as Hqp; [|done]. subst q. destruct v; [|done]. exfalso.
  apply list_elem_of_lookup in Hi as [k Hk]. apply (Hv eq_refl a k). exists c, i. split_and!; [done|done|apply Hev].
Qed.

Lemma settled_avail s p t v : settled s -> Z.even p = true -> zget (threads s) p = Some t ->
  (v = true -> forall a k, ~ waiter_at (view s) a k p) ->
  settled (set_threads (<[Z.to_nat p := set_available v t]> (threads s)) s).
Proof.
  intros Hs Hp Ht Hv. pose proof (inv_avail s p t v (se_inv _ Hs) Hp Ht Hv) as Hinv.
  eapply (settled_kept true); [done| |done|right; split; [done|]].
  - split; try done; eauto using kept_refl. intros q u Hu. cbn [threads set_threads].
    rewrite zget_insert by (by eapply zget_Some). case_decide; [|by exists u].
    subst q. rewrite Ht in Hu. injection Hu as <-. by exists (set_available v t).
  - intros c Hc. split; try apply Hc. intros q u ps. cbn [v_threads view threads set_threads]. rewrite zget_map.
    rewrite zget_insert by (by eapply zget_Some). case_decide.
    + subst q. intros [= <-] Hps. eapply (rb_pending _ _ Hc p (tview t)); [by apply zget_tview|done].
    + destruct (zget (threads s) q) as [u0|] eqn:Hu0; [|done]. intros [= <-] Hps.
      eapply (rb_pending _ _ Hc q (tview u0)); [by apply zget_tview|done].
Qed.

Lemma wp_mark s p t v (Q : unit -> TSOTraceBuilder -> Prop) : settled s -> Z.even p = true -> zget (threads s) p = Some t ->
  Q tt (set_threads (<[Z.to_nat p := set_available v t]> (threads s)) s) ->
  wp (q ← ipid (proc_of p) (-1); thread_upd q (set_available v)) Q s.
Proof.
  intros Hs Hp Ht HQ. unfold ipid. apply wp_bind. wp_assert; [done|]. wp_gets.
  pose proof (zget_Some _ _ _ Ht) as Hlt. destruct (even_pair conf s p (se_inv _ Hs) Hp Hlt) as [u Hu].
  pose proof (zget_Some _ _ _ Hu) as Hlu. unfold proc_of.
  assert (Hq : Z.quot p 2 * 2 = p).
  { pose proof (Z.quot_rem' p 2) as Hqr. destruct (rem_odd p) as [_ Hr0]; [lia|done|]. lia. }
  rewrite Hq. wp_assert; [apply bool_decide_eq_true; lia|]. rewrite decide_False by done. apply wp_ret.
  by eapply wp_thread_upd_raw.
Qed.

(** A refused event is forgotten, and its thread waits to be woken. *)
(** The last event, by [p], is gone, and [p] is unavailable. *)
Definition undone (s : TSOTraceBuilder) (p : Z) (s' : TSOTraceBuilder) : Prop :=
  exists b t rest, delete_last branch_eq (prefix s) = Some b /\ zget (threads s) p = Some t /\
    event_indices t = rest ++ [prefix_idx s] /\
    s' = set_threads (<[Z.to_nat p := set_available false (set_event_indices rest t)]> (threads s))
           (set_prefix_idx (prefix_idx s - 1) (set_prefix b s)).

Lemma wp_refuse_schedule s p (Q : unit -> TSOTraceBuilder -> Prop) : at_event s p -> Z.even p = true -> 0 < prefix_idx s ->
  (forall s', ready_settled s' -> prefix_idx s' = prefix_idx s - 1 -> undone s p s' -> Q tt s') -> wp refuse_schedule Q s.
Proof.
  intros Hae Hp Hpos HQ. pose proof (ae_settled _ _ Hae) as Hs. pose proof (se_top _ Hs) as Htop.
  destruct (ae_event _ _ Hae) as (e & He & Hmc & Hsl). pose proof (ae_branch _ _ Hae) as Hbr.
  destruct (ae_thread _ _ Hae) as (t & rest & Ht & Hav & _ & Hrest & Hlow & Hlast).
  destruct (se_local _ Hs _ _ He Hmc) as (_ & Hwk & _).
  pose proof (rn_event _ _ _ (ae_running _ _ Hae)) as [_ Hpid].
  assert (Hpe : iid_pid (iid e) = p).
  { unfold pid_of in Hpid. simpl in Hpid. rewrite zget_map, He in Hpid. by injection Hpid. }
  pose proof (ax_branch _ (inv_ax _ _ (se_inv _ Hs))) as Hbi.
  assert (Hk : (length (events (prefix s)) - 1)%nat = Z.to_nat (prefix_idx s)) by lia.
  unfold refuse_schedule, pfx_len. wp_gets. wp_gets. wp_assert; [apply bool_decide_eq_true; unfold buf_len; lia|].
  apply wp_bind. eapply wp_of_prefix.
  { unfold lastbranch. rewrite buf_branch_siblings by (unfold buf_len; lia). unfold buf_len. by rewrite Hk, Hbr. }
  wp_assert; [done|]. apply wp_bind. eapply wp_of_prefix; [by apply vback_events|].
  wp_assert; [by rewrite Hmc|]. wp_assert; [by rewrite Hsl|]. wp_assert; [by rewrite Hwk|].
  apply wp_bind. rewrite decide_True by lia. eapply wp_of_prefix.
  { rewrite children_after_siblings by (unfold buf_len; lia). by rewrite Hbr. }
  wp_assert; [done|]. cbv zeta.
  destruct (delete_last_spec branch_eq (prefix s) branch_eq_refl Hbi) as (b1 & Hdel & _ & Hev1 & _); [unfold buf_len; lia|].
  destruct (delete_last_siblings branch_eq _ _ Hdel Hbi branch_eq_refl) as (Hbelow & n & c & cs & Hn & Hc & Hleaf).
  unfold buf_len in *. rewrite Hk in Hn, Hleaf.
  assert (Hcs : cs = []) by (unfold siblings in Hbr; rewrite Hn in Hbr; simpl in Hbr; rewrite Hc in Hbr; by destruct cs).
  subst cs. apply wp_bind. eapply wp_on_prefix; [exact Hdel|]. rewrite Hpe.
  apply wp_bind. eapply wp_thread; [exact Ht|]. apply wp_bind. eapply wp_lift; [by unfold vback; rewrite Hrest, last_snoc|].
  wp_assert; [by apply bool_decide_eq_true|]. apply wp_bind. eapply wp_lift; [rewrite Hrest; apply vpop_snoc|].
  apply wp_bind. eapply wp_thread_upd_raw; [exact Ht|]. apply wp_bind, wp_modify.
  set (s1 := set_prefix_idx _ _).
  assert (Hs1 : ready_settled s1).
  { destruct (settled_siblings s (prefix_idx s - 1) Hs) as (old & l & Hold); [lia|].
    eapply (merged_settled s Hs Hpos (ex_intro _ e (conj He Hmc)) p t rest b1 old old); [done|done| |done|done| | | |done].
    - intros i Hi. destruct (ci_indices _ (inv_core _ _ (se_inv _ Hs)) p (tview t) i) as [Hle Hpi]; [by apply zget_tview| |].
      { simpl. rewrite Hrest. apply elem_of_app. by left. }
      simpl in Hle. specialize (Hlow i Hi). split; [lia|done].
    - by rewrite Hk.
    - intros i Hi. apply Hbelow. lia.
    - exists l. rewrite Hbelow by lia. replace (Z.to_nat (prefix_idx s) - 1)%nat with (Z.to_nat (prefix_idx s - 1)) by lia. done. }
  assert (Ht1 : zget (threads s1) p = Some (set_event_indices rest t)).
  { cbn [threads s1 set_prefix_idx set_threads set_prefix]. rewrite zget_insert by (by eapply zget_Some). by rewrite decide_True. }
  unfold mark_unavailable. assert (Haux : aux_of p = -1).
  { unfold aux_of. destruct (rem_odd p) as [_ ->]; [by apply zget_Some in Ht as [? _]|done|done]. }
  rewrite Haux. eapply wp_mark; [apply Hs1|done|exact Ht1|]. apply HQ.
  - split; [by apply settled_avail; [apply Hs1|..]|]. intros i Hi. apply (proj2 Hs1 i). exact Hi.
  - done.
  - exists b1, t, rest. split_and!; [done..|]. unfold s1. cbn [threads set_threads set_prefix_idx set_prefix prefix_idx].
    by rewrite list_insert_insert_eq.
Qed.

(** *** A failed lock acquisition *)

Lemma at_event_frame s s' p : at_event s p -> frame s s' -> kept_state true s s' -> running conf s' p ->
  (forall q t', zget (threads s') q = Some t' -> exists t, zget (threads s) q = Some t /\ sleeping t' = sleeping t) ->
  at_event s' p.
Proof.
  intros Hae Hf Hk Hr Hsl. pose proof (frame_idx _ _ Hf) as Hi.
  assert (Hs' : settled s').
  { eapply settled_kept; [apply Hae|exact Hk|apply Hr|right; split; [done|]]. intros c. by rewrite (fr_view _ _ Hf). }
  destruct (ae_event _ _ Hae) as (e & He & Hmc & Hse). destruct (ks_event _ _ _ Hk _ _ He) as (e' & He' & _ & Hse' & _ & Hq).
  destruct Hq as (Hmc' & _); [by left|].
  destruct (ae_thread _ _ Hae) as (t & rest & Ht & Hav & Hslp & Hrest & Hlow & Hlast).
  destruct (ks_thread _ _ _ Hk _ _ Ht) as (t' & Ht' & Hind). destruct (frame_thread _ _ _ _ Hf Ht) as (t2 & Ht2 & Hv).
  rewrite Ht' in Ht2. injection Ht2 as <-. destruct (Hsl _ _ Ht') as (t3 & Ht3 & Hsl3). rewrite Ht in Ht3. injection Ht3 as <-.
  split; [done|done| | |].
  - exists e'. rewrite Hi. split_and!; [done|congruence|congruence].
  - rewrite Hi, (kept_siblings _ _ _ _ Hk). apply Hae.
  - exists t', rest. rewrite Hi. split_and!; [done| |congruence|congruence|done|].
    + rewrite <- Hav. exact (f_equal v_available Hv).
    + intros i. rewrite (kept_pid _ _ _ _ Hk). intros Hp Hlt Hno. apply Hlast; [done|done|].
      intros j Hj. rewrite <- (kept_pid _ _ _ _ Hk). by apply Hno.
Qed.

Lemma put_nothing_kept s rs : kept_state true s (set_lock_fail_races rs s).
Proof. split; try done; eauto using kept_refl. Qed.

(** The thread that found the mutex locked is refused. *)
Definition lock_refused (ml : SymAddrSize) : M bool := and_then (mutex_lock_fail conf ml) (_ ← refuse_schedule; mret true).

Lemma wp_lock_refused s p ml (Q : bool -> TSOTraceBuilder -> Prop) :
  at_event s p -> Z.even p = true -> 0 < prefix_idx s ->
  is_Some (map_lookup (mutexes s) (sas_addr ml)) -> 0 <= last_lock (mutex_at s (sas_addr ml)) ->
  (forall s' rs, ready_settled s' -> prefix_idx s' = prefix_idx s - 1 ->
     (forall r, r ∈ rs -> r_kind r = LOCK_FAIL /\ 0 <= r_first r < prefix_idx s /\ r_second r = prefix_idx s) ->
     (let s1 := set_lock_fail_races (lock_fail_races s ++ rs) s in at_event s1 p /\ undone s1 p s') -> Q true s') -> wp (lock_refused ml) Q s.
Proof.
  intros Hae Hp Hpos Hsome H0 HQ. pose proof (ae_running _ _ Hae) as Hr.
  pose proof (mi_order _ _ (mutex_at_inv conf s (sas_addr ml) (rn_inv _ _ _ Hr))) as Hord.
  pose proof (at_event_mutex s p (sas_addr ml) Hae) as Hlt. pose proof (rb_lfmc _ _ (at_event_refs _ _ Hae)) as Hl. simpl in Hl.
  destruct (ae_event _ _ Hae) as (e & He & _). unfold lock_refused. apply wp_or_return.
  eapply wp_mutex_lock_fail; [exact Hr|exact He|done|lia|lia|]. split; [done|].
  set (s1 := set_lock_fail_races _ s). destruct (set_lock_fail_races_frame conf s (lock_fail_races s1) (rn_inv _ _ _ Hr)) as [Hf Hinv1].
  fold s1 in Hf, Hinv1. assert (Hs1 : set_lock_fail_races (lock_fail_races s1) s = s1) by done. rewrite Hs1 in Hf, Hinv1.
  assert (Hae1 : at_event s1 p).
  { apply (at_event_frame s); [done|done|by eapply put_nothing_kept|by eapply running_step; [exact Hr|apply Hf|]|]. eauto. }
  apply wp_bind. eapply wp_refuse_schedule; [exact Hae1|done|done|]. intros s' Hs' Hi Hun. apply wp_ret.
  eapply HQ; [done|done| |by split]. intros r Hr'. apply list_elem_of_fmap in Hr' as (i & -> & Hi'). cbn. split_and!; [done|..|done];
    apply elem_of_cons in Hi' as [->|Hi']; try lia; case_decide; apply list_elem_of_In in Hi'; cbn in Hi'; lia.
Qed.

End run.
