(* ===== verification/TSOSafety.v ===== *)
(** * TSOSafety: what the TSO trace builder promises

    The executions of the interpreter as a step relation over the trace
    builder, with reachability; then, for every state an execution can be in,
    what scheduling and each registration method do. *)

From S2P Require Import Prelude StdMap VecSet CPid SymAddr ByteOps SymEv ReplayMem WakeupTree TSOState TSOOps.
From S2P Require Import TSOHandlers TSOSched TSOInv TSOMem TSOSync TSOKeeps TSORun.

Local Open Scope Z_scope.

(** ** Executions *)

(** [proc*2] for a real thread, [proc*2+1] for its auxiliary thread. *)
Definition choice_pid (ch : Choice) : Z := c_proc ch * 2 + (c_aux ch + 1).

(** What the assertions about conflicts ([check_conflicts]) rest on besides:
    an auxiliary thread commits the front of the store buffer; the newest pending
    store that overlaps a load has its range, or the load is refused
    (TSOInterpreter.cpp, [commitAuxStore] and [checkRefuse]); the objects of
    pthreads are valid bytes. *)
Definition forwardable (s : TSOTraceBuilder) (p : Z) (ml : SymAddrSize) : Prop :=
  forall t k ps, zget (threads s) p = Some t -> store_buffer t !! k = Some ps -> sas_overlaps ml (ps_ml ps) = true ->
    (forall j ps', (k < j)%nat -> store_buffer t !! j = Some ps' -> sas_overlaps ml (ps_ml ps') = false) -> ps_ml ps = ml.
Definition well_ranged (s : TSOTraceBuilder) (p : Z) (c : call) : Prop :=
  match c with
  | AtomicStore sd => Z.even p = false -> exists t ps sb, zget (threads s) (p - 1) = Some t /\ store_buffer t = ps :: sb /\ ps_ml ps = sdr_ref sd
  | Load ml => forwardable s p ml
  | MutexLock ml | MutexTrylock ml | MutexUnlock ml | MutexInit ml | MutexDestroy ml
  | CondInit ml | CondSignal ml | CondBroadcast ml | CondDestroy ml => sas_ok ml
  | CondWait cml mml | CondAwake cml mml => sas_ok cml /\ sas_ok mml
  | _ => True
  end.

(** Between scheduling and the call the interpreter may fence: pthread_create,
    pthread_join and external functions do. *)
Inductive prepared (s : TSOTraceBuilder) (p : Z) : TSOTraceBuilder -> Prop :=
  | prepared_now : prepared s p s
  | prepared_fence s' : Z.even p = true -> flushed s p -> fence s = Some (true, s') -> prepared s p s'.

(** One round of the interpreter: a scheduled call, a refusal (an instruction
    that has to wait, or a lock that is taken), the end of the execution, or a
    thread that is put to sleep or woken. *)
Inductive action :=
  | Call (c : call)
  | Refuse
  | LockFail (ml : SymAddrSize)
  | Stop
  | SetAvailable (proc : Z) (v : bool).

(** The trace index is an [int]. *)
Definition room (s : TSOTraceBuilder) : Prop := Z.of_nat (length (events (prefix s))) < 2 ^ 31.

Definition waits (s : TSOTraceBuilder) (p : Z) : Prop := exists a k, waiter_at (view s) a k p.

Inductive step (conf : Configuration) (s : TSOTraceBuilder) : action -> TSOTraceBuilder -> Prop :=
  | step_call c ch s0 s1 s2 : room s -> schedule conf s = Some (Some ch, s0) -> prepared s0 (choice_pid ch) s1 ->
      obliged conf s1 (choice_pid ch) c -> (check_conflicts conf = true -> well_ranged s1 (choice_pid ch) c) ->
      perform conf c s1 = Some (true, s2) -> step conf s (Call c) s2
  | step_refuse ch s1 s2 : room s -> schedule conf s = Some (Some ch, s1) ->
      c_aux ch = -1 -> 0 < prefix_idx s1 -> refuse_schedule s1 = Some (tt, s2) -> step conf s Refuse s2
  | step_lock_fail ml ch s1 s2 : room s -> schedule conf s = Some (Some ch, s1) -> c_aux ch = -1 -> 0 < prefix_idx s1 ->
      is_Some (map_lookup (mutexes s1) (sas_addr ml)) -> 0 <= last_lock (mutex_at s1 (sas_addr ml)) ->
      lock_refused conf ml s1 = Some (true, s2) -> step conf s (LockFail ml) s2
  | step_stop s1 : room s -> schedule conf s = Some (None, s1) -> step conf s Stop s1
  | step_available proc v s1 : events (prefix s) <> [] -> 0 <= proc -> proc * 2 < Z.of_nat (length (threads s)) ->
      (v = true -> ~ waits s (proc * 2)) ->
      (if v then mark_available proc (-1) else mark_unavailable proc (-1)) s = Some (tt, s1) ->
      step conf s (SetAvailable proc v) s1.

Inductive reachable (conf : Configuration) : TSOTraceBuilder -> Prop :=
  | reachable_new s : TSOTraceBuilder_new = Some s -> reachable conf s
  | reachable_step s a s' : reachable conf s -> step conf s a s' -> reachable conf s'.

Section safety.
Context (conf : Configuration) (Hchecks : check_conflicts conf = false).

Lemma choice_pid_of p : 0 <= p -> choice_pid (choice_of p) = p.
Proof.
  intros Hp. unfold choice_pid, choice_of, proc_of. cbn [c_proc c_aux]. pose proof (Z.quot_rem' p 2) as Hqr.
  pose proof (Z.rem_bound_pos p 2 Hp ltac:(lia)). case_decide; lia.
Qed.
Lemma choice_even p : 0 <= p -> c_aux (choice_of p) = -1 -> Z.even p = true.
Proof.
  intros Hp. unfold choice_of. cbn [c_aux]. case_decide as Hr; [done|]. intros _.
  pose proof (Z.rem_bound_pos p 2 Hp ltac:(lia)). apply Z.even_spec. exists (Z.quot p 2).
  pose proof (Z.quot_rem' p 2). lia.
Qed.

(** The initial state, or one between two instructions. *)
Definition idle (s : TSOTraceBuilder) : Prop :=
  settled conf s \/ exists cps aux, s = initial_state cps aux /\ cps_inv cps /\ cpids cps = [CPid_root; aux].

Lemma at_event_nonneg s p : at_event conf s p -> 0 <= p.
Proof. intros Hae. destruct (ae_thread _ _ _ Hae) as (t & rest & Ht & _). by apply zget_Some in Ht as [? _]. Qed.

Lemma wp_idle_schedule s (Q : option Choice -> TSOTraceBuilder -> Prop) : idle s -> room s ->
  (forall s' p, scheduled conf s s' p -> chosen conf (threads s) p -> Q (Some (choice_of p)) s') ->
  (forall s', idle s' -> retraced s s' -> (forall i, ~ mergeable s' i) -> none_schedulable conf (threads s) -> Q None s') ->
  wp (schedule conf) Q s.
Proof.
  intros [Hs|(cps & aux & -> & Hcps & Hids)] Hroom Hsome Hnone.
  - apply wp_schedule; [done|done|done|done|]. intros s' [Hs' Hm] Hrt Hn. apply Hnone; [by left|done..].
  - apply wp_schedule_initial; [done|done|by intros; apply Hsome|]. intros Hn. apply Hnone; [right; eauto|apply retraced_refl| |done].
    intros i (_ & e & _ & _ & He & _). apply zget_Some in He. cbn in He. lia.
Qed.

Lemma schedule_at_event s ch s1 : idle s -> room s -> schedule conf s = Some (Some ch, s1) ->
  scheduled conf s s1 (choice_pid ch) /\ chosen conf (threads s) (choice_pid ch) /\ (c_aux ch = -1 -> Z.even (choice_pid ch) = true).
Proof.
  intros Hi Hroom Hs.
  assert (Hwp : wp (schedule conf) (fun r s1 => forall ch, r = Some ch -> scheduled conf s s1 (choice_pid ch) /\
    chosen conf (threads s) (choice_pid ch) /\ (c_aux ch = -1 -> Z.even (choice_pid ch) = true)) s).
  { apply wp_idle_schedule; [done|done| |done]. intros s' p Hae Hch ch' [= <-]. pose proof (at_event_nonneg _ _ (proj1 Hae)).
    rewrite choice_pid_of by done. split_and!; [done|done|by apply choice_even]. }
  unfold wp in Hwp. rewrite Hs in Hwp. by apply Hwp.
Qed.

(** A call that meets its obligations succeeds and settles. *)
Lemma call_settles s p c : at_event conf s p -> obliged conf s p c ->
  exists s', perform conf c s = Some (true, s') /\ settled conf s'.
Proof.
  intros Hae Hob. pose proof (ae_running _ _ _ Hae) as Hr.
  assert (Hwp : wp (perform conf c) (fun ok s' => ok = true /\ running conf s' p /\ (is_quiet c = true -> frame s s')) s)
    by (by eapply wp_perform; [done|exact Hae|exact Hob|]).
  apply wp_total in Hwp as (ok & s' & Hp & -> & Hr' & Hq). exists s'. split; [done|].
  eapply settled_kept; [apply Hae|by eapply keeps_perform|apply Hr'|]. destruct (is_quiet c) eqn:E.
  - right. split; [done|]. intros x. by rewrite (fr_view _ _ (Hq eq_refl)).
  - left. eapply (marks_perform conf c E); [apply Hr|exact Hp|done].
Qed.

(** A fence leaves the threads and the event as they were. *)
Definition same_threads (s s' : TSOTraceBuilder) : Prop := threads s' = threads s.
#[local] Instance same_threads_reflexive : Reflexive same_threads.
Proof. done. Qed.
#[local] Instance same_threads_transitive : Transitive same_threads.
Proof. intros s1 s2 s3 H1 H2. unfold same_threads in *. congruence. Qed.
Lemma fence_threads : always same_threads fence.
Proof.
  always_walk ltac:(fun _ => first [apply always_curev_upd; by intros|apply always_pfx_upd; by intros]).
Qed.
Lemma prepared_view s p s' : at_event conf s p -> prepared s p s' -> view s' = view s /\ at_event conf s' p.
Proof.
  intros Hae [|s1 Hp Hfl Hf]; [done|]. pose proof (ae_running _ _ _ Hae) as Hr.
  assert (Hwp : wp fence (fun _ s1 => frame s s1 /\ running conf s1 p) s) by (by eapply wp_fence).
  unfold wp in Hwp. rewrite Hf in Hwp. destruct Hwp as [Hfr Hr1]. split; [apply Hfr|].
  apply (at_event_frame conf s s1 p Hae Hfr); [by eapply (keeps_fence true)|done|].
  intros q t' Ht'. assert (Hth : threads s1 = threads s) by (by eapply fence_threads). rewrite Hth in Ht'. by exists t'.
Qed.
Lemma prepared_at_event s p s' : at_event conf s p -> prepared s p s' -> at_event conf s' p.
Proof. intros Hae Hpre. by apply (prepared_view s p s'). Qed.
Lemma prepared_idx s p s' : at_event conf s p -> prepared s p s' -> prefix_idx s' = prefix_idx s.
Proof. intros Hae Hpre. apply (f_equal v_idx (proj1 (prepared_view s p s' Hae Hpre))). Qed.

(** The fence as a call of its own. *)
Lemma prepared_fences s p s' : prepared s p s' -> s' = s \/ obliged conf s p Fence /\ perform conf Fence s = Some (true, s').
Proof. intros [|s1 Hp Hfl Hf]; [by left|right; by repeat split]. Qed.
Lemma prepared_always (R : TSOTraceBuilder -> TSOTraceBuilder -> Prop) `{!Reflexive R} s p s' : always R (perform conf Fence) -> prepared s p s' -> R s s'.
Proof. intros HR [->|[_ Hf]]%prepared_fences; [done|]. by eapply HR. Qed.

Lemma refuse_settles s p : at_event conf s p -> Z.even p = true -> 0 < prefix_idx s ->
  exists s', refuse_schedule s = Some (tt, s') /\ settled conf s'.
Proof.
  intros Hae Hp Hpos.
  assert (Hwp : wp refuse_schedule (fun _ s' => settled conf s') s)
    by (eapply wp_refuse_schedule; [exact Hae|done|done|]; by intros s' [Hs' _]).
  apply wp_total in Hwp as ([] & s' & ? & ?). eauto.
Qed.
Lemma lock_fail_settles s p ml : at_event conf s p -> Z.even p = true -> 0 < prefix_idx s ->
  is_Some (map_lookup (mutexes s) (sas_addr ml)) -> 0 <= last_lock (mutex_at s (sas_addr ml)) ->
  exists s', lock_refused conf ml s = Some (true, s') /\ settled conf s'.
Proof.
  intros Hae Hp Hpos Hm Hl.
  assert (Hwp : wp (lock_refused conf ml) (fun ok s' => ok = true /\ settled conf s') s)
    by (eapply wp_lock_refused; [exact Hae|done|done|done|done|]; by intros s' rs [Hs' _]).
  apply wp_total in Hwp as (ok & s' & ? & -> & ?). eauto.
Qed.
Lemma set_available_settles s proc v : settled conf s -> 0 <= proc -> proc * 2 < Z.of_nat (length (threads s)) ->
  (v = true -> ~ waits s (proc * 2)) ->
  exists s', (if v then mark_available proc (-1) else mark_unavailable proc (-1)) s = Some (tt, s') /\ settled conf s'.
Proof.
  intros Hs H0 Hlt Hw. destruct (zget_lt (threads s) (proc * 2)) as [t Ht]; [lia|].
  assert (Hev : Z.even (proc * 2) = true) by (by rewrite Z.even_mul, orb_true_r).
  assert (Hpr : proc_of (proc * 2) = proc) by (unfold proc_of; by apply Z.quot_mul).
  assert (Hwp : wp (q ← ipid (proc_of (proc * 2)) (-1); thread_upd q (set_available v)) (fun _ s' => settled conf s') s).
  { eapply wp_mark; [exact Hs|done|exact Ht|]. apply settled_avail; [done|done|done|]. intros Hv a k Hat. apply (Hw Hv).
    by exists a, k. }
  rewrite Hpr in Hwp. apply wp_total in Hwp as ([] & s' & Hr & Hs'). exists s'. by destruct v.
Qed.

Lemma reachable_idle s : reachable conf s -> idle s.
Proof.
  induction 1 as [s Hs|s a s' _ IH Hst].
  - right. destruct new_initial as (cps & aux & Hnew & Hcps & Hids). rewrite Hnew in Hs. injection Hs as <-. eauto.
  - inversion Hst as [c ch s0 s1 s2 Hroom Hsch Hpre Hob _ Hp|ch s1 s2 Hroom Hsch Haux Hpos Hr|ml ch s1 s2 Hroom Hsch Haux Hpos Hm Hl Hr
      |s1 Hroom Hsch|proc v s1 Hne H0 Hlt Hw Hr]; subst.
    + left. destruct (schedule_at_event _ _ _ IH Hroom Hsch) as ((Hae & _) & _).
      destruct (call_settles _ _ _ (prepared_at_event _ _ _ Hae Hpre) Hob) as (s2' & Hp' & Hs'). rewrite Hp in Hp'. by injection Hp' as <-.
    + left. destruct (schedule_at_event _ _ _ IH Hroom Hsch) as ((Hae & _) & _ & Hev).
      destruct (refuse_settles _ _ Hae (Hev Haux) Hpos) as (s2' & Hp' & Hs'). rewrite Hr in Hp'. by injection Hp' as <-.
    + left. destruct (schedule_at_event _ _ _ IH Hroom Hsch) as ((Hae & _) & _ & Hev).
      destruct (lock_fail_settles _ _ ml Hae (Hev Haux) Hpos Hm Hl) as (s2' & Hp' & Hs'). rewrite Hr in Hp'. by injection Hp' as <-.
    + assert (Hwp : wp (schedule conf) (fun r s1 => r = None -> idle s1) s).
      { apply wp_idle_schedule; [done|done|done|]. by intros s2 Hs2 _ _ _. }
      unfold wp in Hwp. rewrite Hsch in Hwp. by apply Hwp.
    + destruct IH as [Hs|(cps & aux & -> & _)]; [|done].
      left. destruct (set_available_settles s proc v Hs H0 Hlt Hw) as (s2 & Hr2 & Hs2). rewrite Hr in Hr2. by injection Hr2 as <-.
Qed.

End safety.

(** ** Running scripts

    The same executions as a function, which checks the obligations. *)

Definition sas_okb (a : SymAddrSize) : bool :=
  bool_decide (0 <= mb_pid (sa_block (sas_addr a)) <= UINT16_MAX /\ INT16_MIN <= mb_alloc (sa_block (sas_addr a)) <= INT16_MAX /\
    0 <= sa_offset (sas_addr a) <= UINT32_MAX /\ 0 <= sas_size a <= UINT16_MAX /\
    0 < sas_size a /\ sa_offset (sas_addr a) + sas_size a < 2 ^ 32).
Definition sdr_okb (sd : SymDataRef) : bool :=
  match sdr_block sd with
  | Some bs => sas_okb (sdr_ref sd) && bool_decide (length bs = Z.to_nat (sas_size (sdr_ref sd))) &&
               bool_decide (Forall (fun b => 0 <= b < 256) bs)
  | None => false
  end.
Definition flushedb (s : TSOTraceBuilder) (p : Z) : bool :=
  match zget (threads s) p with Some t => bool_decide (store_buffer t = []) | None => false end.
Definition knownb (conf : Configuration) (s : TSOTraceBuilder) (a : SymAddr) : bool :=
  negb (mutex_require_init conf) || bool_decide (is_Some (map_lookup (mutexes s) a)).
Definition obligedb (conf : Configuration) (s : TSOTraceBuilder) (p : Z) (c : call) : bool :=
  match c with
  | AtomicStore sd => sdr_okb sd && (negb (Z.even p) || flushedb s p)
  | _ => Z.even p &&
    match c with
    | Store sd => sas_okb (sdr_ref sd)
    | Load ml => sas_okb ml
    | AtomicRmw sd action => flushedb s p && sdr_okb sd && bool_decide (is_Some (SymEv_Rmw sd action))
    | CompareExchange sd _ _ => flushedb s p && sdr_okb sd
    | Join tgt => flushedb s (tgt * 2) && bool_decide (is_Some (zget (threads s) (tgt * 2 + 1))) && negb (p =? tgt * 2)
    | Fence | MutexInit _ => flushedb s p
    | MutexLock ml => flushedb s p && negb (locked (mutex_at s (sas_addr ml)))
    | MutexTrylock ml | MutexDestroy ml => flushedb s p && knownb conf s (sas_addr ml)
    | MutexUnlock ml => flushedb s p && knownb conf s (sas_addr ml) && (0 <=? last_access (mutex_at s (sas_addr ml)))
    | CondInit ml => flushedb s p && bool_decide (map_lookup (cond_vars s) (sas_addr ml) = None)
    | CondSignal ml | CondBroadcast ml | CondDestroy ml =>
      flushedb s p && bool_decide (is_Some (map_lookup (cond_vars s) (sas_addr ml)))
    | CondWait cml mml => flushedb s p && bool_decide (is_Some (map_lookup (cond_vars s) (sas_addr cml))) &&
        match map_lookup (mutexes s) (sas_addr mml) with
        | Some x => bool_decide (0 <= last_lock x <= prefix_idx s) && bool_decide (pid_of (view s) (last_lock x) = Some p)
        | None => false
        end
    | CondAwake cml mml => flushedb s p && bool_decide (is_Some (map_lookup (cond_vars s) (sas_addr cml))) &&
        negb (locked (mutex_at s (sas_addr mml)))
    | _ => true
    end
  end.

Definition forwardableb (s : TSOTraceBuilder) (p : Z) (ml : SymAddrSize) : bool :=
  match zget (threads s) p with
  | Some t => match List.find (fun ps => sas_overlaps ml (ps_ml ps)) (reverse (store_buffer t)) with
              | Some ps => sas_eq (ps_ml ps) ml | None => true end
  | None => true
  end.
Definition well_rangedb (s : TSOTraceBuilder) (p : Z) (c : call) : bool :=
  match c with
  | AtomicStore sd => Z.even p || match zget (threads s) (p - 1) with
      | Some t => match store_buffer t with ps :: _ => sas_eq (ps_ml ps) (sdr_ref sd) | [] => false end | None => false end
  | Load ml => forwardableb s p ml
  | MutexLock ml | MutexTrylock ml | MutexUnlock ml | MutexInit ml | MutexDestroy ml
  | CondInit ml | CondSignal ml | CondBroadcast ml | CondDestroy ml => sas_okb ml
  | CondWait cml mml | CondAwake cml mml => sas_okb cml && sas_okb mml
  | _ => true
  end.

#[export] Instance CondVar_eq_dec : EqDecision CondVar.
Proof. solve_decision. Defined.
#[export] Instance PendingStore_eq_dec : EqDecision PendingStore.
Proof. solve_decision. Defined.

Lemma sas_okb_sound a : sas_okb a = true -> sas_ok a.
Proof. unfold sas_okb, sas_ok, sas_wf, sa_wf, mb_wf. rewrite bool_decide_eq_true. tauto. Qed.
Lemma sdr_okb_sound sd : sdr_okb sd = true -> exists bs, sdr_ok sd bs.
Proof.
  unfold sdr_okb. destruct (sdr_block sd) as [bs|] eqn:Hb; [|done].
  rewrite !andb_true_iff, !bool_decide_eq_true. intros [[H1%sas_okb_sound H2] H3]. exists bs. by split.
Qed.
Lemma forwardableb_sound s p ml : forwardableb s p ml = true -> forwardable s p ml.
Proof.
  unfold forwardableb, forwardable. intros H t k ps Ht Hk Ho Hlast. rewrite Ht in H.
  destruct (List.find _ _) as [ps'|] eqn:E.
  2:{ eapply List.find_none in E; [|by apply list_elem_of_In, elem_of_reverse; eapply list_elem_of_lookup_2]. simpl in E. congruence. }
  apply sas_eq_spec in H. rewrite <-H. f_equal. clear H. pose proof (lookup_lt_Some _ _ _ Hk) as Hlt.
  assert (Hsplit : store_buffer t = take k (store_buffer t) ++ ps :: drop (S k) (store_buffer t)) by by rewrite take_drop_middle.
  rewrite Hsplit, reverse_app, reverse_cons, <-app_assoc in E.
  assert (Hnone : forall l, (forall x, x ∈ l -> sas_overlaps ml (ps_ml x) = false) -> forall r, List.find (fun ps => sas_overlaps ml (ps_ml ps)) (l ++ r) =
    List.find (fun ps => sas_overlaps ml (ps_ml ps)) r).
  { induction l as [|x l IH]; intros Hl r; [done|]. cbn [app List.find]. rewrite Hl by by left. apply IH. intros y Hy. apply Hl. by right. }
  rewrite Hnone in E.
  - cbn [app List.find] in E. rewrite Ho in E. by injection E.
  - intros x Hx. rewrite elem_of_reverse in Hx. apply list_elem_of_lookup in Hx as [j Hj]. rewrite lookup_drop in Hj. by apply (Hlast (S k + j)%nat); [lia|].
Qed.
Lemma well_rangedb_sound s p c : well_rangedb s p c = true -> well_ranged s p c.
Proof.
  destruct c; cbn [well_rangedb well_ranged]; rewrite ?andb_true_iff; try done; intros; destruct_and?; split_and?; auto using sas_okb_sound, forwardableb_sound.
  match goal with Hp : Z.even p = false |- _ => rewrite Hp in *; clear Hp end. cbn [orb] in *. destruct (zget (threads s) (p - 1)) as [t|]; [|done]. destruct (store_buffer t) as [|ps sb] eqn:Hsb; [done|].
  exists t, ps, sb. split_and!; [done|done|by apply sas_eq_spec].
Qed.
Lemma flushedb_sound s p : flushedb s p = true -> flushed s p.
Proof. unfold flushedb, flushed. destruct (zget (threads s) p); [|done]. rewrite bool_decide_eq_true. eauto. Qed.
Lemma knownb_sound conf s a : knownb conf s a = true -> known conf s a.
Proof. unfold knownb, known. rewrite orb_true_iff, negb_true_iff, bool_decide_eq_true. tauto. Qed.
Lemma obligedb_sound conf s p c : obligedb conf s p c = true -> obliged conf s p c.
Proof.
  destruct c; cbn [obligedb obliged]; rewrite ?andb_true_iff, ?orb_true_iff, ?negb_true_iff, ?bool_decide_eq_true; try tauto;
    intros; destruct_and?; split_and?; eauto using sas_okb_sound, sdr_okb_sound, flushedb_sound, knownb_sound; try lia.
  - destruct_or?; intros; [congruence|by apply flushedb_sound].
  - destruct (map_lookup (mutexes s) (sas_addr mutex_ml)) as [x|]; [|done]. exists x. split; [done|].
    match goal with H : _ && _ = true |- _ => by apply andb_true_iff in H as [?%bool_decide_eq_true ?%bool_decide_eq_true] end.
Qed.

Definition roomb (s : TSOTraceBuilder) : bool := Z.of_nat (length (events (prefix s))) <? 2 ^ 31.
Definition waitsb (s : TSOTraceBuilder) (p : Z) : bool :=
  existsb (fun ac => existsb (fun i => bool_decide (pid_of (view s) i = Some p)) (waiters ac.2)) (cond_vars s).

Definition exec (conf : Configuration) (a : action) (s : TSOTraceBuilder) : option TSOTraceBuilder :=
  _ ← cassert (roomb s);
  match a with
  | SetAvailable proc v =>
    _ ← cassert (negb (bool_decide (events (prefix s) = [])) && (0 <=? proc) && (proc * 2 <? Z.of_nat (length (threads s))) &&
                 (negb v || negb (waitsb s (proc * 2))));
    r ← (if v then mark_available proc (-1) else mark_unavailable proc (-1)) s; Some r.2
  | _ =>
    r ← schedule conf s;
    match a, r.1 with
    | Call c, Some ch =>
      _ ← cassert (obligedb conf r.2 (choice_pid ch) c && (negb (check_conflicts conf) || well_rangedb r.2 (choice_pid ch) c));
      o ← perform conf c r.2; if o.1 : bool then Some o.2 else None
    | Refuse, Some ch =>
      _ ← cassert (bool_decide (c_aux ch = -1) && (0 <? prefix_idx r.2)); o ← refuse_schedule r.2; Some o.2
    | LockFail ml, Some ch =>
      _ ← cassert (bool_decide (c_aux ch = -1) && (0 <? prefix_idx r.2) &&
        bool_decide (is_Some (map_lookup (mutexes r.2) (sas_addr ml))) && (0 <=? last_lock (mutex_at r.2 (sas_addr ml))));
      o ← lock_refused conf ml r.2; if o.1 : bool then Some o.2 else None
    | Stop, None => Some r.2
    | _, _ => None
    end
  end.
Fixpoint exec_all (conf : Configuration) (l : list action) (s : TSOTraceBuilder) : option TSOTraceBuilder :=
  match l with
  | [] => Some s
  | a :: l => s ← exec conf a s; exec_all conf l s
  end.
Definition play (conf : Configuration) (l : list action) : option TSOTraceBuilder := s ← TSOTraceBuilder_new; exec_all conf l s.
(** The state in which the next instruction after [l] makes its call, and its thread. *)
Definition play_event (conf : Configuration) (l : list action) : option (TSOTraceBuilder * Z) :=
  s ← play conf l; _ ← cassert (roomb s); r ← schedule conf s;
  match r.1 with Some ch => Some (r.2, choice_pid ch) | None => None end.

Lemma cassert_inv {A} b (k : option A) x : (_ ← cassert b; k) = Some x -> b = true /\ k = Some x.
Proof. by destruct b. Qed.
Lemma roomb_sound s : roomb s = true -> room s.
Proof. unfold roomb, room. by rewrite Z.ltb_lt. Qed.
Lemma waitsb_complete s p : waitsb s p = false -> ~ waits s p.
Proof.
  intros Hw (a & k & c & i & Hc & Hk & Hp). apply not_true_iff_false in Hw. apply Hw. apply existsb_exists.
  exists (a, c). split; [by apply list_elem_of_In, map_lookup_elem|]. apply existsb_exists. exists i.
  split; [apply list_elem_of_In; by eapply list_elem_of_lookup_2|]. by apply bool_decide_eq_true.
Qed.

Lemma exec_step conf a s s' : exec conf a s = Some s' -> step conf s a s'.
Proof.
  intros [Hroom%roomb_sound Hx]%cassert_inv. destruct a as [c| |ml| |proc v].
  5: { apply cassert_inv in Hx as [Hc Hx]. rewrite !andb_true_iff in Hc. destruct Hc as [[[H1 H2%Z.leb_le] H3%Z.ltb_lt] H4].
    apply negb_true_iff, bool_decide_eq_false in H1.
    destruct ((if v then mark_available proc (-1) else mark_unavailable proc (-1)) s) as [[[] s1]|] eqn:E; [|done].
    injection Hx as <-. apply step_available; [done..| |done]. intros ->. apply waitsb_complete.
    by apply negb_true_iff in H4. }
  all: destruct (schedule conf s) as [[[ch|] s1]|] eqn:E; cbn [mbind option_bind fst snd] in Hx; try done.
  - apply cassert_inv in Hx as [[Hob%obligedb_sound Hwr]%andb_true_iff Hx]. destruct (perform conf c s1) as [[[] s2]|] eqn:E2; [|done|done].
    injection Hx as <-. eapply step_call; [done|exact E|apply prepared_now|exact Hob| |exact E2].
    intros Hc. rewrite Hc in Hwr. by apply well_rangedb_sound.
  - apply cassert_inv in Hx as [[Ha%bool_decide_eq_true Hp%Z.ltb_lt]%andb_true_iff Hx].
    destruct (refuse_schedule s1) as [[[] s2]|] eqn:E2; [|done]. injection Hx as <-. by eapply step_refuse.
  - apply cassert_inv in Hx as [Hc Hx]. rewrite !andb_true_iff in Hc.
    destruct Hc as [[[Ha%bool_decide_eq_true Hp%Z.ltb_lt] Hm%bool_decide_eq_true] Hl%Z.leb_le].
    destruct (lock_refused conf ml s1) as [[[] s2]|] eqn:E2; [|done|done]. injection Hx as <-. by eapply step_lock_fail.
  - injection Hx as <-. by apply step_stop.
Qed.

Lemma play_reachable conf l s : play conf l = Some s -> reachable conf s.
Proof.
  unfold play. destruct TSOTraceBuilder_new as [s0|] eqn:E; [|done]. cbn [mbind option_bind]. apply reachable_new with (conf := conf) in E.
  revert s0 E. induction l as [|a l IH]; intros s0 H0; cbn [exec_all]; [by intros [= <-]|].
  destruct (exec conf a s0) as [s1|] eqn:E; [|done]. cbn [mbind option_bind]. apply IH. eapply reachable_step; [done|by apply exec_step].
Qed.
Lemma play_event_at conf l s p : check_conflicts conf = false -> play_event conf l = Some (s, p) -> at_event conf s p.
Proof.
  intros Hc. unfold play_event. destruct (play conf l) as [s0|] eqn:E; [|done]. cbn [mbind option_bind].
  intros [Hroom%roomb_sound H]%cassert_inv. destruct (schedule conf s0) as [[[ch|] s1]|] eqn:E2; [|done..].
  injection H as <- <-. eapply (proj1 (A := at_event _ _ _)). eapply schedule_at_event; [done|by apply reachable_idle; [|eapply play_reachable]|done|exact E2].
Qed.

(** A small program's objects: a two-byte variable, a mutex, a condition variable. *)
Definition demo_conf : Configuration := MkConfiguration (MkConflictConf false) OPTIMAL TSO true (-1) false.
Definition demo_x : SymAddrSize := MkSymAddrSize (MkSymAddr (MkSymMBlock 0 (-1)) 0) 2.
Definition demo_mutex : SymAddrSize := MkSymAddrSize (MkSymAddr (MkSymMBlock 0 (-2)) 0) 4.
Definition demo_cond : SymAddrSize := MkSymAddrSize (MkSymAddr (MkSymMBlock 0 (-3)) 0) 4.
Definition demo_write : SymDataRef := MkSymDataRef demo_x (Some [1; 2]).
Definition demo_state (l : list action) : TSOTraceBuilder :=
  match play_event demo_conf l with Some (s, _) => s | None => initial_state cps_init CPid_root end.
