(* ===== verification/TSOSpec.v ===== *)
(** * TSOSpec: the contract of the TSO trace builder

    The theorems about executions: for every state an execution can be in,
    that scheduling goes on, and what each registration method does. They are
    stated of [executing conf s p]: an execution has scheduled thread [p] and
    its instruction is about to be registered. *)

From S2P Require Import Prelude StdMap VecSet CPid SymAddr ByteOps SymEv ReplayMem WakeupTree TSOState TSOOps.
From S2P Require Import TSOHandlers TSOSched TSOInv TSOMem TSOSync TSOKeeps TSOAbs TSORun TSOSafety.

Local Open Scope Z_scope.

(** Some execution is at the event that [schedule] has just added for [p]. *)
Definition executing (conf : Configuration) (s : TSOTraceBuilder) (p : Z) : Prop :=
  exists s0 ch, reachable conf s0 /\ room s0 /\ schedule conf s0 = Some (Some ch, s) /\ p = choice_pid ch.

Lemma play_executing conf l s p : play_event conf l = Some (s, p) -> executing conf s p.
Proof.
  unfold play_event. destruct (play conf l) as [s0|] eqn:E; [|done]. cbn [mbind option_bind].
  intros [Hroom%roomb_sound H]%cassert_inv. destruct (schedule conf s0) as [[[ch|] s1]|] eqn:E2; [|done..].
  injection H as <- <-. exists s0, ch. by apply play_reachable in E.
Qed.

(** Total methods that return [true], and methods whose result is known. *)
Lemma wp_true {m : M bool} (R : TSOTraceBuilder -> Prop) {s} : wp m (fun ok s' => ok = true /\ R s') s -> exists s', m s = Some (true, s') /\ R s'.
Proof. intros (ok & s' & Hm & -> & HR)%wp_total. by exists s'. Qed.
Lemma wp_exact {A} (x : A) {m : M A} {s s' : TSOTraceBuilder} : wp m (fun y s1 => y = x /\ s1 = s') s -> m s = Some (x, s').
Proof. by intros (y & s1 & Hm & -> & ->)%wp_total. Qed.

Lemma loaded_same_buffer s s' p ml t0 t : tview t0 = tview t -> loaded s s' p ml t0 -> loaded s s' p ml t.
Proof.
  intros Hv. pose proof (f_equal v_buffer Hv) as Hb. simpl in Hb. intros [k ps t' H1 H2 H3 H4 H5|H1 H2 H3]; rewrite Hb in *.
  - by eapply loaded_forward.
  - by apply loaded_memory.
Qed.

Lemma pushed_unpushed s p t b b' t' rest : zget (threads s) p = Some t -> delete_last branch_eq b = Some (prefix s) ->
  delete_last branch_eq (prefix (pushed s p t b)) = Some b' -> zget (threads (pushed s p t b)) p = Some t' ->
  event_indices t' = rest ++ [prefix_idx (pushed s p t b)] ->
  set_threads (<[Z.to_nat p := set_available false (set_event_indices rest t')]> (threads (pushed s p t b)))
    (set_prefix_idx (prefix_idx (pushed s p t b) - 1) (set_prefix b' (pushed s p t b))) =
  set_threads (<[Z.to_nat p := set_available false t]> (threads s)) s.
Proof.
  cbn [pushed prefix threads prefix_idx set_prefix set_threads set_prefix_idx]. intros Ht -> [= <-] Ht' Hrest.
  rewrite zget_insert in Ht' by (by eapply zget_Some). rewrite decide_True in Ht' by done. injection Ht' as <-.
  cbn [event_indices set_event_indices] in Hrest. apply app_inj_tail in Hrest as [<- _]. rewrite list_insert_insert_eq.
  replace (prefix_idx s + 1 - 1) with (prefix_idx s) by lia. by destruct s, t.
Qed.

Section spec.
Context (conf : Configuration) (Hchecks : check_conflicts conf = false).

Lemma executing_scheduled s p : executing conf s p -> exists s0, scheduled conf s0 s p.
Proof. intros (s0 & ch & Hre & Hroom & Hs & ->). exists s0. eapply schedule_at_event; [done|by apply reachable_idle|done|exact Hs]. Qed.
Lemma executing_at s p : executing conf s p -> at_event conf s p.
Proof. intros He. by destruct (executing_scheduled _ _ He) as (s0 & Hae & _). Qed.

Lemma executing_running s p : executing conf s p -> running conf s p.
Proof. intros He. apply (ae_running _ _ _ (executing_at _ _ He)). Qed.

Lemma executing_fresh s p ml : executing conf s p -> forall b, in_range ml b = true -> fresh s b.
Proof. intros He b _. by eapply at_event_fresh, executing_at. Qed.

Lemma executing_thread s p : executing conf s p -> exists t, zget (threads s) p = Some t /\ available t = true.
Proof. intros He. destruct (ae_thread _ _ _ (executing_at _ _ He)) as (t & _ & Ht & Hav & _). eauto. Qed.

Lemma executing_flushed s p : executing conf s p -> flushed s p ->
  exists t, zget (threads s) p = Some t /\ available t = true /\ store_buffer t = [].
Proof.
  intros He (t & Ht & Hb). destruct (executing_thread _ _ He) as (t' & Ht' & Hav). rewrite Ht in Ht'. injection Ht' as <-. eauto.
Qed.

Lemma executing_mutex s p a : executing conf s p -> last_access (mutex_at s a) < prefix_idx s.
Proof. intros He. by eapply at_event_mutex, executing_at. Qed.

Lemma executing_signal s p a c : executing conf s p -> map_lookup (cond_vars s) a = Some c -> last_signal c < prefix_idx s.
Proof. intros He Hc. destruct (rb_cond _ _ (at_event_refs _ _ _ (executing_at _ _ He)) _ _ Hc). lia. Qed.

(** An auxiliary thread runs only when its process has a pending store. *)
Lemma executing_aux s p : executing conf s (p + 1) -> Z.even p = true ->
  exists t ps sb, zget (threads s) p = Some t /\ store_buffer t = ps :: sb.
Proof.
  intros He Hp. destruct (executing_thread _ _ He) as (u & Hu & Hav). pose proof (zget_Some _ _ _ Hu) as [H0 Hlen].
  pose proof (inv_core _ _ (rn_inv _ _ _ (executing_running _ _ He))) as Hc. destruct (zget_lt (threads s) p) as [t Ht].
  { split; [|lia]. destruct (decide (p = -1)) as [->|]; [by simpl in Hp|lia]. }
  pose proof (ci_aux _ Hc p (tview t) (tview u) Hp (zget_tview _ _ _ Ht) (zget_tview _ _ _ Hu)) as Haux. simpl in Haux.
  rewrite Hav in Haux. destruct (store_buffer t) as [|ps sb] eqn:Hsb; [done|]. eauto.
Qed.

Lemma performed_running s p c s' : executing conf s p -> obliged conf s p c -> perform conf c s = Some (true, s') ->
  running conf s' p.
Proof.
  intros He Hob Hp. assert (Hwp : wp (perform conf c) (fun _ s' => running conf s' p) s).
  { eapply wp_perform; [done|by apply executing_at|exact Hob|done]. }
  unfold wp in Hwp. by rewrite Hp in Hwp.
Qed.

(** ** Executions *)

(** C2. In every state an execution reaches, once it has an event, the tables
    of the trace builder are consistent with the events of the prefix: every
    index they hold is that of an executed event of the right thread, the
    auxiliary thread of a process can run exactly when the process has pending
    stores, the waiters of a condition variable are blocked threads, each
    waiting once, sets are sorted, and no thread identifier is used twice. *)
Theorem execution_invariant s : reachable conf s -> events (prefix s) <> [] -> inv conf s.
Proof.
  intros Hre Hne. destruct (reachable_idle conf Hchecks s Hre) as [Hs|(cps & aux & -> & _)]; [apply Hs|done].
Qed.


(** ** Memory *)

Lemma obliged_access s p c : obliged conf s p c -> access_ok p c.
Proof.
  destruct c as [| |sd|sd|sd action|sd expected success| | | | | | | | | | | | | | | |]; try done; cbn [obliged access_ok].
  - by intros [[bs Hsd] _]; apply Hsd.
  - by intros (_ & _ & [bs Hsd] & _); apply Hsd.
  - intros (Hp & _ & bs & Hsd). by split; [apply Hsd|].
Qed.
Lemma at_event_ev s p : at_event conf s p -> at_ev p (prefix_idx s) s.
Proof.
  intros Hae. pose proof (ae_running _ _ _ Hae) as Hr. pose proof (rb_lfmc _ _ (at_event_refs _ _ _ Hae)) as Hl. simpl in Hl.
  split; [apply Hr|done|apply (rn_event _ _ _ Hr)|lia].
Qed.

Lemma prepared_refines s p s' : at_event conf s p -> prepared s p s' -> prefix_idx s' = prefix_idx s /\ abs s' ≡ abs s.
Proof.
  intros Hae [->|[Hob Hf]]%(prepared_fences conf); [done|].
  destruct (effect_perform conf p (prefix_idx s) Fence I s true s' (at_event_ev _ _ Hae) Hf eq_refl) as [Hat Habs]. by split; [apply Hat|].
Qed.
Lemma call_refines s1 p c s2 : at_event conf s1 p -> obliged conf s1 p c -> perform conf c s1 = Some (true, s2) ->
  at_ev p (prefix_idx s1) s2 /\ abs s2 ≡ tso_call p (prefix_idx s1) c (abs s1).
Proof. intros Hae Hob Hp. apply (effect_perform conf p (prefix_idx s1) c (obliged_access _ _ _ Hob) s1 true s2 (at_event_ev _ _ Hae) Hp eq_refl). Qed.

(** C1. The trace builder simulates total-store-order memory. Its executions
    refine the machine in which a store joins the queue of its thread, an
    auxiliary thread writes the oldest store of its process to memory, and
    atomic accesses write at once: every call makes exactly the step of its
    instruction, on the queues and on the last writer of every byte, and
    refusals, failed lock acquisitions and changes of availability make none. *)
Theorem tso_refinement s a s' : reachable conf s -> step conf s a s' ->
  match a with
  | Call c => exists p, pid_of (view s') (prefix_idx s') = Some p /\ abs s' ≡ tso_call p (prefix_idx s') c (abs s)
  | _ => abs s' ≡ abs s
  end.
Proof.
  intros Hre Hst. pose proof (reachable_idle conf Hchecks s Hre) as Hi.
  inversion Hst as [c ch s0 s1 s2 Hroom Hsch Hpre Hob _ Hp|ch s1 s2 Hroom Hsch _ _ Hr|ml ch s1 s2 Hroom Hsch _ _ _ _ Hr
    |s1 Hroom Hsch|proc v s1 _ _ _ _ Hr]; subst; try (apply same_abs_schedule in Hsch as Hs1).
  - destruct (schedule_at_event conf Hchecks _ _ _ Hi Hroom Hsch) as ((Hae & _) & _). exists (choice_pid ch).
    destruct (call_refines _ _ _ _ (prepared_at_event _ _ _ _ Hae Hpre) Hob Hp) as [Hat Habs].
    destruct (prepared_refines _ _ _ Hae Hpre) as [Hidx Habs1]. rewrite (at_idx _ _ _ Hat). split; [apply Hat|]. rewrite Habs.
    apply tso_call_proper. by rewrite Habs1.
  - apply (transitivity (R := same_abs) Hs1). by eapply same_abs_refuse_schedule.
  - apply run_bind in Hr as (ok & s3 & Hf%same_abs_mutex_lock_fail & Hr). destruct ok; [|done].
    apply run_bind in Hr as (u & s4 & Hr%same_abs_refuse_schedule & [= <-]).
    apply (transitivity (R := same_abs) Hs1). by apply (transitivity (R := same_abs) Hf).
  - done.
  - destruct v; [by apply same_abs_mark_available in Hr|by apply same_abs_mark_unavailable in Hr].
Qed.

(** ** Loads *)

(** A load reads the newest store to its address that its own thread still
    has buffered, which remembers the reading event, and leaves memory alone;
    only when there is none does it read memory, where every byte of the range
    then records the event as the last read of the process, and the store
    buffer is untouched. *)
Theorem load_forwards s p t ml : running conf s p -> Z.even p = true -> zget (threads s) p = Some t -> sas_ok ml ->
  (forall b, in_range ml b = true -> fresh s b) ->
  exists s', load conf ml s = Some (true, s') /\ loaded s s' p ml t.
Proof.
  intros Hr Hp Ht Hml Hfresh. apply wp_true. eapply wp_load; [done|exact Hr|exact Hp|exact Ht|done|done|].
  intros s' s1 t0 Hf _ _ Htv Hl. split; [done|]. apply (loaded_frame s s1); [done|]. by apply (loaded_same_buffer _ _ _ _ t0).
Qed.

(** ** Mutexes *)

(** The mutex methods implement a lock. A free mutex can be locked, and is
    then held since the current event; trylock takes a free mutex and only
    accesses a held one; unlock releases it; the other mutexes, memory, the
    condition variables and the threads are untouched. *)
Theorem mutex_protocol s p ml : executing conf s p -> Z.even p = true -> flushed s p ->
  let a := sas_addr ml in let x := mutex_at s a in
  (locked x = false -> exists s', mutex_lock conf ml s = Some (true, s') /\
     mutexed conf s s' p a (Some (MkMutex (prefix_idx s) (prefix_idx s) true))) /\
  (known conf s a -> exists s', mutex_trylock conf ml s = Some (true, s') /\
     mutexed conf s s' p a (Some (if locked x then MkMutex (prefix_idx s) (last_lock x) true
                                  else MkMutex (prefix_idx s) (prefix_idx s) true))) /\
  (known conf s a -> 0 <= last_access x -> exists s', mutex_unlock conf ml s = Some (true, s') /\
     mutexed conf s s' p a (Some (MkMutex (prefix_idx s) (last_lock x) false))).
Proof.
  intros He Hp Hfl a x. pose proof (executing_running _ _ He) as Hr. pose proof (executing_mutex s p a He) as Hlt.
  split_and!; intros; apply wp_true.
  - eapply wp_mutex_lock; [done..|]. by intros s' Hm.
  - eapply wp_mutex_trylock; [done..|]. intros s' Hm. split; [done|]. fold a in Hm. fold x in Hm.
    by destruct x as [la ll []].
  - eapply wp_mutex_unlock; [done..|]. by intros s' Hm.
Qed.

(** A thread that finds the mutex taken reports the race with the event
    that took it, and with the last full memory conflict, as lock-failure races
    of the current event; nothing else changes. *)
Theorem lock_failure_races s p e ml : executing conf s p -> zget (events (prefix s)) (prefix_idx s) = Some e ->
  let x := mutex_at s (sas_addr ml) in
  is_Some (map_lookup (mutexes s) (sas_addr ml)) -> 0 <= last_lock x ->
  mutex_lock_fail conf ml s = Some (true, set_lock_fail_races (lock_fail_races s ++
    map (fun i => Race_LockFail i (prefix_idx s) (iid e)) (last_lock x ::
      if decide (0 <= last_full_memory_conflict s) then [last_full_memory_conflict s] else [])) s).
Proof.
  intros Hex He x Hx H0. pose proof (executing_running _ _ Hex) as Hr. pose proof (executing_mutex s p (sas_addr ml) Hex) as Hlt.
  pose proof (mi_order _ _ (mutex_at_inv conf s (sas_addr ml) (rn_inv _ _ _ Hr))) as Hord.
  pose proof (rb_lfmc _ _ (at_event_refs _ _ _ (executing_at _ _ Hex))) as Hl. simpl in Hl.
  apply (wp_exact true). fold x in Hlt, Hord. eapply wp_mutex_lock_fail; [exact Hr|exact He|done|fold x; lia|lia|done].
Qed.

(** ** Condition variables *)

(** Waiting on a condition variable needs a mutex that was last locked by
    the waiting thread; it releases the mutex, queues the event behind the
    earlier waiters and blocks the thread. *)
Theorem cond_wait_blocks s p cml mml c x : executing conf s p -> Z.even p = true -> flushed s p ->
  map_lookup (mutexes s) (sas_addr mml) = Some x -> event_of (view s) (last_lock x) p ->
  map_lookup (cond_vars s) (sas_addr cml) = Some c ->
  exists s', cond_wait conf cml mml s = Some (true, s') /\
    map_lookup (mutexes s') (sas_addr mml) = Some (MkMutex (prefix_idx s) (last_lock x) false) /\
    map_lookup (cond_vars s') (sas_addr cml) = Some (set_waiters (waiters c ++ [prefix_idx s]) c) /\
    exists t', zget (threads s') p = Some t' /\ available t' = false.
Proof.
  intros He Hp Hfl Hx Hev Hc. destruct (executing_flushed _ _ He Hfl) as (t & Ht & Hav & Hb).
  pose proof (executing_mutex s p (sas_addr mml) He) as Hlt. unfold mutex_at in Hlt. rewrite Hx in Hlt.
  apply wp_true.
  eapply wp_cond_wait; [done|by apply executing_running|exact Hp|exact Ht|done|done|exact Hx|done|exact Hlt|exact Hc|].
  intros s' t' _ _ Hm Hcv Ht' Hav'. split_and!; [done..|]. by exists t'.
Qed.

(** A signal wakes exactly the first waiter, if there is one, and makes its
    thread available; no other thread changes, nor does any other condition
    variable. *)
Theorem cond_signal_wakes_one s p ml c : executing conf s p -> Z.even p = true -> flushed s p ->
  map_lookup (cond_vars s) (sas_addr ml) = Some c ->
  exists s', cond_signal conf ml s = Some (true, s') /\ signalled s s' (sas_addr ml) c 0 /\
    (forall b, b <> sas_addr ml -> map_lookup (cond_vars s') b = map_lookup (cond_vars s) b).
Proof.
  intros He Hp Hfl Hc. destruct (executing_flushed _ _ He Hfl) as (t & Ht & Hav & Hb).
  apply wp_true.
  eapply (wp_cond_signal conf Hchecks s p t ml c 0);
    [by apply executing_running|exact Hp|exact Ht|done|done|exact Hc|by eapply at_event_alt, executing_at| |].
  - intros Hne. destruct (waiters c); [done|simpl; lia].
  - intros s' _ _ Hs Ho. by split.
Qed.

(** A broadcast wakes every waiter and empties the queue; a thread that was
    not waiting on the condition variable does not change. *)
Theorem cond_broadcast_wakes_all s p ml c : executing conf s p -> Z.even p = true -> flushed s p ->
  map_lookup (cond_vars s) (sas_addr ml) = Some c ->
  exists s', cond_broadcast conf ml s = Some (true, s') /\
    map_lookup (cond_vars s') (sas_addr ml) = Some (CondVar_new (prefix_idx s)) /\
    (forall k q, waiter_at (view s) (sas_addr ml) k q -> exists u, zget (threads s') q = Some u /\ available u = true) /\
    (forall q, (forall k, ~ waiter_at (view s) (sas_addr ml) k q) ->
       (tview <$> zget (threads s') q) = (tview <$> zget (threads s) q)).
Proof.
  intros He Hp Hfl Hc. destruct (executing_flushed _ _ He Hfl) as (t & Ht & Hav & Hb).
  apply wp_true.
  eapply wp_cond_broadcast; [done|by apply executing_running|exact Hp|exact Ht|done|done|exact Hc|].
  intros s' _ _ Hcv _ Hwake Hother. by split_and!.
Qed.

(** ** Threads *)

(** Spawning creates a thread and its auxiliary thread at the end of the
    table, under an identifier that no thread had before and whose parent is
    the current thread; the auxiliary thread has nothing to do yet. *)
Theorem spawn_fresh s p t : executing conf s p -> Z.even p = true -> zget (threads s) p = Some t ->
  exists s', spawn s = Some (true, s') /\ exists ts child aux,
    threads s' = ts ++ [Thread_new child (prefix_idx s); set_available false (Thread_new aux (prefix_idx s))] /\
    map tview ts = map tview (threads s) /\ (child ∉ cpids (CPS s)) /\ cpid_parent child = Some (cpid t) /\
    cpids (CPS s') = cpids (CPS s) ++ [child; aux].
Proof.
  intros He Hp Ht.
  apply wp_true.
  eapply (wp_spawn conf); [by apply executing_running|exact Hp|exact Ht|].
  intros s' ts child aux _ H1 H2 H3 H4 H5. split; [done|]. exists ts, child, aux. by split_and!.
Qed.

(** ** Refusals *)

(** C13. [refuse_schedule] undoes the scheduling of an event exactly: the state
    is the one before the event was pushed, trace, tree and tables, but for the
    refused thread, which is no longer available. *)
Theorem refuse_undoes_schedule s p : executing conf s p -> Z.even p = true -> 0 < prefix_idx s ->
  exists s0 t, zget (threads s0) p = Some t /\ push_event (Z.to_nat p) s0 = Some (Some (choice_of p), s) /\
    refuse_schedule s = Some (tt, set_threads (<[Z.to_nat p := set_available false t]> (threads s0)) s0).
Proof.
  intros He Hp Hpos. destruct (executing_scheduled _ _ He) as (_ & Hae & _ & s0 & t & b & _ & Hr & Ht & Hb & ->).
  exists s0, t. split; [done|]. pose proof (zget_Some _ _ _ Ht) as Hlt. split.
  - apply wp_exact. apply (wp_push_event s0 (Z.to_nat p) t); [done|by rewrite Z2Nat.id by lia|].
    rewrite Z2Nat.id by lia. intros b' Hb'. rewrite Hb in Hb'. by injection Hb' as <-.
  - apply wp_exact. eapply wp_refuse_schedule; [exact Hae|done|done|].
    intros s' _ _ (b' & t' & rest & Hdel & Ht' & Hrest & ->). split; [done|].
    destruct (ready_push s0 p t Hr) as (b2 & Hb2 & _ & _ & _ & _ & _ & Hdel2). rewrite Hb in Hb2. injection Hb2 as <-.
    by eapply pushed_unpushed.
Qed.

End spec.

(** ** Concrete executions *)

Definition demo_run (l : list action) : TSOTraceBuilder :=
  match play demo_conf l with Some s => s | None => initial_state cps_init CPid_root end.
Definition demo_pid (l : list action) : Z := match play_event demo_conf l with Some (_, p) => p | None => -1 end.
Lemma demo_reachable l : bool_decide (is_Some (play demo_conf l)) = true -> reachable demo_conf (demo_run l).
Proof.
  intros [s Hs]%bool_decide_eq_true. unfold demo_run. rewrite Hs. by apply play_reachable in Hs.
Qed.
Lemma demo_executing l : bool_decide (is_Some (play_event demo_conf l)) = true -> executing demo_conf (demo_state l) (demo_pid l).
Proof.
  intros [[s p] Hs]%bool_decide_eq_true. unfold demo_state, demo_pid. rewrite Hs. by apply play_executing in Hs.
Qed.

Definition demo_waiting : list action :=
  [Call Spawn; Call (CondInit demo_cond); Call (MutexLock demo_mutex); Call (CondWait demo_cond demo_mutex)].

Lemma execution_invariant_witness : inv demo_conf (demo_run [Call (Store demo_write)]).
Proof. apply execution_invariant; [done|by apply demo_reachable; vm_compute|by vm_compute]. Defined.


Lemma tso_refinement_witness :
  let s := demo_run [Call (Store demo_write)] in let s' := demo_run [Call (Store demo_write); Call (AtomicStore demo_write)] in
  exists p, pid_of (view s') (prefix_idx s') = Some p /\ abs s' ≡ tso_call p (prefix_idx s') (AtomicStore demo_write) (abs s).
Proof.
  apply (tso_refinement demo_conf eq_refl _ (Call (AtomicStore demo_write))).
  - by apply demo_reachable; vm_compute.
  - apply exec_step. by vm_compute.
Defined.

(** A store and a load in one event: the load is served by the buffer. *)
Lemma load_forwards_witness :
  let s := match perform demo_conf (Store demo_write) (demo_state []) with Some (_, s) => s | None => demo_state [] end in
  exists t s', zget (threads s) 0 = Some t /\ load demo_conf demo_x s = Some (true, s') /\ loaded s s' 0 demo_x t.
Proof.
  cbv zeta. set (s := match perform _ _ _ with Some _ => _ | None => _ end).
  destruct (zget (threads s) 0) as [t|] eqn:Ht; [|by vm_compute in Ht]. exists t.
  destruct (load_forwards demo_conf eq_refl s 0 t demo_x) as [s' Hs']; [|done|done|by apply sas_okb_sound| |by exists s'].
  - apply (performed_running demo_conf eq_refl (demo_state []) 0 (Store demo_write)); [|by apply obligedb_sound; vm_compute|].
    + by apply (demo_executing []); vm_compute.
    + subst s. destruct (perform demo_conf (Store demo_write) (demo_state [])) as [[[] s]|] eqn:E; [done|by vm_compute in E..].
  - intros b _ m Hm. by vm_compute in Hm.
Defined.

Lemma mutex_protocol_witness :
  let s := demo_state [Call Spawn] in let a := sas_addr demo_mutex in
  exists s', mutex_lock demo_conf demo_mutex s = Some (true, s') /\
     mutexed demo_conf s s' 0 a (Some (MkMutex (prefix_idx s) (prefix_idx s) true)).
Proof.
  apply (mutex_protocol demo_conf eq_refl (demo_state [Call Spawn]) 0 demo_mutex);
    [by apply (demo_executing [Call Spawn]); vm_compute|done|by apply flushedb_sound; vm_compute|by vm_compute].
Defined.

Definition demo_locked : list action := [Call Spawn; Call (MutexLock demo_mutex); SetAvailable 0 false].
Lemma lock_failure_races_witness : exists e, let s := demo_state demo_locked in
  zget (events (prefix s)) (prefix_idx s) = Some e /\
  mutex_lock_fail demo_conf demo_mutex s = Some (true, set_lock_fail_races (lock_fail_races s ++
    map (fun i => Race_LockFail i (prefix_idx s) (iid e)) (last_lock (mutex_at s (sas_addr demo_mutex)) ::
      if decide (0 <= last_full_memory_conflict s) then [last_full_memory_conflict s] else [])) s).
Proof.
  destruct (zget (events (prefix (demo_state demo_locked))) (prefix_idx (demo_state demo_locked))) as [e|] eqn:E; [|by vm_compute in E].
  exists e. split; [done|]. apply (lock_failure_races demo_conf eq_refl (demo_state demo_locked) 2 e); [|done| |by vm_compute].
  - by apply (demo_executing demo_locked); vm_compute.
  - apply (bool_decide_eq_true_1 _). by vm_compute.
Defined.

Lemma cond_wait_blocks_witness :
  let l := [Call Spawn; Call (CondInit demo_cond); Call (MutexLock demo_mutex)] in let s := demo_state l in
  exists x c s', cond_wait demo_conf demo_cond demo_mutex s = Some (true, s') /\
    map_lookup (mutexes s') (sas_addr demo_mutex) = Some (MkMutex (prefix_idx s) (last_lock x) false) /\
    map_lookup (cond_vars s') (sas_addr demo_cond) = Some (set_waiters (waiters c ++ [prefix_idx s]) c) /\
    exists t', zget (threads s') 0 = Some t' /\ available t' = false.
Proof.
  intros l s. exists (MkMutex 2 2 true), (CondVar_new 1).
  apply (cond_wait_blocks demo_conf eq_refl s 0); [by apply (demo_executing l); vm_compute|done|by apply flushedb_sound; vm_compute|by vm_compute| |by vm_compute].
  split; [by vm_compute|by vm_compute].
Defined.

Lemma cond_signal_wakes_one_witness : let s := demo_state demo_waiting in
  exists s', cond_signal demo_conf demo_cond s = Some (true, s') /\ signalled s s' (sas_addr demo_cond) (MkCondVar 1 [3]) 0 /\
    (forall b, b <> sas_addr demo_cond -> map_lookup (cond_vars s') b = map_lookup (cond_vars s) b).
Proof.
  apply (cond_signal_wakes_one demo_conf eq_refl (demo_state demo_waiting) 2); [|done|by apply flushedb_sound; vm_compute|by vm_compute].
  by apply (demo_executing demo_waiting); vm_compute.
Defined.

Lemma cond_broadcast_wakes_all_witness : let s := demo_state demo_waiting in
  exists s', cond_broadcast demo_conf demo_cond s = Some (true, s') /\
    map_lookup (cond_vars s') (sas_addr demo_cond) = Some (CondVar_new (prefix_idx s)) /\
    (forall k q, waiter_at (view s) (sas_addr demo_cond) k q -> exists u, zget (threads s') q = Some u /\ available u = true) /\
    (forall q, (forall k, ~ waiter_at (view s) (sas_addr demo_cond) k q) ->
       (tview <$> zget (threads s') q) = (tview <$> zget (threads s) q)).
Proof.
  apply (cond_broadcast_wakes_all demo_conf eq_refl (demo_state demo_waiting) 2 _ (MkCondVar 1 [3]));
    [|done|by apply flushedb_sound; vm_compute|by vm_compute].
  by apply (demo_executing demo_waiting); vm_compute.
Defined.

Lemma spawn_fresh_witness : let s := demo_state [] in
  exists t, zget (threads s) 0 = Some t /\ exists s', spawn s = Some (true, s') /\ exists ts child aux,
    threads s' = ts ++ [Thread_new child (prefix_idx s); set_available false (Thread_new aux (prefix_idx s))] /\
    map tview ts = map tview (threads s) /\ (child ∉ cpids (CPS s)) /\ cpid_parent child = Some (cpid t) /\
    cpids (CPS s') = cpids (CPS s) ++ [child; aux].
Proof.
  destruct (zget (threads (demo_state [])) 0) as [t|] eqn:E; [|by vm_compute in E]. exists t. split; [done|].
  apply (spawn_fresh demo_conf eq_refl (demo_state []) 0); [|done|done]. by apply (demo_executing []); vm_compute.
Defined.

Lemma refuse_undoes_schedule_witness : let s := demo_state [Call Spawn] in
  exists s0 t, zget (threads s0) 0 = Some t /\ push_event 0 s0 = Some (Some (choice_of 0), s) /\
    refuse_schedule s = Some (tt, set_threads (<[0%nat := set_available false t]> (threads s0)) s0).
Proof.
  apply (refuse_undoes_schedule demo_conf eq_refl (demo_state [Call Spawn]) 0); [|done|by vm_compute].
  by apply (demo_executing [Call Spawn]); vm_compute.
Defined.
