(* ===== verification/TSOLive.v ===== *)
(** * TSOLive: pending stores reach memory

    Auxiliary threads have priority, no thread sleeps outside a replay, and a
    commit shortens a queue: the scheduler drains every store buffer. *)

From S2P Require Import Prelude StdMap VecSet CPid SymAddr ByteOps SymEv ReplayMem WakeupTree TSOState TSOOps.
From S2P Require Import TSOHandlers TSOSched TSOInv TSOMem TSOSync TSOKeeps TSOAbs TSORun TSOSafety TSOSpec.

Local Open Scope Z_scope.

(** ** Outside a replay every thread is awake *)

Definition awake (s : TSOTraceBuilder) : Prop := Forall (fun t => sleeping t = false) (threads s).
Definition stays_awake (s s' : TSOTraceBuilder) : Prop := awake s -> awake s'.
#[export] Instance stays_awake_reflexive : Reflexive stays_awake.
Proof. intros s H. exact H. Qed.
#[export] Instance stays_awake_transitive : Transitive stays_awake.
Proof. intros s1 s2 s3 H1 H2 H. auto. Qed.

Lemma awake_put_thread p u t s : zget (threads s) p = Some t -> (sleeping t = false -> sleeping u = false) ->
  stays_awake s (set_threads (<[Z.to_nat p := u]> (threads s)) s).
Proof.
  unfold stays_awake, awake. cbn [threads set_threads]. intros Ht Hu Ha. apply Forall_insert; [done|]. apply Hu.
  unfold zget in Ht. case_decide; [|done]. by apply (Forall_lookup_1 _ _ _ _ Ha Ht).
Qed.
Lemma awake_add_thread t s : sleeping t = false -> stays_awake s (set_threads (threads s ++ [t]) s).
Proof. intros Ht Ha. apply Forall_app. by split; [|constructor]. Qed.

Create HintDb awake.
Ltac stays_awake := always_walk ltac:(fun _ => first
  [ solve [auto 1 with awake nocore]
  | apply always_modify; intros; first [by apply awake_add_thread | by intros H]
  | apply always_thread_upd; intros; eapply awake_put_thread; [eassumption|by intros]
  | apply always_pfx_upd; intros; intros H; exact H | apply always_curev_upd; intros; intros H; exact H ]).

Section live.
Context (conf : Configuration) (Hchecks : check_conflicts conf = false).

Lemma awake_record_symbolic ev : always stays_awake (record_symbolic ev).
Proof. stays_awake. Qed.
Lemma awake_see_events l : always stays_awake (see_events conf l).
Proof. stays_awake. Qed.
Lemma awake_see_event_pairs l : always stays_awake (see_event_pairs conf l).
Proof. stays_awake. Qed.
Lemma awake_wakeup ty b : always stays_awake (wakeup conf ty b).
Proof. stays_awake. Qed.
Lemma awake_observe_memory ml m seen pairs upd : always stays_awake (observe_memory conf ml m seen pairs upd).
Proof. stays_awake. Qed.
#[local] Hint Resolve awake_record_symbolic awake_see_events awake_see_event_pairs awake_wakeup awake_observe_memory : awake.
Lemma awake_do_load ml : always stays_awake (do_load conf ml).
Proof. stays_awake. Qed.
Lemma awake_do_atomic_store sd : always stays_awake (do_atomic_store conf sd).
Proof. stays_awake. Qed.
Lemma awake_mutex_lock ml : always stays_awake (mutex_lock conf ml).
Proof. stays_awake. Qed.
#[local] Hint Resolve awake_do_load awake_do_atomic_store awake_mutex_lock : awake.
Lemma awake_new_event : always stays_awake (new_event conf).
Proof. stays_awake. Qed.
Lemma awake_perform c : always stays_awake (perform conf c).
Proof. destruct c; cbn [perform]; stays_awake. Qed.
Lemma awake_refuse : always stays_awake refuse_schedule.
Proof. stays_awake. Qed.
Lemma awake_lock_refused ml : always stays_awake (lock_refused conf ml).
Proof. stays_awake. Qed.
Lemma awake_mark (v : bool) p : always stays_awake (if v then mark_available p (-1) else mark_unavailable p (-1)).
Proof. destruct v; stays_awake. Qed.
Lemma idle_flags s : idle conf s -> has_vclocks s = false /\ replay s = false /\ dryrun s = false.
Proof. intros [Hs|(cps & aux & -> & _)]; [apply Hs|done]. Qed.
Lemma idle_schedule s : idle conf s -> schedule conf s = new_event conf s.
Proof.
  intros (Hv & Hr & Hd)%idle_flags. unfold schedule, mbind, M_bind, gets, massert, lift, cassert, modify. cbn.
  rewrite Hv. cbn. rewrite Hr. by rewrite set_dryrun_same.
Qed.

Lemma reachable_awake s : reachable conf s -> awake s.
Proof.
  induction 1 as [s Hs|s a s' Hre IH Hst].
  - destruct new_initial as (cps & aux & Hnew & _). rewrite Hnew in Hs. injection Hs as <-. by repeat constructor.
  - pose proof (reachable_idle conf Hchecks s Hre) as Hi.
    inversion Hst as [c ch s0 s1 s2 _ Hsch Hpre _ _ Hp|ch s1 s2 _ Hsch _ _ Hr|ml ch s1 s2 _ Hsch _ _ _ _ Hr|s1 _ Hsch|proc v s1 _ _ _ _ Hr];
      subst; try (rewrite idle_schedule in Hsch by done; apply awake_new_event in Hsch; specialize (Hsch IH)).
    + eapply awake_perform; [exact Hp|]. eapply (prepared_always conf stays_awake); [apply awake_perform|exact Hpre|done].
    + by eapply awake_refuse.
    + by eapply awake_lock_refused.
    + done.
    + by eapply awake_mark.
Qed.

(** ** Draining *)

(** The number of pending stores. *)
Definition pending_stores (s : TSOTraceBuilder) : nat := length (concat (pending (abs s))).

Lemma no_pending s : pending_stores s = 0%nat -> Forall (fun t => store_buffer t = []) (threads s).
Proof.
  unfold pending_stores. cbn [abs pending]. induction (threads s) as [|t ts IH]; intros Hn; [constructor|].
  cbn in Hn. rewrite length_app in Hn. constructor; [|apply IH; lia]. unfold pend_of in Hn. rewrite length_map in Hn.
  by destruct (store_buffer t).
Qed.
Lemma some_pending s : pending_stores s <> 0%nat -> exists p t, zget (threads s) p = Some t /\ store_buffer t <> [].
Proof.
  intros Hn. destruct (decide (Forall (fun t => store_buffer t = []) (threads s))) as [Ha|Ha].
  - destruct Hn. unfold pending_stores. cbn [abs pending]. induction Ha as [|t ts Ht _ IH]; [done|].
    cbn. unfold pend_of at 1. by rewrite Ht.
  - apply not_Forall_Exists in Ha; [|apply _]. apply Exists_exists in Ha as (t & [k Hk]%list_elem_of_lookup & Ht).
    exists (Z.of_nat k), t. unfold zget. rewrite decide_True by lia. by rewrite Nat2Z.id.
Qed.

(** With a store pending the scheduler runs an auxiliary thread. *)
Lemma schedule_commit s : reachable conf s -> room s -> max_search_depth conf < 0 -> pending_stores s <> 0%nat ->
  exists q s1, schedule conf s = Some (Some (choice_of (q + 1)), s1) /\ scheduled conf s s1 (q + 1) /\ Z.even q = true.
Proof.
  intros Hre Hroom Hdepth (p & t & Ht & Hb)%some_pending. pose proof (reachable_idle conf Hchecks s Hre) as Hi.
  pose proof (reachable_awake s Hre) as Haw.
  assert (exists u, zget (threads s) (p + 1) = Some u /\ schedulable conf u = true /\ Z.even p = true) as (u & Hu & Hsu & Hp).
  { destruct Hi as [Hs|(cps & aux & -> & _)].
    2:{ by apply zget_two in Ht as [[-> ->]|[-> ->]]. }
    pose proof (se_inv _ _ Hs) as Hinv. assert (Hp : Z.even p = true).
    { destruct (Z.even p) eqn:Hp; [done|]. destruct Hb. by apply (ci_odd _ (inv_core _ _ Hinv) p (tview t) (zget_tview _ _ _ Ht)). }
    destruct (even_pair conf s p Hinv Hp (zget_Some _ _ _ Ht)) as [u Hu]. exists u. split_and!; [done| |done].
    pose proof (ci_aux _ (inv_core _ _ Hinv) p (tview t) (tview u) Hp (zget_tview _ _ _ Ht) (zget_tview _ _ _ Hu)) as Hav.
    simpl in Hav. unfold schedulable. rewrite Hav, (bool_decide_false (store_buffer t = [])), (bool_decide_true (max_search_depth conf < 0)) by done.
    unfold zget in Hu. case_decide; [|done]. by rewrite (Forall_lookup_1 _ _ _ _ Haw Hu). }
  assert (Hodd : Z.even (p + 1) = false) by (by rewrite Z.even_add, Hp).
  assert (Hwp : wp (schedule conf) (fun r s1 => exists q, r = Some (choice_of (q + 1)) /\ scheduled conf s s1 (q + 1) /\ Z.even q = true) s).
  { apply wp_idle_schedule; [done|done|done| |].
    - intros s1 q Hs1 (_ & Hfirst & _). exists (q - 1). replace (q - 1 + 1) with q by lia. split_and!; [done|done|].
      rewrite Z.even_sub. destruct (Z.even q) eqn:Hq; [|done]. specialize (Hfirst eq_refl _ _ Hodd Hu). congruence.
    - intros s1 _ _ _ Hn. specialize (Hn _ _ Hu). congruence. }
  apply wp_total in Hwp as (r & s1 & Hs & q & -> & Hq & Hev). by exists q, s1.
Qed.

(** A path of the step relation; its rounds are the actions that schedule. *)
Inductive steps : list action -> TSOTraceBuilder -> TSOTraceBuilder -> Prop :=
  | steps_nil s : steps [] s s
  | steps_cons a l s s1 s' : step conf s a s1 -> steps l s1 s' -> steps (a :: l) s s'.
Definition is_round (a : action) : bool := match a with SetAvailable _ _ => false | _ => true end.
Definition rounds (l : list action) : list action := List.filter is_round l.
Definition is_commit (a : action) : Prop := exists sd, a = Call (AtomicStore sd).

Lemma length_dequeue {A} (l : list (list A)) k x xs : l !! k = Some (x :: xs) ->
  S (length (concat (alter tail k l))) = length (concat l).
Proof.
  revert k. induction l as [|y l IH]; intros [|k]; [done..|intros [= ->]; done|]. intros Hk. cbn. rewrite !length_app.
  specialize (IH k Hk). change (list_alter tail k l) with (alter tail k l). lia.
Qed.

Definition zeros (ml : SymAddrSize) : SymDataRef := MkSymDataRef ml (Some (replicate (Z.to_nat (sas_size ml)) 0)).
Lemma zeros_ok ml : sas_ok ml -> sdr_ok (zeros ml) (replicate (Z.to_nat (sas_size ml)) 0).
Proof. intros Hml. split; [done|done|by rewrite length_replicate|]. by apply Forall_replicate. Qed.

(** A call of an auxiliary thread is a commit, which takes the oldest store of
    its process out of the buffer. *)
Lemma commit_pending s s1 q c s2 : scheduled conf s s1 (q + 1) -> executing conf s1 (q + 1) -> Z.even q = true ->
  pending_stores s1 = pending_stores s -> obliged conf s1 (q + 1) c -> perform conf c s1 = Some (true, s2) ->
  is_commit (Call c) /\ S (pending_stores s2) = pending_stores s.
Proof.
  intros (Hae & _) He Hq Hpend1 Hob Hp. assert (Hodd : Z.even (q + 1) = false) by (by rewrite Z.even_add, Hq).
  destruct (executing_aux conf Hchecks s1 q He Hq) as (t & ps & sb & Ht & Hsb).
  destruct (call_refines conf s1 (q + 1) c s2 Hae Hob Hp) as [_ [Hpend _]].
  assert (exists sd, c = AtomicStore sd) as [sd ->] by (destruct c; cbn [obliged] in Hob; try (destruct Hob; congruence); eauto).
  split; [by exists sd|]. rewrite <- Hpend1. unfold pending_stores. rewrite Hpend. cbn [tso_call]. unfold commit. rewrite Hodd.
  replace (q + 1 - 1) with q by lia. cbn [dequeue write pending]. pose proof (zget_Some _ _ _ Ht) as Hlt. eapply length_dequeue.
  cbn [abs pending]. rewrite list_lookup_fmap. unfold zget in Ht. rewrite decide_True in Ht by lia. rewrite Ht. cbn.
  unfold pend_of. by rewrite Hsb.
Qed.
Lemma same_pending s s' : same_abs s s' -> pending_stores s' = pending_stores s.
Proof. intros [Hp _]. unfold pending_stores. by rewrite Hp. Qed.

(** While a store is pending, no round does anything but commit one. *)
Lemma round_commits s a s' : reachable conf s -> max_search_depth conf < 0 -> pending_stores s <> 0%nat -> step conf s a s' ->
  if is_round a then is_commit a /\ S (pending_stores s') = pending_stores s else pending_stores s' = pending_stores s.
Proof.
  intros Hre Hdepth Hn Hst.
  assert (Hex : room s -> exists q s1, schedule conf s = Some (Some (choice_of (q + 1)), s1) /\ scheduled conf s s1 (q + 1) /\ Z.even q = true)
    by (intros; by apply schedule_commit).
  assert (Heven : forall q, Z.even q = true -> 0 <= q + 1 -> c_aux (choice_of (q + 1)) <> -1).
  { intros q Hq H0 Haux. apply choice_even in Haux; [|done]. by rewrite Z.even_add, Hq in Haux. }
  inversion Hst as [c ch s0 s1 s2 Hroom Hsch Hpre Hob _ Hp|ch s1 s2 Hroom Hsch Haux Hpos Hr|ml ch s1 s2 Hroom Hsch Haux Hpos Hm Hl Hr
    |s1 Hroom Hsch|proc v s1 Hne H0 Hlt Hw Hr]; subst; cbn [is_round].
  1-4: destruct (Hex Hroom) as (q & s3 & Hs & Hsched & Hq); pose proof (at_event_nonneg _ _ _ (proj1 Hsched)) as Hq1;
    rewrite Hsch in Hs; simplify_eq; try by destruct (Heven q Hq Hq1).
  - replace (choice_pid (choice_of (q + 1))) with (q + 1) in * by (by rewrite choice_pid_of).
    assert (Hodd : Z.even (q + 1) = false) by (by rewrite Z.even_add, Hq).
    inversion Hpre as [Heq|s4 Hev]; [subst s3|congruence]. apply (commit_pending s s1 q c s'); [done| |done| |done..].
    + exists s, (choice_of (q + 1)). by rewrite choice_pid_of.
    + apply same_pending. by eapply same_abs_schedule.
  - apply same_pending. destruct v; [by apply same_abs_mark_available in Hr|by apply same_abs_mark_unavailable in Hr].
Qed.
(** There is a round to make. *)
Lemma commit_step s : reachable conf s -> room s -> max_search_depth conf < 0 -> pending_stores s <> 0%nat ->
  exists sd s2, step conf s (Call (AtomicStore sd)) s2 /\ reachable conf s2 /\
    (length (events (prefix s2)) <= S (length (events (prefix s))))%nat.
Proof.
  intros Hre Hroom Hdepth Hn. destruct (schedule_commit s Hre Hroom Hdepth Hn) as (q & s1 & Hs & (Hae & Hlen & _) & Hq).
  assert (Hch : choice_pid (choice_of (q + 1)) = q + 1) by (apply choice_pid_of; by eapply at_event_nonneg).
  assert (He : executing conf s1 (q + 1)) by (exists s, (choice_of (q + 1)); by split_and!).
  destruct (executing_aux conf Hchecks s1 q He Hq) as (t & ps & sb & Ht & Hsb).
  assert (Hodd : Z.even (q + 1) = false) by (by rewrite Z.even_add, Hq).
  assert (Hml : sas_ok (ps_ml ps)).
  { apply (pi_ml (view s1) q ps). apply (ci_pending _ (inv_core _ _ (se_inv _ _ (ae_settled _ _ _ Hae))) q (tview t)).
    - by apply zget_tview.
    - simpl. rewrite Hsb. by left. }
  assert (Hob : obliged conf s1 (q + 1) (AtomicStore (zeros (ps_ml ps)))).
  { split; [eexists; by apply zeros_ok|]. by rewrite Hodd. }
  destruct (call_settles conf Hchecks s1 (q + 1) _ Hae Hob) as (s2 & Hp & _). exists (zeros (ps_ml ps)), s2.
  assert (Hst : step conf s (Call (AtomicStore (zeros (ps_ml ps)))) s2).
  { eapply step_call; [done|exact Hs|apply prepared_now|by rewrite Hch|congruence|exact Hp]. }
  split_and!; [done|by eapply reachable_step|]. pose proof (keeps_perform conf _ _ _ _ Hp) as Hk. by rewrite (ks_len _ _ _ Hk).
Qed.
Lemma drain_path n : forall s, reachable conf s -> max_search_depth conf < 0 -> pending_stores s = n ->
  Z.of_nat (length (events (prefix s)) + n) <= 2 ^ 31 -> exists l s', steps l s s' /\ length (rounds l) = n.
Proof.
  induction n as [|n IH]; intros s Hre Hdepth Hn Hroom; [exists [], s; by split; [constructor|]|].
  destruct (commit_step s) as (sd & s2 & Hst & Hre2 & Hlen); [done|unfold room; lia|done|lia|].
  destruct (round_commits s _ s2 Hre Hdepth ltac:(lia) Hst) as [_ Hn2].
  destruct (IH s2) as (l & s' & Hl & Hr); [done|done|lia|lia|]. exists (Call (AtomicStore sd) :: l), s'.
  split; [by eapply steps_cons|]. cbn. f_equal. exact Hr.
Qed.

(** C9. Pending stores reach memory, when the search depth is not bounded.
    On every path of the execution from a reachable state, the next rounds,
    as many as there are pending stores, are commits, whatever the interpreter
    does, each takes one store out of a buffer, and after them every buffer is
    empty; and such a path exists when there is room for its events. *)
Theorem buffers_drain s : reachable conf s -> max_search_depth conf < 0 ->
  (forall l s', steps l s s' -> (length (rounds l) <= pending_stores s)%nat ->
     Forall is_commit (rounds l) /\ (pending_stores s' + length (rounds l) = pending_stores s)%nat /\
     (length (rounds l) = pending_stores s -> Forall (fun t => store_buffer t = []) (threads s'))) /\
  (Z.of_nat (length (events (prefix s)) + pending_stores s) <= 2 ^ 31 ->
     exists l s', steps l s s' /\ length (rounds l) = pending_stores s).
Proof.
  intros Hre Hdepth. split; [|by apply drain_path]. intros l s' Hl. revert Hre. induction Hl as [s|a l s s1 s' Hst Hl IH]; intros Hre Hle.
  - cbn in *. split_and!; [done|lia|]. intros H0. by apply no_pending.
  - assert (Hre1 : reachable conf s1) by (by eapply reachable_step).
    destruct (decide (pending_stores s = 0%nat)) as [H0|H0].
    { assert (Hnil : is_round a = false) by (by rewrite H0 in Hle; destruct a; [cbn in Hle; lia..|done]).
      destruct a; try done. inversion Hst as [| | | |proc' v' s2 _ _ _ _ Hr]; subst.
      assert (Hp1 : pending_stores s1 = pending_stores s)
        by (apply same_pending; destruct v; [by apply same_abs_mark_available in Hr|by apply same_abs_mark_unavailable in Hr]).
      rewrite Hp1 in IH. by apply IH. }
    pose proof (round_commits s a s1 Hre Hdepth H0 Hst) as Hr.
    change (rounds (a :: l)) with (if is_round a then a :: rounds l else rounds l) in *. revert Hr Hle.
    destruct (is_round a); [|intros Hr Hle; rewrite Hr in IH; by apply IH]. intros [Ha Hn] Hle. cbn [length] in *.
    destruct (IH Hre1 ltac:(lia)) as (Hc & Hp & He). split_and!; [by constructor|lia|]. intros H1. apply He. lia.
Qed.

End live.

Lemma buffers_drain_witness : let s := demo_run [Call (Store demo_write)] in
  (forall l s', steps demo_conf l s s' -> length (rounds l) = 1%nat -> Forall is_commit (rounds l) /\ Forall (fun t => store_buffer t = []) (threads s')) /\
  exists l s', steps demo_conf l s s' /\ length (rounds l) = 1%nat.
Proof.
  intros s. assert (Hn : pending_stores s = 1%nat) by by vm_compute.
  destruct (buffers_drain demo_conf eq_refl s) as [Hall Hex]; [by apply demo_reachable; vm_compute|done|]. rewrite Hn in *. split.
  - intros l s' Hl Hr. destruct (Hall l s' Hl) as (Hc & _ & He); [lia|]. by split; [|apply He].
  - apply Hex. by vm_compute.
Defined.
