(* ===== verification/TSOHb.v ===== *)
(** * TSOHb: what [frontier_filter] keeps; the happens-before relation and the
      vector clocks

    The filter that [compute_vclocks] applies to the races of an event, for any
    comparison: it stays in bounds, keeps a set of elements of which none is
    below another, and whatever it drops is below something it kept. The
    source asks for a strict partial order; asymmetry is not needed, and
    transitivity only for some relation above the comparison.

    The relation that [compute_vclocks] computes clocks for: program order, the
    recorded edges, and the races. A table of clocks that is sound (every
    component comes from an event below) and complete (it is above the clocks
    of all predecessors) decides the relation. *)

From S2P Require Import Prelude.
From S2P Require Import StdMap.
From S2P Require Import VecSet.
From S2P Require Import VClock.
From S2P Require Import CPid.
From S2P Require Import SymAddr.
From S2P Require Import ByteOps.
From S2P Require Import SymEv.
From S2P Require Import ReplayMem.
From S2P Require Import WakeupTree.
From S2P Require Import TSOState.
From S2P Require Import TSOOps.
From S2P Require Import TSOInv.
From S2P Require Import TSOClocks.

Section vswap.
Context {A : Type}.
Implicit Types (v : list A).

Lemma vswap_mid (l1 l2 l3 : list A) x y :
  vswap (l1 ++ x :: l2 ++ y :: l3) (length l1) (length l1 + S (length l2)) = Some (l1 ++ y :: l2 ++ x :: l3).
Proof.
  assert (Hassoc : forall a b, l1 ++ a :: l2 ++ b :: l3 = (l1 ++ a :: l2) ++ b :: l3) by (intros; by rewrite <-app_assoc).
  unfold vswap. rewrite lookup_mid. cbn [mbind option_bind].
  assert (Hlen : forall a, length l1 + S (length l2) = length (l1 ++ a :: l2)) by (intros; len).
  rewrite Hassoc, (Hlen x), lookup_mid. cbn [mbind option_bind].
  rewrite <-Hassoc, vset_mid. cbn [mbind option_bind].
  by rewrite Hassoc, <-(Hlen x), (Hlen y), vset_mid, <-Hassoc.
Qed.

Lemma vswap_same v i x : v !! i = Some x -> vswap v i i = Some v.
Proof.
  intros Hx. unfold vswap. rewrite Hx. cbn [mbind option_bind]. pose proof (lookup_lt_Some _ _ _ Hx).
  rewrite vset_Some by done. cbn [mbind option_bind]. rewrite vset_Some by len.
  by rewrite list_insert_insert_eq, list_insert_id.
Qed.
End vswap.

Section frontier.
Context {A : Type} (less : A -> A -> option bool) (lt : A -> A -> bool).

Definition antichain (r : list A) : Prop :=
  forall i j x y, i <> j -> r !! i = Some x -> r !! j = Some y -> lt x y = false.
(** Every element of [d] is below one of [r], by any transitive relation that
    includes the comparison. *)
Definition covered (R : A -> A -> Prop) (r d : list A) : Prop := forall x, x ∈ d -> exists y, y ∈ r /\ R x y.

Definition unrelated (x : A) (l : list A) : Prop := forall y, y ∈ l -> lt x y = false /\ lt y x = false.

Lemma antichain_perm r r' : r ≡ₚ r' -> antichain r -> antichain r'.
Proof.
  intros Hp Ha i j x y Hij Hi Hj. symmetry in Hp. apply Permutation_inj in Hp as [_ (f & Hf & Hlook)].
  rewrite Hlook in Hi, Hj. apply (Ha (f i) (f j)); [|done..]. intros Heq. by apply Hij, Hf.
Qed.

Lemma antichain_sublist r r' : sublist r' r -> antichain r -> antichain r'.
Proof.
  intros Hs. induction Hs as [|x l1 l2 Hs IH|x l1 l2 Hs IH]; intros Ha; [done| |].
  - intros i j y z Hij Hi Hj. destruct i as [|i], j as [|j]; simpl in *; simplify_eq.
    + apply list_elem_of_lookup_2 in Hj. assert (Hj' : z ∈ l2) by (eapply elem_of_sublist; [exact Hj|done]).
      apply list_elem_of_lookup in Hj' as [k Hk]. by apply (Ha 0 (S k)).
    + apply list_elem_of_lookup_2 in Hi. assert (Hi' : y ∈ l2) by (eapply elem_of_sublist; [exact Hi|done]).
      apply list_elem_of_lookup in Hi' as [k Hk]. by apply (Ha (S k) 0).
    + apply (IH (fun a b c d e f g => Ha (S a) (S b) c d ltac:(congruence) f g) i j); congruence.
  - apply IH. intros i j y z Hij Hi Hj. by apply (Ha (S i) (S j)); [congruence|..].
Qed.

Lemma antichain_snoc r x : antichain r -> unrelated x r -> antichain (r ++ [x]).
Proof.
  intros Ha Hx i j y z Hij Hi Hj.
  apply lookup_app_Some in Hi as [Hi|[Hi1 Hi2]], Hj as [Hj|[Hj1 Hj2]].
  - by apply (Ha i j).
  - apply list_lookup_singleton_Some in Hj2 as [_ <-]. apply Hx. by eapply list_elem_of_lookup_2.
  - apply list_lookup_singleton_Some in Hi2 as [_ <-]. apply Hx. by eapply list_elem_of_lookup_2.
  - apply list_lookup_singleton_Some in Hi2 as [? _], Hj2 as [? _]. lia.
Qed.
Definition decided (v : list A) : Prop := forall x y, x ∈ v -> y ∈ v -> less x y = Some (lt x y).

Lemma decided_perm v v' : v ≡ₚ v' -> decided v -> decided v'.
Proof. intros Hp Hd x y Hx Hy. apply Hd; by rewrite Hp. Qed.

(** Moving a kept element out of the kept part. *)
Lemma vswap_out (K1 K2 T : list A) c : exists K2',
  vswap (K1 ++ (c :: K2) ++ T) (length K1) (length K1 + length (c :: K2) - 1) = Some (K1 ++ K2' ++ c :: T) /\
  K2' ≡ₚ K2.
Proof.
  destruct K2 as [|z K2 _] using rev_ind.
  - exists []. split; [|done]. replace (length K1 + length [c] - 1) with (length K1) by (simpl; lia).
    rewrite (vswap_same _ _ c) by (cbn [app]; apply lookup_mid). done.
  - exists (z :: K2). split; [|by rewrite (Permutation_app_comm K2)].
    replace (length K1 + length (c :: K2 ++ [z]) - 1) with (length K1 + S (length K2)) by (cbn [length]; len).
    cbn [app]. rewrite <-app_assoc. cbn [app]. by rewrite vswap_mid.
Qed.

Lemma frontier_check_spec fuel : forall K1 K2 T x current,
  length K2 <= fuel -> (K1 ++ K2 ++ T) !! current = Some x -> length K1 + length K2 <= current ->
  decided (K1 ++ K2 ++ T) -> unrelated x K1 ->
  exists b K D, frontier_check less fuel current (K1 ++ K2 ++ T) (length K1 + length K2) (length K1)
      = Some (b, (K ++ D ++ T, length K)) /\
    K ++ D ≡ₚ K1 ++ K2 /\ (forall d, d ∈ D -> lt d x = true) /\
    (if b : bool then unrelated x K else exists y, y ∈ K /\ lt x y = true).
Proof.
  induction fuel as [|fuel IH]; intros K1 K2 T x current Hfuel Hx Hcur Hdec Hun.
  { destruct K2; [|simpl in Hfuel; lia]. exists true, K1, []. cbn [frontier_check]. decide_len.
    rewrite Nat.add_0_r. split_and!; [done|done|by intros ? ?%elem_of_nil|done]. }
  cbn [frontier_check]. destruct K2 as [|c K2].
  { decide_len. exists true, K1, []. rewrite Nat.add_0_r. split_and!; [done|done|by intros ? ?%elem_of_nil|done]. }
  rewrite decide_False by len. rewrite Hx. cbn [mbind option_bind].
  assert (Hc : (K1 ++ (c :: K2) ++ T) !! length K1 = Some c) by (cbn [app]; apply lookup_mid).
  rewrite Hc. cbn [mbind option_bind].
  assert (Hxin : x ∈ K1 ++ (c :: K2) ++ T) by (by eapply list_elem_of_lookup_2).
  assert (Hcin : c ∈ K1 ++ (c :: K2) ++ T) by (by eapply list_elem_of_lookup_2).
  rewrite (Hdec x c) by done. cbn [mbind option_bind]. destruct (lt x c) eqn:Exc.
  { exists false, (K1 ++ c :: K2), []. split_and!.
    - by rewrite length_app, app_nil_l, <-app_assoc.
    - by rewrite app_nil_r.
    - by intros ? ?%elem_of_nil.
    - exists c. split; [set_solver|done]. }
  rewrite (Hdec c x) by done. cbn [mbind option_bind]. destruct (lt c x) eqn:Ecx.
  - destruct (vswap_out K1 K2 T c) as (K2' & Hswap & Hp). rewrite Hswap. cbn [mbind option_bind].
    pose proof (Permutation_length Hp) as Hlen.
    assert (Hcperm : K1 ++ K2' ++ c :: T ≡ₚ K1 ++ (c :: K2) ++ T).
    { rewrite Hp. cbn [app]. by rewrite <-Permutation_middle. }
    replace (length K1 + length (c :: K2) - 1) with (length K1 + length K2') by len.
    destruct (IH K1 K2' (c :: T) x current) as (b & K & D & Hr & HKD & HD & Hb); [len| |len| |done|].
    { rewrite app_assoc, lookup_app_r by len. rewrite app_assoc, lookup_app_r in Hx by len.
      destruct (current - length (K1 ++ K2')) as [|m] eqn:Em; [len|]. simpl.
      by replace (current - length (K1 ++ c :: K2)) with m in Hx by len. }
    { by eapply decided_perm. }
    exists b, K, (D ++ [c]). rewrite Hr. split_and!; [| | |done].
    + by rewrite <-app_assoc.
    + rewrite app_assoc, HKD, Hp. by rewrite <-Permutation_cons_append, <-Permutation_middle.
    + intros d [Hd| ->%list_elem_of_singleton]%elem_of_app; [by apply HD|done].
  - destruct (IH (K1 ++ [c]) K2 T x current) as (b & K & D & Hr & HKD & HD & Hb); [len| |len| | |].
    { by rewrite <-app_assoc. }
    { by rewrite <-app_assoc. }
    { intros y [Hy| ->%list_elem_of_singleton]%elem_of_app; [by apply Hun|done]. }
    exists b, K, D. split_and!; [|by rewrite HKD, <-app_assoc|done..].
    rewrite <-Hr. rewrite <-(app_assoc K1). cbn [app]. f_equal; len.
Qed.

(** Putting the current element behind the kept ones. *)
Lemma vswap_in (K D T : list A) x : exists D',
  (if decide (length K <> length K + length D) then vswap (K ++ D ++ x :: T) (length K) (length K + length D)
   else Some (K ++ D ++ x :: T)) = Some ((K ++ [x]) ++ D' ++ T) /\ D' ≡ₚ D.
Proof.
  destruct D as [|d D].
  - exists []. split; [|done]. rewrite decide_False by (simpl; lia). by rewrite <-app_assoc.
  - exists (D ++ [d]). split; [|by rewrite <-Permutation_cons_append].
    rewrite decide_True by (cbn [length]; lia). replace (length K + length (d :: D)) with (length K + S (length D)) by done.
    cbn [app]. rewrite vswap_mid. by rewrite <-!app_assoc.
Qed.

Lemma frontier_loop_spec T : forall K D, decided (K ++ D ++ T) -> antichain K ->
  exists K' D', frontier_loop less (length T) (length K + length D) (K ++ D ++ T) (length K) = Some (K' ++ D', length K') /\
    K' ++ D' ≡ₚ K ++ D ++ T /\ antichain K' /\
    forall R, transitive A R -> (forall x y, x ∈ K ++ D ++ T -> y ∈ K ++ D ++ T -> lt x y = true -> R x y) ->
      covered R K D -> covered R K' D'.
Proof.
  induction T as [|x T IH]; intros K D Hdec Hanti.
  { exists K, D. rewrite !app_nil_r. split_and!; done. }
  cbn [length frontier_loop].
  assert (Hx : (K ++ D ++ x :: T) !! (length K + length D) = Some x).
  { rewrite app_assoc, <-length_app. apply lookup_mid. }
  destruct (frontier_check_spec (length K) [] K (D ++ x :: T) x (length K + length D)) as (b & K1 & E & Hr & HKE & HE & Hb);
    [lia|done|simpl; lia|done|by intros y ?%elem_of_nil|].
  cbn [app length] in Hr, HKE. rewrite Nat.add_0_l in Hr. rewrite Hr. cbn [mbind option_bind].
  pose proof (Permutation_length HKE) as Hlen. rewrite length_app in Hlen.
  assert (Hanti1 : antichain K1).
  { eapply antichain_sublist, antichain_perm; [apply (sublist_inserts_r E K1 K1); done|symmetry; exact HKE|done]. }
  assert (Hin : x ∈ K ++ D ++ x :: T) by set_solver.
  assert (HK : forall y, y ∈ K1 ++ E -> y ∈ K ++ D ++ x :: T) by (intros y; rewrite HKE; set_solver).
  destruct b; cbn [mbind option_bind].
  - destruct (vswap_in K1 (E ++ D) T x) as (D' & Hs & HD'). pose proof (Permutation_length HD') as Hlen'.
    rewrite <-app_assoc in Hs. replace (length K1 + length (E ++ D)) with (length K + length D) in Hs by len.
    rewrite Hs. cbn [mbind option_bind].
    replace (S (length K + length D)) with (length (K1 ++ [x]) + length D') by len.
    replace (S (length K1)) with (length (K1 ++ [x])) by len.
    assert (Hperm : (K1 ++ [x]) ++ D' ++ T ≡ₚ K ++ D ++ x :: T).
    { rewrite HD'. rewrite <-(app_assoc K1), <-(app_assoc E). cbn [app].
      rewrite <-!Permutation_middle. constructor. by rewrite app_assoc, HKE. }
    destruct (IH (K1 ++ [x]) D') as (K' & F & Hrun & Hp & Ha & Hc).
    { by eapply decided_perm. } { by apply antichain_snoc. }
    exists K', F. split_and!; [done|by rewrite Hp|done|]. intros R Htrans HR Hcov. apply Hc; [done| |].
    { intros y z Hy Hz. rewrite Hperm in Hy, Hz. by apply HR. }
    intros y Hy. rewrite HD' in Hy. apply elem_of_app in Hy as [Hy|Hy].
    + exists x. split; [set_solver|]. apply HR; [apply HK; set_solver|done|by apply HE].
    + destruct (Hcov y Hy) as (k & Hk & Hyk). rewrite <-HKE in Hk. apply elem_of_app in Hk as [Hk|Hk].
      * exists k. split; [set_solver|done].
      * exists x. split; [set_solver|]. eapply Htrans; [exact Hyk|]. apply HR; [apply HK; set_solver|done|by apply HE].
  - destruct (IH K1 (E ++ D ++ [x])) as (K' & F & Hrun & Hp & Ha & Hc).
    { eapply decided_perm; [|exact Hdec]. rewrite <-!app_assoc. cbn [app]. by rewrite (app_assoc K1), HKE. }
    { done. }
    replace (S (length K + length D)) with (length K1 + length (E ++ D ++ [x])) by len.
    exists K', F. split_and!.
    + rewrite <-Hrun. f_equal. by rewrite <-!app_assoc.
    + rewrite Hp, <-!app_assoc. cbn [app]. by rewrite (app_assoc K1), HKE.
    + done.
    + intros R Htrans HR Hcov.
      assert (Hsame : K1 ++ (E ++ D ++ [x]) ++ T ≡ₚ K ++ D ++ x :: T).
      { rewrite <-!app_assoc. cbn [app]. by rewrite (app_assoc K1), HKE. }
      assert (HR' : forall y z, y ∈ K ++ D ++ x :: T -> z ∈ K1 -> lt y z = true -> R y z).
      { intros y z Hy Hz. apply HR; [done|apply HK; set_solver]. }
      destruct Hb as (k & Hk & Hxk). assert (Hxk' : R x k) by (by apply HR').
      apply Hc; [done| |].
      { intros y z Hy Hz. rewrite Hsame in Hy, Hz. by apply HR. }
      assert (HEk : forall y, y ∈ E -> R y k).
      { intros y Hy. eapply Htrans; [|exact Hxk']. apply HR; [apply HK; set_solver|done|by apply HE]. }
      intros y [Hy|[Hy| ->%list_elem_of_singleton]%elem_of_app]%elem_of_app.
      * exists k. split; [done|by apply HEk].
      * destruct (Hcov y Hy) as (z & Hz & Hyz). rewrite <-HKE in Hz. apply elem_of_app in Hz as [Hz|Hz]; [by exists z|].
        exists k. split; [done|]. eapply Htrans; [exact Hyz|by apply HEk].
      * by exists k.
Qed.

Lemma frontier_filter_keeps v : decided v -> exists kept dropped,
  frontier_filter less v = Some kept /\ kept ++ dropped ≡ₚ v /\ antichain kept /\
  forall R, transitive A R -> (forall x y, x ∈ v -> y ∈ v -> lt x y = true -> R x y) -> covered R kept dropped.
Proof.
  intros Hdec. destruct (frontier_loop_spec v [] []) as (K & D & Hr & Hp & Ha & Hc); [done|by intros ? ? ? ? ? ?|].
  exists K, D. cbn [app length] in *. unfold frontier_filter. replace (0 + 0) with 0 in Hr by lia. rewrite Hr. cbn [mbind option_bind fst snd].
  rewrite take_app_length. split_and!; [done..|]. intros R HR Hlt. apply Hc; [done|done|by intros ? ?%elem_of_nil].
Qed.

End frontier.

(** * The happens-before relation and the vector clocks *)

Local Open Scope Z_scope.

(** ** The relation *)

(** The event whose clock a race adds, for the kinds of races that add one. *)
Definition race_source (r : Race) : Z := if decide (r_kind r = LOCK_SUC) then r_third r else r_first r.
Definition orders (r : Race) : Prop := r_kind r <> RACE_NONDET /\ r_kind r <> LOCK_FAIL.
#[export] Instance orders_dec r : Decision (orders r).
Proof. unfold orders. apply _. Defined.

Definition event_pid (e : Event) : Z := iid_pid (iid e).
Definition event_number (e : Event) : Z := iid_index (iid e).

Section relation.
Context (evs : list Event).

(** Event [j] comes directly before event [i]: whatever the races, or because
    of one. *)
Definition fixed_edge (j i : Z) : Prop := exists ej ei, zget evs j = Some ej /\ zget evs i = Some ei /\
  ((j < i /\ event_pid ej = event_pid ei) \/ j ∈ happens_after ei).
Definition race_edge (j i : Z) : Prop := exists ei r, zget evs i = Some ei /\ r ∈ races ei /\ orders r /\ j = race_source r.
Definition edge (j i : Z) : Prop := fixed_edge j i \/ race_edge j i.

Definition happens_before : relation Z := rtc edge.

(** Events refer to earlier ones, and the events of a thread are numbered. *)
Record dag : Prop := {
  dg_iid : forall i e, zget evs i = Some e -> 0 <= event_pid e /\ 1 <= event_number e;
  dg_po : forall i j ei ej, zget evs i = Some ei -> zget evs j = Some ej -> event_pid ei = event_pid ej ->
    j < i -> event_number ej < event_number ei;
  dg_edge : forall j i, edge j i -> 0 <= j < i;
}.

Lemma hb_le j i : dag -> happens_before j i -> j <= i.
Proof. intros Hd Hh. induction Hh as [|j k i Hjk _ IH]; [done|]. pose proof (dg_edge Hd _ _ Hjk). lia. Qed.

Lemma edge_target j i : edge j i -> exists e, zget evs i = Some e.
Proof. by intros [(_ & ei & _ & Hi & _)|(ei & _ & Hi & _)]; exists ei. Qed.

(** ** Clocks *)

(** Component [p] of a clock of event [i] is 0 or the number of an event of
    thread [p] that is [i] or happens before [i], through a predecessor in [J]. *)
Definition via (J : Z -> Prop) (i k : Z) : Prop := k = i \/ exists j, J j /\ happens_before k j.
Definition sound_via (J : Z -> Prop) (i : Z) (c : list Z) : Prop := forall p, clk c p = 0 \/
  exists k ek, via J i k /\ zget evs k = Some ek /\ event_pid ek = Z.of_nat p /\ event_number ek = clk c p.
Definition sound (i : Z) : list Z -> Prop := sound_via (fun j => edge j i) i.

(** [c] is above the clock of event [j] in the table [cs]. *)
Definition above (cs : list Event) (c : list Z) (j : Z) : Prop := exists e, zget cs j = Some e /\ clk_le (clock e) c.

Definition component (c : list Z) (e : Event) : Z := clk c (Z.to_nat (event_pid e)).

Record clocked (cs : list Event) (i : Z) : Prop := {
  cl_event : exists e, zget evs i = Some e;
  cl_sound : forall e, zget cs i = Some e -> sound i (clock e);
  cl_own : forall e e', zget evs i = Some e -> zget cs i = Some e' -> event_number e <= component (clock e') e;
  cl_above : forall j e, edge j i -> zget cs i = Some e -> above cs (clock e) j;
}.

Lemma via_edge i k : via (fun j => edge j i) i k <-> happens_before k i.
Proof.
  split.
  - intros [->|(j & Hj & Hk)]; [done|]. eapply rtc_r; [exact Hk|done].
  - intros [->|(j & Hk & Hj)]%rtc_inv_r; [by left|]. right. by exists j.
Qed.
Lemma via_mono (J J' : Z -> Prop) i k : (forall j, J j -> J' j) -> via J i k -> via J' i k.
Proof. intros HJ [->|(j & Hj & Hk)]; [by left|]. right. exists j. auto. Qed.
Lemma sound_via_mono (J J' : Z -> Prop) i c : (forall j, J j -> J' j) -> sound_via J i c -> sound_via J' i c.
Proof. intros HJ Hs p. destruct (Hs p) as [H0|(k & ek & Hk & ?)]; [by left|]. right. exists k, ek. split; [by eapply via_mono|done]. Qed.

Lemma sound_via_wf J i c : dag -> sound_via J i c -> vc_wf c.
Proof. intros Hd Hs p. destruct (Hs p) as [->|(k & ek & _ & Hk & _ & <-)]; [done|]. pose proof (dg_iid Hd _ _ Hk). lia. Qed.

(** The join with the clock of a predecessor. *)
Lemma sound_via_join (J : Z -> Prop) i c cj j c' : sound_via J i c -> J j -> sound j cj ->
  (forall p, clk c' p = Z.max (clk c p) (clk cj p)) -> sound_via J i c'.
Proof.
  intros Hs Hj Hsj Hmax p. rewrite Hmax. destruct (Z.max_spec (clk c p) (clk cj p)) as [[_ ->]|[_ ->]]; [|apply Hs].
  destruct (Hsj p) as [H0|(k & ek & Hk & ?)]; [by left|]. right. exists k, ek. split; [|done]. right. exists j.
  split; [done|]. by apply via_edge.
Qed.

Lemma above_mono cs c c' j : clk_le c c' -> above cs c j -> above cs c' j.
Proof. intros Hle (e & He & Hc). exists e. split; [done|]. by transitivity c. Qed.

Lemma hb_above cs n j i : (forall k, 0 <= k < n -> clocked cs k) -> dag -> i < n -> happens_before j i ->
  forall e, zget cs i = Some e -> above cs (clock e) j.
Proof.
  intros Hcl Hd Hin Hh. induction Hh as [j|j k i Hjk Hki IH]; intros e He; [by exists e|].
  destruct (IH Hin e He) as (ek & Hek & Hle). pose proof (dg_edge Hd _ _ Hjk) as Hjk'. pose proof (hb_le _ _ Hd Hki).
  eapply above_mono; [exact Hle|]. eapply (cl_above cs k); [apply Hcl; lia|done|done].
Qed.

(** A component of a sound clock reaches the number of an event exactly when
    the event happens before; one direction needs no completeness. *)
Lemma sound_via_hb (J : Z -> Prop) i c j ej : dag -> (forall k, fixed_edge k i -> J k) -> sound_via J i c -> zget evs j = Some ej ->
  is_Some (zget evs i) -> event_number ej <= component c ej -> via J i j.
Proof.
  intros Hd HJ Hs Hj [ei Hi] Hle. pose proof (dg_iid Hd _ _ Hj) as [Hp Hn].
  destruct (Hs (Z.to_nat (event_pid ej))) as [H0|(k & ek & Hk & Hek & Hpid & Hnum)]; [unfold component in Hle; lia|].
  rewrite Z2Nat.id in Hpid by done. destruct (Z.lt_trichotomy j k) as [Hjk|[->|Hkj]].
  - assert (Hfix : fixed_edge j k) by (exists ej, ek; eauto).
    destruct Hk as [->|(l & Hl & Hkl)].
    + right. exists j. split; [by apply HJ|done].
    + right. exists l. split; [done|]. eapply rtc_l; [by left|done].
  - done.
  - pose proof (dg_po Hd _ _ _ _ Hj Hek (eq_sym Hpid) Hkj). unfold component in Hle. lia.
Qed.

Lemma sound_hb i c j ej : dag -> sound i c -> zget evs j = Some ej -> is_Some (zget evs i) ->
  event_number ej <= component c ej -> happens_before j i.
Proof. intros Hd Hs Hj Hi Hle. apply via_edge. eapply sound_via_hb; [done| |exact Hs|done..]. intros k Hk. by left. Qed.

Lemma clocked_hb cs n i e j ej : (forall k, 0 <= k < n -> clocked cs k) -> dag -> 0 <= i < n -> zget cs i = Some e ->
  zget evs j = Some ej -> event_number ej <= component (clock e) ej <-> happens_before j i.
Proof.
  intros Hcl Hd Hin He Hj. split.
  - apply sound_hb; [done| |done|]; [by eapply (cl_sound cs i); [apply Hcl|]|apply (cl_event cs i), Hcl, Hin].
  - intros Hh. pose proof (hb_le _ _ Hd Hh). assert (0 <= j) by (apply zget_Some in Hj; lia).
    destruct (hb_above cs n j i Hcl Hd (proj2 Hin) Hh e He) as (e' & He' & Hle).
    pose proof (cl_own cs j (Hcl j ltac:(lia)) _ _ Hj He') as Hown. specialize (Hle (Z.to_nat (event_pid ej))).
    unfold component in *. lia.
Qed.

Lemma clocked_includes cs n i e j ej : (forall k, 0 <= k < n -> clocked cs k) -> dag -> 0 <= i < n -> zget cs i = Some e ->
  zget evs j = Some ej -> exists b, vc_includes (clock e) (event_pid ej) (event_number ej) = Some b /\ (b = true <-> happens_before j i).
Proof.
  intros Hcl Hd Hin He Hj. pose proof (dg_iid Hd _ _ Hj) as [Hp _].
  unfold vc_includes. rewrite <-(Z2Nat.id (event_pid ej)), vc_get_spec by done. cbn [mbind option_bind].
  eexists. split; [done|]. rewrite bool_decide_eq_true. rewrite <-(clocked_hb cs n i e j ej) by done. done.
Qed.

Lemma clocked_leq cs n i j ei ej : (forall k, 0 <= k < n -> clocked cs k) -> dag -> 0 <= i < n -> 0 <= j < n ->
  zget cs i = Some ei -> zget cs j = Some ej ->
  clk_le (clock ej) (clock ei) <-> happens_before j i.
Proof.
  intros Hcl Hd Hin Hjn Hi Hj. split.
  - intros Hle. destruct (cl_event cs j (Hcl _ Hjn)) as [ej' Hej']. rewrite <-(clocked_hb cs n i ei j ej') by done.
    pose proof (cl_own cs j (Hcl j Hjn) _ _ Hej' Hj) as Hown. specialize (Hle (Z.to_nat (event_pid ej'))).
    unfold component in *. lia.
  - intros Hh. destruct (hb_above cs n j i Hcl Hd (proj2 Hin) Hh ei Hi) as (e' & He' & Hle). congruence.
Qed.
End relation.
