(* ===== verification/TSOVclocks.v ===== *)
(** * TSOVclocks: [compute_vclocks] computes the happens-before relation

    The specification of each stage of [compute_vclocks], and with it the
    theorem that on a well-formed trace it succeeds, that the clocks decide
    the happens-before relation, and that the races that remain are those
    whose order no other path fixes. *)

From S2P Require Import Prelude StdMap VecSet VClock CPid SymAddr ByteOps SymEv ReplayMem WakeupTree TSOState TSOOps.
From S2P Require Import TSOInv TSOClocks TSOHb.

Local Open Scope Z_scope.

(** [std::partition]: the elements that satisfy the predicate, and the others,
    in some order. *)
Definition partition_spec (partition : forall A, (A -> bool) -> list A -> list A * list A) : Prop :=
  forall A (f : A -> bool) l, (partition A f l).1 ++ (partition A f l).2 ≡ₚ l /\
    (forall x, x ∈ (partition A f l).1 -> f x = true) /\ (forall x, x ∈ (partition A f l).2 -> f x = false).

(** The state with another event list. *)
Definition with_events (s : TSOTraceBuilder) (cs : list Event) : TSOTraceBuilder :=
  set_prefix (MkBuffer (wtree (prefix s)) cs) s.

Definition put_clock (i : Z) (e : Event) (c : list Z) (cs : list Event) : list Event := <[Z.to_nat i := set_clock c e]> cs.

Lemma wp_pfx_at s cs i e (Q : Event -> TSOTraceBuilder -> Prop) :
  zget cs i = Some e -> Q e (with_events s cs) -> wp (pfx i) Q (with_events s cs).
Proof. intros He HQ. by eapply wp_pfx. Qed.

Lemma wp_pfx_set s cs i e f (Q : unit -> TSOTraceBuilder -> Prop) : zget cs i = Some e ->
  Q tt (with_events s (<[Z.to_nat i := f e]> cs)) -> wp (pfx_upd i f) Q (with_events s cs).
Proof.
  intros He HQ. pose proof (zget_Some _ _ _ He) as Hi. unfold pfx_upd. wp_gets. apply wp_bind. eapply wp_lift; [exact He|].
  apply wp_bind. eapply wp_lift; [|by apply wp_modify].
  unfold zset, vset. rewrite decide_True by lia. cbn [with_events prefix set_prefix events]. by rewrite decide_True by lia.
Qed.

Lemma zget_put_eq i e c cs : 0 <= i < Z.of_nat (length cs) -> zget (put_clock i e c cs) i = Some (set_clock c e).
Proof. intros Hi. unfold put_clock. rewrite zget_insert by done. by rewrite decide_True. Qed.
Lemma zget_put_ne i e c cs j : 0 <= i < Z.of_nat (length cs) -> j <> i -> zget (put_clock i e c cs) j = zget cs j.
Proof. intros Hi Hj. unfold put_clock. rewrite zget_insert by done. by rewrite decide_False. Qed.
Lemma put_clock_again i e c c' cs : <[Z.to_nat i := set_clock c' (set_clock c e)]> (put_clock i e c cs) = put_clock i e c' cs.
Proof. unfold put_clock. by rewrite list_insert_insert_eq. Qed.

Lemma clk_le_max a b c : (forall p, clk c p = Z.max (clk a p) (clk b p)) -> clk_le a c /\ clk_le b c.
Proof. intros H. split; intros p; rewrite H; lia. Qed.

Lemma elem_of_perm_l {A} (l k m : list A) x : l ++ k ≡ₚ m -> x ∈ l -> x ∈ m.
Proof. intros <-. set_solver. Qed.
Lemma elem_of_perm_r {A} (l k m : list A) x : l ++ k ≡ₚ m -> x ∈ k -> x ∈ m.
Proof. intros <-. set_solver. Qed.

(** Predicates that read the state but do not change it. *)
Lemma wp_partitionM {A} (partition : forall A, (A -> bool) -> list A -> list A * list A) (p : A -> M bool) (q : A -> bool) l s
    (Q : list A * list A -> TSOTraceBuilder -> Prop) :
  partition_spec partition -> (forall x, x ∈ l -> p x s = Some (q x, s)) ->
  (forall a b, a ++ b ≡ₚ l -> (forall x, x ∈ a -> q x = true) -> (forall x, x ∈ b -> q x = false) -> Q (a, b) s) ->
  wp (partitionM partition p l) Q s.
Proof.
  intros Hpart Hp HQ. unfold partitionM. apply wp_bind.
  assert (Hloop : forall l' acc, (forall x, x ∈ l' -> p x s = Some (q x, s)) ->
    wp (loop l' (fun x acc => b ← p x; mret (acc ++ [(x, b)])) acc) (fun r s' => r = acc ++ map (fun x => (x, q x)) l' /\ s' = s) s).
  { intros l'. induction l' as [|x l' IH]; intros acc Hl; cbn [loop map]; [by rewrite app_nil_r|].
    apply wp_bind. apply wp_bind. unfold wp at 1. rewrite Hl by set_solver. apply wp_ret.
    eapply wp_mono; [apply IH; intros y Hy; apply Hl; set_solver|]. intros r s' [-> ->]. by rewrite <-app_assoc. }
  eapply wp_mono; [by apply Hloop|]. intros tagged s' [-> ->]. cbn [app]. apply wp_ret.
  destruct (Hpart _ snd (map (fun x => (x, q x)) l)) as (Hperm & H1 & H2).
  destruct (partition _ snd _) as [a b]. cbn [fst snd] in *.
  assert (Htag : forall z, z ∈ a ++ b -> z.2 = q z.1).
  { intros z Hz. rewrite Hperm in Hz. apply list_elem_of_fmap in Hz as (x & -> & _). done. }
  apply HQ.
  - change (map fst a ++ map fst b) with ((fst <$> a) ++ (fst <$> b)). rewrite <-fmap_app, Hperm.
    rewrite <-list_fmap_compose. by rewrite list_fmap_id.
  - intros x Hx. apply list_elem_of_fmap in Hx as (z & -> & Hz). rewrite <-Htag by set_solver. by apply H1.
  - intros x Hx. apply list_elem_of_fmap in Hx as (z & -> & Hz). rewrite <-Htag by set_solver. by apply H2.
Qed.

Lemma wp_idle_each {A} (l : list A) body s (Q : unit -> TSOTraceBuilder -> Prop) :
  (forall x, x ∈ l -> body x s = Some (tt, s)) -> Q tt s -> wp (each l body) Q s.
Proof.
  intros Hb HQ. unfold each. induction l as [|x l IH]; cbn [loop]; [done|]. apply wp_bind. unfold wp at 1.
  rewrite Hb by set_solver. apply IH. intros y Hy. apply Hb. set_solver.
Qed.

(** ** One event *)

Section event.
Context (IsBigEndianHost : bool) (conf : Configuration) (partition : forall A, (A -> bool) -> list A -> list A * list A).
Context (Hpart : partition_spec partition).
Context (s : TSOTraceBuilder) (raw cs : list Event) (i : Z) (e : Event).
Context (Hdag : dag raw) (He : zget raw i = Some e) (Hlen : length cs = length raw) (Hcur : zget cs i = Some e).
Context (Hiid : forall j ej ej', zget raw j = Some ej -> zget cs j = Some ej' -> iid ej' = iid ej).
Context (Hdone : forall j, 0 <= j < i -> clocked raw cs j).
Context (Hha : forall j, j ∈ happens_after e -> 0 <= j < i).

(** The state in which event [i] has clock [c]. *)
Definition at_clock (c : list Z) : TSOTraceBuilder := with_events s (put_clock i e c cs).
Definition good (J : Z -> Prop) (c : list Z) : Prop := sound_via raw J i c /\ event_number e <= component c e.

Lemma cs_index : 0 <= i < Z.of_nat (length cs).
Proof. by eapply zget_Some. Qed.

Lemma wp_pfx_here c (Q : Event -> TSOTraceBuilder -> Prop) : Q (set_clock c e) (at_clock c) -> wp (pfx i) Q (at_clock c).
Proof. apply wp_pfx_at. apply zget_put_eq, cs_index. Qed.
Lemma wp_pfx_other c j ej (Q : Event -> TSOTraceBuilder -> Prop) : j <> i -> zget cs j = Some ej ->
  Q ej (at_clock c) -> wp (pfx j) Q (at_clock c).
Proof. intros Hj Hej. apply wp_pfx_at. rewrite zget_put_ne by (done || apply cs_index). done. Qed.
Lemma wp_set_clock c c' (Q : unit -> TSOTraceBuilder -> Prop) : Q tt (at_clock c') -> wp (pfx_upd i (set_clock c')) Q (at_clock c).
Proof.
  intros HQ. eapply wp_pfx_set; [apply zget_put_eq, cs_index|]. by rewrite put_clock_again.
Qed.

Lemma earlier j : 0 <= j < i -> exists ej ej', zget raw j = Some ej /\ zget cs j = Some ej' /\ iid ej' = iid ej /\ sound raw j (clock ej').
Proof.
  intros Hj. pose proof cs_index. destruct (zget_lt raw j ltac:(lia)) as [ej Hej]. destruct (zget_lt cs j ltac:(lia)) as [ej' Hej'].
  exists ej, ej'. split_and!; [done..|by eapply Hiid|]. by apply (cl_sound _ _ _ (Hdone j Hj)).
Qed.

Lemma edge_before j : edge raw j i -> 0 <= j < i.
Proof. apply (dg_edge _ Hdag). Qed.

Lemma good_wf J c : good J c -> vc_wf c.
Proof. intros [Hs _]. by eapply sound_via_wf. Qed.

Lemma wp_join_clock (J : Z -> Prop) c j (Q : unit -> TSOTraceBuilder -> Prop) : edge raw j i -> J j -> good J c ->
  (forall c', clk_le c c' -> good J c' -> above cs c' j -> Q tt (at_clock c')) -> wp (join_clock i j) Q (at_clock c).
Proof.
  intros Hedge HJ Hg HQ. pose proof (edge_before j Hedge) as Hj.
  destruct (earlier j Hj) as (ej & ej' & Hej & Hej' & _ & Hsj).
  unfold join_clock. apply wp_bind, wp_pfx_here. apply wp_bind. eapply wp_pfx_other; [lia|exact Hej'|].
  destruct (vc_plus_assign_spec c (clock ej')) as (c' & Hc' & Hmax); [by eapply good_wf|].
  apply wp_bind. eapply wp_lift; [exact Hc'|]. apply wp_set_clock. destruct (clk_le_max _ _ _ Hmax) as [H1 H2].
  destruct Hg as [Hs Hown]. apply HQ; [done| |by exists ej']. split; [by eapply sound_via_join|].
  specialize (H1 (Z.to_nat (event_pid e))). unfold component in *. lia.
Qed.

(** Joining the clocks of the sources that a list of things names. *)
Lemma wp_join_each {A} (J : Z -> Prop) (l : list A) (body : A -> M unit) (src : A -> option Z) c (Q : unit -> TSOTraceBuilder -> Prop) :
  good J c ->
  (forall x c1 (R : unit -> TSOTraceBuilder -> Prop), x ∈ l -> good J c1 -> clk_le c c1 ->
     (forall c2, clk_le c1 c2 -> good J c2 -> (forall j, src x = Some j -> above cs c2 j) -> R tt (at_clock c2)) ->
     wp (body x) R (at_clock c1)) ->
  (forall c', clk_le c c' -> good J c' -> (forall x j, x ∈ l -> src x = Some j -> above cs c' j) -> Q tt (at_clock c')) ->
  wp (each l body) Q (at_clock c).
Proof.
  intros Hg Hbody HQ.
  eapply wp_mono; [apply (wp_each (fun rest s' => exists c1 done, s' = at_clock c1 /\ l = done ++ rest /\ good J c1 /\ clk_le c c1 /\
    forall x j, x ∈ done -> src x = Some j -> above cs c1 j))|].
  - exists c, []. split_and!; [done..|by intros ? ? ?%elem_of_nil].
  - intros x rest s' (c1 & done & -> & Hl & Hg1 & Hle & Hdn). apply Hbody; [set_solver|done..|].
    intros c2 Hle2 Hg2 Hx. exists c2, (done ++ [x]). split_and!; [done|by rewrite <-app_assoc|done|by transitivity c1|].
    intros y j [Hy| ->%list_elem_of_singleton]%elem_of_app Hj; [|by apply Hx]. eapply above_mono; [exact Hle2|by eapply Hdn].
  - intros [] s' (c1 & done & -> & -> & Hg1 & Hle & Hdn). apply HQ; [done..|]. intros x j Hx. rewrite app_nil_r in Hx. by apply Hdn.
Qed.

(** *** Program order and the recorded edges *)

Definition fixed (j : Z) : Prop := fixed_edge raw j i.

Lemma own_component (J : Z -> Prop) c0 l : fixed l -> J l -> sound raw l c0 -> exists c, vc_set c0 (event_pid e) (event_number e) = Some c /\
  good J c /\ clk_le c0 c.
Proof.
  intros Hl HJ Hs0. pose proof (dg_iid _ Hdag _ _ He) as [Hp Hn]. rewrite <-(Z2Nat.id (event_pid e)) by done.
  destruct (vc_set_spec c0 (Z.to_nat (event_pid e)) (event_number e)) as (c & Hc & Hclk). exists c.
  split; [done|]. assert (Hown : event_number e = component c e) by (unfold component; by rewrite Hclk, decide_True).
  split; [split; [|lia]|].
  - intros p. rewrite Hclk. case_decide as Hpe.
    + right. exists i, e. split_and!; [by left|done|rewrite Hpe; lia|done].
    + destruct (Hs0 p) as [H0|(k & ek & Hk & ?)]; [by left|]. right. exists k, ek. split; [|done]. right. exists l.
      split; [done|]. by apply via_edge.
  - intros p. rewrite Hclk. case_decide as Hpe; [|done]. destruct (Hs0 p) as [->|(k & ek & Hk & Hek & Hpid & <-)]; [lia|].
    apply via_edge in Hk. apply (hb_le _ _ _ Hdag) in Hk. pose proof (edge_before l (or_introl Hl)).
    assert (event_number ek < event_number e); [|lia].
    eapply (dg_po _ Hdag i k); [done|done| |lia]. rewrite Hpid, Hpe. lia.
Qed.

Lemma own_component_first : exists c, vc_set [] (event_pid e) (event_number e) = Some c /\ good fixed c.
Proof.
  pose proof (dg_iid _ Hdag _ _ He) as [Hp Hn]. rewrite <-(Z2Nat.id (event_pid e)) by done.
  destruct (vc_set_spec [] (Z.to_nat (event_pid e)) (event_number e)) as (c & Hc & Hclk). exists c.
  split; [done|]. split; [|unfold component; rewrite Hclk, decide_True; [lia|done]].
  intros p. rewrite Hclk. case_decide as Hpe; [|by left]. right. exists i, e. split_and!; [by left|done|rewrite Hpe; lia|done].
Qed.

(** [find_process_event] finds the last event of the thread. *)
Definition finds_last : Prop := 1 < event_number e -> exists l el,
  find_process_event (event_pid e) (event_number e - 1) (with_events s cs) = Some (l, with_events s cs) /\
  zget raw l = Some el /\ l < i /\ event_pid el = event_pid e /\
  forall j ej, zget raw j = Some ej -> event_pid ej = event_pid e -> j < i -> j <= l.

Lemma wp_program_order_clock (Q : unit -> TSOTraceBuilder -> Prop) : finds_last ->
  (forall c, good fixed c -> (forall j, fixed j -> above cs c j) -> Q tt (at_clock c)) ->
  wp (program_order_clock i) Q (with_events s cs).
Proof.
  intros Hfind HQ. unfold program_order_clock. apply wp_bind. eapply wp_pfx_at; [exact Hcur|].
  assert (Hbase : exists c0 c, (forall R, R c0 (with_events s cs) ->
      wp (if decide (1 < iid_index (iid e)) then last ← find_process_event (iid_pid (iid e)) (iid_index (iid e) - 1); l ← pfx last; mret (clock l)
          else mret []) R (with_events s cs)) /\
      vc_set c0 (event_pid e) (event_number e) = Some c /\ good fixed c /\
      forall j ej, zget raw j = Some ej -> event_pid ej = event_pid e -> j < i -> above cs c j).
  { destruct (decide (1 < iid_index (iid e))) as [H1|H1].
    - destruct (Hfind H1) as (l & el & Hf & Hel & Hli & Hpid & Hmax).
      assert (Hl0 : 0 <= l) by (apply zget_Some in Hel; lia).
      destruct (earlier l ltac:(lia)) as (el0 & el' & Hel0 & Hel' & _ & Hsl).
      assert (Hfix : fixed l) by (exists el, e; split_and!; [done|done|by left]).
      destruct (own_component fixed (clock el') l) as (c & Hc & Hg & Hle); [done..|].
      exists (clock el'), c. split_and!; [|done|done|].
      + intros R HR. apply wp_bind. unfold wp at 1. change (iid_pid (iid e)) with (event_pid e). change (iid_index (iid e)) with (event_number e).
        rewrite Hf. apply wp_bind. by eapply wp_pfx_at.
      + intros j ej Hj Hjp Hji. assert (0 <= j) by (apply zget_Some in Hj; lia). pose proof (Hmax j ej Hj Hjp Hji) as Hjl.
        destruct (decide (j = l)) as [->|Hne]; [by exists el'|].
        eapply above_mono; [exact Hle|]. eapply (cl_above raw cs l); [apply Hdone; lia| |exact Hel'].
        left. exists ej, el. split_and!; [done..|]. left. split; [lia|congruence].
    - destruct own_component_first as (c & Hc & Hg). exists [], c. split_and!; [|done|done|].
      + intros R HR. by apply wp_ret.
      + intros j ej Hj Hjp Hji. exfalso. pose proof (dg_po _ Hdag _ _ _ _ He Hj (eq_sym Hjp) Hji). pose proof (dg_iid _ Hdag _ _ Hj).
        unfold event_number in *. lia. }
  destruct Hbase as (c0 & c & Hrun & Hc & Hg & Hpo). apply wp_bind. apply Hrun. apply wp_bind. eapply wp_lift; [exact Hc|].
  apply wp_bind. eapply wp_pfx_set; [exact Hcur|]. fold (put_clock i e c cs). fold (at_clock c).
  apply (wp_join_each fixed (happens_after e) _ Some c); [done| |].
  - intros j c1 R Hj Hg1 _ HR. assert (Hfix : fixed j).
    { destruct (zget_lt raw j) as [ej Hej]; [apply Hha in Hj; pose proof (zget_Some _ _ _ He); lia|].
      exists ej, e. split_and!; [done..|by right]. }
    wp_assert; [apply bool_decide_eq_true, edge_before; by left|].
    apply (wp_join_clock fixed); [by left|done|done|]. intros c2 Hle Hg2 Hab. apply HR; [done|done|]. by intros ? [= <-].
  - intros c' Hle Hg' Hall. apply HQ; [done|]. intros j (ej & ei & Hej & Hei & Hor). assert (ei = e) as -> by congruence.
    destruct Hor as [[Hji Hpid]|Hj]; [|by eapply Hall]. eapply above_mono; [exact Hle|by eapply Hpo].
Qed.

(** *** Races whose order is already fixed *)

(** What the races of an event look like when nothing awaits: they are with
    earlier events, a lock race stands alone, and the unlock comes after the
    lock. *)
Record races_ok : Prop := {
  ro_kind : forall r, r ∈ races e -> r_kind r <> SEQUENCE;
  ro_first : forall r, r ∈ races e -> r_kind r <> RACE_NONDET -> 0 <= r_first r < i;
  ro_lock : forall r, r ∈ races e -> r_kind r = LOCK_SUC -> happens_before raw (r_first r) (r_third r);
  ro_alone : forall r r', r ∈ races e -> r_kind r = LOCK_SUC -> r' ∈ races e -> orders r' -> r' = r;
}.
Context (Hraces : races_ok).

Lemma race_source_edge r : r ∈ races e -> orders r -> edge raw (race_source r) i.
Proof. intros Hr Ho. right. by exists e, r. Qed.

(** The predecessors that count before the races are filtered. *)
Definition fixed_or_unlock (j : Z) : Prop := fixed j \/ exists r, r ∈ races e /\ r_kind r = LOCK_SUC /\ j = r_third r.

Lemma lock_orders r : r_kind r = LOCK_SUC -> orders r.
Proof. intros Hk. by split; rewrite Hk. Qed.
Lemma lock_source r : r_kind r = LOCK_SUC -> race_source r = r_third r.
Proof. intros Hk. unfold race_source. by rewrite decide_True. Qed.

Definition unordered (c : list Z) (r : Race) : bool :=
  match zget cs (r_first r) with Some f => negb (default true (vc_leq (clock f) c)) | None => false end.

Lemma unordered_spec c r : vc_wf c -> 0 <= r_first r < i ->
  race_unordered i r (at_clock c) = Some (unordered c r, at_clock c) /\ (unordered c r = false <-> above cs c (r_first r)).
Proof.
  intros Hc Hr. destruct (earlier _ Hr) as (ef & ef' & Hef & Hef' & _ & Hs).
  destruct (vc_leq_spec (clock ef') c) as (b & Hb & Hspec); [by eapply sound_via_wf|done|].
  unfold unordered. rewrite Hef', Hb. split.
  - assert (Hwp : wp (race_unordered i r) (fun x s' => x = negb b /\ s' = at_clock c) (at_clock c)).
    { unfold race_unordered. apply wp_bind. eapply wp_pfx_other; [lia|exact Hef'|]. apply wp_bind, wp_pfx_here.
      apply wp_bind. eapply wp_lift; [exact Hb|]. by apply wp_ret. }
    apply wp_total in Hwp as (x & s' & -> & -> & ->). done.
  - cbn [from_option]. rewrite negb_false_iff, Hspec. split; [by exists ef'|]. intros (x & Hx & Hle). by simplify_eq.
Qed.

Lemma wp_drop_ordered fuel : forall pairs c (Q : list Race -> TSOTraceBuilder -> Prop), (length pairs < fuel)%nat ->
  (forall r, r ∈ pairs -> r ∈ races e /\ r_kind r <> RACE_NONDET) -> good fixed_or_unlock c ->
  (forall rest dropped c', rest ++ dropped ≡ₚ pairs -> clk_le c c' -> good fixed_or_unlock c' ->
     (forall r, r ∈ dropped -> above cs c' (r_first r) /\ (orders r -> above cs c' (race_source r))) ->
     (forall r, r ∈ rest -> ~ above cs c' (r_first r)) -> Q rest (at_clock c')) ->
  wp (drop_ordered partition fuel i pairs) Q (at_clock c).
Proof.
  induction fuel as [|fuel IH]; intros pairs c Q Hfuel Hin Hg HQ; [lia|]. cbn [drop_ordered].
  assert (Hfirst : forall r, r ∈ pairs -> 0 <= r_first r < i).
  { intros r Hr. destruct (Hin r Hr). by apply (ro_first Hraces). }
  apply wp_bind. apply (wp_partitionM _ _ (unordered c)); [done| |].
  { intros r Hr. apply unordered_spec; [by eapply good_wf|by apply Hfirst]. }
  intros a b Hperm Ha Hb. cbn [fst snd].
  assert (Habove : forall r, r ∈ b -> above cs c (r_first r)).
  { intros r Hr. apply unordered_spec; [by eapply good_wf|eapply Hfirst, elem_of_perm_r; [exact Hperm|done]|by apply Hb]. }
  apply wp_bind. destruct (existsb _ b) eqn:Hex.
  - apply (wp_join_each fixed_or_unlock b _ (fun r => if decide (r_kind r = LOCK_SUC) then Some (r_third r) else None) c); [done| |].
    + intros r c1 R Hr Hg1 Hle1 HR. apply wp_when.
      * intros Hk%bool_decide_eq_true. destruct (Hin r) as [Hre _]; [by eapply elem_of_perm_r|].
        apply (wp_join_clock fixed_or_unlock); [|by right; exists r|done|].
        { rewrite <-(lock_source r) by done. by apply race_source_edge, lock_orders. }
        intros c2 Hle Hg2 Hab. apply HR; [done..|]. intros j. case_decide; [|done]. by intros [= <-].
      * intros Hk%bool_decide_eq_false. apply HR; [done..|]. intros j. by rewrite decide_False.
    + intros c' Hle Hg' Hsrc.
      assert (Hlt : (length a < length pairs)%nat).
      { rewrite <-(Permutation_length Hperm), length_app. destruct b; [done|simpl; lia]. }
      apply IH; [lia| |done|].
      { intros r Hr. eapply Hin, elem_of_perm_l; [exact Hperm|done]. }
      intros rest dropped c2 Hp2 Hle2 Hg2 Hd2 Hr2.
      apply (HQ rest (dropped ++ b)); [by rewrite app_assoc, Hp2|by transitivity c'|done| |done].
      intros r [Hr|Hr]%elem_of_app; [by apply Hd2|]. split; [|intros _; unfold race_source; case_decide as Hk].
      * eapply above_mono; [|by apply Habove]. by transitivity c'.
      * eapply above_mono; [exact Hle2|]. apply (Hsrc r); [done|]. by rewrite decide_True.
      * eapply above_mono; [|by apply Habove]. by transitivity c'.
  - assert (Hno : forall r, r ∈ b -> r_kind r <> LOCK_SUC).
    { intros r Hr Hk. enough (existsb (fun x => bool_decide (r_kind x = LOCK_SUC)) b = true) by congruence.
      apply existsb_exists. exists r. split; [by apply list_elem_of_In|by apply bool_decide_eq_true]. }
    apply wp_idle_each. { intros r Hr. rewrite bool_decide_false by auto. done. }
    apply wp_ret. apply (HQ a b); [done..| |].
    + intros r Hr. split; [by apply Habove|]. intros _. unfold race_source. rewrite decide_False by auto. by apply Habove.
    + intros r Hr. destruct (unordered_spec c r) as [_ Hu]; [by eapply good_wf|eapply Hfirst, elem_of_perm_l; [exact Hperm|done]|].
      rewrite <-Hu. intros Hf. by rewrite Ha in Hf.
Qed.

(** *** Races that another race subsumes *)

Lemma above_hb c k j : 0 <= j < i -> happens_before raw k j -> above cs c j -> above cs c k.
Proof.
  intros Hj Hh (ej & Hej & Hle). pose proof cs_index.
  eapply above_mono; [exact Hle|]. eapply (hb_above raw cs i k j); [exact Hdone|done|lia|done|done].
Qed.

Lemma pair_source r : r ∈ races e -> r_kind r <> RACE_NONDET -> 0 <= race_source r < i.
Proof.
  intros Hr Hk. unfold race_source. case_decide as Hl; [|by apply (ro_first Hraces)].
  rewrite <-(lock_source r) by done. by apply edge_before, race_source_edge, lock_orders.
Qed.

Lemma put_earlier c j : 0 <= j < i -> zget (put_clock i e c cs) j = zget cs j.
Proof. intros Hj. apply zget_put_ne; [apply cs_index|lia]. Qed.

Definition same_pair (f g : Race) : Prop :=
  r_kind f = OBSERVED /\ r_kind g = OBSERVED /\ r_first f = r_first g /\ r_second f = r_second g.

Lemma subsumes_spec c f g : f ∈ races e -> g ∈ races e -> r_kind f <> RACE_NONDET -> r_kind g <> RACE_NONDET ->
  exists b, subsumes (zget (put_clock i e c cs)) f g = Some b /\
    (b = true -> r_kind g <> LOCK_FAIL /\ happens_before raw (r_first f) (race_source g)) /\
    (b = false -> r_kind g = LOCK_FAIL \/ ~ happens_before raw (r_first f) (race_source g) \/ (same_pair f g /\ r_third f < r_third g)).
Proof.
  intros Hf Hg Hkf Hkg. pose proof (ro_first Hraces f Hf Hkf) as Hff. pose proof (pair_source g Hg Hkg) as Hgs.
  unfold subsumes. destruct (decide (r_kind g = LOCK_FAIL)) as [Hl|Hl]; [exists false; split_and!; [done..|by left]|].
  rewrite (decide_False (P := r_kind g = SEQUENCE)) by (by apply (ro_kind Hraces)).
  case_decide as Hob.
  - exists (bool_decide (r_third g <= r_third f)). split_and!; [done| |].
    + intros _. split; [done|]. unfold race_source. destruct Hob as (_ & Ho & Hfirst & _). rewrite decide_False by congruence.
      rewrite Hfirst. apply rtc_refl.
    + intros Hb%bool_decide_eq_false. right. right. split; [done|lia].
  - fold (race_source g). rewrite !put_earlier by done.
    destruct (earlier _ Hgs) as (eg & eg' & _ & Heg' & _ & _). destruct (earlier _ Hff) as (ef & ef' & Hef & Hef' & Hid & _).
    rewrite Heg', Hef'. cbn [mbind option_bind]. rewrite Hid.
    destruct (clocked_includes raw cs i (race_source g) eg' (r_first f) ef) as (b & Hb & Hspec); [exact Hdone|done..|].
    exists b. split_and!; [exact Hb| |].
    + intros Hbt. split; [done|]. by apply Hspec.
    + intros ->. right. left. intros Hh. by apply Hspec in Hh.
Qed.

(** [f] comes, as far as clocks go, before [g]. *)
Definition race_before (f g : Race) : Prop := r_kind g <> LOCK_FAIL /\ happens_before raw (race_source f) (race_source g).
Lemma race_before_trans : transitive Race race_before.
Proof. intros f g h [_ H1] [Hk H2]. split; [done|]. etrans; [exact H1|exact H2]. Qed.

Definition subsumesb (c : list Z) (f g : Race) : bool := default false (subsumes (zget (put_clock i e c cs)) f g).

Lemma wp_frontier c pairs : (forall r, r ∈ pairs -> r ∈ races e /\ r_kind r <> RACE_NONDET) ->
  exists kept dropped, frontier_filter (subsumes (zget (put_clock i e c cs))) pairs = Some kept /\ kept ++ dropped ≡ₚ pairs /\
    antichain (subsumesb c) kept /\ covered race_before kept dropped.
Proof.
  intros Hin.
  assert (Hsub : forall f g, f ∈ pairs -> g ∈ pairs -> exists b, subsumes (zget (put_clock i e c cs)) f g = Some b /\ subsumesb c f g = b /\
    (b = true -> race_before f g)).
  { intros f g Hf Hg. destruct (Hin f Hf) as [Hfe Hkf], (Hin g Hg) as [Hge Hkg].
    destruct (subsumes_spec c f g) as (b & Hb & Hb1 & _); [done..|]. exists b. split_and!; [done|unfold subsumesb; by rewrite Hb|].
    intros ->. destruct (Hb1 eq_refl) as [Hl Hh]. split; [done|].
    destruct (decide (r_kind f = LOCK_SUC)) as [Hs|Hs]; [|unfold race_source at 1; by rewrite decide_False].
    assert (g = f) as ->; [|apply rtc_refl]. apply (ro_alone Hraces f g Hfe Hs Hge). done. }
  destruct (frontier_filter_keeps (subsumes (zget (put_clock i e c cs))) (subsumesb c) pairs) as (kept & dropped & Hr & Hp & Ha & Hc).
  { intros f g Hf Hg. destruct (Hsub f g Hf Hg) as (b & -> & -> & _). done. }
  exists kept, dropped. split_and!; [done..|]. apply Hc; [exact race_before_trans|].
  intros f g Hf Hg. destruct (Hsub f g Hf Hg) as (b & _ & <- & Hb). done.
Qed.

Lemma wp_join_race c r (Q : unit -> TSOTraceBuilder -> Prop) : r ∈ races e -> r_kind r <> RACE_NONDET ->
  good (fun j => edge raw j i) c ->
  (forall c', clk_le c c' -> good (fun j => edge raw j i) c' -> (orders r -> above cs c' (race_source r)) -> Q tt (at_clock c')) ->
  wp (join_race i r) Q (at_clock c).
Proof.
  intros Hr Hk Hg HQ. unfold join_race. case_decide as Hl.
  - pose proof (ro_first Hraces r Hr Hk) as Hf. pose proof (pair_source r Hr Hk) as Hs. rewrite lock_source in Hs by done.
    destruct (earlier _ Hf) as (ef & ef' & Hef & Hef' & _ & Hsf). destruct (earlier _ Hs) as (eu & eu' & Heu & Heu' & _ & Hsu).
    apply wp_bind. eapply wp_pfx_other; [lia|exact Hef'|]. apply wp_bind. eapply wp_pfx_other; [lia|exact Heu'|].
    destruct (vc_leq_spec (clock ef') (clock eu')) as (b & Hb & Hspec); [by eapply sound_via_wf|by eapply sound_via_wf|].
    apply wp_bind. eapply wp_lift; [exact Hb|]. wp_assert.
    { apply Hspec. apply (clocked_leq raw cs i (r_third r) (r_first r) eu' ef'); [exact Hdone|done..|]. by apply (ro_lock Hraces). }
    pose proof (race_source_edge r Hr (lock_orders r Hl)) as Hedge. rewrite lock_source in Hedge by done.
    apply (wp_join_clock (fun j => edge raw j i)); [done..|]. intros c' Hle Hg' Hab. apply HQ; [done..|].
    intros _. by rewrite lock_source.
  - case_decide as Hf; [apply wp_ret, HQ; [done..|]; by intros [_ ?]|].
    assert (Ho : orders r) by done. pose proof (race_source_edge r Hr Ho) as Hedge. unfold race_source in Hedge.
    rewrite decide_False in Hedge by done. apply (wp_join_clock (fun j => edge raw j i)); [done..|]. intros c' Hle Hg' Hab.
    apply HQ; [done..|]. intros _. unfold race_source. by rewrite decide_False.
Qed.

(** *** The whole step *)

(** What is left of the races [rs] of event [i]. *)
Record reduced (rs kept : list Race) : Prop := {
  rd_sub : exists dropped, kept ++ dropped ≡ₚ rs;
  rd_nondet : forall r, r ∈ rs -> r_kind r = RACE_NONDET -> r ∈ kept;
  rd_fixed : forall r j, r ∈ kept -> r_kind r <> RACE_NONDET -> fixed j -> ~ happens_before raw (r_first r) j;
  rd_antichain : forall k l f g, k <> l -> kept !! k = Some f -> kept !! l = Some g -> r_kind f <> RACE_NONDET -> orders g ->
    ~ happens_before raw (r_first f) (race_source g);
  rd_dropped : forall r, r ∈ rs -> orders r -> r_kind r <> LOCK_SUC -> r ∉ kept ->
    (exists j, fixed j /\ happens_before raw (r_first r) j) \/
    (exists g, g ∈ kept /\ orders g /\ happens_before raw (r_first r) (race_source g));
}.

Context (Hcond : existsb has_cond (sym e) = false) (Hlater : happens_after_later e = []).

Lemma wp_later_edges c (Q : unit -> TSOTraceBuilder -> Prop) : Q tt (at_clock c) -> wp (later_edges i) Q (at_clock c).
Proof.
  intros HQ. unfold later_edges. apply wp_bind, wp_pfx_here. cbn [set_clock happens_after_later sym]. rewrite Hlater.
  wp_assert; [done|]. cbn [each loop]. apply wp_bind, wp_ret. eapply wp_pfx_set; [apply zget_put_eq, cs_index|].
  replace (set_happens_after_later [] (set_clock c e)) with (set_clock c e) by (by destruct e; cbn in Hlater |- *; rewrite Hlater).
  unfold put_clock. by rewrite list_insert_insert_eq.
Qed.

Lemma ordered_first c r : r ∈ races e -> orders r -> r_kind r <> LOCK_SUC -> good fixed_or_unlock c -> above cs c (r_first r) ->
  exists j, fixed j /\ happens_before raw (r_first r) j.
Proof.
  intros Hr Ho Hl [Hs _] (f' & Hf' & Hle). pose proof (ro_first Hraces r Hr (proj1 Ho)) as Hf.
  destruct (earlier _ Hf) as (ef & ef' & Hef & Hef' & _ & _). assert (f' = ef') as -> by congruence.
  destruct (sound_via_hb raw fixed_or_unlock i c (r_first r) ef) as [Heq|(j & Hj & Hh)]; [done|by left|done|done|by exists e| |lia|].
  - pose proof (cl_own _ _ _ (Hdone _ Hf) _ _ Hef Hef') as Hown. specialize (Hle (Z.to_nat (event_pid ef))). unfold component in *. lia.
  - destruct Hj as [Hj|(r' & Hr' & Hk' & _)]; [by exists j|]. exfalso. apply Hl.
    by rewrite (ro_alone Hraces r' r Hr' Hk' Hr Ho).
Qed.

Lemma kept_antichain c kept : (forall r, r ∈ kept -> r ∈ races e /\ r_kind r <> RACE_NONDET) -> antichain (subsumesb c) kept ->
  forall k l f g, k <> l -> kept !! k = Some f -> kept !! l = Some g -> orders g -> ~ happens_before raw (r_first f) (race_source g).
Proof.
  intros Hin Ha k l f g Hkl Hf Hg [Hog Hlg] Hh.
  destruct (Hin f) as [Hfe Hfk]; [by eapply list_elem_of_lookup_2|]. destruct (Hin g) as [Hge Hgk]; [by eapply list_elem_of_lookup_2|].
  destruct (subsumes_spec c f g) as (b & Hb & _ & Hno); [done..|]. pose proof (Ha k l f g Hkl Hf Hg) as Hs.
  unfold subsumesb in Hs. rewrite Hb in Hs. cbn in Hs. destruct (Hno Hs) as [|[|[Hp Hlt]]]; [done..|].
  destruct (subsumes_spec c g f) as (b' & Hb' & _ & Hno'); [done..|]. pose proof (Ha l k g f (not_eq_sym Hkl) Hg Hf) as Hs'.
  unfold subsumesb in Hs'. rewrite Hb' in Hs'. cbn in Hs'. destruct Hp as (Hof & Hog' & Hfirst & _).
  destruct (Hno' Hs') as [|[Hnh|[_ Hlt']]]; [congruence| |lia].
  apply Hnh. unfold race_source. rewrite decide_False by congruence. rewrite Hfirst. apply rtc_refl.
Qed.

Lemma wp_event_vclock (Q : unit -> TSOTraceBuilder -> Prop) : finds_last ->
  (forall c kept, good (fun j => edge raw j i) c -> (forall j, edge raw j i -> above cs c j) -> reduced (races e) kept ->
     Q tt (with_events s (<[Z.to_nat i := set_races kept (set_clock c e)]> cs))) ->
  wp (event_vclock IsBigEndianHost conf partition i) Q (with_events s cs).
Proof.
  intros Hfind HQ. unfold event_vclock. apply wp_bind, wp_program_order_clock; [done|]. intros c1 Hg1 Hfix.
  apply wp_bind. unfold await_races. apply wp_bind, wp_pfx_here. cbn [set_clock sym]. rewrite Hcond. apply wp_ret.
  apply wp_bind, wp_pfx_here. cbn [set_clock races].
  destruct (Hpart _ (fun x => bool_decide (r_kind x = RACE_NONDET)) (races e)) as (Hperm & Hnd & Hpairs).
  destruct (partition _ _ (races e)) as [nondet pairs]. cbn [fst snd] in *.
  assert (Hin : forall r, r ∈ pairs -> r ∈ races e /\ r_kind r <> RACE_NONDET).
  { intros r Hr. split; [by eapply elem_of_perm_r|]. apply Hpairs in Hr. by apply bool_decide_eq_false in Hr. }
  apply wp_bind. apply wp_drop_ordered; [lia|done| |].
  { destruct Hg1 as [Hs Ho]. split; [|done]. eapply sound_via_mono; [|exact Hs]. by left. }
  intros rest dropped c2 Hp2 Hle12 Hg2 Hdr Hrest.
  assert (Hin2 : forall r, r ∈ rest -> r ∈ races e /\ r_kind r <> RACE_NONDET).
  { intros r Hr. eapply Hin, elem_of_perm_l; [exact Hp2|done]. }
  wp_gets. cbn [at_clock with_events prefix set_prefix events].
  destruct (wp_frontier c2 rest Hin2) as (kept & subsumed & Hkept & Hp3 & Hanti & Hcov).
  assert (Hin3 : forall r, r ∈ kept -> r ∈ races e /\ r_kind r <> RACE_NONDET).
  { intros r Hr. eapply Hin2, elem_of_perm_l; [exact Hp3|done]. }
  apply wp_bind. eapply wp_lift; [exact Hkept|]. apply wp_bind.
  apply (wp_join_each (fun j => edge raw j i) kept _ (fun r => if decide (orders r) then Some (race_source r) else None) c2).
  { destruct Hg2 as [Hs Ho]. split; [|done]. eapply sound_via_mono; [|exact Hs]. intros j [Hj|(r & Hr & Hk & ->)]; [by left|].
    rewrite <-(lock_source r) by done. by apply race_source_edge, lock_orders. }
  { intros r c R Hr Hg _ HR. destruct (Hin3 r Hr). apply wp_join_race; [done..|]. intros c' Hle Hg' Hab. apply HR; [done..|].
    intros j. case_decide; [|done]. intros [= <-]. by apply Hab. }
  intros c3 Hle23 Hg3 Hsrc. apply wp_bind, wp_later_edges.
  eapply wp_pfx_set; [apply zget_put_eq, cs_index|]. unfold put_clock. rewrite list_insert_insert_eq.
  assert (Hkab : forall r, r ∈ kept -> orders r -> above cs c3 (race_source r)).
  { intros r Hr Ho. apply (Hsrc r); [done|]. by rewrite decide_True. }
  assert (Hsubs : forall r, r ∈ subsumed -> exists g, g ∈ kept /\ orders g /\ happens_before raw (race_source r) (race_source g)).
  { intros r Hr. destruct (Hcov r Hr) as (g & Hg & Hk & Hh). exists g. split_and!; [done| |done]. split; [apply Hin3, Hg|done]. }
  apply HQ; [done| |].
  - intros j [Hj|(ei & r & Hei & Hr & Ho & ->)]; [eapply above_mono; [|by apply Hfix]; by transitivity c2|].
    assert (ei = e) as -> by congruence. rewrite <-Hperm, <-Hp2, <-Hp3, !elem_of_app in Hr.
    destruct Hr as [Hr|[[Hr|Hr]|Hr]].
    + apply Hnd, bool_decide_eq_true in Hr. by destruct Ho.
    + by apply Hkab.
    + destruct (Hsubs r Hr) as (g & Hg & Hog & Hh). eapply above_hb; [|exact Hh|by apply Hkab]. apply pair_source; [by apply Hin3|apply Hog].
    + eapply above_mono; [exact Hle23|]. by apply Hdr.
  - split.
    + exists (subsumed ++ dropped). rewrite <-Hperm, <-Hp2, <-Hp3. by rewrite <-!app_assoc.
    + intros r Hr Hk. rewrite <-Hperm, elem_of_app in Hr. destruct Hr as [Hr|Hr]; [set_solver|]. by apply Hin in Hr as [_ ?].
    + intros r j [Hr|Hr]%elem_of_app Hk Hj Hh; [by apply Hnd, bool_decide_eq_true in Hr|].
      apply (Hrest r); [eapply elem_of_perm_l; [exact Hp3|done]|].
      eapply above_hb; [|exact Hh|eapply above_mono; [exact Hle12|by apply Hfix]]. apply edge_before. by left.
    + intros k l f g Hkl Hf Hg Hkf Hog. rewrite lookup_app_Some in Hf, Hg.
      destruct Hf as [Hf|[Hk1 Hf]]; [by apply list_elem_of_lookup_2, Hnd, bool_decide_eq_true in Hf|].
      destruct Hg as [Hg|[Hk2 Hg]]; [by apply list_elem_of_lookup_2, Hnd, bool_decide_eq_true in Hg; destruct Hog|].
      eapply (kept_antichain c2 kept Hin3 Hanti _ _ f g); [|exact Hf|exact Hg|done]. lia.
    + intros r Hr Ho Hl Hno. rewrite <-Hperm, <-Hp2, <-Hp3, !elem_of_app in Hr. rewrite elem_of_app in Hno.
      destruct Hr as [Hr|[[Hr|Hr]|Hr]]; [tauto..| |].
      * right. destruct (Hsubs r Hr) as (g & Hg & Hog & Hh). unfold race_source at 1 in Hh. rewrite decide_False in Hh by done.
        exists g. split_and!; [set_solver|done..].
      * left. apply (ordered_first c2); [|done|done|done|by apply Hdr]. eapply Hin, elem_of_perm_r; [exact Hp2|done].
Qed.
End event.
