(* ===== verification/TSOTraceOk.v ===== *)
(** * TSOTraceOk: vector clocks of whole traces

    Well-formed traces, the relation [compute_vclocks] works with, and the run
    of its stages over all events. *)

From S2P Require Import Prelude StdMap VecSet VClock CPid SymAddr ByteOps SymEv ReplayMem WakeupTree TSOState TSOOps.
From S2P Require Import TSOInv TSOClocks TSOHb TSOVclocks.

Local Open Scope Z_scope.

(** ** Well-formed traces *)

Definition trace (s : TSOTraceBuilder) : list Event := events (prefix s).
Definition branch_at (s : TSOTraceBuilder) (i : Z) : option Branch := buf_branch (prefix s) (Z.to_nat i).

(** The index lists of the threads and the events agree: event [i] of thread
    [p] stands for the steps from its number on, as many as its branch has. *)
Record numbered (s : TSOTraceBuilder) : Prop := {
  nb_event : forall i e, zget (trace s) i = Some e -> exists t br, zget (threads s) (event_pid e) = Some t /\
    branch_at s i = Some br /\ 0 < b_size br /\
    forall k, event_number e <= k < event_number e + b_size br -> zget (event_indices t) (k - 1) = Some i;
  nb_index : forall p t k i, zget (threads s) p = Some t -> zget (event_indices t) k = Some i ->
    exists e br, zget (trace s) i = Some e /\ event_pid e = p /\ branch_at s i = Some br /\
      event_number e <= k + 1 < event_number e + b_size br;
  nb_sorted : forall p t k l i j, zget (threads s) p = Some t -> zget (event_indices t) k = Some i ->
    zget (event_indices t) l = Some j -> k <= l -> i <= j;
}.

Lemma numbered_number s i e : numbered s -> zget (trace s) i = Some e -> 0 <= event_pid e /\ 1 <= event_number e.
Proof.
  intros Hn He. destruct (nb_event s Hn i e He) as (t & br & Ht & _ & Hsz & Hk). split; [apply zget_Some in Ht; lia|].
  specialize (Hk (event_number e) ltac:(lia)). apply zget_Some in Hk. lia.
Qed.

Lemma numbered_order s i j ei ej : numbered s -> zget (trace s) i = Some ei -> zget (trace s) j = Some ej ->
  event_pid ei = event_pid ej -> j < i -> event_number ej < event_number ei.
Proof.
  intros Hn Hi Hj Hp Hji. destruct (Z.lt_ge_cases (event_number ej) (event_number ei)) as [|Hle]; [done|]. exfalso.
  destruct (nb_event s Hn i ei Hi) as (t & br & Ht & _ & Hs & Hk). destruct (nb_event s Hn j ej Hj) as (t' & br' & Ht' & _ & Hs' & Hk').
  rewrite Hp, Ht' in Ht. injection Ht as ->.
  assert (i <= j); [|lia]. eapply (nb_sorted s Hn _ t (event_number ei - 1) (event_number ej - 1)); [exact Ht'|apply Hk; lia|apply Hk'; lia|lia].
Qed.

(** The thread that starts with event [i] was spawned by event [j]. *)
Definition spawn_edge (s : TSOTraceBuilder) (j i : Z) : Prop := exists p t, zget (threads s) p = Some t /\
  head (event_indices t) = Some i /\ spawn_event t = j /\ 0 <= j.
Definition trace_fixed (s : TSOTraceBuilder) (j i : Z) : Prop := fixed_edge (trace s) j i \/ spawn_edge s j i.
Definition trace_edge (s : TSOTraceBuilder) (j i : Z) : Prop := trace_fixed s j i \/ race_edge (trace s) j i.
(** The happens-before order of a finished execution. *)
Definition trace_order (s : TSOTraceBuilder) : relation Z := rtc (trace_edge s).

(** The races of event [i], with the failed locks that preceded it. *)
Definition recorded (s : TSOTraceBuilder) (i : Z) (e : Event) : list Race :=
  races e ++ filter (fun r => r_second r = i) (lock_fail_races s).

Record trace_ok (s : TSOTraceBuilder) : Prop := {
  to_flag : has_vclocks s = false;
  to_idx : prefix_idx s + 1 = Z.of_nat (length (trace s)) /\ Z.of_nat (length (trace s)) <= 2 ^ 31;
  to_numbered : numbered s;
  to_edge : forall i j e, zget (trace s) i = Some e -> j ∈ happens_after e -> 0 <= j < i;
  to_spawn : forall j i, spawn_edge s j i -> j < i;
  to_fail : forall r, r ∈ lock_fail_races s -> r_kind r = LOCK_FAIL /\ 0 <= r_first r < r_second r /\ r_second r <= Z.of_nat (length (trace s));
  to_races : forall i e r, zget (trace s) i = Some e -> r ∈ races e -> r_kind r <> SEQUENCE /\
    (r_kind r <> RACE_NONDET -> 0 <= r_first r < i) /\
    (r_kind r = LOCK_SUC -> 0 <= r_third r < i /\ trace_order s (r_first r) (r_third r) /\
       forall r', r' ∈ races e -> orders r' -> r' = r);
  to_await : forall i e, zget (trace s) i = Some e -> existsb has_cond (sym e) = false /\ happens_after_later e = [];
}.

Lemma trace_edge_before s j i : trace_ok s -> trace_edge s j i -> 0 <= j < i.
Proof.
  intros Hok [[(ej & ei & Hj & Hi & [[Hji _]|Hin])|Hsp]|(ei & r & Hi & Hr & Ho & ->)].
  - apply zget_Some in Hj. lia.
  - by eapply (to_edge s Hok).
  - pose proof (to_spawn s Hok _ _ Hsp). by destruct Hsp as (p & t & _ & _ & _ & ?).
  - destruct (to_races s Hok _ _ _ Hi Hr) as (_ & Hf & Hl). unfold race_source. case_decide; [by apply Hl|by apply Hf, Ho].
Qed.

(** ** The events once all edges and races are in place *)

Record completed (s : TSOTraceBuilder) (raw : list Event) : Prop := {
  cm_len : length raw = length (trace s);
  cm_event : forall i e, zget (trace s) i = Some e -> exists e', zget raw i = Some e' /\ iid e' = iid e /\ sym e' = sym e /\
    happens_after_later e' = happens_after_later e /\ races e' = recorded s i e /\
    forall j, j ∈ happens_after e' <-> j ∈ happens_after e \/ spawn_edge s j i;
}.

Section completed.
Context (s : TSOTraceBuilder) (raw : list Event) (Hok : trace_ok s) (Hc : completed s raw).

Lemma completed_back i e' : zget raw i = Some e' -> exists e, zget (trace s) i = Some e /\ iid e' = iid e /\ sym e' = sym e /\
    happens_after_later e' = happens_after_later e /\ races e' = recorded s i e /\
    forall j, j ∈ happens_after e' <-> j ∈ happens_after e \/ spawn_edge s j i.
Proof.
  intros He'. destruct (zget_lt (trace s) i) as [e He].
  { rewrite <-(cm_len _ _ Hc). by eapply zget_Some. }
  destruct (cm_event _ _ Hc i e He) as (e1 & He1 & ?). assert (e1 = e') as -> by congruence. by exists e.
Qed.

Lemma recorded_orders i e r : r ∈ recorded s i e -> orders r -> r ∈ races e.
Proof.
  intros [Hr|Hr]%elem_of_app [_ Ho]; [done|]. apply list_elem_of_filter in Hr as [_ Hr]. by destruct (to_fail s Hok r Hr) as [? _].
Qed.

Lemma spawn_target j i : spawn_edge s j i -> exists e, zget (trace s) i = Some e.
Proof.
  intros (p & t & Ht & Hh & _). destruct (event_indices t) as [|x l] eqn:El; [done|]. injection Hh as ->.
  destruct (nb_index s (to_numbered s Hok) p t 0 i Ht) as (e & br & He & _); [by rewrite El|by exists e].
Qed.

Lemma trace_get j : 0 <= j < Z.of_nat (length (trace s)) -> exists e, zget raw j = Some e.
Proof. intros Hj. apply zget_lt. by rewrite (cm_len _ _ Hc). Qed.

Lemma completed_fixed j i : fixed_edge raw j i <-> trace_fixed s j i.
Proof.
  split.
  - intros (ej & ei & Hj & Hi & Hor). destruct (completed_back _ _ Hj) as (ej0 & Hj0 & Hidj & _).
    destruct (completed_back _ _ Hi) as (ei0 & Hi0 & Hidi & _ & _ & _ & Hha). destruct Hor as [[Hji Hp]|Hin].
    + left. exists ej0, ei0. split_and!; [done..|]. left. split; [done|]. unfold event_pid in *. congruence.
    + apply Hha in Hin as [Hin|Hin]; [left; exists ej0, ei0; split_and!; [done..|by right]|by right].
  - intros [(ej & ei & Hj & Hi & Hor)|Hsp].
    + destruct (cm_event _ _ Hc _ _ Hj) as (ej' & Hj' & Hidj & _). destruct (cm_event _ _ Hc _ _ Hi) as (ei' & Hi' & Hidi & _ & _ & _ & Hha).
      exists ej', ei'. split_and!; [done..|]. destruct Hor as [[Hji Hp]|Hin]; [left; split; [done|unfold event_pid in *; congruence]|].
      right. apply Hha. by left.
    + destruct (spawn_target j i Hsp) as (ei & Hi). destruct (cm_event _ _ Hc _ _ Hi) as (ei' & Hi' & _ & _ & _ & _ & Hha).
      pose proof (to_spawn s Hok j i Hsp). pose proof (zget_Some _ _ _ Hi). destruct Hsp as (p & t & Ht & Hh & Hspn & Hj0).
      destruct (trace_get j) as (ej & Hj); [lia|]. exists ej, ei'. split_and!; [done..|]. right. apply Hha. right. by exists p, t.
Qed.

Lemma completed_race j i : race_edge raw j i <-> race_edge (trace s) j i.
Proof.
  split.
  - intros (ei & r & Hi & Hr & Ho & ->). destruct (completed_back _ _ Hi) as (ei0 & Hi0 & _ & _ & _ & Hrs & _). exists ei0, r.
    split_and!; [done| |done..]. rewrite Hrs in Hr. by eapply recorded_orders.
  - intros (ei & r & Hi & Hr & Ho & ->). destruct (cm_event _ _ Hc _ _ Hi) as (ei' & Hi' & _ & _ & _ & Hrs & _). exists ei', r.
    split_and!; [done| |done..]. rewrite Hrs. unfold recorded. set_solver.
Qed.

Lemma completed_edge j i : edge raw j i <-> trace_edge s j i.
Proof. unfold edge, trace_edge. by rewrite completed_fixed, completed_race. Qed.
Lemma completed_order j i : happens_before raw j i <-> trace_order s j i.
Proof.
  split; intros H; induction H as [x|x y z Hxy _ IH]; try apply rtc_refl; (eapply rtc_l; [|exact IH]); by apply completed_edge.
Qed.

Lemma completed_dag : dag raw.
Proof.
  split.
  - intros i e He. destruct (completed_back _ _ He) as (e0 & He0 & Hid & _). unfold event_pid, event_number. rewrite Hid.
    by apply (numbered_number s i e0 (to_numbered s Hok)).
  - intros i j ei ej Hi Hj Hp Hji. destruct (completed_back _ _ Hi) as (ei0 & Hi0 & Hidi & _). destruct (completed_back _ _ Hj) as (ej0 & Hj0 & Hidj & _).
    unfold event_pid, event_number in *. rewrite Hidi, Hidj in *. by apply (numbered_order s i j ei0 ej0 (to_numbered s Hok)).
  - intros j i Hji%completed_edge. by apply (trace_edge_before s).
Qed.

Lemma completed_find s1 i e (cs : list Event) : threads s1 = threads s -> wtree (prefix s1) = wtree (prefix s) ->
  zget raw i = Some e -> length cs = length raw ->
  (forall j ej ej', zget raw j = Some ej -> zget cs j = Some ej' -> iid ej' = iid ej) -> finds_last s1 raw cs i e.
Proof.
  intros Hths Htree He Hlen Hid H1. pose proof (to_numbered s Hok) as Hn. destruct (completed_back _ _ He) as (e0 & He0 & Hide & _).
  assert (Hpid : event_pid e = event_pid e0) by (unfold event_pid; by rewrite Hide).
  assert (Hnum : event_number e = event_number e0) by (unfold event_number; by rewrite Hide).
  destruct (nb_event s Hn i e0 He0) as (t & br & Ht & Hbr & Hsz & Hk). rewrite <-Hpid in Ht. rewrite <-Hnum in Hk.
  pose proof (Hk (event_number e) ltac:(lia)) as Hown. pose proof (zget_Some _ _ _ Hown) as Hrange.
  destruct (zget_lt (event_indices t) (event_number e - 1 - 1)) as [l Hl]; [lia|].
  destruct (nb_index s Hn _ _ _ _ Ht Hl) as (el0 & brl & Hel0 & Hpl & Hbrl & Hnl).
  assert (Hle : l <= i) by (by eapply (nb_sorted s Hn _ t _ _ l i Ht Hl Hown); lia).
  assert (Hne : l <> i) by (intros ->; assert (el0 = e0) as -> by congruence; lia).
  destruct (cm_event _ _ Hc _ _ Hel0) as (el & Hel & Hidl & _). exists l, el. split_and!; [|done|lia| |].
  - assert (Hwp : wp (find_process_event (event_pid e) (event_number e - 1)) (fun x s' => x = l /\ s' = with_events s1 cs) (with_events s1 cs)).
    { rewrite <-Hths in Ht. unfold find_process_event, event_index. apply wp_bind. eapply wp_thread; [exact Ht|]. wp_assert; [apply bool_decide_eq_true; lia|].
      apply wp_bind. eapply wp_thread; [exact Ht|]. apply wp_bind. eapply wp_lift; [exact Hl|].
      pose proof (zget_Some _ _ _ Hel) as Hlr.
      unfold pfx_len. wp_gets. cbn [with_events prefix set_prefix]. unfold buf_len. cbn [events].
      wp_assert; [apply bool_decide_eq_true; rewrite Hlen; lia|]. wp_gets. cbn [with_events prefix set_prefix].
      apply wp_bind. eapply wp_lift.
      { unfold branch_at in Hbrl. unfold buf_branch, parent_at, buf_len in Hbrl |- *. cbn [events wtree].
        rewrite Hlen, (cm_len _ _ Hc), Htree. exact Hbrl. }
      wp_assert; [apply bool_decide_eq_true; lia|].
      destruct (zget_lt cs l) as [el' Hel']; [rewrite Hlen; lia|]. apply wp_bind. eapply wp_pfx_at; [exact Hel'|].
      pose proof (Hid _ _ _ Hel Hel') as Hidl'. wp_assert; [|by apply wp_ret]. apply bool_decide_eq_true.
      rewrite Hidl', Hidl. unfold event_pid, event_number in *. split_and!; [congruence|lia|lia]. }
    apply wp_total in Hwp as (x & s' & Hrun & -> & ->). done.
  - unfold event_pid in *. congruence.
  - intros j ej Hj Hpj Hji. destruct (completed_back _ _ Hj) as (ej0 & Hj0 & Hidj & _).
    destruct (nb_event s Hn j ej0 Hj0) as (tj & brj & Htj & _ & Hsj & Hkj).
    assert (Hpj0 : event_pid ej0 = event_pid e) by (unfold event_pid in *; congruence). rewrite Hpj0, Ht in Htj. injection Htj as <-.
    pose proof (numbered_order s i j e0 ej0 Hn He0 Hj0 ltac:(congruence) Hji).
    eapply (nb_sorted s Hn _ t (event_number ej0 - 1) (event_number e - 1 - 1)); [exact Ht|apply Hkj; lia|exact Hl|lia].
Qed.

Lemma completed_races i e : zget raw i = Some e -> races_ok raw i e.
Proof.
  intros He. destruct (completed_back _ _ He) as (e0 & He0 & _ & _ & _ & Hrs & _).
  assert (Hin : forall r, r ∈ races e -> r ∈ races e0 \/ (r_kind r = LOCK_FAIL /\ 0 <= r_first r < i)).
  { intros r. rewrite Hrs. intros [Hr|Hr]%elem_of_app; [by left|right]. apply list_elem_of_filter in Hr as [<- Hr].
    by destruct (to_fail s Hok r Hr) as (? & ? & _). }
  split.
  - intros r Hr Hk. destruct (Hin r Hr) as [Hr0|[? _]]; [|congruence]. by destruct (to_races s Hok _ _ r He0 Hr0).
  - intros r Hr Hk. destruct (Hin r Hr) as [Hr0|[_ ?]]; [|done]. destruct (to_races s Hok _ _ r He0 Hr0) as (_ & Hf & _). by apply Hf.
  - intros r Hr Hk. destruct (Hin r Hr) as [Hr0|[? _]]; [|congruence]. destruct (to_races s Hok _ _ r He0 Hr0) as (_ & _ & Hl).
    apply completed_order. by apply Hl.
  - intros r r' Hr Hk Hr' Ho. destruct (Hin r Hr) as [Hr0|[? _]]; [|congruence]. destruct (Hin r' Hr') as [Hr0'|[Hk' _]]; [|by destruct Ho].
    destruct (to_races s Hok _ _ r He0 Hr0) as (_ & _ & Hl). by apply (proj2 (proj2 (Hl Hk))).
Qed.
End completed.

(** ** The stages before the loop *)

Record extended (s : TSOTraceBuilder) (S : Z -> Z -> Prop) (cs : list Event) : Prop := {
  ex_len : length cs = length (trace s);
  ex_event : forall i e, zget (trace s) i = Some e -> exists h, zget cs i = Some (set_happens_after h e) /\
    forall j, j ∈ h <-> j ∈ happens_after e \/ S j i;
}.

Lemma set_happens_after_again h h' e : set_happens_after h (set_happens_after h' e) = set_happens_after h e.
Proof. done. Qed.

Lemma wp_add_spawn s cs S j i (Q : unit -> TSOTraceBuilder -> Prop) : extended s S cs -> 0 <= j < i -> i <= prefix_idx s ->
  prefix_idx s + 1 = Z.of_nat (length (trace s)) -> prefix_idx s < 2 ^ 31 ->
  (forall cs', extended s (fun x y => S x y \/ (x = j /\ y = i)) cs' -> Q tt (with_events s cs')) ->
  wp (add_happens_after i j) Q (with_events s cs).
Proof.
  intros Hex Hji Hi Htop H31 HQ. unfold add_happens_after, UINT32_MAX. rewrite !wrapu_id by lia. wp_gets. cbn [with_events set_prefix prefix_idx].
  do 5 (wp_assert; [apply bool_decide_eq_true; lia|]).
  destruct (zget_lt (trace s) i) as [e He]; [lia|]. destruct (ex_event _ _ _ Hex i e He) as (h & Hh & Hin).
  apply wp_bind. eapply wp_pfx_at; [exact Hh|]. cbn [set_happens_after happens_after].
  assert (Hsame : vback h = Some j -> Q tt (with_events s cs)).
  { intros Hb. apply HQ. split; [apply Hex|]. intros i1 e1 He1. destruct (ex_event _ _ _ Hex i1 e1 He1) as (h1 & Hh1 & Hin1).
    exists h1. split; [done|]. intros x. rewrite Hin1. split; [tauto|]. intros [?|[?|[-> ->]]]; [tauto..|].
    assert (e1 = e) as -> by congruence. assert (Heq : set_happens_after h1 e = set_happens_after h e) by congruence.
    injection Heq as ->. apply Hin. apply vback_snoc_inv in Hb as (w & ->). set_solver. }
  apply wp_when.
  - intros _. eapply wp_pfx_set; [exact Hh|]. cbn [set_happens_after happens_after]. rewrite set_happens_after_again.
    apply HQ. pose proof (zget_Some _ _ _ Hh) as Hr. split; [rewrite length_insert; apply Hex|].
    intros i1 e1 He1. destruct (ex_event _ _ _ Hex i1 e1 He1) as (h1 & Hh1 & Hin1). rewrite zget_insert by done. case_decide as Heq.
    + subst i1. assert (e1 = e) as -> by congruence. exists (h ++ [j]). split; [done|]. intros x. rewrite elem_of_app, Hin, list_elem_of_singleton. tauto.
    + exists h1. split; [done|]. intros x. rewrite Hin1. split; [tauto|]. intros [?|[?|[-> ->]]]; [tauto..|done].
  - intros Hd. apply Hsame. destruct (vback h) as [x|]; [|done]. simpl in Hd. destruct (bool_decide_reflect (x = j)); [by subst|done].
Qed.

(** The spawn edges of the threads in [ts]. *)
Definition spawned_by (ts : list Thread) (j i : Z) : Prop :=
  exists t, t ∈ ts /\ head (event_indices t) = Some i /\ spawn_event t = j /\ 0 <= j.

Lemma spawned_by_app l k j i : spawned_by (l ++ k) j i <-> spawned_by l j i \/ spawned_by k j i.
Proof.
  unfold spawned_by. split.
  - intros (t & [Ht|Ht]%elem_of_app & ?); [left|right]; by exists t.
  - intros [(t & Ht & ?)|(t & Ht & ?)]; exists t; rewrite elem_of_app; tauto.
Qed.

Lemma spawned_by_all s j i : spawned_by (threads s) j i <-> spawn_edge s j i.
Proof.
  split.
  - intros (t & [k Hk]%list_elem_of_lookup & Hh & Hs & H0'). exists (Z.of_nat k), t. by rewrite zget_nat.
  - intros (p & t & Ht & Hh & Hs & H0'). exists t. split; [by eapply zget_elem|done].
Qed.

Lemma extended_iff s S S' cs : (forall j i, S j i <-> S' j i) -> extended s S cs -> extended s S' cs.
Proof.
  intros HS Hex. split; [apply Hex|]. intros i e He. destruct (ex_event _ _ _ Hex i e He) as (h & Hh & Hin).
  exists h. split; [done|]. intros j. by rewrite Hin, HS.
Qed.

Lemma extended_start s : extended s (fun _ _ => False) (trace s).
Proof. split; [done|]. intros i e He. exists (happens_after e). split; [by destruct e|]. tauto. Qed.

Lemma with_events_id s : with_events s (trace s) = s.
Proof. destruct s as [? ? ? ? ? ? ? ? [t evs] ? ? ? ? ? ? ? ? ?]. done. Qed.

Lemma wp_spawn_edges s (Q : unit -> TSOTraceBuilder -> Prop) : trace_ok s ->
  (forall cs, extended s (spawn_edge s) cs -> Q tt (with_events s cs)) -> wp spawn_edges Q s.
Proof.
  intros Hok HQ. unfold spawn_edges. wp_gets.
  eapply wp_mono; [apply (wp_each (fun rest s' => exists cs done, s' = with_events s cs /\ threads s = done ++ rest /\ extended s (spawned_by done) cs))|].
  - exists (trace s), []. split_and!; [by rewrite with_events_id|done|]. eapply extended_iff; [|apply extended_start].
    intros j i. split; [done|]. by intros (t & ?%elem_of_nil & _).
  - intros t rest s' (cs & done & -> & Hts & Hex).
    assert (Hnone : forall cs', extended s (fun j i => spawned_by done j i \/ spawned_by [t] j i) cs' ->
      exists cs1 done1, with_events s cs' = with_events s cs1 /\ threads s = done1 ++ rest /\ extended s (spawned_by done1) cs1).
    { intros cs' Hex'. exists cs', (done ++ [t]). split_and!; [done|by rewrite <-app_assoc|]. eapply extended_iff; [|exact Hex'].
      intros j i. by rewrite spawned_by_app. }
    destruct (event_indices t) as [|first l] eqn:El.
    { apply wp_ret, Hnone. eapply extended_iff; [|exact Hex]. intros j i. split; [tauto|]. intros [?|(t' & ->%list_elem_of_singleton & Hh & _)]; [done|].
      by rewrite El in Hh. }
    apply wp_when.
    + intros H0'%bool_decide_eq_true.
      assert (Hsp : spawn_edge s (spawn_event t) first).
      { apply spawned_by_all. exists t. split_and!; [rewrite Hts; set_solver|by rewrite El|done..]. }
      pose proof (to_spawn s Hok _ _ Hsp). destruct (spawn_target s Hok _ _ Hsp) as (e & He). apply zget_Some in He.
      destruct (to_idx s Hok) as [Htop H31].
      apply (wp_add_spawn s cs (spawned_by done)); [done|lia|lia|done|lia|]. intros cs' Hex'. apply Hnone. eapply extended_iff; [|exact Hex'].
      intros j i. split; (intros [?|Hr]; [by left|right]).
      * destruct Hr as [-> ->]. exists t. rewrite El. split_and!; [set_solver|done..].
      * destruct Hr as (t' & ->%list_elem_of_singleton & Hh & <- & _). rewrite El in Hh. by injection Hh.
    + intros Hn%bool_decide_eq_false. apply Hnone. eapply extended_iff; [|exact Hex]. intros j i. split; [tauto|].
      intros [?|(t' & ->%list_elem_of_singleton & _ & <- & ?)]; [done|lia].
  - intros [] s' (cs & done & -> & Hts & Hex). apply HQ. eapply extended_iff; [|exact Hex]. intros j i. rewrite app_nil_r in Hts.
    rewrite <-Hts. apply spawned_by_all.
Qed.

Lemma set_races_again rs rs' e : set_races rs (set_races rs' e) = set_races rs e.
Proof. done. Qed.

(** Failed locks move to the event that followed them. *)
Definition placed (s : TSOTraceBuilder) (cs1 : list Event) (done : list Race) (cs : list Event) : Prop :=
  length cs = length cs1 /\ forall i e, zget cs1 i = Some e -> zget cs i = Some (set_races (races e ++ filter (fun r => r_second r = i) done) e).

Lemma filter_app_one {A} (P : A -> Prop) `{forall x, Decision (P x)} l x :
  filter P (l ++ [x]) = filter P l ++ (if decide (P x) then [x] else []).
Proof. by rewrite filter_app, filter_cons, filter_nil. Qed.

Lemma wp_place_races s cs1 (Q : unit -> TSOTraceBuilder -> Prop) : trace_ok s -> length cs1 = length (trace s) ->
  (forall cs L, placed s cs1 (lock_fail_races s) cs -> Q tt (with_events (set_lock_fail_races L s) cs)) ->
  wp place_lock_fail_races Q (with_events s cs1).
Proof.
  intros Hok Hlen HQ. unfold place_lock_fail_races. wp_gets. unfold pfx_len. wp_gets. cbn [with_events set_prefix prefix buf_len lock_fail_races].
  unfold buf_len. cbn [events]. apply wp_bind.
  eapply wp_mono; [apply (wp_loop (fun rest acc s' => exists cs done, s' = with_events s cs /\ lock_fail_races s = done ++ rest /\ placed s cs1 done cs))|].
  - exists cs1, []. split_and!; [done|done|]. split; [done|]. intros i e He. rewrite filter_nil, app_nil_r. by destruct e.
  - intros r rest acc s' (cs & done & -> & Hrs & Hl & Hp).
    destruct (to_fail s Hok r) as (_ & Hf & Hs); [rewrite Hrs; set_solver|]. case_decide as Hn.
    + destruct (zget_lt cs1 (r_second r)) as [e He]; [lia|]. apply wp_bind. eapply wp_pfx_set; [by apply Hp|]. apply wp_ret.
      eexists _, (done ++ [r]). split_and!; [done|by rewrite <-app_assoc|]. split; [by rewrite length_insert|]. intros i e1 He1.
      pose proof (zget_Some _ _ _ He). rewrite zget_insert by lia. rewrite filter_app_one. case_decide as Heq.
      * subst i. assert (e1 = e) as -> by congruence. cbn [races set_races]. by rewrite <-app_assoc, set_races_again.
      * rewrite app_nil_r. by apply Hp.
    + wp_assert; [apply bool_decide_eq_true; rewrite Hlen in *; lia|]. apply wp_ret. exists cs, (done ++ [r]).
      split_and!; [done|by rewrite <-app_assoc|]. split; [done|]. intros i e1 He1. pose proof (zget_Some _ _ _ He1).
      rewrite filter_app_one, decide_False by lia. rewrite app_nil_r. by apply Hp.
  - intros L s' (cs & done & -> & Hrs & Hp). apply wp_modify. rewrite app_nil_r in Hrs. rewrite <-Hrs in Hp. by apply HQ.
Qed.

Lemma placed_completed s cs1 raw : extended s (spawn_edge s) cs1 -> placed s cs1 (lock_fail_races s) raw -> completed s raw.
Proof.
  intros Hex [Hl Hp]. split; [rewrite Hl; apply Hex|]. intros i e He. destruct (ex_event _ _ _ Hex i e He) as (h & Hh & Hin).
  eexists. split; [by apply Hp|]. by split_and!.
Qed.

(** ** The loop over the events *)

Section loop.
Context (IsBigEndianHost : bool) (conf : Configuration) (partition : forall A, (A -> bool) -> list A -> list A * list A).
Context (Hpart : partition_spec partition).
Context (s s1 : TSOTraceBuilder) (raw : list Event) (Hok : trace_ok s) (Hc : completed s raw).
Context (Hths : threads s1 = threads s) (Htree : wtree (prefix s1) = wtree (prefix s)).

(** The events below [n] have their clocks, the others are untouched. *)
Record progress (n : Z) (cs : list Event) : Prop := {
  pg_len : length cs = length raw;
  pg_todo : forall i, n <= i -> zget cs i = zget raw i;
  pg_done : forall i, 0 <= i < n -> clocked raw cs i;
  pg_event : forall i e, zget raw i = Some e -> exists e', zget cs i = Some e' /\ iid e' = iid e /\ (i < n -> reduced raw i (races e) (races e'));
}.

Lemma progress_step n cs e c kept : progress n cs -> zget raw n = Some e -> 0 <= n ->
  good raw n e (fun j => edge raw j n) c -> (forall j, edge raw j n -> above cs c j) -> reduced raw n (races e) kept ->
  progress (n + 1) (<[Z.to_nat n := set_races kept (set_clock c e)]> cs).
Proof.
  intros Hp He Hn [Hs Hown] Hab Hred. pose proof (completed_dag s raw Hok Hc) as Hdag.
  pose proof (zget_Some _ _ _ He) as Hr. rewrite <-(pg_len _ _ Hp) in Hr.
  split.
  - rewrite length_insert. apply Hp.
  - intros i Hi. rewrite zget_insert by done. rewrite decide_False by lia. apply Hp. lia.
  - assert (Hsame : forall j, j < n -> zget (<[Z.to_nat n:=set_races kept (set_clock c e)]> cs) j = zget cs j).
    { intros j Hj. rewrite zget_insert by done. by rewrite decide_False by lia. }
    assert (Habs : forall c' i j, i <= n -> edge raw j i -> above cs c' j -> above (<[Z.to_nat n:=set_races kept (set_clock c e)]> cs) c' j).
    { intros c' i j Hi Hj (x & Hx & Hle). exists x. split; [|done]. rewrite Hsame; [done|]. pose proof (dg_edge _ Hdag _ _ Hj). lia. }
    intros i Hi. destruct (decide (i = n)) as [->|Hne].
    + assert (Hget : zget (<[Z.to_nat n:=set_races kept (set_clock c e)]> cs) n = Some (set_races kept (set_clock c e))).
      { rewrite zget_insert by done. by rewrite decide_True. }
      split; [by exists e|..].
      * intros e' He'. rewrite Hget in He'. injection He' as <-. done.
      * intros e0 e' He0 He'. rewrite Hget in He'. injection He' as <-. assert (e0 = e) as -> by congruence. done.
      * intros j e' Hj He'. rewrite Hget in He'. injection He' as <-. eapply Habs; [|done|by apply Hab]. lia.
    + pose proof (pg_done _ _ Hp i ltac:(lia)) as Hcl. split; [apply Hcl|..].
      * intros e'. rewrite Hsame by lia. apply Hcl.
      * intros e0 e'. rewrite Hsame by lia. apply Hcl.
      * intros j e' Hj. rewrite Hsame by lia. intros He'. eapply (Habs _ i); [lia|done|by eapply cl_above].
  - intros i e0 He0. rewrite zget_insert by done. case_decide as Heq.
    + subst i. assert (e0 = e) as -> by congruence. eexists. split_and!; [done|done|done].
    + destruct (pg_event _ _ Hp i e0 He0) as (e' & He' & Hid & Hre). exists e'. split_and!; [done..|]. intros Hi. apply Hre. lia.
Qed.

Lemma wp_event_loop (Q : unit -> TSOTraceBuilder -> Prop) :
  (forall cs, progress (Z.of_nat (length raw)) cs -> Q tt (with_events s1 cs)) ->
  wp (each (seq 0 (length raw)) (fun i => event_vclock IsBigEndianHost conf partition (Z.of_nat i))) Q (with_events s1 raw).
Proof.
  intros HQ.
  eapply wp_mono; [apply (wp_each (fun rest s' => exists k cs, s' = with_events s1 cs /\ rest = seq k (length raw - k) /\ (k <= length raw)%nat /\
    progress (Z.of_nat k) cs))|].
  - exists 0%nat, raw. split_and!; [done|by rewrite Nat.sub_0_r|lia|]. split; [done|done|lia|].
    intros i e He. exists e. split_and!; [done..|]. apply zget_Some in He. lia.
  - intros k0 rest s' (k & cs & -> & Hrest & Hk & Hp). destruct (length raw - k)%nat as [|m] eqn:Em; [done|]. injection Hrest as -> ->.
    destruct (zget_lt raw (Z.of_nat k)) as [e He]; [lia|]. destruct (completed_back s raw Hc _ _ He) as (e0 & He0 & Hid & Hsym & Hlat & Hrs & Hha).
    destruct (to_await s Hok _ _ He0) as [Hcond Hlater].
    assert (Hiid : forall j ej ej', zget raw j = Some ej -> zget cs j = Some ej' -> iid ej' = iid ej).
    { intros j ej ej' Hj Hj'. destruct (pg_event _ _ Hp j ej Hj) as (x & Hx & Hxid & _). congruence. }
    apply (wp_event_vclock IsBigEndianHost conf partition Hpart s1 raw cs (Z.of_nat k) e).
    + by apply (completed_dag s).
    + done.
    + apply Hp.
    + rewrite (pg_todo _ _ Hp) by lia. done.
    + done.
    + intros j Hj. by apply Hp.
    + intros j Hj. apply Hha in Hj as [Hj|Hj]; [by eapply (to_edge s Hok)|].
      pose proof (to_spawn s Hok _ _ Hj). by destruct Hj as (p & t & _ & _ & _ & ?).
    + by apply (completed_races s).
    + by rewrite Hsym.
    + by rewrite Hlat.
    + by eapply (completed_find s raw Hok Hc); [| | |apply Hp|].
    + intros c kept Hg Hab Hred. exists (S k). eexists. split_and!; [done|f_equal; lia|lia|].
      replace (Z.of_nat (S k)) with (Z.of_nat k + 1) by lia. apply progress_step; [done..|lia|done|done|done].
  - intros [] s' (k & cs & -> & Hrest & Hk & Hp). assert (k = length raw) as ->; [|by apply HQ].
    destruct (length raw - k)%nat eqn:E; [lia|done].
Qed.
End loop.

(** ** The whole computation *)

(** What [compute_vclocks] leaves of the races [rs] of event [i]: a race stays
    only if no path that does not go through a race orders it, no race that
    stays is ordered by way of another one, and what was dropped is ordered
    anyway. Choices are kept. *)
Record minimal (s : TSOTraceBuilder) (i : Z) (rs kept : list Race) : Prop := {
  mn_sub : exists dropped, kept ++ dropped ≡ₚ rs;
  mn_nondet : forall r, r ∈ rs -> r_kind r = RACE_NONDET -> r ∈ kept;
  mn_fixed : forall r j, r ∈ kept -> r_kind r <> RACE_NONDET -> trace_fixed s j i -> ~ trace_order s (r_first r) j;
  mn_antichain : forall k l f g, k <> l -> kept !! k = Some f -> kept !! l = Some g -> r_kind f <> RACE_NONDET -> orders g ->
    ~ trace_order s (r_first f) (race_source g);
  mn_dropped : forall r, r ∈ rs -> orders r -> r_kind r <> LOCK_SUC -> r ∉ kept ->
    (exists j, trace_fixed s j i /\ trace_order s (r_first r) j) \/
    (exists g, g ∈ kept /\ orders g /\ trace_order s (r_first r) (race_source g));
}.

Lemma reduced_minimal s raw i e e' rs : trace_ok s -> completed s raw -> zget (trace s) i = Some e -> zget raw i = Some e' ->
  reduced raw i (races e') rs -> minimal s i (recorded s i e) rs.
Proof.
  intros Hok Hc He He' [H1 H2 H3 H4 H5].
  destruct (completed_back s raw Hc _ _ He') as (e0 & He0 & _ & _ & _ & Hrs & _). assert (e0 = e) as -> by congruence.
  rewrite Hrs in *. pose proof (completed_order s raw Hok Hc) as Ho. pose proof (completed_fixed s raw Hok Hc) as Hf. unfold fixed in *.
  split; [done|done| | |].
  - intros r j Hr Hk Hj%Hf Hh%Ho. by apply (H3 r j).
  - intros k l f g Hkl Hk Hl Hn Hg Hh%Ho. by apply (H4 k l f g).
  - intros r Hr Hor Hl Hno. destruct (H5 r Hr Hor Hl Hno) as [(j & Hj%Hf & Hh%Ho)|(g & Hg & Hog & Hh%Ho)]; [left|right]; eauto.
Qed.

(** The state after the computation: new clocks and races, nothing else. *)
Record computed (s s' : TSOTraceBuilder) : Prop := {
  cp_flag : has_vclocks s' = true;
  cp_rest : threads s' = threads s /\ prefix_idx s' = prefix_idx s /\ wtree (prefix s') = wtree (prefix s) /\ errors s' = errors s;
  cp_iids : map iid (trace s') = map iid (trace s);
  cp_clock : forall i j ei ej, zget (trace s') i = Some ei -> zget (trace s) j = Some ej ->
    exists b, vc_includes (clock ei) (event_pid ej) (event_number ej) = Some b /\ (b = true <-> trace_order s j i);
  cp_races : forall i e e', zget (trace s) i = Some e -> zget (trace s') i = Some e' -> minimal s i (recorded s i e) (races e');
}.

Lemma list_eq_zget {A} (l k : list A) : length l = length k -> (forall i x y, zget l i = Some x -> zget k i = Some y -> x = y) -> l = k.
Proof.
  intros Hlen H. apply list_eq_same_length with (length k); [done|done|]. intros i x y _ Hx Hy.
  apply (H (Z.of_nat i)); by rewrite zget_nat.
Qed.

Section compute.
Context (IsBigEndianHost : bool) (conf : Configuration) (partition : forall A, (A -> bool) -> list A -> list A * list A).
Context (Hpart : partition_spec partition).

Lemma wp_compute_vclocks s : trace_ok s -> wp (compute_vclocks IsBigEndianHost conf partition) (fun _ s' => computed s s') s.
Proof.
  intros Hok. unfold compute_vclocks. wp_gets. rewrite (to_flag s Hok). apply wp_bind, wp_spawn_edges; [done|]. intros cs1 Hex.
  apply wp_bind, wp_place_races; [done|apply Hex|]. intros raw L Hpl. pose proof (placed_completed s cs1 raw Hex Hpl) as Hc.
  set (s1 := set_lock_fail_races L s). unfold pfx_len. wp_gets. cbn [with_events set_prefix prefix]. unfold buf_len. cbn [events].
  rewrite Nat2Z.id. apply wp_bind. apply (wp_event_loop IsBigEndianHost conf partition Hpart s s1 raw); [done..|].
  intros cs Hp. apply wp_modify. pose proof (completed_dag s raw Hok Hc) as Hdag.
  assert (Hclk : forall k, 0 <= k < Z.of_nat (length raw) -> clocked raw cs k) by apply Hp.
  split; [done|done| | |]; unfold trace; cbn [with_events s1 set_lock_fail_races set_prefix prefix events].
  - apply list_eq_zget; [rewrite !length_map, (pg_len _ _ _ Hp); apply (cm_len _ _ Hc)|]. intros i x y Hx Hy. rewrite zget_map in Hx, Hy.
    destruct (zget cs i) as [e'|] eqn:He'; [|done]. destruct (zget (events (prefix s)) i) as [e|] eqn:He; [|done]. injection Hx as <-. injection Hy as <-.
    destruct (cm_event _ _ Hc _ _ He) as (e0 & He0 & Hid & _). destruct (pg_event _ _ _ Hp _ _ He0) as (e1 & He1 & Hid1 & _). congruence.
  - intros i j ei ej Hi Hj. pose proof (zget_Some _ _ _ Hi) as Hr. rewrite (pg_len _ _ _ Hp) in Hr.
    destruct (cm_event _ _ Hc _ _ Hj) as (ej' & Hej' & Hid & _).
    destruct (clocked_includes raw cs (Z.of_nat (length raw)) i ei j ej') as (b & Hb & Hspec); [done..|].
    exists b. unfold event_pid, event_number in *. rewrite <-Hid. split; [done|]. rewrite Hspec. by apply completed_order.
  - intros i e e' He He'. destruct (cm_event _ _ Hc _ _ He) as (e0 & He0 & _). destruct (pg_event _ _ _ Hp _ _ He0) as (e1 & He1 & _ & Hred).
    assert (e1 = e') as -> by congruence. eapply reduced_minimal; [done|exact Hc|done|exact He0|]. apply Hred. apply zget_Some in He0. lia.
Qed.
End compute.
