(* ===== verification/TSOTidy.v ===== *)
(** * TSOTidy: executions leave well-formed traces

    What the recorded trace itself satisfies in every state an execution
    reaches: the events of a thread are numbered without gaps, edges and races
    point backwards, spawns are marked. It is what [compute_vclocks] needs. *)

From S2P Require Import Prelude StdMap VecSet CPid SymAddr ByteOps SymEv ReplayMem WakeupTree TSOState TSOOps.
From S2P Require Import TSOHandlers TSOSched TSOInv TSOMem TSOSync TSOKeeps TSOAbs TSORun TSOSafety TSOClocks TSOHb TSOTraceOk.

Local Open Scope Z_scope.

(** ** Runs of single operations *)

Lemma run_massert b s u s' : massert b s = Some (u, s') -> b = true /\ s' = s.
Proof. unfold massert, lift, cassert. destruct b; [|done]. by intros [= _ <-]. Qed.
Lemma run_gets {A} (f : TSOTraceBuilder -> A) s x s' : gets f s = Some (x, s') -> x = f s /\ s' = s.
Proof. by intros [= <- <-]. Qed.
Lemma run_modify f s u s' : modify f s = Some (u, s') -> s' = f s.
Proof. by intros [= _ <-]. Qed.
Lemma run_ret {A} (x y : A) s s' : (mret x : M A) s = Some (y, s') -> y = x /\ s' = s.
Proof. by intros [= <- <-]. Qed.

Lemma run_curev s e s' : curev s = Some (e, s') -> zget (trace s) (prefix_idx s) = Some e /\ s' = s.
Proof.
  intros (i & s1 & Hi & H)%run_bind. apply run_pfx in H as [H ->]. revert Hi.
  unfold cur_idx, mbind, M_bind, gets, massert, lift, pfx_len, cassert. cbn.
  do 2 (case_bool_decide; cbn; [|done]). by intros [= <- <-].
Qed.
Lemma run_when b m s u s' : when b m s = Some (u, s') -> (b = true /\ m s = Some (u, s')) \/ (b = false /\ s' = s).
Proof. destruct b; [by left|]. right. by injection H. Qed.

(** Takes a run apart, one bind at a time. *)
Ltac run_inv H :=
  lazymatch type of H with
  | mbind _ _ _ = Some _ => let x := fresh "x" in let s1 := fresh "s" in let H1 := fresh "H" in
      apply run_bind in H as (x & s1 & H1 & H); run_inv H1; cbv beta zeta in H; run_inv H
  | gets _ _ = Some _ => apply run_gets in H as [-> ->]
  | lift _ _ = Some _ => apply run_lift in H as [H ->]
  | massert _ _ = Some _ => apply run_massert in H as [H ->]; try apply bool_decide_eq_true in H
  | modify _ _ = Some _ => apply run_modify in H as ->
  | mret _ _ = Some _ => apply run_ret in H as [-> ->]
  | pfx _ _ = Some _ => apply run_pfx in H as [H ->]
  | curev _ = Some _ => apply run_curev in H as [H ->]
  | _ => idtac
  end.

(** ** The invariant *)

Record event_tidy (i : Z) (e : Event) : Prop := {
  et_edges : forall j, j ∈ happens_after e -> 0 <= j < i;
  et_races : forall r, r ∈ races e -> r_kind r <> SEQUENCE /\ (r_kind r <> RACE_NONDET -> 0 <= r_first r < i) /\
    (r_kind r = LOCK_SUC -> 0 <= r_third r < i);
  et_await : existsb has_cond (sym e) = false /\ happens_after_later e = [];
}.

Definition marked_event (s : TSOTraceBuilder) (j : Z) : Prop := exists e, zget (trace s) j = Some e /\ may_conflict e = true.

Section tidy.
(** All failed locks were recorded for events up to the [bound]-th. *)
Context (bound : Z).

Record tidy (s : TSOTraceBuilder) : Prop := {
  td_numbered : numbered s;
  td_event : forall i e, zget (trace s) i = Some e -> event_tidy i e;
  td_fail : forall r, r ∈ lock_fail_races s -> r_kind r = LOCK_FAIL /\ 0 <= r_first r < r_second r /\ r_second r <= bound;
  td_spawn : forall p t, zget (threads s) p = Some t -> 0 <= spawn_event t -> marked_event s (spawn_event t) /\
    forall i, head (event_indices t) = Some i -> spawn_event t < i;
}.

Lemma event_tidy_new i id ss : existsb has_cond ss = false -> event_tidy i (Event_new id ss).
Proof. intros Hs. split; cbn; [by intros ? ?%not_elem_of_nil|by intros ? ?%not_elem_of_nil|done]. Qed.

(** ** Changes that keep it *)

(** Nothing that the invariant mentions changes. *)
Lemma tidy_frame s s' : threads s' = threads s -> prefix s' = prefix s -> lock_fail_races s' = lock_fail_races s -> tidy s -> tidy s'.
Proof.
  intros Ht Hp Hl [Hn He Hf Hs]. unfold marked_event, trace in *. split; unfold marked_event, trace in *; rewrite ?Ht, ?Hp, ?Hl in *; try done.
  destruct Hn as [H1 H2 H3]. split; unfold branch_at, trace in *; rewrite ?Ht, ?Hp; done.
Qed.

Lemma zget_put_event s i e x j : zget (trace s) i = Some x -> zget (trace (put_event i e s)) j = if decide (i = j) then Some e else zget (trace s) j.
Proof. intros Hx. unfold trace, put_event. cbn [prefix set_prefix events]. apply zget_insert. by eapply zget_Some. Qed.
Lemma branch_put_event s i e j : branch_at (put_event i e s) j = branch_at s j.
Proof. unfold branch_at, buf_branch, parent_at, buf_len, put_event. cbn [prefix set_prefix events wtree]. by rewrite length_insert. Qed.

Lemma numbered_same s s' : length (threads s') = length (threads s) ->
  (forall p t, zget (threads s) p = Some t -> exists t', zget (threads s') p = Some t' /\ event_indices t' = event_indices t) ->
  (forall i br, zget (trace s) i <> None -> branch_at s i = Some br -> exists br', branch_at s' i = Some br' /\ b_size br' = b_size br) ->
  map iid (trace s') = map iid (trace s) -> numbered s -> numbered s'.
Proof.
  intros Hlen Hth Hbr Hid [H1 H2 H3].
  assert (Hback : forall p t', zget (threads s') p = Some t' -> exists t, zget (threads s) p = Some t /\ event_indices t' = event_indices t).
  { intros p t' Ht'. destruct (zget_lt (threads s) p) as [t Ht]; [rewrite <-Hlen; by eapply zget_Some|].
    destruct (Hth p t Ht) as (t2 & Ht2 & Heq). exists t. split; [done|congruence]. }
  assert (Hev : forall i e', zget (trace s') i = Some e' -> exists e, zget (trace s) i = Some e /\ iid e' = iid e).
  { intros i e' He'. assert (Hm : zget (map iid (trace s)) i = Some (iid e')) by (rewrite <-Hid, zget_map, He'; done).
    rewrite zget_map in Hm. destruct (zget (trace s) i) as [e|]; [|done]. injection Hm as Hm. by exists e. }
  assert (Hev' : forall i e, zget (trace s) i = Some e -> exists e', zget (trace s') i = Some e' /\ iid e' = iid e).
  { intros i e He. assert (Hm : zget (map iid (trace s')) i = Some (iid e)) by (rewrite Hid, zget_map, He; done).
    rewrite zget_map in Hm. destruct (zget (trace s') i) as [e'|]; [|done]. injection Hm as Hm. by exists e'. }
  unfold event_pid, event_number in *. split.
  - intros i e' He'. destruct (Hev i e' He') as (e & He & Hi). unfold event_pid, event_number in *. rewrite Hi.
    destruct (H1 i e He) as (t & br & Ht & Hb & Hsz & Hk). destruct (Hth _ _ Ht) as (t' & Ht' & Heq).
    destruct (Hbr i br) as (br' & Hb' & Hsz'); [by rewrite He|done|]. exists t', br'. rewrite Hsz', Heq. done.
  - intros p t' k i Ht' Hk. destruct (Hback p t' Ht') as (t & Ht & Heq). rewrite Heq in Hk.
    destruct (H2 p t k i Ht Hk) as (e & br & He & Hp & Hb & Hn). destruct (Hev' i e He) as (e' & He' & Hi).
    destruct (Hbr i br) as (br' & Hb' & Hsz'); [by rewrite He|done|]. exists e', br'.
    unfold event_pid, event_number in *. rewrite Hsz', Hi. done.
  - intros p t' k l i j Ht' Hk Hl Hkl. destruct (Hback p t' Ht') as (t & Ht & Heq). rewrite Heq in Hk, Hl. by eapply (H3 p t k l).
Qed.

Lemma tidy_put_event s i e e' : zget (trace s) i = Some e -> iid e' = iid e -> (may_conflict e = true -> may_conflict e' = true) ->
  (event_tidy i e -> event_tidy i e') -> tidy s -> tidy (put_event i e' s).
Proof.
  intros He Hid Hmc Het Hs.
  assert (Hz : forall j, zget (trace (put_event i e' s)) j = if decide (i = j) then Some e' else zget (trace s) j) by (intros; by eapply zget_put_event).
  split.
  - apply (numbered_same s); [done|by eauto|intros j br _; rewrite branch_put_event; eauto| |apply Hs].
    unfold trace, put_event. cbn [prefix set_prefix events]. by eapply map_insert_id.
  - intros j ej. rewrite Hz. case_decide; [|by apply Hs]. subst j. intros [= <-]. apply Het. by apply Hs.
  - intros r Hr. by apply (td_fail s Hs).
  - intros p t Ht H0'. destruct (td_spawn s Hs p t Ht H0') as [(x & Hx & Hm) Hh]. split; [|done]. unfold marked_event. rewrite Hz.
    case_decide as Heq; [|by exists x]. exists e'. split; [done|]. rewrite <-Heq in Hx. rewrite He in Hx. injection Hx as <-. auto.
Qed.

Lemma tidy_put_thread s p t t' : zget (threads s) p = Some t -> event_indices t' = event_indices t -> spawn_event t' = spawn_event t ->
  tidy s -> tidy (set_threads (<[Z.to_nat p := t']> (threads s)) s).
Proof.
  intros Ht Hi Hsp Hs. pose proof (zget_Some _ _ _ Ht) as Hr. split; [|apply Hs..|].
  - apply (numbered_same s); [cbn [threads set_threads]; by rewrite length_insert| |by eauto|done|apply Hs]. intros q u Hu. cbn [threads set_threads].
    rewrite zget_insert by done. case_decide; [|by exists u]. subst q. assert (u = t) as -> by congruence. by exists t'.
  - intros q u. cbn [threads set_threads]. rewrite zget_insert by done. case_decide; [|apply Hs]. subst q. intros [= <-].
    rewrite Hsp, Hi. by apply (td_spawn s Hs p).
Qed.

Definition stays_tidy (s s' : TSOTraceBuilder) : Prop := tidy s -> tidy s'.
#[export] Instance stays_tidy_reflexive : Reflexive stays_tidy.
Proof. intros s H. exact H. Qed.
#[export] Instance stays_tidy_transitive : Transitive stays_tidy.
Proof. intros s1 s2 s3 H1 H2 H. auto. Qed.

Create HintDb tidy.
Lemma stays_tidy_frame s s' : threads s' = threads s -> prefix s' = prefix s -> lock_fail_races s' = lock_fail_races s -> stays_tidy s s'.
Proof. intros ? ? ? ?. by apply (tidy_frame s). Qed.
Lemma stays_tidy_event s i e e' : zget (events (prefix s)) i = Some e -> iid e' = iid e -> (may_conflict e = true -> may_conflict e' = true) ->
  (event_tidy i e -> event_tidy i e') -> stays_tidy s (put_event i e' s).
Proof. intros ? ? ? ? ?. by eapply tidy_put_event. Qed.
Lemma stays_tidy_thread s p t t' : zget (threads s) p = Some t -> event_indices t' = event_indices t -> spawn_event t' = spawn_event t ->
  stays_tidy s (set_threads (<[Z.to_nat p := t']> (threads s)) s).
Proof. intros ? ? ? ?. by eapply tidy_put_thread. Qed.

(** Updates of an event that leave edges, races and symbolic events alone. *)
Ltac tidy_event := intros; eapply stays_tidy_event; [eassumption|done|done|by intros [? ? ?]].
Ltac stays_tidy := always_walk ltac:(fun _ => first
  [ solve [auto 2 with tidy nocore]
  | apply always_modify; intros; by apply stays_tidy_frame
  | apply always_thread_upd; intros; by eapply stays_tidy_thread
  | apply always_pfx_upd; tidy_event | apply always_curev_upd; tidy_event ]).

(** ** The methods *)

Section methods.
Context (conf : Configuration).

Lemma tidy_add_race s i e r : zget (trace s) i = Some e -> (event_tidy i e -> r_kind r <> SEQUENCE /\ (r_kind r <> RACE_NONDET -> 0 <= r_first r < i) /\
    (r_kind r = LOCK_SUC -> 0 <= r_third r < i)) -> stays_tidy s (put_event i (set_races (races e ++ [r]) e) s).
Proof.
  intros He Hr Hs. eapply tidy_put_event; [exact He|done|done| |exact Hs]. intros Het. pose proof (Hr Het) as Hr'. destruct Het as [H1 H2 H3].
  split; [done| |done]. cbn [set_races races]. intros x [Hx| ->%list_elem_of_singleton]%elem_of_app; [by apply H2|done].
Qed.

Lemma run_assert_conflict i j s u s' : assert_conflict conf i j s = Some (u, s') -> s' = s.
Proof.
  unfold assert_conflict. intros [[_ H]|[_ H]]%run_when; [|done]. unfold events_conflict in H. by run_inv H.
Qed.

Ltac add_race H :=
  run_inv H; repeat match goal with Hc : assert_conflict _ _ _ _ = Some _ |- _ => apply run_assert_conflict in Hc as -> end;
  try (apply run_when in H as [[_ H]|[_ ->]]; [|done]).

Lemma tidy_add_noblock_race j : always stays_tidy (add_noblock_race conf j).
Proof.
  intros s u s' H. unfold add_noblock_race in H. add_race H. apply run_curev_upd in H as (e' & He' & ->).
  apply tidy_add_race; [done|]. intros _. cbn. split_and!; [done|lia|done].
Qed.
Lemma tidy_add_lock_suc_race l k : always stays_tidy (add_lock_suc_race l k).
Proof.
  intros s u s' H. unfold add_lock_suc_race in H. add_race H. apply run_curev_upd in H as (e' & He' & ->).
  apply tidy_add_race; [done|]. intros _. cbn. split_and!; [done|lia|lia].
Qed.
Lemma tidy_add_observed_race j k : always stays_tidy (add_observed_race conf j k).
Proof.
  intros s u s' H. unfold add_observed_race in H. add_race H. apply run_pfx_upd in H as (e' & He' & ->).
  apply tidy_add_race; [done|]. intros _. cbn. split_and!; [done|lia|done].
Qed.
Lemma tidy_add_happens_after i j : always stays_tidy (add_happens_after i j).
Proof.
  intros s u s' H. unfold add_happens_after in H. add_race H. apply run_pfx_upd in H as (e' & He' & ->). intros Hs.
  eapply tidy_put_event; [exact He'|done|done| |exact Hs]. intros [H1' H2' H3']. split; [|done|done]. cbn [set_happens_after happens_after].
  intros y [Hy| ->%list_elem_of_singleton]%elem_of_app; [by apply H1'|]. pose proof (wrapu_range 32 j). lia.
Qed.


(** *** Symbolic events: none awaits *)

Lemma existsb_app_one {A} (p : A -> bool) l x : existsb p l = false -> p x = false -> existsb p (l ++ [x]) = false.
Proof. intros Hl Hx. by rewrite existsb_app, Hl, orb_false_l; cbn; rewrite Hx. Qed.
Lemma existsb_insert {A} (p : A -> bool) (l : list A) i x : existsb p l = false -> p x = false -> existsb p (<[i := x]> l) = false.
Proof.
  intros Hl Hx. destruct (existsb p (<[i := x]> l)) eqn:E; [|done]. apply existsb_exists in E as (y & Hy & Hp).
  apply list_elem_of_In, elem_insert in Hy as [->|Hy]; [congruence|]. enough (existsb p l = true) by congruence.
  apply existsb_exists. exists y. by split; [apply list_elem_of_In|].
Qed.

Lemma tidy_put_sym s i e ss : zget (trace s) i = Some e -> (existsb has_cond (sym e) = false -> existsb has_cond ss = false) ->
  stays_tidy s (put_event i (set_sym ss e) s).
Proof.
  intros He Hss Hs. eapply tidy_put_event; [exact He|done|done| |exact Hs]. intros [H1 H2 [H3 H4]]. split; [done|done|]. split; [by apply Hss|done].
Qed.

Lemma tidy_nondeterminism m : always stays_tidy (nondeterminism_error m).
Proof. stays_tidy. Qed.
Lemma tidy_push_sleep_sym r ev : always stays_tidy (push_sleep_sym r ev).
Proof. stays_tidy. Qed.
Lemma tidy_dry_pid : always stays_tidy dry_pid.
Proof. stays_tidy. Qed.

Lemma tidy_record_symbolic ev : has_cond ev = false -> always stays_tidy (record_symbolic ev).
Proof.
  intros Hc. unfold record_symbolic. apply always_bind; [apply _|apply always_gets; apply _|]. intros [].
  { stays_tidy. }
  intros s b s' H. run_inv H. destruct (negb (replay s)).
  - run_inv H. match goal with Hu : curev_upd _ _ = _ |- _ => apply run_curev_upd in Hu as (e & He & ->) end.
    etrans; [by eapply (tidy_put_sym s _ e); [exact He|intros Hn; by apply existsb_app_one]|]. by apply stays_tidy_frame.
  - apply run_bind in H as (u & s1 & H1 & H). run_inv H1. apply run_bind in H as (old & s1 & H2 & H). run_inv H2.
    apply run_bind in H as (u2 & s1 & H3 & H). run_inv H3. apply run_bind in H as (ok & s1 & H4 & H). run_inv H4.
    assert (Hf : stays_tidy s (set_sym_idx (S (sym_idx s)) s)) by (by apply stays_tidy_frame). destruct (negb ok).
    + etrans; [exact Hf|]. revert H. set (s1 := set_sym_idx _ s). clearbody s1. intros H. revert s1 b s' H.
      change (always stays_tidy (ts ← gets threads; a ← lift (ev_to_string (pid_str ts) old); b ← lift (ev_to_string (pid_str ts) ev);
        _ ← nondeterminism_error ("Event with effect " +:+ a +:+ " became " +:+ b +:+ " when replayed"); mret false)). stays_tidy.
    + run_inv H. match goal with Hu : curev_upd _ _ = _ |- _ => apply run_curev_upd in Hu as (e & He & ->) end.
      etrans; [exact Hf|]. eapply tidy_put_sym; [exact He|]. intros Hn.
      match goal with Hv : vset _ _ _ = _, Hx : zget (trace s) _ = _ |- _ =>
        rename Hv into Hv'; assert (e = x) as -> by (cbn in He; unfold trace in Hx; congruence) end.
      unfold vset in Hv'. case_decide; [|done]. injection Hv' as <-. by apply existsb_insert.
Qed.

(** [observe_store] turns unobserved stores into stores. *)
Lemma observe_store_loop_cond revs ml o : observe_store_loop revs ml = Some o -> existsb has_cond revs = false -> existsb has_cond o.1 = false.
Proof.
  revert o. induction revs as [|e revs IH]; intros o H Hc; [done|]. cbn [observe_store_loop] in H. cbn [existsb] in Hc.
  apply orb_false_iff in Hc as [He Hr]. bind_inv H. match type of H with (if ?b then _ else _) = _ => destruct b end.
  - injection H as <-. cbn. by rewrite He.
  - bind_inv H. match type of H with (if ?b then _ else _) = _ => destruct b end.
    + bind_inv H. injection H as <-. cbn. exact Hr.
    + bind_inv H. bind_inv H. injection H as <-. cbn. rewrite He. by apply IH.
Qed.
Lemma observe_store_cond syms ml o : observe_store syms ml = Some o -> existsb has_cond syms = false -> existsb has_cond o.1 = false.
Proof.
  intros H Hc. unfold observe_store in H. bind_inv H. injection H as <-. cbn [fst].
  assert (Hrev : forall l : list SymEv, existsb has_cond (reverse l) = existsb has_cond l).
  { intros l. unfold reverse. induction l as [|x l IH]; [done|]. rewrite rev_append_rev, app_nil_r in *. cbn [rev]. rewrite existsb_app, IH. cbn.
    by rewrite orb_false_r, orb_comm. }
  rewrite Hrev. eapply observe_store_loop_cond; [exact E|]. by rewrite Hrev.
Qed.

Lemma tidy_observe b lu (k : bool -> M (ByteInfo * (list Z * list (Z * Z)))) e : (forall x, always stays_tidy (k x)) ->
  forall s a s', zget (events (prefix s)) lu = Some e ->
  (obs ← (if decide (dpor_algorithm conf = OBSERVERS) then
            o ← lift (observe_store (sym e) b); _ ← pfx_upd lu (set_sym o.1); mret o.2
          else mret false); k obs) s = Some (a, s') -> stays_tidy s s'.
Proof.
  intros Hk s a s' He (x & s1 & H1 & H2)%run_bind. destruct (decide _) in H1.
  - apply run_bind in H1 as (o & s2 & (Ho & ->)%run_lift & (u & s3 & H3 & [= _ <-])%run_bind).
    etrans; [|by eapply Hk]. apply run_pfx_upd in H3 as (e' & He' & ->). assert (e' = e) as -> by congruence.
    eapply tidy_put_sym; [exact He'|]. intros Hc. by eapply observe_store_cond.
  - injection H1 as _ <-. by eapply Hk.
Qed.

Lemma tidy_observe_memory ml m seen pairs upd : always stays_tidy (observe_memory conf ml m seen pairs upd).
Proof.
  unfold observe_memory. apply always_bind; [apply _|stays_tidy|]. intros ipid. cbv zeta.
  apply always_bind; [apply _| |intros r; stays_tidy]. case_decide; [|stays_tidy].
  intros s a s' (e & s1 & (He & ->)%run_pfx & (seen' & s2 & Hs & H1)%run_bind)%run_bind.
  assert (s2 = s) as -> by (clear H1; revert Hs; case_decide; [by apply run_ins|by intros [= _ ->]]).
  eapply tidy_observe; [|exact He|exact H1]. intros x. stays_tidy.
Qed.

Lemma tidy_nondet_race i a : always stays_tidy (curev_upd (fun e => set_races (races e ++ [Race_Nondet i a]) e)).
Proof. intros s u s' (e & He & ->)%run_curev_upd. by apply tidy_add_race. Qed.

#[local] Hint Resolve tidy_add_noblock_race tidy_add_lock_suc_race tidy_add_observed_race tidy_add_happens_after
  tidy_nondeterminism tidy_observe_memory tidy_nondet_race : tidy.
#[local] Hint Extern 1 (always stays_tidy (record_symbolic _)) => apply tidy_record_symbolic; repeat (done || case_decide || case_match) : tidy.

Lemma tidy_see_events l : always stays_tidy (see_events conf l).
Proof. stays_tidy. Qed.
Lemma tidy_see_event_pairs l : always stays_tidy (see_event_pairs conf l).
Proof. stays_tidy. Qed.
Lemma tidy_wakeup ty b : always stays_tidy (wakeup conf ty b).
Proof. stays_tidy. Qed.
#[local] Hint Resolve tidy_see_events tidy_see_event_pairs tidy_wakeup : tidy.
Lemma tidy_do_load ml : always stays_tidy (do_load conf ml).
Proof. stays_tidy. Qed.
Lemma tidy_do_atomic_store sd : always stays_tidy (do_atomic_store conf sd).
Proof. stays_tidy. Qed.
Lemma tidy_mutex_lock ml : always stays_tidy (mutex_lock conf ml).
Proof. stays_tidy. Qed.
Lemma tidy_register_alternatives n : always stays_tidy (register_alternatives n).
Proof. stays_tidy. Qed.
#[local] Hint Resolve tidy_do_load tidy_do_atomic_store tidy_mutex_lock tidy_register_alternatives : tidy.
Lemma tidy_atomic_rmw sd action : always stays_tidy (atomic_rmw conf sd action).
Proof.
  unfold atomic_rmw. apply always_bind; [apply _|stays_tidy|]. intros _ s b s' (ev & s1 & (Hev & ->)%run_lift & H)%run_bind.
  assert (Hc : has_cond ev = false).
  { revert Hev. unfold SymEv_Rmw. destruct (cassert _); [|done]. by intros [= <-]. }
  revert s b s' H. apply always_bind; [apply _|by apply tidy_record_symbolic|]. intros []; stays_tidy.
Qed.
#[local] Hint Resolve tidy_atomic_rmw : tidy.

(** *** New threads *)

Lemma tidy_add_thread s t : tidy s -> marked_event s (prefix_idx s) -> event_indices t = [] -> spawn_event t = prefix_idx s ->
  tidy (set_threads (threads s ++ [t]) s).
Proof.
  intros Hs Hm Hi Hsp.
  assert (Hth : forall q u, zget (threads s ++ [t]) q = Some u -> zget (threads s) q = Some u \/ u = t).
  { intros q u. rewrite zget_app_one. case_decide; [intros [= <-]; by right|by left]. }
  assert (Hnew : forall q u, zget (threads s) q = Some u -> zget (threads s ++ [t]) q = Some u).
  { intros q u Hu. rewrite zget_app_one, decide_False; [done|]. apply zget_Some in Hu. lia. }
  destruct (td_numbered s Hs) as [H1 H2 H3]. split; [split|apply Hs|apply Hs|]; cbn [threads set_threads].
  - intros i e He. destruct (H1 i e He) as (u & br & Hu & ?). exists u, br. split; [by apply Hnew|done].
  - intros q u k i [Hu| ->]%Hth Hk; [by eapply H2|]. rewrite Hi in Hk. apply zget_Some in Hk. cbn in Hk. lia.
  - intros q u k l i j [Hu| ->]%Hth Hk Hl; [by eapply H3|]. rewrite Hi in Hk. apply zget_Some in Hk. cbn in Hk. lia.
  - intros q u [Hu| ->]%Hth H0; [by apply (td_spawn s Hs q)|]. rewrite Hsp, Hi. by split.
Qed.

Lemma kept_marked q s s' : kept_state q s s' -> marked_event s (prefix_idx s) -> marked_event s' (prefix_idx s').
Proof.
  intros Hk (e & He & Hm). destruct (ks_event _ _ _ Hk _ _ He) as (e' & He' & _ & _ & Hmc & _). rewrite (ks_idx _ _ _ Hk).
  exists e'. auto.
Qed.

Lemma tidy_mark_conflict : always stays_tidy mark_conflict.
Proof. stays_tidy. Qed.
Lemma tidy_spawn : always stays_tidy spawn.
Proof.
  intros s b s' H Hs. unfold spawn, and_then in H. apply run_bind in H as (u & s1 & H1 & H).
  pose proof (tidy_mark_conflict _ _ _ H1 Hs) as Hs1.
  assert (Hm1 : marked_event s1 (prefix_idx s1)).
  { apply run_curev_upd in H1 as (e & He & ->). exists (set_may_conflict true e). unfold trace. cbn [prefix put_event set_prefix events].
    rewrite zget_insert by (by eapply zget_Some). by rewrite decide_True. }
  apply run_bind in H as (n & s2 & H2 & H). run_inv H2. apply run_bind in H as (ok & s2 & H2 & H).
  pose proof (tidy_record_symbolic (SymEv_Spawn _) eq_refl _ _ _ H2 Hs1) as Hs2. pose proof (kept_marked _ _ _ (keeps_record_symbolic _ _ _ _ H2) Hm1) as Hm2.
  clear Hs1 Hm1. destruct ok; [|by run_inv H]. cbv beta in H. unfold thread in H. run_inv H.
  match type of H with (let '(_, _) := ?c in _) _ = _ => destruct c as [child cps] end. run_inv H.
  match type of H with (let '(_, _) := ?c in _) _ = _ => destruct c as [aux cps'] end. run_inv H. apply (tidy_add_thread (set_CPS cps' (set_threads (threads s2 ++ [Thread_new child (prefix_idx s2)]) s2)));
    [|done|done|done].
  apply (tidy_frame (set_threads (threads s2 ++ [Thread_new child (prefix_idx s2)]) s2)); [done|done|done|]. by apply tidy_add_thread.
Qed.
#[local] Hint Resolve tidy_spawn : tidy.

Lemma tidy_perform c : always stays_tidy (perform conf c).
Proof. destruct c; cbn [perform]; try done; stays_tidy. Qed.
End methods.
End tidy.
