(* ===== verification/TSOTidyRun.v ===== *)
(** * TSOTidyRun: scheduling and well-formed traces

    What the scheduler does to the trace (a last event that goes, that is merged
    into the one before it, an event that is pushed) keeps [tidy]; hence every
    state an execution reaches has a trace [compute_vclocks] can work on. *)

From S2P Require Import Prelude StdMap VecSet CPid SymAddr ByteOps SymEv ReplayMem WakeupTree TSOState TSOOps.
From S2P Require Import TSOHandlers TSOSched TSOInv TSOMem TSOSync TSOKeeps TSOAbs TSORun TSOSafety TSOClocks TSOHb TSOTraceOk TSOTidy.

Local Open Scope Z_scope.

(** ** Sizes of branches *)

Lemma branch_size s i br : branch_at s i = Some br -> size_at (prefix s) (Z.to_nat i) = Some (b_size br).
Proof.
  unfold branch_at. intros Hb. rewrite buf_branch_siblings in Hb.
  - unfold size_at. destruct (siblings _ _) as [l|]; [|done]. cbn in *. by rewrite Hb.
  - revert Hb. unfold buf_branch, parent_at. case_bool_decide; [done|]. done.
Qed.
Lemma size_branch s i sz : 0 <= i < Z.of_nat (length (trace s)) -> size_at (prefix s) (Z.to_nat i) = Some sz ->
  exists br, branch_at s i = Some br /\ b_size br = sz.
Proof.
  intros Hi Hsz. unfold branch_at. rewrite buf_branch_siblings by (unfold buf_len, trace in *; lia). unfold size_at in Hsz.
  destruct (siblings _ _) as [l|]; [|done]. cbn in *. destruct (head l) as [x|]; [|done]. exists x. split; [done|by injection Hsz].
Qed.

Lemma tidy_weaken n m s : n <= m -> tidy n s -> tidy m s.
Proof. intros Hnm [H1 H2 H3 H4]. split; [done..| |done]. intros r Hr. destruct (H3 r Hr) as (? & ? & ?). split_and!; [done|lia|lia|lia]. Qed.

(** The branch of an event that stays. *)
Definition keeps_size (s s' : TSOTraceBuilder) (i : Z) : Prop := size_at (prefix s') (Z.to_nat i) = size_at (prefix s) (Z.to_nat i).
Lemma keep_branch s s' i br : keeps_size s s' i -> 0 <= i < Z.of_nat (length (trace s')) -> branch_at s i = Some br ->
  exists br', branch_at s' i = Some br' /\ b_size br' = b_size br.
Proof. intros Hk Hi Hb%branch_size. apply size_branch; [done|]. by rewrite Hk. Qed.

Lemma tidy_same n s s' : retraced_same s s' -> tidy n s -> tidy n s'.
Proof.
  intros [Ht He _ Hf _ Hz] [H1 H2 H3 H4]. unfold trace in *. split; unfold marked_event, trace; rewrite ?Ht, ?He, ?Hf; [|done..].
  apply (numbered_same s); [by rewrite Ht|rewrite Ht; by eauto| |unfold trace; by rewrite He|done].
  intros i br Hi Hb. destruct (zget (trace s) i) as [e|] eqn:E; [|done]. pose proof (zget_Some _ _ _ E). unfold trace in *.
  apply (keep_branch s); [apply Hz; lia|unfold trace; by rewrite He|done].
Qed.

(** ** The last event goes *)

Section drop.
Context (n : Z) (s s' : TSOTraceBuilder) (e : Event) (t t' : Thread) (rest : list Z).
Let top := prefix_idx s.
Let p := event_pid e.
Context (Hs : tidy n s) (Htop : top + 1 = Z.of_nat (length (trace s))) (He : zget (trace s) top = Some e) (Hmc : may_conflict e = false).
Context (Ht : zget (threads s) p = Some t) (Hind : event_indices t = rest ++ [top]) (Hno : top ∉ rest).
Context (Hths : threads s' = <[Z.to_nat p := t']> (threads s)) (Hind' : event_indices t' = rest) (Hsp : spawn_event t' = spawn_event t).
Context (Hev : trace s' = take (length (trace s) - 1) (trace s)) (Hf : lock_fail_races s' = lock_fail_races s).
Context (Hsz : forall i, 0 <= i < top -> keeps_size s s' i).

Lemma drop_thread q : zget (threads s') q = if decide (p = q) then Some t' else zget (threads s) q.
Proof. rewrite Hths. apply zget_insert. by eapply zget_Some. Qed.
Lemma drop_event i : zget (trace s') i = if decide (i < top) then zget (trace s) i else None.
Proof.
  rewrite Hev. unfold zget. destruct (decide (0 <= i)), (decide (i < top)); try done.
  - by rewrite lookup_take_lt by lia.
  - by rewrite lookup_take_ge by lia.
Qed.
Lemma drop_len : Z.of_nat (length (trace s')) = top.
Proof. pose proof (zget_Some _ _ _ He). rewrite Hev, length_take. lia. Qed.

(** Positions below the last one are unaffected. *)
Lemma drop_index k i : zget rest k = Some i <-> zget (event_indices t) k = Some i /\ i <> top.
Proof.
  rewrite Hind. rewrite zget_app_one. split.
  - intros Hk. pose proof (zget_Some _ _ _ Hk). rewrite decide_False by lia. split; [done|]. intros ->. apply Hno. by eapply zget_elem.
  - case_decide; [|tauto]. intros [[= <-] ?]. done.
Qed.
Lemma drop_indices q u' k i : zget (threads s') q = Some u' -> zget (event_indices u') k = Some i ->
  exists u, zget (threads s) q = Some u /\ zget (event_indices u) k = Some i /\ i < top.
Proof.
  rewrite drop_thread. assert (Hlt : forall u, zget (threads s) q = Some u -> zget (event_indices u) k = Some i -> i <= top).
  { intros u Hu Hk. destruct (nb_index _ (td_numbered _ _ Hs) _ _ _ _ Hu Hk) as (x & _ & Hx & _). apply zget_Some in Hx. lia. }
  case_decide as Hq.
  - subst q. intros [= <-]. rewrite Hind'. intros [Hk Hne]%drop_index. exists t. split_and!; [done..|]. specialize (Hlt t Ht Hk). lia.
  - intros Hu Hk. exists u'. split_and!; [done..|]. specialize (Hlt u' Hu Hk). destruct (decide (i = top)) as [->|]; [|lia].
    destruct (nb_index _ (td_numbered _ _ Hs) _ _ _ _ Hu Hk) as (x & br & Hx & Hp & _). assert (x = e) as -> by congruence. done.
Qed.

Lemma drop_numbered : numbered s'.
Proof.
  destruct (td_numbered _ _ Hs) as [H1 H2 H3]. pose proof drop_len as Hlen. split.
  - intros i x. rewrite drop_event. case_decide as Hi; [|done]. intros Hx. pose proof (zget_Some _ _ _ Hx).
    destruct (H1 i x Hx) as (u & br & Hu & Hb & Hpos & Hk). destruct (keep_branch s s' i br) as (br' & Hb' & Hbs); [apply Hsz; lia|lia|done|].
    rewrite drop_thread. destruct (decide (p = event_pid x)) as [Hp|Hp].
    + exists t', br'. rewrite Hbs, Hind'. split_and!; [done..|]. intros k Hkk. apply drop_index. rewrite <-Hp, Ht in Hu. injection Hu as <-.
      split; [by apply Hk|lia].
    + exists u, br'. rewrite Hbs. by split_and!.
  - intros q u' k i Hu' Hk. destruct (drop_indices q u' k i Hu' Hk) as (u & Hu & Hku & Hi).
    destruct (H2 q u k i Hu Hku) as (x & br & Hx & Hp & Hb & Hn). pose proof (zget_Some _ _ _ Hx).
    destruct (keep_branch s s' i br) as (br' & Hb' & Hbs); [apply Hsz; lia|lia|done|]. exists x, br'. rewrite drop_event, decide_True, Hbs by done.
    destruct Hn. by split_and!.
  - intros q u' k l i j Hu' Hk Hl. destruct (drop_indices q u' k i Hu' Hk) as (u & Hu & Hku & _).
    destruct (drop_indices q u' l j Hu' Hl) as (u2 & Hu2 & Hlu & _). assert (u2 = u) as -> by congruence. by eapply H3.
Qed.

Lemma tidy_drop : tidy n s'.
Proof.
  split.
  - apply drop_numbered.
  - intros i x. rewrite drop_event. case_decide; [|done]. by apply Hs.
  - rewrite Hf. apply Hs.
  - intros q u' Hu' H0. rewrite drop_thread in Hu'.
    assert (exists u, zget (threads s) q = Some u /\ spawn_event u' = spawn_event u /\
      forall i, head (event_indices u') = Some i -> head (event_indices u) = Some i) as (u & Hu & Hspu & Hh).
    { destruct (decide (p = q)) as [<-|]; [|by exists u']. injection Hu' as <-. exists t. split_and!; [done..|]. rewrite Hind, Hind'.
      by destruct rest. }
    rewrite Hspu in *. destruct (td_spawn _ _ Hs q u Hu H0) as [(x & Hx & Hm) Hlt]. split; [|by intros i Hi%Hh; apply Hlt].
    exists x. split; [|done]. rewrite drop_event. pose proof (zget_Some _ _ _ Hx). rewrite decide_True; [done|].
    destruct (decide (spawn_event u = top)) as [Heq|]; [|lia]. rewrite Heq in Hx. congruence.
Qed.
End drop.

(** ** A thread takes another step *)

Lemma index_snoc (l : list Z) x k i : zget (l ++ [x]) k = Some i <-> zget l k = Some i \/ (k = Z.of_nat (length l) /\ i = x).
Proof.
  rewrite zget_app_one. case_decide as Hk.
  - split; [intros [= <-]; by right|]. intros [Hl|[_ ->]]; [apply zget_Some in Hl; lia|done].
  - split; [by left|]. intros [?|[? _]]; [done|by destruct Hk].
Qed.

(** Thread [p] gets the step [x], not below any event the trace had. *)
Section append.
Context (n : Z) (s s' : TSOTraceBuilder) (p : Z) (t t' : Thread) (x : Z).
Context (Hs : tidy n s) (Ht : zget (threads s) p = Some t).
Context (Hths : threads s' = <[Z.to_nat p := t']> (threads s)) (Hind' : event_indices t' = event_indices t ++ [x]).
Context (Hsp : spawn_event t' = spawn_event t) (Hx : Z.of_nat (length (trace s)) <= x + 1).

Lemma append_thread q : zget (threads s') q = if decide (p = q) then Some t' else zget (threads s) q.
Proof. rewrite Hths. apply zget_insert. by eapply zget_Some. Qed.
Lemma append_old q u : zget (threads s) q = Some u -> exists u', zget (threads s') q = Some u' /\
  forall k i, zget (event_indices u) k = Some i -> zget (event_indices u') k = Some i.
Proof.
  rewrite append_thread. intros Hu. case_decide as Hq; [|by exists u]. subst q. exists t'. split; [done|].
  assert (u = t) as -> by congruence. intros k i Hk. rewrite Hind'. apply index_snoc. by left.
Qed.
Lemma append_index q u' k i : zget (threads s') q = Some u' -> zget (event_indices u') k = Some i ->
  (exists u, zget (threads s) q = Some u /\ zget (event_indices u) k = Some i) \/
  (q = p /\ k = Z.of_nat (length (event_indices t)) /\ i = x).
Proof.
  rewrite append_thread. case_decide as Hq; [|intros ? ?; left; by exists u']. subst q. intros [= <-]. rewrite Hind'.
  intros [Hk|[-> ->]]%index_snoc; [left; by exists t|by right].
Qed.
Lemma append_sorted q u' k l i j : zget (threads s') q = Some u' -> zget (event_indices u') k = Some i ->
  zget (event_indices u') l = Some j -> k <= l -> i <= j.
Proof.
  intros Hu Hk Hl Hkl. destruct (append_index _ _ _ _ Hu Hk) as [(u & Hu1 & Hk1)|(-> & -> & ->)];
    destruct (append_index _ _ _ _ Hu Hl) as [(u2 & Hu2 & Hl2)|(Hq & -> & ->)].
  - assert (u2 = u) as -> by congruence. by eapply (nb_sorted _ (td_numbered _ _ Hs) _ u).
  - destruct (nb_index _ (td_numbered _ _ Hs) _ _ _ _ Hu1 Hk1) as (y & _ & Hy & _). apply zget_Some in Hy. lia.
  - assert (u2 = t) as -> by congruence. apply zget_Some in Hl2. lia.
  - lia.
Qed.
Lemma append_spawn q u' : zget (threads s') q = Some u' -> exists u, zget (threads s) q = Some u /\ spawn_event u' = spawn_event u /\
  forall i, head (event_indices u') = Some i -> head (event_indices u) = Some i \/ (event_indices t = [] /\ i = x).
Proof.
  rewrite append_thread. case_decide as Hq; [|intros ?; exists u'; split_and!; [done..|by left]]. subst q. intros [= <-]. exists t.
  split_and!; [done..|]. intros i. rewrite Hind'. destruct (event_indices t); [intros [= <-]; by right|by left].
Qed.
End append.

Lemma tidy_push n s s' p t : tidy n s -> zget (threads s) p = Some t ->
  threads s' = <[Z.to_nat p := set_event_indices (event_indices t ++ [Z.of_nat (length (trace s))]) t]> (threads s) ->
  trace s' = trace s ++ [new_event_of p t] -> lock_fail_races s' = lock_fail_races s ->
  (forall i, 0 <= i < Z.of_nat (length (trace s)) -> keeps_size s s' i) -> size_at (prefix s') (length (trace s)) = Some 1 -> tidy n s'.
Proof.
  intros Hs Ht Hths Hev Hf Hsz Hnew. set (top := Z.of_nat (length (trace s))) in *.
  assert (Hget : forall i, zget (trace s') i = if decide (i = top) then Some (new_event_of p t) else zget (trace s) i).
  { intros i. rewrite Hev. apply zget_app_one. }
  assert (Hlen : Z.of_nat (length (trace s')) = top + 1) by (rewrite Hev, length_app; cbn; lia).
  pose proof (append_old s s' p t _ top Ht Hths eq_refl) as Hold. pose proof (append_index s s' p t _ top Ht Hths eq_refl) as Hidx.
  destruct (size_branch s' top 1) as (brn & Hbrn & Hbn); [lia|by unfold top; rewrite Nat2Z.id|].
  assert (Hth : zget (threads s') p = Some (set_event_indices (event_indices t ++ [top]) t)).
  { rewrite (append_thread s s' p t _ Ht Hths). by rewrite decide_True. }
  destruct (td_numbered _ _ Hs) as [H1 H2 H3]. split; [split| | |].
  - intros i x. rewrite Hget. case_decide as Hi.
    + subst i. intros [= <-]. eexists _, brn. rewrite Hbn. split_and!; [exact Hth|done|lia|]. unfold event_number. cbn. intros k Hk.
      apply index_snoc. right. unfold last_event_index in *. split; [lia|done].
    + intros Hx. pose proof (zget_Some _ _ _ Hx). destruct (H1 i x Hx) as (u & br & Hu & Hb & Hpos & Hk). destruct (Hold _ _ Hu) as (u' & Hu' & Hkk).
      destruct (keep_branch s s' i br) as (br' & Hb' & Hbs); [apply Hsz; lia|lia|done|]. exists u', br'. rewrite Hbs. split_and!; auto.
  - intros q u' k i Hu' Hk. destruct (Hidx q u' k i Hu' Hk) as [(u & Hu & Hku)|(-> & -> & ->)].
    + destruct (H2 q u k i Hu Hku) as (x & br & Hx & Hp & Hb & Hn). pose proof (zget_Some _ _ _ Hx).
      destruct (keep_branch s s' i br) as (br' & Hb' & Hbs); [apply Hsz; lia|lia|done|]. exists x, br'. rewrite Hget, decide_False, Hbs by lia. done.
    + exists (new_event_of p t), brn. rewrite Hget, decide_True, Hbn by done. unfold event_number, event_pid. cbn. unfold last_event_index.
      split_and!; [done..|lia|lia].
  - intros q u' k l i j. eapply (append_sorted n s s' p t _ top Hs Ht Hths eq_refl). lia.
  - intros i x. rewrite Hget. case_decide; [|by apply Hs]. intros [= <-]. by apply event_tidy_new.
  - rewrite Hf. apply Hs.
  - intros q u' Hu' H0. destruct (append_spawn s s' p t _ top Ht Hths eq_refl eq_refl q u' Hu') as (u & Hu & Hspu & Hh). rewrite Hspu in *.
    destruct (td_spawn _ _ Hs q u Hu H0) as [(x & Hx & Hm) Hlt]. pose proof (zget_Some _ _ _ Hx). split.
    + exists x. rewrite Hget, decide_False by lia. done.
    + intros i [Hi|[_ ->]]%Hh; [by apply Hlt|lia].
Qed.

(** The last event takes one more step of its thread. *)
Lemma grow_full n s e t sz : tidy n s -> zget (trace s) (Z.of_nat (length (trace s)) - 1) = Some e ->
  zget (threads s) (event_pid e) = Some t -> size_at (prefix s) (length (trace s) - 1) = Some sz ->
  event_number e + sz = Z.of_nat (length (event_indices t)) + 1 /\ 0 < sz.
Proof.
  intros Hs He Ht Hsz. set (top := Z.of_nat (length (trace s)) - 1) in *. destruct (td_numbered _ _ Hs) as [H1 H2 H3].
  destruct (H1 top e He) as (u & br & Hu & Hb & Hpos & Hk). assert (u = t) as -> by congruence.
  assert (Hb2 : b_size br = sz).
  { apply branch_size in Hb. replace (Z.to_nat top) with (length (trace s) - 1)%nat in Hb by lia. congruence. }
  subst sz. pose proof (Hk (event_number e + b_size br - 1) ltac:(lia)) as Hlast. pose proof (zget_Some _ _ _ Hlast).
  destruct (zget_lt (event_indices t) (Z.of_nat (length (event_indices t)) - 1)) as [l Hl]; [lia|].
  destruct (H2 _ _ _ _ Ht Hl) as (x & brx & Hx & Hpx & Hbx & Hnx). pose proof (zget_Some _ _ _ Hx).
  assert (top <= l) by (eapply (H3 _ t); [done|exact Hlast|exact Hl|lia]). assert (l = top) as -> by lia.
  assert (x = e) as -> by congruence. assert (brx = br) as -> by congruence. lia.
Qed.

Lemma tidy_grow n s s' e t sz : tidy n s -> zget (trace s) (Z.of_nat (length (trace s)) - 1) = Some e ->
  zget (threads s) (event_pid e) = Some t ->
  threads s' = <[Z.to_nat (event_pid e) := set_event_indices (event_indices t ++ [Z.of_nat (length (trace s)) - 1]) t]> (threads s) ->
  trace s' = trace s -> lock_fail_races s' = lock_fail_races s ->
  (forall i, 0 <= i < Z.of_nat (length (trace s)) - 1 -> keeps_size s s' i) ->
  size_at (prefix s) (length (trace s) - 1) = Some sz -> size_at (prefix s') (length (trace s) - 1) = Some (sz + 1) -> tidy n s'.
Proof.
  intros Hs He Ht Hths Hev Hf Hkeep Hsz Hsz'. destruct (grow_full n s e t sz Hs He Ht Hsz) as [Hfull Hpos0]. pose proof (zget_Some _ _ _ He).
  set (top := Z.of_nat (length (trace s)) - 1) in *. set (p := event_pid e) in *.
  pose proof (append_old s s' p t _ top Ht Hths eq_refl) as Hold. pose proof (append_index s s' p t _ top Ht Hths eq_refl) as Hidx.
  destruct (size_branch s' top (sz + 1)) as (brn & Hbrn & Hbn); [rewrite Hev; lia|by replace (Z.to_nat top) with (length (trace s) - 1)%nat by lia|].
  assert (Hth : zget (threads s') p = Some (set_event_indices (event_indices t ++ [top]) t)).
  { rewrite (append_thread s s' p t _ Ht Hths). by rewrite decide_True. }
  destruct (td_numbered _ _ Hs) as [H1 H2 H3].
  assert (Hbr : forall i br, 0 <= i <= top -> branch_at s i = Some br -> exists br', branch_at s' i = Some br' /\
    b_size br' = if decide (i = top) then b_size br + 1 else b_size br).
  { intros i br Hi Hb. case_decide as Hit; [|apply (keep_branch s); [apply Hkeep; lia|rewrite Hev; lia|done]].
    subst i. exists brn. split; [done|]. apply branch_size in Hb. replace (Z.to_nat top) with (length (trace s) - 1)%nat in Hb by lia. congruence. }
  split; [split| | |].
  - rewrite Hev. intros i x Hx. pose proof (zget_Some _ _ _ Hx). destruct (H1 i x Hx) as (u & br & Hu & Hb & Hpos & Hk).
    destruct (Hold _ _ Hu) as (u' & Hu' & Hkk). destruct (Hbr i br) as (br' & Hb' & Hbs); [lia|done|]. exists u', br'. rewrite Hbs.
    split_and!; [done|done|case_decide; lia|]. case_decide as Hi; [|by eauto]. subst i. intros k Hkr. assert (x = e) as -> by congruence.
    destruct (decide (k = event_number e + b_size br)) as [->|]; [|apply Hkk, Hk; lia]. fold p in Hu'. rewrite Hth in Hu'. injection Hu' as <-.
    apply index_snoc. right. split; [|done]. apply branch_size in Hb. replace (Z.to_nat top) with (length (trace s) - 1)%nat in Hb by lia.
    assert (b_size br = sz) by congruence. lia.
  - rewrite Hev. intros q u' k i Hu' Hk. destruct (Hidx q u' k i Hu' Hk) as [(u & Hu & Hku)|(-> & -> & ->)].
    + destruct (H2 q u k i Hu Hku) as (x & br & Hx & Hp & Hb & Hn). pose proof (zget_Some _ _ _ Hx).
      destruct (Hbr i br) as (br' & Hb' & Hbs); [lia|done|]. exists x, br'. rewrite Hbs. split_and!; [done..|lia|]. case_decide; lia.
    + exists e, brn. rewrite Hbn. destruct (H1 top e He) as (u & br & Hu & Hb & Hpos & _). split_and!; [done..|lia|lia].
  - intros q u' k l i j. eapply (append_sorted n s s' p t _ top Hs Ht Hths eq_refl). lia.
  - rewrite Hev. apply Hs.
  - rewrite Hf. apply Hs.
  - intros q u' Hu' H0. destruct (append_spawn s s' p t _ top Ht Hths eq_refl eq_refl q u' Hu') as (u & Hu & Hspu & Hh). rewrite Hspu in *.
    destruct (td_spawn _ _ Hs q u Hu H0) as [(x & Hx & Hm) Hlt]. pose proof (zget_Some _ _ _ Hx). split.
    + exists x. by rewrite Hev.
    + intros i [Hi|[Hnil ->]]%Hh; [by apply Hlt|]. rewrite Hnil in Hfull. cbn in Hfull.
      destruct (numbered_number s top e (td_numbered _ _ Hs) He). lia.
Qed.

(** The last event is merged into the one before it. *)
Lemma tidy_merge n s s' : retraced_merge s s' -> prefix_idx s + 1 = Z.of_nat (length (trace s)) -> tidy n s -> tidy n s'.
Proof.
  intros [_ (e & f & t & rest & He & Hf & Hp & Hmc & Ht & Hind & Hno & Hths) Hev Hidx Hfail _ Hsz (m & k & Hm & Hk & Hmk)] Htop Hs.
  change (events (prefix s)) with (trace s) in *. change (events (prefix s')) with (trace s') in *.
  pose proof (zget_Some _ _ _ He). pose proof (zget_Some _ _ _ Hf).
  set (s1 := set_threads (<[Z.to_nat (event_pid e) := set_event_indices rest t]> (threads s))
    (set_prefix (MkBuffer (wtree (prefix s)) (take (length (trace s) - 1) (trace s))) s)).
  assert (Hs1 : tidy n s1).
  { eapply (tidy_drop n s s1 e t (set_event_indices rest t) rest); done. }
  assert (Hlen1 : length (trace s1) = (length (trace s) - 1)%nat).
  { unfold trace at 1. cbn [s1 prefix set_threads set_prefix events]. rewrite length_take. lia. }
  assert (k = 1) as ->.
  { destruct (grow_full n s e t k Hs) as [Hfull Hk0]; [by replace (Z.of_nat (length (trace s)) - 1) with (prefix_idx s) by lia|done|
      by replace (length (trace s) - 1)%nat with (Z.to_nat (prefix_idx s)) by lia|].
    destruct (nb_event _ (td_numbered _ _ Hs) _ _ He) as (u & br & Hu & Hb & Hpos & Hpk). assert (u = t) as -> by (unfold event_pid in *; congruence).
    apply branch_size in Hb. assert (b_size br = k) as Hbk by congruence. rewrite Hbk in *. specialize (Hpk (event_number e) ltac:(lia)).
    rewrite Hind in Hpk. apply index_snoc in Hpk as [Hpk|[Hpk _]]; [by apply zget_elem in Hpk|]. rewrite Hind, length_app in Hfull. cbn in Hfull. lia. }
  assert (Hz1 : forall i, size_at (prefix s1) i = size_at (prefix s) i) by done.
  assert (Hpf : event_pid f = event_pid e) by (unfold event_pid; congruence).
  apply (tidy_grow n s1 s' f (set_event_indices rest t) m); rewrite ?Hlen1, ?Hpf.
  - done.
  - change (trace s1) with (take (length (trace s) - 1) (trace s)). unfold zget in Hf |- *. rewrite decide_True in Hf by lia.
    rewrite decide_True by lia. rewrite lookup_take_lt by lia. rewrite <-Hf. f_equal. lia.
  - cbn [s1 threads set_threads]. rewrite zget_insert by (by eapply zget_Some). by rewrite decide_True.
  - cbn [s1 threads set_threads]. rewrite list_insert_insert_eq, Hths. cbn [event_indices set_event_indices].
    replace (Z.of_nat (length (trace s) - 1) - 1) with (prefix_idx s - 1) by lia. done.
  - done.
  - done.
  - intros i Hi. unfold keeps_size. rewrite Hz1. apply Hsz. lia.
  - rewrite Hz1. by replace (length (trace s) - 1 - 1)%nat with (Z.to_nat (prefix_idx s) - 1)%nat by lia.
  - by replace (length (trace s) - 1 - 1)%nat with (Z.to_nat (prefix_idx s) - 1)%nat by lia.
Qed.

(** ** The trace throughout an execution *)

(** No failed lock is left behind by a merge. *)
Definition orderly (s : TSOTraceBuilder) : Prop := exists n, tidy n s /\ n <= Z.of_nat (length (trace s)) /\
  (n = Z.of_nat (length (trace s)) -> forall i, ~ mergeable s i).

Section run.
Context (conf : Configuration) (Hchecks : check_conflicts conf = false).

Lemma orderly_retraced s s' : idle conf s -> orderly s -> retraced s s' -> exists n, tidy n s' /\ n <= Z.of_nat (length (trace s')).
Proof.
  intros Hi (n & Hn & Hle & Hm) [Hr|Hr]; exists n.
  - split; [by eapply tidy_same|]. unfold trace in *. by rewrite (rt_events _ _ Hr).
  - pose proof (rm_mergeable _ _ Hr) as Hmg. destruct Hi as [Hs|(cps & aux & -> & _)].
    2:{ destruct Hmg as (_ & e & _ & _ & He & _). apply zget_Some in He. cbn in He. lia. }
    split; [eapply tidy_merge; [done|apply (se_top _ _ Hs)|done]|]. unfold trace in *. rewrite (rm_events _ _ Hr), length_take.
    assert (n <> Z.of_nat (length (events (prefix s)))) by (intros ->; by eapply Hm). lia.
Qed.

Lemma scheduled_tidy s s' p : idle conf s -> orderly s -> scheduled conf s s' p -> tidy (prefix_idx s') s'.
Proof.
  intros Hi Ho (Hae & _ & s1 & t & b & Hrt & Hr & Ht & Hb & ->). destruct (orderly_retraced s s1 Hi Ho Hrt) as (n & Hn & Hle).
  pose proof (rd_top _ Hr) as Htop. fold (trace s1) in Htop. cbn [prefix_idx pushed set_prefix set_threads set_prefix_idx].
  apply (tidy_weaken n); [lia|]. eapply (tidy_push n s1 _ p t); [done|done| | |done| |].
  - cbn [threads pushed set_prefix set_threads]. by rewrite Htop.
  - apply (pushed_events s1 p t b Hr Hb).
  - intros i Hi'. unfold keeps_size, size_at. cbn [prefix pushed set_prefix]. rewrite (pushed_siblings s1 p t b Hr Hb); [done|]. unfold trace in *. lia.
  - cbn [prefix pushed set_prefix]. destruct (ready_push s1 p t Hr) as (b' & Hb' & _ & _ & _ & Hnew & _). rewrite Hb in Hb'. injection Hb' as <-.
    unfold size_at, trace. rewrite Hnew. done.
Qed.

(** A refused thread's event is gone. *)
Lemma tidy_undone n s p s' : at_event conf s p -> tidy n s -> undone s p s' -> tidy n s'.
Proof.
  intros Hae Hn (b & t & rest & Hdel & Ht & Hind & ->). destruct (ae_event _ _ _ Hae) as (e & He & Hmc & _).
  pose proof (ae_settled _ _ _ Hae) as Hs. pose proof (se_top _ _ Hs) as Htop. fold (trace s) in Htop.
  destruct (ae_thread _ _ _ Hae) as (t2 & rest2 & Ht2 & _ & _ & Hind2 & Hlow & _). assert (t2 = t) as -> by congruence.
  assert (rest2 = rest) as -> by (rewrite Hind in Hind2; by apply app_inj_tail in Hind2 as [? _]; subst).
  pose proof (rn_event _ _ _ (ae_running _ _ _ Hae)) as [_ Hpid].
  assert (Hpe : event_pid e = p) by (unfold pid_of in Hpid; simpl in Hpid; rewrite zget_map, He in Hpid; by injection Hpid).
  pose proof (ax_branch _ (inv_ax _ _ (se_inv _ _ Hs))) as Hbi.
  destruct (delete_last_spec branch_eq (prefix s) branch_eq_refl Hbi) as (b1 & Hdel1 & _ & Hev1 & _).
  { unfold buf_len. fold (trace s). pose proof (zget_Some _ _ _ He). unfold trace. lia. }
  destruct (delete_last_siblings branch_eq _ _ Hdel Hbi branch_eq_refl) as (Hbelow & _). assert (b1 = b) as -> by congruence.
  eapply (tidy_drop n s _ e t (set_available false (set_event_indices rest t)) rest); try done; rewrite ?Hpe; try done.
  - intros Hin. specialize (Hlow _ Hin). lia.
  - intros i Hi. unfold keeps_size, size_at. cbn [prefix set_threads set_prefix_idx set_prefix]. rewrite Hbelow; [done|].
    unfold buf_len, trace in *. lia.
Qed.

Lemma tidy_fails n s rs : tidy n s -> (forall r, r ∈ rs -> r_kind r = LOCK_FAIL /\ 0 <= r_first r < n /\ r_second r = n) ->
  tidy n (set_lock_fail_races (lock_fail_races s ++ rs) s).
Proof.
  intros [H1 H2 H3 H4] Hrs. split; [apply (numbered_same s); try done; eauto|exact H2| |exact H4]. cbn [lock_fail_races set_lock_fail_races]. intros r [Hr|Hr]%elem_of_app; [by apply H3|].
  destruct (Hrs r Hr) as (? & ? & ->). split_and!; [done|lia..].
Qed.

Lemma orderly_next s : tidy (Z.of_nat (length (trace s)) - 1) s -> orderly s.
Proof. intros Hn. exists (Z.of_nat (length (trace s)) - 1). split_and!; [done|lia|lia]. Qed.
Lemma orderly_ready n s : tidy n s -> n <= Z.of_nat (length (trace s)) -> (forall i, ~ mergeable s i) -> orderly s.
Proof. intros ? ? ?. by exists n. Qed.

Lemma orderly_mark (v : bool) proc s u s' : (if v then mark_available proc (-1) else mark_unavailable proc (-1)) s = Some (u, s') -> orderly s -> orderly s'.
Proof.
  intros Hr (n & Hn & Hle & Hm).
  assert (exists p t, zget (threads s) p = Some t /\ s' = set_threads (<[Z.to_nat p := set_available v t]> (threads s)) s) as (p & t & Ht & ->).
  { destruct v; apply run_bind in Hr as (p & s1 & Hp & (t & Ht & ->)%run_thread_upd);
      (assert (s1 = s) as -> by (unfold ipid in Hp; run_inv Hp; done)); by exists p, t. }
  exists n. split_and!; [|done|done]. by eapply (tidy_put_thread n s p t).
Qed.

(** Every state an execution reaches. *)
Lemma reachable_orderly s : reachable conf s -> orderly s.
Proof.
  induction 1 as [s Hs|s a s' Hre IH Hst].
  - destruct new_initial as (cps & aux & Hnew & _). rewrite Hnew in Hs. injection Hs as <-. apply (orderly_ready 0); [|done|].
    + split; [split| | |]; cbn.
      * intros i e He. apply zget_Some in He. cbn in He. lia.
      * intros p t k i [[-> ->]|[-> ->]]%zget_two Hk; apply zget_Some in Hk; cbn in Hk; lia.
      * intros p t k l i j [[-> ->]|[-> ->]]%zget_two Hk; apply zget_Some in Hk; cbn in Hk; lia.
      * intros i e He. apply zget_Some in He. cbn in He. lia.
      * by intros r ?%not_elem_of_nil.
      * intros p t [[-> ->]|[-> ->]]%zget_two H0; cbn in H0; lia.
    + intros i (_ & e & _ & _ & He & _). apply zget_Some in He. cbn in He. lia.
  - pose proof (reachable_idle conf Hchecks s Hre) as Hi.
    inversion Hst as [c ch s0 s1 s2 Hroom Hsch Hpre Hob _ Hp|ch s1 s2 Hroom Hsch Haux Hpos Hr|ml ch s1 s2 Hroom Hsch Haux Hpos Hm Hl Hr
      |s1 Hroom Hsch|proc v s1 Hne H0 Hlt Hw Hr]; subst.
    + destruct (schedule_at_event _ Hchecks _ _ _ Hi Hroom Hsch) as (Hs1 & _). pose proof (scheduled_tidy _ _ _ Hi IH Hs1) as Htd.
      destruct Hs1 as (Hae & _). apply (prepared_always conf (stays_tidy (prefix_idx s0))) in Hpre as Htd1; [|apply tidy_perform].
      apply (prepared_at_event _ _ _ _ Hae) in Hpre as Hae1. pose proof (se_top _ _ (ae_settled _ _ _ Hae1)) as Htop.
      pose proof (keeps_perform conf c _ _ _ Hp) as Hk. apply orderly_next. unfold trace. rewrite (ks_len _ _ _ Hk).
      replace (Z.of_nat _ - 1) with (prefix_idx s1) by lia. apply (tidy_perform (prefix_idx s1) conf c s1 true s'); [done|].
      rewrite (prepared_idx conf _ _ _ Hae Hpre). by apply Htd1.
    + destruct (schedule_at_event _ Hchecks _ _ _ Hi Hroom Hsch) as (Hs1 & _ & Hev). pose proof (scheduled_tidy _ _ _ Hi IH Hs1) as Htd.
      destruct Hs1 as (Hae & _).
      assert (Hwp : wp refuse_schedule (fun _ s' => orderly s') s1); [|unfold wp in Hwp; by rewrite Hr in Hwp].
      eapply wp_refuse_schedule; [exact Hae|by apply Hev|done|]. intros s2 [Hs2 Hm2] Hi2 Hun.
      pose proof (se_top _ _ Hs2) as Htop2. apply (orderly_ready (prefix_idx s1)); [by eapply tidy_undone|unfold trace; lia|done].
    + destruct (schedule_at_event _ Hchecks _ _ _ Hi Hroom Hsch) as (Hs1 & _ & Hev). pose proof (scheduled_tidy _ _ _ Hi IH Hs1) as Htd.
      destruct Hs1 as (Hae & _).
      assert (Hwp : wp (lock_refused conf ml) (fun _ s' => orderly s') s1); [|unfold wp in Hwp; by rewrite Hr in Hwp].
      eapply wp_lock_refused; [exact Hae|by apply Hev|done|done|done|]. intros s2 rs [Hs2 Hm2] Hi2 Hrs [Hae1 Hun].
      pose proof (se_top _ _ Hs2) as Htop2. apply (orderly_ready (prefix_idx s1)); [|unfold trace; lia|done].
      eapply tidy_undone; [exact Hae1|by apply tidy_fails|done].
    + assert (Hwp : wp (schedule conf) (fun r s1 => r = None -> orderly s1) s); [|unfold wp in Hwp; rewrite Hsch in Hwp; by apply Hwp].
      apply wp_idle_schedule; [done|done|done|done|]. intros s2 _ Hrt Hm2 _ _.
      destruct (orderly_retraced s s2 Hi IH Hrt) as (n & Hn & Hle). by apply (orderly_ready n).
    + by eapply orderly_mark.
Qed.
End run.
