(* ===== verification/TSOLockOrder.v ===== *)
(** * TSOLockOrder: locks come before what releases them

    For every mutex the event that last locked it happens before the event that
    last accessed it; so the lock of every successful-lock race happens before
    its unlock, which [compute_vclocks] asserts. *)

From S2P Require Import Prelude StdMap VecSet CPid SymAddr ByteOps SymEv ReplayMem WakeupTree TSOState TSOOps.
From S2P Require Import TSOHandlers TSOSched TSOInv TSOMem TSOSync TSOKeeps TSOAbs TSORun TSOSafety TSOClocks TSOHb TSOTraceOk TSOTidy TSOTidyRun.

Local Open Scope Z_scope.

(** ** Traces that grow *)

(** The edges of [s] that lead to events below [n] are edges of [s']. *)
Definition includes_order (n : Z) (s s' : TSOTraceBuilder) : Prop := forall j i, i < n -> trace_edge s j i -> trace_edge s' j i.

(** Edges point backwards, so a path to an event below [n] stays below. *)
Lemma includes_path n s s' j i : includes_order n s s' -> (forall x y, trace_edge s x y -> x < y) -> i < n ->
  trace_order s j i -> trace_order s' j i.
Proof.
  intros Hinc Hback Hi H. revert Hi. pattern i. eapply rtc_ind_r; [done| |exact H]. intros y z _ Hyz IH Hz.
  eapply rtc_r; [|by apply Hinc]. apply IH. specialize (Hback _ _ Hyz). lia.
Qed.
Lemma includes_all s s' j i : (forall x y, trace_edge s x y -> trace_edge s' x y) -> trace_order s j i -> trace_order s' j i.
Proof. intros Hinc H. induction H as [|x y z Hxy _ IH]; [done|]. eapply rtc_l; [by apply Hinc|done]. Qed.

(** The edges and races of [e] are also in [e']. *)
Definition event_grows (e e' : Event) : Prop := iid e' = iid e /\ (forall j, j ∈ happens_after e -> j ∈ happens_after e') /\
  (forall r, r ∈ races e -> r ∈ races e').
Record grows (s s' : TSOTraceBuilder) : Prop := {
  gr_idx : prefix_idx s' = prefix_idx s;
  gr_event : forall i e, zget (trace s) i = Some e -> exists e', zget (trace s') i = Some e' /\ event_grows e e';
  gr_thread : forall p t, zget (threads s) p = Some t -> exists t', zget (threads s') p = Some t' /\
    event_indices t' = event_indices t /\ spawn_event t' = spawn_event t;
}.

Lemma event_grows_refl e : event_grows e e.
Proof. done. Qed.
#[export] Instance grows_reflexive : Reflexive grows.
Proof. intros s. split; eauto using event_grows_refl. Qed.
#[export] Instance grows_transitive : Transitive grows.
Proof.
  intros s1 s2 s3 [Hi1 He1 Ht1] [Hi2 He2 Ht2]. split; [congruence|..].
  - intros i e He. destruct (He1 i e He) as (e' & He' & G1 & G2 & G3). destruct (He2 i e' He') as (e'' & He'' & G4 & G5 & G6).
    exists e''. split; [done|]. split_and!; [congruence|auto..].
  - intros p t Ht. destruct (Ht1 p t Ht) as (t' & Ht' & G1 & G2). destruct (Ht2 p t' Ht') as (t'' & Ht'' & G3 & G4). exists t''.
    split_and!; [done|congruence..].
Qed.

Lemma grows_edge s s' x y : grows s s' -> trace_edge s x y -> trace_edge s' x y.
Proof.
  intros [_ He Ht] [[(ex & ey & Hx & Hy & Hor)|(p & t & Hp & Hh & Hsp & H0)]|(ey & r & Hy & Hr & Ho & ->)].
  - left. left. destruct (He _ _ Hx) as (ex' & Hx' & Gx & _). destruct (He _ _ Hy) as (ey' & Hy' & Gy & Gh & _). exists ex', ey'.
    split_and!; [done..|]. destruct Hor as [[Hlt Hpid]|Hin]; [left; split; [done|unfold event_pid in *; congruence]|right; by apply Gh].
  - left. right. destruct (Ht _ _ Hp) as (t' & Ht' & Hi & Hs). exists p, t'. rewrite Hi, Hs. done.
  - right. destruct (He _ _ Hy) as (ey' & Hy' & _ & _ & Gr). exists ey', r. split_and!; auto.
Qed.

(** ** The invariant *)

Record locks_ordered (s : TSOTraceBuilder) : Prop := {
  lo_mutex : forall a m, map_lookup (mutexes s) a = Some m -> 0 <= last_lock m ->
    last_lock m <= last_access m /\ trace_order s (last_lock m) (last_access m);
  lo_race : forall i e r, zget (trace s) i = Some e -> r ∈ races e -> r_kind r = LOCK_SUC -> trace_order s (r_first r) (r_third r);
}.
Definition keeps_order (s s' : TSOTraceBuilder) : Prop := grows s s' /\ (locks_ordered s -> locks_ordered s').
#[export] Instance keeps_order_reflexive : Reflexive keeps_order.
Proof. intros s. split; [done|]. intros H. exact H. Qed.
#[export] Instance keeps_order_transitive : Transitive keeps_order.
Proof. intros s1 s2 s3 [G1 H1] [G2 H2]. split; [by etrans|auto]. Qed.

(** Growth that adds neither locks nor successful-lock races. *)
Lemma keeps_order_grow s s' : grows s s' -> (forall a m, map_lookup (mutexes s') a = Some m -> map_lookup (mutexes s) a = Some m \/ last_lock m < 0) ->
  (forall i e' r, zget (trace s') i = Some e' -> r ∈ races e' -> r_kind r = LOCK_SUC -> exists e, zget (trace s) i = Some e /\ r ∈ races e) ->
  keeps_order s s'.
Proof.
  intros Hg Hm Hr. split; [done|]. intros [H1 H2]. split.
  - intros a m [Hold|?]%Hm Hl; [|lia]. destruct (H1 a m Hold Hl) as [Hle Ho]. split; [done|]. eapply includes_all; [|exact Ho].
    intros x y. by apply grows_edge.
  - intros i e' r He' Hin Hk. destruct (Hr i e' r He' Hin Hk) as (e & He & Hin'). eapply includes_all; [|by eapply H2].
    intros x y. by apply grows_edge.
Qed.

Lemma keeps_order_frame s s' : threads s' = threads s -> prefix s' = prefix s -> prefix_idx s' = prefix_idx s -> mutexes s' = mutexes s -> keeps_order s s'.
Proof.
  intros Ht Hp Hi Hm. apply keeps_order_grow.
  - split; unfold trace; rewrite ?Ht, ?Hp; eauto using event_grows_refl.
  - rewrite Hm. tauto.
  - unfold trace. rewrite Hp. eauto.
Qed.
Lemma keeps_order_event s i e e' : zget (events (prefix s)) i = Some e -> event_grows e e' ->
  (forall r, r ∈ races e' -> r_kind r = LOCK_SUC -> r ∈ races e) -> keeps_order s (put_event i e' s).
Proof.
  intros He Hg Hr.
  assert (Hz : forall j, zget (trace (put_event i e' s)) j = if decide (i = j) then Some e' else zget (trace s) j) by (intros; by eapply zget_put_event).
  apply keeps_order_grow.
  - split; [done| |by eauto]. intros j x Hx. rewrite Hz. case_decide as Hj; [|by eauto using event_grows_refl]. subst j.
    unfold trace in Hx. assert (x = e) as -> by congruence. by eauto.
  - tauto.
  - intros j x r. rewrite Hz. case_decide; [|by eauto]. subst j. intros [= <-] Hin Hk. exists e. split; [done|by apply Hr].
Qed.
Lemma keeps_order_thread s p t t' : zget (threads s) p = Some t -> event_indices t' = event_indices t -> spawn_event t' = spawn_event t ->
  keeps_order s (set_threads (<[Z.to_nat p := t']> (threads s)) s).
Proof.
  intros Ht Hi Hsp. apply keeps_order_grow; [|tauto|by eauto]. split; [done|by eauto using event_grows_refl|].
  intros q u Hu. cbn [threads set_threads]. rewrite zget_insert by (by eapply zget_Some). case_decide; [|by eauto]. subst q.
  assert (u = t) as -> by congruence. by eauto.
Qed.
Lemma keeps_order_mutex s xs : (forall a m, map_lookup xs a = Some m -> map_lookup (mutexes s) a = Some m \/ last_lock m < 0) ->
  keeps_order s (set_mutexes xs s).
Proof. intros H. apply keeps_order_grow; [|done|by eauto]. split; [done|by eauto using event_grows_refl|by eauto]. Qed.

Create HintDb order.
Ltac order_event := intros; eapply keeps_order_event; [eassumption|by split_and!|done].
Ltac keeps_order := always_walk ltac:(fun _ => first
  [ solve [auto 2 with order nocore]
  | apply always_modify; intros; by apply keeps_order_frame
  | apply always_thread_upd; intros; by eapply keeps_order_thread
  | apply always_pfx_upd; order_event | apply always_curev_upd; order_event ]).

(** ** The methods *)

Section methods.
Context (conf : Configuration).

(** Races of events other than successful locks are added at the end. *)
Lemma order_add_race s i e r : zget (events (prefix s)) i = Some e -> r_kind r <> LOCK_SUC -> keeps_order s (put_event i (set_races (races e ++ [r]) e) s).
Proof.
  intros He Hr. eapply keeps_order_event; [exact He| |].
  - split_and!; [done|done|]. cbn. set_solver.
  - cbn. intros x [Hx| ->%list_elem_of_singleton]%elem_of_app Hk; done.
Qed.
Ltac add_race H :=
  run_inv H; repeat match goal with Hc : assert_conflict _ _ _ _ = Some _ |- _ => apply run_assert_conflict in Hc as -> end;
  try (apply run_when in H as [[_ H]|[_ ->]]; [|done]).
Lemma order_add_noblock_race j : always keeps_order (add_noblock_race conf j).
Proof. intros s u s' H. unfold add_noblock_race in H. add_race H. apply run_curev_upd in H as (e' & He' & ->). by apply order_add_race. Qed.
Lemma order_add_observed_race j k : always keeps_order (add_observed_race conf j k).
Proof. intros s u s' H. unfold add_observed_race in H. add_race H. apply run_pfx_upd in H as (e' & He' & ->). by apply order_add_race. Qed.
Lemma order_add_happens_after i j : always keeps_order (add_happens_after i j).
Proof.
  intros s u s' H. unfold add_happens_after in H. add_race H. apply run_pfx_upd in H as (e' & He' & ->).
  eapply keeps_order_event; [exact He'| |done]. split_and!; [done| |done]. cbn. set_solver.
Qed.
Lemma order_nondet_race i a : always keeps_order (curev_upd (fun e => set_races (races e ++ [Race_Nondet i a]) e)).
Proof. intros s u s' (e & He & ->)%run_curev_upd. by apply order_add_race. Qed.
#[local] Hint Resolve order_add_noblock_race order_add_observed_race order_add_happens_after order_nondet_race : order.

(** An event that was seen comes before the current one. *)
Lemma noblock_order j s u s' : add_noblock_race conf j s = Some (u, s') -> 0 <= j < prefix_idx s /\ trace_edge s' j (prefix_idx s).
Proof.
  intros H. unfold add_noblock_race in H. run_inv H.
  repeat match goal with Hc : assert_conflict _ _ _ _ = Some _ |- _ => apply run_assert_conflict in Hc as -> end.
  split; [lia|]. right.
  match goal with Hx : zget (trace s) (prefix_idx s) = Some ?e |- _ => rename e into ev; rename Hx into He end.
  apply run_when in H as [[_ H]|[Hdup ->]].
  - apply run_curev_upd in H as (e & He' & ->). exists (set_races (races e ++ [Race_Nonblock j (prefix_idx s)]) e), (Race_Nonblock j (prefix_idx s)).
    split_and!; [|cbn; set_solver|done..]. rewrite (zget_put_event s (prefix_idx s) _ e) by done. by rewrite decide_True.
  - apply negb_false_iff in Hdup. destruct (vback (races ev)) as [prev|] eqn:Hv; [|done]. apply bool_decide_eq_true in Hdup as (Hk & Hf & _).
    exists ev, prev. split_and!; [done| |by split; rewrite Hk|unfold race_source; by rewrite Hk].
    apply vback_snoc_inv in Hv as (l & ->). set_solver.
Qed.
Lemma see_events_order l s u s' : see_events conf l s = Some (u, s') ->
  keeps_order s s' /\ forall j, j ∈ l -> 0 <= j -> j <= prefix_idx s /\ trace_order s' j (prefix_idx s).
Proof.
  unfold see_events, each. revert s u. induction l as [|x l IH]; intros s u H; cbn [loop] in H.
  { apply run_ret in H as [_ ->]. split; [reflexivity|by intros j Hj%not_elem_of_nil]. }
  apply run_bind in H as ([] & s1 & H1 & H). destruct (IH s1 _ H) as [Hs Hl].
  assert (Hs1 : keeps_order s s1 /\ (0 <= x -> x <= prefix_idx s /\ trace_order s1 x (prefix_idx s))).
  { apply run_bind in H1 as (idx & s2 & [= <- <-] & H1). case_decide; [apply run_ret in H1 as [_ ->]; split; [reflexivity|lia]|].
    case_decide; [apply run_ret in H1 as [_ ->]; split; [reflexivity|]; intros _; subst; split; [lia|apply rtc_refl]|].
    split; [by apply order_add_noblock_race in H1|]. intros _. apply noblock_order in H1 as [? ?]. split; [lia|by apply rtc_once]. }
  destruct Hs1 as [Hs1 Hx]. pose proof (gr_idx _ _ (proj1 Hs1)) as Hidx. split; [by etrans|].
  intros j [-> |Hj]%elem_of_cons H0; [|rewrite <-Hidx; by apply Hl]. destruct (Hx H0) as [? Ho]. split; [done|].
  eapply includes_all; [|exact Ho]. intros ? ?. by apply grows_edge, Hs.
Qed.

(** *** Mutexes *)

Lemma order_see_events l : always keeps_order (see_events conf l).
Proof. intros s u s' H. by apply see_events_order in H as [? _]. Qed.
Lemma order_wakeup ty b : always keeps_order (wakeup conf ty b).
Proof. keeps_order. Qed.
Lemma order_mutex_default a : always keeps_order (mutex_default conf a).
Proof.
  intros s u s' H. unfold mutex_default in H. run_inv H. apply run_when in H as [[Hn H]|[_ ->]]; [|reflexivity]. run_inv H.
  apply keeps_order_mutex. intros b m. rewrite map_lookup_insert. case_decide; [intros [= <-]; by right|by left].
Qed.
Lemma mutex_get_order a s x s' : mutex_get a s = Some (x, s') -> keeps_order s s' /\ map_lookup (mutexes s') a = Some x.
Proof.
  unfold mutex_get. intros H. run_inv H. cbn [mutexes set_mutexes]. unfold map_index.
  destruct (map_lookup (mutexes s) a) as [m|] eqn:E; cbn [fst snd]; (split; [apply keeps_order_mutex|]).
  - by left.
  - done.
  - intros b m. rewrite map_lookup_insert. case_decide; [intros [= <-]; by right|by left].
  - by rewrite map_lookup_insert_eq.
Qed.
Lemma list_set_elem l s v s' : list_set l s = Some (v, s') -> s' = s /\ forall x, x ∈ l -> x ∈ v.
Proof.
  intros [H ->]%run_lift. split; [done|]. destruct (of_range_loop_spec l [] sorted_nil) as (w & Hw & _ & Hel). unfold of_range in H.
  assert (w = v) as -> by congruence. intros x Hx. apply Hel. by right.
Qed.

(** The mutex is accessed by the current event, ... *)
Lemma put_accessed s1 s2 a x x' : map_lookup (mutexes s1) a = Some x -> keeps_order s1 s2 -> last_lock x' = last_lock x ->
  last_access x' = prefix_idx s2 -> (0 <= last_access x -> last_access x <= prefix_idx s2 /\ trace_order s2 (last_access x) (prefix_idx s2)) ->
  keeps_order s1 (set_mutexes (map_insert (mutexes s2) a x') s2).
Proof.
  intros Hx [Hg Hlo] Hl Ha Hseen. assert (Hg2 : grows s2 (set_mutexes (map_insert (mutexes s2) a x') s2)).
  { split; [done|by eauto using event_grows_refl|by eauto]. }
  split; [by etrans|]. intros H1. pose proof (Hlo H1) as H2. split; [|apply H2].
  intros b m. cbn [mutexes set_mutexes]. rewrite map_lookup_insert. case_decide; [|by apply H2]. intros [= <-] H0.
  rewrite Hl, Ha in *. destruct (lo_mutex _ H1 a x Hx H0) as [Hle Ho]. destruct Hseen as [Hle2 Ho2]; [lia|]. split; [lia|].
  change (trace_order s2 (last_lock x) (prefix_idx s2)). etrans; [|exact Ho2]. eapply includes_all; [|exact Ho]. intros ? ?. by apply grows_edge.
Qed.
(** ... or locked by it. *)
Lemma put_locked s a b : keeps_order s (set_mutexes (map_insert (mutexes s) a (MkMutex (prefix_idx s) (prefix_idx s) b)) s).
Proof.
  split; [split; [done|by eauto using event_grows_refl|by eauto]|]. intros H. split; [|apply H].
  intros c m. cbn [mutexes set_mutexes]. rewrite map_lookup_insert. case_decide; [|by apply H]. intros [= <-] _. split; [done|apply rtc_refl].
Qed.
Lemma order_lock_suc s a x u s' : map_lookup (mutexes s) a = Some x -> 0 <= last_lock x ->
  add_lock_suc_race (last_lock x) (last_access x) s = Some (u, s') -> keeps_order s s'.
Proof.
  intros Hx H0 H. unfold add_lock_suc_race in H. run_inv H. apply run_curev_upd in H as (e & He & ->).
  assert (Hg : grows s (put_event (prefix_idx s) (set_races (races e ++ [Race_LockSuc (last_lock x) (prefix_idx s) (last_access x)]) e) s)).
  { split; [done| |by eauto]. intros j y Hy. rewrite (zget_put_event s (prefix_idx s) _ e) by done. case_decide as Hj; [|by eauto using event_grows_refl].
    subst j. unfold trace in Hy. assert (y = e) as -> by congruence. eexists. split; [done|]. split_and!; [done|done|]. cbn. set_solver. }
  split; [done|]. intros Hlo. split.
  - intros b m Hb Hm. destruct (lo_mutex _ Hlo b m Hb Hm) as [? Ho]. split; [done|]. eapply includes_all; [|exact Ho]. intros ? ?. by apply grows_edge.
  - intros i y r. rewrite (zget_put_event s (prefix_idx s) _ e) by done. intros Hy Hr Hk.
    assert (trace_order s (r_first r) (r_third r)) as Ho; [|eapply includes_all; [|exact Ho]; intros ? ?; by apply grows_edge].
    case_decide; [|by eapply lo_race]. subst i. injection Hy as <-. cbn in Hr. apply elem_of_app in Hr as [Hr| ->%list_elem_of_singleton].
    + by eapply (lo_race _ Hlo (prefix_idx s) e).
    + cbn. by eapply lo_mutex.
Qed.
#[local] Hint Resolve order_see_events order_wakeup order_mutex_default : order.

Lemma order_sync_op k ml body : always keeps_order body -> always keeps_order (sync_op k ml body).
Proof. intros Hb. unfold sync_op. apply always_bind; [apply _|keeps_order|]. intros [b|[]]; [keeps_order|done]. Qed.

Lemma order_mutex_lock ml : always keeps_order (mutex_lock conf ml).
Proof.
  unfold mutex_lock. cbv zeta. apply order_sync_op. intros s b s' H. apply run_bind in H as (u1 & s1 & H1 & H). apply order_mutex_default in H1.
  apply run_bind in H as (u2 & s2 & H2 & H). apply order_wakeup in H2. apply run_bind in H as (x & s3 & H3 & H).
  apply mutex_get_order in H3 as [H3 Hx]. apply run_bind in H as (lfmc & s4 & [= <- <-] & H). apply run_bind in H as (u4 & s4 & H4 & H).
  assert (Hs4 : keeps_order s3 s4).
  { case_decide as Hl.
    - apply run_bind in H4 as (v & s5 & (-> & _)%list_set_elem & H4). by apply order_see_events in H4.
    - apply run_bind in H4 as (u5 & s5 & H5 & H4). apply order_lock_suc with (a := sas_addr ml) in H5; [|done|lia].
      apply run_bind in H4 as (v & s6 & (-> & _)%list_set_elem & H4). apply order_see_events in H4. by etrans. }
  run_inv H. unfold mutex_put in *. match goal with Hm : modify _ _ = _ |- _ => apply run_modify in Hm as -> end.
  etrans; [exact H1|]. etrans; [exact H2|]. etrans; [exact H3|]. etrans; [exact Hs4|]. apply put_locked.
Qed.

(** The mutex [x] that was found, its last access seen, the mutex put back. *)
Lemma access_order s s1 lfmc (v : list Z) a x x' u s' : map_lookup (mutexes s) a = Some x -> keeps_order s s1 ->
  of_range [last_access x; lfmc] = Some v -> see_events conf v s1 = Some (u, s') ->
  last_lock x' = last_lock x -> last_access x' = prefix_idx s' -> keeps_order s (set_mutexes (map_insert (mutexes s') a x') s').
Proof.
  intros Hx Hs Hv [Hs' Hseen]%see_events_order Hl Ha.
  assert (Hidx : prefix_idx s' = prefix_idx s1) by apply Hs'.
  eapply put_accessed; [exact Hx|by etrans|done|done|].
  intros H0. rewrite Hidx. apply Hseen; [|done]. eapply (list_set_elem _ s1 v s1); [unfold list_set, lift; by rewrite Hv|by left].
Qed.

Lemma order_assert_mutex a s u s' : assert_mutex a s = Some (u, s') -> s' = s.
Proof. intros H. unfold assert_mutex in H. run_inv H. done. Qed.

Lemma order_mutex_trylock ml : always keeps_order (mutex_trylock conf ml).
Proof.
  unfold mutex_trylock. cbv zeta. apply order_sync_op. intros s b s' H. apply run_bind in H as (u1 & s1 & H1 & H). apply order_mutex_default in H1.
  apply run_bind in H as (u2 & s2 & ->%order_assert_mutex & H). apply run_bind in H as (u3 & s3 & H3 & H). apply order_wakeup in H3.
  apply run_bind in H as (x & s4 & [H4 Hx]%mutex_get_order & H). apply run_bind in H as (lfmc & s5 & [= <- <-] & H).
  apply run_bind in H as (v & s5 & [Hv ->]%run_lift & H). apply run_bind in H as (u6 & s6 & H6 & H). run_inv H.
  unfold mutex_put in *. match goal with Hm : modify _ _ = _ |- _ => apply run_modify in Hm as -> end.
  etrans; [exact H1|]. etrans; [exact H3|]. etrans; [exact H4|]. destruct (locked x).
  - by eapply access_order; [exact Hx| |exact Hv|exact H6|..].
  - apply order_see_events in H6. etrans; [exact H6|]. apply put_locked.
Qed.

Lemma order_mutex_unlock ml : always keeps_order (mutex_unlock conf ml).
Proof.
  unfold mutex_unlock. cbv zeta. apply order_sync_op. intros s b s' H. apply run_bind in H as (u1 & s1 & H1 & H). apply order_mutex_default in H1.
  apply run_bind in H as (u2 & s2 & ->%order_assert_mutex & H). apply run_bind in H as (x & s3 & [H3 Hx]%mutex_get_order & H).
  apply run_bind in H as (u4 & s4 & H4 & H). apply order_wakeup in H4. apply run_bind in H as (u5 & s5 & [_ ->]%run_massert & H).
  apply run_bind in H as (lfmc & s5 & [= <- <-] & H).
  apply run_bind in H as (v & s5 & [Hv ->]%run_lift & H). apply run_bind in H as (u6 & s6 & H6 & H). run_inv H.
  unfold mutex_put in *. match goal with Hm : modify _ _ = _ |- _ => apply run_modify in Hm as -> end.
  etrans; [exact H1|]. etrans; [exact H3|]. by eapply access_order; [exact Hx|exact H4|exact Hv|exact H6|..].
Qed.

Lemma order_mutex_init ml : always keeps_order (mutex_init conf ml).
Proof.
  unfold mutex_init. cbv zeta. apply order_sync_op. intros s b s' H. apply run_bind in H as (x & s3 & [H3 Hx]%mutex_get_order & H).
  apply run_bind in H as (lfmc & s5 & [= <- <-] & H).
  apply run_bind in H as (v & s5 & [Hv ->]%run_lift & H). apply run_bind in H as (u6 & s6 & H6 & H). run_inv H.
  unfold mutex_put in *. match goal with Hm : modify _ _ = _ |- _ => apply run_modify in Hm as -> end.
  etrans; [exact H3|]. by eapply access_order; [exact Hx| |exact Hv|exact H6|..].
Qed.

Lemma order_mutex_destroy ml : always keeps_order (mutex_destroy conf ml).
Proof.
  unfold mutex_destroy. cbv zeta. apply order_sync_op. intros s b s' H. apply run_bind in H as (u1 & s1 & H1 & H). apply order_mutex_default in H1.
  apply run_bind in H as (u2 & s2 & ->%order_assert_mutex & H). apply run_bind in H as (x & s3 & [H3 Hx]%mutex_get_order & H).
  apply run_bind in H as (u4 & s4 & H4 & H). apply order_wakeup in H4.
  apply run_bind in H as (lfmc & s5 & [= <- <-] & H).
  apply run_bind in H as (v & s5 & [Hv ->]%run_lift & H). apply run_bind in H as (u6 & s6 & H6%order_see_events & H). run_inv H.
  etrans; [exact H1|]. etrans; [exact H3|]. etrans; [exact H4|]. etrans; [exact H6|]. apply keeps_order_mutex.
  intros c m. rewrite map_lookup_erase. case_decide; [done|by left].
Qed.
#[local] Hint Resolve order_mutex_lock order_mutex_trylock order_mutex_unlock order_mutex_init order_mutex_destroy : order.

Lemma order_mark_conflict : always keeps_order mark_conflict.
Proof. keeps_order. Qed.
Lemma order_record_symbolic ev : always keeps_order (record_symbolic ev).
Proof. keeps_order. Qed.
Lemma order_observe_memory ml m seen pairs upd : always keeps_order (observe_memory conf ml m seen pairs upd).
Proof. keeps_order. Qed.
Lemma order_see_event_pairs l : always keeps_order (see_event_pairs conf l).
Proof. keeps_order. Qed.
Lemma order_do_load ml : always keeps_order (do_load conf ml).
Proof. keeps_order. Qed.
Lemma order_do_atomic_store sd : always keeps_order (do_atomic_store conf sd).
Proof. keeps_order. Qed.
Lemma order_register_alternatives n : always keeps_order (register_alternatives n).
Proof. keeps_order. Qed.
#[local] Hint Resolve order_mark_conflict order_record_symbolic order_observe_memory order_see_event_pairs order_do_load
  order_do_atomic_store order_register_alternatives : order.

Lemma order_add_thread s t : keeps_order s (set_threads (threads s ++ [t]) s).
Proof.
  apply keeps_order_grow; [|tauto|by eauto]. split; [done|by eauto using event_grows_refl|]. intros p u Hu. exists u.
  split_and!; [|done..]. cbn [threads set_threads]. by apply zget_app_l.
Qed.
Lemma order_spawn : always keeps_order spawn.
Proof.
  unfold spawn. apply always_bind; [apply _|apply order_mark_conflict|]. intros _. apply always_bind; [apply _|keeps_order|]. intros n.
  unfold and_then. apply always_bind; [apply _|apply order_record_symbolic|]. intros []; [|keeps_order].
  intros s b s' H. unfold thread in H. run_inv H. match type of H with (let '(_, _) := ?c in _) _ = _ => destruct c as [child cps] end. run_inv H.
  match type of H with (let '(_, _) := ?c in _) _ = _ => destruct c as [aux cps'] end. run_inv H.
  etrans; [apply order_add_thread|]. etrans; [by apply (keeps_order_frame _ (set_CPS cps' (set_threads (threads s ++ [Thread_new child (prefix_idx s)]) s)))|].
  apply order_add_thread.
Qed.
#[local] Hint Resolve order_spawn : order.

Lemma order_perform c : always keeps_order (perform conf c).
Proof. destruct c; cbn [perform]; keeps_order. Qed.
End methods.

(** ** Scheduling *)

Lemma tidy_edge n s x y : tidy n s -> trace_edge s x y -> 0 <= x < y.
Proof.
  intros Hs [[(ej & ei & Hj & Hi & [[Hji _]|Hin])|(p & t & Ht & Hh & <- & H0)]|(ei & r & Hi & Hr & Ho & ->)].
  - apply zget_Some in Hj. lia.
  - by apply (et_edges _ _ (td_event _ _ Hs _ _ Hi)).
  - destruct (td_spawn _ _ Hs p t Ht H0) as [_ Hlt]. specialize (Hlt _ Hh). lia.
  - destruct (et_races _ _ (td_event _ _ Hs _ _ Hi) r Hr) as (_ & Hf & Hl). unfold race_source. case_decide; [by apply Hl|by apply Hf, Ho].
Qed.

(** Only events from [n] on, that no mutex and no old race mentions, change. *)
Lemma ordered_move b n s s' : tidy b s -> includes_order n s s' -> mutexes s' = mutexes s ->
  (forall a m, map_lookup (mutexes s) a = Some m -> last_access m < n) ->
  (forall i e' r, zget (trace s') i = Some e' -> r ∈ races e' -> exists e, zget (trace s) i = Some e /\ r ∈ races e /\ i <= n) ->
  locks_ordered s -> locks_ordered s'.
Proof.
  intros Hs Hinc Hm Hlt Hr [H1 H2]. assert (Hback : forall x y, trace_edge s x y -> x < y) by (intros x y Hxy; apply (tidy_edge b s) in Hxy; [lia|done]).
  split.
  - rewrite Hm. intros a m Ha Hl. destruct (H1 a m Ha Hl) as [? Ho]. split; [done|]. eapply includes_path; [done|done|by eapply Hlt|done].
  - intros i e' r He' Hin Hk. destruct (Hr i e' r He' Hin) as (e & He & Hin2 & Hi).
    destruct (et_races _ _ (td_event _ _ Hs _ _ He) r Hin2) as (_ & _ & Hl). eapply includes_path; [done|done| |by eapply H2].
    specialize (Hl Hk). lia.
Qed.

Lemma includes_shrink n s s' : (forall i, i < n -> zget (trace s') i = zget (trace s) i) ->
  (forall p t i, zget (threads s) p = Some t -> head (event_indices t) = Some i -> i < n ->
     exists t', zget (threads s') p = Some t' /\ spawn_event t' = spawn_event t /\ head (event_indices t') = Some i) ->
  (forall x y, trace_edge s x y -> x < y) -> includes_order n s s'.
Proof.
  intros He Ht Hback x y Hy Hxy. pose proof (Hback _ _ Hxy).
  destruct Hxy as [[(ex & ey & Hx & Hy' & Hor)|(p & t & Hp & Hh & Hsp & H0)]|(ey & r & Hy' & Hr & Ho & ->)].
  - left. left. exists ex, ey. change (events (prefix s')) with (trace s'). rewrite !He by lia. done.
  - left. right. destruct (Ht p t y Hp Hh Hy) as (t' & Ht' & Hs & Hh'). exists p, t'. rewrite Hs. done.
  - right. exists ey, r. change (events (prefix s')) with (trace s'). rewrite He by lia. done.
Qed.

Lemma ordered_same b s s' : tidy b s -> retraced_same s s' -> locks_ordered s -> locks_ordered s'.
Proof.
  intros Hb [Ht He Hi _ Hm _]. refine (proj2 (_ : keeps_order s s')). apply keeps_order_grow.
  - split; unfold trace; rewrite ?Ht, ?He; eauto using event_grows_refl.
  - rewrite Hm. tauto.
  - unfold trace. rewrite He. eauto.
Qed.

Section run.
Context (conf : Configuration) (Hchecks : check_conflicts conf = false).

Lemma below_top (l : list Event) i : zget (take (length l - 1) l) i = if decide (i < Z.of_nat (length l) - 1) then zget l i else None.
Proof.
  unfold zget. destruct (decide (0 <= i)), (decide (i < Z.of_nat (length l) - 1)); try done.
  - by rewrite lookup_take_lt by lia.
  - by rewrite lookup_take_ge by lia.
Qed.

(** The last event goes, and with it the last step of its thread. *)
Lemma ordered_shrink b s s' p t t' rest : tidy b s -> prefix_idx s + 1 = Z.of_nat (length (trace s)) ->
  (forall a m, map_lookup (mutexes s) a = Some m -> last_access m < prefix_idx s) ->
  zget (threads s) p = Some t -> threads s' = <[Z.to_nat p := t']> (threads s) -> spawn_event t' = spawn_event t ->
  event_indices t = rest ++ [prefix_idx s] -> (exists l, event_indices t' = rest ++ l) ->
  trace s' = take (length (trace s) - 1) (trace s) -> mutexes s' = mutexes s -> locks_ordered s -> locks_ordered s'.
Proof.
  intros Hs Htop Hmx Ht Hths Hsp Hind [l Hind'] Hev Hm. apply (ordered_move b (prefix_idx s)); [done| |done|done|].
  - apply includes_shrink.
    + intros i Hi. rewrite Hev, below_top, decide_True by lia. done.
    + intros q u i Hu Hh Hi. rewrite Hths, zget_insert by (by eapply zget_Some). case_decide; [|by exists u]. subst q.
      assert (u = t) as -> by congruence. exists t'. rewrite Hind in Hh. split_and!; [done..|]. rewrite Hind'. destruct rest; [|done].
      injection Hh as Hh. lia.
    + intros x y Hxy. apply (tidy_edge b s) in Hxy; [lia|done].
  - intros i e' r. rewrite Hev, below_top. case_decide; [|done]. intros He' Hr. exists e'. split_and!; [done..|lia].
Qed.

Lemma settled_mutex s a m : settled conf s -> map_lookup (mutexes s) a = Some m -> last_access m <= prefix_idx s.
Proof. intros Hs Hm. destruct (se_refs _ _ Hs) as (c & Hc & Hle & _). pose proof (rb_mutex _ _ Hc _ _ (map_lookup_elem _ _ _ Hm)). lia. Qed.

Lemma ordered_retraced b s s' : idle conf s -> tidy b s -> retraced s s' -> locks_ordered s -> locks_ordered s'.
Proof.
  intros Hi Hb [Hr|[Hmg (e & f & t & rest & He & Hf & Hp & Hmc & Ht & Hind & Hno & Hths) Hev Hidx Hfail Hm _ _]]; [by eapply ordered_same|].
  destruct Hi as [Hs|(cps & aux & -> & _)]; [|apply zget_Some in He; cbn in He; lia].
  apply (ordered_shrink b s s' (iid_pid (iid e)) t (set_event_indices (rest ++ [prefix_idx s - 1]) t) rest); try done.
  - apply (se_top _ _ Hs).
  - intros a m Ha. destruct (merged_refs conf s Hs (proj1 Hmg) (ex_intro _ e (conj He Hmc))) as (c & Hc & Hle & _).
    pose proof (rb_mutex _ _ Hc _ _ (map_lookup_elem _ _ _ Ha)). lia.
  - by eexists.
Qed.

Lemma ordered_pushed b s p t bf : tidy b s -> ready s -> zget (threads s) p = Some t ->
  buf_push branch_eq (prefix s) (Branch_new p) (new_event_of p t) = Some bf -> locks_ordered s -> locks_ordered (pushed s p t bf).
Proof.
  intros Hb Hr Ht Hbf. pose proof (rd_top _ Hr) as Htop. fold (trace s) in Htop.
  assert (Hev : forall i, zget (trace (pushed s p t bf)) i = if decide (i = prefix_idx s + 1) then Some (new_event_of p t) else zget (trace s) i).
  { intros i. by apply (pushed_event s p t bf Hr Hbf). }
  apply (ordered_move b (prefix_idx s + 1)); [done| |done| |].
  - apply includes_shrink.
    + intros i Hi. rewrite Hev, decide_False by lia. done.
    + intros q u i Hu Hh _. cbn [threads pushed set_prefix set_threads]. rewrite zget_insert by (by eapply zget_Some). case_decide; [|by exists u].
      subst q. assert (u = t) as -> by congruence. eexists. split_and!; [done..|]. cbn [event_indices set_event_indices]. by destruct (event_indices t).
    + intros x y Hxy. apply (tidy_edge b s) in Hxy; [lia|done].
  - intros a m Ha. destruct (rd_refs _ Hr) as (c & Hc & Hle & _). pose proof (rb_mutex _ _ Hc _ _ (map_lookup_elem _ _ _ Ha)). lia.
  - intros i e' r. rewrite Hev. case_decide; [intros [= <-]; cbn; by intros ?%not_elem_of_nil|]. intros He' Hin. exists e'.
    pose proof (zget_Some _ _ _ He'). split_and!; [done..|lia].
Qed.

Lemma ordered_scheduled s s' p : idle conf s -> orderly s -> locks_ordered s -> scheduled conf s s' p -> locks_ordered s'.
Proof.
  intros Hi Ho Hl (_ & _ & s1 & t & b & Hrt & Hr & Ht & Hb & ->). destruct (orderly_retraced conf s s1 Hi Ho Hrt) as (n & Hn & _).
  destruct Ho as (n0 & Hn0 & _). eapply ordered_pushed; [done..|]. by eapply ordered_retraced.
Qed.

Lemma ordered_undone n s p s' : at_event conf s p -> tidy n s -> undone s p s' -> locks_ordered s -> locks_ordered s'.
Proof.
  intros Hae Hn (b & t & rest & Hdel & Ht & Hind & ->). destruct (ae_event _ _ _ Hae) as (e & He & _).
  pose proof (ae_settled _ _ _ Hae) as Hs. pose proof (se_top _ _ Hs) as Htop. fold (trace s) in Htop.
  pose proof (ax_branch _ (inv_ax _ _ (se_inv _ _ Hs))) as Hbi.
  destruct (delete_last_spec branch_eq (prefix s) branch_eq_refl Hbi) as (b1 & Hdel1 & _ & Hev1 & _).
  { unfold buf_len. fold (trace s). pose proof (zget_Some _ _ _ He). unfold trace. lia. }
  assert (b1 = b) as -> by congruence.
  apply (ordered_shrink n s _ p t (set_available false (set_event_indices rest t)) rest); try done.
  - intros a m Ha. pose proof (rb_mutex _ _ (at_event_refs _ _ _ Hae) _ _ (map_lookup_elem _ _ _ Ha)). lia.
  - exists []. by rewrite app_nil_r.
Qed.

(** In every state an execution reaches. *)
Lemma reachable_locks s : reachable conf s -> locks_ordered s.
Proof.
  induction 1 as [s Hs|s a s' Hre IH Hst].
  - destruct new_initial as (cps & aux & Hnew & _). rewrite Hnew in Hs. injection Hs as <-. split; [done|].
    intros i e r He. apply zget_Some in He. cbn in He. lia.
  - pose proof (reachable_idle conf Hchecks s Hre) as Hi. pose proof (reachable_orderly conf Hchecks s Hre) as Ho.
    inversion Hst as [c ch s0 s1 s2 Hroom Hsch Hpre Hob _ Hp|ch s1 s2 Hroom Hsch Haux Hpos Hr|ml ch s1 s2 Hroom Hsch Haux Hpos Hm Hl Hr
      |s1 Hroom Hsch|proc v s1 Hne H0 Hlt Hw Hr]; subst.
    + destruct (schedule_at_event _ Hchecks _ _ _ Hi Hroom Hsch) as (Hs1 & _). pose proof (ordered_scheduled _ _ _ Hi Ho IH Hs1) as Hl.
      apply (prepared_always conf keeps_order) in Hpre as [_ Hpre]; [|apply order_perform].
      apply (order_perform conf c) in Hp as [_ Hp]. by apply Hp, Hpre.
    + destruct (schedule_at_event _ Hchecks _ _ _ Hi Hroom Hsch) as (Hs1 & _ & Hev). pose proof (ordered_scheduled _ _ _ Hi Ho IH Hs1) as Hl.
      pose proof (scheduled_tidy _ _ _ _ Hi Ho Hs1) as Htd. destruct Hs1 as (Hae & _).
      assert (Hwp : wp refuse_schedule (fun _ s' => locks_ordered s') s1); [|unfold wp in Hwp; by rewrite Hr in Hwp].
      eapply wp_refuse_schedule; [exact Hae|by apply Hev|done|]. intros s2 _ _ Hun. by eapply ordered_undone.
    + destruct (schedule_at_event _ Hchecks _ _ _ Hi Hroom Hsch) as (Hs1 & _ & Hev). pose proof (ordered_scheduled _ _ _ Hi Ho IH Hs1) as Hlo.
      pose proof (scheduled_tidy _ _ _ _ Hi Ho Hs1) as Htd. destruct Hs1 as (Hae & _).
      assert (Hwp : wp (lock_refused conf ml) (fun _ s' => locks_ordered s') s1); [|unfold wp in Hwp; by rewrite Hr in Hwp].
      eapply wp_lock_refused; [exact Hae|by apply Hev|done|done|done|]. intros s2 rs _ _ Hrs [Hae1 Hun].
      eapply ordered_undone; [exact Hae1|by apply tidy_fails|done|]. by eapply (keeps_order_frame s1).
    + assert (Hwp : wp (schedule conf) (fun r s1 => r = None -> locks_ordered s1) s); [|unfold wp in Hwp; rewrite Hsch in Hwp; by apply Hwp].
      destruct Ho as (n & Hn & _). apply wp_idle_schedule; [done|done|done|done|]. intros s2 _ Hrt _ _ _. by eapply ordered_retraced.
    + assert (Hk : keeps_order s s'); [|by apply Hk]. destruct v.
      * assert (Ha : always keeps_order (mark_available proc (-1))) by keeps_order. by eapply Ha.
      * assert (Ha : always keeps_order (mark_unavailable proc (-1))) by keeps_order. by eapply Ha.
Qed.
End run.
