(* ===== verification/TSOClockSpec.v ===== *)
(** * TSOClockSpec: the happens-before order of executions

    The clocks and races [compute_vclocks] leaves in the trace of an execution,
    and the edge it loses. *)

From S2P Require Import Prelude StdMap VecSet VClock CPid SymAddr ByteOps SymEv ReplayMem WakeupTree TSOState TSOOps.
From S2P Require Import TSOHandlers TSOSched TSOInv TSOMem TSOSync TSOKeeps TSOAbs TSORun TSOSafety TSOSpec TSOClocks TSOHb.
From S2P Require Import TSOVclocks TSOTraceOk TSOTidy TSOTidyRun TSOLockOrder.

Local Open Scope Z_scope.

(** A successful-lock race is the only race that orders its event, as it is
    unless the thread that locks must also be ordered after a full memory
    conflict. *)
Definition lone_locks (s : TSOTraceBuilder) : Prop := forall i e r, zget (trace s) i = Some e -> r ∈ races e -> r_kind r = LOCK_SUC ->
  forall r', r' ∈ races e -> orders r' -> r' = r.

Section spec.
Context (IsBigEndianHost : bool) (conf : Configuration) (Hchecks : check_conflicts conf = false).

Lemma initial_or_settled s : reachable conf s -> has_vclocks s = false /\ prefix_idx s + 1 = Z.of_nat (length (trace s)) /\
  Z.of_nat (length (trace s)) <= 2 ^ 31.
Proof.
  intros Hre. destruct (reachable_idle conf Hchecks s Hre) as [Hs|(cps & aux & -> & _)]; [|done].
  split_and!; [apply (se_flags _ _ Hs)|apply (se_top _ _ Hs)|]. pose proof (ci_small _ (inv_core _ _ (se_inv _ _ Hs))) as Hsm.
  simpl in Hsm. rewrite length_map in Hsm. unfold trace. lia.
Qed.

(** Executions leave traces that [compute_vclocks] can work on. *)
Lemma reachable_trace_ok s : reachable conf s -> lone_locks s -> trace_ok s.
Proof.
  intros Hre Hlone. destruct (initial_or_settled s Hre) as (Hv & Htop & Hsm). destruct (reachable_orderly conf Hchecks s Hre) as (n & Hn & Hle & _).
  pose proof (reachable_locks conf Hchecks s Hre) as Hlo. split; try done.
  - apply Hn.
  - intros i j e He Hj. by apply (et_edges _ _ (td_event _ _ Hn _ _ He)).
  - intros j i (p & t & Ht & Hh & <- & H0). destruct (td_spawn _ _ Hn p t Ht H0) as [_ Hlt]. by apply Hlt.
  - intros r Hr. destruct (td_fail _ _ Hn r Hr) as (? & ? & ?). split_and!; [done|lia|lia|lia].
  - intros i e r He Hr. destruct (et_races _ _ (td_event _ _ Hn _ _ He) r Hr) as (Hs & Hf & Hl). split_and!; [done|done|].
    intros Hk. split_and!; [by apply Hl|by apply Hl|by eapply lo_race|by apply (Hlone i e r)].
  - intros i e He. apply (et_await _ _ (td_event _ _ Hn _ _ He)).
Qed.

Lemma reachable_computed partition s : partition_spec partition -> reachable conf s -> lone_locks s ->
  exists s', compute_vclocks IsBigEndianHost conf partition s = Some (tt, s') /\ computed s s'.
Proof.
  intros Hpart Hre Hlone. pose proof (wp_compute_vclocks IsBigEndianHost conf partition Hpart s (reachable_trace_ok s Hre Hlone)) as Hwp.
  apply wp_total in Hwp as ([] & s' & Hrun & Hc). by exists s'.
Qed.

(** C10. On the trace of every execution in which a successful-lock race is
    the only race that orders its event ([lone_locks], without which the clock
    can miss an unlock: see [unlock_edge_order]), [compute_vclocks] succeeds (no
    assertion fails, no index is out of range), changes nothing but the clocks
    and races of the events, and the clocks decide the happens-before order:
    the clock of event [i] includes the identifier of event [j] exactly if a
    path of program order, spawn, join, store-buffer and race edges leads from
    [j] to [i]. *)
Theorem clocks_decide_order partition s : partition_spec partition -> reachable conf s -> lone_locks s ->
  exists s', compute_vclocks IsBigEndianHost conf partition s = Some (tt, s') /\ has_vclocks s' = true /\
    threads s' = threads s /\ prefix_idx s' = prefix_idx s /\ wtree (prefix s') = wtree (prefix s) /\ errors s' = errors s /\
    map iid (trace s') = map iid (trace s) /\
    forall i j ei ej, zget (trace s') i = Some ei -> zget (trace s) j = Some ej ->
      exists b, vc_includes (clock ei) (event_pid ej) (event_number ej) = Some b /\ (b = true <-> trace_order s j i).
Proof.
  intros Hpart Hre Hlone. destruct (reachable_computed partition s Hpart Hre Hlone) as (s' & Hrun & [H1 (H2 & H3 & H4 & H5) H6 H7 _]).
  exists s'. by split_and!.
Qed.

(** C11. On the trace of every execution in which a successful-lock race is
    the only race that orders its event ([lone_locks] again), the races
    [compute_vclocks] leaves at an event are the ones worth reversing: a sublist
    of those recorded, with all choices; none is ordered by a path without races,
    none by way of another race that is left; and every race that was dropped is
    ordered by the others. *)
Theorem races_minimal partition s : partition_spec partition -> reachable conf s -> lone_locks s ->
  exists s', compute_vclocks IsBigEndianHost conf partition s = Some (tt, s') /\
    forall i e e', zget (trace s) i = Some e -> zget (trace s') i = Some e' -> minimal s i (recorded s i e) (races e').
Proof.
  intros Hpart Hre Hlone. destruct (reachable_computed partition s Hpart Hre Hlone) as (s' & Hrun & Hc). exists s'. split; [done|apply Hc].
Qed.
End spec.

(** ** The order of races matters *)

(** [std::partition] keeps the order of neither part: one that keeps both, and
    one that turns the second round. *)
Definition stable_partition A (f : A -> bool) (l : list A) : list A * list A := List.partition f l.
Definition turning_partition A (f : A -> bool) (l : list A) : list A * list A := let r := List.partition f l in (r.1, reverse r.2).

Lemma stable_partition_spec : partition_spec stable_partition.
Proof.
  intros A f l. unfold stable_partition. induction l as [|x l [IH1 [IH2 IH3]]]; [cbn; split_and!; [done|by intros ? ?%not_elem_of_nil..]|].
  cbn [List.partition]. destruct (List.partition f l) as [a b]. cbn [fst snd] in *. destruct (f x) eqn:E; cbn [fst snd]; split_and!.
  - by rewrite <-IH1.
  - intros y [->|Hy]%elem_of_cons; [done|by apply IH2].
  - done.
  - by rewrite <-Permutation_middle, IH1.
  - done.
  - intros y [->|Hy]%elem_of_cons; [done|by apply IH3].
Qed.
Lemma turning_partition_spec : partition_spec turning_partition.
Proof.
  intros A f l. destruct (stable_partition_spec A f l) as (H1 & H2 & H3). unfold turning_partition, stable_partition in *. cbn [fst snd].
  split_and!; [by rewrite reverse_Permutation|done|]. intros x. rewrite elem_of_reverse. apply H3.
Qed.

(** Thread 0 locks; thread 1 has a full memory conflict; thread 0 unlocks and
    thread 2 locks (event 5, after the unlock, event 4). *)
Definition demo_relock : list action :=
  [Call Spawn; Call Spawn; Call (MutexLock demo_mutex); SetAvailable 0 false; Call FullMemoryConflict; SetAvailable 0 true;
   Call (MutexUnlock demo_mutex); SetAvailable 0 false; SetAvailable 1 false; Call (MutexLock demo_mutex)].
(** Does the clock of event [i] include event [j]? *)
Definition clock_includes_event (partition : forall A, (A -> bool) -> list A -> list A * list A) (l : list action) (i j : Z) : option bool :=
  r ← compute_vclocks false demo_conf partition (demo_run l);
  ei ← zget (trace r.2) i; ej ← zget (trace (demo_run l)) j; vc_includes (clock ei) (event_pid ej) (event_number ej).

Lemma first_race_edge s i r : (e ← zget (trace s) i; head (races e)) = Some r -> orders r -> race_edge (trace s) (race_source r) i.
Proof.
  destruct (zget (trace s) i) as [e|] eqn:E; [|done]. cbn. destruct (races e) as [|x l] eqn:El; [done|]. intros [= ->] Ho.
  exists e, r. split_and!; [done| |done..]. rewrite El. by left.
Qed.

(** C12. Where a lock is also ordered after a full memory conflict the clocks
    depend on the order in which [std::partition] leaves the races: the two
    races subsume each other, as the comparison asks of a successful-lock race
    only that its lock is ordered, not its unlock. If the full memory conflict
    comes first, the clock of the lock misses the unlock that enabled it. *)
Theorem unlock_edge_order : let s := demo_run demo_relock in
  reachable demo_conf s /\ trace_order s 4 5 /\
  partition_spec stable_partition /\ clock_includes_event stable_partition demo_relock 5 4 = Some true /\
  partition_spec turning_partition /\ clock_includes_event turning_partition demo_relock 5 4 = Some false.
Proof.
  intros s. split_and!; [by apply demo_reachable; vm_compute| |apply stable_partition_spec|by vm_compute|apply turning_partition_spec|by vm_compute].
  apply rtc_once. right. apply (first_race_edge s 5 (Race_LockSuc 2 5 4)); [by vm_compute|done].
Qed.

(** ** Witnesses *)

Definition lone_locksb (s : TSOTraceBuilder) : bool :=
  forallb (fun e => negb (existsb (fun r => bool_decide (r_kind r = LOCK_SUC)) (races e)) || bool_decide (length (races e) = 1%nat)) (trace s).
Lemma lone_locksb_sound s : lone_locksb s = true -> lone_locks s.
Proof.
  intros H i e r He Hr Hk r' Hr' _. unfold lone_locksb in H. rewrite forallb_forall in H.
  specialize (H e). rewrite <-list_elem_of_In in H. specialize (H (zget_elem _ _ _ He)). apply orb_true_iff in H as [H|H].
  - apply negb_true_iff in H. apply not_true_iff_false in H. destruct H. apply existsb_exists. exists r.
    split; [by apply list_elem_of_In|by apply bool_decide_eq_true].
  - apply bool_decide_eq_true in H. destruct (races e) as [|x [|]]; [done| |done]. set_solver.
Qed.

(** Two threads lock after each other; a store by one is read by the other. *)
Definition demo_two_locks : list action :=
  [Call Spawn; Call (MutexLock demo_mutex); Call (Store demo_write); Call (AtomicStore demo_write); Call (MutexUnlock demo_mutex); SetAvailable 0 false;
   Call (MutexLock demo_mutex); Call (Load demo_x)].
Definition demo_clocked : TSOTraceBuilder :=
  match compute_vclocks false demo_conf stable_partition (demo_run demo_two_locks) with Some (_, s) => s | None => demo_run demo_two_locks end.

Lemma clocks_decide_order_witness : let s := demo_run demo_two_locks in let s' := demo_clocked in
  map iid (trace s') = map iid (trace s) /\ forall i j ei ej, zget (trace s') i = Some ei -> zget (trace s) j = Some ej ->
    exists b, vc_includes (clock ei) (event_pid ej) (event_number ej) = Some b /\ (b = true <-> trace_order s j i).
Proof.
  destruct (clocks_decide_order false demo_conf eq_refl stable_partition (demo_run demo_two_locks)) as (s' & Hrun & _ & _ & _ & _ & _ & Hids & Hc).
  - apply stable_partition_spec.
  - by apply demo_reachable; vm_compute.
  - by apply lone_locksb_sound; vm_compute.
  - cbv zeta. assert (Hs : demo_clocked = s') by (unfold demo_clocked; by rewrite Hrun). rewrite Hs. by split.
Defined.

Lemma races_minimal_witness : let s := demo_run demo_two_locks in
  exists s', compute_vclocks false demo_conf stable_partition s = Some (tt, s') /\
    forall i e e', zget (trace s) i = Some e -> zget (trace s') i = Some e' -> minimal s i (recorded s i e) (races e').
Proof.
  apply (races_minimal false demo_conf eq_refl stable_partition (demo_run demo_two_locks)).
  - apply stable_partition_spec.
  - by apply demo_reachable; vm_compute.
  - by apply lone_locksb_sound; vm_compute.
Defined.
