(* ===== verification/TSOExplore.v ===== *)
(** * TSOExplore: from one execution to the next
      (the second half of [reset], src/src/TSOTraceBuilder.cpp, lines 323-384)

    When the races have been planned, [reset] goes back to the last event that
    has an unexplored sibling, gives up the subtree it has explored and enters
    the sibling. The theorem: what the next execution starts from. *)

From S2P Require Import Prelude StdMap VecSet CPid SymAddr ByteOps SymEv ReplayMem WakeupTree TSOState TSOOps.
From S2P Require Import TSOHandlers TSOSched TSOInv TSOKeeps TSORun TSOSafety TSOSpec.

Local Open Scope Z_scope.

(** ** The number of planned events *)

Section tree.
Context {Branch : Type}.

(** The nodes below the root. *)
Fixpoint planned (t : WakeupTree (Branch := Branch)) : nat :=
  match t with
  | WNode cs => (fix go cs := match cs with [] => 0%nat | (_, t) :: cs => S (planned t + go cs) end) cs
  end.
Definition planned_list (cs : list (Branch * WakeupTree (Branch := Branch))) : nat := planned (WNode cs).

Lemma planned_cons c cs : planned_list (c :: cs) = S (planned c.2 + planned_list cs).
Proof. by destruct c. Qed.
Lemma planned_insert cs k c t : cs !! k = Some c -> (planned_list (<[k := (c.1, t)]> cs) + planned c.2 = planned_list cs + planned t)%nat.
Proof.
  revert k. induction cs as [|d cs IH]; intros [|k] Hk; [done|done| |].
  - injection Hk as ->. change (<[0%nat := (c.1, t)]> (c :: cs)) with ((c.1, t) :: cs). rewrite !planned_cons. cbn [snd]. lia.
  - change (<[S k := (c.1, t)]> (d :: cs)) with (d :: <[k := (c.1, t)]> cs). rewrite !planned_cons. specialize (IH k Hk). lia.
Qed.
Lemma planned_set t r n u t' : wnode t r = Some n -> wnode_set t r u = Some t' -> (planned t' + planned n = planned t + planned u)%nat.
Proof.
  revert t t'. induction r as [|k r IH]; intros t t'; cbn [wnode wnode_set]; [intros [= ->] [= ->]; lia|].
  destruct (children t !! k) as [c|] eqn:E; cbn; [|done]. intros Hn. destruct (wnode_set c.2 r u) as [c'|] eqn:Ec; cbn; [|done]. intros [= <-].
  specialize (IH c.2 c' Hn Ec). pose proof (planned_insert _ _ _ c' E) as Hi. destruct t as [cs]. cbn [children] in *.
  unfold planned_list in *. lia.
Qed.
End tree.

(** ** Going back to a branching event *)

Abbreviation buffer := (Buffer (Branch := Branch) (Event := Event)).

(** The children at depth [i] on the path of the current execution. *)
Definition level (b : buffer) (i : nat) : option (list (Branch * WakeupTree (Branch := Branch))) :=
  n ← wnode (wtree b) (replicate i 0%nat); Some (children n).

Lemma level_siblings b i : siblings b i = map fst <$> level b i.
Proof. unfold siblings, level. by destruct (wnode _ _). Qed.

Lemma level_front b i : buf_inv b -> (i < buf_len b)%nat -> exists c cs, level b i = Some (c :: cs).
Proof. intros Hb Hi. destruct (wnode_front b i Hb Hi) as (n & c & cs & Hn & Hc & _). exists c, cs. unfold level. rewrite Hn. cbn. by rewrite Hc. Qed.

(** What is left of [b] when the events from [n] on have been explored. *)
Record gone_back (n : nat) (b b' : buffer) : Prop := {
  gb_inv : buf_inv b';
  gb_events : events b' = take n (events b);
  gb_below : forall i, (i < n)%nat -> siblings b' i = siblings b i;
  gb_level : (n < buf_len b)%nat -> exists c cs, level b n = Some (c :: cs) /\ level b' n = Some cs;
  gb_less : (planned (wtree b') + buf_len b <= planned (wtree b) + n)%nat;
}.

Lemma delete_last_back b : buf_inv b -> (0 < buf_len b)%nat -> exists b', delete_last branch_eq b = Some b' /\ gone_back (buf_len b - 1) b b' /\
  forall k, (k < buf_len b - 1)%nat -> forall c cs, level b k = Some (c :: cs) -> exists c', level b' k = Some (c' :: cs).
Proof.
  intros Hb Hl. destruct (delete_last_spec branch_eq b branch_eq_refl Hb Hl) as (b' & Hdel & Hb' & Hev & _ & n & c & cs & Hn & Hc & Hset).
  destruct (delete_last_siblings branch_eq b b' Hdel Hb branch_eq_refl) as (Hsib & n2 & c2 & cs2 & Hn2 & Hc2 & Hw).
  assert (n2 = n) as -> by congruence. rewrite Hc in Hc2. injection Hc2 as <- <-.
  exists b'. split; [done|]. split; [split; [done|done|done| |]|].
  - intros _. exists c, cs. unfold level. rewrite Hn, Hw. cbn. by rewrite Hc.
  - pose proof (planned_set _ _ _ _ _ Hn Hset) as Hp. destruct n as [cs0]. cbn [children] in Hc. subst cs0.
    change (planned (WNode (c :: cs))) with (planned_list (c :: cs)) in Hp. rewrite planned_cons in Hp. unfold planned_list in Hp. lia.
  - intros k Hk c1 cs1 Hlev. destruct (branch_above b (buf_len b - 1) (WNode cs) (wtree b') k) as (m & d & ds & d' & Hm & Hd & Hm'); [done|lia|lia|done|].
    unfold level in *. rewrite Hm in Hlev. cbn in Hlev. rewrite Hd in Hlev. injection Hlev as -> ->. rewrite Hm'. by exists (c1.1, d').
Qed.

Lemma delete_down_back n fuel b : buf_inv b -> (n <= buf_len b)%nat -> (buf_len b - n <= fuel)%nat ->
  exists b', delete_down fuel n b = Some b' /\ gone_back n b b'.
Proof.
  revert b. induction fuel as [|fuel IH]; intros b Hb Hn Hf; cbn [delete_down].
  - rewrite decide_False by lia. exists b. split; [done|]. split; [done| |done|lia|lia]. rewrite take_ge; [done|unfold buf_len in *; lia].
  - case_decide as Hlt.
    2:{ exists b. split; [done|]. split; [done| |done|lia|lia]. rewrite take_ge; [done|unfold buf_len in *; lia]. }
    destruct (delete_last_back b Hb) as (b1 & Hdel & [H1 H2 H3 H4 H5] & Hup); [lia|]. rewrite Hdel. cbn [mbind option_bind].
    assert (Hlen : buf_len b1 = (buf_len b - 1)%nat) by (unfold buf_len in *; rewrite H2, length_take; lia).
    destruct (IH b1) as (b' & Hrun & [G1 G2 G3 G4 G5]); [done|lia|lia|]. exists b'. split; [done|]. split.
    + done.
    + rewrite G2, H2, take_take. f_equal. lia.
    + intros i Hi. rewrite G3 by done. apply H3. lia.
    + intros _. destruct (level_front b n Hb Hlt) as (c & cs & Hlev). exists c, cs. split; [done|].
      destruct (decide (n = buf_len b1)) as [Heq|Hne].
      * destruct H4 as (c2 & cs2 & Hc2 & Hc2'); [lia|]. rewrite <-Hlen, <-Heq in *. rewrite Hlev in Hc2. injection Hc2 as <- <-.
        assert (b' = b1) as ->; [|done]. destruct fuel; cbn [delete_down] in Hrun; rewrite decide_False in Hrun by lia; by injection Hrun.
      * destruct (Hup n) with (c := c) (cs := cs) as (c' & Hc'); [lia|done|]. destruct G4 as (c3 & cs3 & Hc3 & Hc3'); [lia|].
        rewrite Hc' in Hc3. by injection Hc3 as <- <-.
    + lia.
Qed.

(** What is planned beyond the events of the current execution. *)
Definition pending (b : buffer) : nat := (planned (wtree b) - buf_len b)%nat.
Lemma planned_path t n m : wnode (Branch := Branch) t (replicate n 0%nat) = Some m -> (n + planned m <= planned t)%nat.
Proof.
  revert t. induction n as [|n IH]; intros t; cbn [replicate wnode]; [intros [= ->]; lia|]. destruct t as [cs]. cbn [children].
  destruct cs as [|c cs]; [done|]. change ((c :: cs) !! 0%nat) with (Some c). cbn [mbind option_bind]. intros H%IH.
  change (planned (WNode (c :: cs))) with (planned_list (c :: cs)). rewrite planned_cons. lia.
Qed.
Lemma pending_len (b : buffer) : buf_inv b -> (buf_len b <= planned (wtree b))%nat.
Proof. intros [n Hn]. apply planned_path in Hn. lia. Qed.

(** ** The last event with an unexplored sibling *)

Definition branches (b : buffer) (i : nat) : Prop := exists x y l, siblings b i = Some (x :: y :: l).

Lemma last_branching_spec n b : buf_inv b -> (n <= buf_len b)%nat ->
  (exists i, (i < n)%nat /\ last_branching n b = Some (Z.of_nat i) /\ branches b i /\ forall j, (i < j < n)%nat -> ~ branches b j) \/
  (last_branching n b = Some (-1) /\ forall j, (j < n)%nat -> ~ branches b j).
Proof.
  intros Hb. induction n as [|n IH]; intros Hn; cbn [last_branching]; [right; split; [done|lia]|].
  rewrite children_after_siblings by lia. destruct (level_front b n Hb) as (c & cs & Hlev); [lia|].
  assert (Hsib : siblings b n = Some (map fst (c :: cs))) by (rewrite level_siblings, Hlev; done). rewrite Hsib. cbn.
  rewrite length_map, Nat.sub_0_r. case_decide as Hz.
  - assert (Hno : ~ branches b n) by (intros (x & y & l & Hs); rewrite Hsib in Hs; by destruct cs).
    destruct (IH ltac:(lia)) as [(i & Hi & Hrun & Hbr & Hlast)|[Hrun Hlast]].
    + left. exists i. split_and!; [lia|done|done|]. intros j Hj. destruct (decide (j = n)) as [->|]; [done|apply Hlast; lia].
    + right. split; [done|]. intros j Hj. destruct (decide (j = n)) as [->|]; [done|apply Hlast; lia].
  - left. exists n. split_and!; [lia|done| |lia]. destruct cs as [|d cs]; [done|]. exists c.1, d.1, (map fst cs). done.
Qed.

Lemma next_index_total i b p : buf_inv b -> (i <= buf_len b)%nat -> exists k, next_index i b p = Some k.
Proof.
  intros Hb. induction i as [|i IH]; intros Hi; [by eexists|]. cbn [next_index]. unfold buf_get.
  destruct (lookup_lt_is_Some_2 (events b) i) as [e He]; [unfold buf_len in *; lia|]. rewrite He. cbn [mbind option_bind].
  case_decide; [|apply IH; lia]. destruct (buf_branch_front b i Hb) as (n & c & cs & _ & _ & Hbr & _); [lia|]. rewrite Hbr. cbn [mbind option_bind].
  case_decide; [apply IH; lia|by eexists].
Qed.

(** ** The next execution *)

(** The stack of events has its nodes, and sleep sets are sets. *)
Record explorable (s : TSOTraceBuilder) : Prop := {
  xp_buf : buf_inv (prefix s);
  xp_sleep : forall e, e ∈ events (prefix s) -> sorted (sleep e);
}.

(** The event [i] that [s] branched at is replaced by its sibling [x]: the
    thread that ran there goes to sleep, unless it runs again; everything else
    is as in a new trace builder that has events to replay. *)
Record restarted (s s' : TSOTraceBuilder) (i : nat) (x : Branch) : Prop := {
  rs_point : replay s' = true /\ replay_point s' = Z.of_nat i /\ prefix_idx s' = -1;
  rs_fresh : exists cps aux, threads s' = [Thread_new CPid_root (-1); set_available false (Thread_new aux (-1))] /\ CPS s' = cps /\
    cps_inv cps /\ cpids cps = [CPid_root; aux];
  rs_empty : mem s' = [] /\ mutexes s' = [] /\ cond_vars s' = [] /\ blocked_awaits s' = [] /\ last_full_memory_conflict s' = -1 /\
    dryrun s' = false /\ dry_sleepers s' = 0 /\ has_vclocks s' = false;
  rs_event : exists prev e, zget (events (prefix s)) (Z.of_nat i) = Some prev /\ events (prefix s') = take i (events (prefix s)) ++ [e] /\
    iid_pid (iid e) = b_pid x /\ sym e = b_sym x /\
    forall p, p ∈ sleep e <-> p ∈ sleep prev \/ (p = iid_pid (iid prev) /\ p <> b_pid x);
  rs_next : exists c d l, level (prefix s) i = Some (c :: d :: l) /\ d.1 = x /\ level (prefix s') i = Some (d :: l);
  rs_below : forall j, (j < i)%nat -> siblings (prefix s') j = siblings (prefix s) j;
  rs_less : (pending (prefix s') < pending (prefix s))%nat;
}.

Lemma first_child_level (b : buffer) c cs : level b (buf_len b) = Some (c :: cs) -> first_child b = Some c.1.
Proof.
  unfold level, first_child, parent_at, front_branch, ref_size. rewrite bool_decide_true by done. cbn [cassert mbind option_bind].
  destruct (wnode _ _) as [n|]; [|done]. cbn. intros [= ->]. done.
Qed.

Lemma wp_reset_execution s traces : explorable s ->
  wp (reset_execution traces) (fun more s' => explorable s' /\
    if more : bool then exists i x, (i < buf_len (prefix s))%nat /\ branches (prefix s) i /\
      (forall j, (i < j < buf_len (prefix s))%nat -> ~ branches (prefix s) j) /\ restarted s s' i x
    else s' = s /\ forall j, (j < buf_len (prefix s))%nat -> ~ branches (prefix s) j) s.
Proof.
  intros [Hb Hsl]. unfold reset_execution. wp_gets.
  destruct (last_branching_spec (buf_len (prefix s)) (prefix s) Hb ltac:(lia)) as [(i & Hi & Hrun & Hbr & Hlast)|[Hrun Hno]].
  2:{ apply wp_bind. eapply wp_lift; [exact Hrun|]. cbn. apply wp_ret. by split; [|split]. }
  apply wp_bind. eapply wp_lift; [exact Hrun|]. rewrite decide_False by lia. apply wp_bind, wp_modify.
  destruct (lookup_lt_is_Some_2 (events (prefix s)) i) as [prev Hprev]; [done|].
  assert (Hprev' : zget (events (prefix s)) (Z.of_nat i) = Some prev) by by rewrite zget_nat.
  apply wp_bind. eapply wp_pfx; [exact Hprev'|].
  destruct (delete_down_back i (buf_len (prefix s)) (prefix s) Hb) as (b1 & Hdel & Hgb); [lia|lia|]. rewrite Nat2Z.id.
  apply wp_bind. eapply wp_on_prefix; [exact Hdel|]. cbn [prefix set_prefix].
  assert (Hlen1 : buf_len b1 = i) by (unfold buf_len in *; rewrite (gb_events _ _ _ Hgb), length_take; lia).
  destruct (gb_level _ _ _ Hgb Hi) as (c & cs & Hlev & Hlev1). pose proof Hbr as (x0 & x & l & Hsib).
  rewrite level_siblings, Hlev in Hsib. destruct cs as [|d cs]; [done|]. injection Hsib as _ Hx _.
  assert (Hfc : first_child b1 = Some x) by (rewrite <-Hx; eapply first_child_level; rewrite Hlen1; exact Hlev1).
  apply wp_bind. eapply wp_of_prefix; [exact Hfc|]. destruct (next_index_total i b1 (b_pid x)) as (idx & Hidx); [apply Hgb|lia|].
  apply wp_bind. eapply wp_of_prefix; [exact Hidx|].
  assert (Hsp : sorted (sleep prev)) by (apply Hsl, list_elem_of_lookup; by exists i).
  assert (Hslp : forall Q : list Z -> TSOTraceBuilder -> Prop, (forall v s1, s1 = set_prefix b1 (set_replay_point (Z.of_nat i) s) -> sorted v ->
      (forall p, p ∈ v <-> p ∈ sleep prev \/ (p = iid_pid (iid prev) /\ p <> b_pid x)) -> Q v s1) ->
    wp (if decide (b_pid x <> iid_pid (iid prev)) then ins (sleep prev) (iid_pid (iid prev)) else mret (sleep prev)) Q
      (set_prefix b1 (set_replay_point (Z.of_nat i) s))).
  { intros Q HQ. case_decide as Hp.
    - apply wp_ins; [done|]. intros v Hv Hin. apply HQ; [done|done|]. intros p. rewrite Hin. split; [intros [->|]; [right; by split|by left]|].
      intros [?|[-> _]]; [by right|by left].
    - apply wp_ret, HQ; [done|done|]. intros p. split; [by left|]. intros [?|[-> Hne]]; [done|]. by destruct Hp. }
  apply wp_bind, Hslp. clear Hslp. intros v s1 -> Hv Hin.
  match goal with |- wp (_ ← on_prefix (fun b => enter_first_child b ?e); _) _ _ => set (ev := e) end.
  destruct (enter_first_child_spec b1 ev x (gb_inv _ _ _ Hgb) Hfc) as (b2 & Hent & Hb2 & Hev2 & Htree & _).
  apply wp_bind. eapply wp_on_prefix; [exact Hent|].
  destruct (cps_new_aux_spec cps_init CPid_root cps_init_inv) as (aux & cps & Hnew & _ & _ & _ & Hids & Hinv); [by left|done|].
  apply wp_bind. eapply wp_lift; [unfold initial_threads; by rewrite Hnew|]. apply wp_bind, wp_modify, wp_ret. cbn [fst snd].
  assert (Htake : take i (events (prefix s)) = events b1) by (by rewrite (gb_events _ _ _ Hgb)).
  split.
  - split; cbn [prefix set_prefix]; [done|]. rewrite Hev2, <-Htake. intros e [He| ->%list_elem_of_singleton]%elem_of_app; [|done].
    apply Hsl. apply list_elem_of_lookup in He as (k & [Hk _]%lookup_take_Some). apply list_elem_of_lookup. by exists k.
  - exists i, x. split; [done|]. split; [done|]. split; [done|].
    split; cbn [replay replay_point prefix_idx threads CPS mem mutexes cond_vars blocked_awaits last_full_memory_conflict dryrun dry_sleepers
      has_vclocks prefix set_prefix set_replay_point].
    + done.
    + exists cps, aux. rewrite Hids. done.
    + done.
    + exists prev, ev. rewrite Htake. done.
    + exists c, d, cs. split_and!; [done|done|]. unfold level in *. by rewrite Htree.
    + intros j Hj. unfold siblings. rewrite Htree. by apply (gb_below _ _ _ Hgb).
    + pose proof (gb_less _ _ _ Hgb) as Hless. pose proof (pending_len _ Hb2) as Hl2. unfold pending. unfold buf_len in *. rewrite Hev2, length_app, Htree in *.
      cbn in *. lia.
Qed.

(** ** What the operations on the buffer do to the plan *)

Lemma push_pending (b b' : buffer) x e : buf_inv b -> wnode (wtree b) (replicate (buf_len b) 0%nat) = Some (WNode []) ->
  buf_push branch_eq b x e = Some b' -> buf_inv b' /\ pending b' = pending b.
Proof.
  intros Hb Hleaf Hp. destruct (buf_push_spec branch_eq b x e branch_eq_refl Hb Hleaf) as (b2 & Hp2 & Hb2 & Hev & _).
  rewrite Hp in Hp2. injection Hp2 as <-. split; [done|]. unfold buf_push, parent_at in Hp. rewrite bool_decide_true in Hp by done.
  destruct (ref_put_child_spec branch_eq _ _ _ x Hleaf eq_refl) as (t' & Hput & Hset & _).
  cbn [cassert mbind option_bind] in Hp. unfold ref_size in Hp. rewrite Hleaf in Hp. cbn [mbind option_bind children length cassert bool_decide] in Hp.
  rewrite Hput in Hp. cbn in Hp. injection Hp as <-. pose proof (planned_set _ _ _ _ _ Hleaf Hset) as Hpl. cbn in Hpl.
  unfold pending, buf_len in *. cbn [wtree events]. rewrite length_app. cbn. lia.
Qed.
Lemma delete_pending (b b' : buffer) : buf_inv b -> (0 < buf_len b)%nat -> delete_last branch_eq b = Some b' -> buf_inv b' /\ (pending b' <= pending b)%nat.
Proof.
  intros Hb Hl Hd. destruct (delete_last_back b Hb Hl) as (b2 & Hd2 & Hgb & _). rewrite Hd in Hd2. injection Hd2 as <-.
  split; [apply Hgb|]. pose proof (gb_less _ _ _ Hgb) as Hless. pose proof (gb_events _ _ _ Hgb) as Hev.
  unfold pending, buf_len in *. rewrite Hev, length_take. lia.
Qed.
Lemma enter_pending (b b' : buffer) e x : buf_inv b -> first_child b = Some x -> enter_first_child b e = Some b' ->
  buf_inv b' /\ S (pending b') = pending b.
Proof.
  intros Hb Hx He. destruct (enter_first_child_spec b e x Hb Hx) as (b2 & He2 & Hb2 & Hev & Ht & _). rewrite He in He2. injection He2 as <-.
  split; [done|]. pose proof (pending_len _ Hb2) as Hl. unfold pending, buf_len in *. rewrite Hev, length_app, Ht in *. cbn in *. lia.
Qed.
Lemma put_child_pending (b b' : buffer) r r' x : buf_inv b -> put_child_at branch_eq b r x = Some (b', r') -> pending b' = S (pending b).
Proof.
  intros Hb Hp. unfold put_child_at, ref_put_child in Hp. destruct (wnode (wtree b) r) as [n|] eqn:Hn; [|done]. cbn [mbind option_bind] in Hp.
  destruct (existsb _ _); [done|]. cbn [negb cassert mbind option_bind] in Hp.
  destruct (wnode_set (wtree b) r _) as [t'|] eqn:Hset; [|done]. cbn in Hp. injection Hp as <- _.
  pose proof (planned_set _ _ _ _ _ Hn Hset) as Hpl. pose proof (pending_len _ Hb) as Hl.
  assert (Happ : forall cs : list (Branch * WakeupTree (Branch := Branch)), planned_list (cs ++ [(x, WNode [])]) = S (planned_list cs)).
  { induction cs as [|c cs IH]; [done|]. cbn [app]. rewrite !planned_cons, IH. lia. }
  destruct n as [cs]. cbn [children] in Hpl. unfold planned_list in Happ. rewrite Happ in Hpl. unfold pending, buf_len in *. cbn [wtree events]. lia.
Qed.

(** Recording and undoing events never adds to what is planned beyond the
    current execution: a new event is pushed onto a leaf, events are taken
    back, the next planned event is entered; only the detection of a race plans
    something, one child at a time. *)
Theorem plan_changes (b b' : buffer) x e r r' : buf_inv b ->
  (wnode (wtree b) (replicate (buf_len b) 0%nat) = Some (WNode []) -> buf_push branch_eq b x e = Some b' -> buf_inv b' /\ pending b' = pending b) /\
  ((0 < buf_len b)%nat -> delete_last branch_eq b = Some b' -> buf_inv b' /\ (pending b' <= pending b)%nat) /\
  (first_child b = Some x -> enter_first_child b e = Some b' -> buf_inv b' /\ S (pending b') = pending b) /\
  (put_child_at branch_eq b r x = Some (b', r') -> pending b' = S (pending b)).
Proof.
  intros Hb. split_and!; intros.
  - by apply (push_pending b b' x e).
  - by apply delete_pending.
  - by apply (enter_pending b b' e x).
  - by apply (put_child_pending b b' r r' x).
Qed.

(** C15. The next execution: [reset], once it has planned the reversal of races,
    succeeds. If no event has an unexplored sibling it reports that the
    exploration is over and changes nothing. Otherwise it goes back to the last
    event that has one: the events before it stay, the subtree that was explored
    is given up, the sibling is entered with the process that ran there put to
    sleep, and everything else is as in a new trace builder with the remaining
    prefix to replay. *)
Theorem reset_enters_next s traces : explorable s ->
  (reset_execution traces s = Some (false, s) /\ forall j, (j < buf_len (prefix s))%nat -> ~ branches (prefix s) j) \/
  (exists s' i x, reset_execution traces s = Some (true, s') /\ explorable s' /\ (i < buf_len (prefix s))%nat /\ branches (prefix s) i /\
    (forall j, (i < j < buf_len (prefix s))%nat -> ~ branches (prefix s) j) /\ restarted s s' i x).
Proof.
  intros Hx. pose proof (wp_reset_execution s traces Hx) as Hwp. apply wp_total in Hwp as ([] & s' & Hrun & Hx' & Hr).
  - right. destruct Hr as (i & x & ? & ? & ? & ?). exists s', i, x. by split_and!.
  - left. by destruct Hr as [-> Hno].
Qed.

(** ** Witnesses *)

(** Two threads, and the second one planned as an alternative to the last event. *)
Definition demo_planned : TSOTraceBuilder :=
  let s := demo_run [Call Spawn; Call (MutexLock demo_mutex)] in
  match put_child_at branch_eq (prefix s) [0%nat] (Branch_new 2) with Some r => set_prefix r.1 s | None => s end.
Lemma demo_planned_explorable : explorable demo_planned.
Proof.
  split; [by eexists; vm_compute|]. assert (forallb (fun e => bool_decide (sleep e = [])) (events (prefix demo_planned)) = true) as Hs by by vm_compute.
  intros e He%list_elem_of_In. rewrite forallb_forall in Hs. apply Hs, bool_decide_eq_true in He. rewrite He. apply sorted_nil.
Qed.

Lemma reset_enters_next_witness :
  (reset_execution 0 demo_planned = Some (false, demo_planned) /\ forall j, (j < buf_len (prefix demo_planned))%nat -> ~ branches (prefix demo_planned) j) \/
  (exists s' i x, reset_execution 0 demo_planned = Some (true, s') /\ explorable s' /\ (i < buf_len (prefix demo_planned))%nat /\
    branches (prefix demo_planned) i /\ (forall j, (i < j < buf_len (prefix demo_planned))%nat -> ~ branches (prefix demo_planned) j) /\
    restarted demo_planned s' i x).
Proof. apply (reset_enters_next demo_planned 0), demo_planned_explorable. Defined.

Lemma plan_changes_witness : let b := prefix demo_planned in exists b' r',
  put_child_at branch_eq b [0%nat] (Branch_new 4) = Some (b', r') /\ pending b' = S (pending b).
Proof.
  intros b. destruct (put_child_at branch_eq b [0%nat] (Branch_new 4)) as [[b' r']|] eqn:E; [|by vm_compute in E].
  exists b', r'. split; [done|]. by apply (plan_changes b b' (Branch_new 4) (Event_new iid_null []) [0%nat] r'); [apply demo_planned_explorable|].
Defined.
