(* ===== verification/TSORounds.v ===== *)
(** * TSORounds: plans are exhausted

    The exploration as a sequence of rounds: an execution, which is any sequence
    of calls of the trace builder's methods, and [reset], which plans the
    reversal of its races and enters the next planned execution. No method of an
    execution adds to the plan, race detection only adds to it, and [reset] uses
    up one planned event. *)

From S2P Require Import Prelude StdMap VecSet VClock CPid SymAddr ByteOps SymEv ReplayMem WakeupTree TSOState TSOOps.
From S2P Require Import TSOHandlers TSOSched TSOClocks TSORaces TSOInv TSOKeeps TSORun TSOSafety TSOSpec TSOExplore.

Local Open Scope Z_scope.

(** ** The methods of an execution *)

Inductive method :=
  | Schedule
  | Perform (c : call)
  | XchgAwait (sd : SymDataRef) (cond : AwaitCond)
  | XchgAwaitFail (sd : SymDataRef) (cond : AwaitCond)
  | LoadAwait (ml : SymAddrSize) (cond : AwaitCond)
  | LoadAwaitFail (ml : SymAddrSize) (cond : AwaitCond)
  | RefuseSchedule
  | MutexLockFail (ml : SymAddrSize)
  | MarkAvailable (proc aux : Z)
  | MarkUnavailable (proc aux : Z)
  | CancelReplay
  | Metadata (md : MDNode)
  | CheckForCycles.

Section rounds.
Context (IsBigEndianHost : bool) (conf : Configuration) (partition : forall A, (A -> bool) -> list A -> list A * list A).
Context (estimate : Buffer (Branch := Branch) (Event := Event) -> Z -> Z).

Definition call_method (m : method) : M unit :=
  match m with
  | Schedule => _ ← schedule conf; mret tt
  | Perform c => _ ← perform conf c; mret tt
  | XchgAwait sd cond => _ ← xchg_await IsBigEndianHost conf sd cond; mret tt
  | XchgAwaitFail sd cond => _ ← xchg_await_fail conf sd cond; mret tt
  | LoadAwait ml cond => _ ← load_await conf ml cond; mret tt
  | LoadAwaitFail ml cond => _ ← load_await_fail conf ml cond; mret tt
  | RefuseSchedule => refuse_schedule
  | MutexLockFail ml => _ ← mutex_lock_fail conf ml; mret tt
  | MarkAvailable proc aux => mark_available proc aux
  | MarkUnavailable proc aux => mark_unavailable proc aux
  | CancelReplay => cancel_replay
  | Metadata md => metadata md
  | CheckForCycles => _ ← check_for_cycles IsBigEndianHost conf partition; mret tt
  end.

(** Any calls, in any order, that succeed. *)
Definition called (s s' : TSOTraceBuilder) : Prop := exists m, call_method m s = Some (tt, s').

(** ** Methods that leave the plan alone *)

Definition same_plan (s s' : TSOTraceBuilder) : Prop :=
  wtree (prefix s') = wtree (prefix s) /\ sleep <$> events (prefix s') = sleep <$> events (prefix s).
#[local] Instance same_plan_reflexive : Reflexive same_plan.
Proof. by split. Qed.
#[local] Instance same_plan_transitive : Transitive same_plan.
Proof. intros s1 s2 s3 [H1 H2] [H3 H4]. split; congruence. Qed.

Lemma same_plan_event s i e e' : zget (events (prefix s)) i = Some e -> sleep e' = sleep e -> same_plan s (put_event i e' s).
Proof.
  intros He Hs. split; [done|]. cbn [put_event prefix set_prefix events]. rewrite list_fmap_insert, Hs.
  apply list_insert_id. rewrite list_lookup_fmap. unfold zget in He. case_decide; [|done]. by rewrite He.
Qed.

Create HintDb plan.
Ltac same_plan := always_walk ltac:(fun _ => first
  [ solve [auto 1 with plan nocore]
  | apply always_modify; intros; by split
  | apply always_thread_upd; intros; by split
  | apply always_pfx_upd; intros; by eapply same_plan_event
  | apply always_curev_upd; intros; by eapply same_plan_event ]).

Lemma same_record_symbolic ev : always same_plan (record_symbolic ev).
Proof. same_plan. Qed.
Lemma same_see_events l : always same_plan (see_events conf l).
Proof. same_plan. Qed.
Lemma same_see_event_pairs l : always same_plan (see_event_pairs conf l).
Proof. same_plan. Qed.
Lemma same_wakeup ty b : always same_plan (wakeup conf ty b).
Proof. same_plan. Qed.
Lemma same_observe_memory ml m seen pairs upd : always same_plan (observe_memory conf ml m seen pairs upd).
Proof. same_plan. Qed.
#[local] Hint Resolve same_record_symbolic same_see_events same_see_event_pairs same_wakeup same_observe_memory : plan.
Lemma same_do_load ml : always same_plan (do_load conf ml).
Proof. same_plan. Qed.
Lemma same_do_atomic_store sd : always same_plan (do_atomic_store conf sd).
Proof. same_plan. Qed.
Lemma same_mutex_lock ml : always same_plan (mutex_lock conf ml).
Proof. same_plan. Qed.
#[local] Hint Resolve same_do_load same_do_atomic_store same_mutex_lock : plan.
Lemma same_perform c : always same_plan (perform conf c).
Proof. destruct c; cbn [perform]; same_plan. Qed.

Lemma same_partitionM {A} (p : A -> M bool) l : (forall x, always same_plan (p x)) -> always same_plan (partitionM partition p l).
Proof. intros Hp. unfold partitionM. apply always_bind; [apply _| |intros; same_plan]. apply always_loop; [apply _..|]. intros. apply always_bind; [apply _|apply Hp|]. intros. same_plan. Qed.
Lemma same_not_excluded exclude e : always same_plan (not_excluded exclude e).
Proof. induction exclude as [|x l IH]; cbn [not_excluded]; same_plan. Qed.
#[local] Hint Resolve same_not_excluded : plan.
Lemma same_try_subsequences i j id e ml cond above us : forall include exclude,
  always same_plan (try_subsequences IsBigEndianHost i j id e ml cond above us include exclude).
Proof.
  induction us as [|ke us IH]; intros include exclude; cbn [try_subsequences]; [same_plan|].
  repeat (apply always_bind; [apply _|same_plan; apply IH|]; intros []; try apply IH); same_plan; apply IH.
Qed.
#[local] Hint Resolve same_partitionM same_try_subsequences : plan.
Lemma same_do_await_loop n j id e ml cond above : forall can_stop us races,
  always same_plan (do_await_loop IsBigEndianHost conf n j id e ml cond above can_stop us races).
Proof.
  induction n as [|n IH]; intros can_stop us races; cbn [do_await_loop]; [same_plan|].
  always_walk ltac:(fun _ => first [solve [auto 1 with plan nocore] | apply IH | apply always_modify; intros; by split]).
Qed.
#[local] Hint Resolve same_do_await_loop : plan.
Lemma same_race_unordered i r : always same_plan (race_unordered i r).
Proof. same_plan. Qed.
Lemma same_join_clock i j : always same_plan (join_clock i j).
Proof. same_plan. Qed.
#[local] Hint Resolve same_race_unordered same_join_clock : plan.
Lemma same_drop_ordered fuel i : forall pairs, always same_plan (drop_ordered partition fuel i pairs).
Proof.
  induction fuel as [|fuel IH]; intros pairs; cbn [drop_ordered]; [same_plan|].
  apply always_bind; [apply _|apply same_partitionM; intros; apply same_race_unordered|]. intros r.
  apply always_bind; [apply _|same_plan|]. intros _. case_match; [apply IH|same_plan].
Qed.
#[local] Hint Resolve same_drop_ordered : plan.
Lemma same_event_vclock i : always same_plan (event_vclock IsBigEndianHost conf partition i).
Proof. same_plan. Qed.
#[local] Hint Resolve same_event_vclock : plan.
Lemma same_compute_vclocks : always same_plan (compute_vclocks IsBigEndianHost conf partition).
Proof. same_plan. Qed.
#[local] Hint Resolve same_compute_vclocks : plan.
Lemma same_check_for_cycles : always same_plan (check_for_cycles IsBigEndianHost conf partition).
Proof. same_plan. Qed.
Lemma same_awaits sd ml cond : always same_plan (xchg_await IsBigEndianHost conf sd cond) /\ always same_plan (xchg_await_fail conf sd cond) /\
  always same_plan (load_await conf ml cond) /\ always same_plan (load_await_fail conf ml cond).
Proof. split_and!; same_plan. Qed.

(** ** Executions do not plan *)

Definition keeps_plan (s s' : TSOTraceBuilder) : Prop :=
  explorable s -> explorable s' /\ (pending (prefix s') <= pending (prefix s))%nat.
#[local] Instance keeps_plan_reflexive : Reflexive keeps_plan.
Proof. by split. Qed.
#[local] Instance keeps_plan_transitive : Transitive keeps_plan.
Proof. intros s1 s2 s3 H1 H2 [Hx1 Hp1]%H1. destruct (H2 Hx1). split; [done|lia]. Qed.

Lemma same_explorable s s' : same_plan s s' -> explorable s -> explorable s' /\ pending (prefix s') = pending (prefix s).
Proof.
  intros [Ht He] [Hb Hs]. assert (Hlen : buf_len (prefix s') = buf_len (prefix s))
    by (apply (f_equal length) in He; rewrite !length_fmap in He; exact He).
  split; [split|].
  - unfold buf_inv. by rewrite Ht, Hlen.
  - intros e Hin. apply (list_elem_of_fmap_2 sleep) in Hin. rewrite He in Hin. apply list_elem_of_fmap in Hin as (e' & -> & Hin). by apply Hs.
  - unfold pending. by rewrite Ht, Hlen.
Qed.
Lemma same_keeps {A} (m : M A) : always same_plan m -> always keeps_plan m.
Proof. intros Hm s a s' Hr Hx. destruct (same_explorable s s' (Hm s a s' Hr) Hx). split; [done|lia]. Qed.

(** Operations on the stack of events. *)
Lemma keeps_buffer s b' : (buf_inv (prefix s) -> buf_inv b' /\ (pending b' <= pending (prefix s))%nat /\
    forall e, e ∈ events b' -> e ∈ events (prefix s) \/ sleep e = []) -> keeps_plan s (set_prefix b' s).
Proof.
  intros Hb [Hi Hs]. destruct (Hb Hi) as (Hi' & Hp & He). split; [|done]. split; [done|]. intros e [H|Hn]%He; [by apply Hs|].
  rewrite Hn. apply sorted_nil.
Qed.
Lemma always_on_prefix f : (forall s b', f (prefix s) = Some b' -> keeps_plan s (set_prefix b' s)) -> always keeps_plan (on_prefix f).
Proof.
  intros Hf s u s' (b & s1 & [= <- <-] & H)%run_bind. apply run_bind in H as (b' & s2 & (Hb & ->)%run_lift & H).
  injection H as _ <-. by apply Hf.
Qed.

Lemma delete_events (b b' : buffer) : buf_inv b -> (0 < buf_len b)%nat -> delete_last branch_eq b = Some b' ->
  forall e, e ∈ events b' -> e ∈ events b.
Proof.
  intros Hb Hl Hd e. destruct (delete_last_back b Hb Hl) as (b2 & Hd2 & Hgb & _). rewrite Hd in Hd2. injection Hd2 as <-.
  rewrite (gb_events _ _ _ Hgb). intros (k & [Hk _]%lookup_take_Some)%list_elem_of_lookup. apply list_elem_of_lookup. by exists k.
Qed.
Lemma delete_nonempty (b b' : buffer) : delete_last branch_eq b = Some b' -> (0 < buf_len b)%nat.
Proof. unfold delete_last. by case_bool_decide. Qed.
Lemma keeps_delete_last : always keeps_plan (on_prefix (delete_last branch_eq)).
Proof.
  apply always_on_prefix. intros s b' Hd. pose proof (delete_nonempty _ _ Hd) as Hl. apply keeps_buffer. intros Hi.
  destruct (delete_pending (prefix s) b' Hi Hl Hd). split_and!; [done..|]. intros e He. left. by eapply delete_events.
Qed.
Lemma delete_down_pending fuel n (b b' : buffer) : buf_inv b -> delete_down fuel n b = Some b' ->
  buf_inv b' /\ (pending b' <= pending b)%nat /\ forall e, e ∈ events b' -> e ∈ events b.
Proof.
  revert b. induction fuel as [|fuel IH]; intros b Hi; cbn [delete_down]; (case_decide; [|by intros [= <-]]); [done|].
  destruct (delete_last branch_eq b) as [b1|] eqn:Hd; [|done]. cbn [mbind option_bind]. intros Hr.
  pose proof (delete_nonempty _ _ Hd) as Hl. destruct (delete_pending b b1 Hi Hl Hd) as [Hi1 Hp1].
  destruct (IH b1 Hi1 Hr) as (Hi' & Hp' & He'). split_and!; [done|lia|]. intros e He. eapply delete_events; [exact Hi|done|exact Hd|by apply He'].
Qed.
Lemma keeps_delete_down n : always keeps_plan (on_prefix (fun b => delete_down (buf_len b) n b)).
Proof.
  apply always_on_prefix. intros s b' Hd. apply keeps_buffer. intros Hi. destruct (delete_down_pending _ _ _ _ Hi Hd) as (? & ? & He).
  split_and!; [done..|]. intros e Hin. left. by apply He.
Qed.
Lemma keeps_enter e : sleep e = [] -> always keeps_plan (on_prefix (fun b => enter_first_child b e)).
Proof.
  intros Hs. apply always_on_prefix. intros s b' He. apply keeps_buffer. intros Hi.
  assert (exists x, first_child (prefix s) = Some x) as [x Hx].
  { destruct Hi as [n Hn]. unfold enter_first_child, first_child, parent_at, ref_size, front_branch in *.
    rewrite bool_decide_true in * by done. cbn [cassert mbind option_bind] in *. rewrite Hn in *. cbn [mbind option_bind] in *.
    destruct (children n) as [|c cs]; [done|]. by exists c.1. }
  destruct (enter_pending (prefix s) b' e x Hi Hx He) as [Hi' Hp]. split_and!; [done|lia|]. intros e' Hin.
  unfold enter_first_child in He. destruct (parent_at _ _); [|done]. cbn in He. destruct (ref_size _ _); [|done]. cbn in He.
  destruct (bool_decide _); [|done]. cbn in He. injection He as <-. apply elem_of_app in Hin as [?| ->%list_elem_of_singleton]; [by left|by right].
Qed.
Lemma keeps_push x e : sleep e = [] -> always keeps_plan (on_prefix (fun b => buf_push branch_eq b x e)).
Proof.
  intros Hs. apply always_on_prefix. intros s b' Hp. apply keeps_buffer. intros Hi. pose proof Hi as [n Hn].
  assert (Hleaf : wnode (wtree (prefix s)) (replicate (buf_len (prefix s)) 0%nat) = Some (WNode [])).
  { rewrite Hn. unfold buf_push, parent_at, ref_size in Hp. rewrite bool_decide_true in Hp by done. cbn [cassert mbind option_bind] in Hp.
    rewrite Hn in Hp. destruct n as [[|]]; [done|]. by cbn in Hp. }
  destruct (push_pending (prefix s) b' x e Hi Hleaf Hp) as [Hi' Hpe]. split_and!; [done|lia|].
  destruct (buf_push_spec branch_eq (prefix s) x e branch_eq_refl Hi Hleaf) as (b2 & Hp2 & _ & Hev & _). rewrite Hp in Hp2. injection Hp2 as <-.
  rewrite Hev. intros e' [?| ->%list_elem_of_singleton]%elem_of_app; [by left|by right].
Qed.
Lemma keeps_set_last x : always keeps_plan (on_prefix (fun b => set_last_branch branch_eq b x)).
Proof.
  apply always_on_prefix. intros s b' Hl. apply keeps_buffer. intros Hi. unfold set_last_branch in Hl.
  destruct (parent_at _ _) as [p|] eqn:Ep; [|done]. cbn [mbind option_bind] in Hl. destruct (wnode (wtree (prefix s)) p) as [[cs]|] eqn:En; [|done].
  cbn [mbind option_bind children] in Hl. destruct (lastbranch _); [|done]. cbn [mbind option_bind] in Hl. destruct (_ || _); [|done].
  cbn [cassert mbind option_bind] in Hl. destruct cs as [|c cs]; [done|]. cbn in Hl. destruct (branch_eq _ _); [|done]. cbn in Hl.
  destruct (wnode_set _ _ _) as [t|] eqn:Et; [|done]. cbn in Hl. injection Hl as <-.
  assert (Heq : planned t = planned (wtree (prefix s))).
  { pose proof (planned_set _ _ _ _ _ En Et) as Hpl. change (planned (WNode (c :: cs))) with (planned_list (c :: cs)) in Hpl.
    change (planned (WNode ((x, c.2) :: cs))) with (planned_list ((x, c.2) :: cs)) in Hpl. rewrite !planned_cons in Hpl. cbn [snd] in Hpl. lia. }
  split_and!; [|unfold pending, buf_len; cbn [wtree events]; lia|by left].
  unfold parent_at in Ep. destruct (bool_decide _); [|done]. cbn in Ep. injection Ep as <-. unfold buf_inv, buf_len in *. cbn [wtree events].
  destruct (length (events (prefix s))) as [|k] eqn:Ek; [by eexists|]. rewrite Nat.sub_succ, Nat.sub_0_r in *.
  rewrite replicate_S_end, (wnode_set_below _ _ _ _ _ Et). destruct Hi as [n Hn]. rewrite replicate_S_end, wnode_app, En in Hn. cbn in Hn |- *. by exists n.
Qed.
#[local] Hint Resolve keeps_delete_last keeps_delete_down keeps_set_last : plan.
#[local] Hint Extern 1 (always keeps_plan (on_prefix (fun b => enter_first_child b _))) => by apply keeps_enter : plan.
#[local] Hint Extern 1 (always keeps_plan (on_prefix (fun b => buf_push branch_eq b _ _))) => by apply keeps_push : plan.
Lemma keeps_frame s s' : prefix s' = prefix s -> keeps_plan s s'.
Proof. intros Hp [Hb Hs]. unfold pending. rewrite Hp. split; [|done]. split; by rewrite Hp. Qed.
Lemma keeps_event s i e e' : zget (events (prefix s)) i = Some e -> sleep e' = sleep e -> keeps_plan s (put_event i e' s).
Proof. intros He Hs Hx. destruct (same_explorable s (put_event i e' s)) as [Hx' Hp]; [by eapply same_plan_event|done|]. split; [done|lia]. Qed.
Ltac keeps_plan := always_walk ltac:(fun _ => first
  [ solve [auto 1 with plan nocore]
  | apply always_modify; intros; by apply keeps_frame
  | apply always_thread_upd; intros; by apply keeps_frame
  | apply always_pfx_upd; intros; by eapply keeps_event
  | apply always_curev_upd; intros; by eapply keeps_event ]).
Lemma keeps_next_event : always keeps_plan next_event.
Proof. keeps_plan. Qed.
Lemma keeps_new_event : always keeps_plan (new_event conf).
Proof. keeps_plan. Qed.
#[local] Hint Resolve keeps_next_event keeps_new_event : plan.
Lemma keeps_schedule : always keeps_plan (schedule conf).
Proof. keeps_plan. Qed.
Lemma keeps_method m : always keeps_plan (call_method m).
Proof.
  assert (Hd : forall A (m : M A), always same_plan m -> always keeps_plan (_ ← m; mret tt)).
  { intros A m' Hm. apply always_bind; [apply _|by apply same_keeps|]. intros. apply always_ret. apply _. }
  destruct m as [|c|sd cond|sd cond|ml cond|ml cond| |ml|proc aux|proc aux| |md|]; cbn [call_method].
  - apply always_bind; [apply _|apply keeps_schedule|]. intros. apply always_ret. apply _.
  - apply Hd, same_perform.
  - apply Hd, (same_awaits sd (sdr_ref sd) cond).
  - apply Hd, (same_awaits sd (sdr_ref sd) cond).
  - apply Hd, (same_awaits (MkSymDataRef ml None) ml cond).
  - apply Hd, (same_awaits (MkSymDataRef ml None) ml cond).
  - keeps_plan.
  - apply Hd. same_plan.
  - keeps_plan.
  - keeps_plan.
  - keeps_plan.
  - keeps_plan.
  - apply Hd, same_check_for_cycles.
Qed.
Lemma called_keeps s s' : rtc called s s' -> keeps_plan s s'.
Proof. induction 1 as [s|s1 s2 s3 [m Hm] _ IH]; [done|]. etrans; [|exact IH]. by eapply keeps_method. Qed.

(** ** Race detection plans *)

Definition tree_grows (t t' : WakeupTree (Branch := Branch)) : Prop :=
  (forall r, is_Some (wnode t r) -> is_Some (wnode t' r)) /\ (planned t <= planned t')%nat.
#[local] Instance tree_grows_reflexive : Reflexive tree_grows.
Proof. by split. Qed.
#[local] Instance tree_grows_transitive : Transitive tree_grows.
Proof. intros t1 t2 t3 [H1 P1] [H2 P2]. split; [auto|lia]. Qed.

Lemma append_nodes (t t' : WakeupTree (Branch := Branch)) r n l : wnode t r = Some n ->
  wnode_set t r (WNode (children n ++ l)) = Some t' -> forall q, is_Some (wnode t q) -> is_Some (wnode t' q).
Proof.
  revert t t'. induction r as [|k r IH]; intros t t'; cbn [wnode wnode_set].
  - intros [= ->] [= <-] [|j q]; cbn [wnode children]; [done|]. destruct (children n !! j) as [c|] eqn:E; [|by intros [? ?]].
    by rewrite (lookup_app_l_Some _ _ _ _ E).
  - destruct (children t !! k) as [c|] eqn:E; [|done]. cbn [mbind option_bind]. intros Hn.
    destruct (wnode_set c.2 r _) as [c'|] eqn:Es; [|done]. cbn [mbind option_bind]. intros [= <-] [|j q]; cbn [wnode children]; [done|].
    destruct (decide (j = k)) as [->|Hne].
    + rewrite E, list_lookup_insert_eq by (by eapply lookup_lt_Some). cbn. by apply (IH c.2 c').
    + by rewrite list_lookup_insert_ne by done.
Qed.
Lemma put_child_grows (t : WakeupTree (Branch := Branch)) r x t' : ref_put_child branch_eq t r x = Some t' -> tree_grows t t'.1.
Proof.
  unfold ref_put_child. destruct (wnode t r) as [n|] eqn:Hn; [|done]. cbn [mbind option_bind]. destruct (negb _); [|done].
  cbn [cassert mbind option_bind]. destruct (wnode_set t r _) as [t1|] eqn:Hs; [|done]. cbn [mbind option_bind]. intros [= <-]. cbn [fst].
  split; [by eapply append_nodes|]. pose proof (planned_set _ _ _ _ _ Hn Hs) as Hp. destruct n as [cs]. cbn [children] in Hp.
  assert (Happ : forall cs, (planned (WNode cs) <= planned (WNode (cs ++ [(x, WNode [])])))%nat).
  { intros l. change (planned_list l <= planned_list (l ++ [(x, WNode [])]))%nat. induction l as [|c l IH]; [cbn; lia|].
    cbn [app]. rewrite !planned_cons. lia. }
  specialize (Happ cs). lia.
Qed.
Lemma put_sequence_grows v : forall t r t', put_sequence conf t r v = Some t' -> tree_grows t t'.
Proof.
  induction v as [|ve v IH]; intros t r t'; cbn [put_sequence]; [by intros [= ->]|]. destruct (unobserved conf (b_sym ve)) as [syms|]; [|done].
  cbn [mbind option_bind]. destruct (ref_put_child _ _ _ _) as [t1|] eqn:E; [|done]. cbn [mbind option_bind]. intros Hs.
  etrans; [by eapply put_child_grows|by eapply IH].
Qed.
Lemma insert_wakeup_grows fuel t : forall r v t', insert_wakeup conf fuel t r v = Some t' -> tree_grows t t'.
Proof.
  induction fuel as [|fuel IH]; intros r v t'; cbn [insert_wakeup]; [done|]. destruct (wnode t r) as [n|]; [|done]. cbn [mbind option_bind].
  case_decide; [by intros [= ->]|]. destruct (find_child conf 0 (children n) v) as [[| |k v']|]; [|..|done]; cbn [mbind option_bind].
  - by intros [= ->].
  - by apply put_sequence_grows.
  - by apply IH.
Qed.

Definition plans (s s' : TSOTraceBuilder) : Prop :=
  explorable s -> explorable s' /\ (pending (prefix s) <= pending (prefix s'))%nat.
#[local] Instance plans_reflexive : Reflexive plans.
Proof. by split. Qed.
#[local] Instance plans_transitive : Transitive plans.
Proof. intros s1 s2 s3 H1 H2 [Hx1 Hp1]%H1. destruct (H2 Hx1). split; [done|lia]. Qed.
Lemma same_plans {A} (m : M A) : always same_plan m -> always plans m.
Proof. intros Hm s a s' Hr Hx. destruct (same_explorable s s' (Hm s a s' Hr) Hx). split; [done|lia]. Qed.
Lemma grown_plans s t : tree_grows (wtree (prefix s)) t -> plans s (set_prefix (MkBuffer t (events (prefix s))) s).
Proof.
  intros [Hg Hp] [Hi Hs]. split; [|unfold pending, buf_len; cbn [prefix set_prefix wtree events]; lia].
  split; [by apply Hg|done].
Qed.

Lemma plans_put_child_of i x : always plans (put_child_of i x).
Proof.
  intros s u s' (b & s1 & [= <- <-] & (r & s2 & (Hr & ->)%run_lift & (r' & s3 & (Hp & ->)%run_lift & [= _ <-])%run_bind)%run_bind)%run_bind.
  unfold put_child_at in Hp. destruct (ref_put_child _ _ _ _) as [t|] eqn:E; [|done]. cbn in Hp. injection Hp as <-.
  apply grown_plans. by eapply put_child_grows.
Qed.

Lemma same_find_candidate race isleep ks : forall candidates cand, always same_plan (find_candidate race isleep ks candidates cand).
Proof.
  induction ks as [|k ks IH]; intros candidates cand; cbn [find_candidate]; [same_plan|].
  always_walk ltac:(fun _ => first [solve [auto 1 with plan nocore] | apply IH]).
Qed.
Lemma same_wakeup_sequence race : always same_plan (wakeup_sequence conf race).
Proof.
  always_walk ltac:(fun _ => lazymatch goal with |- always _ (ws_step ?r ?f ?g ?k ?st) => destruct st; cbn [ws_step] end).
Qed.
#[local] Hint Resolve same_find_candidate same_wakeup_sequence plans_put_child_of same_plans : plan.
Lemma plans_race_detect race isleep : always plans (race_detect conf race isleep).
Proof.
  unfold race_detect. case_decide.
  - unfold race_detect_optimal. apply always_bind; [apply _|apply same_plans, same_wakeup_sequence|]. intros v.
    apply always_bind; [apply _|apply same_plans; same_plan|]. intros []; [|apply same_plans; same_plan]. cbn [negb].
    apply always_bind; [apply _|apply same_plans; same_plan|]. intros r.
    intros s u s' (b & s1 & [= <- <-] & (t & s2 & (Ht & ->)%run_lift & [= _ <-])%run_bind)%run_bind. apply grown_plans. by eapply insert_wakeup_grows.
  - cbv zeta. case_decide; [|case_decide].
    + do 4 (apply always_bind; [apply _|apply same_plans; same_plan|intros ?]). apply plans_put_child_of.
    + apply same_plans. same_plan.
    + apply always_bind; [apply _|apply same_plans, same_find_candidate|]. intros [cand|]; [|apply same_plans; same_plan].
      do 3 (apply always_bind; [apply _|apply same_plans; same_plan|intros ?]). apply plans_put_child_of.
Qed.
Lemma same_blocked_await_races pb : always same_plan (blocked_await_races IsBigEndianHost conf pb).
Proof. same_plan. Qed.
#[local] Hint Resolve same_blocked_await_races : plan.
Lemma plans_do_race_detect : always plans (do_race_detect IsBigEndianHost conf).
Proof.
  unfold do_race_detect. do 3 (apply always_bind; [apply _|apply same_plans; same_plan|intros ?]).
  apply always_bind; [apply _| |intros _].
  { apply always_loop; [apply _..|]. intros. apply same_plans. same_plan. }
  do 4 (apply always_bind; [apply _|apply same_plans; same_plan|intros ?]).
  apply always_bind; [apply _| |intros _].
  - apply always_loop; [apply _..|]. intros i sl. do 2 (apply always_bind; [apply _|apply same_plans; same_plan|intros ?]).
    apply always_bind; [apply _| |intros _; apply same_plans; same_plan]. apply always_loop; [apply _..|]. intros. apply plans_race_detect.
  - apply same_plans. apply always_bind; [apply _| |intros _; same_plan]. apply always_modify. intros s. split; [done|].
    cbn [prefix set_prefix events]. rewrite <-list_fmap_compose. by apply list_fmap_ext.
Qed.

(** ** Rounds *)

(** What the race detection of [reset] adds to the plan. *)
Definition found (s : TSOTraceBuilder) : nat :=
  match (_ ← compute_vclocks IsBigEndianHost conf partition; _ ← do_race_detect IsBigEndianHost conf; gets prefix) s with
  | Some (b, _) => (pending b - pending (prefix s))%nat
  | None => 0%nat
  end.

(** Rounds of the exploration, with what each one finds: an execution, then a
    [reset] that has another one to run. *)
Inductive rounds : list nat -> TSOTraceBuilder -> TSOTraceBuilder -> Prop :=
  | rounds_nil s : rounds [] s s
  | rounds_cons s s1 s2 s' l : rtc called s s1 -> reset IsBigEndianHost conf partition estimate s1 = Some (true, s2) ->
      rounds l s2 s' -> rounds (found s1 :: l) s s'.

Lemma reset_plan s s' : explorable s -> reset IsBigEndianHost conf partition estimate s = Some (true, s') ->
  explorable s' /\ (S (pending (prefix s')) <= pending (prefix s) + found s)%nat.
Proof.
  intros Hx (u & s1 & H1 & (v & s2 & H2 & H)%run_bind)%run_bind.
  apply run_bind in H as (b & s3 & [= <- <-] & H). apply run_bind in H as (i & s4 & (_ & ->)%run_lift & H).
  destruct (same_explorable s s1 (same_compute_vclocks _ _ _ H1) Hx) as [Hx1 Hp1]. destruct (plans_do_race_detect _ _ _ H2 Hx1) as [Hx2 Hp2].
  pose proof (wp_reset_execution s2 (estimate (prefix s2) (i + 1)) Hx2) as Hwp. unfold wp in Hwp. rewrite H in Hwp.
  destruct Hwp as (Hx' & k & x & _ & _ & _ & Hr). split; [done|]. pose proof (rs_less _ _ _ _ Hr) as Hless.
  unfold found, mbind, M_bind, gets. rewrite H1, H2. lia.
Qed.

(** C14. What has been planned is exhausted. Whatever methods of the trace
    builder an execution calls, in whatever order, a number of rounds (an
    execution and a [reset] that finds another one to run) is at most what was
    planned before them, beyond the current execution, and what their race
    detection planned, less what is still planned after them; and no exploration
    goes on for ever once its rounds find nothing more to plan. *)
Theorem plan_exhausted s : explorable s ->
  (forall l s', rounds l s s' -> explorable s' /\ (length l + pending (prefix s') <= pending (prefix s) + sum_list l)%nat) /\
  Acc (fun s2 s1 => rounds [0%nat] s1 s2) s.
Proof.
  assert (Hround : forall s s1 s2, explorable s -> rtc called s s1 -> reset IsBigEndianHost conf partition estimate s1 = Some (true, s2) ->
    explorable s2 /\ (S (pending (prefix s2)) <= pending (prefix s) + found s1)%nat).
  { intros s0 s1 s2 Hx Hrun Hr. destruct (called_keeps _ _ Hrun Hx) as [Hx1 Hp1]. destruct (reset_plan _ _ Hx1 Hr). split; [done|lia]. }
  intros Hx. split.
  - intros l s' Hl. induction Hl as [s|s s1 s2 s' l Hrun Hr _ IH]; [split; [done|cbn; lia]|].
    destruct (Hround s s1 s2 Hx Hrun Hr) as [Hx2 Hp2]. destruct (IH Hx2) as [Hx' Hp']. split; [done|cbn; lia].
  - remember (pending (prefix s)) as n eqn:Hn. revert s Hx Hn. induction (lt_wf n) as [n _ IH]. intros s Hx ->. constructor. intros s2 Hl.
    inversion Hl as [|s0 s1 s3 s' l Hrun Hr Hnil Hf]; subst. inversion Hnil; subst.
    destruct (Hround s s1 s2 Hx Hrun Hr) as [Hx2 Hp2]. rewrite Hf in *. apply (IH (pending (prefix s2))); [lia|done|done].
Qed.
End rounds.

(** ** An exploration of two executions *)

Section run.
Context (IsBigEndianHost : bool) (conf : Configuration) (partition : forall A, (A -> bool) -> list A -> list A * list A).

Fixpoint run_methods (l : list method) (s : TSOTraceBuilder) : option TSOTraceBuilder :=
  match l with
  | [] => Some s
  | m :: l => r ← call_method IsBigEndianHost conf partition m s; run_methods l r.2
  end.
Lemma run_methods_called l : forall s s', run_methods l s = Some s' -> rtc (called IsBigEndianHost conf partition) s s'.
Proof.
  induction l as [|m l IH]; intros s s'; cbn [run_methods]; [by intros [= ->]|].
  destruct (call_method _ _ _ m s) as [[[] s1]|] eqn:E; [|done]. cbn [mbind option_bind snd]. intros H. eapply rtc_l; [by exists m|by apply IH].
Qed.
Lemma new_explorable s : TSOTraceBuilder_new = Some s -> explorable s.
Proof.
  destruct new_initial as (cps & aux & -> & _). intros [= <-]. split; [by eexists|]. by intros e ?%not_elem_of_nil.
Qed.
End run.

(** Two threads store to a variable; then in the other order. *)
Definition demo_first : list method :=
  [Schedule; Perform Spawn; Schedule; Perform (AtomicStore demo_write); MarkUnavailable 0 (-1);
   Schedule; Perform (AtomicStore demo_write); MarkUnavailable 1 (-1); Schedule].
Definition list_partition A (f : A -> bool) (l : list A) : list A * list A := List.partition f l.
Definition demo_estimate (b : Buffer (Branch := Branch) (Event := Event)) (i : Z) : Z := 1.
Definition demo_new_builder : TSOTraceBuilder := match TSOTraceBuilder_new with Some s => s | None => initial_state cps_init CPid_root end.
Definition demo_executed : TSOTraceBuilder :=
  default demo_new_builder (run_methods false demo_conf list_partition demo_first demo_new_builder).
Definition demo_second : TSOTraceBuilder :=
  match reset false demo_conf list_partition demo_estimate demo_executed with Some (true, s) => s | _ => demo_new_builder end.
Definition demo_then : list method :=
  [Schedule; Perform Spawn; Schedule; Perform (AtomicStore demo_write); Schedule; Perform (AtomicStore demo_write); MarkUnavailable 1 (-1);
   Schedule; Perform (AtomicStore demo_write); MarkUnavailable 0 (-1); Schedule].
Lemma demo_round : rounds false demo_conf list_partition demo_estimate [1%nat] demo_new_builder demo_second.
Proof.
  assert (Hf : found false demo_conf list_partition demo_executed = 1%nat) by by vm_compute. rewrite <-Hf.
  apply rounds_cons with (s2 := demo_second).
  - apply (run_methods_called false demo_conf list_partition demo_first). by vm_compute.
  - by vm_compute.
  - apply rounds_nil.
Qed.
(** The second execution is the last one. *)
Example demo_over : (s ← run_methods false demo_conf list_partition demo_then demo_second;
  fst <$> reset false demo_conf list_partition demo_estimate s) = Some false.
Proof. by vm_compute. Qed.

Lemma plan_exhausted_witness : rounds false demo_conf list_partition demo_estimate [1%nat] demo_new_builder demo_second /\
  (1 + pending (prefix demo_second) <= pending (prefix demo_new_builder) + 1)%nat /\
  Acc (fun s2 s1 => rounds false demo_conf list_partition demo_estimate [0%nat] s1 s2) demo_second.
Proof.
  assert (Hx : explorable demo_new_builder) by (by apply new_explorable; vm_compute).
  destruct (plan_exhausted false demo_conf list_partition demo_estimate demo_new_builder Hx) as [Hall _].
  destruct (Hall _ _ demo_round) as [Hx2 Hle]. split; [exact demo_round|]. split; [exact Hle|].
  apply (plan_exhausted false demo_conf list_partition demo_estimate demo_second Hx2).
Defined.
