(* ===== verification/SatGraph.v ===== *)
(** * SatGraph: the saturated graph (src/src/SaturatedGraph.h, SaturatedGraph.cpp)

    [SaturatedGraph] keeps the events of an execution under sequential
    consistency with their program order, reads-from and inferred edges.
    [saturate] runs a work queue that recomputes the vector clock of every
    event, infers the from-read and coherence edges these clocks force, and
    answers [false] when it finds a cycle. The reads-from explorer adds events
    one at a time to a copy of a saturated graph and saturates again.

    One definition per member function. An object is a record [graph]; a member
    that changes it returns the new one, and [None] stands for a failed
    assertion or an access out of range. [gen::vector] is a list, [gen::map] a
    finite map; the order in which [gen::for_each] visits a map is the
    parameter [order]. Event numbers, process numbers and positions are [nat]
    (the code's [unsigned]), clocks and event indices are [Z] ([int]). Timing
    and tracing are left out. *)

From stdpp Require Import pretty.
From S2P Require Import Prelude.
From S2P Require Import VClock.
From S2P Require Import CPid.
From S2P Require Import SymAddr.

(** ** Keys of the maps *)

#[export] Instance SymMBlock_countable : Countable SymMBlock.
Proof.
  refine (inj_countable' (fun b => (mb_pid b, mb_alloc b)) (fun p => MkSymMBlock p.1 p.2) _).
  by intros [].
Defined.
#[export] Instance SymAddr_countable : Countable SymAddr.
Proof.
  refine (inj_countable' (fun a => (sa_block a, sa_offset a)) (fun p => MkSymAddr p.1 p.2) _).
  by intros [].
Defined.
#[export] Instance IID_countable : Countable IID.
Proof.
  refine (inj_countable' (fun a => (iid_pid a, iid_index a)) (fun p => MkIID p.1 p.2) _).
  by intros [].
Defined.

(** ** The state *)

Abbreviation Pid := nat (only parsing).
Abbreviation ID := nat (only parsing).
Abbreviation ExtID := IID (only parsing).

Inductive EventKind := NONE | STORE | LOAD | RMW.
#[export] Instance EventKind_eq_dec : EqDecision EventKind.
Proof. solve_decision. Defined.

(** [iid] is the pair of [ev_pid] and [ev_index]. *)
Record Event := MkEvent {
  ev_pid : Pid;
  ev_index : Z;
  ext_id : ExtID;
  is_load : bool;
  is_store : bool;
  ev_addr : SymAddr;
  read_from : option ID;
  readers : list ID;
  po_predecessor : option ID;
}.

Record graph := MkGraph {
  extid_to_id : gmap ExtID ID;
  events : list Event;
  ins : list (list ID);
  outs : list (list ID);
  writes_by_address : gmap SymAddr (gmap Pid ID);
  reads_from_init : gmap SymAddr (list ID);
  events_by_pid : list (list ID);
  vclocks : list vclock;
  writes_by_process_and_address : list (gmap SymAddr (list ID));
  saturated_until : nat;
  wq_queue : list ID;
  wq_set : list bool;
}.

Definition empty_graph : graph := MkGraph ∅ [] [] [] ∅ ∅ [] [] [] 0 [] [].

Definition set_extids m g := MkGraph m (events g) (ins g) (outs g) (writes_by_address g)
  (reads_from_init g) (events_by_pid g) (vclocks g) (writes_by_process_and_address g)
  (saturated_until g) (wq_queue g) (wq_set g).
Definition set_events es g := MkGraph (extid_to_id g) es (ins g) (outs g) (writes_by_address g)
  (reads_from_init g) (events_by_pid g) (vclocks g) (writes_by_process_and_address g)
  (saturated_until g) (wq_queue g) (wq_set g).
Definition set_ins i g := MkGraph (extid_to_id g) (events g) i (outs g) (writes_by_address g)
  (reads_from_init g) (events_by_pid g) (vclocks g) (writes_by_process_and_address g)
  (saturated_until g) (wq_queue g) (wq_set g).
Definition set_outs o g := MkGraph (extid_to_id g) (events g) (ins g) o (writes_by_address g)
  (reads_from_init g) (events_by_pid g) (vclocks g) (writes_by_process_and_address g)
  (saturated_until g) (wq_queue g) (wq_set g).
Definition set_writes w g := MkGraph (extid_to_id g) (events g) (ins g) (outs g) w
  (reads_from_init g) (events_by_pid g) (vclocks g) (writes_by_process_and_address g)
  (saturated_until g) (wq_queue g) (wq_set g).
Definition set_inits r g := MkGraph (extid_to_id g) (events g) (ins g) (outs g)
  (writes_by_address g) r (events_by_pid g) (vclocks g) (writes_by_process_and_address g)
  (saturated_until g) (wq_queue g) (wq_set g).
Definition set_by_pid p g := MkGraph (extid_to_id g) (events g) (ins g) (outs g)
  (writes_by_address g) (reads_from_init g) p (vclocks g) (writes_by_process_and_address g)
  (saturated_until g) (wq_queue g) (wq_set g).
Definition set_clocks v g := MkGraph (extid_to_id g) (events g) (ins g) (outs g)
  (writes_by_address g) (reads_from_init g) (events_by_pid g) v
  (writes_by_process_and_address g) (saturated_until g) (wq_queue g) (wq_set g).
Definition set_pwrites w g := MkGraph (extid_to_id g) (events g) (ins g) (outs g)
  (writes_by_address g) (reads_from_init g) (events_by_pid g) (vclocks g) w
  (saturated_until g) (wq_queue g) (wq_set g).
Definition set_until n g := MkGraph (extid_to_id g) (events g) (ins g) (outs g)
  (writes_by_address g) (reads_from_init g) (events_by_pid g) (vclocks g)
  (writes_by_process_and_address g) n (wq_queue g) (wq_set g).
Definition set_wq q s g := MkGraph (extid_to_id g) (events g) (ins g) (outs g)
  (writes_by_address g) (reads_from_init g) (events_by_pid g) (vclocks g)
  (writes_by_process_and_address g) (saturated_until g) q s.

Definition push_reader r e := MkEvent (ev_pid e) (ev_index e) (ext_id e) (is_load e) (is_store e)
  (ev_addr e) (read_from e) (readers e ++ [r]) (po_predecessor e).

(** [v.mut(i).push_back(x)] on a vector of vectors. *)
Definition push_at {A} (v : list (list A)) (i : nat) (x : A) : option (list (list A)) :=
  l ← v !! i; vset v i (l ++ [x]).

Definition add_in (to from : ID) (g : graph) : option graph :=
  i ← push_at (ins g) to from; Some (set_ins i g).
Definition add_out (from to : ID) (g : graph) : option graph :=
  o ← push_at (outs g) from to; Some (set_outs o g).

(** [std::upper_bound] and [std::lower_bound] on a sorted range: the position
    of the first element greater than [x], resp. not less than [x]. *)
Fixpoint upper_bound (l : list nat) (x : nat) : nat :=
  match l with
  | [] => 0
  | y :: l => if decide (x < y) then 0 else S (upper_bound l x)
  end.
Fixpoint lower_bound (l : list nat) (x : nat) : nat :=
  match l with
  | [] => 0
  | y :: l => if decide (y < x) then S (lower_bound l x) else 0
  end.

(** ** The work queue *)

Definition wq_marked (g : graph) (id : ID) : bool := default false (wq_set g !! id).

Definition wq_mark (g : graph) (id : ID) : list bool :=
  let s := wq_set g in
  let s := if decide (length s <= id) then resize (id + 1) false s else s in
  <[id := true]> s.

Definition wq_add (id : ID) (g : graph) : graph :=
  if wq_marked g id then g else set_wq (wq_queue g ++ [id]) (wq_mark g id) g.
Definition wq_add_first (id : ID) (g : graph) : graph :=
  if wq_marked g id then g else set_wq (id :: wq_queue g) (wq_mark g id) g.
Definition wq_empty (g : graph) : bool := bool_decide (wq_queue g = []).

Definition wq_pop (g : graph) : option (ID * graph) :=
  match wq_queue g with
  | [] => None
  | ret :: q => s ← vset (wq_set g) ret false; Some (ret, set_wq q s g)
  end.

(** [is_saturated] *)
Definition is_saturated (g : graph) : bool := wq_empty g.

(** ** Adding events and edges *)

Definition enlarge {A} (d : A) (v : list A) (size : nat) : list A :=
  if decide (size <= length v) then v else resize size d v.

Definition add_edge_internal (from to : ID) (g : graph) : option graph :=
  g ← add_out from to g;
  g ← add_in to from g;
  Some (wq_add to g).

Definition add_edges (edges : list (ID * ID)) (g : graph) : option graph :=
  for_each edges (fun p g => add_edge_internal p.1 p.2 g) g.

Definition add_edge (from to : ExtID) (g : graph) : option graph :=
  f ← extid_to_id g !! from;
  t ← extid_to_id g !! to;
  add_edge_internal f t g.

(** The [Option] argument through [extid_to_id.at]. *)
Definition map_id (g : graph) (o : option ExtID) : option (option ID) :=
  match o with
  | None => Some None
  | Some x => i ← extid_to_id g !! x; Some (Some i)
  end.

Section add_event.
Context (order : gmap Pid ID -> list (Pid * ID)).

(** The program order part: the predecessor, the index of the new event, and
    the vectors with the event appended. *)
Definition add_to_process (pid : Pid) (id : ID) (g : graph) : option (option ID * Z * graph) :=
  let g := set_by_pid (enlarge [] (events_by_pid g) (pid + 1)) g in
  let g := set_pwrites (enlarge ∅ (writes_by_process_and_address g) (pid + 1)) g in
  by_p ← events_by_pid g !! pid;
  r ← match last by_p with
      | None => Some (None, 1%Z, g)
      | Some po => e ← events g !! po; g ← add_out po id g; Some (Some po, (ev_index e + 1)%Z, g)
      end;
  let '(po, index, g) := r in
  p ← vset (events_by_pid g) pid (by_p ++ [id]);
  Some (po, index, set_by_pid p g).

(** A read from the initial value comes before every first write. *)
Definition add_from_init_reads (id : ID) (addr : SymAddr) (g : graph) : option graph :=
  for_each (order (default ∅ (writes_by_address g !! addr))) (fun p g =>
    g ← add_out id p.2 g;
    g ← add_in p.2 id g;
    Some (wq_add p.2 g)) g.

(** The first write of a process comes after every read from the initial value. *)
Definition add_first_write (pid : Pid) (id : ID) (addr : SymAddr) (g : graph) : option graph :=
  let writes_by_a := writes_by_address g !! addr in
  if decide (writes_by_a ≫= (fun w => w !! pid) = None) then
    g ← for_each (default [] (reads_from_init g !! addr)) (fun r g =>
          g ← add_in id r g; add_out r id g) g;
    Some (set_writes (<[addr := <[pid := id]> (default ∅ writes_by_a)]> (writes_by_address g)) g)
  else Some g.

Definition add_write (pid : Pid) (id : ID) (addr : SymAddr) (g : graph) : option graph :=
  g ← add_first_write pid id addr g;
  w ← writes_by_process_and_address g !! pid;
  w ← vset (writes_by_process_and_address g) pid (<[addr := default [] (w !! addr) ++ [id]]> w);
  Some (set_pwrites w g).

Definition add_event (pid : Pid) (extid : ExtID) (kind : EventKind) (addr : SymAddr)
    (ext_read_from : option ExtID) (orig_in : list ExtID) (g : graph) : option graph :=
  let id := length (events g) in
  let g := set_extids (<[extid := id]> (extid_to_id g)) g in
  let load := bool_decide (kind = LOAD) || bool_decide (kind = RMW) in
  let store := bool_decide (kind = STORE) || bool_decide (kind = RMW) in
  r ← add_to_process pid id g;
  let '(po, index, g) := r in
  rf ← map_id g ext_read_from;
  _ ← cassert (bool_decide (length (ins g) = id));
  _ ← cassert (bool_decide (length (outs g) = id));
  let g := set_ins (ins g ++ [[]]) (set_outs (outs g ++ [[]]) g) in
  g ← for_each orig_in (fun ei g => i ← extid_to_id g !! ei; add_in id i g) g;
  g ← match rf with
      | Some w => e ← events g !! w; es ← vset (events g) w (push_reader id e);
                  Some (set_events es g)
      | None => if load then add_from_init_reads id addr g else Some g
      end;
  g ← if store then add_write pid id addr g else Some g;
  new_in ← ins g !! id;
  g ← for_each new_in (fun after g => add_out after id g) g;
  let g := set_events (events g ++ [MkEvent pid index extid load store addr rf [] po]) g in
  let g := if bool_decide (rf = None) && load then
             set_inits (<[addr := default [] (reads_from_init g !! addr) ++ [id]]>
                          (reads_from_init g)) g
           else g in
  _ ← cassert (bool_decide (length (vclocks g) = id));
  Some (wq_add id (set_clocks (vclocks g ++ [[]]) g)).
End add_event.

(** ** Accessors *)

Definition has_event (g : graph) (id : ExtID) : bool := bool_decide (is_Some (extid_to_id g !! id)).
Definition graph_size (g : graph) : nat := length (events g).
Definition event_ids (g : graph) : list ExtID := ext_id <$> events g.
Definition event_is_store (g : graph) (eid : ExtID) : option bool :=
  id ← extid_to_id g !! eid; e ← events g !! id; Some (is_store e).
Definition event_addr (g : graph) (eid : ExtID) : option SymAddr :=
  id ← extid_to_id g !! eid; e ← events g !! id;
  _ ← cassert (is_load e || is_store e); Some (ev_addr e).
Definition event_vc (g : graph) (eid : ExtID) : option vclock :=
  _ ← cassert (is_saturated g); id ← extid_to_id g !! eid; vclocks g !! id.
Definition event_in (g : graph) (eid : ExtID) : option (list ExtID) :=
  id ← extid_to_id g !! eid; e ← events g !! id; i ← ins g !! id;
  ret ← for_each i (fun x ret => e ← events g !! x; Some (ret ++ [ext_id e])) [];
  ret ← match po_predecessor e with
        | Some p => e ← events g !! p; Some (ret ++ [ext_id e]) | None => Some ret end;
  match read_from e with
  | Some w => e ← events g !! w; Some (ret ++ [ext_id e]) | None => Some ret end.

(** [clone] of a persistent value is the value. *)
Definition clone (g : graph) : option graph := _ ← cassert (wq_empty g); Some g.

Definition get_process_event (g : graph) (pid index : nat) : option ID :=
  l ← events_by_pid g !! pid;
  _ ← cassert (bool_decide (0 < index));
  _ ← cassert (bool_decide (index <= length l));
  l !! (index - 1).

Definition maybe_get_process_event (g : graph) (pid index : nat) : option (option ID) :=
  l ← events_by_pid g !! pid;
  _ ← cassert (bool_decide (0 < index));
  if decide (length l < index) then Some None else x ← l !! (index - 1); Some (Some x).

(** ** Clocks and cycles *)

Definition initial_vc_for_event (e : Event) : option vclock :=
  vc_set [] (Z.of_nat (ev_pid e)) (ev_index e).

(** The events an event comes after, in the order [recompute_vc_for_event]
    reads them. *)
Definition preds (e : Event) (i : list ID) : list ID :=
  option_list (po_predecessor e) ++ option_list (read_from e) ++ i.

Definition recompute_vc_for_event (g : graph) (e : Event) (i : list ID) : option vclock :=
  vc ← initial_vc_for_event e;
  for_each (preds e i) (fun id vc => v ← vclocks g !! id; vc_plus_assign vc v) vc.

Fixpoint vc_found (g : graph) (vc : vclock) (l : list ID) : option bool :=
  match l with
  | [] => Some false
  | other :: l =>
    v ← vclocks g !! other;
    different ← vc_neq v vc;
    if (different : bool) then vc_found g vc l else Some true
  end.

Definition is_in_cycle (g : graph) (e : Event) (i : list ID) (vc : vclock) : option bool :=
  vc_found g vc (preds e i).

Definition add_successors_to_wq (id : ID) (e : Event) (g : graph) : option graph :=
  o ← outs g !! id;
  let g := if is_store e then foldl (flip wq_add) g (readers e) else g in
  Some (foldl (flip wq_add) g o).

(** ** The debug check *)

Definition contains (l : list ID) (id : ID) : bool := existsb (fun v => bool_decide (v = id)) l.

Definition check_event (g : graph) (id : ID) : option unit :=
  e ← events g !! id;
  i ← ins g !! id;
  _ ← for_each i (fun i _ => o ← outs g !! i; cassert (contains o id)) tt;
  _ ← match read_from e with
      | Some w => ew ← events g !! w;
                  _ ← cassert (is_store ew && bool_decide (ev_addr ew = ev_addr e));
                  cassert (contains (readers ew) id)
      | None => Some tt end;
  _ ← match po_predecessor e with
      | Some p => o ← outs g !! p; cassert (contains o id) | None => Some tt end;
  o ← outs g !! id;
  _ ← for_each o (fun out _ =>
        oute ← events g !! out; i ← ins g !! out;
        cassert (contains i id || bool_decide (po_predecessor oute = Some id))) tt;
  if is_store e then
    for_each (readers e) (fun r _ =>
      re ← events g !! r;
      _ ← cassert (is_load re);
      cassert (bool_decide (read_from re = Some id))) tt
  else Some tt.

Definition check_graph_consistency (g : graph) : option unit :=
  for_range (length (events g)) 0 (fun id _ => check_event g id) tt.

(** ** Reverse saturation *)

Definition po_successor (g : graph) (id : ID) (e : Event) : option (option ID) :=
  es ← events_by_pid g !! ev_pid e;
  b ← last es;
  if decide (b = id) then Some None else
  suc ← es !! upper_bound es id;
  Some (Some suc).

(** The events [foreach_succ] visits, in its order. *)
Definition successors (g : graph) (id : ID) (e : Event) : option (list ID) :=
  suc ← po_successor g id e;
  o ← outs g !! id;
  Some (option_list suc ++ readers e ++ o).

Record care := MkCare { care_set : list bool; care_vec : list ID }.

Fixpoint add_to_care (fuel : nat) (g : graph) (id : ID) (c : care) : option care :=
  match fuel with
  | 0 => None
  | S fuel =>
    seen ← care_set c !! id;
    if (seen : bool) then Some c else
    e ← events g !! id;
    s ← vset (care_set c) id true;
    succ ← successors g id e;
    c ← for_each succ (add_to_care fuel g) (MkCare s (care_vec c));
    Some (MkCare (care_set c) (care_vec c ++ [id]))
  end.

Definition reverse_care_set (g : graph) : option care :=
  let n := length (events g) in
  for_range (n - saturated_until g) (saturated_until g) (fun id c =>
    e ← events g !! id;
    match read_from e with
    | Some w => if is_load e && bool_decide (w < saturated_until g)
                then add_to_care (S n) g w c else Some c
    | None => Some c
    end) (MkCare (replicate n false) []).

Definition top (g : graph) : option vclock :=
  for_range (length (events_by_pid g)) 0 (fun pid t =>
    l ← events_by_pid g !! pid;
    _ ← match last l with
        | Some b => e ← events g !! b; cassert (bool_decide (ev_index e = Z.of_nat (length l)))
        | None => Some tt end;
    vc_set t (Z.of_nat pid) (Z.of_nat (length l) + 1)%Z) [].

(** The from-reads of the new readers [new_out] of store [id] to the first
    store of process [pid] that its below-clock [vc] shows. *)
Definition reverse_process (id : ID) (e : Event) (new_out : list ID) (below : vclockvec)
    (pid : Pid) (g : graph) : option graph :=
  let cs := vcv_clock_size below in
  base ← vcv_at below (Z.of_nat id);
  w ← writes_by_process_and_address g !! pid;
  let writes := default [] (w !! ev_addr e) in
  first_visible_index ← ref_get (vcv_vec below) base cs (Z.of_nat pid);
  first_visible ← maybe_get_process_event g pid (Z.to_nat first_visible_index);
  match first_visible with
  | None => Some g
  | Some fv =>
    let lb := lower_bound writes fv in
    let lb := if decide (writes !! lb = Some id) then S lb else lb in
    match writes !! lb with
    | None => Some g
    | Some pe_id =>
      _ ← cassert (bool_decide (pe_id <> id));
      pe ← events g !! pe_id;
      _ ← cassert (is_store pe && bool_decide (ev_addr pe = ev_addr e));
      base' ← vcv_at below (Z.of_nat pe_id);
      lt ← ref_lt (vcv_vec below) base base' cs cs;
      _ ← cassert lt;
      for_each new_out (fun r g => if decide (r = pe_id) then Some g
                                   else add_edge_internal r pe_id g) g
    end
  end.

(** The below-clock of [id]: its own position and what its successors reach. *)
Definition below_clock (g : graph) (id : ID) (e : Event) (t : vclock) (below : vclockvec)
    : option vclockvec :=
  let cs := vcv_clock_size below in
  base ← vcv_at below (Z.of_nat id);
  v ← ref_assign (vcv_vec below) base cs t;
  v ← ref_set v base cs (Z.of_nat (ev_pid e)) (ev_index e);
  succ ← successors g id e;
  v ← for_each succ (fun o v =>
        b ← vcv_at (VClockVec v cs) (Z.of_nat o); ref_minus_assign v base b cs cs) v;
  Some (VClockVec v cs).

Definition reverse_event (t : vclock) (id : ID) (st : vclockvec * graph)
    : option (vclockvec * graph) :=
  let '(below, g) := st in
  e ← events g !! id;
  below ← below_clock g id e t below;
  if is_store e then
    let new_out := filter (fun r => saturated_until g <= r) (readers e) in
    if decide (new_out = []) then Some (below, g) else
    g ← for_range (vcv_clock_size below) 0 (reverse_process id e new_out below) g;
    Some (below, g)
  else Some (below, g).

Definition reverse_saturate (g : graph) : option graph :=
  let n := length (events g) in
  g ← if decide (saturated_until g <> 0 /\ saturated_until g <> n) then
        c ← reverse_care_set g;
        if decide (care_vec c = []) then Some g else
        t ← top g;
        r ← for_each (care_vec c) (reverse_event t)
              (vcv_create (length (events_by_pid g)) n, g);
        Some r.2
      else Some g;
  Some (set_until (length (events g)) g).

(** ** Saturation *)

(** The last store of [pid] that clock index [last] shows, other than [id]. *)
Definition last_write (g : graph) (id : ID) (addr : SymAddr) (pid : Pid) (index : nat)
    : option (option ID) :=
  w ← writes_by_process_and_address g !! pid;
  let writes := default [] (w !! addr) in
  last_visible ← get_process_event g pid index;
  match upper_bound writes last_visible with
  | 0 => Some None
  | S ub =>
    x ← writes !! ub;
    if decide (x = id) then
      match ub with 0 => Some None | S ub => x ← writes !! ub; Some (Some x) end
    else Some (Some x)
  end.

(** From-reads of the readers of [pe] to the store [id]. *)
Definition add_from_reads (id : ID) (e pe : Event) (g : graph) (new_in : bool)
    : option (graph * bool) :=
  for_each (readers pe) (fun r st =>
    let '(g, new_in) := st in
    if decide (r = id) then Some (g, new_in) else
    re ← events g !! r;
    _ ← cassert (is_load re && bool_decide (ev_addr re = ev_addr e));
    g ← add_in id r g;
    g ← add_out r id g;
    Some (g, true)) (g, new_in).

(** One process in the saturation of event [id]; [inl] is [return false]. *)
Definition saturate_process (id : ID) (e : Event) (vc old_vc : vclock) (pid : Pid)
    (st : graph * bool * list (ID * ID)) : option (graph + graph * bool * list (ID * ID)) :=
  let '(g, new_in, new_edges) := st in
  old ← vc_get old_vc (Z.of_nat pid);
  new ← vc_get vc (Z.of_nat pid);
  if decide (old = new) then Some (inr st) else
  _ ← cassert (bool_decide (old < new)%Z);
  pe_id ← last_write g id (ev_addr e) pid (Z.to_nat new);
  match pe_id with
  | None => Some (inr st)
  | Some pe_id =>
    pe ← events g !! pe_id;
    _ ← cassert (bool_decide (pe_id <> id));
    if decide (ev_index pe <= old)%Z then Some (inr st) else
    _ ← cassert (bool_decide (ev_index pe <= new)%Z);
    r ← if is_store e then add_from_reads id e pe g new_in else Some (g, new_in);
    let '(g, new_in) := r in
    if is_load e then
      match read_from e with
      | None => Some (inl g)
      | Some w => Some (inr (g, new_in, if decide (pe_id = w) then new_edges
                                        else new_edges ++ [(pe_id, w)]))
      end
    else Some (inr (g, new_in, new_edges))
  end.

(** One round of the loop of [saturate]; [inl] is [return false]. *)
Definition saturate_one (g : graph) : option (graph + graph) :=
  r ← wq_pop g;
  let '(id, g) := r in
  e ← events g !! id;
  old_in ← ins g !! id;
  vc ← recompute_vc_for_event g e old_in;
  old_vc ← vclocks g !! id;
  in_cycle ← is_in_cycle g e old_in vc;
  if (in_cycle : bool) then _ ← check_graph_consistency g; Some (inl g) else
  same ← vc_eq vc old_vc;
  if (same : bool) then Some (inr g) else
  r ← if is_load e || is_store e
      then for_ret (length vc) 0 (saturate_process id e vc old_vc) (g, false, [])
      else Some (inr (g, false, []));
  match r with
  | inl g => _ ← check_graph_consistency g; Some (inl g)
  | inr (g, new_in, new_edges) =>
    g ← add_successors_to_wq id e g;
    v ← vset (vclocks g) id vc;
    let g := set_clocks v g in
    let g := if (new_in : bool) then wq_add_first id g else g in
    g ← add_edges new_edges g;
    Some (inr g)
  end.

Fixpoint saturate_loop (fuel : nat) (g : graph) : option (bool * graph) :=
  if wq_empty g then
    let g := set_wq (wq_queue g) [] g in
    _ ← check_graph_consistency g; Some (true, g)
  else
    match fuel with
    | 0 => None
    | S fuel =>
      r ← saturate_one g;
      match r with inl g => Some (false, g) | inr g => saturate_loop fuel g end
    end.

(** Rounds enough for [n] events: every round shortens the queue or raises one
    of the [n] clocks, which have room for [n * n] steps in all and put at most
    [n] events back into the queue. *)
Definition saturate_fuel (n : nat) : nat := (n * n + 1) * (n + 1).

Definition saturate (g : graph) : option (bool * graph) :=
  _ ← check_graph_consistency g;
  g ← reverse_saturate g;
  saturate_loop (saturate_fuel (length (events g))) g.

(** ** Printing *)

Definition newline : string := String (Ascii.ascii_of_nat 10) "".
Definition quoted (s : string) : string :=
  String (Ascii.ascii_of_nat 34) (s +:+ String (Ascii.ascii_of_nat 34) "").

Definition print_edge (p id : ID) (label : string) : string :=
  pretty p +:+ " -> " +:+ pretty id +:+ " [label=" +:+ quoted label +:+ "];" +:+ newline.

Definition print_event (event_str : ExtID -> string) (g : graph) (id : ID) (o : string)
    : option string :=
  e ← events g !! id;
  i ← ins g !! id;
  Some (o +:+ pretty id +:+ " [label=" +:+ quoted (event_str (ext_id e)) +:+ "];" +:+ newline
          +:+ (match read_from e with Some w => print_edge w id "rf" | None => "" end)
          +:+ (match po_predecessor e with Some p => print_edge p id "po" | None => "" end)
          +:+ String.concat "" ((fun p => print_edge p id "in") <$> i)).

Definition print_graph (event_str : ExtID -> string) (g : graph) : option string :=
  o ← for_range (length (events g)) 0 (print_event event_str g) ("digraph {" +:+ newline);
  Some (o +:+ "}" +:+ newline).
