(* ===== verification/SatWf.v ===== *)
(** * SatWf: well-formed saturated graphs

    The invariant of [SatGraph.graph]: the indexes by process and by address
    describe the events ([skeleton]), the two directions of the edges agree
    ([edges_ok]), the queue and its marks agree ([queue_ok]), and the clocks are
    in range and below what [recompute_vc_for_event] would give ([clocks_ok]).
    The lemmas say what the primitive operations do on such graphs. *)

From S2P Require Import Prelude.
From S2P Require Import VClock.
From S2P Require Import CPid.
From S2P Require Import SymAddr.
From S2P Require Import SatGraph.

(** ** Loops *)

(** A loop every round of which succeeds and re-establishes an invariant over
    the elements done so far. *)
Lemma for_each_total {A St} (Inv : list A -> St -> Prop) (body : A -> St -> option St) l :
  (forall pre x post st, l = pre ++ x :: post -> Inv pre st ->
     exists st', body x st = Some st' /\ Inv (pre ++ [x]) st') ->
  forall st, Inv [] st -> exists st', for_each l body st = Some st' /\ Inv l st'.
Proof.
  intros Hbody. enough (forall post pre st, l = pre ++ post -> Inv pre st ->
    exists st', for_each post body st = Some st' /\ Inv l st') as H by (intros; by apply (H l [])).
  induction post as [|x post IH]; intros pre st Hl HI; simpl.
  { rewrite app_nil_r in Hl. subst. by exists st. }
  destruct (Hbody pre x post st Hl HI) as (st' & -> & HI'). simpl.
  apply (IH (pre ++ [x])); [by rewrite Hl, <-app_assoc|done].
Qed.

Lemma for_each_keep {A St} (I : St -> Prop) (body : A -> St -> option St) l :
  (forall x st, x ∈ l -> I st -> exists st', body x st = Some st' /\ I st') ->
  forall st, I st -> exists st', for_each l body st = Some st' /\ I st'.
Proof.
  intros Hbody st HI. apply (for_each_total (fun _ => I)); [|done].
  intros pre x post st' -> HI'. apply Hbody; [|done]. apply elem_of_app. right. by left.
Qed.

Lemma for_each_seq {St} (body : nat -> St -> option St) n : forall i st,
  for_range n i body st = for_each (seq i n) body st.
Proof.
  induction n as [|n IH]; intros i st; simpl; [done|].
  destruct (body i st); simpl; [apply IH|done].
Qed.

(** ** Sorted ranges *)

Lemma sorted_lookup_lt l i j x y :
  StronglySorted lt l -> l !! i = Some x -> l !! j = Some y -> i < j -> x < y.
Proof.
  intros Hs. revert i j. induction Hs as [|z l Hs IH Hall]; intros i j Hi Hj Hij; [done|].
  destruct i as [|i], j as [|j]; simpl in *; [lia| |lia|by eapply (IH i j); [..|lia]].
  simplify_eq. rewrite Forall_forall in Hall. apply Hall. by eapply list_elem_of_lookup_2.
Qed.

Lemma sorted_lookup_iff l i j x y :
  StronglySorted lt l -> l !! i = Some x -> l !! j = Some y -> i < j <-> x < y.
Proof.
  intros Hs Hi Hj. split; [by eapply sorted_lookup_lt|]. intros Hxy.
  destruct (Nat.lt_total i j) as [|[->|Hji]]; [done|simplify_eq; lia|].
  pose proof (sorted_lookup_lt l j i y x Hs Hj Hi Hji). lia.
Qed.

Lemma sorted_lookup_inj l i j x :
  StronglySorted lt l -> l !! i = Some x -> l !! j = Some x -> i = j.
Proof.
  intros Hs Hi Hj. destruct (Nat.lt_total i j) as [H|[|H]]; [|done|];
    [pose proof (sorted_lookup_lt _ _ _ _ _ Hs Hi Hj H)
    |pose proof (sorted_lookup_lt _ _ _ _ _ Hs Hj Hi H)]; lia.
Qed.

Lemma sorted_lt_snoc l x : StronglySorted lt l -> (forall y, y ∈ l -> y < x) -> StronglySorted lt (l ++ [x]).
Proof.
  induction 1 as [|z l Hs IH Hall]; intros Hx; simpl; [repeat constructor|].
  constructor; [apply IH; intros; apply Hx; by right|].
  apply Forall_app. split; [done|]. repeat constructor. apply Hx. by left.
Qed.

Lemma upper_bound_le l x : upper_bound l x <= length l.
Proof. induction l; simpl; [done|]. case_decide; lia. Qed.

Lemma upper_bound_below l x i y : i < upper_bound l x -> l !! i = Some y -> y <= x.
Proof.
  revert i. induction l as [|z l IH]; intros i; simpl; [lia|]. case_decide; [lia|].
  destruct i; simpl; [intros; simplify_eq; lia|]. intros. apply (IH i); [lia|done].
Qed.

Lemma upper_bound_above l x i y :
  StronglySorted lt l -> upper_bound l x <= i -> l !! i = Some y -> x < y.
Proof.
  intros Hs. revert i. induction Hs as [|z l Hs IH Hall]; intros i; simpl; [done|].
  case_decide as Hd.
  - intros _ Hi. destruct i; simpl in *; [by simplify_eq|].
    rewrite Forall_forall in Hall. specialize (Hall y). apply list_elem_of_lookup_2 in Hi.
    specialize (Hall Hi). lia.
  - destruct i; [lia|]. intros. apply (IH i); [lia|done].
Qed.

Lemma lower_bound_below l x i y : i < lower_bound l x -> l !! i = Some y -> y < x.
Proof.
  revert i. induction l as [|z l IH]; intros i; simpl; [lia|]. case_decide; [|lia].
  destruct i; simpl; [intros; simplify_eq; lia|]. intros. apply (IH i); [lia|done].
Qed.

Lemma lower_bound_above l x i y :
  StronglySorted lt l -> lower_bound l x <= i -> l !! i = Some y -> x <= y.
Proof.
  intros Hs. revert i. induction Hs as [|z l Hs IH Hall]; intros i; simpl; [done|].
  case_decide as Hd.
  - destruct i; [lia|]. intros. apply (IH i); [lia|done].
  - intros _ Hi. destruct i; simpl in *; [simplify_eq; lia|].
    rewrite Forall_forall in Hall. specialize (Hall y). apply list_elem_of_lookup_2 in Hi.
    specialize (Hall Hi). lia.
Qed.

(** ** Views of a graph *)

(** [a] comes before [b] in program order, by reads-from or by an edge. *)
Definition edge (g : graph) (a b : nat) : Prop :=
  exists e i, events g !! b = Some e /\ ins g !! b = Some i /\ a ∈ preds e i.

Definition process (g : graph) (p : nat) : list nat := default [] (events_by_pid g !! p).
Definition pwrites (g : graph) (p : nat) (a : SymAddr) : list nat :=
  default [] (default ∅ (writes_by_process_and_address g !! p) !! a).
Definition clock (g : graph) (id p : nat) : Z := clk (default [] (vclocks g !! id)) p.

(** The [k]-th event of process [p] (from 1). *)
Definition positioned (g : graph) (p : nat) (k : Z) (id : nat) : Prop :=
  exists e, events g !! id = Some e /\ ev_pid e = p /\ ev_index e = k.

(** What [recompute_vc_for_event] would give. *)
Definition own_clock (e : Event) (p : nat) : Z := if decide (p = ev_pid e) then ev_index e else 0.
Definition fresh (g : graph) (e : Event) (i : list nat) (p : nat) : Z :=
  foldr Z.max (own_clock e p) ((fun a => clock g a p) <$> preds e i).

Record skeleton (g : graph) : Prop := {
  sk_event id e : events g !! id = Some e -> (0 < ev_index e)%Z /\
    process g (ev_pid e) !! (Z.to_nat (ev_index e) - 1) = Some id;
  sk_process p k id : process g p !! k = Some id -> positioned g p (Z.of_nat k + 1) id;
  sk_sorted p : StronglySorted lt (process g p);
  sk_po id e : events g !! id = Some e ->
    po_predecessor e = if decide (ev_index e = 1%Z) then None
                       else process g (ev_pid e) !! (Z.to_nat (ev_index e) - 2);
  sk_width : length (writes_by_process_and_address g) = length (events_by_pid g);
  sk_writes p a id : id ∈ pwrites g p a <->
    exists e, events g !! id = Some e /\ ev_pid e = p /\ is_store e = true /\ ev_addr e = a;
  sk_wsorted p a : StronglySorted lt (pwrites g p a);
  sk_first a p : default ∅ (writes_by_address g !! a) !! p = head (pwrites g p a);
  sk_inits a id : id ∈ default [] (reads_from_init g !! a) <->
    exists e, events g !! id = Some e /\ is_load e = true /\ read_from e = None /\ ev_addr e = a;
  sk_rf id e w : events g !! id = Some e -> read_from e = Some w ->
    is_load e = true /\ exists ew, events g !! w = Some ew /\ is_store ew = true /\
      ev_addr ew = ev_addr e /\ id ∈ readers ew;
  sk_readers w ew r : events g !! w = Some ew -> r ∈ readers ew ->
    exists er, events g !! r = Some er /\ read_from er = Some w;
  sk_ext x i : extid_to_id g !! x = Some i -> i < length (events g);
}.

Record edges_ok (g : graph) : Prop := {
  eo_ins : length (ins g) = length (events g);
  eo_outs : length (outs g) = length (events g);
  eo_in id i a : ins g !! id = Some i -> a ∈ i -> exists o, outs g !! a = Some o /\ id ∈ o;
  eo_out id o b : outs g !! id = Some o -> b ∈ o ->
    exists e i, events g !! b = Some e /\ ins g !! b = Some i /\
      (id ∈ i \/ po_predecessor e = Some id);
  eo_po id e p : events g !! id = Some e -> po_predecessor e = Some p ->
    exists o, outs g !! p = Some o /\ id ∈ o;
}.

Record queue_ok (g : graph) : Prop := {
  qo_nodup : NoDup (wq_queue g);
  qo_marks id : id ∈ wq_queue g <-> wq_set g !! id = Some true;
  qo_bound id : id ∈ wq_queue g -> id < length (events g);
}.

Record clocks_ok (g : graph) : Prop := {
  co_length : length (vclocks g) = length (events g);
  co_range id p : (0 <= clock g id p <= Z.of_nat (length (process g p)))%Z;
  co_grow id e i p : events g !! id = Some e -> ins g !! id = Some i ->
    (clock g id p <= fresh g e i p)%Z;
}.

Record wf (g : graph) : Prop := {
  wf_skeleton : skeleton g;
  wf_edges : edges_ok g;
  wf_queue : queue_ok g;
  wf_clocks : clocks_ok g;
  wf_until : saturated_until g <= length (events g);
}.

(** Two graphs with the same events and indexes: only edges, clocks and the
    queue may differ. *)
Definition same_events (g g' : graph) : Prop :=
  extid_to_id g' = extid_to_id g /\ events g' = events g /\
  events_by_pid g' = events_by_pid g /\ writes_by_address g' = writes_by_address g /\
  reads_from_init g' = reads_from_init g /\
  writes_by_process_and_address g' = writes_by_process_and_address g.

#[export] Instance same_events_preorder : PreOrder same_events.
Proof.
  split; unfold same_events; [done|].
  intros g1 g2 g3 (? & ? & ? & ? & ? & ?) (? & ? & ? & ? & ? & ?). split_and!; congruence.
Qed.

Lemma skeleton_same g g' : same_events g g' -> skeleton g -> skeleton g'.
Proof.
  intros (E1 & E2 & E3 & E4 & E5 & E6) [].
  split; unfold positioned, process, pwrites in *; rewrite ?E1, ?E2, ?E3, ?E4, ?E5, ?E6; auto.
Qed.

Lemma same_process g g' p : same_events g g' -> process g' p = process g p.
Proof. unfold process. by intros (_ & _ & -> & _). Qed.
Lemma same_pwrites g g' p a : same_events g g' -> pwrites g' p a = pwrites g p a.
Proof. unfold pwrites. by intros (_ & _ & _ & _ & _ & ->). Qed.
Lemma same_positioned g g' p k id : same_events g g' -> positioned g' p k id <-> positioned g p k id.
Proof. unfold positioned. by intros (_ & -> & _). Qed.

(** [store_at g p k a x]: the [k]-th event of [p], [x], is a store to [a]. *)
Definition store_at (g : graph) (p : nat) (k : Z) (a : SymAddr) (x : nat) : Prop :=
  exists e, events g !! x = Some e /\ ev_pid e = p /\ ev_index e = k /\
    is_store e = true /\ ev_addr e = a.

Lemma store_at_positioned g p k a x : store_at g p k a x -> positioned g p k x.
Proof. intros (e & ? & ? & ? & _). by exists e. Qed.

Lemma events_lt g id e : events g !! id = Some e -> id < length (events g).
Proof. apply lookup_lt_Some. Qed.

(** ** Positions *)

Section skeleton.
Context (g : graph) (Hsk : skeleton g).

Lemma positioned_lookup p k id :
  positioned g p k id -> (0 < k)%Z /\ process g p !! (Z.to_nat k - 1) = Some id.
Proof. intros (e & He & <- & <-). by apply (sk_event g Hsk). Qed.

Lemma positioned_range p k id :
  positioned g p k id -> (0 < k <= Z.of_nat (length (process g p)))%Z.
Proof. intros [? Hl%lookup_lt_Some]%positioned_lookup. lia. Qed.

Lemma positioned_exists p k :
  (0 < k <= Z.of_nat (length (process g p)))%Z -> exists id, positioned g p k id.
Proof.
  intros Hk. destruct (lookup_lt_exists (process g p) (Z.to_nat k - 1)) as [id Hid]; [lia|].
  exists id. replace k with (Z.of_nat (Z.to_nat k - 1) + 1)%Z by lia. by apply (sk_process g Hsk).
Qed.

Lemma positioned_inj p k a b : positioned g p k a -> positioned g p k b -> a = b.
Proof. intros [_ Ha]%positioned_lookup [_ Hb]%positioned_lookup. congruence. Qed.

Lemma positioned_lt p k k' a b :
  positioned g p k a -> positioned g p k' b -> (k < k')%Z <-> a < b.
Proof.
  intros [? Ha]%positioned_lookup [? Hb]%positioned_lookup.
  rewrite <-(sorted_lookup_iff _ _ _ _ _ (sk_sorted g Hsk p) Ha Hb). lia.
Qed.

Lemma positioned_le p k k' a b :
  positioned g p k a -> positioned g p k' b -> (k <= k')%Z <-> a <= b.
Proof. intros Ha Hb. pose proof (positioned_lt p k' k b a Hb Ha). lia. Qed.

Lemma process_event p k :
  (0 < k <= Z.of_nat (length (process g p)))%Z ->
  exists l, events_by_pid g !! p = Some l /\ l = process g p.
Proof.
  intros Hk. unfold process in *. destruct (events_by_pid g !! p) eqn:E; [by eexists|].
  simpl in Hk. lia.
Qed.

Lemma get_process_event_spec p k :
  (0 < k <= Z.of_nat (length (process g p)))%Z ->
  exists id, get_process_event g p (Z.to_nat k) = Some id /\ positioned g p k id.
Proof.
  intros Hk. destruct (positioned_exists p k Hk) as [id Hid]. exists id. split; [|done].
  destruct (process_event p k Hk) as (l & E & ->). unfold get_process_event. rewrite E. simpl.
  rewrite !bool_decide_true by lia. simpl. by apply positioned_lookup.
Qed.

Lemma maybe_get_process_event_spec p k :
  p < length (events_by_pid g) -> (0 < k)%Z ->
  exists r, maybe_get_process_event g p (Z.to_nat k) = Some r /\
    match r with
    | Some id => positioned g p k id
    | None => (Z.of_nat (length (process g p)) < k)%Z
    end.
Proof.
  intros [l E]%lookup_lt_exists Hk. unfold maybe_get_process_event.
  assert (El : process g p = l) by (unfold process; by rewrite E). rewrite E. simpl.
  rewrite bool_decide_true by lia. simpl. case_decide as Hl.
  - eexists; split; [done|]. simpl. rewrite El. lia.
  - destruct (positioned_exists p k) as [id Hid]; [rewrite El; lia|].
    destruct (positioned_lookup _ _ _ Hid) as [_ Hp]. rewrite El in Hp. rewrite Hp. simpl.
    by eexists.
Qed.

Lemma po_predecessor_spec id e p :
  events g !! id = Some e -> po_predecessor e = Some p ->
  positioned g (ev_pid e) (ev_index e - 1) p.
Proof.
  intros He Hp. destruct (sk_event g Hsk id e He) as [Hi _].
  rewrite (sk_po g Hsk id e He) in Hp. case_decide as H1; [done|].
  replace (ev_index e - 1)%Z with (Z.of_nat (Z.to_nat (ev_index e) - 2) + 1)%Z by lia.
  by apply (sk_process g Hsk).
Qed.

Lemma po_predecessor_exists id e p k :
  events g !! id = Some e -> ev_pid e = p -> ev_index e = (k + 1)%Z -> (0 < k)%Z ->
  exists x, po_predecessor e = Some x /\ positioned g p k x.
Proof.
  intros He <- Hk Hpos. destruct (sk_event g Hsk id e He) as [_ Hl].
  apply lookup_lt_Some in Hl. rewrite (sk_po g Hsk id e He), decide_False by lia.
  destruct (positioned_exists (ev_pid e) k) as [x Hx]; [lia|]. exists x. split; [|done].
  destruct (positioned_lookup _ _ _ Hx) as [_ <-]. f_equal. lia.
Qed.

Lemma store_at_pwrites p a x : x ∈ pwrites g p a <-> exists k, store_at g p k a x.
Proof.
  rewrite (sk_writes g Hsk). split.
  - intros (e & ? & ? & ? & ?). exists (ev_index e), e. done.
  - intros (k & e & ? & ? & _ & ? & ?). by exists e.
Qed.

Lemma pwrites_defined p k x :
  positioned g p k x -> exists w, writes_by_process_and_address g !! p = Some w.
Proof.
  intros Hx. pose proof (positioned_range _ _ _ Hx) as Hk.
  destruct (process_event p k Hk) as (l & E & _). apply lookup_lt_exists.
  rewrite (sk_width g Hsk). by eapply lookup_lt_Some.
Qed.

(** [last_write] finds the last store of [p] to [a], other than [id], that
    index [k] shows. *)
Lemma last_write_spec id a p k :
  (0 < k <= Z.of_nat (length (process g p)))%Z ->
  exists r, last_write g id a p (Z.to_nat k) = Some r /\
    match r with
    | None => forall j x, store_at g p j a x -> (j <= k)%Z -> x = id
    | Some x => x <> id /\ (exists j, store_at g p j a x /\ (j <= k)%Z /\
        forall j' x', store_at g p j' a x' -> (j' <= k)%Z -> x' <> id -> (j' <= j)%Z)
    end.
Proof.
  intros Hk. unfold last_write. destruct (get_process_event_spec p k Hk) as (v & -> & Hv).
  destruct (pwrites_defined p k v Hv) as [w Ew]. rewrite Ew. simpl.
  assert (Hw : default [] (w !! a) = pwrites g p a) by (unfold pwrites; by rewrite Ew).
  rewrite Hw. pose proof (sk_wsorted g Hsk p a) as Hs.
  pose proof (upper_bound_le (pwrites g p a) v) as Hle.
  assert (Hup : forall j x, store_at g p j a x -> (j <= k)%Z ->
    exists i, pwrites g p a !! i = Some x /\ i < upper_bound (pwrites g p a) v).
  { intros j x Hx Hj. assert (Hin : x ∈ pwrites g p a) by (apply store_at_pwrites; eauto).
    apply list_elem_of_lookup_1 in Hin as [i Hi]. exists i. split; [done|].
    destruct (decide (i < upper_bound (pwrites g p a) v)); [done|].
    pose proof (upper_bound_above _ v i x Hs ltac:(lia) Hi).
    pose proof (positioned_le p j k x v (store_at_positioned _ _ _ _ _ Hx) Hv). lia. }
  assert (Hdn : forall i x, pwrites g p a !! i = Some x -> i < upper_bound (pwrites g p a) v ->
    exists j, store_at g p j a x /\ (j <= k)%Z).
  { intros i x Hi Hlt. destruct (store_at_pwrites p a x) as [[j Hj] _].
    { by eapply list_elem_of_lookup_2. }
    exists j. split; [done|].
    apply (positioned_le p j k x v (store_at_positioned _ _ _ _ _ Hj) Hv).
    by eapply upper_bound_below. }
  assert (Hmax : forall i x j, pwrites g p a !! i = Some x -> store_at g p j a x ->
    forall j' x' i', store_at g p j' a x' -> pwrites g p a !! i' = Some x' -> i' <= i -> (j' <= j)%Z).
  { intros i x j Hi Hj j' x' i' Hj' Hi' Hle'.
    apply (positioned_le p j' j x' x); [by eapply store_at_positioned..|].
    destruct (decide (i' = i)) as [->|]; [simplify_eq; lia|].
    pose proof (sorted_lookup_lt _ i' i x' x Hs Hi' Hi). lia. }
  destruct (upper_bound (pwrites g p a) v) as [|ub] eqn:Eub.
  { eexists; split; [done|]. intros j x Hx Hj. destruct (Hup j x Hx Hj) as (i & _ & ?). lia. }
  destruct (lookup_lt_exists (pwrites g p a) ub) as [x Hx]; [lia|]. rewrite Hx. simpl.
  destruct (Hdn ub x Hx) as (j & Hj & Hjk); [lia|]. case_decide as Hid.
  - subst x. destruct ub as [|ub].
    + eexists; split; [done|]. intros j' x' Hx' Hj'. destruct (Hup j' x' Hx' Hj') as (i & Hi & ?).
      assert (i = 0) as -> by lia. congruence.
    + destruct (lookup_lt_exists (pwrites g p a) ub) as [y Hy]; [lia|]. rewrite Hy. simpl.
      destruct (Hdn ub y Hy) as (jy & Hjy & Hjyk); [lia|].
      eexists; split; [done|]. split.
      { intros ->. pose proof (sorted_lookup_inj _ _ _ _ Hs Hx Hy). lia. }
      exists jy. split_and!; [done|done|]. intros j' x' Hx' Hj' Hne.
      destruct (Hup j' x' Hx' Hj') as (i & Hi & ?). eapply (Hmax ub y); [done..|].
      destruct (decide (i = S ub)) as [->|]; [congruence|lia].
  - eexists; split; [done|]. split; [done|]. exists j. split_and!; [done|done|].
    intros j' x' Hx' Hj' _. destruct (Hup j' x' Hx' Hj') as (i & Hi & ?).
    eapply (Hmax ub x); [done..|lia].
Qed.

(** The next event of the same process. *)
Lemma po_successor_spec id e :
  events g !! id = Some e ->
  exists r, po_successor g id e = Some r /\
    forall s, r = Some s <-> positioned g (ev_pid e) (ev_index e + 1) s.
Proof.
  intros He. destruct (sk_event g Hsk id e He) as [Hpos Hl].
  pose proof (lookup_lt_Some _ _ _ Hl) as Hlt.
  destruct (process_event (ev_pid e) (ev_index e)) as (l & E & El); [lia|].
  unfold po_successor. rewrite E. simpl. rewrite El. clear l E El.
  set (l := process g (ev_pid e)) in *. pose proof (sk_sorted g Hsk (ev_pid e)) as Hs. fold l in Hs.
  destruct (last l) as [b|] eqn:Eb; [|apply last_None in Eb; rewrite Eb in Hlt; simpl in Hlt; lia].
  simpl. assert (Hb : l !! (length l - 1) = Some b).
  { rewrite last_lookup in Eb. rewrite <-Eb. f_equal. lia. }
  case_decide as Hid.
  - subst b. eexists; split; [done|]. intros s. split; [done|].
    intros Hx%positioned_range. fold l in Hx.
    pose proof (sorted_lookup_inj _ _ _ _ Hs Hl Hb). lia.
  - assert (Hub : upper_bound l id = Z.to_nat (ev_index e)).
    { destruct (Nat.lt_total (upper_bound l id) (Z.to_nat (ev_index e))) as [H|[|H]]; [|done|].
      - pose proof (upper_bound_above l id (Z.to_nat (ev_index e) - 1) id Hs ltac:(lia) Hl). lia.
      - assert (Hlt' : Z.to_nat (ev_index e) < length l).
        { pose proof (upper_bound_le l id). lia. }
        destruct (lookup_lt_exists l (Z.to_nat (ev_index e)) Hlt') as [y Hy].
        pose proof (upper_bound_below l id _ y H Hy).
        pose proof (sorted_lookup_lt l _ _ _ _ Hs Hl Hy). lia. }
    rewrite Hub. assert (Hlt' : Z.to_nat (ev_index e) < length l).
    { destruct (decide (Z.to_nat (ev_index e) < length l)); [done|]. exfalso. apply Hid.
      replace (length l - 1) with (Z.to_nat (ev_index e) - 1) in Hb by lia. congruence. }
    destruct (lookup_lt_exists l (Z.to_nat (ev_index e)) Hlt') as [y Hy]. rewrite Hy. simpl.
    assert (Hpy : positioned g (ev_pid e) (ev_index e + 1) y).
    { replace (ev_index e + 1)%Z with (Z.of_nat (Z.to_nat (ev_index e)) + 1)%Z by lia.
      by apply (sk_process g Hsk). }
    eexists; split; [done|]. intros s. split; [by intros [= <-]|].
    intros Hs'. f_equal. by eapply positioned_inj.
Qed.
End skeleton.

(** ** Clocks *)

Lemma elem_of_preds e i a :
  a ∈ preds e i <-> po_predecessor e = Some a \/ read_from e = Some a \/ a ∈ i.
Proof.
  unfold preds. rewrite !elem_of_app.
  assert (H : forall o : option nat, a ∈ option_list o <-> o = Some a).
  { intros [x|]; simpl; [rewrite list_elem_of_singleton; naive_solver|].
    split; [by intros ?%not_elem_of_nil|done]. }
  by rewrite !H.
Qed.

Lemma pred_lt g id e i a :
  skeleton g -> edges_ok g -> events g !! id = Some e -> ins g !! id = Some i -> a ∈ preds e i ->
  a < length (events g).
Proof.
  intros Hsk Heo He Hi [Hp|[Hr|Hin]]%elem_of_preds.
  - destruct (po_predecessor_spec g Hsk _ _ _ He Hp) as (x & Hx & _). by eapply events_lt.
  - destruct (sk_rf g Hsk _ _ _ He Hr) as (_ & ew & Hw & _). by eapply events_lt.
  - destruct (eo_in g Heo _ _ _ Hi Hin) as (o & Ho & _). rewrite <-(eo_outs g Heo).
    by eapply lookup_lt_Some.
Qed.

Lemma edge_lt g a b : skeleton g -> edges_ok g -> edge g a b ->
  a < length (events g) /\ b < length (events g).
Proof.
  intros Hsk Heo (e & i & He & Hi & Ha). split; [by eapply pred_lt|by eapply events_lt].
Qed.

Lemma foldr_max_ge (l : list Z) z x : x ∈ l \/ x = z -> (x <= foldr Z.max z l)%Z.
Proof.
  induction l as [|y l IH]; simpl; [intros [?%not_elem_of_nil|]; [done|lia]|].
  intros [[->|Hx]%elem_of_cons| ->]; [lia| |]; specialize (IH ltac:(auto)); lia.
Qed.
Lemma foldr_max_in (l : list Z) z : foldr Z.max z l = z \/ foldr Z.max z l ∈ l.
Proof.
  induction l as [|y l IH]; simpl; [by left|].
  destruct (Z.max_spec y (foldr Z.max z l)) as [[_ ->]|[_ ->]]; [|right; by left].
  destruct IH; [by left|right; by right].
Qed.
Lemma foldr_max_app (l l' : list Z) z :
  foldr Z.max z (l ++ l') = Z.max (foldr Z.max z l) (foldr Z.max z l').
Proof. induction l as [|y l IH]; simpl; [|lia]. induction l'; simpl; lia. Qed.

Lemma fresh_own g e i p : (own_clock e p <= fresh g e i p)%Z.
Proof. apply foldr_max_ge. by right. Qed.
Lemma fresh_pred g e i p a : a ∈ preds e i -> (clock g a p <= fresh g e i p)%Z.
Proof. intros. apply foldr_max_ge. left. by apply (list_elem_of_fmap_2 (fun a => clock g a p)). Qed.
Lemma fresh_cases g e i p :
  fresh g e i p = own_clock e p \/ exists a, a ∈ preds e i /\ fresh g e i p = clock g a p.
Proof.
  unfold fresh. edestruct foldr_max_in as [->|H]; [by left|]. right.
  apply list_elem_of_fmap in H as (a & -> & ?). by exists a.
Qed.

Lemma fresh_mono g g' e i i' p :
  (forall a, a ∈ preds e i -> a ∈ preds e i') -> (forall a, clock g a p <= clock g' a p)%Z ->
  (fresh g e i p <= fresh g' e i' p)%Z.
Proof.
  intros Hi Hc. destruct (fresh_cases g e i p) as [->|(a & Ha & ->)]; [apply fresh_own|].
  etrans; [apply Hc|]. apply fresh_pred. auto.
Qed.

Lemma clock_lookup g id v p : vclocks g !! id = Some v -> clock g id p = clk v p.
Proof. unfold clock. by intros ->. Qed.

Lemma own_clock_pos g id e p :
  skeleton g -> events g !! id = Some e -> (0 <= own_clock e p)%Z.
Proof. intros Hsk He. destruct (sk_event g Hsk _ _ He). unfold own_clock. case_decide; lia. Qed.

Lemma recompute_spec g id e i :
  skeleton g -> edges_ok g -> clocks_ok g -> events g !! id = Some e -> ins g !! id = Some i ->
  exists vc, recompute_vc_for_event g e i = Some vc /\ forall p, clk vc p = fresh g e i p.
Proof.
  intros Hsk Heo Hco He Hi. unfold recompute_vc_for_event, initial_vc_for_event.
  destruct (vc_set_spec [] (ev_pid e) (ev_index e)) as (v0 & -> & Hv0). simpl.
  assert (Hown : forall p, clk v0 p = own_clock e p).
  { intros p. rewrite Hv0. unfold own_clock. case_decide; [done|]. by rewrite clk_ge by (simpl; lia). }
  destruct (for_each_total (fun pre vc => forall p,
      clk vc p = foldr Z.max (own_clock e p) ((fun a => clock g a p) <$> pre))
    (fun id vc => v ← vclocks g !! id; vc_plus_assign vc v) (preds e i)) with (st := v0)
    as (vc & -> & Hvc); [|done|by exists vc].
  intros pre x post vc Hpre IH.
  assert (Hx : x < length (vclocks g)).
  { rewrite (co_length g Hco). eapply pred_lt; [done..|].
    rewrite Hpre. apply elem_of_app. right. by left. }
  destruct (lookup_lt_exists _ _ Hx) as [v Hv]. rewrite Hv. simpl.
  destruct (vc_plus_assign_spec vc v) as (r & -> & Hr).
  { intros p. rewrite IH. etrans; [by eapply (own_clock_pos g)|]. apply foldr_max_ge. by right. }
  eexists; split; [done|]. intros p. rewrite Hr, IH, fmap_app, foldr_max_app. simpl.
  rewrite (clock_lookup _ _ _ _ Hv).
  assert (own_clock e p <= foldr Z.max (own_clock e p) ((fun a => clock g a p) <$> pre))%Z
    by (apply foldr_max_ge; by right). lia.
Qed.

(** The new clock is in range, for a graph whose clocks are. *)
Lemma fresh_range g id e i p :
  skeleton g -> clocks_ok g -> events g !! id = Some e ->
  (0 <= fresh g e i p <= Z.of_nat (length (process g p)))%Z.
Proof.
  intros Hsk Hco He. destruct (fresh_cases g e i p) as [->|(a & _ & ->)];
    [|apply (co_range g Hco)].
  split; [by eapply own_clock_pos|]. unfold own_clock. case_decide; [|lia]. subst.
  apply (positioned_range g Hsk _ _ id). by exists e.
Qed.

Lemma vc_found_spec g vc l :
  (forall a, a ∈ l -> a < length (vclocks g)) ->
  exists b, vc_found g vc l = Some b /\
    (b = true <-> exists a, a ∈ l /\ forall p, clock g a p = clk vc p).
Proof.
  induction l as [|a l IH]; intros Hl; simpl.
  { exists false. split; [done|]. split; [done|]. by intros (a & ?%not_elem_of_nil & _). }
  destruct (lookup_lt_exists (vclocks g) a) as [v Hv]; [apply Hl; by left|]. rewrite Hv. simpl.
  unfold vc_neq. destruct (vc_eq_spec v vc) as (r & -> & Hr). simpl.
  destruct IH as (b & Hb & Hb'); [intros; apply Hl; by right|]. destruct r; simpl.
  - exists true. split; [done|]. split; [|done]. intros _. exists a. split; [by left|].
    intros p. rewrite (clock_lookup _ _ _ _ Hv). by apply Hr.
  - exists b. split; [done|]. rewrite Hb'. split.
    + intros (x & ? & ?). exists x. split; [by right|done].
    + intros (x & [->|?]%elem_of_cons & Hx); [|by exists x].
      assert (false = true) as [=]. apply Hr. intros p.
      by rewrite <-(clock_lookup _ _ _ _ Hv).
Qed.

Lemma is_in_cycle_spec g id e i vc :
  skeleton g -> edges_ok g -> clocks_ok g -> events g !! id = Some e -> ins g !! id = Some i ->
  exists b, is_in_cycle g e i vc = Some b /\
    (b = true <-> exists a, edge g a id /\ forall p, clock g a p = clk vc p).
Proof.
  intros Hsk Heo Hco He Hi. destruct (vc_found_spec g vc (preds e i)) as (b & Hb & Hb').
  { intros a Ha. rewrite (co_length g Hco). by eapply pred_lt. }
  exists b. split; [done|]. rewrite Hb'. split; intros (a & Ha & ?); exists a; (split; [|done]).
  - by exists e, i.
  - destruct Ha as (e' & i' & ? & ? & ?). by simplify_eq.
Qed.

(** ** The work queue *)

Lemma wq_mark_lookup g id j :
  wq_mark g id !! j = Some true <-> j = id \/ wq_set g !! j = Some true.
Proof.
  unfold wq_mark. set (s := if decide _ then _ else _).
  assert (Hs : id < length s /\ forall j, s !! j = Some true <-> wq_set g !! j = Some true).
  { unfold s. case_decide as Hl; [|split; [lia|done]]. rewrite length_resize. split; [lia|].
    intros k. rewrite resize_ge by lia. destruct (decide (k < length (wq_set g))).
    - by rewrite lookup_app_l.
    - rewrite (lookup_ge_None_2 (wq_set g)), lookup_app_r by lia.
      split; [|done]. by intros [? _]%lookup_replicate_1. }
  destruct Hs as [Hl Hs]. destruct (decide (j = id)) as [->|].
  - rewrite list_lookup_insert_eq by done. naive_solver.
  - rewrite list_lookup_insert_ne by done. rewrite Hs. naive_solver.
Qed.

Lemma wq_marked_spec g id : queue_ok g -> wq_marked g id = true <-> id ∈ wq_queue g.
Proof.
  intros Hq. rewrite (qo_marks g Hq). unfold wq_marked.
  destruct (wq_set g !! id) as [[]|]; naive_solver.
Qed.

(** [requeued g g' x]: [g'] is [g] with a queue that also holds [x]. *)
Lemma wq_add_spec g id :
  queue_ok g -> id < length (events g) ->
  same_events g (wq_add id g) /\ queue_ok (wq_add id g) /\
  forall x, x ∈ wq_queue (wq_add id g) <-> x = id \/ x ∈ wq_queue g.
Proof.
  intros Hq Hid. unfold wq_add. pose proof (wq_marked_spec g id Hq) as Hm.
  destruct (wq_marked g id).
  { split_and!; [done..|]. naive_solver. }
  assert (Hni : id ∉ wq_queue g) by naive_solver.
  assert (Hx : forall x, x ∈ wq_queue g ++ [id] <-> x = id \/ x ∈ wq_queue g).
  { intros x. rewrite elem_of_app, list_elem_of_singleton. naive_solver. }
  split_and!; [done| |done]. destruct Hq. split; simpl.
  - apply NoDup_app. split_and!; [done| |apply NoDup_singleton].
    intros x Hxin ->%list_elem_of_singleton. done.
  - intros x. rewrite Hx, wq_mark_lookup, qo_marks0. done.
  - intros x [->|]%Hx; auto.
Qed.

Lemma wq_add_first_spec g id :
  queue_ok g -> id < length (events g) ->
  same_events g (wq_add_first id g) /\ queue_ok (wq_add_first id g) /\
  forall x, x ∈ wq_queue (wq_add_first id g) <-> x = id \/ x ∈ wq_queue g.
Proof.
  intros Hq Hid. unfold wq_add_first. pose proof (wq_marked_spec g id Hq) as Hm.
  destruct (wq_marked g id).
  { split_and!; [done..|]. naive_solver. }
  assert (Hni : id ∉ wq_queue g) by naive_solver.
  split_and!; [done| |simpl; intros x; by rewrite elem_of_cons]. destruct Hq. split; simpl.
  - by constructor.
  - intros x. rewrite elem_of_cons, wq_mark_lookup, qo_marks0. done.
  - intros x [->|]%elem_of_cons; auto.
Qed.

Lemma wq_pop_spec g :
  queue_ok g -> wq_empty g = false ->
  exists id s, wq_pop g = Some (id, set_wq (tail (wq_queue g)) s g) /\
    id < length (events g) /\ queue_ok (set_wq (tail (wq_queue g)) s g) /\
    (forall x, x ∈ wq_queue g <-> x = id \/ x ∈ tail (wq_queue g)) /\
    length (wq_queue g) = S (length (tail (wq_queue g))).
Proof.
  intros Hq He. unfold wq_pop. destruct Hq as [Hnd Hm Hb].
  destruct (wq_queue g) as [|id q] eqn:E; [unfold wq_empty in He; by rewrite E in He|].
  apply bool_decide_eq_false in He.
  assert (Hid : wq_set g !! id = Some true) by (apply Hm; by left).
  rewrite vset_Some by (by eapply lookup_lt_Some). simpl.
  eexists _, _. split_and!; [done|apply Hb; by left| |by intros x; rewrite elem_of_cons|done].
  inversion_clear Hnd as [|? ? Hni Hnd']. split; simpl; [done| |intros; apply Hb; by right].
  intros x. destruct (decide (x = id)) as [->|Hne].
  - rewrite list_lookup_insert_eq by (by eapply lookup_lt_Some). naive_solver.
  - rewrite list_lookup_insert_ne by done. rewrite <-Hm, elem_of_cons. naive_solver.
Qed.

Lemma queue_length g : queue_ok g -> length (wq_queue g) <= length (events g).
Proof.
  intros Hq. rewrite <-(length_seq (length (events g)) 0).
  apply submseteq_length, NoDup_submseteq; [apply (qo_nodup g Hq)|].
  intros x Hx%(qo_bound g Hq). apply elem_of_seq. lia.
Qed.

(** ** Growing the edges *)

(** [g'] is [g] with the edges [E] added and the events [Q] queued. *)
Record grown (g : graph) (E : nat -> nat -> Prop) (Q : nat -> Prop) (g' : graph) : Prop := {
  gr_same : same_events g g';
  gr_clocks : vclocks g' = vclocks g;
  gr_until : saturated_until g' = saturated_until g;
  gr_ok : edges_ok g';
  gr_queue_ok : queue_ok g';
  gr_edge a b : edge g' a b <-> edge g a b \/ E a b;
  gr_queue x : x ∈ wq_queue g' <-> x ∈ wq_queue g \/ Q x;
  gr_outs x : (forall b, ~ E x b) -> outs g' !! x = outs g !! x;
  gr_out x o b : outs g !! x = Some o -> b ∈ o -> exists o', outs g' !! x = Some o' /\ b ∈ o';
}.

Lemma grown_refl g : edges_ok g -> queue_ok g -> grown g (fun _ _ => False) (fun _ => False) g.
Proof. intros. split; try done; [naive_solver..|]. intros. eauto. Qed.

Lemma grown_trans g1 g2 g3 E1 E2 Q1 Q2 :
  grown g1 E1 Q1 g2 -> grown g2 E2 Q2 g3 ->
  grown g1 (fun a b => E1 a b \/ E2 a b) (fun x => Q1 x \/ Q2 x) g3.
Proof.
  intros [] []. split; try done; [by etrans|congruence|congruence| | | |].
  - intros a b. rewrite gr_edge1, gr_edge0. naive_solver.
  - intros x. rewrite gr_queue1, gr_queue0. naive_solver.
  - intros x Hx. rewrite gr_outs1, gr_outs0; naive_solver.
  - intros x o b Ho Hb. destruct (gr_out0 x o b Ho Hb) as (o' & Ho' & Hb'). by eapply gr_out1.
Qed.

Lemma grown_weaken g g' E E' Q Q' :
  grown g E Q g' -> (forall a b, E a b <-> E' a b) -> (forall x, Q x <-> Q' x) -> grown g E' Q' g'.
Proof.
  intros [] HE HQ. split; try done; [|..].
  - intros a b. by rewrite gr_edge0, HE.
  - intros x. by rewrite gr_queue0, HQ.
  - intros x Hx. apply gr_outs0. intros b ?%HE. by eapply Hx.
Qed.

Lemma grown_queue g g' E Q : grown g E Q g' -> forall x, x ∈ wq_queue g -> x ∈ wq_queue g'.
Proof. intros Hg x Hx. apply (gr_queue _ _ _ _ Hg). by left. Qed.

Lemma push_at_spec {A} (v : list (list A)) i x :
  i < length v ->
  exists l, v !! i = Some l /\ push_at v i x = Some (<[i := l ++ [x]]> v).
Proof.
  intros Hi. destruct (lookup_lt_exists v i Hi) as [l Hl]. exists l. split; [done|].
  unfold push_at. rewrite Hl. simpl. by apply vset_Some.
Qed.

(** The edge [from -> to] in both directions, without queueing. *)
Lemma with_edge_spec g from to :
  edges_ok g -> queue_ok g -> from < length (events g) -> to < length (events g) ->
  exists i o, ins g !! to = Some i /\ outs g !! from = Some o /\
    let g' := set_ins (<[to := i ++ [from]]> (ins g)) (set_outs (<[from := o ++ [to]]> (outs g)) g) in
    (g ← add_in to from g; add_out from to g) = Some g' /\
    (g ← add_out from to g; add_in to from g) = Some g' /\
    grown g (fun a b => a = from /\ b = to) (fun _ => False) g'.
Proof.
  intros Heo Hq Hf Ht.
  destruct (push_at_spec (ins g) to from) as (i & Hi & Ei); [by rewrite (eo_ins g Heo)|].
  destruct (push_at_spec (outs g) from to) as (o & Ho & Eo); [by rewrite (eo_outs g Heo)|].
  exists i, o. cbv zeta. split_and!; [done|done|..].
  - unfold add_in, add_out. rewrite Ei. simpl. rewrite Eo. done.
  - unfold add_in, add_out. rewrite Eo. simpl. rewrite Ei. done.
  - assert (Hti : to < length (ins g)) by (by eapply lookup_lt_Some).
    assert (Hfo : from < length (outs g)) by (by eapply lookup_lt_Some).
    assert (Hout : forall x l b, outs g !! x = Some l -> b ∈ l ->
      exists l', <[from := o ++ [to]]> (outs g) !! x = Some l' /\ b ∈ l').
    { intros x l b Hx Hb. destruct (decide (x = from)) as [->|].
      - rewrite list_lookup_insert_eq by done. eexists; split; [done|]. simplify_eq.
        apply elem_of_app. by left.
      - rewrite list_lookup_insert_ne by done. by exists l. }
    assert (Hin : forall x l b, ins g !! x = Some l -> b ∈ l ->
      exists l', <[to := i ++ [from]]> (ins g) !! x = Some l' /\ b ∈ l').
    { intros x l b Hx Hb. destruct (decide (x = to)) as [->|].
      - rewrite list_lookup_insert_eq by done. eexists; split; [done|]. simplify_eq.
        apply elem_of_app. by left.
      - rewrite list_lookup_insert_ne by done. by exists l. }
    assert (Hdef : forall x l, ins g !! x = Some l ->
      exists l', <[to := i ++ [from]]> (ins g) !! x = Some l').
    { intros x l Hx. apply lookup_lt_exists. rewrite length_insert. by eapply lookup_lt_Some. }
    destruct Heo. split; try done; simpl.
    + split; simpl; rewrite ?length_insert; try done.
      * intros x l a Hx Ha. destruct (decide (x = to)) as [->|].
        { rewrite list_lookup_insert_eq in Hx by done. simplify_eq.
          apply elem_of_app in Ha as [Ha| ->%list_elem_of_singleton].
          - destruct (eo_in0 _ _ _ Hi Ha) as (l' & ? & ?). by eapply Hout.
          - rewrite list_lookup_insert_eq by done. eexists; split; [done|].
            apply elem_of_app. right. by apply list_elem_of_singleton. }
        rewrite list_lookup_insert_ne in Hx by done.
        destruct (eo_in0 _ _ _ Hx Ha) as (l' & ? & ?). by eapply Hout.
      * intros x l b Hx Hb.
        assert (Hold : forall l0, outs g !! x = Some l0 -> b ∈ l0 -> exists e i0,
          events g !! b = Some e /\ <[to:=i ++ [from]]> (ins g) !! b = Some i0 /\
          (x ∈ i0 \/ po_predecessor e = Some x)).
        { intros l0 Hl0 Hb0. destruct (eo_out0 _ _ _ Hl0 Hb0) as (e & i0 & He & Hi0 & [Hx0|Hx0]).
          - destruct (Hin _ _ _ Hi0 Hx0) as (i1 & ? & ?). exists e, i1. auto.
          - destruct (Hdef _ _ Hi0) as (i1 & ?). exists e, i1. auto. }
        destruct (decide (x = from)) as [->|].
        { rewrite list_lookup_insert_eq in Hx by done. simplify_eq.
          apply elem_of_app in Hb as [Hb| ->%list_elem_of_singleton]; [by eapply Hold|].
          destruct (lookup_lt_exists (events g) to) as [e He]; [done|].
          exists e, (i ++ [from]). rewrite list_lookup_insert_eq by done.
          split_and!; [done|done|]. left. apply elem_of_app. right. by apply list_elem_of_singleton. }
        rewrite list_lookup_insert_ne in Hx by done. by eapply Hold.
      * intros x e p He Hp. destruct (eo_po0 _ _ _ He Hp) as (l & ? & ?). by eapply Hout.
    + destruct Hq. by split.
    + intros a b. unfold edge; simpl. split.
      * intros (e & l & He & Hl & Ha). destruct (decide (b = to)) as [->|].
        { rewrite list_lookup_insert_eq in Hl by done. simplify_eq.
          apply elem_of_preds in Ha as [?|[?|[?| ->%list_elem_of_singleton]%elem_of_app]].
          4: by right.
          all: left; exists e, i; rewrite elem_of_preds; auto. }
        rewrite list_lookup_insert_ne in Hl by done. left. by exists e, l.
      * intros [(e & l & He & Hl & Ha)|[-> ->]].
        { apply elem_of_preds in Ha as [Hp|[Hr|Hin']].
          - destruct (Hdef _ _ Hl) as (l' & ?). exists e, l'. rewrite elem_of_preds. auto.
          - destruct (Hdef _ _ Hl) as (l' & ?). exists e, l'. rewrite elem_of_preds. auto.
          - destruct (Hin _ _ _ Hl Hin') as (l' & ? & ?). exists e, l'. rewrite elem_of_preds. auto. }
        destruct (lookup_lt_exists (events g) to) as [e He]; [done|].
        exists e, (i ++ [from]). rewrite list_lookup_insert_eq by done.
        split_and!; [done|done|]. rewrite elem_of_preds, elem_of_app, list_elem_of_singleton. auto.
    + naive_solver.
    + intros x Hx. rewrite list_lookup_insert_ne; [done|]. intros ->. by eapply (Hx to).
Qed.

Lemma grown_wq_add g g' E Q id :
  grown g E Q g' -> id < length (events g) ->
  grown g E (fun x => Q x \/ x = id) (wq_add id g').
Proof.
  intros Hg Hid. assert (Hid' : id < length (events g')).
  { by destruct (gr_same _ _ _ _ Hg) as (_ & -> & _). }
  destruct (wq_add_spec g' id (gr_queue_ok _ _ _ _ Hg) Hid') as (Hs & Hq & Hx).
  assert (Hrest : ins (wq_add id g') = ins g' /\ outs (wq_add id g') = outs g' /\
    events (wq_add id g') = events g' /\ vclocks (wq_add id g') = vclocks g' /\
    saturated_until (wq_add id g') = saturated_until g').
  { unfold wq_add. by destruct (wq_marked g' id). }
  destruct Hrest as (Ei & Eo & Ee & Ev & Eu). destruct Hg. split; try done.
  - by etrans.
  - congruence.
  - congruence.
  - destruct gr_ok0. split; rewrite ?Ei, ?Eo, ?Ee; done.
  - intros a b. rewrite <-gr_edge0. unfold edge. by rewrite Ei, Ee.
  - intros x. rewrite Hx, gr_queue0. naive_solver.
  - intros x Hx'. rewrite Eo. auto.
  - intros x o b Ho Hb. rewrite Eo. eauto.
Qed.

Lemma add_edge_internal_spec g from to :
  edges_ok g -> queue_ok g -> from < length (events g) -> to < length (events g) ->
  exists g', add_edge_internal from to g = Some g' /\
    grown g (fun a b => a = from /\ b = to) (fun x => x = to) g'.
Proof.
  intros Heo Hq Hf Ht. destruct (with_edge_spec g from to) as (i & o & _ & _ & _ & E & Hg); [done..|].
  unfold add_edge_internal. destruct (add_out from to g); simpl in *; [|done].
  rewrite E. simpl. eexists; split; [done|].
  eapply grown_weaken; [by apply (grown_wq_add _ _ _ _ to Hg)|done|naive_solver].
Qed.

(** Clocks that are well-formed stay so when edges are added. *)
Lemma grown_edge g g' E Q a b : grown g E Q g' -> edge g a b -> edge g' a b.
Proof. intros Hg ?. apply (gr_edge _ _ _ _ Hg). by left. Qed.

Lemma grown_clock g g' E Q id p : grown g E Q g' -> clock g' id p = clock g id p.
Proof. intros Hg. unfold clock. by rewrite (gr_clocks _ _ _ _ Hg). Qed.

Lemma clocks_ok_grown g g' E Q :
  edges_ok g -> clocks_ok g -> grown g E Q g' -> clocks_ok g'.
Proof.
  intros Heo Hco Hg. pose proof (gr_same _ _ _ _ Hg) as Hs. destruct Hco. split.
  - destruct Hs as (_ & -> & _). by rewrite (gr_clocks _ _ _ _ Hg).
  - intros id p. by rewrite (grown_clock _ _ _ _ _ _ Hg), (same_process g g').
  - intros id e i p He Hi. rewrite (grown_clock _ _ _ _ _ _ Hg).
    destruct Hs as (_ & Ee & _). rewrite Ee in He.
    assert (Hid : id < length (ins g)) by (rewrite (eo_ins g Heo); by eapply events_lt).
    destruct (lookup_lt_exists _ _ Hid) as [i0 Hi0]. etrans; [by apply (co_grow0 id e i0)|].
    apply fresh_mono; [|intros; by rewrite (grown_clock _ _ _ _ _ _ Hg)].
    intros a Ha. assert (edge g' a id) as (e' & i' & He' & Hi' & Ha').
    { apply (gr_edge _ _ _ _ Hg). left. by exists e, i0. }
    rewrite Ee in He'. by simplify_eq.
Qed.

Lemma wf_grown g g' E Q : wf g -> grown g E Q g' -> wf g'.
Proof.
  intros [] Hg. split.
  - eapply skeleton_same; [by eapply gr_same|done].
  - by eapply gr_ok.
  - by eapply gr_queue_ok.
  - by eapply clocks_ok_grown.
  - rewrite (gr_until _ _ _ _ Hg). by destruct (gr_same _ _ _ _ Hg) as (_ & -> & _).
Qed.
