(* ===== verification/SatLoop.v ===== *)
(** * SatLoop: one round of the saturation loop

    What [saturate_one] does to a well-formed graph: it never fails, and it
    either refutes the graph (a cycle, or a read from the initial value that a
    store precedes), or leaves it as it is, or raises the clock of one event and
    adds edges that are forced by it. The debug check passes on every
    well-formed graph. *)

From S2P Require Import Prelude.
From S2P Require Import VClock.
From S2P Require Import CPid.
From S2P Require Import SymAddr.
From S2P Require Import SatGraph.
From S2P Require Import SatWf.

Lemma for_ret_total {R St} (Inv : nat -> St -> Prop) (Ret : R -> Prop)
    (body : nat -> St -> option (R + St)) n : forall i st,
  (forall k st, i <= k < i + n -> Inv k st -> exists r, body k st = Some r /\
     match r with inl x => Ret x | inr st' => Inv (S k) st' end) ->
  Inv i st ->
  exists r, for_ret n i body st = Some r /\
    match r with inl x => Ret x | inr st' => Inv (i + n) st' end.
Proof.
  induction n as [|n IH]; intros i st Hbody HI; simpl.
  { exists (inr st). by rewrite Nat.add_0_r. }
  destruct (Hbody i st) as (r & -> & Hr); [lia|done|]. simpl. destruct r as [x|st'].
  { by exists (inl x). }
  destruct (IH (S i) st') as (r & -> & Hr'); [intros; apply Hbody; [lia|done]|done|].
  exists r. split; [done|]. by rewrite <-Nat.add_succ_comm.
Qed.

(** ** The debug check *)

Lemma contains_true l id : id ∈ l -> contains l id = true.
Proof.
  intros Hin. unfold contains. apply existsb_exists. exists id.
  split; [by apply list_elem_of_In|by apply bool_decide_true].
Qed.

Lemma for_each_check {A} (body : A -> unit -> option unit) l :
  (forall x, x ∈ l -> body x tt = Some tt) -> for_each l body tt = Some tt.
Proof.
  induction l as [|x l IH]; intros Hb; simpl; [done|]. rewrite Hb by (by left). simpl.
  apply IH. intros. apply Hb. by right.
Qed.

Lemma check_ok g : skeleton g -> edges_ok g -> check_graph_consistency g = Some tt.
Proof.
  intros Hsk Heo. unfold check_graph_consistency. rewrite for_each_seq.
  apply for_each_check. intros id Hid%elem_of_seq. unfold check_event.
  destruct (lookup_lt_exists (events g) id) as [e He]; [lia|].
  destruct (lookup_lt_exists (ins g) id) as [i Hi]; [rewrite (eo_ins g Heo); lia|].
  destruct (lookup_lt_exists (outs g) id) as [o Ho]; [rewrite (eo_outs g Heo); lia|].
  rewrite He, Hi. simpl.
  assert (Hins : for_each i (fun i _ => o ← outs g !! i; cassert (contains o id)) tt = Some tt).
  { apply for_each_check. intros a Ha. destruct (eo_in g Heo _ _ _ Hi Ha) as (o' & -> & ?). simpl.
    by rewrite contains_true. }
  rewrite Hins. simpl.
  assert (Hrf : match read_from e with
    | Some w => ew ← events g !! w;
                _ ← cassert (is_store ew && bool_decide (ev_addr ew = ev_addr e));
                cassert (contains (readers ew) id)
    | None => Some tt end = Some tt).
  { destruct (read_from e) as [w|] eqn:Er; [|done].
    destruct (sk_rf g Hsk _ _ _ He Er) as (_ & ew & Hw & Hst & Ha & Hin). rewrite Hw.
    simpl. rewrite Hst, Ha, bool_decide_true by done. simpl. by rewrite contains_true. }
  rewrite Hrf. simpl.
  assert (Hpo : match po_predecessor e with
    | Some p => o ← outs g !! p; cassert (contains o id) | None => Some tt end = Some tt).
  { destruct (po_predecessor e) as [p|] eqn:Ep; [|done].
    destruct (eo_po g Heo _ _ _ He Ep) as (o' & -> & ?). simpl. by rewrite contains_true. }
  rewrite Hpo. simpl. rewrite Ho. simpl.
  assert (Hout : for_each o (fun out _ =>
        oute ← events g !! out; i ← ins g !! out;
        cassert (contains i id || bool_decide (po_predecessor oute = Some id))) tt = Some tt).
  { apply for_each_check. intros b Hb.
    destruct (eo_out g Heo _ _ _ Ho Hb) as (eb & ib & Hb1 & Hb2 & Hor).
    rewrite Hb1; simpl. rewrite Hb2; simpl. destruct Hor as [?|?];
      [by rewrite contains_true|by rewrite bool_decide_true, orb_true_r by done]. }
  rewrite Hout. simpl.
  destruct (is_store e); [|done]. apply for_each_check. intros r Hr.
  destruct (sk_readers g Hsk _ _ _ He Hr) as (er & Her & Hr'). rewrite Her. simpl.
  destruct (sk_rf g Hsk _ _ _ Her Hr') as [-> _]. simpl. by rewrite bool_decide_true.
Qed.

(** ** What a round may infer *)

(** [x] is the last store of [p] to [a], other than [id], up to index [k]. *)
Definition last_other (g : graph) (id : nat) (a : SymAddr) (p : nat) (k : Z) (x : nat) : Prop :=
  x <> id /\ exists j, store_at g p j a x /\ (j <= k)%Z /\
    forall j' x', store_at g p j' a x' -> (j' <= k)%Z -> x' <> id -> (j' <= j)%Z.

(** The edges owed once store [pe] is known to precede [id]: the readers of [pe]
    come before [id] when [id] is a store, and [pe] comes before the store that
    [id] reads when it is a load. *)
Definition due (g : graph) (id : nat) (e : Event) (pe a b : nat) : Prop :=
  (is_store e = true /\ b = id /\ a <> id /\
     exists pev, events g !! pe = Some pev /\ a ∈ readers pev) \/
  (is_load e = true /\ read_from e = Some b /\ a = pe /\ pe <> b).

Section round.
Context (g0 : graph) (id : nat) (e : Event) (vc : nat -> Z).

(** [pe] is a store to the address of [id] that the clock [vc] shows. *)
Definition shown (pe : nat) : Prop :=
  pe <> id /\ exists p j, store_at g0 p j (ev_addr e) pe /\ (j <= vc p)%Z.
Definition forced (a b : nat) : Prop := exists pe, shown pe /\ due g0 id e pe a b.
Definition refuted : Prop := is_load e = true /\ read_from e = None /\ exists pe, shown pe.

(** All that the part of the clock beyond [old] for process [p] asks for is in [new]. *)
Definition covered (old : nat -> Z) (new : nat -> nat -> Prop) (p : nat) : Prop :=
  forall pe j, last_other g0 id (ev_addr e) p (vc p) pe -> positioned g0 p j pe -> (old p < j)%Z ->
    is_load e || is_store e = true ->
    (is_load e = true -> read_from e <> None) /\ forall a b, due g0 id e pe a b -> new a b.

Lemma last_other_shown p k pe :
  last_other g0 id (ev_addr e) p k pe -> (k <= vc p)%Z -> shown pe.
Proof. intros (Hne & j & Hj & Hk & _) Hle. split; [done|]. exists p, j. split; [done|lia]. Qed.

Lemma forced_lt a b :
  skeleton g0 -> events g0 !! id = Some e -> forced a b ->
  a < length (events g0) /\ b < length (events g0).
Proof.
  intros Hsk He (pe & (_ & p & j & (pev & Hpe & _) & _) &
    [(_ & -> & _ & pev' & Hpe' & Hr)|(_ & Hrf & -> & _)]).
  - destruct (sk_readers g0 Hsk _ _ _ Hpe' Hr) as (er & ? & _).
    split; by eapply events_lt.
  - destruct (sk_rf g0 Hsk _ _ _ He Hrf) as (_ & ew & ? & _). split; by eapply events_lt.
Qed.
End round.

(** The state of the loop over the processes: edges [E] into [id] are in the
    graph, the coherence edges are still to be added. *)
Record gathering (g0 : graph) (id : nat) (e : Event) (vc old : nat -> Z) (k : nat)
    (st : graph * bool * list (nat * nat)) : Prop := {
  ga_edges : exists E, grown g0 E (fun _ => False) st.1.1 /\
    (forall a b, E a b -> b = id /\ st.1.2 = true /\ forced g0 id e vc a b) /\
    (forall p, p < k -> covered g0 id e vc old (fun a b => E a b \/ (a, b) ∈ st.2) p);
  ga_list a b : (a, b) ∈ st.2 -> forced g0 id e vc a b;
}.

Lemma reader_loads g w ew r :
  skeleton g -> events g !! w = Some ew -> r ∈ readers ew ->
  exists er, events g !! r = Some er /\ is_load er && bool_decide (ev_addr er = ev_addr ew) = true.
Proof.
  intros Hsk Hw Hr. destruct (sk_readers g Hsk w ew r Hw Hr) as (er & Her & Hrf).
  destruct (sk_rf g Hsk r er w Her Hrf) as (Hl & ew' & ? & _ & Ha & _). simplify_eq.
  exists er. split; [done|]. by rewrite Hl, bool_decide_true by congruence.
Qed.

Lemma add_from_reads_spec g0 g E id e pe pev ni :
  skeleton g0 -> grown g0 E (fun _ => False) g -> events g0 !! pe = Some pev ->
  ev_addr pev = ev_addr e -> id < length (events g0) ->
  exists g' ni', add_from_reads id e pev g ni = Some (g', ni') /\
    grown g0 (fun a b => E a b \/ (b = id /\ a <> id /\ a ∈ readers pev)) (fun _ => False) g' /\
    (ni = true -> ni' = true) /\ (forall a, a ∈ readers pev -> a <> id -> ni' = true).
Proof.
  intros Hsk Hg Hpe Hae Hid. unfold add_from_reads.
  destruct (for_each_total (fun pre st =>
      grown g0 (fun a b => E a b \/ (b = id /\ a <> id /\ a ∈ pre)) (fun _ => False) st.1 /\
      (ni = true -> st.2 = true) /\ (forall a, a ∈ pre -> a <> id -> st.2 = true))
    (fun r st => let '(g, new_in) := st in
      if decide (r = id) then Some (g, new_in) else
      re ← events g !! r; _ ← cassert (is_load re && bool_decide (ev_addr re = ev_addr e));
      g ← add_in id r g; g ← add_out r id g; Some (g, true)) (readers pev)) with (st := (g, ni))
    as ([g' ni'] & Er & H); [| |by exists g', ni'].
  - intros pre r post [g1 n1] Hl (Hg1 & Hn & Hn'). cbn [fst snd] in Hg1, Hn, Hn'.
    case_decide as Hr.
    + subst r. eexists; split; [done|]. split_and!; [|done|].
      * eapply grown_weaken; [apply Hg1| |done]. intros a b.
        rewrite elem_of_app, list_elem_of_singleton. naive_solver.
      * intros a [?| ->%list_elem_of_singleton]%elem_of_app ?; [by eapply Hn'|done].
    + assert (Hlen : length (events g1) = length (events g0)).
      { by destruct (gr_same _ _ _ _ Hg1) as (_ & -> & _). }
      destruct (reader_loads g0 pe pev r Hsk Hpe) as (er & Her & Hload).
      { rewrite Hl. apply elem_of_app. right. by left. }
      rewrite Hae in Hload. assert (Her1 : events g1 !! r = Some er).
      { by destruct (gr_same _ _ _ _ Hg1) as (_ & -> & _). }
      rewrite Her1. cbn [mbind option_bind]. rewrite Hload. cbn [cassert mbind option_bind].
      apply events_lt in Her.
      destruct (with_edge_spec g1 r id) as (i & o & _ & _ & H); [apply Hg1|apply Hg1|lia|lia|].
      cbv zeta in H. destruct H as (E1 & _ & Hg2). destruct (add_in id r g1) as [g1'|]; [|done].
      simpl in E1 |- *. rewrite E1. simpl.
      eexists; split; [done|]. split_and!; [|done|done].
      eapply grown_weaken; [eapply grown_trans; [apply Hg1|apply Hg2]| |naive_solver].
      intros a b. rewrite elem_of_app, list_elem_of_singleton. naive_solver.
  - split_and!; [|done|by intros a ?%not_elem_of_nil].
    eapply grown_weaken; [apply Hg| |done]. intros a b. rewrite elem_of_nil. naive_solver.
Qed.

Lemma last_write_other g id a p k :
  skeleton g -> (0 < k <= Z.of_nat (length (process g p)))%Z ->
  exists r, last_write g id a p (Z.to_nat k) = Some r /\
    match r with
    | Some x => last_other g id a p k x
    | None => forall x, ~ last_other g id a p k x
    end.
Proof.
  intros Hsk Hk. destruct (last_write_spec g Hsk id a p k Hk) as (r & -> & Hr).
  exists r. split; [done|]. destruct r as [x|]; [done|].
  intros x (Hne & j & Hj & Hjk & _). apply Hne. by eapply Hr.
Qed.

Lemma last_other_inj g id a p k x y :
  skeleton g -> last_other g id a p k x -> last_other g id a p k y -> x = y.
Proof.
  intros Hsk (Hx & j & Hj & Hjk & Hjm) (Hy & j' & Hj' & Hjk' & Hjm').
  assert (j = j') as <-.
  { pose proof (Hjm _ _ Hj' Hjk' Hy). pose proof (Hjm' _ _ Hj Hjk Hx). lia. }
  eapply positioned_inj; [done|by eapply store_at_positioned..].
Qed.

Lemma saturate_process_spec g0 id e vc old_vc vcf oldf p st :
  skeleton g0 -> events g0 !! id = Some e -> is_load e || is_store e = true ->
  (forall p, clk vc p = vcf p) -> (forall p, clk old_vc p = oldf p) ->
  (forall p, 0 <= oldf p <= vcf p)%Z ->
  (forall p, vcf p <= Z.of_nat (length (process g0 p)))%Z ->
  gathering g0 id e vcf oldf p st ->
  exists r, saturate_process id e vc old_vc p st = Some r /\
    match r with
    | inl g' => refuted g0 id e vcf /\ exists E, grown g0 E (fun _ => False) g'
    | inr st' => gathering g0 id e vcf oldf (S p) st'
    end.
Proof.
  intros Hsk He Hls Hvc Hold Hle Hrange. destruct st as [[g ni] ne].
  intros [(E & Hg & HE & Hcov) Hlist]. cbn [fst snd] in *.
  unfold saturate_process. rewrite !vc_get_spec, Hvc, Hold. cbn [mbind option_bind].
  pose proof (gr_same _ _ _ _ Hg) as Hsame.
  (* a process that asks for nothing more *)
  assert (Hskip : (forall pe j, last_other g0 id (ev_addr e) p (vcf p) pe -> positioned g0 p j pe ->
      (oldf p < j)%Z -> False) -> gathering g0 id e vcf oldf (S p) (g, ni, ne)).
  { intros Hno. split; [|done]. exists E. split_and!; [done|done|]. intros q Hq.
    destruct (decide (q = p)) as [->|]; [|apply Hcov; lia]. intros pe j H1 H2 H3. by destruct (Hno pe j). }
  case_decide as Heq.
  { eexists; split; [done|]. apply Hskip. intros pe j (_ & j' & Hj' & Hle' & _) Hj Hlt.
    destruct Hj as (e1 & ? & ? & ?), Hj' as (e2 & ? & ? & ? & _). simplify_eq. lia. }
  pose proof (Hle p). pose proof (Hrange p). rewrite bool_decide_true by lia. cbn [cassert mbind option_bind].
  destruct (last_write_other g id (ev_addr e) p (vcf p)) as (r & -> & Hr).
  { by eapply skeleton_same. } { rewrite (same_process g0 g) by done. lia. }
  simpl. assert (Hlo : forall x, last_other g id (ev_addr e) p (vcf p) x <->
      last_other g0 id (ev_addr e) p (vcf p) x).
  { unfold last_other, store_at. by destruct Hsame as (_ & -> & _). }
  destruct r as [pe|].
  2:{ eexists; split; [done|]. apply Hskip. intros pe j Hpe. exfalso. by apply (Hr pe), Hlo. }
  apply Hlo in Hr. destruct Hr as (Hne & j & Hj & Hjk & Hmax).
  assert (Hlast : last_other g0 id (ev_addr e) p (vcf p) pe) by (split; [done|by exists j]).
  destruct Hj as (pev & Hpe & Hpp & Hpj & Hps & Hpa).
  assert (Hpe' : events g !! pe = Some pev) by (by destruct Hsame as (_ & -> & _)).
  rewrite Hpe'. simpl. rewrite (bool_decide_true (pe <> id)) by done. simpl. case_decide as Hold'.
  { eexists; split; [done|]. apply Hskip. intros pe2 j2 H2 (e2 & ? & ? & ?) Hlt.
    assert (pe2 = pe) as -> by by eapply last_other_inj. simplify_eq. lia. }
  rewrite bool_decide_true by lia. simpl.
  assert (Hshown : shown g0 id e vcf pe) by (by eapply last_other_shown).
  (* the from-reads *)
  assert (Hfr : exists g' ni' E', (if is_store e then add_from_reads id e pev g ni else Some (g, ni))
      = Some (g', ni') /\ grown g0 E' (fun _ => False) g' /\
      (forall a b, E a b -> E' a b) /\
      (forall a b, E' a b -> b = id /\ ni' = true /\ forced g0 id e vcf a b) /\
      (is_store e = true -> forall a, a ∈ readers pev -> a <> id -> E' a id)).
  { destruct (is_store e) eqn:Est; [|exists g, ni, E; by split_and!].
    destruct (add_from_reads_spec g0 g E id e pe pev ni) as (g' & ni' & -> & Hg' & Hn & Hn');
      [done..|by eapply events_lt|].
    exists g', ni'. eexists. split_and!; [done|apply Hg'|by left| |intros _ a ??; by right].
    intros a b [Hab|(-> & Ha & Hr)].
    - destruct (HE _ _ Hab) as (-> & ? & ?). auto.
    - split_and!; [done|by eapply Hn'|]. exists pe. split; [done|]. left.
      split_and!; [done|done|done|by exists pev]. }
  destruct Hfr as (g' & ni' & E' & -> & Hg' & HEE & HE' & Hst). simpl.
  assert (Hall : forall new : nat -> nat -> Prop, (forall a b, E' a b -> new a b) ->
      (forall a b, (a, b) ∈ ne -> new a b) ->
      (is_load e = true -> exists w, read_from e = Some w /\ (pe <> w -> new pe w)) ->
      forall q, q < S p -> covered g0 id e vcf oldf new q).
  { intros new Hn1 Hn2 Hld q Hq. destruct (decide (q = p)) as [->|].
    - intros pe2 j2 H2 Hj2 Hlt2 _. assert (pe2 = pe) as -> by by eapply last_other_inj. split.
      + intros Hload. destruct (Hld Hload) as (w & -> & _). done.
      + intros a b [(Hs & -> & Ha & pev' & Hpev' & Hr)|(Hload & Hw & -> & Hne')].
        * simplify_eq. by apply Hn1, Hst.
        * destruct (Hld Hload) as (w & Hw' & Hnew). simplify_eq. auto.
    - intros pe2 j2 H2 Hj2 Hlt2 H3. destruct (Hcov q ltac:(lia) pe2 j2 H2 Hj2 Hlt2 H3) as [Hc1 Hc2].
      split; [done|]. intros a b [?|?]%Hc2; auto. }
  destruct (is_load e) eqn:Eld.
  - destruct (read_from e) as [w|] eqn:Erf.
    + eexists; split; [done|]. split; cbn [fst snd].
      * exists E'. split_and!; [done|done|]. apply Hall; [by left| |].
        -- intros a b Hab. right. case_decide; [done|]. apply elem_of_app. by left.
        -- intros _. exists w. split; [done|]. intros Hne'. right. rewrite decide_False by done.
           apply elem_of_app. right. by apply list_elem_of_singleton.
      * intros a b Hab. case_decide as Hw; [auto|].
        apply elem_of_app in Hab as [?|Hab%list_elem_of_singleton]; [auto|]. simplify_eq.
        exists pe. split; [done|]. right. by split_and!.
    + eexists; split; [done|]. split; [|by exists E']. split_and!; [done|done|by exists pe].
  - eexists; split; [done|]. split; [|done]. exists E'. split_and!; [done|done|].
    apply Hall; [by left|by right|done].
Qed.

(** ** A round *)

Definition clocks_of (g : graph) (id : nat) : nat -> Z := clock g id.

(** The event [id] of [g] has its clock raised to [vc] and its edges inferred. *)
Record updated (g : graph) (id : nat) (e : Event) (vc : nat -> Z) (g' : graph) : Prop := {
  up_same : same_events g g';
  up_until : saturated_until g' = saturated_until g;
  up_edges_ok : edges_ok g';
  up_queue_ok : queue_ok g';
  up_length : length (vclocks g') = length (vclocks g);
  up_clock x p : clock g' x p = if decide (x = id) then vc p else clock g x p;
  up_more : exists p, (clock g id p < vc p)%Z;
  up_edge a b : edge g a b -> edge g' a b;
  up_forced a b : edge g' a b -> edge g a b \/ (forced g id e vc a b /\ b ∈ wq_queue g');
  up_covered p : covered g id e vc (clock g id) (edge g') p;
  up_queue x : x ∈ wq_queue g -> x <> id -> x ∈ wq_queue g';
  up_succ b : edge g id b -> b ∈ wq_queue g';
}.

Lemma foldl_wq_add_spec g g' E Q l :
  grown g E Q g' -> (forall x, x ∈ l -> x < length (events g)) ->
  grown g E (fun x => Q x \/ x ∈ l) (foldl (flip wq_add) g' l).
Proof.
  revert g' Q. induction l as [|y l IH]; intros g' Q Hg Hl; simpl.
  { eapply grown_weaken; [done|done|]. intros x. rewrite elem_of_nil. naive_solver. }
  eapply grown_weaken; [apply (IH _ (fun x => Q x \/ x = y))|done|].
  - apply grown_wq_add; [done|]. apply Hl. by left.
  - intros x Hx. apply Hl. by right.
  - intros x. simpl. rewrite elem_of_cons. naive_solver.
Qed.

(** Every event that comes after [id] is put into the queue. *)
Lemma add_successors_spec g g' E id e :
  skeleton g -> edges_ok g -> grown g E (fun _ => False) g' -> events g !! id = Some e ->
  (forall a b, E a b -> b < length (events g)) ->
  exists g2 Q, add_successors_to_wq id e g' = Some g2 /\ grown g E Q g2 /\
    forall b, edge g id b -> Q b.
Proof.
  intros Hsk Heo Hg He HE. pose proof (gr_same _ _ _ _ Hg) as Hs.
  assert (Hev : events g' = events g) by (by destruct Hs as (_ & -> & _)).
  assert (Ho : id < length (outs g')).
  { rewrite (eo_outs g' (gr_ok _ _ _ _ Hg)), Hev. by eapply events_lt. }
  destruct (lookup_lt_exists _ _ Ho) as [o Hoo]. unfold add_successors_to_wq. rewrite Hoo. simpl.
  assert (Hol : forall x, x ∈ o -> x < length (events g)).
  { intros x Hx. destruct (eo_out g' (gr_ok _ _ _ _ Hg) _ _ _ Hoo Hx) as (ex & ix & Hex & _).
    rewrite Hev in Hex. by eapply events_lt. }
  assert (Hrl : forall x, x ∈ readers e -> x < length (events g)).
  { intros x Hx. destruct (sk_readers g Hsk _ _ _ He Hx) as (er & Her & _). by eapply events_lt. }
  set (gr := if is_store e then _ else _).
  assert (Hgr : grown g E (fun x => is_store e = true /\ x ∈ readers e) gr).
  { unfold gr. destruct (is_store e).
    - eapply grown_weaken; [by apply foldl_wq_add_spec|done|naive_solver].
    - eapply grown_weaken; [done|done|naive_solver]. }
  eexists _, _. split; [done|]. split; [by apply foldl_wq_add_spec|].
  intros b (eb & ib & Heb & Hib & Hpred). simpl.
  assert (Hout : (exists o0, outs g !! id = Some o0 /\ b ∈ o0) -> b ∈ o).
  { intros (o0 & Ho0 & Hb0). destruct (gr_out _ _ _ _ Hg _ _ _ Ho0 Hb0) as (o' & ? & ?).
    by simplify_eq. }
  apply elem_of_preds in Hpred as [Hp|[Hr|Hin]].
  - right. by apply Hout, (eo_po g Heo _ _ _ Heb).
  - left. destruct (sk_rf g Hsk _ _ _ Heb Hr) as (_ & ew & ? & ? & _ & ?). by simplify_eq.
  - right. by apply Hout, (eo_in g Heo _ _ _ Hib).
Qed.

Lemma add_edges_spec g l :
  edges_ok g -> queue_ok g ->
  (forall a b, (a, b) ∈ l -> a < length (events g) /\ b < length (events g)) ->
  exists g', add_edges l g = Some g' /\
    grown g (fun a b => (a, b) ∈ l) (fun x => exists a, (a, x) ∈ l) g'.
Proof.
  intros Heo Hq Hl. unfold add_edges.
  apply (for_each_total (fun pre g' =>
    grown g (fun a b => (a, b) ∈ pre) (fun x => exists a, (a, x) ∈ pre) g')).
  - intros pre [a b] post g' Hpre Hg'.
    assert (Hlen : length (events g') = length (events g)).
    { by destruct (gr_same _ _ _ _ Hg') as (_ & -> & _). }
    destruct (Hl a b) as [Ha Hb]; [rewrite Hpre; apply elem_of_app; right; by left|].
    destruct (add_edge_internal_spec g' a b) as (g2 & E2 & Hg2);
      [apply Hg'|apply Hg'|lia|lia|].
    exists g2; split; [done|]. eapply grown_weaken; [by eapply grown_trans| |].
    + intros x y. rewrite elem_of_app, list_elem_of_singleton. naive_solver.
    + intros x. setoid_rewrite elem_of_app. setoid_rewrite list_elem_of_singleton. naive_solver.
  - eapply grown_weaken; [by apply grown_refl| |]; intros; setoid_rewrite elem_of_nil; naive_solver.
Qed.

(** The event at the head of the queue is taken out. *)
Definition popped (g : graph) (id : nat) (g' : graph) : Prop :=
  (exists s, g' = set_wq (tail (wq_queue g)) s g) /\ queue_ok g' /\
  (forall x, x ∈ wq_queue g <-> x = id \/ x ∈ wq_queue g') /\
  length (wq_queue g) = S (length (wq_queue g')).

Lemma popped_grown g id g' :
  edges_ok g -> popped g id g' ->
  same_events g g' /\ edges_ok g' /\ vclocks g' = vclocks g /\
  saturated_until g' = saturated_until g /\ forall a b, edge g' a b <-> edge g a b.
Proof. intros Heo ((s & ->) & _). split_and!; try done. by destruct Heo; split. Qed.

Lemma popped_wf g id g' : wf g -> popped g id g' -> wf g'.
Proof.
  intros [Hsk Heo Hq Hco Hu] Hp. destruct (popped_grown g id g' Heo Hp) as (Hs & Heo' & _).
  destruct Hp as ((s & ->) & Hq' & _). split; [by eapply skeleton_same|done|done| |done].
  by destruct Hco; split.
Qed.

(** Setting the clock of [id] once its edges are in the graph. *)
Lemma set_clock_edges g id v (b : bool) (l : list (nat * nat)) :
  edges_ok g -> queue_ok g -> id < length (vclocks g) -> length (vclocks g) = length (events g) ->
  (forall x y, (x, y) ∈ l -> x < length (events g) /\ y < length (events g)) ->
  exists g', (v' ← vset (vclocks g) id v;
      let g := set_clocks v' g in
      let g := if b then wq_add_first id g else g in add_edges l g) = Some g' /\
    same_events g g' /\ saturated_until g' = saturated_until g /\ edges_ok g' /\ queue_ok g' /\
    length (vclocks g') = length (vclocks g) /\
    (forall x p, clock g' x p = if decide (x = id) then clk v p else clock g x p) /\
    (forall x y, edge g' x y <-> edge g x y \/ (x, y) ∈ l) /\
    (forall x, x ∈ wq_queue g' <->
       x ∈ wq_queue g \/ (b = true /\ x = id) \/ exists a, (a, x) ∈ l).
Proof.
  intros Heo Hq Hid Hlen Hl. rewrite vset_Some by done. cbn [mbind option_bind].
  set (g1 := set_clocks _ g).
  assert (Heo1 : edges_ok g1) by (by destruct Heo; split).
  assert (Hq1 : queue_ok g1) by (by destruct Hq; split).
  assert (Hg2 : exists g2, (if b then wq_add_first id g1 else g1) = g2 /\ same_events g1 g2 /\
    queue_ok g2 /\ edges_ok g2 /\ vclocks g2 = vclocks g1 /\
    saturated_until g2 = saturated_until g1 /\ (forall x y, edge g2 x y <-> edge g1 x y) /\
    forall x, x ∈ wq_queue g2 <-> x ∈ wq_queue g \/ (b = true /\ x = id)).
  { eexists; split; [done|]. destruct b; [|split_and!; try done; naive_solver].
    destruct (wq_add_first_spec g1 id Hq1) as (Hs & Hq2 & Hx); [simpl; lia|].
    assert (Hrest : ins (wq_add_first id g1) = ins g1 /\ outs (wq_add_first id g1) = outs g1 /\
      events (wq_add_first id g1) = events g1 /\ vclocks (wq_add_first id g1) = vclocks g1 /\
      saturated_until (wq_add_first id g1) = saturated_until g1).
    { unfold wq_add_first. by destruct (wq_marked g1 id). }
    destruct Hrest as (Ei & Eo & Ee & Ev & Eu). split_and!; try done.
    - destruct Heo1. split; rewrite ?Ei, ?Eo, ?Ee; done.
    - intros x y. unfold edge. by rewrite Ei, Ee.
    - intros x. rewrite Hx. naive_solver. }
  destruct Hg2 as (g2 & -> & Hs2 & Hq2 & Heo2 & Ev2 & Eu2 & Hed2 & Hqu2).
  destruct (add_edges_spec g2 l Heo2 Hq2) as (g3 & -> & Hg3).
  { by destruct Hs2 as (_ & -> & _). }
  eexists; split; [done|]. destruct Hg3.
  assert (Hclk : vclocks g3 = <[id:=v]> (vclocks g)) by by rewrite gr_clocks, Ev2.
  split_and!; [by etrans|by rewrite gr_until, Eu2|done|done|by rewrite Hclk, length_insert| | |].
  - intros x p. unfold clock. rewrite Hclk. case_decide as Hx.
    + subst. by rewrite list_lookup_insert_eq.
    + by rewrite list_lookup_insert_ne.
  - intros x y. rewrite gr_edge, Hed2. done.
  - intros x. rewrite gr_queue, Hqu2. naive_solver.
Qed.

(** The result of a round at the event [id] that heads the queue. *)
Definition round_result (g : graph) (id : nat) (e : Event) (i : list nat) (r : graph + graph) : Prop :=
  match r with
  | inl _ => (exists a, edge g a id /\ forall p, clock g a p = fresh g e i p) \/
             refuted g id e (fresh g e i)
  | inr g' => ~ (exists a, edge g a id /\ forall p, clock g a p = fresh g e i p) /\
              ((popped g id g' /\ forall p, fresh g e i p = clock g id p) \/
               updated g id e (fresh g e i) g')
  end.

Lemma saturate_one_spec g :
  wf g -> wq_empty g = false ->
  exists id e i r, id ∈ wq_queue g /\ events g !! id = Some e /\ ins g !! id = Some i /\
    saturate_one g = Some r /\ round_result g id e i r.
Proof.
  intros Hwf Hne. destruct (wq_pop_spec g (wf_queue g Hwf) Hne) as (id & s & Epop & Hid & Hq1 & Hx & Hlen).
  set (g1 := set_wq (tail (wq_queue g)) s g) in *.
  assert (Hpop : popped g id g1) by (split_and!; [by exists s|done..]).
  pose proof (popped_wf g id g1 Hwf Hpop) as [Hsk1 Heo1 _ Hco1 _].
  destruct Hwf as [Hsk Heo Hq Hco _].
  destruct (lookup_lt_exists (events g) id Hid) as [e He].
  destruct (lookup_lt_exists (ins g) id) as [i Hi]; [by rewrite (eo_ins g Heo)|].
  exists id, e, i. unfold saturate_one. rewrite Epop. simpl.
  destruct (recompute_spec g1 id e i) as (vc & Evc & Hvc); [done..|].
  destruct (is_in_cycle_spec g1 id e i vc) as (b & Eb & Hb); [done..|].
  destruct (lookup_lt_exists (vclocks g) id) as [old Hold]; [by rewrite (co_length g Hco)|].
  assert (Hcyc : b = true <-> exists a, edge g a id /\ forall p, clock g a p = fresh g e i p).
  { rewrite Hb. split; intros (a & ? & Ha); exists a; (split; [done|]); intros p;
      specialize (Ha p); rewrite Hvc in *; done. }
  rewrite He, Hi. simpl. rewrite Evc. simpl. rewrite Hold. simpl. rewrite Eb. simpl.
  destruct b.
  { rewrite check_ok by done. simpl. eexists; split_and!; [apply Hx; by left|done..|].
    left. by apply Hcyc. }
  assert (Hncyc : ~ exists a, edge g a id /\ forall p, clock g a p = fresh g e i p).
  { by intros [=]%Hcyc. }
  clear Hcyc Hb. destruct (vc_eq_spec vc old) as (same & -> & Hsame). simpl.
  assert (Hclk : forall p, clk old p = clock g id p) by (intros; by rewrite (clock_lookup _ _ _ _ Hold)).
  destruct same.
  { eexists; split_and!; [apply Hx; by left|done..|]. split; [done|]. left. split; [done|].
    intros p. rewrite <-Hclk, <-(proj1 Hsame eq_refl p), Hvc. done. }
  assert (Hle : forall p, (0 <= clock g id p <= fresh g e i p)%Z).
  { intros p. split; [apply (co_range g Hco)|by apply (co_grow g Hco)]. }
  assert (Hr : exists r, (if is_load e || is_store e
      then for_ret (length vc) 0 (saturate_process id e vc old) (g1, false, [])
      else Some (inr (g1, false, []))) = Some r /\
    match r with
    | inl g' => refuted g1 id e (fresh g e i) /\ exists E, grown g1 E (fun _ => False) g'
    | inr st => is_load e || is_store e = true /\ gathering g1 id e (fresh g e i) (clock g id) (length vc) st \/
                is_load e || is_store e = false /\ st = (g1, false, [])
    end).
  { destruct (is_load e || is_store e) eqn:Els; [|by eexists; split; [done|right]].
    destruct (for_ret_total (fun k st => gathering g1 id e (fresh g e i) (clock g id) k st)
      (fun g' => refuted g1 id e (fresh g e i) /\ exists E, grown g1 E (fun _ => False) g')
      (saturate_process id e vc old) (length vc) 0 (g1, false, [])) as (r & -> & Hr).
    - intros k st _. apply saturate_process_spec; [done..|]. intros p.
      apply (fresh_range g1 id); done.
    - split; [|by intros a b' ?%not_elem_of_nil]. eexists. split_and!; [by apply grown_refl|done|lia].
    - exists r. split; [done|]. destruct r; [done|by left]. }
  destruct Hr as (r & -> & Hr). simpl. destruct r as [g'|[[g2 ni] ne]].
  { destruct Hr as (Href & E & Hg').
    rewrite check_ok; [|by eapply skeleton_same; [apply Hg'|]|apply Hg']. simpl.
    eexists; split_and!; [apply Hx; by left|done..|]. by right. }
  (* the edges found so far, for both kinds of events *)
  assert (Hg2 : exists E, grown g1 E (fun _ => False) g2 /\
    (forall a b, E a b -> b = id /\ ni = true /\ forced g1 id e (fresh g e i) a b) /\
    (forall a b, (a, b) ∈ ne -> forced g1 id e (fresh g e i) a b) /\
    (forall p, covered g1 id e (fresh g e i) (clock g id) (fun a b => E a b \/ (a, b) ∈ ne) p)).
  { destruct Hr as [(Els & [(E & Hg2 & HE & Hcov) Hl])|(Els & [= -> -> ->])].
    - exists E. split_and!; [done..|]. intros p. destruct (decide (p < length vc)); [by apply Hcov|].
      intros pe j (_ & j' & Hj' & Hle' & _) Hpj Hlt. exfalso.
      assert (fresh g1 e i p = 0%Z) as E0 by (rewrite <-Hvc, clk_ge by lia; done).
      change (fresh g1 e i p) with (fresh g e i p) in E0.
      pose proof (Hle p) as Hlep. rewrite E0 in *.
      destruct Hpj as (e1 & ? & ? & ?), Hj' as (e2 & ? & ? & ? & _). simplify_eq. lia.
    - eexists. split_and!; [by apply grown_refl|done|by intros a b ?%not_elem_of_nil|].
      intros p pe j _ _ _. by rewrite Els. }
  destruct Hg2 as (E & Hg2 & HE & Hl & Hcov). clear Hr.
  destruct (add_successors_spec g1 g2 E id e) as (g3 & Q & -> & Hg3 & HQ); [done..| |].
  { intros a b Hab. eapply forced_lt; [done..|]. by apply HE. }
  simpl. assert (Hev : events g3 = events g) by (by destruct (gr_same _ _ _ _ Hg3) as (_ & -> & _)).
  assert (Hvl : vclocks g3 = vclocks g) by (by rewrite (gr_clocks _ _ _ _ Hg3)).
  destruct (set_clock_edges g3 id vc ni ne) as (g4 & E4 & Hs4 & Hu4 & Heo4 & Hq4 & Hl4 & Hc4 & He4 & Hqu4).
  { apply Hg3. } { apply Hg3. } { rewrite Hvl. by eapply lookup_lt_Some. }
  { rewrite Hvl, Hev. apply (co_length g Hco). }
  { intros a b Hab. rewrite Hev. eapply (forced_lt g1); [done..|]. by apply Hl. }
  destruct (vset (vclocks g3) id vc) as [v|]; [|done]. cbn [mbind option_bind] in E4 |- *.
  rewrite E4. cbn [mbind option_bind]. eexists; split_and!; [apply Hx; by left|done..|].
  split; [done|]. right. split; try done.
  - transitivity g3; [|done]. apply (gr_same _ _ _ _ Hg3).
  - rewrite Hu4. apply (gr_until _ _ _ _ Hg3).
  - by rewrite Hl4, Hvl.
  - intros x p. rewrite Hc4. case_decide; [by rewrite Hvc|].
    unfold clock. by rewrite Hvl.
  - destruct (decide (Exists (fun p => (clock g id p < fresh g e i p)%Z)
      (seq 0 (Nat.max (length vc) (length old))))) as [Hex|Hno].
    + apply Exists_exists in Hex as (p & _ & Hp). by exists p.
    + exfalso. assert (false = true) as [=]. apply Hsame. intros p.
      destruct (decide (p < Nat.max (length vc) (length old))) as [Hp|];
        [|by rewrite !clk_ge by lia].
      rewrite Hvc, Hclk. destruct (decide (clock g id p < fresh g e i p)%Z) as [Hlt|];
        [|specialize (Hle p); change (fresh g1 e i p) with (fresh g e i p); lia].
      destruct Hno. apply Exists_exists. exists p. split; [apply elem_of_seq; lia|done].
  - intros a b Hab. apply He4. left. by apply (gr_edge _ _ _ _ Hg3); left.
  - intros a b [[?|Hab]%(gr_edge _ _ _ _ Hg3)|Hab]%He4; [by left| |].
    + right. destruct (HE _ _ Hab) as (-> & -> & ?). split; [done|]. apply Hqu4. auto.
    + right. split; [by apply Hl|]. apply Hqu4. eauto.
  - intros p pe j H1 H2 H3 H4. destruct (Hcov p pe j H1 H2 H3 H4) as [H5 H6]. split; [done|].
    intros a b Hab. apply He4. destruct (H6 a b Hab) as [?|?]; [|by right].
    left. apply (gr_edge _ _ _ _ Hg3). by right.
  - intros x Hxq Hxne. apply Hqu4. left. apply (gr_queue _ _ _ _ Hg3). left.
    by apply Hx in Hxq as [?|?].
  - intros b Hb. apply Hqu4. left. apply (gr_queue _ _ _ _ Hg3). right. by apply HQ.
Qed.
