(* ===== verification/SatRun.v ===== *)
(** * SatRun: the saturation loop

    [saturate_loop] ends on every well-formed graph: a round takes an event out
    of the queue or raises a clock, and the clocks have room for [n * n] steps.
    [saturate_loop_rule] is the rule the theorems about the loop use: what the
    rounds preserve holds when the loop answers [true], and a round that refutes
    the graph made it answer [false]. *)

From S2P Require Import Prelude.
From S2P Require Import VClock.
From S2P Require Import CPid.
From S2P Require Import SymAddr.
From S2P Require Import SatGraph.
From S2P Require Import SatWf.
From S2P Require Import SatLoop.

(** ** Rounds keep the graph well-formed *)

Lemma updated_grow g id e i g' x p :
  wf g -> events g !! id = Some e -> ins g !! id = Some i ->
  updated g id e (fresh g e i) g' -> (clock g x p <= clock g' x p)%Z.
Proof.
  intros Hwf He Hi Hup. rewrite (up_clock _ _ _ _ _ Hup). case_decide; [|done].
  subst. by apply (co_grow g (wf_clocks g Hwf)).
Qed.

Lemma updated_preds g id e vc g' x ex ix ix' a :
  updated g id e vc g' -> events g !! x = Some ex -> ins g !! x = Some ix ->
  ins g' !! x = Some ix' -> a ∈ preds ex ix -> a ∈ preds ex ix'.
Proof.
  intros Hup Hex Hix Hix' Ha.
  destruct (up_edge _ _ _ _ _ Hup a x) as (e' & i' & He' & Hi' & Ha'); [by exists ex, ix|].
  destruct (up_same _ _ _ _ _ Hup) as (_ & Ee & _). rewrite Ee in He'. by simplify_eq.
Qed.

Lemma updated_wf g id e i g' :
  wf g -> events g !! id = Some e -> ins g !! id = Some i ->
  updated g id e (fresh g e i) g' -> wf g'.
Proof.
  intros Hwf He Hi Hup. pose proof (updated_grow g id e i g') as Hgrow.
  destruct Hwf as [Hsk Heo Hq Hco Hu] eqn:E. clear E. pose proof (up_same _ _ _ _ _ Hup) as Hs.
  assert (Hev : events g' = events g) by (by destruct Hs as (_ & -> & _)).
  split; [by eapply skeleton_same|by eapply up_edges_ok|by eapply up_queue_ok| |].
  - split.
    + rewrite (up_length _ _ _ _ _ Hup), Hev. apply (co_length g Hco).
    + intros x p. rewrite (same_process g g') by done. rewrite (up_clock _ _ _ _ _ Hup).
      case_decide; [by apply (fresh_range g id)|apply (co_range g Hco)].
    + intros x ex ix' p Hex Hix'. rewrite Hev in Hex.
      assert (Hx : x < length (ins g)) by (rewrite (eo_ins g Heo); by eapply events_lt).
      destruct (lookup_lt_exists _ _ Hx) as [ix Hix].
      assert (Hm : (fresh g ex ix p <= fresh g' ex ix' p)%Z).
      { apply fresh_mono; [intros a; by eapply updated_preds|]. intros a. by apply Hgrow. }
      rewrite (up_clock _ _ _ _ _ Hup). case_decide; [by simplify_eq|].
      etrans; [by apply (co_grow g Hco x ex ix)|done].
  - by rewrite (up_until _ _ _ _ _ Hup), Hev.
Qed.

(** ** The measure *)

Definition zsum (n : nat) (f : nat -> Z) : Z := foldr (fun k s => f k + s)%Z 0%Z (seq 0 n).

Lemma zsum_S n f : zsum (S n) f = (zsum n f + f n)%Z.
Proof.
  unfold zsum. rewrite seq_S, foldr_app. simpl.
  generalize (seq 0 n). induction l as [|x l IH]; simpl; lia.
Qed.

Lemma zsum_le n f h : (forall k, k < n -> (f k <= h k)%Z) -> (zsum n f <= zsum n h)%Z.
Proof.
  induction n as [|n IH]; intros Hk; [done|]. rewrite !zsum_S.
  pose proof (Hk n ltac:(lia)). specialize (IH ltac:(intros; apply Hk; lia)). lia.
Qed.

Lemma zsum_lt n f h k :
  (forall k, k < n -> (f k <= h k)%Z) -> k < n -> (f k < h k)%Z -> (zsum n f < zsum n h)%Z.
Proof.
  induction n as [|n IH]; intros Hk Hkn Hlt; [lia|]. rewrite !zsum_S.
  pose proof (Hk n ltac:(lia)). destruct (decide (k = n)) as [->|].
  - assert (zsum n f <= zsum n h)%Z by (apply zsum_le; intros; apply Hk; lia). lia.
  - specialize (IH ltac:(intros; apply Hk; lia) ltac:(lia) Hlt). lia.
Qed.

Lemma zsum_const n f c : (forall k, k < n -> (f k <= c)%Z) -> (zsum n f <= Z.of_nat n * c)%Z.
Proof.
  induction n as [|n IH]; intros Hk; [done|]. rewrite zsum_S.
  pose proof (Hk n ltac:(lia)). specialize (IH ltac:(intros; apply Hk; lia)). lia.
Qed.

Lemma zsum_nonneg n f : (forall k, k < n -> (0 <= f k)%Z) -> (0 <= zsum n f)%Z.
Proof.
  induction n as [|n IH]; intros Hk; [done|]. rewrite zsum_S.
  pose proof (Hk n ltac:(lia)). specialize (IH ltac:(intros; apply Hk; lia)). lia.
Qed.

Lemma concat_nodup (f : nat -> nat) (ls : list (list nat)) : forall o,
  (forall p l, ls !! p = Some l -> NoDup l /\ forall x, x ∈ l -> f x = o + p) -> NoDup (concat ls).
Proof.
  induction ls as [|l ls IH]; intros o Hls; simpl; [constructor|].
  destruct (Hls 0 l eq_refl) as [Hl Hf]. apply NoDup_app. split_and!; [done| |].
  - intros x Hx Hin. apply list_elem_of_In, in_concat in Hin as (l' & Hl' & Hx').
    apply list_elem_of_In, list_elem_of_lookup_1 in Hl' as [p Hp].
    destruct (Hls (S p) l' Hp) as [_ Hf']. apply list_elem_of_In in Hx'.
    pose proof (Hf x Hx). pose proof (Hf' x Hx'). lia.
  - apply (IH (S o)). intros p l' Hp. destruct (Hls (S p) l' Hp) as [? Hf'].
    split; [done|]. intros x Hx. rewrite (Hf' x Hx). lia.
Qed.

Lemma zsum_concat (ls : list (list nat)) :
  zsum (length ls) (fun p => Z.of_nat (length (default [] (ls !! p)))) = Z.of_nat (length (concat ls)).
Proof.
  induction ls as [|l ls IH] using rev_ind; [done|].
  rewrite length_app, Nat.add_1_r, zsum_S, concat_app, length_app. simpl. rewrite app_nil_r.
  rewrite lookup_app_r, Nat.sub_diag by lia. simpl. rewrite Nat2Z.inj_add, <-IH. f_equal.
  unfold zsum. clear IH.
  enough (forall s, (forall k, k ∈ s -> k < length ls) ->
    foldr (fun k s => Z.of_nat (length (default [] ((ls ++ [l]) !! k))) + s)%Z 0%Z s =
    foldr (fun k s => Z.of_nat (length (default [] (ls !! k))) + s)%Z 0%Z s) as H.
  { apply H. intros k Hk%elem_of_seq. lia. }
  induction s as [|k s IH]; intros Hs; simpl; [done|].
  rewrite lookup_app_l by (apply Hs; by left). rewrite IH; [done|]. intros. apply Hs. by right.
Qed.

(** The processes share the [n] events. *)
Lemma process_sizes g :
  skeleton g ->
  (zsum (length (events_by_pid g)) (fun p => Z.of_nat (length (process g p)))
     <= Z.of_nat (length (events g)))%Z.
Proof.
  intros Hsk. unfold process. rewrite zsum_concat. apply inj_le.
  rewrite <-(length_seq (length (events g)) 0). apply submseteq_length, NoDup_submseteq.
  - apply (concat_nodup (fun x => default 0 (ev_pid <$> events g !! x)) _ 0).
    intros p l Hl. assert (Hp : process g p = l) by (unfold process; by rewrite Hl).
    split; [|intros x Hx].
    + apply NoDup_alt. intros i j x Hi Hj. rewrite <-Hp in Hi, Hj.
      by eapply sorted_lookup_inj; [apply (sk_sorted g Hsk)|..].
    + apply list_elem_of_lookup_1 in Hx as [k Hk]. rewrite <-Hp in Hk.
      destruct (sk_process g Hsk _ _ _ Hk) as (e & -> & <- & _). done.
  - intros x Hx. apply list_elem_of_In, in_concat in Hx as (l & Hl & Hx).
    apply list_elem_of_In, list_elem_of_lookup_1 in Hl as [p Hp].
    apply list_elem_of_In, list_elem_of_lookup_1 in Hx as [k Hk].
    assert (Hpk : process g p !! k = Some x) by (unfold process; by rewrite Hp).
    destruct (sk_process g Hsk _ _ _ Hpk) as (e & He%events_lt & _). apply elem_of_seq. lia.
Qed.

Definition clock_sum (g : graph) : Z :=
  zsum (length (events g)) (fun id => zsum (length (events_by_pid g)) (clock g id)).

Lemma clock_sum_bound g :
  skeleton g -> clocks_ok g ->
  (clock_sum g <= Z.of_nat (length (events g) * length (events g)))%Z.
Proof.
  intros Hsk Hco. unfold clock_sum. rewrite Nat2Z.inj_mul. apply zsum_const. intros id _.
  etrans; [|by apply process_sizes]. apply zsum_le. intros p _. apply (co_range g Hco).
Qed.

Lemma clock_sum_nonneg g : clocks_ok g -> (0 <= clock_sum g)%Z.
Proof.
  intros Hco. apply zsum_nonneg. intros id _. apply zsum_nonneg. intros p _. apply (co_range g Hco).
Qed.

Lemma clock_sum_updated g id e i g' :
  wf g -> events g !! id = Some e -> ins g !! id = Some i ->
  updated g id e (fresh g e i) g' -> (clock_sum g < clock_sum g')%Z.
Proof.
  intros Hwf He Hi Hup. unfold clock_sum.
  destruct (up_same _ _ _ _ _ Hup) as (_ & -> & -> & _).
  destruct (up_more _ _ _ _ _ Hup) as (p & Hp).
  assert (Hp' : p < length (events_by_pid g)).
  { destruct (fresh_range g id e i p) as [_ Hr]; [apply Hwf|apply Hwf|done|].
    pose proof (co_range g (wf_clocks g Hwf) id p). unfold process in Hr.
    destruct (events_by_pid g !! p) eqn:E; [by eapply lookup_lt_Some|]. simpl in Hr. lia. }
  apply (zsum_lt _ _ _ id); [|by eapply events_lt|].
  - intros x _. apply zsum_le. intros q _. by eapply updated_grow.
  - apply (zsum_lt _ _ _ p); [|done|].
    + intros q _. by eapply updated_grow.
    + rewrite (up_clock _ _ _ _ _ Hup), decide_True by done. done.
Qed.

Definition measure (g : graph) : nat :=
  let n := length (events g) in
  Z.to_nat (Z.of_nat (n * n) - clock_sum g) * (n + 1) + length (wq_queue g).

Lemma measure_fuel g : wf g -> measure g < saturate_fuel (length (events g)).
Proof.
  intros Hwf. pose proof (clock_sum_nonneg g (wf_clocks g Hwf)).
  pose proof (queue_length g (wf_queue g Hwf)). unfold measure, saturate_fuel.
  set (n := length (events g)) in *.
  assert (Z.to_nat (Z.of_nat (n * n) - clock_sum g) <= n * n) by lia. nia.
Qed.

Lemma measure_round g id e i g' :
  wf g -> events g !! id = Some e -> ins g !! id = Some i ->
  round_result g id e i (inr g') -> wf g' /\ length (events g') = length (events g) /\
  measure g' < measure g.
Proof.
  intros Hwf He Hi (_ & [(Hpop & _)|Hup]).
  - split; [by eapply popped_wf|]. destruct Hpop as ((s & ->) & _ & _ & Hl). split; [done|].
    unfold measure, clock_sum, clock in *. simpl in *. lia.
  - pose proof (updated_wf g id e i g' Hwf He Hi Hup) as Hwf'. split; [done|].
    pose proof (clock_sum_updated g id e i g' Hwf He Hi Hup).
    pose proof (clock_sum_bound g' (wf_skeleton g' Hwf') (wf_clocks g' Hwf')) as Hb.
    pose proof (queue_length g' (wf_queue g' Hwf')). unfold measure.
    destruct (up_same _ _ _ _ _ Hup) as (_ & Ee & _). rewrite Ee in *. split; [done|].
    set (n := length (events g)) in *.
    assert (Z.to_nat (Z.of_nat (n * n) - clock_sum g') < Z.to_nat (Z.of_nat (n * n) - clock_sum g))
      by lia. nia.
Qed.

(** ** The rule of the loop *)

Definition refuting (g : graph) : Prop :=
  exists id e i, events g !! id = Some e /\ ins g !! id = Some i /\
    ((exists a, edge g a id /\ forall p, clock g a p = fresh g e i p) \/
     refuted g id e (fresh g e i)).

Lemma saturate_loop_rule (J : graph -> Prop) fuel : forall g,
  (forall g id e i g', wf g -> J g -> events g !! id = Some e -> ins g !! id = Some i ->
     id ∈ wq_queue g -> round_result g id e i (inr g') -> J g') ->
  wf g -> J g -> measure g < fuel ->
  exists b g', saturate_loop fuel g = Some (b, g') /\
    if (b : bool) then exists g1, wf g1 /\ J g1 /\ wq_queue g1 = [] /\ g' = set_wq [] [] g1
    else exists g1, wf g1 /\ J g1 /\ refuting g1.
Proof.
  induction fuel as [|fuel IH]; intros g HJ Hwf Hg Hm; [lia|]. cbn [saturate_loop].
  destruct (wq_empty g) eqn:Ew.
  - assert (Hq : wq_queue g = []) by (unfold wq_empty in Ew; by apply bool_decide_eq_true in Ew).
    rewrite check_ok; [|by apply (skeleton_same g); [|apply Hwf]|by destruct (wf_edges g Hwf); split]. simpl.
    exists true. eexists; split; [done|]. exists g. by rewrite Hq.
  - destruct (saturate_one_spec g Hwf Ew) as (id & e & i & r & Hin & He & Hi & -> & Hr). simpl.
    destruct r as [g'|g'].
    + exists false, g'. split; [done|]. exists g. split_and!; [done|done|]. by exists id, e, i.
    + destruct (measure_round g id e i g' Hwf He Hi Hr) as (Hwf' & _ & Hm').
      apply IH; [done|done|by apply (HJ g id e i g')|lia].
Qed.
