(* ===== verification/SatClosed.v ===== *)
(** * SatClosed: what the clocks and the edges of a saturated graph mean; when the
      loop answers [true] the graph is saturated

    The clock of an event shows only events it is reachable from
    ([clocks_reach]); when an event is not queued its clock is what its
    predecessors give and differs from all of theirs ([settled]); and the edges
    owed for the stores its clock shows are in the graph ([handled]). The rounds
    of the loop keep all three. An execution order [pos] under sequential
    consistency that agrees with the edges of a graph agrees with every edge a
    round adds, and no round refutes the graph.

    The rounds keep [settled] (an event that is not queued has the clock its
    predecessors give, and none of theirs) and [handled] (the edges owed for the
    stores a clock shows are there). With an empty queue they give [saturated]:
    no cycle, clocks that decide reachability, and closure under the rules of
    sequential consistency for from-reads, coherence and initial values. *)

From S2P Require Import Prelude.
From S2P Require Import VClock.
From S2P Require Import CPid.
From S2P Require Import SymAddr.
From S2P Require Import SatGraph.
From S2P Require Import SatWf.
From S2P Require Import SatLoop.
From S2P Require Import SatRun.

Definition reaches (g : graph) : relation nat := rtc (edge g).
Definition before (g : graph) : relation nat := tc (edge g).
Definition acyclic (g : graph) : Prop := forall x, ~ before g x x.

(** [g'] has the events and the edges of [g], and perhaps more edges. *)
Definition subgraph (g g' : graph) : Prop :=
  same_events g g' /\ forall a b, edge g a b -> edge g' a b.

Lemma reaches_mono g g' a b : subgraph g g' -> reaches g a b -> reaches g' a b.
Proof. intros [_ H]. by apply (rtc_congruence (fun x => x)). Qed.
Lemma before_mono g g' a b : subgraph g g' -> before g a b -> before g' a b.
Proof. intros [_ H]. by apply (tc_congruence (fun x => x)). Qed.

Lemma reaches_before g a b : reaches g a b -> a <> b -> before g a b.
Proof. intros [->|?]%rtc_tc ?; done. Qed.

Lemma before_first g a b : before g a b -> exists y, edge g a y /\ reaches g y b.
Proof.
  intros [x y Hxy|x y z Hxy Hyz]; exists y; (split; [done|]); [apply rtc_refl|by apply tc_rtc].
Qed.

Lemma updated_subgraph g id e vc g' : updated g id e vc g' -> subgraph g g'.
Proof. intros Hup. split; [apply (up_same _ _ _ _ _ Hup)|apply (up_edge _ _ _ _ _ Hup)]. Qed.

Lemma popped_subgraph g id g' : edges_ok g -> popped g id g' -> subgraph g g'.
Proof.
  intros Heo Hp. destruct (popped_grown g id g' Heo Hp) as (Hs & _ & _ & _ & He).
  split; [done|]. intros a b. by apply He.
Qed.

(** ** Program order *)

Lemma edge_po g id e p :
  edges_ok g -> events g !! id = Some e -> po_predecessor e = Some p -> edge g p id.
Proof.
  intros Heo He Hp. destruct (lookup_lt_exists (ins g) id) as [i Hi].
  { rewrite (eo_ins g Heo). by eapply events_lt. }
  exists e, i. rewrite elem_of_preds. auto.
Qed.

Lemma edge_rf g id e w :
  edges_ok g -> events g !! id = Some e -> read_from e = Some w -> edge g w id.
Proof.
  intros Heo He Hp. destruct (lookup_lt_exists (ins g) id) as [i Hi].
  { rewrite (eo_ins g Heo). by eapply events_lt. }
  exists e, i. rewrite elem_of_preds. auto.
Qed.

Lemma po_reaches g p j k x y :
  skeleton g -> edges_ok g -> positioned g p j x -> positioned g p k y -> (j <= k)%Z ->
  reaches g x y.
Proof.
  intros Hsk Heo Hx Hy Hjk. pose proof (positioned_range g Hsk _ _ _ Hx) as Hj.
  assert (Hd : exists d : nat, k = (j + Z.of_nat d)%Z) by (exists (Z.to_nat (k - j)); lia).
  destruct Hd as [d ->]. clear Hjk. revert y Hy. induction d as [|d IH]; intros y Hy.
  - rewrite Z.add_0_r in Hy. rewrite (positioned_inj g Hsk p j x y) by done. apply rtc_refl.
  - destruct Hy as (e & He & Hp & Hi).
    destruct (po_predecessor_exists g Hsk y e p (j + Z.of_nat d) He Hp) as (z & Hz & Hpz); [lia..|].
    eapply rtc_r; [by apply IH|]. by eapply edge_po.
Qed.

Lemma po_before g p j k x y :
  skeleton g -> edges_ok g -> positioned g p j x -> positioned g p k y -> (j < k)%Z ->
  before g x y.
Proof.
  intros Hsk Heo Hx Hy Hjk. apply reaches_before; [by eapply (po_reaches g p j k); [..|lia]|].
  intros ->. apply (positioned_lt g Hsk p j k y y) in Hjk; [lia|done..].
Qed.

(** ** Clocks show what reaches *)

Definition clocks_reach (g : graph) : Prop := forall id p, (0 < clock g id p)%Z ->
  exists x, positioned g p (clock g id p) x /\ reaches g x id.

Lemma clock_shows g id p j x :
  wf g -> clocks_reach g -> positioned g p j x -> (j <= clock g id p)%Z -> reaches g x id.
Proof.
  intros Hwf Hcr Hx Hj. pose proof (positioned_range g (wf_skeleton g Hwf) _ _ _ Hx).
  destruct (Hcr id p) as (y & Hy & Hr); [lia|]. eapply rtc_trans; [|done].
  by apply (po_reaches g p j (clock g id p)); [apply Hwf..| | |].
Qed.

(** The clock recomputed for [id] shows only what reaches [id]. *)
Lemma fresh_shows g id e i p j x :
  wf g -> clocks_reach g -> events g !! id = Some e -> ins g !! id = Some i ->
  positioned g p j x -> (j <= fresh g e i p)%Z -> reaches g x id.
Proof.
  intros Hwf Hcr He Hi Hx Hj. pose proof (positioned_range g (wf_skeleton g Hwf) _ _ _ Hx).
  destruct (fresh_cases g e i p) as [E|(a & Ha & E)]; rewrite E in Hj.
  - unfold own_clock in Hj. case_decide as Hp; [|lia]. subst.
    apply (po_reaches g (ev_pid e) j (ev_index e)); [apply Hwf|apply Hwf|done|by exists e|done].
  - eapply rtc_r; [by apply (clock_shows g a p j)|]. by exists e, i.
Qed.

Lemma fresh_reach g id e i p :
  wf g -> clocks_reach g -> events g !! id = Some e -> ins g !! id = Some i ->
  (0 < fresh g e i p)%Z ->
  exists x, positioned g p (fresh g e i p) x /\ reaches g x id.
Proof.
  intros Hwf Hcr He Hi Hpos.
  destruct (positioned_exists g (wf_skeleton g Hwf) p (fresh g e i p)) as [x Hx].
  { destruct (fresh_range g id e i p) as [_ ?]; [apply Hwf|apply Hwf|done|lia]. }
  exists x. split; [done|]. by eapply fresh_shows.
Qed.

Lemma clocks_reach_round g id e i g' :
  wf g -> events g !! id = Some e -> ins g !! id = Some i -> round_result g id e i (inr g') ->
  clocks_reach g -> clocks_reach g'.
Proof.
  intros Hwf He Hi (_ & [(Hpop & _)|Hup]) Hcr x p.
  - pose proof (popped_subgraph g id g' (wf_edges g Hwf) Hpop) as Hsub.
    destruct Hpop as ((s & ->) & _). intros Hpos. destruct (Hcr x p Hpos) as (y & Hy & Hr).
    exists y. split; [done|]. by eapply reaches_mono.
  - pose proof (updated_subgraph _ _ _ _ _ Hup) as Hsub.
    rewrite (up_clock _ _ _ _ _ Hup). case_decide as Hx; intros Hpos.
    + subst x. destruct (fresh_reach g id e i p) as (y & Hy & Hr); [done..|].
      exists y. split; [by apply (same_positioned g); [apply Hsub|]|]. by eapply reaches_mono.
    + destruct (Hcr x p Hpos) as (y & Hy & Hr).
      exists y. split; [by apply (same_positioned g); [apply Hsub|]|]. by eapply reaches_mono.
Qed.

(** ** Executions under sequential consistency *)

(** The order [pos] of the events makes every read return the latest earlier
    store to its address, or the initial value when there is none. *)
Definition reads_ok (pos : nat -> Z) (es : list Event) : Prop :=
  forall r er s es', es !! r = Some er -> is_load er = true ->
    es !! s = Some es' -> is_store es' = true -> ev_addr es' = ev_addr er -> s <> r ->
    match read_from er with
    | Some w => s <> w -> (pos s < pos w \/ pos r < pos s)%Z
    | None => (pos r < pos s)%Z
    end.

Definition respects (pos : nat -> Z) (g : graph) : Prop :=
  forall a b, edge g a b -> (pos a < pos b)%Z.

Lemma respects_before pos g a b : respects pos g -> before g a b -> (pos a < pos b)%Z.
Proof.
  intros Hr Hab. induction Hab as [a b Hab|a b c Hab _ IH]; [by apply Hr|].
  pose proof (Hr _ _ Hab). lia.
Qed.

Lemma respects_acyclic pos g : respects pos g -> acyclic g.
Proof. intros Hr x Hx%(respects_before pos _ _ _ Hr). lia. Qed.

(** A store that the recomputed clock shows comes before the event. *)
Lemma shown_before g id e i pe :
  wf g -> clocks_reach g -> events g !! id = Some e -> ins g !! id = Some i ->
  shown g id e (fresh g e i) pe ->
  before g pe id /\ exists pev, events g !! pe = Some pev /\ is_store pev = true /\
    ev_addr pev = ev_addr e.
Proof.
  intros Hwf Hcr He Hi (Hne & p & j & Hst & Hj). split.
  - apply reaches_before; [|done]. eapply fresh_shows; [done..|by eapply store_at_positioned|done].
  - destruct Hst as (pev & ? & _ & _ & ? & ?). by exists pev.
Qed.

Section executions.
Context (pos : nat -> Z) (g : graph) (Hwf : wf g) (Hcr : clocks_reach g).
Context (Hres : respects pos g) (Hreads : reads_ok pos (events g)).
Context (id : nat) (e : Event) (i : list nat).
Context (He : events g !! id = Some e) (Hi : ins g !! id = Some i).

Lemma forced_respected a b : forced g id e (fresh g e i) a b -> (pos a < pos b)%Z.
Proof.
  intros (pe & Hsh & Hdue). assert (Hne : pe <> id) by apply Hsh.
  destruct (shown_before g id e i pe) as (Hb & pev & Hpe & Hst & Ha); [done..|].
  apply (respects_before pos) in Hb; [|done].
  destruct Hdue as [(Hs & -> & Hne' & pev' & Hpev' & Hr)|(Hld & Hrf & -> & Hne')].
  - assert (pev' = pev) as -> by congruence. destruct (sk_readers g (wf_skeleton g Hwf) _ _ _ Hpe Hr) as (er & Her & Hrf).
    destruct (sk_rf g (wf_skeleton g Hwf) _ _ _ Her Hrf) as (Hld & ew & Hw & _ & Ha' & _).
    pose proof (Hreads a er id e) as H. rewrite Hrf in H.
    destruct H; [done|done|done|done|congruence|done|done|lia|done].
  - pose proof (Hreads id e pe pev) as H. rewrite Hrf in H.
    destruct H; [done..|lia].
Qed.

Lemma not_refuted : ~ refuted g id e (fresh g e i).
Proof.
  intros (Hld & Hrf & pe & Hsh). assert (Hne : pe <> id) by apply Hsh.
  destruct (shown_before g id e i pe) as (Hb & pev & Hpe & Hst & Ha); [done..|].
  apply (respects_before pos) in Hb; [|done].
  pose proof (Hreads id e pe pev) as H. rewrite Hrf in H. specialize (H He Hld Hpe Hst Ha Hne). lia.
Qed.
End executions.

(** Clocks are equal along an edge only on a cycle. *)
Lemma equal_clock_cycle g id e i a :
  wf g -> clocks_reach g -> events g !! id = Some e -> ins g !! id = Some i -> edge g a id ->
  (forall p, clock g a p = fresh g e i p) -> before g id id.
Proof.
  intros Hwf Hcr He Hi Ha Heq. eapply tc_rtc_l; [|by apply tc_once].
  apply (clock_shows g a (ev_pid e) (ev_index e)); [done|done|by exists e|].
  rewrite Heq. etrans; [|apply fresh_own]. unfold own_clock. by rewrite decide_True.
Qed.

Lemma not_refuting pos g :
  wf g -> clocks_reach g -> respects pos g -> reads_ok pos (events g) -> ~ refuting g.
Proof.
  intros Hwf Hcr Hres Hreads (id & e & i & He & Hi & [(a & Ha & Heq)|Href]).
  - eapply (respects_acyclic pos g Hres id). by eapply equal_clock_cycle.
  - by eapply (not_refuted pos).
Qed.

Lemma respects_round pos g id e i g' :
  wf g -> events g !! id = Some e -> ins g !! id = Some i -> round_result g id e i (inr g') ->
  clocks_reach g -> reads_ok pos (events g) -> respects pos g ->
  respects pos g' /\ reads_ok pos (events g').
Proof.
  intros Hwf He Hi (_ & [(Hpop & _)|Hup]) Hcr Hreads Hres.
  - destruct (popped_grown g id g' (wf_edges g Hwf) Hpop) as ((_ & -> & _) & _ & _ & _ & Hed).
    split; [|done]. intros a b ?%Hed. by apply Hres.
  - destruct (up_same _ _ _ _ _ Hup) as (_ & -> & _). split; [|done].
    intros a b [?|[Hf _]]%(up_forced _ _ _ _ _ Hup); [by apply Hres|by eapply forced_respected].
Qed.

(** * When the loop answers [true] the graph is saturated *)

(** ** Settled events *)

Definition settled (g : graph) : Prop := forall id e i,
  events g !! id = Some e -> ins g !! id = Some i -> id ∉ wq_queue g ->
  (forall p, clock g id p = fresh g e i p) /\
  ~ exists a, edge g a id /\ forall p, clock g a p = clock g id p.

Lemma fresh_ext g g' e i i' p :
  (forall a, a ∈ preds e i <-> a ∈ preds e i') ->
  (forall a, a ∈ preds e i -> clock g a p = clock g' a p) ->
  fresh g e i p = fresh g' e i' p.
Proof.
  intros Hi Hc. apply Z.le_antisymm.
  - destruct (fresh_cases g e i p) as [->|(a & Ha & ->)]; [apply fresh_own|].
    rewrite Hc by done. by apply fresh_pred, Hi.
  - destruct (fresh_cases g' e i' p) as [->|(a & Ha & ->)]; [apply fresh_own|].
    apply Hi in Ha. rewrite <-Hc by done. by apply fresh_pred.
Qed.

Lemma settled_round g id e i g' :
  wf g -> events g !! id = Some e -> ins g !! id = Some i -> round_result g id e i (inr g') ->
  settled g -> settled g'.
Proof.
  intros Hwf He Hi (Hnc & [(Hpop & Heq)|Hup]) Hset x ex ix' Hex Hix' Hx.
  - destruct Hpop as ((s & ->) & _ & Hq & _). destruct (decide (x = id)) as [->|Hne].
    + simpl in Hex, Hix'. simplify_eq. split; [intros p; symmetry; apply Heq|].
      intros (a & Ha & Hc). apply Hnc. exists a. split; [done|]. intros p. rewrite Heq. by apply Hc.
    + apply (Hset x ex ix'); [done..|]. intros [?|?]%Hq; done.
  - destruct (up_same _ _ _ _ _ Hup) as (_ & Ee & _). rewrite Ee in Hex.
    assert (Hlt : x < length (ins g)).
    { rewrite (eo_ins g (wf_edges g Hwf)). by eapply events_lt. }
    destruct (lookup_lt_exists _ _ Hlt) as [ix Hix].
    assert (Hedge : forall a, edge g' a x <-> edge g a x).
    { intros a. split; [|apply (up_edge _ _ _ _ _ Hup)].
      by intros [?|[_ ?]]%(up_forced _ _ _ _ _ Hup). }
    assert (Hpreds : forall a, a ∈ preds ex ix <-> a ∈ preds ex ix').
    { intros a. split; intros Ha.
      - assert (edge g' a x) as (e2 & i2 & He2 & Hi2 & ?) by (apply Hedge; by exists ex, ix).
        rewrite Ee in He2. by simplify_eq.
      - assert (edge g a x) as (e2 & i2 & He2 & Hi2 & ?).
        { apply Hedge. exists ex, ix'. by rewrite Ee. }
        by simplify_eq. }
    assert (Hclk : forall a p, edge g a x -> clock g a p = clock g' a p).
    { intros a p Ha. rewrite (up_clock _ _ _ _ _ Hup). case_decide; [|done]. subst.
      by apply (up_succ _ _ _ _ _ Hup) in Ha. }
    assert (Hfr : forall p, fresh g ex ix p = fresh g' ex ix' p).
    { intros p. apply fresh_ext; [done|]. intros a Ha. apply Hclk. by exists ex, ix. }
    assert (Hx' : forall p, clock g' x p = fresh g ex ix p /\
      ~ exists a, edge g a x /\ forall p, clock g a p = fresh g ex ix p).
    { intros p. rewrite (up_clock _ _ _ _ _ Hup). case_decide as Hid; [by simplify_eq|].
      destruct (Hset x ex ix) as [Hs1 Hs2]; [done..| |].
      { intros Hin. by apply Hx, (up_queue _ _ _ _ _ Hup). }
      split; [done|]. intros (a & Ha & Hc). apply Hs2. exists a. split; [done|].
      intros q. by rewrite Hs1, Hc. }
    split; [intros p; rewrite <-Hfr; apply Hx'|]. intros (a & Ha & Hc).
    apply (Hx' 0). exists a. apply Hedge in Ha. split; [done|].
    intros p. rewrite (Hclk a p Ha), Hc. apply Hx'.
Qed.

(** ** Edges owed *)

Definition handled_upto (u : nat) (g : graph) : Prop := forall id e p pe,
  events g !! id = Some e -> is_load e || is_store e = true ->
  last_other g id (ev_addr e) p (clock g id p) pe ->
  (is_load e = true -> read_from e <> None) /\
  forall a b, due g id e pe a b -> a < u -> before g a b.

Lemma last_other_smaller g id a p k k' pe j :
  last_other g id a p k pe -> positioned g p j pe -> (j <= k')%Z -> (k' <= k)%Z ->
  last_other g id a p k' pe.
Proof.
  intros (Hne & j0 & Hst & Hj0 & Hmax) Hj Hjk Hkk. split; [done|].
  assert (j0 = j) as ->.
  { destruct Hj as (e1 & ? & ? & ?), Hst as (e2 & ? & ? & ? & _). by simplify_eq. }
  exists j. split_and!; [done|done|]. intros j' x' Hx' Hj' Hne'. by eapply Hmax; [..|lia|].
Qed.

Lemma same_last_other g g' id a p k pe :
  same_events g g' -> last_other g' id a p k pe <-> last_other g id a p k pe.
Proof. intros (_ & E & _). unfold last_other, store_at. by rewrite E. Qed.

Lemma same_due g g' id e pe a b :
  same_events g g' -> due g' id e pe a b <-> due g id e pe a b.
Proof. intros (_ & E & _). unfold due. by rewrite E. Qed.

Lemma handled_round u g id e i g' :
  wf g -> events g !! id = Some e -> ins g !! id = Some i -> round_result g id e i (inr g') ->
  handled_upto u g -> handled_upto u g'.
Proof.
  intros Hwf He Hi (_ & [(Hpop & _)|Hup]) Hh x ex p pe Hex Hls Hlo.
  - pose proof (popped_subgraph g id g' (wf_edges g Hwf) Hpop) as Hsub.
    destruct Hpop as ((s & ->) & _). destruct (Hh x ex p pe) as [H1 H2]; [done..|].
    split; [done|]. intros a b Hab Hau. eapply before_mono; [done|]. by apply H2.
  - pose proof (updated_subgraph _ _ _ _ _ Hup) as Hsub. destruct Hsub as [Hs Hedge].
    assert (Hex' : events g !! x = Some ex) by (by destruct Hs as (_ & <- & _)).
    rewrite (same_last_other g), (up_clock _ _ _ _ _ Hup) in Hlo by done.
    assert (Hold : last_other g x (ev_addr ex) p (clock g x p) pe ->
      (is_load ex = true -> read_from ex <> None) /\
      forall a b, due g' x ex pe a b -> a < u -> before g' a b).
    { intros Hlo'. destruct (Hh x ex p pe) as [H1 H2]; [done..|]. split; [done|].
      intros a b Hab%(same_due g); [|done]. intros Hau. eapply (before_mono g); [by split|]. by apply H2. }
    case_decide as Hid; [|by apply Hold]. subst x. simplify_eq.
    destruct Hlo as (Hne & j & Hst & Hj & Hmax).
    assert (Hlo : last_other g id (ev_addr e) p (fresh g e i p) pe) by (split; [done|by exists j]).
    pose proof (store_at_positioned _ _ _ _ _ Hst) as Hpos.
    destruct (decide (clock g id p < j)%Z) as [Hlt|].
    + destruct (up_covered _ _ _ _ _ Hup p pe j Hlo Hpos Hlt Hls) as [H1 H2]. split; [done|].
      intros a b Hab%(same_due g) _; [|done]. by apply tc_once, H2.
    + apply Hold. eapply last_other_smaller; [done..|lia|].
      by apply (co_grow g (wf_clocks g Hwf)).
Qed.

(** ** Initial values *)

Definition init_ok (g : graph) : Prop := forall r er p s,
  events g !! r = Some er -> is_load er = true -> read_from er = None ->
  head (pwrites g p (ev_addr er)) = Some s -> s <> r -> edge g r s.

Lemma init_ok_mono g g' : subgraph g g' -> init_ok g -> init_ok g'.
Proof.
  intros [Hs He] Hi r er p s. rewrite (same_pwrites g g') by done.
  assert (E : events g' = events g) by (by destruct Hs as (_ & -> & _)). rewrite E.
  intros ?????. by apply He, (Hi r er p).
Qed.

(** ** Saturated graphs *)

Definition reads (g : graph) (r w : nat) (a : SymAddr) : Prop :=
  exists er, events g !! r = Some er /\ read_from er = Some w /\ ev_addr er = a.
Definition reads_init (g : graph) (r : nat) (a : SymAddr) : Prop :=
  exists er, events g !! r = Some er /\ is_load er = true /\ read_from er = None /\ ev_addr er = a.
Definition stores (g : graph) (s : nat) (a : SymAddr) : Prop :=
  exists es, events g !! s = Some es /\ is_store es = true /\ ev_addr es = a.

Record saturated (g : graph) : Prop := {
  sat_acyclic : acyclic g;
  sat_clock id p j x : id < length (events g) -> positioned g p j x ->
    (j <= clock g id p)%Z <-> reaches g x id;
  sat_from_read r w s a : reads g r w a -> stores g s a -> s <> r -> before g w s -> before g r s;
  sat_coherence r w s a : reads g r w a -> stores g s a -> s <> w -> before g s r -> before g s w;
  sat_init r s a : reads_init g r a -> stores g s a -> s <> r -> before g r s;
}.

Section closed.
Context (g : graph) (Hwf : wf g) (Hcr : clocks_reach g) (Hset : settled g).
Context (Hh : handled_upto (length (events g)) g) (Hinit : init_ok g) (Hq : wq_queue g = []).

Let Hsk : skeleton g := wf_skeleton g Hwf.
Let Heo : edges_ok g := wf_edges g Hwf.

Lemma settled_clock id e i p :
  events g !! id = Some e -> ins g !! id = Some i -> clock g id p = fresh g e i p.
Proof.
  intros He Hi. apply (Hset id e i); [done..|]. rewrite Hq. apply not_elem_of_nil.
Qed.

Lemma edge_clock a b p : edge g a b -> (clock g a p <= clock g b p)%Z.
Proof.
  intros (e & i & He & Hi & Ha). rewrite (settled_clock b e i p) by done. by apply fresh_pred.
Qed.

Lemma reaches_clock a b p : reaches g a b -> (clock g a p <= clock g b p)%Z.
Proof. induction 1 as [|a b c Hab _ IH]; [done|]. pose proof (edge_clock a b p Hab). lia. Qed.

Lemma edge_differs a b : edge g a b -> ~ forall p, clock g a p = clock g b p.
Proof.
  intros Hab Heq. pose proof Hab as (e & i & He & Hi & _).
  destruct (Hset b e i) as [_ Hn]; [done|done|rewrite Hq; apply not_elem_of_nil|].
  apply Hn. by exists a.
Qed.

Lemma closed_acyclic : acyclic g.
Proof.
  intros x (y & Hxy & Hyx)%before_first.
  apply (edge_differs x y Hxy). intros p.
  pose proof (edge_clock x y p Hxy). pose proof (reaches_clock y x p Hyx). lia.
Qed.

Lemma closed_clock id p j x :
  id < length (events g) -> positioned g p j x -> (j <= clock g id p)%Z <-> reaches g x id.
Proof.
  intros Hid Hx. split; [by apply clock_shows|]. intros Hr.
  etrans; [|by apply (reaches_clock x)]. destruct Hx as (e & He & <- & <-).
  destruct (lookup_lt_exists (ins g) x) as [i Hi]; [rewrite (eo_ins g Heo); by eapply events_lt|].
  rewrite (settled_clock x e i) by done. etrans; [|apply fresh_own].
  unfold own_clock. by rewrite decide_True.
Qed.

(** The last store of the process of [s] that [id] shows. *)
Lemma last_other_exists id e s p j :
  events g !! id = Some e -> store_at g p j (ev_addr e) s -> s <> id -> before g s id ->
  exists pe k, last_other g id (ev_addr e) p (clock g id p) pe /\
    store_at g p k (ev_addr e) pe /\ (j <= k <= clock g id p)%Z.
Proof.
  intros He Hs Hne Hb. pose proof (store_at_positioned _ _ _ _ _ Hs) as Hpos.
  assert (Hj : (j <= clock g id p)%Z).
  { apply (closed_clock id p j s); [by eapply events_lt|done|by apply tc_rtc]. }
  pose proof (positioned_range g Hsk _ _ _ Hpos).
  pose proof (co_range g (wf_clocks g Hwf) id p).
  destruct (last_write_spec g Hsk id (ev_addr e) p (clock g id p)) as ([pe|] & _ & Hr); [lia| |].
  - destruct Hr as (Hpe & k & Hk & Hkc & Hmax). exists pe, k.
    split_and!; [split; [done|by exists k]|done|by eapply Hmax|done].
  - by specialize (Hr j s Hs Hj).
Qed.

(** The weight of an event, the sum of its clock, grows along the edges. *)
Definition weight (id : nat) : Z := zsum (length (events_by_pid g)) (clock g id).

Lemma weight_before a b : before g a b -> (weight a < weight b)%Z.
Proof.
  intros Hab. assert (Hle : forall p, (clock g a p <= clock g b p)%Z).
  { intros p. by apply reaches_clock, tc_rtc. }
  destruct (decide (Exists (fun p => (clock g a p < clock g b p)%Z)
    (seq 0 (length (events_by_pid g))))) as [Hex|Hno].
  - apply Exists_exists in Hex as (p & Hp%elem_of_seq & Hlt).
    apply (zsum_lt _ _ _ p); [intros; apply Hle|lia|done].
  - exfalso. assert (Heq : forall p, clock g a p = clock g b p).
    { intros p. destruct (decide (p < length (events_by_pid g))) as [Hp|Hp].
      - destruct (decide (clock g a p < clock g b p)%Z); [|specialize (Hle p); lia].
        destruct Hno. apply Exists_exists. exists p. split; [apply elem_of_seq; lia|done].
      - assert (Hz : forall x, clock g x p = 0%Z).
        { intros x. pose proof (co_range g (wf_clocks g Hwf) x p) as Hr.
          unfold process in Hr. rewrite lookup_ge_None_2 in Hr by lia. simpl in Hr. lia. }
        by rewrite !Hz. }
    apply before_first in Hab as (y & Hay & Hyb).
    apply (edge_differs a y Hay). intros p. pose proof (edge_clock a y p Hay).
    pose proof (reaches_clock y b p Hyb). rewrite Heq in *. lia.
Qed.

Lemma weight_nonneg id : (0 <= weight id)%Z.
Proof. apply zsum_nonneg. intros p _. apply (co_range g (wf_clocks g Hwf)). Qed.

Lemma store_at_stores s a : stores g s a <-> exists p j, store_at g p j a s.
Proof.
  split.
  - intros (es & ? & ? & ?). by exists (ev_pid es), (ev_index es), es.
  - intros (p & j & es & ? & _ & _ & ? & ?). by exists es.
Qed.

Lemma closed_coherence r w s a :
  reads g r w a -> stores g s a -> s <> w -> before g s r -> before g s w.
Proof.
  intros (er & Her & Hrf & <-) (p & j & Hs)%store_at_stores Hne Hb.
  assert (Hsr : s <> r) by (intros ->; by apply (closed_acyclic r)).
  destruct (last_other_exists r er s p j) as (pe & k & Hlo & Hpe & Hjk); [done..|].
  destruct (sk_rf g Hsk _ _ _ Her Hrf) as (Hld & ew & Hw & _).
  destruct (Hh r er p pe) as [_ Hdue]; [done|by rewrite Hld|done|].
  destruct (decide (pe = w)) as [->|Hpw].
  - assert (j <> k).
    { intros ->. apply Hne. by eapply (positioned_inj g Hsk); eapply store_at_positioned. }
    apply (po_before g p j k); [done|done|by eapply store_at_positioned..|lia].
  - eapply tc_rtc_l; [|apply (Hdue pe w); [by right|]].
    + apply (po_reaches g p j k); [done|done|by eapply store_at_positioned..|lia].
    + destruct Hpe as (? & ? & _). by eapply events_lt.
Qed.

Lemma closed_from_read r w a :
  reads g r w a -> forall s, stores g s a -> s <> r -> before g w s -> before g r s.
Proof.
  intros (er & Her & Hrf & <-).
  destruct (sk_rf g Hsk _ _ _ Her Hrf) as (Hld & ew & Hw & Hws & Hwa & Hwr).
  enough (forall n s, (weight s < Z.of_nat n)%Z -> stores g s (ev_addr er) -> s <> r ->
    before g w s -> before g r s) as H.
  { intros s Hs Hne Hb. apply (H (S (Z.to_nat (weight s))) s); [|done..].
    pose proof (weight_nonneg s). lia. }
  induction n as [|n IH]; intros s Hn Hs Hne Hb; [pose proof (weight_nonneg s); lia|].
  pose proof Hs as (es & Hes & Hss & Hsa).
  assert (Hwat : store_at g (ev_pid ew) (ev_index ew) (ev_addr es) w).
  { exists ew. split_and!; congruence. }
  assert (Hne' : w <> s) by (intros ->; by apply (closed_acyclic s)).
  destruct (last_other_exists s es w (ev_pid ew) (ev_index ew)) as (pe & k & Hlo & Hpe & Hjk);
    [done..|].
  destruct (Hh s es (ev_pid ew) pe) as [_ Hdue]; [done|by rewrite Hss, orb_true_r|done|].
  destruct (decide (pe = w)) as [->|Hpw].
  { apply (Hdue r s); [|by eapply events_lt]. left. split_and!; [done|done|done|by exists ew]. }
  assert (Hwp : before g w pe).
  { apply (po_before g (ev_pid ew) (ev_index ew) k); [done|done|by exists ew| |].
    - by eapply store_at_positioned.
    - assert (ev_index ew <> k); [|lia]. intros <-. apply Hpw. symmetry.
      eapply (positioned_inj g Hsk); [by eapply store_at_positioned|].
      by eapply store_at_positioned. }
  assert (Hps : before g pe s).
  { apply reaches_before; [|apply Hlo].
    eapply (clock_shows g s (ev_pid ew) k); [done|done|by eapply store_at_positioned|lia]. }
  destruct (decide (r = pe)) as [->|Hrp]; [done|].
  eapply tc_trans; [|done]. pose proof (weight_before pe s Hps).
  apply IH; [lia| |done|done].
  apply store_at_stores. rewrite <-Hsa. by exists (ev_pid ew), k.
Qed.

Lemma closed_init r s a : reads_init g r a -> stores g s a -> s <> r -> before g r s.
Proof.
  intros (er & Her & Hld & Hrf & <-) (p & j & Hs)%store_at_stores Hne.
  assert (Hin : s ∈ pwrites g p (ev_addr er)) by (apply (store_at_pwrites g Hsk); eauto).
  apply list_elem_of_lookup_1 in Hin as [k Hk].
  destruct (pwrites g p (ev_addr er)) as [|s0 l] eqn:E; [done|].
  assert (Hs0 : exists j0, store_at g p j0 (ev_addr er) s0).
  { apply (store_at_pwrites g Hsk). rewrite E. by left. }
  destruct Hs0 as [j0 Hs0].
  assert (Hj : (j0 <= j)%Z).
  { apply (positioned_le g Hsk p j0 j s0 s); [by eapply store_at_positioned..|].
    destruct k as [|k]; [simpl in Hk; simplify_eq; lia|].
    pose proof (sk_wsorted g Hsk p (ev_addr er)) as Hso. rewrite E in Hso.
    pose proof (sorted_lookup_lt _ 0 (S k) s0 s Hso eq_refl Hk). lia. }
  destruct (decide (s0 = r)) as [->|Hne0].
  - apply (po_before g p j0 j); [done|done|by eapply store_at_positioned..|].
    assert (j0 <> j); [|lia]. intros ->. apply Hne.
    by eapply (positioned_inj g Hsk); eapply store_at_positioned.
  - eapply tc_rtc_r; [apply tc_once, (Hinit r er p s0); [done..| |done]|].
    + by rewrite E.
    + apply (po_reaches g p j0 j); [done|done|by eapply store_at_positioned..|done].
Qed.

Lemma closed_saturated : saturated g.
Proof.
  split; [apply closed_acyclic|apply closed_clock| |apply closed_coherence|apply closed_init].
  intros r w s a Hr Hs Hne Hb. by eapply closed_from_read.
Qed.
End closed.
