(* ===== verification/SatReverse.v ===== *)
(** * SatReverse: reverse saturation

    [reverse_saturate] on an acyclic graph: the depth-first search of
    [reverse_care_set] lists every event it visits after all that comes after
    it; the below-clocks computed in this order show the first event of each
    process that an event reaches; and every new reader of an old store gets a
    from-read edge to the first store of each process that comes after the
    store it reads. No assertion fails. On a graph that has a cycle one does. *)

From S2P Require Import Prelude.
From S2P Require Import VClock.
From S2P Require Import CPid.
From S2P Require Import SymAddr.
From S2P Require Import SatGraph.
From S2P Require Import SatWf.
From S2P Require Import SatLoop.
From S2P Require Import SatRun.
From S2P Require Import SatClosed.

(** ** Successors *)

Lemma successors_spec g id e :
  skeleton g -> edges_ok g -> events g !! id = Some e ->
  exists l, successors g id e = Some l /\ forall b, b ∈ l <-> edge g id b.
Proof.
  intros Hsk Heo He. unfold successors.
  destruct (po_successor_spec g Hsk id e He) as (suc & -> & Hsuc). simpl.
  destruct (lookup_lt_exists (outs g) id) as [o Ho]; [rewrite (eo_outs g Heo); by eapply events_lt|].
  rewrite Ho. simpl. eexists; split; [done|]. intros b.
  assert (Hopt : b ∈ option_list suc <-> suc = Some b).
  { destruct suc as [x|]; simpl; [rewrite list_elem_of_singleton; naive_solver|].
    split; [by intros ?%not_elem_of_nil|done]. }
  rewrite !elem_of_app, Hopt, Hsuc. split.
  - intros [(eb & Heb & Hp & Hi)|[Hr|Hb]].
    + destruct (sk_event g Hsk _ _ He) as [Hpos _].
      destruct (po_predecessor_exists g Hsk b eb _ _ Heb Hp Hi Hpos) as (x & Hx & Hpx).
      assert (x = id) as -> by (eapply (positioned_inj g Hsk); [done|by exists e]).
      by eapply edge_po.
    + destruct (sk_readers g Hsk _ _ _ He Hr) as (er & Her & Hrf). by eapply edge_rf.
    + destruct (eo_out g Heo _ _ _ Ho Hb) as (eb & ib & Heb & Hib & H). exists eb, ib.
      rewrite elem_of_preds. naive_solver.
  - intros (eb & ib & Heb & Hib & [Hp|[Hr|Hin]]%elem_of_preds).
    + left. destruct (po_predecessor_spec g Hsk _ _ _ Heb Hp) as (e' & He' & Hp' & Hi').
      simplify_eq. exists eb. split_and!; [done|done|lia].
    + destruct (sk_rf g Hsk _ _ _ Heb Hr) as (_ & ew & Hw & _ & _ & Hin). simplify_eq. auto.
    + destruct (eo_in g Heo _ _ _ Hib Hin) as (o' & Ho' & Hb). simplify_eq. auto.
Qed.

(** ** The depth-first search *)

Definition seen (c : care) (x : nat) : Prop := care_set c !! x = Some true.
Definition grey (c : care) (x : nat) : Prop := seen c x /\ x ∉ care_vec c.
Definition unseen (c : care) : nat := length (filter (fun b => b = false) (care_set c)).

(** Every event of the list comes after all its successors. *)
Definition topological (g : graph) (l : list nat) : Prop := forall k x, l !! k = Some x ->
  forall y, edge g x y -> exists j, j < k /\ l !! j = Some y.

Record care_ok (g : graph) (c : care) : Prop := {
  ca_length : length (care_set c) = length (events g);
  ca_nodup : NoDup (care_vec c);
  ca_seen x : x ∈ care_vec c -> seen c x;
  ca_topo : topological g (care_vec c);
}.

Lemma filter_insert_true (l : list bool) i :
  l !! i = Some false ->
  length (filter (fun b => b = false) l) = S (length (filter (fun b => b = false) (<[i:=true]> l))).
Proof.
  revert i. induction l as [|b l IH]; intros i Hi; [done|]. destruct i as [|i]; simpl in *.
  - simplify_eq. by rewrite filter_cons_True, filter_cons_False by done.
  - rewrite !filter_cons. case_decide; simpl; by rewrite (IH i Hi).
Qed.

Lemma topological_before g l k x y :
  topological g l -> l !! k = Some x -> before g x y -> exists j, j < k /\ l !! j = Some y.
Proof.
  intros Ht Hx Hxy. revert k Hx. induction Hxy as [x y Hxy|x y z Hxy _ IH]; intros k Hx.
  - by apply (Ht k x).
  - destruct (Ht k x Hx y Hxy) as (j & Hj & Hy). destruct (IH j Hy) as (j' & ? & ?).
    exists j'. split; [lia|done].
Qed.

Section dfs.
Context (g : graph) (Hsk : skeleton g) (Heo : edges_ok g) (Hac : acyclic g).

(** What a call adds. *)
Definition explored (c c' : care) : Prop :=
  care_ok g c' /\ (exists l, care_vec c' = care_vec c ++ l) /\
  (forall x, grey c' x <-> grey c x) /\ unseen c' <= unseen c.

Lemma explored_trans c1 c2 c3 : explored c1 c2 -> explored c2 c3 -> explored c1 c3.
Proof.
  intros (_ & (l1 & E1) & G1 & U1) (H & (l2 & E2) & G2 & U2).
  split_and!; [done| |intros x; by rewrite G2, G1|lia].
  exists (l1 ++ l2). by rewrite E2, E1, <-app_assoc.
Qed.

Lemma mark_care c id :
  care_ok g c -> care_set c !! id = Some false ->
  let c1 := MkCare (<[id:=true]> (care_set c)) (care_vec c) in
  care_ok g c1 /\ unseen c = S (unseen c1) /\ (forall x, grey c1 x <-> x = id \/ grey c x).
Proof.
  intros Hc Hid. assert (Hlt : id < length (care_set c)) by (by eapply lookup_lt_Some).
  assert (Hni : id ∉ care_vec c) by (intros Hin%(ca_seen g c Hc); unfold seen in Hin; congruence).
  assert (Hs : forall x, seen (MkCare (<[id:=true]> (care_set c)) (care_vec c)) x <->
    x = id \/ seen c x).
  { intros x. unfold seen. simpl. destruct (decide (x = id)) as [->|].
    - rewrite list_lookup_insert_eq by done. naive_solver.
    - rewrite list_lookup_insert_ne by done. naive_solver. }
  cbv zeta. split_and!.
  - destruct Hc. split; simpl; [by rewrite length_insert|done| |done].
    intros x Hx. apply Hs. right. auto.
  - by apply filter_insert_true.
  - intros x. unfold grey. rewrite Hs. naive_solver.
Qed.

Lemma add_to_care_spec fuel : forall id c,
  id < length (events g) -> care_ok g c -> unseen c < fuel ->
  (forall x, grey c x -> before g x id) ->
  exists c', add_to_care fuel g id c = Some c' /\ explored c c' /\ id ∈ care_vec c'.
Proof.
  induction fuel as [|fuel IH]; intros id c Hid Hc Hu Hg; [lia|]. simpl.
  destruct (lookup_lt_exists (care_set c) id) as [b Hb]; [by rewrite (ca_length g c Hc)|].
  rewrite Hb. simpl. destruct b.
  { exists c. split; [done|]. split.
    - split_and!; [done|exists []; by rewrite app_nil_r|done..].
    - destruct (decide (id ∈ care_vec c)); [done|]. exfalso. by apply (Hac id), Hg. }
  destruct (lookup_lt_exists (events g) id Hid) as [e He]. rewrite He. simpl.
  rewrite vset_Some by (by eapply lookup_lt_Some). simpl.
  destruct (successors_spec g id e) as (succ & -> & Hsucc); [done..|]. simpl.
  destruct (mark_care c id Hc Hb) as (Hc1 & Hu1 & Hg1).
  set (c1 := MkCare _ _) in *.
  destruct (for_each_total (fun pre c' => explored c1 c' /\ forall y, y ∈ pre -> y ∈ care_vec c')
    (add_to_care fuel g) succ) with (st := c1) as (c2 & -> & (Hc2 & (l2 & E2) & G2 & U2) & Hin2).
  - intros pre y post c' Hpre [He' Hin]. pose proof He' as (Hc' & (l' & E') & G' & U').
    assert (Hy : edge g id y).
    { apply Hsucc. rewrite Hpre. apply elem_of_app. right. by left. }
    destruct (IH y c') as (c'' & -> & Hex & Hyin); [by eapply edge_lt|done|lia| |].
    { intros x [->|Hx]%G'%Hg1; [by apply tc_once|]. eapply tc_r; [by apply Hg|done]. }
    exists c''. split; [done|]. split; [by eapply explored_trans|].
    intros z [Hz| ->%list_elem_of_singleton]%elem_of_app; [|done].
    destruct Hex as (_ & (l'' & E'') & _). rewrite E''. apply elem_of_app. left. by apply Hin.
  - split; [|by intros y ?%not_elem_of_nil].
    split_and!; [done|exists []; by rewrite app_nil_r|done..].
  - simpl. eexists; split; [done|].
    assert (Hgid : grey c2 id) by (apply G2, Hg1; by left).
    assert (Hgrey : forall x, grey (MkCare (care_set c2) (care_vec c2 ++ [id])) x <-> grey c x).
    { intros x. unfold grey, seen. simpl. rewrite elem_of_app, list_elem_of_singleton.
      pose proof (G2 x) as H1. pose proof (Hg1 x) as H2. unfold grey, seen in H1, H2.
      assert ((id ∉ care_vec c) /\ care_set c !! id <> Some true) as [Hni Hns].
      { split; [intros Hin%(ca_seen g c Hc)|]; unfold seen in *; congruence. }
      destruct (decide (x = id)) as [->|]; naive_solver. }
    split; [|simpl; apply elem_of_app; right; by apply list_elem_of_singleton].
    split_and!; [|exists (l2 ++ [id]); simpl; by rewrite E2, <-app_assoc|done|unfold unseen in *; simpl in *; lia].
    split; simpl; [apply (ca_length g c2 Hc2)| | |].
    + apply NoDup_app. split_and!; [apply (ca_nodup g c2 Hc2)| |apply NoDup_singleton].
      intros x Hx ->%list_elem_of_singleton. by apply Hgid.
    + intros x [Hx| ->%list_elem_of_singleton]%elem_of_app; [by apply (ca_seen g c2 Hc2)|apply Hgid].
    + intros k x Hx y Hxy. destruct (decide (k < length (care_vec c2))) as [Hk|Hk].
      * rewrite lookup_app_l in Hx by done.
        destruct (ca_topo g c2 Hc2 k x Hx y Hxy) as (j & Hj & Hy). exists j. split; [done|].
        by rewrite lookup_app_l by lia.
      * rewrite lookup_app_r in Hx by lia. apply list_lookup_singleton_Some in Hx as [Hx <-].
        apply Hsucc in Hxy. apply Hin2, list_elem_of_lookup_1 in Hxy as [j Hj].
        pose proof (lookup_lt_Some _ _ _ Hj). exists j. split; [lia|].
        by rewrite lookup_app_l by lia.
Qed.

Lemma reverse_care_set_spec :
  exists c, reverse_care_set g = Some c /\ care_ok g c /\
    forall r er w, events g !! r = Some er -> read_from er = Some w ->
      saturated_until g <= r -> w < saturated_until g -> w ∈ care_vec c.
Proof.
  unfold reverse_care_set. rewrite for_each_seq. set (n := length (events g)).
  destruct (for_each_total (fun pre c => care_ok g c /\ (forall x, ~ grey c x) /\
      forall r er w, r ∈ pre -> events g !! r = Some er -> read_from er = Some w ->
        w < saturated_until g -> w ∈ care_vec c)
    (fun id c =>
      e ← events g !! id;
      match read_from e with
      | Some w => if is_load e && bool_decide (w < saturated_until g)
                  then add_to_care (S n) g w c else Some c
      | None => Some c
      end) (seq (saturated_until g) (n - saturated_until g))) with (st := MkCare (replicate n false) [])
    as (c & -> & Hc & _ & Hin).
  - intros pre x post c Hpre (Hc & Hng & Hin).
    assert (Hx : x ∈ seq (saturated_until g) (n - saturated_until g)).
    { rewrite Hpre. apply elem_of_app. right. by left. }
    apply elem_of_seq in Hx. destruct (lookup_lt_exists (events g) x) as [e He]; [fold n; lia|].
    rewrite He. cbn [mbind option_bind].
    assert (Hskip : (forall w, read_from e = Some w -> w < saturated_until g -> False) ->
      exists c', Some c = Some c' /\ care_ok g c' /\ (forall x, ~ grey c' x) /\
      forall r er w, r ∈ pre ++ [x] -> events g !! r = Some er -> read_from er = Some w ->
        w < saturated_until g -> w ∈ care_vec c').
    { intros Hno. exists c. split_and!; [done..|].
      intros r er w [Hr| ->%list_elem_of_singleton]%elem_of_app Her Hw Hlt; [by eapply Hin|].
      simplify_eq. by destruct (Hno w). }
    destruct (read_from e) as [w|] eqn:Ew; [|by apply Hskip].
    destruct (sk_rf g Hsk _ _ _ He Ew) as (Hld & ew & Hw & _). rewrite Hld. cbn [andb].
    destruct (bool_decide (w < saturated_until g)) eqn:Hlt.
    2:{ apply bool_decide_eq_false in Hlt. apply Hskip. intros w' [= <-]. done. }
    apply bool_decide_eq_true in Hlt.
    destruct (add_to_care_spec (S n) w c) as (c' & -> & (Hc' & (l & El) & Hg' & _) & Hwin);
      [by eapply events_lt|done| |by intros y ?%Hng|].
    { pose proof (length_filter (fun b => b = false) (care_set c)) as Hl.
      rewrite (ca_length g c Hc) in Hl. unfold unseen. fold n in Hl. lia. }
    exists c'. split_and!; [done|done|intros y; rewrite Hg'; apply Hng|].
    intros r er w' [Hr| ->%list_elem_of_singleton]%elem_of_app Her Hw' Hlt'.
    + rewrite El. apply elem_of_app. left. by eapply Hin.
    + by simplify_eq.
  - split_and!.
    + split; simpl; [by rewrite length_replicate|constructor|by intros x ?%not_elem_of_nil|].
      intros k x Hx. by rewrite lookup_nil in Hx.
    + intros x [Hs _]. unfold seen in Hs. simpl in Hs. by apply lookup_replicate_1 in Hs as [? _].
    + by intros r er w ?%not_elem_of_nil.
  - exists c. split_and!; [done|done|]. intros r er w Her Hrf Hr Hw. eapply Hin; [|done..].
    apply elem_of_seq. apply events_lt in Her. fold n in Her. lia.
Qed.
End dfs.

(** ** Below-clocks *)

Definition row (s : vclockvec) (x p : nat) : Z := clk (vcv_vec s) (x * vcv_clock_size s + p).

(** Row [x] shows the first event of each process that [x] reaches, and one past
    the last event of a process it does not reach. *)
Definition below_ok (g : graph) (s : vclockvec) (x : nat) : Prop := forall p,
  p < vcv_clock_size s ->
  (1 <= row s x p <= Z.of_nat (length (process g p)) + 1)%Z /\
  ((row s x p <= Z.of_nat (length (process g p)))%Z ->
     exists y, positioned g p (row s x p) y /\ reaches g x y) /\
  (forall y j, positioned g p j y -> reaches g x y -> (row s x p <= j)%Z).

Lemma top_spec g :
  skeleton g ->
  exists t, top g = Some t /\ forall p, p < length (events_by_pid g) ->
    clk t p = (Z.of_nat (length (process g p)) + 1)%Z.
Proof.
  intros Hsk. unfold top. rewrite for_each_seq.
  destruct (for_each_total (fun pre t => forall p, p ∈ pre ->
      clk t p = (Z.of_nat (length (process g p)) + 1)%Z)
    (fun pid t =>
      l ← events_by_pid g !! pid;
      _ ← match last l with
          | Some b => e ← events g !! b; cassert (bool_decide (ev_index e = Z.of_nat (length l)))
          | None => Some tt end;
      vc_set t (Z.of_nat pid) (Z.of_nat (length l) + 1)%Z)
    (seq 0 (length (events_by_pid g)))) with (st := @nil Z) as (t & -> & Ht).
  - intros pre p post t Hpre IH.
    assert (Hp : p < length (events_by_pid g)).
    { assert (p ∈ seq 0 (length (events_by_pid g))) as ?%elem_of_seq; [|lia].
      rewrite Hpre. apply elem_of_app. right. by left. }
    destruct (lookup_lt_exists _ _ Hp) as [l Hl]. rewrite Hl. simpl.
    assert (Hproc : process g p = l) by (unfold process; by rewrite Hl).
    assert (Hlast : match last l with
      | Some b => e ← events g !! b; cassert (bool_decide (ev_index e = Z.of_nat (length l)))
      | None => Some tt end = Some tt).
    { destruct (last l) as [b|] eqn:Eb; [|done]. rewrite last_lookup in Eb.
      pose proof (lookup_lt_Some _ _ _ Eb). rewrite <-Hproc in Eb.
      destruct (sk_process g Hsk _ _ _ Eb) as (e & -> & _ & Hi). simpl.
      rewrite bool_decide_true; [done|]. rewrite Hproc in Hi. lia. }
    rewrite Hlast. simpl. destruct (vc_set_spec t p (Z.of_nat (length l) + 1)%Z) as (t' & -> & Ht').
    eexists; split; [done|]. intros q Hq. rewrite Ht'. case_decide as Hqp; [by subst|].
    apply elem_of_app in Hq as [?| ->%list_elem_of_singleton]; [by apply IH|done].
  - by intros p ?%not_elem_of_nil.
  - exists t. split; [done|]. intros p Hp. apply Ht, elem_of_seq. lia.
Qed.

Lemma foldr_min_le (l : list Z) z x : x ∈ l \/ x = z -> (foldr Z.min z l <= x)%Z.
Proof.
  induction l as [|y l IH]; simpl; [intros [?%not_elem_of_nil|]; [done|lia]|].
  intros [[->|Hx]%elem_of_cons| ->]; [lia| |]; specialize (IH ltac:(auto)); lia.
Qed.
Lemma foldr_min_in (l : list Z) z : foldr Z.min z l = z \/ foldr Z.min z l ∈ l.
Proof.
  induction l as [|y l IH]; simpl; [by left|].
  destruct (Z.min_spec y (foldr Z.min z l)) as [[_ ->]|[_ ->]]; [right; by left|].
  destruct IH; [by left|right; by right].
Qed.
Lemma foldr_min_app (l l' : list Z) z :
  foldr Z.min z (l ++ l') = Z.min (foldr Z.min z l) (foldr Z.min z l').
Proof. induction l as [|y l IH]; simpl; [|lia]. induction l'; simpl; lia. Qed.

(** The start of a row: the event itself, and nothing of the other processes. *)
Definition start (g : graph) (e : Event) (p : nat) : Z :=
  if decide (p = ev_pid e) then ev_index e else (Z.of_nat (length (process g p)) + 1)%Z.

Lemma vcv_base s n (d : nat) :
  vcv_wf s n -> d < n -> vcv_at s (Z.of_nat d) = Some (d * vcv_clock_size s) /\
  d * vcv_clock_size s + vcv_clock_size s <= length (vcv_vec s).
Proof. apply vcv_at_spec. Qed.

(** The rows after [below_clocks\[id\] = top], the own position and the loop
    over the successors. *)
Lemma below_clock_rows g id e t s succ :
  skeleton g -> events g !! id = Some e ->
  vcv_wf s (length (events g)) -> vcv_clock_size s = length (events_by_pid g) ->
  (forall p, p < length (events_by_pid g) -> clk t p = (Z.of_nat (length (process g p)) + 1)%Z) ->
  successors g id e = Some succ -> (forall y, y ∈ succ -> y < length (events g) /\ y <> id) ->
  exists s', below_clock g id e t s = Some s' /\ vcv_wf s' (length (events g)) /\
    vcv_clock_size s' = vcv_clock_size s /\
    (forall x p, x <> id -> p < vcv_clock_size s -> row s' x p = row s x p) /\
    (forall p, p < vcv_clock_size s ->
       row s' id p = foldr Z.min (start g e p) ((fun y => row s y p) <$> succ)).
Proof.
  intros Hsk He Hs Hcs Ht Hsucc Hlt. unfold below_clock. pose proof (events_lt _ _ _ He) as Hid.
  destruct (vcv_base s _ id Hs Hid) as [-> Hbase]. simpl.
  destruct s as [v0 P]. simpl in Hcs. subst P. set (P := length (events_by_pid g)) in *.
  cbn [vcv_vec vcv_clock_size] in *. unfold vcv_wf in Hs. simpl in Hs.
  destruct (ref_assign_spec v0 (id * P) P t Hbase) as (v1 & -> & Hl1 & Hv1). simpl.
  destruct (sk_event g Hsk _ _ He) as [Hpos Hproc].
  assert (Hpid : ev_pid e < P).
  { destruct (process_event g (ev_pid e) (ev_index e)) as (l & El & _).
    - apply (positioned_range g Hsk _ _ id). by exists e.
    - by eapply lookup_lt_Some. }
  unfold ref_set at 1. rewrite bool_decide_true by lia. simpl. rewrite Nat2Z.id.
  rewrite vset_Some by lia. simpl. set (v2 := <[id * P + ev_pid e := ev_index e]> v1).
  assert (Hv2 : forall j, clk v2 j = if decide (j = id * P + ev_pid e) then ev_index e else
                               if decide (id * P <= j < id * P + P) then clk t (j - id * P) else clk v0 j).
  { intros j. unfold clk at 1, v2. destruct (decide (j = id * P + ev_pid e)) as [->|].
    - by rewrite list_lookup_insert_eq by lia.
    - rewrite list_lookup_insert_ne, Hv1 by done. by case_decide. }
  rewrite Hsucc. simpl.
  destruct (for_each_total (fun pre v => length v = length (events g) * P /\
      (forall x p, x <> id -> p < P -> clk v (x * P + p) = clk v0 (x * P + p)) /\
      (forall p, p < P -> clk v (id * P + p) =
         foldr Z.min (start g e p) ((fun y => clk v0 (y * P + p)) <$> pre)))
    (fun o v => b ← vcv_at (VClockVec v P) (Z.of_nat o); ref_minus_assign v (id * P) b P P) succ)
    with (st := v2) as (v3 & -> & Hl3 & Hother & Hrow).
  - intros pre y post v Hpre (Hl & Hother & Hrow).
    destruct (Hlt y) as [Hy Hne]; [rewrite Hpre; apply elem_of_app; right; by left|].
    destruct (vcv_base (VClockVec v P) (length (events g)) y) as [-> Hb]; [done|done|].
    cbn [vcv_vec vcv_clock_size mbind option_bind] in *.
    destruct (ref_minus_assign_spec v (id * P) (y * P) P) as (r & -> & Hlr & Hr); [lia|lia| |].
    { destruct (Nat.lt_total id y) as [|[->|]]; [right; left; nia|by left|right; right; nia]. }
    exists r. split; [done|]. split_and!; [lia| |].
    + intros x p Hx Hp. rewrite <-Hother by done. unfold clk. rewrite Hr, decide_False; [done|nia].
    + intros p Hp. apply clk_lookup. rewrite Hr, decide_True by lia. rewrite Hrow by done.
      replace (y * P + (id * P + p - id * P)) with (y * P + p) by lia. rewrite Hother by done.
      rewrite fmap_app, foldr_min_app. simpl. f_equal.
      assert (foldr Z.min (start g e p) ((fun y => clk v0 (y * P + p)) <$> pre) <= start g e p)%Z
        by (apply foldr_min_le; by right). lia.
  - split_and!.
    + unfold v2. rewrite length_insert. lia.
    + intros x p Hx Hp. rewrite Hv2, !decide_False; [done|nia..].
    + intros p Hp. rewrite Hv2. unfold start. simpl. destruct (decide (p = ev_pid e)) as [->|].
      * by rewrite decide_True.
      * rewrite decide_False, decide_True by lia. rewrite <-Ht by done. f_equal. lia.
  - simpl. eexists; split; [done|]. split_and!; [done|done|..].
    + intros x p Hx Hp. apply Hother; [done|]. done.
    + intros p Hp. by apply Hrow.
Qed.

Lemma below_clock_spec g id e t s :
  skeleton g -> edges_ok g -> acyclic g -> events g !! id = Some e ->
  vcv_wf s (length (events g)) -> vcv_clock_size s = length (events_by_pid g) ->
  (forall p, p < length (events_by_pid g) -> clk t p = (Z.of_nat (length (process g p)) + 1)%Z) ->
  (forall y, edge g id y -> below_ok g s y) ->
  exists s', below_clock g id e t s = Some s' /\ vcv_wf s' (length (events g)) /\
    vcv_clock_size s' = vcv_clock_size s /\ below_ok g s' id /\
    (forall x, x <> id -> below_ok g s x -> below_ok g s' x).
Proof.
  intros Hsk Heo Hac He Hs Hcs Ht Hbelow.
  destruct (successors_spec g id e Hsk Heo He) as (succ & Esucc & Hsucc).
  destruct (below_clock_rows g id e t s succ) as (s' & Es' & Hs' & Hcs' & Hother & Hrow); [done..| |].
  { intros y Hy%Hsucc. split; [by eapply edge_lt|]. intros ->. apply (Hac id). by apply tc_once. }
  exists s'. split_and!; [done|done|done| |].
  - intros p Hp. rewrite Hcs' in Hp. rewrite Hrow by done.
    assert (Hstart : (1 <= start g e p <= Z.of_nat (length (process g p)) + 1)%Z).
    { unfold start. case_decide; [|lia]. subst.
      pose proof (positioned_range g Hsk (ev_pid e) (ev_index e) id ltac:(by exists e)). lia. }
    destruct (foldr_min_in ((fun y => row s y p) <$> succ) (start g e p)) as [E|E].
    + rewrite E. split_and!; [lia|lia| |].
      * unfold start. case_decide as Hpe; [|lia]. subst. intros _. exists id.
        split; [by exists e|apply rtc_refl].
      * intros y j Hy Hr. apply rtc_inv in Hr as [<-|(z & Hz & Hr)].
        -- destruct Hy as (e' & ? & ? & ?). simplify_eq. unfold start. by rewrite decide_True.
        -- rewrite <-E. etrans; [apply foldr_min_le; left; apply list_elem_of_fmap_2, Hsucc, Hz|].
           destruct (Hbelow z Hz p Hp) as (_ & _ & H). by eapply H.
    + assert (Hle : (foldr Z.min (start g e p) ((fun y => row s y p) <$> succ) <= start g e p)%Z)
        by (apply foldr_min_le; by right).
      pose proof E as (z & Ez & Hz%Hsucc)%list_elem_of_fmap.
      destruct (Hbelow z Hz p Hp) as (Hrange & Hex & _). rewrite <-Ez in Hrange, Hex.
      split_and!; [lia|lia| |].
      * intros Hlt. destruct (Hex Hlt) as (y & Hy & Hr). exists y. split; [done|]. by eapply rtc_l.
      * intros y j Hy Hr. apply rtc_inv in Hr as [<-|(z' & Hz' & Hr)].
        -- etrans; [done|]. destruct Hy as (e' & ? & ? & ?). simplify_eq. unfold start.
           by rewrite decide_True.
        -- etrans; [apply foldr_min_le; left; apply list_elem_of_fmap_2, Hsucc, Hz'|].
           destruct (Hbelow z' Hz' p Hp) as (_ & _ & H). by eapply H.
  - intros x Hx Hok p Hp. rewrite Hcs' in Hp. rewrite (Hother x p Hx Hp). by apply Hok.
Qed.

(** ** The missed from-reads *)

(** The edges added for store [id] with the new readers [new_out]. *)
Definition missed (g : graph) (id : nat) (e : Event) (new_out : list nat) (a b : nat) : Prop :=
  a ∈ new_out /\ a <> b /\ b <> id /\ before g id b /\
  exists p j, store_at g p j (ev_addr e) b.

(** Every store of [p] to the address that comes after [id] has a store of the
    same process before it that the new readers come before. *)
Definition caught (g : graph) (id : nat) (e : Event) (new_out : list nat) (p : nat)
    (new : nat -> nat -> Prop) : Prop :=
  forall s j, store_at g p j (ev_addr e) s -> s <> id -> before g id s ->
    exists b k, store_at g p k (ev_addr e) b /\ b <> id /\ (k <= j)%Z /\
      forall r, r ∈ new_out -> r <> b -> new r b.

Section reverse.
Context (g0 : graph) (Hwf : wf g0) (Hac : acyclic g0).
Let Hsk : skeleton g0 := wf_skeleton g0 Hwf.
Let Heo : edges_ok g0 := wf_edges g0 Hwf.
Local Abbreviation N := (length (events g0)).
Local Abbreviation P := (length (events_by_pid g0)).

(** The rows of an event and of one that comes after it. *)
Lemma below_lt s id e y :
  vcv_wf s N -> vcv_clock_size s = P -> events g0 !! id = Some e -> before g0 id y ->
  below_ok g0 s id -> below_ok g0 s y ->
  ref_lt (vcv_vec s) (id * P) (y * P) P P = Some true.
Proof.
  intros Hs Hcs He Hb Hid Hy.
  assert (Hlt : id < N /\ y < N).
  { split; [by eapply events_lt|]. apply tc_nsteps in Hb as (k & Hk & Hst).
    destruct k as [|k]; [lia|]. apply nsteps_inv_r in Hst as (z & _ & Hz). by eapply edge_lt. }
  destruct (vcv_base s N id Hs) as [_ B1]; [lia|]. destruct (vcv_base s N y Hs) as [_ B2]; [lia|].
  rewrite Hcs in *. destruct (ref_lt_spec (vcv_vec s) (id * P) (y * P) P B1 B2) as (b & -> & Hb').
  f_equal. apply Hb'. unfold below_ok, row in Hid, Hy. rewrite Hcs in Hid, Hy.
  destruct (sk_event g0 Hsk _ _ He) as [Hpos _].
  assert (Hposd : positioned g0 (ev_pid e) (ev_index e) id) by (by exists e).
  pose proof (positioned_range g0 Hsk _ _ _ Hposd) as Hrange.
  assert (Hpid : ev_pid e < P).
  { destruct (process_event g0 (ev_pid e) (ev_index e) Hrange) as (l & El & _).
    by eapply lookup_lt_Some. }
  split.
  - intros q Hq. destruct (Hid q Hq) as (Hr1 & _ & Hmin). destruct (Hy q Hq) as (Hr2 & Hex & _).
    destruct (decide (clk (vcv_vec s) (y * P + q) <= Z.of_nat (length (process g0 q)))%Z) as [Hle|];
      [|lia].
    destruct (Hex Hle) as (z & Hz & Hrz). eapply Hmin; [done|].
    eapply rtc_trans; [by apply tc_rtc|done].
  - exists (ev_pid e). split; [done|]. destruct (Hid _ Hpid) as (_ & _ & Hmin).
    pose proof (Hmin id (ev_index e) Hposd (rtc_refl _ _)) as H1.
    destruct (Hy _ Hpid) as (Hr2 & Hex & _).
    destruct (decide (clk (vcv_vec s) (y * P + ev_pid e) <= ev_index e)%Z) as [Hle|]; [|lia].
    exfalso. destruct Hex as (z & Hz & Hrz); [lia|].
    apply (Hac id). eapply tc_rtc_r; [done|]. eapply rtc_trans; [done|].
    by apply (po_reaches g0 (ev_pid e) _ (ev_index e) z id Hsk Heo Hz Hposd).
Qed.

(** The first store of [p] at or after the [k]-th event, other than [id]. *)
Lemma first_store a p k fv id :
  positioned g0 p k fv ->
  let ws := pwrites g0 p a in
  let lb := lower_bound ws fv in
  let lb := if decide (ws !! lb = Some id) then S lb else lb in
  match ws !! lb with
  | Some pe => pe <> id /\ exists j, store_at g0 p j a pe /\ (k <= j)%Z /\
      forall s j', store_at g0 p j' a s -> (k <= j')%Z -> s <> id -> (j <= j')%Z
  | None => forall s j', store_at g0 p j' a s -> (k <= j')%Z -> s = id
  end.
Proof.
  intros Hfv ws. cbv zeta. pose proof (sk_wsorted g0 Hsk p a) as Hso. fold ws in Hso.
  set (lb := lower_bound ws fv).
  assert (Hidx : forall s j, store_at g0 p j a s -> (k <= j)%Z -> exists n, ws !! n = Some s /\ lb <= n).
  { intros s j Hs Hj. assert (Hin : s ∈ ws) by (apply (store_at_pwrites g0 Hsk); eauto).
    apply list_elem_of_lookup_1 in Hin as [n Hn]. exists n. split; [done|].
    destruct (decide (lb <= n)); [done|]. exfalso.
    pose proof (lower_bound_below ws fv n s ltac:(unfold lb in *; lia) Hn).
    apply store_at_positioned in Hs. apply (positioned_le g0 Hsk p k j fv s Hfv Hs) in Hj. lia. }
  assert (Hat : forall n s, ws !! n = Some s -> lb <= n -> exists j, store_at g0 p j a s /\ (k <= j)%Z).
  { intros n s Hn Hlb. destruct (store_at_pwrites g0 Hsk p a s) as [[j Hj] _].
    { by eapply list_elem_of_lookup_2. }
    exists j. split; [done|]. pose proof (store_at_positioned _ _ _ _ _ Hj) as Hp.
    apply (positioned_le g0 Hsk p k j fv s Hfv Hp). by eapply lower_bound_above. }
  assert (Hord : forall n m s t j j', ws !! n = Some s -> ws !! m = Some t -> n <= m ->
    store_at g0 p j a s -> store_at g0 p j' a t -> (j <= j')%Z).
  { intros n m s t j j' Hn Hm Hnm Hj Hj'.
    apply (positioned_le g0 Hsk p j j' s t); [by eapply store_at_positioned..|].
    destruct (decide (n = m)) as [->|]; [simplify_eq; lia|].
    pose proof (sorted_lookup_lt ws n m s t Hso Hn Hm). lia. }
  case_decide as Hd.
  - destruct (ws !! S lb) as [pe|] eqn:Epe.
    + split; [intros ->; pose proof (sorted_lookup_inj ws _ _ _ Hso Hd Epe); lia|].
      destruct (Hat _ _ Epe) as (j & Hj & Hkj); [lia|]. exists j. split_and!; [done|done|].
      intros s j' Hs Hkj' Hne. destruct (Hidx s j' Hs Hkj') as (n & Hn & Hlb).
      eapply (Hord (S lb) n); [done..| |done|done].
      destruct (decide (n = lb)) as [->|]; [congruence|lia].
    + intros s j' Hs Hkj'. destruct (Hidx s j' Hs Hkj') as (n & Hn & Hlb).
      destruct (decide (n = lb)) as [->|]; [congruence|].
      apply lookup_ge_None in Epe. pose proof (lookup_lt_Some _ _ _ Hn). lia.
  - destruct (ws !! lb) as [pe|] eqn:Epe.
    + split; [congruence|]. destruct (Hat _ _ Epe) as (j & Hj & Hkj); [lia|].
      exists j. split_and!; [done|done|]. intros s j' Hs Hkj' _.
      destruct (Hidx s j' Hs Hkj') as (n & Hn & Hlb). by eapply (Hord lb n).
    + intros s j' Hs Hkj'. destruct (Hidx s j' Hs Hkj') as (n & Hn & Hlb).
      apply lookup_ge_None in Epe. pose proof (lookup_lt_Some _ _ _ Hn). lia.
Qed.

Lemma add_reads_spec g E Q l b :
  grown g0 E Q g -> (forall r, r ∈ l -> r < N) -> b < N ->
  exists g', for_each l (fun r g => if decide (r = b) then Some g else add_edge_internal r b g) g
      = Some g' /\
    grown g0 (fun x y => E x y \/ (x ∈ l /\ y = b /\ x <> b))
      (fun x => Q x \/ (x = b /\ exists r, r ∈ l /\ r <> b)) g'.
Proof.
  intros Hg Hl Hb.
  apply (for_each_total (fun pre g' => grown g0 (fun x y => E x y \/ (x ∈ pre /\ y = b /\ x <> b))
      (fun x => Q x \/ (x = b /\ exists r, r ∈ pre /\ r <> b)) g')).
  - intros pre r post g' Hpre Hg'. case_decide as Hr.
    + exists g'. split; [done|]. eapply grown_weaken; [done|..].
      * intros x y. rewrite elem_of_app, list_elem_of_singleton. naive_solver.
      * intros x. setoid_rewrite elem_of_app. setoid_rewrite list_elem_of_singleton. naive_solver.
    + assert (Hlen : length (events g') = N) by (by destruct (gr_same _ _ _ _ Hg') as (_ & -> & _)).
      destruct (add_edge_internal_spec g' r b) as (g2 & -> & Hg2); [apply Hg'|apply Hg'| |lia|].
      { rewrite Hlen. apply Hl. rewrite Hpre. apply elem_of_app. right. by left. }
      exists g2. split; [done|]. eapply grown_weaken; [by eapply grown_trans|..].
      * intros x y. simpl. rewrite elem_of_app, list_elem_of_singleton. naive_solver.
      * intros x. simpl. setoid_rewrite elem_of_app. setoid_rewrite list_elem_of_singleton. naive_solver.
  - eapply grown_weaken; [done|..].
    + intros x y. rewrite elem_of_nil. naive_solver.
    + intros x. setoid_rewrite elem_of_nil. naive_solver.
Qed.

Lemma reverse_process_spec g E Q id e new_out s p :
  grown g0 E Q g -> (forall x, Q x <-> exists a, E a x) ->
  events g0 !! id = Some e -> vcv_wf s N -> vcv_clock_size s = P -> p < P ->
  (forall r, r ∈ new_out -> r < N) ->
  below_ok g0 s id -> (forall y, before g0 id y -> below_ok g0 s y) ->
  exists g' E' Q', reverse_process id e new_out s p g = Some g' /\ grown g0 E' Q' g' /\
    (forall x, Q' x <-> exists a, E' a x) /\
    (forall a b, E a b -> E' a b) /\
    (forall a b, E' a b -> E a b \/ missed g0 id e new_out a b) /\
    caught g0 id e new_out p E'.
Proof.
  intros Hg HQ He Hs Hcs Hp Hnew Hid Hafter. unfold reverse_process. rewrite Hcs.
  pose proof (gr_same _ _ _ _ Hg) as Hsame.
  assert (Hidlt : id < N) by (by eapply events_lt).
  destruct (vcv_base s N id Hs Hidlt) as [-> Hbase]. rewrite Hcs in *. cbn [mbind option_bind].
  destruct (lookup_lt_exists (writes_by_process_and_address g0) p) as [w Hw].
  { by rewrite (sk_width g0 Hsk). }
  assert (Hw' : writes_by_process_and_address g !! p = Some w).
  { by destruct Hsame as (_ & _ & _ & _ & _ & ->). }
  rewrite Hw'. cbn [mbind option_bind].
  assert (Hpw : default [] (w !! ev_addr e) = pwrites g0 p (ev_addr e)).
  { unfold pwrites. by rewrite Hw. }
  rewrite Hpw. unfold ref_get. rewrite bool_decide_true by lia. cbn [cassert mbind option_bind].
  rewrite Nat2Z.id, lookup_clk by lia. cbn [mbind option_bind].
  pose proof Hid as Hid'. unfold below_ok, row in Hid'. rewrite Hcs in Hid'.
  destruct (Hid' p Hp) as (Hrange & Hex & Hmin). clear Hid'.
  set (k := clk (vcv_vec s) (id * P + p)) in *.
  destruct (maybe_get_process_event_spec g (skeleton_same g0 g Hsame Hsk) p k) as (r & -> & Hr).
  { by destruct Hsame as (_ & _ & -> & _). } { lia. }
  rewrite (same_process g0 g) in Hr by done. cbn [mbind option_bind].
  assert (Hskip : (forall s j, store_at g0 p j (ev_addr e) s -> s <> id -> before g0 id s -> False) ->
    exists g' E' Q', Some g = Some g' /\ grown g0 E' Q' g' /\
      (forall x, Q' x <-> exists a, E' a x) /\ (forall a b, E a b -> E' a b) /\
      (forall a b, E' a b -> E a b \/ missed g0 id e new_out a b) /\ caught g0 id e new_out p E').
  { intros Hno. exists g, E, Q. split_and!; [done|done|done|done|by left|].
    intros x j Hx Hne Hb. by destruct (Hno x j). }
  destruct r as [fv|].
  2:{ apply Hskip. intros x j Hx Hne Hb. pose proof (store_at_positioned _ _ _ _ _ Hx) as Hxp.
      pose proof (positioned_range g0 Hsk _ _ _ Hxp).
      pose proof (Hmin x j Hxp (tc_rtc _ _ Hb)). lia. }
  apply (same_positioned g0 g) in Hr; [|done].
  pose proof (first_store (ev_addr e) p k fv id Hr) as Hfirst. cbv zeta in Hfirst.
  set (lb := if decide _ then _ else _) in *.
  destruct (pwrites g0 p (ev_addr e) !! lb) as [pe|].
  2:{ apply Hskip. intros x j Hx Hne Hb. apply Hne. eapply (Hfirst x j Hx).
      apply (Hmin x j); [by eapply store_at_positioned|by apply tc_rtc]. }
  destruct Hfirst as (Hne & j & Hpe & Hkj & Hfirst). rewrite bool_decide_true by done.
  pose proof Hpe as (pev & Hpev & Hpp & Hpi & Hps & Hpa).
  assert (Hpev' : events g !! pe = Some pev) by (by destruct Hsame as (_ & -> & _)).
  cbn [cassert mbind option_bind]. rewrite Hpev'. cbn [mbind option_bind].
  rewrite Hps, bool_decide_true by done. cbn [andb cassert mbind option_bind].
  assert (Hb : before g0 id pe).
  { apply reaches_before; [|done]. destruct Hex as (y & Hy & Hry).
    { pose proof (positioned_range g0 Hsk _ _ _ Hr). lia. }
    assert (y = fv) as -> by by eapply (positioned_inj g0 Hsk). eapply rtc_trans; [done|].
    by eapply (po_reaches g0 p k j fv pe Hsk Heo); [|eapply store_at_positioned|]. }
  destruct (vcv_base s N pe Hs) as [-> _]; [by eapply events_lt|]. rewrite Hcs. cbn [mbind option_bind].
  rewrite (below_lt s id e pe) by auto. cbn [cassert mbind option_bind].
  destruct (add_reads_spec g E Q new_out pe Hg Hnew) as (g' & -> & Hg'); [by eapply events_lt|].
  exists g'. eexists _, _. split_and!; [done|apply Hg'| |by left| |].
  - intros x. simpl. rewrite HQ. naive_solver.
  - intros a b [?|(Ha & -> & Hab)]; [by left|]. right. split_and!; [done|done|done|done|by exists p, j].
  - intros x j' Hx Hnx Hbx. exists pe, j. split_and!; [done|done| |auto].
    apply (Hfirst x j' Hx); [|done]. apply (Hmin x j'); [by eapply store_at_positioned|by apply tc_rtc].
Qed.

(** What the loop over the processes of one store does. *)
Lemma reverse_processes_spec g E Q id e new_out s :
  grown g0 E Q g -> (forall x, Q x <-> exists a, E a x) ->
  events g0 !! id = Some e -> vcv_wf s N -> vcv_clock_size s = P ->
  (forall r, r ∈ new_out -> r < N) ->
  below_ok g0 s id -> (forall y, before g0 id y -> below_ok g0 s y) ->
  exists g' E' Q', for_range P 0 (reverse_process id e new_out s) g = Some g' /\
    grown g0 E' Q' g' /\ (forall x, Q' x <-> exists a, E' a x) /\
    (forall a b, E a b -> E' a b) /\
    (forall a b, E' a b -> E a b \/ missed g0 id e new_out a b) /\
    forall p, p < P -> caught g0 id e new_out p E'.
Proof.
  intros Hg HQ He Hs Hcs Hnew Hid Hafter. rewrite for_each_seq.
  destruct (for_each_total (fun pre g' => exists E' Q', grown g0 E' Q' g' /\
      (forall x, Q' x <-> exists a, E' a x) /\ (forall a b, E a b -> E' a b) /\
      (forall a b, E' a b -> E a b \/ missed g0 id e new_out a b) /\
      forall p, p ∈ pre -> caught g0 id e new_out p E')
    (reverse_process id e new_out s) (seq 0 P)) with (st := g)
    as (g' & Eg & E' & Q' & Hg' & HQ' & Hkeep & Hnew' & Hc).
  - intros pre p post g' Hpre (E' & Q' & Hg' & HQ' & Hkeep & Hnew' & Hc).
    destruct (reverse_process_spec g' E' Q' id e new_out s p)
      as (g2 & E2 & Q2 & Eg2 & Hg2 & HQ2 & Hkeep2 & Hnew2 & Hc2); [done..| |done|done|done|].
    { assert (p ∈ seq 0 P) as ?%elem_of_seq; [|lia]. rewrite Hpre. apply elem_of_app. right. by left. }
    exists g2. split; [done|]. exists E2, Q2. split_and!; [done|done|auto| |].
    + intros a b [Hab|?]%Hnew2; [by apply Hnew'|by right].
    + intros q [Hq| ->%list_elem_of_singleton]%elem_of_app; [|done].
      intros x j Hx Hne Hb. destruct (Hc q Hq x j Hx Hne Hb) as (b & k & ? & ? & ? & Hr).
      exists b, k. split_and!; [done..|]. auto.
  - exists E, Q. split_and!; [done|done|done|by left|by intros p ?%not_elem_of_nil].
  - exists g', E', Q'. split_and!; [done..|]. intros p Hp. apply Hc, elem_of_seq. lia.
Qed.

(** The edges reverse saturation may add: from a new reader of a store to a
    later store. *)
Definition missed_read (a b : nat) : Prop :=
  exists w ea ew eb, events g0 !! a = Some ea /\ read_from ea = Some w /\
    events g0 !! w = Some ew /\ events g0 !! b = Some eb /\ is_store eb = true /\
    ev_addr eb = ev_addr ew /\ a <> b /\ b <> w /\ before g0 w b.

(** For a store that has been visited, every later store to its address is
    preceded by one that the new readers come before. *)
Definition visited (w : nat) (new : nat -> nat -> Prop) : Prop :=
  forall ew r s es, events g0 !! w = Some ew -> is_store ew = true -> r ∈ readers ew ->
    saturated_until g0 <= r ->
    events g0 !! s = Some es -> is_store es = true -> ev_addr es = ev_addr ew -> s <> w ->
    before g0 w s ->
    exists b, reaches g0 b s /\ (r <> b -> new r b).

Lemma topological_visited l k id y :
  topological g0 l -> l !! k = Some id -> before g0 id y -> y ∈ take k l.
Proof.
  intros Ht Hk Hb. destruct (topological_before g0 l k id y Ht Hk Hb) as (j & Hj & Hy).
  eapply list_elem_of_lookup_2. by rewrite lookup_take_lt.
Qed.

Lemma reverse_event_spec l g E Q pre id post s t :
  topological g0 l -> NoDup l -> l = pre ++ id :: post -> id < N ->
  (forall p, p < P -> clk t p = (Z.of_nat (length (process g0 p)) + 1)%Z) ->
  grown g0 E Q g -> (forall x, Q x <-> exists a, E a x) ->
  vcv_wf s N -> vcv_clock_size s = P -> (forall x, x ∈ pre -> below_ok g0 s x) ->
  (forall a b, E a b -> a ∈ pre /\ missed_read a b) -> (forall x, x ∈ pre -> visited x E) ->
  exists s' g' E' Q', reverse_event t id (s, g) = Some (s', g') /\ grown g0 E' Q' g' /\
    (forall x, Q' x <-> exists a, E' a x) /\ vcv_wf s' N /\ vcv_clock_size s' = P /\
    (forall x, x ∈ pre ++ [id] -> below_ok g0 s' x) /\
    (forall a b, E' a b -> a ∈ pre ++ [id] /\ missed_read a b) /\
    (forall x, x ∈ pre ++ [id] -> visited x E').
Proof.
  intros Htopo Hnd Hl Hidlt Ht Hg HQ Hs Hcs Hrows HE Hvis.
  destruct (lookup_lt_exists (events g0) id Hidlt) as [e He].
  pose proof (gr_same _ _ _ _ Hg) as Hsame.
  assert (Hid : id ∉ pre).
  { rewrite Hl in Hnd. apply NoDup_app in Hnd as (_ & Hdis & _). intros Hin.
    apply (Hdis id Hin). by left. }
  assert (Hpre : forall y, before g0 id y -> y ∈ pre).
  { intros y Hy. assert (Hk : l !! length pre = Some id) by (rewrite Hl; apply lookup_mid).
    pose proof (topological_visited l _ id y Htopo Hk Hy) as Hin.
    by rewrite Hl, take_app_length in Hin. }
  unfold reverse_event.
  assert (He' : events g !! id = Some e) by (by destruct Hsame as (_ & -> & _)).
  rewrite He'. cbn [mbind option_bind].
  assert (Hsucc : successors g id e = successors g0 id e).
  { unfold successors, po_successor. destruct Hsame as (_ & _ & -> & _).
    rewrite (gr_outs _ _ _ _ Hg id); [done|]. intros b Hab. by apply Hid, (HE id b). }
  assert (Hbc : below_clock g id e t s = below_clock g0 id e t s).
  { unfold below_clock. by rewrite Hsucc. }
  rewrite Hbc. destruct (below_clock_spec g0 id e t s Hsk Heo Hac He Hs Hcs Ht)
    as (s' & -> & Hs' & Hcs' & Hok & Hkeep).
  { intros y Hy. apply Hrows, Hpre. by apply tc_once. }
  cbn [mbind option_bind]. rewrite Hcs in Hcs'.
  assert (Hrows' : forall x, x ∈ pre ++ [id] -> below_ok g0 s' x).
  { intros x [Hx| ->%list_elem_of_singleton]%elem_of_app; [|done].
    apply Hkeep; [by intros ->|by apply Hrows]. }
  assert (Hmono : forall x, x ∈ pre -> x ∈ pre ++ [id]) by (intros; apply elem_of_app; by left).
  assert (Hskip : (forall r, r ∈ readers e -> is_store e = true -> r < saturated_until g0) ->
    exists s2 g' E' Q', Some (s', g) = Some (s2, g') /\ grown g0 E' Q' g' /\
    (forall x, Q' x <-> exists a, E' a x) /\ vcv_wf s2 N /\ vcv_clock_size s2 = P /\
    (forall x, x ∈ pre ++ [id] -> below_ok g0 s2 x) /\
    (forall a b, E' a b -> a ∈ pre ++ [id] /\ missed_read a b) /\
    (forall x, x ∈ pre ++ [id] -> visited x E')).
  { intros Hno. exists s', g, E, Q. split_and!; [done..| |].
    - intros a b Hab. destruct (HE a b Hab). auto.
    - intros x [Hx| ->%list_elem_of_singleton]%elem_of_app; [by apply Hvis|].
      intros ew r x es Hew Hst Hr Hu. simplify_eq. specialize (Hno r Hr Hst). lia. }
  destruct (is_store e) eqn:Est; [|by apply Hskip].
  rewrite (gr_until _ _ _ _ Hg). set (new_out := filter _ _).
  assert (Hno : forall r, r ∈ new_out <-> saturated_until g0 <= r /\ r ∈ readers e).
  { intros r. unfold new_out. by rewrite list_elem_of_filter. }
  case_decide as Hempty.
  { apply Hskip. intros r Hr _. destruct (decide (saturated_until g0 <= r)) as [Hle|]; [|lia].
    exfalso. apply (not_elem_of_nil r). rewrite <-Hempty. by apply Hno. }
  rewrite Hcs'.
  destruct (reverse_processes_spec g E Q id e new_out s')
    as (g' & E' & Q' & -> & Hg' & HQ' & HEE & Hmiss & Hcaught); [done..| |done| |].
  { intros r [_ Hr]%Hno. destruct (sk_readers g0 Hsk _ _ _ He Hr) as (er & Her & _).
    by eapply events_lt. }
  { intros y Hy. apply Hrows', Hmono, Hpre. done. }
  exists s', g', E', Q'. split_and!; [done..| |].
  - intros a b [Hab|(Ha & Hab & Hbid & Hb & p & j & Hst)]%Hmiss.
    { destruct (HE a b Hab). auto. }
    apply Hno in Ha as [_ Ha]. destruct (sk_readers g0 Hsk _ _ _ He Ha) as (ea & Hea & Hrf).
    destruct Hst as (eb & Heb & _ & _ & Hbs & Hba). split.
    + apply Hmono, Hpre, tc_once. by eapply edge_rf.
    + by exists id, ea, e, eb.
  - intros x [Hx| ->%list_elem_of_singleton]%elem_of_app.
    + intros ew r y es H1 H2 H3 H4 H5 H6 H7 H8 H9.
      destruct (Hvis x Hx ew r y es H1 H2 H3 H4 H5 H6 H7 H8 H9) as (b & Hb & Hr).
      exists b. auto.
    + intros ew r y es Hew _ Hr Hu Hes Hys Hya Hne Hb. simplify_eq.
      assert (Hst : store_at g0 (ev_pid es) (ev_index es) (ev_addr e) y) by (by exists es).
      pose proof (positioned_range g0 Hsk _ _ _ (store_at_positioned _ _ _ _ _ Hst)) as Hrange.
      assert (Hp : ev_pid es < P).
      { destruct (process_event g0 _ _ Hrange) as (l' & El & _). by eapply lookup_lt_Some. }
      destruct (Hcaught _ Hp y _ Hst Hne Hb) as (b & k & Hbst & Hbne & Hk & Hrb).
      exists b. split; [|intros; apply Hrb; [by apply Hno|done]].
      apply (po_reaches g0 (ev_pid es) k (ev_index es) b y Hsk Heo);
        [by eapply store_at_positioned|by eapply store_at_positioned|done].
Qed.
End reverse.

(** Reverse saturation of an acyclic graph never fails; it adds from-reads of
    the new readers to later stores, all that old stores are owed. *)
Lemma reverse_saturate_spec g :
  wf g -> acyclic g ->
  exists g' g1 E Q, reverse_saturate g = Some g' /\ g' = set_until (length (events g)) g1 /\
    grown g E Q g1 /\ (forall x, Q x <-> exists a, E a x) /\
    (forall a b, E a b -> missed_read g a b) /\
    forall w r er, events g !! r = Some er -> read_from er = Some w -> saturated_until g <= r ->
      w < saturated_until g -> saturated_until g <> 0 -> saturated_until g <> length (events g) ->
      visited g w E.
Proof.
  intros Hwf Hac. unfold reverse_saturate.
  assert (Hid : grown g (fun _ _ => False) (fun _ => False) g).
  { apply grown_refl; apply Hwf. }
  case_decide as Hu.
  2:{ eexists _, g, _, _. split_and!; [done|done|apply Hid|naive_solver|done|].
      intros. destruct Hu. done. }
  destruct (reverse_care_set_spec g) as (c & -> & Hc & Hin); [apply Hwf..|done|].
  cbn [mbind option_bind]. case_decide as Hempty.
  { eexists _, g, _, _. split_and!; [done|done|apply Hid|naive_solver|done|].
    intros w r er Her Hrf Hr Hw _ _. exfalso. apply (not_elem_of_nil w).
    rewrite <-Hempty. by eapply Hin. }
  destruct (top_spec g (wf_skeleton g Hwf)) as (t & -> & Ht). cbn [mbind option_bind].
  set (s0 := vcv_create _ _).
  assert (Hcare : forall x, x ∈ care_vec c -> x < length (events g)).
  { intros x Hx%(ca_seen g c Hc). rewrite <-(ca_length g c Hc). by eapply lookup_lt_Some. }
  destruct (for_each_total (fun pre st => exists E Q, grown g E Q st.2 /\
      (forall x, Q x <-> exists a, E a x) /\
      vcv_wf st.1 (length (events g)) /\ vcv_clock_size st.1 = length (events_by_pid g) /\
      (forall x, x ∈ pre -> below_ok g st.1 x) /\
      (forall a b, E a b -> a ∈ pre /\ missed_read g a b) /\
      (forall x, x ∈ pre -> visited g x E))
    (reverse_event t) (care_vec c)) with (st := (s0, g))
    as ([s' g'] & -> & E & Q & Hg' & HQ & _ & _ & _ & HE & Hvis).
  - intros pre id post [s g1] Hpre (E & Q & Hg1 & HQ & Hs & Hcs & Hrows & HE & Hvis).
    cbn [fst snd] in *.
    destruct (reverse_event_spec g Hwf Hac (care_vec c) g1 E Q pre id post s t)
      as (s2 & g2 & E2 & Q2 & -> & Hrest); [apply Hc|apply Hc|done| |done..|].
    { apply Hcare. rewrite Hpre. apply elem_of_app. right. by left. }
    exists (s2, g2). split; [done|]. by exists E2, Q2.
  - exists (fun _ _ => False), (fun _ => False). cbn [fst snd].
    split_and!; [done|naive_solver| |done|by intros x ?%not_elem_of_nil|done|by intros x ?%not_elem_of_nil].
    unfold vcv_wf, s0, vcv_create. simpl. rewrite length_replicate. lia.
  - cbn [mbind option_bind fst snd] in *. exists (set_until (length (events g)) g'), g', E, Q.
    split_and!; [|done|done|done|by apply HE|].
    + by destruct (gr_same _ _ _ _ Hg') as (_ & -> & _).
    + intros w r er Her Hrf Hr Hw _ _. apply Hvis. by eapply Hin.
Qed.
