(* ===== verification/SatSound.v ===== *)
(** * SatSound: saturation of good graphs

    [good] collects what holds between calls: the graph is well-formed, clocks
    show what reaches, events that are not queued are settled, and the edges
    owed by the last saturation are there. [saturate] of a good acyclic graph
    ends with an answer; [true] leaves a good graph that is [saturated]; and
    an execution order that agrees with the graph forces the answer [true] and
    agrees with all the edges added. *)

From S2P Require Import Prelude.
From S2P Require Import VClock.
From S2P Require Import CPid.
From S2P Require Import SymAddr.
From S2P Require Import SatGraph.
From S2P Require Import SatWf.
From S2P Require Import SatLoop.
From S2P Require Import SatRun.
From S2P Require Import SatClosed.
From S2P Require Import SatReverse.

Record good (g : graph) : Prop := {
  go_wf : wf g;
  go_reach : clocks_reach g;
  go_settled : settled g;
  go_handled : handled_upto (saturated_until g) g;
  go_init : init_ok g;
  go_old id p j x : positioned g p j x -> (j <= clock g id p)%Z -> x < saturated_until g;
}.

Lemma grown_subgraph g E Q g' : grown g E Q g' -> subgraph g g'.
Proof. intros Hg. split; [apply (gr_same _ _ _ _ Hg)|]. intros a b. by eapply grown_edge. Qed.

Lemma clocks_reach_grown g E Q g' : grown g E Q g' -> clocks_reach g -> clocks_reach g'.
Proof.
  intros Hg Hcr id p. rewrite (grown_clock g g' E Q id p Hg). intros Hpos.
  destruct (Hcr id p Hpos) as (x & Hx & Hr). exists x. pose proof (grown_subgraph _ _ _ _ Hg) as Hs.
  split; [by apply (same_positioned g); [apply Hs|]|by eapply reaches_mono].
Qed.

(** New edges do not unsettle an event that is not queued. *)
Lemma settled_grown g E Q g' :
  wf g -> grown g E Q g' -> (forall a b, E a b -> Q b) -> settled g -> settled g'.
Proof.
  intros Hwf Hg HEQ Hset x ex ix' Hex Hix' Hx.
  assert (Hev : events g' = events g) by (by destruct (gr_same _ _ _ _ Hg) as (_ & -> & _)).
  rewrite Hev in Hex. destruct (lookup_lt_exists (ins g) x) as [ix Hix].
  { rewrite (eo_ins g (wf_edges g Hwf)). by eapply events_lt. }
  assert (Hnq : x ∉ wq_queue g) by (intros Hin; by apply Hx, (grown_queue g g' E Q)).
  assert (Hedge : forall a, edge g' a x <-> edge g a x).
  { intros a. rewrite (gr_edge _ _ _ _ Hg). split; [|by left]. intros [?|Hab%HEQ]; [done|].
    exfalso. apply Hx, (gr_queue _ _ _ _ Hg). by right. }
  destruct (Hset x ex ix Hex Hix Hnq) as [H1 H2]. split.
  - intros p. rewrite (grown_clock g g' E Q x p Hg), H1. apply fresh_ext.
    + intros a. split; intros Ha.
      * assert (edge g' a x) as (e2 & i2 & He2 & Hi2 & ?) by (apply Hedge; by exists ex, ix).
        rewrite Hev in He2. by simplify_eq.
      * assert (edge g a x) as (e2 & i2 & He2 & Hi2 & ?).
        { apply Hedge. exists ex, ix'. by rewrite Hev. }
        by simplify_eq.
    + intros a _. by rewrite (grown_clock g g' E Q a p Hg).
  - intros (a & Ha & Hc). apply H2. exists a. split; [by apply Hedge|]. intros p.
    by rewrite <-(grown_clock g g' E Q a p Hg), <-(grown_clock g g' E Q x p Hg).
Qed.

(** ** After reverse saturation *)

Lemma wf_set_until g n : wf g -> n <= length (events g) -> wf (set_until n g).
Proof.
  intros [Hsk Heo Hq Hco _] Hn. split; [by apply (skeleton_same g)|..|done].
  - by destruct Heo; split.
  - by destruct Hq; split.
  - by destruct Hco; split.
Qed.

(** The from-reads of the new readers complete what the clocks are owed. *)
Lemma handled_reverse g g1 E Q :
  good g -> grown g E Q g1 ->
  (forall w r er, events g !! r = Some er -> read_from er = Some w -> saturated_until g <= r ->
     w < saturated_until g -> saturated_until g <> 0 -> saturated_until g <> length (events g) ->
     visited g w E) ->
  handled_upto (length (events g)) g1.
Proof.
  intros [Hwf Hcr _ Hh _ Hold] Hg Hvis id e p pe He Hls Hlo.
  pose proof (grown_subgraph _ _ _ _ Hg) as Hsub. pose proof Hsub as [Hsame _].
  assert (Hev : events g1 = events g) by (by destruct Hsame as (_ & -> & _)).
  rewrite Hev in He. rewrite (same_last_other g g1), (grown_clock g g1 E Q id p Hg) in Hlo by done.
  destruct (Hh id e p pe He Hls Hlo) as [H1 H2]. split; [done|].
  intros a b Hdue%(same_due g); [|done]. intros Ha.
  destruct (decide (a < saturated_until g)) as [Hlt|Hge].
  { eapply before_mono; [done|]. by apply H2. }
  destruct Hlo as (Hne & j & Hst & Hj & _).
  pose proof (store_at_positioned _ _ _ _ _ Hst) as Hpos.
  pose proof (Hold id p j pe Hpos Hj) as Hpe.
  destruct Hdue as [(Hstore & -> & Hne' & pev & Hpev & Hr)|(_ & _ & -> & _)]; [|lia].
  destruct (sk_readers g (wf_skeleton g Hwf) _ _ _ Hpev Hr) as (er & Her & Hrf).
  assert (Hbef : before g pe id).
  { apply reaches_before; [|done]. by eapply (clock_shows g id p j). }
  destruct Hst as (pev' & Hpev' & _ & _ & Hps & Hpa).
  assert (pev' = pev) as -> by congruence.
  destruct (Hvis pe a er Her Hrf ltac:(lia) Hpe ltac:(lia) ltac:(lia) pev a id e)
    as (x & Hx & Hax); [done|done|done|lia|done|done|congruence|done|done|].
  destruct (decide (a = x)) as [->|Hax'].
  - apply reaches_before; [by eapply reaches_mono|done].
  - eapply tc_rtc_r; [apply tc_once, (gr_edge _ _ _ _ Hg); right; by apply Hax|].
    by eapply reaches_mono.
Qed.

Definition resumed (g g' : graph) : Prop :=
  good g' /\ saturated_until g' = length (events g) /\ subgraph g g' /\
  (forall a b, edge g' a b -> edge g a b \/ missed_read g a b).

Lemma reverse_resumed g :
  good g -> acyclic g -> exists g', reverse_saturate g = Some g' /\ resumed g g'.
Proof.
  intros Hgood Hac. destruct (reverse_saturate_spec g (go_wf g Hgood) Hac)
    as (g' & g1 & E & Q & -> & -> & Hg & HQ & HE & Hvis).
  eexists; split; [done|].
  assert (Hev : events g1 = events g) by (by destruct (gr_same _ _ _ _ Hg) as (_ & -> & _)).
  pose proof (wf_grown g g1 E Q (go_wf g Hgood) Hg) as Hwf1.
  pose proof (handled_reverse g g1 E Q Hgood Hg Hvis) as Hh1.
  destruct Hgood as [Hwf Hcr Hset _ Hinit _]. split; [|split_and!].
  - split.
    + apply wf_set_until; [done|by rewrite Hev].
    + apply (clocks_reach_grown g E Q g1 Hg Hcr).
    + apply (settled_grown g E Q g1 Hwf Hg); [|done]. intros a b Hab. apply HQ. by exists a.
    + apply Hh1.
    + apply (init_ok_mono g g1); [by eapply grown_subgraph|done].
    + intros id p j x (e & He%events_lt & _) _. simpl in *. by rewrite <-Hev.
  - done.
  - apply (grown_subgraph g E Q g1 Hg).
  - intros a b [?|Hab]%(gr_edge _ _ _ _ Hg); [by left|]. right. by apply HE.
Qed.

(** ** The loop *)

(** What the rounds keep after reverse saturation of [g]. *)
Definition running (g g' : graph) : Prop :=
  clocks_reach g' /\ settled g' /\ handled_upto (length (events g)) g' /\ init_ok g' /\
  saturated_until g' = length (events g) /\ subgraph g g'.

Lemma running_round g g1 id e i g' :
  wf g1 -> events g1 !! id = Some e -> ins g1 !! id = Some i -> round_result g1 id e i (inr g') ->
  running g g1 -> running g g'.
Proof.
  intros Hwf He Hi Hr (Hcr & Hset & Hh & Hin & Hu & Hsub).
  assert (Hsub' : subgraph g1 g' /\ saturated_until g' = saturated_until g1).
  { destruct Hr as (_ & [(Hpop & _)|Hup]).
    - split; [by eapply popped_subgraph; [apply Hwf|]|].
      by destruct (popped_grown g1 id g' (wf_edges g1 Hwf) Hpop) as (_ & _ & _ & ? & _).
    - split; [by eapply updated_subgraph|by eapply up_until]. }
  destruct Hsub' as [Hsub' Hu'].
  split_and!; [by eapply clocks_reach_round|by eapply settled_round|by eapply handled_round|
    by eapply init_ok_mono|congruence|].
  destruct Hsub as [? ?], Hsub' as [? ?]. split; [by etrans|auto].
Qed.

Lemma running_good g g1 :
  wf g1 -> running g g1 -> wq_queue g1 = [] ->
  let g' := set_wq [] [] g1 in good g' /\ saturated g' /\ subgraph g g' /\ wq_queue g' = [] /\
    saturated_until g' = length (events g').
Proof.
  intros Hwf (Hcr & Hset & Hh & Hin & Hu & Hsub) Hq. cbv zeta.
  assert (Hev : events g1 = events g) by (by destruct Hsub as ((_ & -> & _) & _)).
  assert (Hwf' : wf (set_wq [] [] g1)).
  { destruct Hwf as [Hsk Heo Hqo Hco Hun].
    split; [by apply (skeleton_same g1)|by destruct Heo; split| |by destruct Hco; split|done].
    split; simpl; [constructor| |by intros id ?%not_elem_of_nil].
    intros id. rewrite lookup_nil. split; [by intros ?%not_elem_of_nil|done]. }
  assert (Hset' : settled (set_wq [] [] g1)).
  { intros id e i He Hi _. apply (Hset id e i); [done|done|]. rewrite Hq. apply not_elem_of_nil. }
  split_and!.
  - split; [done|done|done| |done|].
    + simpl. by rewrite Hu.
    + intros id p j x (e & He%events_lt & _) _. simpl in *. rewrite Hu. by rewrite <-Hev.
  - apply closed_saturated; [done|done|done| |done|done]. simpl. by rewrite Hev.
  - done.
  - done.
  - simpl. by rewrite Hu, Hev.
Qed.

(** ** The theorems *)

Lemma missed_read_respected pos g a b :
  wf g -> respects pos g -> reads_ok pos (events g) -> missed_read g a b -> (pos a < pos b)%Z.
Proof.
  intros Hwf Hres Hreads (w & ea & ew & eb & Ha & Hrf & Hw & Hb & Hst & Hadr & Hne & Hbw & Hbef).
  apply (respects_before pos) in Hbef; [|done].
  destruct (sk_rf g (wf_skeleton g Hwf) _ _ _ Ha Hrf) as (Hld & ew' & ? & _ & Haw & _). simplify_eq.
  pose proof (Hreads a ea b eb Ha Hld Hb Hst ltac:(congruence) ltac:(done)) as H.
  rewrite Hrf in H. destruct (H Hbw); lia.
Qed.

Lemma saturate_run (K : graph -> Prop) g :
  good g -> acyclic g ->
  (forall g1, resumed g g1 -> K g1) ->
  (forall g1 id e i g', wf g1 -> running g g1 -> K g1 -> events g1 !! id = Some e ->
     ins g1 !! id = Some i -> round_result g1 id e i (inr g') -> K g') ->
  exists b g', saturate g = Some (b, g') /\
    if (b : bool) then good g' /\ saturated g' /\ subgraph g g' /\ wq_queue g' = [] /\
        saturated_until g' = length (events g') /\ exists g1, K g1 /\ g' = set_wq [] [] g1
    else exists g1, wf g1 /\ running g g1 /\ K g1 /\ refuting g1.
Proof.
  intros Hgood Hac Hstart Hround. unfold saturate.
  rewrite check_ok by apply (go_wf g Hgood). cbn [mbind option_bind].
  destruct (reverse_resumed g Hgood Hac) as (g1 & -> & Hres). cbn [mbind option_bind].
  pose proof Hres as (Hgood1 & Hu1 & Hsub1 & _).
  assert (Hev1 : events g1 = events g) by (by destruct Hsub1 as ((_ & -> & _) & _)).
  assert (Hrun1 : running g g1).
  { destruct Hgood1. split_and!; try done. by rewrite Hu1 in go_handled0. }
  destruct (saturate_loop_rule (fun g' => running g g' /\ K g') (saturate_fuel (length (events g1))) g1)
    as (b & g' & -> & Hb).
  - intros g2 id e i g3 Hwf2 [Hr2 HK2] He Hi _ Hround2.
    split; [by eapply running_round|by eapply Hround].
  - apply Hgood1.
  - split; [done|by apply Hstart].
  - apply measure_fuel, Hgood1.
  - exists b, g'. split; [done|]. destruct b.
    + destruct Hb as (g2 & Hwf2 & [Hr2 HK2] & Hq2 & ->).
      destruct (running_good g g2 Hwf2 Hr2 Hq2) as (? & ? & ? & ? & ?).
      split_and!; try done. by exists g2.
    + destruct Hb as (g2 & Hwf2 & [Hr2 HK2] & Href). by exists g2.
Qed.

Lemma ends g :
  good g -> acyclic g ->
  exists b g', saturate g = Some (b, g') /\
    (b = true -> good g' /\ saturated g' /\ subgraph g g' /\ is_saturated g' = true).
Proof.
  intros Hgood Hac. destruct (saturate_run (fun _ => True) g) as (b & g' & -> & Hb); [done..|].
  exists b, g'. split; [done|]. intros ->. destruct Hb as (? & ? & ? & Hq & _).
  split_and!; [done..|]. unfold is_saturated, wq_empty. by rewrite Hq, bool_decide_true.
Qed.

(** An order that agrees with the graph agrees with all that is inferred. *)
Lemma accepts_sc pos g :
  good g -> respects pos g -> reads_ok pos (events g) ->
  exists g', saturate g = Some (true, g') /\ good g' /\ saturated g' /\ subgraph g g' /\
    respects pos g'.
Proof.
  intros Hgood Hres Hreads.
  destruct (saturate_run (fun g' => respects pos g' /\ reads_ok pos (events g')) g)
    as (b & g' & -> & Hb); [done|by eapply respects_acyclic| | |].
  - intros g1 (Hgood1 & _ & Hsub & He). destruct Hsub as ((_ & -> & _) & _). split; [|done].
    intros a b [?|Hm]%He; [by apply Hres|]. eapply missed_read_respected; [apply Hgood|done..].
  - intros g1 id e i g' Hwf1 (Hcr & _) [Hr1 Hr2] He Hi Hround. by eapply respects_round.
  - destruct b.
    + destruct Hb as (? & ? & ? & _ & _ & g1 & [Hr _] & ->). eexists; split_and!; done.
    + exfalso. destruct Hb as (g1 & Hwf1 & (Hcr & _) & [Hr1 Hr2] & Href).
      by apply (not_refuting pos g1).
Qed.
