(* ===== verification/SatBuild.v ===== *)
(** * SatBuild: building saturated graphs

    [add_event] and [add_edge] keep graphs [good]. The effect of [add_event] is
    first stated as the relation [added] between the old and the new graph, one
    clause per field; the invariant is then proved from it. [built] is every
    graph that calls of the public interface can make. *)

From S2P Require Import Prelude.
From S2P Require Import VClock.
From S2P Require Import CPid.
From S2P Require Import SymAddr.
From S2P Require Import SatGraph.
From S2P Require Import SatWf.
From S2P Require Import SatLoop.
From S2P Require Import SatRun.
From S2P Require Import SatClosed.
From S2P Require Import SatReverse.
From S2P Require Import SatSound.

(** ** Adding an edge *)

Lemma handled_sub u g g' :
  subgraph g g' -> vclocks g' = vclocks g -> handled_upto u g -> handled_upto u g'.
Proof.
  intros Hsub Hv Hh id e p pe He Hls Hlo. pose proof Hsub as [Hs _].
  assert (Hev : events g' = events g) by (by destruct Hs as (_ & -> & _)).
  assert (Hc : clock g' id p = clock g id p) by (unfold clock; by rewrite Hv).
  rewrite Hev in He. rewrite (same_last_other g g'), Hc in Hlo by done.
  destruct (Hh id e p pe He Hls Hlo) as [H1 H2]. split; [done|].
  intros a b Hab%(same_due g); [|done]. intros Ha. eapply before_mono; [done|]. by apply H2.
Qed.

Lemma good_grown g E Q g' :
  good g -> grown g E Q g' -> (forall a b, E a b -> Q b) -> good g'.
Proof.
  intros [Hwf Hcr Hset Hh Hin Hold] Hg HEQ. pose proof (grown_subgraph _ _ _ _ Hg) as Hsub.
  split.
  - by eapply wf_grown.
  - by eapply clocks_reach_grown.
  - by eapply settled_grown.
  - rewrite (gr_until _ _ _ _ Hg). apply (handled_sub _ g); [done|apply (gr_clocks _ _ _ _ Hg)|done].
  - by eapply init_ok_mono.
  - intros id p j x Hx. rewrite (grown_clock g g' E Q id p Hg), (gr_until _ _ _ _ Hg).
    apply (same_positioned g) in Hx; [|apply Hsub]. by apply Hold.
Qed.

Lemma add_edge_good g from to a b :
  good g -> extid_to_id g !! from = Some a -> extid_to_id g !! to = Some b ->
  exists g', add_edge from to g = Some g' /\ good g' /\ subgraph g g' /\
    forall x y, edge g' x y <-> edge g x y \/ (x = a /\ y = b).
Proof.
  intros Hgood Ha Hb. unfold add_edge. rewrite Ha, Hb. cbn [mbind option_bind].
  pose proof (go_wf g Hgood) as [Hsk Heo Hq _ _].
  destruct (add_edge_internal_spec g a b) as (g' & -> & Hg); [done|done|by eapply sk_ext|by eapply sk_ext|].
  exists g'. split_and!; [done| |by eapply grown_subgraph|apply (gr_edge _ _ _ _ Hg)].
  eapply good_grown; [done|done|]. by intros x y [_ ->].
Qed.

(** ** The effect of [add_event] on edges and queue *)

Definition inn (g : graph) (b a : nat) : Prop := exists i, ins g !! b = Some i /\ a ∈ i.
Definition out (g : graph) (a b : nat) : Prop := exists o, outs g !! a = Some o /\ b ∈ o.

(** [g'] is [g] with in-edges [Ei], out-edges [Eo] and queued events [Q] added. *)
Record pushed (g : graph) (Ei Eo : nat -> nat -> Prop) (Q : nat -> Prop) (g' : graph) : Prop := {
  pu_same : same_events g g';
  pu_clocks : vclocks g' = vclocks g;
  pu_until : saturated_until g' = saturated_until g;
  pu_ins : length (ins g') = length (ins g);
  pu_outs : length (outs g') = length (outs g);
  pu_in b a : inn g' b a <-> inn g b a \/ Ei b a;
  pu_out a b : out g' a b <-> out g a b \/ Eo a b;
  pu_queue x : x ∈ wq_queue g' <-> x ∈ wq_queue g \/ Q x;
  pu_ok : queue_ok g -> queue_ok g';
}.

Lemma pushed_refl g : pushed g (fun _ _ => False) (fun _ _ => False) (fun _ => False) g.
Proof. split; try done; naive_solver. Qed.

Lemma pushed_trans g1 g2 g3 Ei1 Eo1 Q1 Ei2 Eo2 Q2 :
  pushed g1 Ei1 Eo1 Q1 g2 -> pushed g2 Ei2 Eo2 Q2 g3 ->
  pushed g1 (fun b a => Ei1 b a \/ Ei2 b a) (fun a b => Eo1 a b \/ Eo2 a b)
    (fun x => Q1 x \/ Q2 x) g3.
Proof.
  intros [] []. split; try congruence; [by etrans|..|auto].
  - intros b a. rewrite pu_in1, pu_in0. naive_solver.
  - intros a b. rewrite pu_out1, pu_out0. naive_solver.
  - intros x. rewrite pu_queue1, pu_queue0. naive_solver.
Qed.

Lemma pushed_weaken g g' Ei Eo Q Ei' Eo' Q' :
  pushed g Ei Eo Q g' -> (forall b a, Ei b a <-> Ei' b a) -> (forall a b, Eo a b <-> Eo' a b) ->
  (forall x, Q x <-> Q' x) -> pushed g Ei' Eo' Q' g'.
Proof.
  intros [] Hi Ho HQ. split; try done.
  - intros b a. by rewrite pu_in0, Hi.
  - intros a b. by rewrite pu_out0, Ho.
  - intros x. by rewrite pu_queue0, HQ.
Qed.

Lemma push_at_elem (v : list (list nat)) i x :
  i < length v ->
  exists v', push_at v i x = Some v' /\ length v' = length v /\
    forall j y, (exists l, v' !! j = Some l /\ y ∈ l) <->
                (exists l, v !! j = Some l /\ y ∈ l) \/ (j = i /\ y = x).
Proof.
  intros Hi. destruct (push_at_spec v i x Hi) as (l & Hl & ->). eexists; split; [done|].
  rewrite length_insert. split; [done|]. intros j y. destruct (decide (j = i)) as [->|Hne].
  - rewrite list_lookup_insert_eq, Hl by done. split.
    + intros (l' & [= <-] & [Hy| ->%list_elem_of_singleton]%elem_of_app); eauto.
    + intros [(l' & [= <-] & Hy)|[_ ->]]; eexists; (split; [done|]); apply elem_of_app;
        [by left|right; by apply list_elem_of_singleton].
  - rewrite list_lookup_insert_ne by done. naive_solver.
Qed.

Lemma add_in_pushed g b a :
  b < length (ins g) ->
  exists g', add_in b a g = Some g' /\
    pushed g (fun y x => y = b /\ x = a) (fun _ _ => False) (fun _ => False) g'.
Proof.
  intros Hb. destruct (push_at_elem (ins g) b a Hb) as (v & E & Hl & Hv). unfold add_in.
  rewrite E. simpl. eexists; split; [done|]. split; try done; [naive_solver|naive_solver|].
  by intros []; split.
Qed.

Lemma add_out_pushed g a b :
  a < length (outs g) ->
  exists g', add_out a b g = Some g' /\
    pushed g (fun _ _ => False) (fun x y => x = a /\ y = b) (fun _ => False) g'.
Proof.
  intros Ha. destruct (push_at_elem (outs g) a b Ha) as (v & E & Hl & Hv). unfold add_out.
  rewrite E. simpl. eexists; split; [done|]. split; try done; [naive_solver|naive_solver|].
  by intros []; split.
Qed.

Lemma wq_add_pushed g x :
  queue_ok g -> x < length (events g) ->
  pushed g (fun _ _ => False) (fun _ _ => False) (fun y => y = x) (wq_add x g).
Proof.
  intros Hq Hx. destruct (wq_add_spec g x Hq Hx) as (Hs & Hq' & Hqu).
  assert (Hrest : ins (wq_add x g) = ins g /\ outs (wq_add x g) = outs g /\
    vclocks (wq_add x g) = vclocks g /\ saturated_until (wq_add x g) = saturated_until g).
  { unfold wq_add. by destruct (wq_marked g x). }
  destruct Hrest as (Ei & Eo & Ev & Eu). split; try done; try congruence.
  - unfold inn. rewrite Ei. naive_solver.
  - unfold out. rewrite Eo. naive_solver.
  - intros y. rewrite Hqu. naive_solver.
Qed.

(** A loop that pushes for every element of a list. *)
Lemma for_each_pushed {A} (body : A -> graph -> option graph) (l : list A) g
    (Ei Eo : A -> nat -> nat -> Prop) (Q : A -> nat -> Prop) :
  (forall x g' Ei' Eo' Q', x ∈ l -> pushed g Ei' Eo' Q' g' ->
     exists g2, body x g' = Some g2 /\ pushed g' (Ei x) (Eo x) (Q x) g2) ->
  exists g', for_each l body g = Some g' /\
    pushed g (fun b a => exists x, x ∈ l /\ Ei x b a) (fun a b => exists x, x ∈ l /\ Eo x a b)
      (fun y => exists x, x ∈ l /\ Q x y) g'.
Proof.
  intros Hbody. apply (for_each_total (fun pre g' =>
    pushed g (fun b a => exists x, x ∈ pre /\ Ei x b a) (fun a b => exists x, x ∈ pre /\ Eo x a b)
      (fun y => exists x, x ∈ pre /\ Q x y) g')).
  - intros pre x post g' Hpre Hg'. edestruct (Hbody x g') as (g2 & -> & Hg2); [|exact Hg'|].
    { rewrite Hpre. apply elem_of_app. right. by left. }
    exists g2. split; [done|]. eapply pushed_weaken; [by eapply pushed_trans|..];
      intros; simpl; setoid_rewrite elem_of_app; setoid_rewrite list_elem_of_singleton; naive_solver.
  - eapply pushed_weaken; [apply pushed_refl|..]; intros; setoid_rewrite elem_of_nil; naive_solver.
Qed.

(** ** The effect of [add_event] *)

(** The first stores to the address, which a read from the initial value
    precedes, and the reads from the initial value that a first store follows. *)
Definition first_writes (g : graph) (load : bool) (rf : option nat) (addr : SymAddr) (b : nat) : Prop :=
  rf = None /\ load = true /\ exists p, head (pwrites g p addr) = Some b.
Definition first_readers (g : graph) (store : bool) (pid : nat) (addr : SymAddr) (a : nat) : Prop :=
  store = true /\ head (pwrites g pid addr) = None /\ a ∈ default [] (reads_from_init g !! addr).

Record added (g : graph) (pid : nat) (load store : bool) (addr : SymAddr) (rf : option nat)
    (ids : list nat) (g' : graph) : Prop := {
  ad_ext x i : extid_to_id g' !! x = Some i -> i < S (length (events g));
  ad_length : length (events g') = S (length (events g));
  ad_old x e : events g !! x = Some e -> exists e', events g' !! x = Some e' /\
    ev_pid e' = ev_pid e /\ ev_index e' = ev_index e /\ is_load e' = is_load e /\
    is_store e' = is_store e /\ ev_addr e' = ev_addr e /\ read_from e' = read_from e /\
    po_predecessor e' = po_predecessor e /\
    forall r, r ∈ readers e' <-> r ∈ readers e \/ (r = length (events g) /\ rf = Some x);
  ad_new : exists e, events g' !! length (events g) = Some e /\ ev_pid e = pid /\
    ev_index e = (Z.of_nat (length (process g pid)) + 1)%Z /\ is_load e = load /\
    is_store e = store /\ ev_addr e = addr /\ read_from e = rf /\
    po_predecessor e = last (process g pid) /\ readers e = [];
  ad_process p : process g' p = process g p ++ if decide (p = pid) then [length (events g)] else [];
  ad_width : length (writes_by_process_and_address g') = length (events_by_pid g');
  ad_pwrites p a : pwrites g' p a =
    pwrites g p a ++ if decide (store = true /\ p = pid /\ a = addr) then [length (events g)] else [];
  ad_first a p : default ∅ (writes_by_address g' !! a) !! p = head (pwrites g' p a);
  ad_inits a x : x ∈ default [] (reads_from_init g' !! a) <->
    x ∈ default [] (reads_from_init g !! a) \/
    (x = length (events g) /\ load = true /\ rf = None /\ a = addr);
  ad_ins : length (ins g') = S (length (events g));
  ad_outs : length (outs g') = S (length (events g));
  ad_in b a : inn g' b a <-> inn g b a \/ (b = length (events g) /\ a ∈ ids) \/
    (a = length (events g) /\ first_writes g load rf addr b) \/
    (b = length (events g) /\ first_readers g store pid addr a);
  ad_out a b : out g' a b <-> out g a b \/ (b = length (events g) /\ a ∈ ids) \/
    (a = length (events g) /\ first_writes g load rf addr b) \/
    (b = length (events g) /\ first_readers g store pid addr a) \/
    (b = length (events g) /\ last (process g pid) = Some a);
  ad_queue x : x ∈ wq_queue g' <->
    x ∈ wq_queue g \/ x = length (events g) \/ first_writes g load rf addr x;
  ad_queue_ok : queue_ok g';
  ad_vclocks : vclocks g' = vclocks g ++ [[]];
  ad_until : saturated_until g' = saturated_until g;
}.

(** What [add_event] is given: the event read from is a store to the address by
    an event already there, and so are the events it happens after. *)
Record event_args (g : graph) (extid : IID) (kind : EventKind) (addr : SymAddr)
    (ext_rf : option IID) (orig_in : list IID) : Prop := {
  ea_fresh : extid_to_id g !! extid = None;
  ea_rf x : ext_rf = Some x -> (kind = LOAD \/ kind = RMW) /\
    exists w, extid_to_id g !! x = Some w /\ stores g w addr;
  ea_in x : x ∈ orig_in -> is_Some (extid_to_id g !! x);
}.

Definition event_load (kind : EventKind) : bool := bool_decide (kind = LOAD) || bool_decide (kind = RMW).
Definition event_store (kind : EventKind) : bool := bool_decide (kind = STORE) || bool_decide (kind = RMW).

Lemma enlarge_lookup {A} (d : A) v n i x :
  enlarge d v n !! i = Some x -> v !! i = Some x \/ (length v <= i /\ x = d).
Proof.
  unfold enlarge. case_decide; [by left|]. rewrite resize_ge by lia.
  intros [?|[Hl [? _]%lookup_replicate_1]]%lookup_app_Some; auto.
Qed.
Lemma enlarge_length {A} (d : A) v n : length (enlarge d v n) = Nat.max (length v) n.
Proof. unfold enlarge. case_decide; [lia|]. rewrite length_resize. lia. Qed.
Lemma enlarge_default {A} (d : A) v n i : default d (enlarge d v n !! i) = default d (v !! i).
Proof.
  unfold enlarge. case_decide; [done|]. rewrite resize_ge by lia.
  destruct (decide (i < length v)); [by rewrite lookup_app_l|].
  rewrite lookup_app_r, (lookup_ge_None_2 v) by lia. simpl.
  destruct (replicate _ d !! _) as [y|] eqn:E; [|done]. by apply lookup_replicate_1 in E as [-> _].
Qed.

Definition last_known (g : graph) : Prop := forall pid po,
  last (process g pid) = Some po -> positioned g pid (Z.of_nat (length (process g pid))) po.

Lemma last_process_positioned g pid po :
  skeleton g -> last (process g pid) = Some po ->
  positioned g pid (Z.of_nat (length (process g pid))) po.
Proof.
  intros Hsk Hl. rewrite last_lookup in Hl. pose proof (lookup_lt_Some _ _ _ Hl).
  apply (sk_process g Hsk) in Hl.
  by replace (Z.of_nat (length (process g pid))) with (Z.of_nat (pred (length (process g pid))) + 1)%Z
    by lia.
Qed.

(** The program order part. *)
Lemma add_to_process_spec g pid :
  last_known g -> length (writes_by_process_and_address g) = length (events_by_pid g) ->
  length (outs g) = length (events g) ->
  let n := length (events g) in
  exists g', add_to_process pid n g =
      Some (last (process g pid), (Z.of_nat (length (process g pid)) + 1)%Z, g') /\
    extid_to_id g' = extid_to_id g /\ events g' = events g /\ ins g' = ins g /\
    writes_by_address g' = writes_by_address g /\ reads_from_init g' = reads_from_init g /\
    vclocks g' = vclocks g /\ saturated_until g' = saturated_until g /\
    wq_queue g' = wq_queue g /\ wq_set g' = wq_set g /\ length (outs g') = length (outs g) /\
    (forall a b, out g' a b <-> out g a b \/ (b = n /\ last (process g pid) = Some a)) /\
    (forall p, process g' p = process g p ++ if decide (p = pid) then [n] else []) /\
    (forall p a, pwrites g' p a = pwrites g p a) /\
    pid < length (events_by_pid g') /\
    length (writes_by_process_and_address g') = length (events_by_pid g').
Proof.
  intros Hlast Hwidth Houts n. unfold add_to_process. cbv zeta.
  set (ev := enlarge [] (events_by_pid g) (pid + 1)).
  change (events_by_pid (set_by_pid ev g)) with ev.
  set (wr := enlarge ∅ (writes_by_process_and_address (set_by_pid ev g)) (pid + 1)).
  change (events_by_pid (set_pwrites wr (set_by_pid ev g))) with ev.
  assert (Hpid : pid < length ev) by (unfold ev; rewrite enlarge_length; lia).
  destruct (lookup_lt_exists ev pid Hpid) as [l Hl].
  assert (Hlp : process g pid = l).
  { unfold process. rewrite <-(enlarge_default [] (events_by_pid g) (pid + 1)). fold ev. by rewrite Hl. }
  rewrite Hl. cbn [mbind option_bind]. rewrite <-Hlp. clear l Hl Hlp.
  set (l := process g pid) in *.
  assert (Hproc : forall p, default [] (<[pid := l ++ [n]]> ev !! p) =
    process g p ++ if decide (p = pid) then [n] else []).
  { intros p. case_decide as Hp.
    - subst p. by rewrite list_lookup_insert_eq by done.
    - rewrite list_lookup_insert_ne, app_nil_r by done. apply enlarge_default. }
  assert (Hwl : length wr = length ev).
  { unfold wr, ev. rewrite !enlarge_length. simpl. by rewrite Hwidth. }
  assert (Hpw : forall p a, default [] (default ∅ (wr !! p) !! a) = pwrites g p a).
  { intros p a. unfold pwrites, wr. by rewrite enlarge_default. }
  destruct (last l) as [po|] eqn:Epo.
  - destruct (Hlast pid po Epo) as (e & He & _ & Hi).
    change (events (set_pwrites wr (set_by_pid ev g))) with (events g). rewrite He.
    cbn [mbind option_bind]. unfold add_out.
    change (outs (set_pwrites wr (set_by_pid ev g))) with (outs g).
    destruct (push_at_elem (outs g) po n) as (o & -> & Hlo & Ho).
    { rewrite Houts. by eapply events_lt. }
    cbn [mbind option_bind]. rewrite vset_Some by done. cbn [mbind option_bind].
    eexists. split; [by rewrite Hi|]. split_and!; try done; simpl; [|by rewrite length_insert..].
    intros a b. unfold out. simpl. rewrite Ho. naive_solver.
  - cbn [mbind option_bind]. rewrite vset_Some by done. cbn [mbind option_bind].
    assert (Hlen : length l = 0).
    { destruct l; [done|]. by apply last_None in Epo. }
    eexists. split; [by rewrite Hlen|]. split_and!; try done; simpl; [|by rewrite length_insert..].
    intros a b. naive_solver.
Qed.

(** The edges from the events it happens after. *)
Lemma orig_in_spec g n orig_in :
  n < length (ins g) -> (forall x, x ∈ orig_in -> is_Some (extid_to_id g !! x)) ->
  exists g', for_each orig_in (fun ei g => i ← extid_to_id g !! ei; add_in n i g) g = Some g' /\
    pushed g (fun b a => b = n /\ a ∈ omap (fun x => extid_to_id g !! x) orig_in)
      (fun _ _ => False) (fun _ => False) g'.
Proof.
  intros Hn Hall.
  destruct (for_each_pushed (fun ei g => i ← extid_to_id g !! ei; add_in n i g) orig_in g
    (fun x b a => b = n /\ extid_to_id g !! x = Some a) (fun _ _ _ => False) (fun _ _ => False))
    as (g' & -> & Hg').
  - intros x g' Ei Eo Q Hx Hg'. destruct (Hall x Hx) as [i Hi].
    destruct (pu_same _ _ _ _ _ Hg') as (E & _). rewrite E, Hi. cbn [mbind option_bind].
    destruct (add_in_pushed g' n i) as (g2 & -> & Hg2); [by rewrite (pu_ins _ _ _ _ _ Hg')|].
    exists g2. split; [done|]. eapply pushed_weaken; [done|naive_solver|naive_solver|naive_solver].
  - exists g'. split; [done|]. eapply pushed_weaken; [done| |naive_solver|naive_solver].
    intros b a. simpl. rewrite list_elem_of_omap. naive_solver.
Qed.

Section order.
Context (order : gmap nat nat -> list (nat * nat)).
Context (Horder : forall m, order m ≡ₚ map_to_list m).

Lemma elem_of_order m p w : (p, w) ∈ order m <-> m !! p = Some w.
Proof. rewrite Horder. apply elem_of_map_to_list. Qed.

Lemma init_reads_spec g n addr (W : nat -> Prop) :
  queue_ok g -> n < length (outs g) ->
  (forall w, W w <-> exists p, default ∅ (writes_by_address g !! addr) !! p = Some w) ->
  (forall w, W w -> w < length (events g) /\ w < length (ins g)) ->
  exists g', add_from_init_reads order n addr g = Some g' /\
    pushed g (fun b a => a = n /\ W b) (fun a b => a = n /\ W b) W g'.
Proof.
  intros Hq Hn HW Hlt. unfold add_from_init_reads.
  set (m := default ∅ (writes_by_address g !! addr)) in *.
  destruct (for_each_pushed (fun p g =>
    g ← add_out n p.2 g; g ← add_in p.2 n g; Some (wq_add p.2 g)) (order m) g
    (fun p b a => b = p.2 /\ a = n) (fun p a b => a = n /\ b = p.2) (fun p x => x = p.2))
    as (g' & -> & Hg').
  - intros [p w] g' Ei Eo Q Hp%elem_of_order Hg'. simpl.
    destruct (Hlt w) as [Hw1 Hw2]; [apply HW; eauto|].
    destruct (add_out_pushed g' n w) as (g2 & -> & Hg2); [by rewrite (pu_outs _ _ _ _ _ Hg')|].
    cbn [mbind option_bind]. destruct (add_in_pushed g2 w n) as (g3 & -> & Hg3).
    { by rewrite (pu_ins _ _ _ _ _ Hg2), (pu_ins _ _ _ _ _ Hg'). }
    cbn [mbind option_bind]. eexists; split; [done|].
    assert (Hg4 : pushed g3 (fun _ _ => False) (fun _ _ => False) (fun y => y = w) (wq_add w g3)).
    { apply wq_add_pushed; [by apply Hg3, Hg2, Hg'|].
      destruct (pu_same _ _ _ _ _ Hg3) as (_ & -> & _), (pu_same _ _ _ _ _ Hg2) as (_ & -> & _).
      by destruct (pu_same _ _ _ _ _ Hg') as (_ & -> & _). }
    eapply pushed_weaken; [eapply pushed_trans; [eapply pushed_trans; [apply Hg2|apply Hg3]|apply Hg4]|..];
      intros; simpl; naive_solver.
  - exists g'. split; [done|]. eapply pushed_weaken; [done|..]; intros; simpl; setoid_rewrite HW;
      split; try (intros ([p w] & Hp%elem_of_order & ?); simpl in *; naive_solver);
      [intros [-> [p Hp]]|intros [-> [p Hp]]|intros [p Hp]]; eexists (p, _);
      (split; [by apply elem_of_order|done]).
Qed.

(** The first write of a process to an address. *)
Lemma first_write_spec g pid n addr :
  n < length (ins g) ->
  (forall r, r ∈ default [] (reads_from_init g !! addr) -> r < length (outs g)) ->
  exists g' g1, add_first_write pid n addr g = Some g' /\
    let none := default ∅ (writes_by_address g !! addr) !! pid = None in
    pushed g (fun b a => b = n /\ none /\ a ∈ default [] (reads_from_init g !! addr))
             (fun a b => b = n /\ none /\ a ∈ default [] (reads_from_init g !! addr))
             (fun _ => False) g1 /\
    exists w, g' = set_writes w g1 /\ forall a p, default ∅ (w !! a) !! p =
      if decide (a = addr /\ p = pid /\ none) then Some n
      else default ∅ (writes_by_address g !! a) !! p.
Proof.
  intros Hn Hr. unfold add_first_write. cbv zeta.
  assert (Hb : (writes_by_address g !! addr ≫= (fun w => w !! pid)) =
    default ∅ (writes_by_address g !! addr) !! pid).
  { by destruct (writes_by_address g !! addr). }
  rewrite Hb. case_decide as Hnone.
  - destruct (for_each_pushed (fun r g => g ← add_in n r g; add_out r n g)
      (default [] (reads_from_init g !! addr)) g
      (fun r b a => b = n /\ a = r) (fun r a b => a = r /\ b = n) (fun _ _ => False))
      as (g1 & -> & Hg1).
    + intros r g' Ei Eo Q Hrin Hg'.
      destruct (add_in_pushed g' n r) as (g2 & -> & Hg2); [by rewrite (pu_ins _ _ _ _ _ Hg')|].
      cbn [mbind option_bind]. destruct (add_out_pushed g2 r n) as (g3 & -> & Hg3).
      { rewrite (pu_outs _ _ _ _ _ Hg2), (pu_outs _ _ _ _ _ Hg'). by apply Hr. }
      eexists; split; [done|].
      eapply pushed_weaken; [eapply pushed_trans; [apply Hg2|apply Hg3]|..];
        intros; simpl; naive_solver.
    + cbn [mbind option_bind]. eexists _, g1. split; [done|]. split.
      * eapply pushed_weaken; [apply Hg1|..]; intros; simpl; naive_solver.
      * eexists; split; [done|]. intros a p.
        destruct (pu_same _ _ _ _ _ Hg1) as (_ & _ & _ & -> & _).
        destruct (decide (a = addr)) as [->|Ha].
        -- rewrite lookup_insert_eq. simpl. destruct (decide (p = pid)) as [->|Hp].
           ++ rewrite lookup_insert_eq. by rewrite decide_True.
           ++ rewrite lookup_insert_ne by done. rewrite decide_False by naive_solver. done.
        -- rewrite lookup_insert_ne by done. by rewrite decide_False by naive_solver.
  - exists g, g. split; [done|]. split.
    + eapply pushed_weaken; [apply pushed_refl|..]; intros; simpl; naive_solver.
    + exists (writes_by_address g). split; [by destruct g|]. intros a p.
      by rewrite decide_False by naive_solver.
Qed.

Lemma alter_present {A} (f : A -> A) (l : list A) (i : nat) x : l !! i = Some x -> alter f i l = <[i := f x]> l.
Proof.
  intros Hi. apply list_eq. intros j. destruct (decide (i = j)) as [->|].
  - rewrite list_lookup_alter_eq, Hi, list_lookup_insert_eq by (by eapply lookup_lt_Some). done.
  - by rewrite list_lookup_alter_ne, list_lookup_insert_ne by done.
Qed.

(** The reads-from stage. *)
Definition read_stage (n : nat) (rf : option nat) (load : bool) (addr : SymAddr) (g : graph)
    : option graph :=
  match rf with
  | Some w => e ← events g !! w; es ← vset (events g) w (push_reader n e); Some (set_events es g)
  | None => if load then add_from_init_reads order n addr g else Some g
  end.

Definition new_readers (n : nat) (rf : option nat) (es : list Event) : list Event :=
  match rf with Some w => alter (push_reader n) w es | None => es end.

Lemma new_readers_length n rf es : length (new_readers n rf es) = length es.
Proof. destruct rf; simpl; [apply length_alter|done]. Qed.

Lemma new_readers_lookup n rf es x e :
  es !! x = Some e -> exists e', new_readers n rf es !! x = Some e' /\
    ev_pid e' = ev_pid e /\ ev_index e' = ev_index e /\ is_load e' = is_load e /\
    is_store e' = is_store e /\ ev_addr e' = ev_addr e /\ read_from e' = read_from e /\
    po_predecessor e' = po_predecessor e /\
    forall r, r ∈ readers e' <-> r ∈ readers e \/ (r = n /\ rf = Some x).
Proof.
  intros Hx. destruct rf as [w|]; simpl; [|exists e; split_and!; try done; naive_solver].
  destruct (decide (w = x)) as [->|Hne].
  - rewrite list_lookup_alter_eq, Hx. eexists; split; [done|]. split_and!; try done.
    intros r. simpl. rewrite elem_of_app, list_elem_of_singleton. naive_solver.
  - rewrite list_lookup_alter_ne by done. exists e. split_and!; try done. naive_solver.
Qed.

Lemma read_stage_spec g n rf load addr (W : nat -> Prop) :
  queue_ok g -> n < length (outs g) -> (forall w, rf = Some w -> w < length (events g)) ->
  (forall w, W w <-> rf = None /\ load = true /\
     exists p, default ∅ (writes_by_address g !! addr) !! p = Some w) ->
  (forall w, W w -> w < length (events g) /\ w < length (ins g)) ->
  exists g' g1, read_stage n rf load addr g = Some g' /\
    g' = set_events (new_readers n rf (events g)) g1 /\ queue_ok g' /\
    pushed g (fun b a => a = n /\ W b) (fun a b => a = n /\ W b) W g1.
Proof.
  intros Hq Hn Hrf HW Hlt. unfold read_stage. destruct rf as [w|].
  - destruct (lookup_lt_exists (events g) w) as [e He]; [by apply Hrf|]. rewrite He.
    cbn [mbind option_bind]. rewrite vset_Some by (by eapply events_lt). cbn [mbind option_bind].
    eexists _, g. split; [done|]. split_and!.
    + f_equal. simpl. by rewrite (alter_present _ _ _ _ He).
    + destruct Hq. split; [done|done|]. simpl. rewrite length_insert. done.
    + eapply pushed_weaken; [apply pushed_refl|..]; intros; simpl; rewrite ?HW; naive_solver.
  - destruct load.
    + destruct (init_reads_spec g n addr W) as (g' & -> & Hg'); [done|done| |done|].
      { intros w. rewrite HW. naive_solver. }
      exists g', g'. split_and!; [done| |by apply (pu_ok _ _ _ _ _ Hg')|done].
      destruct (pu_same _ _ _ _ _ Hg') as (_ & E & _). simpl. rewrite <-E. by destruct g'.
    + exists g, g. split_and!; [done|by destruct g|done|].
      eapply pushed_weaken; [apply pushed_refl|..]; intros; simpl; rewrite ?HW; naive_solver.
Qed.

(** [add_write] and the out-edges that mirror the in-edges of the new event. *)
Lemma write_stage_spec g pid n addr (store : bool) :
  n < length (ins g) -> pid < length (writes_by_process_and_address g) ->
  (forall r, r ∈ default [] (reads_from_init g !! addr) -> r < length (outs g)) ->
  exists g' g1 w v, (if store then add_write pid n addr g else Some g) = Some g' /\
    let fresh := store = true /\ default ∅ (writes_by_address g !! addr) !! pid = None in
    g' = set_pwrites v (set_writes w g1) /\
    pushed g (fun b a => b = n /\ fresh /\ a ∈ default [] (reads_from_init g !! addr))
             (fun a b => b = n /\ fresh /\ a ∈ default [] (reads_from_init g !! addr))
             (fun _ => False) g1 /\
    (forall a p, default ∅ (w !! a) !! p =
       if decide (a = addr /\ p = pid /\ fresh) then Some n
       else default ∅ (writes_by_address g !! a) !! p) /\
    length v = length (writes_by_process_and_address g) /\
    (forall p a, default [] (default ∅ (v !! p) !! a) =
       pwrites g p a ++ if decide (store = true /\ p = pid /\ a = addr) then [n] else []).
Proof.
  intros Hn Hpid Hr. cbv zeta. destruct store.
  - unfold add_write. destruct (first_write_spec g pid n addr Hn Hr)
      as (g2 & g1 & -> & Hg1 & w & -> & Hw). cbn [mbind option_bind].
    destruct (pu_same _ _ _ _ _ Hg1) as (_ & _ & _ & _ & _ & E6).
    change (writes_by_process_and_address (set_writes w g1)) with (writes_by_process_and_address g1).
    rewrite E6. destruct (lookup_lt_exists _ _ Hpid) as [m Hm]. rewrite Hm. cbn [mbind option_bind].
    rewrite vset_Some by done. cbn [mbind option_bind].
    eexists _, g1, w, _. split; [done|]. split_and!.
    + done.
    + eapply pushed_weaken; [apply Hg1|..]; intros; simpl; naive_solver.
    + intros a p. rewrite Hw. apply decide_ext. naive_solver.
    + by rewrite length_insert.
    + intros p a. unfold pwrites. destruct (decide (p = pid)) as [->|Hp].
      * rewrite list_lookup_insert_eq, Hm by done. simpl. destruct (decide (a = addr)) as [->|Ha].
        -- rewrite lookup_insert_eq, decide_True by done. done.
        -- by rewrite lookup_insert_ne, decide_False, app_nil_r by naive_solver.
      * by rewrite list_lookup_insert_ne, decide_False, app_nil_r by naive_solver.
  - exists g, g, (writes_by_address g), (writes_by_process_and_address g). split; [done|]. split_and!.
    + by destruct g.
    + eapply pushed_weaken; [apply pushed_refl|..]; intros; simpl; naive_solver.
    + intros a p. by rewrite decide_False by naive_solver.
    + done.
    + intros p a. rewrite decide_False by naive_solver. by rewrite app_nil_r.
Qed.

Lemma out_edges_spec g n new_in :
  (forall a, a ∈ new_in -> a < length (outs g)) ->
  exists g', for_each new_in (fun after g => add_out after n g) g = Some g' /\
    pushed g (fun _ _ => False) (fun a b => b = n /\ a ∈ new_in) (fun _ => False) g'.
Proof.
  intros Hlt.
  destruct (for_each_pushed (fun after g => add_out after n g) new_in g (fun _ _ _ => False)
    (fun x a b => a = x /\ b = n) (fun _ _ => False)) as (g' & -> & Hg').
  - intros x g' Ei Eo Q Hx Hg'.
    destruct (add_out_pushed g' x n) as (g2 & -> & Hg2); [rewrite (pu_outs _ _ _ _ _ Hg'); by apply Hlt|].
    by exists g2.
  - exists g'. split; [done|]. eapply pushed_weaken; [apply Hg'|..]; intros; simpl; naive_solver.
Qed.

Lemma appended_elem (v : list (list nat)) j (y : nat) :
  (exists l, (v ++ [[]]) !! j = Some l /\ y ∈ l) <-> exists l, v !! j = Some l /\ y ∈ l.
Proof.
  split; intros (l & Hl & Hy).
  - apply lookup_app_Some in Hl as [?|[_ Hl]]; [by exists l|].
    apply list_lookup_singleton_Some in Hl as [_ <-]. by apply not_elem_of_nil in Hy.
  - exists l. split; [by apply lookup_app_l_Some|done].
Qed.

Lemma head_writes g addr p :
  skeleton g -> default ∅ (writes_by_address g !! addr) !! p = head (pwrites g p addr).
Proof. intros Hsk. apply (sk_first g Hsk). Qed.

Lemma first_writes_lt g load rf addr b : skeleton g -> first_writes g load rf addr b -> b < length (events g).
Proof.
  intros Hsk (_ & _ & p & Hb). assert (Hin : b ∈ pwrites g p addr).
  { destruct (pwrites g p addr); simplify_eq/=. by left. }
  apply (sk_writes g Hsk) in Hin as (e & He & _). by eapply events_lt.
Qed.

Lemma map_id_spec g rfx :
  (forall x, rfx = Some x -> is_Some (extid_to_id g !! x)) ->
  map_id g rfx = Some (rfx ≫= (fun x => extid_to_id g !! x)).
Proof.
  intros H. destruct rfx as [x|]; [|done]. simpl. destruct (H x eq_refl) as [i Hi]. by rewrite Hi.
Qed.

Lemma add_event_spec g pid extid kind addr ext_rf orig_in :
  wf g -> event_args g extid kind addr ext_rf orig_in ->
  exists g', add_event order pid extid kind addr ext_rf orig_in g = Some g' /\
    added g pid (event_load kind) (event_store kind) addr (ext_rf ≫= (fun x => extid_to_id g !! x))
      (omap (fun x => extid_to_id g !! x) orig_in) g'.
Proof.
  intros [Hsk Heo Hq Hco Hun] Hargs. unfold add_event. cbv zeta. set (n := length (events g)).
  set (ga := set_extids _ g).
  assert (Hext : forall x i, extid_to_id g !! x = Some i -> extid_to_id ga !! x = Some i).
  { intros x i Hx. simpl. rewrite lookup_insert_ne; [done|]. intros <-.
    rewrite (ea_fresh _ _ _ _ _ _ Hargs) in Hx. done. }
  destruct (add_to_process_spec ga pid) as (g1 & E1 & X1 & Ev1 & In1 & Wa1 & Ri1 & Vc1 & Un1 & Qu1 &
    Qs1 & Lo1 & Out1 & Proc1 & Pw1 & Pid1 & Wi1).
  { intros p po. exact (last_process_positioned g p po Hsk). } { apply (sk_width g Hsk). } { apply (eo_outs g Heo). }
  change (length (events ga)) with n in *. change (events ga) with (events g) in *.
  change (ins ga) with (ins g) in *. change (outs ga) with (outs g) in *.
  change (wq_queue ga) with (wq_queue g) in *. change (wq_set ga) with (wq_set g) in *.
  change (vclocks ga) with (vclocks g) in *. change (process ga) with (process g) in *.
  change (saturated_until ga) with (saturated_until g) in *.
  change (writes_by_address ga) with (writes_by_address g) in *.
  change (reads_from_init ga) with (reads_from_init g) in *.
  assert (Hins0 : length (ins g) = n) by apply (eo_ins g Heo).
  assert (Houts0 : length (outs g) = n) by apply (eo_outs g Heo).
  rewrite E1. cbn [mbind option_bind].
  assert (Hrf : map_id g1 ext_rf = Some (ext_rf ≫= (fun x => extid_to_id g !! x))).
  { rewrite map_id_spec.
    - f_equal. destruct ext_rf as [x|]; [|done]. simpl.
      destruct (ea_rf _ _ _ _ _ _ Hargs x eq_refl) as (_ & w & Hw & _). rewrite X1, Hw. by apply Hext.
    - intros x Hx. destruct (ea_rf _ _ _ _ _ _ Hargs x Hx) as (_ & w & Hw & _). rewrite X1.
      by exists w; apply Hext. }
  rewrite Hrf. cbn [mbind option_bind]. set (rf := ext_rf ≫= _).
  assert (Hrfw : forall w, rf = Some w -> event_load kind = true /\ stores g w addr).
  { intros w Hw. unfold rf in Hw. destruct ext_rf as [x|]; [|done]. simpl in Hw.
    destruct (ea_rf _ _ _ _ _ _ Hargs x eq_refl) as (Hk & w' & Hw' & Hst). simplify_eq.
    split; [|done]. unfold event_load. by destruct Hk as [-> | ->]. }
  rewrite In1, Lo1, (bool_decide_true (length (ins g) = n)), (bool_decide_true (length (outs g) = n)) by done.
  cbn [cassert mbind option_bind].
  set (g2 := set_ins _ (set_outs _ g1)).
  destruct (orig_in_spec g2 n orig_in) as (g3 & -> & P3).
  { simpl. rewrite length_app. simpl. lia. }
  { intros x Hx. simpl. rewrite X1. destruct (ea_in _ _ _ _ _ _ Hargs x Hx) as [i Hi].
    exists i. by apply Hext. }
  cbn [mbind option_bind].
  assert (Hids : omap (fun x => extid_to_id g2 !! x) orig_in = omap (fun x => extid_to_id g !! x) orig_in).
  { assert (Hall : forall x, x ∈ orig_in -> extid_to_id g2 !! x = extid_to_id g !! x).
    { intros x Hx. simpl. rewrite X1. destruct (ea_in _ _ _ _ _ _ Hargs x Hx) as [i Hi].
      rewrite Hi. by apply Hext. }
    by apply list_omap_ext, Forall_Forall2_diag, Forall_forall. }
  rewrite Hids in P3. set (ids := omap _ orig_in) in *.
  pose proof (pu_same _ _ _ _ _ P3) as (X3 & Ev3 & By3 & Wa3 & Ri3 & Wp3).
  fold (event_load kind). fold (event_store kind).
  set (load := event_load kind) in *. set (store := event_store kind) in *.
  change (match rf with
    | Some w => e ← events g3 !! w; es ← vset (events g3) w (push_reader n e); Some (set_events es g3)
    | None => if load then add_from_init_reads order n addr g3 else Some g3
    end) with (read_stage n rf load addr g3).
  assert (HW : forall w, first_writes g load rf addr w -> w < n).
  { intros w. by apply first_writes_lt. }
  assert (Hins3 : length (ins g3) = S n /\ length (outs g3) = S n).
  { rewrite (pu_ins _ _ _ _ _ P3), (pu_outs _ _ _ _ _ P3). simpl. rewrite !length_app. simpl. lia. }
  destruct Hins3 as [Hins3 Houts3].
  assert (Hev3 : events g3 = events g) by (rewrite Ev3; exact Ev1).
  assert (Hq3 : queue_ok g3).
  { apply (pu_ok _ _ _ _ _ P3). destruct Hq as [H1 H2 H3].
    split; simpl; rewrite ?Qu1, ?Qs1, ?Ev1; done. }
  destruct (read_stage_spec g3 n rf load addr (first_writes g load rf addr))
    as (g4 & g4' & -> & E4 & Hq4 & P4); [done|lia| | | |].
  { intros w Hw. rewrite Hev3. destruct (Hrfw w Hw) as (_ & es & Hes & _). by eapply events_lt. }
  { intros w. rewrite Wa3. simpl. rewrite Wa1. unfold first_writes.
    setoid_rewrite (head_writes g addr _ Hsk). done. }
  { intros w Hw. rewrite Hev3. apply HW in Hw. fold n. lia. }
  cbn [mbind option_bind].
  pose proof (pu_same _ _ _ _ _ P4) as (X4 & Ev4 & By4 & Wa4 & Ri4 & Wp4).
  assert (Hri : reads_from_init g4 = reads_from_init g).
  { rewrite E4. simpl. rewrite Ri4, Ri3. exact Ri1. }
  assert (Hwa : writes_by_address g4 = writes_by_address g).
  { rewrite E4. simpl. rewrite Wa4, Wa3. exact Wa1. }
  assert (Hwp : writes_by_process_and_address g4 = writes_by_process_and_address g1).
  { rewrite E4. simpl. by rewrite Wp4, Wp3. }
  assert (Hlen4 : length (ins g4) = S n /\ length (outs g4) = S n).
  { rewrite E4. simpl. by rewrite (pu_ins _ _ _ _ _ P4), (pu_outs _ _ _ _ _ P4). }
  destruct Hlen4 as [Hins4 Houts4].
  assert (Hinit : forall r, r ∈ default [] (reads_from_init g !! addr) -> r < n).
  { intros r (e & He & _)%(sk_inits g Hsk). by eapply events_lt. }
  destruct (write_stage_spec g4 pid n addr store) as (g5 & g5' & w & v & -> & E5 & P5 & Hw & Hv & Hpw).
  { lia. } { rewrite Hwp. lia. } { intros r Hr. rewrite Hri in Hr. apply Hinit in Hr. lia. }
  cbn [mbind option_bind]. rewrite Hri, Hwa in P5. rewrite Hwa in Hw. rewrite Hwp in Hv.
  assert (Hnone : default ∅ (writes_by_address g !! addr) !! pid = head (pwrites g pid addr)).
  { by apply head_writes. }
  assert (HR : forall a, (store = true /\ default ∅ (writes_by_address g !! addr) !! pid = None) /\
    a ∈ default [] (reads_from_init g !! addr) <-> first_readers g store pid addr a).
  { intros a. rewrite Hnone. unfold first_readers. naive_solver. }
  assert (Hlen5 : length (ins g5) = S n /\ length (outs g5) = S n).
  { rewrite E5. simpl. by rewrite (pu_ins _ _ _ _ _ P5), (pu_outs _ _ _ _ _ P5). }
  destruct Hlen5 as [Hins5 Houts5].
  assert (Hidlt : forall a, a ∈ ids -> a < n).
  { intros a (x & _ & Hx)%list_elem_of_omap. by apply (sk_ext g Hsk) in Hx. }
  assert (Hin2 : forall b a, inn g2 b a <-> inn g b a).
  { intros b a. unfold inn. simpl. apply appended_elem. }
  assert (Hin5 : forall b a, inn g5 b a <-> inn g b a \/ (b = n /\ a ∈ ids) \/
    (a = n /\ first_writes g load rf addr b) \/ (b = n /\ first_readers g store pid addr a)).
  { intros b a. rewrite E5. unfold inn at 1. simpl.
    etrans; [apply (pu_in _ _ _ _ _ P5)|]. rewrite E4. unfold inn at 1. simpl.
    pose proof (pu_in _ _ _ _ _ P4 b a) as Q1. pose proof (pu_in _ _ _ _ _ P3 b a) as Q2.
    unfold inn in Q1 at 1. rewrite Q1, Q2, Hin2, <-HR. naive_solver. }
  assert (Hout5 : forall a b, out g5 a b <-> out g a b \/ (b = n /\ last (process g pid) = Some a) \/
    (a = n /\ first_writes g load rf addr b) \/ (b = n /\ first_readers g store pid addr a)).
  { intros a b. rewrite E5. unfold out at 1. simpl.
    etrans; [apply (pu_out _ _ _ _ _ P5)|]. rewrite E4. unfold out at 1. simpl.
    pose proof (pu_out _ _ _ _ _ P4 a b) as Q1. pose proof (pu_out _ _ _ _ _ P3 a b) as Q2.
    assert (Q0 : out g2 a b <-> out g1 a b) by apply appended_elem.
    unfold out in Q1 at 1. rewrite Q1, Q2, Q0, Out1, <-HR. naive_solver. }
  destruct (lookup_lt_exists (ins g5) n) as [new_in Hnew]; [lia|]. rewrite Hnew. cbn [mbind option_bind].
  assert (Hnewin : forall a, a ∈ new_in <-> a ∈ ids \/ first_readers g store pid addr a).
  { intros a. assert (Hx : a ∈ new_in <-> inn g5 n a).
    { unfold inn. rewrite Hnew. naive_solver. }
    rewrite Hx, Hin5. split; [|naive_solver]. intros [(l & Hl & _)|[[_ ?]|[[_ Hn]|[_ ?]]]]; auto.
    - apply lookup_lt_Some in Hl. lia.
    - apply HW in Hn. lia. }
  assert (HRlt : forall a, first_readers g store pid addr a -> a < n).
  { intros a (_ & _ & Ha). by apply Hinit. }
  destruct (out_edges_spec g5 n new_in) as (g6 & -> & P6).
  { intros a [?%Hidlt|?%HRlt]%Hnewin; lia. }
  cbn [mbind option_bind].
  pose proof (pu_same _ _ _ _ _ P6) as (X6 & Ev6 & By6 & Wa6 & Ri6 & Wp6).
  pose proof (pu_same _ _ _ _ _ P5) as (X5 & Ev5 & By5 & Wa5 & Ri5 & Wp5).
  assert (Hev6 : events g6 = new_readers n rf (events g)).
  { rewrite Ev6, E5. simpl. rewrite Ev5, E4. simpl. by rewrite Hev3. }
  assert (Hvc6 : vclocks g6 = vclocks g).
  { rewrite (pu_clocks _ _ _ _ _ P6), E5. simpl. rewrite (pu_clocks _ _ _ _ _ P5), E4. simpl.
    rewrite (pu_clocks _ _ _ _ _ P4), (pu_clocks _ _ _ _ _ P3). exact Vc1. }
  set (new := MkEvent _ _ _ _ _ _ _ _ _).
  set (g7 := if bool_decide (rf = None) && load then _ else _).
  assert (Hg7 : extid_to_id g7 = extid_to_id g6 /\ events g7 = events g6 ++ [new] /\
    ins g7 = ins g6 /\ outs g7 = outs g6 /\ writes_by_address g7 = writes_by_address g6 /\
    events_by_pid g7 = events_by_pid g6 /\ vclocks g7 = vclocks g6 /\
    writes_by_process_and_address g7 = writes_by_process_and_address g6 /\
    saturated_until g7 = saturated_until g6 /\ wq_queue g7 = wq_queue g6 /\ wq_set g7 = wq_set g6).
  { unfold g7. by destruct (bool_decide (rf = None) && load). }
  destruct Hg7 as (X7 & Ev7 & In7 & Out7 & Wa7 & By7 & Vc7 & Wp7 & Un7 & Qu7 & Qs7).
  assert (Hri7 : forall a x, x ∈ default [] (reads_from_init g7 !! a) <->
    x ∈ default [] (reads_from_init g !! a) \/ (x = n /\ load = true /\ rf = None /\ a = addr)).
  { assert (Hri6 : reads_from_init g6 = reads_from_init g).
    { rewrite Ri6, E5. simpl. rewrite Ri5. exact Hri. }
    intros a x. unfold g7. destruct (bool_decide (rf = None)) eqn:Erf; simpl.
    - apply bool_decide_eq_true in Erf. destruct load; simpl; rewrite Hri6; [|naive_solver].
      destruct (decide (a = addr)) as [->|Ha].
      + rewrite lookup_insert_eq. simpl. rewrite elem_of_app, list_elem_of_singleton. naive_solver.
      + rewrite lookup_insert_ne by done. naive_solver.
    - apply bool_decide_eq_false in Erf. rewrite Hri6. naive_solver. }
  rewrite Vc7, Hvc6, bool_decide_true by apply (co_length g Hco). cbn [cassert mbind option_bind].
  set (g8 := set_clocks _ g7).
  assert (Hlen8 : length (events g8) = S n).
  { simpl. rewrite Ev7, Hev6, length_app, new_readers_length. simpl. fold n. lia. }
  assert (Hq8 : queue_ok g8).
  { assert (Hq6 : queue_ok g6).
    { apply (pu_ok _ _ _ _ _ P6). rewrite E5. destruct (pu_ok _ _ _ _ _ P5 Hq4) as [H1 H2 H3].
      by split. }
    destruct Hq6 as [H1 H2 H3]. split; simpl; rewrite ?Qu7, ?Qs7; [done|done|].
    intros x Hx%H3. rewrite Ev7, length_app. lia. }
  pose proof (wq_add_pushed g8 n Hq8 ltac:(lia)) as P9.
  pose proof (pu_same _ _ _ _ _ P9) as (X9 & Ev9 & By9 & Wa9 & Ri9 & Wp9).
  eexists; split; [done|].
  assert (Hproc : forall p, process (wq_add n g8) p = process g1 p).
  { intros p. unfold process. rewrite By9. simpl. rewrite By7, By6, E5. simpl. rewrite By5, E4. simpl.
    by rewrite By4, By3. }
  assert (Hpwr : forall p a, pwrites (wq_add n g8) p a =
    pwrites g p a ++ if decide (store = true /\ p = pid /\ a = addr) then [n] else []).
  { intros p a. unfold pwrites at 1. rewrite Wp9. simpl. rewrite Wp7, Wp6, E5. simpl. rewrite Hpw.
    f_equal. unfold pwrites at 1. rewrite Hwp. apply Pw1. }
  split.
  - intros x i. rewrite X9. simpl. rewrite X7, X6, E5. simpl. rewrite X5, E4. simpl.
    rewrite X4, X3. simpl. rewrite X1. simpl. destruct (decide (x = extid)) as [->|].
    + rewrite lookup_insert_eq. intros [= <-]. fold n. lia.
    + rewrite lookup_insert_ne by done. intros Hx%(sk_ext g Hsk). lia.
  - by rewrite Ev9.
  - intros x e Hx. destruct (new_readers_lookup n rf _ x e Hx) as (e' & He' & Hrest).
    exists e'. split; [|done]. rewrite Ev9. simpl. rewrite Ev7, Hev6. by apply lookup_app_l_Some.
  - exists new. rewrite Ev9. simpl. rewrite Ev7, Hev6. split_and!; try done.
    assert (Hln : length (new_readers n rf (events g)) = n) by apply new_readers_length.
    fold n. rewrite lookup_app_r, Hln, Nat.sub_diag by lia. done.
  - intros p. rewrite Hproc. apply Proc1.
  - rewrite Wp9, By9. simpl. rewrite Wp7, By7, Wp6, By6, E5. simpl. rewrite By5, Hv, E4. simpl.
    by rewrite By4, By3.
  - done.
  - intros a p. rewrite Hpwr, Wa9. simpl. rewrite Wa7, Wa6, E5. simpl. rewrite Hw.
    rewrite Hnone, (head_writes g a p Hsk).
    destruct (decide (store = true /\ p = pid /\ a = addr)) as [(Hs & -> & ->)|Hno].
    + destruct (pwrites g pid addr) as [|y l]; simpl.
      * by rewrite decide_True by done.
      * by rewrite decide_False by naive_solver.
    + rewrite decide_False by naive_solver. by rewrite app_nil_r.
  - intros a x. rewrite Ri9. apply Hri7.
  - rewrite (pu_ins _ _ _ _ _ P9). simpl. by rewrite In7, (pu_ins _ _ _ _ _ P6).
  - rewrite (pu_outs _ _ _ _ _ P9). simpl. by rewrite Out7, (pu_outs _ _ _ _ _ P6).
  - intros b a. rewrite (pu_in _ _ _ _ _ P9). unfold inn at 1. simpl. rewrite In7.
    etrans; [apply or_iff_compat_r, (pu_in _ _ _ _ _ P6)|]. rewrite Hin5. naive_solver.
  - intros a b. rewrite (pu_out _ _ _ _ _ P9). unfold out at 1. simpl. rewrite Out7.
    etrans; [apply or_iff_compat_r, (pu_out _ _ _ _ _ P6)|]. rewrite Hout5. setoid_rewrite Hnewin.
    naive_solver.
  - intros x. rewrite (pu_queue _ _ _ _ _ P9). simpl. rewrite Qu7, (pu_queue _ _ _ _ _ P6), E5. simpl.
    rewrite (pu_queue _ _ _ _ _ P5), E4. simpl. rewrite (pu_queue _ _ _ _ _ P4), (pu_queue _ _ _ _ _ P3).
    simpl. rewrite Qu1. naive_solver.
  - by apply (pu_ok _ _ _ _ _ P9).
  - rewrite (pu_clocks _ _ _ _ _ P9). done.
  - rewrite (pu_until _ _ _ _ _ P9). simpl. rewrite Un7, (pu_until _ _ _ _ _ P6), E5. simpl.
    rewrite (pu_until _ _ _ _ _ P5), E4. simpl. rewrite (pu_until _ _ _ _ _ P4), (pu_until _ _ _ _ _ P3).
    exact Un1.
Qed.
End order.
