(* ===== verification/SatAdd.v ===== *)
(** * SatAdd: adding an event keeps graphs good

    From the field by field description [added] of [add_event]: the new graph is
    well-formed, the clocks of the old events mean what they meant, the new
    event and the first stores a read from the initial value precedes are in
    the queue, and an execution order extends to the new graph when the new
    event fits it. [built] collects the graphs the public calls can make. *)

From S2P Require Import Prelude.
From S2P Require Import VClock.
From S2P Require Import CPid.
From S2P Require Import SymAddr.
From S2P Require Import SatGraph.
From S2P Require Import SatWf.
From S2P Require Import SatLoop.
From S2P Require Import SatRun.
From S2P Require Import SatClosed.
From S2P Require Import SatReverse.
From S2P Require Import SatSound.
From S2P Require Import SatBuild.

(** What the new graph keeps of an old event. *)
Definition same_event (n : nat) (rf : option nat) (x : nat) (e e' : Event) : Prop :=
  ev_pid e' = ev_pid e /\ ev_index e' = ev_index e /\ is_load e' = is_load e /\
  is_store e' = is_store e /\ ev_addr e' = ev_addr e /\ read_from e' = read_from e /\
  po_predecessor e' = po_predecessor e /\
  forall r, r ∈ readers e' <-> r ∈ readers e \/ (r = n /\ rf = Some x).

Section added.
Context (g g' : graph) (pid : nat) (load store : bool) (addr : SymAddr) (rf : option nat).
Context (ids : list nat) (Hgood : good g) (Had : added g pid load store addr rf ids g').
Context (Hrf : forall w, rf = Some w -> load = true /\ stores g w addr).
Context (Hids : forall a, a ∈ ids -> a < length (events g)).

Let n := length (events g).
Let Hwf : wf g := go_wf g Hgood.
Let Hsk : skeleton g := wf_skeleton g Hwf.
Let Heo : edges_ok g := wf_edges g Hwf.

Definition is_new (e : Event) : Prop :=
  ev_pid e = pid /\ ev_index e = (Z.of_nat (length (process g pid)) + 1)%Z /\ is_load e = load /\
  is_store e = store /\ ev_addr e = addr /\ read_from e = rf /\
  po_predecessor e = last (process g pid) /\ readers e = [].

Lemma event_cases x e' :
  events g' !! x = Some e' -> (x = n /\ is_new e') \/
    (x < n /\ exists e, events g !! x = Some e /\ same_event n rf x e e').
Proof.
  intros Hx. destruct (decide (x < n)) as [Hlt|Hge].
  - right. split; [done|]. destruct (lookup_lt_exists (events g) x Hlt) as [e He].
    exists e. split; [done|]. destruct (ad_old _ _ _ _ _ _ _ _ Had x e He) as (e2 & He2 & Hs).
    by simplify_eq.
  - left. apply lookup_lt_Some in Hx as Hl. rewrite (ad_length _ _ _ _ _ _ _ _ Had) in Hl.
    assert (x = n) as -> by (unfold n in *; lia). split; [done|].
    destruct (ad_new _ _ _ _ _ _ _ _ Had) as (e2 & He2 & Hs). fold n in He2. by simplify_eq.
Qed.

Lemma event_old x e : events g !! x = Some e -> exists e', events g' !! x = Some e' /\ same_event n rf x e e'.
Proof. apply (ad_old _ _ _ _ _ _ _ _ Had). Qed.

Lemma event_new : exists e, events g' !! n = Some e /\ is_new e.
Proof. apply (ad_new _ _ _ _ _ _ _ _ Had). Qed.

Lemma process_old p k x : process g p !! k = Some x -> process g' p !! k = Some x.
Proof. intros H. rewrite (ad_process _ _ _ _ _ _ _ _ Had). by apply lookup_app_l_Some. Qed.

Lemma process_cases p k x :
  process g' p !! k = Some x ->
  process g p !! k = Some x \/ (p = pid /\ x = n /\ k = length (process g pid)).
Proof.
  rewrite (ad_process _ _ _ _ _ _ _ _ Had). intros [?|[Hk Hx]]%lookup_app_Some; [by left|].
  right. case_decide; [|by rewrite lookup_nil in Hx].
  apply list_lookup_singleton_Some in Hx as [? <-]. subst. split_and!; [done|done|lia].
Qed.

Lemma process_length p : length (process g p) <= length (process g' p).
Proof. rewrite (ad_process _ _ _ _ _ _ _ _ Had), length_app. lia. Qed.

Lemma process_lt p x : x ∈ process g p -> x < n.
Proof.
  intros Hx. apply list_elem_of_lookup_1 in Hx as [k Hk].
  destruct (sk_process g Hsk _ _ _ Hk) as (e & He & _). by eapply events_lt.
Qed.

Lemma po_lookup p k :
  process g p !! k <> None \/ p <> pid -> process g' p !! k = process g p !! k.
Proof.
  rewrite (ad_process _ _ _ _ _ _ _ _ Had). intros [Hk|Hp].
  - rewrite lookup_app_l; [done|]. by apply lookup_lt_is_Some, not_eq_None_Some.
  - by rewrite decide_False, app_nil_r.
Qed.

Lemma positioned_old p k x : positioned g p k x -> positioned g' p k x.
Proof.
  intros (e & He & <- & <-). destruct (event_old x e He) as (e' & He' & Hp & Hi & _).
  by exists e'.
Qed.

Lemma positioned_new : positioned g' pid (Z.of_nat (length (process g pid)) + 1) n.
Proof. destruct event_new as (e & He & Hp & Hi & _). by exists e. Qed.

Lemma positioned_cases p k x :
  positioned g' p k x -> positioned g p k x \/
    (p = pid /\ x = n /\ k = (Z.of_nat (length (process g pid)) + 1)%Z).
Proof.
  intros (e' & He' & <- & <-). destruct (event_cases x e' He') as [(-> & Hp & Hi & _)|
    (_ & e & He & Hp & Hi & _)]; [by right|]. left. rewrite Hp, Hi. by exists e.
Qed.

Lemma writes_old p a x : x ∈ pwrites g p a -> x < n.
Proof. intros (e & He & _)%(sk_writes g Hsk). by eapply events_lt. Qed.

Lemma added_skeleton : skeleton g'.
Proof.
  split.
  - intros x e' He'. destruct (event_cases x e' He') as [(-> & Hp & Hi & _)|(_ & e & He & Hp & Hi & _)].
    + split; [lia|]. rewrite Hp, Hi, (ad_process _ _ _ _ _ _ _ _ Had), decide_True by done.
      replace (Z.to_nat (Z.of_nat (length (process g pid)) + 1) - 1) with (length (process g pid)) by lia.
      by apply list_lookup_middle.
    + rewrite Hp, Hi. destruct (sk_event g Hsk x e He). split; [done|]. by apply process_old.
  - intros p k x Hx. destruct (process_cases p k x Hx) as [Hx'|(-> & -> & ->)].
    + by apply positioned_old, (sk_process g Hsk).
    + apply positioned_new.
  - intros p. rewrite (ad_process _ _ _ _ _ _ _ _ Had). case_decide.
    + apply sorted_lt_snoc; [apply (sk_sorted g Hsk)|]. intros y. apply process_lt.
    + rewrite app_nil_r. apply (sk_sorted g Hsk).
  - intros x e' He'. destruct (event_cases x e' He')
      as [(-> & Hp & Hi & _ & _ & _ & _ & Hpo & _)|(_ & e & He & Hp & Hi & _ & _ & _ & _ & Hpo & _)].
    + rewrite Hpo, Hp, Hi, last_lookup. case_decide as H1.
      * by rewrite lookup_ge_None_2 by lia.
      * rewrite po_lookup; [f_equal; lia|]. left. apply not_eq_None_Some, lookup_lt_is_Some. lia.
    + rewrite Hpo, Hp, Hi, (sk_po g Hsk x e He). case_decide as H1; [done|].
      symmetry. apply po_lookup. left. destruct (sk_event g Hsk x e He) as [? Hl%lookup_lt_Some].
      apply not_eq_None_Some, lookup_lt_is_Some. lia.
  - apply (ad_width _ _ _ _ _ _ _ _ Had).
  - intros p a x. rewrite (ad_pwrites _ _ _ _ _ _ _ _ Had), elem_of_app, (sk_writes g Hsk). split.
    + intros [(e & He & H1 & H2 & H3)|Hx].
      * destruct (event_old x e He) as (e' & He' & ? & ? & ? & ? & ? & _). exists e'.
        split_and!; (done || congruence).
      * case_decide as Hd; [|by apply not_elem_of_nil in Hx]. destruct Hd as (? & -> & ->).
        apply list_elem_of_singleton in Hx as ->.
        destruct event_new as (e & He & ? & ? & ? & ? & ? & _). exists e. split_and!; (done || congruence).
    + intros (e' & He' & H1 & H2 & H3). destruct (event_cases x e' He')
        as [(-> & ? & ? & ? & ? & ? & _)|(_ & e & He & ? & ? & ? & ? & ? & _)].
      * right. rewrite decide_True by (split_and!; congruence). by apply list_elem_of_singleton.
      * left. exists e. split_and!; (done || congruence).
  - intros p a. rewrite (ad_pwrites _ _ _ _ _ _ _ _ Had). case_decide.
    + apply sorted_lt_snoc; [apply (sk_wsorted g Hsk)|]. intros y. apply writes_old.
    + rewrite app_nil_r. apply (sk_wsorted g Hsk).
  - apply (ad_first _ _ _ _ _ _ _ _ Had).
  - intros a x. rewrite (ad_inits _ _ _ _ _ _ _ _ Had), (sk_inits g Hsk). split.
    + intros [(e & He & H1 & H2 & H3)|(-> & ? & ? & ->)].
      * destruct (event_old x e He) as (e' & He' & ? & ? & ? & ? & ? & ? & _). exists e'.
        split_and!; (done || congruence).
      * destruct event_new as (e & He & ? & ? & ? & ? & ? & ? & _). exists e. split_and!; (done || congruence).
    + intros (e' & He' & H1 & H2 & H3). destruct (event_cases x e' He')
        as [(-> & ? & ? & ? & ? & ? & ? & _)|(_ & e & He & ? & ? & ? & ? & ? & ? & _)].
      * right. split_and!; (done || congruence).
      * left. exists e. split_and!; (done || congruence).
  - intros x e' w He' Hw. destruct (event_cases x e' He')
      as [(-> & _ & _ & Hl & _ & Ha & Hr & _)|(_ & e & He & _ & _ & Hl & _ & Ha & Hr & _)].
    + rewrite Hr in Hw. destruct (Hrf w Hw) as [Hld (ew & Hew & Hst & Haw)]. split; [congruence|].
      destruct (event_old w ew Hew) as (ew' & Hew' & _ & _ & _ & ? & ? & _ & _ & Hrd).
      exists ew'. split_and!; [done|congruence|congruence|]. apply Hrd. by right.
    + rewrite Hr in Hw. destruct (sk_rf g Hsk x e w He Hw) as (Hld & ew & Hew & Hst & Haw & Hin).
      split; [congruence|]. destruct (event_old w ew Hew) as (ew' & Hew' & _ & _ & _ & ? & ? & _ & _ & Hrd).
      exists ew'. split_and!; [done|congruence|congruence|]. apply Hrd. by left.
  - intros w ew' r Hew' Hr. destruct (event_cases w ew' Hew')
      as [(-> & _ & _ & _ & _ & _ & _ & _ & E)|(_ & ew & Hew & _ & _ & _ & _ & _ & _ & _ & Hrd)].
    + rewrite E in Hr. by apply not_elem_of_nil in Hr.
    + destruct (proj1 (Hrd r) Hr) as [Hrw|[-> Hrw]].
      * destruct (sk_readers g Hsk w ew r Hew Hrw) as (er & Her & Hw).
        destruct (event_old r er Her) as (er' & Her' & _ & _ & _ & _ & _ & ? & _). exists er'.
        split; [done|congruence].
      * destruct event_new as (e & He & _ & _ & _ & _ & _ & ? & _). exists e. split; [done|congruence].
  - intros x i Hx. rewrite (ad_length _ _ _ _ _ _ _ _ Had). by apply (ad_ext _ _ _ _ _ _ _ _ Had x).
Qed.

(** ** Edges *)

Lemma inn_lt b a : inn g b a -> a < n /\ b < n.
Proof.
  intros (i & Hi & Ha). destruct (eo_in g Heo _ _ _ Hi Ha) as (o & Ho & _).
  apply lookup_lt_Some in Hi, Ho. rewrite (eo_ins g Heo) in Hi. by rewrite (eo_outs g Heo) in Ho.
Qed.

Lemma first_readers_lt a : first_readers g store pid addr a -> a < n.
Proof. intros (_ & _ & (e & He & _)%(sk_inits g Hsk)). by eapply events_lt. Qed.

Lemma edge_inn h a b : skeleton h -> edges_ok h -> edge h a b <->
  exists e, events h !! b = Some e /\ (po_predecessor e = Some a \/ read_from e = Some a \/ inn h b a).
Proof.
  intros Hs He. unfold edge. setoid_rewrite elem_of_preds. split.
  - intros (e & i & Hb & Hi & H). exists e. split; [done|]. destruct H as [?|[?|?]]; auto.
    right; right. by exists i.
  - intros (e & Hb & H). destruct (lookup_lt_exists (ins h) b) as [i Hi].
    { rewrite (eo_ins h He). by eapply events_lt. }
    exists e, i. split_and!; [done|done|]. destruct H as [?|[?|(i' & ? & ?)]]; simplify_eq; auto.
Qed.

Lemma added_edges : edges_ok g'.
Proof.
  assert (Hout : forall a b, out g' a b -> exists o, outs g' !! a = Some o /\ b ∈ o) by done.
  split.
  - by rewrite (ad_ins _ _ _ _ _ _ _ _ Had), (ad_length _ _ _ _ _ _ _ _ Had).
  - by rewrite (ad_outs _ _ _ _ _ _ _ _ Had), (ad_length _ _ _ _ _ _ _ _ Had).
  - intros x i a Hi Ha. apply Hout, (ad_out _ _ _ _ _ _ _ _ Had).
    assert (Hin : inn g' x a) by (by exists i).
    apply (ad_in _ _ _ _ _ _ _ _ Had) in Hin as [(i' & Hi' & Ha')|[?|[?|?]]]; auto.
    left. by apply (eo_in g Heo x i').
  - intros x o b Ho Hb. assert (Hx : out g' x b) by (by exists o).
    assert (Hgoal : forall e, events g' !! b = Some e -> (inn g' b x \/ po_predecessor e = Some x) ->
      exists e i, events g' !! b = Some e /\ ins g' !! b = Some i /\ (x ∈ i \/ po_predecessor e = Some x)).
    { intros e He [(i & Hi & Hxi)|Hp]; [exists e, i; auto|].
      destruct (lookup_lt_exists (ins g') b) as [i Hi].
      { rewrite (ad_ins _ _ _ _ _ _ _ _ Had), <-(ad_length _ _ _ _ _ _ _ _ Had). by eapply events_lt. }
      exists e, i. auto. }
    destruct event_new as (en & Hen & _ & _ & _ & _ & _ & _ & Hpo & _).
    apply (ad_out _ _ _ _ _ _ _ _ Had) in Hx as [(o' & Ho' & Hb')|[[-> Hx]|[[-> Hx]|[[-> Hx]|[-> Hx]]]]].
    + destruct (eo_out g Heo _ _ _ Ho' Hb') as (e & i & He & Hi & Hor).
      destruct (event_old b e He) as (e' & He' & _ & _ & _ & _ & _ & _ & Hp & _).
      apply (Hgoal e' He'). rewrite Hp. destruct Hor; [left|by right].
      apply (ad_in _ _ _ _ _ _ _ _ Had). left. by exists i.
    + apply (Hgoal en Hen). left. apply (ad_in _ _ _ _ _ _ _ _ Had). auto.
    + pose proof (first_writes_lt g load rf addr b Hsk Hx) as Hlt.
      destruct (lookup_lt_exists (events g) b Hlt) as [e He].
      destruct (event_old b e He) as (e' & He' & _). apply (Hgoal e' He'). left.
      apply (ad_in _ _ _ _ _ _ _ _ Had). auto.
    + apply (Hgoal en Hen). left. apply (ad_in _ _ _ _ _ _ _ _ Had). auto.
    + apply (Hgoal en Hen). right. by rewrite Hpo.
  - intros x e' p He' Hp. apply Hout, (ad_out _ _ _ _ _ _ _ _ Had).
    destruct (event_cases x e' He')
      as [(-> & _ & _ & _ & _ & _ & _ & Hpo & _)|(_ & e & He & _ & _ & _ & _ & _ & _ & Hpo & _)].
    + rewrite Hpo in Hp. auto 10.
    + rewrite Hpo in Hp. left. by apply (eo_po g Heo x e).
Qed.

(** The edges of the new graph: into an old event only from the new event, when
    that reads the initial value. *)
Lemma edge_cases a b :
  edge g' a b <-> edge g a b \/ (a = n /\ first_writes g load rf addr b) \/
    (b = n /\ (last (process g pid) = Some a \/ rf = Some a \/ a ∈ ids \/
              first_readers g store pid addr a)).
Proof.
  rewrite (edge_inn g') by (apply added_skeleton || apply added_edges).
  rewrite (edge_inn g) by done. setoid_rewrite (ad_in _ _ _ _ _ _ _ _ Had). fold n. split.
  - intros (e' & He' & H). destruct (event_cases b e' He')
      as [(-> & _ & _ & _ & _ & _ & Hr & Hp & _)|(Hlt & e & He & _ & _ & _ & _ & _ & Hr & Hp & _)].
    + rewrite Hr, Hp in H. destruct H as [?|[?|[Hin|[[_ ?]|[[_ Hw]|[_ ?]]]]]]; auto 10.
      * apply inn_lt in Hin. lia.
      * apply (first_writes_lt g load rf addr n Hsk) in Hw. unfold n in Hw. lia.
    + rewrite Hr, Hp in H. destruct H as [?|[?|[?|[[-> _]|[[-> ?]|[-> _]]]]]]; try lia; eauto 10.
  - intros [(e & He & H)|[[-> Hw]|[-> H]]].
    + destruct (event_old b e He) as (e' & He' & _ & _ & _ & _ & _ & Hr & Hp & _).
      exists e'. rewrite Hr, Hp. split; [done|]. destruct H as [?|[?|?]]; auto.
    + pose proof (first_writes_lt g load rf addr b Hsk Hw) as Hlt.
      destruct (lookup_lt_exists (events g) b Hlt) as [e He].
      destruct (event_old b e He) as (e' & He' & _). exists e'. split; [done|]. auto 10.
    + destruct event_new as (e & He & _ & _ & _ & _ & _ & Hr & Hp & _). exists e.
      rewrite Hr, Hp. split; [done|]. destruct H as [?|[?|[?|?]]]; auto 10.
Qed.

Lemma edge_kept a b : edge g a b -> edge g' a b.
Proof. rewrite edge_cases. auto. Qed.

Lemma reaches_kept a b : reaches g a b -> reaches g' a b.
Proof. apply (rtc_congruence (fun x => x)). intros ??. apply edge_kept. Qed.
Lemma before_kept a b : before g a b -> before g' a b.
Proof. apply (tc_congruence (fun x => x)). intros ??. apply edge_kept. Qed.

(** ** Clocks *)

Lemma clock_new p : clock g' n p = 0%Z.
Proof.
  unfold clock. rewrite (ad_vclocks _ _ _ _ _ _ _ _ Had).
  rewrite lookup_app_r, (co_length g (wf_clocks g Hwf)) by (rewrite (co_length g (wf_clocks g Hwf)); done).
  fold n. rewrite Nat.sub_diag. simpl. by apply clk_ge; simpl; lia.
Qed.

Lemma clock_old x p : x < n -> clock g' x p = clock g x p.
Proof.
  intros Hx. unfold clock. rewrite (ad_vclocks _ _ _ _ _ _ _ _ Had).
  by rewrite lookup_app_l by (by rewrite (co_length g (wf_clocks g Hwf))).
Qed.

Lemma clock_far x p : n < x -> clock g' x p = 0%Z.
Proof.
  intros Hx. unfold clock. rewrite (ad_vclocks _ _ _ _ _ _ _ _ Had).
  rewrite lookup_ge_None_2; [by apply clk_ge; simpl; lia|].
  rewrite length_app, (co_length g (wf_clocks g Hwf)). simpl. fold n. lia.
Qed.

Lemma clock_zero x p : n <= x -> clock g' x p = 0%Z.
Proof. intros Hx. destruct (decide (x = n)) as [->|]; [apply clock_new|apply clock_far; lia]. Qed.

Lemma added_clocks : clocks_ok g'.
Proof.
  pose proof (wf_clocks g Hwf) as Hco. split.
  - rewrite (ad_vclocks _ _ _ _ _ _ _ _ Had), (ad_length _ _ _ _ _ _ _ _ Had), length_app.
    rewrite (co_length g Hco). simpl. lia.
  - intros x p. pose proof (process_length p). destruct (decide (x < n)) as [Hx|Hx].
    + rewrite clock_old by done. pose proof (co_range g Hco x p). lia.
    + rewrite clock_zero by lia. lia.
  - intros x e' i' p He' Hi'. destruct (event_cases x e' He')
      as [(-> & Hnew)|(Hlt & e & He & Hp & Hi & _ & _ & _ & _)].
    + rewrite clock_new. etrans; [|apply fresh_own]. eapply own_clock_pos; [apply added_skeleton|done].
    + rewrite clock_old by done. destruct (lookup_lt_exists (ins g) x) as [i Hix].
      { by rewrite (eo_ins g Heo). }
      etrans; [by apply (co_grow g Hco x e i)|].
      destruct (fresh_cases g e i p) as [->|(a & Ha & ->)].
      * etrans; [|apply fresh_own]. unfold own_clock. by rewrite Hp, Hi.
      * assert (Hedge : edge g a x) by (by exists e, i).
        rewrite <-clock_old by apply (edge_lt g a x Hsk Heo Hedge). apply fresh_pred.
        apply edge_kept in Hedge as (e2 & i2 & He2 & Hi2 & ?). by simplify_eq.
Qed.

Lemma added_wf : wf g'.
Proof.
  split; [apply added_skeleton|apply added_edges|apply (ad_queue_ok _ _ _ _ _ _ _ _ Had)|
    apply added_clocks|].
  rewrite (ad_until _ _ _ _ _ _ _ _ Had), (ad_length _ _ _ _ _ _ _ _ Had).
  pose proof (wf_until g Hwf). lia.
Qed.

Lemma added_reach : clocks_reach g'.
Proof.
  intros x p Hpos. destruct (decide (x < n)) as [Hx|Hx]; [|rewrite clock_zero in Hpos by lia; lia].
  rewrite clock_old in * by done. destruct (go_reach g Hgood x p Hpos) as (y & Hy & Hr).
  exists y. split; [by apply positioned_old|by apply reaches_kept].
Qed.

Lemma added_settled : settled g'.
Proof.
  intros x e' i' He' Hi' Hx.
  assert (Hxq : (x ∉ wq_queue g) /\ x <> n /\ ~ first_writes g load rf addr x).
  { split_and!; intros H; apply Hx, (ad_queue _ _ _ _ _ _ _ _ Had); auto. }
  destruct Hxq as (Hxq & Hxn & Hxw).
  destruct (event_cases x e' He') as [[? _]|(Hlt & e & He & Hs)]; [done|].
  destruct (lookup_lt_exists (ins g) x) as [i Hix]; [by rewrite (eo_ins g Heo)|].
  assert (Hedge : forall a, edge g' a x <-> edge g a x) by (intros a; rewrite edge_cases; naive_solver).
  assert (Hpreds : forall a, a ∈ preds e i <-> a ∈ preds e' i').
  { intros a. split; intros Ha.
    - assert (edge g' a x) as (e2 & i2 & He2 & Hi2 & ?) by (apply Hedge; by exists e, i).
      by simplify_eq.
    - assert (edge g a x) as (e2 & i2 & He2 & Hi2 & ?) by (apply Hedge; by exists e', i').
      by simplify_eq. }
  assert (Hclk : forall a p, edge g a x -> clock g a p = clock g' a p).
  { intros a p Ha. symmetry. apply clock_old, (edge_lt g a x Hsk Heo Ha). }
  destruct (go_settled g Hgood x e i He Hix Hxq) as [H1 H2].
  destruct Hs as (Hp & Hi & _). split.
  - intros p. rewrite clock_old, H1 by done. apply Z.le_antisymm.
    + destruct (fresh_cases g e i p) as [->|(a & Ha & ->)].
      * etrans; [|apply fresh_own]. unfold own_clock. by rewrite Hp, Hi.
      * rewrite (Hclk a p) by (by exists e, i). by apply fresh_pred, Hpreds.
    + destruct (fresh_cases g' e' i' p) as [->|(a & Ha & ->)].
      * etrans; [|apply fresh_own]. unfold own_clock. by rewrite Hp, Hi.
      * apply Hpreds in Ha. rewrite <-(Hclk a p) by (by exists e, i). by apply fresh_pred.
  - intros (a & Ha & Hc). apply H2. exists a. apply Hedge in Ha. split; [done|].
    intros p. rewrite (Hclk a p Ha), Hc. by apply clock_old.
Qed.

Lemma store_at_cases p k a x :
  store_at g' p k a x -> (store_at g p k a x /\ x < n) \/ (x = n /\ p = pid /\
    k = (Z.of_nat (length (process g pid)) + 1)%Z).
Proof.
  intros (e' & He' & <- & <- & Hs & Ha). destruct (event_cases x e' He')
    as [(-> & Hp & Hi & _)|(Hlt & e & He & Hp & Hi & _ & Hst & Had' & _)]; [by right|].
  left. split; [|done]. exists e. split_and!; (done || congruence).
Qed.

Lemma store_at_old p k a x : store_at g p k a x -> store_at g' p k a x.
Proof.
  intros (e & He & <- & <- & Hs & Ha). destruct (event_old x e He)
    as (e' & He' & Hp & Hi & _ & Hst & Had' & _).
  exists e'. split_and!; (done || congruence).
Qed.

Lemma added_handled : handled_upto (saturated_until g') g'.
Proof.
  rewrite (ad_until _ _ _ _ _ _ _ _ Had). intros x e' p pe He' Hls (Hne & j & Hst & Hj & Hmax).
  pose proof (positioned_range g' added_skeleton _ _ _ (store_at_positioned _ _ _ _ _ Hst)) as Hjpos.
  destruct (decide (x < n)) as [Hx|Hx]; [|rewrite clock_zero in Hj by lia; lia].
  destruct (event_cases x e' He') as [[? _]|(_ & e & He & Hs)]; [lia|].
  destruct Hs as (Hp & Hi & Hl & Hsto & Ha & Hr & _ & _). rewrite clock_old in * by done.
  pose proof (co_range g (wf_clocks g Hwf) x p) as Hrange.
  assert (Hst' : store_at g p j (ev_addr e) pe /\ pe < n).
  { rewrite Ha in Hst. destruct (store_at_cases _ _ _ _ Hst) as [?|(_ & -> & ->)]; [done|lia]. }
  destruct Hst' as [Hst' Hpelt].
  destruct (go_handled g Hgood x e p pe) as [H1 H2]; [done|by rewrite <-Hl, <-Hsto| |].
  { split; [done|]. exists j. split_and!; [done|done|]. intros j' x' Hx' Hj' Hne'.
    eapply Hmax; [|done|done]. rewrite Ha. by apply store_at_old. }
  split; [by rewrite Hl, Hr|]. intros a b Hdue Hlt. apply before_kept, H2; [|done].
  pose proof (wf_until g Hwf) as Hun.
  destruct Hdue as [(Hs1 & -> & Hax & pev' & Hpev' & Hrd)|(Hl1 & Hr1 & -> & Hpb)].
  - left. split_and!; [congruence|done|done|]. destruct (event_cases pe pev' Hpev')
      as [[-> _]|(_ & pev & Hpev & _ & _ & _ & _ & _ & _ & _ & Hiff)]; [lia|].
    exists pev. split; [done|]. destruct (proj1 (Hiff a) Hrd) as [?|[-> _]]; [done|]. unfold n in *. lia.
  - right. split_and!; (done || congruence).
Qed.

Lemma added_init : init_ok g'.
Proof.
  intros r er' p s Her' Hld Hrfn Hs Hne.
  rewrite (ad_pwrites _ _ _ _ _ _ _ _ Had) in Hs.
  destruct (event_cases r er' Her')
    as [(-> & _ & _ & Hl & _ & Ha & Hr & _)|(Hlt & er & Her & _ & _ & Hl & _ & Ha & Hr & _)].
  - apply edge_cases. right; left. split; [done|]. split_and!; [congruence|congruence|]. exists p.
    rewrite Ha in Hs. destruct (pwrites g p addr) as [|y l]; [|done]. simpl in Hs.
    case_decide; simplify_eq/=.
  - rewrite Ha in Hs. destruct (pwrites g p (ev_addr er)) as [|y l] eqn:Epw.
    + simpl in Hs. case_decide as Hd; simplify_eq/=. destruct Hd as (Hsto & -> & Had').
      apply edge_cases. right; right. split; [done|]. right; right; right.
      split_and!; [done|by rewrite <-Had', Epw|]. apply (sk_inits g Hsk).
      exists er. split_and!; (done || congruence).
    + simplify_eq/=. apply edge_kept, (go_init g Hgood r er p s); [done|congruence|congruence| |done].
      by rewrite Epw.
Qed.

Lemma added_good : good g'.
Proof.
  split; [apply added_wf|apply added_reach|apply added_settled|apply added_handled|apply added_init|].
  intros x p j y Hy Hj. rewrite (ad_until _ _ _ _ _ _ _ _ Had).
  pose proof (positioned_range g' added_skeleton _ _ _ Hy).
  destruct (decide (x < n)) as [Hx|Hx]; [|rewrite clock_zero in Hj by lia; lia].
  rewrite clock_old in Hj by done. pose proof (co_range g (wf_clocks g Hwf) x p).
  destruct (positioned_cases _ _ _ Hy) as [Hy'|(-> & -> & ->)]; [|lia].
  by apply (go_old g Hgood x p j).
Qed.
End added.
