(* ===== verification/SatSpec.v ===== *)
(** * SatSpec: what the saturated graph promises

    The properties of [SaturatedGraph] for its callers. [built] are the graphs
    that calls of the public interface make from the empty one, [built_along]
    those whose calls agree with an execution order. Saturation of such graphs
    ends; it never discards an execution; and when it answers [true] the graph
    is closed under the rules of sequential consistency. *)

From S2P Require Import Prelude.
From S2P Require Import VClock.
From S2P Require Import CPid.
From S2P Require Import SymAddr.
From S2P Require Import SatGraph.
From S2P Require Import SatWf.
From S2P Require Import SatLoop.
From S2P Require Import SatRun.
From S2P Require Import SatClosed.
From S2P Require Import SatReverse.
From S2P Require Import SatSound.
From S2P Require Import SatBuild.
From S2P Require Import SatAdd.

(** ** Calls of the public interface *)

Lemma empty_good : good empty_graph.
Proof.
  assert (Hno : forall p, process empty_graph p = []) by done.
  assert (Hw : forall p a, pwrites empty_graph p a = []).
  { intros p a. unfold pwrites. simpl. by rewrite lookup_empty. }
  assert (Hev : forall id, events empty_graph !! id = None) by done.
  assert (Hc : forall id p, clock empty_graph id p = 0%Z).
  { intros id p. unfold clock. simpl. by apply clk_ge; simpl; lia. }
  split.
  - split; [|split; try done|split; simpl; [constructor| |by intros id ?%not_elem_of_nil]|split|done].
    + split; try done.
      * constructor.
      * intros p a id. rewrite Hw. split; [by intros ?%not_elem_of_nil|by intros (e & ? & _)].
      * intros p a. rewrite Hw. constructor.
      * intros a id. simpl. rewrite lookup_empty. split; [by intros ?%not_elem_of_nil|by intros (e & ? & _)].
    + intros id. split; [by intros ?%not_elem_of_nil|done].
    + done.
    + intros id p. rewrite Hc, Hno. done.
    + done.
  - intros id p. rewrite Hc. lia.
  - done.
  - done.
  - done.
  - by intros id p j x (e & ? & _).
Qed.

Section calls.
Context (order : gmap nat nat -> list (nat * nat)).
Context (Horder : forall m, order m ≡ₚ map_to_list m).

Definition known (g : graph) (x : IID) : option nat := extid_to_id g !! x.

Lemma add_event_added g pid extid kind addr ext_rf orig_in :
  good g -> event_args g extid kind addr ext_rf orig_in ->
  exists g', add_event order pid extid kind addr ext_rf orig_in g = Some g' /\ good g' /\
    added g pid (event_load kind) (event_store kind) addr (ext_rf ≫= known g)
      (omap (known g) orig_in) g'.
Proof.
  intros Hgood Hargs. destruct (add_event_spec order Horder g pid extid kind addr ext_rf orig_in)
    as (g' & E & Had); [apply Hgood|done|].
  exists g'. split_and!; [done| |done].
  eapply added_good; [done|done|].
  intros w Hw. destruct ext_rf as [x|]; [|done]. simpl in Hw.
  destruct (ea_rf _ _ _ _ _ _ Hargs x eq_refl) as (Hk & w' & Hw' & Hst). simplify_eq.
  split; [|done]. unfold event_load. by destruct Hk as [-> | ->].
Qed.

(** The graphs that calls with proper arguments make; a graph that [saturate]
    rejects is not used further. *)
Inductive built : graph -> Prop :=
| built_empty : built empty_graph
| built_event g pid extid kind addr ext_rf orig_in g' :
    built g -> event_args g extid kind addr ext_rf orig_in ->
    add_event order pid extid kind addr ext_rf orig_in g = Some g' -> built g'
| built_edge g from to a b g' :
    built g -> known g from = Some a -> known g to = Some b -> add_edge from to g = Some g' ->
    built g'
| built_saturate g g' : built g -> acyclic g -> saturate g = Some (true, g') -> built g'.

Lemma built_is_good g : built g -> good g.
Proof.
  induction 1 as [|g pid extid kind addr ext_rf orig_in g' _ IH Hargs E
    |g from to a b g' _ IH Ha Hb E|g g' _ IH Hac E].
  - apply empty_good.
  - destruct (add_event_added g pid extid kind addr ext_rf orig_in IH Hargs) as (g2 & E2 & ? & _).
    by simplify_eq.
  - destruct (add_edge_good g from to a b IH Ha Hb) as (g2 & E2 & ? & _). by simplify_eq.
  - destruct (ends g IH Hac) as (b & g2 & E2 & H). simplify_eq. by apply H.
Qed.

(** The calls agree with the execution order [pos]: an event comes after its
    predecessor on its process, the store it reads and the events it is given,
    an edge points forward, and every read among the events so far returns the
    latest earlier store. *)
Inductive built_along (pos : nat -> Z) : graph -> Prop :=
| along_empty : built_along pos empty_graph
| along_event g pid extid kind addr ext_rf orig_in g' :
    built_along pos g -> event_args g extid kind addr ext_rf orig_in ->
    add_event order pid extid kind addr ext_rf orig_in g = Some g' ->
    (forall a, last (process g pid) = Some a \/ ext_rf ≫= known g = Some a \/
               a ∈ omap (known g) orig_in -> (pos a < pos (length (events g)))%Z) ->
    reads_ok pos (events g') -> built_along pos g'
| along_edge g from to a b g' :
    built_along pos g -> known g from = Some a -> known g to = Some b ->
    add_edge from to g = Some g' -> (pos a < pos b)%Z -> built_along pos g'
| along_saturate g g' : built_along pos g -> saturate g = Some (true, g') -> built_along pos g'.

Lemma added_respects pos g pid load store addr rf ids g' :
  good g -> good g' -> added g pid load store addr rf ids g' ->
  (forall w, rf = Some w -> load = true /\ stores g w addr) ->
  (forall a, last (process g pid) = Some a \/ rf = Some a \/ a ∈ ids ->
     (pos a < pos (length (events g)))%Z) ->
  reads_ok pos (events g') -> respects pos g -> respects pos g'.
Proof.
  intros Hgood Hgood' Had Hrf Hpos Hreads Hres a b Hab.
  apply (edge_cases g g' pid load store addr rf ids Hgood Had Hrf) in Hab.
  destruct (ad_new _ _ _ _ _ _ _ _ Had) as (en & Hen & _ & _ & Hl & Hs & Ha & Hr & _).
  destruct Hab as [?|[[-> (Hn & Hld & p & Hb)]|[-> [?|[?|[?|(Hst & _ & Hin)]]]]]];
    [by apply Hres| |apply Hpos; auto..|].
  - assert (Hbw : b ∈ pwrites g p addr) by (destruct (pwrites g p addr); simplify_eq/=; by left).
    apply (sk_writes g (wf_skeleton g (go_wf g Hgood))) in Hbw as (eb & Heb & _ & Hbs & Hba).
    destruct (ad_old _ _ _ _ _ _ _ _ Had b eb Heb) as (eb' & Heb' & _ & _ & _ & Hs' & Ha' & _).
    pose proof (Hreads _ en b eb' Hen) as H. rewrite Hr, Hn in H. apply H; try congruence.
    intros ->. apply events_lt in Heb. lia.
  - apply (sk_inits g (wf_skeleton g (go_wf g Hgood))) in Hin as (ea & Hea & Hal & Har & Haa).
    destruct (ad_old _ _ _ _ _ _ _ _ Had a ea Hea) as (ea' & Hea' & _ & _ & Hl' & _ & Ha' & Hr' & _).
    pose proof (Hreads a ea' (length (events g)) en Hea') as H. rewrite Hr', Har in H. apply H; try congruence.
    intros Hx. apply events_lt in Hea. lia.
Qed.

Lemma along_good pos g :
  built_along pos g -> good g /\ respects pos g /\ reads_ok pos (events g).
Proof.
  induction 1 as [|g pid extid kind addr ext_rf orig_in g' _ (Hgood & Hres & _) Hargs E Hpos Hreads
    |g from to a b g' _ (Hgood & Hres & Hreads) Ha Hb E Hlt|g g' _ (Hgood & Hres & Hreads) E].
  - split_and!; [apply empty_good|by intros a b (e & i & ? & _)|by intros r er s es ?].
  - destruct (add_event_added g pid extid kind addr ext_rf orig_in Hgood Hargs)
      as (g2 & E2 & Hgood' & Had). simplify_eq. split_and!; [done| |done].
    eapply added_respects; [apply Hgood|done|done| |done|done|done].
    intros w Hw. destruct ext_rf as [x|]; [|done]. simpl in Hw.
    destruct (ea_rf _ _ _ _ _ _ Hargs x eq_refl) as (Hk & w' & Hw' & Hst).
    unfold known in Hw. simplify_eq. split; [|done]. unfold event_load. by destruct Hk as [-> | ->].
  - destruct (add_edge_good g from to a b Hgood Ha Hb) as (g2 & E2 & Hgood' & Hsub & Hed).
    simplify_eq. split_and!; [done| |by destruct Hsub as ((_ & -> & _) & _)].
    intros x y [?|[-> ->]]%Hed; [by apply Hres|done].
  - destruct (accepts_sc pos g Hgood Hres Hreads) as (g2 & E2 & Hgood' & _ & Hsub & Hres').
    simplify_eq. split_and!; [done|done|]. by destruct Hsub as ((_ & -> & _) & _).
Qed.
End calls.

(** ** Concrete graphs *)

Definition dorder (m : gmap nat nat) : list (nat * nat) := map_to_list m.
Definition dx : SymAddr := MkSymAddr (MkSymMBlock 65535 1) 0.
Definition dy : SymAddr := MkSymAddr (MkSymMBlock 65535 2) 0.

(** Process 0 writes [x]; process 1 reads this value and overwrites it;
    saturation; process 0 then reads its own value again. *)
Definition demo1 : graph := default empty_graph (add_event dorder 0 (MkIID 0 1) STORE dx None [] empty_graph).
Definition demo2 : graph := default empty_graph (add_event dorder 1 (MkIID 1 1) LOAD dx (Some (MkIID 0 1)) [] demo1).
Definition demo3 : graph := default empty_graph (add_event dorder 1 (MkIID 1 2) STORE dx None [] demo2).
Definition demo4 : graph := default empty_graph (snd <$> saturate demo3).
Definition demo5 : graph := default empty_graph (add_event dorder 0 (MkIID 0 2) LOAD dx (Some (MkIID 0 1)) [] demo4).

(** The execution order: write, both reads, overwrite. *)
Definition demo_pos (x : nat) : Z := match x with 0 => 0 | 1 => 1 | 2 => 3 | _ => 2 end.

Example demo_runs : exists g', saturate demo5 = Some (true, g') /\ ins g' = [[]; []; [1; 3]; []] /\
  vclocks g' = [[1]; [1; 1]; [2; 2]; [2]]%Z.
Proof. eexists. split; [vm_compute; reflexivity|]. by split. Qed.

(** Had process 0 read the initial value, a store of its own would come between. *)
Definition demo_bad : graph :=
  default empty_graph (add_event dorder 0 (MkIID 0 2) LOAD dx None [] demo4).
Example demo_bad_rejected : fst <$> saturate demo_bad = Some false.
Proof. vm_compute. reflexivity. Qed.

(** A graph with new readers of old stores and a cycle: process 0 writes [x] and
    [y], saturation, process 1 reads this [y], and process 0 reads the initial
    value of [x]. *)
Definition cyclic1 : graph := demo1.
Definition cyclic2 : graph := default empty_graph (add_event dorder 0 (MkIID 0 2) STORE dy None [] cyclic1).
Definition cyclic3 : graph := default empty_graph (snd <$> saturate cyclic2).
Definition cyclic4 : graph := default empty_graph (add_event dorder 1 (MkIID 1 1) LOAD dy (Some (MkIID 0 2)) [] cyclic3).
Definition cyclic5 : graph := default empty_graph (add_event dorder 0 (MkIID 0 3) LOAD dx None [] cyclic4).

(** [reads_ok] as a test. *)
Definition read_okb (pos : nat -> Z) (r : nat) (er : Event) (s : nat) (es : Event) : bool :=
  if is_load er && is_store es && bool_decide (ev_addr es = ev_addr er) && negb (s =? r)%nat then
    match read_from er with
    | Some w => (s =? w)%nat || (pos s <? pos w)%Z || (pos r <? pos s)%Z
    | None => (pos r <? pos s)%Z
    end
  else true.
Definition reads_okb (pos : nat -> Z) (es : list Event) : bool :=
  forallb (fun r => forallb (fun s => read_okb pos r.1 r.2 s.1 s.2) (imap pair es)) (imap pair es).

Definition respectsb (pos : nat -> Z) (g : graph) : bool :=
  forallb (fun r => forallb (fun a => pos a <? pos r.1)%Z (preds r.2.1 r.2.2))
    (imap pair (zip (events g) (ins g))).

Lemma respectsb_ok pos g : respectsb pos g = true -> respects pos g.
Proof.
  unfold respectsb. intros H a b (e & i & He & Hi & Ha). rewrite forallb_forall in H.
  specialize (H (b, (e, i))). rewrite forallb_forall in H.
  apply Z.ltb_lt, H; [|by apply list_elem_of_In]. apply list_elem_of_In, (list_elem_of_lookup_2 _ b).
  rewrite list_lookup_imap, lookup_zip_with, He. simpl. by rewrite Hi.
Qed.

Lemma reads_okb_ok pos es : reads_okb pos es = true -> reads_ok pos es.
Proof.
  unfold reads_okb. intros H r er s es' Hr Hl Hs Hst Ha Hne. rewrite forallb_forall in H.
  assert (Hin : forall i (e : Event), es !! i = Some e -> In (i, e) (imap pair es)).
  { intros i e Hi. apply list_elem_of_In, (list_elem_of_lookup_2 _ i).
    by rewrite list_lookup_imap, Hi. }
  specialize (H _ (Hin _ _ Hr)). rewrite forallb_forall in H. specialize (H _ (Hin _ _ Hs)).
  unfold read_okb in H. simpl in H. rewrite Hl, Hst, bool_decide_true in H by done.
  apply Nat.eqb_neq in Hne. rewrite Hne in H. simpl in H.
  destruct (read_from er) as [w|]; [|lia]. intros Hw. apply Nat.eqb_neq in Hw. rewrite Hw in H. lia.
Qed.

Ltac args_tac :=
  split; [vm_compute; reflexivity
         |intros ? ?; simplify_eq;
          (split; [by left|]; eexists; split; [vm_compute; reflexivity|];
           eexists; split_and!; vm_compute; reflexivity)
         |intros ? []%not_elem_of_nil].
Ltac reads_tac := apply reads_okb_ok; vm_compute; reflexivity.
Ltac edge_tac :=
  eexists; eexists; split; [vm_compute; reflexivity|split; [vm_compute; reflexivity|]];
  apply (bool_decide_unpack _); vm_compute; exact I.
Ltac pos_tac :=
  intros ? H; vm_compute in H; destruct H as [H|[H|H]];
  first [discriminate H | injection H as <-; vm_compute; reflexivity | by apply not_elem_of_nil in H].

Lemma demo_along : built_along dorder demo_pos demo5.
Proof.
  apply (along_event _ _ demo4 0 (MkIID 0 2) LOAD dx (Some (MkIID 0 1)) []); [|args_tac|vm_compute; reflexivity|pos_tac|reads_tac].
  apply (along_saturate _ _ demo3); [|vm_compute; reflexivity].
  apply (along_event _ _ demo2 1 (MkIID 1 2) STORE dx None []); [|args_tac|vm_compute; reflexivity|pos_tac|reads_tac].
  apply (along_event _ _ demo1 1 (MkIID 1 1) LOAD dx (Some (MkIID 0 1)) []); [|args_tac|vm_compute; reflexivity|pos_tac|reads_tac].
  apply (along_event _ _ empty_graph 0 (MkIID 0 1) STORE dx None []); [constructor|args_tac|vm_compute; reflexivity|pos_tac|reads_tac].
Qed.

(** ** Properties *)

(** C16. Saturation never discards an execution. Take calls that agree with the
    order [pos] of a sequentially consistent execution (every read so far
    returns the latest earlier store); [order] is the order in which the hash
    map of addresses is iterated. Then [saturate] runs to its end and answers
    [true]; every edge and every inferred edge points forward in [pos]; and the
    result is closed under the rules. *)
Theorem execution_accepted order pos g :
  (forall m, order m ≡ₚ map_to_list m) -> built_along order pos g ->
  exists g', saturate g = Some (true, g') /\ respects pos g' /\ saturated g' /\ subgraph g g'.
Proof.
  intros Horder Hb. destruct (along_good order Horder pos g Hb) as (Hgood & Hres & Hreads).
  destruct (accepts_sc pos g Hgood Hres Hreads) as (g' & ? & _ & ? & ? & ?). by exists g'.
Qed.

Lemma execution_accepted_witness :
  exists g', saturate demo5 = Some (true, g') /\ respects demo_pos g' /\ saturated g' /\ subgraph demo5 g'.
Proof. apply (execution_accepted dorder demo_pos demo5); [by intros m|exact demo_along]. Defined.

(** C17. [saturate] of a graph made by calls, whose edges form no cycle, ends (no
    assertion fails and the work queue drains within [saturate_fuel]); and when
    it answers [true], the queue is empty, no edge was lost, and the graph is
    saturated: acyclic, its vector clocks are exactly reachability, and the
    from-read, coherence and initial-value rules add no further order. *)
Theorem saturation_ends order g :
  (forall m, order m ≡ₚ map_to_list m) -> built order g -> acyclic g ->
  exists b g', saturate g = Some (b, g') /\
    (b = true -> saturated g' /\ subgraph g g' /\ is_saturated g' = true).
Proof.
  intros Horder Hb Hac. apply (built_is_good order Horder) in Hb.
  destruct (ends g Hb Hac) as (b & g' & E & H). exists b, g'. split; [done|].
  intros Ht. by destruct (H Ht) as (_ & ? & ? & ?).
Qed.

(** Calls along an execution are calls. *)
Lemma along_built order pos g :
  (forall m, order m ≡ₚ map_to_list m) -> built_along order pos g -> built order g.
Proof.
  intros Horder.
  induction 1 as [| |g from to a b g' _ IH Ha Hb E Hlt|].
  - constructor.
  - by eapply built_event.
  - by apply (built_edge order g from to a b).
  - eapply built_saturate; [done| |done].
    destruct (along_good order Horder pos g) as (_ & Hr & _); [done|].
    by eapply respects_acyclic.
Qed.

Lemma saturation_ends_witness :
  exists b g', saturate demo5 = Some (b, g') /\
    (b = true -> saturated g' /\ subgraph demo5 g' /\ is_saturated g' = true).
Proof.
  apply (saturation_ends dorder demo5); [by intros m| |].
  - apply (along_built dorder demo_pos); [by intros m|exact demo_along].
  - apply (respects_acyclic demo_pos).
    apply (along_good dorder (fun m => reflexivity (map_to_list m)) demo_pos), demo_along.
Defined.

(** C18. What the calls keep: the tables of a graph agree with its events
    ([wf]: identifiers, processes, sorted writes per address, readers, edges in
    both directions, the work queue and its marks), its vector clocks never say
    more than reachability, and the events before [saturated_until] are closed
    under the rules but for those waiting in the queue. *)
Theorem calls_keep_good order g :
  (forall m, order m ≡ₚ map_to_list m) -> built order g -> good g.
Proof. intros Horder. by apply built_is_good. Qed.

Lemma calls_keep_good_witness : good demo5.
Proof.
  apply (calls_keep_good dorder demo5); [by intros m|].
  apply (along_built dorder demo_pos); [by intros m|exact demo_along].
Defined.

(** A graph whose calls make a cycle. *)
Lemma cyclic_built : built dorder cyclic5.
Proof.
  apply (built_event _ cyclic4 0 (MkIID 0 3) LOAD dx None []); [|args_tac|vm_compute; reflexivity].
  apply (built_event _ cyclic3 1 (MkIID 1 1) LOAD dy (Some (MkIID 0 2)) []); [|args_tac|vm_compute; reflexivity].
  apply (built_saturate _ cyclic2); [| |vm_compute; reflexivity].
  - apply (built_event _ cyclic1 0 (MkIID 0 2) STORE dy None []); [|args_tac|vm_compute; reflexivity].
    apply (built_event _ empty_graph 0 (MkIID 0 1) STORE dx None []); [constructor|args_tac|vm_compute; reflexivity].
  - apply (respects_acyclic Z.of_nat), respectsb_ok. vm_compute. reflexivity.
Qed.

(** C19. Saturation of a cyclic graph need not return: the calls made a graph
    with a cycle whose tables are consistent; the care set is found, but
    [reverse_saturate] fails on it (the below-clocks on the cycle are 0, and the
    assertion [0 < index] of [maybe_get_process_event] does not hold), where the
    header promises the answer [false]. *)
Theorem cyclic_graph_fails :
  exists g, built dorder g /\ before g 0 0 /\ check_graph_consistency g = Some tt /\
    is_Some (reverse_care_set g) /\ reverse_saturate g = None /\ saturate g = None.
Proof.
  exists cyclic5. split_and!; [exact cyclic_built| |vm_compute; by eauto..].
  apply (tc_l _ 0 1); [edge_tac|]. apply (tc_l _ 1 3); [edge_tac|]. apply tc_once. edge_tac.
Qed.
