(* ===== verification/GenMap.v ===== *)
(** * GenMap: the persistent hash map (GenMap.h, GenHash.h)

    [gen::map] is a hash array mapped trie that shares structure between copies:
    copying a map takes one pointer, and the copy replaces a cell by one of its
    own before it changes it. Cells live in a heap that all maps share; every
    cell carries the generation of the map that made it, and a map may write the
    cells of its own generation only.

    A [child **] argument is passed as a value and a result: the pointer the
    slot holds before, and the one it holds afterwards. A reference to a value
    ([T &]) is the location of its leaf. Memory that is allocated but not yet
    written holds [junk]. *)

From S2P Require Import Prelude.

(** ** GenHash.h *)

(** [gen::hash], from the result of [std::hash]. *)
Definition gen_hash (std_hash : Z) : Z :=
  let hash := wrapu 64 (std_hash * 0xc6a4a7935bd1e995) in
  Z.lxor hash (if (47 <? hash)%Z then 1 else 0).

(** ** Cells *)

Definition log2_arity : Z := 5.
Definition arity : Z := Z.shiftl 1 log2_arity.

(** [__builtin_popcount] on 32 bits. *)
Definition popcount (bitmap : Z) : nat :=
  length (filter (fun i => Z.testbit bitmap i = true) (seqZ 0 32)).

Abbreviation loc := positive (only parsing).
Abbreviation ptr := (option positive) (only parsing).

Inductive cell (K V : Type) :=
| leaf_cell (_generation : Z) (k : K) (v : V) (next : ptr)
| node_cell (_generation : Z) (bitmap : Z) (array : list ptr).
Arguments leaf_cell {K V} _ _ _ _.
Arguments node_cell {K V} _ _ _.

Abbreviation heap K V := (gmap positive (cell K V)).

(** The table of map objects and the debug reference counters. *)
Record body := MkBody {
  generation : Z;
  _size : Z;
  root : ptr;
  _debug_parent : option positive;
  _debug_refcount : positive;
}.

Record world (K V : Type) := MkWorld {
  cells : heap K V;
  counters : gmap positive nat;
  maps : gmap positive body;
}.
Arguments MkWorld {K V} _ _ _.
Arguments cells {K V} _.
Arguments counters {K V} _.
Arguments maps {K V} _.

Inductive outcome (A : Type) := Threw | Returned (x : A).
Arguments Threw {A}.
Arguments Returned {A} _.

Section map.
Context {K V : Type} `{EqDecision K}.
Context (hash_key : K -> Z) (init : V) (junk : ptr).
Implicit Types (h : heap K V) (c : cell K V).

Definition cell_generation c : Z :=
  match c with leaf_cell g _ _ _ | node_cell g _ _ => g end.
Definition is_leaf c : bool := (cell_generation c <? 0)%Z.
Definition get_generation c : Z :=
  let g := cell_generation c in if (g <? 0)%Z then -1 - g else g.

(** The [static_cast]s. *)
Definition as_leaf c : option (K * V * ptr) :=
  match c with leaf_cell _ k v next => Some (k, v, next) | _ => None end.
Definition as_node c : option (Z * list ptr) :=
  match c with node_cell _ bitmap array => Some (bitmap, array) | _ => None end.

Definition set_array h (l : loc) (i : nat) (p : ptr) : option (heap K V) :=
  c ← h !! l;
  match c with
  | node_cell g b a => a ← vset a i p; Some (<[l := node_cell g b a]> h)
  | _ => None
  end.
Definition get_array h (l : loc) (i : nat) : option ptr :=
  c ← h !! l; n ← as_node c; n.2 !! i.
Definition set_next h (l : loc) (p : ptr) : option (heap K V) :=
  c ← h !! l;
  match c with
  | leaf_cell g k v _ => Some (<[l := leaf_cell g k v p]> h)
  | _ => None
  end.

Definition bit_set (bitmap index : Z) : bool :=
  (Z.land (Z.shiftr bitmap index) 1 =? 1)%Z.

(** Levels of nodes: 12 of 5 bits and one of 4 make the 64 bits of a hash. *)
Definition levels : nat := 13.

(** ** Lookup *)

(** The first loop of [find]: [None] for [return nullptr], else the leaf
    pointer it stops at. *)
Fixpoint find_child (fuel : nat) h (hash : Z) (child : ptr) : option (option ptr) :=
  match child with
  | None => Some (Some None)
  | Some l =>
    c ← h !! l;
    if is_leaf c then Some (Some child) else
    match fuel with
    | 0 => None
    | S fuel =>
      n ← as_node c;
      let '(bitmap, array) := n in
      let index := (hash mod arity)%Z in
      let hash := (hash / arity)%Z in
      if negb (bit_set bitmap index) then Some None else
      child ← array !! (popcount (Z.shiftr bitmap index) - 1);
      find_child fuel h hash child
    end
  end.

Fixpoint find_leaf (fuel : nat) h (k : K) (child : ptr) : option (option V) :=
  match child with
  | None => Some None
  | Some l =>
    match fuel with
    | 0 => None
    | S fuel =>
      c ← h !! l;
      _ ← cassert (is_leaf c);
      leaf ← as_leaf c;
      let '(k', v, next) := leaf in
      if decide (k = k') then Some (Some v) else find_leaf fuel h k next
    end
  end.

Definition find h (b : body) (k : K) : option (option V) :=
  child ← find_child levels h (hash_key k) (root b);
  match child with
  | None => Some None
  | Some child => find_leaf (S (size h)) h k child
  end.

Definition count h (b : body) (k : K) : option bool :=
  r ← find h b k; Some (bool_decide (is_Some r)).

(** [operator\[\]] *)
Definition get h (b : body) (k : K) : option V :=
  r ← find h b k; Some (default init r).

Definition at_ h (b : body) (k : K) : option (outcome V) :=
  r ← find h b k; Some (match r with Some v => Returned v | None => Threw end).

Definition map_size (b : body) : Z := _size b.

(** ** Iteration *)

Fixpoint each_leaf (fuel : nat) h (l : loc) : option (list (K * V)) :=
  match fuel with
  | 0 => None
  | S fuel =>
    c ← h !! l;
    leaf ← as_leaf c;
    let '(k, v, next) := leaf in
    match next with
    | None => Some [(k, v)]
    | Some l' =>
      c' ← h !! l';
      _ ← cassert (is_leaf c');
      rest ← each_leaf fuel h l';
      Some ((k, v) :: rest)
    end
  end.

(** The entries in the order in which [for_each] calls its function. *)
Fixpoint each_child (fuel : nat) h (child : ptr) : option (list (K * V)) :=
  l ← child;
  c ← h !! l;
  if is_leaf c then each_leaf (S (size h)) h l else
  match fuel with
  | 0 => None
  | S fuel =>
    n ← as_node c;
    let '(bitmap, array) := n in
    for_range (popcount bitmap) 0 (fun i acc =>
      child ← array !! i; es ← each_child fuel h child; Some (acc ++ es)) []
  end.

Definition map_for_each h (b : body) : option (list (K * V)) :=
  match root b with None => Some [] | child => each_child levels h child end.

(** ** Allocation *)

Section owner.
Context (g : Z).

Definition alloc_node (n : nat) (bitmap : Z) h : option (loc * heap K V) :=
  _ ← cassert (bool_decide (popcount bitmap = n));
  _ ← cassert (bool_decide (0 < n));
  let l := fresh (dom h) in
  Some (l, <[l := node_cell g bitmap (replicate n junk)]> h).

(** [realloc_node] and the new bitmap. *)
Definition realloc_node (old : loc) (n : nat) (bitmap : Z) h : option (loc * heap K V) :=
  c ← h !! old;
  a ← as_node c;
  let l := fresh (dom h) in
  let array := take n a.2 ++ replicate (n - length a.2) junk in
  Some (l, <[l := node_cell (cell_generation c) bitmap array]> (delete old h)).

Definition new_leaf (k : K) (v : V) (next : ptr) h : loc * heap K V :=
  let l := fresh (dom h) in (l, <[l := leaf_cell (-1 - g) k v next]> h).

Definition uncow_node (old : loc) h : option (loc * heap K V) :=
  c ← h !! old;
  a ← as_node c;
  let n := popcount a.1 in
  r ← alloc_node n a.1 h;
  let '(l, h) := r in
  h ← for_range n 0 (fun i h => p ← get_array h old i; set_array h l i p) h;
  Some (l, h).

Definition uncow_leaf (old : loc) h : option (loc * heap K V) :=
  c ← h !! old;
  leaf ← as_leaf c;
  let '(k, v, next) := leaf in
  Some (new_leaf k v next h).

(** ** [mut] *)

(** Growing a node by a child at [index]: the new node and the position. *)
Definition grow_node (l : loc) (index : Z) h : option (loc * nat * heap K V) :=
  c ← h !! l;
  n ← as_node c;
  let old_bitmap := n.1 in
  let count := popcount old_bitmap + 1 in
  let position := popcount (Z.shiftr old_bitmap index) in
  let new_bitmap := Z.lor old_bitmap (Z.shiftl 1 index) in
  r ← if decide (get_generation c = g) then
        r ← realloc_node l count new_bitmap h; let '(node, h) := r in Some (node, node, h)
      else
        r ← alloc_node count new_bitmap h;
        let '(node, h) := r in
        h ← for_range position 0 (fun i h => p ← get_array h l i; set_array h node i p) h;
        Some (l, node, h);
  let '(old_node, node, h) := r in
  h ← for_range (count - 1 - position) 0 (fun j h =>
        let i := count - 1 - j in
        p ← get_array h old_node (i - 1); set_array h node i p) h;
  h ← set_array h node position None;
  Some (node, position, h).

Fixpoint search (fuel : nat) h (k : K) (leaf : ptr) : option ptr :=
  match leaf with
  | None => Some None
  | Some l =>
    match fuel with
    | 0 => None
    | S fuel =>
      c ← h !! l;
      x ← as_leaf c;
      let '(k', _, next) := x in
      if decide (k = k') then Some leaf else search fuel h k next
    end
  end.

(** Replacing the leaves of a chain from the slot [child] up to [leaf]. *)
Fixpoint uncow_chain (fuel : nat) (leaf : loc) (child : ptr) h
    : option (ptr * loc * heap K V) :=
  match fuel with
  | 0 => None
  | S fuel =>
    l ← child;
    r ← uncow_leaf l h;
    let '(l', h) := r in
    if decide (l = leaf) then Some (Some l', l', h) else
    c ← h !! l';
    x ← as_leaf c;
    r ← uncow_chain fuel leaf x.2 h;
    let '(q, leaf', h) := r in
    h ← set_next h l' q;
    Some (Some l', leaf', h)
  end.

(** Past the leaves of the own generation, then [uncow_chain]. *)
Fixpoint uncow_to (fuel : nat) (leaf : loc) (child : ptr) h : option (ptr * loc * heap K V) :=
  match fuel with
  | 0 => None
  | S fuel' =>
    l ← child;
    c ← h !! l;
    if decide (get_generation c = g) then
      x ← as_leaf c;
      r ← uncow_to fuel' leaf x.2 h;
      let '(q, leaf', h) := r in
      h ← set_next h l q;
      Some (child, leaf', h)
    else uncow_chain fuel leaf child h
  end.

(** The nodes that tell the existing leaves from the new key, and the new leaf. *)
Fixpoint split (fuel : nat) (k : K) (hash first_hash : Z) (existing : ptr) h
    : option (ptr * loc * heap K V) :=
  match fuel with
  | 0 => None
  | S fuel =>
    let index_for_existing := (first_hash mod arity)%Z in
    let index_for_new := (hash mod arity)%Z in
    let new_node_arity := if decide (index_for_existing = index_for_new) then 1 else 2 in
    let bitmap := Z.lor (Z.shiftl 1 index_for_existing) (Z.shiftl 1 index_for_new) in
    r ← alloc_node new_node_arity bitmap h;
    let '(node, h) := r in
    let position_for_existing := if decide (index_for_existing < index_for_new)%Z then 1 else 0 in
    let position_for_new := if decide (index_for_new < index_for_existing)%Z then 1 else 0 in
    h ← set_array h node position_for_new None;
    h ← set_array h node position_for_existing existing;
    child ← get_array h node position_for_new;
    r ← if decide (index_for_existing <> index_for_new) then
          let '(leaf, h) := new_leaf k init child h in Some (Some leaf, leaf, h)
        else split fuel k (hash / arity)%Z (first_hash / arity)%Z child h;
    let '(q, leaf, h) := r in
    h ← set_array h node position_for_new q;
    Some (Some node, leaf, h)
  end.

(** The part of [mut] after its first loop, at a chain of leaves: what the slot
    holds, the leaf of the key, and whether the map has grown. *)
Definition mut_leaves (k : K) (hash : Z) (depth : Z) (child : ptr) h
    : option (ptr * loc * bool * heap K V) :=
  found ← search (S (size h)) h k child;
  match found with
  | Some leaf =>
    c ← h !! leaf;
    if decide (get_generation c = g) then Some (child, leaf, false, h) else
    r ← uncow_to (S (size h)) leaf child h;
    let '(q, leaf, h) := r in
    c ← h !! leaf;
    x ← as_leaf c;
    _ ← cassert (bool_decide (k = x.1.1));
    Some (q, leaf, false, h)
  | None =>
    match child with
    | None => let '(leaf, h) := new_leaf k init None h in Some (Some leaf, leaf, true, h)
    | Some l =>
      c ← h !! l;
      x ← as_leaf c;
      _ ← cassert (depth <? 64)%Z;
      let first_hash := Z.shiftr (hash_key x.1.1) depth in
      if decide (first_hash <> hash) then
        r ← split levels k hash first_hash child h;
        let '(q, leaf, h) := r in
        Some (q, leaf, true, h)
      else let '(leaf, h) := new_leaf k init child h in Some (Some leaf, leaf, true, h)
    end
  end.

(** [mut] from the slot [child] on. *)
Fixpoint mut_child (fuel : nat) (k : K) (hash depth : Z) (child : ptr) h
    : option (ptr * loc * bool * heap K V) :=
  match child with
  | None => mut_leaves k hash depth child h
  | Some l =>
    c ← h !! l;
    if is_leaf c then mut_leaves k hash depth child h else
    match fuel with
    | 0 => None
    | S fuel =>
      n ← as_node c;
      let '(bitmap, array) := n in
      let index := (hash mod arity)%Z in
      let hash := (hash / arity)%Z in
      let depth := (depth + log2_arity)%Z in
      if bit_set bitmap index then
        let position := popcount (Z.shiftr bitmap index) - 1 in
        r ← if decide (get_generation c <> g) then uncow_node l h else Some (l, h);
        let '(node, h) := r in
        slot ← get_array h node position;
        r ← mut_child fuel k hash depth slot h;
        let '(q, leaf, grown, h) := r in
        h ← set_array h node position q;
        Some (Some node, leaf, grown, h)
      else
        r ← grow_node l index h;
        let '(node, position, h) := r in
        r ← mut_leaves k hash depth None h;
        let '(q, leaf, grown, h) := r in
        h ← set_array h node position q;
        Some (Some node, leaf, grown, h)
    end
  end.

(** ** Destruction *)

Fixpoint free_leaves (fuel : nat) (l : loc) h : option (heap K V) :=
  match fuel with
  | 0 => None
  | S fuel =>
    c ← h !! l;
    x ← as_leaf c;
    let h := delete l h in
    match x.2 with
    | None => Some h
    | Some l' =>
      c' ← h !! l';
      if decide (get_generation c' = g) then free_leaves fuel l' h else Some h
    end
  end.

Fixpoint free_child (fuel : nat) (child : ptr) h : option (heap K V) :=
  match child with
  | None => Some h
  | Some l =>
    c ← h !! l;
    if decide (get_generation c <> g) then Some h else
    if is_leaf c then free_leaves (S (size h)) l h else
    match fuel with
    | 0 => None
    | S fuel =>
      n ← as_node c;
      let '(bitmap, array) := n in
      let size := popcount bitmap in
      h ← for_range size 0 (fun j h => p ← array !! (size - 1 - j); free_child fuel p h) h;
      Some (delete l h)
    end
  end.
End owner.

(** ** Map objects *)

Implicit Types (w : world K V) (x y : positive).

Definition assert_writable w (b : body) : option unit :=
  n ← counters w !! _debug_refcount b; cassert (bool_decide (n = 0)).

(** [map()] *)
Definition new_map x w : option (world K V) :=
  _ ← cassert (bool_decide (maps w !! x = None));
  let id := fresh (dom (counters w)) in
  Some (MkWorld (cells w) (<[id := 0]> (counters w)) (<[x := MkBody 0 0 None None id]> (maps w))).

(** [map(const map &other)] *)
Definition copy_map x y w : option (world K V) :=
  _ ← cassert (bool_decide (maps w !! x = None));
  other ← maps w !! y;
  let id := fresh (dom (counters w)) in
  let cs := <[id := 0]> (counters w) in
  match root other with
  | None => Some (MkWorld (cells w) cs (<[x := MkBody 0 (_size other) None None id]> (maps w)))
  | Some r =>
    n ← counters w !! _debug_refcount other;
    _ ← cassert (generation other + 1 <? 2 ^ 31)%Z;
    Some (MkWorld (cells w) (<[_debug_refcount other := S n]> cs)
      (<[x := MkBody (generation other + 1) (_size other) (Some r)
                (Some (_debug_refcount other)) id]> (maps w)))
  end.

(** [swap], also the move constructor and the move assignment. *)
Definition swap x y w : option (world K V) :=
  a ← maps w !! x;
  b ← maps w !! y;
  Some (MkWorld (cells w) (counters w) (<[x := b]> (<[y := a]> (maps w)))).

Definition move_assign x y w : option (world K V) :=
  a ← maps w !! x;
  _ ← assert_writable w a;
  swap x y w.

(** [~map()] *)
Definition destroy x w : option (world K V) :=
  b ← maps w !! x;
  _ ← assert_writable w b;
  cs ← match _debug_parent b with
       | None => Some (counters w)
       | Some p => n ← counters w !! p; Some (<[p := pred n]> (counters w))
       end;
  h ← free_child (generation b) levels (root b) (cells w);
  Some (MkWorld h (delete (_debug_refcount b) cs) (delete x (maps w))).

(** [operator=(const map &)] *)
Definition copy_assign x y w : option (world K V) :=
  w ← destroy x w; copy_map x y w.

(** [mut], with the location of the value. *)
Definition mut x (k : K) w : option (loc * world K V) :=
  b ← maps w !! x;
  _ ← assert_writable w b;
  r ← mut_child (generation b) levels k (hash_key k) 0 (root b) (cells w);
  let '(p, leaf, grown, h) := r in
  let s := if (grown : bool) then wrapu 32 (_size b + 1) else _size b in
  Some (leaf, MkWorld h (counters w)
    (<[x := MkBody (generation b) s p (_debug_parent b) (_debug_refcount b)]> (maps w))).

(** Reading and writing the referenced value. *)
Definition value w (leaf : loc) : option V :=
  c ← cells w !! leaf; l ← as_leaf c; Some l.1.2.
Definition assign (leaf : loc) (v : V) w : option (world K V) :=
  c ← cells w !! leaf;
  match c with
  | leaf_cell g k _ next =>
    Some (MkWorld (<[leaf := leaf_cell g k v next]> (cells w)) (counters w) (maps w))
  | _ => None
  end.
End map.
