(* ===== verification/GenMapTree.v ===== *)
(** * GenMapTree: bitmaps and the positions of children; the trees of a persistent
      hash map, and owned changes

    A node keeps its children in descending order of their index; the child of
    index [i] is at position [popcount (bitmap >> i) - 1].

    [tree] is what a map reaches from its root: chains of leaves and nodes, with
    their locations. [step] is how a map may change the shared heap: cells that
    it does not own are kept, what it allocates is its own, and what it stops
    using of its own is freed. Steps compose, and hold in any larger set of
    cells. *)

From S2P Require Import Prelude.
From S2P Require Import GenMap.

(** The indices of the children of a node, in the order of the array. *)
Definition bits (bm : Z) : list Z := filter (fun i => Z.testbit bm i = true) (seqZ 0 32).
Definition indices (bm : Z) : list Z := reverse (bits bm).

Lemma popcount_indices bm : popcount bm = length (indices bm).
Proof. unfold indices. by rewrite length_reverse. Qed.

Lemma elem_of_bits bm i : i ∈ bits bm <-> (0 <= i < 32)%Z /\ Z.testbit bm i = true.
Proof. unfold bits. rewrite list_elem_of_filter, elem_of_seqZ. naive_solver. Qed.
Lemma elem_of_indices bm i : i ∈ indices bm <-> (0 <= i < 32)%Z /\ Z.testbit bm i = true.
Proof. unfold indices. by rewrite elem_of_reverse, elem_of_bits. Qed.

Lemma bit_set_spec bm i : (0 <= i)%Z -> bit_set bm i = Z.testbit bm i.
Proof.
  intros Hi. unfold bit_set. change 1%Z with (Z.ones 1) at 1. rewrite Z.land_ones by lia.
  change (2 ^ 1)%Z with 2%Z. rewrite <-Z.bit0_mod, Z.shiftr_spec, Z.add_0_l by lia.
  by destruct (Z.testbit bm i).
Qed.

Lemma bitmap_testbit_high bm i : (0 <= bm < 2 ^ 32 -> 32 <= i -> Z.testbit bm i = false)%Z.
Proof.
  intros Hbm Hi. destruct (decide (bm = 0%Z)) as [->|]; [apply Z.bits_0|].
  apply Z.bits_above_log2; [lia|]. enough (Z.log2 bm < 32)%Z by lia. apply Z.log2_lt_pow2; lia.
Qed.

(** Increasing lists with the same members are equal. *)
Lemma increasing_unique (l k : list Z) :
  StronglySorted Z.lt l -> StronglySorted Z.lt k -> (forall x, x ∈ l <-> x ∈ k) -> l = k.
Proof.
  intros Hl Hk Hx.
  assert (Hn : forall m, StronglySorted Z.lt m -> NoDup m).
  { induction 1 as [|x m _ IH Hm]; constructor; [|done].
    intros Hin. rewrite Forall_forall in Hm. specialize (Hm x Hin). lia. }
  apply (StronglySorted_unique_strong Z.lt); [|done|done|by apply NoDup_Permutation; auto].
  intros; lia.
Qed.

Lemma increasing_filter (P : Z -> Prop) `{!forall x, Decision (P x)} (l : list Z) :
  StronglySorted Z.lt l -> StronglySorted Z.lt (filter P l).
Proof.
  induction 1 as [|x l Hl IH Hx]; [constructor|]. rewrite filter_cons. case_decide; [|done].
  constructor; [done|]. rewrite Forall_forall in Hx |- *.
  intros y [_ ?]%list_elem_of_filter. auto.
Qed.

Lemma increasing_app (l k : list Z) :
  StronglySorted Z.lt l -> StronglySorted Z.lt k ->
  (forall x y, x ∈ l -> y ∈ k -> (x < y)%Z) -> StronglySorted Z.lt (l ++ k).
Proof.
  induction 1 as [|x l Hl IH Hx]; intros Hk Hlk; [done|]. simpl. constructor.
  - apply IH; [done|]. intros y z Hy. apply Hlk. by right.
  - rewrite Forall_forall in Hx |- *. intros y [?|?]%elem_of_app; [by apply Hx|].
    apply Hlk; [by left|done].
Qed.

Lemma increasing_seqZ (n : nat) m : StronglySorted Z.lt (seqZ m (Z.of_nat n)).
Proof.
  revert m. induction n as [|n IH]; intros m; [constructor|].
  rewrite seqZ_cons, <-Nat2Z.inj_pred by lia. constructor; [apply IH|].
  apply Forall_forall. intros x ?%elem_of_seqZ. lia.
Qed.

Lemma increasing_bits bm : StronglySorted Z.lt (bits bm).
Proof. apply increasing_filter. apply (increasing_seqZ 32). Qed.

Lemma increasing_fmap_add i (l : list Z) :
  StronglySorted Z.lt l -> StronglySorted Z.lt (Z.add i <$> l).
Proof.
  induction 1 as [|x l Hl IH Hx]; [constructor|]. simpl. constructor; [done|].
  rewrite Forall_forall in Hx |- *. intros y (z & -> & Hz)%list_elem_of_fmap.
  specialize (Hx z Hz). lia.
Qed.

(** [popcount (bitmap >> i)] counts the indices from [i] on. *)
Lemma popcount_shiftr bm i : (0 <= bm < 2 ^ 32 -> 0 <= i < 32 ->
  popcount (Z.shiftr bm i) = length (filter (fun j => i <= j) (bits bm)))%Z.
Proof.
  intros Hbm Hi. transitivity (length (Z.add i <$> bits (Z.shiftr bm i))).
  { by rewrite length_fmap. }
  f_equal. apply increasing_unique.
  - apply increasing_fmap_add, increasing_bits.
  - apply increasing_filter, increasing_bits.
  - intros x. rewrite list_elem_of_fmap, list_elem_of_filter, elem_of_bits. split.
    + intros (y & -> & [? Hy]%elem_of_bits). rewrite Z.shiftr_spec in Hy by lia.
      replace (y + i)%Z with (i + y)%Z in Hy by lia. split_and!; [lia|lia| |done].
      destruct (decide (i + y < 32)%Z); [lia|]. rewrite bitmap_testbit_high in Hy by lia. done.
    + intros (? & ? & Hx). exists (x - i)%Z. split; [lia|]. apply elem_of_bits.
      split; [lia|]. rewrite Z.shiftr_spec by lia. by replace (x - i + i)%Z with x by lia.
Qed.

Lemma bits_split bm i :
  bits bm = filter (fun j => j < i)%Z (bits bm) ++ filter (fun j => i <= j)%Z (bits bm).
Proof.
  apply increasing_unique; [apply increasing_bits| |].
  - apply increasing_app; [apply increasing_filter, increasing_bits..|].
    intros x y [? _]%list_elem_of_filter [? _]%list_elem_of_filter. lia.
  - intros x. rewrite elem_of_app, !list_elem_of_filter.
    destruct (decide (x < i)%Z); [naive_solver|]. assert (i <= x)%Z by lia. naive_solver.
Qed.

Definition position_of (bm i : Z) : nat := popcount (Z.shiftr bm i) - 1.

Lemma indices_from bm i : (0 <= bm < 2 ^ 32)%Z -> (0 <= i < 32)%Z ->
  take (popcount (Z.shiftr bm i)) (indices bm) = reverse (filter (fun j => i <= j)%Z (bits bm)).
Proof.
  intros Hbm Hi. unfold indices. rewrite (bits_split bm i) at 1.
  rewrite reverse_app, take_app_length'; [done|]. by rewrite length_reverse, <-popcount_shiftr.
Qed.
Lemma indices_below bm i : (0 <= bm < 2 ^ 32)%Z -> (0 <= i < 32)%Z ->
  drop (popcount (Z.shiftr bm i)) (indices bm) = reverse (filter (fun j => j < i)%Z (bits bm)).
Proof.
  intros Hbm Hi. unfold indices. rewrite (bits_split bm i) at 1.
  rewrite reverse_app, drop_app_length'; [done|]. by rewrite length_reverse, <-popcount_shiftr.
Qed.

Lemma bits_from_set bm i : (0 <= i < 32)%Z -> Z.testbit bm i = true ->
  filter (fun j => i <= j)%Z (bits bm) = i :: filter (fun j => i < j)%Z (bits bm).
Proof.
  intros Hi Hb. apply increasing_unique.
  - apply increasing_filter, increasing_bits.
  - constructor; [apply increasing_filter, increasing_bits|].
    apply Forall_forall. by intros x [? _]%list_elem_of_filter.
  - intros x. rewrite elem_of_cons, !list_elem_of_filter, elem_of_bits.
    destruct (decide (x = i)) as [->|]; [naive_solver lia|].
    split; [intros [? ?]; right; split; [lia|done]|intros [?|[? ?]]; [done|split; [lia|done]]].
Qed.

Lemma indices_position bm i : (0 <= bm < 2 ^ 32)%Z -> (0 <= i < 32)%Z -> Z.testbit bm i = true ->
  popcount (Z.shiftr bm i) = S (position_of bm i) /\ indices bm !! position_of bm i = Some i.
Proof.
  intros Hbm Hi Hb. pose proof (popcount_shiftr bm i Hbm Hi) as Hp.
  pose proof (indices_from bm i Hbm Hi) as Hf. rewrite bits_from_set in Hp, Hf by done.
  unfold position_of. rewrite Hp. simpl. rewrite Nat.sub_0_r. split; [done|].
  rewrite Hp in Hf. rewrite reverse_cons in Hf.
  rewrite <-(lookup_take_lt _ (S (length (filter (fun j => i < j)%Z (bits bm))))) by lia.
  simpl in Hf. rewrite Hf, lookup_app_r; rewrite length_reverse; [|lia]. by rewrite Nat.sub_diag.
Qed.

Lemma indices_add bm i : (0 <= bm < 2 ^ 32)%Z -> (0 <= i < 32)%Z -> Z.testbit bm i = false ->
  let p := popcount (Z.shiftr bm i) in
  indices (Z.lor bm (Z.shiftl 1 i)) = take p (indices bm) ++ i :: drop p (indices bm) /\
  p <= length (indices bm) /\ (0 <= Z.lor bm (Z.shiftl 1 i) < 2 ^ 32)%Z.
Proof.
  intros Hbm Hi Hb p. unfold p. rewrite indices_from, indices_below by done.
  assert (Hset : forall x, (0 <= x)%Z -> Z.testbit (Z.lor bm (Z.shiftl 1 i)) x =
    Z.testbit bm x || (x =? i)%Z).
  { intros x Hx. rewrite Z.lor_spec, Z.shiftl_1_l, Z.pow2_bits_eqb by lia. f_equal. lia. }
  split_and!.
  - unfold indices. rewrite cons_middle, (assoc_L (++)), <-reverse_cons, <-reverse_app.
    f_equal. apply increasing_unique.
    + apply increasing_bits.
    + apply increasing_app; [apply increasing_filter, increasing_bits| |].
      * constructor; [apply increasing_filter, increasing_bits|].
        apply Forall_forall. intros x [? [Hx ?]%elem_of_bits]%list_elem_of_filter.
        destruct (decide (x = i)); [congruence|lia].
      * intros x y [? _]%list_elem_of_filter [->|[? _]%list_elem_of_filter]%elem_of_cons; lia.
    + intros x. rewrite elem_of_app, elem_of_cons, !list_elem_of_filter, !elem_of_bits.
      split.
      * intros [Hx Ht]. rewrite Hset in Ht by lia.
        destruct (decide (x = i)) as [->|]; [naive_solver|].
        destruct (decide (x < i)%Z); [left|right; right]; (split; [lia|]); (split; [done|]);
          destruct (Z.testbit bm x); [done|lia|done|lia].
      * intros [(? & ? & Ht)|[->|(? & ? & Ht)]]; (split; [lia|]); rewrite Hset, ?Ht by lia; [done| |done].
        rewrite Z.eqb_refl. apply orb_true_r.
  - rewrite popcount_shiftr by done. unfold indices. rewrite length_reverse. apply length_filter.
  - apply Z.lor_nonneg. split; [lia|]. apply Z.shiftl_nonneg. lia.
  - apply Z.lt_nge. intros Hge.
      set (y := Z.lor bm (Z.shiftl 1 i)) in *. assert (Hlog : (32 <= Z.log2 y)%Z).
      { apply Z.log2_le_pow2; lia. }
      pose proof (Z.bit_log2 y ltac:(lia)) as Ht. unfold y in Ht. rewrite Hset in Ht by apply Z.log2_nonneg.
      fold y in Ht. rewrite bitmap_testbit_high in Ht by lia. simpl in Ht. apply Z.eqb_eq in Ht. lia.
Qed.

Lemma bits_0 : bits 0 = [].
Proof. done. Qed.

Lemma bits_one i : (0 <= i < 32)%Z -> bits (Z.shiftl 1 i) = [i].
Proof.
  intros Hi. apply increasing_unique; [apply increasing_bits|repeat constructor|].
  intros x. rewrite elem_of_bits, list_elem_of_singleton, Z.shiftl_1_l.
  split.
  - intros [? Ht]. rewrite Z.pow2_bits_eqb in Ht by lia. lia.
  - intros ->. split; [done|]. rewrite Z.pow2_bits_eqb by lia. lia.
Qed.

(** The bitmap of a new node, over the existing and the new child. *)
Lemma indices_pair a b : (0 <= a < 32)%Z -> (0 <= b < 32)%Z ->
  (0 <= Z.lor (Z.shiftl 1 a) (Z.shiftl 1 b) < 2 ^ 32)%Z /\
  indices (Z.lor (Z.shiftl 1 a) (Z.shiftl 1 b)) =
    if decide (a = b) then [a] else if decide (a < b)%Z then [b; a] else [a; b].
Proof.
  intros Ha Hb. pose proof (Z.pow_lt_mono_r 2 a 32 ltac:(lia) ltac:(lia) ltac:(lia)).
  pose proof (Z.pow_nonneg 2 a). rewrite (Z.shiftl_1_l a).
  case_decide as Hab.
  - subst b. rewrite Z.shiftl_1_l, Z.lor_diag. split; [lia|].
    unfold indices. by rewrite <-Z.shiftl_1_l, bits_one.
  - destruct (indices_add (2 ^ a) b) as (-> & _ & ?); [lia|done| |split; [done|]].
    { rewrite Z.pow2_bits_eqb by lia. lia. }
    rewrite indices_from, indices_below by lia. rewrite <-Z.shiftl_1_l, bits_one by done.
    rewrite !filter_cons, !filter_nil. repeat case_decide; done || lia.
Qed.

(** * The trees of a persistent hash map, and owned changes *)

(** ** Owned changes of the heap *)

Section step.
Context {K V : Type} (g : Z).
Implicit Types (h : heap K V) (c : cell K V) (C R : list (positive * cell K V)).

Definition holds h C : Prop := forall l c, (l, c) ∈ C -> h !! l = Some c.
Definition owned C (l : positive) : Prop := exists c, (l, c) ∈ C /\ get_generation c = g.

Record step h C h' C' : Prop := {
  st_before : holds h C;
  st_nodup : NoDup C.*1;
  st_after : holds h' C';
  st_nodup' : NoDup C'.*1;
  st_new l : l ∈ C'.*1 -> l ∈ C.*1 \/ h !! l = None;
  st_frame l c : h !! l = Some c -> ~ owned C l -> h' !! l = Some c;
  st_alloc l : h !! l = None -> is_Some (h' !! l) -> owned C' l;
  st_kept l : owned C l -> is_Some (h' !! l) -> owned C' l;
}.

Lemma owned_in C l : owned C l -> l ∈ C.*1.
Proof. intros (c & Hc & _). apply list_elem_of_fmap. by exists (l, c). Qed.

Lemma in_locs C l : l ∈ C.*1 -> exists c, (l, c) ∈ C.
Proof. intros ([l' c] & -> & ?)%list_elem_of_fmap. by exists c. Qed.

Lemma holds_dom h C l : holds h C -> l ∈ C.*1 -> is_Some (h !! l).
Proof. intros Hh (c & Hc)%in_locs. exists c. by apply Hh. Qed.

Lemma holds_owned h C l : holds h C -> l ∈ C.*1 ->
  owned C l <-> exists c, h !! l = Some c /\ get_generation c = g.
Proof.
  intros Hh Hl. split.
  - intros (c & Hc & ?). exists c. split; [by apply Hh|done].
  - intros (c & Hc & ?). destruct (in_locs C l Hl) as (c' & Hin). exists c'.
    split; [done|]. apply Hh in Hin. by simplify_eq.
Qed.

Lemma step_refl h C : holds h C -> NoDup C.*1 -> step h C h C.
Proof. intros Hh Hn. split; try done; [by left|by intros l -> [? ?]]. Qed.

Lemma step_trans h C h1 C1 h2 C2 : step h C h1 C1 -> step h1 C1 h2 C2 -> step h C h2 C2.
Proof.
  intros [Hb Hn Ha Hn' Hnew Hfr Hal Hk] [Hb2 Hn2 Ha2 Hn2' Hnew2 Hfr2 Hal2 Hk2].
  assert (Hgone : forall l c, h !! l = Some c -> h1 !! l = None -> l ∈ C.*1).
  { intros l c Hl Hl1. destruct (decide (l ∈ C.*1)); [done|].
    rewrite (Hfr l c Hl) in Hl1; [done|]. by intros ?%owned_in. }
  split; try done.
  - intros l [?|H1]%Hnew2; [by apply Hnew|].
    destruct (h !! l) as [c|] eqn:E; [left; by eapply Hgone|by right].
  - intros l c Hl Ho. apply Hfr2; [by apply Hfr|]. intros Ho1. apply Ho.
    pose proof (owned_in _ _ Ho1) as Hin. destruct Ho1 as (c1 & Hc1 & Hg). apply Ha in Hc1.
    rewrite (Hfr l c Hl Ho) in Hc1. simplify_eq.
    destruct (Hnew l Hin) as [?|?]; [|congruence]. apply (holds_owned h); eauto.
  - intros l Hl Hs. destruct (h1 !! l) as [c|] eqn:E.
    + apply Hk2; [|done]. by apply Hal.
    + by apply Hal2.
  - intros l Ho Hs. destruct (h1 !! l) as [c|] eqn:E.
    + apply Hk2; [|done]. by apply Hk.
    + by apply Hal2.
Qed.

Lemma step_perm h C D h' C' D' : C ≡ₚ D -> C' ≡ₚ D' -> step h C h' C' -> step h D h' D'.
Proof.
  intros HC HC' [Hb Hn Ha Hn' Hnew Hfr Hal Hk].
  assert (Ho : forall l, owned C l <-> owned D l).
  { intros l. split; intros (c & Hc & ?); exists c; (split; [|done]); [by rewrite <-HC|by rewrite HC]. }
  assert (Ho' : forall l, owned C' l <-> owned D' l).
  { intros l. split; intros (c & Hc & ?); exists c; (split; [|done]); [by rewrite <-HC'|by rewrite HC']. }
  split.
  - intros l c. rewrite <-HC. apply Hb.
  - by rewrite <-HC.
  - intros l c. rewrite <-HC'. apply Ha.
  - by rewrite <-HC'.
  - intros l. rewrite <-HC, <-HC'. apply Hnew.
  - intros l c. rewrite <-Ho. apply Hfr.
  - intros l. rewrite <-Ho'. apply Hal.
  - intros l. rewrite <-Ho, <-Ho'. apply Hk.
Qed.

(** A step is local. *)
Lemma step_app h C h' C' R :
  step h C h' C' -> holds h R -> NoDup (C ++ R).*1 -> step h (C ++ R) h' (C' ++ R).
Proof.
  intros [Hb Hn Ha Hn' Hnew Hfr Hal Hk] HR Hnd.
  rewrite fmap_app, NoDup_app in Hnd. destruct Hnd as (_ & Hdis & HnR).
  assert (Hor : forall D l, owned (D ++ R) l <-> owned D l \/ owned R l).
  { intros D l. unfold owned. setoid_rewrite elem_of_app. naive_solver. }
  assert (HR' : forall l, l ∈ R.*1 -> h' !! l = h !! l).
  { intros l Hl. destruct (holds_dom h R l HR Hl) as [c Hc]. rewrite Hc. apply Hfr; [done|].
    intros ?%owned_in. by eapply Hdis. }
  split.
  - intros l c [?|?]%elem_of_app; auto.
  - rewrite fmap_app. by apply NoDup_app.
  - intros l c [?|Hc]%elem_of_app; [by apply Ha|].
    rewrite HR'; [by apply HR|]. apply list_elem_of_fmap. by exists (l, c).
  - rewrite fmap_app. apply NoDup_app. split_and!; [done| |done].
    intros l [?|Hl]%Hnew HlR; [by eapply Hdis|].
    destruct (holds_dom h R l HR HlR). congruence.
  - intros l. rewrite !fmap_app, !elem_of_app. intros [[?|?]%Hnew|?]; auto.
  - intros l c Hl. rewrite Hor. intros Ho. apply Hfr; [done|tauto].
  - intros l Hl Hs. rewrite Hor. left. by apply Hal.
  - intros l. rewrite !Hor. intros [?|?] ?; [left; by apply Hk|by right].
Qed.

Lemma step_write h l c c' R :
  holds h ((l, c) :: R) -> NoDup ((l, c) :: R).*1 -> get_generation c = g -> get_generation c' = g ->
  step h ((l, c) :: R) (<[l := c']> h) ((l, c') :: R).
Proof.
  intros Hh Hnd Hg Hg'. assert (Hl : h !! l = Some c) by (apply Hh; by left).
  cbn in Hnd. apply NoDup_cons in Hnd as [HlR Hnd].
  split; [done|by constructor| |by constructor| | | |].
  - intros x cx [?|Hx]%elem_of_cons; [simplify_eq; by rewrite lookup_insert_eq|].
    rewrite lookup_insert_ne; [apply Hh; by right|]. intros ->. apply HlR.
    apply list_elem_of_fmap. by exists (x, cx).
  - intros x Hx. by left.
  - intros x cx Hx Ho. rewrite lookup_insert_ne; [done|]. intros ->. apply Ho.
    exists c. split; [by left|done].
  - intros x Hx Hs. rewrite lookup_insert_ne in Hs; [by destruct Hs; congruence|]. congruence.
  - intros x (cx & [?|Hx]%elem_of_cons & ?) Hs.
    + simplify_eq. exists c'. split; [by left|done].
    + exists cx. split; [by right|done].
Qed.

Lemma step_new h l c R :
  holds h R -> NoDup R.*1 -> h !! l = None -> get_generation c = g ->
  step h R (<[l := c]> h) ((l, c) :: R).
Proof.
  intros Hh Hnd Hl Hg. assert (HlR : forall x cx, (x, cx) ∈ R -> x <> l).
  { intros x cx Hx ->. apply Hh in Hx. congruence. }
  split; [done..| | | | | |].
  - intros x cx [?|Hx]%elem_of_cons; [simplify_eq; by rewrite lookup_insert_eq|].
    rewrite lookup_insert_ne; [by apply Hh|]. intros ->. by eapply HlR.
  - cbn. constructor; [|done]. intros (cx & Hx)%in_locs. by eapply HlR.
  - cbn. intros x [->|?]%elem_of_cons; auto.
  - intros x cx Hx _. rewrite lookup_insert_ne; [done|congruence].
  - intros x Hx Hs. destruct (decide (x = l)) as [->|]; [exists c; split; [by left|done]|].
    rewrite lookup_insert_ne in Hs by done. destruct Hs; congruence.
  - intros x (cx & Hx & ?) _. exists cx. split; [by right|done].
Qed.

Lemma step_free h l c R :
  holds h ((l, c) :: R) -> NoDup ((l, c) :: R).*1 -> get_generation c = g ->
  step h ((l, c) :: R) (delete l h) R.
Proof.
  intros Hh Hnd Hg. assert (Hl : h !! l = Some c) by (apply Hh; by left).
  pose proof Hnd as Hnd'. cbn in Hnd. apply NoDup_cons in Hnd as [HlR Hnd].
  split; [done|done| |done| | | |].
  - intros x cx Hx. rewrite lookup_delete_ne; [apply Hh; by right|]. intros ->. apply HlR.
    apply list_elem_of_fmap. by exists (x, cx).
  - intros x Hx. left. by right.
  - intros x cx Hx Ho. rewrite lookup_delete_ne; [done|]. intros ->. apply Ho.
    exists c. split; [by left|done].
  - intros x Hx Hs. destruct Hs as [y Hy]. apply lookup_delete_Some in Hy. destruct Hy. congruence.
  - intros x (cx & [?|Hx]%elem_of_cons & ?) Hs.
    + simplify_eq. rewrite lookup_delete_eq in Hs. by destruct Hs.
    + exists cx. split; [done|done].
Qed.

(** A cell of another generation is no longer used, but stays. *)
Lemma step_drop h l c R :
  holds h ((l, c) :: R) -> NoDup ((l, c) :: R).*1 -> get_generation c <> g ->
  step h ((l, c) :: R) h R.
Proof.
  intros Hh Hnd Hg. pose proof Hnd as Hnd'. cbn in Hnd. apply NoDup_cons in Hnd as [HlR Hnd].
  split; [done|done| |done| | | |].
  - intros x cx Hx. apply Hh. by right.
  - intros x Hx. left. by right.
  - done.
  - intros x -> [? ?]. done.
  - intros x (cx & [?|Hx]%elem_of_cons & ?) Hs; [by simplify_eq|]. by exists cx.
Qed.
End step.

Arguments step_trans {K V g h C h1 C1 h2 C2} _ _.

(** ** Trees *)

Record entry (K V : Type) := MkEntry { e_loc : positive; e_gen : Z; e_key : K; e_val : V }.
Arguments MkEntry {K V} _ _ _ _.
Arguments e_loc {K V} _.
Arguments e_gen {K V} _.
Arguments e_key {K V} _.
Arguments e_val {K V} _.

Inductive tree (K V : Type) :=
| Chain (es : list (entry K V))
| Node (l : positive) (gn : Z) (bm : Z) (ts : list (tree K V)).
Arguments Chain {K V} _.
Arguments Node {K V} _ _ _ _.

Section tree.
Context {K V : Type}.
Implicit Types (h : heap K V) (e : entry K V) (es : list (entry K V)) (t : tree K V)
  (ts : list (tree K V)).

Definition chain_ptr es : option positive := e_loc <$> head es.
Definition leaf_of e (next : option positive) : cell K V :=
  leaf_cell (-1 - e_gen e) (e_key e) (e_val e) next.
Fixpoint chain_cells es : list (positive * cell K V) :=
  match es with
  | [] => []
  | e :: es => (e_loc e, leaf_of e (chain_ptr es)) :: chain_cells es
  end.

Definition ptr_of t : option positive :=
  match t with Chain es => chain_ptr es | Node l _ _ _ => Some l end.
Definition node_of (gn bm : Z) ts : cell K V := node_cell gn bm (ptr_of <$> ts).
Fixpoint cells_of t : list (positive * cell K V) :=
  match t with
  | Chain es => chain_cells es
  | Node l gn bm ts => (l, node_of gn bm ts) :: mjoin (cells_of <$> ts)
  end.

Definition kv e : K * V := (e_key e, e_val e).
Fixpoint entries t : list (K * V) :=
  match t with Chain es => kv <$> es | Node _ _ _ ts => mjoin (entries <$> ts) end.

(** Generations do not grow on the way down. *)
Fixpoint chain_gens (g : Z) es : Prop :=
  match es with [] => True | e :: es => (0 <= e_gen e <= g)%Z /\ chain_gens (e_gen e) es end.
Fixpoint gens_ok (g : Z) t : Prop :=
  match t with
  | Chain es => chain_gens g es
  | Node _ gn _ ts => (0 <= gn <= g)%Z /\ foldr and True (gens_ok gn <$> ts)
  end.

Lemma leaf_of_generation e next : (0 <= e_gen e)%Z -> get_generation (leaf_of e next) = e_gen e.
Proof. intros. unfold get_generation, leaf_of. simpl. case_match; lia. Qed.
Lemma leaf_of_is_leaf e next : (0 <= e_gen e)%Z -> is_leaf (leaf_of e next) = true.
Proof. intros. unfold is_leaf, leaf_of. simpl. lia. Qed.
Lemma node_of_generation gn bm ts : (0 <= gn)%Z -> get_generation (node_of gn bm ts) = gn.
Proof. intros. unfold get_generation, node_of. simpl. case_match; lia. Qed.
Lemma node_of_is_leaf gn bm ts : (0 <= gn)%Z -> is_leaf (node_of gn bm ts) = false.
Proof. intros. unfold is_leaf, node_of. simpl. lia. Qed.

Lemma foldr_and_Forall (P : tree K V -> Prop) ts : foldr and True (P <$> ts) <-> Forall P ts.
Proof. induction ts as [|t ts IH]; simpl; [by rewrite Forall_nil|]. by rewrite Forall_cons, IH. Qed.

Lemma gens_ok_node g l gn bm ts :
  gens_ok g (Node l gn bm ts) <-> (0 <= gn <= g)%Z /\ Forall (gens_ok gn) ts.
Proof. simpl. by rewrite foldr_and_Forall. Qed.

Lemma chain_gens_mono g g' es : (g <= g')%Z -> chain_gens g es -> chain_gens g' es.
Proof. destruct es; simpl; [done|]. intros ? [? ?]. split; [lia|done]. Qed.
Lemma gens_ok_mono g g' t : (g <= g')%Z -> gens_ok g t -> gens_ok g' t.
Proof.
  destruct t; [apply chain_gens_mono|]. rewrite !gens_ok_node. intros ? [? ?]. split; [lia|done].
Qed.

(** One child of a node, and the others. *)
Lemma mjoin_split {A B} (f : A -> list B) (l : list A) i x :
  l !! i = Some x -> mjoin (f <$> l) ≡ₚ f x ++ mjoin (f <$> delete i l).
Proof.
  revert i. induction l as [|y l IH]; intros i; [done|]. destruct i as [|i]; simpl; [by intros [= ->]|].
  intros Hi. rewrite (IH i Hi). rewrite !(assoc_L (++)). by rewrite (comm (++) (f y)).
Qed.
Lemma delete_insert_same {A} (l : list A) i x : delete i (<[i := x]> l) = delete i l.
Proof. revert i. induction l as [|y l IH]; intros [|i]; simpl; [done..|]. by rewrite IH. Qed.
Lemma mjoin_insert {A B} (f : A -> list B) (l : list A) i x y :
  l !! i = Some x -> mjoin (f <$> <[i := y]> l) ≡ₚ f y ++ mjoin (f <$> delete i l).
Proof.
  intros Hi. rewrite (mjoin_split f (<[i := y]> l) i y).
  - by rewrite delete_insert_same.
  - apply list_lookup_insert_eq. by eapply lookup_lt_Some.
Qed.

Lemma ptr_of_none t : ptr_of t = None <-> t = Chain [].
Proof. destruct t as [[|e es]|]; unfold ptr_of, chain_ptr; simpl; split; congruence. Qed.

Lemma length_chain_cells es : length (chain_cells es) = length es.
Proof. induction es; simpl; auto. Qed.

Lemma holds_size h (C : list (positive * cell K V)) : holds h C -> NoDup C.*1 -> length C <= size h.
Proof.
  intros Hh Hn. assert (Hsub : (list_to_map C : heap K V) ⊆ h).
  { apply map_subseteq_spec. intros l c Hl%elem_of_list_to_map_2. by apply Hh. }
  apply map_subseteq_size in Hsub. by rewrite map_size_list_to_map in Hsub.
Qed.

Lemma chain_cells_app es k : exists D, chain_cells (es ++ k) = D ++ chain_cells k /\ D.*1 = e_loc <$> es.
Proof.
  induction es as [|e es (D & IH & HD)]; [by exists []|]. simpl. rewrite IH. eexists ((e_loc e, _) :: D).
  split; [reflexivity|]. by rewrite fmap_cons, HD.
Qed.
Lemma chain_cells_locs es : (chain_cells es).*1 = e_loc <$> es.
Proof.
  induction es as [|e es IH]; [done|]. cbn [chain_cells]. by rewrite !fmap_cons, IH.
Qed.
End tree.
