(* ===== verification/GenMapNodes.v ===== *)
(** * GenMapNodes: what the operations of a persistent hash map do to its cells;
      what the operations on nodes do to the cells of a map *)

From S2P Require Import Prelude.
From S2P Require Import GenMap.
From S2P Require Import GenMapTree.

Section chains.
Context {K V : Type} `{EqDecision K} (g : Z) (Hg : (0 <= g)%Z).
Implicit Types (h : heap K V) (e : entry K V) (es : list (entry K V)).

Lemma fresh_none h : h !! fresh (dom h) = None.
Proof. apply not_elem_of_dom, is_fresh. Qed.

(** ** Chains of leaves *)

Lemma search_spec h k es fuel :
  holds h (chain_cells es) -> length es < fuel ->
  (exists pre e post, es = pre ++ e :: post /\ e_key e = k /\ (k ∉ (e_key <$> pre)) /\
     search fuel h k (chain_ptr es) = Some (Some (e_loc e))) \/
  ((k ∉ (e_key <$> es)) /\ search fuel h k (chain_ptr es) = Some None).
Proof.
  revert es. induction fuel as [|fuel IH]; intros es Hh Hf; [lia|].
  destruct es as [|e es]; [right; split; [by apply not_elem_of_nil|done]|].
  cbn [search chain_ptr head fmap option_fmap option_map]. 
  rewrite (Hh (e_loc e) (leaf_of e (chain_ptr es))) by (by left).
  cbn [mbind option_bind as_leaf leaf_of]. case_decide as Hk.
  - left. exists [], e, es. split_and!; [done|done|by apply not_elem_of_nil|done].
  - destruct (IH es) as [(pre & e' & post & -> & ? & ? & Es)|[? Es]].
    + intros l c ?. apply Hh. by right.
    + simpl in Hf. lia.
    + left. exists (e :: pre), e', post. split_and!; [done|done| |done].
      rewrite fmap_cons, not_elem_of_cons. by split.
    + right. split; [|done]. rewrite fmap_cons, not_elem_of_cons. by split.
Qed.

(** Changing the rest of a chain behind an own leaf. *)
Lemma step_next h e es h' es' :
  step g h (chain_cells es) h' (chain_cells es') ->
  holds h (chain_cells (e :: es)) -> NoDup (chain_cells (e :: es)).*1 -> e_gen e = g ->
  exists h'', set_next h' (e_loc e) (chain_ptr es') = Some h'' /\
    step g h (chain_cells (e :: es)) h'' (chain_cells (e :: es')).
Proof.
  intros Hs Hh Hn He. set (c := leaf_of e (chain_ptr es)).
  assert (H1 : step g h (chain_cells es ++ [(e_loc e, c)]) h' (chain_cells es' ++ [(e_loc e, c)])).
  { apply step_app; [done| |].
    - intros l x [= -> ->]%list_elem_of_singleton. apply Hh. by left.
    - rewrite <-Permutation_cons_append. done. }
  apply (step_perm g _ _ ((e_loc e, c) :: chain_cells es) _ _ ((e_loc e, c) :: chain_cells es')) in H1;
    [|symmetry; apply Permutation_cons_append..].
  assert (Hc : h' !! e_loc e = Some c) by (apply (st_after _ _ _ _ _ H1); by left).
  eexists. split; [unfold set_next; rewrite Hc; reflexivity|].
  eapply step_trans; [apply H1|]. apply step_write.
  - apply (st_after _ _ _ _ _ H1).
  - apply (st_nodup' _ _ _ _ _ H1).
  - unfold c. rewrite leaf_of_generation; lia.
  - change (leaf_cell (-1 - e_gen e) (e_key e) (e_val e) (chain_ptr es'))
      with (leaf_of e (chain_ptr es')). rewrite leaf_of_generation; lia.
Qed.

Lemma new_leaf_spec h k v es :
  holds h (chain_cells es) -> NoDup (chain_cells es).*1 ->
  exists e h', new_leaf g k v (chain_ptr es) h = (e_loc e, h') /\ e_gen e = g /\ kv e = (k, v) /\
    h' = <[e_loc e := leaf_of e (chain_ptr es)]> h /\ h !! e_loc e = None /\
    step g h (chain_cells es) h' (chain_cells (e :: es)).
Proof.
  intros Hh Hn. exists (MkEntry (fresh (dom h)) g k v). eexists. split; [reflexivity|].
  split_and!; [done..|apply fresh_none|]. apply step_new; [done|done|apply fresh_none|].
  apply (leaf_of_generation (MkEntry (fresh (dom h)) g k v)). done.
Qed.

Lemma uncow_leaf_spec h e es :
  holds h (chain_cells (e :: es)) -> NoDup (chain_cells (e :: es)).*1 ->
  (0 <= e_gen e)%Z -> e_gen e <> g ->
  exists e' h', uncow_leaf g (e_loc e) h = Some (e_loc e', h') /\ e_gen e' = g /\ kv e' = kv e /\
    step g h (chain_cells (e :: es)) h' (chain_cells (e' :: es)).
Proof.
  intros Hh Hn H0 Hne. unfold uncow_leaf. rewrite (Hh (e_loc e) (leaf_of e (chain_ptr es))) by (by left).
  cbn [mbind option_bind as_leaf leaf_of new_leaf].
  exists (MkEntry (fresh (dom h)) g (e_key e) (e_val e)). eexists. split; [reflexivity|].
  split_and!; [done..|]. set (e' := MkEntry (fresh (dom h)) g (e_key e) (e_val e)).
  assert (H1 : step g h (chain_cells (e :: es)) (<[e_loc e' := leaf_of e' (chain_ptr es)]> h)
    ((e_loc e', leaf_of e' (chain_ptr es)) :: chain_cells (e :: es))).
  { apply step_new; [done|done|apply fresh_none|]. by apply leaf_of_generation. }
  eapply step_trans; [apply H1|].
  eapply step_perm; [apply Permutation_swap|reflexivity|]. apply step_drop.
  - intros l c Hl. apply (st_after _ _ _ _ _ H1). simpl. rewrite Permutation_swap. done.
  - pose proof (st_nodup' _ _ _ _ _ H1) as Hn1. simpl in Hn1. by rewrite Permutation_swap in Hn1.
  - by rewrite leaf_of_generation.
Qed.

(** Copies of leaves: own cells with the same keys and values. *)
Definition copied : list (entry K V) -> list (entry K V) -> Prop :=
  Forall2 (fun e e' => kv e' = kv e /\ e_gen e' = g).

Lemma chain_loc_ne h e es e' es' :
  NoDup (chain_cells (e :: es ++ e' :: es')).*1 -> e_loc e <> e_loc e'.
Proof.
  rewrite chain_cells_locs, fmap_cons, fmap_app, fmap_cons.
  intros [H _]%NoDup_cons E. apply H. rewrite E. apply elem_of_app. right. by left.
Qed.

Lemma uncow_chain_spec es e post : forall h fuel,
  holds h (chain_cells (es ++ e :: post)) -> NoDup (chain_cells (es ++ e :: post)).*1 ->
  Forall (fun e => 0 <= e_gen e /\ e_gen e <> g)%Z (es ++ [e]) -> length es < fuel ->
  exists es' e' h', uncow_chain g fuel (e_loc e) (chain_ptr (es ++ e :: post)) h =
      Some (chain_ptr (es' ++ e' :: post), e_loc e', h') /\
    copied es es' /\ kv e' = kv e /\ e_gen e' = g /\
    step g h (chain_cells (es ++ e :: post)) h' (chain_cells (es' ++ e' :: post)).
Proof.
  induction es as [|e0 es IH]; intros h fuel Hh Hn Hgens Hf; (destruct fuel as [|fuel]; [lia|]).
  - apply Forall_singleton in Hgens as [??].
    destruct (uncow_leaf_spec h e post) as (e' & h' & E & ? & ? & Hs); [done..|].
    exists [], e', h'. cbn [uncow_chain app chain_ptr head fmap option_fmap option_map].
    cbn [mbind option_bind]. rewrite E. cbn [mbind option_bind].
    rewrite decide_True by done. split_and!; [done|constructor|done|done|done].
  - apply Forall_cons in Hgens as [[??] Hgens].
    destruct (uncow_leaf_spec h e0 (es ++ e :: post)) as (e0' & h1 & E & ? & ? & Hs); [done..|].
    assert (Hh1 : holds h1 (chain_cells (es ++ e :: post))).
    { intros l c Hl. apply (st_after _ _ _ _ _ Hs). by right. }
    pose proof (st_nodup' _ _ _ _ _ Hs) as Hn1.
    assert (Hn1' : NoDup (chain_cells (es ++ e :: post)).*1) by (by apply NoDup_cons in Hn1 as [_ ?]).
    destruct (IH h1 fuel) as (es' & e' & h2 & E2 & Hcop & ? & ? & Hs2); [done..|simpl in Hf; lia|].
    destruct (step_next h1 e0' (es ++ e :: post) h2 (es' ++ e' :: post)) as (h3 & E3 & Hs3);
      [done|apply (st_after _ _ _ _ _ Hs)|done|done|].
    exists (e0' :: es'), e', h3. cbn [uncow_chain app chain_ptr head fmap option_fmap option_map].
    cbn [mbind option_bind]. rewrite E. cbn [mbind option_bind].
    rewrite decide_False by (by eapply chain_loc_ne).
    rewrite (st_after _ _ _ _ _ Hs (e_loc e0') (leaf_of e0' (chain_ptr (es ++ e :: post)))) by (by left).
    cbn [mbind option_bind as_leaf leaf_of snd]. rewrite E2. cbn [mbind option_bind].
    rewrite E3. cbn [mbind option_bind]. split_and!; [done|by constructor|done|done|].
    by eapply step_trans.
Qed.

Lemma uncow_to_spec own es e post : forall h fuel,
  holds h (chain_cells (own ++ es ++ e :: post)) -> NoDup (chain_cells (own ++ es ++ e :: post)).*1 ->
  Forall (fun e => e_gen e = g) own ->
  Forall (fun e => 0 <= e_gen e /\ e_gen e <> g)%Z (es ++ [e]) -> length own + length es < fuel ->
  exists es' e' h', uncow_to g fuel (e_loc e) (chain_ptr (own ++ es ++ e :: post)) h =
      Some (chain_ptr (own ++ es' ++ e' :: post), e_loc e', h') /\
    copied es es' /\ kv e' = kv e /\ e_gen e' = g /\
    step g h (chain_cells (own ++ es ++ e :: post)) h' (chain_cells (own ++ es' ++ e' :: post)).
Proof.
  induction own as [|e0 own IH]; intros h fuel Hh Hn Hown Hgens Hf; (destruct fuel as [|fuel]; [lia|]).
  - simpl in Hf. destruct (uncow_chain_spec es e post h (S fuel)) as (es' & e' & h' & E & ? & ? & ? & ?);
      [done..|]. exists es', e', h'. split_and!; [|done..].
    assert (exists e1 k, es ++ e :: post = e1 :: k /\ (0 <= e_gen e1)%Z /\ e_gen e1 <> g) as (e1 & k & Ek & ? & ?).
    { destruct es as [|e1 es]; simpl in Hgens |- *; apply Forall_cons in Hgens as [[??] _]; eauto 6. }
    cbn [app] in Hh, Hn, E |- *. rewrite Ek in Hh, E |- *. rewrite <-E.
    cbn [uncow_to chain_ptr head fmap option_fmap option_map mbind option_bind].
    rewrite (Hh (e_loc e1) (leaf_of e1 (chain_ptr k))) by (by left). cbn [mbind option_bind].
    rewrite leaf_of_generation by done. by rewrite decide_False.
  - apply Forall_cons in Hown as [He0 Hown].
    assert (Hh1 : holds h (chain_cells (own ++ es ++ e :: post))).
    { intros l c Hl. apply Hh. by right. }
    assert (Hn1 : NoDup (chain_cells (own ++ es ++ e :: post)).*1) by (by apply NoDup_cons in Hn as [_ ?]).
    destruct (IH h fuel) as (es' & e' & h1 & E & ? & ? & ? & Hs); [done..|simpl in Hf; lia|].
    destruct (step_next h e0 (own ++ es ++ e :: post) h1 (own ++ es' ++ e' :: post)) as (h2 & E2 & Hs2);
      [done..|]. exists es', e', h2. split_and!; [|done..].
    cbn [uncow_to app chain_ptr head fmap option_fmap option_map mbind option_bind].
    rewrite (Hh (e_loc e0) (leaf_of e0 (chain_ptr (own ++ es ++ e :: post)))) by (by left).
    cbn [mbind option_bind]. rewrite leaf_of_generation, decide_True by lia.
    cbn [as_leaf leaf_of mbind option_bind snd]. rewrite E. cbn [mbind option_bind].
    rewrite E2. done.
Qed.
End chains.

(** * What the operations on nodes do to the cells of a map *)

Lemma for_range_total {St} (P : nat -> St -> Prop) (body : nat -> St -> option St) n s st :
  P s st -> (forall i st, s <= i < s + n -> P i st -> exists st', body i st = Some st' /\ P (S i) st') ->
  exists st', for_range n s body st = Some st' /\ P (s + n) st'.
Proof.
  revert s st. induction n as [|n IH]; intros s st Hst Hb.
  - exists st. by rewrite Nat.add_0_r.
  - destruct (Hb s st ltac:(lia) Hst) as (st1 & E & H1). simpl. rewrite E. cbn [mbind option_bind].
    replace (s + S n) with (S s + n) by lia. apply IH; [done|]. intros i st2 Hi. apply Hb. lia.
Qed.

Section nodes.
Context {K V : Type} (junk : option positive) (g : Z) (Hg : (0 <= g)%Z).
Implicit Types (h : heap K V) (t : tree K V) (ts : list (tree K V)) (arr : list (option positive)).

Lemma set_array_spec h l gn bm arr i p : h !! l = Some (node_cell gn bm arr) -> i < length arr ->
  set_array h l i p = Some (<[l := node_cell gn bm (<[i := p]> arr)]> h).
Proof.
  intros Hl Hi. unfold set_array. rewrite Hl. cbn [mbind option_bind]. by rewrite vset_Some.
Qed.
Lemma get_array_spec h l gn bm arr i : h !! l = Some (node_cell gn bm arr) -> get_array h l i = arr !! i.
Proof. intros Hl. unfold get_array. by rewrite Hl. Qed.

(** The loops that fill an array: [l'] is written at [idx j] from [src j]. *)
Lemma copy_loop h src gs bs from gn bm l arr n :
  h !! src = Some (node_cell gs bs from) -> l <> src -> n <= length from -> n <= length arr ->
  for_range n 0 (fun i h => p ← get_array h src i; set_array h l i p) (<[l := node_cell gn bm arr]> h)
    = Some (<[l := node_cell gn bm (take n from ++ drop n arr)]> h).
Proof.
  intros Hs Hne Hn1 Hn2.
  destruct (for_range_total (fun j h' => h' = <[l := node_cell gn bm (take j from ++ drop j arr)]> h)
    (fun i h => p ← get_array h src i; set_array h l i p) n 0 (<[l := node_cell gn bm arr]> h))
    as (h' & -> & ->); [done| |done].
  intros i h' Hi ->. rewrite (get_array_spec _ src gs bs from) by by rewrite lookup_insert_ne.
  destruct (lookup_lt_exists from i) as [p Hp]; [lia|]. rewrite Hp. cbn [mbind option_bind].
  rewrite (set_array_spec _ l gn bm (take i from ++ drop i arr));
    [|by rewrite lookup_insert_eq|rewrite length_app, length_take, length_drop; lia].
  eexists. split; [done|]. rewrite insert_insert_eq. f_equal. f_equal.
  destruct (lookup_lt_exists arr i) as [q Hq]; [lia|].
  rewrite (drop_cons _ _ _ Hq), (take_snoc _ _ _ Hp), <-(assoc_L (++)). simpl.
  replace i with (length (take i from)) at 1 by (rewrite length_take; lia).
  apply insert_app_mid.
Qed.

(** Making room at [pos] in an array whose first elements are those of [from]:
    the source is the same array, or one that is not written. *)
Lemma shift_loop h src gs bs from gn bm l arr pos :
  (l = src /\ gs = gn /\ bs = bm /\ exists x, arr = from ++ [x]) \/
  (l <> src /\ h !! src = Some (node_cell gs bs from) /\ take pos arr = take pos from) ->
  length arr = length from + 1 -> pos <= length from ->
  exists y, for_range (length from + 1 - 1 - pos) 0 (fun j h =>
      p ← get_array h src (length from + 1 - 1 - j - 1);
      set_array h l (length from + 1 - 1 - j) p)
      (<[l := node_cell gn bm arr]> h)
    = Some (<[l := node_cell gn bm (take pos from ++ y :: drop pos from)]> h).
Proof.
  intros Hsrc Hlen Hpos. set (n := length from) in *.
  destruct (for_range_total (fun j h' =>
      h' = <[l := node_cell gn bm (take (n + 1 - j) arr ++ drop (n - j) from)]> h)
    (fun j h => p ← get_array h src (n + 1 - 1 - j - 1); set_array h l (n + 1 - 1 - j) p)
    (n + 1 - 1 - pos) 0 (<[l := node_cell gn bm arr]> h)) as (h' & -> & ->).
  - rewrite Nat.sub_0_r, take_ge, drop_ge, app_nil_r by (rewrite ?Hlen; unfold n; lia). done.
  - intros j h' Hj ->. simpl. set (i := n + 1 - 1 - j). set (a := take (n + 1 - j) arr ++ drop (n - j) from).
    assert (Hla : length a = n + 1).
    { unfold a. rewrite length_app, length_take, length_drop, Hlen. unfold n in *. lia. }
    destruct (lookup_lt_exists from (i - 1)) as [p Hp]; [unfold i, n in *; lia|].
    assert (Hget : get_array (<[l := node_cell gn bm a]> h) src (i - 1) = Some p).
    { destruct Hsrc as [(-> & -> & -> & x & ->)|(Hne & Hs & _)].
      - rewrite (get_array_spec _ src gn bm a) by by rewrite lookup_insert_eq. unfold a.
        rewrite lookup_app_l by (rewrite length_take, length_app; simpl; unfold i, n in *; lia).
        rewrite lookup_take_lt by (unfold i, n in *; lia).
        rewrite lookup_app_l by (unfold i, n in *; lia). done.
      - by rewrite (get_array_spec _ src gs bs from) by by rewrite lookup_insert_ne. }
    rewrite Hget. cbn [mbind option_bind].
    rewrite (set_array_spec _ l gn bm a); [|by rewrite lookup_insert_eq|unfold i in *; lia].
    eexists. split; [done|]. rewrite insert_insert_eq. f_equal. f_equal. unfold a.
    destruct (lookup_lt_exists arr i) as [q Hq]; [unfold i, n in *; lia|].
    replace (n + 1 - j) with (S i) by (unfold i in *; lia).
    rewrite (take_snoc _ _ _ Hq), <-(assoc_L (++)). cbn [app].
    replace (n + 1 - S j) with i by (unfold i in *; lia).
    replace (n - j) with i by (unfold i in *; lia).
    replace (n - S j) with (i - 1) by (unfold i in *; lia).
    rewrite (drop_cons _ _ _ Hp). replace (S (i - 1)) with i by (unfold i, n in *; lia).
    replace i with (length (take i arr)) at 1 by (rewrite length_take; unfold i, n in *; lia).
    apply insert_app_mid.
  - rewrite Nat.add_0_l. replace (n + 1 - (n + 1 - 1 - pos)) with (S pos) by lia.
    replace (n - (n + 1 - 1 - pos)) with pos by lia.
    destruct (lookup_lt_exists arr pos) as [y Hy]; [unfold n in *; lia|].
    exists y. rewrite (take_snoc _ _ _ Hy), <-(assoc_L (++)). simpl. do 3 f_equal.
    destruct Hsrc as [(_ & _ & _ & x & ->)|(_ & _ & ->)]; [|done].
    rewrite take_app_le; [done|unfold n in *; lia].
Qed.

Lemma uncow_node_spec h l gn bm arr :
  h !! l = Some (node_cell gn bm arr) -> length arr = popcount bm -> arr <> [] ->
  uncow_node junk g l h = Some (fresh (dom h), <[fresh (dom h) := node_cell g bm arr]> h).
Proof.
  intros Hl Hlen Hne. unfold uncow_node. rewrite Hl. cbn [mbind option_bind as_node fst].
  assert (0 < popcount bm) by (rewrite <-Hlen; destruct arr; simpl; [done|lia]).
  unfold alloc_node. rewrite !bool_decide_true by (done || lia). cbn [cassert mbind option_bind].
  assert (fresh (dom h) <> l) by (intros E; pose proof (fresh_none h) as F; rewrite E in F; congruence).
  rewrite (copy_loop h l gn bm arr) by (rewrite ?length_replicate; done || lia).
  cbn [mbind option_bind]. by rewrite take_ge, drop_ge, app_nil_r by (rewrite ?length_replicate; lia).
Qed.

Lemma grow_node_spec h l gn bm arr i :
  h !! l = Some (node_cell gn bm arr) -> (0 <= gn)%Z -> length arr = popcount bm ->
  (0 <= bm < 2 ^ 32)%Z -> (0 <= i < 32)%Z -> Z.testbit bm i = false ->
  let n := fresh (dom h) in let pos := popcount (Z.shiftr bm i) in
  grow_node junk g l i h = Some (n, pos,
    <[n := node_cell g (Z.lor bm (Z.shiftl 1 i)) (take pos arr ++ None :: drop pos arr)]>
      (if decide (gn = g) then delete l h else h)).
Proof.
  intros Hl Hgn Hlen Hbm Hi Hbit n pos. unfold grow_node. rewrite Hl.
  cbn [mbind option_bind as_node fst].
  destruct (indices_add bm i Hbm Hi Hbit) as (Hadd & Hpos & _). fold pos in Hadd, Hpos |- *.
  rewrite <-popcount_indices in Hpos. rewrite <-Hlen in Hpos |- *.
  set (bm' := Z.lor bm (Z.shiftl 1 i)) in *.
  assert (Hbm' : popcount bm' = length arr + 1).
  { rewrite popcount_indices, Hadd, length_app. simpl.
    rewrite length_take, length_drop, <-popcount_indices. lia. }
  assert (Hgc : get_generation (node_cell gn bm arr : cell K V) = gn).
  { unfold get_generation. simpl. case_match; lia. }
  assert (Hnl : n <> l) by (intros E; pose proof (fresh_none h) as F; unfold n in E; rewrite E in F; congruence).
  assert (Hfin : forall h1 y, (set_array (<[n := node_cell g bm' (take pos arr ++ y :: drop pos arr)]> h1)
      n pos None ≫= (fun h => Some (n, pos, h)))
    = Some (n, pos, <[n := node_cell g bm' (take pos arr ++ None :: drop pos arr)]> h1)).
  { intros h1 y. rewrite (set_array_spec _ n g bm' (take pos arr ++ y :: drop pos arr));
      [|by rewrite lookup_insert_eq|rewrite length_app, length_take; simpl; lia].
    cbn [mbind option_bind]. rewrite insert_insert_eq.
    replace pos with (length (take pos arr)) at 2 by (rewrite length_take; lia).
    by rewrite insert_app_mid. }
  rewrite Hgc. case_decide as Hown.
  - unfold realloc_node. rewrite Hl. cbn [mbind option_bind as_node fst snd cell_generation].
    fold n. rewrite take_ge by lia. replace (length arr + 1 - length arr) with 1 by lia. subst gn.
    destruct (shift_loop (delete l h) n g bm' arr g bm' n (arr ++ replicate 1 junk) pos) as (y & ->);
      [left; split_and!; [done..|by exists junk]|by rewrite length_app|lia|].
    cbn [mbind option_bind]. apply Hfin.
  - unfold alloc_node. rewrite !bool_decide_true by lia. cbn [cassert mbind option_bind]. fold n.
    rewrite (copy_loop h l gn bm arr) by (rewrite ?length_replicate; done || lia).
    cbn [mbind option_bind].
    destruct (shift_loop h l gn bm arr g bm' n (take pos arr ++ drop pos (replicate (length arr + 1) junk)) pos)
      as (y & ->).
    + right. split_and!; [done|done|]. by rewrite take_app_length' by (rewrite length_take; lia).
    + rewrite length_app, length_take, length_drop, length_replicate. lia.
    + lia.
    + cbn [mbind option_bind]. apply Hfin.
Qed.

(** ** Steps *)

Lemma holds_node h l gn bm ts : holds h (cells_of (Node l gn bm ts)) ->
  h !! l = Some (node_cell gn bm (ptr_of <$> ts)).
Proof. intros Hh. apply Hh. by left. Qed.

(** Changing a child of an own node. *)
Lemma step_child h l bm ts i s h' s' :
  step g h (cells_of s) h' (cells_of s') -> ts !! i = Some s ->
  holds h (cells_of (Node l g bm ts)) -> NoDup (cells_of (Node l g bm ts)).*1 ->
  exists h'', set_array h' l i (ptr_of s') = Some h'' /\
    step g h (cells_of (Node l g bm ts)) h'' (cells_of (Node l g bm (<[i := s']> ts))).
Proof.
  intros Hs Hi Hh Hn. set (c := node_of g bm ts).
  set (R := (l, c) :: mjoin (cells_of <$> delete i ts)).
  assert (HP : cells_of (Node l g bm ts) ≡ₚ cells_of s ++ R).
  { unfold R. rewrite <-Permutation_middle. simpl. apply Permutation_skip. by apply mjoin_split. }
  assert (H1 : step g h (cells_of s ++ R) h' (cells_of s' ++ R)).
  { apply step_app; [done| |by rewrite <-HP].
    intros x cx Hx. apply Hh. rewrite HP. apply elem_of_app. by right. }
  eapply (step_perm g _ _ (cells_of (Node l g bm ts)) _ _
    ((l, c) :: cells_of s' ++ mjoin (cells_of <$> delete i ts))) in H1;
    [|by symmetry|unfold R; by rewrite <-Permutation_middle].
  assert (Hc : h' !! l = Some c) by (apply (st_after _ _ _ _ _ H1); by left).
  rewrite (set_array_spec _ l g bm (ptr_of <$> ts));
    [|done|rewrite length_fmap; by eapply lookup_lt_Some].
  eexists. split; [done|]. eapply step_trans; [apply H1|].
  rewrite <-list_fmap_insert. fold (node_of g bm (<[i := s']> ts)).
  eapply step_perm; [reflexivity| |apply step_write].
  - simpl. apply Permutation_skip. symmetry. by apply mjoin_insert with s.
  - apply (st_after _ _ _ _ _ H1).
  - apply (st_nodup' _ _ _ _ _ H1).
  - unfold c. by rewrite node_of_generation.
  - by rewrite node_of_generation.
Qed.

(** A new node in place of the children [ts]. *)
Lemma step_new_node h l bm ts :
  holds h (mjoin (cells_of <$> ts)) -> NoDup (mjoin (cells_of <$> ts)).*1 -> h !! l = None ->
  step g h (mjoin (cells_of <$> ts)) (<[l := node_of g bm ts]> h) (cells_of (Node l g bm ts)).
Proof. intros. apply step_new; [done..|]. by apply node_of_generation. Qed.

Lemma node_children h l gn bm ts : holds h (cells_of (Node l gn bm ts)) ->
  NoDup (cells_of (Node l gn bm ts)).*1 ->
  holds h (mjoin (cells_of <$> ts)) /\ NoDup (mjoin (cells_of <$> ts)).*1.
Proof.
  intros Hh Hn. split; [intros x c Hx; apply Hh; by right|]. cbn in Hn. by apply NoDup_cons in Hn as [_ ?].
Qed.

Lemma node_child h l gn bm ts i s : holds h (cells_of (Node l gn bm ts)) ->
  NoDup (cells_of (Node l gn bm ts)).*1 -> ts !! i = Some s ->
  holds h (cells_of s) /\ NoDup (cells_of s).*1.
Proof.
  intros Hh Hn Hi. destruct (node_children h l gn bm ts Hh Hn) as [Hc Hcn].
  pose proof (mjoin_split cells_of ts i s Hi) as HP. split.
  - intros x c Hx. apply Hc. rewrite HP. apply elem_of_app. by left.
  - rewrite HP, fmap_app, NoDup_app in Hcn. by destruct Hcn.
Qed.

(** A node of another generation is replaced by an own one with the same cells
    below; a node of the own generation is moved. *)
Lemma step_replace h l gn bm ts n bm' ts' :
  holds h (cells_of (Node l gn bm ts)) -> NoDup (cells_of (Node l gn bm ts)).*1 -> (0 <= gn)%Z ->
  mjoin (cells_of <$> ts') ≡ₚ mjoin (cells_of <$> ts) -> h !! n = None ->
  step g h (cells_of (Node l gn bm ts))
    (<[n := node_of g bm' ts']> (if decide (gn = g) then delete l h else h)) (cells_of (Node n g bm' ts')).
Proof.
  intros Hh Hn Hgn HP Hfree. destruct (node_children h l gn bm ts Hh Hn) as [Hc Hcn].
  assert (H1 : step g h (cells_of (Node l gn bm ts)) (if decide (gn = g) then delete l h else h)
    (mjoin (cells_of <$> ts))).
  { case_decide; [apply step_free|apply step_drop]; try done; rewrite node_of_generation; done. }
  eapply step_trans; [apply H1|].
  eapply step_perm; [apply HP|reflexivity|apply step_new_node].
  - intros x c. rewrite HP. apply (st_after _ _ _ _ _ H1).
  - rewrite HP. apply (st_nodup' _ _ _ _ _ H1).
  - case_decide; [|done]. rewrite lookup_delete_None. by right.
Qed.
End nodes.
