(* ===== verification/GenMapMut.v ===== *)
(** * GenMapMut: the search structure of a persistent hash map, and [mut] *)

From S2P Require Import Prelude.
From S2P Require Import GenMap.
From S2P Require Import GenMapTree.
From S2P Require Import GenMapNodes.

Section wf.
Context {K V : Type} (hash_key : K -> Z).
Implicit Types (t : tree K V) (es : list (entry K V)) (ts : list (tree K V)) (k : K) (n d : nat).

Definition keys t : list K := (entries t).*1.

(** What is left of the hash of [k] after [d] levels. *)
Definition rest (d : nat) k : Z := (hash_key k / 32 ^ Z.of_nat d)%Z.
Definition digit (d : nat) k : Z := (rest d k mod 32)%Z.

(** [n] more levels below: the keys of a chain have one hash, those of a node are
    below the child of their digit, and a node has keys of different hashes. *)
Fixpoint wf_tree n t : Prop :=
  match t with
  | Chain es => NoDup (e_key <$> es) /\
      forall e1 e2, e1 ∈ es -> e2 ∈ es -> hash_key (e_key e1) = hash_key (e_key e2)
  | Node _ _ bm ts =>
    match n with
    | 0 => False
    | S n =>
      (0 <= bm < 2 ^ 32)%Z /\
      (exists k1 k2, k1 ∈ keys t /\ k2 ∈ keys t /\ hash_key k1 <> hash_key k2) /\
      Forall2 (fun i s => wf_tree n s /\ entries s <> [] /\
                 forall k, k ∈ keys s -> digit (levels - S n) k = i) (indices bm) ts
    end
  end.

Lemma rest_S d k : rest (S d) k = (rest d k / 32)%Z.
Proof.
  unfold rest. rewrite Z.div_div by lia. f_equal. rewrite Nat2Z.inj_succ, Z.pow_succ_r by lia. lia.
Qed.
Lemma digit_range d k : (0 <= digit d k < 32)%Z.
Proof. apply Z.mod_pos_bound. lia. Qed.

(** The low [d] digits. *)
Definition prefix (d : nat) k : Z := (hash_key k mod 32 ^ Z.of_nat d)%Z.

Lemma prefix_S d k : prefix (S d) k = (prefix d k + 32 ^ Z.of_nat d * digit d k)%Z.
Proof.
  unfold prefix, digit, rest. rewrite Nat2Z.inj_succ, Z.pow_succ_r, Z.mul_comm by lia.
  by rewrite Z.rem_mul_r by lia.
Qed.

Lemma hash_split d k k' : prefix d k = prefix d k' -> rest d k = rest d k' -> hash_key k = hash_key k'.
Proof.
  unfold prefix, rest. intros Hp Hr.
  rewrite (Z.div_mod (hash_key k) (32 ^ Z.of_nat d)), (Z.div_mod (hash_key k') (32 ^ Z.of_nat d)) by lia.
  by rewrite Hp, Hr.
Qed.

Lemma elem_of_keys_node l gn bm ts k :
  k ∈ keys (Node l gn bm ts) <-> exists s, s ∈ ts /\ k ∈ keys s.
Proof.
  unfold keys. simpl. rewrite list_elem_of_fmap. split.
  - intros ([k' v] & -> & (x & Hx & (s & -> & Hs)%list_elem_of_fmap)%list_elem_of_join).
    exists s. split; [done|]. apply list_elem_of_fmap. by exists (k', v).
  - intros (s & Hs & ([k' v] & -> & Hkv)%list_elem_of_fmap). exists (k', v). split; [done|].
    apply list_elem_of_join. exists (entries s). split; [done|]. apply list_elem_of_fmap. by exists s.
Qed.

Lemma keys_chain es : keys (Chain es) = e_key <$> es.
Proof. unfold keys. simpl. by rewrite <-list_fmap_compose. Qed.

Lemma wf_child n l gn bm ts i j s : wf_tree (S n) (Node l gn bm ts) -> indices bm !! j = Some i ->
  ts !! j = Some s -> wf_tree n s /\ entries s <> [] /\
    forall k, k ∈ keys s -> digit (levels - S n) k = i.
Proof. intros (_ & _ & HF) Hi Hs. by apply (Forall2_lookup_lr _ _ _ _ _ _ HF Hi Hs). Qed.

Lemma wf_length n l gn bm ts : wf_tree (S n) (Node l gn bm ts) -> length ts = popcount bm.
Proof. intros (_ & _ & HF). rewrite popcount_indices. symmetry. by eapply Forall2_length. Qed.

Lemma wf_nonempty n l gn bm ts : wf_tree (S n) (Node l gn bm ts) -> ts <> [].
Proof. intros (_ & (k & _ & Hk & _) & _) ->. apply elem_of_keys_node in Hk as (s & []%not_elem_of_nil & _). Qed.

(** The key whose digit has no child is not in the node. *)
Lemma wf_absent n l gn bm ts k : wf_tree (S n) (Node l gn bm ts) ->
  Z.testbit bm (digit (levels - S n) k) = false -> k ∉ keys (Node l gn bm ts).
Proof.
  intros Hwf Hb (s & [j Hj]%list_elem_of_lookup & Hk)%elem_of_keys_node.
  pose proof Hwf as (_ & _ & HF). destruct (Forall2_lookup_r _ _ _ _ _ HF Hj) as (i & Hi & _ & _ & Hd).
  apply list_elem_of_lookup_2, elem_of_indices in Hi as [_ Hi]. rewrite Hd in Hb by done. congruence.
Qed.

Lemma wf_other n l gn bm ts k j : wf_tree (S n) (Node l gn bm ts) ->
  indices bm !! j = Some (digit (levels - S n) k) ->
  k ∈ keys (Node l gn bm ts) <-> exists s, ts !! j = Some s /\ k ∈ keys s.
Proof.
  intros Hwf Hj. rewrite elem_of_keys_node. split.
  - intros (s & [j' Hj']%list_elem_of_lookup & Hk). pose proof Hwf as (_ & _ & HF).
    destruct (Forall2_lookup_r _ _ _ _ _ HF Hj') as (i & Hi & _ & _ & Hd).
    rewrite Hd in Hj by done. assert (j' = j) as ->; [|by exists s].
    assert (Hn : NoDup (indices bm)).
    { unfold indices, bits. rewrite reverse_Permutation. apply NoDup_filter, NoDup_seqZ. }
    by eapply NoDup_lookup.
  - intros (s & Hs & Hk). exists s. split; [by eapply list_elem_of_lookup_2|done].
Qed.
End wf.

(** ** [mut] *)

Section mut.
Context {K V : Type} `{EqDecision K} (hash_key : K -> Z) (init : V) (junk : option positive).
Context (Hhash : forall k, (0 <= hash_key k < 2 ^ 64)%Z).
Context (g : Z) (Hg : (0 <= g)%Z).
Implicit Types (h : heap K V) (t : tree K V) (es : list (entry K V)) (ts : list (tree K V))
  (k : K) (n d : nat).

(** What [mut] makes of a subtree with [n] levels below it. *)
Record changed n k t h t' (l : positive) (grown : bool) h' : Prop := {
  ch_step : step g h (cells_of t) h' (cells_of t');
  ch_wf : wf_tree hash_key n t';
  ch_gens : gens_ok g t';
  ch_entries : if grown then (k ∉ keys t) /\ entries t' ≡ₚ (k, init) :: entries t
               else k ∈ keys t /\ entries t' = entries t;
  ch_leaf : exists v next, (l, leaf_cell (-1 - g) k v next) ∈ cells_of t';
}.

Lemma rest_range d k : d <= levels -> (0 <= rest hash_key d k < 32 ^ Z.of_nat (levels - d))%Z.
Proof.
  intros Hd. unfold rest. pose proof (Hhash k). split.
  - apply Z.div_pos; lia.
  - apply Z.div_lt_upper_bound; [lia|]. rewrite <-Z.pow_add_r by lia.
    replace (Z.of_nat d + Z.of_nat (levels - d))%Z with 13%Z by (unfold levels in *; lia). lia.
Qed.

Lemma rest_end k : rest hash_key levels k = 0%Z.
Proof. pose proof (rest_range levels k ltac:(lia)) as H. rewrite Nat.sub_diag in H. simpl in H. lia. Qed.

Lemma hash_ne_rest d k k' : rest hash_key d k <> rest hash_key d k' -> hash_key k <> hash_key k'.
Proof. intros H E. apply H. unfold rest. by rewrite E. Qed.

Lemma new_child_wf n e : wf_tree hash_key n (Chain [e] : tree K V).
Proof.
  destruct n; (split; [apply NoDup_singleton|]);
    by intros e1 e2 ->%list_elem_of_singleton ->%list_elem_of_singleton.
Qed.

(** The last node of [split]: the new leaf next to the existing ones. *)
Lemma split_last n d k f (t : tree K V) h :
  S n + d = levels -> digit hash_key d f <> digit hash_key d k ->
  (forall k', k' ∈ keys t -> hash_key k' = hash_key f) -> f ∈ keys t ->
  wf_tree hash_key n t -> gens_ok g t -> holds h (cells_of t) -> NoDup (cells_of t).*1 ->
  let i := digit hash_key d f in let j := digit hash_key d k in
  let bm := Z.lor (Z.shiftl 1 i) (Z.shiftl 1 j) in
  let pe := if decide (i < j)%Z then 1 else 0 in
  let pn := if decide (j < i)%Z then 1 else 0 in
  let l := fresh (dom h) in
  let ts := <[pe := t]> (<[pn := Chain []]> [Chain []; Chain []]) in
  exists e h' h'',
    new_leaf g k init None (<[l := node_of g bm ts]> h) = (e_loc e, h') /\
    set_array h' l pn (Some (e_loc e)) = Some h'' /\
    changed (S n) k t h (Node l g bm (<[pn := Chain [e]]> ts)) (e_loc e) true h''.
Proof.
  intros Hd Hij Hsame Hf Hwf Hgens Hh Hn i j bm pe pn l ts.
  pose proof (digit_range hash_key d f) as Hi. pose proof (digit_range hash_key d k) as Hj.
  fold i in Hi, Hij. fold j in Hj, Hij.
  destruct (indices_pair i j Hi Hj) as [Hbm Hind]. fold bm in Hbm, Hind.
  rewrite decide_False in Hind by done.
  assert (Hpn : ts !! pn = Some (Chain []) /\ mjoin (cells_of <$> ts) = cells_of t /\
    Forall (gens_ok g) ts /\ forall s : tree K V, entries s <> [] ->
      mjoin (entries <$> <[pn := s]> ts) ≡ₚ entries s ++ entries t /\
      Forall (gens_ok g) (<[pn := t]> ts) /\
      (forall P : Z -> tree K V -> Prop, P i t -> P j s -> Forall2 P (indices bm) (<[pn := s]> ts)) /\
      forall P : tree K V -> Prop, P t -> P s -> Forall P (<[pn := s]> ts)).
  { unfold ts, pe, pn. rewrite Hind. destruct (decide (i < j)%Z); destruct (decide (j < i)%Z);
      try lia; simpl; rewrite ?app_nil_r;
      (split_and!; [done|done|by repeat constructor|]); intros s Hs; rewrite ?app_nil_r;
      (split_and!; [|by repeat constructor|by repeat constructor|by repeat constructor]); try done.
    apply Permutation_app_comm. }
  destruct Hpn as (Hpn & Hcells & Hgts & Hins).
  assert (Hfree : h !! l = None) by apply fresh_none.
  assert (H1 : step g h (cells_of t) (<[l := node_of g bm ts]> h) (cells_of (Node l g bm ts))).
  { rewrite <-Hcells. apply step_new_node; [done|by rewrite Hcells|by rewrite Hcells|done]. }
  destruct (new_leaf_spec g Hg (<[l := node_of g bm ts]> h) k init []) as
    (e & h' & E & He & Hkv & Hh' & Hfree' & Hs); [by intros ? ? ?%not_elem_of_nil|by constructor|].
  destruct (step_child g Hg (<[l := node_of g bm ts]> h) l bm ts pn (Chain []) h' (Chain [e])) as (h'' & E' & Hs');
    [done|done|apply (st_after _ _ _ _ _ H1)|apply (st_nodup' _ _ _ _ _ H1)|].
  exists e, h', h''. split_and!; [done|done|].
  destruct (Hins (Chain [e]) ltac:(done)) as (Hent & _ & HF & Hall).
  assert (Hone : entries (Chain [e]) = [(k, init)]) by (rewrite <-Hkv; done).
  assert (Hkf : hash_key k <> hash_key f).
  { intros Eh. apply Hij. unfold i, j, digit, rest. by rewrite Eh. }
  assert (Hkeys : keys (Node l g bm (<[pn := Chain [e]]> ts)) ≡ₚ k :: keys t).
  { unfold keys. cbn [entries]. rewrite Hent, Hone. done. }
  split.
  - by eapply step_trans.
  - cbn [wf_tree]. split_and!; [lia|lia| |].
    + exists k, f. rewrite Hkeys. split_and!; [by left|by right|done].
    + replace (levels - S n) with d by lia. apply HF.
      * split_and!; [done| |].
        -- intros Hnil. unfold keys in Hf. rewrite Hnil in Hf. by apply not_elem_of_nil in Hf.
        -- intros k' Hk'. unfold digit, i, digit, rest. by rewrite (Hsame k').
      * split_and!; [apply new_child_wf|done|].
        intros k'. unfold keys. rewrite Hone. by intros ->%list_elem_of_singleton.
  - apply gens_ok_node. split; [lia|]. apply Hall; [done|]. simpl. lia.
  - split; [|cbn [entries]; by rewrite Hent, Hone]. intros Hk. by apply Hsame in Hk.
  - exists init, None. pose proof Hkv as Hkv'. unfold kv in Hkv'. injection Hkv' as Hk Hv.
    cbn [cells_of]. right. rewrite (mjoin_insert _ ts pn (Chain []) _ Hpn).
    apply elem_of_app. left. rewrite <-Hk, <-Hv, <-He. left.
Qed.

(** ** [split] *)

Lemma position_lt (P : Prop) `{Decision P} : (if decide P then 1 else 0) < 2.
Proof. case_decide; lia. Qed.

Lemma same_digit_wf n d k f (t t' : tree K V) l bm :
  S n + d = levels -> indices bm = [digit hash_key d f] -> (0 <= bm < 2 ^ 32)%Z ->
  digit hash_key d f = digit hash_key d k -> hash_key f <> hash_key k ->
  (forall k', k' ∈ keys t -> hash_key k' = hash_key f) -> f ∈ keys t ->
  wf_tree hash_key n t' -> entries t' ≡ₚ (k, init) :: entries t ->
  wf_tree hash_key (S n) (Node l g bm [t']).
Proof.
  intros Hd Hind Hbm Hdig Hne Hsame Hf Hwf Hent.
  assert (Hkeys : keys t' ≡ₚ k :: keys t) by (unfold keys; by rewrite Hent).
  cbn [wf_tree]. split_and!; [lia|lia| |].
  - exists f, k. rewrite !elem_of_keys_node. split_and!; [| |done]; exists t';
      rewrite Hkeys; (split; [by left|]); [by right|by left].
  - rewrite Hind. constructor; [|constructor]. split_and!; [done| |].
    + intros Hnil. rewrite Hnil in Hent. by apply Permutation_nil_cons in Hent.
    + replace (levels - S n) with d by lia. intros k'. rewrite Hkeys.
      intros [->|Hk']%elem_of_cons; [done|]. unfold digit, rest. by rewrite (Hsame k').
Qed.

Lemma split_spec n : forall d fuel k f (t : tree K V) h,
  n + d = levels -> n <= fuel -> rest hash_key d f <> rest hash_key d k ->
  (forall k', k' ∈ keys t -> hash_key k' = hash_key f) -> f ∈ keys t ->
  (forall n, wf_tree hash_key n t) -> gens_ok g t -> holds h (cells_of t) -> NoDup (cells_of t).*1 ->
  exists t' l h', split init junk g fuel k (rest hash_key d k) (rest hash_key d f) (ptr_of t) h =
      Some (ptr_of t', l, h') /\ changed n k t h t' l true h'.
Proof.
  induction n as [|n IH]; intros d fuel k f t h Hd Hfuel Hne Hsame Hf Hwf Hgens Hh Hn.
  { exfalso. apply Hne. replace d with levels by lia. by rewrite !rest_end. }
  destruct fuel as [|fuel]; [lia|]. cbn [split]. change arity with 32%Z.
  fold (digit hash_key d f). fold (digit hash_key d k).
  pose proof (digit_range hash_key d f) as Hi. pose proof (digit_range hash_key d k) as Hj.
  destruct (indices_pair _ _ Hi Hj) as [Hbm Hind].
  unfold alloc_node. rewrite popcount_indices, Hind.
  destruct (decide (digit hash_key d f = digit hash_key d k)) as [Hdig|Hdig].
  - (* one child: the nodes below tell the keys apart *)
    rewrite !bool_decide_true by (done || lia). cbn [cassert mbind option_bind].
    rewrite !decide_False by lia. set (l := fresh (dom h)).
    set (bm := Z.lor _ _) in *.
    assert (Hfree : h !! l = None) by apply fresh_none.
    rewrite (set_array_spec _ l g bm [junk]) by (rewrite ?lookup_insert_eq; done || (simpl; lia)).
    cbn [mbind option_bind]. rewrite insert_insert_eq.
    rewrite (set_array_spec _ l g bm [None]) by (rewrite ?lookup_insert_eq; done || (simpl; lia)).
    cbn [mbind option_bind]. rewrite insert_insert_eq.
    rewrite (get_array_spec _ l g bm [ptr_of t]) by by rewrite lookup_insert_eq.
    cbn [mbind option_bind]. change (list_lookup 0 [ptr_of t]) with (Some (ptr_of t)).
    cbn [list_insert insert lookup list_lookup mbind option_bind].
    rewrite decide_False by tauto. rewrite <-!rest_S.
    change (node_cell g bm [ptr_of t]) with (node_of g bm [t]).
    assert (Hc1 : mjoin (cells_of <$> [t]) = cells_of t) by (simpl; by rewrite app_nil_r).
    assert (H1 : step g h (cells_of t) (<[l := node_of g bm [t]]> h) (cells_of (Node l g bm [t]))).
    { rewrite <-Hc1. apply step_new_node; [done|by rewrite Hc1|by rewrite Hc1|done]. }
    destruct (node_child _ l g bm [t] 0 t (st_after _ _ _ _ _ H1) (st_nodup' _ _ _ _ _ H1) eq_refl)
      as [Hh1 Hn1].
    destruct (IH (S d) fuel k f t (<[l := node_of g bm [t]]> h)) as (t' & leaf & h' & E & Hch);
      [lia|lia| |done..|].
    { intros Er. apply Hne. rewrite !rest_S in Er. unfold digit in Hdig.
      rewrite (Z.div_mod (rest hash_key d f) 32), (Z.div_mod (rest hash_key d k) 32) by lia. congruence. }
    rewrite E. cbn [mbind option_bind].
    destruct (step_child g Hg (<[l := node_of g bm [t]]> h) l bm [t] 0 t h' t') as (h'' & E' & Hs');
      [apply (ch_step _ _ _ _ _ _ _ _ Hch)|done|apply (st_after _ _ _ _ _ H1)|apply (st_nodup' _ _ _ _ _ H1)|].
    rewrite E'. cbn [mbind option_bind]. exists (Node l g bm [t']), leaf, h''. split; [done|].
    pose proof (ch_entries _ _ _ _ _ _ _ _ Hch) as [Hk Hent]. split.
    + by eapply step_trans.
    + eapply same_digit_wf; try done; [by eapply hash_ne_rest|apply (ch_wf _ _ _ _ _ _ _ _ Hch)].
    + apply gens_ok_node. split; [lia|]. constructor; [|done]. apply (ch_gens _ _ _ _ _ _ _ _ Hch).
    + split; [done|]. simpl. by rewrite app_nil_r.
    + destruct (ch_leaf _ _ _ _ _ _ _ _ Hch) as (v & next & Hl). exists v, next.
      cbn [cells_of]. right. simpl. by rewrite app_nil_r.
  - (* two children *)
    destruct (split_last n d k f t h) as (e & h' & h'' & E & E' & Hch); [done..|].
    set (l := fresh (dom h)) in *. set (bm := Z.lor _ _) in *.
    set (pn := if decide (digit hash_key d k < digit hash_key d f)%Z then 1 else 0) in *.
    set (pe := if decide (digit hash_key d f < digit hash_key d k)%Z then 1 else 0) in *.
    assert (pn < 2) by apply position_lt.
    assert (pe < 2) by apply position_lt.
    rewrite !bool_decide_true by (destruct (decide (_ < _)%Z); done || (simpl; lia)).
    cbn [cassert mbind option_bind].
    rewrite (set_array_spec _ l g bm [junk; junk]) by
      (rewrite ?lookup_insert_eq; done || (simpl; lia)).
    cbn [mbind option_bind]. rewrite insert_insert_eq.
    rewrite (set_array_spec _ l g bm (<[pn := None]> [junk; junk])) by
      (rewrite ?lookup_insert_eq; done || (rewrite length_insert; simpl; lia)).
    cbn [mbind option_bind]. rewrite insert_insert_eq.
    assert (Harr : <[pe := ptr_of t]> (<[pn := None]> [junk; junk]) =
      (ptr_of <$> (<[pe := t]> (<[pn := Chain []]> [Chain []; Chain []]))) /\
      (<[pe := ptr_of t]> (<[pn := None]> [junk; junk])) !! pn = Some None).
    { unfold pe, pn. clear -Hdig.
      destruct (decide (digit hash_key d k < digit hash_key d f)%Z);
      destruct (decide (digit hash_key d f < digit hash_key d k)%Z); done || lia. }
    destruct Harr as [Harr Hpn].
    rewrite (get_array_spec _ l g bm (<[pe := ptr_of t]> (<[pn := None]> [junk; junk])))
      by by rewrite lookup_insert_eq.
    rewrite Hpn. cbn [mbind option_bind]. rewrite decide_True by done. rewrite Harr.
    fold (node_of g bm (<[pe := t]> (<[pn := Chain []]> [Chain []; Chain []]))).
    rewrite E. cbn [mbind option_bind]. rewrite E'. cbn [mbind option_bind].
    eexists (Node l g bm _), (e_loc e), h''. split; [reflexivity|apply Hch].
Qed.
(** ** [mut_leaves] *)

(** The keys that the 64-bit hash cannot tell apart have no other key near: a
    shift by 65 bits is then never needed. *)
Context (Hspread : forall k1 k2 k3, k1 <> k2 -> hash_key k1 = hash_key k2 ->
  (hash_key k3 mod 2 ^ 60 = hash_key k1 mod 2 ^ 60)%Z -> hash_key k3 = hash_key k1).

Lemma chain_gens_own es e post : chain_gens g (es ++ e :: post) -> e_gen e <> g ->
  exists own es1, es = own ++ es1 /\ Forall (fun e => e_gen e = g) own /\
    Forall (fun e => 0 <= e_gen e /\ e_gen e <> g)%Z (es1 ++ [e]).
Proof.
  intros Hc He. assert (Hall : forall b es, (b < g)%Z -> chain_gens b (es ++ e :: post) ->
    Forall (fun e => 0 <= e_gen e /\ e_gen e <> g)%Z (es ++ [e])).
  { intros b es1. revert b. induction es1 as [|e1 es1 IH]; intros b Hb [? Hr]; simpl in Hr |- *.
    - constructor; [lia|done].
    - constructor; [lia|]. apply (IH (e_gen e1)); [lia|done]. }
  induction es as [|e1 es IH].
  - exists [], []. split_and!; [done..|]. constructor; [|done]. destruct Hc. lia.
  - destruct Hc as [? Hc]. destruct (decide (e_gen e1 = g)) as [E|E].
    + rewrite E in Hc. destruct (IH Hc) as (own & es1 & -> & ? & ?).
      exists (e1 :: own), es1. split_and!; [done|by constructor|done].
    + exists [], (e1 :: es). split_and!; [done..|]. simpl. constructor; [lia|].
      apply (Hall (e_gen e1)); [lia|done].
Qed.

Lemma chain_gens_app es es' b : Forall (fun e => e_gen e = g) es -> chain_gens b es' -> (b <= g)%Z ->
  chain_gens g (es ++ es').
Proof.
  intros Hes Hk Hb. induction Hes as [|e es He _ IH]; simpl; [by eapply chain_gens_mono|].
  split; [lia|]. by rewrite He.
Qed.

Lemma chain_gens_from b es e post : chain_gens b (es ++ e :: post) ->
  (0 <= e_gen e <= b)%Z /\ chain_gens (e_gen e) post.
Proof.
  revert b. induction es as [|e1 es IH]; intros b [? Hr]; [done|].
  apply IH in Hr as [??]. split; [lia|done].
Qed.

Lemma copied_spec es es' : copied g es es' -> kv <$> es' = kv <$> es /\ Forall (fun e => e_gen e = g) es'.
Proof.
  induction 1 as [|e e' es es' [Hk He] _ [IH1 IH2]]; [done|].
  rewrite !fmap_cons, Hk, IH1. by split; [|constructor].
Qed.

Lemma wf_chain_kv n es es' : kv <$> es' = kv <$> es ->
  wf_tree hash_key n (Chain es) -> wf_tree hash_key n (Chain es').
Proof.
  intros Hkv. assert (Hk : e_key <$> es' = e_key <$> es).
  { change e_key with (fst ∘ @kv K V). by rewrite !list_fmap_compose, Hkv. }
  assert (Hin : forall e, e ∈ es' -> exists e0, e0 ∈ es /\ e_key e0 = e_key e).
  { intros e He. assert (He' : e_key e ∈ (e_key <$> es)) by (rewrite <-Hk; by apply list_elem_of_fmap_2).
    apply list_elem_of_fmap in He' as (e0 & ? & ?). by exists e0. }
  assert (Hgen : (NoDup (e_key <$> es) /\ (forall e1 e2, e1 ∈ es -> e2 ∈ es ->
      hash_key (e_key e1) = hash_key (e_key e2))) ->
    NoDup (e_key <$> es') /\ (forall e1 e2, e1 ∈ es' -> e2 ∈ es' -> hash_key (e_key e1) = hash_key (e_key e2))).
  { intros [Hn Hs]. rewrite Hk. split; [done|].
    intros e1 e2 (f1 & ? & <-)%Hin (f2 & ? & <-)%Hin. by apply Hs. }
  by destruct n.
Qed.

Lemma wf_chain_any n n' es : wf_tree hash_key n (Chain es) -> wf_tree hash_key n' (Chain es).
Proof. by destruct n, n'. Qed.

Lemma chain_length_size h es : holds h (chain_cells es) -> NoDup (chain_cells es).*1 ->
  length es <= size h.
Proof. intros Hh Hn. rewrite <-length_chain_cells. by apply holds_size. Qed.

Lemma holds_leaf h es e post : holds h (chain_cells (es ++ e :: post)) ->
  h !! e_loc e = Some (leaf_of e (chain_ptr post)).
Proof.
  intros Hh. apply Hh. destruct (chain_cells_app es (e :: post)) as (D & -> & _).
  apply elem_of_app. right. by left.
Qed.

Lemma mut_found n k es e post h :
  wf_tree hash_key n (Chain (es ++ e :: post)) -> gens_ok g (Chain (es ++ e :: post)) ->
  holds h (chain_cells (es ++ e :: post)) -> NoDup (chain_cells (es ++ e :: post)).*1 -> e_key e = k ->
  exists t' l h',
    (c ← h !! e_loc e;
     if decide (get_generation c = g)
     then Some (chain_ptr (es ++ e :: post), e_loc e, false, h)
     else r ← uncow_to g (S (size h)) (e_loc e) (chain_ptr (es ++ e :: post)) h;
          let '(q, leaf, h) := r in
          c ← h !! leaf; x ← as_leaf c; _ ← cassert (bool_decide (k = x.1.1)); Some (q, leaf, false, h))
      = Some (ptr_of t', l, false, h') /\
    changed n k (Chain (es ++ e :: post)) h t' l false h'.
Proof.
  intros Hwf Hgens Hh Hn Hk. rewrite (holds_leaf h es e post) by done. cbn [mbind option_bind].
  destruct (chain_gens_from g es e post Hgens) as [Hge Hpost].
  rewrite leaf_of_generation by lia.
  assert (Hkin : k ∈ keys (Chain (es ++ e :: post) : tree K V)).
  { rewrite keys_chain, fmap_app, <-Hk. apply elem_of_app. right. by left. }
  case_decide as Hown.
  - exists (Chain (es ++ e :: post)), (e_loc e), h. split; [done|]. split; try done.
    + by apply step_refl.
    + exists (e_val e), (chain_ptr post). rewrite <-Hown, <-Hk. cbn [cells_of].
      destruct (chain_cells_app es (e :: post)) as (D & -> & _). apply elem_of_app. right. by left.
  - destruct (chain_gens_own es e post Hgens Hown) as (own & es1 & -> & Ho & Hno).
    rewrite <-!(assoc_L (++)) in *. pose proof (chain_length_size h _ Hh Hn) as Hlen.
    rewrite !length_app in Hlen.
    destruct (uncow_to_spec g Hg own es1 e post h (S (size h))) as
      (es1' & e' & h' & E & Hcop & Hkv & He' & Hs); [done..|lia|].
    rewrite E. cbn [mbind option_bind].
    rewrite (holds_leaf h' (own ++ es1') e' post) by (rewrite <-(assoc_L (++)); apply (st_after _ _ _ _ _ Hs)).
    cbn [mbind option_bind as_leaf leaf_of fst].
    pose proof Hkv as Hkv'. unfold kv in Hkv'. injection Hkv' as Hkey Hval.
    rewrite bool_decide_true by congruence. cbn [cassert mbind option_bind].
    exists (Chain (own ++ es1' ++ e' :: post)), (e_loc e'), h'. split; [done|].
    destruct (copied_spec _ _ Hcop) as [Hmap Hgen].
    assert (Hall : kv <$> (own ++ es1' ++ e' :: post) = kv <$> (own ++ es1 ++ e :: post)).
    { rewrite !fmap_app, !fmap_cons. by rewrite Hmap, Hkv. }
    split.
    + done.
    + by eapply wf_chain_kv.
    + apply (chain_gens_app own _ g); [done| |lia]. apply (chain_gens_app es1' _ g); [done| |lia].
      simpl. split; [lia|]. apply (chain_gens_mono (e_gen e)); [lia|done].
    + split; [done|]. apply Hall.
    + exists (e_val e'), (chain_ptr post). rewrite <-He', <-Hk, <-Hkey. cbn [cells_of].
      destruct (chain_cells_app (own ++ es1') (e' :: post)) as (D & HD & _).
      rewrite <-(assoc_L (++)) in HD. rewrite HD. apply elem_of_app. right. by left.
Qed.

Lemma mut_new_leaf n k es h :
  (k ∉ (e_key <$> es)) -> (forall e, e ∈ es -> hash_key (e_key e) = hash_key k) ->
  wf_tree hash_key n (Chain es) -> gens_ok g (Chain es) ->
  holds h (chain_cells es) -> NoDup (chain_cells es).*1 ->
  exists e h', new_leaf g k init (chain_ptr es) h = (e_loc e, h') /\
    changed n k (Chain es) h (Chain (e :: es)) (e_loc e) true h'.
Proof.
  intros Hk Hsame Hwf Hgens Hh Hn.
  destruct (new_leaf_spec g Hg h k init es) as (e & h' & E & He & Hkv & _ & _ & Hs); [done..|].
  exists e, h'. split; [done|]. pose proof Hkv as Hkv'. unfold kv in Hkv'. injection Hkv' as Hkey Hval.
  split.
  - done.
  - assert (Hgen : (NoDup (e_key <$> es) /\ (forall e1 e2, e1 ∈ es -> e2 ∈ es ->
        hash_key (e_key e1) = hash_key (e_key e2))) ->
      NoDup (e_key <$> e :: es) /\ (forall e1 e2, e1 ∈ e :: es -> e2 ∈ e :: es ->
        hash_key (e_key e1) = hash_key (e_key e2))).
    { intros [Hnd Hs1]. rewrite fmap_cons, Hkey. split; [by constructor|].
      intros e1 e2 [->|H1]%elem_of_cons [->|H2]%elem_of_cons; rewrite ?Hkey;
        [done|symmetry; auto|auto|auto]. }
    by destruct n; apply Hgen.
  - simpl. rewrite He. split; [lia|done].
  - rewrite keys_chain. split; [done|]. simpl. by rewrite Hkv.
  - exists (e_val e), (chain_ptr es). rewrite <-He, <-Hkey. by left.
Qed.

Lemma mut_leaves_spec n d k es h :
  n + d = levels -> (forall k', k' ∈ keys (Chain es : tree K V) -> prefix hash_key d k' = prefix hash_key d k) ->
  (n = 0 -> es <> [] -> exists k', (hash_key k' mod 2 ^ 60 = hash_key k mod 2 ^ 60)%Z /\
     hash_key k' <> hash_key k) ->
  wf_tree hash_key n (Chain es) -> gens_ok g (Chain es) ->
  holds h (chain_cells es) -> NoDup (chain_cells es).*1 ->
  exists t' l b h',
    mut_leaves hash_key init junk g k (rest hash_key d k) (5 * Z.of_nat d) (chain_ptr es) h =
      Some (ptr_of t', l, b, h') /\ changed n k (Chain es) h t' l b h'.
Proof.
  intros Hd Hpath Hdeep Hwf Hgens Hh Hn. unfold mut_leaves.
  pose proof (chain_length_size h _ Hh Hn) as Hlen.
  destruct (search_spec h k es (S (size h))) as [(pre & e & post & -> & Hk & _ & ->)|[Hk ->]]; [done|lia| |];
    cbn [mbind option_bind].
  { destruct (mut_found n k pre e post h) as (t' & l & h' & E & Hch); [done..|].
    exists t', l, false, h'. split; [apply E|done]. }
  destruct es as [|f es].
  { destruct (mut_new_leaf n k [] h) as (e & h' & E & Hch); try done; [by intros ? ?%not_elem_of_nil|].
    cbn [chain_ptr head fmap option_fmap option_map] in E |- *. rewrite E.
    exists (Chain [e]), (e_loc e), true, h'. by split. }
  cbn [chain_ptr head fmap option_fmap option_map].
  rewrite (holds_leaf h [] f es Hh). cbn [mbind option_bind as_leaf leaf_of fst].
  rewrite keys_chain in Hpath.
  assert (Hfk : e_key f <> k) by (intros <-; apply Hk; by left).
  assert (Hpf : prefix hash_key d (e_key f) = prefix hash_key d k) by (apply Hpath; by left).
  assert (Hsame : forall e, e ∈ f :: es -> hash_key (e_key e) = hash_key (e_key f)).
  { intros e He. destruct n; (apply Hwf; [done|by left]). }
  assert (Hn0 : n <> 0).
  { intros Hn0. destruct (Hdeep Hn0 ltac:(done)) as (k' & Hk' & Hne). apply Hne.
    assert (Ef : hash_key (e_key f) = hash_key k).
    { apply (hash_split hash_key d); [done|]. replace d with levels by lia. by rewrite !rest_end. }
    rewrite <-Ef in Hk' |- *. by apply (Hspread (e_key f) k k'). }
  replace (5 * Z.of_nat d <? 64)%Z with true by (unfold levels in Hd; lia).
  cbn [cassert mbind option_bind].
  assert (Hsh : Z.shiftr (hash_key (e_key f)) (5 * Z.of_nat d) = rest hash_key d (e_key f)).
  { unfold rest. rewrite Z.shiftr_div_pow2, Z.pow_mul_r by lia. done. }
  rewrite Hsh. case_decide as Hne.
  - destruct (split_spec n d levels k (e_key f) (Chain (f :: es)) h) as (t' & l & h' & E & Hch);
      try done; [lia| | |by intros m; eapply wf_chain_any|].
    + intros k'. rewrite keys_chain. intros (e & -> & He)%list_elem_of_fmap. by apply Hsame.
    + rewrite keys_chain. by left.
    + cbn [ptr_of chain_ptr head fmap option_fmap option_map] in E. rewrite E. by exists t', l, true, h'.
  - assert (Ef : hash_key (e_key f) = hash_key k) by (by eapply hash_split).
    destruct (mut_new_leaf n k (f :: es) h) as (e & h' & E & Hch); try done.
    { intros e He. by rewrite Hsame. }
    cbn [chain_ptr head fmap option_fmap option_map] in E. rewrite E.
    exists (Chain (e :: f :: es)), (e_loc e), true, h'. by split.
Qed.

(** ** [mut_child] *)

Lemma changed_grows n k t h t' l b h' : changed n k t h t' l b h' ->
  entries t' <> [] /\ (forall k', k' ∈ keys t -> k' ∈ keys t') /\
  (forall k', k' ∈ keys t' -> k' = k \/ k' ∈ keys t).
Proof.
  intros Hch. pose proof (ch_entries _ _ _ _ _ _ _ _ Hch) as He. unfold keys in *. destruct b.
  - destruct He as [_ He]. split_and!.
    + intros Hnil. rewrite Hnil in He. by apply Permutation_nil_cons in He.
    + intros k' Hk'. rewrite He. by right.
    + intros k'. rewrite He. by intros [->|?]%elem_of_cons; [left|right].
  - destruct He as [Hk ->]. split_and!; [|done|by right].
    intros Hnil. rewrite Hnil in Hk. by apply not_elem_of_nil in Hk.
Qed.

Lemma changed_node n k t h l bm ts pos s h1 s' leaf b h2 :
  step g h (cells_of t) h1 (cells_of (Node l g bm ts)) -> ts !! pos = Some s ->
  entries (Node l g bm ts) = entries t -> (k ∈ keys t -> k ∈ keys s) ->
  changed n k s h1 s' leaf b h2 -> (0 <= bm < 2 ^ 32)%Z ->
  (exists k1 k2, k1 ∈ keys t /\ k2 ∈ keys t /\ hash_key k1 <> hash_key k2) ->
  Forall2 (fun i s => wf_tree hash_key n s /\ entries s <> [] /\
    forall k, k ∈ keys s -> digit hash_key (levels - S n) k = i) (indices bm) (<[pos := s']> ts) ->
  Forall (gens_ok g) ts ->
  exists h3, set_array h2 l pos (ptr_of s') = Some h3 /\
    changed (S n) k t h (Node l g bm (<[pos := s']> ts)) leaf b h3.
Proof.
  intros Hs Hpos Hents Hks Hch Hbm (k1 & k2 & Hk1 & Hk2 & Hne) HF Hgens.
  destruct (step_child g Hg h1 l bm ts pos s h2 s') as (h3 & E & Hs3);
    [apply (ch_step _ _ _ _ _ _ _ _ Hch)|done|apply (st_after _ _ _ _ _ Hs)|apply (st_nodup' _ _ _ _ _ Hs)|].
  exists h3. split; [done|].
  assert (Hk : if b then (k ∉ keys t) /\ entries (Node l g bm (<[pos := s']> ts)) ≡ₚ (k, init) :: entries t
    else k ∈ keys t /\ entries (Node l g bm (<[pos := s']> ts)) = entries t).
  { pose proof (ch_entries _ _ _ _ _ _ _ _ Hch) as He. destruct b.
    - destruct He as [Hn He]. split; [tauto|]. rewrite <-Hents. cbn [entries].
      rewrite (mjoin_insert _ _ _ _ _ Hpos), He, (mjoin_split _ _ _ _ Hpos). done.
    - destruct He as [Hin He]. split.
      + unfold keys. rewrite <-Hents. apply elem_of_keys_node. exists s.
        split; [by eapply list_elem_of_lookup_2|done].
      + rewrite <-Hents. cbn [entries]. rewrite list_fmap_insert, He, list_insert_id; [done|].
        by rewrite list_lookup_fmap, Hpos. }
  assert (Hsub : forall k', k' ∈ keys t -> k' ∈ keys (Node l g bm (<[pos := s']> ts))).
  { intros k' Hk'. unfold keys in *. destruct b; destruct Hk as [_ ->]; [by right|done]. }
  split.
  - by eapply step_trans.
  - cbn [wf_tree]. split_and!; [lia|lia| |done]. exists k1, k2. auto.
  - apply gens_ok_node. split; [lia|]. apply Forall_insert; [done|]. apply (ch_gens _ _ _ _ _ _ _ _ Hch).
  - done.
  - destruct (ch_leaf _ _ _ _ _ _ _ _ Hch) as (v & next & Hl). exists v, next. cbn [cells_of]. right.
    rewrite (mjoin_insert _ _ _ _ _ Hpos). apply elem_of_app. by left.
Qed.

Lemma prefix_child d k k' : prefix hash_key d k = prefix hash_key d k' ->
  digit hash_key d k = digit hash_key d k' -> prefix hash_key (S d) k = prefix hash_key (S d) k'.
Proof. intros Hp Hd. by rewrite !prefix_S, Hp, Hd. Qed.

(** The next level: a node whose slot of the digit of [k] is [s]. *)
Definition deep n k : Prop := n = 0 -> exists k',
  (hash_key k' mod 2 ^ 60 = hash_key k mod 2 ^ 60)%Z /\ hash_key k' <> hash_key k.

Lemma node_deep n d k l gn bm ts : S n + d = levels -> wf_tree hash_key (S n) (Node l gn bm ts) ->
  (forall k', k' ∈ keys (Node l gn bm ts) -> prefix hash_key d k' = prefix hash_key d k) -> deep n k.
Proof.
  intros Hd (_ & (k1 & k2 & Hk1 & Hk2 & Hne) & _) Hp ->.
  assert (Hpre : forall k', k' ∈ keys (Node l gn bm ts) -> (hash_key k' mod 2 ^ 60 = hash_key k mod 2 ^ 60)%Z).
  { intros k' Hk'. specialize (Hp k' Hk'). unfold prefix in Hp.
    replace d with 12 in Hp by (unfold levels in Hd; lia). exact Hp. }
  destruct (decide (hash_key k1 = hash_key k)) as [E|]; [|by exists k1; auto].
  exists k2. split; [by apply Hpre|congruence].
Qed.

Lemma mut_child_spec n : forall d k t h,
  n + d = levels -> (forall k', k' ∈ keys t -> prefix hash_key d k' = prefix hash_key d k) ->
  (entries t <> [] -> deep n k) -> wf_tree hash_key n t -> gens_ok g t ->
  holds h (cells_of t) -> NoDup (cells_of t).*1 ->
  exists t' l b h',
    mut_child hash_key init junk g n k (rest hash_key d k) (5 * Z.of_nat d) (ptr_of t) h =
      Some (ptr_of t', l, b, h') /\ changed n k t h t' l b h'.
Proof.
  induction n as [|n IH]; intros d k t h Hd Hpath Hdeep Hwf Hgens Hh Hn.
  { destruct t as [es|]; [|done].
    destruct (mut_leaves_spec 0 d k es h) as (t' & l & b & h' & E & Hch); [done|done| |done..|].
    { intros _ Hes. apply Hdeep; [|done]. by destruct es. }
    exists t', l, b, h'. split; [|done]. rewrite <-E. destruct es as [|e es]; [done|].
    cbn [mut_child ptr_of chain_ptr head fmap option_fmap option_map].
    rewrite (holds_leaf h [] e es Hh). cbn [mbind option_bind].
    destruct Hgens as [[? _] _]. by rewrite leaf_of_is_leaf. }
  destruct t as [es|l gn bm ts].
  { destruct (mut_leaves_spec (S n) d k es h) as (t' & l & b & h' & E & Hch); [done..|].
    exists t', l, b, h'. split; [|done]. rewrite <-E. destruct es as [|e es]; [done|].
    cbn [mut_child ptr_of chain_ptr head fmap option_fmap option_map].
    rewrite (holds_leaf h [] e es Hh). cbn [mbind option_bind].
    destruct Hgens as [[? _] _]. by rewrite leaf_of_is_leaf. }
  pose proof (node_deep n d k l gn bm ts Hd Hwf Hpath) as Hdeep'.
  pose proof (wf_length hash_key n l gn bm ts Hwf) as Hlen.
  pose proof (holds_node h l gn bm ts Hh) as Hl.
  pose proof Hwf as (Hbm & Htwo & HF).
  apply gens_ok_node in Hgens as [Hgn Hts].
  pose proof (digit_range hash_key d k) as Hi.
  assert (Hdk : levels - S n = d) by lia.
  cbn [mut_child ptr_of]. rewrite Hl. cbn [mbind option_bind].
  fold (node_of gn bm ts). rewrite node_of_is_leaf by lia.
  rewrite node_of_generation by lia.
  cbn [as_node node_of mbind option_bind]. change arity with 32%Z.
  fold (digit hash_key d k). rewrite <-rest_S.
  replace (5 * Z.of_nat d + log2_arity)%Z with (5 * Z.of_nat (S d))%Z by (unfold log2_arity; lia).
  rewrite bit_set_spec by lia.
  destruct (Z.testbit bm (digit hash_key d k)) eqn:Hbit.
  - (* an existing child *)
    destruct (indices_position bm _ Hbm Hi Hbit) as [_ Hpos].
    fold (position_of bm (digit hash_key d k)). set (pos := position_of bm _) in *.
    destruct (Forall2_lookup_l _ _ _ _ _ HF Hpos) as (s & Hs & Hwfs & Hsne & Hdig).
    rewrite Hdk in Hdig.
    assert (exists node h1, (if decide (gn <> g) then uncow_node junk g l h else Some (l, h)) = Some (node, h1) /\
      step g h (cells_of (Node l gn bm ts)) h1 (cells_of (Node node g bm ts))) as (node & h1 & -> & Hs1).
    { case_decide as Hown.
      - rewrite (uncow_node_spec junk g h l gn bm (ptr_of <$> ts)); [|done|by rewrite length_fmap| ].
        + eexists _, _. split; [reflexivity|].
          pose proof (step_replace g Hg h l gn bm ts (fresh (dom h)) bm ts Hh Hn ltac:(lia)
            (reflexivity _) (fresh_none h)) as Hst. by rewrite decide_False in Hst.
        + intros Hnil. apply fmap_nil_inv in Hnil. by apply (wf_nonempty hash_key n l gn bm ts).
      - subst gn. exists l, h. split; [done|]. by apply step_refl. }
    cbn [mbind option_bind].
    rewrite (get_array_spec h1 node g bm (ptr_of <$> ts))
      by (apply holds_node, (st_after _ _ _ _ _ Hs1)).
    rewrite list_lookup_fmap, Hs. cbn [fmap option_fmap option_map mbind option_bind].
    destruct (node_child h1 node g bm ts pos s (st_after _ _ _ _ _ Hs1) (st_nodup' _ _ _ _ _ Hs1) Hs)
      as [Hhs Hns].
    assert (Hin : forall k', k' ∈ keys s -> k' ∈ keys (Node l gn bm ts)).
    { intros k' Hk'. apply elem_of_keys_node. exists s. split; [by eapply list_elem_of_lookup_2|done]. }
    destruct (IH (S d) k s h1) as (s' & leaf & b & h2 & E & Hch); try done; [lia| | |].
    { intros k' Hk'. apply prefix_child; [by apply Hpath, Hin|by apply Hdig]. }
    { rewrite Forall_lookup in Hts. apply (gens_ok_mono gn); [lia|]. by eapply Hts. }
    rewrite E. cbn [mbind option_bind].
    destruct (changed_node n k (Node l gn bm ts) h node bm ts pos s h1 s' leaf b h2) as (h3 & E3 & Hch3);
      try done.
    + intros Hk. apply (wf_other hash_key n l gn bm ts k pos) in Hk; [|done|by rewrite Hdk].
      destruct Hk as (s2 & ? & ?). by simplify_eq.
    + rewrite <-(list_insert_id (indices bm) pos (digit hash_key d k)) by done.
      apply Forall2_insert; [done|]. destruct (changed_grows _ _ _ _ _ _ _ _ Hch) as (? & _ & Hk').
      split_and!; [apply (ch_wf _ _ _ _ _ _ _ _ Hch)|done|].
      rewrite Hdk. intros k' [->|?]%Hk'; auto.
    + eapply Forall_impl; [apply Hts|]. intros s2. apply gens_ok_mono. lia.
    + rewrite E3. cbn [mbind option_bind]. by exists (Node node g bm (<[pos := s']> ts)), leaf, b, h3.
  - (* the node grows *)
    rewrite (grow_node_spec junk g h l gn bm (ptr_of <$> ts)) by (rewrite ?length_fmap; done || lia).
    cbn [mbind option_bind]. set (node := fresh (dom h)). set (pos := popcount _). set (bm' := Z.lor _ _).
    destruct (indices_add bm _ Hbm Hi Hbit) as (Hadd & Hpl & Hbm'). fold pos bm' in Hadd, Hpl, Hbm'.
    rewrite <-popcount_indices, <-Hlen in Hpl.
    set (ts1 := take pos ts ++ Chain [] :: drop pos ts).
    replace (take pos (ptr_of <$> ts) ++ None :: drop pos (ptr_of <$> ts)) with (ptr_of <$> ts1)
      by (unfold ts1; by rewrite fmap_app, fmap_cons, fmap_take, fmap_drop).
    fold (node_of g bm' ts1). set (h1 := <[node := node_of g bm' ts1]> _).
    assert (Hjoin : forall {B} (f : tree K V -> list B), f (Chain []) = [] ->
      mjoin (f <$> ts1) = mjoin (f <$> ts)).
    { intros B f Hf. unfold ts1. rewrite fmap_app, fmap_cons, Hf.
      rewrite <-(take_drop pos ts) at 3. rewrite fmap_app, !join_app. done. }
    assert (Hs1 : step g h (cells_of (Node l gn bm ts)) h1 (cells_of (Node node g bm' ts1))).
    { apply step_replace; [done..|lia| |apply fresh_none]. by rewrite Hjoin. }
    assert (Hlt : length (take pos ts) = pos) by (rewrite length_take; lia).
    assert (Hp1 : ts1 !! pos = Some (Chain [])).
    { pose proof (lookup_mid (take pos ts) (drop pos ts) (Chain [])) as Hm. by rewrite Hlt in Hm. }
    assert (Hins : forall s, <[pos := s]> ts1 = take pos ts ++ s :: drop pos ts).
    { intros s. pose proof (insert_app_mid (take pos ts) (drop pos ts) s (Chain [])) as Hm.
      by rewrite Hlt in Hm. }
    destruct (mut_leaves_spec n (S d) k [] h1) as (s' & leaf & b & h2 & E & Hch); try done;
      [lia|by intros k' ?%not_elem_of_nil|by destruct n; (split; [constructor|by intros ? ? ?%not_elem_of_nil])
      |by intros ? ? ?%not_elem_of_nil|constructor|].
    cbn [chain_ptr head fmap option_fmap option_map] in E. rewrite E. cbn [mbind option_bind].
    destruct (changed_node n k (Node l gn bm ts) h node bm' ts1 pos (Chain []) h1 s' leaf b h2)
      as (h3 & E3 & Hch3); try done.
    + cbn [entries]. by rewrite Hjoin.
    + intros Hk. exfalso. apply (wf_absent hash_key n l gn bm ts k); [done| |done]. by rewrite Hdk.
    + rewrite Hins, Hadd. destruct (changed_grows _ _ _ _ _ _ _ _ Hch) as (? & _ & Hk').
      apply Forall2_app; [by apply Forall2_take|]. constructor; [|by apply Forall2_drop].
      split_and!; [apply (ch_wf _ _ _ _ _ _ _ _ Hch)|done|].
      rewrite Hdk. by intros k' [->|?%not_elem_of_nil]%Hk'.
    + assert (Hmono : Forall (gens_ok g) ts).
      { eapply Forall_impl; [apply Hts|]. intros s2. apply gens_ok_mono. lia. }
      unfold ts1. apply Forall_app. split; [by apply Forall_take|].
      constructor; [done|by apply Forall_drop].
    + rewrite E3. cbn [mbind option_bind]. by exists (Node node g bm' (<[pos := s']> ts1)), leaf, b, h3.
Qed.
End mut.
