(* ===== verification/GenMapRead.v ===== *)
(** * GenMapRead: lookup, iteration and destruction of a persistent hash map *)

From S2P Require Import Prelude.
From S2P Require Import GenMap.
From S2P Require Import GenMapTree.
From S2P Require Import GenMapNodes.
From S2P Require Import GenMapMut.

Section read.
Context {K V : Type} `{EqDecision K} (hash_key : K -> Z).
Implicit Types (h : heap K V) (t : tree K V) (es : list (entry K V)) (ts : list (tree K V))
  (k : K) (n d : nat).

(** ** Keys are unique *)

Lemma node_nodup n l gn bm ts : wf_tree hash_key (S n) (Node l gn bm ts) ->
  (forall s, s ∈ ts -> NoDup (keys s)) -> NoDup (keys (Node l gn bm ts)).
Proof.
  intros (_ & _ & HF) Hs. unfold keys. cbn [entries].
  assert (Hnd : NoDup (indices bm)).
  { unfold indices, bits. rewrite reverse_Permutation. apply NoDup_filter, NoDup_seqZ. }
  revert Hnd. induction HF as [|i s ix ts (_ & _ & Hi) HF IH]; [constructor|].
  intros [Hi' Hnd]%NoDup_cons. rewrite fmap_cons. cbn [mjoin list_join]. rewrite fmap_app, NoDup_app.
  split_and!.
  - apply Hs. by left.
  - intros k Hk Hk2. apply Hi'. rewrite <-(Hi k Hk).
    apply (elem_of_keys_node l gn bm ts k) in Hk2 as (s2 & [j Hj]%list_elem_of_lookup & Hk2).
    destruct (Forall2_lookup_r _ _ _ _ _ HF Hj) as (i2 & Hi2 & _ & _ & Hd2).
    rewrite (Hd2 k Hk2). by eapply list_elem_of_lookup_2.
  - apply IH; [|done]. intros s2 ?. apply Hs. by right.
Qed.

Lemma wf_nodup n t : wf_tree hash_key n t -> NoDup (keys t).
Proof.
  revert t. induction n as [|n IH]; intros [es|l gn bm ts] Hwf; try done.
  - rewrite keys_chain. apply Hwf.
  - rewrite keys_chain. apply Hwf.
  - eapply node_nodup; [done|]. intros s [j Hj]%list_elem_of_lookup. destruct Hwf as (_ & _ & HF).
    destruct (Forall2_lookup_r _ _ _ _ _ HF Hj) as (i & _ & Hs & _). by apply IH.
Qed.

(** ** [find] *)

Lemma elem_of_entries_node l gn bm ts (x : K * V) :
  x ∈ entries (Node l gn bm ts) <-> exists s, s ∈ ts /\ x ∈ entries s.
Proof.
  cbn [entries]. rewrite list_elem_of_join. split.
  - intros (y & Hx & (s & -> & Hs)%list_elem_of_fmap). by exists s.
  - intros (s & Hs & Hx). exists (entries s). split; [done|]. apply list_elem_of_fmap. by exists s.
Qed.

Lemma in_keys t k v : (k, v) ∈ entries t -> k ∈ keys t.
Proof. intros H. apply list_elem_of_fmap. by exists (k, v). Qed.

Lemma find_child_spec n : forall d k t h b,
  n + d = levels -> wf_tree hash_key n t -> gens_ok b t -> holds h (cells_of t) -> NoDup (cells_of t).*1 ->
  (find_child n h (rest hash_key d k) (ptr_of t) = Some None /\ k ∉ keys t) \/
  (exists es b, find_child n h (rest hash_key d k) (ptr_of t) = Some (Some (chain_ptr es)) /\
    holds h (chain_cells es) /\ NoDup (chain_cells es).*1 /\ chain_gens b es /\
    forall v, (k, v) ∈ entries t <-> (k, v) ∈ (kv <$> es)).
Proof.
  assert (Hchain : forall n d k es h b, gens_ok b (Chain es) -> holds h (chain_cells es) ->
    find_child n h (rest hash_key d k) (chain_ptr es) = Some (Some (chain_ptr es))).
  { intros m d k [|e es] h b Hg Hh; [by destruct m|]. destruct Hg as [[? _] _].
    destruct m; cbn [find_child chain_ptr head fmap option_fmap option_map];
      rewrite (holds_leaf h [] e es Hh); cbn [mbind option_bind]; by rewrite leaf_of_is_leaf. }
  induction n as [|n IH]; intros d k t h b Hd Hwf Hg Hh Hn.
  { destruct t as [es|]; [|done]. right. exists es, b. split_and!; [by eapply Hchain|done..]. }
  destruct t as [es|l gn bm ts].
  { right. exists es, b. split_and!; [by eapply Hchain|done..]. }
  pose proof (holds_node h l gn bm ts Hh) as Hl. apply gens_ok_node in Hg as [Hgn Hts].
  pose proof (digit_range hash_key d k) as Hi. assert (Hdk : levels - S n = d) by lia.
  pose proof Hwf as (Hbm & _ & HF).
  cbn [find_child ptr_of]. rewrite Hl. cbn [mbind option_bind].
  fold (node_of gn bm ts). rewrite node_of_is_leaf by lia.
  cbn [as_node node_of mbind option_bind]. change arity with 32%Z.
  fold (digit hash_key d k). rewrite <-rest_S, bit_set_spec by lia.
  destruct (Z.testbit bm (digit hash_key d k)) eqn:Hbit; cbn [negb].
  - destruct (indices_position bm _ Hbm Hi Hbit) as [_ Hpos].
    fold (position_of bm (digit hash_key d k)). set (pos := position_of bm _) in *.
    destruct (Forall2_lookup_l _ _ _ _ _ HF Hpos) as (s & Hs & Hwfs & _ & _).
    rewrite list_lookup_fmap, Hs. cbn [fmap option_fmap option_map mbind option_bind].
    destruct (node_child h l gn bm ts pos s Hh Hn Hs) as [Hhs Hns].
    rewrite Forall_lookup in Hts.
    assert (Hin : forall v, (k, v) ∈ entries (Node l gn bm ts) <-> (k, v) ∈ entries s).
    { intros v. split; [|intros Hv; apply elem_of_entries_node; exists s; split; [by eapply list_elem_of_lookup_2|done]].
      intros (s2 & [j Hj]%list_elem_of_lookup & Hv)%elem_of_entries_node.
      destruct (Forall2_lookup_r _ _ _ _ _ HF Hj) as (i & Hi2 & _ & _ & Hdig).
      specialize (Hdig k (in_keys s2 k v Hv)). rewrite Hdk in Hdig. subst i.
      assert (Hnd : NoDup (indices bm)).
      { unfold indices, bits. rewrite reverse_Permutation. apply NoDup_filter, NoDup_seqZ. }
      assert (j = pos) as -> by (by eapply NoDup_lookup). by simplify_eq. }
    destruct (IH (S d) k s h gn) as [[E Hk]|(es & b' & E & ? & ? & ? & Hes)]; try done; [lia|by eapply Hts| |].
    + left. split; [done|]. intros ([k' v] & Hk' & Hv)%list_elem_of_fmap. simpl in Hk'. subst k'.
      apply Hk. eapply in_keys. by apply Hin.
    + right. exists es, b'. split_and!; [done..|]. intros v. by rewrite Hin.
  - left. split; [done|]. apply (wf_absent hash_key n l gn bm ts k); [done|]. by rewrite Hdk.
Qed.

Lemma find_leaf_spec fuel h k b es : holds h (chain_cells es) -> chain_gens b es -> length es < fuel ->
  (find_leaf fuel h k (chain_ptr es) = Some None /\ k ∉ (e_key <$> es)) \/
  (exists v, find_leaf fuel h k (chain_ptr es) = Some (Some v) /\ (k, v) ∈ (kv <$> es)).
Proof.
  revert es b. induction fuel as [|fuel IH]; intros es b Hh Hg Hf; [lia|].
  destruct es as [|e es]; [left; split; [done|by apply not_elem_of_nil]|].
  destruct Hg as [[? _] Hg].
  cbn [find_leaf chain_ptr head fmap option_fmap option_map].
  rewrite (holds_leaf h [] e es Hh). cbn [mbind option_bind].
  rewrite leaf_of_is_leaf by done. cbn [cassert mbind option_bind as_leaf leaf_of].
  case_decide as Hk.
  - right. exists (e_val e). split; [done|]. subst k. by left.
  - destruct (IH es (e_gen e)) as [[E Hn]|(v & E & Hv)]; [|done|simpl in Hf; lia| |].
    + intros l c ?. apply Hh. by right.
    + left. split; [done|]. rewrite fmap_cons, not_elem_of_cons. by split.
    + right. exists v. split; [done|]. by right.
Qed.

(** ** [for_each] *)

Lemma each_leaf_spec fuel h e es b : holds h (chain_cells (e :: es)) -> chain_gens b (e :: es) ->
  length es < fuel -> each_leaf fuel h (e_loc e) = Some (kv <$> e :: es).
Proof.
  revert e es b. induction fuel as [|fuel IH]; intros e es b Hh [_ Hg] Hf; [lia|].
  cbn [each_leaf]. rewrite (holds_leaf h [] e es Hh). cbn [mbind option_bind as_leaf leaf_of].
  destruct es as [|e2 es]; [done|]. cbn [chain_ptr head fmap option_fmap option_map].
  assert (Hh2 : holds h (chain_cells (e2 :: es))) by (intros l c ?; apply Hh; by right).
  rewrite (holds_leaf h [] e2 es Hh2). cbn [mbind option_bind].
  destruct Hg as [[? ?] Hg]. rewrite leaf_of_is_leaf by done. cbn [cassert mbind option_bind].
  rewrite (IH e2 es (e_gen e)); [done|done|by split|simpl in Hf; lia].
Qed.

Lemma each_child_spec n : forall t h b, wf_tree hash_key n t -> entries t <> [] -> gens_ok b t ->
  holds h (cells_of t) -> NoDup (cells_of t).*1 -> each_child n h (ptr_of t) = Some (entries t).
Proof.
  assert (Hchain : forall n es h b, entries (Chain es) <> [] -> gens_ok b (Chain es) ->
    holds h (chain_cells es) -> NoDup (chain_cells es).*1 ->
    each_child n h (chain_ptr es) = Some (kv <$> es)).
  { intros m [|e es] h b Hne Hg Hh Hn; [done|].
    pose proof (chain_length_size h _ Hh Hn) as Hlen. simpl in Hlen.
    assert (Hleaf : each_leaf (S (size h)) h (e_loc e) = Some (kv <$> e :: es)).
    { eapply each_leaf_spec; [done|apply Hg|lia]. }
    destruct Hg as [[? _] _].
    destruct m; cbn [each_child chain_ptr head fmap option_fmap option_map mbind option_bind];
      rewrite (holds_leaf h [] e es Hh); cbn [mbind option_bind]; rewrite leaf_of_is_leaf by done;
      apply Hleaf. }
  induction n as [|n IH]; intros t h b Hwf Hne Hg Hh Hn.
  { destruct t as [es|]; [|done]. by eapply Hchain. }
  destruct t as [es|l gn bm ts]; [by eapply Hchain|].
  pose proof (holds_node h l gn bm ts Hh) as Hl. apply gens_ok_node in Hg as [Hgn Hts].
  cbn [each_child ptr_of mbind option_bind]. rewrite Hl. cbn [mbind option_bind].
  fold (node_of gn bm ts). rewrite node_of_is_leaf by lia. cbn [as_node node_of mbind option_bind].
  rewrite <-(wf_length hash_key n l gn bm ts Hwf). pose proof Hwf as (_ & _ & HF).
  destruct (for_range_total (fun i acc => acc = mjoin (entries <$> take i ts))
    (fun i acc => child ← (ptr_of <$> ts) !! i; es ← each_child n h child; Some (acc ++ es))
    (length ts) 0 []) as (acc & -> & ->); [done| |by rewrite take_ge].
  intros i acc Hi ->. destruct (lookup_lt_exists ts i) as [s Hs]; [lia|].
  rewrite list_lookup_fmap, Hs. cbn [fmap option_fmap option_map mbind option_bind].
  destruct (Forall2_lookup_r _ _ _ _ _ HF Hs) as (j & _ & Hwfs & Hsne & _).
  destruct (node_child h l gn bm ts i s Hh Hn Hs) as [Hhs Hns]. rewrite Forall_lookup in Hts.
  rewrite (IH s h gn) by (done || by eapply Hts). cbn [mbind option_bind]. eexists. split; [done|].
  rewrite (take_snoc _ _ _ Hs), fmap_app, join_app. simpl. by rewrite app_nil_r.
Qed.

(** ** [free_child] *)

Section free.
Context (g : Z).

Lemma chain_older b es : (b < g)%Z -> chain_gens b es ->
  forall l c, (l, c) ∈ chain_cells es -> get_generation c <> g.
Proof.
  revert b. induction es as [|e es IH]; intros b Hb Hg l c; [by intros ?%not_elem_of_nil|].
  destruct Hg as [? Hg]. intros [[= -> ->]|Hin]%elem_of_cons.
  - rewrite leaf_of_generation; lia.
  - eapply (IH (e_gen e)); [lia|done..].
Qed.

Lemma tree_older n b t : wf_tree hash_key n t -> (b < g)%Z -> gens_ok b t ->
  forall l c, (l, c) ∈ cells_of t -> get_generation c <> g.
Proof.
  revert b t. induction n as [|n IH]; intros b [es|l gn bm ts] Hwf Hb Hg; try done;
    [by eapply chain_older|by eapply chain_older|].
  apply gens_ok_node in Hg as [? Hts]. intros x c [[= -> ->]|Hin]%elem_of_cons.
  - rewrite node_of_generation; lia.
  - apply list_elem_of_join in Hin as (C & HC & (s & -> & [j Hj]%list_elem_of_lookup)%list_elem_of_fmap).
    destruct Hwf as (_ & _ & HF). destruct (Forall2_lookup_r _ _ _ _ _ HF Hj) as (i & _ & Hs & _).
    rewrite Forall_lookup in Hts. by eapply (IH gn s); [done|lia|by eapply Hts|].
Qed.

Lemma step_keep_older h C : holds h C -> NoDup C.*1 -> (forall l c, (l, c) ∈ C -> get_generation c <> g) ->
  step g h C h [].
Proof.
  intros Hh Hn Hold. split; [done|done|by intros ? ? ?%not_elem_of_nil|constructor
    |by intros l ?%not_elem_of_nil|done|by intros l -> [? ?]|].
  intros l (c & Hc & Hg) _. by destruct (Hold l c Hc).
Qed.

Lemma free_leaves_spec fuel h e es b : holds h (chain_cells (e :: es)) ->
  NoDup (chain_cells (e :: es)).*1 -> chain_gens b (e :: es) -> e_gen e = g -> length es < fuel ->
  exists h', free_leaves g fuel (e_loc e) h = Some h' /\ step g h (chain_cells (e :: es)) h' [].
Proof.
  revert h e es b. induction fuel as [|fuel IH]; intros h e es b Hh Hn Hg He Hf; [lia|].
  destruct Hg as [? Hg].
  cbn [free_leaves]. rewrite (holds_leaf h [] e es Hh). cbn [mbind option_bind as_leaf leaf_of snd].
  assert (H1 : step g h (chain_cells (e :: es)) (delete (e_loc e) h) (chain_cells es)).
  { apply (step_free g h (e_loc e) (leaf_of e (chain_ptr es))); [done|done|]. rewrite leaf_of_generation; lia. }
  destruct es as [|e2 es]; [eexists; split; [reflexivity|done]|].
  cbn [chain_ptr head fmap option_fmap option_map].
  pose proof (st_after _ _ _ _ _ H1) as Hh1. pose proof (st_nodup' _ _ _ _ _ H1) as Hn1.
  rewrite (holds_leaf _ [] e2 es Hh1). cbn [mbind option_bind].
  pose proof Hg as [? Hg2]. rewrite leaf_of_generation by lia. case_decide as He2.
  - destruct (IH (delete (e_loc e) h) e2 es (e_gen e)) as (h' & E & Hs); [done..|simpl in Hf; lia|].
    exists h'. split; [done|]. by eapply step_trans.
  - eexists. split; [done|]. eapply step_trans; [apply H1|]. apply step_keep_older; [done|done|].
    intros l c [[= -> ->]|Hin]%elem_of_cons.
    + rewrite leaf_of_generation; lia.
    + eapply (chain_older (e_gen e2)); [lia|done..].
Qed.

Lemma free_child_spec n : forall t h, wf_tree hash_key n t -> gens_ok g t ->
  holds h (cells_of t) -> NoDup (cells_of t).*1 ->
  exists h', free_child g n (ptr_of t) h = Some h' /\ step g h (cells_of t) h' [].
Proof.
  assert (Hchain : forall n es h, gens_ok g (Chain es) -> holds h (chain_cells es) ->
    NoDup (chain_cells es).*1 ->
    exists h', free_child g n (chain_ptr es) h = Some h' /\ step g h (chain_cells es) h' []).
  { intros m [|e es] h Hg Hh Hn.
    { exists h. split; [by destruct m|]. by apply step_refl. }
    pose proof (chain_length_size h _ Hh Hn) as Hlen. simpl in Hlen. pose proof Hg as [Hge Hg2].
    destruct (decide (e_gen e = g)) as [E|E].
    - destruct (free_leaves_spec (S (size h)) h e es g) as (h' & Ef & Hs); [done..|lia|].
      exists h'. split; [|done]. rewrite <-Ef.
      destruct m; cbn [free_child chain_ptr head fmap option_fmap option_map];
        rewrite (holds_leaf h [] e es Hh); cbn [mbind option_bind];
        rewrite leaf_of_generation, decide_False by (lia || tauto); by rewrite leaf_of_is_leaf by lia.
    - exists h. split.
      + destruct m; cbn [free_child chain_ptr head fmap option_fmap option_map];
          rewrite (holds_leaf h [] e es Hh); cbn [mbind option_bind];
          by rewrite leaf_of_generation, decide_True by lia.
      + apply step_keep_older; [done|done|]. intros l c [[= -> ->]|Hin]%elem_of_cons.
        * rewrite leaf_of_generation; lia.
        * eapply (chain_older (e_gen e)); [lia|done..]. }
  induction n as [|n IH]; intros t h Hwf Hg Hh Hn.
  { destruct t as [es|]; [|done]. by apply Hchain. }
  destruct t as [es|l gn bm ts]; [by apply Hchain|].
  pose proof (holds_node h l gn bm ts Hh) as Hl. pose proof Hg as Hg'. apply gens_ok_node in Hg as [Hgn Hts].
  cbn [free_child ptr_of]. rewrite Hl. cbn [mbind option_bind].
  fold (node_of gn bm ts). rewrite node_of_generation by lia. case_decide as Hown.
  { exists h. split; [done|]. apply step_keep_older; [done|done|].
    intros x c. apply (tree_older (S n) gn); [done|lia|]. apply gens_ok_node. split; [lia|done]. }
  subst gn.
  rewrite node_of_is_leaf by lia. cbn [as_node node_of mbind option_bind].
  rewrite <-(wf_length hash_key n l g bm ts Hwf). pose proof Hwf as (_ & _ & HF).
  destruct (node_children h l g bm ts Hh Hn) as [Hhc Hnc]. set (m := length ts).
  destruct (for_range_total (fun j h' => step g h (mjoin (cells_of <$> ts)) h' (mjoin (cells_of <$> take (m - j) ts)))
    (fun j h => p ← (ptr_of <$> ts) !! (m - 1 - j); free_child g n p h) m 0 h) as (h' & -> & Hs).
  - rewrite take_ge by lia. by apply step_refl.
  - intros j h1 Hj Hs1. destruct (lookup_lt_exists ts (m - 1 - j)) as [s Hs]; [lia|].
    rewrite list_lookup_fmap, Hs. cbn [fmap option_fmap option_map mbind option_bind].
    replace (m - j) with (S (m - 1 - j)) in Hs1 by lia. rewrite (take_snoc _ _ _ Hs) in Hs1.
    rewrite fmap_app, join_app in Hs1. cbn [fmap list_fmap mjoin list_join] in Hs1. rewrite app_nil_r in Hs1.
    pose proof (st_after _ _ _ _ _ Hs1) as Hh1. pose proof (st_nodup' _ _ _ _ _ Hs1) as Hn1.
    destruct (Forall2_lookup_r _ _ _ _ _ HF Hs) as (i & _ & Hwfs & _). rewrite Forall_lookup in Hts.
    destruct (IH s h1) as (h2 & E & Hs2); [done|by eapply Hts| | |].
    { intros x c Hx. apply Hh1, elem_of_app. by right. }
    { rewrite fmap_app, NoDup_app in Hn1. apply Hn1. }
    exists h2. split; [done|]. replace (m - S j) with (m - 1 - j) by lia.
    eapply step_trans; [apply Hs1|].
    eapply step_perm; [apply Permutation_app_comm|reflexivity|].
    change (mjoin (cells_of <$> take (m - 1 - j) ts)) with
      ([] ++ mjoin (cells_of <$> take (m - 1 - j) ts)) at 2. apply step_app; [done| |].
    + intros x c Hx. apply Hh1, elem_of_app. by left.
    + by rewrite (Permutation_app_comm (cells_of s)).
  - cbn [mbind option_bind]. eexists. split; [reflexivity|].
    rewrite Nat.add_0_l, Nat.sub_diag in Hs. simpl in Hs.
    assert (H1 : step g h (mjoin (cells_of <$> ts) ++ [(l, node_of g bm ts)]) h' ([] ++ [(l, node_of g bm ts)])).
    { apply step_app; [done| |].
      - intros x c [= -> ->]%list_elem_of_singleton. apply Hh. by left.
      - by rewrite <-Permutation_cons_append. }
    eapply step_trans; [eapply step_perm; [|reflexivity|apply H1]; symmetry; apply Permutation_cons_append|].
    apply step_free; [apply (st_after _ _ _ _ _ H1)|apply (st_nodup' _ _ _ _ _ H1)|].
    apply node_of_generation. lia.
Qed.
End free.
End read.
