(* ===== verification/GenMapWorld.v ===== *)
(** * GenMapWorld: map objects that share cells

    [world_ok] is the invariant of all maps together, with the tree of each map
    as a ghost. A cell belongs to the map of its generation that reaches it; only
    copies of that map, and their copies, reach it too. *)

From S2P Require Import Prelude.
From S2P Require Import GenMap.
From S2P Require Import GenMapTree.
From S2P Require Import GenMapNodes.
From S2P Require Import GenMapMut.
From S2P Require Import GenMapRead.

Section world.
Context {K V : Type} `{Countable K} (hash_key : K -> Z) (init : V) (junk : option positive).
Implicit Types (h : heap K V) (t s : tree K V) (w : world K V) (x y : positive) (b c : body)
  (G : gmap positive (tree K V)).

Definition contents t : gmap K V := list_to_map (entries t).
Definition locs t : list positive := (cells_of t).*1.

Record map_ok h b t : Prop := {
  mo_root : root b = ptr_of t;
  mo_wf : wf_tree hash_key levels t;
  mo_gens : gens_ok (generation b) t;
  mo_holds : holds h (cells_of t);
  mo_nodup : NoDup (locs t);
  mo_size : _size b = wrapu 32 (Z.of_nat (length (entries t)));
  mo_gen : (0 <= generation b)%Z;
}.

Definition children w (id : positive) : nat :=
  size (filter (fun xb => _debug_parent xb.2 = Some id) (maps w)).
Definition parent_of w (i p : positive) : Prop :=
  exists x b, maps w !! x = Some b /\ _debug_refcount b = i /\ _debug_parent b = Some p.

Record world_ok w G : Prop := {
  wo_dom x : is_Some (maps w !! x) <-> is_Some (G !! x);
  wo_map x b t : maps w !! x = Some b -> G !! x = Some t -> map_ok (cells w) b t;
  wo_ids x y b c : maps w !! x = Some b -> maps w !! y = Some c ->
    _debug_refcount b = _debug_refcount c -> x = y;
  wo_count x b : maps w !! x = Some b ->
    counters w !! _debug_refcount b = Some (children w (_debug_refcount b));
  wo_parent x b p : maps w !! x = Some b -> _debug_parent b = Some p ->
    exists y c, maps w !! y = Some c /\ _debug_refcount c = p /\ generation b = (generation c + 1)%Z;
  wo_owner l cl : cells w !! l = Some cl -> exists x b t, maps w !! x = Some b /\
    G !! x = Some t /\ generation b = get_generation cl /\ l ∈ locs t;
  wo_shared x y b c t s l cl : maps w !! x = Some b -> G !! x = Some t ->
    maps w !! y = Some c -> G !! y = Some s -> cells w !! l = Some cl ->
    get_generation cl = generation b -> l ∈ locs t -> l ∈ locs s ->
    rtc (parent_of w) (_debug_refcount c) (_debug_refcount b);
}.

Lemma wo_tree w G x b : world_ok w G -> maps w !! x = Some b -> exists t, G !! x = Some t.
Proof. intros Hw Hx. apply (proj1 (wo_dom w G Hw x)). by exists b. Qed.

(** ** Maps without copies *)

Definition childless w b : Prop :=
  forall y c, maps w !! y = Some c -> _debug_parent c <> Some (_debug_refcount b).

Lemma children_none w id : children w id = 0 ->
  forall y c, maps w !! y = Some c -> _debug_parent c <> Some id.
Proof.
  unfold children. intros H0%map_size_empty_inv y c Hy Hp.
  assert (Hf : filter (fun xb => _debug_parent xb.2 = Some id) (maps w) !! y = Some c).
  { apply map_lookup_filter_Some. by split. }
  rewrite H0, lookup_empty in Hf. done.
Qed.

Lemma writable_childless w G x b : world_ok w G -> maps w !! x = Some b ->
  counters w !! _debug_refcount b = Some 0 -> childless w b.
Proof.
  intros Hw Hx H0 y c. apply children_none. pose proof (wo_count w G Hw x b Hx). congruence.
Qed.

Lemma rtc_childless w i b : childless w b -> rtc (parent_of w) i (_debug_refcount b) ->
  i = _debug_refcount b.
Proof.
  intros Hc Hr. remember (_debug_refcount b) as j eqn:Hj. revert Hj.
  pattern j. eapply rtc_ind_r; [done| |exact Hr].
  intros k l _ (y & c & Hy & _ & Hp) _ ->. by destruct (Hc y c Hy).
Qed.

(** The own cells of a map without copies are reached from no other map. *)
Lemma not_shared w G x y b c t s l : world_ok w G -> maps w !! x = Some b -> G !! x = Some t ->
  maps w !! y = Some c -> G !! y = Some s -> childless w b -> y <> x -> l ∈ locs s ->
  ~ owned (generation b) (cells_of t) l.
Proof.
  intros Hw Hx Ht Hy Hs Hc Hne Hl Ho. pose proof (owned_in _ _ _ Ho) as Hlt.
  destruct Ho as (cl & Hin & Hg).
  assert (Hcl : cells w !! l = Some cl) by (by apply (mo_holds _ _ _ (wo_map w G Hw x b t Hx Ht))).
  pose proof (wo_shared w G Hw x y b c t s l cl Hx Ht Hy Hs Hcl Hg Hlt Hl) as Hr.
  apply Hne. eapply (wo_ids w G Hw); [done..|]. by apply (rtc_childless w).
Qed.

(** ** A step of one map *)

Section local.
Context (w : world K V) (G : gmap positive (tree K V)) (Hw : world_ok w G).
Context (x : positive) (b : body) (t : tree K V) (Hx : maps w !! x = Some b) (Ht : G !! x = Some t).
Context (Hc : childless w b) (h' : heap K V) (C' : list (positive * cell K V)).
Context (Hstep : step (generation b) (cells w) (cells_of t) h' C').

Lemma local_frame y c s l cl : y <> x -> maps w !! y = Some c -> G !! y = Some s ->
  l ∈ locs s -> cells w !! l = Some cl -> h' !! l = Some cl.
Proof.
  intros Hne Hy Hs Hl Hcl. eapply (st_frame _ _ _ _ _ Hstep); [done|]. by eapply not_shared.
Qed.

Lemma local_map_ok y c s : y <> x -> maps w !! y = Some c -> G !! y = Some s -> map_ok h' c s.
Proof.
  intros Hne Hy Hs. destruct (wo_map w G Hw y c s Hy Hs) as [H1 H2 H3 H4 H5 H6 H7]. split; try done.
  intros l cl Hin. eapply (local_frame y c s); [done..| |by apply H4].
  apply list_elem_of_fmap. by exists (l, cl).
Qed.

Lemma local_owner l cl : h' !! l = Some cl ->
  owned (generation b) C' l \/ exists y c s, y <> x /\ maps w !! y = Some c /\ G !! y = Some s /\
    generation c = get_generation cl /\ l ∈ locs s.
Proof.
  intros Hl. destruct (cells w !! l) as [cl0|] eqn:E.
  2:{ left. apply (st_alloc _ _ _ _ _ Hstep); [done|by exists cl]. }
  destruct (wo_owner w G Hw l cl0 E) as (y & c & s & Hy & Hs & Hg & Hin).
  destruct (decide (y = x)) as [->|Hne].
  - simplify_eq. left. apply (st_kept _ _ _ _ _ Hstep); [|by exists cl].
    destruct (in_locs _ _ Hin) as (cl1 & Hin1). exists cl1. split; [done|].
    apply (mo_holds _ _ _ (wo_map w G Hw x b t Hx Ht)) in Hin1. congruence.
  - right. exists y, c, s. split_and!; try done.
    pose proof (local_frame y c s l cl0 Hne Hy Hs Hin E). congruence.
Qed.

(** Where the step leaves the map, only cells of its own are new. *)
Lemma local_new l cl : l ∈ C'.*1 -> cells w !! l = Some cl ->
  l ∈ locs t /\ (h' !! l = Some cl \/ owned (generation b) (cells_of t) l).
Proof.
  intros Hl Hcl. destruct (st_new _ _ _ _ _ Hstep l Hl) as [Hin|?]; [|congruence].
  split; [done|]. destruct (decide (get_generation cl = generation b)) as [Hg|Hg].
  - right. apply (holds_owned _ (cells w)); [|done|by exists cl].
    apply (mo_holds _ _ _ (wo_map w G Hw x b t Hx Ht)).
  - left. apply (st_frame _ _ _ _ _ Hstep); [done|]. intros (cl1 & Hin1 & Hg1).
    apply (mo_holds _ _ _ (wo_map w G Hw x b t Hx Ht)) in Hin1. congruence.
Qed.
End local.

(** ** Counting copies *)

Definition count_of (id : positive) (m : gmap positive body) : nat :=
  size (filter (fun xb => _debug_parent xb.2 = Some id) m).
Definition counts (id : positive) b : nat := if decide (_debug_parent b = Some id) then 1 else 0.

Lemma count_insert id m x b : m !! x = None -> count_of id (<[x := b]> m) = counts id b + count_of id m.
Proof.
  intros Hx. unfold count_of, counts. case_decide as Hp.
  - rewrite map_filter_insert_True by done. rewrite map_size_insert_None; [done|].
    apply map_lookup_filter_None. by left.
  - rewrite map_filter_insert_False by done. by rewrite delete_id.
Qed.

Lemma count_delete id m x b : m !! x = Some b -> count_of id m = counts id b + count_of id (delete x m).
Proof.
  intros Hx. rewrite <-(insert_delete_id m x b Hx) at 1. apply count_insert, lookup_delete_eq.
Qed.

Lemma count_replace id m x b b' : m !! x = Some b -> _debug_parent b' = _debug_parent b ->
  count_of id (<[x := b']> m) = count_of id m.
Proof.
  intros Hx Hp. rewrite (count_delete id m x b Hx), <-insert_delete_eq.
  rewrite count_insert by apply lookup_delete_eq. unfold counts. by rewrite Hp.
Qed.

(** ** Replacing the contents of a map *)

Lemma world_replace w G x b t b' t' h' :
  world_ok w G -> maps w !! x = Some b -> G !! x = Some t -> childless w b ->
  step (generation b) (cells w) (cells_of t) h' (cells_of t') ->
  generation b' = generation b -> _debug_parent b' = _debug_parent b ->
  _debug_refcount b' = _debug_refcount b -> map_ok h' b' t' ->
  world_ok (MkWorld h' (counters w) (<[x := b']> (maps w))) (<[x := t']> G).
Proof.
  intros Hw Hx Ht Hc Hstep Hg Hp Hr Hok.
  assert (Hget : forall y c s, <[x := b']> (maps w) !! y = Some c -> <[x := t']> G !! y = Some s ->
    (y = x /\ c = b' /\ s = t') \/ (y <> x /\ maps w !! y = Some c /\ G !! y = Some s)).
  { intros y c s. destruct (decide (y = x)) as [->|Hne].
    - rewrite !lookup_insert_eq. intros. simplify_eq. by left.
    - rewrite !lookup_insert_ne by done. auto. }
  assert (Hold : forall y c, <[x := b']> (maps w) !! y = Some c -> exists c0, maps w !! y = Some c0 /\
    generation c0 = generation c /\ _debug_parent c0 = _debug_parent c /\ _debug_refcount c0 = _debug_refcount c).
  { intros y c. destruct (decide (y = x)) as [->|Hne].
    - rewrite lookup_insert_eq. intros. simplify_eq. by exists b.
    - rewrite lookup_insert_ne by done. eauto. }
  assert (Hpar : forall i p, parent_of w i p -> parent_of (MkWorld h' (counters w) (<[x := b']> (maps w)) : world K V) i p).
  { intros i p (y & c & Hy & ? & ?). destruct (decide (y = x)) as [->|Hne].
    - simplify_eq. exists x, b'. cbn. by rewrite lookup_insert_eq, Hr, Hp.
    - exists y, c. cbn. by rewrite lookup_insert_ne. }
  pose proof (mo_holds _ _ _ Hok) as Hh'.
  split; cbn [maps cells counters].
  - intros y. destruct (decide (y = x)) as [->|Hne]; [by rewrite !lookup_insert_eq|].
    rewrite !lookup_insert_ne by done. apply (wo_dom w G Hw).
  - intros y c s Hy Hs. destruct (Hget y c s Hy Hs) as [(-> & -> & ->)|(Hne & ? & ?)]; [done|].
    by apply (local_map_ok w G Hw x b t Hx Ht Hc h' _ Hstep y c s).
  - intros y z c d Hy Hz E. destruct (Hold y c Hy) as (c0 & ? & _ & _ & ?).
    destruct (Hold z d Hz) as (d0 & ? & _ & _ & ?). apply (wo_ids w G Hw y z c0 d0); [done|done|congruence].
  - intros y c Hy. destruct (Hold y c Hy) as (c0 & Hy0 & _ & _ & <-).
    rewrite (wo_count w G Hw y c0 Hy0). unfold children. cbn [maps].
    fold (count_of (_debug_refcount c0) (maps w)).
    fold (count_of (_debug_refcount c0) (<[x := b']> (maps w))). by rewrite (count_replace _ _ x b b').
  - intros y c p Hy Hyp. destruct (Hold y c Hy) as (c0 & Hy0 & <- & Hp0 & _). rewrite <-Hp0 in Hyp.
    destruct (wo_parent w G Hw y c0 p Hy0 Hyp) as (z & d & Hz & ? & ?).
    destruct (decide (z = x)) as [->|Hne].
    + simplify_eq. exists x, b'. rewrite lookup_insert_eq, Hr, Hg. by split_and!.
    + exists z, d. by rewrite lookup_insert_ne.
  - intros l cl Hl. destruct (local_owner w G Hw x b t Hx Ht Hc h' _ Hstep l cl Hl)
      as [Ho|(y & c & s & Hne & ? & ? & ? & ?)].
    + exists x, b', t'. rewrite !lookup_insert_eq, Hg. pose proof (owned_in _ _ _ Ho).
      destruct Ho as (cl' & Hin & Hgc). apply Hh' in Hin. simplify_eq. by split_and!.
    + exists y, c, s. by rewrite !lookup_insert_ne.
  - intros y z c d s u l cl Hy Hs Hz Hu Hl Hgl Hls Hlu.
    destruct (Hget y c s Hy Hs) as [(-> & -> & ->)|(Hne & Hy0 & Hs0)];
      destruct (Hget z d u Hz Hu) as [(-> & -> & ->)|(Hne' & Hz0 & Hu0)].
    + apply rtc_refl.
    + exfalso. destruct (in_locs _ _ Hlu) as (cl0 & Hin0).
      apply (mo_holds _ _ _ (wo_map w G Hw z d u Hz0 Hu0)) in Hin0.
      assert (Hno : ~ owned (generation b) (cells_of t) l) by by eapply (not_shared w G x z).
      destruct (local_new w G Hw x b t Hx Ht h' _ Hstep l cl0 Hls Hin0) as [Hlt [Hk|?]]; [|done].
      apply Hno. apply (holds_owned _ (cells w)); [|done|].
      { apply (mo_holds _ _ _ (wo_map w G Hw x b t Hx Ht)). }
      exists cl0. split; [done|]. congruence.
    + destruct (in_locs _ _ Hls) as (cl0 & Hin0).
      apply (mo_holds _ _ _ (wo_map w G Hw y c s Hy0 Hs0)) in Hin0.
      destruct (local_new w G Hw x b t Hx Ht h' _ Hstep l cl0 Hlu Hin0) as [Hlt _].
      pose proof (local_frame w G Hw x b t Hx Ht Hc h' _ Hstep y c s l cl0 Hne Hy0 Hs0 Hls Hin0).
      simplify_eq. rewrite Hr. eapply rtc_subrel; [exact Hpar|].
      by eapply (wo_shared w G Hw y x c b s t l cl).
    + destruct (in_locs _ _ Hls) as (cl0 & Hin0).
      apply (mo_holds _ _ _ (wo_map w G Hw y c s Hy0 Hs0)) in Hin0.
      pose proof (local_frame w G Hw x b t Hx Ht Hc h' _ Hstep y c s l cl0 Hne Hy0 Hs0 Hls Hin0).
      simplify_eq. eapply rtc_subrel; [exact Hpar|].
      by eapply (wo_shared w G Hw y z c d s u l cl).
Qed.

(** ** Removing a map *)

Lemma world_remove w G x b t h' cs :
  world_ok w G -> maps w !! x = Some b -> G !! x = Some t -> childless w b ->
  step (generation b) (cells w) (cells_of t) h' [] ->
  (forall y c, y <> x -> maps w !! y = Some c -> cs !! _debug_refcount c =
     Some (count_of (_debug_refcount c) (delete x (maps w)))) ->
  world_ok (MkWorld h' cs (delete x (maps w))) (delete x G).
Proof.
  intros Hw Hx Ht Hc Hstep Hcs.
  assert (Hget : forall {A} (m : gmap positive A) y (a : A), delete x m !! y = Some a -> y <> x /\ m !! y = Some a).
  { intros A m y a. rewrite lookup_delete_Some. naive_solver. }
  assert (Hpar : forall i p, parent_of w i p -> i <> _debug_refcount b ->
    parent_of (MkWorld h' cs (delete x (maps w)) : world K V) i p).
  { intros i p (y & c & Hy & Hi & ?) Hne. exists y, c. cbn. rewrite lookup_delete_ne; [done|].
    intros ->. simplify_eq. }
  assert (Hrtc : forall i p, rtc (parent_of w) i p -> i <> _debug_refcount b ->
    rtc (parent_of (MkWorld h' cs (delete x (maps w)) : world K V)) i p).
  { induction 1 as [|i j p Hij _ IH]; intros Hne; [apply rtc_refl|].
    eapply rtc_l; [by apply Hpar|]. apply IH. intros ->.
    destruct Hij as (y & c & Hy & _ & Hp). by apply (Hc y c Hy). }
  split; cbn [maps cells counters].
  - intros y. rewrite !lookup_delete_is_Some. by rewrite (wo_dom w G Hw).
  - intros y c s [Hne Hy]%Hget [_ Hs]%Hget. by apply (local_map_ok w G Hw x b t Hx Ht Hc h' _ Hstep y c s).
  - intros y z c d [_ ?]%Hget [_ ?]%Hget ?. by apply (wo_ids w G Hw y z c d).
  - intros y c [Hne Hy]%Hget. by apply (Hcs y c).
  - intros y c p [Hne Hy]%Hget Hp. destruct (wo_parent w G Hw y c p Hy Hp) as (z & d & Hz & Hd & ?).
    exists z, d. rewrite lookup_delete_ne; [done|]. intros ->. simplify_eq. by apply (Hc y c Hy).
  - intros l cl Hl. destruct (local_owner w G Hw x b t Hx Ht Hc h' _ Hstep l cl Hl)
      as [(? & []%not_elem_of_nil & _)|(y & c & s & Hne & ? & ? & ? & ?)].
    exists y, c, s. by rewrite !lookup_delete_ne.
  - intros y z c d s u l cl [Hne Hy]%Hget [_ Hs]%Hget [Hne' Hz]%Hget [_ Hu]%Hget Hl Hgl Hls Hlu.
    destruct (in_locs _ _ Hls) as (cl0 & Hin0).
    apply (mo_holds _ _ _ (wo_map w G Hw y c s Hy Hs)) in Hin0.
    pose proof (local_frame w G Hw x b t Hx Ht Hc h' _ Hstep y c s l cl0 Hne Hy Hs Hls Hin0).
    simplify_eq. apply Hrtc; [by eapply (wo_shared w G Hw y z c d s u l cl)|].
    intros E. apply Hne'. by eapply (wo_ids w G Hw).
Qed.
End world.
