(* ===== verification/GenMapCopies.v ===== *)
(** * GenMapCopies: what each operation does to the maps together; hash functions,
      and the operations on map objects

    What a hash function must guarantee, and that creating, copying, exchanging
    and destroying maps keeps the invariant of all maps. *)

From S2P Require Import Prelude.
From S2P Require Import GenMap.
From S2P Require Import GenMapTree.
From S2P Require Import GenMapNodes.
From S2P Require Import GenMapMut.
From S2P Require Import GenMapRead.
From S2P Require Import GenMapWorld.

(** ** Writing a value *)

Section assign.
Context {K V : Type} `{EqDecision K} (hash_key : K -> Z) (l : positive) (v : V).
Implicit Types (t : tree K V) (e : entry K V) (es : list (entry K V)) (ts : list (tree K V)).

Definition set_entry e : entry K V :=
  if decide (e_loc e = l) then MkEntry (e_loc e) (e_gen e) (e_key e) v else e.
Fixpoint set_tree t : tree K V :=
  match t with
  | Chain es => Chain (set_entry <$> es)
  | Node l gn bm ts => Node l gn bm (set_tree <$> ts)
  end.
Definition set_cell (c : cell K V) : cell K V :=
  match c with leaf_cell g k _ next => leaf_cell g k v next | _ => c end.
Definition set_at (x : positive * cell K V) : positive * cell K V :=
  if decide (x.1 = l) then (x.1, set_cell x.2) else x.

Fixpoint leaves t : list (entry K V) :=
  match t with Chain es => es | Node _ _ _ ts => mjoin (leaves <$> ts) end.

(** Induction over trees, with the children of a node in a list. *)
Lemma tree_children_ind (P : tree K V -> Prop) :
  (forall es, P (Chain es)) -> (forall l gn bm ts, Forall P ts -> P (Node l gn bm ts)) -> forall t, P t.
Proof.
  intros Hc Hn. fix IH 1. intros [es|l' gn bm ts]; [apply Hc|]. apply Hn.
  induction ts; constructor; [apply IH|done].
Qed.

Lemma set_entry_loc e : e_loc (set_entry e) = e_loc e.
Proof. unfold set_entry. by case_decide. Qed.
Lemma set_entry_gen e : e_gen (set_entry e) = e_gen e.
Proof. unfold set_entry. by case_decide. Qed.
Lemma set_entry_key e : e_key (set_entry e) = e_key e.
Proof. unfold set_entry. by case_decide. Qed.

Lemma chain_ptr_set es : chain_ptr (set_entry <$> es) = chain_ptr es.
Proof. destruct es as [|e es]; [done|]. unfold chain_ptr. simpl. by rewrite set_entry_loc. Qed.

Lemma ptr_of_set t : ptr_of (set_tree t) = ptr_of t.
Proof. destruct t as [es|]; [apply chain_ptr_set|done]. Qed.

Lemma chain_cells_set es : chain_cells (set_entry <$> es) = set_at <$> chain_cells es.
Proof.
  induction es as [|e es IH]; [done|]. rewrite fmap_cons. cbn [chain_cells].
  rewrite chain_ptr_set, IH, fmap_cons. f_equal. unfold set_at, set_entry, leaf_of. simpl. by case_decide.
Qed.

Lemma fmap_join {A B} (f : A -> B) (L : list (list A)) : f <$> mjoin L = mjoin (fmap f <$> L).
Proof.
  induction L as [|x L IH]; [done|]. rewrite fmap_cons.
  change (mjoin (x :: L)) with (x ++ mjoin L). by rewrite fmap_app, IH.
Qed.

Lemma cells_of_set t : cells_of (set_tree t) = set_at <$> cells_of t.
Proof.
  induction t as [es|l' gn bm ts IH] using tree_children_ind; [apply chain_cells_set|].
  cbn [set_tree cells_of]. rewrite fmap_cons. f_equal.
  - unfold set_at, node_of. simpl. rewrite <-list_fmap_compose.
    assert (E : ptr_of ∘ set_tree <$> ts = ptr_of <$> ts).
    { apply list_fmap_ext. intros i t _. apply ptr_of_set. }
    rewrite E. by case_decide.
  - rewrite fmap_join. f_equal. rewrite <-!list_fmap_compose. apply Forall_fmap_ext_1. exact IH.
Qed.

Lemma leaves_set t : leaves (set_tree t) = set_entry <$> leaves t.
Proof.
  induction t as [es|l' gn bm ts IH] using tree_children_ind; [done|].
  cbn [set_tree leaves]. rewrite fmap_join. f_equal. rewrite <-!list_fmap_compose.
  apply Forall_fmap_ext_1. exact IH.
Qed.

Lemma entries_leaves t : entries t = kv <$> leaves t.
Proof.
  induction t as [es|l' gn bm ts IH] using tree_children_ind; [done|].
  cbn [entries leaves]. rewrite fmap_join. f_equal. rewrite <-!list_fmap_compose.
  apply Forall_fmap_ext_1. exact IH.
Qed.

Lemma keys_set t : keys (set_tree t) = keys t.
Proof.
  unfold keys. rewrite !entries_leaves, leaves_set, <-!list_fmap_compose.
  apply list_fmap_ext. intros i e _. apply set_entry_key.
Qed.

Lemma entries_set_nil t : entries (set_tree t) = [] <-> entries t = [].
Proof.
  rewrite !entries_leaves, leaves_set. by destruct (leaves t).
Qed.

Lemma wf_set n t : wf_tree hash_key n t -> wf_tree hash_key n (set_tree t).
Proof.
  assert (Hchain : forall n es, wf_tree hash_key n (Chain es : tree K V) ->
    wf_tree hash_key n (Chain (set_entry <$> es) : tree K V)).
  { intros m es. assert (Hk : e_key <$> (set_entry <$> es) = e_key <$> es).
    { rewrite <-list_fmap_compose. apply list_fmap_ext. intros i e _. apply set_entry_key. }
    destruct m; cbn [wf_tree]; rewrite Hk; (intros [? Hs]; split; [done|]);
      intros ? ? (e1 & -> & H1)%list_elem_of_fmap (e2 & -> & H2)%list_elem_of_fmap;
      rewrite !set_entry_key; by apply Hs. }
  revert t. induction n as [|n IH]; intros [es|l' gn bm ts]; [apply Hchain|done|apply Hchain|].
  intros Hwf. pose proof Hwf as (Hb & (k1 & k2 & Hk) & HF).
  pose proof (keys_set (Node l' gn bm ts)) as Hkeys. cbn [set_tree] in Hkeys |- *.
  cbn [wf_tree]. rewrite Hkeys. split_and!; [lia|lia|by exists k1, k2|].
  rewrite Forall2_fmap_r. eapply Forall2_impl; [exact HF|]. intros i s (Hs & Hne & Hd).
  split_and!; [by apply IH|by rewrite entries_set_nil|by rewrite keys_set].
Qed.

Lemma gens_set t : forall g, gens_ok g t -> gens_ok g (set_tree t).
Proof.
  induction t as [es|l' gn bm ts IH] using tree_children_ind; intros g.
  - cbn [gens_ok set_tree]. revert g. induction es as [|e es IHes]; intros g; [done|]. simpl.
    rewrite set_entry_gen. intros [? ?]. split; [done|]. by apply IHes.
  - cbn [set_tree]. rewrite !gens_ok_node. intros [? Hts]. split; [done|].
    rewrite Forall_fmap. rewrite Forall_forall in IH, Hts |- *. intros s Hs. by apply IH, Hts.
Qed.

Lemma leaf_in_cells t l0 g k v0 next : (l0, leaf_cell g k v0 next) ∈ cells_of t ->
  exists e, e ∈ leaves t /\ e_loc e = l0 /\ e_key e = k /\ e_val e = v0.
Proof.
  induction t as [es|l' gn bm ts IH] using tree_children_ind.
  - cbn [cells_of leaves]. induction es as [|e es IHes]; [by intros ?%not_elem_of_nil|].
    cbn [chain_cells]. intros [[=]|Hin]%elem_of_cons; [exists e; split; [by left|done]|].
    destruct (IHes Hin) as (e' & ? & ?). exists e'. split; [by right|done].
  - cbn [cells_of leaves]. intros [[=]|Hin]%elem_of_cons.
    apply list_elem_of_join in Hin as (C & HC & (s & -> & Hs)%list_elem_of_fmap).
    rewrite Forall_forall in IH. destruct (IH s Hs HC) as (e & He & ?). exists e. split; [|done].
    apply list_elem_of_join. exists (leaves s). split; [done|]. apply list_elem_of_fmap. by exists s.
Qed.

Lemma leaves_sublist t : e_loc <$> leaves t `sublist_of` (cells_of t).*1.
Proof.
  induction t as [es|l' gn bm ts IH] using tree_children_ind.
  - cbn [leaves cells_of]. by rewrite chain_cells_locs.
  - cbn [leaves cells_of]. rewrite fmap_cons. apply sublist_cons.
    rewrite !fmap_join, <-!list_fmap_compose.
    induction IH as [|s ts Hs _ IHts]; [constructor|]. rewrite !fmap_cons. by apply sublist_app.
Qed.

Lemma leaves_locs t e : e ∈ leaves t -> e_loc e ∈ (cells_of t).*1.
Proof.
  induction t as [es|l' gn bm ts IH] using tree_children_ind.
  - cbn [leaves cells_of]. rewrite chain_cells_locs. apply list_elem_of_fmap_2.
  - cbn [leaves cells_of]. intros (L & HL & (s & -> & Hs)%list_elem_of_fmap)%list_elem_of_join.
    rewrite Forall_forall in IH. apply (IH s Hs) in HL. apply list_elem_of_fmap in HL as (x & -> & Hx).
    rewrite fmap_cons. right. apply list_elem_of_fmap_2, list_elem_of_join.
    exists (cells_of s). split; [done|]. apply list_elem_of_fmap. by exists s.
Qed.
End assign.

Section ops.
Context {K V : Type} `{Countable K} (hash_key : K -> Z) (init : V) (junk : option positive).
Context (Hhash : forall k, (0 <= hash_key k < 2 ^ 64)%Z).
Context (Hspread : forall k1 k2 k3, k1 <> k2 -> hash_key k1 = hash_key k2 ->
  (hash_key k3 mod 2 ^ 60 = hash_key k1 mod 2 ^ 60)%Z -> hash_key k3 = hash_key k1).
Implicit Types (h : heap K V) (t s : tree K V) (w : world K V) (x y : positive) (b c : body)
  (G : gmap positive (tree K V)) (k : K) (v : V).

Lemma contents_lookup n t k v : wf_tree hash_key n t ->
  contents t !! k = Some v <-> (k, v) ∈ entries t.
Proof. intros Hwf. symmetry. apply elem_of_list_to_map. by eapply wf_nodup. Qed.

Lemma contents_none n t k : wf_tree hash_key n t -> contents t !! k = None <-> k ∉ keys t.
Proof. intros _. symmetry. apply not_elem_of_list_to_map. Qed.

Lemma size_contents n t : wf_tree hash_key n t -> size (contents t) = length (entries t).
Proof. intros Hwf. apply map_size_list_to_map. by eapply wf_nodup. Qed.

(** Writing the value of a leaf. *)
Lemma contents_set n t l e v : wf_tree hash_key n t -> NoDup (locs t) -> e ∈ leaves t -> e_loc e = l ->
  contents (set_tree l v t) = <[e_key e := v]> (contents t).
Proof.
  intros Hwf Hn He Hl. apply map_eq. intros k. apply option_eq. intros v'.
  rewrite (contents_lookup n) by by apply wf_set.
  assert (Huniq : forall e', e' ∈ leaves t -> e_key e' = e_key e -> e' = e).
  { intros e' He' Hk. assert (Hnd : NoDup (e_key <$> leaves t)).
    { pose proof (wf_nodup hash_key n t Hwf) as Hk'. unfold keys in Hk'.
      by rewrite entries_leaves, <-list_fmap_compose in Hk'. }
    apply list_elem_of_lookup in He as [i Hi]. apply list_elem_of_lookup in He' as [j Hj].
    assert (i = j) as ->; [|congruence].
    eapply (NoDup_lookup _ i j (e_key e) Hnd); rewrite list_lookup_fmap; [by rewrite Hi|].
    by rewrite Hj, <-Hk. }
  assert (Hleaf : forall e', e' ∈ leaves t -> e_loc e' = l -> e_key e' = e_key e).
  { intros e' He' El. assert (Hnl : NoDup (e_loc <$> leaves t)).
    { eapply sublist_NoDup; [apply Hn|]. apply leaves_sublist. }
    apply list_elem_of_lookup in He as [i Hi]. apply list_elem_of_lookup in He' as [j Hj].
    assert (i = j) as ->; [|congruence].
    eapply (NoDup_lookup _ i j l Hnl); rewrite list_lookup_fmap; [by rewrite Hi, <-Hl|].
    by rewrite Hj, <-El. }
  rewrite entries_leaves, leaves_set, <-list_fmap_compose, list_elem_of_fmap.
  rewrite lookup_insert_Some, (contents_lookup n t k v') by done.
  rewrite entries_leaves, list_elem_of_fmap. split.
  - intros (e' & E & He'). unfold kv, compose in E. rewrite set_entry_key in E. injection E as -> ->.
    unfold set_entry. case_decide as El; simpl.
    + left. split; [symmetry; by apply Hleaf|done].
    + right. split; [intros Ek; apply El; rewrite <-Hl; f_equal; by apply Huniq|by exists e'].
  - intros [[<- <-]|[Hne (e' & [= -> ->] & He')]].
    + exists e. split; [|done]. unfold kv, compose, set_entry. by rewrite decide_True.
    + exists e'. split; [|done]. unfold kv, compose, set_entry. case_decide as El; [|done].
      exfalso. apply Hne. symmetry. by apply Hleaf.
Qed.

(** ** [mut] and writing through its result *)

Lemma mut_world w G x b t k :
  world_ok hash_key w G -> maps w !! x = Some b -> G !! x = Some t ->
  counters w !! _debug_refcount b = Some 0 ->
  exists leaf w' b' t', mut hash_key init junk x k w = Some (leaf, w') /\
    world_ok hash_key w' (<[x := t']> G) /\ maps w' !! x = Some b' /\ childless w' b' /\
    counters w' = counters w /\ _debug_refcount b' = _debug_refcount b /\
    contents t' = <[k := default init (contents t !! k)]> (contents t) /\
    (exists v next, (leaf, leaf_cell (-1 - generation b') k v next) ∈ cells_of t').
Proof.
  intros Hw Hx Ht H0. pose proof (writable_childless hash_key w G x b Hw Hx H0) as Hc.
  destruct (wo_map _ w G Hw x b t Hx Ht) as [Hr Hwf Hg Hh Hn Hs Hpos].
  destruct (mut_child_spec hash_key init junk Hhash (generation b) Hpos Hspread levels 0 k t (cells w))
    as (t' & leaf & grown & h' & E & Hch); try done.
  { intros k' _. unfold prefix. by rewrite !Z.mod_1_r. }
  unfold mut. rewrite Hx. cbn [mbind option_bind]. unfold assert_writable. rewrite H0.
  cbn [mbind option_bind]. rewrite bool_decide_true by done. cbn [cassert mbind option_bind].
  rewrite Hr. unfold rest in E. rewrite Z.div_1_r in E. change (5 * Z.of_nat 0)%Z with 0%Z in E.
  rewrite E. cbn [mbind option_bind].
  set (b' := MkBody _ _ _ _ _). pose proof (ch_wf _ _ _ _ _ _ _ _ _ _ _ Hch) as Hwf'.
  pose proof (ch_entries _ _ _ _ _ _ _ _ _ _ _ Hch) as He.
  assert (Hok : map_ok hash_key h' b' t').
  { split; try done.
    - apply (ch_gens _ _ _ _ _ _ _ _ _ _ _ Hch).
    - apply (st_after _ _ _ _ _ (ch_step _ _ _ _ _ _ _ _ _ _ _ Hch)).
    - apply (st_nodup' _ _ _ _ _ (ch_step _ _ _ _ _ _ _ _ _ _ _ Hch)).
    - unfold b'. cbn [_size]. rewrite Hs. destruct grown; destruct He as [_ ->]; [|done].
      simpl length. unfold wrapu. rewrite Zplus_mod_idemp_l. f_equal. lia. }
  eexists leaf, _, b', t'. split; [reflexivity|]. split_and!; [|by cbn [maps]; rewrite lookup_insert_eq| |done|done| |].
  - by apply (world_replace hash_key w G x b t b' t' h'); try done; apply (ch_step _ _ _ _ _ _ _ _ _ _ _ Hch).
  - intros y c. cbn [maps]. destruct (decide (y = x)) as [->|Hne].
    + rewrite lookup_insert_eq. intros [= <-]. apply (Hc x b Hx).
    + rewrite lookup_insert_ne by done. apply (Hc y c).
  - apply map_eq. intros k'. apply option_eq. intros v'.
    rewrite (contents_lookup levels t' k' v' Hwf'), lookup_insert_Some, (contents_lookup levels t k' v' Hwf).
    destruct grown; destruct He as [Hk He].
    + rewrite He, elem_of_cons. rewrite (proj2 (contents_none levels t k Hwf) Hk). simpl.
      split; [intros [[= -> ->]|Hin]; [by left|right]|intros [[-> ->]|[_ ?]]; [by left|by right]].
      split; [|done]. intros ->. by apply in_keys in Hin.
    + rewrite He. apply list_elem_of_fmap in Hk as ([k0 v0] & -> & Hk). simpl.
      apply (contents_lookup levels t k0 v0 Hwf) in Hk. rewrite Hk. simpl.
      rewrite <-(contents_lookup levels t k' v' Hwf).
      clear -Hk. destruct (decide (k0 = k')) as [->|]; [rewrite Hk|]; naive_solver.
  - apply (ch_leaf _ _ _ _ _ _ _ _ _ _ _ Hch).
Qed.

Lemma assign_world w G x b t leaf k v0 next v :
  world_ok hash_key w G -> maps w !! x = Some b -> G !! x = Some t -> childless w b ->
  (leaf, leaf_cell (-1 - generation b) k v0 next) ∈ cells_of t ->
  exists w', assign leaf v w = Some w' /\ world_ok hash_key w' (<[x := set_tree leaf v t]> G) /\
    maps w' = maps w /\ counters w' = counters w /\
    contents (set_tree leaf v t) = <[k := v]> (contents t).
Proof.
  intros Hw Hx Ht Hc Hin. destruct (wo_map _ w G Hw x b t Hx Ht) as [Hr Hwf Hg Hh Hn Hs Hpos].
  unfold assign. rewrite (Hh _ _ Hin). cbn [mbind option_bind]. eexists. split; [reflexivity|].
  assert (Hstep : step (generation b) (cells w) (cells_of t)
    (<[leaf := leaf_cell (-1 - generation b) k v next]> (cells w)) (cells_of (set_tree leaf v t))).
  { rewrite cells_of_set. pose proof Hin as Hin'. apply list_elem_of_lookup in Hin as [i Hi].
    pose proof (delete_Permutation _ _ _ Hi) as HP. revert HP. generalize (delete i (cells_of t)) as R.
    intros R HP.
    assert (Hother : set_at leaf v <$> R = R).
    { rewrite <-(list_fmap_id R) at 2. apply Forall_fmap_ext_1, Forall_forall.
      intros [l cl] Hl. unfold set_at. simpl. case_decide as El; [|done]. subst l. exfalso.
      unfold locs in Hn. rewrite HP in Hn. rewrite fmap_cons in Hn. apply NoDup_cons in Hn as [Hn _].
      apply Hn, list_elem_of_fmap. by exists (leaf, cl). }
    eapply step_perm; [symmetry; apply HP| |apply step_write].
    - rewrite HP, fmap_cons, Hother. unfold set_at at 1. simpl. rewrite decide_True by done. done.
    - intros l cl Hl. apply Hh. by rewrite HP.
    - unfold locs in Hn. by rewrite HP in Hn.
    - unfold get_generation. simpl. case_match; lia.
    - unfold get_generation. simpl. case_match; lia. }
  destruct (leaf_in_cells t leaf _ _ _ _ Hin) as (e & He & El & Ek & _).
  split_and!; [|done|done|].
  - rewrite <-(insert_id (maps w) x b Hx). apply (world_replace hash_key w G x b t); try done.
    split; try done.
    + by rewrite ptr_of_set.
    + by apply wf_set.
    + by apply gens_set.
    + apply (st_after _ _ _ _ _ Hstep).
    + apply (st_nodup' _ _ _ _ _ Hstep).
    + rewrite Hs, !entries_leaves, leaves_set. by rewrite !length_fmap.
  - rewrite <-Ek. by apply (contents_set levels).
Qed.
End ops.

(** * Hash functions, and the operations on map objects *)

(** ** What is asked of a hash function

    A 64-bit hash where two keys of one hash have no third key of another hash
    that agrees on the low 60 bits; an injective hash is one. *)
Class SpreadHash {K : Type} (hash_key : K -> Z) : Prop := {
  hash_range k : (0 <= hash_key k < 2 ^ 64)%Z;
  hash_spread k1 k2 k3 : k1 <> k2 -> hash_key k1 = hash_key k2 ->
    (hash_key k3 mod 2 ^ 60 = hash_key k1 mod 2 ^ 60)%Z -> hash_key k3 = hash_key k1;
}.

Lemma gen_hash_range z : (0 <= gen_hash z < 2 ^ 64)%Z.
Proof.
  unfold gen_hash. pose proof (wrapu_range 64 (z * 0xc6a4a7935bd1e995) ltac:(lia)) as Hr.
  set (h := wrapu 64 _) in *. destruct (47 <? h)%Z; [|by rewrite Z.lxor_0_r].
  split; [apply Z.lxor_nonneg; lia|].
  destruct (decide (Z.lxor h 1 = 0%Z)) as [->|Hne]; [lia|].
  assert (0 <= Z.lxor h 1)%Z by (apply Z.lxor_nonneg; lia).
  apply Z.log2_lt_pow2; [lia|]. eapply Z.le_lt_trans; [apply Z.log2_lxor; lia|].
  change (Z.log2 1) with 0%Z. assert (0 <= Z.log2 h)%Z by apply Z.log2_nonneg.
  rewrite Z.max_l by lia. destruct (decide (h = 0%Z)) as [->|]; [done|]. apply Z.log2_lt_pow2; lia.
Qed.

Lemma lxor_1_div z : (Z.lxor z 1 / 2 = z / 2)%Z.
Proof.
  rewrite <-!Z.div2_div, !Z.div2_spec. apply Z.bits_inj'. intros i Hi.
  rewrite !Z.shiftr_spec, Z.lxor_spec by lia. 
  replace (Z.testbit 1 (i + 1)) with false; [apply xorb_false_r|].
  symmetry. apply (Z.bits_above_log2 1); simpl; lia.
Qed.

(** The mixing step of [gen_hash] loses nothing. *)
Lemma gen_hash_inj x y : (0 <= x < 2 ^ 64)%Z -> (0 <= y < 2 ^ 64)%Z ->
  gen_hash x = gen_hash y -> x = y.
Proof.
  intros Hx Hy. unfold gen_hash.
  set (hx := wrapu 64 (x * 0xc6a4a7935bd1e995)). set (hy := wrapu 64 (y * 0xc6a4a7935bd1e995)).
  assert (Hmul : hx = hy -> x = y).
  { unfold hx, hy, wrapu. intros E.
    assert (Hinv : forall z, (0 <= z < 2 ^ 64)%Z ->
      z = (((z * 0xc6a4a7935bd1e995) mod 2 ^ 64 * 0x5f7a0ea7e59b19bd) mod 2 ^ 64)%Z).
    { intros z Hz. rewrite Z.mul_mod_idemp_l by lia.
      assert (exists q, 0xc6a4a7935bd1e995 * 0x5f7a0ea7e59b19bd = 1 + q * 2 ^ 64)%Z as [q Hq].
      { exists ((0xc6a4a7935bd1e995 * 0x5f7a0ea7e59b19bd) / 2 ^ 64)%Z. vm_compute. reflexivity. }
      rewrite <-Z.mul_assoc, Hq. replace (z * (1 + q * 2 ^ 64))%Z with (z + z * q * 2 ^ 64)%Z by ring.
      rewrite Z.mod_add by lia. symmetry. by apply Z.mod_small. }
    rewrite (Hinv x Hx), (Hinv y Hy). by rewrite E. }
  intros E. apply Hmul. destruct (47 <? hx)%Z eqn:Ex, (47 <? hy)%Z eqn:Ey;
    rewrite ?Z.lxor_0_r in E.
  - apply (f_equal (fun z => Z.lxor z 1)) in E.
    by rewrite !Z.lxor_assoc, Z.lxor_nilpotent, !Z.lxor_0_r in E.
  - exfalso. pose proof (lxor_1_div hx) as Hd. rewrite E in Hd.
    assert (24 <= hx / 2)%Z by (apply Z.div_le_lower_bound; lia).
    assert (hy / 2 < 24)%Z by (apply Z.div_lt_upper_bound; lia). lia.
  - exfalso. pose proof (lxor_1_div hy) as Hd. rewrite <-E in Hd.
    assert (24 <= hy / 2)%Z by (apply Z.div_le_lower_bound; lia).
    assert (hx / 2 < 24)%Z by (apply Z.div_lt_upper_bound; lia). lia.
  - done.
Qed.

(** Keys whose [std::hash] is a 64-bit encoding, as for [IID] and [SymAddr]. *)
Lemma spread_encoding {K : Type} (enc : K -> Z) :
  (forall k, (0 <= enc k < 2 ^ 64)%Z) -> Inj (=) (=) enc -> SpreadHash (fun k => gen_hash (enc k)).
Proof.
  intros Hr Hinj. split; [intros; apply gen_hash_range|].
  intros k1 k2 k3 Hne E. exfalso. apply Hne, Hinj. by apply gen_hash_inj.
Qed.

(** ** New, copied, exchanged and destroyed maps *)

Section worlds.
Context {K V : Type} `{Countable K} (hash_key : K -> Z) (init : V) (junk : option positive).
Context `{!SpreadHash hash_key}.
Implicit Types (t s : tree K V) (w : world K V) (x y : positive) (b c : body)
  (G : gmap positive (tree K V)) (k : K) (v : V).

Lemma live_counter w G x b : world_ok hash_key w G -> maps w !! x = Some b ->
  _debug_refcount b ∈ dom (counters w).
Proof. intros Hw Hx. apply elem_of_dom. eexists. by apply (wo_count _ w G Hw x). Qed.

(** A map that reaches nothing, or what [y] reaches. *)
Lemma world_add w G x b t cs :
  world_ok hash_key w G -> maps w !! x = None -> map_ok hash_key (cells w) b t ->
  (_debug_refcount b ∉ dom (counters w)) ->
  (_debug_parent b = None /\ t = Chain [] \/ exists y c, maps w !! y = Some c /\ G !! y = Some t /\
     _debug_parent b = Some (_debug_refcount c) /\ generation b = (generation c + 1)%Z) ->
  cs !! _debug_refcount b = Some 0 ->
  (forall y c, maps w !! y = Some c -> cs !! _debug_refcount c =
     Some (counts (_debug_refcount c) b + count_of (_debug_refcount c) (maps w))) ->
  world_ok hash_key (MkWorld (cells w) cs (<[x := b]> (maps w))) (<[x := t]> G).
Proof.
  intros Hw Hx Hok Hfresh Hpar Hcs0 Hcs.
  assert (HGx : G !! x = None).
  { apply eq_None_not_Some. intros Hs. apply (wo_dom _ w G Hw) in Hs as [? ?]. congruence. }
  assert (Hid : forall y c, maps w !! y = Some c -> _debug_refcount c <> _debug_refcount b).
  { intros y c Hy E. apply Hfresh. rewrite <-E. by apply (live_counter w G y). }
  assert (Hsub : forall i p, parent_of w i p ->
    parent_of (MkWorld (cells w) cs (<[x := b]> (maps w)) : world K V) i p).
  { intros i p (y & c & Hy & ? & ?). exists y, c. cbn. rewrite lookup_insert_ne; [done|congruence]. }
  assert (Hget : forall y c s, <[x := b]> (maps w) !! y = Some c -> <[x := t]> G !! y = Some s ->
    (y = x /\ c = b /\ s = t) \/ (y <> x /\ maps w !! y = Some c /\ G !! y = Some s)).
  { intros y c s. destruct (decide (y = x)) as [->|Hne].
    - rewrite !lookup_insert_eq. intros. simplify_eq. by left.
    - rewrite !lookup_insert_ne by done. auto. }
  split; cbn [maps cells counters].
  - intros y. destruct (decide (y = x)) as [->|Hne]; [by rewrite !lookup_insert_eq|].
    rewrite !lookup_insert_ne by done. apply (wo_dom _ w G Hw).
  - intros y c s Hy Hs. destruct (Hget y c s Hy Hs) as [(-> & -> & ->)|(_ & ? & ?)]; [done|].
    by apply (wo_map _ w G Hw y).
  - intros y z c d. rewrite !lookup_insert_Some.
    intros [[<- <-]|[_ Hy]] [[<- <-]|[_ Hz]] E; [done| | |by apply (wo_ids _ w G Hw y z c d)].
    + by destruct (Hid z d Hz).
    + by destruct (Hid y c Hy).
  - intros y c. rewrite lookup_insert_Some. unfold children. cbn [maps].
    fold (count_of (_debug_refcount c) (<[x := b]> (maps w))). rewrite count_insert by done.
    intros [[<- <-]|[_ Hy]]; [|by apply (Hcs y)]. rewrite Hcs0. f_equal.
    assert (H0 : count_of (_debug_refcount b) (maps w) = 0).
    { unfold count_of. apply map_size_empty_iff, map_empty. intros y.
      apply map_lookup_filter_None. right. intros c Hy Hp. simpl in Hp.
      destruct (wo_parent _ w G Hw y c _ Hy Hp) as (z & d & Hz & Hd & _). by destruct (Hid z d Hz). }
    rewrite H0. unfold counts. case_decide as Hp; [|done]. exfalso.
    destruct Hpar as [[E _]|(y & c & Hy & _ & E & _)]; rewrite E in Hp; [done|].
    simplify_eq. by destruct (Hid y c Hy).
  - intros y c p. rewrite lookup_insert_Some. intros [[<- <-]|[Hne Hy]] Hp.
    + destruct Hpar as [[E _]|(z & d & Hz & _ & E & ?)]; rewrite E in Hp; [done|]. simplify_eq.
      exists z, d. rewrite lookup_insert_ne; [done|congruence].
    + destruct (wo_parent _ w G Hw y c p Hy Hp) as (z & d & Hz & ? & ?). exists z, d.
      rewrite lookup_insert_ne; [done|congruence].
  - intros l cl Hl. destruct (wo_owner _ w G Hw l cl Hl) as (y & c & s & Hy & Hs & ? & ?).
    exists y, c, s. rewrite !lookup_insert_ne by congruence. done.
  - intros y z c d s u l cl Hy Hs Hz Hu Hl Hgl Hls Hlu.
    destruct (Hget y c s Hy Hs) as [(-> & -> & ->)|(Hne & Hy0 & Hs0)].
    + exfalso. destruct Hpar as [[_ ->]|(p & e & Hp & HGp & _ & Hge)].
      { by apply not_elem_of_nil in Hls. }
      destruct (in_locs _ _ Hls) as (cl0 & Hin0).
      pose proof (wo_map _ w G Hw p e t Hp HGp) as [_ Hwf Hg Hh _ _ _].
      pose proof (Hh _ _ Hin0). simplify_eq.
      apply (tree_older hash_key (generation b) levels (generation e) t Hwf ltac:(lia) Hg l cl Hin0).
      done.
    + destruct (Hget z d u Hz Hu) as [(-> & -> & ->)|(Hne' & Hz0 & Hu0)].
      * destruct Hpar as [[_ ->]|(p & e & Hp & HGp & Hpe & _)]; [by apply not_elem_of_nil in Hlu|].
        eapply rtc_l; [exists x, b; cbn; rewrite lookup_insert_eq; by split_and!|].
        eapply rtc_subrel; [exact Hsub|]. by eapply (wo_shared _ w G Hw y p c e s t l cl).
      * eapply rtc_subrel; [exact Hsub|]. by eapply (wo_shared _ w G Hw y z c d s u l cl).
Qed.

Lemma empty_map_ok (h : heap K V) b : root b = None -> _size b = 0%Z -> generation b = 0%Z ->
  map_ok hash_key h b (Chain []).
Proof.
  intros Hr Hs Hg. split; [done|by split; [constructor|intros ? ? ?%not_elem_of_nil]|done
    |by intros ? ? ?%not_elem_of_nil|constructor|done|lia].
Qed.

Lemma new_world w G x : world_ok hash_key w G -> maps w !! x = None ->
  exists w', new_map x w = Some w' /\ world_ok hash_key w' (<[x := Chain []]> G).
Proof.
  intros Hw Hx. unfold new_map. rewrite bool_decide_true by done. cbn [cassert mbind option_bind].
  set (id := fresh (dom (counters w))). assert (Hid : id ∉ dom (counters w)) by apply is_fresh.
  eexists. split; [reflexivity|]. apply world_add; try done.
  - by apply empty_map_ok.
  - by left.
  - by rewrite lookup_insert_eq.
  - intros y c Hy. pose proof (live_counter w G y c Hw Hy).
    rewrite lookup_insert_ne by (intros E; subst id; congruence).
    by rewrite (wo_count _ w G Hw y c Hy).
Qed.

Lemma copy_world w G x y c t : world_ok hash_key w G -> maps w !! x = None ->
  maps w !! y = Some c -> G !! y = Some t -> (generation c + 1 < 2 ^ 31)%Z ->
  exists w', copy_map x y w = Some w' /\ world_ok hash_key w' (<[x := t]> G).
Proof.
  intros Hw Hx Hy Ht Hlim. unfold copy_map. rewrite bool_decide_true by done.
  cbn [cassert mbind option_bind]. rewrite Hy. cbn [mbind option_bind].
  set (id := fresh (dom (counters w))). assert (Hid : id ∉ dom (counters w)) by apply is_fresh.
  pose proof (wo_map _ w G Hw y c t Hy Ht) as [Hr Hwf Hg Hh Hn Hs Hpos].
  assert (Hne : _debug_refcount c <> id).
  { pose proof (live_counter w G y c Hw Hy). intros E. congruence. }
  destruct (root c) as [r|] eqn:Er.
  - rewrite (wo_count _ w G Hw y c Hy). cbn [mbind option_bind].
    replace (generation c + 1 <? 2 ^ 31)%Z with true by lia. cbn [cassert mbind option_bind].
    eexists. split; [reflexivity|]. apply world_add; try done.
    + split; try done; simpl; [|lia]. eapply gens_ok_mono; [|done]. lia.
    + right. exists y, c. by split_and!.
    + cbn [_debug_refcount]. by rewrite lookup_insert_ne, lookup_insert_eq.
    + intros z d Hz. cbn [_debug_refcount]. unfold counts. cbn [_debug_parent].
      fold (children w (_debug_refcount d)). case_decide as E.
      * injection E as E. rewrite E, lookup_insert_eq. done.
      * rewrite lookup_insert_ne by congruence. pose proof (live_counter w G z d Hw Hz).
        rewrite lookup_insert_ne by (intros E'; congruence). by rewrite (wo_count _ w G Hw z d Hz).
  - symmetry in Hr. apply ptr_of_none in Hr. subst t. eexists. split; [reflexivity|].
    apply world_add; [done|done|by apply empty_map_ok|done| | |].
    + by left.
    + by rewrite lookup_insert_eq.
    + intros z d Hz. pose proof (live_counter w G z d Hw Hz).
      rewrite lookup_insert_ne by (intros E; congruence). by rewrite (wo_count _ w G Hw z d Hz).
Qed.

Lemma destroy_world w G x b : world_ok hash_key w G -> maps w !! x = Some b ->
  counters w !! _debug_refcount b = Some 0 ->
  exists w', destroy x w = Some w' /\ world_ok hash_key w' (delete x G) /\ maps w' = delete x (maps w).
Proof.
  intros Hw Hx H0. pose proof (writable_childless hash_key w G x b Hw Hx H0) as Hc.
  destruct (wo_tree _ w G x b Hw Hx) as [t Ht].
  pose proof (wo_map _ w G Hw x b t Hx Ht) as [Hr Hwf Hg Hh Hn _ _].
  destruct (free_child_spec hash_key (generation b) levels t (cells w)) as (h' & E & Hstep); [done..|].
  unfold destroy. rewrite Hx. cbn [mbind option_bind]. unfold assert_writable. rewrite H0.
  cbn [mbind option_bind]. rewrite bool_decide_true by done. cbn [cassert mbind option_bind].
  rewrite Hr, E.
  assert (Hself : forall y c, y <> x -> maps w !! y = Some c -> _debug_refcount c <> _debug_refcount b).
  { intros y c Hne Hy Eq. apply Hne. by apply (wo_ids _ w G Hw y x c b). }
  destruct (_debug_parent b) as [p|] eqn:Hp.
  - destruct (wo_parent _ w G Hw x b p Hx Hp) as (z & d & Hz & Hd & _). subst p.
    rewrite (wo_count _ w G Hw z d Hz). cbn [mbind option_bind].
    eexists. split; [reflexivity|]. split; [|done]. eapply world_remove; try done.
    intros y c Hne Hy. rewrite lookup_delete_ne by (intros Eq; by apply (Hself y c)).
    pose proof (count_delete (_debug_refcount c) (maps w) x b Hx) as Hcd. unfold counts in Hcd.
    rewrite Hp in Hcd. destruct (decide (_debug_refcount d = _debug_refcount c)) as [Eq|Hdc].
    + rewrite Eq in *. rewrite lookup_insert_eq. rewrite decide_True in Hcd by done.
      unfold children. fold (count_of (_debug_refcount c) (maps w)). by rewrite Hcd.
    + rewrite lookup_insert_ne by done. rewrite decide_False in Hcd by congruence.
      rewrite (wo_count _ w G Hw y c Hy). unfold children.
      fold (count_of (_debug_refcount c) (maps w)). by rewrite Hcd.
  - cbn [mbind option_bind]. eexists. split; [reflexivity|]. split; [|done].
    eapply world_remove; try done.
    intros y c Hne Hy. rewrite lookup_delete_ne by (intros Eq; by apply (Hself y c)).
    pose proof (count_delete (_debug_refcount c) (maps w) x b Hx) as Hcd. unfold counts in Hcd.
    rewrite Hp, decide_False in Hcd by done.
    rewrite (wo_count _ w G Hw y c Hy). unfold children.
    fold (count_of (_debug_refcount c) (maps w)). by rewrite Hcd.
Qed.

(** Exchanging two keys of a map. *)
Definition exchange {A} (m : gmap positive A) x y (a a' : A) : gmap positive A :=
  <[x := a']> (<[y := a]> m).
Definition swapped x y z : positive := if decide (z = x) then y else if decide (z = y) then x else z.

Lemma exchange_lookup {A} (m : gmap positive A) x y (a a' : A) z :
  m !! x = Some a -> m !! y = Some a' ->
  exchange m x y a a' !! z = m !! swapped x y z.
Proof.
  intros Hx Hy. unfold exchange, swapped. case_decide as E; [subst; by rewrite lookup_insert_eq|].
  rewrite lookup_insert_ne by done. case_decide as E'; [subst; by rewrite lookup_insert_eq|].
  by rewrite lookup_insert_ne.
Qed.

Lemma swapped_swapped x y z : swapped x y (swapped x y z) = z.
Proof. unfold swapped. repeat case_decide; congruence. Qed.

Lemma count_exchange id (m : gmap positive body) x y a b : m !! x = Some a -> m !! y = Some b ->
  count_of id (exchange m x y a b) = count_of id m.
Proof.
  intros Hx Hy. assert (Hset : forall m z c d, m !! z = Some c ->
    count_of id (<[z := d]> m) + counts id c = counts id d + count_of id m).
  { intros m' z c d Hz. rewrite (count_delete id m' z c Hz), <-insert_delete_eq.
    rewrite count_insert by apply lookup_delete_eq. lia. }
  unfold exchange. destruct (decide (x = y)) as [->|Hne].
  - rewrite insert_insert_eq. simplify_eq. by rewrite insert_id.
  - pose proof (Hset m y b a Hy). pose proof (Hset (<[y := a]> m) x a b) as H2.
    rewrite lookup_insert_ne in H2 by done. specialize (H2 Hx). lia.
Qed.

Lemma swap_world w G x y a b t s : world_ok hash_key w G -> maps w !! x = Some a ->
  maps w !! y = Some b -> G !! x = Some t -> G !! y = Some s ->
  exists w', swap x y w = Some w' /\ world_ok hash_key w' (exchange G x y t s).
Proof.
  intros Hw Hx Hy Ht Hs. unfold swap. rewrite Hx, Hy. cbn [mbind option_bind].
  fold (exchange (maps w) x y a b). eexists. split; [reflexivity|].
  set (σ := swapped x y).
  assert (Hm : forall z, exchange (maps w) x y a b !! z = maps w !! σ z) by (intros; by apply exchange_lookup).
  assert (HG : forall z, exchange G x y t s !! z = G !! σ z) by (intros; by apply exchange_lookup).
  assert (Hσ : forall z, σ (σ z) = z) by apply swapped_swapped.
  assert (Hsub : forall i p, parent_of w i p ->
    parent_of (MkWorld (cells w) (counters w) (exchange (maps w) x y a b) : world K V) i p).
  { intros i p (z & c & Hz & ?). exists (σ z), c. cbn. by rewrite Hm, Hσ. }
  split; cbn [maps cells counters].
  - intros z. rewrite Hm, HG. apply (wo_dom _ w G Hw).
  - intros z c u. rewrite Hm, HG. apply (wo_map _ w G Hw).
  - intros z z' c d. rewrite !Hm. intros H1 H2 E.
    rewrite <-(Hσ z), <-(Hσ z'). f_equal. by apply (wo_ids _ w G Hw _ _ c d).
  - intros z c. rewrite Hm. intros Hz. rewrite (wo_count _ w G Hw _ c Hz). unfold children. cbn [maps].
    fold (count_of (_debug_refcount c) (maps w)).
    fold (count_of (_debug_refcount c) (exchange (maps w) x y a b)). by rewrite count_exchange.
  - intros z c p. rewrite Hm. intros Hz Hp.
    destruct (wo_parent _ w G Hw _ c p Hz Hp) as (z' & d & Hz' & ?). exists (σ z'), d. by rewrite Hm, Hσ.
  - intros l cl Hl. destruct (wo_owner _ w G Hw l cl Hl) as (z & c & u & ? & ? & ?).
    exists (σ z), c, u. by rewrite Hm, HG, Hσ.
  - intros z z' c d u u' l cl. rewrite !Hm, !HG. intros. eapply rtc_subrel; [exact Hsub|].
    by eapply (wo_shared _ w G Hw (σ z) (σ z') c d u u' l cl).
Qed.
End worlds.
