(* ===== verification/GenMapSpec.v ===== *)
(** * GenMapSpec: what persistent hash maps promise

    Maps that share cells behave as independent finite maps, as long as a map is
    neither changed nor destroyed while copies of it live ([allowed]). *)

From S2P Require Import Prelude.
From S2P Require Import GenMap.
From S2P Require Import GenMapTree.
From S2P Require Import GenMapNodes.
From S2P Require Import GenMapMut.
From S2P Require Import GenMapRead.
From S2P Require Import GenMapWorld.
From S2P Require Import GenMapCopies.

(** ** Sequences of operations *)

Inductive op (K V : Type) :=
| New (x : positive)
| Copy (x y : positive)
| CopyAssign (x y : positive)
| Swap (x y : positive)
| MoveAssign (x y : positive)
| Destroy (x : positive)
| Put (x : positive) (k : K) (v : V).
Arguments New {K V} _.
Arguments Copy {K V} _ _.
Arguments CopyAssign {K V} _ _.
Arguments Swap {K V} _ _.
Arguments MoveAssign {K V} _ _.
Arguments Destroy {K V} _.
Arguments Put {K V} _ _ _.

Definition empty_world {K V : Type} : world K V := MkWorld ∅ ∅ ∅.

Section spec.
Context {K V : Type} `{Countable K} (hash_key : K -> Z) (init : V) (junk : option positive).
Implicit Types (w : world K V) (o : op K V) (A : gmap positive (gmap K V)) (x y : positive).

(** [m.mut(k) = v] and the other operations on the concrete maps. *)
Definition exec o w : option (world K V) :=
  match o with
  | New x => new_map x w
  | Copy x y => copy_map x y w
  | CopyAssign x y => copy_assign x y w
  | Swap x y => swap x y w
  | MoveAssign x y => move_assign x y w
  | Destroy x => destroy x w
  | Put x k v => r ← mut hash_key init junk x k w; assign r.1 v r.2
  end.

(** The same operations on finite maps. *)
Definition spec o A : option (gmap positive (gmap K V)) :=
  match o with
  | New x => Some (<[x := ∅]> A)
  | Copy x y | CopyAssign x y => m ← A !! y; Some (<[x := m]> A)
  | Swap x y | MoveAssign x y => m ← A !! x; m' ← A !! y; Some (exchange A x y m m')
  | Destroy x => Some (delete x A)
  | Put x k v => m ← A !! x; Some (<[x := <[k := v]> m]> A)
  end.

(** The discipline of GenMap.h: a map with live copies is not changed, and not
    destroyed. *)
Definition writable w x : Prop :=
  exists b, maps w !! x = Some b /\ counters w !! _debug_refcount b = Some 0.
Definition copyable w y : Prop :=
  exists c, maps w !! y = Some c /\ (generation c + 1 < 2 ^ 31)%Z.
Definition allowed o w : Prop :=
  match o with
  | New x => maps w !! x = None
  | Copy x y => maps w !! x = None /\ copyable w y
  | CopyAssign x y => writable w x /\ x <> y /\ copyable w y
  | Swap x y => is_Some (maps w !! x) /\ is_Some (maps w !! y)
  | MoveAssign x y => writable w x /\ is_Some (maps w !! y)
  | Destroy x | Put x _ _ => writable w x
  end.

Inductive reachable : world K V -> Prop :=
| reachable_empty : reachable empty_world
| reachable_exec o w w' : reachable w -> allowed o w -> exec o w = Some w' -> reachable w'.

Definition represents w A : Prop :=
  exists G, world_ok hash_key w G /\ A = contents <$> G.

Context `{!SpreadHash hash_key}.

Lemma contents_exchange (G : gmap positive (tree K V)) x y t s : 
  contents <$> exchange G x y t s = exchange (contents <$> G) x y (contents t) (contents s).
Proof. unfold exchange. by rewrite !fmap_insert. Qed.

Lemma represents_lookup w G x b : world_ok hash_key w G -> maps w !! x = Some b ->
  exists t, G !! x = Some t /\ (contents <$> G) !! x = Some (contents t).
Proof.
  intros Hw Hx. destruct (wo_tree _ w G x b Hw Hx) as [t Ht]. exists t.
  split; [done|]. by rewrite lookup_fmap, Ht.
Qed.

Lemma put_world w G x b k v : world_ok hash_key w G -> maps w !! x = Some b ->
  counters w !! _debug_refcount b = Some 0 ->
  exists t w' G', G !! x = Some t /\ exec (Put x k v) w = Some w' /\ world_ok hash_key w' G' /\
    contents <$> G' = <[x := <[k := v]> (contents t)]> (contents <$> G).
Proof.
  intros Hw Hx H0. destruct (wo_tree _ w G x b Hw Hx) as [t Ht].
  destruct (mut_world hash_key init junk hash_range hash_spread w G x b t k Hw Hx Ht H0)
    as (leaf & w1 & b' & t' & E & Hw1 & Hx1 & Hc1 & _ & _ & Hcont & v0 & next & Hleaf).
  destruct (assign_world hash_key w1 (<[x := t']> G) x b' t' leaf k v0 next v)
    as (w' & E' & Hw' & _ & _ & Hcont'); [done|done|by rewrite lookup_insert_eq|done|done|].
  exists t, w'. eexists. split_and!; [done| |exact Hw'|].
  - cbn [exec]. rewrite E. cbn [mbind option_bind fst snd]. done.
  - rewrite insert_insert_eq, fmap_insert, Hcont', Hcont. by rewrite insert_insert_eq.
Qed.

Lemma move_is_swap w x y : writable w x -> move_assign x y w = swap x y w.
Proof.
  intros (b & Hx & H0). unfold move_assign. rewrite Hx. cbn [mbind option_bind].
  unfold assert_writable. rewrite H0. cbn [mbind option_bind]. by rewrite bool_decide_true.
Qed.

(** Every allowed operation succeeds, and does what it does to finite maps. *)
Lemma simulation w A o : represents w A -> allowed o w ->
  exists w' A', exec o w = Some w' /\ spec o A = Some A' /\ represents w' A'.
Proof.
  intros (G & Hw & ->) Hal.
  assert (Hswap : forall x y, is_Some (maps w !! x) -> is_Some (maps w !! y) ->
    exists w' A', swap x y w = Some w' /\ spec (Swap x y) (contents <$> G) = Some A' /\ represents w' A').
  { intros x y [a Hx] [b Hy].
    destruct (represents_lookup w G x a Hw Hx) as (t & Ht & Et).
    destruct (represents_lookup w G y b Hw Hy) as (s & Hs & Es).
    destruct (swap_world hash_key w G x y a b t s Hw Hx Hy Ht Hs) as (w' & E & Hw').
    exists w'. eexists. split_and!; [done|cbn [spec]; by rewrite Et, Es|].
    eexists. split; [exact Hw'|]. symmetry. apply contents_exchange. }
  destruct o as [x|x y|x y|x y|x y|x|x k v]; cbn [allowed exec] in Hal |- *.
  - destruct (new_world hash_key w G x Hw Hal) as (w' & E & Hw').
    exists w'. eexists. split_and!; [done|done|]. eexists. split; [exact Hw'|]. by rewrite fmap_insert.
  - destruct Hal as [Hx (c & Hy & Hlim)].
    destruct (represents_lookup w G y c Hw Hy) as (t & Ht & Et).
    destruct (copy_world hash_key w G x y c t Hw Hx Hy Ht Hlim) as (w' & E & Hw').
    exists w'. eexists. split_and!; [done|cbn [spec]; by rewrite Et|].
    eexists. split; [exact Hw'|]. by rewrite fmap_insert.
  - destruct Hal as [(b & Hx & H0) [Hne (c & Hy & Hlim)]].
    destruct (represents_lookup w G y c Hw Hy) as (t & Ht & Et).
    destruct (destroy_world hash_key w G x b Hw Hx H0) as (w1 & E1 & Hw1 & Hm1).
    destruct (copy_world hash_key w1 (delete x G) x y c t) as (w' & E & Hw'); try done.
    { by rewrite Hm1, lookup_delete_eq. } { by rewrite Hm1, lookup_delete_ne. }
    { by rewrite lookup_delete_ne. }
    exists w'. eexists. split_and!; [unfold copy_assign; by rewrite E1|cbn [spec]; by rewrite Et|].
    eexists. split; [exact Hw'|]. by rewrite insert_delete_eq, fmap_insert.
  - destruct Hal. by apply Hswap.
  - destruct Hal as [Hx Hy]. rewrite move_is_swap by done. apply Hswap; [|done].
    destruct Hx as (b & -> & _). by exists b.
  - destruct Hal as (b & Hx & H0).
    destruct (destroy_world hash_key w G x b Hw Hx H0) as (w' & E & Hw' & _).
    exists w'. eexists. split_and!; [done|done|]. eexists. split; [exact Hw'|]. by rewrite fmap_delete.
  - destruct Hal as (b & Hx & H0).
    destruct (put_world w G x b k v Hw Hx H0) as (t & w' & G' & Ht & E & Hw' & Hc).
    exists w'. eexists. split_and!; [exact E| |].
    + cbn [spec]. by rewrite lookup_fmap, Ht.
    + exists G'. by rewrite Hc.
Qed.

Lemma empty_represents : represents empty_world ∅.
Proof.
  exists ∅. split; [|by rewrite fmap_empty]. split; cbn; intros *; by rewrite ?lookup_empty.
Qed.

Lemma reachable_represents w : reachable w -> exists A, represents w A.
Proof.
  induction 1 as [|o w w' _ [A IH] Hal E]; [exists ∅; apply empty_represents|].
  destruct (simulation w A o IH Hal) as (w2 & A' & E2 & _ & HA'). simplify_eq. by exists A'.
Qed.

(** What the reading operations answer. *)
Lemma reads_correct w G x b t k : world_ok hash_key w G -> maps w !! x = Some b -> G !! x = Some t ->
  find hash_key (cells w) b k = Some (contents t !! k) /\
  (exists es, map_for_each (cells w) b = Some es /\ es ≡ₚ map_to_list (contents t)) /\
  map_size b = wrapu 32 (Z.of_nat (size (contents t))).
Proof.
  intros Hw Hx Ht. pose proof (wo_map _ w G Hw x b t Hx Ht) as [Hr Hwf Hg Hh Hn Hs Hpos]. split_and!.
  - unfold find. rewrite Hr.
    destruct (find_child_spec hash_key levels 0 k t (cells w) (generation b))
      as [[E Hk]|(es & b' & E & Hhes & Hnes & Hges & Hes)]; [done..| |];
      unfold rest in E; rewrite Z.div_1_r in E; rewrite E; cbn [mbind option_bind].
    + f_equal. symmetry. by apply (contents_none hash_key levels).
    + pose proof (chain_length_size (cells w) es Hhes Hnes).
      destruct (find_leaf_spec (S (size (cells w))) (cells w) k b' es) as [[-> Hk]|(v & -> & Hv)];
        [done|done|lia| |]; f_equal; symmetry.
      * apply (contents_none hash_key levels); [done|]. intros ([k' v] & Ek & Hin)%list_elem_of_fmap.
        simpl in Ek. subst k'. apply Hes, list_elem_of_fmap in Hin as (e & Ee & He).
        apply Hk. injection Ee as -> ->. by apply list_elem_of_fmap_2.
      * apply (contents_lookup hash_key levels); [done|]. by apply Hes.
  - exists (entries t). split; [|symmetry; apply map_to_list_to_map; by apply (wf_nodup hash_key levels)].
    unfold map_for_each. rewrite Hr. destruct (ptr_of t) as [l|] eqn:Ep.
    + rewrite <-Ep. eapply each_child_spec; [done| |done..].
      destruct t as [es|l' gn bm ts].
      * destruct es; [done|]. intros [=].
      * intros Hnil. destruct Hwf as (_ & (k1 & _ & Hk1 & _) & _). unfold keys in Hk1.
        rewrite Hnil in Hk1. by apply not_elem_of_nil in Hk1.
    + apply ptr_of_none in Ep. by subst t.
  - unfold map_size. by rewrite Hs, (size_contents hash_key levels).
Qed.
End spec.

(** ** Runs *)

Section allowed.
Context {K V : Type}.
Implicit Types (w : world K V) (o : op K V) (x : positive).

Definition writableb w x : bool :=
  match maps w !! x with
  | Some b => bool_decide (counters w !! _debug_refcount b = Some 0)
  | None => false
  end.
Definition copyableb w y : bool :=
  match maps w !! y with Some c => (generation c + 1 <? 2 ^ 31)%Z | None => false end.
Definition allowedb o w : bool :=
  match o with
  | New x => bool_decide (maps w !! x = None)
  | Copy x y => bool_decide (maps w !! x = None) && copyableb w y
  | CopyAssign x y => writableb w x && bool_decide (x <> y) && copyableb w y
  | Swap x y => bool_decide (is_Some (maps w !! x)) && bool_decide (is_Some (maps w !! y))
  | MoveAssign x y => writableb w x && bool_decide (is_Some (maps w !! y))
  | Destroy x | Put x _ _ => writableb w x
  end.

Lemma writableb_ok w x : writableb w x = true -> writable w x.
Proof.
  unfold writableb, writable. destruct (maps w !! x) as [b|]; [|done].
  intros ?%bool_decide_eq_true. by exists b.
Qed.
Lemma copyableb_ok w x : copyableb w x = true -> copyable w x.
Proof. unfold copyableb, copyable. destruct (maps w !! x) as [b|]; [|done]. exists b. split; [done|lia]. Qed.

Lemma allowedb_ok o w : allowedb o w = true -> allowed o w.
Proof.
  destruct o; cbn [allowedb allowed]; rewrite ?andb_true_iff, ?bool_decide_eq_true;
    naive_solver eauto using writableb_ok, copyableb_ok.
Qed.

End allowed.

Section runs.
Context {K V : Type} `{Countable K} (hash_key : K -> Z) (init : V) (junk : option positive).
Implicit Types (w : world K V) (o : op K V) (A : gmap positive (gmap K V)) (x : positive).

(** A run that keeps to the discipline. *)
Fixpoint run (os : list (op K V)) w : option (world K V) :=
  match os with
  | [] => Some w
  | o :: os => if allowedb o w then w ← exec hash_key init junk o w; run os w else None
  end.
Fixpoint spec_all (os : list (op K V)) A : option (gmap positive (gmap K V)) :=
  match os with [] => Some A | o :: os => A ← spec o A; spec_all os A end.

Lemma run_reachable os w w' : reachable hash_key init junk w -> run os w = Some w' -> reachable hash_key init junk w'.
Proof.
  revert w. induction os as [|o os IH]; intros w Hw; cbn [run]; [by intros [= <-]|].
  destruct (allowedb o w) eqn:Hal; [|done]. apply allowedb_ok in Hal.
  destruct (exec hash_key init junk o w) as [w1|] eqn:E; [|done]. cbn [mbind option_bind]. apply IH. by eapply reachable_exec.
Qed.
Lemma run_represents `{!SpreadHash hash_key} os w A w' : represents hash_key w A ->
  run os w = Some w' -> exists A', spec_all os A = Some A' /\ represents hash_key w' A'.
Proof.
  revert w A. induction os as [|o os IH]; intros w A HA; cbn [run spec_all].
  - intros [= <-]. by exists A.
  - destruct (allowedb o w) eqn:Hal; [|done]. apply allowedb_ok in Hal.
    destruct (simulation hash_key init junk w A o HA Hal) as (w1 & A1 & -> & -> & HA1).
    cbn [mbind option_bind]. by apply IH.
Qed.
End runs.

(** ** Properties *)

(** C29. Maps that share cells are independent finite maps: for every hash
    function that spreads keys, whatever fresh memory holds ([junk]), each
    operation that the discipline of copies allows succeeds (no assertion
    fails, no pointer is cast or used wrongly, no loop runs out of levels), and
    changes the represented finite maps as the operation says: writing one map
    changes no other, though they share cells. *)
Theorem maps_are_independent {K V : Type} `{Countable K} (hash_key : K -> Z) (init : V)
    (junk : option positive) (w : world K V) (A : gmap positive (gmap K V)) (o : op K V) :
  SpreadHash hash_key -> represents hash_key w A -> allowed o w ->
  exists w' A', exec hash_key init junk o w = Some w' /\ spec o A = Some A' /\ represents hash_key w' A'.
Proof. intros ?. by apply simulation. Qed.

(** C30. Lookup, [at], [operator\[\]], [count], [size] and iteration answer for
    the finite map that is represented: iteration visits every entry once, and
    the size wraps at 32 bits. *)
Theorem map_reads_correct {K V : Type} `{Countable K} (hash_key : K -> Z) (init : V)
    (w : world K V) (A : gmap positive (gmap K V)) (x : positive) (b : body) (k : K) :
  SpreadHash hash_key -> represents hash_key w A -> maps w !! x = Some b ->
  exists m, A !! x = Some m /\
    find hash_key (cells w) b k = Some (m !! k) /\
    at_ hash_key (cells w) b k = Some (match m !! k with Some v => Returned v | None => Threw end) /\
    get hash_key init (cells w) b k = Some (default init (m !! k)) /\
    count hash_key (cells w) b k = Some (bool_decide (is_Some (m !! k))) /\
    map_size b = wrapu 32 (Z.of_nat (size m)) /\
    exists es, map_for_each (cells w) b = Some es /\ es ≡ₚ map_to_list m.
Proof.
  intros Hsp (G & Hw & ->) Hx. destruct (represents_lookup hash_key w G x b Hw Hx) as (t & Ht & Et).
  destruct (reads_correct hash_key w G x b t k Hw Hx Ht) as (Hf & Hes & Hs).
  exists (contents t). unfold at_, get, count. rewrite Hf. by split_and!.
Qed.

(** The pointers a cell holds, and the cells a map reaches along them. *)
Definition points_to {K V : Type} (c : cell K V) (l : positive) : Prop :=
  match c with leaf_cell _ _ _ next => next = Some l | node_cell _ _ array => Some l ∈ array end.
Definition edge_in {K V : Type} (h : gmap positive (cell K V)) (l l' : positive) : Prop :=
  exists c, h !! l = Some c /\ points_to c l'.
Definition reached_by {K V : Type} (h : gmap positive (cell K V)) (b : body) (l : positive) : Prop :=
  exists r, root b = Some r /\ rtc (edge_in h) r l.

Section reached.
Context {K V : Type} (h : gmap positive (cell K V)).

Lemma chain_reached (es : list (entry K V)) r l : holds h (chain_cells es) -> chain_ptr es = Some r -> l ∈ (chain_cells es).*1 ->
  rtc (edge_in h) r l.
Proof.
  revert r. induction es as [|e es IH]; intros r Hh Hr; [done|]. cbn in Hr. injection Hr as <-. cbn [chain_cells fmap list_fmap fst].
  intros [->|Hl]%elem_of_cons; [done|]. destruct (chain_ptr es) as [r'|] eqn:E.
  - eapply rtc_l; [|apply (IH r'); [|done|exact Hl]]; [|intros ? ? ?; apply Hh; by right].
    eexists. split; [apply Hh; by left|]. done.
  - destruct es; [by apply elem_of_nil in Hl|done].
Qed.
Lemma tree_reached (t : tree K V) : forall r l, holds h (cells_of t) -> ptr_of t = Some r -> l ∈ locs t -> rtc (edge_in h) r l.
Proof.
  unfold locs. induction t as [es|l0 gn bm ts IH] using tree_children_ind; intros r l Hh Hr; [by apply chain_reached|].
  cbn in Hr. injection Hr as <-. cbn [cells_of fmap list_fmap fst]. intros [->|Hl]%elem_of_cons; [done|].
  apply list_elem_of_fmap in Hl as (lc & -> & Hlc). apply list_elem_of_join in Hlc as (C & Hlc & (t & -> & Ht)%list_elem_of_fmap).
  rewrite Forall_forall in IH. destruct (ptr_of t) as [r'|] eqn:E.
  - eapply rtc_l; [|apply (IH t Ht r' lc.1); [|done|by apply list_elem_of_fmap_2]].
    + eexists. split; [apply Hh; by left|]. cbn. rewrite <- E. by apply list_elem_of_fmap_2.
    + intros l c Hc. apply Hh. right. apply list_elem_of_join. exists (cells_of t). split; [done|by apply list_elem_of_fmap_2].
  - apply ptr_of_none in E. subst t. by apply elem_of_nil in Hlc.
Qed.

(** Nothing outside the tree is reached. *)
Lemma chain_closed (es : list (entry K V)) l c l' : (l, c) ∈ chain_cells es -> points_to c l' -> l' ∈ (chain_cells es).*1.
Proof.
  induction es as [|e es IH]; cbn [chain_cells fmap list_fmap fst]; [by intros ?%elem_of_nil|].
  intros [[= -> ->]|Hin]%elem_of_cons Hp; right; [|by apply IH]. cbn in Hp. destruct es as [|e' es]; [done|].
  injection Hp as <-. by left.
Qed.
Lemma ptr_in_locs (t : tree K V) l : ptr_of t = Some l -> l ∈ locs t.
Proof. unfold locs. destruct t as [[|e es]|]; [done|..]; cbn; intros [= ->]; by left. Qed.
Lemma tree_closed (t : tree K V) : forall l c l', (l, c) ∈ cells_of t -> points_to c l' -> l' ∈ locs t.
Proof.
  assert (Hsub : forall ts (t : tree K V) l, t ∈ ts -> l ∈ locs t -> l ∈ (mjoin (cells_of <$> ts)).*1).
  { intros ts t' l Ht (lc & -> & Hlc)%list_elem_of_fmap. apply list_elem_of_fmap_2. apply list_elem_of_join.
    exists (cells_of t'). split; [done|by apply list_elem_of_fmap_2]. }
  induction t as [es|l0 gn bm ts IH] using tree_children_ind; intros l c l'; [by apply chain_closed|].
  unfold locs. cbn [cells_of fmap list_fmap fst]. intros [[= -> ->]|Hin]%elem_of_cons Hp; right.
  - cbn in Hp. apply list_elem_of_fmap in Hp as (t & Hp & Ht). apply (Hsub ts t); [done|]. by apply ptr_in_locs.
  - apply list_elem_of_join in Hin as (C & Hlc & (t & -> & Ht)%list_elem_of_fmap). rewrite Forall_forall in IH.
    apply (Hsub ts t); [done|]. by eapply (IH t Ht).
Qed.
Lemma reached_in_tree (t : tree K V) r l : holds h (cells_of t) -> ptr_of t = Some r -> rtc (edge_in h) r l -> l ∈ locs t.
Proof.
  intros Hh Hr Hrt. apply ptr_in_locs in Hr. induction Hrt as [|r l1 l Hs _ IH]; [done|]. apply IH.
  destruct Hs as (c & Hc & Hp). apply list_elem_of_fmap in Hr as ([r' c'] & -> & Hin). pose proof (Hh _ _ Hin). simpl in *.
  assert (c' = c) as -> by congruence. by eapply tree_closed.
Qed.
End reached.

(** C31. Memory is freed exactly once and completely, whatever the discipline
    of copies allows is done: in every world that operations reach, the cells
    are exactly those that some live map reaches along its pointers (none is
    leaked, no pointer dangles), none is left when no map is, and destroying a
    map that has no copies succeeds and leads to such a world again. *)
Theorem cells_are_freed {K V : Type} `{Countable K} (hash_key : K -> Z) (init : V) (junk : option positive) (w : world K V) :
  SpreadHash hash_key -> reachable hash_key init junk w ->
  (forall l, is_Some (cells w !! l) <-> exists x b, maps w !! x = Some b /\ reached_by (cells w) b l) /\
  (maps w = ∅ -> cells w = ∅) /\
  (forall x, writable w x -> exists w', exec hash_key init junk (Destroy x) w = Some w' /\
     reachable hash_key init junk w' /\ maps w' !! x = None).
Proof.
  intros Hsp Hre. destruct (reachable_represents hash_key init junk w Hre) as (A & G & Hw & _).
  assert (Hiff : forall l, is_Some (cells w !! l) <-> exists x b, maps w !! x = Some b /\ reached_by (cells w) b l).
  { intros l. split.
    - intros [c Hl]. destruct (wo_owner _ w G Hw l c Hl) as (x & b & t & Hx & Ht & _ & Hin). exists x, b. split; [done|].
      destruct (wo_map _ w G Hw x b t Hx Ht) as [Hr _ _ Hh _ _ _]. destruct (ptr_of t) as [r|] eqn:E.
      + exists r. split; [done|]. by apply (tree_reached _ t).
      + apply ptr_of_none in E. subst t. by apply elem_of_nil in Hin.
    - intros (x & b & Hx & r & Hr & Hrt). destruct (wo_tree _ w G x b Hw Hx) as [t Ht].
      destruct (wo_map _ w G Hw x b t Hx Ht) as [Hr' _ _ Hh _ _ _]. rewrite Hr in Hr'.
      apply (reached_in_tree _ t) in Hrt; [|done..]. apply list_elem_of_fmap in Hrt as ([l' c] & -> & Hin). exists c. by apply Hh. }
  split_and!; [done| |].
  - intros Hm. apply map_eq. intros l. rewrite lookup_empty. apply eq_None_not_Some. intros Hl%Hiff.
    destruct Hl as (x & b & Hx & _). by rewrite Hm, lookup_empty in Hx.
  - intros x Hx. pose proof Hx as (b & Hb & H0). destruct (destroy_world hash_key w G x b Hw Hb H0) as (w' & E & _ & Hm).
    exists w'. split_and!; [done| |by rewrite Hm, lookup_delete_eq]. by apply (reachable_exec hash_key init junk (Destroy x) w w' Hre Hx).
Qed.

(** ** A run *)

Definition demo_key (c : Ascii.ascii) : Z := gen_hash (Z.of_nat (Ascii.nat_of_ascii c)).
#[export] Instance demo_spread : SpreadHash demo_key.
Proof.
  apply (spread_encoding (fun c => Z.of_nat (Ascii.nat_of_ascii c))).
  - intros c. pose proof (Ascii.nat_ascii_bounded c). lia.
  - intros c d E. apply Nat2Z.inj in E.
    by rewrite <-(Ascii.ascii_nat_embedding c), <-(Ascii.ascii_nat_embedding d), E.
Qed.

Definition ka : Ascii.ascii := Ascii.ascii_of_nat 97.
Definition kb : Ascii.ascii := Ascii.ascii_of_nat 98.

(** A map, and a copy that is changed. *)
Definition demo_ops : list (op Ascii.ascii nat) :=
  [New 1; Put 1 ka 1%nat; Put 1 kb 5%nat; Copy 2 1; Put 2 ka 2%nat]%positive.
Definition demo_world : world Ascii.ascii nat := default empty_world (run demo_key 0 None demo_ops empty_world).

Definition demo_maps : gmap positive (gmap Ascii.ascii nat) :=
  {[ 1%positive := {[ ka := 1; kb := 5 ]}; 2%positive := {[ ka := 2; kb := 5 ]} ]}.

Lemma demo_represents :
  represents demo_key demo_world demo_maps.
Proof.
  destruct (run_represents demo_key 0 None demo_ops empty_world ∅ demo_world) as (A' & E & HA).
  - apply empty_represents.
  - vm_compute. reflexivity.
  - enough (Some A' = Some demo_maps) as [= ->] by exact HA.
    rewrite <-E. vm_compute. reflexivity.
Qed.

Lemma maps_are_independent_witness : exists w' A',
  exec demo_key 0 None (Put 2%positive kb 7) demo_world = Some w' /\
  spec (Put 2%positive kb 7) demo_maps = Some A' /\
  represents demo_key w' A'.
Proof.
  apply (maps_are_independent demo_key 0 None demo_world _ (Put 2%positive kb 7)).
  - apply demo_spread.
  - exact demo_represents.
  - apply allowedb_ok. vm_compute. reflexivity.
Defined.

Definition demo_body : body := default (MkBody 0 0 None None 1) (maps demo_world !! 1%positive).

Lemma map_reads_correct_witness : exists m,
  demo_maps !! 1%positive = Some m /\
  find demo_key (cells demo_world) demo_body ka = Some (m !! ka) /\
  map_size demo_body = wrapu 32 (Z.of_nat (size m)).
Proof.
  assert (Hb : maps demo_world !! 1%positive = Some demo_body) by (vm_compute; reflexivity).
  destruct (map_reads_correct demo_key 0 demo_world demo_maps 1%positive demo_body ka
    demo_spread demo_represents Hb) as (m & Hm & Hf & _ & _ & _ & Hs & _).
  exists m. split; [exact Hm|split; [exact Hf|exact Hs]].
Defined.

Lemma cells_are_freed_witness :
  (forall l, is_Some (cells demo_world !! l) <-> exists x b, maps demo_world !! x = Some b /\ reached_by (cells demo_world) b l) /\
  (exists w', exec demo_key 0 None (Destroy 2%positive) demo_world = Some w' /\ reachable demo_key 0 None w').
Proof.
  assert (Hre : reachable demo_key 0 None demo_world).
  { refine (run_reachable demo_key 0 None demo_ops empty_world demo_world (reachable_empty demo_key 0 None) _). vm_compute. reflexivity. }
  destruct (cells_are_freed demo_key 0 None demo_world demo_spread Hre) as (Hl & _ & Hd). split; [exact Hl|].
  destruct (Hd 2%positive) as (w' & E & Hr & _); [apply writableb_ok; vm_compute; reflexivity|]. exists w'. split; [exact E|exact Hr].
Defined.

(** ** Hashes that agree *)

(** Two keys of one hash, and a third that differs from it in the top bit only. *)
Definition clash (k : nat) : Z := match k with 0 => 0 | _ => 2 ^ 63 end.

(** With hashes that agree on the low 60 bits next to hashes that are equal,
    [mut] leaves the defined behaviour of C++: it reaches the leaves below 13
    nodes and shifts a 64-bit value by 65 bits. *)
Theorem deep_collision_overflows :
  (forall k, (0 <= clash k < 2 ^ 64)%Z) /\
  exists w : world nat nat, run clash 0 None [New 1; Put 1 0%nat 10%nat; Put 1 1%nat 11%nat]%positive empty_world = Some w /\
    allowed (Put 1%positive 2 12) w /\ exec clash 0 None (Put 1%positive 2 12) w = None.
Proof.
  split; [by intros [|]|]. eexists. split; [vm_compute; reflexivity|].
  split; [apply allowedb_ok; vm_compute; reflexivity|vm_compute; reflexivity].
Qed.
