(* ===== verification/Prefix.v ===== *)
(** * Prefix: completing a saturated graph to an execution (src/src/PrefixHeuristic.cpp)

    [try_generate_prefix] guesses a coherence order for a saturated graph: it
    inserts the stores one by one, in the order of a given execution, into a
    list per address, adds the two edges the position means, and saturates again;
    when no saturation fails it lists the events in a topological order. The
    option [cl_no_heuristic] is an argument. [None] stands for a failed
    assertion or an access out of range, [Some None] for the null result. The
    debug graph written on failure and the timing are left out. *)

From S2P Require Import Prelude.
From S2P Require Import VClock.
From S2P Require Import CPid.
From S2P Require Import SymAddr.
From S2P Require Import SatGraph.

(** ** The topological order *)

Record topo := MkTopo { mark : gset IID; ret : list IID }.

Fixpoint toposort_visit (fuel : nat) (g : graph) (id : IID) (t : topo) : option topo :=
  match fuel with
  | 0 => None
  | S fuel =>
    if decide (id ∈ mark t) then Some t else
    i ← event_in g id;
    t ← for_each i (toposort_visit fuel g) (MkTopo ({[id]} ∪ mark t) (ret t));
    Some (MkTopo (mark t) (ret t ++ [id]))
  end.

Definition toposort_fuel (g : graph) : nat := S (graph_size g).

Definition toposort (g : graph) (ids : list IID) : option (list IID) :=
  t ← for_each ids (toposort_visit (toposort_fuel g) g) (MkTopo ∅ []); Some (ret t).

(** ** The coherence order *)

(** [std::find] on a vector, as a position: the size when nothing is found. *)
Fixpoint find_pos (l : list IID) (x : IID) : nat :=
  match l with
  | [] => 0
  | y :: l => if decide (y = x) then 0 else S (find_pos l x)
  end.

(** The loop that moves [ins_ptr] back from the end: its position in the list. *)
Fixpoint insert_position (g : graph) (current_exec : list IID) (w : IID) (wc : vclock)
    (co : list IID) (ins_ptr : nat) : option nat :=
  match ins_ptr with
  | 0 => Some 0
  | S prev =>
    i ← co !! prev;
    ic ← event_vc g i;
    _ ← cassert (bool_decide (find_pos current_exec i < find_pos current_exec w));
    le ← vc_leq wc ic;
    if (le : bool) then insert_position g current_exec w wc co prev else Some ins_ptr
  end.

Abbreviation coherence := (gmap SymAddr (list IID)).

(** One store: [None] in the inner option is the early [return nullptr]. *)
Definition place_store (current_exec : list IID) (w : IID) (total_co : coherence) (g : graph)
    : option (option (coherence * graph)) :=
  wc ← event_vc g w;
  a ← event_addr g w;
  let co := default [] (total_co !! a) in
  ins_ptr ← insert_position g current_exec w wc co (length co);
  g ← match ins_ptr with
      | 0 => Some g
      | S prev => i ← co !! prev; add_edge i w g
      end;
  g ← match co !! ins_ptr with
      | Some j => add_edge w j g
      | None => Some g
      end;
  let total_co := <[a := take ins_ptr co ++ w :: drop ins_ptr co]> total_co in
  r ← saturate g;
  let '(ok, g) := r in
  if (ok : bool) then Some (Some (total_co, g)) else Some None.

Fixpoint place_stores (current_exec ids : list IID) (total_co : coherence) (g : graph)
    : option (option graph) :=
  match ids with
  | [] => Some (Some g)
  | w :: ids =>
    st ← event_is_store g w;
    if (st : bool) then
      r ← place_store current_exec w total_co g;
      match r with
      | None => Some None
      | Some (total_co, g) => place_stores current_exec ids total_co g
      end
    else place_stores current_exec ids total_co g
  end.

Definition known_events (g : graph) (current_exec : list IID) : list IID :=
  filter (fun iid => has_event g iid = true) current_exec.

Definition try_generate_prefix (no_heuristic : bool) (g : graph) (current_exec : list IID)
    : option (option (list IID)) :=
  if no_heuristic then Some None else
  let ids := known_events g current_exec in
  r ← place_stores current_exec ids ∅ g;
  match r with
  | None => Some None
  | Some g => p ← toposort g ids; Some (Some p)
  end.
