(* ===== verification/PrefixPlace.v ===== *)
(** * PrefixPlace: the topological order of a graph; guessing the coherence order

    The outside names of the events of a graph agree with its map ([named],
    which the calls keep); [event_in] lists the names of the predecessors; and
    [toposort] on an acyclic graph lists the events asked for and all that come
    before them, each once and after its predecessors.

    The edges [try_generate_prefix] adds cannot close a cycle: [i -> w] is added
    only when the clocks say that [w] does not come before [i], and [w -> j] only
    when [w] comes before [j] already. So each saturation ends, the assertions
    hold, and at the end the list of an address orders all its stores. *)

From S2P Require Import Prelude.
From S2P Require Import VClock.
From S2P Require Import CPid.
From S2P Require Import SymAddr.
From S2P Require Import SatGraph.
From S2P Require Import SatWf.
From S2P Require Import SatClosed.
From S2P Require Import SatSound.
From S2P Require Import SatBuild.
From S2P Require Import Prefix.

(** ** Outside names *)

Definition named (g : graph) : Prop := forall x i,
  extid_to_id g !! x = Some i <-> event_ids g !! i = Some x.

Lemma named_lookup g id e : named g -> events g !! id = Some e -> extid_to_id g !! ext_id e = Some id.
Proof. intros Hn He. apply Hn. unfold event_ids. by rewrite list_lookup_fmap, He. Qed.

Lemma named_event g x i : named g -> extid_to_id g !! x = Some i ->
  exists e, events g !! i = Some e /\ ext_id e = x.
Proof.
  intros Hn Hx%Hn. unfold event_ids in Hx. apply list_lookup_fmap_Some in Hx as (e & ? & ?). by exists e.
Qed.

Lemma named_in g x : named g -> x ∈ event_ids g <-> is_Some (extid_to_id g !! x).
Proof.
  intros Hn. rewrite list_elem_of_lookup. unfold is_Some. split; intros [i Hi]; exists i; by apply Hn.
Qed.

Lemma named_nodup g : named g -> NoDup (event_ids g).
Proof. intros Hn. apply NoDup_alt. intros i j x Hi%Hn Hj%Hn. congruence. Qed.

Lemma named_same g g' : extid_to_id g' = extid_to_id g -> event_ids g' = event_ids g -> named g -> named g'.
Proof. unfold named. by intros -> ->. Qed.

(** [event_in] lists the predecessors. *)
Lemma event_in_collect g (l : list nat) : (forall a, a ∈ l -> a < length (events g)) -> forall acc,
  exists r, for_each l (fun x ret => e ← events g !! x; Some (ret ++ [ext_id e])) acc = Some r /\
    forall y, y ∈ r <-> y ∈ acc \/ exists a, a ∈ l /\ event_ids g !! a = Some y.
Proof.
  induction l as [|a l IH]; intros Hl acc; simpl.
  { exists acc. split; [done|]. intros y. split; [by left|]. by intros [?|(a & []%not_elem_of_nil & _)]. }
  destruct (lookup_lt_exists (events g) a) as [e He]; [apply Hl; by left|]. rewrite He. simpl.
  destruct (IH (fun x Hx => Hl x (list_elem_of_further _ _ _ Hx)) (acc ++ [ext_id e])) as (r & -> & Hr).
  exists r. split; [done|]. intros y. rewrite Hr, elem_of_app, list_elem_of_singleton.
  setoid_rewrite elem_of_cons.
  assert (Hy : event_ids g !! a = Some y <-> y = ext_id e).
  { unfold event_ids. rewrite list_lookup_fmap, He. simpl. naive_solver. }
  naive_solver.
Qed.

(** [follows g x y]: [y] names a predecessor of the event [x] names. *)
Definition follows (g : graph) (x y : IID) : Prop :=
  exists a b, extid_to_id g !! x = Some b /\ extid_to_id g !! y = Some a /\ edge g a b.

Lemma event_in_spec g x b :
  wf g -> named g -> extid_to_id g !! x = Some b ->
  exists l, event_in g x = Some l /\ forall y, y ∈ l <-> follows g x y.
Proof.
  intros Hwf Hn Hx. pose proof (wf_edges g Hwf) as Heo.
  destruct (named_event g x b Hn Hx) as (e & He & <-).
  destruct (lookup_lt_exists (ins g) b) as [i Hi]; [rewrite (eo_ins g Heo); by eapply events_lt|].
  assert (Hlt : forall a, a ∈ preds e i -> a < length (events g)).
  { intros a Ha. apply (edge_lt g a b (wf_skeleton g Hwf) Heo). by exists e, i. }
  assert (Hend : forall o r, (forall a, o = Some a -> a < length (events g)) ->
    exists r', match o with Some p => e ← events g !! p; Some (r ++ [ext_id e]) | None => Some r end = Some r' /\
      forall y, y ∈ r' <-> y ∈ r \/ exists a, o = Some a /\ event_ids g !! a = Some y).
  { intros [p|] r Hp; [|exists r; naive_solver].
    destruct (lookup_lt_exists (events g) p) as [ep Hep]; [by apply Hp|]. rewrite Hep. simpl.
    eexists; split; [done|]. intros y. rewrite elem_of_app, list_elem_of_singleton.
    unfold event_ids. split.
    - intros [?| ->]; [by left|]. right. exists p. by rewrite list_lookup_fmap, Hep.
    - intros [?|(a & [= <-] & Ha)]; [by left|]. rewrite list_lookup_fmap, Hep in Ha. right. naive_solver. }
  unfold event_in. rewrite Hx. cbn [mbind option_bind]. rewrite He. cbn [mbind option_bind].
  rewrite Hi. cbn [mbind option_bind].
  destruct (event_in_collect g i) with (acc := @nil IID) as (r & -> & Hr).
  { intros a Ha. apply Hlt, elem_of_preds. auto. }
  cbn [mbind option_bind].
  destruct (Hend (po_predecessor e) r) as (r1 & -> & Hr1); [intros a Ha; apply Hlt, elem_of_preds; auto|].
  cbn [mbind option_bind].
  destruct (Hend (read_from e) r1) as (r2 & -> & Hr2); [intros a Ha; apply Hlt, elem_of_preds; auto|].
  exists r2. split; [done|]. intros y. rewrite Hr2, Hr1, Hr. unfold follows.
  setoid_rewrite (Hn y). split.
  - intros H. assert (exists a, a ∈ preds e i /\ event_ids g !! a = Some y) as (a & Ha & Hy).
    { setoid_rewrite elem_of_preds. destruct H as [[[[]%not_elem_of_nil|(a & ? & ?)]|(a & ? & ?)]|(a & ? & ?)]; exists a; auto. }
    exists a, b. split_and!; [done..|]. by exists e, i.
  - intros (a & b' & Hb' & Hy & (e' & i' & He' & Hi' & Ha)). simplify_eq.
    apply elem_of_preds in Ha as [?|[?|?]]; [left; right|right|left; left; right]; by exists a.
Qed.

Lemma follows_before g x y b : tc (follows g) x y -> extid_to_id g !! x = Some b ->
  exists a, extid_to_id g !! y = Some a /\ before g a b.
Proof.
  intros H. revert b. induction H as [x y (a & b & Hx & Hy & Hab)|x y z (a & b & Hx & Hy & Hab) _ IH]; intros b' Hb; simplify_eq.
  - exists a. split; [done|]. by apply tc_once.
  - destruct (IH a Hy) as (c & Hc & Hca). exists c. split; [done|]. by eapply tc_r.
Qed.

Lemma follows_acyclic g x : acyclic g -> ~ tc (follows g) x x.
Proof.
  intros Hac H. assert (Hk : forall u v, tc (follows g) u v -> exists b, extid_to_id g !! u = Some b).
  { intros u v [? ? (a & b & ? & _)|? ? ? (a & b & ? & _) _]; by exists b. }
  destruct (Hk x x H) as [b Hb]. destruct (follows_before g x x b H Hb) as (a & Ha & Hab). simplify_eq. by apply (Hac b).
Qed.

(** ** The search *)

(** Every predecessor of a listed event is listed before it. *)
Definition ordered (g : graph) (l : list IID) : Prop := forall k x, l !! k = Some x ->
  forall y, follows g x y -> exists j, j < k /\ l !! j = Some y.

Record topo_ok (g : graph) (t : topo) : Prop := {
  to_nodup : NoDup (ret t);
  to_mark x : x ∈ ret t -> x ∈ mark t;
  to_ordered : ordered g (ret t);
}.

(** Marked and not yet listed: the events of the running calls. *)
Definition open (t : topo) (x : IID) : Prop := x ∈ mark t /\ x ∉ ret t.

Section visit.
Context (g : graph) (Hwf : wf g) (Hn : named g) (Hac : acyclic g).

Let names : gset IID := list_to_set (event_ids g).
Definition unmarked (t : topo) : nat := size (names ∖ mark t).

(** What a call for [id] does: it adds to the list [id] and events before it. *)
Definition visited (t : topo) (ids : list IID) (t' : topo) : Prop :=
  topo_ok g t' /\ (forall x, open t' x <-> open t x) /\ unmarked t' <= unmarked t /\
  (exists l, ret t' = ret t ++ l /\ forall x, x ∈ l -> exists id, id ∈ ids /\ rtc (follows g) id x) /\
  forall id, id ∈ ids -> id ∈ ret t'.

Lemma visited_refl t : topo_ok g t -> visited t [] t.
Proof.
  intros Ht. split_and!; [done..| |by intros id []%not_elem_of_nil].
  exists []. rewrite app_nil_r. split; [done|]. by intros x []%not_elem_of_nil.
Qed.

Lemma visited_app t1 l1 t2 l2 t3 : visited t1 l1 t2 -> visited t2 l2 t3 -> visited t1 (l1 ++ l2) t3.
Proof.
  intros (_ & O1 & U1 & (r1 & E1 & R1) & I1) (Ht & O2 & U2 & (r2 & E2 & R2) & I2).
  split_and!; [done|intros x; by rewrite O2, O1|lia| |].
  - exists (r1 ++ r2). rewrite E2, E1, app_assoc. split; [done|].
    intros x [(id & ? & ?)%R1|(id & ? & ?)%R2]%elem_of_app; exists id; rewrite elem_of_app; auto.
  - intros id [Hid|?]%elem_of_app; [|auto]. rewrite E2. apply elem_of_app. left. auto.
Qed.

Lemma mark_topo t id :
  topo_ok g t -> id ∉ mark t -> is_Some (extid_to_id g !! id) ->
  let t1 := MkTopo ({[id]} ∪ mark t) (ret t) in
  topo_ok g t1 /\ unmarked t1 < unmarked t /\ forall x, open t1 x <-> x = id \/ open t x.
Proof.
  intros [H1 H2 H3] Hid Hk. cbv zeta. split_and!.
  - split; simpl; [done| |done]. set_solver.
  - unfold unmarked. simpl. apply subset_size. apply (named_in g id Hn) in Hk.
    assert (id ∈ names) by (unfold names; by apply elem_of_list_to_set). set_solver.
  - intros x. unfold open. simpl. set_solver.
Qed.

(** The calls for the predecessors, then the event itself. *)
Lemma visited_list t id l t2 :
  topo_ok g t -> id ∉ mark t -> is_Some (extid_to_id g !! id) ->
  (forall y, y ∈ l <-> follows g id y) ->
  visited (MkTopo ({[id]} ∪ mark t) (ret t)) l t2 ->
  visited t [id] (MkTopo (mark t2) (ret t2 ++ [id])).
Proof.
  intros Ht Hid Hk Hl (Ht2 & O & U & (r & E & R) & I).
  destruct (mark_topo t id Ht Hid Hk) as (Ht1 & Hu & Ho). set (t1 := MkTopo _ _) in *.
  assert (Hoid : open t2 id) by (apply O, Ho; by left).
  assert (Hni : id ∉ ret t) by (intros ?%(to_mark g t Ht); done).
  split_and!.
  - split; simpl.
    + apply NoDup_app. split_and!; [apply (to_nodup g t2 Ht2)| |apply NoDup_singleton].
      intros x Hx ->%list_elem_of_singleton. by apply Hoid.
    + intros x [Hx| ->%list_elem_of_singleton]%elem_of_app; [by apply (to_mark g t2 Ht2)|apply Hoid].
    + intros k x Hx y Hxy. apply lookup_app_Some in Hx as [Hx|[Hge Hx]].
      * destruct (to_ordered g t2 Ht2 k x Hx y Hxy) as (j & Hj & Hy). exists j. split; [done|].
        by apply lookup_app_l_Some.
      * apply list_lookup_singleton_Some in Hx as [_ <-]. apply Hl, I, list_elem_of_lookup_1 in Hxy as [j Hj].
        exists j. pose proof (lookup_lt_Some _ _ _ Hj). split; [lia|]. by apply lookup_app_l_Some.
  - intros x. unfold open. simpl. rewrite elem_of_app, list_elem_of_singleton.
    pose proof (O x) as H1. pose proof (Ho x) as H2. unfold open in H1, H2.
    destruct (decide (x = id)) as [->|]; naive_solver.
  - unfold unmarked in *. simpl in *. lia.
  - exists (r ++ [id]). simpl. rewrite E, app_assoc. split; [done|].
    intros x [(y & Hy & Hyx)%R| ->%list_elem_of_singleton]%elem_of_app;
      exists id; (split; [by left|]); [|apply rtc_refl]. eapply rtc_l; [by apply Hl|done].
  - intros x ->%list_elem_of_singleton. simpl. apply elem_of_app. right. by left.
Qed.

Lemma toposort_visit_spec fuel : forall id t,
  is_Some (extid_to_id g !! id) -> topo_ok g t -> unmarked t < fuel ->
  (forall x, open t x -> tc (follows g) x id) ->
  exists t', toposort_visit fuel g id t = Some t' /\ visited t [id] t'.
Proof.
  induction fuel as [|fuel IH]; intros id t [b Hb] Ht Hu Ho; [lia|]. simpl.
  case_decide as Hm.
  { exists t. split; [done|]. assert (Hid : id ∈ ret t).
    { destruct (decide (id ∈ ret t)); [done|]. exfalso. by apply (follows_acyclic g id Hac), Ho. }
    destruct (visited_refl t Ht) as (? & ? & ? & (l & Hl & _) & _). split_and!; [done..| |].
    - exists []. rewrite app_nil_r. split; [done|]. by intros x []%not_elem_of_nil.
    - by intros x ->%list_elem_of_singleton. }
  destruct (event_in_spec g id b Hwf Hn Hb) as (l & -> & Hl). cbn [mbind option_bind].
  destruct (mark_topo t id Ht Hm) as (Ht1 & Hu1 & Ho1); [by exists b|]. set (t1 := MkTopo _ _) in *.
  destruct (for_each_total (fun pre t' => visited t1 pre t') (toposort_visit fuel g) l)
    with (st := t1) as (t2 & -> & Hv2); [|by apply visited_refl|].
  - intros pre y post t' Hpre Hv. pose proof Hv as (Ht' & O' & U' & _ & _).
    assert (Hy : follows g id y) by (apply Hl; rewrite Hpre; apply elem_of_app; right; by left).
    destruct (IH y t') as (t'' & -> & Hv'); [destruct Hy as (a & ? & _ & ? & _); by exists a|done|lia| |].
    { intros x [->|Hx%Ho]%O'%Ho1; [by apply tc_once|by eapply tc_r]. }
    exists t''. split; [done|]. by eapply visited_app.
  - eexists; split; [done|]. eapply visited_list; [done|done|by exists b|done|done].
Qed.

Lemma unmarked_fuel : unmarked (MkTopo ∅ []) < toposort_fuel g.
Proof.
  unfold unmarked, toposort_fuel, graph_size, names. simpl. rewrite difference_empty_L.
  rewrite size_list_to_set by (by apply named_nodup). unfold event_ids. rewrite length_fmap. lia.
Qed.

(** [l] lists the events [ids] and all that come before them, each once and
    after its predecessors. *)
Record listing (ids l : list IID) : Prop := {
  ls_nodup : NoDup l;
  ls_elem x : x ∈ l <-> exists id, id ∈ ids /\ rtc (follows g) id x;
  ls_ordered : ordered g l;
}.

Lemma toposort_spec ids :
  (forall x, x ∈ ids -> is_Some (extid_to_id g !! x)) ->
  exists l, toposort g ids = Some l /\ listing ids l.
Proof.
  intros Hids. unfold toposort.
  assert (Ht0 : topo_ok g (MkTopo ∅ [])).
  { split; simpl; [constructor|by intros x []%not_elem_of_nil|]. intros k x Hx. by rewrite lookup_nil in Hx. }
  destruct (for_each_total (fun pre t => visited (MkTopo ∅ []) pre t)
    (toposort_visit (toposort_fuel g) g) ids) with (st := MkTopo ∅ []) as (t & -> & Hv);
    [|by apply visited_refl|].
  - intros pre x post t Hpre Hv. pose proof Hv as (Ht & O & U & _).
    destruct (toposort_visit_spec (toposort_fuel g) x t) as (t' & -> & Hv'); [|done| |intros y Hy|].
    + apply Hids. rewrite Hpre. apply elem_of_app. right. by left.
    + pose proof unmarked_fuel. lia.
    + apply O in Hy as [Hy _]. simpl in Hy. set_solver.
    + exists t'. split; [done|]. by eapply visited_app.
  - destruct Hv as (Ht & _ & _ & (l & E & R) & I). simpl in *. exists l. rewrite E. split; [done|].
    destruct Ht as [H1 _ H3]. rewrite E in *. split; [done| |done].
    intros x. split; [auto|]. intros (id & Hid & Hx).
    assert (Hin : id ∈ l) by auto. clear Hid. induction Hx as [id|id y x Hy _ IHx]; [done|]. apply IHx.
    apply list_elem_of_lookup_1 in Hin as [k Hk]. destruct (H3 k id Hk y Hy) as (j & _ & Hj).
    by eapply list_elem_of_lookup_2.
Qed.
End visit.

(** * Guessing the coherence order *)

#[export] Instance subgraph_preorder : PreOrder subgraph.
Proof.
  split; unfold subgraph; [done|]. intros g1 g2 g3 [? ?] [? ?]. split; [by etrans|auto].
Qed.

(** ** Adding an edge *)

(** A path that uses the new edge passes through it. *)
Lemma added_edge_path (R R' : relation nat) a b x y :
  (forall x y, R' x y <-> R x y \/ (x = a /\ y = b)) ->
  rtc R' x y -> rtc R x y \/ (rtc R x a /\ rtc R b y).
Proof.
  intros HR. induction 1 as [x|x y z [Hxy|[-> ->]]%HR _ IH]; [left; apply rtc_refl| |].
  - destruct IH as [?|[? ?]]; [left|right; split; [|done]]; by eapply rtc_l.
  - destruct IH as [?|[_ ?]]; right; (split; [apply rtc_refl|done]).
Qed.

Lemma add_edge_acyclic g g' a b :
  (forall x y, edge g' x y <-> edge g x y \/ (x = a /\ y = b)) ->
  acyclic g -> ~ reaches g b a -> acyclic g'.
Proof.
  intros HR Hac Hba x (y & Hxy & Hyx)%before_first.
  apply (added_edge_path (edge g) (edge g') a b y x HR) in Hyx.
  apply HR in Hxy as [Hxy|[-> ->]].
  - destruct Hyx as [Hyx|[Hya Hbx]].
    + apply (Hac x). by eapply tc_rtc_r; [apply tc_once|].
    + apply Hba. eapply rtc_trans; [done|]. by eapply rtc_l.
  - destruct Hyx as [Hyx|[_ Hyx]]; by apply Hba.
Qed.

(** ** What the clocks compare *)

Section clocks.
Context (g : graph) (Hg : good g) (Hs : saturated g).

Lemma clock_le_reaches a b :
  a < length (events g) -> b < length (events g) ->
  clk_le (default [] (vclocks g !! a)) (default [] (vclocks g !! b)) <-> reaches g a b.
Proof.
  intros Ha Hb. pose proof (go_wf g Hg) as Hwf. split.
  - intros Hle. destruct (lookup_lt_exists (events g) a Ha) as [e He].
    assert (Hp : positioned g (ev_pid e) (ev_index e) a) by (by exists e).
    apply (sat_clock g Hs b _ _ _ Hb Hp). etrans; [|apply Hle].
    apply (sat_clock g Hs a _ _ _ Ha Hp). apply rtc_refl.
  - intros Hab p. destruct (decide (0 < clock g a p)%Z) as [Hpos|Hneg].
    + destruct (go_reach g Hg a p Hpos) as (x & Hx & Hxa).
      apply (sat_clock g Hs b _ _ _ Hb Hx). by eapply rtc_trans.
    + pose proof (co_range g (wf_clocks g Hwf) b p). unfold clock in *. lia.
Qed.

Lemma event_vc_ok x id :
  is_saturated g = true -> extid_to_id g !! x = Some id ->
  id < length (events g) /\ exists v, event_vc g x = Some v /\ vc_wf v /\ v = default [] (vclocks g !! id).
Proof.
  intros Hq Hx. pose proof (go_wf g Hg) as Hwf.
  assert (Hlt : id < length (events g)) by (by apply (sk_ext g (wf_skeleton g Hwf) x)).
  split; [done|]. destruct (lookup_lt_exists (vclocks g) id) as [v Hv]; [by rewrite (co_length g (wf_clocks g Hwf))|].
  exists v. unfold event_vc. rewrite Hq. simpl. rewrite Hx. simpl. rewrite Hv. split_and!; [done| |done].
  intros p. pose proof (co_range g (wf_clocks g Hwf) id p) as H. unfold clock in H. rewrite Hv in H. apply H.
Qed.
End clocks.

(** ** Positions in the given execution *)

Lemma find_pos_lt l x : x ∈ l -> find_pos l x < length l.
Proof.
  induction l as [|y l IH]; [by intros []%not_elem_of_nil|]. intros Hx. simpl. case_decide; [lia|].
  apply elem_of_cons in Hx as [->|Hx]; [done|]. specialize (IH Hx). lia.
Qed.

Lemma find_pos_lookup l k x : NoDup l -> l !! k = Some x -> find_pos l x = k.
Proof.
  intros Hnd. revert k. induction Hnd as [|y l Hy Hnd IH]; intros k Hk; [done|]. simpl.
  destruct k as [|k]; simpl in Hk; simplify_eq; [by rewrite decide_True|].
  rewrite decide_False; [by rewrite (IH k)|]. intros ->. by apply Hy, (list_elem_of_lookup_2 _ k).
Qed.

Lemma find_pos_filter (P : IID -> Prop) `{forall x, Decision (P x)} l pre x post y :
  NoDup l -> filter P l = pre ++ x :: post -> y ∈ pre -> find_pos l y < find_pos l x.
Proof.
  intros Hnd. revert pre. induction Hnd as [|z l Hz Hnd IH]; intros pre.
  { rewrite filter_nil. by destruct pre. }
  assert (Hin : forall pre', filter P l = pre' ++ x :: post -> forall u, u ∈ x :: pre' -> u ∈ l).
  { intros pre' E u Hu. apply (list_elem_of_filter P). rewrite E. set_solver. }
  rewrite filter_cons. case_decide as HP.
  - destruct pre as [|u pre]; [by intros _ []%not_elem_of_nil|]. simpl. intros [= <- E] Hy.
    assert (x <> z) by (intros ->; apply Hz, (Hin pre); [done|by left]).
    rewrite (decide_False (P := z = x)) by done.
    apply elem_of_cons in Hy as [->|Hy]; [rewrite decide_True by done; lia|].
    rewrite decide_False; [specialize (IH pre E Hy); lia|].
    intros ->. apply Hz, (Hin pre); [done|by right].
  - intros E Hy. assert (x <> z /\ y <> z) as [? ?].
    { split; intros ->; apply Hz, (Hin pre); try done; [by left|by right]. }
    cbn [find_pos]. rewrite !decide_False by done. specialize (IH pre E Hy). lia.
Qed.

(** ** One store *)

Definition xbefore (g : graph) (x y : IID) : Prop := exists a b,
  extid_to_id g !! x = Some a /\ extid_to_id g !! y = Some b /\ before g a b.

(** [x] names a store to [a]. *)
Definition xstore (g : graph) (x : IID) (a : SymAddr) : Prop :=
  exists s, extid_to_id g !! x = Some s /\ stores g s a.

Definition increasing (g : graph) (l : list IID) : Prop :=
  forall i j x y, i < j -> l !! i = Some x -> l !! j = Some y -> xbefore g x y.

(** The stores placed so far, [done]: the list of every address orders them. *)
Record placed (g : graph) (done : list IID) (total_co : coherence) : Prop := {
  pl_elem a x : x ∈ default [] (total_co !! a) <-> x ∈ done /\ xstore g x a;
  pl_increasing a : increasing g (default [] (total_co !! a));
}.

(** What holds of the graph between two stores. *)
Record stage (g0 g : graph) : Prop := {
  st_good : good g;
  st_saturated : saturated g;
  st_queue : is_saturated g = true;
  st_sub : subgraph g0 g;
}.

Lemma xbefore_mono g g' x y : subgraph g g' -> xbefore g x y -> xbefore g' x y.
Proof.
  intros Hsub (a & b & Ha & Hb & Hab). pose proof Hsub as [(E & _) _].
  exists a, b. rewrite E. split_and!; [done..|]. by eapply before_mono.
Qed.

Lemma xbefore_trans g x y z : xbefore g x y -> xbefore g y z -> xbefore g x z.
Proof.
  intros (a & b & Ha & Hb & Hab) (b' & c & Hb' & Hc & Hbc). simplify_eq. exists a, c.
  split_and!; [done..|]. by eapply tc_transitive.
Qed.

Lemma xstore_same g g' x a : subgraph g g' -> xstore g' x a <-> xstore g x a.
Proof. intros [(E1 & E2 & _) _]. unfold xstore, stores. by rewrite E1, E2. Qed.

Lemma increasing_mono g g' l : subgraph g g' -> increasing g l -> increasing g' l.
Proof. intros Hsub Hl i j x y Hij Hx Hy. eapply xbefore_mono; [done|by apply (Hl i j)]. Qed.

(** Inserting between what comes before and what comes after. *)
Lemma increasing_insert g l p w :
  increasing g l -> p <= length l ->
  (forall prev i, p = S prev -> l !! prev = Some i -> xbefore g i w) ->
  (forall j, l !! p = Some j -> xbefore g w j) ->
  increasing g (take p l ++ w :: drop p l).
Proof.
  intros Hl Hp Hbefore Hafter.
  assert (Hto : forall i x, i < p -> l !! i = Some x -> xbefore g x w).
  { intros i x Hi Hx. destruct p as [|prev]; [lia|].
    destruct (lookup_lt_exists l prev) as [y Hy]; [lia|]. specialize (Hbefore prev y eq_refl Hy).
    destruct (decide (i = prev)) as [->|]; [by simplify_eq|].
    eapply xbefore_trans; [|done]. apply (Hl i prev); [lia|done..]. }
  assert (Hfrom : forall j x, p <= j -> l !! j = Some x -> xbefore g w x).
  { intros j x Hj Hx. destruct (lookup_lt_exists l p) as [y Hy].
    { apply lookup_lt_Some in Hx. lia. }
    specialize (Hafter y Hy). destruct (decide (j = p)) as [->|]; [by simplify_eq|].
    eapply xbefore_trans; [done|]. apply (Hl p j); [lia|done..]. }
  assert (Hlen : length (take p l) = p) by (rewrite length_take; lia).
  assert (Hcase : forall i x, (take p l ++ w :: drop p l) !! i = Some x ->
    (i < p /\ l !! i = Some x) \/ (i = p /\ x = w) \/ (p < i /\ l !! (i - 1) = Some x)).
  { intros i x Hx. apply lookup_app_Some in Hx as [Hx|[Hge Hx]].
    - apply lookup_take_Some in Hx as [? ?]. by left.
    - rewrite Hlen in *. destruct (i - p) as [|k] eqn:Ek; simpl in Hx; [right; left; split; [lia|congruence]|].
      right; right. split; [lia|]. rewrite lookup_drop in Hx. rewrite <-Hx. f_equal. lia. }
  intros i j x y Hij [[? ?]|[[? ->]|[? ?]]]%Hcase [[? ?]|[[? ->]|[? ?]]]%Hcase; try lia.
  - by apply (Hl i j).
  - by apply (Hto i).
  - apply (Hl i (j - 1)); [lia|done..].
  - apply (Hfrom (j - 1)); [lia|done].
  - apply (Hl (i - 1) (j - 1)); [lia|done..].
Qed.

Section stage.
Context (g0 g : graph) (Hst : stage g0 g) (Hn : named g).

Lemma insert_position_spec cur w iw wc co :
  extid_to_id g !! w = Some iw -> wc = default [] (vclocks g !! iw) -> vc_wf wc ->
  (forall i, i ∈ co -> is_Some (extid_to_id g !! i) /\ find_pos cur i < find_pos cur w) ->
  forall p, p <= length co ->
  (forall j y b, p <= j -> co !! j = Some y -> extid_to_id g !! y = Some b -> reaches g iw b) ->
  exists q, insert_position g cur w wc co p = Some q /\ q <= length co /\
    (forall j y b, q <= j -> co !! j = Some y -> extid_to_id g !! y = Some b -> reaches g iw b) /\
    (forall prev y b, q = S prev -> co !! prev = Some y -> extid_to_id g !! y = Some b -> ~ reaches g iw b).
Proof.
  intros Hw Hwc Hwf Hco. pose proof Hst as [Hg Hs Hq _].
  assert (Hlw : iw < length (events g)) by (by apply (event_vc_ok g Hg w)).
  induction p as [|p IH]; intros Hp Hreach; cbn [insert_position].
  { exists 0. split_and!; [done|lia|done|lia]. }
  destruct (lookup_lt_exists co p) as [i Hi]; [lia|]. rewrite Hi. cbn [mbind option_bind].
  destruct (Hco i) as [[b Hb] Hpos]; [by eapply list_elem_of_lookup_2|].
  destruct (event_vc_ok g Hg i b Hq Hb) as (Hlb & ic & -> & Hwfi & Eic). cbn [mbind option_bind].
  rewrite bool_decide_true by done. cbn [cassert mbind option_bind].
  destruct (vc_leq_spec wc ic Hwf Hwfi) as (le & -> & Hle). cbn [mbind option_bind].
  assert (Hr : le = true <-> reaches g iw b).
  { rewrite Hle, Hwc, Eic. by apply clock_le_reaches. }
  destruct le.
  - apply IH; [lia|]. intros j y b' Hj Hy Hb'. destruct (decide (j = p)) as [->|].
    + simplify_eq. by apply Hr.
    + apply (Hreach j y b'); [lia|done..].
  - exists (S p). split_and!; [done|done|done|].
    intros prev y b' [= <-] Hy Hb'. simplify_eq. intros Hx%Hr. done.
Qed.

(** The two edges of a position keep the graph acyclic and put [w] in its place. *)
Lemma place_edges w iw (co : list IID) q :
  extid_to_id g !! w = Some iw -> w ∉ co -> q <= length co ->
  (forall i, i ∈ co -> is_Some (extid_to_id g !! i)) ->
  (forall j y b, q <= j -> co !! j = Some y -> extid_to_id g !! y = Some b -> reaches g iw b) ->
  (forall prev y b, q = S prev -> co !! prev = Some y -> extid_to_id g !! y = Some b -> ~ reaches g iw b) ->
  exists g1 g2,
    match q with 0 => Some g | S prev => i ← co !! prev; add_edge i w g end = Some g1 /\
    match co !! q with Some j => add_edge w j g1 | None => Some g1 end = Some g2 /\
    good g2 /\ acyclic g2 /\ subgraph g g2 /\
    (forall prev i, q = S prev -> co !! prev = Some i -> xbefore g2 i w) /\
    (forall j, co !! q = Some j -> xbefore g2 w j).
Proof.
  intros Hw Hni Hq Hk Hafter Hbefore. pose proof Hst as [Hg Hs _ _].
  assert (H1 : exists g1, match q with 0 => Some g | S prev => i ← co !! prev; add_edge i w g end = Some g1 /\
    good g1 /\ acyclic g1 /\ subgraph g g1 /\
    forall prev i, q = S prev -> co !! prev = Some i -> xbefore g1 i w).
  { destruct q as [|prev].
    { exists g. split_and!; [done|done|apply Hs|split; done|done]. }
    destruct (lookup_lt_exists co prev) as [i Hi]; [lia|]. rewrite Hi. cbn [mbind option_bind].
    destruct (Hk i) as [a Ha]; [by eapply list_elem_of_lookup_2|].
    destruct (add_edge_good g i w a iw Hg Ha Hw) as (g1 & -> & Hg1 & Hsub & He).
    exists g1. split_and!; [done|done| |done|].
    - eapply add_edge_acyclic; [done|apply Hs|]. by apply (Hbefore prev i).
    - intros prev' i' [= <-] Hi'. simplify_eq. pose proof Hsub as [(E & _) _].
      exists a, iw. rewrite E. split_and!; [done..|]. apply tc_once, He. by right. }
  destruct H1 as (g1 & -> & Hg1 & Hac1 & Hsub1 & Hb1). exists g1.
  destruct (co !! q) as [j|] eqn:Ej; [|exists g1; naive_solver].
  destruct (Hk j) as [b Hb]; [by eapply list_elem_of_lookup_2|].
  pose proof Hsub1 as [(E1 & _) _].
  destruct (add_edge_good g1 w j iw b) as (g2 & -> & Hg2 & Hsub2 & He2); [done|by rewrite E1..|].
  assert (Hwj : before g1 iw b).
  { eapply before_mono; [done|]. apply reaches_before; [by apply (Hafter q j)|].
    intros ->. apply Hn in Hw, Hb. apply Hni. simplify_eq. by eapply list_elem_of_lookup_2. }
  exists g2. split_and!; [done|done|done| |by etrans| |].
  - eapply add_edge_acyclic; [done|done|]. intros Hx. apply (Hac1 iw). by eapply tc_rtc_r.
  - intros prev i Hp Hi. eapply xbefore_mono; [done|by apply (Hb1 prev)].
  - intros j' [= <-]. pose proof Hsub2 as [(E2 & _) _]. exists iw, b. rewrite E2, E1.
    split_and!; [done..|]. by eapply before_mono.
Qed.
End stage.

(** ** All stores *)

Lemma place_store_spec g0 g cur done total_co w iw a :
  stage g0 g -> named g -> placed g done total_co -> w ∉ done ->
  extid_to_id g !! w = Some iw -> stores g iw a ->
  (forall i, i ∈ done -> find_pos cur i < find_pos cur w) ->
  exists r, place_store cur w total_co g = Some r /\
    match r with
    | None => True
    | Some (total_co', g') => stage g0 g' /\ placed g' (done ++ [w]) total_co'
    end.
Proof.
  intros Hst Hn [Hel Hinc] Hni Hw Hsa Hpos. pose proof Hst as [Hg Hs Hq Hsub0].
  unfold place_store. destruct (event_vc_ok g Hg w iw Hq Hw) as (_ & wc & -> & Hwf & Ewc).
  cbn [mbind option_bind]. destruct Hsa as (e & He & Hstore & <-).
  unfold event_addr. rewrite Hw. cbn [mbind option_bind]. rewrite He. cbn [mbind option_bind].
  rewrite Hstore, orb_true_r. cbn [cassert mbind option_bind].
  set (co := default [] (total_co !! ev_addr e)).
  assert (Hco : forall i, i ∈ co -> is_Some (extid_to_id g !! i) /\ find_pos cur i < find_pos cur w).
  { intros i Hi. apply Hel in Hi as [Hi (s & Hk & _)]. split; [by exists s|auto]. }
  destruct (insert_position_spec g0 g Hst cur w iw wc co Hw Ewc Hwf Hco (length co))
    as (q & -> & Hq' & Hafter & Hbefore); [done| |].
  { intros j y b Hj Hy. apply lookup_lt_Some in Hy. lia. }
  cbn [mbind option_bind].
  destruct (place_edges g0 g Hst Hn w iw co q) as (g1 & g2 & E1 & E2 & Hg2 & Hac2 & Hsub2 & Hl & Hr);
    [done| |done|by intros i [? _]%Hco|done|done|].
  { by intros [? _]%Hel. }
  rewrite E1. cbn [mbind option_bind]. rewrite E2. cbn [mbind option_bind].
  destruct (ends g2 Hg2 Hac2) as (b & g3 & -> & Hb). cbn [mbind option_bind].
  destruct b; [|by eexists]. destruct (Hb eq_refl) as (Hg3 & Hs3 & Hsub3 & Hq3).
  assert (Hsub : subgraph g g3) by (by etrans).
  eexists; split; [done|]. split; [split; try done; by etrans|].
  assert (Hin : forall x, x ∈ take q co ++ w :: drop q co <-> x ∈ co \/ x = w).
  { intros x. assert (Hx : x ∈ co <-> x ∈ take q co \/ x ∈ drop q co) by (by rewrite <-elem_of_app, take_drop).
    rewrite elem_of_app, elem_of_cons. naive_solver. }
  split; [intros a x|intros a].
  - rewrite elem_of_app, list_elem_of_singleton, (xstore_same g g3) by done.
    destruct (decide (a = ev_addr e)) as [->|Ha].
    + rewrite lookup_insert_eq. simpl. rewrite Hin. unfold co. rewrite Hel.
      assert (xstore g w (ev_addr e)) by (exists iw; split; [done|by exists e]). naive_solver.
    + rewrite lookup_insert_ne by done. rewrite Hel. split; [naive_solver|].
      intros [[?| ->] Hx]; [done|]. destruct Hx as (s & Hx & e' & ? & _ & ?). simplify_eq.
  - destruct (decide (a = ev_addr e)) as [->|Ha].
    + rewrite lookup_insert_eq. simpl. apply increasing_insert; [by apply (increasing_mono g); [|apply Hinc]|done| |].
      * intros prev i Hp Hi. apply (xbefore_mono g2); [done|by apply (Hl prev)].
      * intros j Hj. apply (xbefore_mono g2); auto.
    + rewrite lookup_insert_ne by done. by apply (increasing_mono g); [|apply Hinc].
Qed.

Lemma place_stores_spec g0 cur ids : forall done total_co g,
  named g0 -> stage g0 g -> placed g done total_co ->
  NoDup (done ++ ids) -> (forall x, x ∈ ids -> is_Some (extid_to_id g0 !! x)) ->
  (forall pre x post, done ++ ids = pre ++ x :: post -> forall y, y ∈ pre -> find_pos cur y < find_pos cur x) ->
  exists r, place_stores cur ids total_co g = Some r /\
    match r with
    | None => True
    | Some g' => stage g0 g' /\ exists total_co', placed g' (done ++ ids) total_co'
    end.
Proof.
  induction ids as [|w ids IH]; intros done total_co g Hn Hst Hpl Hnd Hk Hpos; simpl.
  { eexists; split; [reflexivity|]. rewrite app_nil_r. eauto. }
  pose proof (st_sub g0 g Hst) as [Hsame _]. pose proof Hsame as (Ex & Ee & _).
  assert (Hng : named g) by (apply (named_same g0); unfold event_ids; by rewrite ?Ee).
  destruct (Hk w) as [iw Hw]; [by left|]. rewrite <-Ex in Hw.
  destruct (named_event g w iw Hng Hw) as (e & He & Hx).
  unfold event_is_store. rewrite Hw. cbn [mbind option_bind]. rewrite He. cbn [mbind option_bind].
  assert (Hassoc : done ++ w :: ids = (done ++ [w]) ++ ids) by (by rewrite <-app_assoc).
  rewrite Hassoc in *. destruct (is_store e) eqn:Es.
  - destruct (place_store_spec g0 g cur done total_co w iw (ev_addr e)) as (r & -> & Hr); [done..| |done|by exists e| |].
    + rewrite <-app_assoc in Hnd. apply NoDup_app in Hnd as (_ & Hd & _).
      intros Hin. apply (Hd w Hin). by left.
    + intros i Hi. by apply (Hpos done w ids).
    + cbn [mbind option_bind]. destruct r as [[co' g']|]; [|by eexists].
      destruct Hr as [Hst' Hpl']. apply IH; [done..|intros x Hx'; apply Hk; by right|done].
  - destruct (IH (done ++ [w]) total_co g) as (r & -> & Hr); [done|done| |done|intros x Hx'; apply Hk; by right|done|by eexists].
    destruct Hpl as [Hel Hinc]. split; [|done]. intros a x. rewrite Hel, elem_of_app, list_elem_of_singleton.
    split; [naive_solver|]. intros [[?| ->] Hs]; [done|].
    destruct Hs as (s & Hs & e' & ? & ? & _). simplify_eq. congruence.
Qed.
