(* ===== verification/PrefixSpec.v ===== *)
(** * PrefixSpec: what a generated prefix promises

    A prefix that [try_generate_prefix] returns for a saturated graph is an
    execution of its events under sequential consistency: it agrees with every
    edge of the graph, and every read comes right after the store it reads from,
    with no other store to the address in between. [toposort] is specified for
    any acyclic graph the calls make. *)

From S2P Require Import Prelude.
From S2P Require Import VClock.
From S2P Require Import CPid.
From S2P Require Import SymAddr.
From S2P Require Import SatGraph.
From S2P Require Import SatWf.
From S2P Require Import SatClosed.
From S2P Require Import SatSound.
From S2P Require Import SatBuild.
From S2P Require Import SatSpec.
From S2P Require Import Prefix.
From S2P Require Import PrefixPlace.

(** ** The calls keep the names *)

Definition names (g : graph) : gmap IID nat * list IID := (extid_to_id g, event_ids g).

Lemma for_each_names {A} (body : A -> graph -> option graph) l :
  (forall x g g', body x g = Some g' -> names g' = names g) ->
  forall g g', for_each l body g = Some g' -> names g' = names g.
Proof.
  intros Hb. induction l as [|x l IH]; intros g g' E; simpl in E; [by simplify_eq|].
  destruct (body x g) as [g1|] eqn:E1; simpl in E; [|done]. rewrite (IH g1 g' E). by eapply Hb.
Qed.

Lemma add_in_names to from g g' : add_in to from g = Some g' -> names g' = names g.
Proof. unfold add_in. destruct (push_at _ _ _); simpl; [|done]. by intros [= <-]. Qed.
Lemma add_out_names to from g g' : add_out to from g = Some g' -> names g' = names g.
Proof. unfold add_out. destruct (push_at _ _ _); simpl; [|done]. by intros [= <-]. Qed.
Lemma wq_add_names id g : names (wq_add id g) = names g.
Proof. unfold wq_add. by destruct (wq_marked g id). Qed.

(** Steps through the [option] monad. *)
Tactic Notation "step" hyp(E) "as" ident(x) ident(H) :=
  match type of E with
  | mbind _ ?m = Some _ => destruct m as [x|] eqn:H; [cbn [mbind option_bind] in E|discriminate E]
  end.

Lemma add_to_process_names pid id g po index g' :
  add_to_process pid id g = Some (po, index, g') -> names g' = names g.
Proof.
  unfold add_to_process. intros E. step E as l Hl. step E as r Hr. destruct r as [[po' ix] g1].
  step E as p Hp. simplify_eq. destruct (last l) as [b|].
  - step Hr as e He. step Hr as g2 Hg2. simplify_eq. exact (add_out_names _ _ _ _ Hg2).
  - by simplify_eq.
Qed.

Lemma init_reads_names order id addr g g' :
  add_from_init_reads order id addr g = Some g' -> names g' = names g.
Proof.
  unfold add_from_init_reads. apply for_each_names. intros [p w] g1 g2 E.
  step E as h1 H1. step E as h2 H2. simplify_eq.
  by rewrite wq_add_names, (add_in_names _ _ _ _ H2), (add_out_names _ _ _ _ H1).
Qed.

Lemma add_write_names pid id addr g g' : add_write pid id addr g = Some g' -> names g' = names g.
Proof.
  unfold add_write. intros E. step E as g1 H1. step E as w Hw. step E as w' Hw'. simplify_eq.
  transitivity (names g1); [done|].
  unfold add_first_write in H1. case_decide; [|by simplify_eq]. step H1 as g2 H2. simplify_eq.
  transitivity (names g2); [done|]. revert H2. apply for_each_names. intros r h h' E. step E as h1 Hh.
  by rewrite (add_out_names _ _ _ _ E), (add_in_names _ _ _ _ Hh).
Qed.

Lemma add_reader_names w n g e es :
  events g !! w = Some e -> vset (events g) w (push_reader n e) = Some es ->
  names (set_events es g) = names g.
Proof.
  intros He. unfold vset. case_decide; [|done]. intros [= <-]. unfold names, event_ids. simpl. f_equal.
  apply list_eq. intros k. rewrite !list_lookup_fmap. destruct (decide (k = w)) as [->|].
  - rewrite list_lookup_insert_eq by done. by rewrite He.
  - by rewrite list_lookup_insert_ne.
Qed.

Lemma append_names (b : bool) g e l v :
  names (set_clocks v (if b then set_inits l (set_events (events g ++ [e]) g)
                       else set_events (events g ++ [e]) g)) =
  (extid_to_id g, event_ids g ++ [ext_id e]).
Proof. unfold names, event_ids. destruct b; simpl; by rewrite fmap_app. Qed.

Lemma add_event_names order pid extid kind addr rf orig_in g g' :
  add_event order pid extid kind addr rf orig_in g = Some g' ->
  names g' = (<[extid := length (events g)]> (extid_to_id g), event_ids g ++ [extid]).
Proof.
  unfold add_event. set (n := length (events g)). set (g0 := set_extids _ g).
  set (load := _ || _). set (store := _ || bool_decide (kind = RMW)). intros E.
  step E as r H1. destruct r as [[po ix] g1]. apply add_to_process_names in H1.
  step E as rfid H2. step E as u1 H3. step E as u2 H4. step E as g2 H5.
  apply (for_each_names (fun ei g => i ← extid_to_id g !! ei; add_in n i g)) in H5.
  2:{ intros ei h h' Eh. step Eh as i Hi. by apply (add_in_names _ _ _ _ Eh). }
  step E as g3 H6. assert (Hr : names g3 = names g2).
  { destruct rfid as [w|]; [step H6 as e He; step H6 as es Hes; simplify_eq; by eapply add_reader_names|].
    destruct load; [by eapply init_reads_names|by simplify_eq]. }
  step E as g4 H7. assert (Hw : names g4 = names g3).
  { destruct store; [by eapply add_write_names|by simplify_eq]. }
  step E as new_in H8. step E as g5 H9. apply (for_each_names (fun after g => add_out after n g)) in H9.
  2:{ intros a h h' Eh. by apply (add_out_names _ _ _ _ Eh). }
  step E as u3 H10. injection E as <-. rewrite wq_add_names.
  assert (Hn : names g5 = names g0) by (rewrite H9, Hw, Hr, H5; exact H1).
  rewrite append_names. injection Hn as Hx He. by rewrite Hx, He.
Qed.

Section calls.
Context (order : gmap nat nat -> list (nat * nat)).
Context (Horder : forall m, order m ≡ₚ map_to_list m).

Lemma built_named g : built order g -> named g.
Proof.
  induction 1 as [|g pid extid kind addr rf orig_in g' _ IH Hargs E
    |g from to a b g' Hb IH Ha Hb' E|g g' Hb IH Hac E].
  - intros x i. unfold event_ids. simpl. by rewrite lookup_empty.
  - pose proof (ea_fresh _ _ _ _ _ _ Hargs) as Hf.
    apply add_event_names in E. injection E as Ex Ee. intros x i. rewrite Ex, Ee.
    assert (Hlen : length (events g) = length (event_ids g)) by (unfold event_ids; by rewrite length_fmap).
    rewrite Hlen, lookup_insert_Some, lookup_app_Some, list_lookup_singleton_Some, (IH x i). split.
    + intros [[-> <-]|[? ?]]; [right; split_and!; [lia|lia|done]|by left].
    + intros [Hx|(? & ? & ->)]; [right; split; [|done]|left; split; [done|lia]].
      intros ->. apply IH in Hx. congruence.
  - destruct (add_edge_good g from to a b (built_is_good order Horder g Hb) Ha Hb')
      as (g2 & E2 & _ & [(Ex & Ee & _) _] & _). simplify_eq.
    apply (named_same g); unfold event_ids; by rewrite ?Ee.
  - destruct (ends g (built_is_good order Horder g Hb) Hac) as (ok & g2 & E2 & H). simplify_eq.
    destruct (H eq_refl) as (_ & _ & [(Ex & Ee & _) _] & _).
    apply (named_same g); unfold event_ids; by rewrite ?Ee.
Qed.
End calls.

(** ** Executions *)

(** The place of event [id] in the list [p]. *)
Definition place (g : graph) (p : list IID) (id : nat) : Z :=
  Z.of_nat (find_pos p (default (MkIID 0 0) (event_ids g !! id))).

Lemma place_lookup g p id x k :
  NoDup p -> extid_to_id g !! x = Some id -> named g -> p !! k = Some x -> place g p id = Z.of_nat k.
Proof. intros Hnd Hx Hn Hk. apply Hn in Hx. unfold place. rewrite Hx. simpl. by rewrite (find_pos_lookup p k). Qed.

(** A topological order of all events agrees with the edges. *)
Lemma listing_respects g ids p :
  wf g -> named g -> listing g ids p -> (forall x, x ∈ event_ids g -> x ∈ p) -> respects (place g p) g.
Proof.
  intros Hwf Hn [Hnd _ Hord] Hall a b Hab.
  destruct (edge_lt g a b) as [Ha Hb]; [apply Hwf|apply Hwf|done|].
  assert (Hname : forall i, i < length (events g) -> exists x k, extid_to_id g !! x = Some i /\ p !! k = Some x).
  { intros i Hi. destruct (lookup_lt_exists (event_ids g) i) as [x Hx].
    { unfold event_ids. by rewrite length_fmap. }
    destruct (list_elem_of_lookup_1 p x) as [k Hk]; [eapply Hall, list_elem_of_lookup_2, Hx|].
    exists x, k. split; [by apply Hn|done]. }
  destruct (Hname a Ha) as (x & _ & Hx & _), (Hname b Hb) as (y & k & Hy & Hk).
  destruct (Hord k y Hk x) as (j & Hj & Hjx); [by exists a, b|].
  rewrite (place_lookup g p a x j), (place_lookup g p b y k) by done. lia.
Qed.

(** Where the coherence lists order all stores, every order that agrees with the
    edges of the saturated graph is an execution. *)
Lemma saturated_reads_ok pos g done total_co :
  wf g -> named g -> saturated g -> respects pos g -> placed g done total_co ->
  (forall x, x ∈ event_ids g -> x ∈ done) -> reads_ok pos (events g).
Proof.
  intros Hwf Hn Hs Hres [Hel Hinc] Hall r er s es Hr Hl Hse Hst Ha Hne.
  assert (Hss : stores g s (ev_addr er)) by (by exists es).
  destruct (read_from er) as [w|] eqn:Erf.
  - intros Hsw. destruct (sk_rf g (wf_skeleton g Hwf) r er w Hr Erf) as (_ & ew & Hw & Hsw' & Haw & _).
    assert (Hws : stores g w (ev_addr er)) by (by exists ew).
    assert (Hin : forall i e, events g !! i = Some e -> stores g i (ev_addr er) ->
      ext_id e ∈ default [] (total_co !! ev_addr er)).
    { intros i e He Hi. pose proof (named_lookup g i e Hn He) as Hx. apply Hel. split; [|by exists i].
      apply Hall, named_in; [done|by exists i]. }
    pose proof (Hin s es Hse Hss) as Hs1. pose proof (Hin w ew Hw Hws) as Hw1.
    apply list_elem_of_lookup_1 in Hs1 as [i Hi], Hw1 as [j Hj].
    pose proof (named_lookup g s es Hn Hse) as Hxs. pose proof (named_lookup g w ew Hn Hw) as Hxw.
    assert (Hb : before g s w \/ before g w s).
    { destruct (Nat.lt_total i j) as [Hij|[->|Hij]].
      - left. destruct (Hinc _ i j _ _ Hij Hi Hj) as (a & b & ? & ? & ?). by simplify_eq.
      - simplify_eq. congruence.
      - right. destruct (Hinc _ j i _ _ Hij Hj Hi) as (a & b & ? & ? & ?). by simplify_eq. }
    destruct Hb as [Hb|Hb]; [left; by apply (respects_before pos g)|right].
    apply (respects_before pos g); [done|]. apply (sat_from_read g Hs r w s (ev_addr er)); [by exists er|done..].
  - apply (respects_before pos g); [done|]. apply (sat_init g Hs r s (ev_addr er)); [by exists er|done..].
Qed.

(** The heuristic on a saturated graph: no assertion fails, and a returned
    prefix is an execution. *)
Lemma generated g cur :
  good g -> saturated g -> is_saturated g = true -> named g -> NoDup cur ->
  (forall x, x ∈ event_ids g -> x ∈ cur) ->
  exists r, try_generate_prefix false g cur = Some r /\
    forall p, r = Some p ->
      p ≡ₚ event_ids g /\ respects (place g p) g /\ reads_ok (place g p) (events g).
Proof.
  intros Hg Hs Hq Hn Hnd Hcur. unfold try_generate_prefix. set (ids := known_events g cur).
  assert (Hids : forall x, x ∈ ids <-> x ∈ event_ids g).
  { intros x. unfold ids, known_events. rewrite list_elem_of_filter, (named_in g x Hn).
    unfold has_event. rewrite bool_decide_eq_true. split; [by intros []|]. intros Hx. split; [done|].
    by apply Hcur, named_in. }
  assert (Hst : stage g g) by (by split).
  destruct (place_stores_spec g cur ids [] ∅ g) as (r & -> & Hr); [done|done| |..].
  - split; [|intros a i j x y _ Hx; by rewrite lookup_empty in Hx].
    intros a x. rewrite lookup_empty. simpl. split; [by intros []%not_elem_of_nil|by intros [[]%not_elem_of_nil _]].
  - by apply NoDup_filter.
  - intros x Hx%Hids. by apply named_in.
  - simpl. intros pre x post E y Hy. unfold ids, known_events in E. by eapply find_pos_filter.
  - cbn [mbind option_bind]. destruct r as [g'|]; [|by exists None].
    destruct Hr as ([Hg' Hs' _ Hsub] & total_co & Hpl). pose proof Hsub as [(Ex & Ee & _) He].
    assert (Hn' : named g') by (apply (named_same g); unfold event_ids; by rewrite ?Ee).
    assert (Hids' : event_ids g' = event_ids g) by (unfold event_ids; by rewrite Ee).
    destruct (toposort_spec g' (go_wf g' Hg') Hn' (sat_acyclic g' Hs') ids) as (p & -> & Hp).
    { intros x Hx%Hids. rewrite Ex. by apply named_in. }
    cbn [mbind option_bind]. eexists; split; [done|]. intros p' [= <-].
    assert (Hall : forall x, x ∈ event_ids g' -> x ∈ p).
    { intros x Hx. apply (ls_elem g' ids p Hp). exists x. rewrite Hids, <-Hids'. split; [done|apply rtc_refl]. }
    assert (Hres : respects (place g' p) g') by (eapply listing_respects; [apply Hg'|done..]).
    assert (Hpl' : forall id, place g p id = place g' p id) by (intros id; unfold place; by rewrite Hids').
    split_and!.
    + apply NoDup_Permutation; [apply (ls_nodup g' ids p Hp)|by apply named_nodup|].
      intros x. rewrite <-Hids'. split; [|apply Hall]. intros (id & Hid & Hx)%(ls_elem g' ids p Hp).
      apply rtc_inv_r in Hx as [<-|(z & _ & (a & b & _ & Ha & _))]; [by rewrite Hids', <-Hids|].
      apply named_in; [done|by exists a].
    + intros a b Hab%He%Hres. by rewrite !Hpl'.
    + rewrite <-Ee. intros r er s es Hr Hl Hse Hst' Ha Hne.
      pose proof (saturated_reads_ok (place g' p) g' ids total_co (go_wf g' Hg') Hn' Hs' Hres Hpl) as H.
      rewrite !Hpl'. specialize (H (fun x Hx => proj2 (Hids x) (eq_ind _ (fun l => x ∈ l) Hx _ Hids')) r er s es).
      destruct (read_from er); [intros Hw; rewrite Hpl'|]; by apply H.
Qed.

(** ** A concrete graph *)

(** Processes 0 and 1 write [x], process 2 reads the value of process 0; the
    execution at hand runs the write of process 1 before the read. *)
Definition guess1 : graph := default empty_graph (add_event dorder 0 (MkIID 0 1) STORE dx None [] empty_graph).
Definition guess2 : graph := default empty_graph (add_event dorder 1 (MkIID 1 1) STORE dx None [] guess1).
Definition guess3 : graph := default empty_graph (add_event dorder 2 (MkIID 2 1) LOAD dx (Some (MkIID 0 1)) [] guess2).
Definition guess4 : graph := default empty_graph (snd <$> saturate guess3).
Definition guess_exec : list IID := [MkIID 0 1; MkIID 1 1; MkIID 2 1].
Definition guess_prefix : list IID := [MkIID 0 1; MkIID 2 1; MkIID 1 1].

Lemma guess_built : built dorder guess3.
Proof.
  apply (built_event _ guess2 2 (MkIID 2 1) LOAD dx (Some (MkIID 0 1)) []); [|args_tac|vm_compute; reflexivity].
  apply (built_event _ guess1 1 (MkIID 1 1) STORE dx None []); [|args_tac|vm_compute; reflexivity].
  apply (built_event _ empty_graph 0 (MkIID 0 1) STORE dx None []); [constructor|args_tac|vm_compute; reflexivity].
Qed.

Lemma guess_acyclic : acyclic guess3.
Proof. apply (respects_acyclic Z.of_nat), respectsb_ok. vm_compute. reflexivity. Qed.

(** ** Properties *)

(** C20. A generated prefix is an execution under sequential consistency. Take a
    graph made by calls and saturated with the answer [true], and the list
    [cur] of the events of an execution, each once, with all events of the
    graph among them. Then no assertion of [try_generate_prefix] fails (each
    guessed edge keeps the graph acyclic, so every saturation ends), and a
    prefix [p] it returns lists the events of the graph, each once, in an order
    that agrees with every edge and in which every read returns the latest
    earlier store to its address, or the initial value when there is none. *)
Theorem prefix_is_execution order g0 g cur :
  (forall m, order m ≡ₚ map_to_list m) -> built order g0 -> acyclic g0 ->
  saturate g0 = Some (true, g) -> NoDup cur -> (forall x, x ∈ event_ids g -> x ∈ cur) ->
  exists r, try_generate_prefix false g cur = Some r /\
    forall p, r = Some p ->
      p ≡ₚ event_ids g /\ respects (place g p) g /\ reads_ok (place g p) (events g).
Proof.
  intros Horder Hb Hac E Hnd Hcur.
  destruct (ends g0 (built_is_good order Horder g0 Hb) Hac) as (b & g' & E' & H).
  rewrite E in E'. injection E' as <- <-. destruct (H eq_refl) as (? & ? & _ & ?).
  apply generated; [done..| |done|done]. by eapply built_named, built_saturate.
Qed.

Lemma prefix_is_execution_witness :
  try_generate_prefix false guess4 guess_exec = Some (Some guess_prefix) /\
  guess_prefix ≡ₚ event_ids guess4 /\ respects (place guess4 guess_prefix) guess4 /\
  reads_ok (place guess4 guess_prefix) (events guess4).
Proof.
  assert (E : try_generate_prefix false guess4 guess_exec = Some (Some guess_prefix)) by (vm_compute; reflexivity).
  split; [exact E|].
  destruct (prefix_is_execution dorder guess3 guess4 guess_exec) as (r & Er & Hr).
  - by intros m.
  - exact guess_built.
  - exact guess_acyclic.
  - vm_compute. reflexivity.
  - apply (bool_decide_unpack _). vm_compute. exact I.
  - intros x. assert (Ev : event_ids guess4 = guess_exec) by (vm_compute; reflexivity). by rewrite Ev.
  - rewrite E in Er. injection Er as <-. by apply Hr.
Defined.

(** C21. [toposort] is total on acyclic graphs and right: for known events [ids]
    of a graph made by calls without a cycle, it returns a list without
    repetition of exactly these events and those they come after, in which
    every predecessor of a listed event is listed before it. *)
Theorem toposort_lists_ancestors order g ids :
  (forall m, order m ≡ₚ map_to_list m) -> built order g -> acyclic g ->
  (forall x, x ∈ ids -> is_Some (extid_to_id g !! x)) ->
  exists l, toposort g ids = Some l /\ NoDup l /\
    (forall x, x ∈ l <-> exists id, id ∈ ids /\ rtc (follows g) id x) /\
    (forall k x y, l !! k = Some x -> follows g x y -> exists j, j < k /\ l !! j = Some y).
Proof.
  intros Horder Hb Hac Hids. pose proof (built_is_good order Horder g Hb) as Hg.
  destruct (toposort_spec g (go_wf g Hg) (built_named order Horder g Hb) Hac ids Hids) as (l & ? & [H1 H2 H3]).
  exists l. split_and!; [done..|]. intros k x y Hk Hxy. by apply (H3 k x).
Qed.

Lemma toposort_lists_ancestors_witness :
  exists l, toposort guess3 [MkIID 2 1] = Some l /\ NoDup l /\
    (forall x, x ∈ l <-> exists id, id ∈ [MkIID 2 1] /\ rtc (follows guess3) id x) /\
    (forall k x y, l !! k = Some x -> follows guess3 x y -> exists j, j < k /\ l !! j = Some y).
Proof.
  apply (toposort_lists_ancestors dorder guess3 [MkIID 2 1]); [by intros m|exact guess_built|exact guess_acyclic|].
  intros x ->%list_elem_of_singleton. apply (bool_decide_unpack _). vm_compute. exact I.
Defined.
