(* ===== verification/Unfold.v ===== *)
(** * Unfold: the unfolding tree (src/src/RFSCUnfoldingTree.h, RFSCUnfoldingTree.cpp)

    The reads-from exploration names a program event by the thread it belongs to,
    the event before it in the thread and the event it reads from.
    [find_unfolding_node] returns the one node of an event, a new one when none
    is alive: children are kept in weak pointers, and a node is freed with its
    last strong reference.

    A pointer to a node is a number that is never given out again (addresses may
    be; the code compares only pointers to nodes that are alive). A node is in
    [nodes] as long as it is alive. A call works on one list of children under
    the lock of the list and is one function here; [seqno], a number for
    debugging, is left out. *)

From S2P Require Import Prelude.
From S2P Require Import CPid.

Abbreviation NodePtr := (option nat).

Record UnfoldingNode := MkUNode {
  uparent : NodePtr;
  uread_from : NodePtr;
  uchildren : list nat;
}.

Record utree := MkUTree {
  nodes : gmap nat UnfoldingNode;
  next_node : nat;
  first_events : gmap CPid (list nat);
}.

Definition set_nodes ns t := MkUTree ns (next_node t) (first_events t).
Definition set_first_events f t := MkUTree (nodes t) (next_node t) f.
Definition set_uchildren l nd := MkUNode (uparent nd) (uread_from nd) l.

Definition empty_utree : utree := MkUTree ∅ 0 ∅.

(** The scan of [get_or_create] from position [ci]: the list without the expired
    elements it met, and the child it found. Every round drops an element or
    advances, so [S (length l)] rounds are enough. *)
Fixpoint scan_children (fuel : nat) (t : utree) (parent read_from : NodePtr)
    (l : list nat) (ci : nat) : option (list nat * NodePtr) :=
  match fuel with
  | 0 => None
  | S fuel =>
    match l !! ci with
    | None => Some (l, None)
    | Some x =>
      match nodes t !! x with
      | None =>
        b ← last l;
        scan_children fuel t parent read_from (take (length l - 1) (<[ci := b]> l)) ci
      | Some c =>
        if decide (uread_from c = read_from) then
          _ ← cassert (bool_decide (parent = uparent c)); Some (l, Some x)
        else scan_children fuel t parent read_from l (S ci)
      end
    end
  end.

Definition get_or_create (parent_list : list nat) (parent read_from : NodePtr) (t : utree)
    : option (list nat * nat * utree) :=
  r ← scan_children (S (length parent_list)) t parent read_from parent_list 0;
  match r with
  | (l, Some c) => Some (l, c, t)
  | (l, None) =>
    let c := next_node t in
    Some (l ++ [c], c,
          MkUTree (<[c := MkUNode parent read_from []]> (nodes t)) (S c) (first_events t))
  end.

(** [get_unfolding_root]: the list of a thread, created empty. *)
Definition get_unfolding_root (cpid : CPid) (t : utree) : list nat * utree :=
  match first_events t !! cpid with
  | Some l => (l, t)
  | None => ([], set_first_events (<[cpid := []]> (first_events t)) t)
  end.

Definition find_unfolding_node (cpid : CPid) (parent read_from : NodePtr) (t : utree)
    : option (nat * utree) :=
  match parent with
  | Some p =>
    nd ← nodes t !! p;
    r ← get_or_create (uchildren nd) parent read_from t;
    let '(l, c, t) := r in
    Some (c, set_nodes (alter (set_uchildren l) p (nodes t)) t)
  | None =>
    let '(l, t) := get_unfolding_root cpid t in
    r ← get_or_create l parent read_from t;
    let '(l, c, t) := r in
    Some (c, set_first_events (<[cpid := l]> (first_events t)) t)
  end.

(** ** Clients *)

(** What the trace builders and the decision tree do with nodes: [held] are their
    strong references. They ask for nodes with arguments that are referenced; a
    node without a strong reference is freed. *)
Record uworld := MkUWorld { utree_of : utree; held : list nat }.

Definition referenced (w : uworld) (n : nat) : Prop :=
  n ∈ held w \/ exists m nd, nodes (utree_of w) !! m = Some nd /\
    (uparent nd = Some n \/ uread_from nd = Some n).

Definition holds_ptr (w : uworld) (p : NodePtr) : Prop := forall n, p = Some n -> referenced w n.

Inductive ustep : uworld -> uworld -> Prop :=
| ustep_find w cpid parent read_from c t :
    holds_ptr w parent -> holds_ptr w read_from ->
    find_unfolding_node cpid parent read_from (utree_of w) = Some (c, t) ->
    ustep w (MkUWorld t (c :: held w))
| ustep_copy w n : n ∈ held w -> ustep w (MkUWorld (utree_of w) (n :: held w))
| ustep_parent w n nd p : n ∈ held w -> nodes (utree_of w) !! n = Some nd ->
    uparent nd = Some p \/ uread_from nd = Some p ->
    ustep w (MkUWorld (utree_of w) (p :: held w))
| ustep_release w l1 n l2 : held w = l1 ++ n :: l2 -> ustep w (MkUWorld (utree_of w) (l1 ++ l2))
| ustep_expire w n : is_Some (nodes (utree_of w) !! n) -> ~ referenced w n ->
    ustep w (MkUWorld (set_nodes (delete n (nodes (utree_of w))) (utree_of w)) (held w)).

Definition ureachable (w : uworld) : Prop := rtc ustep (MkUWorld empty_utree []) w.

(** ** Events *)

(** The program event of a node. *)
Inductive uevent :=
| First (thread : CPid) (read_from : option uevent)
| Next (parent : uevent) (read_from : option uevent).

Definition uevent_of (cpid : CPid) (parent read_from : option uevent) : uevent :=
  match parent with Some e => Next e read_from | None => First cpid read_from end.

Inductive denotes (t : utree) : NodePtr -> option uevent -> Prop :=
| den_null : denotes t None None
| den_first n nd c r : nodes t !! n = Some nd -> uparent nd = None ->
    n ∈ default [] (first_events t !! c) -> denotes t (uread_from nd) r ->
    denotes t (Some n) (Some (First c r))
| den_next n nd p e r : nodes t !! n = Some nd -> uparent nd = Some p ->
    denotes t (Some p) (Some e) -> denotes t (uread_from nd) r ->
    denotes t (Some n) (Some (Next e r)).
