(* ===== verification/UnfoldSpec.v ===== *)
(** * UnfoldSpec: the nodes of the unfolding tree are its events

    Among the nodes that are alive, two have the same thread, parent and read-from
    only if they are the same node; so the pointer comparisons of the decision
    tree compare program events. *)

From S2P Require Import Prelude.
From S2P Require Import CPid.
From S2P Require Import Unfold.

(** ** The scan *)

Definition live (t : utree) (n : nat) : Prop := is_Some (nodes t !! n).
Definition reads_from (t : utree) (n : nat) (r : NodePtr) : Prop :=
  exists nd, nodes t !! n = Some nd /\ uread_from nd = r.

Lemma swap_pop_elem (l : list nat) ci b x :
  ci < length l -> last l = Some b -> l !! ci = Some x ->
  let l' := take (length l - 1) (<[ci := b]> l) in
  length l' = length l - 1 /\ (forall y, y ∈ l' -> y ∈ l) /\
  (forall y, y ∈ l -> y = x \/ y ∈ l') /\ forall i, i < ci -> l' !! i = l !! i.
Proof.
  intros Hci Hb Hx. cbv zeta. rewrite last_lookup in Hb.
  assert (Hlen : length (take (length l - 1) (<[ci:=b]> l)) = length l - 1).
  { rewrite length_take, length_insert. lia. }
  assert (Hl : forall i, i < length l - 1 ->
    take (length l - 1) (<[ci:=b]> l) !! i = if decide (i = ci) then Some b else l !! i).
  { intros i Hi. rewrite lookup_take_lt by lia. case_decide as Hd.
    - subst. by rewrite list_lookup_insert_eq.
    - by rewrite list_lookup_insert_ne. }
  split_and!; [done| | |].
  - intros y Hy. apply list_elem_of_lookup_1 in Hy as [i Hi]. pose proof (lookup_lt_Some _ _ _ Hi).
    rewrite Hl in Hi by lia. case_decide; simplify_eq; by eapply list_elem_of_lookup_2.
  - intros y Hy. apply list_elem_of_lookup_1 in Hy as [i Hi]. pose proof (lookup_lt_Some _ _ _ Hi).
    destruct (decide (i = ci)) as [->|Hne]; [left; congruence|].
    destruct (decide (i = length l - 1)) as [->|].
    + replace (pred (length l)) with (length l - 1) in Hb by lia. simplify_eq.
      right. apply (list_elem_of_lookup_2 _ ci). rewrite Hl by lia. by rewrite decide_True.
    + right. apply (list_elem_of_lookup_2 _ i). rewrite Hl by lia. by rewrite decide_False.
  - intros i Hi. rewrite Hl by lia. by rewrite decide_False by lia.
Qed.

Section scan.
Context (t : utree) (parent read_from : NodePtr).

(** What the scan returns: it drops only expired elements. *)
Definition scanned (l l' : list nat) (r : NodePtr) : Prop :=
  (forall y, y ∈ l' -> y ∈ l) /\ (forall y, y ∈ l -> live t y -> y ∈ l') /\
  match r with
  | Some c => c ∈ l' /\ reads_from t c read_from
  | None => forall y, y ∈ l -> ~ reads_from t y read_from
  end.

Lemma scan_children_spec fuel : forall l ci,
  length l - ci < fuel ->
  (forall y nd, y ∈ l -> nodes t !! y = Some nd -> uparent nd = parent) ->
  (forall i y, i < ci -> l !! i = Some y -> ~ reads_from t y read_from) ->
  exists l' r, scan_children fuel t parent read_from l ci = Some (l', r) /\ scanned l l' r.
Proof.
  induction fuel as [|fuel IH]; intros l ci Hf Hp Hbefore; [lia|]. cbn [scan_children].
  destruct (l !! ci) as [x|] eqn:Ex.
  2:{ exists l, None. split; [done|]. split_and!; [done..|].
      intros y Hy. apply list_elem_of_lookup_1 in Hy as [i Hi].
      pose proof (lookup_lt_Some _ _ _ Hi). apply lookup_ge_None in Ex. apply (Hbefore i); [lia|done]. }
  pose proof (lookup_lt_Some _ _ _ Ex) as Hlt. destruct (nodes t !! x) as [c|] eqn:Ec.
  - case_decide as Hr.
    + rewrite bool_decide_true by (symmetry; by apply (Hp x); [eapply list_elem_of_lookup_2|]).
      exists l, (Some x). split; [done|]. split_and!; [done..|by eapply list_elem_of_lookup_2|by exists c].
    + apply IH; [lia|done|]. intros i y Hi Hy. destruct (decide (i = ci)) as [->|].
      * intros (nd & ? & ?). simplify_eq.
      * apply (Hbefore i); [lia|done].
  - destruct (last l) as [b|] eqn:Eb; [|apply last_None in Eb; by subst].
    cbn [mbind option_bind]. destruct (swap_pop_elem l ci b x Hlt Eb Ex) as (Hlen & Hsub & Hkeep & Hfront).
    destruct (IH (take (length l - 1) (<[ci:=b]> l)) ci) as (l' & r & -> & H1 & H2 & H3).
    + rewrite Hlen. lia.
    + intros y nd Hy. by apply Hp, Hsub.
    + intros i y Hi. rewrite Hfront by done. by apply Hbefore.
    + exists l', r. split; [done|]. split_and!.
      * intros y Hy. by apply Hsub, H1.
      * intros y [->|Hy]%Hkeep [nd Hnd]; [congruence|]. apply H2; [done|by exists nd].
      * destruct r; [done|]. intros y [->|Hy]%Hkeep; [intros (nd & ? & _); congruence|by apply H3].
Qed.
End scan.

(** ** The invariant *)

(** The lists of children: of a thread, or of a node. *)
Abbreviation ukey := (CPid + nat)%type.
Definition kids (t : utree) (k : ukey) : list nat :=
  match k with
  | inl c => default [] (first_events t !! c)
  | inr p => default [] (uchildren <$> nodes t !! p)
  end.
Definition key_parent (k : ukey) : NodePtr := match k with inl _ => None | inr p => Some p end.

Record uok (t : utree) : Prop := {
  uo_lt n : live t n -> n < next_node t;
  uo_kid_lt k n : n ∈ kids t k -> n < next_node t;
  uo_kid k n nd : n ∈ kids t k -> nodes t !! n = Some nd -> uparent nd = key_parent k;
  uo_home n : live t n -> exists k, n ∈ kids t k;
  uo_once k k' n : live t n -> n ∈ kids t k -> n ∈ kids t k' -> k = k';
  uo_read n nd r : nodes t !! n = Some nd -> uread_from nd = Some r -> live t r /\ r < n;
  uo_parent n nd p : nodes t !! n = Some nd -> uparent nd = Some p -> live t p /\ p < n;
  uo_distinct k a b r : a ∈ kids t k -> b ∈ kids t k -> reads_from t a r -> reads_from t b r -> a = b;
}.

(** The fields that do not change. *)
Definition same_node (nd nd' : UnfoldingNode) : Prop :=
  uparent nd' = uparent nd /\ uread_from nd' = uread_from nd.

(** What [find_unfolding_node] does: it returns the child [c] of the list [k]
    that reads from [rf], old or new. *)
Record found (t : utree) (k : ukey) (rf : NodePtr) (c : nat) (t' : utree) : Prop := {
  fd_next : next_node t <= next_node t' /\ c < next_node t';
  fd_old n nd : nodes t !! n = Some nd -> exists nd', nodes t' !! n = Some nd' /\ same_node nd nd';
  fd_live n nd' : nodes t' !! n = Some nd' ->
    (exists nd, nodes t !! n = Some nd /\ same_node nd nd') \/ n = c;
  fd_node : exists nd, nodes t' !! c = Some nd /\ uparent nd = key_parent k /\ uread_from nd = rf;
  fd_others k' n : k' <> k -> n ∈ kids t' k' <-> n ∈ kids t k';
  fd_kids n : n ∈ kids t' k -> n ∈ kids t k \/ n = c;
  fd_child : c ∈ kids t' k;
  fd_keep n : n ∈ kids t k -> live t n -> n ∈ kids t' k;
  fd_fresh : (c ∈ kids t k /\ live t c) \/
    (c = next_node t /\ forall n, n ∈ kids t k -> ~ reads_from t n rf);
}.

Definition live_ptr (t : utree) (p : NodePtr) : Prop := forall n, p = Some n -> live t n.

Lemma found_uok t k rf c t' :
  uok t -> found t k rf c t' -> live_ptr t rf -> live_ptr t (key_parent k) -> uok t'.
Proof.
  intros Hok [[Hn Hc] Hold Hlive (cn & Hcn & Hcp & Hcr) Hoth Hkids Hch Hkeep Hfresh] Hrf Hpar.
  assert (Hup : forall n, live t n -> live t' n).
  { intros n [nd Hnd]. destruct (Hold n nd Hnd) as (nd' & ? & _). by exists nd'. }
  assert (Hnew : ~ live t c -> c = next_node t /\ forall k', c ∉ kids t k').
  { intros Hnl. destruct Hfresh as [[_ ?]|[-> _]]; [done|]. split; [done|].
    intros k' Hin%(uo_kid_lt t Hok). lia. }
  assert (Hdown : forall n, live t' n -> live t n \/ n = c).
  { intros n [nd Hnd]. destruct (Hlive n nd Hnd) as [(nd0 & ? & _)|?]; [left; by exists nd0|by right]. }
  assert (Hread : forall n r, live t n -> reads_from t' n r -> reads_from t n r).
  { intros n r [nd Hnd] (nd' & Hnd' & Hr). destruct (Hold n nd Hnd) as (nd1 & ? & _ & ?).
    simplify_eq. exists nd. split; [done|congruence]. }
  assert (Hlt : forall p, live t p -> p < c \/ live t c).
  { intros p Hp. destruct Hfresh as [[_ ?]|[-> _]]; [by right|left]. by apply (uo_lt t Hok). }
  assert (Hkid : forall k' n, n ∈ kids t' k' -> n ∈ kids t k' \/ (k' = k /\ n = c)).
  { intros k' n Hin. destruct (decide (k' = k)) as [->|Hk]; [|left; by apply Hoth].
    destruct (Hkids n Hin); auto. }
  split.
  - intros n [?%(uo_lt t Hok)| ->]%Hdown; lia.
  - intros k' n [?%(uo_kid_lt t Hok)|[_ ->]]%Hkid; lia.
  - intros k' n nd Hin Hnd. destruct (Hkid k' n Hin) as [Hin'|[-> ->]]; [|congruence].
    destruct (Hlive n nd Hnd) as [(nd0 & H0 & Hp & _)| ->].
    + rewrite Hp. by eapply (uo_kid t Hok).
    + destruct (decide (live t c)) as [[nd0 Hl]|Hnl]; [|by destruct (proj2 (Hnew Hnl) k')].
      destruct (Hold c nd0 Hl) as (nd1 & ? & Hp & _). simplify_eq.
      rewrite Hp. by eapply (uo_kid t Hok).
  - intros n [Hl| ->]%Hdown; [|by exists k]. destruct (uo_home t Hok n Hl) as [k' Hk'].
    exists k'. destruct (decide (k' = k)) as [->|]; [by apply Hkeep|by apply Hoth].
  - intros k1 k2 n Hl H1 H2.
    assert (Hin : forall k', n ∈ kids t' k' -> (live t n /\ n ∈ kids t k') \/ (k' = k /\ n = c /\ ~ live t c)).
    { intros k' H. destruct (decide (live t n)) as [Hln|Hln].
      - left. split; [done|]. destruct (Hkid k' n H) as [?|[-> ->]]; [done|].
        destruct Hfresh as [[? _]|[-> _]]; [done|]. apply (uo_lt t Hok) in Hln. lia.
      - right. destruct (Hdown n Hl) as [?| ->]; [done|]. destruct (Hkid k' c H) as [H'|[-> _]]; [|done].
        by destruct (proj2 (Hnew Hln) k'). }
    destruct (Hin k1 H1) as [[Hl1 H1']|(-> & -> & Hnl)], (Hin k2 H2) as [[Hl2 H2']|(-> & Hc2 & Hnl')];
      subst; try done. by apply (uo_once t Hok _ _ n).
  - intros n nd r Hnd Hr. destruct (Hlive n nd Hnd) as [(nd0 & H0 & _ & Hr0)| ->].
    + destruct (uo_read t Hok n nd0 r H0) as [? ?]; [congruence|]. split; [by apply Hup|done].
    + assert (Hlr : live t r) by (apply Hrf; congruence). split; [by apply Hup|].
      destruct (Hlt r Hlr) as [?|[nd0 Hl]]; [done|]. destruct (Hold c nd0 Hl) as (nd1 & ? & _ & ?).
      simplify_eq. apply (uo_read t Hok c nd0); [done|congruence].
  - intros n nd p Hnd Hp. destruct (Hlive n nd Hnd) as [(nd0 & H0 & Hp0 & _)| ->].
    + destruct (uo_parent t Hok n nd0 p H0) as [? ?]; [congruence|]. split; [by apply Hup|done].
    + assert (Hlp : live t p) by (apply Hpar; congruence). split; [by apply Hup|].
      destruct (Hlt p Hlp) as [?|[nd0 Hl]]; [done|]. destruct (Hold c nd0 Hl) as (nd1 & ? & ? & _).
      simplify_eq. apply (uo_parent t Hok c nd0); [done|congruence].
  - intros k' a b r Ha Hb Hra Hrb.
    assert (Hout : forall n, n ∈ kids t' k' -> reads_from t' n r ->
      (n ∈ kids t k' /\ reads_from t n r) \/ (n = c /\ k' = k /\ r = rf)).
    { intros n Hin Hr. pose proof Hr as (nd & Hnd & Er).
      assert (Hcase : live t n \/ (n = c /\ ~ live t c)).
      { destruct (decide (live t n)); [by left|]. right. destruct (Hdown n) as [?| ->]; [by exists nd|done|done]. }
      destruct Hcase as [Hl|[-> Hnl]].
      - left. split; [|by apply Hread]. destruct (Hkid k' n Hin) as [?|[-> ->]]; [done|].
        destruct Hfresh as [[? _]|[-> _]]; [done|]. apply (uo_lt t Hok) in Hl. lia.
      - right. destruct (Hkid k' c Hin) as [Hin'|[-> _]]; [by destruct (proj2 (Hnew Hnl) k')|].
        split_and!; [done..|congruence]. }
    destruct (Hout a Ha Hra) as [[Ha' Hra']|(-> & -> & ->)], (Hout b Hb Hrb) as [[Hb' Hrb']|(-> & Hk & Hr)];
      subst; try done.
    + by apply (uo_distinct t Hok k' _ _ r).
    + destruct Hfresh as [[Hck [nd0 Hl]]|[_ Hno]]; [|by destruct (Hno a)].
      eapply (uo_distinct t Hok); [done..| |]; try done. destruct (Hold c nd0 Hl) as (nd1 & ? & _ & ?).
      simplify_eq. exists nd0. split; [done|congruence].
    + destruct Hfresh as [[Hck [nd0 Hl]]|[_ Hno]]; [|by destruct (Hno b)].
      eapply (uo_distinct t Hok); [done..| |]; try done. destruct (Hold c nd0 Hl) as (nd1 & ? & _ & ?).
      simplify_eq. exists nd0. split; [done|congruence].
Qed.

(** ** The operations keep it *)

Definition key_of (cpid : CPid) (parent : NodePtr) : ukey :=
  match parent with Some p => inr p | None => inl cpid end.

Lemma key_parent_of cpid parent : key_parent (key_of cpid parent) = parent.
Proof. by destruct parent. Qed.

(** [get_or_create] on the list [k], before the new list is stored. *)
Lemma get_or_create_spec t k rf :
  uok t -> exists l c t1,
    get_or_create (kids t k) (key_parent k) rf t = Some (l, c, t1) /\
    first_events t1 = first_events t /\
    ((t1 = t /\ c ∈ kids t k /\ live t c /\ reads_from t c rf) \/
     (c = next_node t /\ next_node t1 = S c /\
      nodes t1 = <[c := MkUNode (key_parent k) rf []]> (nodes t) /\
      forall n, n ∈ kids t k -> ~ reads_from t n rf)) /\
    (forall n, n ∈ l -> n ∈ kids t k \/ n = c) /\ c ∈ l /\
    (forall n, n ∈ kids t k -> live t n -> n ∈ l).
Proof.
  intros Hok. unfold get_or_create.
  destruct (scan_children_spec t (key_parent k) rf (S (length (kids t k))) (kids t k) 0)
    as (l & r & -> & Hsub & Hkeep & Hr); [lia|by intros; eapply (uo_kid t Hok)|lia|].
  cbn [mbind option_bind]. destruct r as [c|].
  - destruct Hr as [Hc (nd & Hnd & Er)]. exists l, c, t. split_and!; [done..| | |done|done].
    + left. split_and!; [done|by apply Hsub|by exists nd|by exists nd].
    + intros n Hin. left. auto.
  - eexists (l ++ [next_node t]), (next_node t), _. split; [done|]. simpl. split_and!; [done| | | |].
    + right. done.
    + intros n [Hin| ->%list_elem_of_singleton]%elem_of_app; [left; auto|by right].
    + apply elem_of_app. right. by left.
    + intros n Hin Hl. apply elem_of_app. left. auto.
Qed.

(** Storing the new list. *)
Lemma found_store t k rf l c t1 t' :
  uok t ->
  ((t1 = t /\ c ∈ kids t k /\ live t c /\ reads_from t c rf) \/
   (c = next_node t /\ next_node t1 = S c /\
    nodes t1 = <[c := MkUNode (key_parent k) rf []]> (nodes t) /\
    forall n, n ∈ kids t k -> ~ reads_from t n rf)) ->
  (forall n, n ∈ l -> n ∈ kids t k \/ n = c) -> c ∈ l ->
  (forall n, n ∈ kids t k -> live t n -> n ∈ l) ->
  next_node t' = next_node t1 ->
  (forall n nd', nodes t' !! n = Some nd' -> exists nd, nodes t1 !! n = Some nd /\ same_node nd nd') ->
  (forall n nd, nodes t1 !! n = Some nd -> exists nd', nodes t' !! n = Some nd' /\ same_node nd nd') ->
  kids t' k = l -> (forall k', k' <> k -> kids t' k' = kids t1 k') ->
  first_events t1 = first_events t -> found t k rf c t'.
Proof.
  intros Hok Hc Hl Hcl Hkeep Hnext Hdown Hup Hk Hk' Hfe.
  assert (Hn : next_node t <= next_node t1 /\ c < next_node t1).
  { destruct Hc as [(-> & _ & Hlc & _)|(-> & -> & _)]; [|lia]. by apply (uo_lt t Hok) in Hlc. }
  split.
  - by rewrite Hnext.
  - intros n nd Hnd. apply Hup. destruct Hc as [(-> & _)|(-> & _ & -> & _)]; [done|].
    rewrite lookup_insert_ne; [done|]. intros <-. assert (live t (next_node t)) as ?%(uo_lt t Hok) by (by exists nd). lia.
  - intros n nd' Hnd'. destruct (Hdown n nd' Hnd') as (nd & Hnd & Hs).
    destruct Hc as [(-> & _)|(-> & _ & E & _)]; [left; by exists nd|].
    rewrite E in Hnd. apply lookup_insert_Some in Hnd as [[-> _]|[_ Hnd]]; [by right|left; by exists nd].
  - assert (H : exists nd, nodes t1 !! c = Some nd /\ uparent nd = key_parent k /\ uread_from nd = rf).
    { destruct Hc as [(-> & Hck & _ & (nd & Hnd & Er))|(-> & _ & -> & _)].
      - exists nd. split_and!; [done| |done]. by apply (uo_kid t Hok k c).
      - eexists. by rewrite lookup_insert_eq. }
    destruct H as (nd & Hnd & Hp & Hr). destruct (Hup c nd Hnd) as (nd' & ? & E1 & E2).
    exists nd'. split_and!; [done|congruence..].
  - intros k' n Hne. rewrite (Hk' k' Hne). destruct Hc as [(-> & _)|(Ec & _ & E & _)]; [done|].
    destruct k' as [d|p]; simpl; [by rewrite Hfe|]. rewrite E. destruct (decide (p = c)) as [->|].
    + rewrite lookup_insert_eq. simpl.
      destruct (nodes t !! c) as [nd|] eqn:En; [|done].
      assert (live t c) as ?%(uo_lt t Hok) by (by exists nd). lia.
    + by rewrite lookup_insert_ne.
  - rewrite Hk. apply Hl.
  - by rewrite Hk.
  - rewrite Hk. apply Hkeep.
  - destruct Hc as [(-> & ? & ? & _)|(-> & _ & _ & ?)]; [by left|by right].
Qed.

Lemma find_unf_spec t cpid parent rf :
  uok t -> live_ptr t parent ->
  exists c t', find_unfolding_node cpid parent rf t = Some (c, t') /\
    found t (key_of cpid parent) rf c t'.
Proof.
  intros Hok Hpar. unfold find_unfolding_node. destruct parent as [p|].
  - destruct (Hpar p eq_refl) as [pd Hpd]. rewrite Hpd. cbn [mbind option_bind].
    destruct (get_or_create_spec t (inr p) rf Hok) as (l & c & t1 & E & Hfe & Hc & Hl & Hcl & Hkeep).
    simpl in E. rewrite Hpd in E. simpl in E. rewrite E. cbn [mbind option_bind].
    eexists c, _. split; [done|].
    assert (Hpd1 : exists pd1, nodes t1 !! p = Some pd1).
    { destruct Hc as [(-> & _)|(-> & _ & -> & _)]; [by exists pd|]. exists pd. rewrite lookup_insert_ne; [done|].
      intros <-. assert (live t (next_node t)) as ?%(uo_lt t Hok) by (by exists pd). lia. }
    eapply found_store; [done|exact Hc|done..| | | | |done]; simpl.
    + intros n nd' Hnd'. destruct (decide (n = p)) as [->|].
      * rewrite lookup_alter_eq in Hnd'. destruct Hpd1 as [pd1 E1]. rewrite E1 in Hnd'. simplify_eq/=.
        by exists pd1.
      * rewrite lookup_alter_ne in Hnd' by done. by exists nd'.
    + intros n nd Hnd. destruct (decide (n = p)) as [->|].
      * rewrite lookup_alter_eq, Hnd. by eexists.
      * rewrite lookup_alter_ne by done. by exists nd.
    + rewrite lookup_alter_eq. destruct Hpd1 as [pd1 ->]. done.
    + intros [d|q] Hne; simpl; [done|]. rewrite lookup_alter_ne; [done|]. congruence.
  - destruct (get_or_create_spec t (inl cpid) rf Hok) as (l & c & t1 & E & Hfe & Hc & Hl & Hcl & Hkeep).
    simpl in E.
    assert (Hroot : exists l0 t0, get_unfolding_root cpid t = (l0, t0) /\
      l0 = default [] (first_events t !! cpid) /\ nodes t0 = nodes t /\ next_node t0 = next_node t /\
      forall d, default [] (first_events t0 !! d) = default [] (first_events t !! d)).
    { unfold get_unfolding_root. destruct (first_events t !! cpid) as [l0|] eqn:El; eexists _, _; split_and!; try done.
      intros d. simpl. destruct (decide (d = cpid)) as [->|]; [by rewrite lookup_insert_eq, El|].
      by rewrite lookup_insert_ne. }
    destruct Hroot as (l0 & t0 & -> & -> & En & Ex & Ef).
    assert (E0 : exists t2, get_or_create (default [] (first_events t !! cpid)) None rf t0 = Some (l, c, t2) /\
      nodes t2 = nodes t1 /\ next_node t2 = next_node t1 /\ first_events t2 = first_events t0).
    { unfold get_or_create in *. assert (Es : forall fuel l ci,
        scan_children fuel t0 None rf l ci = scan_children fuel t None rf l ci).
      { induction fuel as [|fuel IH]; intros l' ci; [done|]. cbn [scan_children]. rewrite En.
        destruct (l' !! ci); [|done]. destruct (nodes t !! n); [by rewrite IH|].
        destruct (last l'); [apply IH|done]. }
      rewrite Es. destruct (scan_children _ t None rf _ 0) as [[l' [d|]]|]; simpl in *; simplify_eq/=.
      - by exists t0.
      - rewrite Ex, En. eexists; split_and!; done. }
    destruct E0 as (t2 & -> & En2 & Ex2 & Ef2). cbn [mbind option_bind].
    eexists c, _. split; [done|].
    eapply found_store; [done|exact Hc|done..| | | | | |done]; simpl.
    + done.
    + rewrite En2. intros n nd' Hnd'. by exists nd'.
    + rewrite En2. intros n nd' Hnd'. by exists nd'.
    + by rewrite lookup_insert_eq.
    + intros [d|q] Hne; simpl; [|by rewrite En2].
      rewrite lookup_insert_ne by congruence. by rewrite Ef2, Ef, Hfe.
Qed.

(** Freeing a node without references. *)
Lemma expire_uok t n :
  uok t -> (forall m nd, nodes t !! m = Some nd -> uparent nd <> Some n /\ uread_from nd <> Some n) ->
  uok (set_nodes (delete n (nodes t)) t).
Proof.
  intros Hok Hno. set (t' := set_nodes _ t).
  assert (Hl : forall m nd, nodes t' !! m = Some nd -> m <> n /\ nodes t !! m = Some nd).
  { intros m nd Hm. simpl in Hm. by apply lookup_delete_Some in Hm as [? ?]. }
  assert (Hlive : forall m, live t' m -> live t m) by (intros m [nd [_ Hnd]%Hl]; by exists nd).
  assert (Hkeep : forall m, live t m -> m <> n -> live t' m).
  { intros m [nd Hnd] Hne. exists nd. simpl. by rewrite lookup_delete_ne. }
  assert (Hkids : forall k m, m ∈ kids t' k -> m ∈ kids t k).
  { intros [c|p] m; simpl; [done|]. destruct (decide (p = n)) as [->|].
    - rewrite lookup_delete_eq. by intros []%not_elem_of_nil.
    - by rewrite lookup_delete_ne. }
  assert (Hreads : forall m r, reads_from t' m r -> reads_from t m r).
  { intros m r (nd & [_ ?]%Hl & ?). by exists nd. }
  split.
  - intros m ?%Hlive. by apply (uo_lt t Hok).
  - intros k m ?%Hkids. by apply (uo_kid_lt t Hok k).
  - intros k m nd ?%Hkids [_ ?]%Hl. by apply (uo_kid t Hok k m).
  - intros m Hm. destruct (uo_home t Hok m (Hlive m Hm)) as [k Hk]. exists k.
    destruct k as [c|p]; [done|]. simpl in *. destruct Hm as [nd [_ Hnd]%Hl].
    rewrite lookup_delete_ne; [done|]. intros <-. apply (uo_kid t Hok (inr n) m nd) in Hk; [|done].
    by destruct (Hno m nd Hnd) as [? _].
  - intros k k' m ?%Hlive ?%Hkids ?%Hkids. by apply (uo_once t Hok k k' m).
  - intros m nd r [_ Hnd]%Hl Hr. destruct (uo_read t Hok m nd r Hnd Hr). split; [|done].
    apply Hkeep; [done|]. intros ->. by destruct (Hno m nd Hnd).
  - intros m nd p [_ Hnd]%Hl Hp. destruct (uo_parent t Hok m nd p Hnd Hp). split; [|done].
    apply Hkeep; [done|]. intros ->. by destruct (Hno m nd Hnd).
  - intros k a b r ?%Hkids ?%Hkids ?%Hreads ?%Hreads. by apply (uo_distinct t Hok k a b r).
Qed.

(** ** Nodes and events *)

Section denotes.
Context (t : utree) (Hok : uok t).

Lemma denotes_inj p e : denotes t p e -> forall q, denotes t q e -> p = q.
Proof.
  induction 1 as [|n nd c r Hnd Hp Hin Hr IH|n nd p e r Hnd Hp He IHe Hr IHr]; intros q Hq;
    inversion Hq as [|m md c' r' Hmd Hmp Hmin Hmr|m md p' e' r' Hmd Hmp Hme Hmr]; subst; [done|..].
  - f_equal. apply (uo_distinct t Hok (inl c) n m (uread_from nd)); [done|done|by exists nd|].
    exists md. split; [done|]. symmetry. by apply IH.
  - assert (Some p = Some p') as [= <-] by (by apply IHe).
    assert (Hkid : forall x xd, nodes t !! x = Some xd -> uparent xd = Some p -> x ∈ kids t (inr p)).
    { intros x xd Hx Hxp. destruct (uo_home t Hok x) as [k Hk]; [by exists xd|].
      pose proof (uo_kid t Hok k x xd Hk Hx) as E. rewrite Hxp in E. destruct k; simpl in E; by simplify_eq. }
    f_equal. apply (uo_distinct t Hok (inr p) n m (uread_from nd)); [by eapply Hkid..|by exists nd|].
    exists md. split; [done|]. symmetry. by apply IHr.
Qed.

Lemma denotes_fun p e : denotes t p e -> forall e', denotes t p e' -> e = e'.
Proof.
  induction 1 as [|n nd c r Hnd Hp Hin Hr IH|n nd p e r Hnd Hp He IHe Hr IHr]; intros e' Hq;
    inversion Hq as [|m md c' r' Hmd Hmp Hmin Hmr|m md p' e2 r' Hmd Hmp Hme Hmr]; simplify_eq; [done|..].
  - assert (inl c = inl c' :> ukey) as [= <-] by (by apply (uo_once t Hok _ _ n); [exists nd|..]).
    by rewrite (IH r').
  - rewrite (IHr r') by done. by assert (Some e = Some e2) as [= <-] by (by apply IHe).
Qed.

Lemma denotes_exists n : live t n -> exists e, denotes t (Some n) (Some e).
Proof.
  induction (lt_wf n) as [n _ IH]. intros [nd Hnd].
  assert (Hopt : forall p, live_ptr t p -> (forall q, p = Some q -> q < n) -> exists e, denotes t p e).
  { intros [q|] Hl Hlt; [|exists None; constructor]. destruct (IH q) as [e He]; [by apply Hlt|by apply Hl|].
    by exists (Some e). }
  destruct (Hopt (uread_from nd)) as [r Hr]; [intros q Hq; by apply (uo_read t Hok n nd)..|].
  destruct (uo_home t Hok n) as [[c|p] Hk]; [by exists nd|..]; pose proof (uo_kid t Hok _ n nd Hk Hnd) as Hp; simpl in Hp.
  - exists (First c r). by eapply den_first.
  - destruct (uo_parent t Hok n nd p Hnd Hp) as [Hlp Hlt]. destruct (IH p Hlt Hlp) as [e He].
    exists (Next e r). by eapply den_next.
Qed.
End denotes.

(** A call keeps the events of the old nodes. *)
Lemma denotes_kept t k rf c t' p e :
  uok t -> found t k rf c t' -> denotes t p e -> denotes t' p e.
Proof.
  intros Hok Hf. induction 1 as [|n nd d r Hnd Hp Hin Hr IH|n nd p e r Hnd Hp He IHe Hr IHr]; [constructor|..].
  - destruct (fd_old _ _ _ _ _ Hf n nd Hnd) as (nd' & Hnd' & Ep & Er).
    eapply den_first; [done|congruence| |by rewrite Er].
    change (n ∈ kids t' (inl d)). destruct (decide (inl d = k)) as [<-|Hne].
    + apply (fd_keep _ _ _ _ _ Hf); [done|by exists nd].
    + by apply (fd_others _ _ _ _ _ Hf).
  - destruct (fd_old _ _ _ _ _ Hf n nd Hnd) as (nd' & Hnd' & Ep & Er).
    eapply den_next; [done|rewrite Ep; done|done|by rewrite Er].
Qed.

Lemma found_denotes t cpid parent rf c t' ep er :
  uok t -> found t (key_of cpid parent) rf c t' -> denotes t parent ep -> denotes t rf er ->
  denotes t' (Some c) (Some (uevent_of cpid ep er)).
Proof.
  intros Hok Hf Hp Hr. destruct (fd_node _ _ _ _ _ Hf) as (nd & Hnd & Enp & Enr).
  rewrite key_parent_of in Enp. destruct parent as [p|].
  - assert (exists e, ep = Some e) as [e ->] by (inversion Hp; by eexists).
    eapply den_next; [done|done| |by rewrite Enr; eapply denotes_kept]. by eapply denotes_kept.
  - assert (ep = None) as -> by (by inversion Hp). eapply den_first; [done|done| |by rewrite Enr; eapply denotes_kept].
    apply (fd_child _ _ _ _ _ Hf).
Qed.

(** ** Clients *)

Definition uworld_ok (w : uworld) : Prop :=
  uok (utree_of w) /\ forall n, n ∈ held w -> live (utree_of w) n.

Lemma holds_live w p : uworld_ok w -> holds_ptr w p -> live_ptr (utree_of w) p.
Proof.
  intros [Hok Hh] Hp n Hn. destruct (Hp n Hn) as [?|(m & nd & Hm & [?|?])]; [by apply Hh|..].
  - by apply (uo_parent _ Hok m nd).
  - by apply (uo_read _ Hok m nd).
Qed.

Lemma empty_uok : uok empty_utree.
Proof.
  assert (Hl : forall n, ~ live empty_utree n) by (intros n [nd Hn]; simpl in Hn; by rewrite lookup_empty in Hn).
  assert (Hk : forall k n, n ∉ kids empty_utree k).
  { intros [c|p] n; simpl; rewrite lookup_empty; apply not_elem_of_nil. }
  split.
  - intros n ?%Hl. done.
  - intros k n ?%Hk. done.
  - intros k n nd ?%Hk. done.
  - intros n ?%Hl. done.
  - intros k k' n ?%Hl. done.
  - intros n nd r Hn. simpl in Hn. by rewrite lookup_empty in Hn.
  - intros n nd r Hn. simpl in Hn. by rewrite lookup_empty in Hn.
  - intros k a b r ?%Hk. done.
Qed.

Lemma ustep_ok w w' : uworld_ok w -> ustep w w' -> uworld_ok w'.
Proof.
  intros Hw Hstep. pose proof Hw as [Hok Hh]. destruct Hstep as [w cpid parent rf c t Hp Hr E|w n Hn|w n nd p Hn Hnd Hp|w l1 n l2 El|w n Hn Href].
  - destruct (find_unf_spec (utree_of w) cpid parent rf Hok) as (c' & t' & E' & Hf); [by apply holds_live|].
    rewrite E in E'. injection E' as <- <-. split; simpl.
    + eapply found_uok; [done|done|by apply holds_live|]. rewrite key_parent_of. by apply holds_live.
    + intros n [->|Hn]%elem_of_cons.
      * destruct (fd_node _ _ _ _ _ Hf) as (nd & ? & _). by exists nd.
      * destruct (Hh n Hn) as [nd Hnd]. destruct (fd_old _ _ _ _ _ Hf n nd Hnd) as (nd' & ? & _). by exists nd'.
  - split; [done|]. simpl. intros m [->|?]%elem_of_cons; auto.
  - split; [done|]. simpl. intros m [->|?]%elem_of_cons; [|auto].
    destruct Hp as [Hp|Hp]; [by apply (uo_parent _ Hok n nd)|by apply (uo_read _ Hok n nd)].
  - split; [done|]. simpl. intros m Hm. apply Hh. rewrite El. set_solver.
  - split; simpl.
    + apply expire_uok; [done|]. intros m nd Hm. split; intros E; apply Href; right; exists m, nd; auto.
    + intros m Hm. destruct (Hh m Hm) as [nd Hnd]. exists nd. simpl.
      rewrite lookup_delete_ne; [done|]. intros ->. apply Href. by left.
Qed.

Lemma ureachable_ok w : ureachable w -> uworld_ok w.
Proof.
  unfold ureachable. intros H. remember (MkUWorld empty_utree []) as w0.
  assert (Hw0 : uworld_ok w0) by (subst; split; [apply empty_uok|by intros n []%not_elem_of_nil]).
  clear Heqw0. induction H as [w|w1 w2 w3 H12 _ IH]; [done|]. apply IH. by eapply ustep_ok.
Qed.

(** ** Properties *)

(** C28. Nodes are events. Take any sequence of calls, copies, releases and frees of
    nodes. Every live node stands for one event, given by its thread or parent
    and the event it reads from, and two live nodes are the same pointer if they
    stand for the same event. A further [find_unfolding_node] with arguments
    that are referenced fails no assertion, keeps the events of all nodes, and
    returns a node that stands for the event asked for: the old one if there is
    one. *)
Theorem nodes_are_events w cpid parent rf :
  ureachable w -> holds_ptr w parent -> holds_ptr w rf ->
  let t := utree_of w in
  (forall n, live t n -> exists e, denotes t (Some n) (Some e)) /\
  (forall p e e', denotes t p e -> denotes t p e' -> e = e') /\
  (forall p q e, denotes t p e -> denotes t q e -> p = q) /\
  exists c t', find_unfolding_node cpid parent rf t = Some (c, t') /\
    (forall p e, denotes t p e -> denotes t' p e) /\
    (forall ep er, denotes t parent ep -> denotes t rf er ->
       denotes t' (Some c) (Some (uevent_of cpid ep er))) /\
    forall p e, denotes t' p e -> forall q, denotes t' q e -> p = q.
Proof.
  intros Hw%ureachable_ok Hp Hr. cbv zeta. pose proof Hw as [Hok _].
  split_and!; [by apply denotes_exists|intros p e e' ?; by apply denotes_fun
    |intros p q e ?; by apply denotes_inj|].
  destruct (find_unf_spec (utree_of w) cpid parent rf Hok) as (c & t' & E & Hf); [by apply holds_live|].
  exists c, t'. split_and!; [done|intros p e; by eapply denotes_kept|intros ep er; by eapply found_denotes|].
  intros p e Hpe q. apply denotes_inj; [|done].
  eapply found_uok; [done|done|by apply holds_live|]. rewrite key_parent_of. by apply holds_live.
Qed.

(** The first event of the initial thread; an event after it that reads from it;
    this event again, after the client let go of it and it was freed. *)
Definition demo_root : CPid := CPid_root.
Definition demo_t1 : utree := default empty_utree (snd <$> find_unfolding_node demo_root None None empty_utree).
Definition demo_t2 : utree := default empty_utree (snd <$> find_unfolding_node demo_root (Some 0) (Some 0) demo_t1).
Definition demo_t3 : utree := set_nodes (delete 1 (nodes demo_t2)) demo_t2.
Example demo_again : fst <$> find_unfolding_node demo_root (Some 0) (Some 0) demo_t2 = Some 1 /\
  fst <$> find_unfolding_node demo_root (Some 0) (Some 0) demo_t3 = Some 2.
Proof. split; vm_compute; reflexivity. Qed.

Lemma demo_reached : ureachable (MkUWorld demo_t2 [1; 0]).
Proof.
  eapply (rtc_l _ _ (MkUWorld demo_t1 [0])).
  { apply (ustep_find (MkUWorld empty_utree []) demo_root None None 0 demo_t1); [done|done|vm_compute; reflexivity]. }
  eapply rtc_l; [|apply rtc_refl].
  apply (ustep_find (MkUWorld demo_t1 [0]) demo_root (Some 0) (Some 0) 1 demo_t2); [| |vm_compute; reflexivity];
    intros n [= <-]; left; by left.
Qed.

Lemma nodes_are_events_witness :
  exists c t', find_unfolding_node demo_root (Some 0) (Some 1) demo_t2 = Some (c, t') /\
    (forall p e, denotes demo_t2 p e -> denotes t' p e) /\
    (forall ep er, denotes demo_t2 (Some 0) ep -> denotes demo_t2 (Some 1) er ->
       denotes t' (Some c) (Some (uevent_of demo_root ep er))) /\
    forall p e, denotes t' p e -> forall q, denotes t' q e -> p = q.
Proof.
  apply (nodes_are_events (MkUWorld demo_t2 [1; 0]) demo_root (Some 0) (Some 1)); [exact demo_reached|..];
    intros n [= <-]; left; [right; by left|by left].
Defined.
