(* ===== verification/Sched.v ===== *)
(** * Sched: the schedulers of the reads-from exploration (RFSCDecisionTree.h, RFSCDecisionTree.cpp)

    Worker threads take decision nodes (jobs) from a scheduler, explore the trace
    of each, and enqueue the siblings they find. [Scheduler] is the abstract class
    [RFSCScheduler]: calls of [enqueue], [dequeue] and [halt], each of which runs
    in atomic steps. [PriorityQueueScheduler] has one queue behind a mutex;
    [WorkstealingPQScheduler] has a queue and a lock for every thread and a big
    lock for threads that look for work.

    A step is what a thread does between two actions on locks and condition
    variables, and the interleaving of the steps is sequentially consistent: the
    atomic variables, which the code reads and writes with relaxed or
    acquire-release order, are modelled as if with the strongest order. Threads
    are the numbers below [num_threads]; a thread asleep in [cv.wait] is woken by
    a notification, or spuriously. *)

From stdpp Require Import functions.
From S2P Require Import Prelude.
From S2P Require Import StdMap.

(** ** The interface *)

Inductive sched_call (J : Type) := Enqueue (node : J) | Dequeue | Halt.
Arguments Enqueue {_}. Arguments Dequeue {_}. Arguments Halt {_}.

Inductive call_kind := CEnqueue | CDequeue | CHalt.

(** What a thread does: nothing in the scheduler, a call that can go on, sleeping
    in a call of [dequeue], a call of [dequeue] that has its result ([None] is
    the null pointer). *)
Inductive activity (J : Type) :=
| Outside
| Running (c : call_kind)
| Asleep
| Returned (r : option J).
Arguments Outside {_}. Arguments Running {_}. Arguments Asleep {_}. Arguments Returned {_}.

Class Scheduler (J S : Type) := {
  (** The scheduler with the root node enqueued. *)
  sched_init : J -> S;
  enter : nat -> sched_call J -> S -> S;
  sched_step : nat -> S -> S -> Prop;
  wake : nat -> S -> S;
  leave : nat -> S -> S;
  doing : S -> nat -> activity J;
  halted : S -> bool;
}.

(** ** PriorityQueueScheduler *)

Section priority_queue.
Context {J : Type} (depth : J -> Z).

Inductive ppc :=
| PIdle
| PReturned (r : option J)
| PEnqLock (node : J) | PEnqPush (node : J)
| PDeqLock | PDeqCheck | PSleep
| PHaltLock | PHaltSet.

Record pq := MkPq {
  mutex : option nat;
  halting : bool;
  work_queue : list J;
  ppcs : nat -> ppc;
}.

Definition set_ppc t c (s : pq) := MkPq (mutex s) (halting s) (work_queue s) (<[t := c]> (ppcs s)).
Definition set_mutex m (s : pq) := MkPq m (halting s) (work_queue s) (ppcs s).
Definition set_work_queue q (s : pq) := MkPq (mutex s) (halting s) q (ppcs s).

Definition pq_init (root : J) : pq := MkPq None false [root] (fun _ => PIdle).

(** [DecisionCompare] puts a node of greatest depth on top; which one of several
    is up to [std::priority_queue]. *)
Definition is_top (node : J) (q : list J) : Prop :=
  node ∈ q /\ forall x, x ∈ q -> (depth x <= depth node)%Z.

(** [notify_one] wakes one sleeping thread, if there is one. *)
Definition pq_notified (s s' : pq) : Prop :=
  (exists u, ppcs s u = PSleep /\ s' = set_ppc u PDeqLock s) \/
  ((forall u, ppcs s u <> PSleep) /\ s' = s).

Definition pq_notify_all (s : pq) : pq :=
  MkPq (mutex s) (halting s) (work_queue s)
    (fun u => match ppcs s u with PSleep => PDeqLock | c => c end).

Definition pq_enter (t : nat) (c : sched_call J) (s : pq) : pq :=
  set_ppc t (match c with Enqueue j => PEnqLock j | Dequeue => PDeqLock | Halt => PHaltLock end) s.
Definition pq_leave (t : nat) (s : pq) : pq := set_ppc t PIdle s.
Definition pq_wake (t : nat) (s : pq) : pq := set_ppc t PDeqLock s.

Inductive pq_step (t : nat) (s : pq) : pq -> Prop :=
| pq_enq_lock j : ppcs s t = PEnqLock j -> mutex s = None ->
    pq_step t s (set_ppc t (PEnqPush j) (set_mutex (Some t) s))
| pq_enq_push j s' : ppcs s t = PEnqPush j ->
    pq_notified (set_ppc t PIdle (set_mutex None (set_work_queue (j :: work_queue s) s))) s' ->
    pq_step t s s'
| pq_deq_lock : ppcs s t = PDeqLock -> mutex s = None ->
    pq_step t s (set_ppc t PDeqCheck (set_mutex (Some t) s))
| pq_deq_halting : ppcs s t = PDeqCheck -> halting s = true ->
    pq_step t s (set_ppc t (PReturned None) (set_mutex None s))
| pq_deq_wait : ppcs s t = PDeqCheck -> halting s = false -> work_queue s = [] ->
    pq_step t s (set_ppc t PSleep (set_mutex None s))
| pq_deq_pop node l1 l2 : ppcs s t = PDeqCheck -> halting s = false ->
    work_queue s = l1 ++ node :: l2 -> is_top node (work_queue s) ->
    pq_step t s (set_ppc t (PReturned (Some node)) (set_mutex None (set_work_queue (l1 ++ l2) s)))
| pq_halt_lock : ppcs s t = PHaltLock -> mutex s = None ->
    pq_step t s (set_ppc t PHaltSet (set_mutex (Some t) s))
| pq_halt_set : ppcs s t = PHaltSet ->
    pq_step t s (set_ppc t PIdle (pq_notify_all (MkPq None true (work_queue s) (ppcs s)))).

Definition pq_doing (s : pq) (t : nat) : activity J :=
  match ppcs s t with
  | PIdle => Outside
  | PReturned r => Returned r
  | PEnqLock _ | PEnqPush _ => Running CEnqueue
  | PDeqLock | PDeqCheck => Running CDequeue
  | PSleep => Asleep
  | PHaltLock | PHaltSet => Running CHalt
  end.

#[export] Instance pq_scheduler : Scheduler J pq := {|
  sched_init := pq_init; enter := pq_enter; sched_step := pq_step; wake := pq_wake;
  leave := pq_leave; doing := pq_doing; halted := halting;
|}.
End priority_queue.
Arguments ppc : clear implicits.
Arguments pq : clear implicits.

(** ** WorkstealingPQScheduler *)

Section work_stealing.
Context {J : Type} (depth : J -> Z) (num_threads : nat).

(** [ThreadWorkQueue]: a map from depths to deques, in the order of the keys. *)
Definition wqueue := list (Z * list J).

Definition wq_push (j : J) (q : wqueue) : wqueue :=
  map_insert q (depth j) (default [] (map_lookup q (depth j)) ++ [j]).

(** [pop]: the first element of the deepest deque. *)
Definition twq_pop (q : wqueue) : option (J * wqueue) :=
  it ← last q;
  match it with
  | (_, []) => None
  | (d, res :: rest) =>
    Some (res, match rest with [] => map_erase q d | _ => map_insert q d rest end)
  end.

(** [steal]: half of the shallowest deque of [other], moved one by one from its
    back to the front of one's own. [None] is a failed assertion. *)
Fixpoint steal_moves (count : nat) (mine other : list J) : option (list J * list J) :=
  match count with
  | 0 => Some (mine, other)
  | S count => b ← last other; steal_moves count (b :: mine) (removelast other)
  end.

Definition wq_steal (mine other : wqueue) : option (bool * wqueue * wqueue) :=
  _ ← cassert (bool_decide (mine = []));
  match other with
  | [] => Some (false, mine, other)
  | (d, other_depth_queue) :: _ =>
    let count := (length other_depth_queue + 1) / 2 in
    _ ← cassert (bool_decide (0 < count));
    _ ← cassert (bool_decide (count <= length other_depth_queue));
    r ← steal_moves count (default [] (map_lookup mine d)) other_depth_queue;
    let '(my, rest) := r in
    Some (true, map_insert mine d my,
          match rest with [] => map_erase other d | _ => map_insert other d rest end)
  end.

(** The array of other threads that [dequeue] shuffles: [0 .. n-2] with one's own
    number replaced by [n-1]. *)
Definition others (t : nat) : list nat :=
  let a := seq 0 (num_threads - 1) in
  if decide (t <> length a) then <[t := length a]> a else a.

Inductive wpc :=
| WIdle
| WReturned (r : option J)
| EnqLock (node : J) | EnqPush (node : J) | EnqNotify
| DeqLock | DeqOwn | DeqBig | DeqLoop
| DeqScan (os : list nat) | DeqSteal (other : nat) (os : list nat) | DeqSleep
| HaltLock | HaltSet.

Record ws := MkWs {
  big : option nat;
  qlocks : nat -> option nat;
  whalting : bool;
  wqueues : nat -> wqueue;
  wpcs : nat -> wpc;
}.

Definition set_wpc t c s := MkWs (big s) (qlocks s) (whalting s) (wqueues s) (<[t := c]> (wpcs s)).
Definition set_big b s := MkWs b (qlocks s) (whalting s) (wqueues s) (wpcs s).
Definition set_qlock o l s := MkWs (big s) (<[o := l]> (qlocks s)) (whalting s) (wqueues s) (wpcs s).
Definition set_wqueue o q s := MkWs (big s) (qlocks s) (whalting s) (<[o := q]> (wqueues s)) (wpcs s).

(** The constructor of the tree enqueues the root from the initial thread. *)
Definition ws_init (root : J) : ws :=
  MkWs None (fun _ => None) false (<[0 := wq_push root []]> (fun _ => [])) (fun _ => WIdle).

Definition ws_notified (s s' : ws) : Prop :=
  (exists u, wpcs s u = DeqSleep /\ s' = set_wpc u DeqBig s) \/
  ((forall u, wpcs s u <> DeqSleep) /\ s' = s).

Definition ws_notify_all (s : ws) : ws :=
  MkWs (big s) (qlocks s) (whalting s) (wqueues s)
    (fun u => match wpcs s u with DeqSleep => DeqBig | c => c end).

Definition ws_enter (t : nat) (c : sched_call J) (s : ws) : ws :=
  set_wpc t (match c with Enqueue j => EnqLock j | Dequeue => DeqLock | Halt => HaltLock end) s.
Definition ws_leave (t : nat) (s : ws) : ws := set_wpc t WIdle s.
Definition ws_wake (t : nat) (s : ws) : ws := set_wpc t DeqBig s.

Inductive wsq_step (t : nat) (s : ws) : ws -> Prop :=
| ws_enq_lock j : wpcs s t = EnqLock j -> qlocks s t = None ->
    wsq_step t s (set_wpc t (EnqPush j) (set_qlock t (Some t) s))
| ws_enq_push j : wpcs s t = EnqPush j ->
    wsq_step t s (set_wpc t EnqNotify (set_wqueue t (wq_push j (wqueues s t)) s))
| ws_enq_notify s' : wpcs s t = EnqNotify ->
    ws_notified (set_wpc t WIdle (set_qlock t None s)) s' -> wsq_step t s s'
| ws_deq_lock : wpcs s t = DeqLock -> qlocks s t = None ->
    wsq_step t s (set_wpc t DeqOwn (set_qlock t (Some t) s))
| ws_deq_halting : wpcs s t = DeqOwn -> whalting s = true ->
    wsq_step t s (set_wpc t (WReturned None) (set_qlock t None s))
| ws_deq_own res q : wpcs s t = DeqOwn -> whalting s = false -> wqueues s t <> [] ->
    twq_pop (wqueues s t) = Some (res, q) ->
    wsq_step t s (set_wpc t (WReturned (Some res)) (set_qlock t None (set_wqueue t q s)))
| ws_deq_none : wpcs s t = DeqOwn -> whalting s = false -> wqueues s t = [] ->
    wsq_step t s (set_wpc t DeqBig (set_qlock t None s))
| ws_deq_big : wpcs s t = DeqBig -> big s = None ->
    wsq_step t s (set_wpc t DeqLoop (set_big (Some t) s))
| ws_loop_halting : wpcs s t = DeqLoop -> whalting s = true ->
    wsq_step t s (set_wpc t (WReturned None) (set_big None s))
| ws_loop_own res q : wpcs s t = DeqLoop -> whalting s = false -> wqueues s t <> [] ->
    twq_pop (wqueues s t) = Some (res, q) ->
    wsq_step t s (set_wpc t (WReturned (Some res)) (set_big None (set_wqueue t q s)))
| ws_loop_scan os : wpcs s t = DeqLoop -> whalting s = false -> wqueues s t = [] ->
    os ≡ₚ others t -> wsq_step t s (set_wpc t (DeqScan os) s)
| ws_scan_other other os : wpcs s t = DeqScan (other :: os) -> qlocks s other = None ->
    wsq_step t s (set_wpc t (DeqSteal other os) (set_qlock other (Some t) s))
| ws_steal_fail other os : wpcs s t = DeqSteal other os -> other <> t ->
    wq_steal (wqueues s t) (wqueues s other) = Some (false, wqueues s t, wqueues s other) ->
    wsq_step t s (set_wpc t (DeqScan os) (set_qlock other None s))
| ws_steal_pop other os mine oq res q : wpcs s t = DeqSteal other os -> other <> t ->
    wq_steal (wqueues s t) (wqueues s other) = Some (true, mine, oq) -> mine <> [] ->
    twq_pop mine = Some (res, q) ->
    wsq_step t s (set_wpc t (WReturned (Some res)) (set_big None (set_qlock other None
      (set_wqueue t q (set_wqueue other oq s)))))
| ws_scan_end : wpcs s t = DeqScan [] ->
    wsq_step t s (set_wpc t DeqSleep (set_big None s))
| ws_halt_lock : wpcs s t = HaltLock -> big s = None ->
    wsq_step t s (set_wpc t HaltSet (set_big (Some t) s))
| ws_halt_set : wpcs s t = HaltSet ->
    wsq_step t s (set_wpc t WIdle
      (ws_notify_all (MkWs None (qlocks s) true (wqueues s) (wpcs s)))).

Definition ws_doing (s : ws) (t : nat) : activity J :=
  match wpcs s t with
  | WIdle => Outside
  | WReturned r => Returned r
  | EnqLock _ | EnqPush _ | EnqNotify => Running CEnqueue
  | DeqLock | DeqOwn | DeqBig | DeqLoop | DeqScan _ | DeqSteal _ _ => Running CDequeue
  | DeqSleep => Asleep
  | HaltLock | HaltSet => Running CHalt
  end.

#[export] Instance ws_scheduler : Scheduler J ws := {|
  sched_init := ws_init; enter := ws_enter; sched_step := wsq_step; wake := ws_wake;
  leave := ws_leave; doing := ws_doing; halted := whalting;
|}.

(** The queues a thread reads or writes in its next step, whatever locks it has. *)
Definition touches (s : ws) (t o : nat) : Prop :=
  match wpcs s t with
  | EnqPush _ | DeqOwn | DeqLoop => o = t
  | DeqSteal other _ => o = t \/ o = other
  | _ => False
  end.
End work_stealing.
Arguments wpc : clear implicits.
Arguments ws : clear implicits.
Arguments wqueue : clear implicits.

(** ** The parallel driver (DPORDriver.cpp, [run_rfsc_parallel]) *)

(** A worker thread calls [reset], which dequeues nodes until one is not pruned;
    explores its trace, enqueueing the siblings found; then, under a mutex,
    counts the job as done and halts the scheduler if an error was found or no
    job is left. The trace builder is left open: a running job enqueues any nodes,
    and any node may have been pruned meanwhile. [created], [executed] and
    [dropped] record the nodes for the theorems. *)
Section driver.
Context {J S : Type} `{Scheduler J S} (num_threads : nat).

Inductive dpc :=
| DReset
| DDequeue
| DWork (node : J)
| DEnqueue (node : J)
| DHalt
| DDone.

Record driver := MkDriver {
  sched : S;
  dpcs : nat -> dpc;
  outstanding_jobs : nat;
  state_mutex : option nat;
  error_found : bool;
  created : list J;
  executed : list J;
  dropped : list J;
}.

Definition set_sched s d := MkDriver s (dpcs d) (outstanding_jobs d) (state_mutex d) (error_found d)
  (created d) (executed d) (dropped d).
Definition set_dpc t c d := MkDriver (sched d) (<[t := c]> (dpcs d)) (outstanding_jobs d) (state_mutex d)
  (error_found d) (created d) (executed d) (dropped d).
Definition set_outstanding n d := MkDriver (sched d) (dpcs d) n (state_mutex d) (error_found d)
  (created d) (executed d) (dropped d).
Definition set_state_mutex m d := MkDriver (sched d) (dpcs d) (outstanding_jobs d) m (error_found d)
  (created d) (executed d) (dropped d).
Definition set_error d := MkDriver (sched d) (dpcs d) (outstanding_jobs d) (state_mutex d) true
  (created d) (executed d) (dropped d).
Definition add_created j d := MkDriver (sched d) (dpcs d) (outstanding_jobs d) (state_mutex d)
  (error_found d) (j :: created d) (executed d) (dropped d).
Definition add_executed j d := MkDriver (sched d) (dpcs d) (outstanding_jobs d) (state_mutex d)
  (error_found d) (created d) (j :: executed d) (dropped d).
Definition add_dropped j d := MkDriver (sched d) (dpcs d) (outstanding_jobs d) (state_mutex d)
  (error_found d) (created d) (executed d) (j :: dropped d).

Definition driver_init (root : J) : driver :=
  MkDriver (sched_init root) (fun _ => DReset) 1 None false [root] [] [].

(** Steps of thread [t] other than a spurious wake-up. *)
Inductive driver_step (t : nat) (d : driver) : driver -> Prop :=
| d_sched s : sched_step t (sched d) s -> driver_step t d (set_sched s d)
| d_reset : dpcs d t = DReset ->
    driver_step t d (set_dpc t DDequeue (set_sched (enter t Dequeue (sched d)) d))
| d_got node : dpcs d t = DDequeue -> doing (sched d) t = Returned (Some node) ->
    driver_step t d (set_dpc t (DWork node) (set_sched (leave t (sched d)) d))
| d_pruned node : dpcs d t = DDequeue -> doing (sched d) t = Returned (Some node) ->
    driver_step t d (set_dpc t DReset (set_sched (leave t (sched d)) (add_dropped node d)))
| d_null : dpcs d t = DDequeue -> doing (sched d) t = Returned None ->
    driver_step t d (set_dpc t DDone (set_sched (leave t (sched d)) d))
| d_enqueue node sibling : dpcs d t = DWork node ->
    driver_step t d (set_dpc t (DEnqueue node) (set_outstanding (outstanding_jobs d + 1)
      (add_created sibling (set_sched (enter t (Enqueue sibling) (sched d)) d))))
| d_enqueued node : dpcs d t = DEnqueue node -> doing (sched d) t = Outside ->
    driver_step t d (set_dpc t (DWork node) d)
| d_finish node : dpcs d t = DWork node -> state_mutex d = None ->
    outstanding_jobs d <> 1 ->
    driver_step t d (set_dpc t DReset (set_outstanding (outstanding_jobs d - 1) (add_executed node d)))
| d_halt_done node : dpcs d t = DWork node -> state_mutex d = None ->
    outstanding_jobs d = 1 ->
    driver_step t d (set_dpc t DHalt (set_state_mutex (Some t) (set_sched (enter t Halt (sched d))
      (set_outstanding 0 (add_executed node d)))))
| d_halt_error node : dpcs d t = DWork node -> state_mutex d = None ->
    driver_step t d (set_dpc t DHalt (set_state_mutex (Some t) (set_sched (enter t Halt (sched d))
      (set_outstanding (outstanding_jobs d - 1) (set_error (add_executed node d))))))
| d_halted : dpcs d t = DHalt -> doing (sched d) t = Outside ->
    driver_step t d (set_dpc t DReset (set_state_mutex None d)).

Definition driver_wake (t : nat) (d d' : driver) : Prop :=
  doing (sched d) t = Asleep /\ d' = set_sched (wake t (sched d)) d.

Definition driver_steps (d d' : driver) : Prop :=
  exists t, t < num_threads /\ (driver_step t d d' \/ driver_wake t d d').

Definition explores (root : J) (d : driver) : Prop := rtc driver_steps (driver_init root) d.
End driver.
