(* ===== verification/SchedLaws.v ===== *)
(** * SchedLaws: what a scheduler promises to the driver

    [SchedulerLaws] is the contract of [RFSCScheduler]: no job is lost or made up;
    calls keep their kind and end as they should; whoever has work to do in the
    scheduler can go on, or somebody else can; when all threads sleep there is no
    job left; after [halt] nobody sleeps. Both schedulers keep it. *)

From stdpp Require Import functions.
From S2P Require Import Prelude.
From S2P Require Import StdMap.
From S2P Require Import Sched.

Definition call_jobs {J} (c : sched_call J) : list J := match c with Enqueue j => [j] | _ => [] end.
Definition kind_of {J} (c : sched_call J) : call_kind :=
  match c with Enqueue _ => CEnqueue | Dequeue => CDequeue | Halt => CHalt end.

(** How a call goes on in one step. *)
Definition goes_on {J} (before after : activity J) (halted : bool) : Prop :=
  exists k, before = Running k /\
    match after with
    | Running k' => k' = k
    | Outside => k = CEnqueue \/ (k = CHalt /\ halted = true)
    | Asleep | Returned _ => k = CDequeue
    end.

Class SchedulerLaws {J S} `{Scheduler J S} (n : nat) := {
  sched_inv : S -> Prop;
  jobs : S -> list J;
  law_init root : sched_inv (sched_init root) /\ jobs (sched_init root) ≡ₚ [root] /\
    (forall t, doing (sched_init root) t = Outside) /\ halted (sched_init root) = false;
  law_enter t c s : t < n -> sched_inv s -> doing s t = Outside ->
    sched_inv (enter t c s) /\ jobs (enter t c s) ≡ₚ call_jobs c ++ jobs s /\
    doing (enter t c s) t = Running (kind_of c) /\
    (forall u, u <> t -> doing (enter t c s) u = doing s u) /\ halted (enter t c s) = halted s;
  law_leave t s r : t < n -> sched_inv s -> doing s t = Returned r ->
    sched_inv (leave t s) /\ jobs s ≡ₚ option_list r ++ jobs (leave t s) /\
    doing (leave t s) t = Outside /\ (forall u, u <> t -> doing (leave t s) u = doing s u) /\
    halted (leave t s) = halted s /\ (r = None -> halted s = true);
  law_step t s s' : t < n -> sched_inv s -> sched_step t s s' ->
    sched_inv s' /\ jobs s' ≡ₚ jobs s /\ goes_on (doing s t) (doing s' t) (halted s') /\
    (forall u, u <> t -> doing s' u = doing s u \/ (doing s u = Asleep /\ doing s' u = Running CDequeue)) /\
    (halted s = true -> halted s' = true) /\
    (halted s' = true -> halted s = true \/ doing s t = Running CHalt);
  law_wake t s : t < n -> sched_inv s -> doing s t = Asleep ->
    sched_inv (wake t s) /\ jobs (wake t s) ≡ₚ jobs s /\ doing (wake t s) t = Running CDequeue /\
    (forall u, u <> t -> doing (wake t s) u = doing s u) /\ halted (wake t s) = halted s;
  law_halted t s : sched_inv s -> halted s = true -> doing s t <> Asleep;
  law_progress t s k : sched_inv s -> t < n -> doing s t = Running k ->
    exists u s', u < n /\ sched_step u s s';
  law_asleep s : sched_inv s -> 0 < n -> (forall t, t < n -> doing s t = Asleep) -> jobs s = [];
}.

(** ** The jobs of all threads *)

Section gather.
Context {A B : Type} (n : nat) (jobs_of : A -> list B).

Definition gather (f : nat -> A) : list B := concat ((fun t => jobs_of (f t)) <$> seq 0 n).

Lemma gather_ext f g : (forall t, t < n -> jobs_of (f t) = jobs_of (g t)) -> gather f = gather g.
Proof.
  intros H. unfold gather. f_equal. apply list_fmap_ext. intros i t Ht.
  apply lookup_seq in Ht as [-> Hi]. by apply H.
Qed.

Lemma gather_split f t : t < n -> exists rest, forall x, gather (<[t := x]> f) ≡ₚ jobs_of x ++ rest.
Proof.
  intros Ht. exists (concat ((fun u => jobs_of (f u)) <$> (seq 0 t ++ seq (S t) (n - S t)))). intros x.
  unfold gather. replace n with (t + S (n - S t)) at 1 by lia.
  rewrite seq_app. simpl. rewrite !fmap_app, !concat_app. simpl. rewrite fn_lookup_insert.
  assert (E : forall a k, (forall i, a <= i < a + k -> i <> t) ->
    (fun u => jobs_of (<[t:=x]> f u)) <$> seq a k = (fun u => jobs_of (f u)) <$> seq a k).
  { intros a k Hk. apply list_fmap_ext. intros i u Hu. apply lookup_seq in Hu as [-> Hi].
    rewrite fn_lookup_insert_ne; [done|]. intros E. by apply (Hk (a + i)); [lia|]. }
  rewrite !E by lia. rewrite Permutation_app_comm, <-app_assoc. f_equiv. apply Permutation_app_comm.
Qed.

Lemma gather_self f t : t < n -> gather f = gather (<[t := f t]> f).
Proof.
  intros Ht. apply gather_ext. intros u _. destruct (decide (u = t)) as [->|].
  - by rewrite fn_lookup_insert.
  - by rewrite fn_lookup_insert_ne.
Qed.

(** Changing what thread [t] has. *)
Lemma gather_insert f t x l l' :
  t < n -> jobs_of (f t) ++ l ≡ₚ jobs_of x ++ l' -> gather f ++ l ≡ₚ gather (<[t := x]> f) ++ l'.
Proof.
  intros Ht E. destruct (gather_split f t Ht) as [rest Hr].
  rewrite (gather_self f t Ht), !Hr. rewrite (Permutation_app_comm (jobs_of (f t))), (Permutation_app_comm (jobs_of x)).
  rewrite <-!app_assoc. by f_equiv.
Qed.

Lemma gather_keep f t x : t < n -> jobs_of (f t) ≡ₚ jobs_of x -> gather (<[t := x]> f) ≡ₚ gather f.
Proof.
  intros Ht E. rewrite <-(app_nil_r (gather f)), <-(app_nil_r (gather (<[t:=x]> f))).
  symmetry. apply gather_insert; [done|]. by rewrite !app_nil_r.
Qed.

Lemma gather_nil f : (forall t, t < n -> jobs_of (f t) = []) -> gather f = [].
Proof.
  intros H. unfold gather. rewrite (list_fmap_ext _ (fun _ => [])).
  - by induction (seq 0 n).
  - intros i t Ht. apply lookup_seq in Ht as [-> Hi]. by apply H.
Qed.
End gather.

(** A property of threads holds of one or of none. *)
Lemma some_thread (n : nat) (P : nat -> Prop) `{forall t, Decision (P t)} :
  (forall t, P t -> t < n) -> (exists t, P t) \/ forall t, ~ P t.
Proof.
  intros Hlt. destruct (decide (Exists P (seq 0 n))) as [Hex|Hno].
  - left. apply Exists_exists in Hex as (t & _ & ?). by exists t.
  - right. intros t Ht. apply Hno, Exists_exists. exists t. split; [|done].
    apply elem_of_seq. specialize (Hlt t Ht). lia.
Qed.

Ltac fn_simpl := rewrite ?fn_lookup_insert; rewrite ?fn_lookup_insert_ne by congruence.

(** ** The priority queue *)

Section priority_queue.
Context {J : Type} (depth : J -> Z) (n : nat).
Implicit Types s : pq J.

Definition ppc_jobs (c : ppc J) : list J :=
  match c with PEnqLock j | PEnqPush j => [j] | PReturned (Some j) => [j] | _ => [] end.
Definition pq_jobs s : list J := gather n ppc_jobs (ppcs s) ++ work_queue s.

Definition has_mutex (c : ppc J) : bool :=
  match c with PEnqPush _ | PDeqCheck | PHaltSet => true | _ => false end.

Record pq_ok s : Prop := {
  po_far t : n <= t -> ppcs s t = PIdle;
  po_mutex t : mutex s = Some t <-> has_mutex (ppcs s t) = true;
  po_halted t : halting s = true -> ppcs s t <> PSleep;
  po_null t : ppcs s t = PReturned None -> halting s = true;
  po_asleep : 0 < n -> (forall t, t < n -> ppcs s t = PSleep) -> work_queue s = [];
}.

#[local] Instance psleep_dec (c : ppc J) : Decision (c = PSleep).
Proof. destruct c; (by left) || by right. Defined.

Lemma top_exists (q : list J) : q <> [] -> exists l1 node l2, q = l1 ++ node :: l2 /\ is_top depth node q.
Proof.
  intros Hq. assert (H : exists node, is_top depth node q).
  { induction q as [|x q IH]; [done|]. destruct q as [|y q].
    - exists x. split; [by left|]. intros z [->|[]%not_elem_of_nil]%elem_of_cons. lia.
    - destruct IH as (m & Hm & Hmax); [done|]. destruct (Z_le_gt_dec (depth x) (depth m)).
      + exists m. split; [by right|]. intros z [->|Hz]%elem_of_cons; [done|auto].
      + exists x. split; [by left|]. intros z [->|Hz]%elem_of_cons; [lia|]. specialize (Hmax z Hz). lia. }
  destruct H as (node & Hin & Hmax). pose proof Hin as (l1 & l2 & E)%list_elem_of_split. by exists l1, node, l2.
Qed.

Lemma pq_ok_update s t c m q :
  pq_ok s -> t < n ->
  ((m = mutex s /\ has_mutex c = has_mutex (ppcs s t)) \/
   (mutex s = None /\ m = Some t /\ has_mutex c = true) \/
   (mutex s = Some t /\ m = None /\ has_mutex c = false)) ->
  (c = PSleep -> halting s = false /\ q = []) -> (c = PReturned None -> halting s = true) ->
  pq_ok (MkPq m (halting s) q (<[t := c]> (ppcs s))).
Proof.
  intros [Hfar Hm Hh Hnull Has] Ht Hmx Hsl Hret. split; simpl.
  - intros u Hu. fn_simpl. rewrite fn_lookup_insert_ne by lia. auto.
  - intros u. destruct (decide (u = t)) as [->|Hne]; fn_simpl.
    + pose proof (Hm t). destruct Hmx as [[-> ->]|[(? & -> & ->)|(? & -> & ->)]]; naive_solver.
    + pose proof (Hm u). destruct Hmx as [[-> _]|[(E & -> & _)|(E & -> & _)]]; rewrite ?E in *; naive_solver.
  - intros u Hhalt. destruct (decide (u = t)) as [->|]; fn_simpl; [|auto].
    intros E. destruct (Hsl E). congruence.
  - intros u. destruct (decide (u = t)) as [->|]; fn_simpl; eauto.
  - intros Hn Hall. apply Hsl. specialize (Hall t Ht). by rewrite fn_lookup_insert in Hall.
Qed.

Lemma pq_ok_lt s t : pq_ok s -> ppcs s t <> PIdle -> t < n.
Proof. intros Hok Hne. destruct (decide (t < n)); [done|]. destruct Hne. apply (po_far s Hok). lia. Qed.

(** The steps that change only one's own place, the mutex and the queue. *)
Lemma pq_update_law s t c m q l :
  t < n -> ppc_jobs (ppcs s t) ++ work_queue s ++ l ≡ₚ ppc_jobs c ++ q ->
  pq_jobs s ++ l ≡ₚ pq_jobs (MkPq m (halting s) q (<[t := c]> (ppcs s))).
Proof.
  intros Ht E. unfold pq_jobs. simpl. rewrite <-app_assoc. by apply gather_insert.
Qed.

Lemma pq_notified_ok s s' : pq_ok s -> pq_notified s s' ->
  pq_ok s' /\ pq_jobs s' ≡ₚ pq_jobs s /\ halting s' = halting s /\
  forall u, pq_doing s' u = pq_doing s u \/ (pq_doing s u = Asleep /\ pq_doing s' u = Running CDequeue).
Proof.
  intros Hok [(u & Hu & ->)|[_ ->]]; [|split_and!; auto].
  assert (Hlt : u < n) by (apply (pq_ok_lt s); [done|congruence]).
  split_and!; [|unfold pq_jobs; simpl; f_equiv; apply gather_keep; [done|by rewrite Hu]|done|].
  - apply (pq_ok_update s u PDeqLock); [done|done|left; by rewrite Hu|done|done].
  - intros x. unfold pq_doing. simpl. destruct (decide (x = u)) as [->|]; fn_simpl; [|by left].
    rewrite Hu. by right.
Qed.

Lemma pq_halt_ok s t : pq_ok s -> t < n -> ppcs s t = PHaltSet ->
  pq_ok (set_ppc t PIdle (pq_notify_all (MkPq None true (work_queue s) (ppcs s)))).
Proof.
  intros [Hfar Hm Hh Hnull Has] Ht Hpc.
  assert (Hmt : mutex s = Some t) by (apply Hm; by rewrite Hpc). split; simpl.
  - intros u Hu. rewrite fn_lookup_insert_ne by lia. by rewrite Hfar.
  - intros u. destruct (decide (u = t)) as [->|]; fn_simpl; [done|].
    split; [done|]. intros E. assert (mutex s = Some u); [|congruence]. apply Hm.
    by destruct (ppcs s u).
  - intros u _. destruct (decide (u = t)) as [->|]; fn_simpl; [done|]. by destruct (ppcs s u).
  - done.
  - intros _ Hall. specialize (Hall t Ht). by rewrite fn_lookup_insert in Hall.
Qed.

Lemma pq_step_law t s s' : t < n -> pq_ok s -> pq_step depth t s s' ->
  pq_ok s' /\ pq_jobs s' ≡ₚ pq_jobs s /\ goes_on (pq_doing s t) (pq_doing s' t) (halting s') /\
  (forall u, u <> t -> pq_doing s' u = pq_doing s u \/
     (pq_doing s u = Asleep /\ pq_doing s' u = Running CDequeue)) /\
  (halting s = true -> halting s' = true) /\
  (halting s' = true -> halting s = true \/ pq_doing s t = Running CHalt).
Proof.
  intros Ht Hok Hstep.
  assert (Hown : forall c m q, pq_ok (MkPq m (halting s) q (<[t := c]> (ppcs s))) ->
    ppc_jobs (ppcs s t) ++ work_queue s ≡ₚ ppc_jobs c ++ q ->
    goes_on (pq_doing s t) (pq_doing (MkPq m (halting s) q (<[t := c]> (ppcs s))) t) (halting s) ->
    let s' := MkPq m (halting s) q (<[t := c]> (ppcs s)) in
    pq_ok s' /\ pq_jobs s' ≡ₚ pq_jobs s /\ goes_on (pq_doing s t) (pq_doing s' t) (halting s') /\
    (forall u, u <> t -> pq_doing s' u = pq_doing s u \/
       (pq_doing s u = Asleep /\ pq_doing s' u = Running CDequeue)) /\
    (halting s = true -> halting s' = true) /\
    (halting s' = true -> halting s = true \/ pq_doing s t = Running CHalt)).
  { intros c m q Hok' Hj Hgo. cbv zeta. split_and!; [done| |done| |done|by left].
    - symmetry. rewrite <-(app_nil_r (pq_jobs s)). apply pq_update_law; [done|]. by rewrite app_nil_r.
    - intros u Hne. left. unfold pq_doing. simpl. by fn_simpl. }
  pose proof (po_mutex s Hok t) as Hm.
  destruct Hstep as [j Hpc Hmx|j s' Hpc Hnot|Hpc Hmx|Hpc Hhalt|Hpc Hhalt Hq|node l1 l2 Hpc Hhalt Hq Htop|Hpc Hmx|Hpc].
  - apply Hown; [|by rewrite Hpc|].
    + apply pq_ok_update; [done..|right; left; by rewrite Hmx|done|done].
    + unfold pq_doing, goes_on. simpl. rewrite Hpc, fn_lookup_insert. by eexists.
  - assert (Hmt : mutex s = Some t) by (apply Hm; by rewrite Hpc).
    set (s1 := set_ppc t PIdle (set_mutex None (set_work_queue (j :: work_queue s) s))) in *.
    assert (H1 : pq_ok s1).
    { apply (pq_ok_update s t PIdle None (j :: work_queue s)); [done..|right; right; by rewrite Hmt|done|done]. }
    destruct (pq_notified_ok s1 s' H1 Hnot) as (Hok' & Hj & Hh & Hdo).
    destruct (Hown PIdle None (j :: work_queue s)) as (_ & Hj1 & Hgo & _); [done|by rewrite Hpc| |].
    { unfold pq_doing, goes_on. simpl. rewrite Hpc, fn_lookup_insert. eexists; split; [done|by left]. }
    split_and!; [done|by rewrite Hj| | |by rewrite Hh|rewrite Hh; by left].
    + rewrite Hh. destruct (Hdo t) as [->|[E _]]; [done|]. unfold pq_doing, s1 in E. simpl in E.
      by rewrite fn_lookup_insert in E.
    + intros u Hne. assert (E : pq_doing s1 u = pq_doing s u) by (unfold pq_doing, s1; simpl; by fn_simpl).
      destruct (Hdo u) as [->|[? ?]]; [by left|right; by rewrite <-E].
  - apply Hown; [|by rewrite Hpc|].
    + apply pq_ok_update; [done..|right; left; by rewrite Hmx|done|done].
    + unfold pq_doing, goes_on. simpl. rewrite Hpc, fn_lookup_insert. by eexists.
  - apply Hown; [|by rewrite Hpc|].
    + apply pq_ok_update; [done..|right; right|done|done]. split_and!; [apply Hm; by rewrite Hpc|done..].
    + unfold pq_doing, goes_on. simpl. rewrite Hpc, fn_lookup_insert. by eexists.
  - apply Hown; [|by rewrite Hpc|].
    + apply pq_ok_update; [done..|right; right|done|done]. split_and!; [apply Hm; by rewrite Hpc|done..].
    + unfold pq_doing, goes_on. simpl. rewrite Hpc, fn_lookup_insert. by eexists.
  - apply Hown; [|rewrite Hpc, Hq; simpl; by rewrite Permutation_middle|].
    + apply pq_ok_update; [done..|right; right|done|done]. split_and!; [apply Hm; by rewrite Hpc|done..].
    + unfold pq_doing, goes_on. simpl. rewrite Hpc, fn_lookup_insert. by eexists.
  - apply Hown; [|by rewrite Hpc|].
    + apply pq_ok_update; [done..|right; left; by rewrite Hmx|done|done].
    + unfold pq_doing, goes_on. simpl. rewrite Hpc, fn_lookup_insert. by eexists.
  - split_and!; [by apply pq_halt_ok| | | |done|right; unfold pq_doing; by rewrite Hpc].
    + unfold pq_jobs. simpl. f_equiv. rewrite <-(gather_keep n ppc_jobs (ppcs s) t PIdle) by (done || by rewrite Hpc).
      erewrite gather_ext; [done|]. intros u _. simpl.
      destruct (decide (u = t)) as [->|]; fn_simpl; [done|]. by destruct (ppcs s u).
    + unfold pq_doing, goes_on. simpl. rewrite Hpc, fn_lookup_insert. eexists; split; [done|by right].
    + intros u Hne. unfold pq_doing. simpl. fn_simpl. destruct (ppcs s u); simpl; auto.
Qed.

(** A thread in a call can go on, or the holder of the mutex can. *)
Lemma pq_progress t s k : pq_ok s -> t < n -> pq_doing s t = Running k ->
  exists u s', u < n /\ pq_step depth u s s'.
Proof.
  intros Hok Ht Hrun.
  assert (Hholder : forall u, has_mutex (ppcs s u) = true -> exists u s', u < n /\ pq_step depth u s s').
  { intros u Hu. assert (Hlt : u < n) by (apply (pq_ok_lt s); [done|by intros E; rewrite E in Hu]).
    destruct (ppcs s u) eqn:Eu; try done.
    - set (s1 := set_ppc u PIdle (set_mutex None (set_work_queue (node :: work_queue s) s))).
      assert (H : exists s', pq_notified s1 s').
      { destruct (some_thread n (fun x => ppcs s1 x = PSleep)) as [[x Hx]|Hno].
        - intros x Hx. destruct (decide (x < n)); [done|].
          unfold s1 in Hx. simpl in Hx. rewrite fn_lookup_insert_ne, (po_far s Hok) in Hx by lia. done.
        - eexists. left. by exists x.
        - exists s1. by right. }
      destruct H as [s' Hs']. exists u, s'. split; [done|]. by eapply pq_enq_push.
    - destruct (halting s) eqn:Eh; [eexists u, _; split; [done|by apply pq_deq_halting]|].
      destruct (work_queue s) as [|j q] eqn:Eq; [eexists u, _; split; [done|by apply pq_deq_wait]|].
      destruct (top_exists (work_queue s)) as (l1 & node & l2 & E & Htop); [by rewrite Eq|].
      eexists u, _. split; [done|]. by apply (pq_deq_pop depth u s node l1 l2).
    - eexists u, _. split; [done|by apply pq_halt_set]. }
  destruct (mutex s) as [u|] eqn:Em; [apply (Hholder u); by apply (po_mutex s Hok)|].
  unfold pq_doing in Hrun. destruct (ppcs s t) eqn:Et; try done;
    try (apply (Hholder t); by rewrite Et); eexists t, _; (split; [done|]).
  - by eapply pq_enq_lock.
  - by apply pq_deq_lock.
  - by apply pq_halt_lock.
Qed.

(** Starting, leaving and waking: one's own place changes, the mutex does not. *)
Lemma pq_own_law s t c l :
  t < n -> pq_ok s -> has_mutex c = has_mutex (ppcs s t) -> c <> PSleep -> c <> PReturned None ->
  ppc_jobs (ppcs s t) ++ l ≡ₚ ppc_jobs c ->
  pq_ok (set_ppc t c s) /\ pq_jobs s ++ l ≡ₚ pq_jobs (set_ppc t c s) /\
  forall u, u <> t -> pq_doing (set_ppc t c s) u = pq_doing s u.
Proof.
  intros Ht Hok Hm Hsl Hret Hj. split_and!.
  - apply (pq_ok_update s t c); [done|done|by left|done|done].
  - apply pq_update_law; [done|]. rewrite <-Hj, <-app_assoc. f_equiv. apply Permutation_app_comm.
  - intros u Hne. unfold pq_doing. simpl. by fn_simpl.
Qed.

#[export] Instance pq_laws : SchedulerLaws (S := pq J) (H := pq_scheduler depth) n.
Proof.
  refine {| sched_inv := (pq_ok : pq J -> Prop); jobs := (pq_jobs : pq J -> list J) |}; simpl.
  - intros root. split_and!; [|unfold pq_jobs; simpl; by rewrite gather_nil|done|done].
    split; simpl; try done. intros Hn Hall. by specialize (Hall 0 Hn).
  - intros t c s Ht Hok Hout. unfold pq_enter. unfold pq_doing in Hout. destruct (ppcs s t) eqn:Et; try done.
    destruct (pq_own_law s t (match c with Enqueue j => PEnqLock j | Dequeue => PDeqLock | Halt => PHaltLock end)
      (call_jobs c)) as (? & Hj & ?); [done|done|rewrite Et; by destruct c|by destruct c|by destruct c|rewrite Et; by destruct c|].
    split_and!; [done|by rewrite <-Hj, Permutation_app_comm| |done|done].
    unfold pq_doing. simpl. rewrite fn_lookup_insert. by destruct c.
  - intros t s r Ht Hok Hret. unfold pq_doing in Hret. destruct (ppcs s t) eqn:Et; try done. simplify_eq.
    assert (Hj : pq_jobs s ++ [] ≡ₚ option_list r ++ pq_jobs (set_ppc t PIdle s)).
    { rewrite app_nil_r. unfold pq_jobs. simpl. destruct (gather_split n ppc_jobs (ppcs s) t Ht) as [rest Hr].
      rewrite (gather_self n ppc_jobs (ppcs s) t Ht), !Hr, Et, app_assoc. simpl. by destruct r. }
    rewrite app_nil_r in Hj. split_and!; [|done| | |done|].
    + apply (pq_ok_update s t PIdle); [done|done|left; by rewrite Et|done|done].
    + unfold pq_doing. simpl. by rewrite fn_lookup_insert.
    + intros u Hne. unfold pq_doing. simpl. by fn_simpl.
    + intros ->. by apply (po_null s Hok t).
  - intros t s s'. apply pq_step_law.
  - intros t s Ht Hok Hsl. unfold pq_wake. unfold pq_doing in Hsl. destruct (ppcs s t) eqn:Et; try done.
    destruct (pq_own_law s t PDeqLock []) as (? & Hj & ?); [done|done|by rewrite Et|done|done|by rewrite Et|].
    rewrite app_nil_r in Hj. split_and!; [done|done| |done|done].
    unfold pq_doing. simpl. by rewrite fn_lookup_insert.
  - intros t s Hok Hh E. apply (po_halted s Hok t Hh). unfold pq_doing in E. by destruct (ppcs s t).
  - intros t s k. apply pq_progress.
  - intros s Hok Hn Hall. unfold pq_jobs.
    assert (Hsl : forall t, t < n -> ppcs s t = PSleep).
    { intros t Ht. specialize (Hall t Ht). unfold pq_doing in Hall. by destruct (ppcs s t). }
    rewrite gather_nil by (intros t Ht; by rewrite Hsl). by rewrite (po_asleep s Hok Hn Hsl).
Defined.
End priority_queue.
