(* ===== verification/SchedSteal.v ===== *)
(** * SchedSteal: the work-stealing scheduler keeps the contract

    The queues of the threads ([wq_push], [twq_pop], [wq_steal]), the invariant of
    [WorkstealingPQScheduler] (who holds which lock, whose queue is empty), its
    laws, and that no two threads use a queue at the same time. *)

From stdpp Require Import functions.
From S2P Require Import Prelude.
From S2P Require Import StdMap.
From S2P Require Import Sched.
From S2P Require Import SchedLaws.

(** ** Queues *)

Section maps.
Context {V : Type}.
Implicit Types q : list (Z * V).

Lemma sorted_head_keys k (v : V) q p : map_sorted ((k, v) :: q) -> p ∈ q -> (k < p.1)%Z.
Proof.
  intros Hs Hp. inversion Hs as [|? ? _ Hall]; subst. rewrite Forall_forall in Hall.
  specialize (Hall p Hp). by apply Z.ltb_lt in Hall.
Qed.

Lemma map_erase_absent q k : (forall p, p ∈ q -> p.1 <> k) -> map_erase q k = q.
Proof.
  intros H. unfold map_erase. induction q as [|p q IH]; [done|].
  rewrite filter_cons, decide_True by (apply H; by left). f_equal. apply IH. intros x Hx. apply H. by right.
Qed.

Lemma map_insert_perm q k v : map_sorted q -> map_insert q k v ≡ₚ (k, v) :: map_erase q k.
Proof.
  induction q as [|[k' v'] q IH]; intros Hs; [done|]. cbn [map_insert].
  assert (Hq : map_sorted q) by (by inversion Hs). pose proof (sorted_head_keys k' v' q) as Hk.
  assert (Ecase : map_erase ((k', v') :: q) k = if decide (k' <> k) then (k', v') :: map_erase q k else map_erase q k) by done.
  rewrite Ecase. destruct (decide (k = k')) as [Hkk|Hkk].
  - subst. rewrite (decide_False (P := k' <> k')) by (by intros []). rewrite map_erase_absent; [done|].
    intros p Hp E. specialize (Hk p Hs Hp). lia.
  - rewrite decide_True by done. destruct (ltb k k') eqn:El.
    + f_equiv. rewrite map_erase_absent; [done|]. intros p Hp E. specialize (Hk p Hs Hp).
      apply Z.ltb_lt in El. lia.
    + rewrite IH by done. apply Permutation_swap.
Qed.

Lemma map_lookup_perm q k v : map_sorted q -> map_lookup q k = Some v -> q ≡ₚ (k, v) :: map_erase q k.
Proof.
  induction q as [|[k' v'] q IH]; intros Hs; [done|]. cbn [map_lookup]. pose proof (sorted_head_keys k' v' q) as Hk.
  assert (Ecase : map_erase ((k', v') :: q) k = if decide (k' <> k) then (k', v') :: map_erase q k else map_erase q k) by done.
  rewrite Ecase. destruct (decide (k = k')) as [Hkk|Hkk].
  - intros [= ->]. subst. rewrite (decide_False (P := k' <> k')) by (by intros []). rewrite map_erase_absent; [done|].
    intros p Hp E. specialize (Hk p Hs Hp). lia.
  - intros Hl. rewrite decide_True by done. rewrite (IH ltac:(by inversion Hs) Hl) at 1. apply Permutation_swap.
Qed.

Lemma map_lookup_erase_none q k : map_lookup q k = None -> map_erase q k = q.
Proof.
  intros Hl. apply map_erase_absent. intros [k' v'] Hp E. simpl in E. subst. revert Hl.
  induction q as [|[k2 v2] q IH]; [by apply not_elem_of_nil in Hp|]. simpl.
  apply elem_of_cons in Hp as [[= <- <-]|Hp]; [by rewrite decide_True|]. case_decide; [done|auto].
Qed.

Lemma map_lookup_in q k v : map_sorted q -> (k, v) ∈ q -> map_lookup q k = Some v.
Proof.
  induction q as [|[k' v'] q IH]; intros Hs Hin; [by apply not_elem_of_nil in Hin|]. cbn [map_lookup].
  apply elem_of_cons in Hin as [[= <- <-]|Hin]; [by rewrite decide_True|].
  pose proof (sorted_head_keys k' v' q _ Hs Hin). simpl in *. rewrite decide_False by lia.
  apply IH; [by inversion Hs|done].
Qed.

Lemma elem_of_map_erase q k p : p ∈ map_erase q k <-> p ∈ q /\ p.1 <> k.
Proof. unfold map_erase. rewrite list_elem_of_filter. naive_solver. Qed.
End maps.

Section queues.
Context {J : Type} (depth : J -> Z).
Implicit Types q : wqueue J.

Definition wq_jobs q : list J := concat (q.*2).

(** Sorted by depth, without empty deques; every job is at its depth. *)
Record wq_ok q : Prop := {
  wo_sorted : map_sorted q;
  wo_full p : p ∈ q -> p.2 <> [] /\ forall j, j ∈ p.2 -> depth j = p.1;
}.

Lemma wq_jobs_perm q q' : q ≡ₚ q' -> wq_jobs q ≡ₚ wq_jobs q'.
Proof. intros E. unfold wq_jobs. induction E; simpl; [done|by f_equiv| |by etrans]. rewrite !app_assoc. f_equiv. apply Permutation_app_comm. Qed.

Lemma wq_jobs_insert q d dq : map_sorted q -> wq_jobs (map_insert q d dq) ≡ₚ dq ++ wq_jobs (map_erase q d).
Proof. intros Hs. by rewrite (wq_jobs_perm _ _ (map_insert_perm q d dq Hs)). Qed.

Lemma wq_jobs_at q d : map_sorted q -> wq_jobs q ≡ₚ default [] (map_lookup q d) ++ wq_jobs (map_erase q d).
Proof.
  intros Hs. destruct (map_lookup q d) as [dq|] eqn:E; simpl.
  - by rewrite (wq_jobs_perm _ _ (map_lookup_perm q d dq Hs E)) at 1.
  - by rewrite map_lookup_erase_none.
Qed.

Lemma wq_ok_erase q d : wq_ok q -> wq_ok (map_erase q d).
Proof.
  intros [Hs Hf]. split; [by apply map_erase_sorted|]. intros p [Hp _]%elem_of_map_erase. by apply Hf.
Qed.

Lemma wq_ok_insert q d dq : wq_ok q -> dq <> [] -> (forall j, j ∈ dq -> depth j = d) -> wq_ok (map_insert q d dq).
Proof.
  intros [Hs Hf] Hne Hd. split; [by apply map_insert_sorted|].
  intros p [->|Hp]%elem_map_insert; [done|by apply Hf].
Qed.

Lemma wq_at_depth q d j : wq_ok q -> j ∈ default [] (map_lookup q d) -> depth j = d.
Proof.
  intros Hq Hj. destruct (map_lookup q d) as [dq|] eqn:E; simpl in Hj; [|by apply not_elem_of_nil in Hj].
  apply map_lookup_elem in E. by apply (wo_full q Hq (d, dq)).
Qed.

Lemma wq_push_spec j q : wq_ok q -> wq_ok (wq_push depth j q) /\ wq_jobs (wq_push depth j q) ≡ₚ j :: wq_jobs q.
Proof.
  intros Hq. unfold wq_push. split.
  - apply wq_ok_insert; [done|by destruct (default [] _)|].
    intros x [Hx| ->%list_elem_of_singleton]%elem_of_app; [by eapply wq_at_depth|done].
  - rewrite wq_jobs_insert by apply Hq. rewrite (wq_jobs_at q (depth j)) by apply Hq.
    rewrite <-app_assoc. simpl. by rewrite <-Permutation_middle.
Qed.

(** The rest of a deque is put back, or its depth is erased. *)
Lemma put_back_spec q d dq rest :
  wq_ok q -> map_lookup q d = Some dq -> (forall j, j ∈ rest -> depth j = d) ->
  let q' := match rest with [] => map_erase q d | _ => map_insert q d rest end in
  wq_ok q' /\ wq_jobs q' ≡ₚ rest ++ wq_jobs (map_erase q d).
Proof.
  intros Hq Hl Hd. destruct rest as [|x rest]; cbv zeta.
  - split; [by apply wq_ok_erase|done].
  - split; [by apply wq_ok_insert|]. apply wq_jobs_insert, Hq.
Qed.

Lemma last_greatest q it : map_sorted q -> last q = Some it -> forall p, p ∈ q -> (p.1 <= it.1)%Z.
Proof.
  induction q as [|[k v] q IH]; intros Hs Hl p Hp; [done|]. destruct q as [|x q].
  - simpl in Hl. simplify_eq. apply list_elem_of_singleton in Hp as ->. done.
  - rewrite last_cons_cons in Hl. apply elem_of_cons in Hp as [->|Hp].
    + pose proof (sorted_head_keys k v (x :: q) it Hs). simpl.
      enough (k < it.1)%Z by lia. apply H. by apply last_Some_elem_of.
    + apply IH; [by inversion Hs|done..].
Qed.

(** [pop] takes a deepest job. *)
Lemma twq_pop_spec q : wq_ok q -> q <> [] ->
  exists j q', twq_pop q = Some (j, q') /\ wq_ok q' /\ wq_jobs q ≡ₚ j :: wq_jobs q' /\
    forall x, x ∈ wq_jobs q -> (depth x <= depth j)%Z.
Proof.
  intros Hq Hne. unfold twq_pop. destruct (last q) as [[d dq]|] eqn:El; [|by apply last_None in El].
  cbn [mbind option_bind]. assert (Hin : (d, dq) ∈ q) by (by apply last_Some_elem_of).
  destruct (wo_full q Hq (d, dq) Hin) as [Hfull Hd]. simpl in *. destruct dq as [|j rest]; [done|].
  pose proof (map_lookup_in q d _ (wo_sorted q Hq) Hin) as Hl.
  destruct (put_back_spec q d (j :: rest) rest Hq Hl) as [Hok Hj]; [intros x Hx; apply Hd; by right|].
  eexists j, _. split_and!; [done|exact Hok| |].
  - rewrite (wq_jobs_at q d) by apply Hq. rewrite Hl, Hj. done.
  - intros x Hx. rewrite (Hd j) by (by left). unfold wq_jobs in Hx.
    apply list_elem_of_In, in_concat in Hx as (l & Hl' & Hx). apply list_elem_of_In in Hl', Hx.
    apply list_elem_of_fmap in Hl' as (p & -> & Hp). destruct (wo_full q Hq p Hp) as [_ Hdp].
    rewrite (Hdp x Hx). by apply (last_greatest q (d, j :: rest)); [apply Hq|..].
Qed.

Lemma steal_moves_spec count : forall mine other : list J, count <= length other ->
  steal_moves count mine other =
    Some (drop (length other - count) other ++ mine, take (length other - count) other).
Proof.
  induction count as [|count IH]; intros mine other Hle; simpl.
  - rewrite Nat.sub_0_r, drop_all, take_ge by lia. done.
  - destruct other as [|x l _] using rev_ind; [simpl in Hle; lia|].
    rewrite last_snoc, removelast_last. cbn [mbind option_bind]. rewrite length_app in Hle. simpl in Hle.
    rewrite IH by lia. rewrite length_app. simpl. replace (length l + 1 - S count) with (length l - count) by lia.
    rewrite drop_app_le, take_app_le by lia. by rewrite <-app_assoc.
Qed.

(** [steal] by a thread whose queue is empty: nothing, or the back half of the
    shallowest deque. *)
Lemma wq_steal_spec other : wq_ok other ->
  exists b mine' other', wq_steal [] other = Some (b, mine', other') /\
    if (b : bool) then wq_ok mine' /\ wq_ok other' /\ mine' <> [] /\
                       wq_jobs mine' ++ wq_jobs other' ≡ₚ wq_jobs other
    else mine' = [] /\ other' = other /\ other = [].
Proof.
  intros Hq. unfold wq_steal. rewrite bool_decide_true by done. cbn [cassert mbind option_bind].
  destruct other as [|[d dq] rest0] eqn:Eo; [by eexists false, _, _|]. rewrite <-Eo in *.
  assert (Hin : (d, dq) ∈ other) by (rewrite Eo; by left).
  destruct (wo_full other Hq (d, dq) Hin) as [Hfull Hd]. simpl in Hfull, Hd.
  set (count := (length dq + 1) / 2).
  assert (Hlen : 0 < length dq) by (destruct dq; [done|simpl; lia]).
  assert (Hc : 0 < count <= length dq).
  { unfold count. pose proof (Nat.div_mod_eq (length dq + 1) 2). pose proof (Nat.mod_upper_bound (length dq + 1) 2). lia. }
  rewrite !bool_decide_true by lia. cbn [cassert mbind option_bind map_lookup default].
  rewrite steal_moves_spec by lia. cbn [mbind option_bind].
  set (k := length dq - count). rewrite app_nil_r.
  pose proof (map_lookup_in other d dq (wo_sorted other Hq) Hin) as Hl.
  destruct (put_back_spec other d dq (take k dq) Hq Hl) as [Hok Hj].
  { intros j Hj. apply Hd. rewrite <-(take_drop k dq). apply elem_of_app. by left. }
  eexists true, _, _. split; [done|]. cbv beta iota. split_and!; [|exact Hok|done|].
  - split; [by repeat constructor|]. intros p ->%list_elem_of_singleton. simpl. split.
    + intros E. apply (f_equal length) in E. rewrite length_drop in E. simpl in E. lia.
    + intros j Hj'. apply Hd. rewrite <-(take_drop k dq). apply elem_of_app. by right.
  - rewrite Hj. rewrite (wq_jobs_at other d) by apply Hq. rewrite Hl. simpl. unfold wq_jobs at 1. simpl.
    rewrite app_nil_r, app_assoc. f_equiv. rewrite Permutation_app_comm. by rewrite take_drop.
Qed.
End queues.

(** ** The invariant *)

Section work_stealing.
Context {J : Type} (depth : J -> Z) (n : nat).
Implicit Types (s : ws J) (c : wpc J).

Definition wpc_jobs c : list J :=
  match c with EnqLock j | EnqPush j => [j] | WReturned (Some j) => [j] | _ => [] end.
Definition ws_jobs s : list J := gather n wpc_jobs (wpcs s) ++ gather n wq_jobs (wqueues s).

Definition holds_big c : bool :=
  match c with DeqLoop | DeqScan _ | DeqSteal _ _ | HaltSet => true | _ => false end.
Definition holds_qlock (t : nat) c (o : nat) : Prop :=
  match c with EnqPush _ | EnqNotify | DeqOwn => o = t | DeqSteal other _ => o = other | _ => False end.

(** Places after the thread found its own queue empty. *)
Definition looked c : bool :=
  match c with DeqBig | DeqLoop | DeqScan _ | DeqSteal _ _ | DeqSleep => true | _ => false end.
Definition scanning c : bool := match c with DeqScan _ | DeqSteal _ _ => true | _ => false end.
Definition to_scan c : list nat :=
  match c with DeqScan os => os | DeqSteal other os => other :: os | _ => [] end.

Record ws_ok s : Prop := {
  so_far t : n <= t -> wpcs s t = WIdle;
  so_big t : big s = Some t <-> holds_big (wpcs s t) = true;
  so_lock t o : qlocks s o = Some t <-> holds_qlock t (wpcs s t) o;
  so_queue t : wq_ok depth (wqueues s t);
  so_empty t : looked (wpcs s t) = true -> wqueues s t = [];
  so_others t o : o ∈ to_scan (wpcs s t) -> o < n /\ o <> t;
  so_scan t : scanning (wpcs s t) = true -> whalting s = false;
  so_halted t : whalting s = true -> wpcs s t <> DeqSleep;
  so_null t : wpcs s t = WReturned None -> whalting s = true;
}.

(** What a step of [t] to the place [c] may do to the locks and the queues. *)
Definition big_moves s t c (b : option nat) : Prop :=
  (b = big s /\ holds_big c = holds_big (wpcs s t)) \/
  (big s = None /\ b = Some t /\ holds_big c = true) \/
  (big s = Some t /\ b = None /\ holds_big c = false).
Definition qlocks_move s t c (ql : nat -> option nat) : Prop :=
  (ql = qlocks s /\ forall o, holds_qlock t c o <-> holds_qlock t (wpcs s t) o) \/
  (exists o, qlocks s o = None /\ ql = <[o := Some t]> (qlocks s) /\
     (forall x, ~ holds_qlock t (wpcs s t) x) /\ forall x, holds_qlock t c x <-> x = o) \/
  (exists o, ql = <[o := None]> (qlocks s) /\
     (forall x, holds_qlock t (wpcs s t) x <-> x = o) /\ forall x, ~ holds_qlock t c x).

Lemma ws_ok_update s t c b ql qs :
  ws_ok s -> t < n -> big_moves s t c b -> qlocks_move s t c ql ->
  (forall u, wq_ok depth (qs u)) -> (forall u, u <> t -> wqueues s u = [] -> qs u = []) ->
  (looked c = true -> qs t = []) -> (forall o, o ∈ to_scan c -> o < n /\ o <> t) ->
  (scanning c = true -> whalting s = false) ->
  (c = DeqSleep -> whalting s = false) -> (c = WReturned None -> whalting s = true) ->
  ws_ok (MkWs b ql (whalting s) qs (<[t := c]> (wpcs s))).
Proof.
  intros [Hfar Hbig Hlock Hqueue Hempty Hoth Hscan Hhalt Hnull] Ht Hb Hl Hq Hshrink Hlook Hto Hsc Hsl Hret.
  split; simpl; intros u.
  - intros Hu. rewrite fn_lookup_insert_ne by lia. auto.
  - destruct (decide (u = t)) as [->|Hne]; fn_simpl.
    + pose proof (Hbig t). destruct Hb as [[-> ->]|[(? & -> & ->)|(? & -> & ->)]]; naive_solver.
    + pose proof (Hbig u). destruct Hb as [[-> _]|[(E & -> & _)|(E & -> & _)]]; rewrite ?E in *; naive_solver.
  - intros o. destruct (decide (u = t)) as [->|Hne]; fn_simpl.
    + pose proof (Hlock t o). destruct Hl as [[-> Hl]|[(p & Hp & -> & Hno & Hl)|(p & -> & Hl & Hno)]].
      * by rewrite Hl.
      * rewrite Hl. destruct (decide (o = p)) as [->|]; fn_simpl; [naive_solver|]. specialize (Hno o). naive_solver.
      * specialize (Hno o). specialize (Hl o). destruct (decide (o = p)) as [->|]; fn_simpl; naive_solver.
    + pose proof (Hlock u o). pose proof (Hlock t o).
      destruct Hl as [[-> Hl]|[(p & Hp & -> & Hno & Hl)|(p & -> & Hl & Hno)]]; [done|..].
      * destruct (decide (o = p)) as [->|]; fn_simpl; [|done]. rewrite Hp in *. naive_solver.
      * specialize (Hl o). destruct (decide (o = p)) as [->|]; fn_simpl; [|done]. naive_solver.
  - apply Hq.
  - destruct (decide (u = t)) as [->|Hne]; fn_simpl; auto.
  - intros o. destruct (decide (u = t)) as [->|Hne]; fn_simpl; auto.
  - destruct (decide (u = t)) as [->|Hne]; fn_simpl; eauto.
  - intros Hh. destruct (decide (u = t)) as [->|Hne]; fn_simpl; [|auto]. intros E. specialize (Hsl E). congruence.
  - destruct (decide (u = t)) as [->|Hne]; fn_simpl; eauto.
Qed.

Lemma ws_ok_lt s t : ws_ok s -> wpcs s t <> WIdle -> t < n.
Proof. intros Hok Hne. destruct (decide (t < n)); [done|]. destruct Hne. apply (so_far s Hok). lia. Qed.

Lemma others_spec t o : t < n -> o ∈ others n t -> o < n /\ o <> t.
Proof.
  intros Ht. unfold others. rewrite length_seq. case_decide as Hd; intros Ho.
  - apply list_elem_of_lookup_1 in Ho as [i Hi]. destruct (decide (i = t)) as [->|Hne].
    + rewrite list_lookup_insert_eq in Hi by (rewrite length_seq; lia). simplify_eq. lia.
    + rewrite list_lookup_insert_ne in Hi by done. apply lookup_seq in Hi as [-> ?]. lia.
  - apply elem_of_seq in Ho. lia.
Qed.

Lemma others_complete t o : t < n -> o < n -> o <> t -> o ∈ others n t.
Proof.
  intros Ht Ho Hne. unfold others. rewrite length_seq. case_decide as Hd.
  - destruct (decide (o = n - 1)) as [->|].
    + apply (list_elem_of_lookup_2 _ t). rewrite list_lookup_insert_eq; [done|]. rewrite length_seq. lia.
    + apply (list_elem_of_lookup_2 _ o). rewrite list_lookup_insert_ne by done. rewrite lookup_seq_lt by lia. f_equal; lia.
  - apply elem_of_seq. lia.
Qed.

(** ** Steps *)

Lemma ws_jobs_update s t c b ql qs h l l' :
  t < n -> gather n wq_jobs (wqueues s) ++ l ≡ₚ gather n wq_jobs qs ++ l' ->
  wpc_jobs (wpcs s t) ≡ₚ l -> wpc_jobs c ≡ₚ l' ->
  ws_jobs (MkWs b ql h qs (<[t := c]> (wpcs s))) ≡ₚ ws_jobs s.
Proof.
  intros Ht E El El'. unfold ws_jobs. simpl. symmetry. apply gather_insert; [done|].
  rewrite El, El', (Permutation_app_comm l), (Permutation_app_comm l'). done.
Qed.

Lemma ws_notified_ok s s' : ws_ok s -> ws_notified s s' ->
  ws_ok s' /\ ws_jobs s' ≡ₚ ws_jobs s /\ whalting s' = whalting s /\
  forall u, ws_doing s' u = ws_doing s u \/ (ws_doing s u = Asleep /\ ws_doing s' u = Running CDequeue).
Proof.
  intros Hok [(u & Hu & ->)|[_ ->]]; [|split_and!; auto].
  assert (Hlt : u < n) by (apply (ws_ok_lt s); [done|congruence]).
  split_and!; [|by apply (ws_jobs_update s u DeqBig _ _ _ _ [] []); [..|by rewrite Hu|]|done|].
  - apply (ws_ok_update s u DeqBig); [done|done|left; by rewrite Hu|left; by rewrite Hu|apply (so_queue s Hok)|done| |..]; try done.
    + intros _. apply (so_empty s Hok). by rewrite Hu.
    + by intros o []%not_elem_of_nil.
  - intros x. unfold ws_doing. simpl. destruct (decide (x = u)) as [->|]; fn_simpl; [|by left].
    rewrite Hu. by right.
Qed.

Lemma ws_halt_ok s t : ws_ok s -> t < n -> wpcs s t = HaltSet ->
  ws_ok (set_wpc t WIdle (ws_notify_all (MkWs None (qlocks s) true (wqueues s) (wpcs s)))).
Proof.
  intros [Hfar Hbig Hlock Hqueue Hempty Hoth Hscan Hhalt Hnull] Ht Hpc.
  assert (Hmt : big s = Some t) by (apply Hbig; by rewrite Hpc).
  assert (Hsame : forall u, u <> t -> holds_big (wpcs s u) = false).
  { intros u Hne. destruct (holds_big (wpcs s u)) eqn:E; [|done]. apply Hbig in E. congruence. }
  split; simpl; intros u.
  - intros Hu. rewrite fn_lookup_insert_ne by lia. by rewrite Hfar.
  - destruct (decide (u = t)) as [->|Hne]; fn_simpl; [done|]. specialize (Hsame u Hne).
    split; [done|]. by destruct (wpcs s u).
  - intros o. rewrite Hlock. destruct (decide (u = t)) as [->|]; fn_simpl; [by rewrite Hpc|]. by destruct (wpcs s u).
  - apply Hqueue.
  - destruct (decide (u = t)) as [->|]; fn_simpl; [done|]. specialize (Hempty u). by destruct (wpcs s u).
  - intros o. destruct (decide (u = t)) as [->|]; fn_simpl; [by intros []%not_elem_of_nil|].
    specialize (Hoth u o). destruct (wpcs s u); try done.
  - destruct (decide (u = t)) as [->|Hne]; fn_simpl; [done|]. specialize (Hsame u Hne). by destruct (wpcs s u).
  - intros _. destruct (decide (u = t)) as [->|]; fn_simpl; [done|]. by destruct (wpcs s u).
  - done.
Qed.

(** What a law asks of a step, given its parts. *)
Definition step_result s t (s' : ws J) : Prop :=
  ws_ok s' /\ ws_jobs s' ≡ₚ ws_jobs s /\ goes_on (ws_doing s t) (ws_doing s' t) (whalting s') /\
  (forall u, u <> t -> ws_doing s' u = ws_doing s u \/
     (ws_doing s u = Asleep /\ ws_doing s' u = Running CDequeue)) /\
  (whalting s = true -> whalting s' = true) /\
  (whalting s' = true -> whalting s = true \/ ws_doing s t = Running CHalt).

Lemma own_step s t c b ql qs :
  t < n -> ws_ok (MkWs b ql (whalting s) qs (<[t := c]> (wpcs s))) ->
  ws_jobs (MkWs b ql (whalting s) qs (<[t := c]> (wpcs s))) ≡ₚ ws_jobs s ->
  goes_on (ws_doing s t) (ws_doing (MkWs b ql (whalting s) qs (<[t := c]> (wpcs s))) t) (whalting s) ->
  step_result s t (MkWs b ql (whalting s) qs (<[t := c]> (wpcs s))).
Proof.
  intros Ht Hok Hj Hgo. split_and!; [done|done|done| |done|by left].
  intros u Hne. left. unfold ws_doing. simpl. by fn_simpl.
Qed.

Lemma gather_queue s t q l l' :
  t < n -> wq_jobs (wqueues s t) ++ l ≡ₚ wq_jobs q ++ l' ->
  gather n wq_jobs (wqueues s) ++ l ≡ₚ gather n wq_jobs (<[t := q]> (wqueues s)) ++ l'.
Proof. intros Ht E. by apply gather_insert. Qed.

Lemma queue_ok_insert (qs : nat -> wqueue J) t q :
  (forall u, wq_ok depth (qs u)) -> wq_ok depth q -> forall u, wq_ok depth (<[t := q]> qs u).
Proof. intros Hqs Hq u. destruct (decide (u = t)) as [->|]; by fn_simpl. Qed.

(** The doing of the stepping thread after its step. *)
Lemma doing_own s t c b ql h qs :
  ws_doing (MkWs b ql h qs (<[t := c]> (wpcs s))) t = ws_doing (MkWs b ql h qs (fun _ => c)) t.
Proof. unfold ws_doing. simpl. by rewrite fn_lookup_insert. Qed.

Lemma big_kept s t c ws0 : wpcs s t = ws0 -> holds_big c = holds_big ws0 -> big_moves s t c (big s).
Proof. intros <- E. by left. Qed.
Lemma big_taken s t c : big s = None -> holds_big c = true -> big_moves s t c (Some t).
Proof. intros. right. by left. Qed.
Lemma big_released s t c : ws_ok s -> holds_big (wpcs s t) = true -> holds_big c = false -> big_moves s t c None.
Proof. intros Hok Hh Hc. right; right. split_and!; [by apply so_big|done..]. Qed.
Lemma qlocks_kept s t c ws0 : wpcs s t = ws0 -> (forall o, holds_qlock t c o <-> holds_qlock t ws0 o) -> qlocks_move s t c (qlocks s).
Proof. intros <- E. by left. Qed.
Lemma qlock_taken s t c o ws0 : wpcs s t = ws0 -> qlocks s o = None -> (forall x, ~ holds_qlock t ws0 x) ->
  (forall x, holds_qlock t c x <-> x = o) -> qlocks_move s t c (<[o := Some t]> (qlocks s)).
Proof. intros <- H1 H2 H3. right; left. by exists o. Qed.
Lemma qlock_released s t c o ws0 : wpcs s t = ws0 -> (forall x, holds_qlock t ws0 x <-> x = o) ->
  (forall x, ~ holds_qlock t c x) -> qlocks_move s t c (<[o := None]> (qlocks s)).
Proof. intros <- H1 H2. right; right. by exists o. Qed.

(** Closes what is left of a step at a known place [Hpc]. *)
Ltac move_tac Hok Hpc :=
  first
    [ eapply big_kept; [exact Hpc|done]
    | apply big_taken; done
    | apply big_released; [exact Hok|by rewrite Hpc|done]
    | eapply qlocks_kept; [exact Hpc|done]
    | eapply qlock_taken; [exact Hpc|done|simpl; tauto|done]
    | eapply qlock_released; [exact Hpc|done|simpl; tauto]
    | apply (so_queue _ Hok)
    | by intros ? []%not_elem_of_nil
    | intros _; apply (so_empty _ Hok); by rewrite Hpc
    | intros ? ?; apply (so_others _ Hok); rewrite Hpc; assumption
    | done ].
Ltac doing_tac Hpc := unfold ws_doing, goes_on; simpl; rewrite Hpc, fn_lookup_insert; by eexists.

Lemma keep_jobs s t c : t < n -> wpc_jobs c = wpc_jobs (wpcs s t) ->
  forall b ql h, ws_jobs (MkWs b ql h (wqueues s) (<[t := c]> (wpcs s))) ≡ₚ ws_jobs s.
Proof. intros Ht E b ql h. by apply (ws_jobs_update s t c _ _ _ _ (wpc_jobs c) (wpc_jobs c)); [..|rewrite E|]. Qed.

(** Popping from one's own queue. *)
Lemma pop_step s t c res q b ql :
  ws_ok s -> t < n -> wqueues s t <> [] -> twq_pop (wqueues s t) = Some (res, q) ->
  wpc_jobs (wpcs s t) = [] -> c = WReturned (Some res) ->
  ws_doing s t = Running CDequeue -> big_moves s t c b -> qlocks_move s t c ql ->
  step_result s t (MkWs b ql (whalting s) (<[t := q]> (wqueues s)) (<[t := c]> (wpcs s))).
Proof.
  intros Hok Ht Hne Hpop Hno -> Hdo Hb Hl.
  destruct (twq_pop_spec depth (wqueues s t) (so_queue s Hok t) Hne) as (j & q' & E & Hq & Hj & _).
  rewrite Hpop in E. injection E as <- <-. apply own_step; [done|..].
  - apply ws_ok_update; try done.
    + apply queue_ok_insert; [apply (so_queue s Hok)|done].
    + intros u Hu E. by rewrite fn_lookup_insert_ne.
    + by intros o []%not_elem_of_nil.
  - apply (ws_jobs_update s t _ _ _ _ _ [] [res]); [done| |by rewrite Hno|done].
    apply gather_queue; [done|]. rewrite app_nil_r, Hj, Permutation_app_comm. done.
  - unfold goes_on. rewrite doing_own, Hdo. by exists CDequeue.
Qed.

Lemma steal_step s t other os mine oq res q :
  ws_ok s -> t < n -> wpcs s t = DeqSteal other os -> other <> t ->
  wq_steal (wqueues s t) (wqueues s other) = Some (true, mine, oq) -> twq_pop mine = Some (res, q) ->
  step_result s t (set_wpc t (WReturned (Some res)) (set_big None (set_qlock other None
      (set_wqueue t q (set_wqueue other oq s))))).
Proof.
  intros Hok Ht Hpc Hne Hsteal Hpop.
  assert (Hmine : wqueues s t = []) by (apply (so_empty s Hok); by rewrite Hpc). rewrite Hmine in Hsteal.
  destruct (wq_steal_spec depth (wqueues s other) (so_queue s Hok other)) as (b & mine' & oq' & E & Hsp).
  rewrite Hsteal in E. injection E as <- <- <-. destruct Hsp as (Hmok & Hook & Hmne & Hsj).
  destruct (twq_pop_spec depth mine Hmok Hmne) as (j & q' & E & Hq & Hj & _).
  rewrite Hpop in E. injection E as <- <-.
  assert (Ho : other < n) by (apply (so_others s Hok t); rewrite Hpc; by left).
  unfold set_wpc, set_big, set_qlock, set_wqueue. simpl. apply own_step; [done|..].
  - apply ws_ok_update; try done; try move_tac Hok Hpc.
    + apply queue_ok_insert; [|done]. apply queue_ok_insert; [apply (so_queue s Hok)|done].
    + intros u Hu E. rewrite fn_lookup_insert_ne by done. destruct (decide (u = other)) as [->|]; fn_simpl; [|done].
      exfalso. rewrite E in Hsteal. by vm_compute in Hsteal.
  - apply (ws_jobs_update s t _ _ _ _ _ [] [res]); [done| |by rewrite Hpc|done].
    rewrite (gather_queue s other oq [] (wq_jobs mine)); [|done|].
    + apply gather_insert; [done|]. rewrite fn_lookup_insert_ne, Hmine by done.
      change (wq_jobs []) with (@nil J). rewrite app_nil_l, Hj. apply Permutation_app_comm with (l := [res]).
    + rewrite app_nil_r, <-Hsj. apply Permutation_app_comm.
  - doing_tac Hpc.
Qed.

Ltac own_tac := unfold set_wpc, set_big, set_qlock, set_wqueue; cbn [big qlocks whalting wqueues wpcs].

Lemma ws_step_law t s s' : t < n -> ws_ok s -> wsq_step depth n t s s' -> step_result s t s'.
Proof.
  intros Ht Hok Hstep.
  destruct Hstep as [j Hpc Hl|j Hpc|s' Hpc Hnot|Hpc Hl|Hpc Hh|res q Hpc Hh Hne Hpop|Hpc Hh He|Hpc Hb|Hpc Hh
    |res q Hpc Hh Hne Hpop|os Hpc Hh He Hos|other os Hpc Hl|other os Hpc Hne Hst
    |other os mine oq res q Hpc Hne Hst Hm Hpop|Hpc|Hpc Hb|Hpc].
  - own_tac; apply own_step; [done|apply ws_ok_update; try done; move_tac Hok Hpc|apply keep_jobs; [done|by rewrite Hpc]|doing_tac Hpc].
  - destruct (wq_push_spec depth j (wqueues s t) (so_queue s Hok t)) as [Hq Hj].
    own_tac; apply own_step; [done| | |doing_tac Hpc].
    + apply ws_ok_update; try done; try move_tac Hok Hpc.
      * apply queue_ok_insert; [apply (so_queue s Hok)|done].
      * intros u Hu E. by rewrite fn_lookup_insert_ne.
    + apply (ws_jobs_update s t _ _ _ _ _ [j] []); [done| |by rewrite Hpc|done].
      apply gather_queue; [done|]. rewrite app_nil_r, Hj. apply Permutation_app_comm.
  - assert (H1 : step_result s t (set_wpc t WIdle (set_qlock t None s))).
    { own_tac; apply own_step; [done|apply ws_ok_update; try done; move_tac Hok Hpc|apply keep_jobs; [done|by rewrite Hpc]|].
      unfold ws_doing, goes_on; simpl; rewrite Hpc, fn_lookup_insert. eexists; split; [done|by left]. }
    destruct H1 as (Hok1 & Hj1 & Hgo1 & Hu1 & Hh1 & Hh1').
    destruct (ws_notified_ok _ _ Hok1 Hnot) as (Hok' & Hj & Hh & Hdo).
    split_and!; [done|by rewrite Hj| | |by rewrite Hh|by rewrite Hh].
    + rewrite Hh. destruct (Hdo t) as [->|[E _]]; [done|]. unfold ws_doing in E. simpl in E.
      by rewrite fn_lookup_insert in E.
    + intros u Hne. destruct (Hdo u) as [->|[E ?]]; [by apply Hu1|].
      destruct (Hu1 u Hne) as [E1|[_ E1]]; [right; by rewrite <-E1|congruence].
  - own_tac; apply own_step; [done|apply ws_ok_update; try done; move_tac Hok Hpc|apply keep_jobs; [done|by rewrite Hpc]|doing_tac Hpc].
  - own_tac; apply own_step; [done|apply ws_ok_update; try done; move_tac Hok Hpc|apply keep_jobs; [done|by rewrite Hpc]|doing_tac Hpc].
  - own_tac; apply pop_step with (res := res); [done|done|done|done|by rewrite Hpc|done|unfold ws_doing; by rewrite Hpc|move_tac Hok Hpc|move_tac Hok Hpc].
  - own_tac; apply own_step; [done|apply ws_ok_update; try done; move_tac Hok Hpc|apply keep_jobs; [done|by rewrite Hpc]|doing_tac Hpc].
  - own_tac; apply own_step; [done|apply ws_ok_update; try done; move_tac Hok Hpc|apply keep_jobs; [done|by rewrite Hpc]|doing_tac Hpc].
  - own_tac; apply own_step; [done|apply ws_ok_update; try done; move_tac Hok Hpc|apply keep_jobs; [done|by rewrite Hpc]|doing_tac Hpc].
  - own_tac; apply pop_step with (res := res); [done|done|done|done|by rewrite Hpc|done|unfold ws_doing; by rewrite Hpc|move_tac Hok Hpc|move_tac Hok Hpc].
  - own_tac; apply own_step; [done| |apply keep_jobs; [done|by rewrite Hpc]|doing_tac Hpc].
    apply ws_ok_update; try done; try move_tac Hok Hpc.
    intros o Ho. simpl in Ho. rewrite Hos in Ho. by apply others_spec.
  - own_tac; apply own_step; [done| |apply keep_jobs; [done|by rewrite Hpc]|doing_tac Hpc].
    apply ws_ok_update; try done; try move_tac Hok Hpc. intros _. apply (so_scan s Hok t). by rewrite Hpc.
  - own_tac; apply own_step; [done| |apply keep_jobs; [done|by rewrite Hpc]|doing_tac Hpc].
    apply ws_ok_update; try done; try move_tac Hok Hpc.
    + intros o Ho. apply (so_others s Hok). rewrite Hpc. by right.
    + intros _. apply (so_scan s Hok t). by rewrite Hpc.
  - by eapply steal_step.
  - own_tac; apply own_step; [done| |apply keep_jobs; [done|by rewrite Hpc]|doing_tac Hpc].
    apply ws_ok_update; try done; try move_tac Hok Hpc. intros _. apply (so_scan s Hok t). by rewrite Hpc.
  - own_tac; apply own_step; [done|apply ws_ok_update; try done; move_tac Hok Hpc|apply keep_jobs; [done|by rewrite Hpc]|doing_tac Hpc].
  - split_and!; [by apply ws_halt_ok| | | |done|right; unfold ws_doing; by rewrite Hpc].
    + unfold ws_jobs. simpl. f_equiv. rewrite <-(gather_keep n wpc_jobs (wpcs s) t WIdle) by (done || by rewrite Hpc).
      erewrite gather_ext; [done|]. intros u _. simpl.
      destruct (decide (u = t)) as [->|]; fn_simpl; [done|]. by destruct (wpcs s u).
    + unfold ws_doing, goes_on. simpl. rewrite Hpc, fn_lookup_insert. eexists; split; [done|by right].
    + intros u Hne. unfold ws_doing. simpl. fn_simpl. destruct (wpcs s u); simpl; auto.
Qed.

(** ** Progress *)

#[local] Instance wsleep_dec c : Decision (c = DeqSleep).
Proof. destruct c; (by left) || by right. Defined.

Definition can_step s : Prop := exists u s', u < n /\ wsq_step depth n u s s'.

(** The holder of a queue's lock can go on. *)
Lemma qlock_holder s u o : ws_ok s -> qlocks s o = Some u -> can_step s.
Proof.
  intros Hok Hl%(so_lock s Hok).
  assert (Hu : u < n) by (apply (ws_ok_lt s); [done|by intros E; rewrite E in Hl]).
  destruct (wpcs s u) eqn:Eu; simpl in Hl; try done.
  - eexists u, _. split; [done|by eapply ws_enq_push].
  - set (s1 := set_wpc u WIdle (set_qlock u None s)).
    assert (H : exists s', ws_notified s1 s').
    { destruct (some_thread n (fun x => wpcs s1 x = DeqSleep)) as [[x Hx]|Hno].
      - intros x Hx. destruct (decide (x < n)); [done|].
        unfold s1 in Hx. simpl in Hx. rewrite fn_lookup_insert_ne, (so_far s Hok) in Hx by lia. done.
      - eexists. left. by exists x.
      - exists s1. by right. }
    destruct H as [s' Hs']. exists u, s'. split; [done|by eapply ws_enq_notify].
  - destruct (whalting s) eqn:Eh; [eexists u, _; split; [done|by eapply ws_deq_halting]|].
    destruct (wqueues s u) as [|p q] eqn:Eq; [eexists u, _; split; [done|by eapply ws_deq_none]|].
    destruct (twq_pop_spec depth (wqueues s u) (so_queue s Hok u)) as (j & q' & E & _); [by rewrite Eq|].
    eexists u, _. split; [done|]. eapply ws_deq_own; [done..|by rewrite Eq|done].
  - destruct (so_others s Hok u other) as [Ho Hne]; [rewrite Eu; by left|].
    assert (Hmine : wqueues s u = []) by (apply (so_empty s Hok); by rewrite Eu).
    destruct (wq_steal_spec depth (wqueues s other) (so_queue s Hok other)) as ([] & mine & oq & E & Hsp).
    + destruct Hsp as (Hm & _ & Hmne & _). destruct (twq_pop_spec depth mine Hm Hmne) as (j & q & Ep & _).
      eexists u, _. split; [done|]. eapply ws_steal_pop; [done|done|by rewrite Hmine|done|done].
    + destruct Hsp as (-> & -> & Eo). eexists u, _. split; [done|].
      eapply ws_steal_fail; [done|done|by rewrite Hmine].
Qed.

(** So can the holder of the big lock, or the one that holds the queue it wants. *)
Lemma big_holder s u : ws_ok s -> big s = Some u -> can_step s.
Proof.
  intros Hok Hb%(so_big s Hok).
  assert (Hu : u < n) by (apply (ws_ok_lt s); [done|by intros E; rewrite E in Hb]).
  destruct (wpcs s u) eqn:Eu; simpl in Hb; try done.
  - destruct (whalting s) eqn:Eh; [eexists u, _; split; [done|by eapply ws_loop_halting]|].
    assert (Hmine : wqueues s u = []) by (apply (so_empty s Hok); by rewrite Eu).
    eexists u, _. split; [done|]. by eapply ws_loop_scan.
  - destruct os as [|o os]; [eexists u, _; split; [done|by eapply ws_scan_end]|].
    destruct (qlocks s o) as [v|] eqn:El; [by eapply qlock_holder|].
    eexists u, _. split; [done|by eapply ws_scan_other].
  - apply (qlock_holder s u other Hok). apply (so_lock s Hok). by rewrite Eu.
  - eexists u, _. split; [done|by eapply ws_halt_set].
Qed.

Lemma ws_progress t s k : ws_ok s -> t < n -> ws_doing s t = Running k -> can_step s.
Proof.
  intros Hok Ht Hrun. unfold ws_doing in Hrun.
  assert (Hown : forall o, holds_qlock t (wpcs s t) o -> can_step s).
  { intros o Ho. apply (qlock_holder s t o Hok). by apply (so_lock s Hok). }
  assert (Hbig : holds_big (wpcs s t) = true -> can_step s).
  { intros Hb. apply (big_holder s t Hok). by apply (so_big s Hok). }
  destruct (wpcs s t) eqn:Et; try done; try (by apply Hbig); try (by apply (Hown t)).
  - destruct (qlocks s t) as [u|] eqn:El; [by eapply qlock_holder|]. eexists t, _. split; [done|by eapply ws_enq_lock].
  - destruct (qlocks s t) as [u|] eqn:El; [by eapply qlock_holder|]. eexists t, _. split; [done|by eapply ws_deq_lock].
  - destruct (big s) as [u|] eqn:El; [by eapply big_holder|]. eexists t, _. split; [done|by eapply ws_deq_big].
  - destruct (big s) as [u|] eqn:El; [by eapply big_holder|]. eexists t, _. split; [done|by eapply ws_halt_lock].
Qed.

(** Changing only one's own place, outside of all locks. *)
Lemma ws_own_law s t c l :
  t < n -> ws_ok s -> holds_big c = false -> holds_big (wpcs s t) = false ->
  (forall o, ~ holds_qlock t c o) -> (forall o, ~ holds_qlock t (wpcs s t) o) ->
  (looked c = true -> looked (wpcs s t) = true) -> to_scan c = [] -> scanning c = false ->
  c <> DeqSleep -> c <> WReturned None -> wpc_jobs c ≡ₚ l ++ wpc_jobs (wpcs s t) ->
  ws_ok (set_wpc t c s) /\ ws_jobs (set_wpc t c s) ≡ₚ l ++ ws_jobs s /\
  forall u, u <> t -> ws_doing (set_wpc t c s) u = ws_doing s u.
Proof.
  intros Ht Hok Hb Hb' Hl Hl' Hlook Hsc Hscan Hsl Hret Hj. split_and!.
  - unfold set_wpc. apply ws_ok_update; try done.
    + left. by rewrite Hb, Hb'.
    + left. split; [done|]. intros o. specialize (Hl o). specialize (Hl' o). tauto.
    + apply (so_queue s Hok).
    + intros Hc. apply (so_empty s Hok). auto.
    + rewrite Hsc. by intros o []%not_elem_of_nil.
    + by rewrite Hscan.
  - unfold ws_jobs. simpl. rewrite app_assoc. f_equiv. rewrite (Permutation_app_comm l).
    rewrite <-(app_nil_r (gather n wpc_jobs (<[t:=c]> _))). symmetry. apply gather_insert; [done|].
    rewrite Hj, app_nil_r. apply Permutation_app_comm.
  - intros u Hne. unfold ws_doing. simpl. by fn_simpl.
Qed.

Lemma ws_init_ok root : 0 < n -> ws_ok (ws_init depth root) /\ ws_jobs (ws_init depth root) ≡ₚ [root].
Proof.
  intros Hn. destruct (wq_push_spec depth root []) as [Hq Hj].
  { split; [by constructor|]. by intros p []%not_elem_of_nil. }
  split.
  - split; simpl; try done; intros t.
    + apply queue_ok_insert; [|done]. intros u. split; [constructor|]. by intros p []%not_elem_of_nil.
    + by intros o []%not_elem_of_nil.
  - unfold ws_jobs. simpl. rewrite gather_nil by done. simpl.
    rewrite <-(app_nil_r (gather _ _ _)). rewrite <-(gather_insert n wq_jobs (fun _ => []) 0 _ [root] []) by done || (rewrite Hj; done).
    by rewrite gather_nil.
Qed.

Definition ws_laws (Hn : 0 < n) : SchedulerLaws (S := ws J) (H := ws_scheduler depth n) n.
Proof.
  refine {| sched_inv := (ws_ok : ws J -> Prop); jobs := (ws_jobs : ws J -> list J) |}; simpl.
  - intros root. destruct (ws_init_ok root Hn). done.
  - intros t c s Ht Hok Hout. unfold ws_enter. unfold ws_doing in Hout. destruct (wpcs s t) eqn:Et; try done.
    destruct (ws_own_law s t (match c with Enqueue j => EnqLock j | Dequeue => DeqLock | Halt => HaltLock end)
      (call_jobs c)) as (? & ? & ?); try done; try (rewrite Et; done); try (by destruct c).
    { intros o. by destruct c; intros []. }
    { intros o. rewrite Et. by intros []. }
    { rewrite Et. by destruct c. }
    split_and!; [done|done| |done|done]. unfold ws_doing. simpl. rewrite fn_lookup_insert. by destruct c.
  - intros t s r Ht Hok Hret. unfold ws_doing in Hret. destruct (wpcs s t) eqn:Et; try done. simplify_eq.
    assert (Hj : ws_jobs s ≡ₚ option_list r ++ ws_jobs (set_wpc t WIdle s)).
    { unfold ws_jobs. simpl. rewrite app_assoc. f_equiv. rewrite (Permutation_app_comm (option_list r)).
      rewrite <-(app_nil_r (gather n wpc_jobs (wpcs s))). apply gather_insert; [done|].
      rewrite Et, app_nil_r. simpl. by destruct r. }
    split_and!; [|done| | |done|].
    + apply ws_ok_update; try done; try (move_tac Hok Et).
    + unfold ws_doing. simpl. by rewrite fn_lookup_insert.
    + intros u Hne. unfold ws_doing. simpl. by fn_simpl.
    + intros ->. by apply (so_null s Hok t).
  - intros t s s'. apply ws_step_law.
  - intros t s Ht Hok Hsl. unfold ws_wake. unfold ws_doing in Hsl. destruct (wpcs s t) eqn:Et; try done.
    destruct (ws_own_law s t DeqBig []) as (? & ? & ?); try done; try (rewrite Et; done); try (by rewrite Et; simpl; tauto).
    { by intros o []. }
    split_and!; [done|done| |done|done]. unfold ws_doing. simpl. by rewrite fn_lookup_insert.
  - intros t s Hok Hh E. apply (so_halted s Hok t Hh). unfold ws_doing in E. by destruct (wpcs s t).
  - intros t s k Hok Ht Hrun. by apply (ws_progress t s k).
  - intros s Hok _ Hall. unfold ws_jobs.
    assert (Hsl : forall t, t < n -> wpcs s t = DeqSleep).
    { intros t Ht. specialize (Hall t Ht). unfold ws_doing in Hall. by destruct (wpcs s t). }
    rewrite !gather_nil; [done|intros t Ht|intros t Ht; by rewrite Hsl].
    by rewrite (so_empty s Hok t) by (by rewrite Hsl).
Defined.

(** ** No races *)

(** Two threads do not use one queue at the same time, though one's own queue is
    used without its lock under the big lock. *)
Lemma queues_exclusive s t u o : ws_ok s -> t <> u -> touches s t o -> ~ touches s u o.
Proof.
  intros Hok Hne Ht Hu. unfold touches in *.
  assert (Hlock : forall a b x, a <> b -> holds_qlock a (wpcs s a) x -> holds_qlock b (wpcs s b) x -> False).
  { intros a b x Hab Ha%(so_lock s Hok) Hb%(so_lock s Hok). congruence. }
  assert (Hbig : forall a b, a <> b -> holds_big (wpcs s a) = true -> holds_big (wpcs s b) = true -> False).
  { intros a b Hab Ha%(so_big s Hok) Hb%(so_big s Hok). congruence. }
  pose proof (Hlock t u) as Hl. pose proof (Hbig t u Hne) as Hb.
  pose proof (so_others s Hok t) as Hot. pose proof (so_others s Hok u) as Hou.
  destruct (wpcs s t) eqn:Et; try done; destruct (wpcs s u) eqn:Eu; try done; simpl in *;
    repeat match goal with H : _ \/ _ |- _ => destruct H end; subst; try done; try (by apply Hb);
    try (by eapply (Hl _ Hne)).
Qed.
End work_stealing.
