(* ===== verification/SchedSpec.v ===== *)
(** * SchedSpec: the parallel exploration runs every job and ends

    Against the contract of a scheduler: the exploration is never stuck before it
    is over, unless a pruned node was dropped; and when all threads have returned
    without an error, every node created was executed, once. A pruned node is
    dropped without being counted as done: the threads then sleep for ever. *)

From stdpp Require Import functions.
From S2P Require Import Prelude.
From S2P Require Import StdMap.
From S2P Require Import Sched.
From S2P Require Import SchedLaws.
From S2P Require Import SchedSteal.

Section driver.
Context {J S : Type} {Hs : Scheduler J S} (n : nat) {Hlaws : SchedulerLaws n}.
Implicit Types d : driver (J := J) (S := S).

Definition dpc_jobs (c : dpc (J := J)) : list J :=
  match c with DWork j | DEnqueue j => [j] | _ => [] end.
Definition working d : list J := gather n dpc_jobs (dpcs d).

(** Where a thread is in the scheduler, by its place in the driver. *)
Definition placed_at (c : dpc (J := J)) (a : activity J) (h : bool) : Prop :=
  match c with
  | DReset | DWork _ | DDone => a = Outside
  | DDequeue => a = Running CDequeue \/ a = Asleep \/ exists r, a = Returned r
  | DEnqueue _ => a = Running CEnqueue \/ a = Outside
  | DHalt => a = Running CHalt \/ (a = Outside /\ h = true)
  end.

Definition halting_thread d : Prop := exists t, t < n /\ dpcs d t = DHalt.

Record driver_ok d : Prop := {
  dv_inv : sched_inv (sched d);
  dv_place t : t < n -> placed_at (dpcs d t) (doing (sched d) t) (halted (sched d));
  dv_count : outstanding_jobs d + length (executed d) = length (created d);
  dv_created : created d ≡ₚ jobs (sched d) ++ working d ++ executed d ++ dropped d;
  dv_zero : outstanding_jobs d = 0 -> halted (sched d) = true \/ halting_thread d;
  dv_why : halted (sched d) = true \/ halting_thread d -> error_found d = true \/ outstanding_jobs d = 0;
  dv_mutex t : t < n -> state_mutex d = Some t <-> dpcs d t = DHalt;
  dv_holder t : state_mutex d = Some t -> t < n;
  dv_done t : t < n -> dpcs d t = DDone -> halted (sched d) = true;
}.

Lemma outstanding_length d : driver_ok d ->
  outstanding_jobs d = length (jobs (sched d)) + length (working d) + length (dropped d).
Proof.
  intros Hok. pose proof (dv_count d Hok) as Hc. rewrite (dv_created d Hok), !length_app in Hc. lia.
Qed.

Lemma working_count d t j : t < n -> dpc_jobs (dpcs d t) = [j] -> 0 < length (working d).
Proof.
  intros Ht E. destruct (gather_split n dpc_jobs (dpcs d) t Ht) as [rest Hr].
  unfold working. rewrite (gather_self n dpc_jobs (dpcs d) t Ht), Hr, E. simpl. lia.
Qed.

Lemma job_outstanding d t node : driver_ok d -> t < n -> dpcs d t = DWork node -> 0 < outstanding_jobs d.
Proof.
  intros Hok Ht Hpc. rewrite (outstanding_length d Hok).
  pose proof (working_count d t node Ht) as Hw. rewrite Hpc in Hw. specialize (Hw eq_refl). lia.
Qed.

(** A change of one's own place in the driver and in the scheduler. *)
Lemma place_update d t c s :
  t < n -> driver_ok d -> placed_at c (doing s t) (halted s) ->
  (forall u, u <> t -> doing s u = doing (sched d) u) -> halted s = halted (sched d) ->
  forall u, u < n -> placed_at (<[t := c]> (dpcs d) u) (doing s u) (halted s).
Proof.
  intros Ht Hok Hc Hu Hh u Hlt. destruct (decide (u = t)) as [->|Hne]; fn_simpl; [done|].
  rewrite (Hu u Hne), Hh. by apply (dv_place d Hok).
Qed.

(** A step from one place to another that does not touch halting. *)
Lemma driver_ok_update d t c s out ex cr dr :
  t < n -> driver_ok d -> dpcs d t <> DHalt -> c <> DHalt -> sched_inv s ->
  placed_at c (doing s t) (halted s) ->
  (forall u, u <> t -> doing s u = doing (sched d) u) -> halted s = halted (sched d) ->
  out + length ex = length cr ->
  cr ≡ₚ jobs s ++ gather n dpc_jobs (<[t := c]> (dpcs d)) ++ ex ++ dr ->
  (out = 0 <-> outstanding_jobs d = 0) -> (c = DDone -> halted s = true) ->
  driver_ok (MkDriver s (<[t := c]> (dpcs d)) out (state_mutex d) (error_found d) cr ex dr).
Proof.
  intros Ht Hok Hpc Hc Hinv Hpl Hu Hh Hcount Hcr Hout Hdone.
  assert (Hhalt : (exists u, u < n /\ <[t := c]> (dpcs d) u = DHalt) <-> halting_thread d).
  { split; intros (u & Hlt & E); exists u; (split; [done|]); destruct (decide (u = t)) as [->|]; fn_simpl; try done.
    - by rewrite fn_lookup_insert in E.
    - by rewrite fn_lookup_insert_ne in E. }
  split; simpl; try done.
  - by apply place_update.
  - intros E. destruct (dv_zero d Hok); [by apply Hout|left; congruence|right; by apply Hhalt].
  - intros [E|E]; [rewrite Hout; apply (dv_why d Hok); left; congruence|].
    rewrite Hout. apply (dv_why d Hok). right. by apply Hhalt.
  - intros u Hlt. rewrite (dv_mutex d Hok u Hlt). destruct (decide (u = t)) as [->|]; by fn_simpl.
  - apply (dv_holder d Hok).
  - intros u Hlt. destruct (decide (u = t)) as [->|]; fn_simpl; [done|]. rewrite Hh. by apply (dv_done d Hok).
Qed.

Lemma sched_step_ok d t s : t < n -> driver_ok d -> sched_step t (sched d) s -> driver_ok (set_sched s d).
Proof.
  intros Ht Hok Hstep. destruct (law_step t (sched d) s Ht (dv_inv d Hok) Hstep) as (Hinv & Hj & Hgo & Hu & Hh & Hh').
  pose proof (dv_place d Hok t Ht) as Hpt.
  assert (Hhalting : halted s = true -> halted (sched d) = true \/ halting_thread d).
  { intros [?|Hr]%Hh'; [by left|right]. exists t. split; [done|]. rewrite Hr in Hpt.
    destruct (dpcs d t); simpl in Hpt; naive_solver. }
  split; simpl; try apply Hok; try done.
  - intros u Hlt. destruct (decide (u = t)) as [->|Hne].
    + destruct Hgo as (k & Ek & Hk). rewrite Ek in Hpt.
      destruct (dpcs d t), (doing s t); simpl in Hpt |- *; naive_solver.
    + pose proof (dv_place d Hok u Hlt) as Hpu. destruct (Hu u Hne) as [->|[E ->]].
      * destruct (dpcs d u); simpl in *; naive_solver.
      * rewrite E in Hpu. destruct (dpcs d u); simpl in *; naive_solver.
  - rewrite Hj. apply Hok.
  - intros E. destruct (dv_zero d Hok E) as [?|?]; [left; auto|by right].
  - intros [[?|?]%Hhalting|?]; apply (dv_why d Hok); auto.
  - intros u Hlt Hd. by apply Hh, (dv_done d Hok u).
Qed.

Lemma working_move d t c l : t < n -> dpc_jobs (dpcs d t) ++ l ≡ₚ dpc_jobs c ->
  working d ++ l ≡ₚ gather n dpc_jobs (<[t := c]> (dpcs d)).
Proof. intros Ht E. rewrite <-(app_nil_r (gather n dpc_jobs (<[t := c]> _))). apply gather_insert; [done|]. by rewrite app_nil_r. Qed.

Lemma working_same d t c : t < n -> dpc_jobs (dpcs d t) ≡ₚ dpc_jobs c ->
  gather n dpc_jobs (<[t := c]> (dpcs d)) ≡ₚ working d.
Proof. intros Ht E. by apply gather_keep. Qed.

Lemma working_done d t c j : t < n -> dpc_jobs (dpcs d t) = [j] -> dpc_jobs c = [] ->
  working d ≡ₚ j :: gather n dpc_jobs (<[t := c]> (dpcs d)).
Proof.
  intros Ht E Ec. rewrite <-(app_nil_r (working d)).
  rewrite (gather_insert n dpc_jobs (dpcs d) t c [] [j]); [apply Permutation_app_comm|done|]. by rewrite E, Ec.
Qed.

(** The end of a job that halts: the thread goes to [DHalt] with the mutex. *)
Lemma halt_ok d t node e : t < n -> driver_ok d -> dpcs d t = DWork node -> state_mutex d = None ->
  (e = true \/ outstanding_jobs d = 1) ->
  driver_ok (MkDriver (enter t Halt (sched d)) (<[t := DHalt]> (dpcs d)) (outstanding_jobs d - 1)
    (Some t) (error_found d || e) (created d) (node :: executed d) (dropped d)).
Proof.
  intros Ht Hok Hpc Hm He. pose proof (dv_place d Hok t Ht) as Hpt. rewrite Hpc in Hpt. simpl in Hpt.
  destruct (law_enter t Halt (sched d) Ht (dv_inv d Hok) Hpt) as (Hinv & Hj & Hd & Hu & Hh).
  pose proof (job_outstanding d t node Hok Ht Hpc) as Hpos.
  split; simpl; try done.
  - apply place_update; try done. by left.
  - pose proof (dv_count d Hok). lia.
  - unfold working at 1. simpl. rewrite Hj, (dv_created d Hok), (working_done d t DHalt node) by (done || by rewrite Hpc).
    simpl. by rewrite Permutation_middle.
  - intros _. right. exists t. split; [done|]. simpl. by rewrite fn_lookup_insert.
  - intros _. destruct He as [->|E]; [left; apply orb_true_r|right; lia].
  - intros u Hlt. destruct (decide (u = t)) as [->|Hne]; fn_simpl; [done|].
    rewrite <-(dv_mutex d Hok u Hlt), Hm. split; [intros [= ->]; done|done].
  - by intros u [= <-].
  - intros u Hlt. destruct (decide (u = t)) as [->|]; fn_simpl; [done|]. rewrite Hh. by apply (dv_done d Hok).
Qed.

Lemma halted_ok d t : t < n -> driver_ok d -> dpcs d t = DHalt -> doing (sched d) t = Outside ->
  driver_ok (MkDriver (sched d) (<[t := DReset]> (dpcs d)) (outstanding_jobs d) None (error_found d)
    (created d) (executed d) (dropped d)).
Proof.
  intros Ht Hok Hpc Hout. pose proof (dv_place d Hok t Ht) as Hpt. rewrite Hpc, Hout in Hpt.
  destruct Hpt as [?|[_ Hh]]; [done|].
  assert (Hmt : state_mutex d = Some t) by (by apply (dv_mutex d Hok)).
  split; simpl; try apply Hok; try done.
  - by apply place_update.
  - unfold working at 1. simpl. rewrite (working_same d t DReset) by (done || by rewrite Hpc). apply Hok.
  - intros _. by left.
  - intros _. apply (dv_why d Hok). by left.
  - intros u Hlt. destruct (decide (u = t)) as [->|Hne]; fn_simpl; [done|]. split; [done|].
    intros Hd%(dv_mutex d Hok u Hlt). congruence.
Qed.

Lemma driver_step_ok d t d' : t < n -> driver_ok d -> driver_step t d d' -> driver_ok d'.
Proof.
  intros Ht Hok Hstep. pose proof (dv_place d Hok t Ht) as Hpt. pose proof (dv_inv d Hok) as Hinv.
  pose proof (dv_created d Hok) as Hcr. pose proof (dv_count d Hok) as Hcount.
  destruct Hstep as [s Hst|Hpc|node Hpc Hret|node Hpc Hret|Hpc Hret|node sib Hpc|node Hpc Hout|node Hpc Hm Hne|node Hpc Hm H1|node Hpc Hm|Hpc Hout];
    try (rewrite Hpc in Hpt; simpl in Hpt).
  - by eapply sched_step_ok.
  - destruct (law_enter t Dequeue (sched d) Ht Hinv Hpt) as (? & Hj & Hd & Hu & Hh).
    apply (driver_ok_update d t); simpl; try done; [by rewrite Hpc|by left|].
    rewrite Hj, working_same by (done || by rewrite Hpc). done.
  - destruct (law_leave t (sched d) (Some node) Ht Hinv Hret) as (? & Hj & Hd & Hu & Hh & _).
    apply (driver_ok_update d t); simpl; try done; [by rewrite Hpc|].
    rewrite <-(working_move d t (DWork node) [node]) by (done || by rewrite Hpc).
    rewrite Hcr, Hj. simpl. rewrite <-app_assoc. simpl. by rewrite !Permutation_middle.
  - destruct (law_leave t (sched d) (Some node) Ht Hinv Hret) as (? & Hj & Hd & Hu & Hh & _).
    apply (driver_ok_update d t); simpl; try done; [by rewrite Hpc|].
    rewrite working_same by (done || by rewrite Hpc). rewrite Hcr, Hj. simpl. by rewrite !Permutation_middle.
  - destruct (law_leave t (sched d) None Ht Hinv Hret) as (? & Hj & Hd & Hu & Hh & Hn).
    apply (driver_ok_update d t); simpl; try done; [by rewrite Hpc| |intros _; rewrite Hh; auto].
    rewrite working_same by (done || by rewrite Hpc). by rewrite Hcr, Hj.
  - destruct (law_enter t (Enqueue sib) (sched d) Ht Hinv Hpt) as (? & Hj & Hd & Hu & Hh).
    pose proof (job_outstanding d t node Hok Ht Hpc) as Hpos.
    apply (driver_ok_update d t); simpl; try done; [by rewrite Hpc|by left|simpl; lia| |lia].
    rewrite Hj, working_same by (done || by rewrite Hpc). simpl. by rewrite Hcr.
  - apply (driver_ok_update d t); simpl; try done; [by rewrite Hpc|]. by rewrite working_same by (done || by rewrite Hpc).
  - pose proof (job_outstanding d t node Hok Ht Hpc) as Hpos.
    apply (driver_ok_update d t); simpl; try done; [by rewrite Hpc|simpl; lia| |lia].
    rewrite Hcr, (working_done d t DReset node) by (done || by rewrite Hpc). simpl. by rewrite Permutation_middle.
  - pose proof (halt_ok d t node false Ht Hok Hpc Hm (or_intror H1)) as H.
    rewrite H1, orb_false_r in H. exact H.
  - pose proof (halt_ok d t node true Ht Hok Hpc Hm (or_introl eq_refl)) as H.
    rewrite orb_true_r in H. exact H.
  - exact (halted_ok d t Ht Hok Hpc Hout).
Qed.

Lemma driver_wake_ok d t d' : t < n -> driver_ok d -> driver_wake t d d' -> driver_ok d'.
Proof.
  intros Ht Hok [Hsl ->]. destruct (law_wake t (sched d) Ht (dv_inv d Hok) Hsl) as (Hinv & Hj & Hd & Hu & Hh).
  pose proof (dv_place d Hok t Ht) as Hpt. rewrite Hsl in Hpt.
  split; simpl; rewrite ?Hh; try apply Hok; try done.
  - intros u Hlt. destruct (decide (u = t)) as [->|Hne].
    + rewrite Hd. destruct (dpcs d t); simpl in *; naive_solver.
    + rewrite (Hu u Hne). by apply (dv_place d Hok).
  - rewrite Hj. apply Hok.
Qed.

Lemma driver_init_ok root : driver_ok (driver_init root).
Proof.
  destruct (law_init root) as (Hinv & Hj & Hd & Hh). split; simpl; try done.
  - rewrite Hj. unfold working. by rewrite gather_nil.
  - intros [E|(t & _ & E)]; [congruence|done].
Qed.

Lemma explores_ok root d : explores n root d -> driver_ok d.
Proof.
  apply (rtc_ind_r driver_ok); [apply driver_init_ok|].
  intros d1 d2 _ (t & Ht & [?|?]) Hok; [by eapply driver_step_ok|by eapply driver_wake_ok].
Qed.

(** ** Progress *)

(** A step that is not a spurious wake-up and needs no new job and no error. *)
Definition moves d t : Prop :=
  exists d', driver_step t d d' /\ created d' = created d /\ error_found d' = error_found d.

Lemma all_or_one (A : Prop) (P : nat -> Prop) k : (forall t, t < k -> A \/ P t) -> A \/ forall t, t < k -> P t.
Proof.
  induction k as [|k IH]; intros H; [right; lia|]. destruct (H k) as [?|Hk]; [lia|by left|].
  destruct IH as [?|Hall]; [by auto with lia|by left|].
  right. intros t Ht. destruct (decide (t = k)) as [->|]; [done|]. apply Hall. lia.
Qed.

Definition somebody_moves d : Prop := exists t, t < n /\ moves d t.

Ltac moves_by step := eexists; split; [eassumption|]; eexists; split; [by step|done].

Lemma stuck_or_waiting d t : driver_ok d -> t < n ->
  somebody_moves d \/ dpcs d t = DDone \/ (dpcs d t = DDequeue /\ doing (sched d) t = Asleep) \/
  (exists node, dpcs d t = DWork node /\ state_mutex d <> None).
Proof.
  intros Hok Ht. pose proof (dv_place d Hok t Ht) as Hp.
  assert (Hrun : forall k, doing (sched d) t = Running k -> somebody_moves d).
  { intros k E. destruct (law_progress t (sched d) k (dv_inv d Hok) Ht E) as (u & s' & Hu & Hst).
    moves_by ltac:(eapply d_sched). }
  destruct (dpcs d t) eqn:Et; simpl in Hp.
  - left. moves_by ltac:(apply d_reset).
  - destruct Hp as [?|[?|[[node|] Hr]]]; [by eauto|by auto| |].
    + left. moves_by ltac:(eapply d_got).
    + left. moves_by ltac:(eapply d_null).
  - destruct (state_mutex d) eqn:Em; [right; right; right; by eexists|].
    left. destruct (decide (outstanding_jobs d = 1)); [moves_by ltac:(eapply d_halt_done)|moves_by ltac:(eapply d_finish)].
  - left. destruct Hp as [?|?]; [by eauto|]. moves_by ltac:(eapply d_enqueued).
  - left. destruct Hp as [?|[? _]]; [by eauto|]. moves_by ltac:(apply d_halted).
  - auto.
Qed.

Lemma stuck_or_asleep d t : driver_ok d -> t < n ->
  somebody_moves d \/ dpcs d t = DDone \/ (dpcs d t = DDequeue /\ doing (sched d) t = Asleep).
Proof.
  intros Hok Ht. destruct (stuck_or_waiting d t Hok Ht) as [?|[?|[?|(node & _ & Hm)]]]; [by auto..|].
  destruct (state_mutex d) as [u|] eqn:Em; [|done].
  pose proof (dv_holder d Hok u Em) as Hu. apply (dv_mutex d Hok u Hu) in Em.
  destruct (stuck_or_waiting d u Hok Hu) as [?|[?|[[? _]|(? & ? & _)]]]; [by left|congruence..].
Qed.

Lemma asleep_drops d : driver_ok d -> 0 < n ->
  (forall t, t < n -> dpcs d t = DDequeue /\ doing (sched d) t = Asleep) -> dropped d <> [].
Proof.
  intros Hok Hn Hall Hdrop.
  assert (Hz : outstanding_jobs d = 0).
  { rewrite (outstanding_length d Hok), Hdrop. unfold working.
    rewrite gather_nil by (intros t Ht; destruct (Hall t Ht) as [-> _]; done).
    assert (Hj : jobs (sched d) = []); [|by rewrite Hj].
    apply law_asleep; [apply Hok|done|]. intros t Ht. by apply Hall. }
  destruct (dv_zero d Hok Hz) as [Hh|(t & Ht & E)].
  - eapply law_halted; [apply Hok|done|]. by apply (Hall 0).
  - destruct (Hall t Ht). congruence.
Qed.

Lemma never_stuck d : driver_ok d -> 0 < n -> dropped d = [] ->
  (forall t, t < n -> dpcs d t = DDone) \/ somebody_moves d.
Proof.
  intros Hok Hn Hdrop.
  destruct (all_or_one _ _ n (fun t => stuck_or_asleep d t Hok)) as [?|Hall]; [by right|].
  destruct (all_or_one (exists t, t < n /\ dpcs d t = DDone)
    (fun t => dpcs d t = DDequeue /\ doing (sched d) t = Asleep) n) as [(u & Hu & E)|Hsleep].
  - intros t Ht. destruct (Hall t Ht) as [?|?]; [left; by exists t|by right].
  - left. intros t Ht. destruct (Hall t Ht) as [?|[_ Hsl]]; [done|].
    by destruct (law_halted t (sched d) (dv_inv d Hok) (dv_done d Hok u Hu E)).
  - by destruct (asleep_drops d Hok Hn Hsleep).
Qed.

(** ** At the end *)

Lemma all_done d : driver_ok d -> 0 < n -> (forall t, t < n -> dpcs d t = DDone) -> error_found d = false ->
  dropped d = [] /\ created d ≡ₚ executed d.
Proof.
  intros Hok Hn Hall He.
  destruct (dv_why d Hok) as [?|Hz]; [left; by apply (dv_done d Hok 0), Hall|congruence|].
  pose proof (outstanding_length d Hok) as Ho.
  assert (Hj : jobs (sched d) = []) by (apply length_zero_iff_nil; lia).
  assert (Hw : working d = []) by (apply length_zero_iff_nil; lia).
  assert (Hd : dropped d = []) by (apply length_zero_iff_nil; lia).
  split; [done|]. by rewrite (dv_created d Hok), Hj, Hw, Hd, app_nil_r.
Qed.

(** A thread asleep makes no step. *)
Lemma asleep_no_step d t d' : driver_ok d -> t < n -> dpcs d t = DDequeue ->
  doing (sched d) t = Asleep -> ~ driver_step t d d'.
Proof.
  intros Hok Ht Hpc Hsl Hstep. destruct Hstep as [s Hst| | | | | | | | | | ]; try congruence.
  destruct (law_step t (sched d) s Ht (dv_inv d Hok) Hst) as (_ & _ & (k & E & _) & _). congruence.
Qed.

(** All threads are in [dequeue], no job is left, and nobody halts. *)
Definition hung d : Prop :=
  (forall t, t < n -> dpcs d t = DDequeue) /\ halted (sched d) = false /\ jobs (sched d) = [].

Lemma hung_step d d' : driver_ok d -> hung d -> driver_steps n d d' -> hung d'.
Proof.
  intros Hok (Hpc & Hh & Hj) (t & Ht & [Hstep|[Hsl ->]]).
  - pose proof (Hpc t Ht) as E. pose proof (dv_inv d Hok) as Hinv.
    destruct Hstep as [s Hst| |node _ Hr|node _ Hr|_ Hr| | | | | | ]; try congruence.
    + destruct (law_step t (sched d) s Ht Hinv Hst) as (_ & Hj' & _ & _ & _ & Hh').
      split_and!; simpl; [done| |apply Permutation_nil; by rewrite Hj', Hj].
      destruct (halted s); [|done]. destruct (Hh' eq_refl) as [?|Hrun]; [congruence|].
      pose proof (dv_place d Hok t Ht) as Hp. rewrite E, Hrun in Hp. simpl in Hp. naive_solver.
    + destruct (law_leave t (sched d) _ Ht Hinv Hr) as (_ & Hj' & _). rewrite Hj in Hj'.
      by apply Permutation_nil_cons in Hj'.
    + destruct (law_leave t (sched d) _ Ht Hinv Hr) as (_ & Hj' & _). rewrite Hj in Hj'.
      by apply Permutation_nil_cons in Hj'.
    + destruct (law_leave t (sched d) _ Ht Hinv Hr) as (_ & _ & _ & _ & _ & Hnull).
      specialize (Hnull eq_refl). congruence.
  - destruct (law_wake t (sched d) Ht (dv_inv d Hok) Hsl) as (_ & Hj' & _ & _ & Hh').
    split_and!; simpl; [done|by rewrite Hh'|apply Permutation_nil; by rewrite Hj', Hj].
Qed.

Lemma hung_for_ever d d' : driver_ok d -> hung d -> rtc (driver_steps n) d d' -> hung d'.
Proof.
  intros Hok Hhung H. enough (driver_ok d' /\ hung d') by tauto.
  revert d' H. apply (rtc_ind_r (fun d' => driver_ok d' /\ hung d')); [done|].
  intros d1 d2 _ Hst [Hok1 Hh1]. split; [|by eapply hung_step].
  destruct Hst as (t & Ht & [?|?]); [by eapply driver_step_ok|by eapply driver_wake_ok].
Qed.
End driver.

(** ** Both schedulers *)

Section both.
Context {J : Type} (depth : J -> Z) (n : nat).

(** Reachable states under the priority queue and under work stealing. *)
Definition explores_pq (root : J) (d : driver (J := J) (S := pq J)) : Prop :=
  explores (H := pq_scheduler depth) n root d.
Definition explores_ws (root : J) (d : driver (J := J) (S := ws J)) : Prop :=
  explores (H := ws_scheduler depth n) n root d.
Definition pq_moves (d : driver (J := J) (S := pq J)) : Prop := somebody_moves (Hs := pq_scheduler depth) n d.
Definition ws_moves (d : driver (J := J) (S := ws J)) : Prop := somebody_moves (Hs := ws_scheduler depth n) n d.
Definition all_finished {S} (d : driver (J := J) (S := S)) : Prop := forall t, t < n -> dpcs d t = DDone.

Lemma explores_ws_inv root d : 0 < n -> explores_ws root d -> ws_ok depth n (sched d).
Proof. intros Hn H. exact (dv_inv n d (explores_ok n (Hlaws := ws_laws depth n Hn) root d H)). Qed.

(** C25. The parallel exploration ([run_rfsc_parallel]) is never stuck while it has
    work: with either scheduler and however the threads interleave, in every
    reachable state in which no dequeued node was found pruned, either all threads
    have returned or some thread has a step, one that is no spurious wake-up and
    does not depend on a new job or an error. *)
Theorem exploration_never_stuck (root : J) : 0 < n ->
  (forall d, explores_ws root d -> dropped d = [] -> all_finished d \/ ws_moves d) /\
  (forall d, explores_pq root d -> dropped d = [] -> all_finished d \/ pq_moves d).
Proof.
  intros Hn. split; intros d H Hd.
  - exact (never_stuck n (Hlaws := ws_laws depth n Hn) d (explores_ok n (Hlaws := ws_laws depth n Hn) root d H) Hn Hd).
  - exact (never_stuck n d (explores_ok n root d H) Hn Hd).
Qed.

(** C24. When all threads of the parallel exploration have returned and no error
    was found, every node ever enqueued, the root included, was explored exactly
    as often as it was enqueued, and none was dropped: with either scheduler no
    job is lost or run twice, in any interleaving of pushes, pops and steals. *)
Theorem exploration_complete (root : J) : 0 < n ->
  (forall d, explores_ws root d -> all_finished d -> error_found d = false ->
     dropped d = [] /\ created d ≡ₚ executed d) /\
  (forall d, explores_pq root d -> all_finished d -> error_found d = false ->
     dropped d = [] /\ created d ≡ₚ executed d).
Proof.
  intros Hn. split; intros d H Hd He.
  - exact (all_done n (Hlaws := ws_laws depth n Hn) d (explores_ok n (Hlaws := ws_laws depth n Hn) root d H) Hn Hd He).
  - exact (all_done n d (explores_ok n root d H) Hn Hd He).
Qed.

(** C26. In the parallel exploration with the work-stealing scheduler no two threads
    are ever about to read or write the work queue of one thread at once: the
    owner's accesses of its own queue without its lock, after a failed first
    attempt, cannot meet a thief, since both hold the big lock. *)
Theorem queues_race_free (root : J) d t u o :
  0 < n -> explores_ws root d -> t <> u -> touches (sched d) t o -> ~ touches (sched d) u o.
Proof. intros Hn H. apply (queues_exclusive depth n). by eapply explores_ws_inv. Qed.
End both.

(** ** Concrete explorations *)

(** One step of thread [t]: [tac] applies its constructors; the new state is kept
    in the form of its records. *)
Ltac tidy := cbv [set_sched set_dpc set_outstanding set_state_mutex set_error add_created add_executed add_dropped
  sched dpcs outstanding_jobs state_mutex error_found created executed dropped driver_init
  sched_init enter leave wake ws_scheduler ws_init ws_enter ws_leave ws_wake set_wpc set_big set_qlock set_wqueue
  ws_notify_all big qlocks whalting wqueues wpcs Nat.add Nat.sub].
Ltac walk t tac :=
  eapply rtc_l; [exists t; split; [lia|left; tac; try reflexivity]|tidy].
Ltac nobody_sleeps := right; split; [intros [|[|?]]; discriminate|reflexivity].

(** Thread [t] finds nothing in its own queue nor in that of the other one. *)
Ltac falls_asleep t other :=
  walk t ltac:(apply d_reset); walk t ltac:(apply d_sched, ws_deq_lock);
  walk t ltac:(apply d_sched, ws_deq_none); walk t ltac:(apply d_sched, ws_deq_big);
  walk t ltac:(apply d_sched, (ws_loop_scan _ _ t _ [other]));
  walk t ltac:(eapply d_sched, ws_scan_other); walk t ltac:(eapply d_sched, ws_steal_fail; [reflexivity|discriminate|]);
  walk t ltac:(apply d_sched, ws_scan_end).

(** Thread [t] dequeues the one node of its own queue. *)
Ltac pops t :=
  walk t ltac:(apply d_reset); walk t ltac:(apply d_sched, ws_deq_lock);
  walk t ltac:(eapply d_sched, ws_deq_own; [reflexivity|reflexivity|discriminate|]).

(** Thread 0 runs the root, enqueues a sibling, and drops it as pruned. *)
Lemma pruned_run : exists d : driver (J := Z) (S := ws Z),
  explores_ws id 2 0%Z d /\ outstanding_jobs d = 1 /\ dropped d = [1%Z] /\
  hung (Hs := ws_scheduler id 2) (Hlaws := ws_laws id 2 (Nat.lt_0_succ 1)) 2 d.
Proof.
  eexists. split.
  - unfold explores_ws, explores, driver_init.
    pops 0. walk 0 ltac:(eapply d_got). walk 0 ltac:(eapply (d_enqueue _ _ _ 1%Z)).
    walk 0 ltac:(eapply d_sched, ws_enq_lock). walk 0 ltac:(eapply d_sched, ws_enq_push).
    walk 0 ltac:(eapply d_sched, ws_enq_notify; [|nobody_sleeps]). walk 0 ltac:(eapply d_enqueued).
    walk 0 ltac:(eapply d_finish; [reflexivity|reflexivity|discriminate]).
    pops 0. walk 0 ltac:(eapply d_pruned).
    falls_asleep 0 1. falls_asleep 1 0. apply rtc_refl.
  - split_and!; [reflexivity|reflexivity|]. split_and!.
    + intros [|[|t]] Ht; [reflexivity|reflexivity|lia].
    + reflexivity.
    + vm_compute. reflexivity.
Qed.

(** With one thread: it runs the root, halts the scheduler, and returns. *)
Lemma finished_run : exists d : driver (J := Z) (S := ws Z),
  explores_ws id 1 0%Z d /\ all_finished 1 d /\ error_found d = false.
Proof.
  eexists. split.
  - unfold explores_ws, explores, driver_init.
    pops 0. walk 0 ltac:(eapply d_got). walk 0 ltac:(eapply d_halt_done).
    walk 0 ltac:(apply d_sched, ws_halt_lock). walk 0 ltac:(apply d_sched, ws_halt_set).
    walk 0 ltac:(apply d_halted). walk 0 ltac:(apply d_reset). walk 0 ltac:(apply d_sched, ws_deq_lock).
    walk 0 ltac:(apply d_sched, ws_deq_halting). walk 0 ltac:(apply d_null). apply rtc_refl.
  - split; [|reflexivity]. intros [|t] Ht; [reflexivity|lia].
Qed.

(** C27. A job found pruned makes the parallel exploration sleep for ever: [reset]
    drops it without counting it as done, so that a state of the two-threaded
    exploration is reachable from which, however it goes on and with spurious
    wake-ups too, both threads stay in [dequeue], while one job is counted as
    outstanding. *)
Theorem pruned_job_hangs : exists d : driver (J := Z) (S := ws Z),
  explores_ws id 2 0%Z d /\ dropped d = [1%Z] /\
  forall d', rtc (driver_steps (H := ws_scheduler id 2) 2) d d' ->
    (forall t, t < 2 -> dpcs d' t = DDequeue) /\ halted (Scheduler := ws_scheduler id 2) (sched d') = false.
Proof.
  destruct pruned_run as (d & H & _ & Hd & Hhung). exists d. split_and!; [done|done|]. intros d' Hrtc.
  destruct (hung_for_ever 2 (Hlaws := ws_laws id 2 (Nat.lt_0_succ 1)) d d') as (? & ? & _); [|done|done|done].
  exact (explores_ok 2 (Hlaws := ws_laws id 2 (Nat.lt_0_succ 1)) 0%Z d H).
Qed.

Lemma exploration_never_stuck_witness :
  let d : driver (J := Z) (S := ws Z) := driver_init (H := ws_scheduler id 2) 0%Z in
  0 < 2 /\ dropped d = [] /\ (all_finished 2 d \/ ws_moves id 2 d).
Proof.
  cbv zeta. split_and!; [lia|done|].
  apply (exploration_never_stuck id 2 0%Z); [lia|apply rtc_refl|done].
Defined.

Lemma exploration_complete_witness : exists d : driver (J := Z) (S := ws Z),
  all_finished 1 d /\ error_found d = false /\ dropped d = [] /\ created d ≡ₚ executed d.
Proof.
  destruct finished_run as (d & H & Hf & He). exists d. split; [exact Hf|]. split; [exact He|].
  apply (exploration_complete id 1 0%Z); [lia|exact H|exact Hf|exact He].
Defined.

Lemma queues_race_free_witness :
  exists d : driver (J := Z) (S := ws Z), touches (sched d) 0 0 /\ ~ touches (sched d) 1 0.
Proof.
  eexists. split; cycle 1.
  - apply (queues_race_free id 2 0%Z _ 0 1 0); [lia| |done|].
    + unfold explores_ws, explores, driver_init.
      walk 0 ltac:(apply d_reset). walk 0 ltac:(apply d_sched, ws_deq_lock). apply rtc_refl.
    + reflexivity.
  - reflexivity.
Defined.
