(* ===== verification/Decision.v ===== *)
(** * Decision: the decision tree (RFSCDecisionTree.h, RFSCDecisionTree.cpp)

    A leaf of the reads-from exploration is a prefix to replay; a [DecisionNode] is
    the choice of a reads-from for one load. Siblings share their parent, which
    keeps the set of the choices its children were made for, the saturated graph
    of the events before them, and whether the subtree is pruned.

    Nodes are shared pointers: a node is a number in the heap [dnodes], where it
    stays once it is made (nothing asks whether a node still exists). Every method
    holds the lock of the node it writes, and is one function here; enqueueing a
    sibling is left to the caller, [construct_sibling] returns it.

    Nodes are one level below their parents in every tree the calls build; the
    walks up the tree end, [find_ancestor] at the ancestor of the wanted depth, and
    [is_pruned] answers whether a node on the way to the root was pruned. *)

From S2P Require Import Prelude.
From S2P Require Import CPid.
From S2P Require Import SymAddr.
From S2P Require Import SymEv.
From S2P Require Import SatGraph.
From S2P Require Import Unfold.

(** ** Leaves *)

Record Branch := MkBranch {
  b_pid : Z;
  b_size : Z;
  b_decision_depth : Z;
  b_pinned : bool;
  b_sym : SymEv;
}.

(** [has_capacity] is whether the vector owns memory: a vector without is the
    bottom leaf. *)
Record Leaf := MkLeaf { leaf_prefix : list Branch; has_capacity : bool }.
Definition is_bottom (l : Leaf) : bool := negb (has_capacity l).
Definition Leaf_bottom : Leaf := MkLeaf [] false.
Definition Leaf_of (p : list Branch) : Leaf := MkLeaf p true.
(** The copy of an empty vector owns no memory. *)
Definition leaf_copy (l : Leaf) : Leaf := MkLeaf (leaf_prefix l) (bool_decide (leaf_prefix l <> [])).

(** ** Nodes *)

Record DecisionNode := MkDecisionNode {
  depth : Z;
  unfold_node : NodePtr;
  leaf : Leaf;
  parent : option nat;
  pruned_subtree : bool;
  cache_initialised : bool;
  children_unf_set : gset NodePtr;
  graph_cache : graph;
}.

Definition set_pruned (b : bool) (n : DecisionNode) := MkDecisionNode (depth n) (unfold_node n) (leaf n)
  (parent n) b (cache_initialised n) (children_unf_set n) (graph_cache n).
Definition set_unf_set (s : gset NodePtr) (n : DecisionNode) := MkDecisionNode (depth n) (unfold_node n) (leaf n)
  (parent n) (pruned_subtree n) (cache_initialised n) s (graph_cache n).
Definition set_cache (g : graph) (b : bool) (n : DecisionNode) := MkDecisionNode (depth n) (unfold_node n) (leaf n)
  (parent n) (pruned_subtree n) b (children_unf_set n) g.
Definition take_leaf (n : DecisionNode) := MkDecisionNode (depth n) None Leaf_bottom
  (parent n) (pruned_subtree n) (cache_initialised n) (children_unf_set n) (graph_cache n).

Record dtree := MkDTree { dnodes : gmap nat DecisionNode; next_dnode : nat }.
Definition set_dnodes m t := MkDTree m (next_dnode t).

Definition new_node (n : DecisionNode) (t : dtree) : nat * dtree :=
  (next_dnode t, MkDTree (<[next_dnode t := n]> (dnodes t)) (S (next_dnode t))).

(** The three constructors. *)
Definition root_node : DecisionNode :=
  MkDecisionNode (-1) None (Leaf_of []) None false true ∅ empty_graph.
Definition child_node (p : nat) (d : Z) : DecisionNode :=
  MkDecisionNode (d + 1) None Leaf_bottom (Some p) false false ∅ empty_graph.
Definition sibling_node (p : nat) (d : Z) (unf : NodePtr) (l : Leaf) : DecisionNode :=
  MkDecisionNode (d + 1) unf (leaf_copy (leaf_copy l)) (Some p) false false ∅ empty_graph.

(** The tree of the constructor of [RFSCDecisionTree], and its root, which it enqueues. *)
Definition initial_tree : nat * dtree := new_node root_node (MkDTree ∅ 0).

Definition node_parent (t : dtree) (n : nat) : option (nat * DecisionNode) :=
  nd ← dnodes t !! n; p ← parent nd; pd ← dnodes t !! p; Some (p, pd).

(** [try_alloc_unf]: whether the choice is new. *)
Definition try_alloc_unf (n : nat) (unf : NodePtr) (t : dtree) : option (bool * dtree) :=
  r ← node_parent t n;
  let '(p, pd) := r in
  if decide (unf ∈ children_unf_set pd) then Some (false, t)
  else Some (true, set_dnodes (<[p := set_unf_set ({[ unf ]} ∪ children_unf_set pd) pd]> (dnodes t)) t).

Definition alloc_unf (n : nat) (unf : NodePtr) (t : dtree) : option dtree :=
  r ← try_alloc_unf n unf t; _ ← cassert r.1; Some r.2.

Definition new_decision_node (p : nat) (unf : NodePtr) (t : dtree) : option (nat * dtree) :=
  pd ← dnodes t !! p;
  let '(n, t) := new_node (child_node p (depth pd)) t in
  t ← alloc_unf n unf t;
  Some (n, t).

Definition make_sibling (n : nat) (unf : NodePtr) (l : Leaf) (t : dtree) : option (nat * dtree) :=
  r ← node_parent t n;
  Some (new_node (sibling_node r.1 (depth r.2) unf l) t).

Definition construct_sibling (n : nat) (unf : NodePtr) (l : Leaf) (t : dtree) : option (nat * dtree) :=
  make_sibling n unf l t.

(** The loop of [get_ancestor]; at most one round for every level of the tree. *)
Fixpoint get_ancestor (fuel : nat) (t : dtree) (n : nat) (wanted : Z) : option nat :=
  match fuel with
  | 0 => None
  | S fuel =>
    r ← node_parent t n;
    if decide (depth r.2 <> wanted) then get_ancestor fuel t r.1 wanted else Some r.1
  end.

Definition find_ancestor (t : dtree) (n : nat) (wanted : Z) : option nat :=
  nd ← dnodes t !! n;
  _ ← cassert (bool_decide (depth nd >= wanted)%Z);
  if decide (depth nd = wanted) then Some n
  else get_ancestor (Z.to_nat (depth nd + 1)) t n wanted.

Definition prune_decisions (n : nat) (t : dtree) : option dtree :=
  nd ← dnodes t !! n; Some (set_dnodes (<[n := set_pruned true nd]> (dnodes t)) t).

Fixpoint is_pruned_from (fuel : nat) (t : dtree) (n : nat) : option bool :=
  match fuel with
  | 0 => None
  | S fuel =>
    nd ← dnodes t !! n;
    if decide (depth nd <> -1)%Z then
      if pruned_subtree nd then Some true
      else p ← parent nd; is_pruned_from fuel t p
    else Some false
  end.
Definition is_pruned (t : dtree) (n : nat) : option bool :=
  nd ← dnodes t !! n; is_pruned_from (Z.to_nat (depth nd + 2)) t n.

(** The loop of [get_saturated_graph]: a copy of the nearest graph above, or the
    node's own empty one when the root is reached. *)
Fixpoint nearest_graph (fuel : nat) (t : dtree) (n : nat) (g : graph) : option graph :=
  match fuel with
  | 0 => None
  | S fuel =>
    nd ← dnodes t !! n;
    if cache_initialised nd then clone (graph_cache nd)
    else
      p ← parent nd; pd ← dnodes t !! p;
      if decide (depth pd <> -1)%Z then nearest_graph fuel t p g else Some g
  end.

(** The graph of the parent of [n], made with [construct] at the first call. *)
Definition get_saturated_graph (n : nat) (construct : graph -> option graph) (t : dtree)
    : option (graph * dtree) :=
  nd ← dnodes t !! n;
  r ← node_parent t n;
  let '(p, pd) := r in
  let g := graph_cache pd in
  if cache_initialised pd then
    _ ← cassert (negb (bool_decide (graph_size g = 0)) || bool_decide (depth nd = 0)%Z);
    Some (g, t)
  else
    _ ← cassert (bool_decide (depth nd > 0)%Z && bool_decide (graph_size g = 0));
    g ← nearest_graph (Z.to_nat (depth pd + 1)) t p g;
    g ← construct g;
    Some (g, set_dnodes (<[p := set_cache g true pd]> (dnodes t)) t).

(** * The decision tree *)

Local Open Scope Z_scope.

Implicit Types (t : dtree) (n m p : nat) (nd pd : DecisionNode).

(** Every node is the root or one level below its parent. *)
Record tree_ok t : Prop := {
  tk_next n nd : dnodes t !! n = Some nd -> (n < next_dnode t)%nat;
  tk_root n nd : dnodes t !! n = Some nd -> depth nd = -1 <-> parent nd = None;
  tk_depth n nd : dnodes t !! n = Some nd -> -1 <= depth nd;
  tk_parent n nd p : dnodes t !! n = Some nd -> parent nd = Some p -> exists pd, dnodes t !! p = Some pd /\ depth nd = depth pd + 1;
}.

(** [m] is the parent of [n]. *)
Definition parent_of t n m : Prop := exists nd, dnodes t !! n = Some nd /\ parent nd = Some m.

(** ** Walking up *)

Section walks.
Context (t : dtree) (Hok : tree_ok t).

Lemma node_above n nd : dnodes t !! n = Some nd -> depth nd <> -1 ->
  exists p pd, parent nd = Some p /\ dnodes t !! p = Some pd /\ depth nd = depth pd + 1.
Proof.
  intros Hn Hd. destruct (parent nd) as [p|] eqn:Ep; [|by destruct Hd; apply (tk_root t Hok n nd Hn)].
  destruct (tk_parent t Hok n nd p Hn Ep) as (pd & Hp & E). by exists p, pd.
Qed.

Lemma get_ancestor_spec fuel n nd wanted : dnodes t !! n = Some nd -> -1 <= wanted < depth nd ->
  (Z.to_nat (depth nd - wanted) <= fuel)%nat ->
  exists m md, get_ancestor fuel t n wanted = Some m /\ dnodes t !! m = Some md /\ depth md = wanted /\ tc (parent_of t) n m.
Proof.
  revert n nd. induction fuel as [|fuel IH]; intros n nd Hn Hw Hf; [lia|].
  destruct (node_above n nd Hn) as (p & pd & Ep & Hp & Ed); [lia|].
  assert (Hup : parent_of t n p) by by exists nd.
  cbn [get_ancestor]. unfold node_parent. rewrite Hn. cbn [mbind option_bind]. rewrite Ep. cbn [mbind option_bind].
  rewrite Hp. cbn [mbind option_bind snd fst]. case_decide as E.
  - destruct (IH p pd Hp) as (m & md & -> & Hm & Em & Hr); [lia|lia|]. exists m, md. split_and!; [done..|].
    by eapply tc_l.
  - exists p, pd. split_and!; [done|done|lia|]. by apply tc_once.
Qed.

(** The ancestor of a depth, the node itself included. *)
Lemma find_ancestor_spec n nd wanted : dnodes t !! n = Some nd -> -1 <= wanted <= depth nd ->
  exists m md, find_ancestor t n wanted = Some m /\ dnodes t !! m = Some md /\ depth md = wanted /\ rtc (parent_of t) n m.
Proof.
  intros Hn Hw. unfold find_ancestor. rewrite Hn. cbn [mbind option_bind]. rewrite bool_decide_true by lia.
  cbn [cassert mbind option_bind]. case_decide as E; [by exists n, nd|].
  destruct (get_ancestor_spec (Z.to_nat (depth nd + 1)) n nd wanted Hn) as (m & md & -> & Hm & Em & Hr); [lia|lia|].
  exists m, md. split_and!; [done..|]. by apply tc_rtc.
Qed.

Lemma is_pruned_from_spec fuel n nd : dnodes t !! n = Some nd -> (Z.to_nat (depth nd + 2) <= fuel)%nat ->
  exists b, is_pruned_from fuel t n = Some b /\
    (b = true <-> exists m md, rtc (parent_of t) n m /\ dnodes t !! m = Some md /\ depth md <> -1 /\ pruned_subtree md = true).
Proof.
  revert n nd. induction fuel as [|fuel IH]; intros n nd Hn Hf; [pose proof (tk_depth t Hok n nd Hn); lia|].
  cbn [is_pruned_from]. rewrite Hn. cbn [mbind option_bind]. case_decide as Ed.
  - destruct (pruned_subtree nd) eqn:Epr.
    { exists true. split; [done|]. split; [|done]. intros _. by exists n, nd. }
    destruct (node_above n nd Hn Ed) as (p & pd & Ep & Hp & E). rewrite Ep. cbn [mbind option_bind].
    assert (Hup : parent_of t n p) by by exists nd.
    destruct (IH p pd Hp) as (b & -> & Hb); [lia|]. exists b. split; [done|]. rewrite Hb. split.
    + intros (m & md & Hr & H). exists m, md. split; [|done]. by eapply rtc_l.
    + intros (m & md & Hr & Hm & Hdm & Hpm). exists m, md. split; [|done].
      inversion Hr as [|? q ? (nd' & Hn' & Eq) Hr']; subst; [congruence|]. rewrite Hn in Hn'. injection Hn' as <-.
      rewrite Ep in Eq. by injection Eq as <-.
  - exists false. split; [done|]. split; [done|]. intros (m & md & Hr & Hm & Hdm & _). exfalso.
    inversion Hr as [|? q ? (nd' & Hn' & Eq) _]; subst; [congruence|].
    rewrite Hn in Hn'. injection Hn' as <-. apply (tk_root t Hok n nd Hn) in Ed. congruence.
Qed.

Lemma is_pruned_spec n nd : dnodes t !! n = Some nd -> exists b, is_pruned t n = Some b /\
  (b = true <-> exists m md, rtc (parent_of t) n m /\ dnodes t !! m = Some md /\ depth md <> -1 /\ pruned_subtree md = true).
Proof.
  intros Hn. unfold is_pruned. rewrite Hn. cbn [mbind option_bind]. by apply (is_pruned_from_spec _ _ nd).
Qed.
End walks.

(** ** The calls keep the tree *)

(** A node changed in other fields. *)
Lemma update_ok t n nd nd' : tree_ok t -> dnodes t !! n = Some nd -> depth nd' = depth nd -> parent nd' = parent nd ->
  tree_ok (set_dnodes (<[n := nd']> (dnodes t)) t).
Proof.
  intros [Hx Hr Hd Hp] Hn Ed Ep.
  assert (Hat : forall m md, <[n := nd']> (dnodes t) !! m = Some md ->
    exists md0, dnodes t !! m = Some md0 /\ depth md = depth md0 /\ parent md = parent md0).
  { intros m md Hm. destruct (decide (m = n)) as [->|Hne]; [rewrite lookup_insert_eq in Hm; injection Hm as <-; by exists nd|].
    rewrite lookup_insert_ne in Hm by done. by exists md. }
  split; cbn; intros m md; intros.
  - destruct (Hat m md) as (md0 & ? & _); [done|]. by eapply Hx.
  - destruct (Hat m md) as (md0 & ? & -> & ->); [done|]. by eapply Hr.
  - destruct (Hat m md) as (md0 & ? & -> & _); [done|]. by eapply Hd.
  - destruct (Hat m md) as (md0 & Hm0 & -> & E); [done|]. destruct (Hp m md0 p) as (pd & Hpd & Epd); [done|congruence|].
    destruct (decide (p = n)) as [->|Hne].
    + exists nd'. rewrite lookup_insert_eq. split; [done|]. rewrite Hpd in Hn. injection Hn as ->. congruence.
    + exists pd. by rewrite lookup_insert_ne.
Qed.

(** A new node below [p]. *)
Lemma new_node_ok t p pd nd : tree_ok t -> dnodes t !! p = Some pd -> parent nd = Some p -> depth nd = depth pd + 1 ->
  tree_ok (new_node nd t).2 /\ dnodes (new_node nd t).2 !! (new_node nd t).1 = Some nd /\
  forall m md, dnodes t !! m = Some md -> dnodes (new_node nd t).2 !! m = Some md.
Proof.
  intros [Hx Hr Hd Hp] Hpd Ep Ed. unfold new_node. cbn.
  assert (Hfresh : forall m md, dnodes t !! m = Some md -> <[next_dnode t := nd]> (dnodes t) !! m = Some md).
  { intros m md Hm. rewrite lookup_insert_ne; [done|]. intros <-. apply Hx in Hm. lia. }
  assert (Hat : forall m md, <[next_dnode t := nd]> (dnodes t) !! m = Some md ->
    (m = next_dnode t /\ md = nd) \/ dnodes t !! m = Some md).
  { intros m md Hm. destruct (decide (m = next_dnode t)) as [->|Hne]; [rewrite lookup_insert_eq in Hm; left; by simplify_eq|].
    rewrite lookup_insert_ne in Hm by done. by right. }
  pose proof (Hd p pd Hpd). split_and!; [|by rewrite lookup_insert_eq|done].
  split; cbn.
  - intros m md [[-> ->]|Hm']%Hat; [lia|]. apply Hx in Hm'. lia.
  - intros m md [[-> ->]|Hm']%Hat; [rewrite Ep; split; [lia|done]|by eapply Hr].
  - intros m md [[-> ->]|Hm']%Hat; [lia|by eapply Hd].
  - intros m md q [[-> ->]|Hm']%Hat Eq.
    + rewrite Ep in Eq. injection Eq as <-. exists pd. split; [by apply Hfresh|done].
    + destruct (Hp m md q Hm' Eq) as (qd & Hq & E). exists qd. split; [by apply Hfresh|done].
Qed.

Lemma node_parent_ok t n nd : tree_ok t -> dnodes t !! n = Some nd -> depth nd <> -1 ->
  exists p pd, node_parent t n = Some (p, pd) /\ parent nd = Some p /\ dnodes t !! p = Some pd /\ depth nd = depth pd + 1.
Proof.
  intros Hok Hn Hd. destruct (node_above t Hok n nd Hn Hd) as (p & pd & Ep & Hp & E). exists p, pd.
  unfold node_parent. rewrite Hn. cbn [mbind option_bind]. rewrite Ep. cbn [mbind option_bind]. by rewrite Hp.
Qed.

(** What a call keeps of the nodes: everything but the leaf, the marks and the caches. *)
Definition keeps_nodes t t' : Prop := forall m md, dnodes t !! m = Some md ->
  exists md', dnodes t' !! m = Some md' /\ depth md' = depth md /\ parent md' = parent md.

Lemma update_keeps t n nd nd' : dnodes t !! n = Some nd -> depth nd' = depth nd -> parent nd' = parent nd ->
  keeps_nodes t (set_dnodes (<[n := nd']> (dnodes t)) t).
Proof.
  intros Hn Ed Ep m md Hm. cbn. destruct (decide (m = n)) as [->|Hne].
  - rewrite lookup_insert_eq. exists nd'. split; [done|]. rewrite Hm in Hn. injection Hn as ->. done.
  - rewrite lookup_insert_ne by done. by exists md.
Qed.

Lemma initial_ok : tree_ok (initial_tree).2.
Proof.
  assert (H : forall m md, dnodes (initial_tree).2 !! m = Some md -> m = 0%nat /\ md = root_node).
  { intros m md Hm. cbn in Hm. apply lookup_insert_Some in Hm as [[<- <-]|[_ Hm]]; [done|]. by rewrite lookup_empty in Hm. }
  split; intros m md; intros; destruct (H m md) as [-> ->]; try done. cbn. lia.
Qed.

Lemma try_alloc_ok n nd unf t : tree_ok t -> dnodes t !! n = Some nd -> depth nd <> -1 ->
  exists b t', try_alloc_unf n unf t = Some (b, t') /\ tree_ok t' /\ keeps_nodes t t' /\ next_dnode t' = next_dnode t.
Proof.
  intros Hok Hn Hd. destruct (node_parent_ok t n nd Hok Hn Hd) as (p & pd & E & _ & Hp & _). unfold try_alloc_unf. rewrite E.
  cbn [mbind option_bind]. case_decide.
  - exists false, t. split_and!; try done. intros m md Hm. by exists md.
  - do 2 eexists. split; [done|]. split_and!; [by eapply update_ok|by eapply update_keeps|done].
Qed.

Lemma construct_sibling_ok n nd unf l t : tree_ok t -> dnodes t !! n = Some nd -> depth nd <> -1 ->
  exists m t', construct_sibling n unf l t = Some (m, t') /\ tree_ok t' /\
    exists md, dnodes t' !! m = Some md /\ depth md = depth nd /\ parent md = parent nd.
Proof.
  intros Hok Hn Hd. destruct (node_parent_ok t n nd Hok Hn Hd) as (p & pd & E & Ep & Hp & Ed).
  unfold construct_sibling, make_sibling. rewrite E. cbn [mbind option_bind fst snd].
  destruct (new_node_ok t p pd (sibling_node p (depth pd) unf l) Hok Hp eq_refl eq_refl) as (Hok' & Hm & _).
  do 2 eexists. split; [done|]. split; [done|]. eexists. split; [done|]. split; [by cbn|by rewrite Ep].
Qed.

Lemma prune_ok n nd t : tree_ok t -> dnodes t !! n = Some nd -> exists t', prune_decisions n t = Some t' /\ tree_ok t'.
Proof.
  intros Hok Hn. unfold prune_decisions. rewrite Hn. cbn [mbind option_bind]. eexists. split; [done|]. by eapply update_ok.
Qed.

(** ** Trees the calls build *)

Inductive made : dtree -> Prop :=
| made_initial : made (initial_tree).2
| made_try_alloc n unf t b t' : made t -> try_alloc_unf n unf t = Some (b, t') -> made t'
| made_node p unf t n t' : made t -> new_decision_node p unf t = Some (n, t') -> made t'
| made_sibling n unf l t m t' : made t -> construct_sibling n unf l t = Some (m, t') -> made t'
| made_prune n t t' : made t -> prune_decisions n t = Some t' -> made t'
| made_dequeue n nd t : made t -> dnodes t !! n = Some nd -> made (set_dnodes (<[n := take_leaf nd]> (dnodes t)) t)
| made_graph n construct t g t' : made t -> get_saturated_graph n construct t = Some (g, t') -> made t'.

Lemma node_parent_at t n p pd : node_parent t n = Some (p, pd) -> dnodes t !! p = Some pd.
Proof.
  unfold node_parent. destruct (dnodes t !! n); [|done]. cbn. destruct (parent _); [|done]. cbn.
  destruct (dnodes t !! _) eqn:E; [|done]. by intros [= <- <-].
Qed.

Lemma try_alloc_keeps n unf t b t' : tree_ok t -> try_alloc_unf n unf t = Some (b, t') -> tree_ok t'.
Proof.
  intros Hok H. unfold try_alloc_unf in H. destruct (node_parent t n) as [[p pd]|] eqn:E; [|done]. cbn in H.
  apply node_parent_at in E. case_decide; injection H as _ <-; [done|by eapply update_ok].
Qed.

Lemma made_ok t : made t -> tree_ok t.
Proof.
  induction 1 as [|n unf t b t' _ IH H|p unf t n t' _ IH H|n unf l t m t' _ IH H|n t t' _ IH H|n nd t _ IH H|n construct t g t' _ IH H].
  - apply initial_ok.
  - by eapply try_alloc_keeps.
  - unfold new_decision_node in H. destruct (dnodes t !! p) as [pd|] eqn:Hp; [|done]. cbn [mbind option_bind] in H.
    destruct (new_node_ok t p pd (child_node p (depth pd)) IH Hp eq_refl eq_refl) as (Hok' & _).
    unfold new_node in *. cbn [snd] in Hok'. unfold alloc_unf in H.
    destruct (try_alloc_unf _ _ _) as [[b t1]|] eqn:E; [|done]. cbn in H. destruct b; [|done]. injection H as _ <-.
    by eapply try_alloc_keeps.
  - unfold construct_sibling, make_sibling in H. destruct (node_parent t n) as [[p pd]|] eqn:E; [|done]. cbn in H.
    apply node_parent_at in E. injection H as _ <-.
    by destruct (new_node_ok t p pd (sibling_node p (depth pd) unf l) IH E eq_refl eq_refl) as (Hok' & _).
  - unfold prune_decisions in H. destruct (dnodes t !! n) as [nd|] eqn:E; [|done]. injection H as <-. by eapply update_ok.
  - by eapply update_ok.
  - unfold get_saturated_graph in H. destruct (dnodes t !! n) as [nd|]; [|done]. cbn [mbind option_bind] in H.
    destruct (node_parent t n) as [[p pd]|] eqn:E; [|done]. cbn [mbind option_bind] in H. apply node_parent_at in E.
    destruct (cache_initialised pd).
    + destruct (cassert _); [|done]. cbn in H. by injection H as _ <-.
    + destruct (cassert _); [|done]. cbn [mbind option_bind] in H.
      destruct (nearest_graph _ _ _ _); [|done]. cbn [mbind option_bind] in H.
      destruct (construct _); [|done]. cbn [mbind option_bind] in H. injection H as _ <-. by eapply update_ok.
Qed.
