(* ===== verification/Rfsc.v ===== *)
(** * Rfsc: the trace builder of the reads-from exploration
      (RFSCTraceBuilder.h, RFSCTraceBuilder.cpp)

    [RFSCTraceBuilder] runs a program under sequential consistency: [schedule]
    picks the thread of the next event, and the method of the instruction records
    what the event does and which event it reads from. Before that it replays the
    prefix of the leaf that [reset] dequeued. This file has the state, the
    execution of a trace, and [reset]; RfscAnalysis has what happens after.

    Positions in [prefix] are [nat] where the code has [unsigned], [Z] where it has
    [int] ([-1] is no event); fields that no code reads are left out, and so are
    condition variables: their methods only report an error. *)

From stdpp Require Import pretty.
From S2P Require Import Prelude.
From S2P Require Import SatGraph.
From S2P Require Import VClock.
From S2P Require Import CPid.
From S2P Require Import SymAddr.
From S2P Require Import ByteOps.
From S2P Require Import SymEv.
From S2P Require Import TSOState.
From S2P Require Import Unfold.
From S2P Require Import Decision.

Local Open Scope Z_scope.

(** ** State *)

Record Thread := MkThread {
  cpid : CPid;
  available : bool;
  spawn_event : Z;
  event_indices : list nat;
}.
Definition Thread_new (c : CPid) (spawn : Z) : Thread := MkThread c true spawn [].
Definition last_event_index (t : Thread) : Z := Z.of_nat (length (event_indices t)).
Definition set_available (v : bool) (t : Thread) : Thread :=
  MkThread (cpid t) v (spawn_event t) (event_indices t).
Definition set_event_indices (v : list nat) (t : Thread) : Thread :=
  MkThread (cpid t) (available t) (spawn_event t) v.

Record Mutex := MkMutex { last_access : Z; last_lock : Z; locked : bool }.
Definition Mutex_new : Mutex := MkMutex (-1) (-1) false.

(** [decision_depth] is kept beside the pointer: a replayed event may have one
    without the other. *)
Record Event := MkEvent {
  alt : Z;
  size : Z;
  pinned : bool;
  iid : IID;
  ev_md : MDNode;
  clock : vclock;
  above_clock : vclock;
  happens_after : list nat;
  may_conflict : bool;
  event : NodePtr;
  read_from : option Z;
  sym : SymEv;
  decision_ptr : option nat;
  decision_depth : Z;
}.
Definition Event_new (i : IID) (s : SymEv) : Event :=
  MkEvent 0 1 false i 0 [] [] [] false None None s None (-1).

Definition set_size (v : Z) (e : Event) : Event :=
  MkEvent (alt e) v (pinned e) (iid e) (ev_md e) (clock e) (above_clock e) (happens_after e) (may_conflict e) (event e) (read_from e) (sym e) (decision_ptr e) (decision_depth e).
Definition set_pinned (v : bool) (e : Event) : Event :=
  MkEvent (alt e) (size e) v (iid e) (ev_md e) (clock e) (above_clock e) (happens_after e) (may_conflict e) (event e) (read_from e) (sym e) (decision_ptr e) (decision_depth e).
Definition set_ev_md (v : MDNode) (e : Event) : Event :=
  MkEvent (alt e) (size e) (pinned e) (iid e) v (clock e) (above_clock e) (happens_after e) (may_conflict e) (event e) (read_from e) (sym e) (decision_ptr e) (decision_depth e).
Definition set_clock (v : vclock) (e : Event) : Event :=
  MkEvent (alt e) (size e) (pinned e) (iid e) (ev_md e) v (above_clock e) (happens_after e) (may_conflict e) (event e) (read_from e) (sym e) (decision_ptr e) (decision_depth e).
Definition set_above_clock (v : vclock) (e : Event) : Event :=
  MkEvent (alt e) (size e) (pinned e) (iid e) (ev_md e) (clock e) v (happens_after e) (may_conflict e) (event e) (read_from e) (sym e) (decision_ptr e) (decision_depth e).
Definition set_happens_after (v : list nat) (e : Event) : Event :=
  MkEvent (alt e) (size e) (pinned e) (iid e) (ev_md e) (clock e) (above_clock e) v (may_conflict e) (event e) (read_from e) (sym e) (decision_ptr e) (decision_depth e).
Definition set_may_conflict (v : bool) (e : Event) : Event :=
  MkEvent (alt e) (size e) (pinned e) (iid e) (ev_md e) (clock e) (above_clock e) (happens_after e) v (event e) (read_from e) (sym e) (decision_ptr e) (decision_depth e).
Definition set_event (v : NodePtr) (e : Event) : Event :=
  MkEvent (alt e) (size e) (pinned e) (iid e) (ev_md e) (clock e) (above_clock e) (happens_after e) (may_conflict e) v (read_from e) (sym e) (decision_ptr e) (decision_depth e).
Definition set_read_from (v : option Z) (e : Event) : Event :=
  MkEvent (alt e) (size e) (pinned e) (iid e) (ev_md e) (clock e) (above_clock e) (happens_after e) (may_conflict e) (event e) v (sym e) (decision_ptr e) (decision_depth e).
Definition set_sym (v : SymEv) (e : Event) : Event :=
  MkEvent (alt e) (size e) (pinned e) (iid e) (ev_md e) (clock e) (above_clock e) (happens_after e) (may_conflict e) (event e) (read_from e) v (decision_ptr e) (decision_depth e).
Definition set_decision_fields (p : option nat) (d : Z) (e : Event) : Event :=
  MkEvent (alt e) (size e) (pinned e) (iid e) (ev_md e) (clock e) (above_clock e) (happens_after e) (may_conflict e) (event e) (read_from e) (sym e) p d.

(** The trace builder, with the shared trees it works on and the nodes it has
    enqueued, in order. *)
Record RFSCTraceBuilder := MkRFSC {
  threads : list Thread;
  CPS : CPidSystem;
  mem : gmap SymAddr Z;
  mutexes : gmap SymAddr Mutex;
  mutex_deadlocks : gmap SymAddr (list Z);
  prefix : list Event;
  below_clocks : vclockvec;
  prefix_idx : Z;
  seen_effect : bool;
  replay : bool;
  cancelled : bool;
  replay_point : Z;
  last_md : MDNode;
  errors : list Error;
  tasks_created : Z;
  work_item : option nat;
  decision_tree : dtree;
  unfolding_tree : utree;
  enqueued : list nat;
}.

Definition set_threads (v : list Thread) (s : RFSCTraceBuilder) : RFSCTraceBuilder :=
  MkRFSC v (CPS s) (mem s) (mutexes s) (mutex_deadlocks s) (prefix s) (below_clocks s) (prefix_idx s) (seen_effect s) (replay s) (cancelled s) (replay_point s) (last_md s) (errors s) (tasks_created s) (work_item s) (decision_tree s) (unfolding_tree s) (enqueued s).
Definition set_CPS (v : CPidSystem) (s : RFSCTraceBuilder) : RFSCTraceBuilder :=
  MkRFSC (threads s) v (mem s) (mutexes s) (mutex_deadlocks s) (prefix s) (below_clocks s) (prefix_idx s) (seen_effect s) (replay s) (cancelled s) (replay_point s) (last_md s) (errors s) (tasks_created s) (work_item s) (decision_tree s) (unfolding_tree s) (enqueued s).
Definition set_mem (v : gmap SymAddr Z) (s : RFSCTraceBuilder) : RFSCTraceBuilder :=
  MkRFSC (threads s) (CPS s) v (mutexes s) (mutex_deadlocks s) (prefix s) (below_clocks s) (prefix_idx s) (seen_effect s) (replay s) (cancelled s) (replay_point s) (last_md s) (errors s) (tasks_created s) (work_item s) (decision_tree s) (unfolding_tree s) (enqueued s).
Definition set_mutexes (v : gmap SymAddr Mutex) (s : RFSCTraceBuilder) : RFSCTraceBuilder :=
  MkRFSC (threads s) (CPS s) (mem s) v (mutex_deadlocks s) (prefix s) (below_clocks s) (prefix_idx s) (seen_effect s) (replay s) (cancelled s) (replay_point s) (last_md s) (errors s) (tasks_created s) (work_item s) (decision_tree s) (unfolding_tree s) (enqueued s).
Definition set_mutex_deadlocks (v : gmap SymAddr (list Z)) (s : RFSCTraceBuilder) : RFSCTraceBuilder :=
  MkRFSC (threads s) (CPS s) (mem s) (mutexes s) v (prefix s) (below_clocks s) (prefix_idx s) (seen_effect s) (replay s) (cancelled s) (replay_point s) (last_md s) (errors s) (tasks_created s) (work_item s) (decision_tree s) (unfolding_tree s) (enqueued s).
Definition set_prefix (v : list Event) (s : RFSCTraceBuilder) : RFSCTraceBuilder :=
  MkRFSC (threads s) (CPS s) (mem s) (mutexes s) (mutex_deadlocks s) v (below_clocks s) (prefix_idx s) (seen_effect s) (replay s) (cancelled s) (replay_point s) (last_md s) (errors s) (tasks_created s) (work_item s) (decision_tree s) (unfolding_tree s) (enqueued s).
Definition set_below_clocks (v : vclockvec) (s : RFSCTraceBuilder) : RFSCTraceBuilder :=
  MkRFSC (threads s) (CPS s) (mem s) (mutexes s) (mutex_deadlocks s) (prefix s) v (prefix_idx s) (seen_effect s) (replay s) (cancelled s) (replay_point s) (last_md s) (errors s) (tasks_created s) (work_item s) (decision_tree s) (unfolding_tree s) (enqueued s).
Definition set_prefix_idx (v : Z) (s : RFSCTraceBuilder) : RFSCTraceBuilder :=
  MkRFSC (threads s) (CPS s) (mem s) (mutexes s) (mutex_deadlocks s) (prefix s) (below_clocks s) v (seen_effect s) (replay s) (cancelled s) (replay_point s) (last_md s) (errors s) (tasks_created s) (work_item s) (decision_tree s) (unfolding_tree s) (enqueued s).
Definition set_seen_effect (v : bool) (s : RFSCTraceBuilder) : RFSCTraceBuilder :=
  MkRFSC (threads s) (CPS s) (mem s) (mutexes s) (mutex_deadlocks s) (prefix s) (below_clocks s) (prefix_idx s) v (replay s) (cancelled s) (replay_point s) (last_md s) (errors s) (tasks_created s) (work_item s) (decision_tree s) (unfolding_tree s) (enqueued s).
Definition set_replay (v : bool) (s : RFSCTraceBuilder) : RFSCTraceBuilder :=
  MkRFSC (threads s) (CPS s) (mem s) (mutexes s) (mutex_deadlocks s) (prefix s) (below_clocks s) (prefix_idx s) (seen_effect s) v (cancelled s) (replay_point s) (last_md s) (errors s) (tasks_created s) (work_item s) (decision_tree s) (unfolding_tree s) (enqueued s).
Definition set_cancelled (v : bool) (s : RFSCTraceBuilder) : RFSCTraceBuilder :=
  MkRFSC (threads s) (CPS s) (mem s) (mutexes s) (mutex_deadlocks s) (prefix s) (below_clocks s) (prefix_idx s) (seen_effect s) (replay s) v (replay_point s) (last_md s) (errors s) (tasks_created s) (work_item s) (decision_tree s) (unfolding_tree s) (enqueued s).
Definition set_last_md (v : MDNode) (s : RFSCTraceBuilder) : RFSCTraceBuilder :=
  MkRFSC (threads s) (CPS s) (mem s) (mutexes s) (mutex_deadlocks s) (prefix s) (below_clocks s) (prefix_idx s) (seen_effect s) (replay s) (cancelled s) (replay_point s) v (errors s) (tasks_created s) (work_item s) (decision_tree s) (unfolding_tree s) (enqueued s).
Definition set_errors (v : list Error) (s : RFSCTraceBuilder) : RFSCTraceBuilder :=
  MkRFSC (threads s) (CPS s) (mem s) (mutexes s) (mutex_deadlocks s) (prefix s) (below_clocks s) (prefix_idx s) (seen_effect s) (replay s) (cancelled s) (replay_point s) (last_md s) v (tasks_created s) (work_item s) (decision_tree s) (unfolding_tree s) (enqueued s).
Definition set_work_item (v : option nat) (s : RFSCTraceBuilder) : RFSCTraceBuilder :=
  MkRFSC (threads s) (CPS s) (mem s) (mutexes s) (mutex_deadlocks s) (prefix s) (below_clocks s) (prefix_idx s) (seen_effect s) (replay s) (cancelled s) (replay_point s) (last_md s) (errors s) (tasks_created s) v (decision_tree s) (unfolding_tree s) (enqueued s).
Definition set_decision_tree (v : dtree) (s : RFSCTraceBuilder) : RFSCTraceBuilder :=
  MkRFSC (threads s) (CPS s) (mem s) (mutexes s) (mutex_deadlocks s) (prefix s) (below_clocks s) (prefix_idx s) (seen_effect s) (replay s) (cancelled s) (replay_point s) (last_md s) (errors s) (tasks_created s) (work_item s) v (unfolding_tree s) (enqueued s).
Definition set_unfolding_tree (v : utree) (s : RFSCTraceBuilder) : RFSCTraceBuilder :=
  MkRFSC (threads s) (CPS s) (mem s) (mutexes s) (mutex_deadlocks s) (prefix s) (below_clocks s) (prefix_idx s) (seen_effect s) (replay s) (cancelled s) (replay_point s) (last_md s) (errors s) (tasks_created s) (work_item s) (decision_tree s) v (enqueued s).
Definition add_task (n : nat) (s : RFSCTraceBuilder) : RFSCTraceBuilder :=
  MkRFSC (threads s) (CPS s) (mem s) (mutexes s) (mutex_deadlocks s) (prefix s) (below_clocks s) (prefix_idx s) (seen_effect s) (replay s) (cancelled s) (replay_point s) (last_md s) (errors s) (tasks_created s + 1) (work_item s) (decision_tree s) (unfolding_tree s) (enqueued s ++ [n]).

(** The constructor. *)
Definition RFSCTraceBuilder_new (dt : dtree) (ut : utree) : RFSCTraceBuilder :=
  MkRFSC [Thread_new CPid_root (-1)] cps_init ∅ ∅ ∅ [] (VClockVec [] 0) (-1) false false false 0 0 [] 0
    None dt ut [].

(** ** The monad *)

Definition M (A : Type) : Type := RFSCTraceBuilder -> option (A * RFSCTraceBuilder).
#[export] Instance M_ret : MRet M := fun A x s => Some (x, s).
#[export] Instance M_bind : MBind M := fun A B k m s =>
  match m s with Some (x, s') => k x s' | None => None end.

Definition lift {A} (o : option A) : M A := fun s => x ← o; Some (x, s).
Definition gets {A} (f : RFSCTraceBuilder -> A) : M A := fun s => Some (f s, s).
Definition modify (f : RFSCTraceBuilder -> RFSCTraceBuilder) : M unit := fun s => Some (tt, f s).
Definition massert (b : bool) : M unit := lift (cassert b).
Definition when (b : bool) (m : M unit) : M unit := if b then m else mret tt.
Fixpoint loop {A St} (l : list A) (body : A -> St -> M St) (st : St) : M St :=
  match l with
  | [] => mret st
  | x :: l => st ← body x st; loop l body st
  end.
Definition each {A} (l : list A) (body : A -> M unit) : M unit := loop l (fun x _ => body x) tt.

(** ** Access to events and threads *)

Definition pfx_len : M Z := gets (fun s => Z.of_nat (length (prefix s))).
Definition pfx (i : Z) : M Event := es ← gets prefix; lift (zget es i).
Definition pfx_upd (i : Z) (f : Event -> Event) : M unit :=
  es ← gets prefix; e ← lift (zget es i); es ← lift (zset es i (f e)); modify (set_prefix es).

Definition cur_idx : M Z :=
  i ← gets prefix_idx; _ ← massert (bool_decide (0 <= i)); n ← pfx_len;
  _ ← massert (bool_decide (i < n)); mret i.
Definition curev : M Event := i ← cur_idx; pfx i.
Definition curev_upd (f : Event -> Event) : M unit := i ← cur_idx; pfx_upd i f.

Definition thread (p : Z) : M Thread := ts ← gets threads; lift (zget ts p).
Definition thread_upd (p : Z) (f : Thread -> Thread) : M unit :=
  ts ← gets threads; t ← lift (zget ts p); ts ← lift (zset ts p (f t)); modify (set_threads ts).

Definition get_iid : M Loc :=
  e ← curev; t ← thread (iid_pid (iid e)); mret (MkLoc (cpid t) (iid_index (iid e))).
Definition report (mk : Loc -> Error) : M unit :=
  l ← get_iid; modify (fun s => set_errors (errors s ++ [mk l]) s).
Definition nondeterminism_error (msg : string) : M unit := report (fun l => NondeterminismError l msg).
Definition invalid_input_error (msg : string) : M unit := report (fun l => InvalidInputError l msg).
Definition error_location (e : Error) : Loc :=
  match e with PthreadsError l _ | NondeterminismError l _ | InvalidInputError l _ | RobustnessError l => l end.

(** [try_find_process_event] and [find_process_event], on the fields they read. *)
Definition process_event (ts : list Thread) (es : list Event) (pid index : Z) : option nat :=
  _ ← cassert (bool_decide (0 <= pid < Z.of_nat (length ts)));
  t ← zget ts pid;
  _ ← cassert (bool_decide (1 <= index <= Z.of_nat (length (event_indices t))));
  k ← zget (event_indices t) (index - 1);
  e ← es !! k;
  _ ← cassert (bool_decide (size e > 0));
  _ ← cassert (bool_decide (iid_pid (iid e) = pid /\ iid_index (iid e) <= index /\
                            iid_index (iid e) + size e > index));
  Some k.
Definition try_process_event (ts : list Thread) (es : list Event) (pid index : Z) : option (option nat) :=
  _ ← cassert (bool_decide (0 <= pid < Z.of_nat (length ts)));
  _ ← cassert (bool_decide (index >= 1));
  t ← zget ts pid;
  if decide (index > Z.of_nat (length (event_indices t))) then Some None
  else k ← process_event ts es pid index; Some (Some k).

(** [po_predecessor] *)
Definition po_pred (ts : list Thread) (es : list Event) (i : nat) : option (option nat) :=
  e ← es !! i;
  if decide (iid_index (iid e) = 1) then Some None
  else k ← process_event ts es (iid_pid (iid e)) (iid_index (iid e) - 1); Some (Some k).

(** ** Scheduling *)

Definition mark_available (proc : Z) : M unit :=
  _ ← massert (bool_decide (0 <= proc)); thread_upd proc (set_available true).
Definition mark_unavailable (proc : Z) : M unit :=
  _ ← massert (bool_decide (0 <= proc)); thread_upd proc (set_available false).

(** The assertion on leaving a replayed event: it had its effect, if it has one,
    unless it failed with an error. *)
Definition assert_effect_seen : M unit :=
  i ← gets prefix_idx;
  when (bool_decide (0 <= i)) (
    e ← curev; seen ← gets seen_effect;
    if xorb (ev_empty (sym e)) seen then mret tt else
    errs ← gets errors; err ← lift (last errs); t ← thread (iid_pid (iid e));
    massert (bool_decide (loc_pid (error_location err) = cpid t /\
                          loc_index (error_location err) = iid_index (iid e)))).

Definition start_event (pid : Z) (i : Z) : M unit :=
  t ← thread pid; thread_upd pid (set_event_indices (event_indices t ++ [Z.to_nat i])).

(** Merging the last event into its predecessor of the same process. *)
Definition should_merge : M bool :=
  es ← gets prefix;
  match reverse es with
  | e :: e' :: _ => mret (bool_decide (iid_pid (iid e) = iid_pid (iid e')) && negb (may_conflict e))
  | _ => mret false
  end.
Definition merge_last : M unit :=
  e ← curev; _ ← massert (ev_empty (sym e));
  es ← gets prefix; es ← lift (vpop es); _ ← modify (set_prefix es);
  i ← gets prefix_idx; let i := i - 1 in
  _ ← modify (set_prefix_idx i);
  _ ← curev_upd (fun e => set_size (size e + 1) e);
  e ← curev; t ← thread (iid_pid (iid e));
  l ← lift (last (event_indices t));
  _ ← massert (bool_decide (Z.of_nat l = i + 1));
  rest ← lift (vpop (event_indices t));
  thread_upd (iid_pid (iid e)) (set_event_indices (rest ++ [Z.to_nat i])).

Fixpoint find_available (max_depth : Z) (ts : list Thread) (p : nat) : option nat :=
  match ts with
  | [] => None
  | t :: ts =>
    if available t && (bool_decide (max_depth < 0) || bool_decide (last_event_index t < max_depth))
    then Some p else find_available max_depth ts (S p)
  end.

(** [schedule]: the thread and the alternative, or [None] for [false]. There are no
    auxiliary threads and no dry runs. *)
Definition schedule_new (conf : Configuration) : M (option (Z * Z)) :=
  m ← should_merge;
  _ ← when m merge_last;
  ts ← gets threads;
  match find_available (max_search_depth conf) ts 0 with
  | None => mret None
  | Some p =>
    _ ← modify (set_seen_effect false);
    i ← gets prefix_idx; let i := i + 1 in
    _ ← modify (set_prefix_idx i);
    n ← pfx_len; _ ← massert (bool_decide (i = n));
    _ ← start_event (Z.of_nat p) i;
    t ← thread (Z.of_nat p);
    es ← gets prefix;
    _ ← modify (set_prefix (es ++ [Event_new (MkIID (Z.of_nat p) (last_event_index t)) SymEv_None]));
    mret (Some (Z.of_nat p, 0))
  end.

(** The replayed event is unfinished. *)
Definition event_unfinished : M bool :=
  i ← gets prefix_idx;
  if decide (0 <= i) then
    e ← curev; t ← thread (iid_pid (iid e));
    mret (bool_decide (last_event_index t < iid_index (iid e) + size e - 1))
  else mret false.

Definition schedule (conf : Configuration) : M (option (Z * Z)) :=
  c ← gets cancelled;
  if (c : bool) then
    ts ← gets threads; _ ← massert (negb (existsb available ts)); mret None
  else
    r ← gets replay;
    if (r : bool) then
      more ← event_unfinished;
      if (more : bool) then
        e ← curev; i ← gets prefix_idx;
        t ← thread (iid_pid (iid e)); _ ← massert (available t);
        _ ← start_event (iid_pid (iid e)) i;
        mret (Some (iid_pid (iid e), 0))
      else
        i ← gets prefix_idx; n ← pfx_len;
        _ ← assert_effect_seen;
        if decide (i + 1 = n) then
          _ ← modify (set_replay false); schedule_new conf
        else
          _ ← modify (set_seen_effect false);
          _ ← modify (set_prefix_idx (i + 1));
          e ← curev; t ← thread (iid_pid (iid e)); _ ← massert (available t);
          _ ← start_event (iid_pid (iid e)) (i + 1);
          mret (Some (iid_pid (iid e), alt e))
    else schedule_new conf.

Definition refuse_schedule : M unit :=
  i ← gets prefix_idx; n ← pfx_len; _ ← massert (bool_decide (i = n - 1));
  e ← curev;
  _ ← massert (bool_decide (size e = 1)); _ ← massert (negb (may_conflict e));
  let last_pid := iid_pid (iid e) in
  es ← gets prefix; es ← lift (vpop es); _ ← modify (set_prefix es);
  t ← thread last_pid; l ← lift (last (event_indices t));
  _ ← massert (bool_decide (Z.of_nat l = i));
  rest ← lift (vpop (event_indices t));
  _ ← thread_upd last_pid (set_event_indices rest);
  _ ← modify (set_prefix_idx (i - 1));
  mark_unavailable last_pid.

Definition is_replaying : M bool := gets (fun s => bool_decide (prefix_idx s < replay_point s)).

(** The position of the event with the greatest decision depth above [max_depth],
    the first one of several. *)
Fixpoint find_blame (es : list Event) (i : nat) (blame : option nat) (max_depth : Z) : option nat :=
  match es with
  | [] => blame
  | e :: es =>
    if decide (decision_depth e > max_depth) then find_blame es (S i) (Some i) (decision_depth e)
    else find_blame es (S i) blame max_depth
  end.

Definition cancel_replay : M unit :=
  r ← gets replay; r' ← is_replaying; _ ← massert (eqb r r');
  _ ← modify (set_cancelled true);
  _ ← modify (set_replay false);
  i ← gets prefix_idx; es ← gets prefix;
  _ ← massert (bool_decide (i < Z.of_nat (length es)));
  match find_blame (take (Z.to_nat (i + 1)) es) 0 None (-1) with
  | None => mret tt
  | Some b =>
    e ← pfx (Z.of_nat b); n ← lift (decision_ptr e);
    t ← gets decision_tree; t ← lift (prune_decisions n t);
    modify (set_decision_tree t)
  end.

Definition metadata (md : MDNode) : M unit :=
  _ ← modify (set_last_md md); curev_upd (set_ev_md md).

(** The computation [get_trace] returns: the identifiers of the events. *)
Definition get_trace : M (list Loc) :=
  es ← gets prefix;
  loop es (fun e acc => t ← thread (iid_pid (iid e)); mret (acc ++ [MkLoc (cpid t) (iid_index (iid e))])) [].

(** ** Recording what an event does *)

(** The name of a thread, or the number of one that does not exist. *)
Definition pid_str (ts : list Thread) (p : Z) : string :=
  match zget ts p with Some t => cpid_to_string (cpid t) | None => pretty p end.

Definition record_symbolic (ev : SymEv) : M bool :=
  r ← gets replay; seen ← gets seen_effect;
  _ ← massert (negb seen);
  if (r : bool) then
    e ← curev;
    ok ← lift (is_compatible_with (sym e) ev);
    if (ok : bool) then
      _ ← curev_upd (set_sym ev); _ ← modify (set_seen_effect true); mret true
    else
      ts ← gets threads;
      was ← lift (ev_to_string (pid_str ts) (sym e)); became ← lift (ev_to_string (pid_str ts) ev);
      _ ← nondeterminism_error ("Event with effect " +:+ was +:+ " became " +:+ became +:+ " when replayed"); mret false
  else
    _ ← curev_upd (set_sym ev); _ ← modify (set_seen_effect true); mret true.

Definition add_happens_after (second first : nat) : M unit :=
  _ ← massert (bool_decide (first < second)%nat);
  i ← gets prefix_idx; _ ← massert (bool_decide (Z.of_nat second <= i));
  e ← pfx (Z.of_nat second);
  if decide (last (happens_after e) = Some first) then mret tt
  else pfx_upd (Z.of_nat second) (set_happens_after (happens_after e ++ [first])).

Definition add_happens_after_thread (second : Z) (tgt : Z) : M unit :=
  i ← gets prefix_idx; _ ← massert (bool_decide (second = i));
  t ← thread tgt;
  match last (event_indices t) with
  | None => mret tt
  | Some l => add_happens_after (Z.to_nat second) l
  end.

Definition spawn : M bool :=
  _ ← curev_upd (set_may_conflict true);
  ts ← gets threads;
  ok ← record_symbolic (SymEv_Spawn (Z.of_nat (length ts)));
  if (ok : bool) then
    e ← curev; t ← thread (iid_pid (iid e));
    s ← gets CPS; r ← lift (cps_spawn s (cpid t));
    _ ← modify (set_CPS r.2);
    i ← gets prefix_idx; ts ← gets threads;
    _ ← modify (set_threads (ts ++ [Thread_new r.1 i]));
    mret true
  else mret false.

(** The bytes of a range, from the first on. *)
Definition do_atomic_store (sd : SymDataRef) : M unit :=
  _ ← curev_upd (set_may_conflict true);
  i ← gets prefix_idx;
  bs ← lift (sas_bytes (sdr_ref sd));
  each bs (fun b => m ← gets mem; modify (set_mem (<[b := i]> m))).

Definition last_update (m : gmap SymAddr Z) (a : SymAddr) : Z := default (-1) (m !! a).

Definition get_addr (es : list Event) (i : nat) : option SymAddrSize :=
  e ← es !! i; ev_addr (sym e).

Definition do_load (ml : SymAddrSize) : M unit :=
  _ ← curev_upd (set_may_conflict true);
  m ← gets mem;
  let lu := last_update m (sas_addr ml) in
  _ ← curev_upd (set_read_from (Some lu));
  es ← gets prefix;
  _ ← when (bool_decide (lu <> -1)) (
    a ← lift (get_addr es (Z.to_nat lu)); massert (sas_eq a ml));
  bs ← lift (sas_bytes ml);
  massert (forallb (fun b => bool_decide (last_update m b = lu)) bs).

Definition atomic_store (sd : SymDataRef) : M bool :=
  ok ← record_symbolic (SymEv_Store sd);
  if (ok : bool) then _ ← do_atomic_store sd; mret true else mret false.

Definition atomic_rmw (sd : SymDataRef) (action : RmwAction) : M bool :=
  ev ← lift (SymEv_Rmw sd action);
  ok ← record_symbolic ev;
  if (ok : bool) then
    _ ← do_load (sdr_ref sd); _ ← do_atomic_store sd; mret true
  else mret false.

Definition load (ml : SymAddrSize) : M bool :=
  ok ← record_symbolic (SymEv_Load ml);
  if (ok : bool) then _ ← do_load ml; mret true else mret false.

Definition compare_exchange (sd : SymDataRef) (expected : block_type) (success : bool) : M bool :=
  ok ← record_symbolic ((if success then SymEv_CmpXhg else SymEv_CmpXhgFail) sd expected);
  if (ok : bool) then
    _ ← do_load (sdr_ref sd); _ ← when success (do_atomic_store sd); mret true
  else mret false.

Definition full_memory_conflict : M bool :=
  _ ← invalid_input_error "RFSC does not support black-box functions with memory effects"; mret false.

(** The methods of condition variables and nondeterministic events. *)
Definition unsupported (msg : string) : M bool :=
  _ ← curev_upd (set_may_conflict true); _ ← invalid_input_error msg; mret false.

Definition fence : M bool := mret true.

Definition join (tgt_proc : Z) : M bool :=
  _ ← curev_upd (set_may_conflict true);
  ok ← record_symbolic (SymEv_Join tgt_proc);
  if (ok : bool) then
    i ← gets prefix_idx; _ ← add_happens_after_thread i tgt_proc; mret true
  else mret false.

(** *** Mutexes *)

Definition mutex_get (ml : SymAddrSize) : M Mutex :=
  m ← gets mutexes; mret (default Mutex_new (m !! sas_addr ml)).
Definition mutex_put (ml : SymAddrSize) (x : Mutex) : M unit :=
  m ← gets mutexes; modify (set_mutexes (<[sas_addr ml := x]> m)).

Definition mutex_lock (ml : SymAddrSize) : M bool :=
  _ ← curev_upd (set_may_conflict true);
  ok ← record_symbolic (SymEv_sync M_LOCK ml);
  if (ok : bool) then
    x ← mutex_get ml; i ← gets prefix_idx;
    _ ← curev_upd (set_read_from (Some (last_access x)));
    _ ← mutex_put ml (MkMutex i i true); mret true
  else mret false.

Definition mutex_lock_fail (conf : Configuration) (ml : SymAddrSize) : M bool :=
  m ← gets mutexes;
  _ ← massert (negb (mutex_require_init conf) || bool_decide (is_Some (m !! sas_addr ml)));
  x ← mutex_get ml;
  _ ← massert (bool_decide (0 <= last_lock x) && locked x);
  e ← curev; ds ← gets mutex_deadlocks;
  let deadlocks := default [] (ds !! sas_addr ml) in
  _ ← massert (negb (bool_decide (iid_pid (iid e) ∈ deadlocks)));
  _ ← modify (set_mutex_deadlocks (<[sas_addr ml := deadlocks ++ [iid_pid (iid e)]]> ds));
  mret true.

(** The entry that [mutexes\[...\]] makes for a mutex seen first is left out when the
    event is then refused: nothing reads it before the next [reset]. *)
Definition mutex_trylock (ml : SymAddrSize) : M bool :=
  x ← mutex_get ml;
  _ ← curev_upd (set_may_conflict true);
  ok ← record_symbolic (SymEv_sync (if locked x then M_TRYLOCK_FAIL else M_TRYLOCK) ml);
  if (ok : bool) then
    i ← gets prefix_idx;
    _ ← curev_upd (set_read_from (Some (last_access x)));
    _ ← mutex_put ml (if locked x then MkMutex i (last_lock x) true else MkMutex i i true);
    mret true
  else mret false.

Definition mutex_unlock (ml : SymAddrSize) : M bool :=
  _ ← curev_upd (set_may_conflict true);
  ok ← record_symbolic (SymEv_sync M_UNLOCK ml);
  if (ok : bool) then
    x ← mutex_get ml; i ← gets prefix_idx;
    _ ← curev_upd (set_read_from (Some (last_access x)));
    _ ← massert (bool_decide (0 <= last_access x));
    _ ← mutex_put ml (MkMutex i (last_lock x) false);
    ds ← gets mutex_deadlocks;
    _ ← modify (set_mutex_deadlocks (delete (sas_addr ml) ds));
    mret true
  else mret false.

Definition mutex_init (ml : SymAddrSize) : M bool :=
  _ ← curev_upd (set_may_conflict true);
  ok ← record_symbolic (SymEv_sync M_INIT ml);
  if (ok : bool) then
    m ← gets mutexes; _ ← massert (bool_decide (m !! sas_addr ml = None));
    _ ← curev_upd (set_read_from (Some (-1)));
    i ← gets prefix_idx;
    _ ← mutex_put ml (MkMutex i (-1) false); mret true
  else mret false.

Definition mutex_destroy (ml : SymAddrSize) : M bool :=
  _ ← curev_upd (set_may_conflict true);
  ok ← record_symbolic (SymEv_sync M_DELETE ml);
  if (ok : bool) then
    x ← mutex_get ml; i ← gets prefix_idx;
    _ ← curev_upd (set_read_from (Some (last_access x)));
    _ ← mutex_put ml (MkMutex i (last_lock x) false); mret true
  else mret false.

(** ** The next execution *)

(** [iid_map_step]: the map from processes to the index of their next event. *)
Definition iid_map_step (iid_map : list Z) (e : Event) : option (list Z) :=
  let p := iid_pid (iid e) in
  let m := if decide (Z.of_nat (length iid_map) <= p) then resize (Z.to_nat (p + 1)) 1 iid_map else iid_map in
  x ← zget m p; zset m p (x + size e).

(** The event of a branch: where its thread is, and the decision it belongs to. *)
Definition branch_event (t : dtree) (item : nat) (iid_map : list Z) (b : Branch) : option Event :=
  index ← (if decide (Z.of_nat (length iid_map) <= b_pid b) then Some 1 else zget iid_map (b_pid b));
  i ← iid_make (b_pid b) index;
  ptr ← (if decide (b_decision_depth b = -1) then Some None
         else n ← find_ancestor t item (b_decision_depth b); Some (Some n));
  Some (set_decision_fields ptr (b_decision_depth b)
    (set_pinned (b_pinned b) (set_size (b_size b) (Event_new i (b_sym b))))).

Fixpoint leaf_events (t : dtree) (item : nat) (iid_map : list Z) (bs : list Branch) : option (list Event) :=
  match bs with
  | [] => Some []
  | b :: bs =>
    e ← branch_event t item iid_map b;
    m ← iid_map_step iid_map e;
    es ← leaf_events t item m bs;
    Some (e :: es)
  end.

(** The work items that [dequeue] returns are [tasks], then null pointers; pruned
    ones are passed over. *)
Fixpoint next_item (t : dtree) (tasks : list nat) (pruned : Z) : option (option nat * Z) :=
  match tasks with
  | [] => Some (None, pruned)
  | n :: tasks =>
    p ← is_pruned t n;
    if (p : bool) then next_item t tasks (pruned + 1) else Some (Some n, pruned)
  end.

Definition reset (tasks : list nat) : M bool :=
  t ← gets decision_tree;
  r ← lift (next_item t tasks 0);
  _ ← modify (set_work_item r.1);
  match r.1 with
  | None =>
    modify (fun s => MkRFSC (threads s) (CPS s) (mem s) (mutexes s) (mutex_deadlocks s) (prefix s) (below_clocks s)
      (prefix_idx s) (seen_effect s) (replay s) (cancelled s) (replay_point s) (last_md s) (errors s)
      (tasks_created s - r.2) (work_item s) (decision_tree s) (unfolding_tree s) (enqueued s));;
    mret false
  | Some item =>
    nd ← lift (dnodes t !! item);
    let l := leaf nd in
    let t := set_dnodes (<[item := take_leaf nd]> (dnodes t)) t in
    _ ← massert (negb (is_bottom l));
    _ ← massert (eqb (bool_decide (leaf_prefix l = [])) (bool_decide (depth nd = -1)));
    es ← lift (leaf_events t item [] (leaf_prefix l));
    _ ← massert (forallb (fun d => existsb (fun e => bool_decide (decision_depth e = Z.of_nat d)) es)
                         (seq 0 (Z.to_nat (depth nd))));
    modify (fun s => MkRFSC [Thread_new CPid_root (-1)] cps_init ∅ ∅ ∅ es (below_clocks s) (-1) (seen_effect s)
      true false (Z.of_nat (length (leaf_prefix l))) 0 (errors s) 0 (Some item) t (unfolding_tree s) (enqueued s));;
    mret true
  end.
