(* ===== verification/RfscAnalysis.v ===== *)
(** * RfscAnalysis: what the reads-from exploration does with a trace
      (RFSCTraceBuilder.cpp, from [rev_recompute_data] on)

    When a trace has run, [compute_prefixes] computes its vector clocks and names
    its events in the unfolding tree, and then tries, for every load, each other
    write it could read from, and each swap of two mutex operations or
    read-modify-writes: it changes the reads-from in place, asks [try_sat] for an
    execution of the events that the change keeps, enqueues a leaf for it, and puts
    the trace back as it was.

    Parameters: the answer of the SMT solver to a formula, the order in which the
    hash map of the saturated graph is visited, and whether the prefix heuristic is
    switched off. *)

From S2P Require Import Prelude.
From S2P Require Import SatGraph.
From S2P Require Import Prefix.
From S2P Require Import VClock.
From S2P Require Import CPid.
From S2P Require Import SymAddr.
From S2P Require Import ByteOps.
From S2P Require Import SymEv.
From S2P Require Import Unfold.
From S2P Require Import Decision.
From S2P Require Import Rfsc.

Local Open Scope Z_scope.

(** ** What events are *)

Definition symev_is_lock_type (e : SymEv) : bool :=
  match ev_kind e with
  | M_INIT | M_LOCK | M_TRYLOCK | M_TRYLOCK_FAIL | M_UNLOCK | M_DELETE => true | _ => false
  end.
Definition sym_is_load (e : SymEv) : bool :=
  match ev_kind e with LOAD | RMW | CMPXHG | CMPXHGFAIL => true | _ => symev_is_lock_type e end.
Definition sym_is_store (e : SymEv) : bool :=
  match ev_kind e with STORE | CMPXHG | RMW => true | _ => symev_is_lock_type e end.
Definition sym_does_lock (e : SymEv) : bool :=
  match ev_kind e with M_LOCK | M_TRYLOCK => true | _ => false end.

Definition at_event (f : SymEv -> bool) (es : list Event) (i : nat) : option bool :=
  e ← es !! i; Some (f (sym e)).
Definition is_load := at_event sym_is_load.
Definition is_store := at_event sym_is_store.
Definition is_lock_type := at_event symev_is_lock_type.
Definition does_lock := at_event sym_does_lock.
Definition is_lock := at_event (fun e => bool_decide (ev_kind e = M_LOCK)).
Definition is_trylock_fail := at_event (fun e => bool_decide (ev_kind e = M_TRYLOCK_FAIL)).
Definition is_unlock := at_event (fun e => bool_decide (ev_kind e = M_UNLOCK)).
Definition is_cmpxhgfail := at_event (fun e => bool_decide (ev_kind e = CMPXHGFAIL)).

(** [get_data]: the value an event leaves in its location, zeroes at the start. *)
Definition get_data (es : list Event) (i : Z) (addr : SymAddrSize) : option SymDataRef :=
  if decide (i = -1) then Some (MkSymDataRef addr (Some (replicate (Z.to_nat (sas_size addr)) 0)))
  else
    e ← zget es i;
    _ ← cassert (has_data (sym e));
    a ← ev_addr (sym e);
    _ ← cassert (sas_eq a addr);
    ev_data (sym e).

(** [memcmp] of the blocks is 0. *)
Definition same_data (a b : SymDataRef) (n : Z) : option bool :=
  x ← sdr_block a; y ← sdr_block b;
  _ ← cassert (bool_decide (n <= Z.of_nat (length x)) && bool_decide (n <= Z.of_nat (length y)));
  Some (bool_decide (take (Z.to_nat n) x = take (Z.to_nat n) y)).

(** A compare-exchange [ev] finds the value it expects when it reads from [rf]. *)
Definition finds_expected (es : list Event) (ev : SymEv) (rf : Z) : option bool :=
  expected ← ev_expected_data ev;
  a ← ev_addr ev;
  actual ← get_data es rf a;
  _ ← cassert (sas_eq a (sdr_ref actual));
  same_data expected actual (sas_size a).

Definition is_store_when_reading_from (es : list Event) (i : nat) (rf : Z) : option bool :=
  e ← es !! i;
  match ev_kind (sym e) with
  | STORE | RMW => Some true
  | CMPXHG | CMPXHGFAIL => finds_expected es (sym e) rf
  | _ => Some (symev_is_lock_type (sym e))
  end.

(** ** Vector clocks *)

Definition compute_above_clock (i : nat) : M (option nat) :=
  e ← pfx (Z.of_nat i); ts ← gets threads; es ← gets prefix;
  let p := iid_pid (iid e) in
  let iidx := iid_index (iid e) in
  last ← (if decide (iidx > 1) then
            k ← lift (process_event ts es p (iidx - 1)); l ← pfx (Z.of_nat k);
            _ ← pfx_upd (Z.of_nat i) (set_clock (clock l)); mret (Some k)
          else
            _ ← pfx_upd (Z.of_nat i) (set_clock []);
            t ← thread p;
            _ ← when (bool_decide (0 <= spawn_event t)) (add_happens_after i (Z.to_nat (spawn_event t)));
            mret None);
  e ← pfx (Z.of_nat i);
  c ← lift (vc_set (clock e) p iidx);
  es ← gets prefix;
  c ← lift (for_each (happens_after e) (fun j c =>
        _ ← cassert (bool_decide (j < i)%nat); ej ← es !! j; vc_plus_assign c (clock ej)) c);
  _ ← pfx_upd (Z.of_nat i) (fun e => set_above_clock c (set_clock c e));
  mret last.


(** The forward pass for event [i], with the successors found so far. *)
Definition forward_clock (i : nat) (after : list (list nat)) : M (list (list nat)) :=
  last ← compute_above_clock i;
  after ← lift (match last with Some l => push_at after l i | None => Some after end);
  e ← pfx (Z.of_nat i);
  after ← lift (for_each (happens_after e) (fun j after => push_at after j i) after);
  match read_from e with
  | Some w =>
    if decide (w <> -1) then
      ew ← pfx w; c ← lift (vc_plus_assign (clock e) (clock ew));
      _ ← pfx_upd (Z.of_nat i) (set_clock c);
      lift (push_at after (Z.to_nat w) i)
    else mret after
  | None => mret after
  end.

(** The backward pass for event [i]. *)
Definition backward_clock (es : list Event) (after : list (list nat)) (i : nat) (b : vclockvec) : option vclockvec :=
  base ← vcv_at b (Z.of_nat i);
  e ← es !! i;
  v ← ref_set (vcv_vec b) base (vcv_clock_size b) (iid_pid (iid e)) (iid_index (iid e));
  succs ← after !! i;
  v ← for_each succs (fun j v =>
        _ ← cassert (bool_decide (i < j)%nat);
        base' ← vcv_at (VClockVec v (vcv_clock_size b)) (Z.of_nat j);
        ref_minus_assign v base base' (vcv_clock_size b) (vcv_clock_size b)) v;
  Some (VClockVec v (vcv_clock_size b)).

Definition top_clock (ts : list Thread) : vclock := last_event_index <$> ts.

Definition compute_vclocks : M unit :=
  es ← gets prefix;
  let n := length es in
  after ← loop (seq 0 n) forward_clock (replicate n []);
  ts ← gets threads; es ← gets prefix; b ← gets below_clocks;
  b ← lift (vcv_assign b (length ts) n (top_clock ts));
  b ← lift (for_each (reverse (seq 0 n)) (backward_clock es after) b);
  modify (set_below_clocks b).

Definition happens_before (e : Event) (c : vclock) : option bool :=
  vc_includes c (iid_pid (iid e)) (iid_index (iid e)).

Definition can_rf_by_vclocks (es : list Event) (r ow w : Z) : option bool :=
  er ← zget es r;
  _ ← (if decide (w <> -1) then ew ← zget es w; hb ← happens_before er (clock ew); cassert (negb hb)
       else Some tt);
  if decide (ow <> -1) then
    eow ← zget es ow;
    before ← (if decide (w = -1) then Some true else ew ← zget es w; happens_before ew (clock eow));
    if (before : bool) then hb ← happens_before eow (above_clock er); Some (negb hb) else Some true
  else Some true.

Definition can_swap_by_vclocks (es : list Event) (r w : nat) : option bool :=
  er ← es !! r; ew ← es !! w; hb ← happens_before er (above_clock ew); Some (negb hb).
Definition can_swap_lock_by_vclocks (es : list Event) (f u s : nat) : option bool :=
  ef ← es !! f; e ← es !! s; hb ← happens_before ef (above_clock e); Some (negb hb).

(** ** The causal past of decisions *)

(** The events before event [i] in one step: what it reads from, the edges, its
    predecessor in the process, in the order [causal_past_1] visits them. *)
Definition past_of (ts : list Thread) (es : list Event) (i : nat) : option (list nat) :=
  e ← es !! i;
  pred ← po_pred ts es i;
  Some (match read_from e with Some w => if decide (w <> -1) then [Z.to_nat w] else [] | None => [] end
        ++ happens_after e ++ option_list pred).

(** Recursion marks an event at every call that goes on, so that one more than
    the number of events is enough fuel. *)
Fixpoint causal_past_1 (fuel : nat) (ts : list Thread) (es : list Event) (i : nat) (acc : list bool)
    : option (list bool) :=
  match fuel with
  | O => None
  | S fuel =>
    b ← acc !! i;
    if (b : bool) then Some acc
    else
      past ← past_of ts es i;
      for_each past (causal_past_1 fuel ts es) (<[i := true]> acc)
  end.

Definition causal_past (ts : list Thread) (es : list Event) (decision : Z) : option (list bool) :=
  for_each (seq 0 (length es)) (fun i acc =>
    e ← es !! i;
    let d := decision_depth e in
    _ ← cassert (negb (bool_decide (d <> -1) && pinned e));
    _ ← cassert (eqb (sym_is_load (sym e)) (bool_decide (d <> -1) || pinned e));
    if decide (d <> -1 /\ d <= decision) then causal_past_1 (S (length es)) ts es i acc else Some acc)
    (replicate (length es) false).

(** ** The formula for the SMT solver *)

Inductive constr :=
| Edge (from to : nat)
| EdgeDisj (froma toa fromb tob : nat).

Record formula := MkFormula { variables : nat; constraints : list constr }.

(** Number of kept events before each position: its variable. *)
Fixpoint number_kept (keep : list bool) (no_keep : nat) : list nat :=
  match keep with
  | [] => []
  | k :: keep => no_keep :: number_kept keep (if k then S no_keep else no_keep)
  end.

Section output_formula.
Context (ts : list Thread) (es : list Event) (writes_by_address : gmap SymAddr (list Z)) (keep : list bool).
Let var := number_kept keep 0.

Definition kept (i : nat) : bool := default false (keep !! i).
Definition writes_at (a : SymAddr) : list Z := default [] (writes_by_address !! a).

Definition po_constr (i : nat) (cs : list constr) : option (list constr) :=
  k ← keep !! i;
  if (k : bool) then
    pred ← po_pred ts es i;
    match pred with
    | Some p => _ ← cassert (bool_decide (p <> i)); vp ← var !! p; vi ← var !! i; Some (cs ++ [Edge vp vi])
    | None => Some cs
    end
  else Some cs.

(** Read [r] comes after its write [w], and no other write between them. *)
Definition rf_constr (r : nat) (cs : list constr) : option (list constr) :=
  k ← keep !! r; e ← es !! r;
  match read_from e with
  | Some w =>
    if (k : bool) then
      _ ← cassert (bool_decide (Z.of_nat r <> w));
      a ← get_addr es r;
      vr ← var !! r;
      if decide (w = -1) then
        for_each (writes_at (sas_addr a)) (fun j cs =>
          if decide (j = Z.of_nat r) then Some cs else
          kj ← zget keep j;
          if (kj : bool) then vj ← zget var j; Some (cs ++ [Edge vr vj]) else Some cs) cs
      else
        vw ← zget var w;
        for_each (writes_at (sas_addr a)) (fun j cs =>
          if decide (j = w \/ j = Z.of_nat r) then Some cs else
          kj ← zget keep j;
          if (kj : bool) then vj ← zget var j; Some (cs ++ [EdgeDisj vj vw vr vj]) else Some cs)
          (cs ++ [Edge vw vr])
    else Some cs
  | None => Some cs
  end.

Definition ha_constr (i : nat) (cs : list constr) : option (list constr) :=
  k ← keep !! i; e ← es !! i;
  if (k : bool) then
    for_each (happens_after e) (fun j cs => vj ← var !! j; vi ← var !! i; Some (cs ++ [Edge vj vi])) cs
  else Some cs.

Definition output_formula : option formula :=
  let n := length es in
  cs ← for_each (seq 0 n) po_constr [];
  cs ← for_each (seq 0 n) rf_constr cs;
  cs ← for_each (seq 0 n) ha_constr cs;
  Some (MkFormula (length (filter (fun b => b = true) keep)) cs).
End output_formula.

(** ** Leaves *)

(** [order_to_leaf]: the events of [order] as branches. Those that were decided
    after [decision] are pinned to what they read, those changed have size 1. *)
Definition leaf_branch (es : list Event) (decision : Z) (changed : list nat) (i : nat) : option Branch :=
  e ← es !! i;
  let is_changed := bool_decide (i ∈ changed) in
  let later := bool_decide (decision_depth e > decision) in
  Some (MkBranch (iid_pid (iid e)) (if is_changed then 1 else size e)
    (if later then -1 else decision_depth e) (pinned e || later) (sym e)).
Definition order_to_leaf (es : list Event) (decision : Z) (changed order : list nat) : option Leaf :=
  bs ← mapM (leaf_branch es decision changed) order; Some (Leaf_of bs).

(** ** Compare-exchanges and trylocks whose outcome changes *)

Inductive log_kind := LOG_NONE | SUCCEED | FAIL | M_SUCCEED | M_FAIL.
Record CmpXhgUndoLog := MkLog { log_kind_of : log_kind; log_idx : nat; log_pos : nat }.

(** [delete_from_back]: the last occurrence of [val] is replaced by the back. *)
Fixpoint find_back (l : list Z) (val : Z) (n : nat) : option nat :=
  match n with
  | O => None
  | S n => x ← l !! n; if decide (val = x) then Some n else find_back l val n
  end.
Definition delete_from_back (l : list Z) (val : Z) : option (nat * list Z) :=
  i ← find_back l val (length l);
  b ← last l;
  l ← vpop (<[i := b]> l);
  Some (i, l).

(** [recompute_cmpxhg_success] on the events and the writes to the address. *)
Definition recompute_cmpxhg_success (idx : nat) (es : list Event) (writes : list Z)
    : option (CmpXhgUndoLog * list Event * list Z) :=
  e ← es !! idx;
  let ev := sym e in
  match ev_kind ev with
  | M_TRYLOCK | M_TRYLOCK_FAIL =>
    let before := bool_decide (ev_kind ev = M_TRYLOCK) in
    rf ← read_from e;
    after ← (if decide (rf = -1) then Some true else l ← does_lock es (Z.to_nat rf); Some (negb l));
    a ← ev_addr ev;
    match before, after with
    | false, true =>
      Some (MkLog M_FAIL idx (length writes),
            <[idx := set_sym (SymEv_sync M_TRYLOCK a) e]> es, writes ++ [Z.of_nat idx])
    | true, false =>
      r ← delete_from_back writes (Z.of_nat idx);
      Some (MkLog M_SUCCEED idx r.1, <[idx := set_sym (SymEv_sync M_TRYLOCK_FAIL a) e]> es, r.2)
    | _, _ => Some (MkLog LOG_NONE idx 0, es, writes)
    end
  | CMPXHG | CMPXHGFAIL =>
    let before := bool_decide (ev_kind ev = CMPXHG) in
    rf ← read_from e;
    expected ← ev_expected_data ev;
    a ← ev_addr ev;
    actual ← get_data es rf a;
    after ← same_data expected actual (sas_size a);
    d ← ev_data ev;
    let es := <[idx := set_sym ((if (after : bool) then SymEv_CmpXhg else SymEv_CmpXhgFail) d (sdr_block expected)) e]> es in
    match before, (after : bool) with
    | false, true => Some (MkLog FAIL idx (length writes), es, writes ++ [Z.of_nat idx])
    | true, false => r ← delete_from_back writes (Z.of_nat idx); Some (MkLog SUCCEED idx r.1, es, r.2)
    | _, _ => Some (MkLog LOG_NONE idx 0, es, writes)
    end
  | _ => Some (MkLog LOG_NONE idx 0, es, writes)
  end.

(** The two ends of [undo_cmpxhg_recomputation]: put the write back at its
    position, or remove the one that was added. *)
Definition undo_succeed (l : CmpXhgUndoLog) (writes : list Z) : option (list Z) :=
  let writes := writes ++ [Z.of_nat (log_idx l)] in
  x ← writes !! log_pos l;
  Some (<[log_pos l := Z.of_nat (log_idx l)]> (<[length writes - 1 := x]> writes)%nat).
Definition undo_fail (l : CmpXhgUndoLog) (writes : list Z) : option (list Z) :=
  b ← last writes;
  _ ← cassert (bool_decide (b = Z.of_nat (log_idx l)));
  _ ← cassert (bool_decide (length writes - 1 = log_pos l)%nat);
  vpop writes.

Definition undo_cmpxhg_recomputation (l : CmpXhgUndoLog) (es : list Event) (writes : list Z)
    : option (list Event * list Z) :=
  match log_kind_of l with
  | LOG_NONE => Some (es, writes)
  | k =>
    e ← es !! log_idx l;
    let put ev := <[log_idx l := set_sym ev e]> es in
    match k with
    | M_SUCCEED => a ← ev_addr (sym e); w ← undo_succeed l writes; Some (put (SymEv_sync M_TRYLOCK a), w)
    | M_FAIL => a ← ev_addr (sym e); w ← undo_fail l writes; Some (put (SymEv_sync M_TRYLOCK_FAIL a), w)
    | SUCCEED => d ← ev_data (sym e); x ← ev_expected_data (sym e); w ← undo_succeed l writes;
                 Some (put (SymEv_CmpXhg d (sdr_block x)), w)
    | _ => d ← ev_data (sym e); x ← ev_expected_data (sym e); w ← undo_fail l writes;
           Some (put (SymEv_CmpXhgFail d (sdr_block x)), w)
    end
  end.
