(* ===== verification/RfscExplore.v ===== *)
(** * RfscExplore: the search for new executions (RFSCTraceBuilder.cpp,
      [compute_unfolding], [try_sat], [compute_prefixes])

    The closures of [compute_prefixes] are definitions here; the map
    [writes_by_address], which they change and put back, is passed through. *)

From S2P Require Import Prelude.
From S2P Require Import SatGraph.
From S2P Require Import Prefix.
From S2P Require Import VClock.
From S2P Require Import CPid.
From S2P Require Import SymAddr.
From S2P Require Import ByteOps.
From S2P Require Import SymEv.
From S2P Require Import Unfold.
From S2P Require Import Decision.
From S2P Require Import Rfsc.
From S2P Require Import RfscAnalysis.

Local Open Scope Z_scope.

(** ** The unfolding *)

(** A node of the unfolding tree, and its [find_unfolding_node]. *)
Definition unode (n : NodePtr) : M UnfoldingNode :=
  t ← gets unfolding_tree; lift (n ← n; nodes t !! n).
Definition find_unf (p : Z) (parent read_from : NodePtr) : M NodePtr :=
  t ← thread p; u ← gets unfolding_tree;
  r ← lift (find_unfolding_node (cpid t) parent read_from u);
  _ ← modify (set_unfolding_tree r.2); mret (Some r.1).

Definition event_of (i : Z) : M NodePtr := e ← pfx i; mret (event e).
(** The node of the event before index [index] of process [p]. *)
Definition parent_event (p index : Z) : M NodePtr :=
  if decide (index = 1) then mret None
  else ts ← gets threads; es ← gets prefix;
       k ← lift (process_event ts es p (index - 1)); event_of (Z.of_nat k).
Definition read_from_event (rf : option Z) : M NodePtr :=
  match rf with
  | Some w => if decide (w <> -1) then event_of w else mret None
  | None => mret None
  end.

Definition unfold_find_unfolding_node (p index : Z) (prefix_rf : option Z) : M NodePtr :=
  parent ← parent_event p index; rf ← read_from_event prefix_rf; find_unf p parent rf.
Definition unfold_alternative (i : Z) (read_from : NodePtr) : M NodePtr :=
  e ← pfx i; nd ← unode (event e); find_unf (iid_pid (iid e)) (uparent nd) read_from.

(** The round of [compute_unfolding] for event [i]. *)
Definition unfold_event (i : nat) (deepest_node : nat) : M nat :=
  let zi := Z.of_nat i in
  e ← pfx zi;
  t ← gets decision_tree;
  dn ← lift (dnodes t !! deepest_node);
  deepest_node ← lift (match decision_ptr e with
    | None => Some deepest_node
    | Some l => ld ← dnodes t !! l; Some (if decide (depth ld > depth dn) then l else deepest_node)
    end);
  let p := iid_pid (iid e) in
  parent ← parent_event p (iid_index (iid e));
  if negb (may_conflict e) && bool_decide (parent <> None) then
    _ ← pfx_upd zi (set_event parent); mret deepest_node
  else
    rf ← read_from_event (read_from e);
    rf ← (if decide (ev_kind (sym e) = JOIN) then
            _ ← massert (match read_from e with Some w => bool_decide (w = -1) | None => true end);
            n ← lift (ev_num (sym e)); t ← thread n;
            l ← lift (last (event_indices t)); event_of (Z.of_nat l)
          else mret rf);
    ev ← find_unf p parent rf;
    _ ← pfx_upd zi (set_event ev);
    rp ← gets replay_point;
    if bool_decide (rp <= zi) && sym_is_load (sym e) then
      nd ← unode ev;
      let decision := if symev_is_lock_type (sym e) then ev else uread_from nd in
      t ← gets decision_tree;
      r ← lift (new_decision_node deepest_node decision t);
      _ ← modify (set_decision_tree r.2);
      d ← lift (dnodes r.2 !! r.1);
      _ ← pfx_upd zi (set_decision_fields (Some r.1) (depth d)); mret r.1
    else mret deepest_node.

Definition compute_unfolding : M unit :=
  w ← gets work_item; w ← lift w;
  es ← gets prefix;
  d ← loop (seq 0 (length es)) unfold_event w;
  modify (set_work_item (Some d)).

(** ** Executions of a changed trace *)

Definition no_addr : SymAddr := MkSymAddr (MkSymMBlock UINT16_MAX 0) 0.

Abbreviation writes_map := (gmap SymAddr (list Z)).

Section explore.
Context (order : gmap nat nat -> list (nat * nat)) (no_heuristic : bool).
(** [check_sat] and [get_model]: the positions of the variables, if there are some. *)
Context (solver : formula -> option (list nat)).

Definition event_kind (e : SymEv) : EventKind :=
  if sym_is_load e then (if sym_is_store e then SatGraph.RMW else SatGraph.LOAD)
  else if sym_is_store e then SatGraph.STORE else SatGraph.NONE.

Definition add_event_to_graph (es : list Event) (g : graph) (i : nat) : option graph :=
  e ← es !! i;
  let kind := event_kind (sym e) in
  addr ← (if decide (kind <> SatGraph.NONE) then a ← get_addr es i; Some (sas_addr a) else Some no_addr);
  rf ← match read_from e with
       | Some w => if decide (w <> -1) then ew ← zget es w; Some (Some (iid ew)) else Some None
       | None => Some None
       end;
  ha ← mapM (fun j => ej ← es !! j; Some (iid ej)) (happens_after e);
  add_event order (Z.to_nat (iid_pid (iid e))) (iid e) kind addr rf ha g.

(** Adding the kept events that are not in the graph yet. *)
Definition add_kept (es : list Event) (keep : list bool) (skip : option nat) (g : graph) : option graph :=
  for_each (seq 0 (length es)) (fun i g =>
    k ← keep !! i; e ← es !! i;
    if (k : bool) && bool_decide (Some i <> skip) && negb (has_event g (iid e))
    then add_event_to_graph es g i else Some g) g.

Definition construct_graph (ts : list Thread) (es : list Event) (depth : Z) (g : graph) : option graph :=
  keep ← causal_past ts es (depth - 1);
  g ← add_kept es keep None g;
  r ← saturate g;
  _ ← cassert r.1;
  Some r.2.

Definition get_cached_graph (decision : nat) : M graph :=
  ts ← gets threads; es ← gets prefix; t ← gets decision_tree;
  nd ← lift (dnodes t !! decision);
  r ← lift (get_saturated_graph decision (construct_graph ts es (depth nd)) t);
  _ ← modify (set_decision_tree r.2);
  mret r.1.

(** The order of a model: the kept events at the positions of their variables. *)
Fixpoint model_order (keep : list bool) (i : nat) (model : list nat) (order : list nat) : option (list nat) :=
  match keep with
  | [] => Some order
  | k :: keep =>
    if (k : bool) then
      match model with
      | [] => None
      | pos :: model => order ← vset order pos i; model_order keep (S i) model order
      end
    else model_order keep (S i) model order
  end.

(** What [try_sat] does with the graph: an order of the kept events, or none. *)
Definition find_order (ts : list Thread) (es : list Event) (keep : list bool) (last_change : nat)
    (wba : writes_map) (g : graph) : option (option (list nat)) :=
  g ← clone g;
  g ← add_kept es keep (Some last_change) g;
  g ← add_event_to_graph es g last_change;
  r ← saturate g;
  if negb r.1 then Some None
  else
    res ← try_generate_prefix no_heuristic r.2 (iid <$> es);
    match res with
    | Some ids => o ← mapM (fun x => process_event ts es (iid_pid x) (iid_index x)) ids; Some (Some o)
    | None =>
      f ← output_formula ts es wba keep;
      match solver f with
      | None => Some None
      | Some model => o ← model_order keep 0 model (replicate (variables f) 0%nat); Some (Some o)
      end
    end.

Definition try_sat (changed : list nat) (wba : writes_map) : M Leaf :=
  last_change ← lift (last changed);
  e ← pfx (Z.of_nat last_change);
  decision ← lift (decision_ptr e);
  t ← gets decision_tree; nd ← lift (dnodes t !! decision);
  ts ← gets threads; es ← gets prefix;
  keep ← lift (causal_past ts es (depth nd));
  g ← get_cached_graph decision;
  o ← lift (find_order ts es keep last_change wba g);
  lift (match o with
        | None => Some Leaf_bottom
        | Some o => order_to_leaf es (depth nd) changed o
        end).

(** ** Trying alternatives *)

Definition alloc (decision : nat) (unf : NodePtr) : M bool :=
  t ← gets decision_tree; r ← lift (try_alloc_unf decision unf t);
  _ ← modify (set_decision_tree r.2); mret r.1.

(** A solution is enqueued as a sibling of the decision. *)
Definition enqueue_leaf (decision : nat) (unf : NodePtr) (solution : Leaf) : M unit :=
  when (negb (is_bottom solution)) (
    t ← gets decision_tree; r ← lift (construct_sibling decision unf solution t);
    _ ← modify (set_decision_tree r.2); modify (add_task r.1)).

(** [prefix\[i\].decision_swap(prefix\[j\])] *)
Definition decision_swap (i j : Z) : M unit :=
  a ← pfx i; b ← pfx j;
  _ ← pfx_upd i (set_decision_fields (decision_ptr b) (decision_depth b));
  pfx_upd j (set_decision_fields (decision_ptr a) (decision_depth a)).

Definition decision_of (i : Z) : M nat := e ← pfx i; lift (decision_ptr e).
Definition original_read_from (i : Z) : M Z := e ← pfx i; lift (read_from e).
Definition read_from_node (i : Z) : M NodePtr := e ← pfx i; nd ← unode (event e); mret (uread_from nd).

(** The common part of [try_swap] and [try_swap_lock]: [j] reads from what [i] reads
    from, and the decision of [i] becomes that of [j]; [back] is what [j] reads from. *)
Definition swap_reads (i j : nat) (back : Z) (decision : nat) (alt : NodePtr) (wba : writes_map) : M unit :=
  let zi := Z.of_nat i in let zj := Z.of_nat j in
  orf ← original_read_from zi;
  _ ← pfx_upd zj (set_read_from (Some orf));
  _ ← decision_swap zi zj;
  solution ← try_sat [j] wba;
  _ ← enqueue_leaf decision alt solution;
  _ ← pfx_upd zj (set_read_from (Some back));
  decision_swap zi zj.

Definition try_swap (i j : nat) (wba : writes_map) : M unit :=
  let zi := Z.of_nat i in
  _ ← original_read_from zi;
  rn ← read_from_node zi;
  alt ← unfold_alternative (Z.of_nat j) rn;
  decision ← decision_of zi;
  fresh ← alloc decision alt;
  if negb fresh then mret tt else
  es ← gets prefix; ok ← lift (can_swap_by_vclocks es i j);
  if negb ok then mret tt else swap_reads i j (Z.of_nat i) decision alt wba.

Definition try_swap_lock (i unlock j : nat) (wba : writes_map) : M unit :=
  let zi := Z.of_nat i in
  es ← gets prefix;
  dl ← lift (does_lock es i); ul ← lift (is_unlock es unlock); l ← lift (is_lock es j);
  rf ← original_read_from (Z.of_nat j);
  _ ← massert (dl && ul && l && bool_decide (rf = Z.of_nat unlock));
  rn ← read_from_node zi;
  alt ← unfold_alternative (Z.of_nat j) rn;
  decision ← decision_of zi;
  fresh ← alloc decision alt;
  if negb fresh then mret tt else
  es ← gets prefix; ok ← lift (can_swap_lock_by_vclocks es i unlock j);
  if negb ok then mret tt else swap_reads i j (Z.of_nat unlock) decision alt wba.

(** Event [i] is replaced by the lock that process [jp] is blocked at. *)
Definition try_swap_blocked (i : nat) (jp : Z) (s : SymEv) (wba : writes_map) : M unit :=
  let zi := Z.of_nat i in
  orf ← original_read_from zi;
  t ← thread jp;
  let jidx := last_event_index t + 1 in
  alt ← unfold_find_unfolding_node jp jidx (Some orf);
  decision ← decision_of zi;
  fresh ← alloc decision alt;
  if negb fresh then mret tt else
  j ← gets prefix_idx; let j := j + 1 in
  _ ← modify (set_prefix_idx j);
  n ← pfx_len; _ ← massert (bool_decide (n = j));
  es ← gets prefix;
  _ ← modify (set_prefix (es ++ [set_event alt (Event_new (MkIID jp jidx) s)]));
  _ ← start_event jp j;
  _ ← compute_above_clock (Z.to_nat j);
  es ← gets prefix;
  ok ← lift (can_swap_by_vclocks es i (Z.to_nat j));
  _ ← when ok (
    _ ← pfx_upd j (set_read_from (Some orf));
    _ ← decision_swap zi j;
    e ← pfx zi; _ ← massert (negb (pinned e));
    _ ← pfx_upd zi (set_pinned true);
    solution ← try_sat [Z.to_nat j] wba;
    _ ← enqueue_leaf decision alt solution;
    _ ← decision_swap zi j;
    pfx_upd zi (set_pinned false));
  t ← thread jp; rest ← lift (vpop (event_indices t));
  _ ← thread_upd jp (set_event_indices rest);
  es ← gets prefix; es ← lift (vpop es); _ ← modify (set_prefix es);
  modify (set_prefix_idx (j - 1)).

(** [recompute_cmpxhg_success] and its undoing on the state and the map. *)
Definition recompute (idx : nat) (a : SymAddr) (wba : writes_map) : M (CmpXhgUndoLog * writes_map) :=
  es ← gets prefix;
  r ← lift (recompute_cmpxhg_success idx es (default [] (wba !! a)));
  let '(l, es, w) := r in
  _ ← modify (set_prefix es); mret (l, <[a := w]> wba).
Definition undo (l : CmpXhgUndoLog) (a : SymAddr) (wba : writes_map) : M writes_map :=
  es ← gets prefix;
  r ← lift (undo_cmpxhg_recomputation l es (default [] (wba !! a)));
  _ ← modify (set_prefix r.1); mret (<[a := r.2]> wba).

Definition try_read_from_rmw (a : SymAddr) (orf : Z) (decision : nat) (i j : nat) (wba : writes_map)
    : M writes_map :=
  let zi := Z.of_nat i in let zj := Z.of_nat j in
  es ← gets prefix;
  si ← lift (is_store es i); lj ← lift (is_load es j);
  sj ← lift (is_store_when_reading_from es j orf);
  _ ← massert (bool_decide (i < j)%nat && si && lj && sj);
  rfj ← original_read_from zj;
  if decide (rfj <> zi) then mret wba else
  rn ← read_from_node zi;
  rf ← unfold_alternative zj rn;
  fresh ← alloc decision rf;
  if negb fresh then mret wba else
  es ← gets prefix; ok ← lift (can_swap_by_vclocks es i j);
  if negb ok then mret wba else
  _ ← pfx_upd zj (set_read_from (Some orf));
  _ ← pfx_upd zi (set_read_from (Some zj));
  r ← recompute j a wba; let '(undoj, wba) := r in
  r ← recompute i a wba; let '(undoi, wba) := r in
  solution ← try_sat [j; i] wba;
  _ ← enqueue_leaf decision rf solution;
  _ ← pfx_upd zj (set_read_from (Some zi));
  wba ← undo undoi a wba;
  undo undoj a wba.

Definition try_read_from (a : SymAddr) (orf : Z) (decision : nat) (i : nat) (j : Z) (wba : writes_map)
    : M writes_map :=
  let zi := Z.of_nat i in
  if decide (j = orf \/ j = zi) then mret wba else
  es ← gets prefix;
  si ← lift (is_store es i);
  lj ← lift (if decide (j <> -1) then is_load es (Z.to_nat j) else Some false);
  if bool_decide (j <> -1 /\ j > zi) && si && lj then
    sj ← lift (is_store_when_reading_from es (Z.to_nat j) orf);
    if (sj : bool) then try_read_from_rmw a orf decision i (Z.to_nat j) wba else mret wba
  else
    rf ← (if decide (j = -1) then mret None else event_of j);
    fresh ← alloc decision rf;
    if negb fresh then mret wba else
    ok ← lift (can_rf_by_vclocks es zi orf j);
    if negb ok then mret wba else
    _ ← pfx_upd zi (set_read_from (Some j));
    r ← recompute i a wba; let '(undoi, wba) := r in
    solution ← try_sat [i] wba;
    _ ← enqueue_leaf decision rf solution;
    undo undoi a wba.

(** [std::upper_bound] and [std::lower_bound] with a predicate: the position of the
    first element where it holds. *)
Fixpoint first_pos {A} (f : A -> option bool) (l : list A) : option nat :=
  match l with
  | [] => Some O
  | x :: l => b ← f x; if (b : bool) then Some O else n ← first_pos f l; Some (S n)
  end.

(** The writes of process [p] that [i] may read from: those between the last one
    before [i] and the first one after, both included as the code has them. *)
Definition visible_writes (es : list Event) (b : vclockvec) (i : nat) (p : nat) (writes : list nat)
    : option (list nat) :=
  e ← es !! i;
  ab ← vc_get (above_clock e) (Z.of_nat p);
  base ← vcv_at b (Z.of_nat i);
  be ← ref_get (vcv_vec b) base (vcv_clock_size b) (Z.of_nat p);
  start ← first_pos (fun w => ew ← es !! w; Some (bool_decide (ab < iid_index (iid ew)))) writes;
  let start := if decide (start <> 0)%nat then (start - 1)%nat else start in
  end_ ← first_pos (fun w => ew ← es !! w; Some (negb (bool_decide (iid_index (iid ew) < be)))) writes;
  more ← (if sym_is_store (sym e) then
            match writes !! end_ with Some w => is_load es w | None => Some false end
          else Some false);
  let end_ := if (more : bool) then S end_ else end_ in
  _ ← cassert (bool_decide (start <= end_)%nat);
  Some (take (end_ - start) (drop start writes)).

(** The tables of writes. *)
Definition writes_by_process := list (gmap SymAddr (list nat)).
Record tables := MkTables { by_address : writes_map; fails : writes_map; by_process : writes_by_process }.

Definition add_to_tables (es : list Event) (j : nat) (t : tables) : option tables :=
  e ← es !! j;
  t ← (if sym_is_store (sym e) then
         a ← ev_addr (sym e); let a := sas_addr a in
         m ← zget (by_process t) (iid_pid (iid e));
         bp ← zset (by_process t) (iid_pid (iid e)) (<[a := default [] (m !! a) ++ [j]]> m);
         Some (MkTables (<[a := default [] (by_address t !! a) ++ [Z.of_nat j]]> (by_address t)) (fails t) bp)
       else Some t);
  if decide (ev_kind (sym e) = CMPXHGFAIL) then
    a ← ev_addr (sym e); let a := sas_addr a in
    Some (MkTables (by_address t) (<[a := default [] (fails t !! a) ++ [Z.of_nat j]]> (fails t)) (by_process t))
  else Some t.
Definition make_tables (nthreads : nat) (es : list Event) : option tables :=
  for_each (seq 0 (length es)) (add_to_tables es) (MkTables ∅ ∅ (replicate nthreads ∅)).

(** A mutex operation and the next ones on the mutex. *)
Fixpoint skip_trylock_fails (es : list Event) (l : list Z) : option (list Z) :=
  match l with
  | [] => Some []
  | x :: rest => b ← is_trylock_fail es (Z.to_nat x); if (b : bool) then skip_trylock_fails es rest else Some l
  end.

Definition ponder_mutex (i : nat) (wba : writes_map) : M unit :=
  es ← gets prefix;
  addr ← lift (get_addr es i);
  dl ← lift (does_lock es i);
  let accesses := default [] (wba !! sas_addr addr) in
  n ← lift (first_pos (fun x => Some (bool_decide (Z.of_nat i < x))) accesses);
  let next := drop n accesses in
  match next with
  | [] =>
    when dl (ds ← gets mutex_deadlocks;
             each (default [] (ds !! sas_addr addr))
                  (fun other => try_swap_blocked i other (SymEv_sync M_LOCK addr) wba))
  | zj :: _ =>
    let j := Z.to_nat zj in
    rf ← original_read_from zj; _ ← massert (bool_decide (rf = Z.of_nat i));
    ui ← lift (is_unlock es i); lj ← lift (is_lock es j);
    if ui && lj then mret tt else
    _ ← try_swap i j wba;
    if negb dl then mret tt else
    es ← gets prefix;
    next ← lift (skip_trylock_fails es next);
    match next with
    | [] => mret tt
    | unlock :: rest =>
      ul ← lift (is_unlock es (Z.to_nat unlock));
      if negb ul then mret tt else
      match rest with
      | [] => mret tt
      | relock :: _ =>
        l ← lift (is_lock es (Z.to_nat relock));
        if negb l then mret tt else try_swap_lock i (Z.to_nat unlock) (Z.to_nat relock) wba
      end
    end
  end.

(** A load: the writes it may read from, in the order of the processes. *)
Definition ponder_load (t : tables) (i : nat) (wba : writes_map) : M writes_map :=
  let zi := Z.of_nat i in
  es ← gets prefix;
  addr ← lift (get_addr es i); let a := sas_addr addr in
  orf ← original_read_from zi;
  _ ← massert (bool_decide (orf ∈ default [] (wba !! a)) || bool_decide (orf = -1));
  decision ← decision_of zi;
  ts ← gets threads; b ← gets below_clocks;
  wba ← loop (seq 0 (length ts)) (fun p wba =>
    es ← gets prefix;
    bp ← lift (by_process t !! p);
    ws ← lift (visible_writes es b i p (default [] (bp !! a)));
    loop ws (fun w wba => try_read_from a orf decision i (Z.of_nat w) wba) wba) wba;
  wba ← try_read_from a orf decision i (-1) wba;
  es ← gets prefix; si ← lift (is_store es i);
  wba ← (if (si : bool) then
           loop (default [] (fails t !! a)) (fun j wba =>
             es ← gets prefix;
             b ← lift (if decide (j > zi) then is_store_when_reading_from es (Z.to_nat j) orf else Some false);
             if (b : bool) then try_read_from_rmw a orf decision i (Z.to_nat j) wba else mret wba) wba
         else mret wba);
  _ ← pfx_upd zi (set_read_from (Some orf));
  mret wba.

Definition ponder_event (t : tables) (i : nat) (wba : writes_map) : M writes_map :=
  e ← pfx (Z.of_nat i);
  if negb (pinned e) && symev_is_lock_type (sym e) then _ ← ponder_mutex i wba; mret wba
  else if negb (pinned e) && sym_is_load (sym e) then ponder_load t i wba
  else mret wba.

Definition compute_prefixes : M unit :=
  _ ← compute_vclocks;
  _ ← compute_unfolding;
  ts ← gets threads; es ← gets prefix;
  t ← lift (make_tables (length ts) es);
  _ ← loop (seq 0 (length es)) (ponder_event t) (by_address t);
  mret tt.
End explore.
