(* ===== verification/RfscPast.v ===== *)
(** * RfscPast: the causal past of the decisions

    [causal_past] ends and marks exactly the events from which a path of
    reads-from, happens-after and program order leads to a load that was decided
    at most at the given depth. It is closed, which is what the graphs and formulas
    built from it rely on. *)

From S2P Require Import Prelude.
From S2P Require Import VClock.
From S2P Require Import CPid.
From S2P Require Import SymAddr.
From S2P Require Import SymEv.
From S2P Require Import Rfsc.
From S2P Require Import RfscAnalysis.

(** What the body keeps, the loop keeps. *)
Lemma for_each_inv {A St} (I : St -> Prop) (l : list A) (body : A -> St -> option St) st st' :
  (forall x s s', x ∈ l -> body x s = Some s' -> I s -> I s') -> for_each l body st = Some st' -> I st -> I st'.
Proof.
  revert st. induction l as [|x l IH]; intros st Hb H HI; [by injection H as <-|]. cbn in H.
  destruct (body x st) as [s|] eqn:E; [|done]. eapply IH; [|exact H|by eapply Hb; [left| |]].
  intros y s1 s2 Hy. apply Hb. by right.
Qed.

Lemma for_each_app {A St} (l1 l2 : list A) (body : A -> St -> option St) st :
  for_each (l1 ++ l2) body st = st ← for_each l1 body st; for_each l2 body st.
Proof. revert st. induction l1 as [|x l1 IH]; intros st; simpl; [done|]. by destruct (body x st); simpl. Qed.

(** What [find_process_event] finds. *)
Lemma cassert_some b x : cassert b = Some x -> b = true.
Proof. by destruct b. Qed.
Lemma process_event_inv ts es p x k : process_event ts es p x = Some k ->
  exists t e, zget ts p = Some t /\ zget (event_indices t) (x - 1) = Some k /\ es !! k = Some e /\
    (0 < size e)%Z /\ iid_pid (iid e) = p /\ (iid_index (iid e) <= x < iid_index (iid e) + size e)%Z /\
    (1 <= x <= Z.of_nat (length (event_indices t)))%Z.
Proof.
  unfold process_event. intros E. repeat bind_inv E.
  repeat match goal with H : cassert _ = Some _ |- _ => apply cassert_some, bool_decide_eq_true in H end.
  simplify_eq. eexists _, _. split_and!; try done; lia.
Qed.

Section past.
Context (ts : list Thread) (es : list Event).
Implicit Types (acc : list bool) (i j k : nat).

(** Event [j] is right before event [i]. *)
Definition before (i j : nat) : Prop := exists l, past_of ts es i = Some l /\ j ∈ l.

(** Positions and identifiers in the trace are in range. *)
Definition past_ok : Prop :=
  forall i, i < length es -> exists l, past_of ts es i = Some l /\ forall j, j ∈ l -> j < length es.

Definition marked acc k : Prop := acc !! k = Some true.
Definition unmarked acc : nat := length (filter (fun b => b = false) acc).

Lemma unmarked_mark acc i : acc !! i = Some false -> unmarked acc = S (unmarked (<[i := true]> acc)).
Proof.
  intros Hi. destruct (list_elem_of_split_length acc i false Hi) as (l1 & l2 & -> & ->).
  rewrite insert_app_mid. unfold unmarked. rewrite !filter_app, !filter_cons. simpl. rewrite !length_app. simpl. lia.
Qed.

Lemma unmarked_mono acc acc' : length acc' = length acc -> (forall k, marked acc k -> marked acc' k) ->
  unmarked acc' <= unmarked acc.
Proof.
  revert acc'. induction acc as [|b acc IH]; intros [|b' acc'] Hlen Hsub; try done.
  assert (H : unmarked acc' <= unmarked acc).
  { apply IH; [by injection Hlen|]. intros k Hk. exact (Hsub (S k) Hk). }
  unfold unmarked in *. rewrite !filter_cons.
  destruct b, b'; simpl; try lia. by specialize (Hsub 0 eq_refl).
Qed.

Lemma marked_insert acc i k : i < length acc -> marked (<[i := true]> acc) k <-> k = i \/ marked acc k.
Proof.
  intros Hi. unfold marked. destruct (decide (k = i)) as [->|Hne].
  - rewrite list_lookup_insert_eq by done. tauto.
  - rewrite list_lookup_insert_ne by done. naive_solver.
Qed.

(** What marking from [roots] adds. *)
Record adds (roots : list nat) acc acc' : Prop := {
  ad_length : length acc' = length acc;
  ad_keeps k : marked acc k -> marked acc' k;
  ad_roots i : i ∈ roots -> marked acc' i;
  ad_reach k : marked acc' k -> ~ marked acc k -> exists i, i ∈ roots /\ rtc before i k;
  ad_closed k j : marked acc' k -> ~ marked acc k -> before k j -> marked acc' j;
}.

Lemma adds_nil acc : adds [] acc acc.
Proof. split; try done. by intros i ?%not_elem_of_nil. Qed.

Lemma adds_cons i roots acc acc1 acc2 : adds [i] acc acc1 -> adds roots acc1 acc2 -> adds (i :: roots) acc acc2.
Proof.
  intros H1 H2.
  assert (Hdec : forall k, marked acc1 k \/ ~ marked acc1 k) by (intros k; unfold marked; destruct (acc1 !! k) as [[]|]; naive_solver).
  split.
  - rewrite (ad_length _ _ _ H2). apply H1.
  - intros k Hk. by apply (ad_keeps _ _ _ H2), (ad_keeps _ _ _ H1).
  - intros j [->|Hj]%elem_of_cons; [apply (ad_keeps _ _ _ H2), (ad_roots _ _ _ H1); by left|by apply (ad_roots _ _ _ H2)].
  - intros k Hk Hn. destruct (Hdec k) as [Hk1|Hk1].
    + destruct (ad_reach _ _ _ H1 k Hk1 Hn) as (x & ->%list_elem_of_singleton & ?). exists i. by split; [left|].
    + destruct (ad_reach _ _ _ H2 k Hk Hk1) as (x & ? & ?). exists x. by split; [right|].
  - intros k j Hk Hn Hb. destruct (Hdec k) as [Hk1|Hk1].
    + apply H2. by eapply (ad_closed _ _ _ H1).
    + by eapply (ad_closed _ _ _ H2).
Qed.

Lemma causal_past_1_spec fuel : forall i acc,
  past_ok -> length acc = length es -> i < length es -> unmarked acc < fuel ->
  exists acc', causal_past_1 fuel ts es i acc = Some acc' /\ adds [i] acc acc'.
Proof.
  induction fuel as [|fuel IH]; intros i acc Hok Hlen Hi Hfuel; [lia|]. simpl.
  destruct (acc !! i) as [b|] eqn:Eb; [|apply lookup_ge_None in Eb; lia]. simpl.
  destruct b.
  { eexists. split; [done|]. split; try done. by intros j ->%list_elem_of_singleton. }
  destruct (Hok i Hi) as (l & El & Hl). rewrite El. simpl.
  assert (Hloop : forall l acc1, (forall j, j ∈ l -> j < length es) -> length acc1 = length es ->
    unmarked acc1 < fuel -> exists acc', for_each l (causal_past_1 fuel ts es) acc1 = Some acc' /\ adds l acc1 acc').
  { clear El Hl. clear l. induction l as [|j l IHl]; intros acc1 Hl Hlen1 Hf1; simpl.
    { eexists. split; [done|]. apply adds_nil. }
    destruct (IH j acc1 Hok Hlen1) as (acc2 & E2 & H2); [apply Hl; by left|done|]. rewrite E2. simpl.
    assert (Hlen2 : length acc2 = length es) by (rewrite (ad_length _ _ _ H2); done).
    destruct (IHl acc2) as (acc3 & E3 & H3).
    - intros x Hx. apply Hl. by right.
    - done.
    - eapply Nat.le_lt_trans; [|exact Hf1]. apply unmarked_mono; [by rewrite Hlen2|apply (ad_keeps _ _ _ H2)].
    - exists acc3. split; [done|]. by eapply adds_cons. }
  destruct (Hloop l (<[i := true]> acc)) as (acc' & E' & H').
  - done.
  - by rewrite length_insert.
  - rewrite (unmarked_mark acc i Eb) in Hfuel. lia.
  - exists acc'. split; [done|].
    assert (Hm : forall k, marked (<[i := true]> acc) k <-> k = i \/ marked acc k) by (intros k; apply marked_insert; lia).
    split.
    + rewrite (ad_length _ _ _ H'). by rewrite length_insert.
    + intros k Hk. apply (ad_keeps _ _ _ H'), Hm. by right.
    + intros j ->%list_elem_of_singleton. apply (ad_keeps _ _ _ H'), Hm. by left.
    + intros k Hk Hn. exists i. split; [by left|]. destruct (decide (k = i)) as [->|Hne]; [done|].
      destruct (ad_reach _ _ _ H' k Hk) as (j & Hj & Hr); [rewrite Hm; naive_solver|].
      eapply rtc_l; [|done]. by exists l.
    + intros k j Hk Hn Hb. destruct (decide (k = i)) as [->|Hne].
      * destruct Hb as (l' & El' & Hj). rewrite El in El'. simplify_eq. by apply (ad_roots _ _ _ H').
      * eapply (ad_closed _ _ _ H'); [done| |done]. rewrite Hm. naive_solver.
Qed.

(** The events whose decision is at most [d]. *)
Definition decided (d : Z) (i : nat) : Prop :=
  exists e, es !! i = Some e /\ decision_depth e <> (-1)%Z /\ (decision_depth e <= d)%Z.

(** A load has a decision or is pinned, and not both. *)
Definition decisions_ok : Prop := forall i e, es !! i = Some e ->
  ~ (decision_depth e <> (-1)%Z /\ pinned e = true) /\
  (sym_is_load (sym e) = true <-> decision_depth e <> (-1)%Z \/ pinned e = true).

Lemma causal_past_spec d : past_ok -> decisions_ok ->
  exists acc, causal_past ts es d = Some acc /\ length acc = length es /\
    forall k, marked acc k <-> exists i, decided d i /\ rtc before i k.
Proof.
  intros Hok Hdec.
  assert (Hgen : forall m, m <= length es -> exists acc,
    for_each (seq 0 m) (fun i acc =>
      e ← es !! i;
      let d' := decision_depth e in
      _ ← cassert (negb (bool_decide (d' <> -1)%Z && pinned e));
      _ ← cassert (eqb (sym_is_load (sym e)) (bool_decide (d' <> -1)%Z || pinned e));
      if decide (d' <> -1 /\ d' <= d)%Z then causal_past_1 (S (length es)) ts es i acc else Some acc)
      (replicate (length es) false) = Some acc /\ length acc = length es /\
    (forall k, marked acc k -> exists i, decided d i /\ rtc before i k) /\
    (forall i, i < m -> decided d i -> marked acc i) /\
    (forall k j, marked acc k -> before k j -> marked acc j)).
  { induction m as [|m IH]; intros Hm.
    - eexists. split; [done|]. rewrite length_replicate.
      assert (Hno : forall k, ~ marked (replicate (length es) false) k).
      { intros k Hk. unfold marked in Hk. apply lookup_replicate in Hk. naive_solver. }
      split_and!; [done|naive_solver|lia|naive_solver].
    - destruct IH as (acc & E & Hlen & Hreach & Hroots & Hclosed); [lia|].
      rewrite seq_S, for_each_app, E. simpl.
      destruct (es !! m) as [e|] eqn:Ee; [|apply lookup_ge_None in Ee; lia]. simpl.
      destruct (Hdec m e Ee) as [Hnot Hload].
      rewrite (proj2 (negb_true_iff _)) by (apply andb_false_iff; destruct (pinned e); [left; apply bool_decide_false; naive_solver|by right]).
      assert (Hl : sym_is_load (sym e) = bool_decide (decision_depth e <> -1)%Z || pinned e).
      { apply eq_bool_prop_intro. rewrite !Is_true_true, orb_true_iff, bool_decide_eq_true. exact Hload. }
      rewrite Hl, eqb_reflx. simpl. destruct (decide _) as [Hd|Hd]; simpl.
      + destruct (causal_past_1_spec (S (length es)) m acc) as (acc' & E' & H'); [done|done|lia| |].
        { apply Nat.lt_succ_r. unfold unmarked. etrans; [apply length_filter|lia]. }
        simpl in E'. rewrite E'. simpl. exists acc'. split; [done|].
        assert (Hmk : forall k, marked acc k \/ ~ marked acc k) by (intros k; unfold marked; destruct (acc !! k) as [[]|]; naive_solver).
        split_and!.
        * by rewrite (ad_length _ _ _ H').
        * intros k Hk. destruct (Hmk k) as [?|Hn]; [auto|].
          destruct (ad_reach _ _ _ H' k Hk Hn) as (i & ->%list_elem_of_singleton & Hr). exists m. split; [|done]. by exists e.
        * intros i Hi Hdi. destruct (decide (i = m)) as [->|]; [apply (ad_roots _ _ _ H'); by left|]. apply (ad_keeps _ _ _ H'), Hroots; [lia|done].
        * intros k j Hk Hb. destruct (Hmk k) as [?|Hn]; [apply (ad_keeps _ _ _ H'); eauto|by eapply (ad_closed _ _ _ H')].
      + exists acc. split_and!; [done|done|done| |done].
        intros i Hi Hdi. destruct (decide (i = m)) as [->|]; [|apply Hroots; [lia|done]].
        destruct Hdi as (e' & ? & ? & ?). simplify_eq. tauto. }
  destruct (Hgen (length es)) as (acc & E & Hlen & Hreach & Hroots & Hclosed); [done|].
  exists acc. split_and!; [exact E|done|]. intros k. split; [auto|].
  intros (i & Hdi & Hr).
  assert (Hi : marked acc i). { apply Hroots; [|done]. destruct Hdi as (e & He & _). by apply lookup_lt_Some in He. }
  clear Hdi. induction Hr; eauto.
Qed.
(** *** Kinds of predecessors *)

Lemma po_pred_before i p : po_pred ts es i = Some (Some p) -> before i p.
Proof.
  intros E. unfold before, past_of. unfold po_pred in E. unfold po_pred.
  destruct (es !! i) as [e|]; simpl in *; [|done]. rewrite E. simpl. eexists. split; [done|]. set_solver.
Qed.

Context (Hok : past_ok).

Lemma before_lt i j : before i j -> i < length es -> j < length es.
Proof. intros (l & E & Hj) Hi. destruct (Hok i Hi) as (l' & E' & H). simplify_eq. auto. Qed.

Lemma after_before i e j : i < length es -> es !! i = Some e -> j ∈ happens_after e -> before i j.
Proof.
  intros Hi He Hj. destruct (Hok i Hi) as (l & El & _). exists l. split; [done|].
  unfold past_of in El. rewrite He in El. simpl in El. destruct (po_pred ts es i); simpl in El; [|done].
  simplify_eq. set_solver.
Qed.

Lemma read_before i e w : i < length es -> es !! i = Some e -> read_from e = Some (Z.of_nat w) -> before i w.
Proof.
  intros Hi He Hw. destruct (Hok i Hi) as (l & El & _). exists l. split; [done|].
  unfold past_of in El. rewrite He in El. simpl in El. destruct (po_pred ts es i); simpl in El; [|done].
  rewrite Hw in El. rewrite decide_True in El by lia. rewrite Nat2Z.id in El. simplify_eq. set_solver.
Qed.

Lemma pred_defined i : i < length es -> exists p, po_pred ts es i = Some p.
Proof.
  intros Hi. destruct (Hok i Hi) as (l & El & _). unfold past_of in El.
  destruct (es !! i); simpl in El; [|done]. destruct (po_pred ts es i); [by eexists|done].
Qed.
End past.
