(* ===== verification/RfscFormula.v ===== *)
(** * RfscFormula: the formula means sequential consistency; models of the formula
      are orders of the events

    [output_formula] asks for an order of the kept events. The theorem relates its
    models to executions: an order of the kept events is one under sequential
    consistency ([sc_execution]: it agrees with program order and happens-after,
    and, run from left to right, every read finds the write it reads from as the
    last one to its address) exactly when the positions in it are a model.

    A solver answers with a permutation of positions; [model_order] turns it into
    an order of the kept events. The order is an execution under sequential
    consistency exactly when the positions satisfy the constraints, and every
    execution has such positions: the formula is unsatisfiable only if there is no
    execution. *)

From S2P Require Import Prelude.
From S2P Require Import SatGraph.
From S2P Require Import VClock.
From S2P Require Import CPid.
From S2P Require Import SymAddr.
From S2P Require Import SymEv.
From S2P Require Import Unfold.
From S2P Require Import Decision.
From S2P Require Import Rfsc.
From S2P Require Import RfscAnalysis.
From S2P Require Import RfscExplore.
From S2P Require Import RfscPast.

(** ** Executions *)

Section execution.
Context (ts : list Thread) (es : list Event).

Definition stores_to (a : SymAddr) (i : nat) : bool :=
  match es !! i with
  | Some e => sym_is_store (sym e) &&
              match ev_addr (sym e) with Some x => bool_decide (sas_addr x = a) | None => false end
  | None => false
  end.

(** The last write to [a] when the events of [l] run in this order. *)
Definition last_writer (a : SymAddr) (l : list nat) : Z :=
  foldl (fun w i => if stores_to a i then Z.of_nat i else w) (-1)%Z l.

(** [i] is in [o] before position [q]. *)
Definition earlier (o : list nat) (q i : nat) : Prop := i ∈ take q o.

Record sc_execution (keep : list bool) (o : list nat) : Prop := {
  sc_nodup : NoDup o;
  sc_events i : i ∈ o <-> kept keep i = true;
  sc_po q i p : o !! q = Some i -> po_pred ts es i = Some (Some p) -> earlier o q p;
  sc_after q i e j : o !! q = Some i -> es !! i = Some e -> j ∈ happens_after e -> earlier o q j;
  sc_reads q r e w a : o !! q = Some r -> es !! r = Some e -> read_from e = Some w ->
    get_addr es r = Some a -> last_writer (sas_addr a) (take q o) = w;
}.

(** ** Traces *)

(** What a read reads from: nothing, or a write to the same address. *)
Record reads_wf : Prop := {
  rw_addr r e w : es !! r = Some e -> read_from e = Some w ->
    exists a, get_addr es r = Some a /\ w <> Z.of_nat r /\
      (w = (-1)%Z \/ exists n, w = Z.of_nat n /\ stores_to (sas_addr a) n = true);
}.

(** The map of writes has the writes of the trace. *)
Definition writes_wf (wba : gmap SymAddr (list Z)) : Prop :=
  forall a j, j ∈ writes_at wba a <-> exists n, j = Z.of_nat n /\ stores_to a n = true.

Definition closed (keep : list bool) : Prop :=
  forall i j, kept keep i = true -> before ts es i j -> kept keep j = true.

Lemma last_writer_app a l1 l2 :
  last_writer a (l1 ++ l2) = foldl (fun w i => if stores_to a i then Z.of_nat i else w) (last_writer a l1) l2.
Proof. apply foldl_app. Qed.

Lemma last_writer_none a l : last_writer a l = (-1)%Z <-> forall j, j ∈ l -> stores_to a j = false.
Proof.
  induction l as [|x l IH] using rev_ind; [split; [by intros _ j ?%not_elem_of_nil|done]|].
  rewrite last_writer_app. simpl. destruct (stores_to a x) eqn:Ex.
  - split; [lia|]. intros H. specialize (H x). rewrite Ex in H. discriminate H. set_solver.
  - rewrite IH. split; [|intros H j Hj; apply H; set_solver].
    intros H j [Hj| ->%list_elem_of_singleton]%elem_of_app; [auto|done].
Qed.

Lemma last_writer_some a l w : NoDup l -> last_writer a l = Z.of_nat w <->
  exists p, l !! p = Some w /\ stores_to a w = true /\
    forall q j, l !! q = Some j -> stores_to a j = true -> q <= p.
Proof.
  induction l as [|x l IH] using rev_ind; intros Hnd.
  { split; [intros H; unfold last_writer in H; simpl in H; lia|by intros (p & ? & _)]. }
  apply NoDup_app in Hnd as (Hnd & Hx & _). specialize (IH Hnd).
  rewrite last_writer_app. simpl. destruct (stores_to a x) eqn:Ex.
  - split.
    + intros ->%Nat2Z.inj. exists (length l). split_and!; [by apply list_lookup_middle|done|].
      intros q j Hq _. apply lookup_lt_Some in Hq. rewrite length_app in Hq. simpl in Hq. lia.
    + intros (p & Hp & Hw & Hlast). f_equal.
      specialize (Hlast (length l) x). rewrite list_lookup_middle in Hlast by done.
      specialize (Hlast eq_refl Ex). apply lookup_lt_Some in Hp as Hlt. rewrite length_app in Hlt. simpl in Hlt.
      replace p with (length l) in Hp by lia. rewrite list_lookup_middle in Hp by done. by simplify_eq.
  - rewrite IH. split.
    + intros (p & Hp & Hw & Hlast). exists p. split_and!; [by apply lookup_app_l_Some|done|].
      intros q j Hq Hj. apply lookup_app_Some in Hq as [Hq|[Hge Hq]]; [by eapply Hlast|].
      apply list_lookup_singleton_Some in Hq as [_ <-]. congruence.
    + intros (p & Hp & Hw & Hlast). apply lookup_app_Some in Hp as [Hp|[Hge Hp]].
      * exists p. split_and!; [done|done|]. intros q j Hq Hj. apply (Hlast q j); [by apply lookup_app_l_Some|done].
      * apply list_lookup_singleton_Some in Hp as [_ <-]. congruence.
Qed.
End execution.

(** ** Collecting constraints *)

Definition holds (v : nat -> nat) (c : constr) : Prop :=
  match c with
  | Edge a b => v a < v b
  | EdgeDisj a b c d => v a < v b \/ v c < v d
  end.

(** The variables of a constraint are below [n]. *)
Definition in_range (n : nat) (c : constr) : Prop :=
  match c with
  | Edge a b => a < n /\ b < n
  | EdgeDisj a b c d => a < n /\ b < n /\ c < n /\ d < n
  end.
#[export] Instance holds_dec v c : Decision (holds v c).
Proof. destruct c; cbn; apply _. Defined.

(** A loop body that appends constraints that mean [Q]. *)
Definition appends (body : list constr -> option (list constr)) (Q : (nat -> nat) -> Prop) : Prop :=
  exists new, (forall cs, body cs = Some (cs ++ new)) /\ forall v, Forall (holds v) new <-> Q v.

Lemma appends_nil (Q : (nat -> nat) -> Prop) : (forall v, Q v) -> appends Some Q.
Proof. intros H. exists []. split; [intros cs; by rewrite app_nil_r|]. intros v. by split. Qed.

Lemma appends_one c : appends (fun cs => Some (cs ++ [c])) (fun v => holds v c).
Proof. exists [c]. split; [done|]. intros v. by rewrite Forall_singleton. Qed.

Lemma appends_iff body body' (Q Q' : (nat -> nat) -> Prop) :
  appends body Q -> (forall cs, body' cs = body cs) -> (forall v, Q v <-> Q' v) -> appends body' Q'.
Proof.
  intros (new & E & H) Eb HQ. exists new. split; [intros cs; by rewrite Eb|]. intros v. by rewrite H.
Qed.

Lemma appends_seq b1 b2 (Q1 Q2 : (nat -> nat) -> Prop) : appends b1 Q1 -> appends b2 Q2 ->
  appends (fun cs => cs ← b1 cs; b2 cs) (fun v => Q1 v /\ Q2 v).
Proof.
  intros (n1 & E1 & H1) (n2 & E2 & H2). exists (n1 ++ n2). split.
  - intros cs. rewrite E1. simpl. by rewrite E2, app_assoc.
  - intros v. rewrite Forall_app. by rewrite H1, H2.
Qed.

Lemma appends_each {A} (body : A -> list constr -> option (list constr)) (Q : A -> (nat -> nat) -> Prop) l :
  (forall x, x ∈ l -> appends (body x) (Q x)) ->
  appends (for_each l body) (fun v => forall x, x ∈ l -> Q x v).
Proof.
  induction l as [|x l IH]; intros H.
  - apply appends_nil. by intros v x ?%not_elem_of_nil.
  - apply (appends_iff (fun cs => cs ← body x cs; for_each l body cs) _ (fun v => Q x v /\ forall y, y ∈ l -> Q y v)).
    + apply appends_seq; [apply H; by left|]. apply IH. intros y Hy. apply H. by right.
    + done.
    + intros v. split; [intros [? ?] y [->|?]%elem_of_cons; auto|]. intros Hv. split; [apply Hv; by left|].
      intros y Hy. apply Hv. by right.
Qed.

Lemma appends_if (b : bool) body (Q : (nat -> nat) -> Prop) : (b = true -> appends body Q) ->
  appends (fun cs => if b then body cs else Some cs) (fun v => b = true -> Q v).
Proof.
  destruct b; intros H; [|by apply appends_nil].
  eapply appends_iff; [by apply H|done|]. intros v. naive_solver.
Qed.

(** ** Variables *)

Section formula.
Context (ts : list Thread) (es : list Event) (wba : gmap SymAddr (list Z)) (keep : list bool).
Context (Hlen : length keep = length es) (Hpast : past_ok ts es) (Hreads : reads_wf es)
  (Hwrites : writes_wf es wba) (Hclosed : closed ts es keep).

Definition var (i : nat) : nat := length (filter (fun b => b = true) (take i keep)).

Lemma number_kept_lookup k m i : i < length k ->
  number_kept k m !! i = Some (m + length (filter (fun b => b = true) (take i k))).
Proof.
  revert m i. induction k as [|b k IH]; intros m i Hi; simpl in *; [lia|].
  destruct i as [|i]; simpl; [by rewrite Nat.add_0_r|].
  rewrite IH by lia. rewrite filter_cons. destruct b; simpl; f_equal; lia.
Qed.

Lemma var_lookup i : i < length es -> number_kept keep 0 !! i = Some (var i).
Proof. intros Hi. by rewrite number_kept_lookup by lia. Qed.

Lemma keep_lookup i : i < length es -> keep !! i = Some (kept keep i).
Proof.
  intros Hi. unfold kept. destruct (keep !! i) eqn:E; [done|]. apply lookup_ge_None in E. lia.
Qed.

Lemma stores_lt a j : stores_to es a j = true -> j < length es.
Proof. unfold stores_to. destruct (es !! j) eqn:E; [|done]. intros _. by apply lookup_lt_Some in E. Qed.

(** What the constraints of an event say of the positions [v] of the variables. *)
Definition po_means (i : nat) (v : nat -> nat) : Prop :=
  kept keep i = true -> forall p, po_pred ts es i = Some (Some p) -> v (var p) < v (var i).
Definition ha_means (i : nat) (v : nat -> nat) : Prop :=
  kept keep i = true -> forall e j, es !! i = Some e -> j ∈ happens_after e -> v (var j) < v (var i).
Definition rf_means (r : nat) (v : nat -> nat) : Prop :=
  kept keep r = true -> forall e w a, es !! r = Some e -> read_from e = Some w -> get_addr es r = Some a ->
  (w = (-1)%Z -> forall j, stores_to es (sas_addr a) j = true -> kept keep j = true -> j <> r ->
     v (var r) < v (var j)) /\
  (forall n, w = Z.of_nat n -> v (var n) < v (var r) /\
     forall j, stores_to es (sas_addr a) j = true -> kept keep j = true -> j <> n -> j <> r ->
     v (var j) < v (var n) \/ v (var r) < v (var j)).

Lemma po_constr_appends i : i < length es ->
  appends (fun cs => po_constr ts es keep i cs) (po_means i).
Proof.
  intros Hi. unfold po_constr. rewrite (keep_lookup i Hi). simpl.
  apply appends_if. intros Hk. destruct (pred_defined ts es Hpast i Hi) as [[p|] E]; rewrite E; simpl.
  - pose proof (before_lt ts es Hpast i p (po_pred_before ts es i p E) Hi) as Hp.
    assert (Hne : p <> i).
    { intros ->. unfold po_pred in E. destruct (es !! i) as [e|] eqn:He; simpl in E; [|done].
      case_decide as Hx; [done|]. destruct (process_event ts es _ _) as [k|] eqn:Ek; simpl in E; [|done]. simplify_eq.
      destruct (process_event_inv _ _ _ _ _ Ek) as (t & e' & _ & _ & He' & _ & _ & ? & _). simplify_eq. lia. }
    rewrite bool_decide_true by done. simpl. rewrite (var_lookup p Hp), (var_lookup i Hi). simpl.
    eapply appends_iff; [apply appends_one|done|]. intros v. simpl. naive_solver.
  - apply appends_nil. naive_solver.
Qed.

Lemma ha_constr_appends i : i < length es ->
  appends (fun cs => ha_constr es keep i cs) (ha_means i).
Proof.
  intros Hi. unfold ha_constr. rewrite (keep_lookup i Hi). simpl.
  destruct (es !! i) as [e|] eqn:He; [|apply lookup_ge_None in He; lia]. simpl.
  apply appends_if. intros Hk.
  eapply appends_iff; [|done|].
  - apply (appends_each _ (fun j v => v (var j) < v (var i))). intros j Hj.
    pose proof (before_lt ts es Hpast i j (after_before ts es Hpast i e j Hi He Hj) Hi) as Hlt.
    rewrite (var_lookup j Hlt), (var_lookup i Hi). simpl. apply appends_one.
  - intros v. simpl. naive_solver.
Qed.

Lemma kept_lt i : kept keep i = true -> i < length es.
Proof. unfold kept. destruct (keep !! i) eqn:E; [|done]. intros _. apply lookup_lt_Some in E. lia. Qed.

Lemma zget_keep j : j < length es -> zget keep (Z.of_nat j) = Some (kept keep j).
Proof. intros Hj. by rewrite zget_nat, keep_lookup. Qed.
Lemma zget_var j : j < length es -> zget (number_kept keep 0) (Z.of_nat j) = Some (var j).
Proof. intros Hj. by rewrite zget_nat, var_lookup. Qed.

(** The loop over the writes to an address. *)
Lemma writes_appends a (skip : Z -> bool) (c : nat -> constr)
    (body : Z -> list constr -> option (list constr)) :
  (forall j, stores_to es a j = true -> forall cs, body (Z.of_nat j) cs =
     (if skip (Z.of_nat j) then Some cs else if kept keep j then Some (cs ++ [c j]) else Some cs)) ->
  appends (for_each (writes_at wba a) body)
    (fun v => forall j, stores_to es a j = true -> kept keep j = true -> skip (Z.of_nat j) = false -> holds v (c j)).
Proof.
  intros Hbody. eapply appends_iff; [|done|].
  - apply (appends_each _ (fun z v => forall j, z = Z.of_nat j -> kept keep j = true -> skip z = false -> holds v (c j))).
    intros z (j & -> & Hj)%Hwrites.
    destruct (skip (Z.of_nat j)) eqn:Es; [|destruct (kept keep j) eqn:Ek].
    + eapply appends_iff; [apply (appends_nil (fun _ => True)); done|intros cs; by rewrite Hbody, Es by done|].
      intros v. naive_solver.
    + eapply appends_iff; [apply (appends_one (c j))|intros cs; by rewrite Hbody, Es, Ek by done|].
      intros v. split; [|by intros H; apply H]. by intros H j' ->%Nat2Z.inj.
    + eapply appends_iff; [apply (appends_nil (fun _ => True)); done|intros cs; by rewrite Hbody, Es, Ek by done|].
      intros v. split; [|done]. intros _ j' ->%Nat2Z.inj. congruence.
  - intros v. simpl. split.
    + intros H j Hj Hk Hs. apply (H (Z.of_nat j)); [apply Hwrites; by exists j|done..].
    + intros H z (j & -> & Hj)%Hwrites j' ->%Nat2Z.inj. auto.
Qed.

Lemma rf_constr_appends r : r < length es ->
  appends (fun cs => rf_constr es wba keep r cs) (rf_means r).
Proof.
  intros Hr. unfold rf_constr, rf_means. rewrite (keep_lookup r Hr). cbn [mbind option_bind].
  destruct (es !! r) as [e|] eqn:He; [|apply lookup_ge_None in He; lia]. cbn [mbind option_bind].
  destruct (read_from e) as [w|] eqn:Ew; [|apply appends_nil; intros v _ e' w a ?; simplify_eq; congruence].
  apply appends_if. intros Hk.
  destruct (rw_addr es Hreads r e w He Ew) as (a & Ea & Hne & Hw).
  rewrite bool_decide_true by congruence. cbn [cassert mbind option_bind].
  rewrite Ea, (var_lookup r Hr). cbn [mbind option_bind].
  destruct (decide (w = -1)%Z) as [->|Hw1].
  - clear Hw. eapply appends_iff.
    + apply (writes_appends (sas_addr a) (fun z => bool_decide (z = Z.of_nat r)) (fun j => Edge (var r) (var j))
        (fun j cs => if decide (j = Z.of_nat r) then Some cs else
          kj ← zget keep j;
          if (kj : bool) then vj ← zget (number_kept keep 0) j; Some (cs ++ [Edge (var r) vj]) else Some cs)).
      intros j Hj cs. case_decide as Hjr; [by rewrite bool_decide_true|]. rewrite bool_decide_false by done.
      pose proof (stores_lt _ _ Hj) as Hlt. rewrite zget_keep by done. cbn [mbind option_bind].
      destruct (kept keep j); [|done]. by rewrite zget_var.
    + done.
    + intros v. cbn [holds]. split.
      * intros H e' w' a' ? ? ?. simplify_eq. split; [|lia]. intros _ j Hj Hkj Hjr. apply H; [done|done|].
        apply bool_decide_false. lia.
      * intros H j Hj Hkj Hs%bool_decide_eq_false. destruct (H e (-1)%Z a) as [H' _]; [done..|]. apply H'; [done..|]. congruence.
  - destruct Hw as [?|(n & -> & Hn)]; [done|]. pose proof (stores_lt _ _ Hn) as Hnl. rewrite zget_var by done. cbn [mbind option_bind].
    eapply appends_iff.
    + apply appends_seq; [apply (appends_one (Edge (var n) (var r)))|].
      apply (writes_appends (sas_addr a) (fun z => bool_decide (z = Z.of_nat n \/ z = Z.of_nat r))
        (fun j => EdgeDisj (var j) (var n) (var r) (var j))
        (fun j cs => if decide (j = Z.of_nat n \/ j = Z.of_nat r) then Some cs else
          kj ← zget keep j;
          if (kj : bool) then vj ← zget (number_kept keep 0) j; Some (cs ++ [EdgeDisj vj (var n) (var r) vj]) else Some cs)).
      intros j Hj cs. case_decide as Hjr; [by rewrite bool_decide_true|]. rewrite bool_decide_false by done.
      pose proof (stores_lt _ _ Hj) as Hlt. rewrite zget_keep by done. cbn [mbind option_bind].
      destruct (kept keep j); [|done]. by rewrite zget_var.
    + done.
    + intros v. cbn [holds]. split.
      * intros [H1 H2] e' w' a' ? ? ?. simplify_eq. split; [lia|]. intros n' ->%Nat2Z.inj. split; [done|].
        intros j Hj Hkj Hjn Hjr. apply H2; [done|done|]. apply bool_decide_false. lia.
      * intros H. destruct (H e (Z.of_nat n) a) as [_ H']; [done..|]. destruct (H' n eq_refl) as [H1 H2].
        split; [done|]. intros j Hj Hkj Hs%bool_decide_eq_false. apply H2; [done|done|lia..].
Qed.

Lemma formula_spec : exists f, output_formula ts es wba keep = Some f /\
  variables f = length (filter (fun b => b = true) keep) /\
  forall v, Forall (holds v) (constraints f) <->
    forall i, i < length es -> po_means i v /\ rf_means i v /\ ha_means i v.
Proof.
  unfold output_formula.
  assert (Hin : forall i, i ∈ seq 0 (length es) <-> i < length es) by (intros i; rewrite elem_of_seq; lia).
  destruct (appends_each (po_constr ts es keep) po_means (seq 0 (length es))) as (n1 & E1 & H1);
    [intros i Hi%Hin; by apply po_constr_appends|].
  destruct (appends_each (rf_constr es wba keep) rf_means (seq 0 (length es))) as (n2 & E2 & H2);
    [intros i Hi%Hin; by apply rf_constr_appends|].
  destruct (appends_each (ha_constr es keep) ha_means (seq 0 (length es))) as (n3 & E3 & H3);
    [intros i Hi%Hin; by apply ha_constr_appends|].
  rewrite E1. cbn [mbind option_bind]. rewrite E2. cbn [mbind option_bind]. rewrite E3. cbn [mbind option_bind].
  eexists. split; [done|]. split; [done|]. intros v. cbn [constraints].
  rewrite !Forall_app, H1, H2, H3. setoid_rewrite Hin. naive_solver.
Qed.
End formula.

(** * Models of the formula are orders of the events *)

(** ** The contract of [SatSolver] *)

Definition value (m : list nat) (x : nat) : nat := default 0 (m !! x).

(** [get_model] returns different positions for the variables, from 0 on. *)
Definition is_model (f : formula) (m : list nat) : Prop :=
  m ≡ₚ seq 0 (variables f) /\ Forall (holds (value m)) (constraints f).
Definition solver_ok (solver : formula -> option (list nat)) : Prop :=
  forall f, match solver f with Some m => is_model f m | None => forall m, ~ is_model f m end.

(** ** Variables of the kept events *)

Section variables.
Context (keep : list bool).
Implicit Types (i j x q : nat) (m o : list nat).
Abbreviation var := (RfscFormula.var keep).
Definition count_kept : nat := length (filter (fun b => b = true) keep).

Lemma var_S i (b : bool) : keep !! i = Some b -> var (S i) = var i + (if b then 1 else 0).
Proof.
  intros Hi. unfold RfscFormula.var. rewrite (take_S_r _ _ _ Hi), filter_app, length_app, filter_cons. by destruct b.
Qed.

Lemma var_mono i j : i <= j -> var i <= var j.
Proof.
  intros Hij. unfold RfscFormula.var. replace (take i keep) with (take i (take j keep)).
  - rewrite <-(take_drop i (take j keep)) at 2. rewrite filter_app, length_app. lia.
  - rewrite take_take. f_equal. lia.
Qed.

Lemma kept_lookup i : kept keep i = true <-> keep !! i = Some true.
Proof. unfold kept. destruct (keep !! i) as [[]|]; naive_solver. Qed.

Lemma var_lt i j : kept keep i = true -> i < j -> var i < var j.
Proof.
  intros Hi%kept_lookup Hij. pose proof (var_S i true Hi) as H1. pose proof (var_mono (S i) j Hij). cbv iota in H1. lia.
Qed.

Lemma var_inj i j : kept keep i = true -> kept keep j = true -> var i = var j -> i = j.
Proof.
  intros Hi Hj E. destruct (Nat.lt_trichotomy i j) as [H|[H|H]]; [|done|];
    [pose proof (var_lt i j Hi H)|pose proof (var_lt j i Hj H)]; lia.
Qed.

Lemma var_end : var (length keep) = count_kept.
Proof. unfold RfscFormula.var. by rewrite take_ge. Qed.

Lemma var_bound i : kept keep i = true -> var i < count_kept.
Proof.
  intros Hi. rewrite <-var_end. apply var_lt; [done|]. apply kept_lookup in Hi. by apply lookup_lt_Some in Hi.
Qed.

Lemma var_surj x : x < count_kept -> exists i, kept keep i = true /\ var i = x.
Proof.
  rewrite <-var_end. generalize (length keep) as n. induction n as [|n IH]; intros Hx.
  { unfold RfscFormula.var in Hx. simpl in Hx. lia. }
  destruct (decide (x < var n)) as [|Hge]; [auto|].
  destruct (keep !! n) as [b|] eqn:En.
  - rewrite (var_S n b En) in Hx. destruct b; [|lia]. exists n. rewrite kept_lookup. split; [done|lia].
  - exfalso. apply lookup_ge_None in En. unfold RfscFormula.var in *. rewrite !take_ge in * by lia. lia.
Qed.

(** ** Orders *)

(** [o] has every kept event at the position of its variable. *)
Definition matches (m o : list nat) : Prop :=
  length o = count_kept /\ forall i, kept keep i = true -> exists q, m !! var i = Some q /\ o !! q = Some i.

Definition order_of_kept (o : list nat) : Prop := NoDup o /\ forall i, i ∈ o <-> kept keep i = true.

Lemma matches_order m o : m ≡ₚ seq 0 count_kept -> matches m o -> order_of_kept o.
Proof.
  intros Hm [Hlen Hat].
  assert (Hpos : forall q i, o !! q = Some i -> kept keep i = true /\ m !! var i = Some q).
  { intros q i Hq. assert (Hq' : q ∈ m).
    { rewrite Hm, elem_of_seq. apply lookup_lt_Some in Hq. lia. }
    apply list_elem_of_lookup_1 in Hq' as (x & Hx).
    assert (Hlt : x < count_kept) by (apply lookup_lt_Some in Hx; rewrite Hm, length_seq in Hx; done).
    destruct (var_surj x Hlt) as (j & Hj & <-). destruct (Hat j Hj) as (q' & Hq' & Ho). simplify_eq. by split. }
  split.
  - apply NoDup_alt. intros q q' i Hq Hq'. destruct (Hpos q i Hq) as [_ E]. destruct (Hpos q' i Hq') as [_ E'].
    congruence.
  - intros i. split.
    + intros (q & Hq)%list_elem_of_lookup_1. by apply (Hpos q).
    + intros Hi. destruct (Hat i Hi) as (q & _ & Hq). by eapply list_elem_of_lookup_2.
Qed.
End variables.

Lemma model_order_spec ks : forall i m o,
  length m = length (filter (fun b => b = true) ks) -> NoDup m -> (forall q, q ∈ m -> q < length o) ->
  exists o', model_order ks i m o = Some o' /\ length o' = length o /\
    (forall k, ks !! k = Some true -> exists q, m !! RfscFormula.var ks k = Some q /\ o' !! q = Some (i + k)) /\
    (forall q, q ∉ m -> o' !! q = o !! q).
Proof.
  induction ks as [|b ks IH]; intros i m o Hlen Hnd Hlt; simpl.
  { exists o. by split_and!. }
  rewrite filter_cons in Hlen. destruct b; simpl in Hlen.
  - destruct m as [|pos m]; [done|]. apply NoDup_cons in Hnd as [Hpos Hnd]. injection Hlen as Hlen.
    rewrite vset_Some by (apply Hlt; by left). simpl.
    destruct (IH (S i) m (<[pos := i]> o)) as (o' & E & Hl & Hat & Hrest); [done|done| |].
    { intros q Hq. rewrite length_insert. apply Hlt. by right. }
    rewrite length_insert in Hl. exists o'. split_and!; [done|done| |].
    + intros [|k] Hk.
      * exists pos. split; [done|]. rewrite Hrest by done. rewrite list_lookup_insert_eq by (apply Hlt; by left).
        f_equal. lia.
      * destruct (Hat k Hk) as (q & Hq & Ho). exists q. split; [done|]. rewrite Ho. f_equal. lia.
    + intros q Hq. rewrite Hrest by set_solver. apply list_lookup_insert_ne. set_solver.
  - destruct (IH (S i) m o) as (o' & E & Hl & Hat & Hrest); [done..|].
    exists o'. split_and!; [done|done| |done].
    intros [|k] Hk; [done|]. destruct (Hat k Hk) as (q & Hq & Ho). exists q. split; [done|]. rewrite Ho. f_equal. lia.
Qed.

(** Position of an element. *)
Fixpoint index_of (o : list nat) (i : nat) : nat :=
  match o with [] => 0 | x :: o => if decide (x = i) then 0 else S (index_of o i) end.

Lemma index_of_lookup o i : i ∈ o -> o !! index_of o i = Some i.
Proof.
  induction o as [|x o IH]; intros Hi; [by apply not_elem_of_nil in Hi|]. simpl. case_decide; [by subst|].
  apply IH. set_solver.
Qed.

Lemma NoDup_take_prefix {A} (l : list A) q : NoDup l -> NoDup (take q l).
Proof. intros H. rewrite <-(take_drop q l) in H. by apply NoDup_app in H as (? & _). Qed.

Section executions.
Context (ts : list Thread) (es : list Event) (wba : gmap SymAddr (list Z)) (keep : list bool).
Context (Hlen : length keep = length es) (Hpast : past_ok ts es) (Hreads : reads_wf es)
  (Hwrites : writes_wf es wba) (Hclosed : closed ts es keep).
Abbreviation var := (RfscFormula.var keep).

Lemma earlier_iff o q i p : NoDup o -> o !! p = Some i -> earlier o q i <-> p < q.
Proof.
  intros Hnd Hp. unfold earlier. rewrite elem_of_take. split; [|eauto].
  intros (p' & Hp' & ?). by rewrite (NoDup_lookup o p p' i).
Qed.

(** The constraints hold of the positions of an order exactly when it is an execution. *)
Lemma constraints_execution m o : matches keep m o -> order_of_kept keep o ->
  (forall i, i < length es -> po_means ts es keep i (value m) /\ rf_means es keep i (value m) /\
     ha_means es keep i (value m)) <-> sc_execution ts es keep o.
Proof.
  intros [Hl Hat] [Hnd Hmem].
  assert (Hval : forall i q, o !! q = Some i -> value m (var i) = q).
  { intros i q Hq. assert (Hk : kept keep i = true) by (apply Hmem; by eapply list_elem_of_lookup_2).
    destruct (Hat i Hk) as (q' & Hm & Ho). unfold value. rewrite Hm. simpl. by eapply NoDup_lookup. }
  assert (Hpos : forall i, kept keep i = true -> o !! value m (var i) = Some i).
  { intros i Hk. destruct (Hat i Hk) as (q & Hm & Ho). unfold value. by rewrite Hm. }
  assert (Hlt : forall i, kept keep i = true -> i < length es) by (intros i; by apply kept_lt).
  assert (Hstore : forall q a j, j ∈ take q o /\ stores_to es a j = true <->
    kept keep j = true /\ stores_to es a j = true /\ value m (var j) < q).
  { intros q a j. rewrite elem_of_take. split.
    - intros ((p & Hp & ?) & ?). split_and!; [apply Hmem; by eapply list_elem_of_lookup_2|done|].
      by rewrite (Hval j p Hp).
    - intros (Hk & ? & ?). split; [|done]. exists (value m (var j)). split; [by apply Hpos|done]. }
  split.
  - intros H. split; [done|done| | |].
    + intros q i p Hq Hp. assert (Hk : kept keep i = true) by (apply Hmem; by eapply list_elem_of_lookup_2).
      destruct (H i (Hlt i Hk)) as (Hpo & _). specialize (Hpo Hk p Hp).
      assert (Hkp : kept keep p = true) by (eapply Hclosed, po_pred_before; done).
      rewrite (earlier_iff o q p _ Hnd (Hpos p Hkp)). by rewrite (Hval i q Hq) in Hpo.
    + intros q i e j Hq He Hj. assert (Hk : kept keep i = true) by (apply Hmem; by eapply list_elem_of_lookup_2).
      destruct (H i (Hlt i Hk)) as (_ & _ & Hha). specialize (Hha Hk e j He Hj).
      assert (Hkj : kept keep j = true) by (eapply Hclosed, after_before; eauto).
      rewrite (earlier_iff o q j _ Hnd (Hpos j Hkj)). by rewrite (Hval i q Hq) in Hha.
    + intros q r e w a Hq He Hw Ha. assert (Hk : kept keep r = true) by (apply Hmem; by eapply list_elem_of_lookup_2).
      destruct (H r (Hlt r Hk)) as (_ & Hrf & _). destruct (Hrf Hk e w a He Hw Ha) as [Hinit Hread].
      rewrite (Hval r q Hq) in Hinit, Hread.
      assert (Hself : forall j, j ∈ take q o -> j <> r).
      { intros j (p & Hp & ?)%elem_of_take ->. rewrite (NoDup_lookup o p q r) in * by done. lia. }
      destruct (rw_addr es Hreads r e w He Hw) as (a' & Ha' & _ & Hw'). simplify_eq.
      destruct Hw' as [->|(n & -> & Hn)].
      * apply last_writer_none. intros j Hj. destruct (stores_to es (sas_addr a) j) eqn:Es; [|done].
        destruct (proj1 (Hstore q (sas_addr a) j) (conj Hj Es)) as (Hkj & _ & Hlj).
        specialize (Hinit eq_refl j Es Hkj (Hself j Hj)). lia.
      * destruct (Hread n eq_refl) as [Hnr Hbetween]. apply last_writer_some; [by apply NoDup_take_prefix|].
        assert (Hkn : kept keep n = true) by (eapply Hclosed, (read_before ts es); eauto).
        exists (value m (var n)). split_and!; [rewrite lookup_take_lt by done; by apply Hpos|done|].
        intros p j Hp Hj. destruct (decide (j = n)) as [->|Hjn].
        { rewrite lookup_take_Some in Hp. rewrite (Hval n p); [done|tauto]. }
        assert (Hjt : j ∈ take q o) by (by eapply list_elem_of_lookup_2).
        destruct (proj1 (Hstore q (sas_addr a) j) (conj Hjt Hj)) as (Hkj & _ & Hlj).
        rewrite lookup_take_Some in Hp. destruct Hp as [Hp ?]. rewrite (Hval j p Hp) in Hlj.
        destruct (Hbetween j Hj Hkj Hjn (Hself j Hjt)) as [Hlt'|Hlt']; rewrite (Hval j p Hp) in Hlt'; lia.
  - intros [_ _ Hpo Hha Hrf] i Hi. split_and!.
    + intros Hk p Hp. assert (Hkp : kept keep p = true) by (eapply Hclosed, po_pred_before; done).
      specialize (Hpo _ i p (Hpos i Hk) Hp). by apply (earlier_iff o _ p _ Hnd (Hpos p Hkp)) in Hpo.
    + intros Hk e w a He Hw Ha. specialize (Hrf _ i e w a (Hpos i Hk) He Hw Ha). split.
      * intros -> j Hj Hkj Hji. apply Nat.nle_gt. intros Hle. apply Nat.le_lteq in Hle as [Hlt'|Heq].
        -- rewrite last_writer_none in Hrf. specialize (Hrf j). rewrite Hj in Hrf. discriminate Hrf.
           apply (Hstore _ (sas_addr a) j). by split_and!.
        -- pose proof (Hpos j Hkj) as H1. rewrite Heq, (Hpos i Hk) in H1. by simplify_eq.
      * intros n ->. apply last_writer_some in Hrf as (p & Hp & Hn & Hlast); [|by apply NoDup_take_prefix].
        apply lookup_take_Some in Hp as [Hp Hpi]. rewrite (Hval n p Hp). split; [done|].
        intros j Hj Hkj Hjn Hji. destruct (Nat.lt_ge_cases (value m (var j)) (value m (var i))) as [Hlt'|Hge].
        -- left. specialize (Hlast (value m (var j)) j). rewrite lookup_take_lt in Hlast by done.
           specialize (Hlast (Hpos j Hkj) Hj). apply Nat.le_lteq in Hlast as [?|Heq]; [done|].
           pose proof (Hpos j Hkj) as H1. rewrite Heq, Hp in H1. by simplify_eq.
        -- right. apply Nat.le_lteq in Hge as [?|Heq]; [done|].
           pose proof (Hpos j Hkj) as H1. rewrite <-Heq, (Hpos i Hk) in H1. by simplify_eq.
    + intros Hk e j He Hj. assert (Hkj : kept keep j = true) by (eapply Hclosed, after_before; eauto).
      specialize (Hha _ i e j (Hpos i Hk) He Hj). by apply (earlier_iff o _ j _ Hnd (Hpos j Hkj)) in Hha.
Qed.

(** Every order of the kept events has a model that matches it. *)
Lemma order_model o : order_of_kept keep o -> exists m, m ≡ₚ seq 0 (count_kept keep) /\ matches keep m o.
Proof.
  intros [Hnd Hmem].
  set (kl := filter (fun i => kept keep i = true) (seq 0 (length keep))).
  assert (Hkl : forall i, i ∈ kl <-> kept keep i = true).
  { intros i. unfold kl. rewrite list_elem_of_filter, elem_of_seq. split; [tauto|]. intros Hk. split; [done|].
    rewrite kept_lookup in Hk. apply lookup_lt_Some in Hk. lia. }
  assert (Hperm : o ≡ₚ kl).
  { apply NoDup_Permutation; [done|by apply NoDup_filter, NoDup_seq|]. intros i. by rewrite Hmem, Hkl. }
  assert (Hklat : forall n, n <= length keep -> filter (fun i => kept keep i = true) (seq 0 n) =
    filter (fun i => kept keep i = true) (seq 0 n) /\ length (filter (fun i => kept keep i = true) (seq 0 n)) = var n).
  { induction n as [|n IH]; intros Hn; [by unfold RfscFormula.var|]. split; [done|].
    destruct (keep !! n) as [b|] eqn:En; [|apply lookup_ge_None in En; lia].
    rewrite seq_S, filter_app, length_app, (var_S keep n b En). destruct IH as [_ ->]; [lia|].
    rewrite filter_cons. simpl. unfold kept. rewrite En. by destruct b. }
  assert (Hkllen : length kl = count_kept keep) by (rewrite <-var_end; by apply Hklat).
  assert (Hat : forall i, kept keep i = true -> kl !! var i = Some i).
  { intros i Hk. pose proof Hk as Hk'. rewrite kept_lookup in Hk'. apply lookup_lt_Some in Hk' as Hi.
    unfold kl. replace (length keep) with (i + S (length keep - S i)) by lia.
    rewrite seq_app, filter_app, <-(proj2 (Hklat i ltac:(lia))). simpl. rewrite filter_cons, decide_True by done.
    by apply list_lookup_middle. }
  exists (index_of o <$> kl). split.
  - apply (submseteq_length_Permutation); [apply NoDup_submseteq|by rewrite length_fmap, length_seq, Hkllen].
    + apply NoDup_fmap_2_strong; [|by apply NoDup_filter, NoDup_seq].
      intros x y Hx%Hkl%Hmem Hy%Hkl%Hmem E. pose proof (index_of_lookup o x Hx) as H1.
      rewrite E, (index_of_lookup o y Hy) in H1. by simplify_eq.
    + intros q (i & -> & Hi)%list_elem_of_fmap. rewrite <-Hperm in Hi. pose proof (index_of_lookup o i Hi) as Hq.
      apply lookup_lt_Some in Hq. rewrite elem_of_seq, <-Hkllen, <-Hperm. lia.
  - split; [by rewrite Hperm|]. intros i Hk. exists (index_of o i). split; [by rewrite list_lookup_fmap, (Hat i Hk)|].
    by apply index_of_lookup, Hmem.
Qed.

(** A right answer to the formula, read as an order of the events. *)
Lemma answer_execution f r : output_formula ts es wba keep = Some f ->
  match r with Some m => is_model f m | None => forall m, ~ is_model f m end ->
  match r with
  | Some m => exists o, model_order keep 0 m (replicate (variables f) 0) = Some o /\ sc_execution ts es keep o
  | None => forall o, ~ sc_execution ts es keep o
  end.
Proof.
  intros Ef Hr. destruct (formula_spec ts es wba keep) as (f' & Ef' & Hv & Hf); [done..|].
  rewrite Ef in Ef'. injection Ef' as <-. destruct r as [m|].
  - destruct Hr as [Hm Hc]. rewrite Hv in Hm.
    destruct (model_order_spec keep 0 m (replicate (variables f) 0)) as (o & Eo & Hl & Hat & _).
    + by rewrite Hm, length_seq.
    + rewrite Hm. apply NoDup_seq.
    + intros q. rewrite Hm, elem_of_seq, length_replicate, Hv. lia.
    + exists o. split; [done|].
      assert (Hmo : matches keep m o).
      { split; [by rewrite Hl, length_replicate, Hv|]. intros i Hk%kept_lookup. by destruct (Hat i Hk) as (q & ? & ?); exists q. }
      apply (constraints_execution m o Hmo); [by eapply matches_order|]. by apply Hf.
  - intros o Ho. assert (Hko : order_of_kept keep o) by (split; apply Ho).
    destruct (order_model o Hko) as (m & Hm & Hmo). apply (Hr m). split; [by rewrite Hv|].
    apply Hf. by apply (constraints_execution m o Hmo Hko).
Qed.

Lemma solver_answer solver : solver_ok solver ->
  exists f, output_formula ts es wba keep = Some f /\ variables f = count_kept keep /\
    match solver f with
    | Some m => exists o, model_order keep 0 m (replicate (variables f) 0) = Some o /\ sc_execution ts es keep o
    | None => forall o, ~ sc_execution ts es keep o
    end.
Proof.
  intros Hsolver. destruct (formula_spec ts es wba keep) as (f & Ef & Hv & _); [done..|].
  exists f. split_and!; [done|done|]. exact (answer_execution f (solver f) Ef (Hsolver f)).
Qed.

(** Its variables are those of kept events. *)
Lemma kept_var i x : kept keep i = true -> number_kept keep 0 !! i = Some x -> x < count_kept keep.
Proof.
  intros Hk Hx. pose proof Hk as Hi%kept_lookup%lookup_lt_Some. rewrite (var_lookup es keep Hlen) in Hx by lia.
  injection Hx as <-. by apply var_bound.
Qed.
Lemma kept_zvar j x : zget keep j = Some true -> zget (number_kept keep 0) j = Some x -> x < count_kept keep.
Proof.
  unfold zget. case_decide; [|done]. intros Hk. apply kept_var. unfold kept. by rewrite Hk.
Qed.

Lemma po_in_range i cs cs' : po_constr ts es keep i cs = Some cs' ->
  Forall (in_range (count_kept keep)) cs -> Forall (in_range (count_kept keep)) cs'.
Proof.
  intros H Hcs. unfold po_constr in H. destruct (keep !! i) as [[]|] eqn:Ek; cbn in H; [|by injection H as <-|done].
  apply kept_lookup in Ek. destruct (po_pred ts es i) as [[q|]|] eqn:Ep; cbn in H; [|by injection H as <-|done].
  destruct (cassert _) as [[]|]; cbn in H; [|done]. destruct (number_kept keep 0 !! q) as [vp|] eqn:Eq; cbn in H; [|done].
  destruct (number_kept keep 0 !! i) as [vi|] eqn:Ei; cbn in H; [|done]. injection H as <-. apply Forall_app_2, Forall_singleton; [done|].
  split; [|by eapply kept_var]. eapply kept_var, Eq. by eapply Hclosed, po_pred_before.
Qed.

Lemma ha_in_range i cs cs' : ha_constr es keep i cs = Some cs' ->
  Forall (in_range (count_kept keep)) cs -> Forall (in_range (count_kept keep)) cs'.
Proof.
  intros H Hcs. unfold ha_constr in H. destruct (keep !! i) as [[]|] eqn:Ek; cbn in H; [| |done];
    (destruct (es !! i) as [e|] eqn:He; cbn in H; [|done]); [|by injection H as <-]. apply kept_lookup in Ek.
  eapply (for_each_inv (Forall (in_range (count_kept keep)))); [|exact H|exact Hcs].
  intros j c1 c2 Hj Hb H1. cbv beta in Hb. destruct (number_kept keep 0 !! j) as [vj|] eqn:Ej; cbn in Hb; [|done].
  destruct (number_kept keep 0 !! i) as [vi|] eqn:Ei; cbn in Hb; [|done]. injection Hb as <-. apply Forall_app_2, Forall_singleton; [done|].
  split; [|by eapply kept_var]. eapply kept_var, Ej. eapply Hclosed, after_before; [done|done|by eapply lookup_lt_Some|done|done].
Qed.

Lemma rf_in_range r cs cs' : rf_constr es wba keep r cs = Some cs' ->
  Forall (in_range (count_kept keep)) cs -> Forall (in_range (count_kept keep)) cs'.
Proof.
  intros H Hcs. unfold rf_constr in H. destruct (keep !! r) as [k|] eqn:Ek; cbn in H; [|done].
  destruct (es !! r) as [e|] eqn:He; cbn in H; [|done]. destruct (read_from e) as [w|] eqn:Ew; [|by injection H as <-].
  destruct k; [|by injection H as <-]. apply kept_lookup in Ek. pose proof (lookup_lt_Some _ _ _ He) as Hr.
  destruct (rw_addr es Hreads r e w He Ew) as (a & Ea & Hne & Hw). destruct (cassert _) as [[]|]; cbn in H; [|done].
  rewrite Ea in H. cbn in H. destruct (number_kept keep 0 !! r) as [vr|] eqn:Er; cbn in H; [|done].
  assert (Hvr : vr < count_kept keep) by by eapply kept_var.
  destruct (decide (w = -1)%Z) as [->|Hw1].
  - eapply (for_each_inv (Forall (in_range (count_kept keep)))); [|exact H|exact Hcs]. intros j c1 c2 _ Hb H1. cbv beta in Hb.
    case_decide; [by injection Hb as <-|]. destruct (zget keep j) as [[]|] eqn:Ej; cbn in Hb; [|by injection Hb as <-|done].
    destruct (zget (number_kept keep 0) j) as [vj|] eqn:Evj; cbn in Hb; [|done]. injection Hb as <-. apply Forall_app_2, Forall_singleton; [done|].
    split; [done|by eapply kept_zvar].
  - destruct Hw as [?|(n & -> & Hn)]; [done|]. destruct (zget (number_kept keep 0) (Z.of_nat n)) as [vw|] eqn:Evw; cbn in H; [|done].
    assert (Hvw : vw < count_kept keep).
    { rewrite zget_nat in Evw. eapply kept_var, Evw. eapply Hclosed, read_before; done. }
    eapply (for_each_inv (Forall (in_range (count_kept keep)))); [|exact H|].
    + intros j c1 c2 _ Hb H1. cbv beta in Hb. case_decide; [by injection Hb as <-|].
      destruct (zget keep j) as [[]|] eqn:Ej; cbn in Hb; [|by injection Hb as <-|done].
      destruct (zget (number_kept keep 0) j) as [vj|] eqn:Evj; cbn in Hb; [|done]. injection Hb as <-. apply Forall_app_2, Forall_singleton; [done|].
      assert (vj < count_kept keep) by by eapply kept_zvar. done.
    + apply Forall_app_2, Forall_singleton; done.
Qed.

Lemma formula_in_range f : output_formula ts es wba keep = Some f ->
  variables f = count_kept keep /\ Forall (in_range (variables f)) (constraints f).
Proof.
  intros E. destruct (formula_spec ts es wba keep) as (f' & E' & Hv & _); [done..|]. rewrite E in E'. injection E' as <-.
  split; [done|]. rewrite Hv. unfold output_formula in E.
  destruct (for_each _ _ []) as [c1|] eqn:E1; cbn in E; [|done]. destruct (for_each _ _ c1) as [c2|] eqn:E2; cbn in E; [|done].
  destruct (for_each _ _ c2) as [c3|] eqn:E3; cbn in E; [|done]. injection E as <-. cbn [constraints].
  eapply (for_each_inv (Forall (in_range (count_kept keep)))); [intros i ? ? _; apply ha_in_range|exact E3|].
  eapply (for_each_inv (Forall (in_range (count_kept keep)))); [intros i ? ? _; apply rf_in_range|exact E2|].
  eapply (for_each_inv (Forall (in_range (count_kept keep)))); [intros i ? ? _; apply po_in_range|exact E1|constructor].
Qed.
End executions.
