(* ===== verification/RfscGraph.v ===== *)
(** * RfscGraph: traces as saturated graphs

    [add_event_to_graph] and [add_kept] put events of a trace into a graph, each
    after the events it depends on. The graph then shows the trace: the same reads,
    the edges of program order and happens-after; and every execution of the events
    agrees with all its edges, the inferred ones too. *)

From S2P Require Import Prelude.
From S2P Require Import SatGraph.
From S2P Require Import SatWf.
From S2P Require Import SatClosed.
From S2P Require Import SatSound.
From S2P Require Import SatBuild.
From S2P Require Import SatAdd.
From S2P Require Import SatSpec.
From S2P Require Import Prefix.
From S2P Require Import PrefixPlace.
From S2P Require Import PrefixSpec.
From S2P Require Import VClock.
From S2P Require Import CPid.
From S2P Require Import SymAddr.
From S2P Require Import SymEv.
From S2P Require Import Unfold.
From S2P Require Import Decision.
From S2P Require Import Rfsc.
From S2P Require Import RfscAnalysis.
From S2P Require Import RfscExplore.
From S2P Require Import RfscPast.
From S2P Require Import RfscFormula.

(** ** Traces *)

(** The events of a process follow each other by their indices, and loads are the
    events that read. *)
Record chained (ts : list Thread) (es : list Event) : Prop := {
  ch_pid i e : es !! i = Some e -> (0 <= iid_pid (iid e))%Z;
  ch_inj i j ei ej : es !! i = Some ei -> es !! j = Some ej -> iid ei = iid ej -> i = j;
  ch_some i p ei ep : po_pred ts es i = Some (Some p) -> es !! i = Some ei -> es !! p = Some ep ->
    iid_pid (iid ep) = iid_pid (iid ei) /\ (iid_index (iid ep) < iid_index (iid ei))%Z /\
    forall k ek, es !! k = Some ek -> iid_pid (iid ek) = iid_pid (iid ei) ->
      (iid_index (iid ek) < iid_index (iid ei))%Z -> (iid_index (iid ek) <= iid_index (iid ep))%Z;
  ch_none i ei : po_pred ts es i = Some None -> es !! i = Some ei ->
    forall k ek, es !! k = Some ek -> iid_pid (iid ek) = iid_pid (iid ei) ->
      (iid_index (iid ei) <= iid_index (iid ek))%Z;
  ch_self i e : es !! i = Some e -> process_event ts es (iid_pid (iid e)) (iid_index (iid e)) = Some i;
  ch_read i e w : es !! i = Some e -> read_from e = Some w -> sym_is_load (sym e) = true;
  ch_load i e : es !! i = Some e -> sym_is_load (sym e) = true -> read_from e <> None;
  ch_store i e : es !! i = Some e -> sym_is_store (sym e) = true -> is_Some (ev_addr (sym e));
}.

(** The trace index an event reads from, if it is not the initial value. *)
Definition rf_index (e : Event) : option nat :=
  match read_from e with Some w => if decide (w <> -1)%Z then Some (Z.to_nat w) else None | None => None end.

Section graph.
Context (order : gmap nat nat -> list (nat * nat)) (Horder : forall m, order m ≡ₚ map_to_list m).
Context (ts : list Thread) (es : list Event).
Context (Hpast : past_ok ts es) (Hreads : reads_wf es) (Hch : chained ts es).
Implicit Types (sub : list nat) (g : graph).

(** Events in an order in which each comes after those right before it. *)
Definition sub_ok sub : Prop :=
  NoDup sub /\ (forall i, i ∈ sub -> i < length es) /\
  forall k i j, sub !! k = Some i -> before ts es i j -> j ∈ take k sub.

Record shows sub g : Prop := {
  sh_good : good g;
  sh_named : named g;
  sh_ids : event_ids g = omap (fun i => iid <$> (es !! i)) sub;
  sh_event id i e : sub !! id = Some i -> es !! i = Some e -> exists ge,
    events g !! id = Some ge /\ SatGraph.is_load ge = sym_is_load (sym e) /\
    SatGraph.is_store ge = sym_is_store (sym e) /\
    (sym_is_load (sym e) = true \/ sym_is_store (sym e) = true ->
       sas_addr <$> ev_addr (sym e) = Some (SatGraph.ev_addr ge)) /\
    SatGraph.read_from ge ≫= (fun w => sub !! w) = rf_index e /\
    (SatGraph.read_from ge = None <-> rf_index e = None);
  sh_process q id : id ∈ process g q <-> exists i e, sub !! id = Some i /\ es !! i = Some e /\
    Z.to_nat (iid_pid (iid e)) = q;
  sh_po id i p : sub !! id = Some i -> po_pred ts es i = Some (Some p) ->
    exists k, sub !! k = Some p /\ edge g k id;
  sh_ha id i e j : sub !! id = Some i -> es !! i = Some e -> j ∈ happens_after e ->
    exists k, sub !! k = Some j /\ edge g k id;
}.

Lemma ids_lookup sub id : (forall i, i ∈ sub -> i < length es) ->
  omap (fun i => iid <$> (es !! i)) sub !! id = (i ← sub !! id; iid <$> (es !! i)).
Proof.
  revert id. induction sub as [|i sub IH]; intros id Hlt; [done|].
  destruct (lookup_lt_exists es i) as [e He]; [apply Hlt; by left|].
  cbn [omap list_omap]. rewrite He. destruct id as [|id]; simpl; [by rewrite He|].
  apply IH. intros j Hj. apply Hlt. by right.
Qed.

Lemma shows_length sub g : sub_ok sub -> shows sub g -> length (events g) = length sub.
Proof.
  intros (_ & Hlt & _) Hs. transitivity (length (event_ids g)); [unfold event_ids; by rewrite length_fmap|].
  rewrite (sh_ids sub g Hs). revert Hlt. clear. induction sub as [|i sub IH]; intros Hlt; [done|].
  destruct (lookup_lt_exists es i) as [e He]; [apply Hlt; by left|].
  cbn [omap list_omap]. rewrite He. simpl. f_equal. apply IH. intros j Hj. apply Hlt. by right.
Qed.

Lemma shows_known sub g i e k : sub_ok sub -> shows sub g -> es !! i = Some e ->
  extid_to_id g !! iid e = Some k <-> sub !! k = Some i.
Proof.
  intros (Hnd & Hlt & _) Hs He. rewrite (sh_named sub g Hs (iid e) k), (sh_ids sub g Hs), ids_lookup by done.
  split.
  - destruct (sub !! k) as [j|] eqn:Ej; simpl; [|done]. intros Hj. destruct (es !! j) as [ej|] eqn:Eej; simplify_eq/=.
    f_equal. by apply (ch_inj ts es Hch j i ej e).
  - intros ->. simpl. by rewrite He.
Qed.

Lemma shows_has sub g i e : sub_ok sub -> shows sub g -> es !! i = Some e ->
  has_event g (iid e) = bool_decide (i ∈ sub).
Proof.
  intros Hok Hs He. unfold has_event. apply bool_decide_ext. rewrite list_elem_of_lookup. split.
  - intros [k Hk]. exists k. by apply (shows_known sub g i e k).
  - intros [k Hk]. exists k. by apply (shows_known sub g i e k).
Qed.

Lemma sub_ok_prefix sub i : sub_ok (sub ++ [i]) -> sub_ok sub.
Proof.
  intros (Hnd & Hlt & Hb). split_and!.
  - by apply NoDup_app in Hnd as (? & _).
  - intros j Hj. apply Hlt. set_solver.
  - intros k j x Hk Hx. pose proof (lookup_lt_Some _ _ _ Hk) as Hl.
    pose proof (Hb k j x) as H. rewrite lookup_app_l, take_app_le in H by lia. auto.
Qed.

Lemma sub_ok_last sub i j : sub_ok (sub ++ [i]) -> before ts es i j -> j ∈ sub.
Proof.
  intros (_ & _ & Hb) Hj. specialize (Hb (length sub) i j). rewrite list_lookup_middle in Hb by done.
  rewrite take_app_length in Hb. auto.
Qed.

Lemma sub_ok_fresh sub i : sub_ok (sub ++ [i]) -> (i ∉ sub) /\ i < length es.
Proof.
  intros (Hnd & Hlt & _). split; [|apply Hlt; set_solver]. apply NoDup_app in Hnd as (_ & Hd & _). intros Hi.
  apply (Hd i Hi). by left.
Qed.

Lemma pred_of sub i : sub_ok sub -> i ∈ sub -> exists p, po_pred ts es i = Some p.
Proof. intros (_ & Hlt & _) Hi. apply (pred_defined ts es Hpast). auto. Qed.

(** The events of the process that are there have smaller indices. *)
Lemma below_last sub i ei : sub_ok (sub ++ [i]) -> es !! i = Some ei ->
  forall k ek, k ∈ sub -> es !! k = Some ek -> iid_pid (iid ek) = iid_pid (iid ei) ->
  (iid_index (iid ek) < iid_index (iid ei))%Z.
Proof.
  intros Hok Hei. destruct (sub_ok_fresh sub i Hok) as [Hni Hi]. pose proof (sub_ok_prefix sub i Hok) as Hok'.
  (* the least index above that of [i] would have [i] before it *)
  assert (H : forall q k ek, sub !! q = Some k -> es !! k = Some ek -> iid_pid (iid ek) = iid_pid (iid ei) ->
    (iid_index (iid ek) < iid_index (iid ei))%Z).
  { induction q as [q IH] using lt_wf_ind. intros k ek Hq Hek Hp.
    destruct (Z.lt_trichotomy (iid_index (iid ek)) (iid_index (iid ei))) as [?|[Heq|Hgt]]; [done| |].
    - destruct Hni. apply list_elem_of_lookup. exists q. rewrite Hq. f_equal.
      apply (ch_inj ts es Hch k i ek ei); [done..|]. destruct (iid ek), (iid ei). simpl in *. congruence.
    - destruct (pred_of sub k Hok') as [[p|] Hpr]; [by eapply list_elem_of_lookup_2| |].
      + pose proof (po_pred_before ts es k p Hpr) as Hb.
        destruct Hok' as (_ & Hlt & Hbef). apply Hbef with (k := q) in Hb; [|done].
        apply elem_of_take in Hb as (q' & Hq' & Hlq).
        destruct (lookup_lt_exists es p) as [ep Hep]; [apply Hlt; by eapply list_elem_of_lookup_2|].
        destruct (ch_some ts es Hch k p ek ep Hpr Hek Hep) as (Hpp & _ & Hmax).
        specialize (Hmax i ei Hei). rewrite Hp in Hmax. specialize (Hmax eq_refl Hgt).
        specialize (IH q' Hlq p ep Hq' Hep). rewrite Hpp in IH. specialize (IH Hp). lia.
      + pose proof (ch_none ts es Hch k ek Hpr Hek i ei Hei) as H. rewrite Hp in H. specialize (H eq_refl). lia. }
  intros k ek (q & Hq)%list_elem_of_lookup_1. by apply (H q).
Qed.

Lemma sub_ok_take sub k : sub_ok sub -> sub_ok (take k sub).
Proof.
  intros (Hnd & Hlt & Hb). split_and!.
  - rewrite <-(take_drop k sub) in Hnd. by apply NoDup_app in Hnd as (? & _).
  - intros i Hi. apply Hlt. apply elem_of_take in Hi as (? & ? & _). by eapply list_elem_of_lookup_2.
  - intros q i j Hq Hj. apply lookup_take_Some in Hq as [Hq ?]. rewrite take_take. replace (q `min` k) with q by lia. eauto.
Qed.

(** The last event of the process of the next one is its predecessor. *)
Lemma last_process sub g i ei : sub_ok (sub ++ [i]) -> shows sub g -> es !! i = Some ei ->
  exists p, po_pred ts es i = Some p /\
    last (process g (Z.to_nat (iid_pid (iid ei)))) ≫= (fun k => sub !! k) = p /\
    (last (process g (Z.to_nat (iid_pid (iid ei)))) = None <-> p = None).
Proof.
  intros Hok Hs Hei. destruct (sub_ok_fresh sub i Hok) as [Hni Hi]. pose proof (sub_ok_prefix sub i Hok) as Hok'.
  pose proof Hok' as (Hnd & Hlt & Hbef).
  destruct (pred_defined ts es Hpast i Hi) as [p Hp]. exists p. split; [done|].
  set (l := process g _).
  assert (Hmem : forall k, k ∈ l <-> exists j ej, sub !! k = Some j /\ es !! j = Some ej /\
      iid_pid (iid ej) = iid_pid (iid ei)).
  { intros k. unfold l. rewrite (sh_process sub g Hs). split; intros (j & ej & ? & Hj & E); exists j, ej; (split_and!; [done..|]).
    - pose proof (ch_pid ts es Hch j ej Hj). pose proof (ch_pid ts es Hch i ei Hei). lia.
    - by rewrite E. }
  destruct p as [p|].
  - pose proof (sub_ok_last sub i p Hok (po_pred_before ts es i p Hp)) as Hin. apply list_elem_of_lookup_1 in Hin as [q Hq].
    destruct (lookup_lt_exists es p) as [ep Hep]; [apply Hlt; by eapply list_elem_of_lookup_2|].
    destruct (ch_some ts es Hch i p ei ep Hp Hei Hep) as (Hpp & Hless & Hmax).
    assert (Hql : q ∈ l) by (apply Hmem; by exists p, ep).
    destruct (last l) as [z|] eqn:El; [|apply last_None in El; rewrite El in Hql; by apply not_elem_of_nil in Hql].
    assert (Hz : z ∈ l) by (apply last_Some in El as [l' ->]; set_solver).
    pose proof Hz as (j & ej & Hj & Hej & Hpj)%Hmem. simpl. split; [|done].
    destruct (decide (z = q)) as [->|Hne]; [congruence|exfalso].
    assert (Hqz : q < z).
    { pose proof (sk_sorted g (wf_skeleton g (go_wf g (sh_good sub g Hs))) (Z.to_nat (iid_pid (iid ei)))) as Hsort.
      fold l in Hsort. apply last_Some in El as [l' El]. rewrite El in Hsort, Hql.
      apply StronglySorted_app in Hsort as (H & _ & _).
      apply elem_of_app in Hql as [Hql| ->%list_elem_of_singleton]; [|done]. apply (H q z); set_solver. }
    assert (Hokj : sub_ok (take z sub ++ [j])).
    { rewrite <-(take_S_r _ _ _ Hj). by apply sub_ok_take. }
    pose proof (below_last (take z sub) j ej Hokj Hej p ep) as H1.
    rewrite elem_of_take in H1. specialize (H1 (ex_intro _ q (conj Hq Hqz)) Hep ltac:(congruence)).
    pose proof (below_last sub i ei Hok Hei j ej ltac:(by eapply list_elem_of_lookup_2) Hej Hpj) as H2.
    specialize (Hmax j ej Hej Hpj H2). lia.
  - assert (El : l = []).
    { apply elem_of_nil_inv. intros k (j & ej & Hj & Hej & Hpj)%Hmem.
      pose proof (below_last sub i ei Hok Hei j ej ltac:(by eapply list_elem_of_lookup_2) Hej Hpj) as H.
      pose proof (ch_none ts es Hch i ei Hp Hei j ej Hej Hpj). lia. }
    by rewrite El.
Qed.

(** ** Adding an event *)

(** An execution order of the events of [sub], by their places [P]. *)
Record ordered (P : nat -> Z) sub : Prop := {
  or_before i j : i ∈ sub -> before ts es i j -> (P j < P i)%Z;
  or_reads r e w a s : r ∈ sub -> es !! r = Some e -> read_from e = Some w -> get_addr es r = Some a ->
    s ∈ sub -> stores_to es (sas_addr a) s = true -> s <> r ->
    (w = (-1)%Z -> (P r < P s)%Z) /\
    (forall n, w = Z.of_nat n -> s <> n -> (P s < P n \/ P r < P s)%Z);
}.

Lemma ordered_take P sub i : ordered P (sub ++ [i]) -> ordered P sub.
Proof. intros [H1 H2]. split; intros; [eapply H1|eapply H2]; eauto; set_solver. Qed.

(** The place of event [id] of the graph. *)
Definition gpos (P : nat -> Z) sub (id : nat) : Z := P (default 0 (sub !! id)).

Definition faithful sub g : Prop :=
  shows sub g /\ forall P, ordered P sub -> respects (gpos P sub) g.

Lemma gpos_app P sub i id : id < length sub -> gpos P (sub ++ [i]) id = gpos P sub id.
Proof. intros H. unfold gpos. by rewrite lookup_app_l. Qed.

Definition rf_id (e : Event) : option IID := rf_index e ≫= fun w => iid <$> es !! w.

Lemma event_kind_load s : event_load (event_kind s) = sym_is_load s.
Proof. unfold event_kind. by destruct (sym_is_load s), (sym_is_store s). Qed.
Lemma event_kind_store s : event_store (event_kind s) = sym_is_store s.
Proof. unfold event_kind. by destruct (sym_is_load s), (sym_is_store s). Qed.

(** The address of an event that has one. *)
Lemma accessed_addr i e : es !! i = Some e -> sym_is_load (sym e) = true \/ sym_is_store (sym e) = true ->
  exists a, ev_addr (sym e) = Some a.
Proof.
  intros He [Hl|Hs].
  - destruct (read_from e) as [w|] eqn:Ew; [|by destruct (ch_load ts es Hch i e He Hl)].
    destruct (rw_addr es Hreads i e w He Ew) as (a & Ha & _). unfold get_addr in Ha. rewrite He in Ha. by exists a.
  - by destruct (ch_store ts es Hch i e He Hs) as [a Ha]; exists a.
Qed.

Lemma addr_of_kind i e : es !! i = Some e -> exists x,
  (if decide (event_kind (sym e) <> SatGraph.NONE) then a ← get_addr es i; Some (sas_addr a) else Some no_addr) = Some x /\
  (sym_is_load (sym e) = true \/ sym_is_store (sym e) = true -> sas_addr <$> ev_addr (sym e) = Some x).
Proof.
  intros He. unfold get_addr. rewrite He. cbn [mbind option_bind].
  assert (Hk : event_kind (sym e) <> SatGraph.NONE <-> sym_is_load (sym e) = true \/ sym_is_store (sym e) = true).
  { unfold event_kind. destruct (sym_is_load (sym e)), (sym_is_store (sym e)); naive_solver. }
  destruct (decide _) as [Hd|Hd].
  - apply Hk in Hd. destruct (accessed_addr i e He Hd) as [a Ha]. rewrite Ha. by eexists.
  - eexists. split; [done|]. tauto.
Qed.

Lemma stores_graph sub g k w a : sub_ok sub -> shows sub g -> sub !! k = Some w -> stores_to es a w = true ->
  stores g k a.
Proof.
  intros (_ & Hlt & _) Hs Hk Hw. unfold stores_to in Hw. destruct (es !! w) as [e|] eqn:He; [|done].
  apply andb_true_iff in Hw as [Hst Ha]. destruct (ev_addr (sym e)) as [x|] eqn:Ex; [|done].
  apply bool_decide_eq_true in Ha. destruct (sh_event sub g Hs k w e Hk He) as (ge & Hge & _ & Hgs & Hga & _).
  exists ge. rewrite Hgs, Hst in *. rewrite Ex in Hga. specialize (Hga (or_intror eq_refl)). simplify_eq/=.
  split_and!; [done|done|]. congruence.
Qed.

Lemma rf_target i e w : es !! i = Some e -> rf_index e = Some w ->
  sym_is_load (sym e) = true /\ read_from e = Some (Z.of_nat w) /\
  exists a, ev_addr (sym e) = Some a /\ stores_to es (sas_addr a) w = true.
Proof.
  intros He Hw. unfold rf_index in Hw. destruct (read_from e) as [z|] eqn:Ez; [|done].
  case_decide as Hz; [|done]. simplify_eq.
  destruct (rw_addr es Hreads i e z He Ez) as (a & Ha & _ & [?|(n & -> & Hn)]); [done|].
  rewrite Nat2Z.id. split_and!; [by eapply ch_read|done|]. exists a. split; [|done].
  unfold get_addr in Ha. by rewrite He in Ha.
Qed.

Lemma happens_ids sub g i e : sub_ok (sub ++ [i]) -> shows sub g -> es !! i = Some e ->
  exists xs, mapM (fun j => ej ← es !! j; Some (iid ej)) (happens_after e) = Some xs /\
    forall x, x ∈ xs <-> exists j ej, j ∈ happens_after e /\ es !! j = Some ej /\ x = iid ej.
Proof.
  intros Hok Hs He. destruct (sub_ok_fresh sub i Hok) as [_ Hi].
  assert (H : Forall (fun j => j < length es) (happens_after e)).
  { apply Forall_forall. intros j Hj. destruct (sub_ok_prefix sub i Hok) as (_ & Hlt & _). apply Hlt.
    eapply sub_ok_last; [done|]. by eapply after_before. }
  induction H as [|j l Hj _ IH]; [exists []; split; [done|]; intros x; split; [by intros ?%not_elem_of_nil|by intros (? & ? & ?%not_elem_of_nil & _)]|].
  destruct IH as (xs & E & Hxs). destruct (lookup_lt_exists es j) as [ej Hej]; [done|].
  exists (iid ej :: xs). split; [by cbn; rewrite Hej; cbn; rewrite E|].
  intros x. rewrite elem_of_cons, Hxs. split.
  - intros [->|(k & ek & ? & ? & ->)]; [exists j, ej|exists k, ek]; (split_and!; [|done..]); set_solver.
  - intros (k & ek & [->|?]%elem_of_cons & ? & ->); [left; congruence|right; eauto].
Qed.

Lemma rf_of e : (forall w, read_from e = Some w -> w = (-1)%Z \/ exists n, w = Z.of_nat n /\ n < length es) ->
  match read_from e with
  | Some w => if decide (w <> -1)%Z then ew ← zget es w; Some (Some (iid ew)) else Some None
  | None => Some None
  end = Some (rf_id e).
Proof.
  intros H. unfold rf_id, rf_index. destruct (read_from e) as [w|]; [|done].
  destruct (H w eq_refl) as [->|(n & -> & Hn)]; [done|].
  rewrite !decide_True by lia. rewrite zget_nat, Nat2Z.id. simpl.
  destruct (lookup_lt_exists es n Hn) as [ew ->]. done.
Qed.

Lemma shown_reads P all g : sub_ok all -> shows all g -> ordered P all ->
  reads_ok (gpos P all) (events g).
Proof.
  intros Hok Hs [_ Hr] r er s es' Hgr Hl Hgs Hst Ha Hne.
  pose proof (shows_length all g Hok Hs) as Hlg. pose proof Hok as (_ & Hlt & _).
  destruct (lookup_lt_exists all r) as [i Hi]; [apply lookup_lt_Some in Hgr; lia|].
  destruct (lookup_lt_exists all s) as [j Hj]; [apply lookup_lt_Some in Hgs; lia|].
  destruct (lookup_lt_exists es i) as [e He]; [apply Hlt; by eapply list_elem_of_lookup_2|].
  destruct (lookup_lt_exists es j) as [e' He']; [apply Hlt; by eapply list_elem_of_lookup_2|].
  destruct (sh_event all g Hs r i e Hi He) as (ge & Hge & Hgl & _ & Haddr & Hrf & Hno).
  destruct (sh_event all g Hs s j e' Hj He') as (ge' & Hge' & _ & Hgst & Haddr' & _). simplify_eq.
  rewrite Hgl in Hl. rewrite Hgst in Hst. specialize (Haddr (or_introl Hl)). specialize (Haddr' (or_intror Hst)).
  destruct (read_from e) as [w|] eqn:Ew; [|by destruct (ch_load ts es Hch i e He Hl)].
  destruct (rw_addr es Hreads i e w He Ew) as (a & Hga & _ & Hw). pose proof Hga as Hga'. unfold get_addr in Hga.
  rewrite He in Hga. simpl in Hga. rewrite Hga in Haddr. injection Haddr as Haddr.
  destruct (Hr i e w a j) as [H1 H2]; try done; try (by eapply list_elem_of_lookup_2).
  { unfold stores_to. rewrite He', Hst. destruct (ev_addr (sym e')); simplify_eq/=. apply bool_decide_true. congruence. }
  { intros ->. destruct Hok as (Hnd & _). by rewrite (NoDup_lookup all s r i) in Hne by done. }
  assert (Hgi : gpos P all r = P i) by (unfold gpos; by rewrite Hi).
  assert (Hgj : gpos P all s = P j) by (unfold gpos; by rewrite Hj).
  rewrite Hgi, Hgj. unfold rf_index in Hrf, Hno. rewrite Ew in Hrf, Hno.
  destruct (SatGraph.read_from er) as [k|] eqn:Ek.
  - simpl in Hrf. intros Hsk. destruct Hw as [->|(n & -> & Hn)]; [by rewrite decide_False in Hno by lia; naive_solver|].
    rewrite decide_True, Nat2Z.id in Hrf by lia.
    assert (Hgk : gpos P all k = P n) by (unfold gpos; by rewrite Hrf). rewrite Hgk. apply (H2 n eq_refl).
    intros ->. destruct Hok as (Hnd & _). by destruct Hsk; apply (NoDup_lookup all s k n).
  - apply H1. destruct Hno as [Hno _]. specialize (Hno eq_refl). case_decide; [done|lia].
Qed.

(** ** Adding an event *)

Section adding.
Context (sub : list nat) (g : graph) (i : nat) (e : Event).
Context (Hs : shows sub g) (Hok : sub_ok (sub ++ [i])) (He : es !! i = Some e).
Context (x : SymAddr) (Hx : sym_is_load (sym e) = true \/ sym_is_store (sym e) = true -> sas_addr <$> ev_addr (sym e) = Some x).
Context (xs : list IID) (Hxs : forall y, y ∈ xs <-> exists j ej, j ∈ happens_after e /\ es !! j = Some ej /\ y = iid ej).
Let rf := rf_id e ≫= known g.
Let ids := omap (known g) xs.
Let q := Z.to_nat (iid_pid (iid e)).

Lemma past_shown j : before ts es i j -> exists k ej, sub !! k = Some j /\ es !! j = Some ej /\ extid_to_id g !! iid ej = Some k.
Proof.
  intros Hj. pose proof (sub_ok_last sub i j Hok Hj) as Hjs. apply list_elem_of_lookup_1 in Hjs as [k Hk].
  pose proof (sub_ok_prefix sub i Hok) as Hok'. pose proof Hok' as (_ & Hlt & _).
  destruct (lookup_lt_exists es j) as [ej Hej]; [apply Hlt; by eapply list_elem_of_lookup_2|].
  exists k, ej. split_and!; [done|done|]. by apply (shows_known sub g j ej k).
Qed.

Lemma after_shown j : j ∈ happens_after e -> before ts es i j.
Proof. intros Hj. eapply after_before; [done| |done..]. by eapply lookup_lt_Some. Qed.
Lemma read_shown w : rf_index e = Some w -> before ts es i w.
Proof. intros Hw. destruct (rf_target i e w He Hw) as (_ & Hrf & _). eapply read_before; [done| |done..]. by eapply lookup_lt_Some. Qed.

(** The address of what it reads from. *)
Lemma read_writes w k : rf_index e = Some w -> sub !! k = Some w -> sym_is_load (sym e) = true /\ stores g k x.
Proof.
  intros Hw Hk. destruct (rf_target i e w He Hw) as (Hl & _ & a & Ha & Hst). split; [done|].
  specialize (Hx (or_introl Hl)). rewrite Ha in Hx. injection Hx as <-.
  eapply stores_graph; [by eapply sub_ok_prefix|done..].
Qed.

Lemma adding_args : event_args g (iid e) (event_kind (sym e)) x (rf_id e) xs.
Proof.
  pose proof (sub_ok_prefix sub i Hok) as Hok'. split.
  - destruct (extid_to_id g !! iid e) as [k|] eqn:Ek; [|done]. apply (shows_known sub g i e k) in Ek; [|done..].
    destruct (sub_ok_fresh sub i Hok) as [Hni _]. destruct Hni. by eapply list_elem_of_lookup_2.
  - intros y Hy. unfold rf_id in Hy. destruct (rf_index e) as [w|] eqn:Ew; [|done]. cbn [mbind option_bind] in Hy.
    destruct (past_shown w (read_shown w Ew)) as (k & ew & Hk & Hew & Hid). rewrite Hew in Hy. injection Hy as <-.
    destruct (read_writes w k Ew Hk) as [Hl Hst]. split.
    + unfold event_kind. rewrite Hl. destruct (sym_is_store (sym e)); auto.
    + by exists k.
  - intros y (j & ej & Hj & Hej & ->)%Hxs. destruct (past_shown j (after_shown j Hj)) as (k & ej' & _ & ? & ?).
    simplify_eq. by eexists.
Qed.

Lemma rf_shown : rf ≫= (fun w => sub !! w) = rf_index e /\ (rf = None <-> rf_index e = None).
Proof.
  unfold rf, rf_id. destruct (rf_index e) as [w|] eqn:Ew; [|done]. cbn [mbind option_bind].
  destruct (past_shown w (read_shown w Ew)) as (k & ew & Hk & -> & Hid). simpl. unfold known. rewrite Hid. simpl.
  by rewrite Hk.
Qed.

Lemma rf_stores w : rf = Some w -> sym_is_load (sym e) = true /\ stores g w x.
Proof.
  intros Hw. destruct rf_shown as [Hrf Hno]. rewrite Hw in Hrf, Hno. simpl in Hrf.
  destruct (rf_index e) as [z|] eqn:Ez; [by eapply read_writes|by destruct Hno as [_ Hno]; specialize (Hno eq_refl)].
Qed.

Lemma ids_shown k : k ∈ ids <-> exists j, j ∈ happens_after e /\ sub !! k = Some j.
Proof.
  pose proof (sub_ok_prefix sub i Hok) as Hok'. unfold ids. rewrite list_elem_of_omap. split.
  - intros (y & (j & ej & Hj & Hej & ->)%Hxs & Hk). exists j. split; [done|]. by apply (shows_known sub g j ej k).
  - intros (j & Hj & Hk). destruct (past_shown j (after_shown j Hj)) as (k' & ej & Hk' & Hej & Hid).
    exists (iid ej). split; [apply Hxs; by exists j, ej|]. by apply (shows_known sub g j ej k).
Qed.

Context (g' : graph) (Hgood' : good g').
Context (E : add_event order q (iid e) (event_kind (sym e)) x (rf_id e) xs g = Some g').
Context (Had : added g q (sym_is_load (sym e)) (sym_is_store (sym e)) x rf ids g').

Lemma added_length : length (events g) = length sub.
Proof. apply shows_length; [by eapply sub_ok_prefix|done]. Qed.

Lemma added_event id j ej : (sub ++ [i]) !! id = Some j -> es !! j = Some ej -> exists ge, events g' !! id = Some ge /\
  SatGraph.is_load ge = sym_is_load (sym ej) /\ SatGraph.is_store ge = sym_is_store (sym ej) /\
  (sym_is_load (sym ej) = true \/ sym_is_store (sym ej) = true -> sas_addr <$> ev_addr (sym ej) = Some (SatGraph.ev_addr ge)) /\
  SatGraph.read_from ge ≫= (fun w => (sub ++ [i]) !! w) = rf_index ej /\ (SatGraph.read_from ge = None <-> rf_index ej = None).
Proof.
  intros Hid Hej. pose proof added_length as Hlen. apply lookup_app_Some in Hid as [Hid|[Hge Hid]].
  - destruct (sh_event sub g Hs id j ej Hid Hej) as (ge & Hge & H1 & H2 & H3 & H4 & H5).
    destruct (ad_old _ _ _ _ _ _ _ _ Had id ge Hge) as (ge' & Hge' & _ & _ & Hl' & Hs' & Ha' & Hr' & _).
    exists ge'. rewrite Hl', Hs', Ha', Hr'. split_and!; [done..| |done]. rewrite <-H4.
    destruct (SatGraph.read_from ge) as [w|] eqn:Ew; [|done]. simpl.
    destruct (sk_rf g (wf_skeleton g (go_wf g (sh_good sub g Hs))) id ge w Hge Ew) as (_ & ew & Hew & _).
    apply lookup_app_l. apply lookup_lt_Some in Hew. lia.
  - apply list_lookup_singleton_Some in Hid as [Hz <-]. simplify_eq.
    destruct (ad_new _ _ _ _ _ _ _ _ Had) as (ge & Hge' & _ & _ & Hl' & Hs' & Ha' & Hr' & _).
    rewrite Hlen in Hge'. replace id with (length sub) by lia. exists ge. rewrite Hl', Hs', Ha', Hr'.
    split_and!; [done..| |apply rf_shown]. rewrite <-(proj1 rf_shown). destruct rf as [w|] eqn:Ew; [|done]. simpl.
    destruct (rf_stores w Ew) as (_ & ew & Hew & _). apply lookup_app_l. apply lookup_lt_Some in Hew. lia.
Qed.

Lemma added_named : named g'.
Proof.
  pose proof (add_event_names _ _ _ _ _ _ _ _ _ E) as En. injection En as Ex1 Ee1.
  intros y k. rewrite Ex1, Ee1. assert (Hl2 : length (events g) = length (event_ids g)) by (unfold event_ids; by rewrite length_fmap).
  rewrite Hl2, lookup_insert_Some, lookup_app_Some, list_lookup_singleton_Some, (sh_named sub g Hs y k). split.
  - intros [[<- <-]|[? ?]]; [right; split_and!; [lia|lia|done]|by left].
  - intros [Hy|(? & ? & <-)]; [right; split; [|done]|left; split; [done|lia]].
    intros <-. apply (sh_named sub g Hs) in Hy. pose proof (ea_fresh _ _ _ _ _ _ adding_args). congruence.
Qed.

Lemma added_shows : shows (sub ++ [i]) g'.
Proof.
  pose proof added_length as Hlen.
  pose proof (edge_cases g g' q _ _ x rf ids (sh_good sub g Hs) Had rf_stores) as Hedge. rewrite Hlen in Hedge.
  destruct (last_process sub g i e Hok Hs He) as (p & Hp & Hlast & Hnone). fold q in Hlast, Hnone.
  split; [done|exact added_named| |exact added_event|..].
  - pose proof (add_event_names _ _ _ _ _ _ _ _ _ E) as En. injection En as _ Ee1.
    rewrite Ee1, (sh_ids sub g Hs). rewrite omap_app. cbn. by rewrite He.
  - intros q' id. rewrite (ad_process _ _ _ _ _ _ _ _ Had), elem_of_app, (sh_process sub g Hs q' id), Hlen. split.
    + intros [(j & ej & Hj & Hej & Hq)|Hid].
      * exists j, ej. split_and!; [by apply lookup_app_l_Some|done|done].
      * destruct (decide (q' = q)) as [->|]; [|by apply not_elem_of_nil in Hid].
        apply list_elem_of_singleton in Hid as ->. exists i, e. split_and!; [by apply list_lookup_middle|done|done].
    + intros (j & ej & Hj & Hej & Hq). apply lookup_app_Some in Hj as [Hj|[Hge Hj]]; [left; by exists j, ej|right].
      apply list_lookup_singleton_Some in Hj as [Hz <-]. simplify_eq. rewrite decide_True by done.
      apply list_elem_of_singleton. lia.
  - intros id j p' Hid Hp'. apply lookup_app_Some in Hid as [Hid|[Hge Hid]].
    + destruct (sh_po sub g Hs id j p' Hid Hp') as (k & Hk & Hek). exists k.
      split; [by apply lookup_app_l_Some|]. apply Hedge. by left.
    + apply list_lookup_singleton_Some in Hid as [Hz <-]. rewrite Hp in Hp'. simplify_eq.
      destruct (last (process g q)) as [k|] eqn:El; [|by destruct Hnone as [Hn _]; specialize (Hn eq_refl)].
      simpl in Hp'. exists k. split; [by apply lookup_app_l_Some|]. apply Hedge. right; right. split; [lia|by left].
  - intros id j ej x' Hid Hej Hx'. apply lookup_app_Some in Hid as [Hid|[Hge Hid]].
    + destruct (sh_ha sub g Hs id j ej x' Hid Hej Hx') as (k & Hk & Hek). exists k.
      split; [by apply lookup_app_l_Some|]. apply Hedge. by left.
    + apply list_lookup_singleton_Some in Hid as [Hz <-]. simplify_eq.
      destruct (past_shown x' (after_shown x' Hx')) as (k & ek & Hk & _). exists k.
      split; [by apply lookup_app_l_Some|]. apply Hedge. right; right. split; [lia|]. right; right; left.
      apply ids_shown. by exists x'.
Qed.

Lemma added_in_order P : (forall P, ordered P sub -> respects (gpos P sub) g) -> ordered P (sub ++ [i]) ->
  respects (gpos P (sub ++ [i])) g'.
Proof.
  intros Hresp HP. pose proof added_length as Hlen. pose proof (Hresp P (ordered_take P sub i HP)) as Hold.
  assert (Hi' : forall k j, sub !! k = Some j -> gpos P (sub ++ [i]) k = P j).
  { intros k j Hk. unfold gpos. by rewrite (lookup_app_l_Some _ _ _ _ Hk). }
  assert (Hn : gpos P (sub ++ [i]) (length sub) = P i) by (unfold gpos; by rewrite list_lookup_middle).
  eapply (added_respects _ g q _ _ x rf ids g' (sh_good sub g Hs) Hgood' Had rf_stores).
  - intros a Ha. rewrite Hlen, Hn. destruct Ha as [Ha|[Ha|Ha]].
    + destruct (last_process sub g i e Hok Hs He) as (p & Hp & Hlast & Hnone). fold q in Hlast, Hnone. rewrite Ha in Hlast.
      simpl in Hlast. destruct p as [p|]; [|by rewrite (proj2 Hnone eq_refl) in Ha].
      rewrite (Hi' a p Hlast). apply (or_before P _ HP); [set_solver|by apply po_pred_before].
    + destruct rf_shown as [Hrf1 Hrf2]. rewrite Ha in Hrf1, Hrf2. simpl in Hrf1.
      destruct (rf_index e) as [w|] eqn:Ew; [|by destruct Hrf2 as [_ H]; specialize (H eq_refl)].
      rewrite (Hi' a w Hrf1). apply (or_before P _ HP); [set_solver|by apply read_shown].
    + apply ids_shown in Ha as (j & Hj & Hk). rewrite (Hi' a j Hk). apply (or_before P _ HP); [set_solver|by apply after_shown].
  - apply shown_reads; [done|apply added_shows|done].
  - intros a b Hab. destruct (edge_lt g a b) as [Ha Hb]; [apply (sh_good sub g Hs)..|done|]. rewrite !gpos_app by lia. by apply Hold.
Qed.
End adding.

Lemma add_one sub g i : faithful sub g -> sub_ok (sub ++ [i]) ->
  exists g', add_event_to_graph order es g i = Some g' /\ faithful (sub ++ [i]) g'.
Proof.
  intros [Hs Hresp] Hok. destruct (sub_ok_fresh sub i Hok) as [_ Hi].
  destruct (lookup_lt_exists es i Hi) as [e He]. unfold add_event_to_graph. rewrite He. cbn [mbind option_bind].
  destruct (addr_of_kind i e He) as (x & Ex & Hx). rewrite Ex. cbn [mbind option_bind].
  rewrite rf_of; cycle 1.
  { intros w Hw. destruct (rw_addr es Hreads i e w He Hw) as (a & _ & _ & [?|(n & ? & Hn)]); [by left|right].
    exists n. split; [done|]. by eapply stores_lt. }
  cbn [mbind option_bind]. destruct (happens_ids sub g i e Hok Hs He) as (xs & -> & Hxs). cbn [mbind option_bind].
  pose proof (adding_args sub g i e Hs Hok He x Hx xs Hxs) as Hargs.
  destruct (add_event_added order Horder g (Z.to_nat (iid_pid (iid e))) (iid e) (event_kind (sym e)) x (rf_id e) xs (sh_good sub g Hs) Hargs)
    as (g' & E & Hgood' & Had).
  rewrite event_kind_load, event_kind_store in Had. exists g'. split; [exact E|]. split.
  - by eapply added_shows.
  - intros P HP. by eapply added_in_order.
Qed.

(** ** Adding the kept events *)

Definition kept_rest (keep : list bool) (skip : option nat) sub (m : nat) : list nat :=
  filter (fun i => kept keep i = true /\ Some i <> skip /\ i ∉ sub) (seq 0 m).

Lemma kept_rest_S keep skip sub m : kept_rest keep skip sub (S m) = kept_rest keep skip sub m ++
  (if decide (kept keep m = true /\ Some m <> skip /\ m ∉ sub) then [m] else []).
Proof. unfold kept_rest. rewrite seq_S, filter_app, filter_cons. simpl. by case_decide. Qed.

Lemma elem_of_rest keep skip sub m i :
  i ∈ kept_rest keep skip sub m <-> i < m /\ kept keep i = true /\ Some i <> skip /\ i ∉ sub.
Proof. unfold kept_rest. rewrite list_elem_of_filter, elem_of_seq. intuition lia. Qed.

Lemma sub_ok_app_l sub l : sub_ok (sub ++ l) -> sub_ok sub.
Proof. intros H. rewrite <-(take_app_length sub l). by apply sub_ok_take. Qed.

Lemma add_kept_spec keep skip sub g : length keep = length es -> faithful sub g ->
  sub_ok (sub ++ kept_rest keep skip sub (length es)) ->
  exists g', add_kept order es keep skip g = Some g' /\
    faithful (sub ++ kept_rest keep skip sub (length es)) g'.
Proof.
  intros Hk Hf Hok. unfold add_kept.
  assert (H : forall m, m <= length es -> exists g', for_each (seq 0 m) (fun i g =>
      k ← keep !! i; e ← es !! i;
      if (k : bool) && bool_decide (Some i <> skip) && negb (has_event g (iid e))
      then add_event_to_graph order es g i else Some g) g = Some g' /\
      faithful (sub ++ kept_rest keep skip sub m) g'); [|by apply H].
  assert (Hpre : forall m, m <= length es -> exists r, kept_rest keep skip sub (length es) = kept_rest keep skip sub m ++ r).
  { intros m Hm. exists (filter (fun i => kept keep i = true /\ Some i <> skip /\ i ∉ sub) (seq m (length es - m))).
    unfold kept_rest. rewrite <-filter_app, <-seq_app. do 2 f_equal. lia. }
  assert (Hoks : forall m, m <= length es -> sub_ok (sub ++ kept_rest keep skip sub m)).
  { intros m Hm. destruct (Hpre m Hm) as [r Hr]. rewrite Hr, app_assoc in Hok. by eapply sub_ok_app_l. }
  induction m as [|m IH]; intros Hm.
  - exists g. simpl. rewrite app_nil_r. done.
  - destruct IH as (g1 & E1 & Hf1); [lia|]. rewrite seq_S, for_each_app, E1. cbn [mbind option_bind].
    destruct (lookup_lt_exists keep m) as [k Ek]; [lia|]. destruct (lookup_lt_exists es m) as [e Ee]; [lia|].
    cbn [for_each Nat.add]. rewrite Ek, Ee. cbn [mbind option_bind].
    rewrite (shows_has (sub ++ kept_rest keep skip sub m) g1 m e) by (apply Hoks; lia) || apply Hf1 || done.
    assert (Hkm : kept keep m = k) by (unfold kept; by rewrite Ek).
    specialize (Hoks (S m) Hm). rewrite kept_rest_S, Hkm in *.
    assert (Hin : m ∈ sub ++ kept_rest keep skip sub m <-> m ∈ sub).
    { rewrite elem_of_app, elem_of_rest. intuition lia. }
    destruct (decide (k = true /\ Some m <> skip /\ m ∉ sub)) as [(-> & Hs & Hn)|Hd].
    + rewrite bool_decide_true by done. rewrite bool_decide_false by (by rewrite Hin). cbn [andb negb].
      rewrite app_assoc in *. destruct (add_one _ g1 m Hf1 Hoks) as (g2 & -> & Hf2). by exists g2.
    + rewrite app_nil_r. exists g1. split; [|done].
      destruct (k && bool_decide (Some m <> skip) && negb (bool_decide (m ∈ sub ++ kept_rest keep skip sub m))) eqn:Eb; [|done].
      exfalso. apply Hd. apply andb_true_iff in Eb as [[-> Hs%bool_decide_eq_true]%andb_true_iff Hn].
      split_and!; [done|done|]. apply negb_true_iff, bool_decide_eq_false in Hn. by rewrite Hin in Hn.
Qed.

(** The kept events without the changed one, in the order of the trace, then it. *)
Record last_in (keep : list bool) (last_change : nat) sub : Prop := {
  li_length : length keep = length es;
  li_closed : closed ts es keep;
  li_last : kept keep last_change = true;
  li_sub : sub_ok sub;
  li_kept i : i ∈ sub -> kept keep i = true /\ i <> last_change;
  li_back i j : kept keep i = true -> i <> last_change -> before ts es i j -> j < i /\ j <> last_change;
  li_self : ~ before ts es last_change last_change;
}.

Definition all_of (keep : list bool) (last_change : nat) sub : list nat :=
  sub ++ kept_rest keep (Some last_change) sub (length es) ++ [last_change].

Lemma all_of_elem keep last_change sub i : last_in keep last_change sub ->
  i ∈ all_of keep last_change sub <-> kept keep i = true.
Proof.
  intros H. unfold all_of. rewrite !elem_of_app, elem_of_rest, list_elem_of_singleton. split.
  - intros [Hi|[(_ & ? & _)| ->]]; [by apply (li_kept _ _ _ H)|done|apply H].
  - intros Hk. destruct (decide (i = last_change)) as [->|Hne]; [auto|].
    destruct (decide (i ∈ sub)); [auto|]. right; left. split_and!; [|done|congruence|done].
    unfold kept in Hk. destruct (keep !! i) eqn:E; [|done]. apply lookup_lt_Some in E. by rewrite (li_length _ _ _ H) in E.
Qed.

Lemma all_of_ok keep last_change sub : last_in keep last_change sub -> sub_ok (all_of keep last_change sub).
Proof.
  intros H. pose proof (li_sub _ _ _ H) as (Hnd & Hlt & Hb).
  assert (Hlen : forall i, kept keep i = true -> i < length es).
  { intros i Hk. unfold kept in Hk. destruct (keep !! i) eqn:E; [|done]. apply lookup_lt_Some in E. by rewrite (li_length _ _ _ H) in E. }
  split_and!.
  - unfold all_of. apply NoDup_app. split_and!; [done| |].
    + intros x Hx [(_ & _ & _ & ?)%elem_of_rest| ->%list_elem_of_singleton]%elem_of_app; [done|].
      by apply (li_kept _ _ _ H) in Hx as [_ ?].
    + apply NoDup_app. split_and!; [apply NoDup_filter, NoDup_seq| |apply NoDup_singleton].
      intros x (_ & _ & Hs & _)%elem_of_rest ->%list_elem_of_singleton. done.
  - intros i Hi. apply Hlen. by eapply all_of_elem.
  - intros q i j Hq Hj. unfold all_of in *. rewrite app_assoc in *. set (l1 := sub ++ _) in *.
    assert (Hl1 : forall x, x ∈ l1 <-> kept keep x = true /\ x <> last_change).
    { intros x. pose proof (all_of_elem keep last_change sub x H) as Hx. unfold all_of in Hx. rewrite app_assoc in Hx. fold l1 in Hx.
      rewrite elem_of_app, list_elem_of_singleton in Hx. split; [|tauto].
      intros Hin. split; [tauto|]. intros ->. unfold l1 in Hin. apply elem_of_app in Hin as [Hin|Hin].
      - by apply (li_kept _ _ _ H) in Hin as [_ ?].
      - by apply elem_of_rest in Hin as (_ & _ & ? & _). }
    apply lookup_app_Some in Hq as [Hq|[Hge Hq]].
    + pose proof (lookup_lt_Some _ _ _ Hq) as Hql. rewrite take_app_le by lia.
      pose proof (proj1 (Hl1 i) (list_elem_of_lookup_2 _ _ _ Hq)) as [Hki Hni].
      destruct (li_back _ _ _ H i j Hki Hni Hj) as [Hji Hnj].
      assert (Hkj : kept keep j = true) by (by eapply (li_closed _ _ _ H)).
      unfold l1 in Hq. apply lookup_app_Some in Hq as [Hq|[Hge Hq]].
      * pose proof (lookup_lt_Some _ _ _ Hq). unfold l1. rewrite take_app_le by lia. eauto.
      * destruct (decide (j ∈ sub)) as [Hjs|Hjs].
        { unfold l1. rewrite take_app_ge by done. apply elem_of_app. by left. }
        assert (Hjr : j ∈ kept_rest keep (Some last_change) sub (length es)).
        { apply elem_of_rest. split_and!; [by apply Hlen|done|congruence|done]. }
        unfold l1. rewrite take_app_ge by done. apply elem_of_app. right.
        unfold kept_rest in Hq, Hjr |- *. set (f := fun i => _) in *.
        clear -Hq Hjr Hji. revert Hq Hjr. generalize (q - length sub) as z. generalize 0 as a.
        induction (length es) as [|n IH]; intros a z Hq Hjr; [done|].
        cbn [seq] in *. rewrite filter_cons in *. destruct (decide (f a)) as [Hfa|Hfa].
        -- destruct z as [|z]; simpl in Hq.
           ++ simplify_eq. apply elem_of_cons in Hjr as [->|Hjr]; [lia|].
              apply list_elem_of_filter in Hjr as [_ Hjr]. rewrite elem_of_seq in Hjr. lia.
           ++ simpl. apply elem_of_cons in Hjr as [->|Hjr]; [by left|right]. by eapply IH.
        -- by eapply IH.
    + apply list_lookup_singleton_Some in Hq as [Hz <-]. rewrite take_app_ge by lia. apply elem_of_app. left.
      apply Hl1. split; [eapply (li_closed _ _ _ H); [apply H|done]|]. intros ->. by apply (li_self _ _ _ H).
Qed.
End graph.
