(* ===== verification/RfscSat.v ===== *)
(** * RfscSat: [try_sat] decides whether the changed trace has an execution

    The steps of [try_sat] on the graph ([find_order]): when the kept events have an
    execution under sequential consistency, it finds one, and no assertion on the
    way fails; an order it finds is an execution; and when it answers that there is
    none, there is none. The solver and the visiting order of the hash map are
    parameters. *)

From S2P Require Import Prelude.
From S2P Require Import SatGraph.
From S2P Require Import SatWf.
From S2P Require Import SatClosed.
From S2P Require Import SatSound.
From S2P Require Import SatBuild.
From S2P Require Import SatSpec.
From S2P Require Import Prefix.
From S2P Require Import PrefixPlace.
From S2P Require Import PrefixSpec.
From S2P Require Import VClock.
From S2P Require Import CPid.
From S2P Require Import SymAddr.
From S2P Require Import SymEv.
From S2P Require Import Unfold.
From S2P Require Import Decision.
From S2P Require Import Rfsc.
From S2P Require Import RfscAnalysis.
From S2P Require Import RfscExplore.
From S2P Require Import RfscPast.
From S2P Require Import RfscFormula.
From S2P Require Import RfscGraph.

Section sat.
Context (order : gmap nat nat -> list (nat * nat)) (Horder : forall m, order m ≡ₚ map_to_list m).
Context (ts : list Thread) (es : list Event).
Context (Hpast : past_ok ts es) (Hreads : reads_wf es) (Hch : chained ts es).
Context (keep : list bool) (Hlen : length keep = length es) (Hclosed : closed ts es keep).
Implicit Types (sub all o : list nat) (g : graph).

(** ** Places in an order and executions *)

Lemma index_of_at (o : list nat) q i : NoDup o -> o !! q = Some i -> index_of o i = q.
Proof.
  intros Hnd Hq. apply (NoDup_lookup o _ q i Hnd); [|done]. apply index_of_lookup. by eapply list_elem_of_lookup_2.
Qed.

Lemma before_cases i j : before ts es i j -> exists e, es !! i = Some e /\
  (po_pred ts es i = Some (Some j) \/ j ∈ happens_after e \/ rf_index e = Some j).
Proof.
  intros (l & El & Hj). unfold past_of in El. destruct (es !! i) as [e|]; simpl in El; [|done].
  destruct (po_pred ts es i) as [p|]; simpl in El; [|done]. simplify_eq. exists e. split; [done|].
  rewrite !elem_of_app in Hj. destruct Hj as [Hj|[Hj|Hj]]; [|by auto|].
  - right; right. unfold rf_index. destruct (read_from e) as [w|]; [|by apply not_elem_of_nil in Hj].
    case_decide; [|by apply not_elem_of_nil in Hj]. apply list_elem_of_singleton in Hj as ->. done.
  - left. destruct p; simpl in Hj; [|by apply not_elem_of_nil in Hj]. by apply list_elem_of_singleton in Hj as ->.
Qed.

Lemma ordered_execution P all o : order_of_kept keep o -> (forall i, i ∈ all <-> kept keep i = true) ->
  (forall q i, o !! q = Some i -> P i = Z.of_nat q) ->
  ordered ts es P all <-> sc_execution ts es keep o.
Proof.
  intros Hko Hall HP. destruct (order_model es keep Hlen o Hko) as (m & _ & Hm).
  rewrite <-(constraints_execution ts es keep Hlen Hpast Hreads Hclosed m o Hm Hko).
  assert (HPm : forall i, kept keep i = true -> P i = Z.of_nat (value m (RfscFormula.var keep i))).
  { intros i Hk. destruct Hm as [_ Hat]. destruct (Hat i Hk) as (q & Hq & Ho). rewrite (HP q i Ho).
    unfold value. by rewrite Hq. }
  assert (Hlt : forall i, kept keep i = true -> i < length es).
  { intros i Hk. by apply (kept_lt es keep Hlen). }
  split.
  - intros [Hb Hr] i Hi. split_and!.
    + intros Hk p Hp. pose proof (po_pred_before ts es i p Hp) as Hbp.
      specialize (Hb i p (proj2 (Hall i) Hk) Hbp). rewrite !HPm in Hb by (done || by eapply Hclosed). lia.
    + intros Hk e w a He Hw Ha. split.
      * intros -> j Hj Hkj Hji. destruct (Hr i e (-1)%Z a j) as [H _]; try done; [by apply Hall..|].
        specialize (H eq_refl). rewrite !HPm in H by done. lia.
      * intros n ->. split.
        -- pose proof (read_before ts es Hpast i e n Hi He Hw) as Hbn.
           specialize (Hb i n (proj2 (Hall i) Hk) Hbn). rewrite !HPm in Hb by (done || by eapply Hclosed). lia.
        -- intros j Hj Hkj Hjn Hji. assert (Hkn : kept keep n = true) by (eapply Hclosed; [exact Hk|by eapply read_before]).
           destruct (Hr i e (Z.of_nat n) a j) as [_ H]; try done; [by apply Hall..|].
           specialize (H n eq_refl Hjn). rewrite !HPm in H by done. lia.
    + intros Hk e j He Hj. pose proof (after_before ts es Hpast i e j Hi He Hj) as Hbj.
      specialize (Hb i j (proj2 (Hall i) Hk) Hbj). rewrite !HPm in Hb by (done || by eapply Hclosed). lia.
  - intros H. split.
    + intros i j Hi Hb. apply Hall in Hi. assert (Hkj : kept keep j = true) by (by eapply Hclosed).
      destruct (H i (Hlt i Hi)) as (Hpo & Hrf & Hha). rewrite !HPm by done. apply Nat2Z.inj_lt.
      destruct (before_cases i j Hb) as (e & He & [Hp|[Hj|Hj]]); [by apply Hpo|by eapply Hha|].
      destruct (rf_target ts es Hreads Hch i e j He Hj) as (_ & Hw & a & Ha & _).
      destruct (Hrf Hi e (Z.of_nat j) a He Hw) as [_ H']; [unfold get_addr; by rewrite He|]. by apply H'.
    + intros r e w a s Hr He Hw Ha Hs Hst Hne. apply Hall in Hr. apply Hall in Hs.
      destruct (H r (Hlt r Hr)) as (_ & Hrf & _). destruct (Hrf Hr e w a He Hw Ha) as [Hi Hn]. split.
      * intros ->. specialize (Hi eq_refl s Hst Hs Hne). rewrite !HPm by done. lia.
      * intros n -> Hsn. destruct (Hn n eq_refl) as [_ Hx]. specialize (Hx s Hst Hs Hsn Hne).
        assert (Hkn : kept keep n = true) by (eapply Hclosed; [exact Hr|eapply read_before; eauto]).
        rewrite !HPm by done. lia.
Qed.

(** ** Executions of a graph *)

(** An order of the graph's identifiers as an order of trace positions. *)
Lemma ids_order all g p : sub_ok ts es all -> shows ts es all g -> p ≡ₚ event_ids g ->
  exists o, mapM (fun x => process_event ts es (iid_pid x) (iid_index x)) p = Some o /\ o ≡ₚ all /\
    forall q i e, o !! q = Some i -> es !! i = Some e -> p !! q = Some (iid e).
Proof.
  intros Hok Hs Hp. pose proof Hok as (Hnd & Hlt & _).
  assert (Hin : forall x, x ∈ p -> exists i e, i ∈ all /\ es !! i = Some e /\ x = iid e /\
    process_event ts es (iid_pid x) (iid_index x) = Some i).
  { intros x Hx. rewrite Hp, (sh_ids ts es all g Hs), list_elem_of_omap in Hx. destruct Hx as (i & Hi & Ei).
    destruct (lookup_lt_exists es i (Hlt i Hi)) as [e He]. rewrite He in Ei. simplify_eq/=.
    exists i, e. split_and!; [done..|]. by apply (ch_self ts es Hch). }
  assert (H : exists o, mapM (fun x => process_event ts es (iid_pid x) (iid_index x)) p = Some o /\
    Forall2 (fun x i => exists e, i ∈ all /\ es !! i = Some e /\ x = iid e) p o).
  { clear Hp. induction p as [|x p IH]; [by exists []|].
    destruct (Hin x) as (i & e & Hi & He & Hx & Hpe); [by left|].
    destruct IH as (o & Eo & Ho); [intros y Hy; apply Hin; by right|].
    exists (i :: o). split; [cbn; rewrite Hpe; cbn; by rewrite Eo|]. constructor; [by exists e|done]. }
  destruct H as (o & Eo & Ho). exists o. split; [done|].
  assert (Hiids : forall q i e, o !! q = Some i -> es !! i = Some e -> p !! q = Some (iid e)).
  { intros q i e Hq He. destruct (Forall2_lookup_r _ _ _ _ _ Ho Hq) as (x & Hx & e' & _ & He' & ->). by simplify_eq. }
  split; [|done].
  assert (Hndp : NoDup p) by (rewrite Hp; apply named_nodup, Hs).
  assert (Hndo : NoDup o).
  { apply NoDup_alt. intros q q' i Hq Hq'. destruct (Forall2_lookup_r _ _ _ _ _ Ho Hq) as (x & Hx & e & _ & He & ->).
    pose proof (Hiids q' i e Hq' He). by eapply NoDup_lookup. }
  apply submseteq_length_Permutation; [apply NoDup_submseteq; [done|]|].
  - intros i (q & Hq)%list_elem_of_lookup_1. by destruct (Forall2_lookup_r _ _ _ _ _ Ho Hq) as (x & _ & e & ? & _).
  - rewrite <-(Forall2_length _ _ _ Ho), Hp. unfold event_ids. rewrite length_fmap, (shows_length ts es all g) by done. done.
Qed.

(** A topological order of the graph with right reads is an execution. *)
Lemma graph_execution all g p o : sub_ok ts es all -> shows ts es all g ->
  (forall i, i ∈ all <-> kept keep i = true) -> p ≡ₚ event_ids g ->
  respects (place g p) g -> reads_ok (place g p) (events g) ->
  o ≡ₚ all -> (forall q i e, o !! q = Some i -> es !! i = Some e -> p !! q = Some (iid e)) ->
  sc_execution ts es keep o.
Proof.
  intros Hok Hs Hall Hp Hres Hrok Hoall Ho. pose proof Hok as (Hnd & Hlt & _).
  assert (Hndo : NoDup o) by (by rewrite Hoall).
  assert (Hndp : NoDup p) by (rewrite Hp; apply named_nodup, Hs).
  assert (Hko : order_of_kept keep o) by (split; [done|]; intros i; by rewrite Hoall).
  set (P := fun i => Z.of_nat (index_of o i)).
  assert (HP : forall q i, o !! q = Some i -> P i = Z.of_nat q).
  { intros q i Hq. unfold P. f_equal. by apply index_of_at. }
  assert (Hplace : forall id i, all !! id = Some i -> place g p id = P i).
  { intros id i Hid. assert (Hio : i ∈ o) by (rewrite Hoall; by eapply list_elem_of_lookup_2).
    apply list_elem_of_lookup_1 in Hio as [q Hq]. rewrite (HP q i Hq).
    destruct (lookup_lt_exists es i) as [e He]; [apply Hlt; by eapply list_elem_of_lookup_2|].
    apply (place_lookup g p id (iid e)); [done| |apply Hs|by eapply Ho].
    by apply (shows_known ts es Hch all g i e id). }
  apply (ordered_execution P all o Hko Hall HP). split.
  - intros i j Hi Hb. apply list_elem_of_lookup_1 in Hi as [id Hid]. rewrite <-(Hplace id i Hid).
    destruct (before_cases i j Hb) as (e & He & [Hpo|[Hj|Hj]]).
    + destruct (sh_po ts es all g Hs id i j Hid Hpo) as (k & Hk & Hedge). rewrite <-(Hplace k j Hk). by apply Hres.
    + destruct (sh_ha ts es all g Hs id i e j Hid He Hj) as (k & Hk & Hedge). rewrite <-(Hplace k j Hk). by apply Hres.
    + destruct (sh_event ts es all g Hs id i e Hid He) as (ge & Hge & _ & _ & _ & Hrf & _). rewrite Hj in Hrf.
      destruct (SatGraph.read_from ge) as [k|] eqn:Ek; simpl in Hrf; [|done]. rewrite <-(Hplace k j Hrf).
      apply Hres. destruct (go_wf g (sh_good ts es all g Hs)) as [_ Heo _ _ _].
      destruct (lookup_lt_exists (ins g) id) as [l Hl]; [rewrite (eo_ins g Heo); by eapply lookup_lt_Some|].
      exists ge, l. split_and!; [done..|]. unfold preds. rewrite Ek. rewrite !elem_of_app. right; left. by left.
  - intros r e w a s Hr He Hw Ha Hsin Hst Hne.
    apply list_elem_of_lookup_1 in Hr as [rid Hr]. apply list_elem_of_lookup_1 in Hsin as [sid Hsid].
    rewrite <-(Hplace rid r Hr), <-(Hplace sid s Hsid).
    assert (Hl : sym_is_load (sym e) = true) by (by eapply ch_read).
    destruct (sh_event ts es all g Hs rid r e Hr He) as (ge & Hge & Hgl & _ & Haddr & Hrf & Hno).
    destruct (stores_graph ts es all g sid s (sas_addr a) Hok Hs Hsid Hst) as (gs & Hgs & Hgst & Hga).
    specialize (Haddr (or_introl Hl)). unfold get_addr in Ha. rewrite He in Ha. simpl in Ha. rewrite Ha in Haddr.
    injection Haddr as Haddr. rewrite Hl in Hgl.
    assert (Hids : sid <> rid) by (intros ->; by simplify_eq).
    pose proof (Hrok rid ge sid gs Hge Hgl Hgs Hgst ltac:(congruence) Hids) as H.
    unfold rf_index in Hrf, Hno. rewrite Hw in Hrf, Hno. destruct (SatGraph.read_from ge) as [k|] eqn:Ek.
    + simpl in Hrf. split.
      * intros ->. rewrite decide_False in Hno by lia. naive_solver.
      * intros n -> Hsn. rewrite decide_True, Nat2Z.id in Hrf by lia. rewrite <-(Hplace k n Hrf). apply H.
        intros ->. by simplify_eq.
    + split; [done|]. intros n ->. destruct Hno as [Hno _]. specialize (Hno eq_refl). rewrite decide_True in Hno by lia. done.
Qed.

(** ** [find_order] *)

Context (no_heuristic : bool) (solver : formula -> option (list nat)) (Hsolver : solver_ok solver).
Context (wba : gmap SymAddr (list Z)) (Hwrites : writes_wf es wba).

(** A cached graph: it shows the events of [sub] and is saturated. *)
Definition cached sub g : Prop := faithful ts es sub g /\ is_saturated g = true.

(** The graph [try_sat] builds from a cached one. *)
Definition whole_graph (last_change : nat) (g0 g : graph) : Prop :=
  exists g1, add_kept order es keep (Some last_change) g0 = Some g1 /\
    add_event_to_graph order es g1 last_change = Some g.

Lemma whole_graph_built last_change sub g0 : last_in ts es keep last_change sub -> cached sub g0 ->
  exists g, whole_graph last_change g0 g /\ faithful ts es (all_of es keep last_change sub) g.
Proof.
  intros Hin [Hf _]. pose proof (all_of_ok ts es keep last_change sub Hin) as Hok. unfold all_of in *.
  rewrite app_assoc in Hok.
  destruct (add_kept_spec order Horder ts es Hpast Hreads Hch keep (Some last_change) sub g0) as (g1 & E1 & Hf1);
    [done|done|by eapply sub_ok_prefix|].
  destruct (add_one order Horder ts es Hpast Hreads Hch _ g1 last_change Hf1 Hok) as (g & E & Hf2).
  exists g. split; [by exists g1|]. by rewrite app_assoc.
Qed.

Lemma current_ids : NoDup (iid <$> es) /\ forall x g all, shows ts es all g -> x ∈ event_ids g -> x ∈ iid <$> es.
Proof.
  split.
  - apply NoDup_alt. intros i j x Hi Hj. apply list_lookup_fmap_Some in Hi as (ei & -> & Hi).
    apply list_lookup_fmap_Some in Hj as (ej & E & Hj). by apply (ch_inj ts es Hch i j ei ej).
  - intros x g all Hs Hx. rewrite (sh_ids ts es all g Hs), list_elem_of_omap in Hx. destruct Hx as (i & _ & Ei).
    destruct (es !! i) as [e|] eqn:He; simplify_eq/=. apply list_elem_of_fmap. exists e. split; [done|].
    by eapply list_elem_of_lookup_2.
Qed.

(** After saturation: the heuristic or the solver. *)
Definition finish g : option (option (list nat)) :=
  res ← try_generate_prefix no_heuristic g (iid <$> es);
  match res with
  | Some ids => o ← mapM (fun x => process_event ts es (iid_pid x) (iid_index x)) ids; Some (Some o)
  | None =>
    f ← output_formula ts es wba keep;
    match solver f with
    | None => Some None
    | Some model => o ← model_order keep 0 model (replicate (variables f) 0); Some (Some o)
    end
  end.

Lemma finish_spec all g : sub_ok ts es all -> shows ts es all g ->
  (forall i, i ∈ all <-> kept keep i = true) -> saturated g -> is_saturated g = true ->
  exists r, finish g = Some r /\
    match r with
    | Some o => sc_execution ts es keep o
    | None => forall o, ~ sc_execution ts es keep o
    end.
Proof.
  intros Hok Hs Hall Hsat Hq. unfold finish.
  assert (Hgen : exists r, try_generate_prefix no_heuristic g (iid <$> es) = Some r /\
    forall p, r = Some p -> p ≡ₚ event_ids g /\ respects (place g p) g /\ reads_ok (place g p) (events g)).
  { destruct no_heuristic; [by exists None|]. destruct current_ids as [Hnd Hids].
    apply generated; [apply Hs|done|done|apply Hs|done|]. intros x Hx. by eapply Hids. }
  destruct Hgen as (r & -> & Hr). cbn [mbind option_bind]. destruct r as [p|].
  - destruct (Hr p eq_refl) as (Hp & Hres & Hrok).
    destruct (ids_order all g p Hok Hs Hp) as (o & -> & Hoall & Ho). cbn [mbind option_bind].
    exists (Some o). split; [done|]. by eapply graph_execution.
  - destruct (solver_answer ts es wba keep Hlen Hpast Hreads Hwrites Hclosed solver Hsolver) as (f & -> & _ & Hf).
    cbn [mbind option_bind]. destruct (solver f) as [m|]; [|by exists None].
    destruct Hf as (o & -> & Ho). by exists (Some o).
Qed.

Lemma shows_subgraph all g g' : subgraph g g' -> good g' -> shows ts es all g -> shows ts es all g'.
Proof.
  intros Hsub Hg' Hs. pose proof Hsub as [(Ex & Ee & Ep & _) Hedges]. split.
  - done.
  - apply (named_same g); [done|unfold event_ids; by rewrite Ee|apply Hs].
  - unfold event_ids. rewrite Ee. apply Hs.
  - intros id i e Hid He. rewrite Ee. by eapply sh_event.
  - intros q id. unfold process. rewrite Ep. apply Hs.
  - intros id i p Hid Hp. destruct (sh_po ts es all g Hs id i p Hid Hp) as (k & ? & ?). exists k. auto.
  - intros id i e j Hid He Hj. destruct (sh_ha ts es all g Hs id i e j Hid He Hj) as (k & ? & ?). exists k. auto.
Qed.

Lemma find_order_eq last_change g0 g : is_saturated g0 = true -> whole_graph last_change g0 g ->
  find_order order no_heuristic solver ts es keep last_change wba g0 =
  (r ← saturate g; if (r.1 : bool) then finish r.2 else Some None).
Proof.
  intros Hq (g1 & E1 & E). unfold find_order, clone. unfold is_saturated in Hq. rewrite Hq. cbn [cassert mbind option_bind].
  rewrite E1. cbn [mbind option_bind]. rewrite E. cbn [mbind option_bind].
  destruct (saturate g) as [[[] g']|]; done.
Qed.

(** [construct_graph] makes a cached graph with the events decided below the depth,
    when those events, run in the order [P], read what they read. *)
Lemma construct_cached depth keep0 sub g0 P : let all := sub ++ kept_rest keep0 None sub (length es) in
  causal_past ts es (depth - 1) = Some keep0 -> length keep0 = length es -> cached sub g0 -> sub_ok ts es all ->
  ordered ts es P all ->
  exists g, construct_graph order ts es depth g0 = Some g /\ cached all g.
Proof.
  intros all Ek Hl0 [Hf _] Hok HP. unfold construct_graph. rewrite Ek. cbn [mbind option_bind].
  destruct (add_kept_spec order Horder ts es Hpast Hreads Hch keep0 None sub g0 Hl0 Hf Hok) as (g & -> & Hs & Hresp).
  fold all in Hs, Hresp. cbn [mbind option_bind].
  assert (Hacc : forall Q, ordered ts es Q all -> exists g', saturate g = Some (true, g') /\ good g' /\ subgraph g g' /\
    respects (gpos Q all) g').
  { intros Q HQ. destruct (accepts_sc (gpos Q all) g) as (g' & ? & ? & _ & ? & ?); [apply Hs|by apply Hresp|by apply (shown_reads ts es Hreads Hch)|].
    by exists g'. }
  destruct (Hacc P HP) as (g' & E & Hgood & Hsub & Hr). rewrite E. cbn [mbind option_bind cassert fst snd].
  exists g'. split; [done|]. destruct (ends g) as (b & g2 & E2 & H2); [apply Hs|by eapply respects_acyclic, Hresp|].
  rewrite E in E2. injection E2 as <- <-. destruct (H2 eq_refl) as (_ & _ & _ & Hq). split; [|done]. split.
  - by eapply shows_subgraph.
  - intros Q HQ. destruct (Hacc Q HQ) as (g3 & E3 & _ & _ & Hr3). rewrite E in E3. by injection E3 as <-.
Qed.

Section found.
Context (last_change : nat) (sub : list nat) (g0 : graph).
Context (Hin : last_in ts es keep last_change sub) (Hcached : cached sub g0).
Abbreviation find := (find_order order no_heuristic solver ts es keep last_change wba g0).

Lemma find_order_complete : (exists o, sc_execution ts es keep o) ->
  exists o, find = Some (Some o) /\ sc_execution ts es keep o.
Proof.
  intros [o Ho]. destruct (whole_graph_built last_change sub g0 Hin Hcached) as (g & Hw & Hs & Hresp).
  rewrite (find_order_eq last_change g0 g) by (done || apply Hcached).
  set (all := all_of es keep last_change sub) in *.
  pose proof (all_of_ok ts es keep last_change sub Hin) as Hok. fold all in Hok.
  assert (Hall : forall i, i ∈ all <-> kept keep i = true) by (intros i; by apply (all_of_elem ts)).
  assert (Hord : ordered ts es (fun i => Z.of_nat (index_of o i)) all).
  { apply (ordered_execution _ all o); [split; apply Ho|done| |done].
    intros q i Hq. f_equal. apply index_of_at; [apply Ho|done]. }
  destruct (ends g) as (b & g' & E2 & H2); [apply Hs|by eapply respects_acyclic, Hresp|].
  destruct (accepts_sc (gpos (fun i => Z.of_nat (index_of o i)) all) g) as (g3 & E3 & _);
    [apply Hs|by apply Hresp|by apply (shown_reads ts es Hreads Hch)|].
  rewrite E2 in E3 |- *. injection E3 as -> <-. cbn [mbind option_bind fst snd].
  destruct (H2 eq_refl) as (Hgood' & Hsat & Hsub & Hq).
  destruct (finish_spec all g') as (r & -> & Hr); [done|by eapply shows_subgraph|done..|].
  destruct r as [o'|]; [by exists o'|]. by destruct (Hr o).
Qed.

(** Without a cycle in the graph, the answer is right in both cases. *)
Lemma find_order_correct g : whole_graph last_change g0 g -> acyclic g -> exists r, find = Some r /\
  match r with Some o => sc_execution ts es keep o | None => forall o, ~ sc_execution ts es keep o end.
Proof.
  intros Hw Hac. destruct (whole_graph_built last_change sub g0 Hin Hcached) as (g1 & Hw1 & Hs & Hresp).
  assert (g1 = g) as ->.
  { destruct Hw as (x & E1 & E2), Hw1 as (y & E3 & E4). rewrite E1 in E3. injection E3 as <-. congruence. }
  rewrite (find_order_eq last_change g0 g) by (done || apply Hcached).
  destruct (ends g) as (b & g' & E & H); [apply Hs|done|]. rewrite E. cbn [mbind option_bind fst snd]. destruct b.
  - destruct (H eq_refl) as (Hgood & Hsat & Hsub & Hq).
    eapply finish_spec; [by eapply all_of_ok|by eapply shows_subgraph|intros i; by apply (all_of_elem ts)|done|done].
  - exists None. split; [done|]. intros o Ho. destruct find_order_complete as (o' & E' & _); [by exists o|].
    rewrite (find_order_eq last_change g0 g), E in E' by (done || apply Hcached). done.
Qed.
End found.
End sat.
