(* ===== verification/RfscTrace.v ===== *)
(** * RfscTrace: how a trace and its threads are linked; a trace recorded in order
      is well formed and an execution

    Every step of a thread is a slot of its [event_indices], with the position in
    [prefix] of the event the step is part of; the identifier of an event is its
    first step. Here: what the process order of such a trace is.

    What running a program must establish for the analyses: the links of a trace,
    and that every read reads from the last write before it. Such a trace meets
    the hypotheses of [causal_past_spec], of the formula and of the graph. *)

From S2P Require Import Prelude.
From S2P Require Import SatGraph.
From S2P Require Import VClock.
From S2P Require Import CPid.
From S2P Require Import SymAddr.
From S2P Require Import SymEv.
From S2P Require Import SatWf.
From S2P Require Import Unfold.
From S2P Require Import Decision.
From S2P Require Import Rfsc.
From S2P Require Import RfscAnalysis.
From S2P Require Import RfscExplore.
From S2P Require Import RfscPast.
From S2P Require Import RfscFormula.
From S2P Require Import RfscGraph.

Implicit Types (es : list Event) (p : Z) (i k x : nat).

Abbreviation pid e := (iid_pid (iid e)).
Abbreviation index e := (iid_index (iid e)).

(** ** Slots *)

(** The slots of process [p] for the events of [es], which start at position [k]. *)
Fixpoint slots_from k es p : list nat :=
  match es with
  | [] => []
  | e :: es => (if decide (pid e = p) then replicate (Z.to_nat (size e)) k else []) ++ slots_from (S k) es p
  end.
Definition slots es p : list nat := slots_from 0 es p.

(** Identifiers count the steps of the process. *)
Record numbered es : Prop := {
  nb_pid i e : es !! i = Some e -> (0 <= pid e)%Z;
  nb_size i e : es !! i = Some e -> (0 < size e)%Z;
  nb_index i e : es !! i = Some e -> index e = Z.of_nat (S (length (slots (take i es) (pid e))));
}.

(** The threads have the slots of the events. *)
Record linked (ts : list Thread) es : Prop := {
  lk_slots n t : ts !! n = Some t -> event_indices t = slots es (Z.of_nat n);
  lk_pid i e : es !! i = Some e -> (pid e < Z.of_nat (length ts))%Z;
}.

Lemma slots_from_app k es1 es2 p : slots_from k (es1 ++ es2) p = slots_from k es1 p ++ slots_from (k + length es1) es2 p.
Proof.
  revert k. induction es1 as [|e es1 IH]; intros k; simpl; [f_equal; lia|].
  rewrite IH, <-app_assoc. do 2 f_equal. f_equal. lia.
Qed.

Lemma slots_snoc es e p : slots (es ++ [e]) p =
  slots es p ++ (if decide (pid e = p) then replicate (Z.to_nat (size e)) (length es) else []).
Proof. unfold slots. rewrite slots_from_app. simpl. by rewrite app_nil_r. Qed.

Lemma slots_take es i e : es !! i = Some e -> slots (take (S i) es) (pid e) =
  slots (take i es) (pid e) ++ replicate (Z.to_nat (size e)) i.
Proof.
  intros He. rewrite (take_S_r _ _ _ He), slots_snoc, decide_True by done.
  rewrite length_take_le; [done|]. apply lookup_lt_Some in He. lia.
Qed.

Lemma slots_prefix es i p : exists l, slots es p = slots (take i es) p ++ l.
Proof.
  exists (slots_from (length (take i es)) (drop i es) p). unfold slots.
  rewrite <-(take_drop i es) at 1. by rewrite slots_from_app.
Qed.

(** The step at a slot is a step of the event there. *)
Lemma slots_lookup es p x i : slots es p !! x = Some i <->
  exists e, es !! i = Some e /\ pid e = p /\ length (slots (take i es) p) <= x /\
    x < length (slots (take i es) p) + Z.to_nat (size e).
Proof.
  induction es as [|e es IH] using rev_ind; [naive_solver|].
  rewrite slots_snoc, lookup_app. destruct (decide (i = length es)) as [->|Hne].
  - rewrite (lookup_app_r es) by done. rewrite Nat.sub_diag, take_app_length. simpl.
    destruct (slots es p !! x) as [j|] eqn:Ex.
    + pose proof (lookup_lt_Some _ _ _ Ex). split; [|naive_solver lia]. intros ?. simplify_eq.
      destruct (proj1 IH eq_refl) as (e' & He' & _). apply lookup_lt_Some in He'. lia.
    + apply lookup_ge_None in Ex. case_decide as Hp.
      * rewrite lookup_replicate. split; [intros [_ ?]; exists e; split_and!; [done..|lia|lia]|].
        intros (e' & ? & _ & ? & ?). simplify_eq/=. split; [done|lia].
      * split; [done|]. intros (e' & ? & ? & _). by simplify_eq/=.
  - destruct (decide (i < length es)) as [Hlt|Hge].
    + rewrite lookup_app_l by done. rewrite take_app_le by lia. destruct (slots es p !! x) as [j|] eqn:Ex; [done|].
      split; [|intros H; by apply IH in H].
      intros H. case_decide; [|done]. apply lookup_replicate in H. naive_solver.
    + rewrite (lookup_ge_None_2 (es ++ [e])) by (rewrite length_app; simpl; lia). split; [|naive_solver].
      destruct (slots es p !! x) as [j|] eqn:Ex.
      * intros ?. simplify_eq. destruct (proj1 IH eq_refl) as (e' & He' & _). apply lookup_lt_Some in He'. lia.
      * intros H. case_decide; [|done]. apply lookup_replicate in H. naive_solver.
Qed.

(** ** Process order *)

Section order.
Context (es : list Event) (Hnum : numbered es).

Lemma index_mono k i ek e : es !! k = Some ek -> es !! i = Some e -> pid ek = pid e -> k < i ->
  (index ek + size ek <= index e)%Z.
Proof.
  intros Hk Hi Hp Hlt. rewrite (nb_index es Hnum _ _ Hk), (nb_index es Hnum _ _ Hi), <-Hp.
  pose proof (nb_size es Hnum _ _ Hk). pose proof (slots_take es k ek Hk) as E.
  destruct (slots_prefix (take i es) (S k) (pid ek)) as [l Hl]. rewrite take_take, Nat.min_l in Hl by lia.
  rewrite Hl, E, !length_app, length_replicate. lia.
Qed.

Lemma index_inj i j ei ej : es !! i = Some ei -> es !! j = Some ej -> iid ei = iid ej -> i = j.
Proof.
  intros Hi Hj E. pose proof (nb_size es Hnum _ _ Hi). pose proof (nb_size es Hnum _ _ Hj).
  destruct (Nat.lt_trichotomy i j) as [Hlt|[->|Hlt]]; [|done|].
  - pose proof (index_mono i j ei ej Hi Hj ltac:(congruence) Hlt) as H1. rewrite E in H1. lia.
  - pose proof (index_mono j i ej ei Hj Hi ltac:(congruence) Hlt) as H1. rewrite E in H1. lia.
Qed.

Lemma index_pos i e : es !! i = Some e -> (1 <= index e)%Z.
Proof. intros Hi. rewrite (nb_index es Hnum _ _ Hi). lia. Qed.

(** The event of the step before. *)
Lemma step_before i e : es !! i = Some e -> index e <> 1%Z ->
  exists k ek, es !! k = Some ek /\ pid ek = pid e /\ k < i /\ (index ek + size ek = index e)%Z.
Proof.
  intros He H1. pose proof (index_pos i e He) as Hpos. pose proof (nb_index es Hnum i e He) as Hidx.
  destruct (lookup_lt_exists (slots (take i es) (pid e)) (Z.to_nat (index e - 2))) as [k Hk]; [lia|].
  apply slots_lookup in Hk as (ek & Hek & Hpk & Hx1 & Hx2). apply lookup_take_Some in Hek as [Hek Hki].
  rewrite take_take, Nat.min_l, <-Hpk in Hx1, Hx2 by lia. pose proof (nb_index es Hnum k ek Hek) as Hidx'.
  pose proof (index_mono k i ek e Hek He Hpk Hki). exists k, ek. split_and!; [done..|lia].
Qed.
End order.

Section links.
Context (ts : list Thread) (es : list Event).
Context (Hnum : numbered es) (Hlink : linked ts es).

Lemma process_event_at p (x : Z) i e : es !! i = Some e -> pid e = p -> (index e <= x < index e + size e)%Z ->
  process_event ts es p x = Some i.
Proof.
  intros He <- Hx. pose proof (index_pos es Hnum i e He) as Hpos. pose proof (lk_pid ts es Hlink i e He) as Hp.
  pose proof (nb_pid es Hnum i e He) as Hp0. pose proof (nb_size es Hnum i e He) as Hsz.
  assert (Hslot : slots es (pid e) !! Z.to_nat (x - 1) = Some i).
  { apply slots_lookup. exists e. rewrite (nb_index es Hnum i e He) in Hx. split_and!; [done..|lia|lia]. }
  destruct (lookup_lt_exists ts (Z.to_nat (pid e))) as [t Ht]; [lia|].
  pose proof (lk_slots ts es Hlink _ _ Ht) as Hev. rewrite Z2Nat.id in Hev by done.
  unfold process_event, zget. rewrite bool_decide_true by lia. cbn [cassert mbind option_bind].
  rewrite decide_True, Ht by done. cbn [mbind option_bind]. rewrite Hev.
  pose proof (lookup_lt_Some _ _ _ Hslot). rewrite bool_decide_true by lia. cbn [cassert mbind option_bind].
  rewrite decide_True, Hslot by lia. cbn [mbind option_bind]. rewrite He. cbn [mbind option_bind].
  rewrite bool_decide_true by lia. cbn [cassert mbind option_bind]. by rewrite bool_decide_true by lia.
Qed.

(** The predecessor in process order ends where the event starts. *)
Lemma po_pred_first i e : es !! i = Some e -> index e = 1%Z -> po_pred ts es i = Some None.
Proof. intros He H1. unfold po_pred. rewrite He. cbn [mbind option_bind]. by rewrite decide_True. Qed.

Lemma po_pred_next i e : es !! i = Some e -> index e <> 1%Z ->
  exists k ek, po_pred ts es i = Some (Some k) /\ es !! k = Some ek /\ pid ek = pid e /\ k < i /\
    (index ek + size ek = index e)%Z.
Proof.
  intros He H1. destruct (step_before es Hnum i e He H1) as (k & ek & Hek & Hpk & Hki & Hsum).
  pose proof (nb_size es Hnum k ek Hek). exists k, ek. split_and!; [|done..].
  unfold po_pred. rewrite He. cbn [mbind option_bind]. rewrite decide_False by done.
  rewrite (process_event_at (pid e) (index e - 1) k ek) by (done || lia). done.
Qed.

Lemma po_pred_cases i e : es !! i = Some e ->
  (index e = 1%Z /\ po_pred ts es i = Some None) \/
  (exists k ek, po_pred ts es i = Some (Some k) /\ es !! k = Some ek /\ pid ek = pid e /\ k < i /\
    (index ek + size ek = index e)%Z).
Proof.
  intros He. destruct (decide (index e = 1%Z)) as [H1|H1]; [left; split; [done|by eapply po_pred_first]|].
  right. by eapply po_pred_next.
Qed.
End links.

(** * A trace recorded in order is well formed and an execution *)

Implicit Types (j : nat).

(** What the handlers record of the events before position [n]: loads have read,
    from the last write before them; what comes before by an edge is earlier. *)
Record effects n es : Prop := {
  ef_after i e j : i < n -> es !! i = Some e -> j ∈ happens_after e -> j < i;
  ef_load i e : i < n -> es !! i = Some e -> sym_is_load (sym e) = true <-> read_from e <> None;
  ef_store i e : i < n -> es !! i = Some e -> sym_is_store (sym e) = true -> is_Some (ev_addr (sym e));
  ef_read i e w : i < n -> es !! i = Some e -> read_from e = Some w ->
    exists a, ev_addr (sym e) = Some a /\ last_writer es (sas_addr a) (seq 0 i) = w;
}.

Record recorded (ts : list Thread) es : Prop := {
  rc_numbered : numbered es;
  rc_linked : linked ts es;
  rc_effects : effects (length es) es;
}.

Lemma last_writer_cases es a l : last_writer es a l = (-1)%Z \/
  exists n, n ∈ l /\ last_writer es a l = Z.of_nat n /\ stores_to es a n = true.
Proof.
  induction l as [|x l IH] using rev_ind; [by left|]. rewrite last_writer_app. simpl.
  destruct (stores_to es a x) eqn:Ex; [right; exists x; set_solver|].
  destruct IH as [?|(n & ? & ? & ?)]; [by left|]. right. exists n. set_solver.
Qed.

(** Linked threads are in process order. *)
Lemma linked_chained ts es : numbered es -> linked ts es ->
  (forall i e w, es !! i = Some e -> read_from e = Some w -> sym_is_load (sym e) = true) ->
  (forall i e, es !! i = Some e -> sym_is_load (sym e) = true -> read_from e <> None) ->
  (forall i e, es !! i = Some e -> sym_is_store (sym e) = true -> is_Some (ev_addr (sym e))) -> chained ts es.
Proof.
  intros Hnum Hlink Hread Hload Hstore. split; try done.
  - apply (nb_pid es Hnum).
  - apply (index_inj es Hnum).
  - intros i p ei ep Hp Hi Hpe. destruct (po_pred_cases ts es Hnum Hlink i ei Hi) as [[_ E]|(k & ek & E & Hk & Hpk & Hki & Hsum)];
      [congruence|]. rewrite E in Hp. simplify_eq. pose proof (nb_size es Hnum _ _ Hpe). split_and!; [done|lia|].
    intros k ek Hk Hpk' Hlt. destruct (Nat.lt_trichotomy k p) as [Hkp|[->|Hkp]]; [|by simplify_eq|].
    + pose proof (index_mono es Hnum k p ek ep Hk Hpe ltac:(congruence) Hkp). pose proof (nb_size es Hnum _ _ Hk). lia.
    + pose proof (index_mono es Hnum p k ep ek Hpe Hk ltac:(congruence) Hkp). lia.
  - intros i ei Hp Hi k ek Hk _. destruct (po_pred_cases ts es Hnum Hlink i ei Hi) as [[E _]|(k' & ek' & E & _)]; [|congruence].
    rewrite E. by eapply index_pos.
  - intros i e He. eapply (process_event_at ts es Hnum Hlink); [done..|]. pose proof (nb_size es Hnum i e He). lia.
Qed.

Section recorded.
Context (ts : list Thread) (es : list Event) (Hrec : recorded ts es).
Let Hnum := rc_numbered ts es Hrec.
Let Hlink := rc_linked ts es Hrec.
Let Heff := rc_effects ts es Hrec.

Lemma recorded_read i e w : es !! i = Some e -> read_from e = Some w ->
  exists a, ev_addr (sym e) = Some a /\ last_writer es (sas_addr a) (seq 0 i) = w /\
    (w = (-1)%Z \/ exists n, w = Z.of_nat n /\ n < i /\ stores_to es (sas_addr a) n = true).
Proof.
  intros He Hw. destruct (ef_read _ _ Heff i e w) as (a & Ha & Hl); [by eapply lookup_lt_Some|done..|].
  exists a. split_and!; [done..|]. destruct (last_writer_cases es (sas_addr a) (seq 0 i)) as [E|(n & Hn & E & Hs)].
  - left. congruence.
  - right. exists n. apply elem_of_seq in Hn. split_and!; [congruence|lia|done].
Qed.

(** All that is right before an event is earlier. *)
Lemma recorded_past i : i < length es -> exists l, past_of ts es i = Some l /\ forall j, j ∈ l -> j < i.
Proof.
  intros [e He]%lookup_lt_exists. unfold past_of. rewrite He. cbn [mbind option_bind].
  assert (Hpo : exists o, po_pred ts es i = Some o /\ forall (p : nat), o = Some p -> p < i).
  { destruct (po_pred_cases ts es Hnum Hlink i e He) as [[_ ->]|(k & ek & -> & _ & _ & Hk & _)];
      eexists; (split; [done|]); naive_solver. }
  destruct Hpo as (o & -> & Ho). cbn [mbind option_bind]. eexists. split; [done|]. intros j.
  rewrite !elem_of_app. intros [Hj|[Hj|Hj]].
  - destruct (read_from e) as [w|] eqn:Ew; [|by apply not_elem_of_nil in Hj].
    case_decide; [|by apply not_elem_of_nil in Hj]. apply list_elem_of_singleton in Hj as ->.
    destruct (recorded_read i e w He Ew) as (a & _ & _ & [?|(n & -> & ? & _)]); lia.
  - by eapply (ef_after _ _ Heff); [eapply lookup_lt_Some| |].
  - destruct o as [p|]; simpl in Hj; [|by apply not_elem_of_nil in Hj].
    apply list_elem_of_singleton in Hj as ->. by apply Ho.
Qed.

Lemma recorded_before i j : i < length es -> before ts es i j -> j < i.
Proof. intros Hi (l & El & Hj). destruct (recorded_past i Hi) as (l' & El' & H). simplify_eq. auto. Qed.

Lemma recorded_past_ok : past_ok ts es.
Proof. intros i Hi. destruct (recorded_past i Hi) as (l & El & H). exists l. split; [done|]. intros j Hj%H. lia. Qed.

Lemma recorded_reads : reads_wf es.
Proof.
  constructor. intros r e w He Hw. destruct (recorded_read r e w He Hw) as (a & Ha & _ & H).
  exists a. unfold get_addr. rewrite He. cbn [mbind option_bind]. split; [done|].
  destruct H as [->|(n & -> & ? & ?)]; split; [lia|by left|lia|right; by exists n].
Qed.

Lemma recorded_chained : chained ts es.
Proof.
  apply linked_chained; [done|done|..].
  - intros i e w He Hw. apply (ef_load _ _ Heff i e); [by eapply lookup_lt_Some|done|congruence].
  - intros i e He. apply (ef_load _ _ Heff i e); [by eapply lookup_lt_Some|done].
  - intros i e He. apply (ef_store _ _ Heff i e); [by eapply lookup_lt_Some|done].
Qed.

(** The order of the trace is an execution under sequential consistency. *)
Lemma recorded_execution : sc_execution ts es (replicate (length es) true) (seq 0 (length es)).
Proof.
  assert (Hat : forall q i, seq 0 (length es) !! q = Some i -> i = q /\ q < length es /\ take q (seq 0 (length es)) = seq 0 q).
  { intros q i [Hq ?]%lookup_seq. split_and!; [lia|done|]. rewrite take_seq. f_equal. lia. }
  assert (Hb : forall q i j, seq 0 (length es) !! q = Some i -> before ts es i j -> earlier (seq 0 (length es)) q j).
  { intros q i j (-> & Hq & E)%Hat Hj. unfold earlier. rewrite E, elem_of_seq.
    pose proof (recorded_before q j Hq Hj). lia. }
  split.
  - apply NoDup_seq.
  - intros i. rewrite elem_of_seq. unfold kept. destruct (decide (i < length es)) as [H|H].
    + rewrite lookup_replicate_2 by done. simpl. split; [done|lia].
    + rewrite lookup_ge_None_2 by (rewrite length_replicate; lia). simpl. split; [lia|done].
  - intros q i p Hq Hp. eapply Hb; [done|]. by apply po_pred_before.
  - intros q i e j Hq He Hj. eapply Hb; [done|]. eapply after_before; [exact recorded_past_ok| |done..].
    by eapply lookup_lt_Some.
  - intros q r e w a (-> & Hq & ->)%Hat He Hw Ha. destruct (recorded_read q e w He Hw) as (a' & Ha' & Hl & _).
    unfold get_addr in Ha. rewrite He in Ha. simpl in Ha. congruence.
Qed.
End recorded.
