(* ===== verification/RfscInv.v ===== *)
(** * RfscInv: what the computations of the trace builder do when they return; the
      invariant of running a program

    Inversion of the binds of the monad, and the effect of the accessors, of
    [record_symbolic] and of the accesses to memory on the state.

    The events of [prefix] that have begun, with the current one cut to the steps
    it has taken ([shape]); how the threads, the memory and the mutexes mirror
    them. *)

From S2P Require Import Prelude.
From S2P Require Import SatGraph.
From S2P Require Import VClock.
From S2P Require Import CPid.
From S2P Require Import SymAddr.
From S2P Require Import SymEv.
From S2P Require Import TSOState.
From S2P Require Import Unfold.
From S2P Require Import Decision.
From S2P Require Import Rfsc.
From S2P Require Import RfscAnalysis.
From S2P Require Import RfscExplore.
From S2P Require Import RfscPast.
From S2P Require Import RfscFormula.
From S2P Require Import RfscGraph.
From S2P Require Import RfscTrace.

Local Open Scope Z_scope.

Implicit Types (s : RFSCTraceBuilder).

(** ** Binds and primitives *)

Lemma ran_bind {A B} (m : M A) (k : A -> M B) s y s' : (m ≫= k) s = Some (y, s') ->
  exists x s1, m s = Some (x, s1) /\ k x s1 = Some (y, s').
Proof. unfold mbind, M_bind. destruct (m s) as [[x s1]|]; [by eauto|done]. Qed.

Lemma ran_ret {A} (x y : A) s s' : (mret x : M A) s = Some (y, s') -> y = x /\ s' = s.
Proof. by intros [= <- <-]. Qed.
Lemma ran_gets {A} (f : RFSCTraceBuilder -> A) x s s' : gets f s = Some (x, s') -> x = f s /\ s' = s.
Proof. by intros [= <- <-]. Qed.
Lemma ran_modify f x s s' : modify f s = Some (x, s') -> s' = f s.
Proof. by intros [= _ <-]. Qed.
Lemma ran_lift {A} (o : option A) x s s' : lift o s = Some (x, s') -> o = Some x /\ s' = s.
Proof. unfold lift. destruct o; simpl; [by intros [= <- <-]|done]. Qed.
Lemma ran_massert b x s s' : massert b s = Some (x, s') -> b = true /\ s' = s.
Proof. intros [H ->]%ran_lift. by destruct b. Qed.

Lemma ran_pfx i e s s' : pfx i s = Some (e, s') -> zget (prefix s) i = Some e /\ s' = s.
Proof. intros (es & s1 & [-> ->]%ran_gets & [H ->]%ran_lift)%ran_bind. done. Qed.
Lemma ran_thread p t s s' : thread p s = Some (t, s') -> zget (threads s) p = Some t /\ s' = s.
Proof. intros (es & s1 & [-> ->]%ran_gets & [H ->]%ran_lift)%ran_bind. done. Qed.

Lemma zget_inv {A} (l : list A) i x : zget l i = Some x -> 0 <= i /\ l !! Z.to_nat i = Some x.
Proof. unfold zget. by case_decide. Qed.
Lemma zset_inv {A} (l l' : list A) i x : zset l i x = Some l' -> 0 <= i < Z.of_nat (length l) /\ l' = <[Z.to_nat i := x]> l.
Proof.
  unfold zset, vset. destruct (decide (0 <= i)); [|done]. destruct (decide (Z.to_nat i < length l)%nat); [|done].
  intros [= <-]. split; [lia|done].
Qed.

(** ** The current event *)

Definition pos s : nat := Z.to_nat (prefix_idx s).
Definition with_cur (f : Event -> Event) s : RFSCTraceBuilder := set_prefix (alter f (pos s) (prefix s)) s.
Definition with_thread (p : Z) (f : Thread -> Thread) s : RFSCTraceBuilder :=
  set_threads (alter f (Z.to_nat p) (threads s)) s.

Lemma alter_at {A} (f : A -> A) (l : list A) i x : l !! i = Some x -> alter f i l = <[i := f x]> l.
Proof.
  revert i. induction l as [|y l IH]; intros [|i] Hi; [done..|by injection Hi as ->|]. cbn. f_equal. by apply IH.
Qed.

Lemma ran_cur_idx i s s' : cur_idx s = Some (i, s') -> i = prefix_idx s /\ 0 <= i < Z.of_nat (length (prefix s)) /\ s' = s.
Proof.
  intros (x & s1 & [-> ->]%ran_gets & H)%ran_bind. apply ran_bind in H as (? & s1 & [H1 ->]%ran_massert & H).
  apply ran_bind in H as (? & s1 & [-> ->]%ran_gets & H). apply ran_bind in H as (? & s1 & [H2 ->]%ran_massert & H).
  apply ran_ret in H as [-> ->]. apply bool_decide_eq_true in H1, H2. split_and!; [done..|lia|done].
Qed.

Lemma ran_curev e s s' : curev s = Some (e, s') -> 0 <= prefix_idx s /\ prefix s !! pos s = Some e /\ s' = s.
Proof. intros (i & s1 & (-> & Hi & ->)%ran_cur_idx & [[_ H]%zget_inv ->]%ran_pfx)%ran_bind. split_and!; [lia|done|done]. Qed.

Lemma ran_pfx_upd i f x s s' : pfx_upd i f s = Some (x, s') -> exists e, 0 <= i /\ prefix s !! Z.to_nat i = Some e /\
  s' = set_prefix (alter f (Z.to_nat i) (prefix s)) s.
Proof.
  intros (es & s1 & [-> ->]%ran_gets & H)%ran_bind. apply ran_bind in H as (e & s1 & [[Hi He]%zget_inv ->]%ran_lift & H).
  apply ran_bind in H as (es & s1 & [[_ ->]%zset_inv ->]%ran_lift & ->%ran_modify).
  exists e. by rewrite (alter_at f _ _ e).
Qed.

Lemma ran_curev_upd f x s s' : curev_upd f s = Some (x, s') -> 0 <= prefix_idx s /\ (pos s < length (prefix s))%nat /\
  s' = with_cur f s.
Proof.
  intros (i & s1 & (-> & Hi & ->)%ran_cur_idx & (e & _ & He & ->)%ran_pfx_upd)%ran_bind.
  apply lookup_lt_Some in He. split_and!; [lia|done|done].
Qed.

Lemma ran_thread_upd p f x s s' : thread_upd p f s = Some (x, s') -> exists t, 0 <= p /\
  threads s !! Z.to_nat p = Some t /\ s' = with_thread p f s.
Proof.
  intros (es & s1 & [-> ->]%ran_gets & H)%ran_bind. apply ran_bind in H as (t & s1 & [[Hp Ht]%zget_inv ->]%ran_lift & H).
  apply ran_bind in H as (ts & s1 & [[_ ->]%zset_inv ->]%ran_lift & ->%ran_modify).
  exists t. split_and!; [done..|]. unfold with_thread. by rewrite (alter_at f _ _ t).
Qed.

(** Takes a run apart, one bind at a time. *)
Ltac ran_inv H :=
  lazymatch type of H with
  | mbind _ _ _ = Some _ => let x := fresh "x" in let s1 := fresh "s" in let H1 := fresh "H" in
      apply ran_bind in H as (x & s1 & H1 & H); ran_inv H1; cbv beta zeta in H; ran_inv H
  | gets _ _ = Some _ => apply ran_gets in H as [-> ->]
  | lift _ _ = Some _ => apply ran_lift in H as [H ->]
  | massert _ _ = Some _ => apply ran_massert in H as [H ->]; try apply bool_decide_eq_true in H
  | modify _ _ = Some _ => apply ran_modify in H as ->
  | mret _ _ = Some _ => apply ran_ret in H as [-> ->]
  | pfx _ _ = Some _ => apply ran_pfx in H as [H ->]
  | pfx_len _ = Some _ => apply ran_gets in H as [-> ->]
  | thread _ _ = Some _ => apply ran_thread in H as [H ->]
  | curev _ = Some _ => apply ran_curev in H as (? & H & ->)
  | curev_upd _ _ = Some _ => apply ran_curev_upd in H as (? & ? & ->)
  | _ => idtac
  end.

(** ** Errors *)

Lemma ran_report mk x s s' : report mk s = Some (x, s') -> errors s' <> [].
Proof.
  intros H. unfold report, get_iid in H. ran_inv H. intros E. cbn in E. by destruct (errors s).
Qed.

(** [record_symbolic] succeeds or reports an error. *)
Lemma ran_record ev (b : bool) s s' : record_symbolic ev s = Some (b, s') ->
  if b then seen_effect s = false /\ 0 <= prefix_idx s /\ (pos s < length (prefix s))%nat /\
    s' = set_seen_effect true (with_cur (set_sym ev) s) /\
    (replay s = true -> exists e, prefix s !! pos s = Some e /\ is_compatible_with (sym e) ev = Some true)
  else errors s' <> [].
Proof.
  intros H. unfold record_symbolic in H. ran_inv H. rename H0 into Hseen. apply negb_true_iff in Hseen. revert H. destruct (replay s) eqn:Er; intros H.
  - ran_inv H. revert H. case_match eqn:Ex; intros H; ran_inv H.
    + split_and!; try done. intros _. eauto.
    + by match goal with H : nondeterminism_error _ _ = _ |- _ => apply ran_report in H end.
  - ran_inv H. by split_and!.
Qed.

(** ** Memory *)

Definition store_bytes (i : Z) (bs : list SymAddr) (m : gmap SymAddr Z) : gmap SymAddr Z :=
  foldl (fun m b => <[b := i]> m) m bs.

Lemma store_bytes_elem i bs m a : a ∈ bs -> store_bytes i bs m !! a = Some i.
Proof.
  unfold store_bytes. induction bs as [|b bs IH] using rev_ind; intros Ha; [by apply not_elem_of_nil in Ha|].
  rewrite foldl_app. simpl. destruct (decide (b = a)) as [->|]; [by rewrite lookup_insert_eq|].
  rewrite lookup_insert_ne by done. apply IH. set_solver.
Qed.
Lemma store_bytes_ne i bs m a : a ∉ bs -> store_bytes i bs m !! a = m !! a.
Proof.
  unfold store_bytes. induction bs as [|b bs IH] using rev_ind; intros Ha; [done|].
  rewrite foldl_app. simpl. rewrite lookup_insert_ne by set_solver. apply IH. set_solver.
Qed.

Lemma ran_store_loop bs i x s s' :
  each bs (fun b => m ← gets mem; modify (set_mem (<[b := i]> m))) s = Some (x, s') ->
  s' = set_mem (store_bytes i bs (mem s)) s.
Proof.
  revert s. unfold each. induction bs as [|b bs IH]; intros s H.
  { cbn [loop] in H. ran_inv H. by destruct s. }
  cbn [loop] in H. apply ran_bind in H as (u & s1 & H1 & H). ran_inv H1. destruct u. apply IH in H as ->. by destruct s.
Qed.

Lemma ran_do_store sd x s s' : do_atomic_store sd s = Some (x, s') -> exists bs,
  sas_bytes (sdr_ref sd) = Some bs /\ 0 <= prefix_idx s /\ (pos s < length (prefix s))%nat /\
  s' = set_mem (store_bytes (prefix_idx s) bs (mem s)) (with_cur (set_may_conflict true) s).
Proof.
  intros H. unfold do_atomic_store in H. ran_inv H. apply ran_store_loop in H as ->. eexists. by split_and!.
Qed.

Lemma ran_do_load ml x s s' : do_load ml s = Some (x, s') -> let lu := last_update (mem s) (sas_addr ml) in
  0 <= prefix_idx s /\ (pos s < length (prefix s))%nat /\
  s' = with_cur (set_read_from (Some lu)) (with_cur (set_may_conflict true) s) /\
  (lu <> -1 -> exists a, get_addr (prefix s') (Z.to_nat lu) = Some a /\ sas_eq a ml = true).
Proof.
  intros H lu. unfold do_load in H. ran_inv H. subst lu.
  match goal with H : when _ _ _ = _ |- _ => rename H into Hc end. revert Hc. cbn [with_cur mem set_prefix].
  case_bool_decide; cbn [when]; intros Hc; ran_inv Hc; split_and!; try done. eauto.
Qed.

(** * The invariant of running a program *)

Local Close Scope Z_scope.
Implicit Types (b es rest : list Event) (e : Event) (i j k n : nat).

(** ** Links *)

Lemma numbered_cut b e rest m : numbered (b ++ e :: rest) -> (1 <= m)%Z -> numbered (b ++ [set_size m e]).
Proof.
  intros [Hp Hs Hi] Hm.
  assert (Hat : forall i x, (b ++ [set_size m e]) !! i = Some x -> exists y, (b ++ e :: rest) !! i = Some y /\
    iid x = iid y /\ (0 < size x)%Z /\ take i (b ++ [set_size m e]) = take i (b ++ e :: rest)).
  { intros i x Hx. apply lookup_app_Some in Hx as [Hx|[Hge Hx]].
    - pose proof (lookup_lt_Some _ _ _ Hx). exists x. rewrite lookup_app_l, !take_app_le by lia.
      split_and!; [done..| |done]. apply (Hs i). by rewrite lookup_app_l.
    - apply list_lookup_singleton_Some in Hx as [Hx <-]. assert (i = length b) as -> by lia.
      exists e. rewrite list_lookup_middle by done. rewrite !take_app_length. split_and!; [done..|simpl; lia|done]. }
  split; intros i x Hx; destruct (Hat i x Hx) as (y & Hy & E & Hsz & Et).
  - rewrite E. by eapply Hp.
  - done.
  - rewrite E, Et. by eapply Hi.
Qed.

Lemma numbered_ext es es' : (forall i, (fun e => (iid e, size e)) <$> es' !! i = (fun e => (iid e, size e)) <$> es !! i) ->
  (forall p, slots es' p = slots es p) /\ (numbered es -> numbered es').
Proof.
  intros H.
  assert (Hsl : forall l l', (fun e => (iid e, size e)) <$> l' = (fun e => (iid e, size e)) <$> l ->
    forall k p, slots_from k l' p = slots_from k l p).
  { induction l as [|e l IH]; intros [|e' l'] E k p; try done. injection E as E1 E2 E3. cbn.
    rewrite E1, E2. f_equal. by apply IH. }
  assert (Hall : (fun e => (iid e, size e)) <$> es' = (fun e => (iid e, size e)) <$> es).
  { apply list_eq. intros i. rewrite !list_lookup_fmap. apply H. }
  split; [intros p; by apply Hsl|]. intros [Hp Hs Hi].
  assert (Hat : forall i x, es' !! i = Some x -> exists y, es !! i = Some y /\ iid x = iid y /\ size x = size y).
  { intros i x Hx. specialize (H i). rewrite Hx in H. destruct (es !! i) as [y|]; [|done]. injection H as H1 H2. eauto. }
  split; intros i x Hx; destruct (Hat i x Hx) as (y & Hy & E & Es).
  - rewrite E. by eapply Hp.
  - rewrite Es. by eapply Hs.
  - rewrite E, (Hi i y Hy). do 3 f_equal. apply Hsl. by rewrite !fmap_take, Hall.
Qed.

Lemma linked_alter ts es es' p t f : linked ts es -> ts !! p = Some t ->
  (forall n, n <> p -> slots es' (Z.of_nat n) = slots es (Z.of_nat n)) ->
  event_indices (f t) = slots es' (Z.of_nat p) ->
  (forall i e, es' !! i = Some e -> (pid e < Z.of_nat (length ts))%Z) -> linked (alter f p ts) es'.
Proof.
  intros [Hs _] Ht Hne Hp Hlt. split.
  - intros n t' Hn. destruct (decide (n = p)) as [->|Hnp].
    + rewrite list_lookup_alter_eq, Ht in Hn. injection Hn as <-. done.
    + rewrite list_lookup_alter_ne in Hn by done. rewrite Hne by done. by apply Hs.
  - intros i e He. rewrite length_alter. by eapply Hlt.
Qed.

(** A change of an event that keeps its identifier and size. *)
Lemma linked_ext ts es es' : (forall i, (fun e => (iid e, size e)) <$> es' !! i = (fun e => (iid e, size e)) <$> es !! i) ->
  linked ts es -> linked ts es'.
Proof.
  intros H [Hs Hp]. destruct (numbered_ext es es' H) as [Hsl _]. split.
  - intros n t Ht. rewrite Hsl. by apply Hs.
  - intros i x Hx. specialize (H i). rewrite Hx in H. destruct (es !! i) as [y|] eqn:Hy; [|done].
    injection H as H1 _. rewrite H1. by eapply Hp.
Qed.

(** A thread that has not run. *)
Lemma linked_thread ts es t : linked ts es -> event_indices t = [] -> linked (ts ++ [t]) es.
Proof.
  intros [Hs Hp] Ht. split.
  - intros n t' Hn. apply lookup_app_Some in Hn as [Hn|[Hge Hn]]; [by apply Hs|].
    apply list_lookup_singleton_Some in Hn as [Hn <-]. rewrite Ht. symmetry. apply length_zero_iff_nil.
    destruct (slots es (Z.of_nat n)) as [|i l] eqn:E; [done|exfalso].
    assert (slots es (Z.of_nat n) !! 0 = Some i) as (e & He & Hpe & _)%slots_lookup by (by rewrite E).
    apply Hp in He. lia.
  - intros i e He. rewrite length_app. simpl. apply Hp in He. lia.
Qed.

(** ** Effects *)

(** The fields of an event that its effect sets. *)
Definition effect e : SymEv * option Z * list nat := (sym e, read_from e, happens_after e).
Definition agree n es es' : Prop := forall i, i < n -> effect <$> es' !! i = effect <$> es !! i.

Lemma agree_at n es es' i e' : agree n es es' -> i < n -> es' !! i = Some e' ->
  exists e, es !! i = Some e /\ sym e' = sym e /\ read_from e' = read_from e /\ happens_after e' = happens_after e.
Proof.
  intros H Hi He'. specialize (H i Hi). rewrite He' in H. destruct (es !! i) as [e|]; [|done].
  injection H as H1 H2 H3. eauto.
Qed.

Lemma agree_sym n es es' : agree n es es' -> agree n es' es.
Proof. intros H i Hi. symmetry. by apply H. Qed.
Lemma agree_le n m es es' : m <= n -> agree n es es' -> agree m es es'.
Proof. intros Hm H i Hi. apply H. lia. Qed.
Lemma agree_app n es l l' : n <= length es -> agree n (es ++ l) (es ++ l').
Proof. intros Hn i Hi. by rewrite !lookup_app_l by lia. Qed.

Lemma agree_stores n es es' a i : agree n es es' -> i < n -> stores_to es' a i = stores_to es a i.
Proof.
  intros H Hi. specialize (H i Hi). unfold stores_to. destruct (es' !! i), (es !! i); try done. by injection H as -> _ _.
Qed.

Lemma agree_writer n es es' a : agree n es es' -> last_writer es' a (seq 0 n) = last_writer es a (seq 0 n).
Proof.
  intros H. unfold last_writer.
  assert (Hl : forall l w, (forall i, i ∈ l -> i < n) ->
    foldl (fun w i => if stores_to es' a i then Z.of_nat i else w) w l =
    foldl (fun w i => if stores_to es a i then Z.of_nat i else w) w l).
  { induction l as [|x l IH]; intros w Hx; [done|]. cbn. rewrite (agree_stores n es es') by (done || apply Hx; by left).
    apply IH. intros i Hi. apply Hx. by right. }
  apply Hl. intros i Hi. apply elem_of_seq in Hi. lia.
Qed.

Lemma last_writer_S es a n : last_writer es a (seq 0 (S n)) =
  if stores_to es a n then Z.of_nat n else last_writer es a (seq 0 n).
Proof. rewrite seq_S, last_writer_app. done. Qed.

Lemma effects_agree n es es' : agree n es es' -> effects n es -> effects n es'.
Proof.
  intros H [Ha Hl Hs Hr]. split.
  - intros i e j Hi He Hj. destruct (agree_at n es es' i e H Hi He) as (e0 & He0 & _ & _ & E). rewrite E in Hj. by eapply Ha.
  - intros i e Hi He. destruct (agree_at n es es' i e H Hi He) as (e0 & He0 & -> & -> & _). by eapply Hl.
  - intros i e Hi He. destruct (agree_at n es es' i e H Hi He) as (e0 & He0 & -> & _ & _). by eapply Hs.
  - intros i e w Hi He Hw. destruct (agree_at n es es' i e H Hi He) as (e0 & He0 & -> & E & _). rewrite E in Hw.
    destruct (Hr i e0 w Hi He0 Hw) as (a & Ea & El). exists a. split; [done|]. rewrite <-El. apply agree_writer.
    eapply agree_le; [|done]. lia.
Qed.

Lemma effects_S n es e : effects n es -> es !! n = Some e -> (forall j, j ∈ happens_after e -> j < n) ->
  (sym_is_load (sym e) = true <-> read_from e <> None) ->
  (sym_is_store (sym e) = true -> is_Some (ev_addr (sym e))) ->
  (forall w, read_from e = Some w -> exists a, ev_addr (sym e) = Some a /\ last_writer es (sas_addr a) (seq 0 n) = w) ->
  effects (S n) es.
Proof.
  intros [Ha Hl Hs Hr] He Ha' Hl' Hs' Hr'.
  assert (Hcase : forall i x, i < S n -> es !! i = Some x -> i < n \/ (i = n /\ x = e)).
  { intros i x Hi Hx. destruct (decide (i = n)) as [->|]; [right; by simplify_eq|left; lia]. }
  split; intros i x; intros.
  - destruct (Hcase i x) as [?|[-> ->]]; [done..|by eapply Ha|auto].
  - destruct (Hcase i x) as [?|[-> ->]]; [done..|by eapply Hl|auto].
  - destruct (Hcase i x) as [?|[-> ->]]; [done..|by eapply Hs|auto].
  - destruct (Hcase i x) as [?|[-> ->]]; [done..|by eapply Hr|auto].
Qed.

Lemma effects_le n m es : m <= n -> effects n es -> effects m es.
Proof. intros Hm [Ha Hl Hs Hr]. split; intros i e; intros; [eapply Ha|eapply Hl|eapply Hs|eapply Hr]; eauto; lia. Qed.

(** An event without effect. *)
Definition quiet e : Prop := ev_empty (sym e) = true /\ read_from e = None /\ happens_after e = [].

Lemma empty_kind x : ev_empty x = true -> sym_is_load x = false /\ sym_is_store x = false.
Proof. unfold ev_empty. rewrite bool_decide_eq_true. intros E. unfold sym_is_load, sym_is_store, symev_is_lock_type. by rewrite E. Qed.

Lemma effects_quiet n es e : effects n es -> es !! n = Some e -> quiet e -> effects (S n) es.
Proof.
  intros H He ([Hl Hs]%empty_kind & Hr & Ha). eapply effects_S; [done|done|..]; rewrite ?Hl, ?Hs, ?Hr, ?Ha; try done.
  by intros j ?%not_elem_of_nil.
Qed.

(** ** Memory and mutexes *)

Section memory.
Context (mutex_addr : SymAddr -> bool).
Implicit Types (m : gmap SymAddr Z) (mx : gmap SymAddr Mutex).

(** A byte holds the position of a write; the writes to an address of data are not
    later than the one its first byte holds, and a mutex has its last access. *)
Record memory n es m mx : Prop := {
  mm_in a z : m !! a = Some z -> exists k e, z = Z.of_nat k /\ k < n /\ es !! k = Some e /\ sym_is_store (sym e) = true;
  mm_last a k : mutex_addr a = false -> k < n -> stores_to es a k = true -> exists k', m !! a = Some (Z.of_nat k') /\ k <= k';
  mm_mutex a : mutex_addr a = true -> last_access (default Mutex_new (mx !! a)) = last_writer es a (seq 0 n);
}.

Lemma memory_agree n es es' m mx : agree n es es' -> memory n es m mx -> memory n es' m mx.
Proof.
  intros H [Hi Hl Hm]. split.
  - intros a z Hz. destruct (Hi a z Hz) as (k & e & ? & Hk & He & Hs).
    destruct (agree_at n es' es k e (agree_sym _ _ _ H) Hk He) as (e' & He' & E & _). exists k, e'. by rewrite <-E.
  - intros a k Ha Hk Hs. rewrite (agree_stores n es es' a k H Hk) in Hs. by apply Hl.
  - intros a Ha. rewrite Hm by done. symmetry. by apply agree_writer.
Qed.

Lemma stores_kind es a k e : es !! k = Some e -> sym_is_store (sym e) = false -> stores_to es a k = false.
Proof. intros He Hs. unfold stores_to. by rewrite He, Hs. Qed.

Lemma memory_quiet n es m mx e : es !! n = Some e -> sym_is_store (sym e) = false ->
  memory n es m mx <-> memory (S n) es m mx.
Proof.
  intros He Hs. pose proof (fun a => stores_kind es a n e He Hs) as Hno. split.
  - intros [Hi Hl Hm]. split.
    + intros a z Hz. destruct (Hi a z Hz) as (k & x & ? & ? & ?). exists k, x. split_and!; [done|lia|naive_solver..].
    + intros a k Ha Hk Hst. destruct (decide (k = n)) as [->|]; [by rewrite Hno in Hst|]. apply Hl; [done|lia|done].
    + intros a Ha. by rewrite last_writer_S, Hno, Hm.
  - intros [Hi Hl Hm]. split.
    + intros a z Hz. destruct (Hi a z Hz) as (k & x & ? & ? & Hx & ?). exists k, x.
      assert (k <> n) by (intros ->; simplify_eq; congruence). split_and!; [done|lia|done..].
    + intros a k Ha Hk Hst. apply Hl; [done|lia|done].
    + intros a Ha. by rewrite Hm, last_writer_S, Hno.
Qed.

(** What a load of data reads is the last write. *)
Lemma memory_load n es m mx a : memory n es m mx -> mutex_addr (sas_addr a) = false ->
  (last_update m (sas_addr a) <> (-1)%Z -> exists x, get_addr es (Z.to_nat (last_update m (sas_addr a))) = Some x /\
    sas_addr x = sas_addr a) ->
  last_writer es (sas_addr a) (seq 0 n) = last_update m (sas_addr a).
Proof.
  intros [Hi Hl _] Ha Hx. unfold last_update in *. destruct (m !! sas_addr a) as [z|] eqn:Ez; simpl in *.
  - destruct (Hi _ _ Ez) as (k & e & -> & Hk & He & Hs). destruct Hx as (x & Hx & Hxa); [lia|].
    rewrite Nat2Z.id in Hx. unfold get_addr in Hx. rewrite He in Hx. simpl in Hx.
    apply last_writer_some; [apply NoDup_seq|]. exists k. rewrite lookup_seq. split_and!; [lia|lia|..].
    + unfold stores_to. rewrite He, Hs, Hx. by apply bool_decide_true.
    + intros q j Hq Hj. apply lookup_seq in Hq as [-> Hq]. destruct (Hl (sas_addr a) (0 + q)) as (k' & E & Hle); [done|lia|done|].
      rewrite Ez in E. injection E as E%Nat2Z.inj. lia.
  - apply last_writer_none. intros j Hj. apply elem_of_seq in Hj. destruct (stores_to es (sas_addr a) j) eqn:E; [|done].
    destruct (Hl (sas_addr a) j) as (k' & E' & _); [done|lia|done|]. by rewrite Ez in E'.
Qed.

(** A write to data, whose first byte is among those it sets. *)
Lemma memory_store n es m mx e x bs : memory n es m mx -> es !! n = Some e -> sym_is_store (sym e) = true ->
  ev_addr (sym e) = Some x -> mutex_addr (sas_addr x) = false -> sas_addr x ∈ bs ->
  memory (S n) es (store_bytes (Z.of_nat n) bs m) mx.
Proof.
  intros [Hi Hl Hm] He Hs Hx Hd Hb. split.
  - intros a z Hz. destruct (decide (a ∈ bs)) as [Hin|Hni].
    + rewrite store_bytes_elem in Hz by done. injection Hz as <-. exists n, e. split_and!; [done|lia|done..].
    + rewrite store_bytes_ne in Hz by done. destruct (Hi a z Hz) as (k & y & ? & ? & ?). exists k, y.
      split_and!; [done|lia|naive_solver..].
  - intros a k Ha Hk Hst. destruct (decide (a ∈ bs)) as [Hin|Hni].
    + rewrite store_bytes_elem by done. exists n. split; [done|lia].
    + rewrite store_bytes_ne by done. apply Hl; [done| |done]. destruct (decide (k = n)) as [->|]; [|lia].
      exfalso. unfold stores_to in Hst. rewrite He, Hs, Hx in Hst. simpl in Hst. apply bool_decide_eq_true in Hst. by subst.
  - intros a Ha. rewrite last_writer_S. unfold stores_to. rewrite He, Hs, Hx. simpl.
    rewrite bool_decide_false by (intros <-; congruence). by apply Hm.
Qed.

(** An access to a mutex. *)
Lemma memory_mutex n es m mx e x y : memory n es m mx -> es !! n = Some e -> sym_is_store (sym e) = true ->
  ev_addr (sym e) = Some x -> mutex_addr (sas_addr x) = true -> last_access y = Z.of_nat n ->
  memory (S n) es m (<[sas_addr x := y]> mx).
Proof.
  intros [Hi Hl Hm] He Hs Hx Hd Hy.
  assert (Hst : forall a, stores_to es a n = bool_decide (sas_addr x = a)).
  { intros a. unfold stores_to. by rewrite He, Hs, Hx. }
  split.
  - intros a z Hz. destruct (Hi a z Hz) as (k & u & ? & ? & ?). exists k, u. split_and!; [done|lia|naive_solver..].
  - intros a k Ha Hk Hk'. apply Hl; [done| |done]. destruct (decide (k = n)) as [->|]; [|lia].
    rewrite Hst in Hk'. apply bool_decide_eq_true in Hk'. congruence.
  - intros a Ha. rewrite last_writer_S, Hst. case_bool_decide as E.
    + subst a. by rewrite lookup_insert_eq.
    + rewrite lookup_insert_ne by done. by apply Hm.
Qed.
End memory.
