(* ===== verification/RfscRun.v ===== *)
(** * RfscRun: scheduling keeps the invariant; [schedule], [refuse_schedule] and the
      marks keep the invariant

    The invariant [inv] of a run, and what [schedule] and [refuse_schedule] do to
    it: continuing or starting a replayed event, leaving the replay, merging the
    last event into its predecessor, starting a new event, taking one back. *)

From S2P Require Import Prelude.
From S2P Require Import SatGraph.
From S2P Require Import VClock.
From S2P Require Import CPid.
From S2P Require Import SymAddr.
From S2P Require Import SymEv.
From S2P Require Import TSOState.
From S2P Require Import Unfold.
From S2P Require Import Decision.
From S2P Require Import Rfsc.
From S2P Require Import RfscAnalysis.
From S2P Require Import RfscFormula.
From S2P Require Import RfscTrace.
From S2P Require Import RfscInv.

Implicit Types (s : RFSCTraceBuilder) (b es rest : list Event) (e : Event) (i j k n : nat).

(** ** The invariant *)

(** The events begun, the current one cut to the steps it has taken. *)
Inductive shape s : list Event -> list Event -> Prop :=
| shape_start : prefix_idx s = (-1)%Z -> shape s [] (prefix s)
| shape_at b e m rest : prefix s = b ++ e :: rest -> prefix_idx s = Z.of_nat (length b) ->
    (1 <= m <= size e)%Z -> shape s (b ++ [set_size m e]) rest.

(** The events whose effects have happened: in a replay the current one may still
    have the effect of the trace it comes from. *)
Definition acted s b : nat := if replay s && negb (seen_effect s) then length b - 1 else length b.

(** The last event does not merge into its predecessor. *)
Definition tight b : Prop := forall b0 e' e, b = b0 ++ [e'; e] -> pid e = pid e' -> may_conflict e = true.

Section run.
Context (mutex_addr : SymAddr -> bool).

(** [running] says that the last call was a [schedule] that returned a thread. *)
Record inv (running : bool) s b rest : Prop := {
  iv_shape : shape s b rest;
  iv_live : cancelled s = false;
  iv_done : replay s = false -> rest = [] /\ prefix s = b;
  iv_numbered : numbered (prefix s);
  iv_linked : linked (threads s) b;
  iv_effects : effects (acted s b) b;
  iv_fresh i e : prefix s !! i = Some e -> replay s = true -> acted s b <= i -> read_from e = None /\ happens_after e = [];
  iv_memory : memory mutex_addr (acted s b) b (mem s) (mutexes s);
  iv_conflict e : last b = Some e -> seen_effect s = true -> may_conflict e = true;
  iv_running : replay s = false -> running = true ->
    exists b0 e, b = b0 ++ [e] /\ size e = 1%Z /\ tight b0 /\ (seen_effect s = false -> quiet e);
  iv_tight : replay s = false -> running = false -> tight b;
  iv_last e : replay s = true -> last (prefix s) = Some e -> ev_empty (sym e) = false;
}.

(** A trace that is recorded so far, before a new event. *)
Record settled s b : Prop := {
  sd_live : cancelled s = false;
  sd_new : replay s = false;
  sd_prefix : prefix s = b;
  sd_idx : prefix_idx s = (Z.of_nat (length b) - 1)%Z;
  sd_numbered : numbered b;
  sd_linked : linked (threads s) b;
  sd_effects : effects (length b) b;
  sd_memory : memory mutex_addr (length b) b (mem s) (mutexes s);
  sd_tight : tight b;
}.

Lemma set_size_same e m : m = size e -> set_size m e = e.
Proof. intros ->. by destruct e. Qed.

Lemma shape_idx s b rest : shape s b rest -> prefix_idx s = (Z.of_nat (length b) - 1)%Z.
Proof. intros [E|b' e m rest' _ E _]; [done|]. rewrite length_app. simpl. lia. Qed.

Lemma acted_done s b : replay s = false -> acted s b = length b.
Proof. intros H. unfold acted. by rewrite H. Qed.

Lemma settled_inv s b : settled s b -> (forall e, last b = Some e -> seen_effect s = true -> may_conflict e = true) ->
  inv false s b [].
Proof.
  intros [] Hc. assert (Hsh : shape s b []).
  { destruct b as [|e b _] using rev_ind.
    - rewrite <-sd_prefix0 at 2. apply shape_start. done.
    - rewrite <-(set_size_same e (size e)) at 1 by done. apply shape_at; [done| |].
      + rewrite sd_idx0, length_app. simpl. lia.
      + pose proof (nb_size _ sd_numbered0 (length b) e) as H. rewrite list_lookup_middle in H by done.
        specialize (H eq_refl). lia. }
  split; rewrite ?acted_done by done; try done; try congruence.
Qed.

(** ** New events *)

Lemma numbered_snoc b e : numbered b -> (0 <= pid e)%Z -> (0 < size e)%Z ->
  index e = Z.of_nat (S (length (slots b (pid e)))) -> numbered (b ++ [e]).
Proof.
  intros [Hp Hs Hi] Hpe Hse Hie.
  assert (Hat : forall i x, (b ++ [e]) !! i = Some x -> b !! i = Some x /\ take i (b ++ [e]) = take i b \/
    x = e /\ take i (b ++ [e]) = b).
  { intros i x Hx. apply lookup_app_Some in Hx as [Hx|[Hge Hx]].
    - left. split; [done|]. apply lookup_lt_Some in Hx. by rewrite take_app_le by lia.
    - right. apply list_lookup_singleton_Some in Hx as [Hx <-]. replace i with (length b) by lia. by rewrite take_app_length. }
  split; intros i x Hx; destruct (Hat i x Hx) as [[Hx' E]|[-> E]]; [by eapply Hp|done|by eapply Hs|done|rewrite E; by eapply Hi|by rewrite E].
Qed.

Lemma memory_snoc n b l m mx : n <= length b -> memory mutex_addr n b m mx -> memory mutex_addr n (b ++ l) m mx.
Proof. intros Hn. apply memory_agree. intros i Hi. by rewrite lookup_app_l by lia. Qed.
Lemma effects_snoc n b l : n <= length b -> effects n b -> effects n (b ++ l).
Proof. intros Hn. apply effects_agree. intros i Hi. by rewrite lookup_app_l by lia. Qed.

Lemma linked_push ts b p t x e : linked ts b -> ts !! p = Some t -> pid e = Z.of_nat p -> size e = 1%Z -> x = length b ->
  linked (alter (fun t => set_event_indices (event_indices t ++ [x]) t) p ts) (b ++ [e]).
Proof.
  intros Hl Ht Hp Hs ->. eapply linked_alter; [done..| | |].
  - intros n Hn. rewrite slots_snoc, decide_False by lia. by rewrite app_nil_r.
  - rewrite slots_snoc, decide_True by done. rewrite Hs. simpl. by rewrite (lk_slots _ _ Hl p t Ht).
  - intros i e' He'. apply lookup_app_Some in He' as [He'|[_ He']]; [by eapply (lk_pid _ _ Hl)|].
    apply list_lookup_singleton_Some in He' as [_ <-]. rewrite Hp. apply lookup_lt_Some in Ht. lia.
Qed.

Lemma alter_ext_at {A} (f g : A -> A) (l : list A) i : (forall x, l !! i = Some x -> f x = g x) -> alter f i l = alter g i l.
Proof.
  revert i. induction l as [|y l IH]; intros [|i] H; [done..|cbn; f_equal; by apply H|]. cbn. f_equal. by apply IH.
Qed.

(** [start_event] of a thread. *)
Lemma ran_start p (i : Z) x s s' : start_event p i s = Some (x, s') -> exists t, (0 <= p)%Z /\ threads s !! Z.to_nat p = Some t /\
  s' = with_thread p (fun t => set_event_indices (event_indices t ++ [Z.to_nat i]) t) s.
Proof.
  intros H. unfold start_event in H. ran_inv H. apply ran_thread_upd in H as (t & Hp & Ht & ->).
  match goal with H : zget _ _ = Some _ |- _ => apply zget_inv in H as [_ H]; rewrite Ht in H; injection H as <- end.
  exists t. split_and!; [done..|]. unfold with_thread. f_equal.
  apply alter_ext_at. intros y Hy. by simplify_eq.
Qed.

Lemma find_available_le d ts p q : find_available d ts p = Some q -> p <= q.
Proof.
  revert p. induction ts as [|t ts IH]; intros p H; [done|]. cbn in H. destruct (_ && _); [by simplify_eq|]. apply IH in H. lia.
Qed.

Lemma new_event conf s b r s' : settled s b -> (forall e, last b = Some e -> seen_effect s = true -> may_conflict e = true) ->
  match find_available (max_search_depth conf) (threads s) 0 with
  | None => mret None
  | Some p =>
    _ ← modify (set_seen_effect false);
    i ← gets prefix_idx; let i := (i + 1)%Z in
    _ ← modify (set_prefix_idx i);
    n ← pfx_len; _ ← massert (bool_decide (i = n));
    _ ← start_event (Z.of_nat p) i;
    t ← thread (Z.of_nat p);
    es ← gets prefix;
    _ ← modify (set_prefix (es ++ [Event_new (MkIID (Z.of_nat p) (last_event_index t)) SymEv_None]));
    mret (Some (Z.of_nat p, 0%Z))
  end s = Some (r, s') ->
  errors s' = errors s /\ replay s' = false /\ exists b', inv (bool_decide (is_Some r)) s' b' [].
Proof.
  intros Hs Hc. destruct (find_available _ _ _) as [p|]; intros H.
  2: { ran_inv H. split; [done|]. split; [apply Hs|]. exists b. rewrite bool_decide_false by (by intros []). by apply settled_inv. }
  ran_inv H. match goal with H : start_event _ _ _ = _ |- _ => apply ran_start in H as (t & _ & Ht & ->) end.
  split; [done|]. split; [apply Hs|]. rewrite bool_decide_true by done.
  match goal with H : zget (threads (with_thread _ _ _)) _ = _ |- _ => rename H into Hx end.
  rewrite zget_nat in Hx. cbn in Hx. rewrite Nat2Z.id in *. rewrite list_lookup_alter_eq in Hx. cbn in Ht. rewrite Ht in Hx.
  simpl in Hx. injection Hx as <-. set (e := Event_new _ _).
  destruct Hs. assert (Hidx : Z.to_nat (prefix_idx s + 1) = length b) by lia.
  assert (Hlen : index e = Z.of_nat (S (length (slots b (pid e))))).
  { subst e. unfold last_event_index. cbn. rewrite length_app, (lk_slots _ _ sd_linked0 p t Ht). simpl. lia. }
  assert (Hnum : numbered (b ++ [e])) by (apply numbered_snoc; [done|subst e; cbn; lia..|done]).
  exists (b ++ [e]). split; cbn; rewrite ?sd_prefix0, ?sd_new0; try done.
  - rewrite <-(set_size_same e (size e)) by done. apply (shape_at _ b e); cbn; [done|lia|done].
  - rewrite Hidx, Nat2Z.id. by apply (linked_push _ _ _ t).
  - rewrite acted_done by done. rewrite length_app, Nat.add_1_r. apply (effects_quiet _ _ e); [by apply effects_snoc| |done].
    by apply list_lookup_middle.
  - rewrite acted_done by done. rewrite length_app, Nat.add_1_r. by apply (memory_quiet _ (length b) (b ++ [e]) _ _ e (lookup_mid b [] e) eq_refl), memory_snoc.
  - intros _ _. exists b, e. by split_and!.
Qed.

(** ** Merging *)

Lemma ran_vpop {A} (l l' : list A) x : last l = Some x -> vpop l = Some l' -> l = l' ++ [x].
Proof.
  intros [l0 ->]%last_Some H. unfold vpop in H. rewrite length_app in H. simpl in H.
  rewrite Nat.add_sub, take_app_length in H. destruct (l0 ++ [x]) eqn:E; [by destruct l0|]. congruence.
Qed.

Lemma slots_snoc_ne b e (n : Z) : pid e <> n -> slots (b ++ [e]) n = slots b n.
Proof. intros H. rewrite slots_snoc, decide_False by done. by rewrite app_nil_r. Qed.

Lemma snoc2 {A} (l : list A) x y : l ++ [x; y] = (l ++ [x]) ++ [y].
Proof. by rewrite <-app_assoc. Qed.

(** Taking back the one step of the last event. *)
Lemma slots_pop b e l x : slots (b ++ [e]) (pid e) = l ++ [x] -> size e = 1%Z -> l = slots b (pid e) /\ x = length b.
Proof.
  intros H Hs. rewrite slots_snoc, decide_True, Hs in H by done. by apply app_inj_tail in H as [-> <-].
Qed.

Lemma linked_pop ts b e p t l x f : linked ts (b ++ [e]) -> size e = 1%Z -> pid e = Z.of_nat p -> ts !! p = Some t ->
  event_indices t = l ++ [x] -> event_indices (f t) = l -> linked (alter f p ts) b.
Proof.
  intros Hl Hs Hp Ht El Ef. pose proof (lk_slots _ _ Hl p t Ht) as E. rewrite El, <-Hp in E.
  symmetry in E. apply slots_pop in E as [E _]; [|done]. eapply linked_alter; [exact Hl|done| | |].
  - intros n Hn. rewrite slots_snoc_ne by lia. done.
  - by rewrite Ef, E, Hp.
  - intros i e0 He. apply (lk_pid _ _ Hl i). by apply lookup_app_l_Some.
Qed.

Lemma linked_merge ts b e' e p t l x f : linked ts (b ++ [e'; e]) -> size e = 1%Z -> (0 < size e')%Z ->
  pid e' = Z.of_nat p -> pid e = Z.of_nat p -> ts !! p = Some t ->
  event_indices t = l ++ [x] -> event_indices (f t) = l ++ [length b] ->
  linked (alter f p ts) (b ++ [set_size (size e' + 1) e']).
Proof.
  intros Hl Hs Hs' Hp' Hp Ht El Ef. pose proof (lk_slots _ _ Hl p t Ht) as E. rewrite El, <-Hp in E.
  rewrite snoc2 in E, Hl. symmetry in E. apply slots_pop in E as [E _]; [|done].
  eapply linked_alter; [exact Hl|done| | |].
  - intros n Hn. rewrite !slots_snoc_ne by (simpl; lia). done.
  - rewrite Ef, E, Hp, !slots_snoc. simpl. rewrite !decide_True by (simpl; lia). rewrite Z2Nat.inj_add by lia.
    by rewrite replicate_add, app_assoc.
  - intros i e0 He. apply lookup_app_Some in He as [He|[_ He]].
    + apply (lk_pid _ _ Hl i). rewrite <-app_assoc. by apply lookup_app_l_Some.
    + apply list_lookup_singleton_Some in He as [_ <-]. apply (lk_pid _ _ Hl (length b) e'). rewrite <-app_assoc.
      simpl. by apply list_lookup_middle.
Qed.

Lemma numbered_merge b e' e : numbered (b ++ [e'; e]) -> numbered (b ++ [set_size (size e' + 1) e']).
Proof.
  intros H. apply (numbered_cut b e' [e]); [done|]. pose proof (nb_size _ H (length b) e') as Hs.
  rewrite list_lookup_middle in Hs by done. specialize (Hs eq_refl). lia.
Qed.

Lemma agree_merge b e' e m : agree (S (length b)) (b ++ [e'; e]) (b ++ [set_size m e']).
Proof.
  intros i Hi. destruct (decide (i < length b)); [by rewrite !lookup_app_l by lia|].
  replace i with (length b) by lia. by rewrite !list_lookup_middle by done.
Qed.

Lemma mergeable b m s s1 : should_merge s = Some (m, s1) -> prefix s = b ->
  s1 = s /\ if m then exists b0 e' e, b = b0 ++ [e'; e] /\ pid e = pid e' /\ may_conflict e = false else tight b.
Proof.
  intros H Hb. unfold should_merge in H. ran_inv H. rewrite Hb in H. clear Hb.
  destruct (reverse b) as [|e [|e' l]] eqn:E.
  - ran_inv H. split; [done|]. intros b0 e' e -> _. rewrite reverse_app in E. done.
  - ran_inv H. split; [done|]. intros b0 e0 e1 -> _. rewrite reverse_app in E. done.
  - ran_inv H. split; [done|]. assert (Hb : b = reverse l ++ [e'; e]).
    { rewrite <-(reverse_involutive b), E, !reverse_cons, <-app_assoc. done. }
    destruct (may_conflict e) eqn:Ec; [rewrite andb_false_r|rewrite andb_true_r].
    + intros b0 x y -> _. rewrite snoc2, reverse_snoc in E. injection E as <- _. done.
    + case_bool_decide as Hp; [by exists (reverse l), e', e|]. intros b0 x y -> Hxy. exfalso. apply Hp.
      rewrite snoc2 in E.
      rewrite !reverse_snoc in E. congruence.
Qed.

Lemma tight_snoc_same b e f : tight (b ++ [e]) -> iid (f e) = iid e -> may_conflict (f e) = may_conflict e -> tight (b ++ [f e]).
Proof.
  intros H Hi Hc b0 x y E Hp. rewrite snoc2 in E.
  apply app_inj_tail in E as [-> <-]. rewrite Hc. apply (H b0 x e); [by rewrite <-app_assoc|congruence].
Qed.

(** A trace whose last event, a step without effect, may still have to be merged. *)
Record mergeable_trace s b0 e' e : Prop := {
  mt_live : cancelled s = false;
  mt_new : replay s = false;
  mt_prefix : prefix s = b0 ++ [e'; e];
  mt_idx : prefix_idx s = Z.of_nat (S (length b0));
  mt_numbered : numbered (b0 ++ [e'; e]);
  mt_linked : linked (threads s) (b0 ++ [e'; e]);
  mt_effects : effects (S (length b0)) (b0 ++ [e'; e]);
  mt_memory : memory mutex_addr (S (length b0)) (b0 ++ [e'; e]) (mem s) (mutexes s);
  mt_size : size e = 1%Z;
  mt_pid : pid e = pid e';
  mt_tight : tight (b0 ++ [e']);
}.

Lemma alter_middle {A} (f : A -> A) (l : list A) x n : n = length l -> alter f n (l ++ [x]) = l ++ [f x].
Proof. intros ->. rewrite (alter_at f _ _ x) by (by apply list_lookup_middle). by rewrite insert_app_mid. Qed.

Lemma merge_settles s b0 e' e x s' : mergeable_trace s b0 e' e -> merge_last s = Some (x, s') ->
  errors s' = errors s /\ seen_effect s' = seen_effect s /\ settled s' (b0 ++ [set_size (size e' + 1) e']).
Proof.
  intros [] H. unfold merge_last in H. ran_inv H.
  assert (x2 = b0 ++ [e']) as ->.
  { assert (Hl : last (prefix s) = Some e) by (rewrite mt_prefix0, snoc2; by apply last_snoc).
    pose proof (ran_vpop _ _ _ Hl H3) as E. rewrite mt_prefix0, snoc2 in E. by apply app_inj_tail in E as [-> _]. }
  apply ran_thread_upd in H as (t & _ & Ht & ->). cbn in H6, H8, H10, Ht |- *.
  assert (Hpos : Z.to_nat (prefix_idx s - 1) = length b0) by lia.
  unfold with_thread, with_cur, pos in *. cbn in *. rewrite alter_middle in * by done.
  rewrite list_lookup_middle in H6 by done. injection H6 as <-. cbn in H8, Ht |- *. split_and!; [done..|].
  apply zget_inv in H8 as [Hp Ht']. rewrite Ht in Ht'. injection Ht' as <-.
  pose proof (ran_vpop _ _ _ H9 H11) as El. clear H9 H11.
  pose proof (nb_size _ mt_numbered0 (length b0) e') as Hs'. rewrite list_lookup_middle in Hs' by done.
  specialize (Hs' eq_refl). rewrite Hpos.
  assert (Hlen : length (b0 ++ [set_size (size e' + 1) e']) = S (length b0)) by (rewrite length_app; simpl; lia).
  split; cbn; rewrite ?Hlen; try done.
  - lia.
  - by eapply numbered_merge.
  - eapply linked_merge; [done..|lia|lia|done|exact El|done].
  - by eapply effects_agree; [apply agree_merge|].
  - by eapply memory_agree; [apply agree_merge|].
  - by apply (tight_snoc_same b0 e' (set_size (size e' + 1))).
Qed.

(** ** Scheduling *)

Definition conflict_seen s b : Prop := forall e, last b = Some e -> seen_effect s = true -> may_conflict e = true.

Lemma schedule_new_settled conf s r s' b : settled s b -> conflict_seen s b -> schedule_new conf s = Some (r, s') ->
  errors s' = errors s /\ replay s' = false /\ exists b', inv (bool_decide (is_Some r)) s' b' [].
Proof.
  intros Hs Hc H. unfold schedule_new in H. apply ran_bind in H as (m & s1 & Hm & H).
  destruct (mergeable b _ _ _ Hm (sd_prefix _ _ Hs)) as [-> Hmb]. destruct m.
  { destruct Hmb as (b0 & e' & e & E & Hp & Hc'). by rewrite (sd_tight _ _ Hs b0 e' e E Hp) in Hc'. }
  apply ran_bind in H as (u & s1 & [= _ <-] & H).
  apply ran_bind in H as (ts & s2 & [-> ->]%ran_gets & H). by eapply new_event.
Qed.

Lemma inv_settled running s b rest : inv running s b rest -> replay s = false -> tight b -> settled s b.
Proof.
  intros Hi Hr Ht. destruct (iv_done _ _ _ _ Hi Hr) as [-> Hp]. pose proof (acted_done s b Hr) as Ha.
  split; [apply Hi|done|done|by eapply shape_idx, Hi| |apply Hi| | |done].
  - rewrite <-Hp. apply Hi.
  - rewrite <-Ha. apply Hi.
  - rewrite <-Ha. apply Hi.
Qed.

Lemma inv_mergeable running s b rest b0 e' e : inv running s b rest -> replay s = false -> b = b0 ++ [e'; e] ->
  pid e = pid e' -> may_conflict e = false -> mergeable_trace s b0 e' e /\ seen_effect s = false.
Proof.
  intros Hi Hr E Hp Hc. destruct (iv_done _ _ _ _ Hi Hr) as [_ Hpre].
  destruct running; [|by rewrite (iv_tight _ _ _ _ Hi Hr eq_refl b0 e' e E Hp) in Hc].
  destruct (iv_running _ _ _ _ Hi Hr eq_refl) as (b1 & e1 & E1 & Hs1 & Ht1 & Hq1). rewrite E, snoc2 in E1.
  apply app_inj_tail in E1 as [<- <-].
  assert (Hseen : seen_effect s = false).
  { destruct (seen_effect s) eqn:Es; [|done]. rewrite (iv_conflict _ _ _ _ Hi e) in Hc; [done| |done].
    rewrite E, snoc2. by rewrite last_snoc. }
  pose proof (acted_done s b Hr) as Ha. assert (Hl : length b = S (S (length b0))) by (rewrite E, length_app; simpl; lia).
  assert (Hat : b !! S (length b0) = Some e).
  { rewrite E, snoc2. apply list_lookup_middle. rewrite length_app. simpl. lia. }
  specialize (Hq1 Hseen). split; [|done]. rewrite E in *. split; try done.
  - apply Hi.
  - rewrite (shape_idx _ _ _ (iv_shape _ _ _ _ Hi)). lia.
  - rewrite <-Hpre. apply Hi.
  - apply Hi.
  - eapply (effects_le (length (b0 ++ [e'; e]))); [lia|]. rewrite <-Ha. apply Hi.
  - apply (memory_quiet _ _ _ _ _ e); [done|by apply empty_kind, Hq1|]. rewrite <-Hl, <-Ha. apply Hi.
Qed.

Lemma schedule_new_inv conf running s r s' b rest : inv running s b rest -> replay s = false ->
  schedule_new conf s = Some (r, s') -> errors s' = errors s /\ replay s' = false /\ exists b', inv (bool_decide (is_Some r)) s' b' [].
Proof.
  intros Hi Hr H. pose proof (iv_done _ _ _ _ Hi Hr) as [_ Hp]. pose proof H as H'.
  unfold schedule_new in H'. apply ran_bind in H' as (m & s1 & Hm & H').
  destruct (mergeable b _ _ _ Hm Hp) as [-> Hmb]. destruct m.
  - destruct Hmb as (b0 & e' & e & E & Hpid & Hc).
    destruct (inv_mergeable _ _ _ _ _ _ _ Hi Hr E Hpid Hc) as [Hmt Hseen].
    apply ran_bind in H' as (u & s1 & Hmerge & H'). cbn [when] in Hmerge.
    destruct (merge_settles _ _ _ _ _ _ Hmt Hmerge) as (Ee & Es & Hset).
    apply ran_bind in H' as (ts & s2 & [-> ->]%ran_gets & H').
    rewrite <-Ee. eapply new_event; [done| |exact H']. intros x _ Hx. congruence.
  - eapply schedule_new_settled; [by eapply inv_settled|exact (iv_conflict _ _ _ _ Hi)|done].
Qed.

(** *** Replay *)

Lemma ran_effect_seen s x s' : errors s = [] -> assert_effect_seen s = Some (x, s') ->
  s' = s /\ ((0 <= prefix_idx s)%Z -> exists e, prefix s !! pos s = Some e /\ xorb (ev_empty (sym e)) (seen_effect s) = true).
Proof.
  intros He H. unfold assert_effect_seen in H. ran_inv H. revert H. case_bool_decide as Hb; cbn [when]; intros H.
  - ran_inv H. revert H. destruct (xorb _ _) eqn:Ex; intros H.
    + ran_inv H. split; [done|]. eauto.
    + ran_inv H. rewrite He in *. done.
  - ran_inv H. split; [done|]. lia.
Qed.

(** Before the next event starts, the current one has had its effect. *)
Lemma all_acted running s b rest : inv running s b rest -> replay s = true ->
  ((0 <= prefix_idx s)%Z -> exists e, prefix s !! pos s = Some e /\ xorb (ev_empty (sym e)) (seen_effect s) = true) ->
  effects (length b) b /\ memory mutex_addr (length b) b (mem s) (mutexes s).
Proof.
  intros Hi Hr Hx. pose proof (iv_effects _ _ _ _ Hi) as He. pose proof (iv_memory _ _ _ _ Hi) as Hm.
  destruct (iv_shape _ _ _ _ Hi) as [E|b0 e m rest0 Hp E Hm0]; [by unfold acted in *; destruct (_ && _)|].
  assert (Hpos : pos s = length b0) by (unfold pos; lia). destruct Hx as (e' & He' & Hxor); [lia|].
  rewrite Hpos, Hp, list_lookup_middle in He' by done. injection He' as <-.
  unfold acted in He, Hm. rewrite Hr in *. rewrite length_app in *. simpl in He, Hm |- *.
  destruct (seen_effect s) eqn:Es; [done|]. simpl in He, Hm. rewrite Nat.add_1_r in *. simpl in He, Hm. rewrite Nat.sub_0_r in *.
  destruct (iv_fresh _ _ _ _ Hi (length b0) e) as [Hrf Hha]; [by rewrite Hp; apply list_lookup_middle|done| |].
  { unfold acted. rewrite Hr, Es. simpl. rewrite length_app. simpl. lia. }
  assert (Hq : quiet (set_size m e)) by (split_and!; [simpl; by destruct (ev_empty (sym e))|done|done]).
  pose proof (lookup_mid b0 [] (set_size m e)) as Hat. split.
  - by eapply effects_quiet.
  - apply (proj1 (memory_quiet _ _ _ _ _ (set_size m e) Hat (proj2 (empty_kind _ (proj1 Hq))))). done.
Qed.

(** Whether the current event has steps left. *)
Lemma unfinished running s b rest more s' : inv running s b rest -> event_unfinished s = Some (more, s') -> s' = s /\
  if more then exists b0 e m, b = b0 ++ [set_size m e] /\ prefix s = b0 ++ e :: rest /\
    prefix_idx s = Z.of_nat (length b0) /\ (1 <= m < size e)%Z
  else prefix s = b ++ rest.
Proof.
  intros Hi H. unfold event_unfinished in H. ran_inv H. pose proof (iv_linked _ _ _ _ Hi) as Hl. pose proof (iv_numbered _ _ _ _ Hi) as Hn.
  destruct (iv_shape _ _ _ _ Hi) as [E|b0 e m rest0 Hp E Hm0].
  { rewrite decide_False in H by lia. ran_inv H. done. }
  rewrite decide_True in H by lia. ran_inv H. split; [done|].
  match goal with H : prefix s !! pos s = Some _ |- _ => rename H into He end.
  match goal with H : zget (threads s) _ = Some _ |- _ => apply zget_inv in H as [Hp0 Ht] end.
  assert (Hpos : pos s = length b0) by (unfold pos; lia). rewrite Hpos, Hp, list_lookup_middle in He by done. injection He as <-.
  assert (Hidx : index e = Z.of_nat (S (length (slots b0 (pid e))))).
  { rewrite Hp in Hn. rewrite (nb_index _ Hn (length b0) e) by (by apply list_lookup_middle). by rewrite take_app_length. }
  pose proof (lk_slots _ _ Hl _ _ Ht) as Hsl. rewrite Z2Nat.id, slots_snoc in Hsl by done. simpl in Hsl.
  rewrite decide_True in Hsl by done. unfold last_event_index. rewrite Hsl, length_app, length_replicate, Hidx.
  case_bool_decide as Hlt; [|].
  - exists b0, e, m. split_and!; [done..|lia|lia].
  - rewrite <-app_assoc. simpl. rewrite set_size_same by lia. done.
Qed.
End run.

(** * [schedule], [refuse_schedule] and the marks keep the invariant *)


Section steps.
Context (mutex_addr : SymAddr -> bool).
Abbreviation inv := (inv mutex_addr).

(** ** Replayed events *)

Lemma linked_more ts b e m p t f : linked ts (b ++ [set_size m e]) -> (1 <= m)%Z -> pid e = Z.of_nat p -> ts !! p = Some t ->
  event_indices (f t) = event_indices t ++ [length b] -> linked (alter f p ts) (b ++ [set_size (m + 1) e]).
Proof.
  intros Hl Hm Hp Ht Ef. eapply linked_alter; [exact Hl|done| | |].
  - intros n Hn. rewrite !slots_snoc_ne by (simpl; lia). done.
  - rewrite Ef, (lk_slots _ _ Hl p t Ht), !slots_snoc. simpl. rewrite !decide_True by done.
    rewrite Z2Nat.inj_add by lia. by rewrite replicate_add, app_assoc.
  - intros i x Hx. apply lookup_app_Some in Hx as [Hx|[_ Hx]].
    + apply (lk_pid _ _ Hl i). by apply lookup_app_l_Some.
    + apply list_lookup_singleton_Some in Hx as [_ <-]. apply (lk_pid _ _ Hl (length b) (set_size m e)). by apply lookup_mid.
Qed.

Lemma agree_size n b e m m' : agree n (b ++ [set_size m e]) (b ++ [set_size m' e]).
Proof.
  intros i _. destruct (decide (i < length b)); [by rewrite !lookup_app_l by lia|].
  destruct (decide (i = length b)) as [->|]; [by rewrite !lookup_mid|].
  by rewrite !lookup_ge_None_2 by (rewrite length_app; simpl; lia).
Qed.

(** The current event takes one more step. *)
Lemma continue_inv running s b e m rest p t f : inv running s (b ++ [set_size m e]) rest -> replay s = true ->
  prefix s = b ++ e :: rest -> prefix_idx s = Z.of_nat (length b) -> (1 <= m < size e)%Z ->
  pid e = Z.of_nat p -> threads s !! p = Some t -> event_indices (f t) = event_indices t ++ [length b] ->
  inv true (set_threads (alter f p (threads s)) s) (b ++ [set_size (m + 1) e]) rest.
Proof.
  intros Hi Hr Hp Hidx Hm Hpid Ht Ef.
  assert (Ha : forall s', replay s' = replay s -> seen_effect s' = seen_effect s ->
    acted s' (b ++ [set_size (m + 1) e]) = acted s (b ++ [set_size m e])).
  { intros s' Er Es. unfold acted. rewrite Er, Es, !length_app. done. }
  split; cbn; rewrite ?Ha by done; try apply Hi; try congruence.
  - apply (shape_at _ b e); [done..|lia].
  - eapply linked_more; [apply Hi|lia|done..].
  - eapply effects_agree; [apply agree_size|apply Hi].
  - eapply memory_agree; [apply agree_size|apply Hi].
  - rewrite last_snoc. intros x [= <-] Hs. apply (iv_conflict _ _ _ _ _ Hi (set_size m e)); [by rewrite last_snoc|done].
Qed.

(** The next event of the replay starts. *)
Lemma next_inv running s b e rest p t f : inv running s b (e :: rest) -> replay s = true -> prefix s = b ++ e :: rest ->
  effects (length b) b -> memory mutex_addr (length b) b (mem s) (mutexes s) ->
  pid e = Z.of_nat p -> threads s !! p = Some t -> event_indices (f t) = event_indices t ++ [length b] ->
  inv true (set_threads (alter f p (threads s)) (set_prefix_idx (Z.of_nat (length b)) (set_seen_effect false s)))
    (b ++ [set_size 1 e]) rest.
Proof.
  intros Hi Hr Hp He Hm Hpid Ht Ef. pose proof (iv_numbered _ _ _ _ _ Hi) as Hn.
  assert (Hsz : (0 < size e)%Z) by (apply (nb_size _ Hn (length b)); rewrite Hp; by apply list_lookup_middle).
  set (s' := set_threads _ _).
  assert (Ha : acted s' (b ++ [set_size 1 e]) = length b).
  { unfold acted. cbn. rewrite Hr, length_app. simpl. lia. }
  split; rewrite ?Ha; cbn; try done; try apply Hi; try congruence.
  - apply (shape_at _ b e); [done|done|lia].
  - eapply linked_alter; [apply Hi|done| | |].
    + intros n Hne. rewrite slots_snoc_ne by (simpl; lia). done.
    + rewrite Ef, (lk_slots _ _ (iv_linked _ _ _ _ _ Hi) p t Ht), slots_snoc. simpl. by rewrite decide_True by done.
    + intros i x Hx. apply lookup_app_Some in Hx as [Hx|[_ Hx]]; [by eapply (lk_pid _ _ (iv_linked _ _ _ _ _ Hi))|].
      apply list_lookup_singleton_Some in Hx as [_ <-]. simpl. apply lookup_lt_Some in Ht. lia.
  - by apply effects_snoc.
  - intros i x Hx _ Hge. apply (iv_fresh _ _ _ _ _ Hi i x Hx Hr). etrans; [|exact Hge]. unfold acted. destruct (_ && _); lia.
  - by apply memory_snoc.
Qed.

(** The replay is over. *)
Lemma replayed_inv running s b : inv running s b [] -> replay s = true -> prefix s = b ->
  effects (length b) b -> memory mutex_addr (length b) b (mem s) (mutexes s) ->
  ((0 <= prefix_idx s)%Z -> exists e, prefix s !! pos s = Some e /\ xorb (ev_empty (sym e)) (seen_effect s) = true) ->
  inv false (set_replay false s) b [].
Proof.
  intros Hi Hr Hp He Hm Hx.
  assert (Ht : tight b).
  { intros b0 e' e E _. assert (Hl : last b = Some e) by (by rewrite E, snoc2, last_snoc).
    destruct (iv_shape _ _ _ _ _ Hi) as [|b1 e1 m rest Hp1 Hidx _]; [by destruct b0|].
    destruct Hx as (x & Hx & Hxor); [lia|]. unfold pos in Hx. rewrite Hidx, Nat2Z.id, Hp1, list_lookup_middle in Hx by done.
    injection Hx as ->. rewrite last_snoc in Hl. injection Hl as <-.
    assert (Hlast : last (prefix s) = Some x).
    { rewrite Hp, last_snoc. f_equal. rewrite Hp in Hp1. destruct rest; [|by apply (f_equal length) in Hp1; rewrite !length_app in Hp1; simpl in Hp1; lia].
      by apply app_inj_tail in Hp1 as [_ ?]. }
    rewrite (iv_last _ _ _ _ _ Hi x Hr Hlast) in Hxor. simpl in Hxor.
    apply (iv_conflict _ _ _ _ _ Hi (set_size m x)); [by rewrite last_snoc|done]. }
  apply settled_inv; [|exact (iv_conflict _ _ _ _ _ Hi)].
  split; cbn; try done; try apply Hi.
  - by eapply shape_idx, Hi.
  - rewrite <-Hp. apply Hi.
Qed.

(** ** [schedule] *)

Lemma schedule_inv conf running s b rest r s' : inv running s b rest -> errors s = [] ->
  schedule conf s = Some (r, s') -> errors s' = [] /\ (r = None -> replay s' = false) /\
    exists b' rest', inv (bool_decide (is_Some r)) s' b' rest'.
Proof.
  intros Hi He H. unfold schedule in H. apply ran_bind in H as (c & s1 & [-> ->]%ran_gets & H).
  rewrite (iv_live _ _ _ _ _ Hi) in H. apply ran_bind in H as (c & s1 & [-> ->]%ran_gets & H).
  destruct (replay s) eqn:Hr.
  2: { destruct (schedule_new_inv mutex_addr _ _ _ _ _ _ _ Hi Hr H) as (E & Er & b' & Hi'). rewrite E. eauto. }
  apply ran_bind in H as (more & s1 & Hm & H). destruct (unfinished _ _ _ _ _ _ _ Hi Hm) as [-> Hcase]. destruct more.
  - destruct Hcase as (b0 & e & m & -> & Hp & Hidx & Hlt). ran_inv H.
    match goal with H : start_event _ _ _ = _ |- _ => apply ran_start in H as (t & Hp0 & Ht & ->) end.
    match goal with H : prefix s !! pos s = Some _ |- _ => rename H into Hcur end.
    unfold pos in Hcur. rewrite Hidx, Nat2Z.id, Hp, list_lookup_middle in Hcur by done. injection Hcur as <-.
    split; [done|]. split; [done|]. rewrite bool_decide_true by done. unfold with_thread. rewrite Hidx, Nat2Z.id.
    do 2 eexists. eapply continue_inv; try done. by rewrite Z2Nat.id.
  - apply ran_bind in H as (i & s1 & [-> ->]%ran_gets & H). apply ran_bind in H as (n & s1 & [-> ->]%ran_gets & H).
    apply ran_bind in H as (u & s1 & Heff & H). apply ran_effect_seen in Heff as [-> Hx]; [|done].
    destruct (all_acted _ _ _ _ _ Hi Hr Hx) as [Hall Hmem]. pose proof (shape_idx _ _ _ (iv_shape _ _ _ _ _ Hi)) as Hidx.
    rewrite Hcase, length_app in H. case_decide as Hend.
    + destruct rest; [|simpl in Hend; lia]. rewrite app_nil_r in Hcase.
      apply ran_bind in H as (v & s1 & ->%ran_modify & H).
      eapply (schedule_new_inv mutex_addr _ _ _ _ _ b) in H as (E & Er & b' & Hi'); [|by eapply replayed_inv|done].
      rewrite E. eauto.
    + destruct rest as [|e rest]; [simpl in Hend; lia|].
      ran_inv H. match goal with H : start_event _ _ _ = _ |- _ => apply ran_start in H as (t & Hp0 & Ht & ->) end.
      match goal with H : prefix _ !! pos _ = Some _ |- _ => rename H into Hcur end.
      cbn in Hcur. unfold pos in Hcur. cbn in Hcur. replace (prefix_idx s + 1)%Z with (Z.of_nat (length b)) in * by lia.
      rewrite Nat2Z.id, Hcase, list_lookup_middle in Hcur by done. injection Hcur as <-.
      split; [done|]. split; [done|]. rewrite bool_decide_true by done. unfold with_thread. rewrite Nat2Z.id.
      do 2 eexists. eapply (next_inv running s b e rest (Z.to_nat (pid e)) t); try done. by rewrite Z2Nat.id.
Qed.

(** ** The other calls *)

Lemma alter_none {A} (f : A -> A) (l : list A) i : l !! i = None -> alter f i l = l.
Proof. revert i. induction l as [|x l IH]; intros [|i] H; try done. cbn. f_equal. by apply IH. Qed.

Lemma linked_same ts es p f : linked ts es -> (forall t, event_indices (f t) = event_indices t) -> linked (alter f p ts) es.
Proof.
  intros Hl Hf. destruct (ts !! p) as [t|] eqn:Ht; [|by rewrite alter_none].
  eapply linked_alter; [done..| |apply (lk_pid _ _ Hl)]. rewrite Hf. by apply Hl.
Qed.

(** What does not touch the trace. *)
Lemma other_inv running s s' b rest f p : inv running s b rest -> (forall t, event_indices (f t) = event_indices t) ->
  threads s' = alter f p (threads s) -> prefix s' = prefix s -> prefix_idx s' = prefix_idx s -> replay s' = replay s ->
  cancelled s' = cancelled s -> seen_effect s' = seen_effect s -> mem s' = mem s -> mutexes s' = mutexes s ->
  inv running s' b rest.
Proof.
  intros Hi Hf Et Ep Ei Er Ec Es Em Ex. assert (Ha : acted s' b = acted s b) by (unfold acted; by rewrite Er, Es).
  split; rewrite ?Ha, ?Ep, ?Er, ?Ec, ?Es, ?Em, ?Ex; try apply Hi.
  - destruct (iv_shape _ _ _ _ _ Hi) as [|? ? ? ? ? ?]; [rewrite <-Ep; constructor; congruence|].
    eapply shape_at; [congruence..|done].
  - rewrite Et. apply linked_same; [apply Hi|done].
Qed.

(** Taking back a new event. *)
Lemma numbered_app_l b l : numbered (b ++ l) -> numbered b.
Proof.
  intros [Hp Hs Hi]. assert (Hat : forall i x, b !! i = Some x -> (b ++ l) !! i = Some x) by (intros; by apply lookup_app_l_Some).
  split; intros i x Hx; [by eapply Hp, Hat|by eapply Hs, Hat|].
  rewrite (Hi i x) by by apply Hat. apply lookup_lt_Some in Hx. by rewrite take_app_le by lia.
Qed.

Lemma agree_snoc b e : agree (length b) (b ++ [e]) b.
Proof. intros i Hi. by rewrite lookup_app_l. Qed.

Lemma refuse_inv s b rest x s' : inv true s b rest -> replay s = false -> refuse_schedule s = Some (x, s') ->
  errors s' = errors s /\ exists b', inv false s' b' [].
Proof.
  intros Hi Hr H. destruct (iv_done _ _ _ _ _ Hi Hr) as [-> Hpre].
  destruct (iv_running _ _ _ _ _ Hi Hr eq_refl) as (b0 & e & -> & Hs & Ht & Hq).
  unfold refuse_schedule, mark_unavailable in H. ran_inv H. unfold pos in H1.
  rewrite H0, Hpre in H1. replace (Z.to_nat _) with (length b0) in H1 by (rewrite length_app; simpl; lia).
  rewrite list_lookup_middle in H1 by done. injection H1 as <-.
  assert (x4 = b0) as ->.
  { assert (Hl : last (prefix s) = Some e) by (by rewrite Hpre, last_snoc).
    pose proof (ran_vpop _ _ _ Hl H5) as E. rewrite Hpre in E. by apply app_inj_tail in E as [-> _]. }
  apply zget_inv in H6 as [_ Hx6]. cbn in Hx6. pose proof (ran_vpop _ _ _ H7 H9) as El.
  apply ran_thread_upd in H10 as (t & _ & Ht1 & ->). apply ran_thread_upd in H as (t' & _ & Ht2 & ->).
  cbn in Ht1. rewrite Hx6 in Ht1. injection Ht1 as <-. split; [done|]. exists b0.
  assert (Hseen : seen_effect s = false).
  { destruct (seen_effect s) eqn:Es; [|done]. rewrite (iv_conflict _ _ _ _ _ Hi e) in H4 by (rewrite ?last_snoc; done). done. }
  specialize (Hq Hseen). pose proof (acted_done s (b0 ++ [e]) Hr) as Ha. rewrite length_app, Nat.add_1_r in Ha.
  pose proof (iv_effects _ _ _ _ _ Hi) as He. pose proof (iv_memory _ _ _ _ _ Hi) as Hm. rewrite Ha in He, Hm.
  apply settled_inv; [|intros y _ Hy; cbn in Hy; congruence]. split; cbn; try done; try apply Hi.
  - rewrite H0, Hpre, length_app. simpl. lia.
  - apply (numbered_app_l b0 [e]). rewrite <-Hpre. apply Hi.
  - apply linked_same; [|done]. eapply linked_pop; [apply Hi|done|symmetry; by apply Z2Nat.id|exact Hx6|exact El|done].
  - eapply effects_agree; [apply agree_snoc|]. eapply effects_le; [|exact He]. lia.
  - eapply memory_agree; [apply agree_snoc|].
    apply (memory_quiet _ _ _ _ _ e); [by apply list_lookup_middle|by apply empty_kind, Hq|exact Hm].
Qed.
End steps.
