(* ===== verification/RfscOps.v ===== *)
(** * RfscOps: the methods of the instructions keep the invariant; every instruction
      keeps the invariant

    Every method that succeeds gives the current event its effect ([act_inv]): the
    symbolic event, what it reads, its edges; and it mirrors them in the memory or
    the mutex.

    The instructions of the program as the interpreter hands them to the trace
    builder ([op]), and what the addresses they access must be like. *)

From S2P Require Import Prelude.
From S2P Require Import SatGraph.
From S2P Require Import VClock.
From S2P Require Import CPid.
From S2P Require Import SymAddr.
From S2P Require Import SymEv.
From S2P Require Import TSOState.
From S2P Require Import Unfold.
From S2P Require Import Decision.
From S2P Require Import Rfsc.
From S2P Require Import RfscAnalysis.
From S2P Require Import RfscFormula.
From S2P Require Import RfscTrace.
From S2P Require Import RfscInv.
From S2P Require Import RfscRun.

Implicit Types (s : RFSCTraceBuilder) (b es rest : list Event) (e : Event) (i j k n : nat).

Lemma sas_base_in a bs : sas_wf a -> (0 < sas_size a)%Z -> sas_bytes a = Some bs -> sas_addr a ∈ bs.
Proof.
  intros Hwf Hsz H. rewrite (sas_bytes_spec a Hwf) in H. injection H as <-. destruct Hwf as [[_ Ho] _].
  assert (E0 : sa_add (sas_addr a) (Z.of_nat 0) = sas_addr a).
  { unfold sa_add. simpl. rewrite Z.add_0_r, wrapu_id by (unfold_consts; lia). by destruct (sas_addr a). }
  destruct (Z.to_nat (sas_size a)) as [|n] eqn:E; [lia|]. cbn [seq map]. rewrite E0. by left.
Qed.

Section handlers.
Context (mutex_addr : SymAddr -> bool).
Abbreviation inv := (inv mutex_addr).
Abbreviation memory := (memory mutex_addr).

(** ** The effect of the current event *)

(** [s'] is [s] with the effect [(ev, rf, ha)] at the current event. *)
Record acts s s' (g : Event -> Event) (ev : SymEv) (rf : option Z) (ha : list nat) : Prop := {
  ac_prefix : prefix s' = alter g (pos s) (prefix s);
  ac_idx : prefix_idx s' = prefix_idx s;
  ac_replay : replay s' = replay s;
  ac_live : cancelled s' = cancelled s;
  ac_seen : seen_effect s' = true;
  ac_event e : read_from e = None -> happens_after e = [] ->
    iid (g e) = iid e /\ size (g e) = size e /\ may_conflict (g e) = true /\ effect (g e) = (ev, rf, ha);
}.

(** What is right of an effect at position [c] after the events [b]. *)
Record effect_ok c b (ev : SymEv) (rf : option Z) (ha : list nat) : Prop := {
  eo_kind : ev_empty ev = false;
  eo_after j : j ∈ ha -> j < c;
  eo_load : sym_is_load ev = true <-> rf <> None;
  eo_store : sym_is_store ev = true -> is_Some (ev_addr ev);
  eo_read w : rf = Some w -> exists a, ev_addr ev = Some a /\ last_writer b (sas_addr a) (seq 0 c) = w;
}.

Lemma current_event s b rest : inv true s b rest -> (0 <= prefix_idx s)%Z -> seen_effect s = false ->
  exists b0 e m, b = b0 ++ [set_size m e] /\ prefix s = b0 ++ e :: rest /\ prefix_idx s = Z.of_nat (length b0) /\
    (1 <= m <= size e)%Z /\ (replay s = false -> m = size e) /\ read_from e = None /\ happens_after e = [] /\
    effects (length b0) b /\ memory (length b0) b (mem s) (mutexes s).
Proof.
  intros Hi Hidx Hs. pose proof (iv_effects _ _ _ _ _ Hi) as He. pose proof (iv_memory _ _ _ _ _ Hi) as Hm.
  destruct (iv_shape _ _ _ _ _ Hi) as [|b0 e m rest Hp E Hm0]; [lia|]. exists b0, e, m.
  assert (Hlen : length (b0 ++ [set_size m e]) = S (length b0)) by (rewrite length_app; simpl; lia).
  pose proof (lookup_mid b0 [] (set_size m e)) as Hat. do 4 (split; [done|]).
  destruct (replay s) eqn:Hr.
  - split; [done|]. assert (Ha : acted s (b0 ++ [set_size m e]) = length b0) by (unfold acted; rewrite Hr, Hs, Hlen; simpl; lia).
    rewrite Ha in He, Hm. destruct (iv_fresh _ _ _ _ _ Hi (length b0) e) as [? ?]; [by rewrite Hp; apply list_lookup_middle|done|lia|].
    by split_and!.
  - destruct (iv_running _ _ _ _ _ Hi Hr eq_refl) as (b1 & e1 & E1 & Hs1 & _ & Hq). apply app_inj_tail in E1 as [<- <-].
    specialize (Hq Hs). rewrite acted_done, Hlen in He, Hm by done. split_and!; try apply Hq.
    + intros _. destruct (iv_done _ _ _ _ _ Hi Hr) as [-> Hpb]. rewrite Hp in Hpb. apply app_inj_tail in Hpb as [_ Hpb].
      rewrite Hpb. done.
    + eapply effects_le; [|exact He]. lia.
    + apply (memory_quiet _ _ _ _ _ (set_size m e)); [done|by apply empty_kind, Hq|done].
Qed.

(** The event has its effect. *)
Lemma act_inv s s' b rest g ev rf ha : inv true s b rest -> (0 <= prefix_idx s)%Z -> seen_effect s = false ->
  acts s s' g ev rf ha -> effect_ok (pos s) b ev rf ha -> linked (threads s') b ->
  (forall b' e, b' !! pos s = Some e -> sym e = ev -> memory (pos s) b' (mem s) (mutexes s) ->
    memory (S (pos s)) b' (mem s') (mutexes s')) ->
  exists b', inv true s' b' rest.
Proof.
  intros Hi Hidx Hs [Ap Ai Ar Al As Ae] [Ek Ea El Es Er] Hl Hmem.
  destruct (current_event s b rest Hi Hidx Hs) as (b0 & e & m & -> & Hp & E & Hm0 & Hfull & Hrf & Hha & He & Hm).
  assert (Hpos : pos s = length b0) by (unfold pos; lia). rewrite Hpos in *.
  destruct (Ae e Hrf Hha) as (Eid & Esz & Ecf & Eeff). injection Eeff as E1 E2 E3.
  rewrite Hp, (alter_at _ _ _ e), insert_app_mid in Ap by by apply list_lookup_middle.
  set (x := set_size m (g e)). pose proof (lookup_mid b0 [] x) as Hat. exists (b0 ++ [x]).
  assert (Hlen : length (b0 ++ [x]) = S (length b0)) by (rewrite length_app; simpl; lia).
  assert (Hact : acted s' (b0 ++ [x]) = S (length b0)) by (unfold acted; by rewrite As, andb_false_r, Hlen).
  assert (Hag : agree (length b0) (b0 ++ [set_size m e]) (b0 ++ [x])).
  { intros i Hi0. by rewrite !lookup_app_l by lia. }
  assert (Hsame : forall (l : list Event) y l', iid y = iid e -> size y = size e -> forall i,
    (fun e => (iid e, size e)) <$> (l ++ y :: l') !! i = (fun e => (iid e, size e)) <$> (l ++ e :: l') !! i).
  { intros l y l' Ey Ey' i. destruct (decide (i = length l)) as [->|Hne].
    - rewrite !list_lookup_middle by done. simpl. by rewrite Ey, Ey'.
    - destruct (decide (i < length l)); [by rewrite !lookup_app_l by lia|]. rewrite !lookup_app_r by lia.
      by destruct (i - length l) eqn:?; [lia|]. }
  split; rewrite ?Hact, ?Al, ?Ar; try apply Hi.
  - apply (shape_at _ b0 (g e)); [done|congruence|lia].
  - intros Hr. destruct (iv_done _ _ _ _ _ Hi Hr) as [-> _]. split; [done|]. rewrite Ap. unfold x.
    rewrite set_size_same by (rewrite Hfull by done; congruence). done.
  - rewrite Ap. apply (numbered_ext (b0 ++ e :: rest)); [by apply Hsame|]. rewrite <-Hp. apply Hi.
  - eapply linked_ext; [|exact Hl]. intros i. destruct (decide (i = length b0)) as [->|Hne].
    + rewrite !lookup_mid. simpl. by rewrite Eid.
    + destruct (decide (i < length b0)); [by rewrite !lookup_app_l by lia|].
      by rewrite !lookup_ge_None_2 by (rewrite length_app; simpl; lia).
  - apply (effects_S _ _ x); [by eapply effects_agree|done| | | |]; unfold x; simpl; rewrite ?E1, ?E2, ?E3; try done.
    intros w Hw. destruct (Er w Hw) as (a & Ha & Hla). exists a. split; [done|]. rewrite <-Hla. by apply agree_writer.
  - intros i y Hy Hr Hge. rewrite Ap in Hy. apply (iv_fresh _ _ _ _ _ Hi i y); [|done|].
    + rewrite Hp. rewrite lookup_app_r in Hy |- * by lia. destruct (i - length b0) eqn:?; [lia|done].
    + unfold acted. rewrite Hr, Hs. simpl. rewrite length_app. simpl. lia.
  - apply (Hmem _ x Hat); [done|]. by eapply memory_agree.
  - intros y Hy _. rewrite last_snoc in Hy. injection Hy as <-. done.
  - intros Hr _. destruct (iv_running _ _ _ _ _ Hi Hr eq_refl) as (b1 & e1 & Eb & Hs1 & Ht1 & _).
    apply app_inj_tail in Eb as [<- <-]. exists b0, x. split_and!; [done|exact Hs1|done|congruence].
  - done.
  - intros y Hr Hy. rewrite Ap in Hy. destruct rest as [|z rest _] using rev_ind.
    + rewrite last_snoc in Hy. injection Hy as <-. by rewrite E1.
    + apply (iv_last _ _ _ _ _ Hi y Hr). rewrite Hp. revert Hy. rewrite !app_comm_cons, !app_assoc, !last_snoc. done.
Qed.
End handlers.

(** * Every instruction keeps the invariant *)


(** ** Instructions *)

Inductive op :=
| Store (sd : SymDataRef) | Rmw (sd : SymDataRef) (action : RmwAction) | Load (ml : SymAddrSize)
| CmpXhg (sd : SymDataRef) (expected : block_type) (success : bool)
| Spawn | Join (tgt : Z) | MLock (ml : SymAddrSize) | MTrylock (ml : SymAddrSize) | MUnlock (ml : SymAddrSize)
| MInit (ml : SymAddrSize) | MDestroy (ml : SymAddrSize)
| Fence | FullMem | Unsupported (msg : string).

Definition perform (o : op) : M bool :=
  match o with
  | Store sd => atomic_store sd | Rmw sd a => atomic_rmw sd a | Load ml => load ml
  | CmpXhg sd expected success => compare_exchange sd expected success
  | Spawn => spawn | Join tgt => join tgt
  | MLock ml => mutex_lock ml | MTrylock ml => mutex_trylock ml | MUnlock ml => mutex_unlock ml
  | MInit ml => mutex_init ml | MDestroy ml => mutex_destroy ml
  | Fence => fence | FullMem => full_memory_conflict | Unsupported msg => unsupported msg
  end.

Section ops.
Context (mutex_addr : SymAddr -> bool).
Abbreviation inv := (inv mutex_addr).
Abbreviation memory := (memory mutex_addr).

(** Data has a valid range of at least one byte, and no address is used both for
    data and for a mutex. *)
Definition data_range (ml : SymAddrSize) : Prop :=
  sas_wf ml /\ (0 < sas_size ml)%Z /\ mutex_addr (sas_addr ml) = false.
Definition op_ok (o : op) : Prop :=
  match o with
  | Store sd | Rmw sd _ | CmpXhg sd _ _ => data_range (sdr_ref sd)
  | Load ml => data_range ml
  | MLock ml | MTrylock ml | MUnlock ml | MInit ml | MDestroy ml => mutex_addr (sas_addr ml) = true
  | _ => True
  end.

(** ** What succeeding means *)

(** After [record_symbolic] the handler goes on only if it succeeded. *)
Lemma ran_recorded ev (K : M bool) s r s' : (ok ← record_symbolic ev; if (ok : bool) then K else mret false) s = Some (r, s') ->
  errors s' = [] -> seen_effect s = false /\ (0 <= prefix_idx s)%Z /\
    K (set_seen_effect true (with_cur (set_sym ev) s)) = Some (r, s').
Proof.
  intros H He. apply ran_bind in H as ([] & s1 & H1%ran_record & H).
  - destruct H1 as (Hs & Hi & _ & -> & _). done.
  - apply ran_ret in H as [_ ->]. done.
Qed.

Section current.
Context (s : RFSCTraceBuilder) (b rest : list Event) (Hi : inv true s b rest).

Lemma in_memory : (0 <= prefix_idx s)%Z -> seen_effect s = false ->
  memory (pos s) b (mem s) (mutexes s) /\ pos s <= length b /\
  forall a, get_addr (prefix s) a = get_addr b a \/ length b <= a.
Proof.
  intros Hidx Hs. destruct (current_event _ s b rest Hi Hidx Hs) as (b0 & e & m & -> & Hp & E & _ & _ & _ & _ & _ & Hm).
  assert (Hpos : pos s = length b0) by (unfold pos; lia). rewrite Hpos. split_and!; [done|rewrite length_app; lia|].
  intros a. destruct (decide (a < length b0)) as [Hlt|Hge].
  - left. unfold get_addr. by rewrite Hp, !lookup_app_l by lia.
  - destruct (decide (a = length b0)) as [->|]; [|right; rewrite length_app; simpl; lia].
    left. unfold get_addr. rewrite Hp. by rewrite !list_lookup_middle by done.
Qed.
End current.

Ltac acts_tac := split; try done; [cbn; by rewrite ?list_alter_alter_eq|
  let Hr := fresh in let Ha := fresh in intros ? Hr Ha; unfold effect; cbn; by rewrite ?Hr, ?Ha].
Ltac effect_tac := split; try done; try (by intros ? ?%not_elem_of_nil).

(** An event that writes nothing. *)
Lemma memory_still e n b m mx : b !! n = Some e -> sym_is_store (sym e) = false -> memory n b m mx -> memory (S n) b m mx.
Proof. intros He Hs Hm. by apply (memory_quiet _ _ _ _ _ e He Hs). Qed.

(** *** Data *)

Lemma store_inv sd s b rest r s' : inv true s b rest -> data_range (sdr_ref sd) -> atomic_store sd s = Some (r, s') ->
  errors s' = [] -> exists b', inv true s' b' rest.
Proof.
  intros Hi (Hwf & Hsz & Hd) H He. unfold atomic_store in H. apply ran_recorded in H as (Hs & Hidx & H); [|done].
  apply ran_bind in H as (u & s1 & (bs & Hbs & _ & _ & ->)%ran_do_store & H). ran_inv H.
  eapply (act_inv _ s _ b rest (set_may_conflict true ∘ set_sym (SymEv_Store sd)) (SymEv_Store sd) None []); try done.
  - acts_tac.
  - effect_tac.
  - apply Hi.
  - intros b' e Hat Hsym Hm. cbn. replace (prefix_idx s) with (Z.of_nat (pos s)) by (unfold pos; lia).
    eapply memory_store; [done|done|by rewrite Hsym..|done|by apply sas_base_in].
Qed.

(** What a load of data reads is the last write before it. *)
Lemma load_reads s b rest ml g : inv true s b rest -> (0 <= prefix_idx s)%Z -> seen_effect s = false -> data_range ml ->
  let lu := last_update (mem s) (sas_addr ml) in
  (lu <> (-1)%Z -> exists a, get_addr (alter g (pos s) (prefix s)) (Z.to_nat lu) = Some a /\ sas_eq a ml = true) ->
  last_writer b (sas_addr ml) (seq 0 (pos s)) = lu.
Proof.
  intros Hi Hidx Hs (_ & _ & Hd) lu Hlu. destruct (in_memory s b rest Hi Hidx Hs) as (Hm & Hle & Hget).
  apply (memory_load _ _ _ _ _ _ Hm Hd). fold lu. intros Hne. destruct (Hlu Hne) as (a & Ha & Heq).
  exists a. apply sas_eq_spec in Heq as ->. split; [|done]. rewrite <-Ha.
  assert (Hlt : Z.to_nat lu < pos s).
  { subst lu. unfold last_update in *. destruct (mem s !! sas_addr ml) as [z|] eqn:Ez; [|done].
    destruct (mm_in _ _ _ _ _ Hm _ _ Ez) as (k & e & -> & Hk & _). simpl. lia. }
  destruct (Hget (Z.to_nat lu)) as [E|]; [|lia]. rewrite <-E. unfold get_addr. by rewrite list_lookup_alter_ne by lia.
Qed.

Lemma load_inv ml s b rest r s' : inv true s b rest -> data_range ml -> load ml s = Some (r, s') ->
  errors s' = [] -> exists b', inv true s' b' rest.
Proof.
  intros Hi Hok H He. unfold load in H. apply ran_recorded in H as (Hs & Hidx & H); [|done].
  apply ran_bind in H as (u & s1 & (_ & _ & -> & Hlu)%ran_do_load & H). ran_inv H.
  cbn in Hlu |- *. rewrite !list_alter_alter_eq in Hlu.
  pose proof (load_reads s b rest ml _ Hi Hidx Hs Hok Hlu) as Hread.
  eapply (act_inv _ s _ b rest (set_read_from (Some (last_update (mem s) (sas_addr ml))) ∘ (set_may_conflict true ∘ set_sym (SymEv_Load ml)))); try done.
  - acts_tac.
  - effect_tac. intros w [= <-]. by exists ml.
  - apply Hi.
  - intros b' e Hat Hsym Hm. apply (memory_still e); [done|by rewrite Hsym|done].
Qed.

Lemma rmw_inv sd a s b rest r s' : inv true s b rest -> data_range (sdr_ref sd) -> atomic_rmw sd a s = Some (r, s') ->
  errors s' = [] -> exists b', inv true s' b' rest.
Proof.
  intros Hi Hok H He. unfold atomic_rmw in H. apply ran_bind in H as (ev & s0 & [Hev ->]%ran_lift & H).
  apply ran_recorded in H as (Hs & Hidx & H); [|done].
  apply ran_bind in H as (u & s1 & (_ & _ & -> & Hlu)%ran_do_load & H).
  apply ran_bind in H as (v & s2 & (bs & Hbs & _ & _ & ->)%ran_do_store & H). ran_inv H.
  cbn in Hlu |- *. rewrite !list_alter_alter_eq in Hlu.
  pose proof (load_reads s b rest _ _ Hi Hidx Hs Hok Hlu) as Hread.
  assert (Hk : ev_kind ev = RMW /\ ev_addr ev = Some (sdr_ref sd)).
  { unfold SymEv_Rmw in Hev. destruct (cassert _); [|done]. by injection Hev as <-. }
  destruct Hk as [Hk Ha]. assert (Hl : sym_is_load ev = true /\ sym_is_store ev = true /\ ev_empty ev = false).
  { unfold sym_is_load, sym_is_store, ev_empty. rewrite Hk. done. }
  destruct Hl as (Hl & Hst & Hne).
  eapply (act_inv _ s _ b rest (set_may_conflict true ∘ (set_read_from (Some (last_update (mem s) (sas_addr (sdr_ref sd)))) ∘
    (set_may_conflict true ∘ set_sym ev)))); try done.
  - acts_tac.
  - effect_tac. intros w [= <-]. eauto.
  - apply Hi.
  - intros b' e Hat Hsym Hm. cbn. replace (prefix_idx s) with (Z.of_nat (pos s)) by (unfold pos; lia).
    destruct Hok as (Hwf & Hsz & Hd). eapply memory_store; [done|done|by rewrite Hsym..|done|by apply sas_base_in].
Qed.

Lemma cmpxhg_inv sd expected success s b rest r s' : inv true s b rest -> data_range (sdr_ref sd) ->
  compare_exchange sd expected success s = Some (r, s') -> errors s' = [] -> exists b', inv true s' b' rest.
Proof.
  intros Hi Hok H He. unfold compare_exchange in H. apply ran_recorded in H as (Hs & Hidx & H); [|done].
  apply ran_bind in H as (u & s1 & (_ & _ & -> & Hlu)%ran_do_load & H).
  cbn in Hlu. rewrite !list_alter_alter_eq in Hlu.
  pose proof (load_reads s b rest _ _ Hi Hidx Hs Hok Hlu) as Hread.
  destruct success; cbn [when] in H.
  - apply ran_bind in H as (v & s2 & (bs & Hbs & _ & _ & ->)%ran_do_store & H). ran_inv H.
    eapply (act_inv _ s _ b rest (set_may_conflict true ∘ (set_read_from (Some (last_update (mem s) (sas_addr (sdr_ref sd)))) ∘
      (set_may_conflict true ∘ set_sym (SymEv_CmpXhg sd expected))))); try done.
    + acts_tac.
    + effect_tac. intros w [= <-]. by exists (sdr_ref sd).
    + apply Hi.
    + intros b' e Hat Hsym Hm. cbn. replace (prefix_idx s) with (Z.of_nat (pos s)) by (unfold pos; lia).
      destruct Hok as (Hwf & Hsz & Hd). eapply memory_store; [done|done|by rewrite Hsym..|done|by apply sas_base_in].
  - ran_inv H.
    eapply (act_inv _ s _ b rest (set_read_from (Some (last_update (mem s) (sas_addr (sdr_ref sd)))) ∘
      (set_may_conflict true ∘ set_sym (SymEv_CmpXhgFail sd expected)))); try done.
    + acts_tac.
    + effect_tac. intros w [= <-]. by exists (sdr_ref sd).
    + apply Hi.
    + intros b' e Hat Hsym Hm. apply (memory_still e); [done|by rewrite Hsym|done].
Qed.

(** *** Mutexes *)

Lemma ran_mutex_get ml x s s' : mutex_get ml s = Some (x, s') -> x = default Mutex_new (mutexes s !! sas_addr ml) /\ s' = s.
Proof. intros H. unfold mutex_get in H. ran_inv H. done. Qed.
Lemma ran_mutex_put ml x u s s' : mutex_put ml x s = Some (u, s') -> s' = set_mutexes (<[sas_addr ml := x]> (mutexes s)) s.
Proof. intros H. unfold mutex_put in H. ran_inv H. done. Qed.

(** A mutex operation reads the last access and becomes it. *)
Lemma mutex_op_inv s s' b rest g (k : SymKind) ml y : inv true s b rest -> mutex_addr (sas_addr ml) = true ->
  (0 <= prefix_idx s)%Z -> seen_effect s = false ->
  symev_is_lock_type (SymEv_sync k ml) = true ->
  acts s s' g (SymEv_sync k ml) (Some (last_access (default Mutex_new (mutexes s !! sas_addr ml)))) [] ->
  threads s' = threads s -> mem s' = mem s -> mutexes s' = <[sas_addr ml := y]> (mutexes s) ->
  last_access y = prefix_idx s -> exists b', inv true s' b' rest.
Proof.
  intros Hi Hd Hidx Hs Hk Hacts Et Em Ex Hy. destruct (in_memory s b rest Hi Hidx Hs) as (Hm & _ & _).
  assert (Hall : sym_is_load (SymEv_sync k ml) = true /\ sym_is_store (SymEv_sync k ml) = true /\
    ev_empty (SymEv_sync k ml) = false /\ ev_addr (SymEv_sync k ml) = Some ml) by by destruct k.
  destruct Hall as (Hl & Hst & Hne & Ha).
  eapply act_inv; [exact Hi|done|done|exact Hacts| | |].
  - split; try done; [by intros ? ?%not_elem_of_nil|].
    intros w [= <-]. exists ml. split; [done|]. by rewrite (mm_mutex _ _ _ _ _ Hm _ Hd).
  - rewrite Et. apply Hi.
  - intros b' e Hat Hsym Hm'. rewrite Em, Ex. apply (memory_mutex _ _ _ _ _ e); try done; [by rewrite Hsym..|].
    rewrite Hy. unfold pos. lia.
Qed.

Lemma lock_inv ml s b rest r s' : inv true s b rest -> mutex_addr (sas_addr ml) = true -> mutex_lock ml s = Some (r, s') ->
  errors s' = [] -> exists b', inv true s' b' rest.
Proof.
  intros Hi Hd H He. unfold mutex_lock in H. apply ran_bind in H as (u & s1 & (_ & _ & ->)%ran_curev_upd & H).
  apply ran_recorded in H as (Hs & Hidx & H); [|done].
  apply ran_bind in H as (x & s1 & [-> ->]%ran_mutex_get & H). ran_inv H.
  match goal with H : mutex_put _ _ _ = _ |- _ => apply ran_mutex_put in H as -> end.
  eapply (mutex_op_inv s _ b rest (set_read_from (Some (last_access (default Mutex_new (mutexes s !! sas_addr ml)))) ∘
    (set_sym (SymEv_sync M_LOCK ml) ∘ set_may_conflict true)) M_LOCK); try done. acts_tac.
Qed.

Lemma trylock_inv ml s b rest r s' : inv true s b rest -> mutex_addr (sas_addr ml) = true -> mutex_trylock ml s = Some (r, s') ->
  errors s' = [] -> exists b', inv true s' b' rest.
Proof.
  intros Hi Hd H He. unfold mutex_trylock in H. apply ran_bind in H as (x & s1 & [-> ->]%ran_mutex_get & H).
  apply ran_bind in H as (u & s1 & (_ & _ & ->)%ran_curev_upd & H).
  apply ran_recorded in H as (Hs & Hidx & H); [|done]. ran_inv H.
  match goal with H : mutex_put _ _ _ = _ |- _ => apply ran_mutex_put in H as -> end.
  set (k := if locked (default Mutex_new (mutexes s !! sas_addr ml)) then M_TRYLOCK_FAIL else M_TRYLOCK).
  eapply (mutex_op_inv s _ b rest (set_read_from (Some (last_access (default Mutex_new (mutexes s !! sas_addr ml)))) ∘
    (set_sym (SymEv_sync k ml) ∘ set_may_conflict true)) k); try done.
  - subst k. by destruct (locked _).
  - acts_tac.
  - by destruct (locked _).
Qed.

Lemma unlock_inv ml s b rest r s' : inv true s b rest -> mutex_addr (sas_addr ml) = true -> mutex_unlock ml s = Some (r, s') ->
  errors s' = [] -> exists b', inv true s' b' rest.
Proof.
  intros Hi Hd H He. unfold mutex_unlock in H. apply ran_bind in H as (u & s1 & (_ & _ & ->)%ran_curev_upd & H).
  apply ran_recorded in H as (Hs & Hidx & H); [|done].
  apply ran_bind in H as (x & s1 & [-> ->]%ran_mutex_get & H). ran_inv H.
  match goal with H : mutex_put _ _ _ = _ |- _ => apply ran_mutex_put in H as -> end.
  eapply (mutex_op_inv s _ b rest (set_read_from (Some (last_access (default Mutex_new (mutexes s !! sas_addr ml)))) ∘
    (set_sym (SymEv_sync M_UNLOCK ml) ∘ set_may_conflict true)) M_UNLOCK); try done. acts_tac.
Qed.

Lemma destroy_inv ml s b rest r s' : inv true s b rest -> mutex_addr (sas_addr ml) = true -> mutex_destroy ml s = Some (r, s') ->
  errors s' = [] -> exists b', inv true s' b' rest.
Proof.
  intros Hi Hd H He. unfold mutex_destroy in H. apply ran_bind in H as (u & s1 & (_ & _ & ->)%ran_curev_upd & H).
  apply ran_recorded in H as (Hs & Hidx & H); [|done].
  apply ran_bind in H as (x & s1 & [-> ->]%ran_mutex_get & H). ran_inv H.
  match goal with H : mutex_put _ _ _ = _ |- _ => apply ran_mutex_put in H as -> end.
  eapply (mutex_op_inv s _ b rest (set_read_from (Some (last_access (default Mutex_new (mutexes s !! sas_addr ml)))) ∘
    (set_sym (SymEv_sync M_DELETE ml) ∘ set_may_conflict true)) M_DELETE); try done. acts_tac.
Qed.

Lemma init_inv ml s b rest r s' : inv true s b rest -> mutex_addr (sas_addr ml) = true -> mutex_init ml s = Some (r, s') ->
  errors s' = [] -> exists b', inv true s' b' rest.
Proof.
  intros Hi Hd H He. unfold mutex_init in H. apply ran_bind in H as (u & s1 & (_ & _ & ->)%ran_curev_upd & H).
  apply ran_recorded in H as (Hs & Hidx & H); [|done]. ran_inv H.
  match goal with H : mutex_put _ _ _ = _ |- _ => apply ran_mutex_put in H as -> end.
  match goal with H : mutexes _ !! _ = None |- _ => rename H into Hno end. cbn in Hno.
  eapply (mutex_op_inv s _ b rest (set_read_from (Some (-1)%Z) ∘ (set_sym (SymEv_sync M_INIT ml) ∘ set_may_conflict true)) M_INIT);
    try done. rewrite Hno. acts_tac.
Qed.

(** *** Threads *)

(** An event that neither reads nor writes. *)
Lemma plain_inv s s' b rest g ev ha : inv true s b rest -> (0 <= prefix_idx s)%Z -> seen_effect s = false ->
  ev_empty ev = false -> sym_is_load ev = false -> sym_is_store ev = false -> (forall j, j ∈ ha -> j < pos s) ->
  acts s s' g ev None ha -> linked (threads s') b -> mem s' = mem s -> mutexes s' = mutexes s -> exists b', inv true s' b' rest.
Proof.
  intros Hi Hidx Hs Hne Hl Hst Hha Hacts Ht Em Ex. eapply act_inv; [exact Hi|done|done|exact Hacts| |done|].
  - split; try done; by rewrite ?Hl, ?Hst.
  - intros b' e Hat Hsym Hm. rewrite Em, Ex. apply (memory_still e); [done|by rewrite Hsym|done].
Qed.

Lemma spawn_inv s b rest r s' : inv true s b rest -> spawn s = Some (r, s') -> errors s' = [] -> exists b', inv true s' b' rest.
Proof.
  intros Hi H He. unfold spawn in H. apply ran_bind in H as (u & s1 & (_ & _ & ->)%ran_curev_upd & H).
  apply ran_bind in H as (ts & s1 & [-> ->]%ran_gets & H). apply ran_recorded in H as (Hs & Hidx & H); [|done]. ran_inv H.
  set (ev := SymEv_Spawn _) in *.
  eapply (plain_inv s _ b rest (set_sym ev ∘ set_may_conflict true) ev []); try done.
  - by intros ? ?%not_elem_of_nil.
  - acts_tac.
  - cbn. apply linked_thread; [apply Hi|done].
Qed.

Lemma ran_add_after (k j : nat) x s s' : add_happens_after k j s = Some (x, s') -> j < k /\
  exists e, prefix s !! k = Some e /\
    (last (happens_after e) = Some j /\ s' = s \/ s' = set_prefix (alter (set_happens_after (happens_after e ++ [j])) k (prefix s)) s).
Proof.
  intros H. unfold add_happens_after in H. ran_inv H.
  match goal with H : zget _ _ = Some _ |- _ => apply zget_inv in H as [_ H]; rewrite Nat2Z.id in H; rename H into He end.
  split; [done|]. eexists. split; [done|]. revert H. case_decide as Hl; intros H; ran_inv H.
  - by left.
  - right. apply ran_pfx_upd in H as (e & _ & _ & ->). by rewrite Nat2Z.id.
Qed.

Lemma join_inv tgt s b rest r s' : inv true s b rest -> join tgt s = Some (r, s') -> errors s' = [] -> exists b', inv true s' b' rest.
Proof.
  intros Hi H He. unfold join in H. apply ran_bind in H as (u & s1 & (_ & _ & ->)%ran_curev_upd & H).
  apply ran_recorded in H as (Hs & Hidx & H); [|done]. ran_inv H.
  match goal with H : add_happens_after_thread _ _ _ = _ |- _ => rename H into Hadd end.
  unfold add_happens_after_thread in Hadd. ran_inv Hadd. set (ev := SymEv_Join tgt) in *.
  destruct (last (event_indices x1)) as [l|].
  - apply ran_add_after in Hadd as (Hlt & e & Hcur & Hcase). cbn in Hcur, Hcase, Hidx, Hs. fold (pos s) in Hcur, Hcase, Hlt.
    destruct (current_event _ s b rest Hi Hidx Hs) as (b0 & e0 & m & _ & Hp & E & _ & _ & _ & Hha & _).
    assert (Hpos : pos s = length b0) by (unfold pos; lia).
    assert (Hnil : happens_after e = []).
    { unfold pos in Hcur. cbn in Hcur. fold (pos s) in Hcur. rewrite !list_lookup_alter_eq, Hpos, Hp, list_lookup_middle in Hcur by done.
      injection Hcur as <-. done. }
    rewrite Hnil in Hcase. destruct Hcase as [[? _]| ->]; [done|].
    eapply (plain_inv s _ b rest (set_happens_after [l] ∘ (set_sym ev ∘ set_may_conflict true)) ev [l]); try done.
    + by intros j ->%list_elem_of_singleton.
    + acts_tac.
    + apply Hi.
  - ran_inv Hadd. eapply (plain_inv s _ b rest (set_sym ev ∘ set_may_conflict true) ev []); try done.
    + by intros ? ?%not_elem_of_nil.
    + acts_tac.
    + apply Hi.
Qed.

(** ** All instructions *)

Lemma perform_inv o s b rest r s' : inv true s b rest -> op_ok o -> perform o s = Some (r, s') -> errors s' = [] ->
  exists b', inv true s' b' rest.
Proof.
  intros Hi Hok H He. destruct o; cbn [perform op_ok] in *.
  - by eapply store_inv.
  - by eapply rmw_inv.
  - by eapply load_inv.
  - by eapply cmpxhg_inv.
  - by eapply spawn_inv.
  - by eapply join_inv.
  - by eapply lock_inv.
  - by eapply trylock_inv.
  - by eapply unlock_inv.
  - by eapply init_inv.
  - by eapply destroy_inv.
  - injection H as _ <-. eauto.
  - unfold full_memory_conflict, invalid_input_error in H. ran_inv H.
    match goal with H : report _ _ = _ |- _ => by apply ran_report in H end.
  - unfold unsupported, invalid_input_error in H. ran_inv H.
    match goal with H : report _ _ = _ |- _ => by apply ran_report in H end.
Qed.
End ops.
