(* ===== verification/RfscExec.v ===== *)
(** * RfscExec: executions of a program

    Runs of the trace builder as sequences of calls ([step]), from a fresh trace
    builder or from the prefix of a leaf ([start]); errors are never taken back,
    and every run without errors keeps the invariant. *)

From S2P Require Import Prelude.
From S2P Require Import SatGraph.
From S2P Require Import VClock.
From S2P Require Import CPid.
From S2P Require Import SymAddr.
From S2P Require Import SymEv.
From S2P Require Import TSOState.
From S2P Require Import Unfold.
From S2P Require Import Decision.
From S2P Require Import Rfsc.
From S2P Require Import RfscAnalysis.
From S2P Require Import RfscFormula.
From S2P Require Import RfscTrace.
From S2P Require Import RfscInv.
From S2P Require Import RfscRun.
From S2P Require Import RfscOps.

Implicit Types (s : RFSCTraceBuilder) (b es rest : list Event) (e : Event) (i j k n : nat).

(** ** Errors *)

Definition grows {A} (m : M A) : Prop := forall s x s', m s = Some (x, s') -> errors s `prefix_of` errors s'.

Lemma grows_bind {A B} (m : M A) (k : A -> M B) : grows m -> (forall x, grows (k x)) -> grows (m ≫= k).
Proof. intros Hm Hk s y s' (x & s1 & H1 & H2)%ran_bind. etrans; [by eapply Hm|by eapply Hk]. Qed.
Lemma grows_ret {A} (x : A) : grows (mret x).
Proof. by intros s y s' [_ ->]%ran_ret. Qed.
Lemma grows_gets {A} (f : RFSCTraceBuilder -> A) : grows (gets f).
Proof. by intros s y s' [_ ->]%ran_gets. Qed.
Lemma grows_lift {A} (o : option A) : grows (lift o).
Proof. by intros s y s' [_ ->]%ran_lift. Qed.
Lemma grows_modify f : (forall s, errors s `prefix_of` errors (f s)) -> grows (modify f).
Proof. intros Hf s y s' ->%ran_modify. apply Hf. Qed.
Lemma grows_loop {A St} (l : list A) (body : A -> St -> M St) st : (forall x st, grows (body x st)) -> grows (loop l body st).
Proof. intros Hb. revert st. induction l as [|x l IH]; intros st; [apply grows_ret|]. apply grows_bind; [apply Hb|apply IH]. Qed.

Ltac grows_tac := repeat lazymatch goal with
  | |- grows (mbind _ _) => apply grows_bind; [|intros ?]
  | |- grows (mret _) => apply grows_ret
  | |- grows (gets _) => apply grows_gets
  | |- grows (lift _) => apply grows_lift
  | |- grows (massert _) => apply grows_lift
  | |- grows (modify _) => apply grows_modify; intros ?; first [done | apply prefix_app_r; done]
  | |- grows (each _ _) => apply grows_loop; intros ? ?
  | |- grows (match ?x with _ => _ end) => destruct x
  | |- grows (when ?b _) => destruct b; cbn [when]
  | |- grows (let _ := _ in _) => cbv zeta
  | |- grows ?m => let h := match m with ?f _ _ _ => f | ?f _ _ => f | ?f _ => f | ?f => f end in unfold h
  end.

Lemma grows_schedule conf : grows (schedule conf).
Proof. grows_tac. Qed.
Lemma grows_perform o : grows (perform o).
Proof. destruct o; cbn [perform]; grows_tac. Qed.
Lemma grows_refuse : grows refuse_schedule.
Proof. grows_tac. Qed.
Lemma grows_lock_fail conf ml : grows (mutex_lock_fail conf ml).
Proof. grows_tac. Qed.
Lemma grows_metadata md : grows (metadata md).
Proof. grows_tac. Qed.
Lemma grows_available p : grows (mark_available p).
Proof. grows_tac. Qed.
Lemma grows_unavailable p : grows (mark_unavailable p).
Proof. grows_tac. Qed.

Lemma grows_nil {A} (m : M A) s x s' : grows m -> m s = Some (x, s') -> errors s' = [] -> errors s = [].
Proof. intros Hg H E. specialize (Hg s x s' H). rewrite E in Hg. by apply prefix_nil_inv in Hg. Qed.

Section exec.
Context (mutex_addr : SymAddr -> bool) (conf : Configuration).
Abbreviation inv := (inv mutex_addr).

(** ** Calls that leave the trace as it is *)

Lemma metadata_inv running md s b rest x s' : inv running s b rest -> metadata md s = Some (x, s') -> exists b', inv running s' b' rest.
Proof.
  intros Hi H. unfold metadata in H. ran_inv H. set (s' := with_cur _ _).
  destruct (iv_shape _ _ _ _ _ Hi) as [E|b0 e m rest0 Hp E Hm0]; [cbn in *; lia|].
  assert (Hpos : pos s = length b0) by (unfold pos; lia).
  assert (Ep : prefix s' = b0 ++ set_ev_md md e :: rest0).
  { subst s'. cbn. unfold pos. cbn. fold (pos s). by rewrite Hpos, Hp, (alter_at _ _ _ e), insert_app_mid by by apply list_lookup_middle. }
  set (xm := set_size m (set_ev_md md e)).
  assert (Hag : forall n, agree n (b0 ++ [set_size m e]) (b0 ++ [xm])).
  { intros n i _. destruct (decide (i < length b0)); [by rewrite !lookup_app_l by lia|].
    destruct (decide (i = length b0)) as [->|]; [by rewrite !lookup_mid|].
    by rewrite !lookup_ge_None_2 by (rewrite length_app; simpl; lia). }
  assert (Hat : forall i y, prefix s' !! i = Some y -> exists z, prefix s !! i = Some z /\ iid y = iid z /\ size y = size z /\ effect y = effect z).
  { intros i y. rewrite Ep, Hp. destruct (decide (i = length b0)) as [->|].
    - rewrite !list_lookup_middle by done. intros [= <-]. by exists e.
    - destruct (decide (i < length b0)); [rewrite !lookup_app_l by lia; eauto|]. rewrite !lookup_app_r by lia.
      destruct (i - length b0) eqn:?; [lia|]. simpl. eauto. }
  assert (Hac : acted s' (b0 ++ [xm]) = acted s (b0 ++ [set_size m e])) by (unfold acted; by rewrite !length_app).
  exists (b0 ++ [xm]). split; rewrite ?Hac; try apply Hi.
  - by apply (shape_at _ b0 (set_ev_md md e)).
  - intros Hr. destruct (iv_done _ _ _ _ _ Hi Hr) as [-> Hb]. split; [done|]. rewrite Ep. rewrite Hp in Hb.
    apply app_inj_tail in Hb as [_ Hb]. unfold xm. rewrite set_size_same; [done|]. simpl. by rewrite Hb.
  - apply (numbered_ext (prefix s)); [|apply Hi]. intros i. destruct (prefix s' !! i) as [y|] eqn:Ey.
    + destruct (Hat i y Ey) as (z & -> & E1 & E2 & _). simpl. by rewrite E1, E2.
    + symmetry. apply lookup_ge_None in Ey. rewrite lookup_ge_None_2; [done|]. rewrite Ep in Ey. rewrite Hp.
      rewrite length_app in *. done.
  - eapply linked_ext; [|apply Hi]. intros i. destruct (decide (i < length b0)); [by rewrite !lookup_app_l by lia|].
    destruct (decide (i = length b0)) as [->|]; [by rewrite !lookup_mid|].
    by rewrite !lookup_ge_None_2 by (rewrite length_app; simpl; lia).
  - eapply effects_agree; [apply Hag|apply Hi].
  - intros i y Hy Hr Hge. destruct (Hat i y Hy) as (z & Hz & _ & _ & [= _ -> ->]). by eapply (iv_fresh _ _ _ _ _ Hi).
  - eapply memory_agree; [apply Hag|apply Hi].
  - rewrite last_snoc. intros y [= <-] Hs. apply (iv_conflict _ _ _ _ _ Hi (set_size m e)); [by rewrite last_snoc|done].
  - intros Hr Hrun. destruct (iv_running _ _ _ _ _ Hi Hr Hrun) as (b1 & e1 & Eb & Hs1 & Ht1 & Hq).
    apply app_inj_tail in Eb as [<- <-]. by exists b0, xm.
  - intros Hr Hrun. apply (tight_snoc_same b0 (set_size m e) (fun _ => xm)); [by apply (iv_tight _ _ _ _ _ Hi)|done|done].
  - intros y Hr Hy. destruct rest0 as [|z rest0 _] using rev_ind.
    + rewrite Ep, last_snoc in Hy. injection Hy as <-. apply (iv_last _ _ _ _ _ Hi e Hr). by rewrite Hp, last_snoc.
    + apply (iv_last _ _ _ _ _ Hi y Hr). rewrite Ep in Hy. rewrite Hp. revert Hy. rewrite !app_comm_cons, !app_assoc, !last_snoc. done.
Qed.

Lemma mark_inv running p v s b rest x s' : inv running s b rest ->
  thread_upd p (set_available v) s = Some (x, s') -> inv running s' b rest.
Proof.
  intros Hi H. apply ran_thread_upd in H as (t & _ & _ & ->). by eapply (other_inv _ _ s _ b rest (set_available v)).
Qed.

Lemma lock_fail_inv running ml s b rest x s' : inv running s b rest -> mutex_lock_fail conf ml s = Some (x, s') ->
  inv running s' b rest.
Proof.
  intros Hi H. unfold mutex_lock_fail in H. ran_inv H.
  match goal with E : mutex_get _ _ = _ |- _ => apply ran_mutex_get in E as [-> ->] end.
  eapply (other_inv _ _ s _ b rest id 0); try done. cbn. destruct (threads s) as [|t ts] eqn:E; [done|]. by cbn.
Qed.

(** ** Runs *)

(** The calls of the interpreter: an instruction only after [schedule] has returned
    its thread, and no refusal of an event that is being replayed. *)
Inductive step : bool * RFSCTraceBuilder -> bool * RFSCTraceBuilder -> Prop :=
| step_schedule running s r s' : schedule conf s = Some (r, s') -> step (running, s) (bool_decide (is_Some r), s')
| step_perform o s r s' : op_ok mutex_addr o -> perform o s = Some (r, s') -> step (true, s) (true, s')
| step_refuse s x s' : replay s = false -> refuse_schedule s = Some (x, s') -> step (true, s) (false, s')
| step_available running p s x s' : mark_available p s = Some (x, s') -> step (running, s) (running, s')
| step_unavailable running p s x s' : mark_unavailable p s = Some (x, s') -> step (running, s) (running, s')
| step_metadata running md s x s' : metadata md s = Some (x, s') -> step (running, s) (running, s')
| step_lock_fail running ml s x s' : mutex_lock_fail conf ml s = Some (x, s') -> step (running, s) (running, s').

(** A fresh trace builder, or the prefix that a leaf left for the replay. *)
Record start s : Prop := {
  st_threads : threads s = [Thread_new CPid_root (-1)];
  st_mem : mem s = ∅;
  st_mutexes : mutexes s = ∅;
  st_idx : prefix_idx s = (-1)%Z;
  st_live : cancelled s = false;
  st_replay : replay s = false -> prefix s = [];
  st_numbered : numbered (prefix s);
  st_fresh i e : prefix s !! i = Some e -> read_from e = None /\ happens_after e = [];
  st_last e : last (prefix s) = Some e -> ev_empty (sym e) = false;
}.

Lemma new_start dt ut : start (RFSCTraceBuilder_new dt ut).
Proof. split; try done; by intros. Qed.

Lemma start_inv s : start s -> inv false s [] (prefix s).
Proof.
  intros []. assert (Ha : acted s [] = 0) by (unfold acted; by destruct (_ && _)).
  split; rewrite ?Ha; try done.
  - by apply shape_start.
  - intros Hr. by rewrite st_replay0.
  - rewrite st_threads0. split; [|done]. intros [|n] t Ht; simplify_eq/=; done.
  - intros i e He _ _. by eapply st_fresh0.
  - rewrite st_mem0, st_mutexes0. split; [|intros; lia|].
    + intros a z Hz. by rewrite lookup_empty in Hz.
    + intros a _. by rewrite lookup_empty.
  - intros _ _ b0 e' e E. by destruct b0.
  - intros e _. apply st_last0.
Qed.

Lemma step_inv x y : step x y -> errors y.2 = [] -> errors x.2 = [] /\
  forall b rest, inv x.1 x.2 b rest -> exists b' rest', inv y.1 y.2 b' rest'.
Proof.
  intros H Hy. destruct H as [running s r s' H|o s r s' Hok H|s u s' Hr H|running p s u s' H|running p s u s' H|running md s u s' H|running ml s u s' H];
    simpl in *.
  - pose proof (grows_nil _ _ _ _ (grows_schedule conf) H Hy) as Hx. split; [done|]. intros b rest Hi.
    by destruct (schedule_inv _ _ _ _ _ _ _ _ Hi Hx H) as (_ & _ & ?).
  - split; [by eapply grows_nil; [apply grows_perform| |]|]. intros b rest Hi.
    destruct (perform_inv _ _ _ _ _ _ _ Hi Hok H Hy) as [b' Hi']. eauto.
  - split; [by eapply grows_nil; [apply grows_refuse| |]|]. intros b rest Hi.
    destruct (refuse_inv _ _ _ _ _ _ Hi Hr H) as (_ & b' & Hi'). eauto.
  - split; [by eapply grows_nil; [apply grows_available| |]|]. intros b rest Hi.
    unfold mark_available in H. ran_inv H. exists b, rest. by eapply mark_inv.
  - split; [by eapply grows_nil; [apply grows_unavailable| |]|]. intros b rest Hi.
    unfold mark_unavailable in H. ran_inv H. exists b, rest. by eapply mark_inv.
  - split; [by eapply grows_nil; [apply grows_metadata| |]|]. intros b rest Hi.
    destruct (metadata_inv _ _ _ _ _ _ _ Hi H) as [b' Hi']. eauto.
  - split; [by eapply grows_nil; [apply grows_lock_fail| |]|]. intros b rest Hi. exists b, rest. by eapply lock_fail_inv.
Qed.

Lemma run_inv s0 running s : start s0 -> rtc step (false, s0) (running, s) -> errors s = [] ->
  exists b rest, inv running s b rest.
Proof.
  intros Hs Hrun He. revert He.
  refine (rtc_ind_r (fun x => errors x.2 = [] -> exists b rest, inv x.1 x.2 b rest) (false, s0) _ _ (running, s) Hrun).
  - intros _. simpl. exists [], (prefix s0). by apply start_inv.
  - intros x y _ Hst IH Hy. destruct (step_inv x y Hst Hy) as [Hx Hpres]. destruct (IH Hx) as (b & rest & Hi). by eapply Hpres.
Qed.

(** A run that ended. *)
Lemma run_recorded s0 running s s' : start s0 -> rtc step (false, s0) (running, s) -> schedule conf s = Some (None, s') ->
  errors s' = [] -> recorded (threads s') (prefix s').
Proof.
  intros Hs Hrun Hend He. pose proof (grows_nil _ _ _ _ (grows_schedule conf) Hend He) as He'.
  destruct (run_inv s0 running s Hs Hrun He') as (b & rest & Hi).
  destruct (schedule_inv _ _ _ _ _ _ _ _ Hi He' Hend) as (_ & Hr & b' & rest' & Hi'). specialize (Hr eq_refl).
  destruct (iv_done _ _ _ _ _ Hi' Hr) as [-> Hp]. pose proof (acted_done s' b' Hr) as Ha. rewrite Hp. split.
  - rewrite <-Hp. apply Hi'.
  - apply Hi'.
  - rewrite <-Ha. apply Hi'.
Qed.
End exec.
