(* ===== verification/RfscReplay.v ===== *)
(** * RfscReplay: a leaf replays the events of its order; changing the outcome of a
      compare-exchange and back

    [order_to_leaf] makes the branches of a leaf from the events of an order, and
    [reset] makes a prefix of them: its events have the identifiers of the events
    they replay.

    [recompute_cmpxhg_success] gives a compare-exchange or a trylock the outcome
    that fits what it reads from, in the trace and in the list of writes to its
    address; [undo_cmpxhg_recomputation] puts both back as they were. *)

From S2P Require Import Prelude.
From S2P Require Import SatGraph.
From S2P Require Import VClock.
From S2P Require Import CPid.
From S2P Require Import SymAddr.
From S2P Require Import SymEv.
From S2P Require Import Unfold.
From S2P Require Import Decision.
From S2P Require Import Rfsc.
From S2P Require Import RfscAnalysis.
From S2P Require Import RfscExplore.
From S2P Require Import RfscPast.
From S2P Require Import RfscFormula.
From S2P Require Import RfscTrace.
From S2P Require Import RfscInv.
From S2P Require Import RfscRun.
From S2P Require Import RfscOps.
From S2P Require Import RfscExec.

Implicit Types (es : list Event) (e : Event) (i j k n q : nat) (bs : list Branch).

(** ** The prefix of a leaf *)

Definition total bs : Z := foldr (fun b z => (b_size b + z)%Z) 0%Z bs.

(** [m] has the index of the next event of every process after [es]. *)
Definition counts (m : list Z) es : Prop := forall p, (0 <= p)%Z ->
  match m !! Z.to_nat p with Some x => x | None => 1%Z end = Z.of_nat (S (length (slots es p))).

Record branch_ok (d : Z) (b : Branch) : Prop := {
  bo_pid : (0 <= b_pid b)%Z;
  bo_size : (0 < b_size b)%Z;
  bo_depth : (-1 <= b_decision_depth b <= d)%Z;
}.

(** The event a branch replays as. *)
Record replays (b : Branch) e : Prop := {
  rp_pid : pid e = b_pid b;
  rp_size : size e = b_size b;
  rp_sym : sym e = b_sym b;
  rp_pinned : pinned e = b_pinned b;
  rp_depth : decision_depth e = b_decision_depth b;
  rp_fresh : read_from e = None /\ happens_after e = [];
}.

Lemma counts_step m es e : counts m es -> (0 <= pid e)%Z -> (0 < size e)%Z ->
  exists m', iid_map_step m e = Some m' /\ counts m' (es ++ [e]).
Proof.
  intros Hm Hp Hs. unfold iid_map_step.
  set (m1 := if decide _ then _ else m).
  assert (Hlen : Z.to_nat (pid e) < length m1).
  { subst m1. case_decide; [rewrite length_resize; lia|lia]. }
  assert (H1 : counts m1 es).
  { intros p Hp'. rewrite <-(Hm p Hp'). subst m1. case_decide as Hd; [|done].
    destruct (decide (Z.to_nat p < length m)) as [Hlt|Hge].
    - rewrite lookup_resize by lia. done.
    - rewrite (lookup_ge_None_2 m) by lia. destruct (decide (Z.to_nat p < Z.to_nat (pid e + 1))).
      + by rewrite lookup_resize_new by lia.
      + by rewrite lookup_resize_old by lia. }
  destruct (lookup_lt_exists m1 _ Hlen) as [x Hx]. unfold zget, zset. rewrite !decide_True, Hx by done. cbn [mbind option_bind].
  rewrite decide_True, vset_Some by done. eexists. split; [done|]. intros p Hp'. rewrite slots_snoc, length_app.
  specialize (H1 p Hp') as H2. destruct (decide (pid e = p)) as [<-|Hne].
  - rewrite list_lookup_insert_eq by done. rewrite Hx in H2. rewrite length_replicate. lia.
  - rewrite list_lookup_insert_ne by lia. simpl. rewrite H2. lia.
Qed.

Section leaf.
Context (t : dtree) (Htree : tree_ok t) (item : nat) (nd : DecisionNode) (Hitem : dnodes t !! item = Some nd).

Lemma branch_event_ok m es b : counts m es -> branch_ok (depth nd) b -> (Z.of_nat (length (slots es (b_pid b))) < 2 ^ 31)%Z ->
  exists e, branch_event t item m b = Some e /\ replays b e /\ index e = Z.of_nat (S (length (slots es (b_pid b)))) /\
    (forall n, decision_ptr e = Some n -> exists md, dnodes t !! n = Some md /\ depth md = decision_depth e).
Proof.
  intros Hm [Hp Hs Hd] Hb. unfold branch_event.
  assert (Hidx : (if decide (Z.of_nat (length m) <= b_pid b)%Z then Some 1%Z else zget m (b_pid b)) =
    Some (Z.of_nat (S (length (slots es (b_pid b)))))).
  { specialize (Hm _ Hp). case_decide as Hlen.
    - rewrite lookup_ge_None_2 in Hm by lia. by rewrite Hm.
    - unfold zget. rewrite decide_True by done. destruct (lookup_lt_exists m (Z.to_nat (b_pid b))) as [x Hx]; [lia|].
      rewrite Hx in Hm |- *. by rewrite Hm. }
  rewrite Hidx. cbn [mbind option_bind]. unfold iid_make. rewrite bool_decide_true by lia. cbn [cassert mbind option_bind].
  rewrite wrapu_id by (change (2 ^ 32)%Z with 4294967296%Z; change (2 ^ 31)%Z with 2147483648%Z in Hb; lia).
  clear Hidx. destruct (decide (b_decision_depth b = (-1)%Z)) as [Hdd|Hdd]; cbn [mbind option_bind].
  - eexists. split; [done|]. split_and!; [by split|done|done].
  - destruct (find_ancestor_spec t Htree item nd (b_decision_depth b) Hitem) as (n & md & -> & Hn & En & _); [lia|].
    cbn [mbind option_bind]. eexists. split; [done|]. split_and!; [by split|done|]. intros n' [= <-]. by exists md.
Qed.

(** The events of the branches continue the events before. *)
Lemma leaf_events_ok bs : forall m es, numbered es -> counts m es -> Forall (branch_ok (depth nd)) bs ->
  (forall p, Z.of_nat (length (slots es p)) + total bs < 2 ^ 31)%Z ->
  exists es', leaf_events t item m bs = Some es' /\ numbered (es ++ es') /\ Forall2 replays bs es' /\
    Forall (fun e => forall n, decision_ptr e = Some n -> exists md, dnodes t !! n = Some md /\ depth md = decision_depth e) es'.
Proof.
  induction bs as [|b bs IH]; intros m es Hn Hm Hbs Hb.
  { exists []. rewrite app_nil_r. by split_and!. }
  apply Forall_cons in Hbs as [Hbo Hbs]. cbn [leaf_events total foldr] in *. fold (total bs) in Hb.
  assert (Htot : (0 <= total bs)%Z).
  { clear -Hbs. induction Hbs as [|b bs [] _ IH]; [done|]. cbn. fold (total bs). lia. }
  pose proof (bo_size _ _ Hbo). destruct (branch_event_ok m es b Hm Hbo) as (e & -> & Hr & Hi & Hptr); [specialize (Hb (b_pid b)); lia|].
  cbn [mbind option_bind]. pose proof (rp_pid _ _ Hr) as Hpe. pose proof (rp_size _ _ Hr) as Hse. pose proof (bo_pid _ _ Hbo).
  destruct (counts_step m es e Hm) as (m' & -> & Hm'); [lia|lia|]. cbn [mbind option_bind].
  destruct (IH m' (es ++ [e])) as (es' & -> & Hn' & Hr' & Hptrs); [|done|done| |].
  - apply numbered_snoc; [done|lia|lia|]. by rewrite Hpe.
  - intros p. rewrite slots_snoc, length_app. specialize (Hb p). case_decide; [rewrite length_replicate; lia|simpl; lia].
  - cbn [mbind option_bind]. exists (e :: es'). rewrite <-app_assoc in Hn'. split_and!; [done|done|by constructor|by constructor].
Qed.
End leaf.

(** ** Orders *)

Lemma numbered_nil : numbered [].
Proof. by split. Qed.

(** Two events of a process without another between are next to each other. *)
Lemma index_next es k i ek e : numbered es -> es !! k = Some ek -> es !! i = Some e -> pid ek = pid e -> k < i ->
  (forall j ej, k < j < i -> es !! j = Some ej -> pid ej <> pid e) -> index e = (index ek + size ek)%Z.
Proof.
  intros Hn Hk Hi Hp Hlt Hno. pose proof (index_mono es Hn k i ek e Hk Hi Hp Hlt) as Hle.
  pose proof (index_pos es Hn k ek Hk). pose proof (nb_size es Hn k ek Hk).
  destruct (step_before es Hn i e Hi) as (j & ej & Hj & Hpj & Hji & Hsum); [lia|].
  destruct (Nat.lt_trichotomy j k) as [Hjk|[->|Hjk]].
  - pose proof (index_mono es Hn j k ej ek Hj Hk ltac:(congruence) Hjk). lia.
  - simplify_eq. lia.
  - by destruct (Hno j ej ltac:(lia) Hj).
Qed.

Section order.
Context (ts : list Thread) (es : list Event) (keep : list bool) (o : list nat).
Context (Hkeep : length keep = length es) (Hnum : numbered es) (Hlink : linked ts es) (Ho : sc_execution ts es keep o).

Lemma in_order q i e : o !! q = Some i -> es !! i = Some e -> index e <> 1%Z ->
  exists q' k ek, q' < q /\ o !! q' = Some k /\ es !! k = Some ek /\ pid ek = pid e /\ k < i /\
    (index ek + size ek = index e)%Z /\ po_pred ts es i = Some (Some k).
Proof.
  intros Hq He H1. destruct (po_pred_next ts es Hnum Hlink i e He H1) as (k & ek & Hpo & Hk & Hp & Hki & Hsum).
  pose proof (sc_po _ _ _ _ Ho q i k Hq Hpo) as Hin. unfold earlier in Hin.
  apply elem_of_take in Hin as (q' & Hq' & Hlt). exists q', k, ek. by split_and!.
Qed.

(** The events before one in its process come before it in the order. *)
Lemma process_order i : forall q k e ek, o !! q = Some i -> es !! i = Some e -> es !! k = Some ek -> pid ek = pid e -> k < i ->
  exists q', q' < q /\ o !! q' = Some k.
Proof.
  induction i as [i IH] using lt_wf_ind. intros q k e ek Hq He Hk Hp Hki.
  pose proof (index_mono es Hnum k i ek e Hk He Hp Hki) as Hle. pose proof (index_pos es Hnum k ek Hk). pose proof (nb_size es Hnum k ek Hk).
  destruct (in_order q i e Hq He) as (q1 & j & ej & Hq1 & Hoj & Hj & Hpj & Hji & Hsum & _); [lia|].
  destruct (Nat.lt_trichotomy k j) as [Hkj|[->|Hjk]].
  - destruct (IH j Hji q1 k ej ek Hoj Hj Hk ltac:(congruence) Hkj) as (q' & ? & ?). exists q'. split; [lia|done].
  - by exists q1.
  - pose proof (index_mono es Hnum j k ej ek Hj Hk ltac:(congruence) Hjk). lia.
Qed.

(** A prefix with the processes of the order, and the sizes of all events that are
    not last in their process, has the identifiers of the events. *)
Lemma same_ids es' : numbered es' ->
  (forall q i e e', o !! q = Some i -> es !! i = Some e -> es' !! q = Some e' -> pid e' = pid e /\
    (size e' = size e \/ forall j, kept keep j = true -> po_pred ts es j <> Some (Some i))) -> length es' = length o ->
  forall q i e e', o !! q = Some i -> es !! i = Some e -> es' !! q = Some e' -> iid e' = iid e.
Proof.
  intros Hn' Hsame Hlen q. induction q as [q IH] using lt_wf_ind. intros i e e' Hq He He'.
  destruct (Hsame q i e e' Hq He He') as [Hp _].
  assert (Hx : index e' = index e); [|destruct (iid e'), (iid e); simpl in *; congruence].
  (* an event of the process at an earlier place is one before *)
  assert (Hearlier : forall r er', r < q -> es' !! r = Some er' -> pid er' = pid e' ->
    exists k ek, o !! r = Some k /\ es !! k = Some ek /\ pid ek = pid e /\ k < i).
  { intros r er' Hr Her' Hpr. destruct (lookup_lt_exists o r) as [k Hk]; [apply lookup_lt_Some in Her'; lia|].
    assert (Hin : kept keep k = true) by (apply (sc_events _ _ _ _ Ho); by eapply list_elem_of_lookup_2).
    destruct (lookup_lt_exists es k) as [ek Hek]; [by apply (kept_lt es keep Hkeep)|].
    destruct (Hsame r k ek er' Hk Hek Her') as [Hpk _]. exists k, ek. split_and!; [done|done|congruence|].
    destruct (Nat.lt_trichotomy k i) as [?|[->|Hik]]; [done|pose proof (NoDup_lookup _ _ _ _ (sc_nodup _ _ _ _ Ho) Hk Hq); lia|].
    destruct (process_order k r i ek e Hk Hek He ltac:(congruence) Hik) as (r' & Hr' & Hor').
    pose proof (NoDup_lookup _ _ _ _ (sc_nodup _ _ _ _ Ho) Hor' Hq). lia. }
  destruct (decide (index e = 1%Z)) as [H1|H1].
  - rewrite H1. apply dec_stable. intros Hne. destruct (step_before es' Hn' q e' He' Hne) as (r & er' & Her' & Hpr & Hr & _).
    destruct (Hearlier r er' Hr Her' Hpr) as (k & ek & _ & Hek & Hpk & Hki).
    pose proof (index_mono es Hnum k i ek e Hek He Hpk Hki). pose proof (index_pos es Hnum k ek Hek). pose proof (nb_size es Hnum k ek Hek). lia.
  - destruct (in_order q i e Hq He H1) as (r & k & ek & Hr & Hok & Hek & Hpk & Hki & Hsum & Hpo).
    destruct (lookup_lt_exists es' r) as [er' Her']; [apply lookup_lt_Some in Hok; lia|].
    destruct (Hsame r k ek er' Hok Hek Her') as [Hpr Hsz]. pose proof (IH r Hr k ek er' Hok Hek Her') as Hid.
    assert (Hi : kept keep i = true) by (apply (sc_events _ _ _ _ Ho); by eapply list_elem_of_lookup_2).
    destruct Hsz as [Hsz|Hno]; [|by destruct (Hno i Hi)].
    rewrite (index_next es' r q er' e' Hn' Her' He'); [rewrite Hid, Hsz; done|congruence|done|].
    intros j ej Hj Hej Hpj. destruct (Hearlier j ej ltac:(lia) Hej Hpj) as (k2 & ek2 & Hok2 & Hek2 & Hpk2 & Hk2).
    destruct (Nat.lt_trichotomy k2 k) as [Hlt|[->|Hlt]].
    + destruct (process_order k r k2 ek ek2 Hok Hek Hek2 ltac:(congruence) Hlt) as (r' & Hr' & Hor').
      pose proof (NoDup_lookup _ _ _ _ (sc_nodup _ _ _ _ Ho) Hor' Hok2). lia.
    + pose proof (NoDup_lookup _ _ _ _ (sc_nodup _ _ _ _ Ho) Hok Hok2). lia.
    + pose proof (index_mono es Hnum k k2 ek ek2 Hek Hek2 ltac:(congruence) Hlt).
      pose proof (index_mono es Hnum k2 i ek2 e Hek2 He Hpk2 Hk2). pose proof (nb_size es Hnum k2 ek2 Hek2). lia.
Qed.
End order.

(** ** The round trip *)

Lemma order_to_leaf_eq es decision changed o : (forall i, i ∈ o -> i < length es) ->
  exists bs, order_to_leaf es decision changed o = Some (Leaf_of bs) /\ length bs = length o /\
    forall q i e b, o !! q = Some i -> es !! i = Some e -> bs !! q = Some b -> leaf_branch es decision changed i = Some b.
Proof.
  intros Hlt. unfold order_to_leaf.
  assert (H : exists bs, mapM (leaf_branch es decision changed) o = Some bs /\ Forall2 (fun i b => leaf_branch es decision changed i = Some b) o bs).
  { induction o as [|i o IH]; [by exists []|]. destruct (lookup_lt_exists es i) as [e He]; [apply Hlt; by left|].
    destruct IH as (bs & E & Hf); [intros j Hj; apply Hlt; by right|].
    assert (Hb : exists b, leaf_branch es decision changed i = Some b) by (unfold leaf_branch; rewrite He; cbn [mbind option_bind]; eauto).
    destruct Hb as [b Hb]. exists (b :: bs). cbn. rewrite Hb. cbn. rewrite E. split; [done|]. by constructor. }
  destruct H as (bs & -> & Hf). cbn [mbind option_bind]. exists bs. split; [done|]. split; [symmetry; by eapply Forall2_length|].
  intros q i e b Hq _ Hb. destruct (Forall2_lookup_l _ _ _ _ _ Hf Hq) as (b' & Hb' & H). by simplify_eq.
Qed.

(** What is right before an event of an execution comes before it there. *)
Lemma before_earlier ts es keep o q j i : reads_wf es -> sc_execution ts es keep o -> o !! q = Some j -> before ts es j i ->
  earlier o q i.
Proof.
  intros Hreads Ho Hq (l & El & Hi). unfold past_of in El. destruct (es !! j) as [e|] eqn:He; simpl in El; [|done].
  destruct (po_pred ts es j) as [p|] eqn:Ep; simpl in El; [|done]. injection El as <-. rewrite !elem_of_app in Hi.
  destruct Hi as [Hi|[Hi|Hi]].
  - destruct (read_from e) as [w|] eqn:Ew; [|by apply not_elem_of_nil in Hi].
    case_decide as Hw; [|by apply not_elem_of_nil in Hi]. apply list_elem_of_singleton in Hi as ->.
    destruct (rw_addr es Hreads j e w He Ew) as (a & Ha & _ & [?|(n & -> & _)]); [done|].
    pose proof (sc_reads _ _ _ _ Ho q j e _ a Hq He Ew Ha) as Hl. rewrite Nat2Z.id.
    apply last_writer_some in Hl as (r & Hr & _); [by eapply list_elem_of_lookup_2|].
    apply NoDup_take_prefix, Ho.
  - by eapply (sc_after _ _ _ _ Ho).
  - destruct p as [p|]; simpl in Hi; [|by apply not_elem_of_nil in Hi]. apply list_elem_of_singleton in Hi as ->.
    by eapply (sc_po _ _ _ _ Ho).
Qed.

(** The last event of an order of the causal past of decisions is one of them. *)
Lemma last_decided ts es keep o d q i : reads_wf es -> sc_execution ts es keep o ->
  (forall k, kept keep k = true <-> exists r, decided es d r /\ rtc (before ts es) r k) ->
  o !! q = Some i -> S q = length o -> decided es d i.
Proof.
  intros Hreads Ho Hkeep Hq Hlast.
  assert (Hi : kept keep i = true) by (apply (sc_events _ _ _ _ Ho); by eapply list_elem_of_lookup_2).
  apply Hkeep in Hi as (r & Hr & Hpath). apply rtc_inv_r in Hpath as [<-|(j & Hrj & Hji)]; [done|exfalso].
  assert (Hj : j ∈ o) by (apply (sc_events _ _ _ _ Ho), Hkeep; by exists r).
  apply list_elem_of_lookup_1 in Hj as [q' Hq']. pose proof (before_earlier _ _ _ _ _ _ _ Hreads Ho Hq' Hji) as Hin.
  apply elem_of_take in Hin as (q2 & Hq2 & Hlt). pose proof (NoDup_lookup _ _ _ _ (sc_nodup _ _ _ _ Ho) Hq Hq2).
  apply lookup_lt_Some in Hq'. lia.
Qed.

(** ** [reset] *)

Lemma bind_eq {A B} (m : M A) (k : A -> M B) s x s1 : m s = Some (x, s1) -> (m ≫= k) s = k x s1.
Proof. intros H. unfold mbind, M_bind. by rewrite H. Qed.

(** What [reset] leaves of the state. *)
Record reset_to s s' (es : list Event) : Prop := {
  rt_threads : threads s' = [Thread_new CPid_root (-1)];
  rt_mem : mem s' = ∅;
  rt_mutexes : mutexes s' = ∅;
  rt_idx : prefix_idx s' = (-1)%Z;
  rt_live : cancelled s' = false;
  rt_replay : replay s' = true;
  rt_prefix : prefix s' = es;
  rt_errors : errors s' = errors s;
}.

Lemma reset_eq s item nd bs es : dnodes (decision_tree s) !! item = Some nd -> is_pruned (decision_tree s) item = Some false ->
  leaf_prefix (leaf nd) = bs -> is_bottom (leaf nd) = false -> bs <> [] -> (0 <= depth nd)%Z ->
  leaf_events (set_dnodes (<[item := take_leaf nd]> (dnodes (decision_tree s))) (decision_tree s)) item [] bs = Some es ->
  (forall d, (0 <= d < depth nd)%Z -> exists e, e ∈ es /\ decision_depth e = d) ->
  exists s', reset [item] s = Some (true, s') /\ reset_to s s' es.
Proof.
  intros Hn Hpr Hl Hbot Hne Hd Hes Hlev. eexists. split.
  - unfold reset. erewrite bind_eq by reflexivity. erewrite bind_eq by (unfold lift, next_item; by rewrite Hpr).
    erewrite bind_eq by reflexivity. cbn [fst snd]. erewrite bind_eq by (unfold lift; cbn; by rewrite Hn).
    erewrite bind_eq by (unfold massert, lift; rewrite Hbot; reflexivity).
    erewrite bind_eq by (unfold massert, lift; rewrite Hl, !bool_decide_false by (done || lia); reflexivity).
    erewrite bind_eq by (unfold lift; cbn in Hes |- *; rewrite Hl, Hes; reflexivity).
    erewrite bind_eq.
    2: { unfold massert, lift. rewrite (proj2 (forallb_forall _ _)); [reflexivity|]. intros d Hin%list_elem_of_In.
      apply elem_of_seq in Hin. destruct (Hlev (Z.of_nat d)) as (e & He & Ed); [lia|]. apply existsb_exists. exists e.
      split; [by apply list_elem_of_In|by apply bool_decide_true]. }
    erewrite bind_eq by reflexivity. reflexivity.
  - by split.
Qed.

(** ** From an order to the replay *)

(** A replayed event is the event of the order it stands for. *)
Record replayed (d : Z) e e' : Prop := {
  re_iid : iid e' = iid e;
  re_sym : sym e' = sym e;
  re_depth : decision_depth e' = if decide (decision_depth e > d)%Z then (-1)%Z else decision_depth e;
  re_pinned : pinned e' = pinned e || bool_decide (decision_depth e > d)%Z;
}.

Section replay.
Context (ts : list Thread) (es : list Event) (keep : list bool) (o changed : list nat).
Context (t : dtree) (item : nat) (nd : DecisionNode).
Context (Hpast : past_ok ts es) (Hdec : decisions_ok es) (Hreads : reads_wf es) (Hnum : numbered es) (Hlink : linked ts es).
Context (Hkeep : causal_past ts es (depth nd) = Some keep) (Ho : sc_execution ts es keep o).
Context (Htree : tree_ok t) (Hitem : dnodes t !! item = Some nd) (Hdepth : (0 <= depth nd)%Z).
Context (Hlow : forall i e, es !! i = Some e -> (-1 <= decision_depth e)%Z).
Context (Hlevels : forall d, (0 <= d <= depth nd)%Z -> exists i e, es !! i = Some e /\ decision_depth e = d).
Context (Hchanged : forall i j, i ∈ changed -> kept keep j = true -> po_pred ts es j <> Some (Some i)).

Lemma keep_spec : length keep = length es /\
  forall k, kept keep k = true <-> exists r, decided es (depth nd) r /\ rtc (before ts es) r k.
Proof.
  destruct (causal_past_spec ts es (depth nd) Hpast Hdec) as (acc & E & Hlen & Hacc). rewrite Hkeep in E. injection E as <-.
  split; [done|]. intros k. rewrite <-Hacc. unfold marked, kept. destruct (keep !! k) as [[]|]; naive_solver.
Qed.

Lemma order_lt i : i ∈ o -> i < length es.
Proof. intros Hi%(sc_events _ _ _ _ Ho). by apply (kept_lt es keep (proj1 keep_spec)). Qed.

Lemma branches : exists bs, order_to_leaf es (depth nd) changed o = Some (Leaf_of bs) /\ length bs = length o /\
  Forall (branch_ok (depth nd)) bs /\
  forall es', numbered es' -> Forall2 replays bs es' -> forall q i e, o !! q = Some i -> es !! i = Some e ->
    exists e', es' !! q = Some e' /\ replayed (depth nd) e e' /\ read_from e' = None /\ happens_after e' = [].
Proof.
  destruct (order_to_leaf_eq es (depth nd) changed o order_lt) as (bs & E & Hlen & Hbs). exists bs.
  assert (Hat : forall q b, bs !! q = Some b -> exists i e, o !! q = Some i /\ es !! i = Some e /\ leaf_branch es (depth nd) changed i = Some b).
  { intros q b Hb. destruct (lookup_lt_exists o q) as [i Hi]; [apply lookup_lt_Some in Hb; lia|].
    destruct (lookup_lt_exists es i) as [e He]; [apply order_lt; by eapply list_elem_of_lookup_2|]. exists i, e. eauto. }
  split_and!; [done|done| |].
  - apply Forall_lookup. intros q b Hb. destruct (Hat q b Hb) as (i & e & _ & He & Hlb).
    unfold leaf_branch in Hlb. rewrite He in Hlb. cbn [mbind option_bind] in Hlb. injection Hlb as <-.
    pose proof (nb_pid es Hnum i e He). pose proof (nb_size es Hnum i e He). specialize (Hlow i e He).
    split; cbn; [done| |].
    + by destruct (bool_decide _).
    + destruct (bool_decide_reflect (decision_depth e > depth nd)%Z); lia.
  - intros es' Hn' Hf. pose proof (Forall2_length _ _ _ Hf) as Hlen'.
    assert (Hev : forall q i e e', o !! q = Some i -> es !! i = Some e -> es' !! q = Some e' ->
      exists b, leaf_branch es (depth nd) changed i = Some b /\ replays b e').
    { intros q i e e' Hq He He'. destruct (Forall2_lookup_r _ _ _ _ _ Hf He') as (b & Hb & Hr). exists b. split; [by eapply Hbs|done]. }
    assert (Hsame : forall q i e e', o !! q = Some i -> es !! i = Some e -> es' !! q = Some e' -> pid e' = pid e /\
      (size e' = size e \/ forall j, kept keep j = true -> po_pred ts es j <> Some (Some i))).
    { intros q i e e' Hq He He'. destruct (Hev q i e e' Hq He He') as (b & Hb & [Hp Hs _ _ _ _]).
      unfold leaf_branch in Hb. rewrite He in Hb. cbn [mbind option_bind] in Hb. injection Hb as <-. cbn in Hp, Hs.
      split; [done|]. case_bool_decide as Hc; [|by left]. right. intros j Hj. by apply Hchanged. }
    intros q i e Hq He. destruct (lookup_lt_exists es' q) as [e' He']; [apply lookup_lt_Some in Hq; lia|]. exists e'. split; [done|].
    pose proof (same_ids ts es keep o (proj1 keep_spec) Hnum Hlink Ho es' Hn' Hsame ltac:(lia) q i e e' Hq He He') as Hid.
    destruct (Hev q i e e' Hq He He') as (b & Hb & [_ _ Hsy Hpi Hd Hfr]).
    unfold leaf_branch in Hb. rewrite He in Hb. cbn [mbind option_bind] in Hb. injection Hb as <-. cbn in Hsy, Hpi, Hd.
    split; [|done]. split; [done|done| |done]. rewrite Hd. case_bool_decide; by case_decide.
Qed.

(** The order of an execution becomes a leaf, and a trace builder that dequeues it
    starts with events of the same identifiers. *)
Lemma order_replayed : exists bs, order_to_leaf es (depth nd) changed o = Some (Leaf_of bs) /\
  forall s, decision_tree s = t -> leaf nd = leaf_copy (leaf_copy (Leaf_of bs)) -> is_pruned t item = Some false ->
    (total bs < 2 ^ 31)%Z ->
    exists s', reset [item] s = Some (true, s') /\ start s' /\ replay s' = true /\ errors s' = errors s /\
      length (prefix s') = length o /\
      forall q i e, o !! q = Some i -> es !! i = Some e -> exists e', prefix s' !! q = Some e' /\ replayed (depth nd) e e'.
Proof.
  destruct branches as (bs & E & Hlen & Hok & Hall). exists bs. split; [done|]. intros s Ht Hleaf Hpr Htot.
  set (t' := set_dnodes (<[item := take_leaf nd]> (dnodes t)) t).
  assert (Htree' : tree_ok t') by by eapply update_ok.
  assert (Hitem' : dnodes t' !! item = Some (take_leaf nd)) by (cbn; by rewrite lookup_insert_eq).
  destruct (leaf_events_ok t' Htree' item (take_leaf nd) Hitem' bs [] []) as (es' & Hes & Hn' & Hf & _); try done.
  simpl in Hn'. pose proof (Forall2_length _ _ _ Hf) as Hlen'. specialize (Hall es' Hn' Hf).
  assert (Hdecd : forall d, (0 <= d <= depth nd)%Z -> exists q i e, o !! q = Some i /\ es !! i = Some e /\ decision_depth e = d).
  { intros d Hd. destruct (Hlevels d Hd) as (i & e & He & Ed).
    assert (Hin : i ∈ o). { apply (sc_events _ _ _ _ Ho), keep_spec. exists i. split; [|done]. exists e. split_and!; [done|lia|lia]. }
    apply list_elem_of_lookup_1 in Hin as [q Hq]. by exists q, i, e. }
  assert (Hne : bs <> []).
  { intros ->. destruct (Hdecd 0%Z) as (q & i & e & Hq & _); [lia|]. destruct o; [done|]. done. }
  destruct (reset_eq s item nd bs es') as (s' & Hr & [Rt Rm Rx Ri Rl Rr Rp Re]); rewrite ?Ht; try done.
  - by rewrite Hleaf.
  - rewrite Hleaf. unfold is_bottom. cbn. by destruct bs.
  - intros d Hd. destruct (Hdecd d) as (q & i & e & Hq & He & Ed); [lia|]. destruct (Hall q i e Hq He) as (e' & He' & Hrep & _).
    exists e'. split; [by eapply list_elem_of_lookup_2|]. rewrite (re_depth _ _ _ Hrep), decide_False by lia. done.
  - assert (Hback : forall q e', es' !! q = Some e' -> exists i e, o !! q = Some i /\ es !! i = Some e).
    { intros q e' He'. destruct (lookup_lt_exists o q) as [i Hi]; [apply lookup_lt_Some in He'; lia|].
      destruct (lookup_lt_exists es i) as [e He]; [apply order_lt; by eapply list_elem_of_lookup_2|]. by exists i, e. }
    exists s'. split_and!; [done| |done|done|rewrite Rp; lia|].
    + split; rewrite ?Rp; try done; try congruence.
      * intros q e' He'. destruct (Hback q e' He') as (i & e & Hq & He). destruct (Hall q i e Hq He) as (e2 & He2 & _ & Hfr). by simplify_eq.
      * intros e' Hl. rewrite last_lookup in Hl. destruct (Hback _ e' Hl) as (i & e & Hq & He).
        destruct (Hall _ i e Hq He) as (e2 & He2 & Hrep & _). rewrite Hl in He2. injection He2 as <-. rewrite (re_sym _ _ _ Hrep).
        assert (Hld : decided es (depth nd) i).
        { eapply last_decided; [done|done|apply keep_spec|exact Hq|]. destruct es'; [done|]. simpl in *. lia. }
        destruct Hld as (x & Hx & Hd1 & Hd2). rewrite He in Hx. injection Hx as <-.
        destruct (Hdec i e He) as [_ Hload]. assert (Hl' : sym_is_load (sym e) = true) by (apply Hload; by left).
        destruct (ev_empty (sym e)) eqn:Ee; [|done]. apply empty_kind in Ee as [Ee _]. congruence.
    + intros q i e Hq He. destruct (Hall q i e Hq He) as (e' & He' & Hrep & _). exists e'. by rewrite Rp.
Qed.
End replay.

(** * Changing the outcome of a compare-exchange and back *)

Local Open Scope Z_scope.

Implicit Types (l : list Z).

(** ** Deleting from the back *)

Lemma find_back_spec l v n : (n <= length l)%nat -> v ∈ take n l ->
  exists i, find_back l v n = Some i /\ (i < n)%nat /\ l !! i = Some v.
Proof.
  induction n as [|n IH]; intros Hn Hv; [by apply not_elem_of_nil in Hv|]. cbn [find_back].
  destruct (lookup_lt_exists l n) as [x Hx]; [lia|]. rewrite Hx. cbn [mbind option_bind].
  case_decide as E; [subst x; exists n; split_and!; [done|lia|done]|].
  destruct IH as (i & -> & Hi & Hat); [lia| |exists i; split_and!; [done|lia|done]].
  rewrite (take_snoc _ _ _ Hx) in Hv. apply elem_of_app in Hv as [?|Hv]; [done|].
  by apply list_elem_of_singleton in Hv.
Qed.

Lemma insert_permutation {A} (l : list A) i (v b : A) : l !! i = Some v -> l ++ [b] ≡ₚ v :: <[i := b]> l.
Proof.
  intros Hi. rewrite insert_take_drop by (by eapply lookup_lt_Some). rewrite <-(take_drop_middle l i v Hi) at 1. solve_Permutation.
Qed.

(** What is deleted can be put back. *)
Lemma delete_then_back l v : 0 <= v -> v ∈ l -> exists i l', delete_from_back l v = Some (i, l') /\
  l ≡ₚ v :: l' /\ forall (k : log_kind), undo_succeed (MkLog k (Z.to_nat v) i) l' = Some l.
Proof.
  intros Hv0 Hv. unfold delete_from_back.
  destruct (find_back_spec l v (length l)) as (i & -> & Hi & Hat); [done|by rewrite firstn_all|]. cbn [mbind option_bind].
  destruct l as [|b l0 _] using rev_ind; [by apply not_elem_of_nil in Hv|]. rewrite last_snoc. cbn [mbind option_bind].
  rewrite length_app in Hi. simpl in Hi.
  assert (Hpop : forall l1 : list Z, length l1 = S (length l0) -> vpop l1 = Some (take (length l0) l1)).
  { intros [|x l1] Hl; [done|]. unfold vpop. rewrite Hl. do 2 f_equal. lia. }
  rewrite Hpop by (rewrite length_insert, length_app; simpl; lia). cbn [mbind option_bind].
  exists i, (take (length l0) (<[i:=b]> (l0 ++ [b]))). split; [done|].
  split.
  { destruct (decide (i = length l0)) as [->|Hne].
    - rewrite list_lookup_middle in Hat by done. injection Hat as ->.
      rewrite insert_app_mid, take_app_length. apply Permutation_app_comm.
    - rewrite lookup_app_l in Hat by lia. rewrite insert_app_l, take_app_length' by (rewrite ?length_insert; lia).
      by apply insert_permutation. }
  intros k.
  unfold undo_succeed. cbn [log_pos log_idx]. rewrite Z2Nat.id by done.
  assert (Hlen : length (take (length l0) (<[i:=b]> (l0 ++ [b]))) = length l0).
  { rewrite length_take, length_insert, length_app. simpl. lia. }
  rewrite length_app, Hlen. simpl. replace (length l0 + 1 - 1)%nat with (length l0) by lia.
  destruct (decide (i = length l0)) as [->|Hne].
  - rewrite list_lookup_middle in Hat by done. injection Hat as ->.
    rewrite insert_app_mid, take_app_length, list_lookup_middle by done.
    cbn [mbind option_bind]. by rewrite !insert_app_mid.
  - rewrite lookup_app_l by lia. rewrite lookup_app_l in Hat by lia. rewrite insert_app_l by lia.
    rewrite take_app_length' by (by rewrite length_insert). rewrite list_lookup_insert_eq by lia. cbn [mbind option_bind].
    rewrite <-(length_insert l0 i b) at 1. rewrite insert_app_mid, insert_app_l by (rewrite length_insert; lia).
    by rewrite list_insert_insert_eq, list_insert_id.
Qed.

(** ** Outcomes *)

(** Whether a compare-exchange or trylock that reads from [rf] succeeds. *)
Definition succeeds es (ev : SymEv) (rf : Z) : option bool :=
  match ev_kind ev with
  | CMPXHG | CMPXHGFAIL => finds_expected es ev rf
  | M_TRYLOCK | M_TRYLOCK_FAIL => if decide (rf = -1) then Some true else l ← does_lock es (Z.to_nat rf); Some (negb l)
  | _ => None
  end.

(** The event with either outcome, as the constructors make it. *)
Definition cas (d : SymDataRef) (x : block_type) (ok : bool) : SymEv := (if ok then SymEv_CmpXhg else SymEv_CmpXhgFail) d x.
Definition trylock (a : SymAddrSize) (ok : bool) : SymEv := SymEv_sync (if ok then M_TRYLOCK else M_TRYLOCK_FAIL) a.

Lemma cas_parts d x ok : is_Some (sdr_block d) -> ev_data (cas d x ok) = Some d /\ ev_expected_data (cas d x ok) = Some (MkSymDataRef (sdr_ref d) x) /\
  ev_addr (cas d x ok) = Some (sdr_ref d) /\ (ev_kind (cas d x ok) = if ok then CMPXHG else CMPXHGFAIL).
Proof. destruct d as [r ?]. intros [b E]. cbn in E. subst. by destruct ok. Qed.
Lemma trylock_parts a ok : ev_addr (trylock a ok) = Some a /\ ev_kind (trylock a ok) = if ok then M_TRYLOCK else M_TRYLOCK_FAIL.
Proof. by destruct ok. Qed.

Lemma set_sym_twice a b e : set_sym a (set_sym b e) = set_sym a e.
Proof. by destruct e. Qed.
Lemma set_sym_same e : set_sym (sym e) e = e.
Proof. by destruct e. Qed.

(** [before] becomes [ok]: the list of writes loses or gains the event. *)
Definition writes_change (idx : nat) (before ok : bool) l l' : Prop :=
  if eqb before ok then l' = l else if (ok : bool) then l' = l ++ [Z.of_nat idx] else l ≡ₚ Z.of_nat idx :: l'.

Lemma undo_fail_snoc (k : log_kind) idx l : undo_fail (MkLog k idx (length l)) (l ++ [Z.of_nat idx]) = Some l.
Proof.
  unfold undo_fail. rewrite last_snoc. cbn [mbind option_bind log_idx log_pos]. rewrite (bool_decide_true (Z.of_nat idx = Z.of_nat idx)) by done.
  cbn [cassert mbind option_bind]. rewrite bool_decide_true by (rewrite length_app; simpl; lia). cbn [cassert mbind option_bind].
  unfold vpop. destruct (l ++ [Z.of_nat idx]) eqn:E; [by destruct l|]. rewrite <-E, length_app. simpl.
  by rewrite Nat.add_sub, take_app_length.
Qed.

Section outcome.
Context (idx : nat) (es : list Event) (l : list Z) (e : Event) (rf : Z) (before ok : bool).
Context (He : es !! idx = Some e) (Hrf : read_from e = Some rf) (Hok : succeeds es (sym e) rf = Some ok).
Context (Hl : before = true -> Z.of_nat idx ∈ l).

Lemma cas_outcome d x : is_Some (sdr_block d) -> sym e = cas d x before -> exists log l',
  recompute_cmpxhg_success idx es l = Some (log, <[idx := set_sym (cas d x ok) e]> es, l') /\
  undo_cmpxhg_recomputation log (<[idx := set_sym (cas d x ok) e]> es) l' = Some (es, l) /\ writes_change idx before ok l l'.
Proof.
  intros Hd Hs. pose proof (cas_parts d x before Hd) as (Ed & Ex & Ea & Ek). rewrite Hs in Hok.
  pose proof (lookup_lt_Some _ _ _ He) as Hlt.
  assert (Hcomp : exists actual, get_data es rf (sdr_ref d) = Some actual /\ same_data (MkSymDataRef (sdr_ref d) x) actual (sas_size (sdr_ref d)) = Some ok).
  { unfold succeeds in Hok. assert (Hf : finds_expected es (cas d x before) rf = Some ok) by (rewrite Ek in Hok; by destruct before).
    unfold finds_expected in Hf. rewrite Ex, Ea in Hf. cbn [mbind option_bind] in Hf.
    destruct (get_data es rf (sdr_ref d)) as [actual|]; [|done]. cbn [mbind option_bind] in Hf. destruct (cassert _); [|done]. by exists actual. }
  destruct Hcomp as (actual & Eact & Esame).
  assert (Hback : forall b, <[idx := set_sym (cas d x b) (set_sym (cas d x ok) e)]> (<[idx := set_sym (cas d x ok) e]> es) = <[idx := set_sym (cas d x b) e]> es).
  { intros b. by rewrite list_insert_insert_eq, set_sym_twice. }
  assert (Hid : <[idx := set_sym (cas d x before) e]> es = es) by (rewrite <-Hs, set_sym_same; by apply list_insert_id).
  assert (Hrec : recompute_cmpxhg_success idx es l =
    match before, ok with
    | false, true => Some (MkLog FAIL idx (length l), <[idx := set_sym (cas d x ok) e]> es, l ++ [Z.of_nat idx])
    | true, false => r ← delete_from_back l (Z.of_nat idx); Some (MkLog SUCCEED idx r.1, <[idx := set_sym (cas d x ok) e]> es, r.2)
    | _, _ => Some (MkLog LOG_NONE idx 0, <[idx := set_sym (cas d x ok) e]> es, l)
    end).
  { unfold recompute_cmpxhg_success. rewrite He. cbn [mbind option_bind]. rewrite Hs, Ek.
    destruct before; rewrite Hrf; cbn [mbind option_bind]; rewrite Ex; cbn [mbind option_bind]; rewrite Ea; cbn [mbind option_bind];
      rewrite Eact; cbn [mbind option_bind]; rewrite Esame; cbn [mbind option_bind]; rewrite Ed; cbn [mbind option_bind sdr_block]; done. }
  assert (Hat : <[idx := set_sym (cas d x ok) e]> es !! idx = Some (set_sym (cas d x ok) e)) by by rewrite list_lookup_insert_eq.
  pose proof (cas_parts d x ok Hd) as (Ed' & Ex' & _). rewrite Hrec. unfold writes_change. destruct before, ok; cbn [eqb].
  - do 2 eexists. split; [done|]. split; [|done]. cbn [undo_cmpxhg_recomputation log_kind_of]. by rewrite Hid.
  - destruct (delete_then_back l (Z.of_nat idx)) as (i & l' & -> & Hp & Hundo); [lia|by apply Hl|]. cbn [mbind option_bind fst snd].
    do 2 eexists. split; [done|]. split; [|done]. unfold undo_cmpxhg_recomputation. cbn [log_kind_of log_idx]. rewrite Hat.
    cbn [mbind option_bind sym set_sym]. rewrite Ed'. cbn [mbind option_bind]. rewrite Ex'. cbn [mbind option_bind].
    specialize (Hundo SUCCEED). rewrite Nat2Z.id in Hundo. rewrite Hundo. cbn [mbind option_bind sdr_block].
    change (SymEv_CmpXhg d x) with (cas d x true). by rewrite (Hback true), Hid.
  - do 2 eexists. split; [done|]. split; [|done]. unfold undo_cmpxhg_recomputation. cbn [log_kind_of log_idx]. rewrite Hat.
    cbn [mbind option_bind sym set_sym]. rewrite Ed'. cbn [mbind option_bind]. rewrite Ex'. cbn [mbind option_bind].
    rewrite undo_fail_snoc. cbn [mbind option_bind sdr_block]. change (SymEv_CmpXhgFail d x) with (cas d x false). by rewrite (Hback false), Hid.
  - do 2 eexists. split; [done|]. split; [|done]. cbn [undo_cmpxhg_recomputation log_kind_of]. by rewrite Hid.
Qed.

Lemma trylock_outcome a : sym e = trylock a before -> exists log es' l',
  recompute_cmpxhg_success idx es l = Some (log, es', l') /\ es' = <[idx := set_sym (trylock a ok) e]> es /\
  undo_cmpxhg_recomputation log es' l' = Some (es, l) /\ writes_change idx before ok l l'.
Proof.
  intros Hs. pose proof (trylock_parts a before) as (Ea & Ek). rewrite Hs in Hok. pose proof (lookup_lt_Some _ _ _ He) as Hlt.
  assert (Hcomp : (if decide (rf = -1) then Some true else l ← does_lock es (Z.to_nat rf); Some (negb l)) = Some ok).
  { unfold succeeds in Hok. rewrite Ek in Hok. by destruct before. }
  assert (Hback : forall b, <[idx := set_sym (trylock a b) (set_sym (trylock a ok) e)]> (<[idx := set_sym (trylock a ok) e]> es) = <[idx := set_sym (trylock a b) e]> es).
  { intros b. by rewrite list_insert_insert_eq, set_sym_twice. }
  assert (Hid : <[idx := set_sym (trylock a before) e]> es = es) by (rewrite <-Hs, set_sym_same; by apply list_insert_id).
  assert (Hrec : recompute_cmpxhg_success idx es l =
    match before, ok with
    | false, true => Some (MkLog M_FAIL idx (length l), <[idx := set_sym (trylock a true) e]> es, l ++ [Z.of_nat idx])
    | true, false => r ← delete_from_back l (Z.of_nat idx); Some (MkLog M_SUCCEED idx r.1, <[idx := set_sym (trylock a false) e]> es, r.2)
    | _, _ => Some (MkLog LOG_NONE idx 0, es, l)
    end).
  { unfold recompute_cmpxhg_success. rewrite He. cbn [mbind option_bind]. rewrite Hs, Ek.
    destruct before; rewrite Hrf; cbn [mbind option_bind]; rewrite Hcomp; cbn [mbind option_bind]; rewrite Ea; cbn [mbind option_bind];
      by destruct ok. }
  assert (Hat : <[idx := set_sym (trylock a ok) e]> es !! idx = Some (set_sym (trylock a ok) e)) by by rewrite list_lookup_insert_eq.
  pose proof (trylock_parts a ok) as (Ea' & _). rewrite Hrec. unfold writes_change. destruct before, ok; cbn [eqb].
  - do 3 eexists. split; [done|]. split; [by rewrite Hid|done].
  - destruct (delete_then_back l (Z.of_nat idx)) as (i & l' & -> & Hp & Hundo); [lia|by apply Hl|]. cbn [mbind option_bind fst snd].
    do 3 eexists. split; [done|]. split; [done|]. split; [|done]. unfold undo_cmpxhg_recomputation. cbn [log_kind_of log_idx]. rewrite Hat.
    cbn [mbind option_bind sym set_sym]. rewrite Ea'. cbn [mbind option_bind].
    specialize (Hundo M_SUCCEED). rewrite Nat2Z.id in Hundo. rewrite Hundo. cbn [mbind option_bind].
    change (SymEv_sync M_TRYLOCK a) with (trylock a true). by rewrite (Hback true), Hid.
  - do 3 eexists. split; [done|]. split; [done|]. split; [|done]. unfold undo_cmpxhg_recomputation. cbn [log_kind_of log_idx]. rewrite Hat.
    cbn [mbind option_bind sym set_sym]. rewrite Ea'. cbn [mbind option_bind].
    rewrite undo_fail_snoc. cbn [mbind option_bind]. change (SymEv_sync M_TRYLOCK_FAIL a) with (trylock a false). by rewrite (Hback false), Hid.
  - do 3 eexists. split; [done|]. split; [by rewrite Hid|done].
Qed.
End outcome.
