(* ===== verification/SExpr.v ===== *)
(** * SExpr: s-expressions, read and written (SExpr.h, SExpr.cpp)

    The answers of the SMT solver are s-expressions. [read] is the extraction
    operator: it takes one s-expression off the front of the text that is left in
    the stream, where a parse error is thrown as [inl] of its message; [show] is
    the insertion operator. A stream at its end is the empty text: putting back
    the end of file fails the stream, which then has nothing left either.

    Reading gives back what was written, and whatever is read can be written and
    read again. *)

From Stdlib Require Import Ascii.
From stdpp Require Import pretty.
From S2P Require Import Prelude.

Local Open Scope Z_scope.

(** ** S-expressions *)

Inductive SExpr :=
| Token (name : string)
| Int (value : Z)
| List (elems : list SExpr).

(** [std::isspace] in the C locale: the space, and tab to carriage return. *)
Definition isspace (c : ascii) : bool :=
  let n := Z.of_nat (Ascii.nat_of_ascii c) in bool_decide (n = 32) || bool_decide (9 <= n <= 13).
Definition endoftok (c : ascii) : bool := isspace c || Ascii.eqb c ")" || Ascii.eqb c "(".

(** ** Numbers *)

Definition digit_value (base : Z) (c : ascii) : option Z :=
  let n := Z.of_nat (Ascii.nat_of_ascii c) in
  let d := if decide (48 <= n <= 57) then n - 48
           else if decide (97 <= n <= 122) then n - 87
           else if decide (65 <= n <= 90) then n - 55 else base in
  if decide (d < base) then Some d else None.

Fixpoint digits (base acc : Z) (s : string) : Z * string :=
  match s with
  | String c s' => match digit_value base c with Some d => digits base (acc * base + d) s' | None => (acc, s) end
  | EmptyString => (acc, s)
  end.

Definition starts_digit (base : Z) (s : string) : bool :=
  match s with String c _ => bool_decide (is_Some (digit_value base c)) | EmptyString => false end.

(** [std::strtol] with a 64-bit [long], on text that does not begin with a space:
    the value, and what is left behind the number. *)
Definition clamp_long (x : Z) : Z := Z.max (- 2 ^ 63) (Z.min (2 ^ 63 - 1) x).
Definition after_prefix (base : Z) (s : string) : string :=
  match s with
  | String "0" (String x s') =>
    if bool_decide (base = 16) && (Ascii.eqb x "x" || Ascii.eqb x "X") && starts_digit base s' then s' else s
  | _ => s
  end.
Definition strtol (base : Z) (s : string) : Z * string :=
  let '(sign, body) := match s with String "-" s' => (-1, s') | String "+" s' => (1, s') | _ => (1, s) end in
  let body := after_prefix base body in
  if starts_digit base body then let '(v, rest) := digits base 0 body in (clamp_long (sign * v), rest)
  else (0, s).

(** ** Reading *)

Fixpoint skip_ws (s : string) : string :=
  match s with String c s' => if isspace c then skip_ws s' else s | EmptyString => s end.

Fixpoint take_token (s : string) : string * string :=
  match s with
  | String c s' => if endoftok c then (EmptyString, s) else let '(t, r) := take_token s' in (String c t, r)
  | EmptyString => (EmptyString, EmptyString)
  end.

(** The s-expression of a token: an [int] if all of it is a number. *)
Definition atom (str : string) : SExpr :=
  let '(num, rest) := strtol 10 str in
  if decide (rest <> EmptyString) then Token str else Int (wraps 32 num).

(** Fuel: every call but the last of a list takes a character. *)
Fixpoint read (fuel : nat) (s : string) : option (string + SExpr * string) :=
  match fuel with
  | O => None
  | S fuel =>
    match skip_ws s with
    | EmptyString => Some (inl "Got EOF")
    | String ")" _ => Some (inl "Unmatched closing paren")
    | String "(" s => read_elems fuel s []
    | s => let '(str, s) := take_token s in Some (inr (atom str, s))
    end
  end
with read_elems (fuel : nat) (s : string) (elems : list SExpr) : option (string + SExpr * string) :=
  match fuel with
  | O => None
  | S fuel =>
    match skip_ws s with
    | String ")" s => Some (inr (List elems, s))
    | s =>
      r ← read fuel s;
      match r with
      | inl e => Some (inl e)
      | inr (e, s) => read_elems fuel s (elems ++ [e])
      end
    end
  end.

Definition read_fuel (s : string) : nat := S (2 * String.length s).
Definition read_sexpr (s : string) : option (string + SExpr * string) := read (read_fuel s) s.

(** ** Writing *)

Fixpoint show (e : SExpr) : string :=
  match e with
  | Token name => name
  | Int value => pretty value
  | List l =>
    "(" +:+ (fix show_elems (l : list SExpr) : string :=
      match l with
      | [] => ""
      | [x] => show x
      | x :: l => show x +:+ " " +:+ show_elems l
      end) l +:+ ")"
  end.
Fixpoint show_elems (l : list SExpr) : string :=
  match l with [] => "" | [x] => show x | x :: l => show x +:+ " " +:+ show_elems l end.


(** * What is written is read back *)

(** ** Text *)

#[local] Arguments isspace : simpl never.
#[local] Arguments endoftok : simpl never.
#[local] Arguments digit_value : simpl never.

Lemma app_string_cons x (a b : string) : String x a +:+ b = String x (a +:+ b).
Proof. done. Qed.
Lemma app_string_assoc (a b c : string) : (a +:+ b) +:+ c = a +:+ b +:+ c.
Proof. induction a as [|x a IH]; [done|]. by rewrite !app_string_cons, IH. Qed.
Lemma app_string_nil (a : string) : a +:+ "" = a.
Proof. induction a as [|x a IH]; [done|]. by rewrite app_string_cons, IH. Qed.
Lemma length_app_string (a b : string) : String.length (a +:+ b) = (String.length a + String.length b)%nat.
Proof. induction a as [|x a IH]; [done|]. rewrite app_string_cons. cbn. by rewrite IH. Qed.

(** All characters belong to one token. *)
Fixpoint token_chars (s : string) : bool :=
  match s with String c s => negb (endoftok c) && token_chars s | EmptyString => true end.
(** A token ends before [s]. *)
Definition ends_token (s : string) : bool :=
  match s with String c _ => endoftok c | EmptyString => true end.

Lemma token_chars_app a b : token_chars (a +:+ b) = token_chars a && token_chars b.
Proof. induction a as [|c a IH]; [done|]. rewrite app_string_cons. cbn. by rewrite IH, andb_assoc. Qed.
Lemma token_not_space c : endoftok c = false -> isspace c = false.
Proof. unfold endoftok. by destruct (isspace c). Qed.

Lemma ws_stop c s : isspace c = false -> skip_ws (String c s) = String c s.
Proof. intros H. cbn. by rewrite H. Qed.
Lemma ws_idem s : skip_ws (skip_ws s) = skip_ws s.
Proof. induction s as [|c s IH]; [done|]. cbn. destruct (isspace c) eqn:E; [done|]. by rewrite ws_stop. Qed.
Lemma ws_length s : (String.length (skip_ws s) <= String.length s)%nat.
Proof. induction s as [|c s IH]; [done|]. cbn. destruct (isspace c); cbn; lia. Qed.
Lemma ws_head s c r : skip_ws s = String c r -> isspace c = false.
Proof. induction s as [|x s IH]; [done|]. cbn. destruct (isspace x) eqn:E; [done|]. by intros [= -> _]. Qed.

Lemma take_token_app t r : token_chars t = true -> ends_token r = true -> take_token (t +:+ r) = (t, r).
Proof.
  induction t as [|c t IH]; cbn.
  - intros _ Hr. change ("" +:+ r) with r. destruct r as [|c r]; [done|]. cbn in *. by rewrite Hr.
  - intros [Hc Ht]%andb_true_iff Hr. apply negb_true_iff in Hc. rewrite app_string_cons. cbn.
    rewrite Hc. by rewrite IH.
Qed.
Lemma take_token_spec s t r : take_token s = (t, r) ->
  s = t +:+ r /\ token_chars t = true.
Proof.
  revert t. induction s as [|c s IH]; intros t; cbn; [by intros [= <- <-]|].
  destruct (endoftok c) eqn:E; [by intros [= <- <-]|]. destruct (take_token s) as [t' r'] eqn:Et.
  intros [= <- <-]. destruct (IH t' eq_refl) as [-> H]. split; [done|]. cbn. by rewrite E, H.
Qed.

(** ** Numbers *)

Lemma digit_value_pretty d : (d < 10)%N -> digit_value 10 (pretty_N_char d) = Some (Z.of_N d) /\ endoftok (pretty_N_char d) = false.
Proof.
  intros Hd. assert (Hin : d ∈ (N.of_nat <$> seq 0 10)).
  { apply list_elem_of_fmap. exists (N.to_nat d). split; [lia|]. apply elem_of_seq. lia. }
  cbn in Hin. repeat (apply elem_of_cons in Hin as [->|Hin]; [by vm_compute|]). by apply not_elem_of_nil in Hin.
Qed.

Lemma pretty_N_go_shape x : forall s, (0 < x)%N -> exists d t, pretty_N_go x s = String (pretty_N_char d) (t +:+ s) /\ (d < 10)%N /\ token_chars t = true.
Proof.
  induction (N.lt_wf_0 x) as [x _ IH]. intros s Hx. rewrite pretty_N_go_step by done.
  destruct (decide (x / 10 = 0)%N) as [->|Hne].
  - rewrite pretty_N_go_0. exists (x mod 10)%N, "". split_and!; [done|by apply N.mod_lt|done].
  - destruct (IH (x / 10)%N) with (s := String (pretty_N_char (x mod 10)) s) as (d & t & -> & Hd & Ht); [by apply N.div_lt|by apply N.neq_0_lt_0|].
    exists d, (t +:+ String (pretty_N_char (x mod 10)) ""). split_and!; [|done|].
    + by rewrite app_string_assoc.
    + destruct (digit_value_pretty (x mod 10)) as [_ E]; [by apply N.mod_lt|].
      rewrite token_chars_app, Ht. cbn. by rewrite E.
Qed.

Lemma digits_pretty x : exists k, (0 <= k)%Z /\ forall acc s,
  digits 10 acc (pretty_N_go x s) = digits 10 (acc * 10 ^ k + Z.of_N x) s.
Proof.
  induction (N.lt_wf_0 x) as [x _ IH]. destruct (decide (x = 0)%N) as [->|Hx].
  - exists 0. split; [done|]. intros. rewrite pretty_N_go_0. f_equal. lia.
  - destruct (IH (x / 10)%N) as (k & Hk & H); [apply N.div_lt; lia|]. exists (k + 1). split; [lia|].
    intros acc s. rewrite pretty_N_go_step, H by lia. cbn.
    destruct (digit_value_pretty (x mod 10)) as [-> _]; [by apply N.mod_lt|]. f_equal.
    rewrite Z.pow_add_r by lia. rewrite N2Z.inj_div, N2Z.inj_mod. pose proof (Z.div_mod (Z.of_N x) 10). lia.
Qed.

(** Text that begins with a digit has no sign. *)
Lemma strtol_digits s : starts_digit 10 s = true ->
  strtol 10 s = let '(v, rest) := digits 10 0 s in (clamp_long v, rest).
Proof.
  intros H. assert (Hp : after_prefix 10 s = s).
  { destruct s as [|[[] [] [] [] [] [] [] []] [|x s]]; try done. }
  unfold strtol. assert (E : (match s with String "-" s' => (-1, s') | String "+" s' => (1, s') | _ => (1, s) end) = (1, s)).
  { destruct s as [|[[] [] [] [] [] [] [] []] s]; done. }
  rewrite E, Hp, H. destruct (digits 10 0 s) as [v r]. by rewrite Z.mul_1_l.
Qed.
Lemma pretty_N_pos p : pretty (Z.pos p) = pretty_N_go (N.pos p) "".
Proof. unfold pretty, pretty_Z, pretty, pretty_positive, pretty, pretty_N. by rewrite decide_False. Qed.
Lemma pretty_Z_neg p : pretty (Z.neg p) = "-" +:+ pretty_N_go (N.pos p) "".
Proof. unfold pretty at 1, pretty_Z, pretty, pretty_positive, pretty, pretty_N. by rewrite decide_False. Qed.

Lemma strtol_pos p (sign : Z) : let s := pretty_N_go (N.pos p) "" in
  starts_digit 10 s = true /\ after_prefix 10 s = s /\ digits 10 0 s = (Z.pos p, "") /\ token_chars s = true.
Proof.
  cbv zeta. destruct (pretty_N_go_shape (N.pos p) "") as (d & t & E & Hd & Ht); [done|].
  destruct (digit_value_pretty d Hd) as [Ev Et]. split_and!.
  - rewrite E. unfold starts_digit. by rewrite Ev.
  - rewrite E. clear. unfold after_prefix. destruct (pretty_N_char d) as [[] [] [] [] [] [] [] []]; try done. by destruct (t +:+ "").
  - destruct (digits_pretty (N.pos p)) as (k & _ & ->). cbn. done.
  - rewrite E. cbn. by rewrite Et, token_chars_app, Ht.
Qed.

Lemma strtol_pretty x : strtol 10 (pretty x) = (clamp_long x, "") /\ token_chars (pretty x) = true /\ pretty x <> "".
Proof.
  destruct x as [|p|p]; [done|..]; destruct (strtol_pos p 1) as (Hs & Ha & Hd & Ht).
  - rewrite pretty_N_pos, strtol_digits, Hd by done. split_and!; [done|done|]. by intros E; rewrite E in Hs.
  - rewrite pretty_Z_neg. split_and!; [|by rewrite app_string_cons; cbn|done].
    rewrite app_string_cons. change ("" +:+ ?x) with x. unfold strtol. rewrite Ha, Hs, Hd. done.
Qed.

(** An [int] is read as it was written. *)
Lemma atom_pretty x : - 2 ^ 31 <= x < 2 ^ 31 -> atom (pretty x) = Int x.
Proof.
  intros Hx. unfold atom. destruct (strtol_pretty x) as (-> & _). rewrite decide_False by auto.
  unfold clamp_long. rewrite Z.min_r, Z.max_r by lia. by rewrite wraps_id.
Qed.
Lemma atom_int t num rest : strtol 10 t = (num, rest) -> atom t = Token t \/ exists x, atom t = Int x /\ - 2 ^ 31 <= x < 2 ^ 31.
Proof.
  intros E. unfold atom. rewrite E. case_decide; [by left|]. right. eexists. split; [done|]. unfold wraps.
  pose proof (Z.mod_pos_bound (num + 2 ^ (32 - 1)) (2 ^ 32)). lia.
Qed.


(** ** Reading *)

Lemma read_ws fuel s : read fuel s = read fuel (skip_ws s).
Proof. destruct fuel; [done|]. cbn. by rewrite ws_idem. Qed.
Lemma read_elems_skip fuel s l : read_elems fuel s l = read_elems fuel (skip_ws s) l.
Proof. destruct fuel; [done|]. cbn. by rewrite ws_idem. Qed.

Lemma read_token fuel c s : endoftok c = false ->
  read (S fuel) (String c s) = let '(t, r) := take_token (String c s) in Some (inr (atom t, r)).
Proof.
  intros H. cbn [read]. rewrite ws_stop by by apply token_not_space.
  destruct c as [[] [] [] [] [] [] [] []]; done.
Qed.
Lemma read_open fuel s : read (S fuel) (String "(" s) = read_elems fuel s [].
Proof. done. Qed.
Lemma read_elems_close fuel s l : read_elems (S fuel) (String ")" s) l = Some (inr (List l, s)).
Proof. done. Qed.
Lemma read_elems_item fuel c s l : isspace c = false -> c <> ")"%char ->
  read_elems (S fuel) (String c s) l =
    (r ← read fuel (String c s); match r with inl e => Some (inl e) | inr (e, s) => read_elems fuel s (l ++ [e]) end).
Proof.
  intros Hs Hc. cbn [read_elems]. rewrite ws_stop by done.
  destruct c as [[] [] [] [] [] [] [] []]; done.
Qed.
(** At the end of the text an element is asked for too. *)
Lemma read_elems_eof fuel l : read_elems (S (S fuel)) "" l = Some (inl "Got EOF").
Proof. done. Qed.

(** The three ways the text can go on. *)
Lemma text_cases s : skip_ws s = "" \/ exists c r, skip_ws s = String c r /\ isspace c = false /\
  (c = ")"%char \/ c = "("%char \/ endoftok c = false).
Proof.
  destruct (skip_ws s) as [|c r] eqn:E; [by left|]. right. pose proof (ws_head _ _ _ E) as Hs. exists c, r. split_and!; [done|done|].
  unfold endoftok. rewrite Hs. destruct (Ascii.eqb_spec c ")"); [by left|]. destruct (Ascii.eqb_spec c "("); [by right; left|]. by right; right.
Qed.

(** What can be written: tokens that are not numbers, [int] values. *)
Fixpoint writable (e : SExpr) : Prop :=
  match e with
  | Token t => t <> "" /\ token_chars t = true /\ atom t = Token t
  | Int x => - 2 ^ 31 <= x < 2 ^ 31
  | List l => (fix go l := match l with [] => True | e :: l => writable e /\ go l end) l
  end.
Lemma writable_list l : writable (List l) <-> Forall writable l.
Proof. induction l as [|e l IH]; [by split|]. rewrite Forall_cons, <-IH. done. Qed.

Lemma writable_atom t : t <> "" -> token_chars t = true -> writable (atom t).
Proof.
  intros Hne Ht. destruct (strtol 10 t) as [num rest] eqn:E. destruct (atom_int t num rest E) as [Ea|(x & Ea & Hx)]; rewrite Ea; [|done].
  by split_and!.
Qed.

(** Reading ends: it takes at least a character, and gives an s-expression that
    can be written. *)
Definition read_ok (s : string) (r : string + SExpr * string) : Prop :=
  match r with
  | inl e => e = "Got EOF" \/ e = "Unmatched closing paren"
  | inr (e, rest) => writable e /\ (String.length rest < String.length s)%nat
  end.

Lemma read_total fuel :
  (forall s, (2 * String.length s < fuel)%nat -> exists r, read fuel s = Some r /\ read_ok s r) /\
  (forall s l, (2 * String.length s + 1 < fuel)%nat -> Forall writable l -> exists r, read_elems fuel s l = Some r /\ read_ok s r).
Proof.
  induction fuel as [|fuel [IHr IHe]]; [split; intros; lia|]. split.
  - intros s Hf. rewrite read_ws. pose proof (ws_length s) as Hlen.
    destruct (text_cases s) as [->|(c & r & E & _ & Hc)]; [eexists; split; [done|by left]|]. rewrite E in *. cbn in Hlen.
    destruct Hc as [->|[->|Hc]]; [eexists; split; [done|by right]|..].
    + rewrite read_open. destruct (IHe r []) as (x & -> & Hx); [lia|done|]. exists x. split; [done|].
      destruct x as [|[]]; [done|]. cbn in *. split; [by apply Hx|]. destruct Hx. lia.
    + rewrite read_token by done. destruct (take_token (String c r)) as [t r'] eqn:Et. eexists. split; [done|].
      assert (Hne : t <> "") by (cbn in Et; rewrite Hc in Et; destruct (take_token r); by injection Et as <- <-).
      destruct (take_token_spec _ _ _ Et) as [Eq Ht]. split; [by apply writable_atom|].
      apply (f_equal String.length) in Eq. rewrite length_app_string in Eq. cbn in Eq. destruct t; [done|]. cbn in Eq. lia.
  - intros s l Hf Hl. rewrite read_elems_skip. pose proof (ws_length s) as Hlen.
    destruct (text_cases s) as [->|(c & r & E & Hs & Hc)].
    { destruct fuel; [lia|]. rewrite read_elems_eof. eexists. split; [done|by left]. }
    rewrite E in *. cbn in Hlen. destruct (decide (c = ")"%char)) as [->|Hne].
    { rewrite read_elems_close. eexists. split; [done|]. split; [by apply writable_list|lia]. }
    rewrite read_elems_item by done. destruct (IHr (String c r)) as (x & -> & Hx); [cbn; lia|]. cbn [mbind option_bind].
    destruct x as [|[e r']]; [by eexists|]. cbn in Hx. destruct Hx as [He Hr'].
    destruct (IHe r' (l ++ [e])) as (y & -> & Hy); [lia|by apply Forall_app_2; [|apply Forall_singleton]|]. eexists. split; [done|].
    destruct y as [|[]]; [done|]. cbn in *. split; [by apply Hy|]. destruct Hy. lia.
Qed.


(** ** Spellings *)

(** The texts of an s-expression: between elements any space, where it ends a token. *)
Inductive spells : string -> SExpr -> Prop :=
| spells_atom t : t <> "" -> token_chars t = true -> spells t (atom t)
| spells_list s l : spells_elems s l -> spells ("(" +:+ s) (List l)
with spells_elems : string -> list SExpr -> Prop :=
| spells_close : spells_elems ")" []
| spells_space c s l : isspace c = true -> spells_elems s l -> spells_elems (String c s) l
| spells_item s e s' l : spells s e -> ends_token s' = true -> spells_elems s' l -> spells_elems (s +:+ s') (e :: l).

Scheme spells_mut := Induction for spells Sort Prop
  with spells_elems_mut := Induction for spells_elems Sort Prop.

Lemma token_head t : t <> "" -> token_chars t = true -> exists c t', t = String c t' /\ endoftok c = false.
Proof.
  destruct t as [|c t']; [done|]. cbn. intros _ [Hc _]%andb_true_iff. apply negb_true_iff in Hc. by exists c, t'.
Qed.
Lemma spells_head s e : spells s e -> exists c t, s = String c t /\ isspace c = false /\ c <> ")"%char.
Proof.
  intros [t Hne Ht|s' l _]; [|by eexists _, _]. destruct (token_head t Hne Ht) as (c & t' & -> & Hc). exists c, t'.
  split_and!; [done|by apply token_not_space|]. by intros ->.
Qed.

(** A token is read up to its end. *)
Lemma read_atom fuel t rest : t <> "" -> token_chars t = true -> ends_token rest = true ->
  read (S fuel) (t +:+ rest) = Some (inr (atom t, rest)).
Proof.
  intros Hne Ht Hr. destruct (token_head t Hne Ht) as (c & t' & -> & Hc). pose proof (take_token_app _ _ Ht Hr) as E.
  rewrite app_string_cons in *. rewrite read_token, E by done. done.
Qed.

Lemma spells_read s e : spells s e -> forall fuel rest, ends_token rest = true -> (2 * String.length s < fuel)%nat ->
  read fuel (s +:+ rest) = Some (inr (e, rest)).
Proof.
  intros H. induction H as [t Hne Ht|s l Hs IH| |c s l Hc Hs IH|s e s' l Hs IHs Hsep Hl IHl] using spells_mut with
    (P0 := fun s l _ => forall fuel rest acc, (2 * String.length s < fuel)%nat ->
      read_elems fuel (s +:+ rest) acc = Some (inr (List (acc ++ l), rest)));
    [intros fuel rest Hr Hf|intros fuel rest Hr Hf|intros fuel rest acc Hf|intros fuel rest acc Hf|intros fuel rest acc Hf];
    (destruct fuel as [|fuel]; [lia|]).
  - by apply read_atom.
  - rewrite app_string_assoc, app_string_cons, read_open. rewrite length_app_string in Hf. cbn in Hf. apply IH. lia.
  - rewrite app_nil_r. done.
  - rewrite app_string_cons, read_elems_skip. cbn [skip_ws]. rewrite Hc, <-read_elems_skip. apply IH. cbn in Hf. lia.
  - destruct (spells_head s e Hs) as (c & t & Et & Hsp & Hc). rewrite app_string_assoc. rewrite length_app_string in Hf.
    assert (Hlen : (0 < String.length s)%nat) by (rewrite Et; cbn; lia).
    assert (Hl' : exists c' t', s' = String c' t') by (clear -Hl; destruct Hl as [|c' ? ? _ _|s e ? ? (c & t & -> & _)%spells_head]; eauto).
    assert (Hlen' : (0 < String.length s')%nat) by (destruct Hl' as (c' & t' & ->); cbn; lia).
    rewrite Et at 1. rewrite app_string_cons, read_elems_item, <-app_string_cons, <-Et by done.
    rewrite IHs; [|destruct Hl' as (c' & t' & ->); exact Hsep|lia]. cbn [mbind option_bind].
    rewrite IHl by lia. by rewrite <-app_assoc.
Qed.

(** ** The round trip *)

Lemma show_List l : show (List l) = "(" +:+ show_elems l +:+ ")".
Proof. done. Qed.
Lemma show_elems_cons x y l : show_elems (x :: y :: l) = show x +:+ " " +:+ show_elems (y :: l).
Proof. done. Qed.

Lemma SExpr_nested_ind (P : SExpr -> Prop) : (forall t, P (Token t)) -> (forall x, P (Int x)) ->
  (forall l, Forall P l -> P (List l)) -> forall e, P e.
Proof.
  intros Ht Hi Hl. fix IH 1. intros [t|x|l]; [apply Ht|apply Hi|]. apply Hl.
  induction l as [|e l IHl]; constructor; [apply IH|apply IHl].
Qed.

Lemma spells_token t : t <> "" -> token_chars t = true -> atom t = Token t -> spells t (Token t).
Proof. intros ?? <-. by constructor. Qed.
Lemma spells_int x : - 2 ^ 31 <= x < 2 ^ 31 -> spells (pretty x) (Int x).
Proof. intros Hx. rewrite <-atom_pretty by done. destruct (strtol_pretty x) as (_ & ? & ?). by constructor. Qed.
(** One space before the next element, or none before the closing parenthesis. *)
Lemma spells_next s e s' l : spells s e -> spells_elems s' l -> spells_elems (s +:+ " " +:+ s') (e :: l).
Proof. intros. apply spells_item; [done|done|]. by apply spells_space. Qed.
Lemma spells_last s e : spells s e -> spells_elems (s +:+ ")") [e].
Proof. intros. apply spells_item; [done|done|constructor]. Qed.

Lemma show_spells e : writable e -> spells (show e) e.
Proof.
  induction e as [t|x|l IH] using SExpr_nested_ind; intros He.
  - destruct He as (? & ? & ?). by apply spells_token.
  - by apply spells_int.
  - apply writable_list in He. rewrite show_List. apply spells_list.
    induction l as [|e [|e' l] IHl]; [constructor| |]; apply Forall_cons in IH as [IHe IH], He as [He Hl].
    + by apply spells_last, IHe.
    + rewrite show_elems_cons, !app_string_assoc. apply spells_next; [by apply IHe|by apply IHl].
Qed.

Lemma read_show_rest e rest : writable e -> ends_token rest = true -> read_sexpr (show e +:+ rest) = Some (inr (e, rest)).
Proof.
  intros He Hr. apply spells_read; [by apply show_spells|done|]. unfold read_fuel. rewrite length_app_string. lia.
Qed.

(** C33. Reading is total and inverts writing: every text gives an s-expression and
    a shorter rest, or one of the two parse errors; what is read can be written;
    and what can be written (no token that is a number, values of an [int]) is
    read back from every text that begins with it and ends the token. *)
Theorem read_show : (forall s, exists r, read_sexpr s = Some r /\ read_ok s r) /\
  forall e rest, writable e -> ends_token rest = true -> read_sexpr (show e +:+ rest) = Some (inr (e, rest)).
Proof.
  split; [intros s; apply read_total; unfold read_fuel; lia|apply read_show_rest].
Qed.

Lemma read_show_witness : read_sexpr (show (List [List [Token "e0"; Int 12]; Int (-3)]) +:+ " z") =
  Some (inr (List [List [Token "e0"; Int 12]; Int (-3)], " z")).
Proof. apply (proj2 read_show); [|done]. vm_compute; repeat split; done. Defined.

Example read_list : read_sexpr " ( (e0 12) (x -3 ) 0 +07 1x) z" =
  Some (inr (List [List [Token "e0"; Int 12]; List [Token "x"; Int (-3)]; Int 0; Int 7; Token "1x"], " z")).
Proof. vm_compute. reflexivity. Qed.
Example show_list : show (List [List [Token "e0"; Int 12]; List []; Int (-3)]) = "((e0 12) () -3)".
Proof. reflexivity. Qed.
