(* ===== verification/Smtlib.v ===== *)
(** * Smtlib: the SMT solver behind a pipe (SmtlibSatSolver.h, SmtlibSatSolver.cpp)

    [SmtlibSatSolver] writes the formula of the reads-from exploration as SMT-LIB
    text to a solver process and reads its answers back. The process is the
    parameter [z3]: all that it has written once it was given a text. The options
    of the command line are parameters too: bit vectors ([cl_bv]) or integers, and
    the name of the logic ([cl_lia]).

    For integers, the text means the formula: a process that answers as SMT-LIB
    asks ([smtlib_process]) makes the class a correct solver. For bit vectors the
    widths are proved right for all numbers of variables but one above a power of
    sixteen. *)

From Stdlib Require Import Ascii.
From stdpp Require Import pretty.
From S2P Require Import Prelude.
From S2P Require Import SatGraph.
From S2P Require Import VClock.
From S2P Require Import SymEv.
From S2P Require Import Rfsc.
From S2P Require Import RfscAnalysis.
From S2P Require Import RfscFormula.
From S2P Require Import SExpr.

Local Open Scope Z_scope.

(** ** Widths *)

(** [ilog2]: the table of masks and shifts, from the top. *)
Definition ilog2_step (r v b s : Z) : Z * Z :=
  if decide (Z.land v b <> 0) then (Z.lor r s, Z.shiftr v s) else (r, v).
Definition ilog2 (v : Z) : Z :=
  let '(r, v) := ilog2_step 0 v 0xFFFF0000 16 in
  let '(r, v) := ilog2_step r v 0xFF00 8 in
  let '(r, v) := ilog2_step r v 0xF0 4 in
  let '(r, v) := ilog2_step r v 0xC 2 in
  (ilog2_step r v 0x2 1).1.

Definition hexdigs (count : Z) : Z := ilog2 (wrapu 32 (count - 2)) / 4 + 1.

(** An [unsigned] under [std::hex], and with zeros up to a width. *)
Fixpoint put_hex (fuel : nat) (n : Z) (s : string) : string :=
  match fuel with
  | O => s
  | S fuel => let s := hex_digit (n mod 16) +:+ s in if decide (n < 16) then s else put_hex fuel (n / 16) s
  end.
Definition to_hex (n : Z) : string := put_hex 8 n "".
Fixpoint zeros (n : nat) : string := match n with O => "" | S n => "0" +:+ zeros n end.
Definition to_hex_width (width n : Z) : string := zeros (Z.to_nat width - String.length (to_hex n)) +:+ to_hex n.

(** ** The solver object *)

(** Number of variables, what was written to the process, and how much of its
    output was read. *)
Record SmtlibSatSolver := MkSolver { no_vars : Z; sent : string; taken : nat }.
Definition put (s : string) (o : SmtlibSatSolver) : SmtlibSatSolver :=
  MkSolver (no_vars o) (sent o +:+ s +:+ newline) (taken o).

Definition evar (i : nat) : string := "e" +:+ pretty i.
(** [evar] of an [unsigned]. *)
Fixpoint evars (i n : nat) : string :=
  match n with O => "" | S n => evar i +:+ " " +:+ evars (S i) n end.

Fixpoint drop_text (n : nat) (s : string) : string :=
  match n, s with S n, String _ s => drop_text n s | _, _ => s end.

(** [std::getline]: up to the newline, which is taken as well. *)
Fixpoint getline (s : string) : string * string :=
  match s with
  | EmptyString => (EmptyString, EmptyString)
  | String c s =>
    if Ascii.eqb c (Ascii.ascii_of_nat 10) then (EmptyString, s) else let '(l, r) := getline s in (String c l, r)
  end.

(** A [std::vector<unsigned>]: its size, and the storage it has reserved, where
    nothing is written yet. A subscript beyond the size is undefined: it fails in a
    library that checks subscripts, and reaches the storage in one that does not. *)
Record uvector := MkUvector { u_size : nat; u_storage : list (option Z) }.
Definition vector_reserve (n : nat) : uvector := MkUvector 0 (replicate n None).
Definition vector_at (checked : bool) (v : uvector) (i : nat) : bool :=
  bool_decide (i < (if checked then u_size v else length (u_storage v)))%nat.
Definition vector_set (checked : bool) (i : nat) (x : Z) (v : uvector) : option uvector :=
  _ ← cassert (vector_at checked v i); Some (MkUvector (u_size v) (<[i := Some x]> (u_storage v))).
Definition vector_get (checked : bool) (v : uvector) (i : nat) : option Z :=
  _ ← cassert (vector_at checked v i); mjoin (u_storage v !! i).

Section solver.
Context (cl_bv cl_lia checked : bool) (z3 : string -> string).

Definition SmtlibSatSolver_new : SmtlibSatSolver :=
  put (if cl_bv then "(set-logic QF_BV)" else if cl_lia then "(set-logic QF_LIA)" else "(set-logic QF_IDL)")
    (put "(set-option :produce-models true)" (MkSolver 0 "" 0)).

Definition reset_solver (o : SmtlibSatSolver) : SmtlibSatSolver := put "(reset)" o.

(** The declaration of variable [i]; a shift by the width of [unsigned] is undefined. *)
Definition declare (count : Z) (i : nat) (o : SmtlibSatSolver) : option SmtlibSatSolver :=
  if cl_bv then
    let bits := hexdigs count * 4 in
    let o := put ("(declare-fun " +:+ evar i +:+ " () (_ BitVec " +:+ pretty bits +:+ "))") o in
    _ ← cassert (bool_decide (bits < 32));
    Some (if decide (count <> wrapu 32 (Z.shiftl 1 bits)) then
            put ("(assert (bvult " +:+ evar i +:+ " #x" +:+ to_hex_width (hexdigs count) (no_vars o) +:+ "))") o
          else o)
  else
    Some (put ("(assert (< " +:+ evar i +:+ " " +:+ pretty (no_vars o) +:+ "))")
      (put ("(assert (>= " +:+ evar i +:+ " 0))")
      (put ("(declare-fun " +:+ evar i +:+ " () Int)") o))).

Definition alloc_variables (count : nat) (o : SmtlibSatSolver) : option SmtlibSatSolver :=
  let o := MkSolver (Z.of_nat count) (sent o) (taken o) in
  o ← for_each (seq 0 count) (declare (Z.of_nat count)) o;
  Some (put ("(assert (distinct " +:+ evars 0 count +:+ "))") o).

Definition less : string := if cl_bv then "bvult" else "<".
Definition add_edge (from to : nat) (o : SmtlibSatSolver) : SmtlibSatSolver :=
  put ("(assert (" +:+ less +:+ " " +:+ evar from +:+ " " +:+ evar to +:+ "))") o.
Definition add_edge_disj (froma toa fromb tob : nat) (o : SmtlibSatSolver) : SmtlibSatSolver :=
  put ("(assert (or (" +:+ less +:+ " " +:+ evar froma +:+ " " +:+ evar toa +:+ ")"
       +:+ "(" +:+ less +:+ " " +:+ evar fromb +:+ " " +:+ evar tob +:+ ")))") o.

(** What the process has written and was not read yet. *)
Definition out (o : SmtlibSatSolver) : string := drop_text (taken o) (z3 (sent o)).
Definition take_out (rest : string) (o : SmtlibSatSolver) : SmtlibSatSolver :=
  MkSolver (no_vars o) (sent o) (String.length (z3 (sent o)) - String.length rest).

Definition check_sat (o : SmtlibSatSolver) : option (bool * SmtlibSatSolver) :=
  let o := put "(check-sat)" o in
  let '(res, rest) := getline (out o) in
  let o := take_out rest o in
  if decide (res = "unsat") then Some (false, o)
  else _ ← cassert (bool_decide (res = "sat")); Some (true, o).

(** A number that is all of the text. *)
Definition whole_number (base : Z) (s : string) : option Z :=
  let '(v, rest) := strtol base s in _ ← cassert (bool_decide (rest = "")); Some (wrapu 32 v).
Definition model_value (e : SExpr) : option Z :=
  if cl_bv then
    match e with
    | Token (String "#" (String b s)) =>
      _ ← cassert (bool_decide (s <> ""));
      if Ascii.eqb b "x" then whole_number 16 s else if Ascii.eqb b "b" then whole_number 2 s else None
    | List [_; Token (String "b" (String "v" s)); _] => _ ← cassert (bool_decide (s <> "")); whole_number 10 s
    | _ => None
    end
  else match e with Int v => Some (wrapu 32 v) | _ => None end.
Definition model_entry (l : list SExpr) (i : nat) : option Z :=
  match l !! i with
  | Some (List [Token name; e]) => _ ← cassert (bool_decide (name = evar i)); model_value e
  | _ => None
  end.

(** The loop writes [res\[i\]] beyond the size of a vector that has only reserved
    its storage. A parse error is thrown. *)
Definition get_model (o : SmtlibSatSolver) : option (uvector * SmtlibSatSolver) :=
  let o := put ("(get-value (" +:+ evars 0 (Z.to_nat (no_vars o)) +:+ "))") o in
  r ← read_sexpr (out o);
  match r with
  | inr (List l, rest) =>
    res ← for_each (seq 0 (Z.to_nat (no_vars o))) (fun i res => x ← model_entry l i; vector_set checked i x res)
      (vector_reserve (Z.to_nat (no_vars o)));
    Some (res, take_out rest o)
  | _ => None
  end.

(** ** A formula *)

(** The calls of [output_formula] and [try_sat] on a new solver, and the
    subscripts of the model that [try_sat] reads. *)
Definition add_constr (o : SmtlibSatSolver) (c : constr) : SmtlibSatSolver :=
  match c with Edge a b => add_edge a b o | EdgeDisj a b c d => add_edge_disj a b c d o end.
Definition solve (f : formula) : option (option (list Z)) :=
  o ← alloc_variables (variables f) SmtlibSatSolver_new;
  r ← check_sat (foldl add_constr o (constraints f));
  let '(sat, o) := r in
  if (sat : bool) then r ← get_model o; m ← mapM (vector_get checked r.1) (seq 0 (variables f)); Some (Some m) else Some None.
End solver.

(** * The widths of bit vectors *)

Lemma mask_hits v s : 0 <= s -> 0 <= v < 2 ^ (2 * s) ->
  Z.land v ((2 ^ s - 1) * 2 ^ s) <> 0 <-> 2 ^ s <= v.
Proof.
  intros Hs Hv. replace (2 ^ s - 1) with (Z.ones s) by (rewrite Z.ones_equiv; lia).
  rewrite <-Z.shiftl_mul_pow2 by done.
  assert (E : Z.land v (Z.shiftl (Z.ones s) s) = Z.shiftl (Z.land (Z.shiftr v s) (Z.ones s)) s).
  { apply Z.bits_inj'. intros n Hn. rewrite Z.land_spec, !Z.shiftl_spec by done. destruct (decide (n < s)).
    - rewrite !(Z.testbit_neg_r _ (n - s)) by lia. by rewrite andb_false_r.
    - rewrite Z.land_spec, Z.shiftr_spec by lia. do 2 f_equal. lia. }
  rewrite E, Z.land_ones, Z.shiftr_div_pow2, Z.shiftl_mul_pow2 by done.
  assert (H2 : 2 ^ (2 * s) = 2 ^ s * 2 ^ s) by (rewrite <-Z.pow_add_r by done; f_equal; lia).
  assert (0 < 2 ^ s) by lia. assert (v / 2 ^ s < 2 ^ s) by (apply Z.div_lt_upper_bound; lia).
  rewrite Z.mod_small by (split; [apply Z.div_pos; lia|done]). destruct (decide (2 ^ s <= v)) as [Hle|Hlt].
  - split; [done|]. intros _. assert (1 <= v / 2 ^ s) by (apply Z.div_le_lower_bound; lia). nia.
  - rewrite Z.div_small by lia. lia.
Qed.

Lemma lor_add m k : 0 <= k -> Z.lor (2 * 2 ^ k * m) (2 ^ k) = 2 * 2 ^ k * m + 2 ^ k.
Proof.
  intros Hk. symmetry. apply Z.add_nocarry_lor. apply Z.bits_inj'. intros n Hn. rewrite Z.bits_0, Z.land_spec.
  rewrite Z.pow2_bits_eqb by done. destruct (Z.eqb_spec k n) as [->|]; [|by rewrite andb_false_r].
  replace (2 * 2 ^ n * m) with (m * 2 ^ (n + 1)) by (rewrite Z.pow_add_r by lia; lia).
  by rewrite Z.mul_pow2_bits_low by lia.
Qed.

(** A step with shift [s = 2 ^ k] halves the range of [v]. *)
Lemma ilog2_step_spec r v k m : let s := 2 ^ k in 0 <= k -> r = 2 * s * m -> 0 < v < 2 ^ (2 * s) ->
  let '(r', v') := ilog2_step r v ((2 ^ s - 1) * 2 ^ s) s in
  r' + Z.log2 v' = r + Z.log2 v /\ 0 < v' < 2 ^ s /\ exists m', r' = s * m'.
Proof.
  intros s Hk Hr Hv. assert (Hs : 0 < s) by (unfold s; lia). unfold ilog2_step. pose proof (mask_hits v s) as H. case_decide as Hd.
  - apply H in Hd; [|lia..]. rewrite Z.shiftr_div_pow2 by lia. assert (Hp : 0 < 2 ^ s) by lia.
    assert (H2 : 2 ^ (2 * s) = 2 ^ s * 2 ^ s) by (rewrite <-Z.pow_add_r by lia; f_equal; lia).
    assert (0 < v / 2 ^ s) by (apply Z.div_str_pos; lia). assert (v / 2 ^ s < 2 ^ s) by (apply Z.div_lt_upper_bound; lia).
    subst r. unfold s. rewrite lor_add by done. fold s. split_and!; [|done|done|exists (2 * m + 1); lia].
    rewrite <-Z.shiftr_div_pow2, Z.log2_shiftr by lia. rewrite Z.max_r; [lia|].
    assert (s <= Z.log2 v) by (by apply (Z.log2_le_pow2 v s); destruct Hv). by apply Z.le_0_sub.
  - split_and!; [done|lia| |exists (2 * m); lia]. destruct (decide (2 ^ s <= v)) as [Hle|]; [|lia]. exfalso. apply H in Hle; [done|lia..].
Qed.

Lemma ilog2_round {k s b lim lim' r v} m : 0 <= k -> s = 2 ^ k -> b = (2 ^ s - 1) * 2 ^ s -> lim = 2 ^ (2 * s) -> lim' = 2 ^ s ->
  r = 2 * s * m -> 0 < v < lim ->
  exists r' v' m', ilog2_step r v b s = (r', v') /\ r' + Z.log2 v' = r + Z.log2 v /\ 0 < v' < lim' /\ r' = s * m'.
Proof.
  intros Hk -> -> -> -> Hr Hv. pose proof (ilog2_step_spec r v k m Hk Hr Hv) as H.
  destruct (ilog2_step _ _ _ _) as [r' v']. destruct H as (? & ? & m' & ?). by exists r', v', m'.
Qed.

Lemma ilog2_log2 v : 0 <= v < 2 ^ 32 -> ilog2 v = Z.log2 v.
Proof.
  intros Hv. destruct (decide (v = 0)) as [->|Hne]; [done|]. unfold ilog2.
  destruct (@ilog2_round 4 16 0xFFFF0000 (2 ^ 32) (2 ^ 16) 0 v 0) as (r1 & v1 & m1 & -> & E1 & Hv1 & Hr1); [done..|lia|].
  destruct (@ilog2_round 3 8 0xFF00 (2 ^ 16) (2 ^ 8) r1 v1 m1) as (r2 & v2 & m2 & -> & E2 & Hv2 & Hr2); [done..|lia|].
  destruct (@ilog2_round 2 4 0xF0 (2 ^ 8) (2 ^ 4) r2 v2 m2) as (r3 & v3 & m3 & -> & E3 & Hv3 & Hr3); [done..|lia|].
  destruct (@ilog2_round 1 2 0xC (2 ^ 4) (2 ^ 2) r3 v3 m3) as (r4 & v4 & m4 & -> & E4 & Hv4 & Hr4); [done..|lia|].
  destruct (@ilog2_round 0 1 0x2 (2 ^ 2) (2 ^ 1) r4 v4 m4) as (r5 & v5 & m5 & -> & E5 & Hv5 & Hr5); [done..|lia|].
  assert (v5 = 1) as -> by lia. change (Z.log2 1) with 0 in E5. cbn. lia.
Qed.

Lemma hex_digit_length d : String.length (hex_digit d) = 1%nat.
Proof.
  unfold hex_digit. destruct (_ !! _) as [s|] eqn:E; [|done]. apply list_elem_of_lookup_2 in E.
  cbn in E |- *. repeat (apply elem_of_cons in E as [->|E]; [done|]). by apply not_elem_of_nil in E.
Qed.

Lemma put_hex_length fuel : forall n s k, 0 <= n < 16 ^ Z.of_nat fuel ->
  (n < 16 ^ Z.of_nat (S k) -> (String.length (put_hex fuel n s) <= String.length s + S k)%nat) /\
  (16 ^ Z.of_nat k <= n -> (String.length s + S k <= String.length (put_hex fuel n s))%nat).
Proof.
  induction fuel as [|fuel IH]; intros n s k Hn; [split; [cbn; lia|intros; cbn in Hn; assert (0 < 16 ^ Z.of_nat k) by lia; lia]|].
  cbn [put_hex]. set (s' := hex_digit (n mod 16) +:+ s).
  assert (Hs' : String.length s' = S (String.length s)) by (unfold s'; by rewrite length_app_string, hex_digit_length).
  case_decide as Hd.
  - split; [lia|]. destruct k as [|k]; [lia|]. rewrite Nat2Z.inj_succ, Z.pow_succ_r by lia. assert (0 < 16 ^ Z.of_nat k) by lia. lia.
  - assert (Hn' : 0 <= n / 16 < 16 ^ Z.of_nat fuel).
    { split; [apply Z.div_pos; lia|]. apply Z.div_lt_upper_bound; [lia|]. rewrite <-Z.pow_succ_r, <-Nat2Z.inj_succ by lia. lia. }
    destruct k as [|k]; [split; [cbn; lia|]; intros _; destruct (IH (n / 16) s' 0%nat Hn') as [_ H]; rewrite Hs' in H; cbn in H|].
    + assert (1 <= n / 16) by (apply Z.div_le_lower_bound; lia). lia.
    + destruct (IH (n / 16) s' k Hn') as [H1 H2]. rewrite Hs' in *. rewrite !(Nat2Z.inj_succ (S k)), !(Nat2Z.inj_succ k), !Z.pow_succ_r in * by lia.
      split; intros H; [specialize (H1 ltac:(apply Z.div_lt_upper_bound; lia))|specialize (H2 ltac:(apply Z.div_le_lower_bound; lia))]; lia.
Qed.

Lemma zeros_length n : String.length (zeros n) = n.
Proof. induction n as [|n IH]; [done|]. cbn [zeros]. rewrite length_app_string, IH. done. Qed.

(** C34. With bit vectors, a variable has bits for all positions, and the bound it is
    compared with has as many digits as the variable, except if the number of
    variables is one above a power of sixteen: then neither holds, and the text
    compares bit vectors of different widths. *)
Theorem bv_widths count : 2 <= count < 2 ^ 28 -> let d := hexdigs count in
  d * 4 < 32 /\
  ((count <= 16 ^ d /\ (count <> 16 ^ d -> String.length (to_hex_width d count) = Z.to_nat d)) \/
   (count = 16 ^ d + 1 /\ String.length (to_hex_width d count) = S (Z.to_nat d))).
Proof.
  intros Hc d. assert (Hw : wrapu 32 (count - 2) = count - 2) by (apply wrapu_id; lia).
  assert (Ed : d = Z.log2 (count - 2) / 4 + 1) by (unfold d, hexdigs; by rewrite Hw, ilog2_log2 by lia).
  assert (Hd0 : 1 <= d) by (pose proof (Z.log2_nonneg (count - 2)); pose proof (Z.div_pos (Z.log2 (count - 2)) 4); lia).
  assert (Hup : count - 2 < 16 ^ d).
  { destruct (decide (count = 2)) as [->|]; [cbn in Ed; subst d; rewrite Ed; lia|]. apply Z.log2_lt_cancel.
    replace 16 with (2 ^ 4) by done. rewrite <-Z.pow_mul_r, Z.log2_pow2 by lia.
    pose proof (Z.div_mod (Z.log2 (count - 2)) 4). pose proof (Z.mod_pos_bound (Z.log2 (count - 2)) 4). lia. }
  assert (Hlog : Z.log2 (count - 2) < 28).
  { destruct (decide (count = 2)) as [->|]; [done|]. apply Z.log2_lt_pow2; lia. }
  assert (Hd7 : d <= 7) by (assert (Z.log2 (count - 2) / 4 < 7) by (apply Z.div_lt_upper_bound; lia); lia).
  split; [lia|]. unfold to_hex_width. rewrite length_app_string, zeros_length.
  assert (Hcnt : 0 <= count < 16 ^ Z.of_nat 8) by (simpl; lia). unfold to_hex.
  destruct (put_hex_length 8 count "" (Z.to_nat d - 1) Hcnt) as [Hle _]. destruct (put_hex_length 8 count "" (Z.to_nat d) Hcnt) as [Hle' Hge].
  replace (S (Z.to_nat d - 1)) with (Z.to_nat d) in Hle by lia. rewrite !Nat2Z.inj_succ, !Z2Nat.id in * by lia.
  rewrite Z.pow_succ_r in Hle' by lia. change (String.length "") with 0%nat in *.
  assert (0 < 16 ^ d) by lia. destruct (decide (count <= 16 ^ d)).
  - left. split; [done|]. intros Hne. specialize (Hle ltac:(lia)). lia.
  - right. split; [lia|]. specialize (Hle' ltac:(lia)). specialize (Hge ltac:(lia)). lia.
Qed.

Lemma bv_widths_witness : hexdigs 17 = 1 /\ to_hex_width 1 17 = "11" /\
  (hexdigs 17 * 4 < 32 /\
   ((17 <= 16 ^ hexdigs 17 /\ (17 <> 16 ^ hexdigs 17 -> String.length (to_hex_width (hexdigs 17) 17) = Z.to_nat (hexdigs 17))) \/
    (17 = 16 ^ hexdigs 17 + 1 /\ String.length (to_hex_width (hexdigs 17) 17) = S (Z.to_nat (hexdigs 17))))).
Proof. split; [done|]. split; [done|]. apply (bv_widths 17). lia. Defined.

(** * The text means the formula *)

(** ** The commands of a text *)

Fixpoint commands (fuel : nat) (s : string) : option (list SExpr) :=
  match fuel with
  | O => None
  | S fuel =>
    let s := skip_ws s in
    if decide (s = "") then Some [] else
    r ← read_sexpr s;
    match r with inl _ => None | inr (e, rest) => es ← commands fuel rest; Some (e :: es) end
  end.
Definition script (s : string) : option (list SExpr) := commands (S (String.length s)) s.

(** A command to a line. *)
Inductive lines : string -> list SExpr -> Prop :=
| lines_nil : lines "" []
| lines_cons s c t cs : spells s c -> lines t cs -> lines (s +:+ newline +:+ t) (c :: cs).

Lemma lines_app s cs t ds : lines s cs -> lines t ds -> lines (s +:+ t) (cs ++ ds).
Proof.
  intros Hs Ht. induction Hs as [|s c s' cs Hc _ IH]; [done|]. rewrite !app_string_assoc. by apply lines_cons.
Qed.
Lemma lines_put o s c cs : lines (sent o) cs -> spells s c -> lines (sent (put s o)) (cs ++ [c]).
Proof.
  intros Hl Hs. cbn. apply lines_app; [done|]. rewrite <-(app_string_nil newline). by apply lines_cons; [|constructor].
Qed.

Lemma commands_lines s cs fuel : lines s cs -> (String.length s < fuel)%nat -> commands fuel s = Some cs /\
  commands (S fuel) (newline +:+ s) = Some cs.
Proof.
  intros H. revert fuel. induction H as [|s c t cs Hs Ht IH]; intros fuel Hf; (destruct fuel as [|fuel]; [lia|]); [done|].
  assert (Hgo : forall fuel, (String.length (s +:+ newline +:+ t) < S fuel)%nat -> commands (S fuel) (s +:+ newline +:+ t) = Some (c :: cs)).
  { clear fuel Hf. intros fuel Hf. rewrite !length_app_string in Hf. destruct (spells_head s c Hs) as (x & s' & -> & Hx & _). cbn [commands].
    rewrite app_string_cons, ws_stop by done. rewrite decide_False by done. unfold read_sexpr. rewrite <-app_string_cons.
    rewrite (spells_read _ _ Hs _ (newline +:+ t)); [|done|unfold read_fuel; rewrite length_app_string; lia]. cbn [mbind option_bind].
    cbn [String.length] in Hf. change (String.length newline) with 1%nat in Hf. destruct fuel as [|fuel]; [lia|].
    destruct (IH fuel) as [_ ->]; [lia|done]. }
  split; [by apply Hgo|]. specialize (Hgo (S fuel)). cbn [commands] in Hgo |- *.
  change (skip_ws (newline +:+ ?x)) with (skip_ws x). apply Hgo. lia.
Qed.
Lemma lines_script s cs : lines s cs -> script s = Some cs.
Proof. intros H. unfold script. by destruct (commands_lines s cs (S (String.length s)) H) as [-> _]; [lia|]. Qed.

(** ** What commands mean *)

Section meaning.
Context (v : string -> option Z).

Definition value_of (e : SExpr) : option Z :=
  match e with Token t => v t | Int x => Some x | List _ => None end.

(** Comparisons of two integers, [distinct] of at least two, and [or]. *)
Definition compare_truth (op : string) (xs : list Z) : option bool :=
  if decide (op = "distinct") then
    match xs with _ :: _ :: _ => Some (bool_decide (NoDup xs)) | _ => None end
  else match xs with
       | [x; y] => if decide (op = "<") then Some (bool_decide (x < y))
                   else if decide (op = ">=") then Some (bool_decide (x >= y)) else None
       | _ => None
       end.
Fixpoint truth (e : SExpr) : option bool :=
  match e with
  | List (Token op :: args) =>
    if decide (op = "or") then
      (fix any (l : list SExpr) : option bool :=
        match l with [] => Some false | x :: l => a ← truth x; b ← any l; Some (a || b) end) args
    else xs ← mapM value_of args; compare_truth op xs
  | _ => None
  end.
End meaning.

Definition asserted (c : SExpr) : option SExpr :=
  match c with List [Token a; p] => if decide (a = "assert") then Some p else None | _ => None end.
Definition declared (c : SExpr) : option string :=
  match c with
  | List [Token a; Token n; List []; Token t] => if decide (a = "declare-fun" /\ t = "Int") then Some n else None
  | _ => None
  end.
Definition sets_up (c : SExpr) : bool :=
  match c with
  | List (Token a :: _) => bool_decide (a ∈ ["set-option"; "set-logic"; "declare-fun"; "assert"]) | _ => false
  end.

Definition assigns (cs : list SExpr) (v : string -> option Z) : Prop := forall n, is_Some (v n) <-> n ∈ omap declared cs.
Definition models (cs : list SExpr) (v : string -> option Z) : Prop :=
  assigns cs v /\ Forall (fun p => truth v p = Some true) (omap asserted cs).
(** Commands a solver accepts: constants are declared once, terms have a value. *)
Definition accepted (cs : list SExpr) : Prop :=
  forallb sets_up cs = true /\ NoDup (omap declared cs) /\
  forall v, assigns cs v -> Forall (fun p => is_Some (truth v p)) (omap asserted cs).

Definition check_command : SExpr := List [Token "check-sat"].
Definition value_command (ns : list string) : SExpr := List [Token "get-value"; List (Token <$> ns)].
Definition value_pair (v : string -> option Z) (n : string) : SExpr := List [Token n; Int (default 0 (v n))].

(** What SMT-LIB asks of the answers to a script [cs] of accepted commands: whether
    it has a model, and then the values of constants in one model, pairs of their
    names and numerals (that the reader can represent). *)
Record smtlib_process (z3 : string -> string) (cs : list SExpr) : Prop := {
  sp_sat s v : accepted cs -> script s = Some (cs ++ [check_command]) -> models cs v -> z3 s = "sat" +:+ newline;
  sp_unsat s : accepted cs -> script s = Some (cs ++ [check_command]) -> (forall v, ~ models cs v) -> z3 s = "unsat" +:+ newline;
  sp_value s ns v0 : accepted cs -> script s = Some (cs ++ [check_command; value_command ns]) -> models cs v0 ->
    ns <> [] -> ns ⊆ omap declared cs -> exists v text, models cs v /\ z3 s = "sat" +:+ newline +:+ text /\
      (Forall (fun n => 0 <= default 0 (v n) < 2 ^ 31) ns -> exists rest, read_sexpr text = Some (inr (List (value_pair v <$> ns), rest)));
}.

(** ** The commands of a formula *)

Definition assert_command (p : SExpr) : SExpr := List [Token "assert"; p].
Definition less_term (a b : nat) : SExpr := List [Token "<"; Token (evar a); Token (evar b)].
Definition var_commands (n i : nat) : list SExpr :=
  [List [Token "declare-fun"; Token (evar i); List []; Token "Int"];
   assert_command (List [Token ">="; Token (evar i); Int 0]);
   assert_command (List [Token "<"; Token (evar i); Int (Z.of_nat n)])].
Definition distinct_command (n : nat) : SExpr :=
  assert_command (List (Token "distinct" :: (Token <$> (evar <$> seq 0 n)))).
Definition constr_term (c : constr) : SExpr :=
  match c with
  | Edge a b => less_term a b
  | EdgeDisj a b c d => List [Token "or"; less_term a b; less_term c d]
  end.
Definition formula_script (cl_lia : bool) (f : formula) : list SExpr :=
  [List [Token "set-option"; Token ":produce-models"; Token "true"];
   List [Token "set-logic"; Token (if cl_lia then "QF_LIA" else "QF_IDL")]] ++
  (seq 0 (variables f) ≫= var_commands (variables f)) ++
  [distinct_command (variables f)] ++ ((fun c => assert_command (constr_term c)) <$> constraints f).

Lemma pretty_of_nat (n : nat) : pretty (Z.of_nat n) = pretty n.
Proof. by destruct n. Qed.
Lemma evar_token i : evar i <> "" /\ token_chars (evar i) = true /\ atom (evar i) = Token (evar i).
Proof.
  unfold evar. destruct (strtol_pretty (Z.of_nat i)) as (_ & H & _). split_and!; [done| |done].
  rewrite app_string_cons. change ("" +:+ ?x) with x. by rewrite <-pretty_of_nat.
Qed.
Lemma evar_writable i : writable (Token (evar i)).
Proof. apply evar_token. Qed.
Lemma evar_inj i j : evar i = evar j -> i = j.
Proof. unfold evar. rewrite !app_string_cons. intros [= H]. change (pretty i = pretty j) in H. by apply (inj pretty). Qed.

Ltac spell e := match goal with |- spells ?s _ => replace s with (show e) end;
  [apply show_spells; unfold assert_command, less_term; repeat first [apply evar_writable | progress cbn [writable] | split_and!]; try done; try lia
  |unfold assert_command, less_term; cbn [show]; rewrite ?app_string_assoc, ?pretty_of_nat; reflexivity].

Lemma spells_less a b : spells ("(" +:+ "<" +:+ " " +:+ evar a +:+ " " +:+ evar b +:+ ")") (less_term a b).
Proof. spell (less_term a b). Qed.
Lemma spells_evars i n tail l : spells_elems tail l ->
  spells_elems (evars i n +:+ tail) ((Token <$> (evar <$> seq i n)) ++ l).
Proof.
  intros Ht. revert i. induction n as [|n IH]; intros i; [done|]. cbn [evars seq fmap list_fmap app].
  rewrite !app_string_assoc. apply spells_next; [|apply IH]. destruct (evar_token i) as (? & ? & ?). by apply spells_token.
Qed.

Section sent.
Context (cl_lia : bool).

Lemma new_lines : lines (sent (SmtlibSatSolver_new false cl_lia)) (take 2 (formula_script cl_lia (MkFormula 0 []))).
Proof.
  unfold SmtlibSatSolver_new. cbn [formula_script take app]. apply (lines_put _ _ _ [_]).
  - apply (lines_put (MkSolver 0 "" 0) _ _ []); [constructor|]. spell (List [Token "set-option"; Token ":produce-models"; Token "true"]).
  - destruct cl_lia; [spell (List [Token "set-logic"; Token "QF_LIA"])|spell (List [Token "set-logic"; Token "QF_IDL"])].
Qed.

Lemma declare_lines n i o cs : Z.of_nat n < 2 ^ 31 -> no_vars o = Z.of_nat n -> lines (sent o) cs ->
  exists o', declare false (Z.of_nat n) i o = Some o' /\ no_vars o' = no_vars o /\ taken o' = taken o /\
    lines (sent o') (cs ++ var_commands n i).
Proof.
  intros Hn Ho Hl. eexists. split; [done|]. split; [done|]. split; [done|]. rewrite Ho.
  assert (E : cs ++ var_commands n i = ((cs ++ take 1 (var_commands n i)) ++ take 1 (drop 1 (var_commands n i))) ++ drop 2 (var_commands n i))
    by by rewrite <-!app_assoc.
  rewrite E. cbn [take drop var_commands]. repeat apply lines_put; [done| | |].
  - spell (List [Token "declare-fun"; Token (evar i); List []; Token "Int"]).
  - spell (assert_command (List [Token ">="; Token (evar i); Int 0])).
  - spell (assert_command (List [Token "<"; Token (evar i); Int (Z.of_nat n)])).
Qed.

Lemma declares_lines n l : Z.of_nat n < 2 ^ 31 -> forall o cs, no_vars o = Z.of_nat n -> lines (sent o) cs ->
  exists o', for_each l (declare false (Z.of_nat n)) o = Some o' /\
    no_vars o' = Z.of_nat n /\ taken o' = taken o /\ lines (sent o') (cs ++ (l ≫= var_commands n)).
Proof.
  intros Hn. induction l as [|i l IH]; intros o cs Ho Hl; [exists o; by rewrite app_nil_r|]. cbn [for_each].
  destruct (declare_lines n i o cs Hn Ho Hl) as (o1 & -> & Ho1 & Ht1 & Hl1). cbn [mbind option_bind].
  destruct (IH o1 _ (eq_trans Ho1 Ho) Hl1) as (o2 & -> & ? & Ht2 & Hl2). exists o2. split_and!; [done|done|congruence|].
  by rewrite <-app_assoc in Hl2.
Qed.

Lemma alloc_lines n o cs : Z.of_nat n < 2 ^ 31 -> lines (sent o) cs ->
  exists o', alloc_variables false n o = Some o' /\ no_vars o' = Z.of_nat n /\ taken o' = taken o /\
    lines (sent o') (cs ++ (seq 0 n ≫= var_commands n) ++ [distinct_command n]).
Proof.
  intros Hn Hl. unfold alloc_variables. set (o0 := MkSolver _ _ _).
  destruct (declares_lines n (seq 0 n) Hn o0 cs) as (o' & -> & Ho & Ht & Hl'); [done|done|]. cbn [mbind option_bind].
  eexists. split; [done|]. split; [done|]. split; [done|]. rewrite app_assoc. apply lines_put; [done|].
  change ("(assert (distinct " +:+ ?x) with ("(" +:+ "assert" +:+ " " +:+ ("(" +:+ "distinct" +:+ " " +:+ x)). apply spells_list.
  apply spells_next; [by apply spells_token|]. change "))" with (")" +:+ ")"). rewrite <-!app_string_assoc. apply spells_last.
  rewrite !app_string_assoc. apply spells_list, spells_next; [by apply spells_token|].
  rewrite <-(app_nil_r (Token <$> _)). apply spells_evars. constructor.
Qed.

Lemma constr_lines cons : forall o cs, lines (sent o) cs ->
  let o' := foldl (add_constr false) o cons in
  no_vars o' = no_vars o /\ taken o' = taken o /\ lines (sent o') (cs ++ ((fun c => assert_command (constr_term c)) <$> cons)).
Proof.
  induction cons as [|c cons IH]; intros o cs Hl; [by rewrite app_nil_r|]. cbn [foldl fmap list_fmap].
  destruct (IH (add_constr false o c) (cs ++ [assert_command (constr_term c)])) as (Hn & Ht & H).
  - destruct c as [a b|a b c d]; apply lines_put; try done.
    + spell (assert_command (less_term a b)).
    + change ("(assert (or (" +:+ ?x) with ("(" +:+ "assert" +:+ " " +:+ ("(" +:+ "or" +:+ " " +:+ ("(" +:+ x))).
      apply spells_list, spells_next; [by apply spells_token|]. cbn [constr_term less].
      assert (E : forall a b c d : string, "(" +:+ "or" +:+ " " +:+ "(" +:+ "<" +:+ " " +:+ a +:+ " " +:+ b +:+ ")" +:+ "(" +:+ "<" +:+ " " +:+ c +:+ " " +:+ d +:+ ")))" =
        ("(" +:+ "or" +:+ " " +:+ ("(" +:+ "<" +:+ " " +:+ a +:+ " " +:+ b +:+ ")") +:+ ("(" +:+ "<" +:+ " " +:+ c +:+ " " +:+ d +:+ ")") +:+ ")") +:+ ")")
        by (intros; by rewrite !app_string_assoc).
      rewrite E. apply spells_last, spells_list, spells_next; [by apply spells_token|].
      apply spells_item; [apply spells_less|done|]. apply spells_last, spells_less.
  - split_and!; [by rewrite Hn; destruct c|by rewrite Ht; destruct c|]. by rewrite <-app_assoc in H.
Qed.

(** The text of a formula. *)
Lemma formula_lines f : Z.of_nat (variables f) < 2 ^ 31 ->
  exists o, alloc_variables false (variables f) (SmtlibSatSolver_new false cl_lia) = Some o /\
    let o' := foldl (add_constr false) o (constraints f) in
    no_vars o' = Z.of_nat (variables f) /\ taken o' = 0%nat /\ lines (sent o') (formula_script cl_lia f).
Proof.
  intros Hn. destruct (alloc_lines (variables f) _ _ Hn new_lines) as (o & Eo & Hno & Ht & Hl). exists o. split; [done|].
  destruct (constr_lines (constraints f) o _ Hl) as (Hn' & Ht' & Hl'). cbv zeta. split_and!; [congruence|by rewrite Ht', Ht|].
  unfold formula_script. by rewrite <-!app_assoc in Hl'.
Qed.
End sent.

(** ** Models of the script are models of the formula *)

Section script.
Context (cl_lia : bool) (f : formula).
Let n := variables f.
Let cs := formula_script cl_lia f.
Hypothesis Htwo : (2 <= n)%nat.
Hypothesis Hrange : Forall (in_range n) (constraints f).

Lemma script_declares : omap declared cs = evar <$> seq 0 n.
Proof.
  unfold cs, formula_script. rewrite !omap_app. cbn -[seq formula_script].
  assert (E : omap declared ((fun c => assert_command (constr_term c)) <$> constraints f) = []).
  { generalize (constraints f). intros l. induction l as [|[] l IH]; [done|exact IH..]. }
  rewrite E, app_nil_r. fold n. generalize n at 1. intros k. induction (seq 0 n) as [|i l IH]; [done|]. cbn [mbind list_bind].
  rewrite omap_app, IH. done.
Qed.

Lemma script_asserts (P : SExpr -> Prop) : Forall P (omap asserted cs) <->
  (forall i, (i < n)%nat -> P (List [Token ">="; Token (evar i); Int 0]) /\ P (List [Token "<"; Token (evar i); Int (Z.of_nat n)])) /\
  P (List (Token "distinct" :: (Token <$> (evar <$> seq 0 n)))) /\ Forall (fun c => P (constr_term c)) (constraints f).
Proof.
  unfold cs, formula_script. rewrite !omap_app, !Forall_app. fold n.
  assert (E1 : Forall P (omap asserted ((fun c => assert_command (constr_term c)) <$> constraints f)) <-> Forall (fun c => P (constr_term c)) (constraints f)).
  { generalize (constraints f). intros l. induction l as [|c l IH]; [done|].
    rewrite (Forall_cons _ c l), <-IH, <-Forall_cons. reflexivity. }
  assert (E2 : forall k l, Forall P (omap asserted (l ≫= var_commands k)) <->
    forall i, i ∈ l -> P (List [Token ">="; Token (evar i); Int 0]) /\ P (List [Token "<"; Token (evar i); Int (Z.of_nat k)])).
  { intros k l. induction l as [|i l IH]; [split; [by intros _ i ?%not_elem_of_nil|constructor]|]. cbn [mbind list_bind].
    rewrite omap_app, Forall_app, IH.
    change (omap asserted (var_commands k i)) with [List [Token ">="; Token (evar i); Int 0]; List [Token "<"; Token (evar i); Int (Z.of_nat k)]].
    rewrite !Forall_cons. setoid_rewrite elem_of_cons. clear IH. naive_solver. }
  rewrite E1, E2. setoid_rewrite elem_of_seq.
  change (omap asserted [distinct_command n]) with [List (Token "distinct" :: (Token <$> (evar <$> seq 0 n)))].
  change (omap asserted [_; _]) with (@nil SExpr). rewrite Forall_singleton, Forall_nil.
  split; [intros (_ & H & ? & ?); split_and!; [intros i Hi; apply H; lia|done|done]|].
  intros (H & ? & ?). split_and!; [done|intros i Hi; apply H; lia|done|done].
Qed.

Section values.
Context (v : string -> option Z) (Hv : assigns cs v).
Definition val (i : nat) : Z := default 0 (v (evar i)).

Lemma assigned i : (i < n)%nat -> v (evar i) = Some (val i).
Proof.
  intros Hi. unfold val. destruct (Hv (evar i)) as [_ [x ->]]; [|done]. rewrite script_declares. apply list_elem_of_fmap_2, elem_of_seq. lia.
Qed.
Lemma values_seq : mapM (value_of v) (Token <$> (evar <$> seq 0 n)) = Some (val <$> seq 0 n).
Proof.
  apply mapM_Some_2. rewrite <-list_fmap_compose, Forall2_fmap. apply Forall2_same_length_lookup. split; [done|].
  intros i x y Hx Hy. simplify_eq. apply assigned. apply lookup_seq in Hx. lia.
Qed.

Lemma truth_lower i : (i < n)%nat -> truth v (List [Token ">="; Token (evar i); Int 0]) = Some (bool_decide (val i >= 0)).
Proof. intros Hi. cbn. by rewrite assigned. Qed.
Lemma truth_upper i : (i < n)%nat -> truth v (List [Token "<"; Token (evar i); Int (Z.of_nat n)]) = Some (bool_decide (val i < Z.of_nat n)).
Proof. intros Hi. cbn. by rewrite assigned. Qed.
Lemma truth_less a b : (a < n)%nat -> (b < n)%nat -> truth v (less_term a b) = Some (bool_decide (val a < val b)).
Proof. intros Ha Hb. cbn. by rewrite !assigned. Qed.
Lemma truth_distinct : truth v (List (Token "distinct" :: (Token <$> (evar <$> seq 0 n)))) = Some (bool_decide (NoDup (val <$> seq 0 n))).
Proof.
  cbn [truth]. rewrite decide_False by done. rewrite values_seq. cbn [mbind option_bind]. unfold compare_truth. rewrite decide_True by done.
  clear -Htwo. destruct n as [|[|k]]; [lia..|]. done.
Qed.
Lemma truth_constr c : in_range n c -> exists b, truth v (constr_term c) = Some b /\
  (b = true <-> match c with Edge a b => val a < val b | EdgeDisj a b c d => val a < val b \/ val c < val d end).
Proof.
  destruct c as [a b|a b c d]; intros H; cbn [constr_term].
  - rewrite truth_less by apply H. eexists. split; [done|]. apply bool_decide_eq_true.
  - change (truth v (List [Token "or"; less_term a b; less_term c d])) with
      (x ← truth v (less_term a b); y ← (z ← truth v (less_term c d); Some (z || false)); Some (x || y)).
    rewrite !truth_less by apply H. cbn [mbind option_bind]. eexists. split; [done|].
    by rewrite orb_false_r, orb_true_iff, !bool_decide_eq_true.
Qed.

Lemma models_iff : models cs v <-> (forall i, (i < n)%nat -> 0 <= val i < Z.of_nat n) /\ NoDup (val <$> seq 0 n) /\
  Forall (holds (fun i => Z.to_nat (val i))) (constraints f).
Proof.
  unfold models. rewrite script_asserts, truth_distinct, !Forall_forall. rewrite Forall_forall in Hrange.
  assert (Hsome : forall b, Some b = Some true <-> b = true) by (intros []; naive_solver).
  assert (Hc : (forall i, (i < n)%nat -> 0 <= val i < Z.of_nat n) -> forall c, c ∈ constraints f ->
    truth v (constr_term c) = Some true <-> holds (fun i => Z.to_nat (val i)) c).
  { intros Hb c Hin. apply Hrange in Hin. destruct (truth_constr c Hin) as (b & -> & H). rewrite Hsome, H.
    destruct c as [a b'|a b' c d]; cbn in *; [pose proof (Hb a); pose proof (Hb b'); lia|].
    pose proof (Hb a); pose proof (Hb b'); pose proof (Hb c); pose proof (Hb d). lia. }
  split.
  - intros (_ & H & Hd & Hcs). assert (Hb : forall i, (i < n)%nat -> 0 <= val i < Z.of_nat n).
    { intros i Hi. destruct (H i Hi) as [H1 H2]. rewrite truth_lower, truth_upper in * by done.
      apply Hsome, bool_decide_eq_true in H1. apply Hsome, bool_decide_eq_true in H2. lia. }
    split_and!; [done|by apply Hsome, bool_decide_eq_true in Hd|]. intros c Hin. apply Hc; [done|done|]. by apply Hcs.
  - intros (Hb & Hd & Hcs). split_and!; [done| |by apply Hsome, bool_decide_eq_true|].
    + intros i Hi. rewrite truth_lower, truth_upper by done. pose proof (Hb i Hi). split; apply Hsome, bool_decide_eq_true; lia.
    + intros c Hin. apply Hc; [done|done|]. by apply Hcs.
Qed.
End values.

Lemma script_accepted : accepted cs.
Proof.
  split_and!.
  - assert (E1 : forall l : list constr, forallb sets_up ((fun c => assert_command (constr_term c)) <$> l) = true)
      by (induction l as [|c l IH]; [done|exact IH]).
    assert (E2 : forall k l, forallb sets_up (l ≫= var_commands k) = true).
    { intros k l. induction l as [|i l IH]; [done|]. cbn [mbind list_bind]. by rewrite forallb_app, IH. }
    unfold cs, formula_script. rewrite !forallb_app, E1, E2. by destruct cl_lia.
  - rewrite script_declares. apply NoDup_fmap_2; [|apply NoDup_seq]. intros i j. apply evar_inj.
  - intros v Hv. apply script_asserts. rewrite truth_distinct by done. split_and!; [|by eexists|].
    + intros i Hi. by rewrite truth_lower, truth_upper by done.
    + eapply Forall_impl; [exact Hrange|]. intros c Hc. destruct (truth_constr v Hv c Hc) as (b & -> & _). by eexists.
Qed.

(** From a model of the script to one of the formula, and back. *)
Lemma model_of_values v : models cs v -> is_model f (Z.to_nat <$> (val v <$> seq 0 n)).
Proof.
  intros Hm. pose proof Hm as [Hv _]. apply (models_iff v Hv) in Hm as (Hb & Hd & Hc). split.
  - apply submseteq_length_Permutation; [|by rewrite !length_fmap, !length_seq]. apply NoDup_submseteq.
    + apply NoDup_fmap_2_strong; [|done]. intros x y (i & -> & Hi%elem_of_seq)%list_elem_of_fmap (j & -> & Hj%elem_of_seq)%list_elem_of_fmap E.
      pose proof (Hb i); pose proof (Hb j). lia.
    + intros x (y & -> & (i & -> & Hi%elem_of_seq)%list_elem_of_fmap)%list_elem_of_fmap. apply elem_of_seq. pose proof (Hb i). lia.
  - rewrite Forall_forall in *. intros c Hin. specialize (Hc c Hin). pose proof (Hrange c Hin) as Hr.
    assert (Hval : forall i, (i < n)%nat -> value (Z.to_nat <$> (val v <$> seq 0 n)) i = Z.to_nat (val v i)).
    { intros i Hi. unfold value. by rewrite !list_lookup_fmap, lookup_seq_lt. }
    destruct c; cbn in *; rewrite !Hval by tauto; done.
Qed.

Definition values_of (m : list nat) (s : string) : option Z :=
  (fun p => Z.of_nat (value m p.1)) <$> list_find (fun t => t = s) (evar <$> seq 0 n).
Lemma values_of_evar m i : (i < n)%nat -> values_of m (evar i) = Some (Z.of_nat (value m i)).
Proof.
  intros Hi. unfold values_of. assert (E : list_find (fun t => t = evar i) (evar <$> seq 0 n) = Some (i, evar i)); [|by rewrite E].
  apply list_find_Some. split_and!; [by rewrite list_lookup_fmap, lookup_seq_lt|done|].
  intros j y Hj Hji. rewrite list_lookup_fmap, lookup_seq_lt in Hj by lia. injection Hj as <-. intros ?%evar_inj. lia.
Qed.
Lemma values_of_assigns m : assigns cs (values_of m).
Proof.
  intros s. rewrite script_declares. unfold values_of. rewrite fmap_is_Some. split.
  - intros [[i t] (Hi & -> & _)%list_find_Some]. by eapply list_elem_of_lookup_2.
  - intros Hs. destruct (list_find _ _) eqn:E; [done|]. apply list_find_None in E. rewrite Forall_forall in E. by destruct (E s Hs).
Qed.
Lemma values_of_model m : is_model f m -> models cs (values_of m).
Proof.
  intros [Hp Hc]. change (m ≡ₚ seq 0 n) in Hp. assert (Hval : forall i, (i < n)%nat -> val (values_of m) i = Z.of_nat (value m i)) by (intros; unfold val; by rewrite values_of_evar).
  assert (Hlen : length m = n) by (by rewrite Hp, length_seq).
  assert (Hat : forall i, (i < n)%nat -> m !! i = Some (value m i)).
  { intros i Hi. unfold value. by destruct (lookup_lt_is_Some_2 m i) as [x ->]; [lia|]. }
  apply models_iff; [apply values_of_assigns|]. split_and!.
  - intros i Hi. rewrite Hval by done. assert (value m i ∈ seq 0 n) as ?%elem_of_seq; [|lia].
    rewrite <-Hp. by eapply list_elem_of_lookup_2, Hat.
  - assert (E : val (values_of m) <$> seq 0 n = Z.of_nat <$> m).
    { apply list_eq. intros i. rewrite !list_lookup_fmap. destruct (decide (i < n)%nat) as [Hi|Hi].
      - rewrite lookup_seq_lt by done. cbn. by rewrite Hval, Hat by done.
      - by rewrite !lookup_ge_None_2 by (rewrite ?length_seq; lia). }
    rewrite E. apply NoDup_fmap_2; [apply _|]. rewrite Hp. apply NoDup_seq.
  - rewrite Forall_forall in *. intros c Hin. specialize (Hc c Hin). pose proof (Hrange c Hin) as Hr.
    destruct c; cbn in *; rewrite !Hval, !Nat2Z.id by tauto; done.
Qed.
End script.

(** ** The class is a correct solver *)

Section decides.
Context (cl_lia : bool) (f : formula) (z3 : string -> string).
Let n := variables f.
Let cs := formula_script cl_lia f.
Hypothesis Hz3 : smtlib_process z3 cs.
Hypothesis Htwo : (2 <= n)%nat.
Hypothesis Hint : Z.of_nat n < 2 ^ 31.
Hypothesis Hrange : Forall (in_range n) (constraints f).

Lemma model_dec : (exists m, is_model f m) \/ forall m, ~ is_model f m.
Proof.
  destruct (decide (Exists (fun m => Forall (holds (value m)) (constraints f)) (permutations (seq 0 n)))) as [H|H].
  - left. apply Exists_exists in H as (m & Hm%permutations_Permutation & Hc). by exists m.
  - right. intros m [Hp Hc]. apply H, Exists_exists. exists m. split; [by apply permutations_Permutation|done].
Qed.

Lemma check_reads o (b : bool) : taken o = 0%nat -> z3 (sent (put "(check-sat)" o)) = (if b then "sat" else "unsat") +:+ newline ->
  exists o', check_sat z3 o = Some (b, o') /\ no_vars o' = no_vars o /\ sent o' = sent (put "(check-sat)" o) /\
    (b = true -> taken o' = 4%nat).
Proof.
  intros Ht Hz. unfold check_sat, out. change (taken (put "(check-sat)" o)) with (taken o). rewrite Ht, Hz.
  destruct b; cbn [drop_text]; (eexists; split; [done|]; split_and!; [done|done|]); [|done].
  intros _. unfold take_out. cbn [taken]. by rewrite Hz.
Qed.

Lemma reserved_written (w : nat -> Z) (l : list nat) (pre : list (option Z)) :
  l = seq (length pre) (length l) ->
  for_each l (fun i res => vector_set false i (w i) res) (MkUvector 0 (pre ++ replicate (length l) None)) =
    Some (MkUvector 0 (pre ++ (Some <$> (w <$> l)))).
Proof.
  revert pre. induction l as [|i l IH]; intros pre Hl; [done|]. cbn [length seq] in Hl. injection Hl as Hi Hl.
  assert (Hset : vector_set false i (w i) (MkUvector 0 (pre ++ replicate (S (length l)) None)) =
    Some (MkUvector 0 ((pre ++ [Some (w i)]) ++ replicate (length l) None))).
  { unfold vector_set, vector_at. cbn [u_size u_storage]. rewrite bool_decide_eq_true_2 by (rewrite length_app, length_replicate; lia).
    cbn [cassert mbind option_bind]. rewrite insert_app_r_alt, Hi, Nat.sub_diag by lia. by rewrite <-app_assoc. }
  cbn [for_each length]. rewrite Hset. cbn [mbind option_bind].
  rewrite (IH (pre ++ [Some (w i)])) by (rewrite length_app, Nat.add_comm; exact Hl). by rewrite <-app_assoc.
Qed.
Lemma storage_read (l : list Z) : mapM (vector_get false (MkUvector 0 (Some <$> l))) (seq 0 (length l)) = Some l.
Proof.
  apply mapM_Some_2. apply Forall2_same_length_lookup. split; [by rewrite length_seq|]. intros i j x Hi Hx.
  apply lookup_seq in Hi as [-> Hi]. unfold vector_get, vector_at. cbn [u_size u_storage Nat.add].
  rewrite bool_decide_eq_true_2 by by rewrite length_fmap. cbn [cassert mbind option_bind]. by rewrite list_lookup_fmap, Hx.
Qed.

Lemma get_model_reads o v text rest : no_vars o = Z.of_nat n -> taken o = 4%nat -> assigns cs v ->
  (forall i, (i < n)%nat -> 0 <= val v i < 2 ^ 31) ->
  z3 (sent (put ("(get-value (" +:+ evars 0 n +:+ "))") o)) = "sat" +:+ newline +:+ text ->
  read_sexpr text = Some (inr (List (value_pair v <$> (evar <$> seq 0 n)), rest)) ->
  exists o', get_model false false z3 o = Some (MkUvector 0 (Some <$> (val v <$> seq 0 n)), o').
Proof.
  intros Hn Ht Hv Hb Hz Hr. assert (En : forall s, Z.to_nat (no_vars (put s o)) = n) by (intros; cbn; lia).
  unfold get_model. rewrite Hn, Nat2Z.id, En. unfold out.
  change (taken (put ("(get-value (" +:+ evars 0 n +:+ "))") o)) with (taken o). rewrite Ht, Hz.
  change (drop_text 4 ("sat" +:+ newline +:+ text)) with (drop_text 0 text).
  assert (E : drop_text 0 text = text) by by destruct text. rewrite E, Hr. cbn [mbind option_bind].
  rewrite (for_each_ext _ (fun i res => vector_set false i (val v i) res)).
  - pose proof (reserved_written (val v) (seq 0 n) []) as Hw. rewrite length_seq in Hw. cbn [app] in Hw.
    unfold vector_reserve. rewrite Hw by done. by eexists.
  - intros i res [_ Hi]%elem_of_seq. unfold model_entry. rewrite !list_lookup_fmap, lookup_seq_lt by done. cbn.
    rewrite bool_decide_eq_true_2 by done. cbn. rewrite wrapu_id; [done|]. pose proof (Hb i Hi). unfold val in *. lia.
Qed.

(** A library that checks subscripts fails the first write. *)
Lemma get_model_checked o : 0 < no_vars o -> get_model false true z3 o = None.
Proof.
  intros Hn. unfold get_model. destruct (read_sexpr _) as [[?|[[]]]|]; try done. cbn [mbind option_bind].
  assert (E : forall t, Z.to_nat (no_vars (put t o)) = S (Z.to_nat (no_vars o - 1))) by (intros; cbn; lia).
  rewrite E. cbn [seq for_each].
  destruct (model_entry false _ 0) as [x|]; done.
Qed.

(** With integers, and subscripts that reach the storage, the class is a correct
    solver: if the process answers the script of the formula as SMT-LIB asks, no
    assertion fails, the answer is whether the formula has a model, and the model
    that is read back is one. With checked subscripts no model can be read. *)
Lemma solve_decides : exists r, solve false cl_lia false z3 f = Some r /\
  match r with Some m => is_model f (Z.to_nat <$> m) | None => forall m, ~ is_model f m end /\
  solve false cl_lia true z3 f = match r with Some _ => None | None => Some None end.
Proof.
  destruct (formula_lines cl_lia f Hint) as (o & Eo & Hno & Ht & Hl). unfold solve. rewrite Eo. cbn [mbind option_bind].
  set (o1 := foldl (add_constr false) o (constraints f)) in *.
  pose proof (script_accepted cl_lia f Htwo Hrange) as Hacc.
  assert (Hs1 : lines (sent (put "(check-sat)" o1)) (cs ++ [check_command])) by (apply lines_put; [done|]; spell check_command).
  destruct model_dec as [[m Hm]|Hnone].
  - pose proof (values_of_model cl_lia f Htwo Hrange m Hm) as Hv.
    pose proof (sp_sat _ _ Hz3 _ _ Hacc (lines_script _ _ Hs1) Hv) as Ez.
    destruct (check_reads o1 true Ht Ez) as (o2 & -> & Hn2 & Hsent2 & Ht2). cbn [mbind option_bind].
    assert (Hs2 : lines (sent (put ("(get-value (" +:+ evars 0 n +:+ "))") o2)) (cs ++ [check_command; value_command (evar <$> seq 0 n)])).
    { change [check_command; value_command (evar <$> seq 0 n)] with ([check_command] ++ [value_command (evar <$> seq 0 n)]).
      rewrite app_assoc. apply lines_put; [by rewrite Hsent2|].
      change ("(get-value (" +:+ ?x) with ("(" +:+ "get-value" +:+ " " +:+ ("(" +:+ x)). apply spells_list, spells_next; [by apply spells_token|].
      change "))" with (")" +:+ ")"). rewrite <-!app_string_assoc. apply spells_last. rewrite !app_string_assoc. apply spells_list.
      rewrite <-(app_nil_r (Token <$> _)). apply spells_evars. constructor. }
    destruct (sp_value _ _ Hz3 _ (evar <$> seq 0 n) _ Hacc (lines_script _ _ Hs2) Hv) as (w & text & Hw & Ez2 & Hread).
    { destruct n as [|k] eqn:En; [lia|done]. }
    { unfold cs. by rewrite (script_declares cl_lia f). }
    pose proof Hw as Hwm. pose proof (proj1 Hw) as Hass. apply (models_iff cl_lia f Htwo Hrange w Hass) in Hwm as (Hb & _ & _).
    destruct Hread as (rest & Hread).
    { apply Forall_forall. intros s (i & -> & Hi%elem_of_seq)%list_elem_of_fmap. pose proof (Hb i) as Hbi. unfold val in Hbi. change (variables f) with n in Hbi. lia. }
    pose proof (get_model_checked o2 ltac:(rewrite Hn2, Hno; lia)) as Hchk.
    destruct (get_model_reads o2 w text rest) as (o3 & ->); [rewrite Hn2; exact Hno|by apply Ht2|done| |done|done|].
    { intros i Hi. pose proof (Hb i Hi) as Hbi. change (variables f) with n in Hbi. lia. }
    cbn [mbind option_bind fst]. pose proof (storage_read (val w <$> seq 0 n)) as Hst. rewrite length_fmap, length_seq in Hst.
    change (variables f) with n. rewrite Hst, Hchk. cbn [mbind option_bind]. eexists. split_and!; [done| |done].
    by apply (model_of_values cl_lia f Htwo Hrange).
  - assert (Hno' : forall v, ~ models cs v) by (intros v Hv; by eapply Hnone, (model_of_values cl_lia f Htwo Hrange)).
    pose proof (sp_unsat _ _ Hz3 _ Hacc (lines_script _ _ Hs1) Hno') as Ez.
    destruct (check_reads o1 false Ht Ez) as (o2 & -> & _). cbn [mbind option_bind]. by eexists.
Qed.
End decides.

(** *** A process for one formula *)

Definition demo_formula : formula := MkFormula 2 [Edge 1 0].
Definition demo_values : string -> option Z := values_of demo_formula [1; 0]%nat.
Definition demo_process (s : string) : string :=
  match script s ≫= last with
  | Some (List [Token _; List ns]) =>
    "sat" +:+ newline +:+ show (List ((fun e => match e with Token n => value_pair demo_values n | _ => e end) <$> ns)) +:+ newline
  | Some _ => "sat" +:+ newline
  | None => ""
  end.

Lemma demo_range : Forall (in_range 2) (constraints demo_formula).
Proof. repeat constructor. Qed.
Lemma demo_models cl_lia : models (formula_script cl_lia demo_formula) demo_values.
Proof.
  apply values_of_model; [done|apply demo_range|]. split; [|by repeat constructor]. apply (bool_decide_unpack _). by vm_compute.
Qed.

Lemma demo_process_ok cl_lia : smtlib_process demo_process (formula_script cl_lia demo_formula).
Proof.
  split.
  - intros s v _ Hs _. unfold demo_process. rewrite Hs. cbn [mbind option_bind]. by rewrite last_snoc.
  - intros s _ _ H. by destruct (H _ (demo_models cl_lia)).
  - intros s ns v0 _ Hs _ _ Hns. exists demo_values. eexists. split; [apply demo_models|]. split.
    + unfold demo_process. rewrite Hs. cbn [mbind option_bind].
      change [check_command; value_command ns] with ([check_command] ++ [value_command ns]). rewrite app_assoc, last_snoc. done.
    + intros Hb. exists newline. rewrite <-list_fmap_compose. apply read_show_rest; [|done].
      apply writable_list, Forall_forall. intros e (n & -> & Hn)%list_elem_of_fmap. rewrite Forall_forall in Hb. pose proof (Hb n Hn).
      apply Hns in Hn. rewrite (script_declares cl_lia demo_formula) in Hn. apply list_elem_of_fmap in Hn as (i & -> & _).
      apply writable_list. apply Forall_cons_2; [apply evar_writable|]. apply Forall_singleton. cbn [writable]. unfold demo_values in *. lia.
Qed.
