(* ===== verification/RfscSpec.v ===== *)
(** * RfscSpec: what the reads-from exploration does

    The properties of the trace builder of the reads-from exploration: what running
    a program records, which events [causal_past] keeps, what the formula says, what
    [try_sat] decides, how a leaf is replayed, and that the analysis puts the trace
    back. *)

From S2P Require Import Prelude.
From S2P Require Import SatGraph.
From S2P Require Import SatWf.
From S2P Require Import SatClosed.
From S2P Require Import SatSound.
From S2P Require Import SatBuild.
From S2P Require Import SatSpec.
From S2P Require Import VClock.
From S2P Require Import CPid.
From S2P Require Import SymAddr.
From S2P Require Import ByteOps.
From S2P Require Import SymEv.
From S2P Require Import TSOState.
From S2P Require Import Unfold.
From S2P Require Import Decision.
From S2P Require Import Rfsc.
From S2P Require Import RfscAnalysis.
From S2P Require Import RfscExplore.
From S2P Require Import RfscPast.
From S2P Require Import RfscFormula.
From S2P Require Import RfscGraph.
From S2P Require Import RfscSat.
From S2P Require Import RfscTrace.
From S2P Require Import RfscInv.
From S2P Require Import RfscRun.
From S2P Require Import RfscOps.
From S2P Require Import RfscExec.
From S2P Require Import RfscReplay.
From S2P Require Import SExpr.
From S2P Require Import Smtlib.

(** ** A solver *)

(** The solver that tries every order of the variables. *)
Definition holdsb (v : nat -> nat) (c : constr) : bool :=
  match c with
  | Edge a b => bool_decide (v a < v b)
  | EdgeDisj a b c d => bool_decide (v a < v b) || bool_decide (v c < v d)
  end.
Definition search (f : formula) : option (list nat) :=
  head (filter (fun m => forallb (holdsb (value m)) (constraints f) = true) (permutations (seq 0 (variables f)))).

Lemma holdsb_ok v c : holdsb v c = true <-> holds v c.
Proof.
  destruct c; cbn; rewrite ?orb_true_iff, ?bool_decide_eq_true; done.
Qed.

Lemma search_ok : solver_ok search.
Proof.
  intros f. unfold search.
  assert (H : forall m, m ∈ filter (fun m => forallb (holdsb (value m)) (constraints f) = true) (permutations (seq 0 (variables f))) <->
    is_model f m).
  { intros m. rewrite list_elem_of_filter, permutations_Permutation. unfold is_model.
    rewrite forallb_forall, Forall_forall. setoid_rewrite <-holdsb_ok. setoid_rewrite <-list_elem_of_In.
    split; intros [? ?]; by split. }
  destruct (filter _ _) as [|m l] eqn:E; cbn.
  - intros m Hm%H. by apply not_elem_of_nil in Hm.
  - apply H. by left.
Qed.

(** ** A small trace: a store, and a load of it *)

Definition demo_x : SymAddrSize := MkSymAddrSize (MkSymAddr (MkSymMBlock 1 1) 0) 1.
Definition demo_data : SymDataRef := MkSymDataRef demo_x (Some [1%Z]).
Definition demo_store : Event := Event_new (MkIID 0 1) (SymEv_Store demo_data).
Definition demo_load (w : Z) : Event :=
  set_decision_fields (Some 1) 0 (set_read_from (Some w) (Event_new (MkIID 1 1) (SymEv_Load demo_x))).
Definition demo_threads : list Thread := [MkThread CPid_root true (-1) [0]; MkThread CPid_root true (-1) [1]].
Definition demo_trace (w : Z) : list Event := [demo_store; demo_load w].

Lemma demo_numbered w : numbered (demo_trace w).
Proof.
  apply (numbered_snoc [demo_store]); [|done..]. apply (numbered_snoc []); [apply numbered_nil|done..].
Qed.
Lemma demo_linked w : linked demo_threads (demo_trace w).
Proof. split; intros [|[|n]]; intros; simplify_eq/=; done. Qed.
Lemma demo_past w : (w = -1 \/ w = 0)%Z -> past_ok demo_threads (demo_trace w).
Proof.
  intros Hw [|[|i]] Hi; [| |simpl in Hi; lia].
  - exists []. split; [done|]. by intros j ?%not_elem_of_nil.
  - destruct Hw as [->| ->]; eexists; (split; [done|]); cbn; intros j Hj; [by apply not_elem_of_nil in Hj|].
    apply list_elem_of_singleton in Hj as ->. lia.
Qed.
Lemma demo_reads w : (w = -1 \/ w = 0)%Z -> reads_wf (demo_trace w).
Proof.
  intros Hw. split. intros [|[|r]] e w' He Hr; simplify_eq/=. exists demo_x. split; [done|].
  destruct Hw as [->| ->]; split; try done; [by left|right; by exists 0].
Qed.
Lemma demo_chained w : chained demo_threads (demo_trace w).
Proof. apply linked_chained; [apply demo_numbered|apply demo_linked|..]; intros [|[|i]]; intros; simplify_eq/=; done. Qed.
Lemma demo_decisions w : decisions_ok (demo_trace w).
Proof. intros [|[|i]] e He; simplify_eq/=; split; try (intros [? ?]; done); split; try done; [by intros [?|?]|by left]. Qed.

(** ** Running a program *)

(** C4. Every run of the trace builder that ends without an error, from a fresh
    state or from the prefix of a leaf, leaves a well-formed trace: identifiers
    count the steps of the threads, everything right before an event is earlier in
    the trace, every read reads the last write to its address, and the trace is an
    execution under sequential consistency. *)
Theorem runs_record_executions mutex_addr conf s0 running s s' : start s0 ->
  rtc (step mutex_addr conf) (false, s0) (running, s) -> schedule conf s = Some (None, s') -> errors s' = [] ->
  let ts := threads s' in let es := prefix s' in
  numbered es /\ linked ts es /\ past_ok ts es /\ (forall i j, i < length es -> before ts es i j -> j < i) /\
  reads_wf es /\ chained ts es /\ sc_execution ts es (replicate (length es) true) (seq 0 (length es)).
Proof.
  intros Hs Hrun Hend He ts es. pose proof (run_recorded mutex_addr conf s0 running s s' Hs Hrun Hend He) as Hrec.
  split_and!; [apply Hrec|apply Hrec|by apply recorded_past_ok|intros; by eapply recorded_before|by eapply recorded_reads
    |by apply recorded_chained|by apply recorded_execution].
Qed.

(** ** The causal past *)

(** C7. [causal_past] returns on every well-formed trace, and it marks exactly the
    events from which an event decided up to the given depth is reachable: those
    that a leaf for this decision has to keep. *)
Theorem causal_past_exact ts es d : past_ok ts es -> decisions_ok es ->
  exists keep, causal_past ts es d = Some keep /\ length keep = length es /\ closed ts es keep /\
    forall k, kept keep k = true <-> exists i, decided es d i /\ rtc (before ts es) i k.
Proof.
  intros Hp Hd. destruct (causal_past_spec ts es d Hp Hd) as (keep & E & Hlen & Hm). exists keep.
  assert (Hk : forall k, kept keep k = true <-> exists i, decided es d i /\ rtc (before ts es) i k).
  { intros k. rewrite <-Hm. unfold marked, kept. destruct (keep !! k) as [[]|]; naive_solver. }
  split_and!; try done. intros i j Hi Hb. apply Hk in Hi as (r & Hr & Hpath). apply Hk. exists r. split; [done|].
  by eapply rtc_r.
Qed.

(** ** The formula *)

(** C6. The formula of [output_formula] exists and its models are exactly the
    executions of the kept events under sequential consistency, read as positions
    in the execution; so the answer of a correct solver gives an execution, through
    [model_order], or shows that there is none. *)
Theorem formula_decides ts es wba keep : length keep = length es -> past_ok ts es -> reads_wf es -> writes_wf es wba ->
  closed ts es keep ->
  exists f, output_formula ts es wba keep = Some f /\
    (forall m o, matches keep m o -> order_of_kept keep o ->
       Forall (holds (value m)) (constraints f) <-> sc_execution ts es keep o) /\
    forall solver, solver_ok solver -> match solver f with
      | Some m => exists o, model_order keep 0 m (replicate (variables f) 0) = Some o /\ sc_execution ts es keep o
      | None => forall o, ~ sc_execution ts es keep o
      end.
Proof.
  intros Hlen Hp Hr Hw Hc. destruct (formula_spec ts es wba keep Hlen Hp Hr Hw) as (f & E & _ & Hf). exists f. split; [done|]. split.
  - intros m o Hm Ho. rewrite Hf. by apply constraints_execution.
  - intros solver Hs. destruct (solver_answer ts es wba keep Hlen Hp Hr Hw Hc solver Hs) as (f' & E' & _ & H). rewrite E in E'.
    injection E' as <-. exact H.
Qed.

(** C32. From the formula to the text of the solver and back, for integers and at
    least two variables: if the process answers the SMT-LIB script as the standard
    asks, and a subscript beyond the size of a vector reaches its reserved storage,
    then what [try_sat] does with it (write the formula, ask, read the model, order
    the events) fails no assertion, and gives an execution of the kept events under
    sequential consistency or rightly none. With a library that checks subscripts
    the same calls fail whenever there is an execution, since the model is written
    into an empty vector. *)
Theorem solver_finds_executions cl_lia z3 ts es wba keep f :
  length keep = length es -> past_ok ts es -> reads_wf es -> writes_wf es wba -> closed ts es keep ->
  output_formula ts es wba keep = Some f -> 2 <= variables f -> (Z.of_nat (variables f) < 2 ^ 31)%Z ->
  smtlib_process z3 (formula_script cl_lia f) ->
  exists r, solve false cl_lia false z3 f = Some r /\ match r with
    | Some m => solve false cl_lia true z3 f = None /\
        exists o, model_order keep 0 (Z.to_nat <$> m) (replicate (variables f) 0) = Some o /\ sc_execution ts es keep o
    | None => solve false cl_lia true z3 f = Some None /\ forall o, ~ sc_execution ts es keep o
    end.
Proof.
  intros Hlen Hp Hr Hw Hc Ef Htwo Hint Hz3.
  destruct (formula_in_range ts es wba keep Hlen Hp Hr Hw Hc f Ef) as [_ Hrange].
  destruct (solve_decides cl_lia f z3 Hz3 Htwo Hint Hrange) as (r & Es & Hm & Hchk). exists r. split; [done|].
  destruct r as [m|]; (split; [exact Hchk|]).
  - exact (answer_execution ts es wba keep Hlen Hp Hr Hw Hc f (Some (Z.to_nat <$> m)) Ef Hm).
  - exact (answer_execution ts es wba keep Hlen Hp Hr Hw Hc f None Ef Hm).
Qed.

(** ** [try_sat] *)

(** C5. The steps of [try_sat] on the graph and the formula find an execution of the
    kept events under sequential consistency whenever there is one, and no
    assertion on the way fails; and as long as the graph of the events has no
    cycle they return in any case, an execution or rightly none. *)
Theorem try_sat_decides order no_heuristic solver ts es keep last_change wba sub g0 :
  (forall m, order m ≡ₚ map_to_list m) -> solver_ok solver -> past_ok ts es -> reads_wf es -> chained ts es ->
  writes_wf es wba -> last_in ts es keep last_change sub -> cached ts es sub g0 ->
  ((exists o, sc_execution ts es keep o) ->
     exists o, find_order order no_heuristic solver ts es keep last_change wba g0 = Some (Some o) /\ sc_execution ts es keep o) /\
  forall g, whole_graph order es keep last_change g0 g -> acyclic g ->
    exists r, find_order order no_heuristic solver ts es keep last_change wba g0 = Some r /\
      match r with Some o => sc_execution ts es keep o | None => forall o, ~ sc_execution ts es keep o end.
Proof.
  intros Hord Hsol Hp Hr Hch Hw Hin Hc. pose proof (li_length _ _ _ _ _ Hin) as Hlen. pose proof (li_closed _ _ _ _ _ Hin) as Hcl. split.
  - by eapply find_order_complete.
  - by eapply find_order_correct.
Qed.

(** ** Leaves *)

(** C8. The order [try_sat] finds becomes a leaf, and a trace builder that dequeues
    it is ready to run again: its prefix has, in this order, events with the
    identifiers and the symbolic events of those of the order, with the decisions up
    to the depth of the leaf, and the others pinned. *)
Theorem leaf_replayed ts es keep o changed t item nd :
  past_ok ts es -> decisions_ok es -> reads_wf es -> numbered es -> linked ts es ->
  causal_past ts es (depth nd) = Some keep -> sc_execution ts es keep o ->
  made t -> dnodes t !! item = Some nd -> (0 <= depth nd)%Z ->
  (forall i e, es !! i = Some e -> (-1 <= decision_depth e)%Z) ->
  (forall d, (0 <= d <= depth nd)%Z -> exists i e, es !! i = Some e /\ decision_depth e = d) ->
  (forall i j, i ∈ changed -> kept keep j = true -> po_pred ts es j <> Some (Some i)) ->
  exists bs, order_to_leaf es (depth nd) changed o = Some (Leaf_of bs) /\
    forall s, decision_tree s = t -> leaf nd = leaf_copy (leaf_copy (Leaf_of bs)) -> is_pruned t item = Some false ->
      (total bs < 2 ^ 31)%Z ->
      exists s', reset [item] s = Some (true, s') /\ start s' /\ replay s' = true /\ errors s' = errors s /\
        length (prefix s') = length o /\
        forall q i e, o !! q = Some i -> es !! i = Some e -> exists e', prefix s' !! q = Some e' /\ replayed (depth nd) e e'.
Proof. intros ??????? Hmade ?????. apply made_ok in Hmade. by eapply order_replayed. Qed.

(** ** Undoing *)

(** C22. A compare-exchange or trylock gets the outcome that fits what it reads from:
    it becomes a successful one exactly if it finds the expected value or the mutex
    free, the list of the writes to its address loses or gains it, and undoing
    restores the trace and the list as they were. *)
Theorem outcome_undone idx es l e rf before ok (ev : bool -> SymEv) :
  es !! idx = Some e -> read_from e = Some rf -> sym e = ev before ->
  (exists d x, is_Some (sdr_block d) /\ ev = cas d x) \/ (exists a, ev = trylock a) ->
  succeeds es (sym e) rf = Some ok -> (before = true -> Z.of_nat idx ∈ l) ->
  exists log es' l', recompute_cmpxhg_success idx es l = Some (log, es', l') /\ es' = <[idx := set_sym (ev ok) e]> es /\
    writes_change idx before ok l l' /\ undo_cmpxhg_recomputation log es' l' = Some (es, l).
Proof.
  intros He Hr Hs [(d & x & Hd & ->)|(a & ->)] Hok Hl.
  - destruct (cas_outcome idx es l e rf before ok He Hr Hok Hl d x Hd Hs) as (log & l' & E & Eu & Hw). by exists log, (<[idx := set_sym (cas d x ok) e]> es), l'.
  - destruct (trylock_outcome idx es l e rf before ok He Hr Hok Hl a Hs) as (log & es' & l' & E & -> & Eu & Hw). by exists log, (<[idx := set_sym (trylock a ok) e]> es), l'.
Qed.

(** ** Pruning *)

(** C23. In every tree that the calls build, the walks up from a node end:
    [is_pruned] answers whether the node or a node above it, the root aside, was
    pruned, and [find_ancestor] finds the ancestor of a depth. *)
Theorem pruned_below t n nd : made t -> dnodes t !! n = Some nd ->
  (exists b, is_pruned t n = Some b /\
    (b = true <-> exists m md, rtc (parent_of t) n m /\ dnodes t !! m = Some md /\ depth md <> (-1)%Z /\ pruned_subtree md = true)) /\
  forall wanted, (-1 <= wanted <= depth nd)%Z -> exists m md, find_ancestor t n wanted = Some m /\
    dnodes t !! m = Some md /\ depth md = wanted /\ rtc (parent_of t) n m.
Proof. intros Hok%made_ok Hn. split; [by apply (is_pruned_spec t Hok n nd)|intros wanted Hw; by apply (find_ancestor_spec t Hok n nd)]. Qed.

(** ** Witnesses *)

Definition demo_rfsc : Configuration := MkConfiguration (MkConflictConf false) READS_FROM SC false (-1) false.
Definition no_mutex : SymAddr -> bool := fun _ => false.

(** The calls of a small program. *)
Inductive call := Next | Do (o : op) | Block (p : Z).
Definition play1 (x : option (bool * RFSCTraceBuilder)) (c : call) : option (bool * RFSCTraceBuilder) :=
  y ← x; let '(running, s) := y in
  match c with
  | Next => r ← schedule demo_rfsc s; Some (bool_decide (is_Some r.1), r.2)
  | Do o => if (running : bool) then r ← perform o s; Some (true, r.2) else None
  | Block p => r ← mark_unavailable p s; Some (running, r.2)
  end.
Definition call_ok (c : call) : Prop := match c with Do o => op_ok no_mutex o | _ => True end.

Lemma play_steps cs x y : Forall call_ok cs -> foldl play1 (Some x) cs = Some y -> rtc (step no_mutex demo_rfsc) x y.
Proof.
  revert x. induction cs as [|c cs IH]; intros x Hok H; [by injection H as <-|]. apply Forall_cons in Hok as [Hc Hok]. cbn [foldl] in H.
  assert (Hnone : foldl play1 None cs = None) by (clear; induction cs; [done|by cbn]).
  destruct (play1 (Some x) c) as [z|] eqn:Ez; [|by rewrite Hnone in H].
  eapply rtc_l; [|by apply IH]. destruct x as [running s]. unfold play1 in Ez. cbn [mbind option_bind] in Ez. destruct c as [|o|p].
  - destruct (schedule demo_rfsc s) as [[r s']|] eqn:E; [|done]. injection Ez as <-. by apply step_schedule.
  - destruct running; [|done]. destruct (perform o s) as [[r s']|] eqn:E; [|done]. injection Ez as <-. by eapply step_perform.
  - destruct (mark_unavailable p s) as [[r s']|] eqn:E; [|done]. injection Ez as <-. by eapply step_unavailable.
Qed.

Definition demo_new : RFSCTraceBuilder := RFSCTraceBuilder_new (initial_tree).2 empty_utree.
Definition demo_calls : list call :=
  [Next; Do Spawn; Next; Do (Store demo_data); Next; Block 0; Next; Do (Load demo_x); Next; Block 1].
Definition demo_final : bool * RFSCTraceBuilder := default (false, demo_new) (foldl play1 (Some (false, demo_new)) demo_calls).

Lemma runs_record_executions_witness : exists s', schedule demo_rfsc demo_final.2 = Some (None, s') /\
  let es := prefix s' in length es = 3 /\ read_from <$> es = [None; None; Some 1%Z] /\
  reads_wf es /\ sc_execution (threads s') es [true; true; true] [0; 1; 2].
Proof.
  destruct (schedule demo_rfsc demo_final.2) as [[[r|] s']|] eqn:E; [by vm_compute in E| |by vm_compute in E].
  exists s'. split; [done|].
  assert (Hlen : length (prefix s') = 3 /\ read_from <$> prefix s' = [None; None; Some 1%Z] /\ errors s' = []).
  { vm_compute in E. injection E as <-. by vm_compute. }
  destruct Hlen as (Hlen & Hr & He).
  destruct (runs_record_executions no_mutex demo_rfsc demo_new demo_final.1 demo_final.2 s') as (_ & _ & _ & _ & Hreads & _ & Hsc).
  - apply new_start.
  - replace (demo_final.1, demo_final.2) with demo_final by by destruct demo_final.
    apply (play_steps demo_calls); [|by vm_compute].
    repeat constructor; cbn; unfold_consts; try done; lia.
  - done.
  - done.
  - cbv zeta in Hsc. rewrite Hlen in Hsc. by split_and!.
Defined.

Lemma causal_past_exact_witness : exists keep, causal_past demo_threads (demo_trace 0) 0 = Some keep /\ keep = [true; true].
Proof.
  destruct (causal_past_exact demo_threads (demo_trace 0) 0) as (keep & E & _); [apply demo_past; by right|apply demo_decisions|].
  exists keep. split; [done|]. vm_compute in E. by injection E as <-.
Defined.

Lemma demo_closed w : (w = -1 \/ w = 0)%Z -> closed demo_threads (demo_trace w) [true; true].
Proof.
  intros Hw i j Hi (l & El & Hj). destruct i as [|[|i]]; [| |done].
  - injection El as <-. by apply not_elem_of_nil in Hj.
  - destruct Hw as [->| ->]; injection El as <-; cbn in Hj; [by apply not_elem_of_nil in Hj|].
    by apply list_elem_of_singleton in Hj as ->.
Qed.

Definition demo_writes : gmap SymAddr (list Z) := {[ sas_addr demo_x := [0%Z] ]}.
Lemma demo_writes_wf w : writes_wf (demo_trace w) demo_writes.
Proof.
  intros a j. unfold writes_at, demo_writes. destruct (decide (a = sas_addr demo_x)) as [->|Hne].
  - rewrite lookup_singleton_eq. simpl. rewrite list_elem_of_singleton. split.
    + intros ->. by exists 0.
    + intros ([|[|n]] & -> & Hs); done.
  - rewrite lookup_singleton_ne by done. split; [by intros ?%not_elem_of_nil|].
    intros ([|[|n]] & -> & Hs); try done. unfold stores_to in Hs. cbn in Hs. apply bool_decide_eq_true in Hs. destruct Hne. by rewrite <-Hs.
Qed.

Lemma formula_decides_witness : exists f, output_formula demo_threads (demo_trace (-1)) demo_writes [true; true] = Some f /\
  exists m o, search f = Some m /\ model_order [true; true] 0 m (replicate (variables f) 0) = Some o /\ o = [1; 0] /\
    sc_execution demo_threads (demo_trace (-1)) [true; true] o.
Proof.
  destruct (formula_decides demo_threads (demo_trace (-1)) demo_writes [true; true]) as (f & E & _ & H);
    [done|apply demo_past; by left|apply demo_reads; by left|apply demo_writes_wf|apply demo_closed; by left|].
  exists f. split; [done|]. specialize (H search search_ok). vm_compute in E. injection E as <-.
  destruct (search _) as [m|] eqn:Em; [|by vm_compute in Em]. destruct H as (o & Eo & Ho). exists m, o.
  split; [done|]. split; [done|]. split; [|done]. vm_compute in Em. injection Em as <-. vm_compute in Eo. by injection Eo as <-.
Defined.

Lemma solver_finds_executions_witness : exists m o, solve false false false demo_process demo_formula = Some (Some m) /\
  solve false false true demo_process demo_formula = None /\ model_order [true; true] 0 (Z.to_nat <$> m) (replicate 2 0) = Some o /\ o = [1; 0] /\
  sc_execution demo_threads (demo_trace (-1)) [true; true] o.
Proof.
  destruct (solver_finds_executions false demo_process demo_threads (demo_trace (-1)) demo_writes [true; true] demo_formula) as (r & E & H);
    [done|apply demo_past; by left|apply demo_reads; by left|apply demo_writes_wf|apply demo_closed; by left
    |by vm_compute|cbn; lia|cbn; lia|apply demo_process_ok|].
  destruct r as [m|]; [|by vm_compute in E]. destruct H as (Hchk & o & Eo & Ho). exists m, o. split; [done|]. split; [exact Hchk|]. split; [done|]. split; [|done].
  vm_compute in E. injection E as <-. vm_compute in Eo. by injection Eo as <-.
Defined.

Lemma demo_sc : sc_execution demo_threads (demo_trace (-1)) [true; true] [1; 0].
Proof.
  split.
  - by apply (bool_decide_unpack _).
  - intros [|[|i]]; (split; [|try done; set_solver]); intros Hi; try done. exfalso.
    rewrite !elem_of_cons in Hi. destruct Hi as [?|[?|?%not_elem_of_nil]]; lia.
  - intros [|[|q]] i p Hq Hp; simplify_eq/=; done.
  - intros [|[|q]] i e j Hq He Hj; simplify_eq/=; by apply not_elem_of_nil in Hj.
  - intros [|[|q]] r e w a Hq He Hr Ha; simplify_eq/=; done.
Qed.

Lemma demo_cached w : cached demo_threads (demo_trace w) [] empty_graph.
Proof.
  split; [|by vm_compute]. split.
  - split; try done.
    + apply empty_good.
    + intros q id. split; [|by intros (i & e & ? & _)]. intros H. by apply not_elem_of_nil in H.
  - intros P _ i j (e & ins & He & _). done.
Qed.

Lemma demo_last_in : last_in demo_threads (demo_trace (-1)) [true; true] 1 [].
Proof.
  split; try done.
  - apply demo_closed. by left.
  - split_and!; [constructor|by intros i ?%not_elem_of_nil|done].
  - by intros i ?%not_elem_of_nil.
  - intros [|[|i]] j Hi Hne (l & El & Hj); [|done|done]. injection El as <-. by apply not_elem_of_nil in Hj.
  - intros (l & El & Hj). injection El as <-. by apply not_elem_of_nil in Hj.
Qed.

Lemma try_sat_decides_witness : exists o,
  find_order map_to_list false search demo_threads (demo_trace (-1)) [true; true] 1 demo_writes empty_graph = Some (Some o) /\
  o = [1; 0] /\ sc_execution demo_threads (demo_trace (-1)) [true; true] o.
Proof.
  destruct (try_sat_decides map_to_list false search demo_threads (demo_trace (-1)) [true; true] 1 demo_writes [] empty_graph) as [H _];
    [done|apply search_ok|apply demo_past; by left|apply demo_reads; by left|apply demo_chained|apply demo_writes_wf|apply demo_last_in|apply demo_cached|].
  destruct H as (o & E & Ho); [exists [1; 0]; apply demo_sc|]. exists o. split; [done|]. split; [|done].
  vm_compute in E. by injection E as <-.
Defined.

(** *** A leaf *)

Definition demo_branches : list Branch :=
  default [] (leaf_prefix <$> order_to_leaf (demo_trace 0) 0 [1] [0; 1]).
Definition demo_node : DecisionNode := sibling_node 0 (-1) None (Leaf_of demo_branches).
Definition demo_tree : dtree := default (initial_tree).2 (snd <$> construct_sibling 1 None (Leaf_of demo_branches)
  (default (initial_tree).2 (snd <$> new_decision_node 0 None (initial_tree).2))).

Lemma demo_made : made demo_tree.
Proof.
  unfold demo_tree. destruct (new_decision_node 0 None (initial_tree).2) as [[n t]|] eqn:E; [|by vm_compute in E].
  destruct (construct_sibling 1 None (Leaf_of demo_branches) t) as [[m t']|] eqn:E'.
  - cbn [fmap option_fmap option_map snd default from_option id]. rewrite E'. simpl. eapply made_sibling; [|exact E']. eapply made_node; [|exact E]. apply made_initial.
  - vm_compute in E. injection E as <- <-. by vm_compute in E'.
Qed.

Lemma demo_recorded_sc : sc_execution demo_threads (demo_trace 0) [true; true] [0; 1].
Proof.
  apply (recorded_execution demo_threads (demo_trace 0)). split; [apply demo_numbered|apply demo_linked|].
  split.
  - intros [|[|i]] e j _ He Hj; simplify_eq/=; by apply not_elem_of_nil in Hj.
  - intros [|[|i]] e _ He; simplify_eq/=; done.
  - intros [|[|i]] e _ He Hs; simplify_eq/=; done.
  - intros [|[|i]] e w _ He Hw; simplify_eq/=. by exists demo_x.
Qed.

Lemma leaf_replayed_witness : exists s', reset [2] (set_decision_tree demo_tree demo_new) = Some (true, s') /\ start s' /\
  length (prefix s') = 2 /\ iid <$> prefix s' = [MkIID 0 1; MkIID 1 1].
Proof.
  destruct (leaf_replayed demo_threads (demo_trace 0) [true; true] [0; 1] [1] demo_tree 2 demo_node) as (bs & Ebs & H);
    [apply demo_past; by right|apply demo_decisions|apply demo_reads; by right|apply demo_numbered|apply demo_linked|by vm_compute
    |apply demo_recorded_sc|apply demo_made|by vm_compute|done|..].
  - intros [|[|i]] e He; simplify_eq/=; lia.
  - cbn. intros d Hd. exists 1, (demo_load 0). split; [done|]. cbn. lia.
  - intros i [|[|j]] ->%list_elem_of_singleton Hj; done.
  - assert (bs = demo_branches) as -> by (vm_compute in Ebs; injection Ebs as <-; by vm_compute).
    destruct (H (set_decision_tree demo_tree demo_new)) as (s' & Hr & Hst & _ & _ & Hlen & Hev); [done|done|by vm_compute|by vm_compute|].
    exists s'. split; [done|]. split; [done|]. split; [done|].
    destruct (Hev 0 0 demo_store eq_refl eq_refl) as (e0 & He0 & Hr0). destruct (Hev 1 1 (demo_load 0) eq_refl eq_refl) as (e1 & He1 & Hr1).
    destruct (prefix s') as [|x [|y [|z l]]]; try done. injection He0 as ->. injection He1 as ->. cbn.
    by rewrite (re_iid _ _ _ Hr0), (re_iid _ _ _ Hr1).
Defined.

(** *** Outcomes and pruning *)

Definition demo_cas : Event := set_read_from (Some (-1)%Z) (Event_new (MkIID 0 1) (cas demo_data (Some [0%Z]) false)).

Lemma outcome_undone_witness : exists log es' l', recompute_cmpxhg_success 0 [demo_cas] [7%Z] = Some (log, es', l') /\
  ev_kind ∘ sym <$> es' = [CMPXHG] /\ l' = [7%Z; 0%Z] /\ undo_cmpxhg_recomputation log es' l' = Some ([demo_cas], [7%Z]).
Proof.
  destruct (outcome_undone 0 [demo_cas] [7%Z] demo_cas (-1) false true (cas demo_data (Some [0%Z]))) as (log & es' & l' & E & -> & Hw & Hu);
    [done|done|done|left; by exists demo_data, (Some [0%Z])|by vm_compute|done|].
  exists log, [set_sym (cas demo_data (Some [0%Z]) true) demo_cas], l'. by split_and!.
Defined.

Lemma pruned_below_witness : exists t b, prune_decisions 2 demo_tree = Some t /\ is_pruned t 2 = Some b /\ b = true.
Proof.
  destruct (prune_decisions 2 demo_tree) as [t|] eqn:E; [|by vm_compute in E].
  destruct (pruned_below t 2 (set_pruned true demo_node)) as [(b & Eb & Hb) _].
  - eapply made_prune; [apply demo_made|done].
  - vm_compute in E. injection E as <-. by vm_compute.
  - exists t, b. split; [done|]. split; [done|]. apply Hb. exists 2, (set_pruned true demo_node). split; [done|].
    vm_compute in E. injection E as <-. by vm_compute.
Defined.
